(* ===== verification/_CoqProject ===== *)
-Q . S2P
Prelude.v
BitPack.v
Bytes.v
Postings.v
DeltaBlocks.v
PostingsTable.v
Trigrams.v
SparseGrams.v
QueryPlan.v
Eval.v
SparseTable.v
Terms.v
Format.v
Detect.v
Decode.v
Candidate.v
PackBuild.v
PackRead.v
PackBatch.v
PackLines.v
PackFetch.v
PackRegions.v
Grep.v
SegmentList.v
Cache.v
Update.v
Witness.v
Stream.v
Verify.v
Windows.v
Results.v
FileGrams.v
Runs.v
RunWriter.v
Build.v
Compact.v
Publish.v
Protocol.v
Merge.v
PostingRead.v
SegmentSearch.v
