(* ===== verification/Prelude.v ===== *)
(** * seagrep: a verification development of the index and search core

    seagrep answers regular-expression searches over a store of objects with an
    n-gram index.  This development models the Rust crates under [src/crates]:
    the grams of a text and the posting lists over them, the plan that turns a
    pattern into a query, the segments of an index and the packs that hold the
    documents, the build, update and compaction of an index, and the search that
    reads them.  The results that tie them together are that a search visits every
    live document that may match, and that what is found in a document, however
    it is fetched, is what matching the whole document finds.

    ** How the parts interact

    A build (build.rs) decodes every source into documents (codec.rs), extracts
    their grams (grams.rs, build/runs.rs), appends their bytes to packs (pack.rs)
    and writes sorted runs of postings; the runs are merged (build/runs.rs) into
    a dictionary of terms and a file of posting blocks (lib.rs, delta_blocks.rs,
    sparse_table.rs, postings_table.rs).  Tables of sources, documents and blocks
    (format.rs) and a root that lists the segments (segment.rs) complete the
    index.  An update compares the listing of the sources with the segments and
    decides what is added, what dies and what is rewritten (segment.rs);
    compaction merges neighbouring segments (segment/compact.rs).  A search plans
    a query (query), evaluates it over posting lists (eval.rs), expands candidate
    blocks to byte ranges of documents (candidate.rs), fetches the documents or
    the ranges from the packs (pack.rs), and matches them (search/verify.rs,
    core/grep.rs).

    ** Files

    Shared: this file has results ([res]: [Ok], [Err] as [anyhow::Error], and
    [Panic] for what would panic: indexing, [expect], exhausted fuel), stateful
    code ([ST] and its triples), machine integers (naturals with the wrap-around,
    saturation or check written out), lists indexed by naturals, the order of byte
    strings, and sorting.  BitPack and Bytes are the bit packing and the integers
    as bytes that the codecs share.

    Postings and terms: Postings (lib.rs: posting blocks), DeltaBlocks
    (delta_blocks.rs), PostingsTable (postings_table.rs), SparseTable
    (sparse_table.rs), Terms (terms.rs: the dictionaries of a segment over either
    format).  Each codec has a round trip, and decoders never panic on damaged
    input.

    Grams and queries: Trigrams and SparseGrams (core/grams.rs), QueryPlan
    (query/lib.rs), Eval (index/eval.rs).  The grams of a covering are grams of
    the index; a plan only demands what every match has; the evaluation is the
    denotation of the query, and has no false negative.

    Documents: Format (format.rs), Detect and Decode (core/codec.rs,
    codec/detect.rs, compressed.rs, body.rs), PackBuild, PackRead, PackBatch,
    PackLines, PackFetch, PackRegions (pack.rs).  Tables that validate are well
    formed; decoding terminates within its limits on depth and bytes and gives
    what an inductive description of the formats gives; a pack gives back the
    bytes that were put in it, verified against their hashes; documents and
    regions are fetched exactly, whatever the store answers.

    Building: FileGrams, RunWriter, Runs (build/runs.rs), Build (build.rs).  The
    runs hold exactly the postings of the documents; merging them gives a sorted
    dictionary whose lists decode to these postings; a built index holds its
    corpus, and fulfils what the search of either strategy needs.

    Life of an index: SegmentList, Update (segment.rs), Publish (segment.rs: the
    writing of segments), Protocol (segment.rs: runs that update one index at the
    same time), Cache (segment/cache.rs), Compact and Merge (segment/compact.rs).
    The plan of an update keeps what is live, garbage collection spares what is
    published, a listing is written as segments within
    the document cap that are complete in the store and have exactly the postings
    of their documents, merging segments keeps exactly the live documents and
    their postings, and concurrent runs never leave a root that lacks a file of
    one of its segments; they may lose a pack, which Protocol shows.

    Searching: Candidate (candidate.rs), PostingRead and SegmentSearch
    (segment.rs), Witness (core/pattern.rs), Stream, Verify, Windows and Results
    (search/verify.rs, search/plan.rs), Grep (core/grep.rs).  Candidates cover
    every match; posting blocks are read exactly or an error is reported; a search
    of the segments, whether their index is trigram or sparse, visits every live
    document that may match; full lines are the same from a whole document and from its regions; matching a
    region, a file in chunks, or windows of lines gives what matching the whole
    document gives.

    The state of a component is a Record with the fields of the Rust struct;
    each operation is the definition with the name of the function, and the
    comment before a definition names the function when the names differ.  Where Rust mutates through [&mut], the model returns
    the new state; where it holds an object behind [&self] across errors, the
    model is in [ST], whose state survives an error.

    ** Third-party code

    Code that is not in the repository is an argument with its documented laws:
    compression ([Codec]: decompressing what was compressed gives the bytes, a
    digest has 32 bytes), sorting ([SortsN]), the regex engine ([Automaton],
    [BoundedProgram]), archive and table formats ([CratesOk]), finite-state
    maps ([FstOk]), hashing,
    serialization ([postcard] as a decoder), the object store and the files of a
    cache ([Io], and the world it acts on).  Each law has a concrete instance in
    a witness.

    ** Bounds and fuel

    Integers are naturals; every operation that wraps, saturates or fails at
    2^32 or 2^64 is written with its bound, and the theorems state the ranges
    that a hypothesis needs ([U32], [U64], [MAX_POSTING_COUNT] = 2^24 - 1).  A
    recursion that is not structural takes fuel and panics when it runs out; the
    theorems exclude panics, so they show that the fuel is enough.  It is a
    measure that the loop decreases: the bytes or blocks or requests that are
    left, the number of runs, the size of the expression, the depth that the code
    itself limits (decoding), or the number of states times their degree
    (witnesses).  Constants such as [CANDIDATE_BLOCK_BYTES] (128 KiB) and
    [PACK_TARGET_BYTES] (256 MiB) are those of the code; where a loop is over a
    constant, a lemma generalizes it so that witnesses can compute.

    ** What is not modelled, and why

    Threads: work in parallel is modelled by its sequential meaning; where the
    code overlaps work (a fetch ahead, a batch shared by loaders) the model keeps
    the claims and the errors, and the equivalence with the sequential order is a
    theorem.  Files and memory maps are lists of bytes.  The streamed file cache
    and its eviction, the transport of the compare-and-swap of the root (its
    protocol is modelled), the S3 client, credentials and transport, and the command line are input and
    output, and so are the range reads of a sparse dictionary that stays in the
    store (remote_terms.rs): a search takes the lookup of a gram as an operation
    of the segment.  The HIR analysis of regex-syntax and the automata of regex-automata
    are third-party code.  The loop of a search over its workers and its report
    to a sink are left out: their parts (candidates, fetches, matches) are
    modelled.  The tables of tabular formats are opaque to the index, since the
    columns are rendered by third-party crates. *)

From stdpp Require Export base tactics numbers list option strings sets gmap.
From Stdlib Require Export Sorting.Sorted ZifyBool ZifyN ZifyNat.
#[export] Set Default Goal Selector "!".
#[export] Set Warnings "-clear-no-such-hyp,-register-all".
#[global] Open Scope N_scope.
Ltac Zify.zify_post_hook ::= Z.to_euclidean_division_equations.

(** ** Results: [anyhow::Result] plus the panics of indexing and [expect] *)

Inductive res (A : Type) : Type :=
  | Ok (a : A)
  | Err (msg : string)
  | Panic (why : string).
Arguments Ok {A} a.
Arguments Err {A} msg.
Arguments Panic {A} why.

#[export] Instance res_ret : MRet res := fun A a => Ok a.
#[export] Instance res_bind : MBind res := fun A B f m =>
  match m with
  | Ok a => f a
  | Err e => Err e
  | Panic w => Panic w
  end.
#[export] Instance res_fmap : FMap res := fun A B f m =>
  match m with
  | Ok a => Ok (f a)
  | Err e => Err e
  | Panic w => Panic w
  end.

(** [anyhow::ensure!(b, msg)] *)
Definition ensure (b : bool) (msg : string) : res unit :=
  if b then Ok tt else Err msg.

(** [Option::context(msg)?] *)
Definition with_context {A} (o : option A) (msg : string) : res A :=
  match o with Some a => Ok a | None => Err msg end.

(** An indexing expression or [expect]: panics when the value is missing. *)
Definition expect {A} (o : option A) (why : string) : res A :=
  match o with Some a => Ok a | None => Panic why end.

Definition is_ok {A} (r : res A) : bool :=
  match r with Ok _ => true | _ => false end.

Definition no_panic {A} (r : res A) : Prop :=
  forall w, r <> Panic w.

(** [iter().map(f).collect::<Result<Vec<_>>>()] *)
Fixpoint mapM_res {A B} (f : A -> res B) (l : list A) : res (list B) :=
  match l with
  | [] => Ok []
  | x :: l => y ← f x; ys ← mapM_res f l; Ok (y :: ys)
  end.

(** A [for] loop whose body may return early with an error. *)
Fixpoint foldM {S A} (f : S -> A -> res S) (s : S) (l : list A) : res S :=
  match l with
  | [] => Ok s
  | x :: l => s' ← f s x; foldM f s' l
  end.

(** Closes the equivalences that invert one monadic or checked operation. *)
Ltac inv_iff :=
  cbn; split;
  [intros; simplify_eq; eauto with lia
  |intros; repeat match goal with H : exists _, _ |- _ => destruct H | H : _ /\ _ |- _ => destruct H end;
   simplify_eq; eauto; try lia].

Lemma bind_ok {A B} (m : res A) (f : A -> res B) b :
  (m ≫= f) = Ok b <-> exists a, m = Ok a /\ f a = Ok b.
Proof. destruct m; cbn; inv_iff. Qed.

Lemma fmap_ok {A B} (f : A -> B) (m : res A) b :
  f <$> m = Ok b <-> exists a, m = Ok a /\ b = f a.
Proof. destruct m; cbn; inv_iff. Qed.

Lemma ensure_ok b msg u : ensure b msg = Ok u <-> b = true.
Proof. destruct b, u; cbn; inv_iff. Qed.

Lemma with_context_ok {A} (o : option A) msg a : with_context o msg = Ok a <-> o = Some a.
Proof. destruct o; cbn; inv_iff. Qed.

Lemma expect_ok {A} (o : option A) msg a : expect o msg = Ok a <-> o = Some a.
Proof. destruct o; cbn; inv_iff. Qed.

(** Decomposes hypotheses that say a monadic computation returned [Ok]. *)
Ltac res_inv1 :=
  match goal with
  | H : Ok _ = Ok _ |- _ => injection H; clear H; intros; subst
  | H : Err _ = Ok _ |- _ => discriminate H
  | H : Panic _ = Ok _ |- _ => discriminate H
  | H : (_ ≫= _) = Ok _ |- _ =>
      apply bind_ok in H; let a := fresh "a" in destruct H as (a & ? & H)
  | H : _ <$> _ = Ok _ |- _ =>
      apply fmap_ok in H; let a := fresh "a" in destruct H as (a & ? & ?); subst
  | H : ensure _ _ = Ok ?u |- _ => apply ensure_ok in H; try (is_var u; destruct u)
  | H : with_context _ _ = Ok _ |- _ => apply with_context_ok in H
  | H : expect _ _ = Ok _ |- _ => apply expect_ok in H
  | H : mret _ = Ok _ |- _ => cbn in H
  end.
Ltac res_inv := repeat res_inv1.

Lemma mapM_res_ok {A B} (f : A -> res B) l l' :
  mapM_res f l = Ok l' <-> Forall2 (fun x y => f x = Ok y) l l'.
Proof.
  revert l'. induction l as [|x l IH]; intros l'; cbn; split.
  - intros [= <-]. constructor.
  - inversion 1; done.
  - intros H. res_inv. constructor; [done|]. by apply IH.
  - inversion 1; subst. rewrite H2. cbn. by apply IH in H4 as ->.
Qed.

Lemma foldM_app {S A} (f : S -> A -> res S) s l1 l2 :
  foldM f s (l1 ++ l2) = (s' ← foldM f s l1; foldM f s' l2).
Proof.
  revert s. induction l1 as [|x l1 IH]; intros s; cbn; [done|].
  destruct (f s x); cbn; [apply IH|done|done].
Qed.
Lemma foldM_fmap {S A C} (f : S -> C -> res S) (g : A -> C) s l : foldM f s (g <$> l) = foldM (fun s x => f s (g x)) s l.
Proof. revert s. induction l as [|x l IH]; intros s; [done|]. cbn [fmap list_fmap foldM]. destruct (f s (g x)); [apply IH|done..]. Qed.
Lemma foldM_concat {S A} (f : S -> A -> res S) s ls : foldM f s (concat ls) = foldM (fun s l => foldM f s l) s ls.
Proof. revert s. induction ls as [|l ls IH]; intros s; [done|]. cbn [concat foldM]. rewrite foldM_app. destruct (foldM f s l); [apply IH|done..]. Qed.
Lemma foldM_ext_elem {S A} (f g : S -> A -> res S) s l : (forall x s, x ∈ l -> f s x = g s x) -> foldM f s l = foldM g s l.
Proof.
  revert s. induction l as [|x l IH]; intros s H; [done|]. cbn [foldM]. rewrite H by left. destruct (g s x); [|done..]. apply IH. intros y s' Hy. apply H. by right.
Qed.

(** Invariant rule for [foldM]. *)
Lemma foldM_ind {S A} (P : S -> Prop) (f : S -> A -> res S) s l s' :
  P s -> (forall s x s', x ∈ l -> P s -> f s x = Ok s' -> P s') ->
  foldM f s l = Ok s' -> P s'.
Proof.
  revert s. induction l as [|x l IH]; intros s Hs Hstep; cbn; intros H; res_inv; [done|].
  eapply IH; [|intros; eapply Hstep; [by right|done|done]|done].
  eapply Hstep; [by left|done|done].
Qed.

(** An operation that either fails with an error or returns a good value. *)
Definition safe {A} (r : res A) (P : A -> Prop) : Prop :=
  (exists e, r = Err e) \/ (exists a, r = Ok a /\ P a).

Lemma safe_bind {A B} (r : res A) (f : A -> res B) (P : A -> Prop) (Q : B -> Prop) :
  safe r P -> (forall a, P a -> safe (f a) Q) -> safe (r ≫= f) Q.
Proof. intros [[e ->]|(a & -> & Ha)] Hf; [left; by eexists|]. by apply Hf. Qed.
Lemma safe_ok {A} (a : A) (P : A -> Prop) : P a -> safe (Ok a) P.
Proof. intros. right. eauto. Qed.
Lemma safe_ensure b msg : safe (ensure b msg) (fun _ => b = true).
Proof. destruct b; [right|left]; by eexists. Qed.
Lemma safe_context {A} (o : option A) msg : safe (with_context o msg) (fun a => o = Some a).
Proof. destruct o; [right|left]; by eexists. Qed.
Lemma safe_expect {A} (o : option A) msg : is_Some o -> safe (expect o msg) (fun a => o = Some a).
Proof. intros [a ->]. right. by eexists. Qed.
Lemma safe_weaken {A} (r : res A) (P Q : A -> Prop) : safe r P -> (forall a, P a -> Q a) -> safe r Q.
Proof. intros [?|(a & ? & ?)] HPQ; [by left|right; eauto]. Qed.
Lemma safe_no_panic {A} (r : res A) (P : A -> Prop) :
  safe r P -> no_panic r /\ forall a, r = Ok a -> P a.
Proof.
  intros [[e ->]|(a & -> & H)]; (split; [by intros ?|]); [done|]. by intros ? [= <-].
Qed.

(** One bind whose first computation has a known result; components add the
    results of their own readers to the database. *)
Create HintDb safe.
#[export] Hint Resolve safe_ensure safe_context : safe.
#[export] Hint Extern 3 (_ <= _) => lia : safe.
#[export] Hint Extern 3 (_ = _ :> N) => lia : safe.
Ltac safe_next := eapply safe_bind; [solve [eauto 3 with safe]|].

(** The loop rule: an invariant of the prefix already processed. *)
Lemma foldM_safe {S A} (P : list A -> S -> Prop) (f : S -> A -> res S) s l :
  P [] s ->
  (forall pre x post s, l = pre ++ x :: post -> P pre s -> safe (f s x) (P (pre ++ [x]))) ->
  safe (foldM f s l) (P l).
Proof.
  intros H0 Hstep. cut (forall pre post s, l = pre ++ post -> P pre s -> safe (foldM f s post) (P l)).
  { intros H. by apply (H [] l s). }
  intros pre post. revert pre. induction post as [|x post IH]; intros pre s' -> Hp; cbn [foldM].
  - apply safe_ok. by rewrite app_nil_r.
  - eapply safe_bind; [by eapply Hstep|]. intros s2 Hs2. apply (IH (pre ++ [x])); [|done]. by rewrite <- app_assoc.
Qed.

(** The same rule when no step fails. *)
Lemma foldM_total {S A} (P : list A -> S -> Prop) (f : S -> A -> res S) s l :
  P [] s ->
  (forall pre x post s, l = pre ++ x :: post -> P pre s -> exists s', f s x = Ok s' /\ P (pre ++ [x]) s') ->
  exists s', foldM f s l = Ok s' /\ P l s'.
Proof.
  intros H0 Hstep. cut (forall pre post s, l = pre ++ post -> P pre s -> exists s', foldM f s post = Ok s' /\ P l s').
  { intros H. by apply (H [] l s). }
  intros pre post. revert pre. induction post as [|x post IH]; intros pre s' -> Hp; cbn [foldM].
  - exists s'. by rewrite app_nil_r.
  - edestruct Hstep as (s2 & -> & Hs2); [done|done|]. cbn [mbind res_bind].
    apply (IH (pre ++ [x])); [|done]. by rewrite <- app_assoc.
Qed.

Lemma foldM_unit {A} (f : unit -> A -> res unit) l :
  foldM f tt l = Ok tt <-> forall x, x ∈ l -> f tt x = Ok tt.
Proof.
  induction l as [|x l IH]; cbn [foldM]; [split; [intros _ ? []%elem_of_nil|done]|]. rewrite bind_ok. split.
  - intros ([] & Hx & Hl) y [->|Hy]%elem_of_cons; [done|]. by apply IH.
  - intros H. exists tt. split; [apply H; left|]. apply IH. intros. apply H. by right.
Qed.

(** ** Stateful code that may fail

    [ST S A] threads a state through code that returns [Result<A>]; the state
    survives an error, as an object behind [&self] does.  A [triple] states
    what holds after success and after an error, and excludes panics. *)

Definition ST (S A : Type) : Type := S -> res A * S.
#[export] Instance ST_ret S : MRet (ST S) := fun A a s => (Ok a, s).
#[export] Instance ST_bind S : MBind (ST S) := fun A B f m s =>
  match m s with
  | (Ok a, s') => f a s'
  | (Err e, s') => (Err e, s')
  | (Panic w, s') => (Panic w, s')
  end.
Definition lift {S A} (r : res A) : ST S A := fun s => (r, s).
Definition gets {S A} (f : S -> A) : ST S A := fun s => (Ok (f s), s).
Definition modify {S} (f : S -> S) : ST S unit := fun s => (Ok tt, f s).

(** A [for] loop with an accumulator, and one without. *)
Fixpoint foldS {S A B} (f : B -> A -> ST S B) (b : B) (l : list A) : ST S B :=
  match l with
  | [] => mret b
  | x :: l => b ← f b x; foldS f b l
  end.
Definition forS {S A} (f : A -> ST S unit) (l : list A) : ST S unit := foldS (fun _ => f) tt l.

(** Code over one half of a pair of states. *)
Definition on_fst {S T A} (m : ST S A) : ST (S * T) A := fun s => let '(r, s1) := m s.1 in (r, (s1, s.2)).
Definition on_snd {S T A} (m : ST T A) : ST (S * T) A := fun s => let '(r, s2) := m s.2 in (r, (s.1, s2)).

(** A destructor that runs on success and on error. *)
Definition finally {S A} (m : ST S A) (drop : S -> S) : ST S A := fun s => let '(r, s') := m s in (r, drop s').

Definition triple {S A} (P : S -> Prop) (m : ST S A) (Q : A -> S -> Prop) (R : S -> Prop) : Prop :=
  forall s, P s -> match m s with (Ok a, s') => Q a s' | (Err _, s') => R s' | (Panic _, _) => False end.

Lemma ST_bind_Ok {S A B} (m : ST S A) (f : A -> ST S B) s a s' : m s = (Ok a, s') -> (m ≫= f) s = f a s'.
Proof. intros H. unfold mbind, ST_bind. by rewrite H. Qed.
Lemma triple_bind {S A B} (P : S -> Prop) (m : ST S A) (f : A -> ST S B) Q Q' R :
  triple P m Q R -> (forall a, triple (Q a) (f a) Q' R) -> triple P (m ≫= f) Q' R.
Proof.
  intros Hm Hf s Hs. specialize (Hm s Hs). unfold mbind, ST_bind. destruct (m s) as [[a|e|w] s']; [by apply Hf|done..].
Qed.
Lemma triple_ret {S A} (a : A) (Q : A -> S -> Prop) R : triple (Q a) (mret a) Q R.
Proof. by intros s Hs. Qed.
Lemma triple_lift {S A} (P : S -> Prop) (r : res A) (Q : A -> Prop) :
  safe r Q -> triple P (lift r) (fun a s => P s /\ Q a) P.
Proof. intros [[e ->]|(a & -> & Ha)] s Hs; cbn; done. Qed.
Lemma triple_lift_ok {S A} (P : S -> Prop) (r : res A) a R : r = Ok a -> triple P (lift r) (fun a' s => P s /\ a' = a) R.
Proof. intros -> s Hs. done. Qed.
Lemma triple_weaken {S A} (P P' : S -> Prop) (m : ST S A) (Q Q' : A -> S -> Prop) (R R' : S -> Prop) :
  triple P m Q R -> (forall s, P' s -> P s) -> (forall a s, Q a s -> Q' a s) -> (forall s, R s -> R' s) -> triple P' m Q' R'.
Proof. intros H HP HQ HR s Hs. specialize (H s (HP s Hs)). destruct (m s) as [[a|e|w] s']; auto. Qed.
Lemma triple_pre {S A} (P : S -> Prop) (m : ST S A) Q R : (forall s, P s -> triple (fun s' => s' = s) m Q R) -> triple P m Q R.
Proof. intros H s Hs. by apply (H s Hs). Qed.
Lemma triple_pure {S A} (P : S -> Prop) (F : Prop) (m : ST S A) Q R :
  (F -> triple P m Q R) -> triple (fun s => P s /\ F) m Q R.
Proof. intros H s [Hs HF]. by apply H. Qed.
Lemma triple_gets {S A} (P : S -> Prop) (f : S -> A) R : triple P (gets f) (fun a s => P s /\ a = f s) R.
Proof. intros s Hs. done. Qed.
Lemma triple_modify {S} (P Q : S -> Prop) (f : S -> S) R : (forall s, P s -> Q (f s)) -> triple P (modify f) (fun _ => Q) R.
Proof. intros H s Hs. by apply H. Qed.

Lemma triple_foldS {S A B} (I : list A -> B -> S -> Prop) (f : B -> A -> ST S B) b l R :
  (forall pre x post b, l = pre ++ x :: post -> triple (I pre b) (f b x) (I (pre ++ [x])) R) ->
  triple (I [] b) (foldS f b l) (I l) R.
Proof.
  intros Hstep. cut (forall pre post b, l = pre ++ post -> triple (I pre b) (foldS f b post) (I l) R).
  { intros H. by apply (H [] l b). }
  intros pre post. revert pre. induction post as [|x post IH]; intros pre b' Hl; cbn [foldS].
  - intros s Hs. cbn. by rewrite Hl, app_nil_r.
  - eapply triple_bind; [by eapply Hstep|]. intros a. apply (IH (pre ++ [x])). by rewrite Hl, <- app_assoc.
Qed.
Lemma triple_forS {S A} (I : list A -> S -> Prop) (f : A -> ST S unit) l R :
  (forall pre x post, l = pre ++ x :: post -> triple (I pre) (f x) (fun _ => I (pre ++ [x])) R) ->
  triple (I []) (forS f l) (fun _ => I l) R.
Proof. intros H. apply (triple_foldS (fun pre _ => I pre)). intros pre x post _. apply H. Qed.

Lemma triple_on_fst {S T A} (P : S -> Prop) (F : T -> Prop) (m : ST S A) Q R :
  triple P m Q R ->
  triple (fun s => P s.1 /\ F s.2) (on_fst (T := T) m) (fun a s => Q a s.1 /\ F s.2) (fun s => R s.1 /\ F s.2).
Proof. intros H [s t] [Hs Ht]. specialize (H s Hs). unfold on_fst. cbn in *. destruct (m s) as [[a|e|w] s']; auto. Qed.
Lemma triple_on_snd {S T A} (F : S -> Prop) (P : T -> Prop) (m : ST T A) Q R :
  triple P m Q R ->
  triple (fun s => F s.1 /\ P s.2) (on_snd (S := S) m) (fun a s => F s.1 /\ Q a s.2) (fun s => F s.1 /\ R s.2).
Proof. intros H [s t] [Hs Ht]. specialize (H t Ht). unfold on_snd. cbn in *. destruct (m t) as [[a|e|w] t']; auto. Qed.
Lemma triple_finally {S A} (P : S -> Prop) (m : ST S A) (drop : S -> S) (Q : A -> S -> Prop) (R : S -> Prop) :
  triple P m (fun a s => Q a (drop s)) (fun s => R (drop s)) -> triple P (finally m drop) Q R.
Proof. intros H s Hs. specialize (H s Hs). unfold finally. destruct (m s) as [[a|e|w] s']; auto. Qed.

(** An operation that fails only where the environment is not [honest]. *)
Definition sound {A} (honest : Prop) (r : res A) (P : A -> Prop) : Prop :=
  (exists e, r = Err e /\ ~ honest) \/ (exists a, r = Ok a /\ P a).

Lemma sound_ensure (honest : Prop) b msg : (honest -> b = true) -> sound honest (ensure b msg) (fun _ => b = true).
Proof. intros H. destruct b; [by right; exists tt|left]. exists msg. split; [done|]. by intros Hh%H. Qed.
Lemma sound_context {A} (honest : Prop) (o : option A) msg :
  (honest -> is_Some o) -> sound honest (with_context o msg) (fun a => o = Some a).
Proof. intros H. destruct o as [a|]; [right; by exists a|left]. exists msg. split; [done|]. by intros [a Ha]%H. Qed.
Lemma sound_expect {A} (honest : Prop) (o : option A) msg (P : A -> Prop) :
  (exists a, o = Some a /\ P a) -> sound honest (expect o msg) P.
Proof. intros (a & -> & Ha). right. by exists a. Qed.

Lemma triple_sound {S A} (honest : Prop) (P : S -> Prop) (r : res A) (Q : A -> Prop) (R : S -> Prop) :
  sound honest r Q -> (forall s, P s -> ~ honest -> R s) -> triple P (lift r) (fun a s => P s /\ Q a) R.
Proof. intros [(e & -> & H)|(a & -> & Ha)] HR s Hs; cbn; auto. Qed.

(** Code whose state does not matter. *)
Definition yields {S A} (honest : Prop) (m : ST S A) (Q : A -> Prop) : Prop :=
  triple (fun _ => True) m (fun a _ => Q a) (fun _ => ~ honest).

Lemma yields_bind {S A B} honest (m : ST S A) (f : A -> ST S B) (Q : A -> Prop) (Q' : B -> Prop) :
  yields honest m Q -> (forall a, Q a -> yields honest (f a) Q') -> yields honest (m ≫= f) Q'.
Proof. intros Hm Hf. eapply triple_bind; [exact Hm|]. intros a s Ha. by apply (Hf a Ha). Qed.
Lemma yields_ret {S A} honest (a : A) (Q : A -> Prop) : Q a -> yields (S := S) honest (mret a) Q.
Proof. by intros H s _. Qed.
Lemma yields_lift {S A} honest (r : res A) (Q : A -> Prop) : sound honest r Q -> yields (S := S) honest (lift r) Q.
Proof. intros [(e & -> & H)|(a & -> & Ha)] s _; done. Qed.
Lemma yields_lift_ok {S A} honest (r : res A) a : r = Ok a -> yields (S := S) honest (lift r) (fun x => x = a).
Proof. by intros -> s _. Qed.
Lemma yields_modify {S} honest (f : S -> S) : yields honest (modify f) (fun _ => True).
Proof. by intros s _. Qed.
Lemma yields_weaken {S A} honest (m : ST S A) (Q Q' : A -> Prop) :
  yields honest m Q -> (forall a, Q a -> Q' a) -> yields honest m Q'.
Proof. intros H HQ. eapply triple_weaken; [exact H|done|cbn; auto|done]. Qed.
Lemma yields_foldS {S A B} honest (I : list A -> B -> Prop) (f : B -> A -> ST S B) b l :
  I [] b -> (forall pre x post b, l = pre ++ x :: post -> I pre b -> yields honest (f b x) (I (pre ++ [x]))) ->
  yields honest (foldS f b l) (I l).
Proof.
  intros H0 H. eapply triple_weaken; [apply (triple_foldS (fun pre b (_ : S) => I pre b) f b l (fun _ => ~ honest))|done|done|done].
  intros pre x post b' Hl s Hb. by apply (H pre x post b' Hl Hb).
Qed.

(** ** Machine integers *)

Abbreviation U8 := (2 ^ 8).
Abbreviation U32 := (2 ^ 32).
Abbreviation U64 := (2 ^ 64).
Abbreviation u32_max := (2 ^ 32 - 1).
Abbreviation u64_max := (2 ^ 64 - 1).

Definition fits (bound a : N) : bool := a <? bound.

(** [checked_add] and [checked_mul] at a width given by its modulus. *)
Definition checked_add (bound a b : N) : option N :=
  if a + b <? bound then Some (a + b) else None.
Definition checked_mul (bound a b : N) : option N :=
  if a * b <? bound then Some (a * b) else None.
Definition checked_sub (a b : N) : option N :=
  if b <=? a then Some (a - b) else None.

(** [saturating_add] and [saturating_mul]; [saturating_sub] is [N.sub]. *)
Definition saturating_add (bound a b : N) : N := N.min (a + b) (bound - 1).
Definition saturating_mul (bound a b : N) : N := N.min (a * b) (bound - 1).

(** Release-mode arithmetic wraps. *)
Definition wrapping_add (bound a b : N) : N := (a + b) mod bound.
Definition wrapping_sub (bound a b : N) : N := (a + bound - b) mod bound.
Definition shl64 (a n : N) : N := N.shiftl a n mod U64.

(** [u32::try_from] *)
Definition to_u32 (a : N) : res N :=
  if a <? U32 then Ok a else Err "out of range integral type conversion attempted".

(** [u64::div_ceil] *)
Definition div_ceil (a b : N) : N := a / b + (if a mod b =? 0 then 0 else 1).

Lemma checked_add_Some bound a b c :
  checked_add bound a b = Some c <-> c = a + b /\ a + b < bound.
Proof. unfold checked_add. destruct (N.ltb_spec (a + b) bound); inv_iff. Qed.
Lemma checked_mul_Some bound a b c :
  checked_mul bound a b = Some c <-> c = a * b /\ a * b < bound.
Proof. unfold checked_mul. destruct (N.ltb_spec (a * b) bound); inv_iff. Qed.
Lemma checked_sub_Some a b c :
  checked_sub a b = Some c <-> c = a - b /\ b <= a.
Proof. unfold checked_sub. destruct (N.leb_spec b a); inv_iff. Qed.
Lemma to_u32_ok a b : to_u32 a = Ok b <-> b = a /\ a < U32.
Proof. unfold to_u32. destruct (N.ltb_spec a U32); inv_iff. Qed.

Lemma wrapping_sub_small bound a b : b <= a -> a < bound -> wrapping_sub bound a b = a - b.
Proof.
  intros. unfold wrapping_sub. replace (a + bound - b) with (a - b + 1 * bound) by lia.
  rewrite N.Div0.mod_add, N.mod_small; lia.
Qed.
Lemma wrapping_add_small bound a b : a + b < bound -> wrapping_add bound a b = a + b.
Proof. intros. by apply N.mod_small. Qed.

Lemma div_ceil_le a b : b <> 0 -> a <= b * div_ceil a b.
Proof. unfold div_ceil. intros. destruct (N.eqb_spec (a mod b) 0); nia. Qed.
Lemma div_ceil_lt a b : b <> 0 -> 0 < a -> b * (div_ceil a b - 1) < a.
Proof. unfold div_ceil. intros. destruct (N.eqb_spec (a mod b) 0); nia. Qed.
Lemma div_ceil_unique a b q :
  0 < b -> b * q < a + b -> a <= b * q -> div_ceil a b = q.
Proof.
  intros Hb H1 H2. pose proof (div_ceil_le a b ltac:(lia)).
  destruct (decide (a = 0)) as [->|].
  - unfold div_ceil. rewrite N.Div0.div_0_l, N.Div0.mod_0_l. cbn. nia.
  - pose proof (div_ceil_lt a b ltac:(lia) ltac:(lia)). nia.
Qed.
Lemma div_ceil_0 b : b <> 0 -> div_ceil 0 b = 0.
Proof. intros. apply div_ceil_unique; lia. Qed.

(** ** Lists indexed by machine integers *)

Definition len {A} (l : list A) : N := N.of_nat (length l).

(** [l.get(i)] *)
Definition get {A} (l : list A) (i : N) : option A := l !! N.to_nat i.

(** [l.get(a..b)] *)
Definition get_range {A} (l : list A) (a b : N) : option (list A) :=
  if (a <=? b) && (b <=? len l)
  then Some (take (N.to_nat (b - a)) (drop (N.to_nat a) l)) else None.

(** [a..b] *)
Definition range (a b : N) : list N :=
  (fun k => a + N.of_nat k) <$> seq 0 (N.to_nat (b - a)).

(** [iter().enumerate()] *)
Definition enumerate {A} (l : list A) : list (N * A) :=
  imap (fun i x => (N.of_nat i, x)) l.

(** [l.windows(2)] *)
Fixpoint pairs {A} (l : list A) : list (A * A) :=
  match l with
  | x :: (y :: _) as t => (x, y) :: pairs t
  | _ => []
  end.

(** [l.chunks(k)], for [k > 0]. *)
Fixpoint chunks_fuel {A} (fuel k : nat) (l : list A) : list (list A) :=
  match fuel, l with
  | S fuel, _ :: _ => take k l :: chunks_fuel fuel k (drop k l)
  | _, _ => []
  end.
Definition chunks {A} (k : nat) (l : list A) : list (list A) :=
  chunks_fuel (length l) k l.

(** [partition_point]: the number of leading elements that satisfy [p]. *)
Fixpoint partition_point {A} (p : A -> bool) (l : list A) : N :=
  match l with
  | x :: l => if p x then 1 + partition_point p l else 0
  | [] => 0
  end.

Lemma len_nil A : len (@nil A) = 0.
Proof. done. Qed.
Lemma len_cons {A} (x : A) l : len (x :: l) = 1 + len l.
Proof. unfold len. cbn. lia. Qed.
Lemma len_app {A} (l1 l2 : list A) : len (l1 ++ l2) = len l1 + len l2.
Proof. unfold len. rewrite length_app. lia. Qed.
Lemma len_fmap {A B} (f : A -> B) l : len (f <$> l) = len l.
Proof. unfold len. by rewrite length_fmap. Qed.
Lemma to_nat_len {A} (l : list A) : N.to_nat (len l) = length l.
Proof. unfold len. lia. Qed.

Lemma get_Some_lt {A} (l : list A) i x : get l i = Some x -> i < len l.
Proof. unfold get, len. intros H%lookup_lt_Some. lia. Qed.
Lemma get_is_Some {A} (l : list A) i : i < len l -> exists x, get l i = Some x.
Proof.
  unfold get, len. intros H.
  destruct (lookup_lt_is_Some_2 l (N.to_nat i)) as [x ?]; [lia|]. eauto.
Qed.
Lemma get_elem {A} (l : list A) i x : get l i = Some x -> x ∈ l.
Proof. apply list_elem_of_lookup_2. Qed.
Lemma elem_get {A} (l : list A) x : x ∈ l -> exists i, get l i = Some x.
Proof.
  intros [i Hi]%list_elem_of_lookup_1. exists (N.of_nat i). unfold get.
  by rewrite Nat2N.id.
Qed.

Lemma get_range_Some {A} (l : list A) a b s :
  get_range l a b = Some s <->
  a <= b /\ b <= len l /\ s = take (N.to_nat (b - a)) (drop (N.to_nat a) l).
Proof.
  unfold get_range.
  destruct (N.leb_spec a b), (N.leb_spec b (len l)); cbn; intuition (congruence || lia).
Qed.
Lemma get_range_is_Some {A} (l : list A) a b :
  a <= b -> b <= len l -> exists s, get_range l a b = Some s.
Proof. intros. eexists. by apply get_range_Some. Qed.
Lemma get_range_len {A} (l : list A) a b s : get_range l a b = Some s -> len s = b - a.
Proof.
  intros (? & ? & ->)%get_range_Some. unfold len in *. rewrite length_take, length_drop. lia.
Qed.

Lemma elem_of_range a b x : x ∈ range a b <-> a <= x < b.
Proof.
  unfold range. rewrite list_elem_of_fmap. setoid_rewrite elem_of_seq. split.
  - intros (k & -> & ?). lia.
  - intros ?. exists (N.to_nat (x - a)). lia.
Qed.
Lemma len_range a b : len (range a b) = b - a.
Proof. unfold range. rewrite len_fmap. unfold len. rewrite length_seq. lia. Qed.
Lemma range_nil a b : b <= a -> range a b = [].
Proof. intros. unfold range. by replace (N.to_nat (b - a)) with 0%nat by lia. Qed.
Lemma range_cons a b : a < b -> range a b = a :: range (a + 1) b.
Proof.
  intros. unfold range. replace (N.to_nat (b - a)) with (S (N.to_nat (b - (a + 1)))) by lia.
  cbn. f_equal; [lia|]. rewrite <- seq_shift, <- list_fmap_compose.
  apply list_fmap_ext. intros. cbn. lia.
Qed.
Lemma range_snoc a b : a <= b -> range a (b + 1) = range a b ++ [b].
Proof.
  intros. unfold range. replace (N.to_nat (b + 1 - a)) with (S (N.to_nat (b - a))) by lia.
  rewrite seq_S, fmap_app. cbn. do 2 f_equal. lia.
Qed.

Lemma elem_of_enumerate {A} (l : list A) i x : (i, x) ∈ enumerate l <-> get l i = Some x.
Proof.
  unfold enumerate, get. rewrite elem_of_lookup_imap. split.
  - intros (j & y & [= -> ->] & ?). by rewrite Nat2N.id.
  - intros. exists (N.to_nat i), x. by rewrite N2Nat.id.
Qed.

Lemma enumerate_split {A} (l : list A) pre i x post :
  enumerate l = pre ++ (i, x) :: post -> i = len pre /\ l = pre.*2 ++ x :: post.*2.
Proof.
  intros H. assert (l = (enumerate l).*2) as Hl.
  { unfold enumerate. clear H. apply list_eq. intros k. rewrite list_lookup_fmap, list_lookup_imap.
    by destruct (l !! k). }
  split; [|by rewrite Hl, H, fmap_app].
  assert (enumerate l !! length pre = Some (i, x)) as Hi by (rewrite H; by apply list_lookup_middle).
  unfold enumerate in Hi. rewrite list_lookup_imap in Hi. destruct (l !! length pre); [|done].
  cbn in Hi. injection Hi as <- _. done.
Qed.
Lemma enumerate_snd {A} (l : list A) : (enumerate l).*2 = l.
Proof.
  unfold enumerate. apply list_eq. intros k. rewrite list_lookup_fmap, list_lookup_imap. by destruct (l !! k).
Qed.
Lemma len_enumerate {A} (l : list A) : len (enumerate l) = len l.
Proof. unfold enumerate, len. by rewrite length_imap. Qed.

Lemma get_cons_0 {A} (x : A) l : get (x :: l) 0 = Some x.
Proof. done. Qed.
Lemma get_cons_S {A} (x : A) l i : get (x :: l) (1 + i) = get l i.
Proof. unfold get. by replace (N.to_nat (1 + i)) with (S (N.to_nat i)) by lia. Qed.

Lemma get_app_l {A} (l1 l2 : list A) i : i < len l1 -> get (l1 ++ l2) i = get l1 i.
Proof. intros. unfold get, len in *. apply lookup_app_l. lia. Qed.
Lemma get_snoc {A} (l : list A) x i y :
  get (l ++ [x]) i = Some y <-> get l i = Some y \/ i = len l /\ y = x.
Proof.
  unfold get, len. rewrite lookup_snoc_Some. split.
  - intros [[_ ?]|[? ->]]; [by left|right; split; [lia|done]].
  - intros [H|[-> ->]]; [left|right].
    + split; [|done]. by apply lookup_lt_Some in H.
    + split; [lia|done].
Qed.
Lemma get_middle {A} (l1 l2 : list A) x : get (l1 ++ x :: l2) (len l1) = Some x.
Proof. unfold get. rewrite to_nat_len. by apply list_lookup_middle. Qed.

(** Sums *)
Definition sumN (l : list N) : N := foldr N.add 0 l.
Lemma sumN_cons x l : sumN (x :: l) = x + sumN l.
Proof. done. Qed.
Lemma sumN_app l1 l2 : sumN (l1 ++ l2) = sumN l1 + sumN l2.
Proof. induction l1 as [|x l1 IH]; cbn [app]; [done|]. rewrite !sumN_cons, IH. lia. Qed.
Lemma sumN_snoc l x : sumN (l ++ [x]) = sumN l + x.
Proof. rewrite sumN_app. unfold sumN at 2. cbn. lia. Qed.
Lemma sumN_take_le l k : sumN (take k l) <= sumN l.
Proof. rewrite <- (take_drop k l) at 2. rewrite sumN_app. lia. Qed.

Lemma chunks_nil {A} k : chunks k (@nil A) = [].
Proof. done. Qed.
Lemma chunks_fuel_enough {A} f1 f2 k (l : list A) :
  (0 < k)%nat -> (length l <= f1)%nat -> (length l <= f2)%nat ->
  chunks_fuel f1 k l = chunks_fuel f2 k l.
Proof.
  intros Hk. revert f2 l. induction f1 as [|f1 IH]; intros [|f2] [|x l]; cbn; try lia; try done.
  intros. f_equal. apply IH; rewrite length_drop; cbn; lia.
Qed.
Lemma chunks_unfold {A} k (l : list A) :
  (0 < k)%nat -> l <> [] -> chunks k l = take k l :: chunks k (drop k l).
Proof.
  intros Hk Hl. unfold chunks. destruct l as [|x l]; [done|]. cbn [length chunks_fuel].
  f_equal. apply chunks_fuel_enough; rewrite ?length_drop; cbn; lia.
Qed.
Lemma concat_chunks {A} k (l : list A) : (0 < k)%nat -> concat (chunks k l) = l.
Proof.
  intros Hk.
  remember (length l) as n eqn:Hn. revert l Hn.
  induction (lt_wf n) as [n _ IH]. intros l ->. destruct l as [|x l]; [done|].
  rewrite chunks_unfold by done. cbn [concat]. rewrite (IH (length (drop k (x :: l)))); [|rewrite length_drop; cbn; lia|done].
  apply take_drop.
Qed.

Lemma partition_point_le {A} (p : A -> bool) l : partition_point p l <= len l.
Proof. induction l as [|x l IH]; cbn; [done|]. rewrite len_cons. destruct (p x); lia. Qed.
Lemma partition_point_before {A} (p : A -> bool) l i x :
  get l i = Some x -> i < partition_point p l -> p x = true.
Proof.
  unfold get. revert i. induction l as [|y l IH]; intros i; cbn; [done|].
  destruct (p y) eqn:?; [|lia]. intros Hi ?.
  destruct (decide (i = 0)) as [->|]; [change (N.to_nat 0) with 0%nat in Hi; cbn in Hi; congruence|].
  apply (IH (i - 1)); [|lia]. replace (N.to_nat i) with (S (N.to_nat (i - 1))) in Hi by lia. done.
Qed.
Lemma partition_point_at {A} (p : A -> bool) l x :
  get l (partition_point p l) = Some x -> p x = false.
Proof.
  unfold get. induction l as [|y l IH]; cbn; [done|].
  destruct (p y) eqn:?; [|change (N.to_nat 0) with 0%nat; cbn; congruence].
  replace (N.to_nat (1 + partition_point p l)) with (S (N.to_nat (partition_point p l))) by lia. done.
Qed.

(** ** Sorting and deduplication *)

(** Insertion sort: the stable [sort_by] for a total preorder given as a
    boolean.  On a total order it is also what [sort_unstable] returns. *)
Section sort.
Context {A : Type} (leb : A -> A -> bool).

Fixpoint insert_sorted (x : A) (l : list A) : list A :=
  match l with
  | [] => [x]
  | y :: l' => if leb x y then x :: l else y :: insert_sorted x l'
  end.

Definition sort_by (l : list A) : list A := foldr insert_sorted [] l.

Lemma insert_sorted_perm x l : insert_sorted x l ≡ₚ x :: l.
Proof.
  induction l as [|y l IH]; cbn; [done|]. destruct (leb x y); [done|].
  rewrite IH. apply Permutation_swap.
Qed.
Lemma sort_by_perm l : sort_by l ≡ₚ l.
Proof. induction l as [|x l IH]; cbn; [done|]. by rewrite insert_sorted_perm, IH. Qed.
Lemma elem_of_sort_by x l : x ∈ sort_by l <-> x ∈ l.
Proof. by rewrite sort_by_perm. Qed.

Context (leb_total : forall x y, leb x y = true \/ leb y x = true).
Context (leb_trans : forall x y z, leb x y = true -> leb y z = true -> leb x z = true).

Lemma insert_sorted_sorted x l :
  StronglySorted (fun a b => leb a b = true) l ->
  StronglySorted (fun a b => leb a b = true) (insert_sorted x l).
Proof.
  induction 1 as [|y l Hl IH Hy]; cbn; [repeat constructor|].
  destruct (leb x y) eqn:E.
  - constructor; [by constructor|]. constructor; [done|].
    eapply Forall_impl; [done|]. eauto.
  - constructor; [done|]. rewrite insert_sorted_perm. constructor; [|done].
    destruct (leb_total x y); congruence.
Qed.
Lemma sort_by_sorted l : StronglySorted (fun a b => leb a b = true) (sort_by l).
Proof. induction l; cbn; [constructor|]. by apply insert_sorted_sorted. Qed.
End sort.

(** [Vec::dedup] *)
Section dedup.
Context {A : Type} `{EqDecision A}.
Fixpoint dedup (l : list A) : list A :=
  match l with
  | x :: (y :: _) as t => if decide (x = y) then dedup t else x :: dedup t
  | _ => l
  end.

Lemma elem_of_dedup x l : x ∈ dedup l <-> x ∈ l.
Proof.
  induction l as [|y [|z l] IH]; [done|done|].
  change (dedup (y :: z :: l)) with
    (if decide (y = z) then dedup (z :: l) else y :: dedup (z :: l)).
  destruct (decide (y = z)) as [->|].
  - rewrite IH, !elem_of_cons. tauto.
  - rewrite !elem_of_cons, IH, elem_of_cons. tauto.
Qed.

Lemma dedup_strict (R lt : A -> A -> Prop) l :
  (forall x y, R x y -> x <> y -> lt x y) ->
  (forall x y z, lt x y -> R y z -> lt x z) ->
  StronglySorted R l -> StronglySorted lt (dedup l).
Proof.
  intros Hlt Htr. induction 1 as [|x l Hl IH Hx]; [constructor|].
  destruct l as [|y l]; [repeat constructor|].
  change (dedup (x :: y :: l)) with
    (if decide (x = y) then dedup (y :: l) else x :: dedup (y :: l)).
  destruct (decide (x = y)) as [->|]; [done|]. constructor; [done|].
  apply Forall_forall. intros z Hz. rewrite elem_of_dedup in Hz.
  inversion Hx as [|? ? Hxy Hxl]; subst. apply StronglySorted_inv in Hl as [_ Hyl].
  apply elem_of_cons in Hz as [->|Hz]; [by apply Hlt|].
  eapply Htr; [by apply Hlt|]. rewrite Forall_forall in Hyl. by apply Hyl.
Qed.
End dedup.

(** Strictly ascending id lists, as a predicate and as the code's check
    [windows(2).all(|pair| pair[0] < pair[1])]. *)
Abbreviation ascending := (StronglySorted N.lt).
Definition is_ascending (l : list N) : bool := forallb (fun '(a, b) => a <? b) (pairs l).

Lemma pairs_cons {A} (x y : A) l : pairs (x :: y :: l) = (x, y) :: pairs (y :: l).
Proof. done. Qed.

Lemma pairs_sorted {A} (R : A -> A -> Prop) (p : A * A -> bool) l :
  (forall x y, p (x, y) = true <-> R x y) -> (forall x y z, R x y -> R y z -> R x z) ->
  forallb p (pairs l) = true <-> StronglySorted R l.
Proof.
  intros Hp Htr. induction l as [|x [|y l] IH]; [by repeat constructor| |].
  - split; [by repeat constructor|done].
  - rewrite pairs_cons. cbn [forallb]. rewrite andb_true_iff, IH, Hp. split.
    + intros [Hxy Hs]. constructor; [done|]. constructor; [done|].
      apply StronglySorted_inv in Hs as [_ ?]. eapply Forall_impl; eauto.
    + intros [Hs Hx]%StronglySorted_inv. inversion Hx; subst. done.
Qed.

Lemma is_ascending_spec l : is_ascending l = true <-> ascending l.
Proof.
  apply pairs_sorted; [|intros; lia].
  intros x y. apply N.ltb_lt.
Qed.

Definition sort_N (l : list N) : list N := sort_by N.leb l.

(** [sort_unstable(); dedup()] on integers. *)
Definition sort_dedup (l : list N) : list N := dedup (sort_N l).

Lemma elem_of_sort_dedup x l : x ∈ sort_dedup l <-> x ∈ l.
Proof. unfold sort_dedup, sort_N. by rewrite elem_of_dedup, elem_of_sort_by. Qed.
Lemma sort_dedup_ascending l : ascending (sort_dedup l).
Proof.
  unfold sort_dedup, sort_N.
  apply (dedup_strict (fun a b => (a <=? b) = true));
    [intros x y ?%N.leb_le; lia|intros x y z ? ?%N.leb_le; lia|].
  apply sort_by_sorted; intros; lia.
Qed.

Lemma ascending_nodup l : ascending l -> NoDup l.
Proof.
  induction 1 as [|x l Hl IH Hx]; constructor; [|done].
  intros Hin. rewrite Forall_forall in Hx. specialize (Hx x Hin). lia.
Qed.
Lemma ascending_ext l1 l2 :
  ascending l1 -> ascending l2 -> (forall x, x ∈ l1 <-> x ∈ l2) -> l1 = l2.
Proof.
  intros H1. revert l2. induction H1 as [|x l1 Hs1 IH Hx]; intros l2 H2 Heq.
  - destruct l2 as [|y l2]; [done|]. specialize (Heq y). rewrite elem_of_nil, elem_of_cons in Heq. tauto.
  - destruct H2 as [|y l2 Hs2 Hy]; [specialize (Heq x); rewrite elem_of_nil, elem_of_cons in Heq; tauto|].
    rewrite Forall_forall in Hx, Hy.
    assert (x = y) as ->.
    { assert (x ∈ y :: l2) as Hxy%elem_of_cons by (apply Heq, elem_of_cons; by left).
      assert (y ∈ x :: l1) as Hyx%elem_of_cons by (apply Heq, elem_of_cons; by left).
      destruct Hxy as [|Hxy], Hyx as [|Hyx]; try done.
      specialize (Hx _ Hyx). specialize (Hy _ Hxy). lia. }
    f_equal. apply IH; [done|]. intros z. specialize (Heq z).
    rewrite !elem_of_cons in Heq. split; intros Hz.
    + destruct (proj1 Heq (or_intror Hz)) as [->|?]; [|done]. specialize (Hx _ Hz). lia.
    + destruct (proj2 Heq (or_intror Hz)) as [->|?]; [|done]. specialize (Hy _ Hz). lia.
Qed.
Lemma ascending_app l1 l2 :
  ascending (l1 ++ l2) <->
  ascending l1 /\ ascending l2 /\ (forall x y, x ∈ l1 -> y ∈ l2 -> x < y).
Proof.
  induction l1 as [|x l1 IH]; cbn.
  - split; [intros; split_and!; [constructor|done|set_solver]|tauto].
  - split.
    + intros [Hs Hx]%StronglySorted_inv. apply IH in Hs as (?&?&Hlt).
      rewrite Forall_app in Hx. destruct Hx as [Hx1 Hx2]. rewrite Forall_forall in Hx2.
      split_and!; [by constructor|done|]. intros a b [->|?]%elem_of_cons ?; eauto.
    + intros (Hs & ? & Hlt). apply StronglySorted_inv in Hs as [? ?]. constructor.
      * apply IH. split_and!; [done|done|]. intros. apply Hlt; [by right|done].
      * apply Forall_app. split; [done|]. apply Forall_forall. intros. apply Hlt; [by left|done].
Qed.
Lemma ascending_snoc l y : ascending l -> (forall x, last l = Some x -> x < y) -> ascending (l ++ [y]).
Proof.
  intros Hl Hy. apply ascending_app. split_and!; [done|repeat constructor|].
  intros x z Hx ->%list_elem_of_singleton. destruct (last l) as [m|] eqn:E; [|by apply last_None in E as ->; set_solver].
  specialize (Hy m eq_refl). apply last_Some in E as [l' ->]. apply ascending_app in Hl as (_ & _ & Hlt).
  apply elem_of_app in Hx as [Hx| ->%list_elem_of_singleton]; [|done].
  specialize (Hlt x m Hx ltac:(left)). lia.
Qed.
Lemma fmap_rev {A B} (f : A -> B) (l : list A) : f <$> rev l = rev (f <$> l).
Proof. apply map_rev. Qed.
Lemma rev_reverse {A} (l : list A) : rev l = reverse l.
Proof. unfold reverse. by rewrite rev_alt. Qed.
Lemma len_rev {A} (l : list A) : len (rev l) = len l.
Proof. unfold len. by rewrite length_rev. Qed.

(** Lengths of compound lists. *)
Create Rewrite HintDb len.
#[export] Hint Rewrite @len_nil @len_cons @len_app @len_fmap @len_rev @len_range @len_enumerate : len.
Ltac len_lia := autorewrite with len in *; lia.
Lemma list_last_default (l : list N) d : List.last l d = default d (last l).
Proof. induction l as [|x [|y l] IH]; [done|done|]. exact IH. Qed.
Lemma range_ascending a b : ascending (range a b).
Proof.
  remember (N.to_nat (b - a)) as n eqn:Hn. revert a Hn.
  induction n as [|n IH]; intros a Hn; [rewrite range_nil by lia; constructor|].
  rewrite range_cons by lia. constructor; [apply IH; lia|].
  apply Forall_forall. intros ? ?%elem_of_range. lia.
Qed.
Lemma ascending_filter (P : N -> Prop) `{forall x, Decision (P x)} l :
  ascending l -> ascending (filter P l).
Proof.
  induction 1 as [|x l Hl IH Hx]; [constructor|]. rewrite filter_cons.
  destruct (decide (P x)); [|done]. constructor; [done|].
  apply Forall_forall. intros y [_ Hy]%list_elem_of_filter.
  rewrite Forall_forall in Hx. by apply Hx.
Qed.
Lemma sublist_ascending l k : sublist l k -> ascending k -> ascending l.
Proof.
  induction 1 as [|x l k Hs IH|x l k Hs IH]; intros Hk; [done| |apply IH; by inversion Hk].
  apply StronglySorted_inv in Hk as [Hk Hx]. constructor; [by apply IH|]. rewrite Forall_forall in Hx |- *.
  intros y Hy. apply Hx. by eapply elem_of_sublist.
Qed.

Lemma ascending_len_le l n :
  ascending l -> Forall (fun x => x < n) l -> len l <= n.
Proof.
  intros Hs Hb.
  assert (forall m, Forall (fun x => m <= x) l -> len l <= n - m) as Hgen.
  { induction Hs as [|x l Hl IH Hx]; intros m Hm; [rewrite len_nil; lia|].
    inversion Hb; inversion Hm; subst. rewrite len_cons.
    specialize (IH ltac:(done) (x + 1)).
    assert (len l <= n - (x + 1)); [|lia]. apply IH.
    eapply Forall_impl; [exact Hx|]. intros; lia. }
  specialize (Hgen 0). rewrite N.sub_0_r in Hgen. apply Hgen.
  apply Forall_forall. intros; lia.
Qed.

Lemma filter_none {A} (P : A -> Prop) `{forall x, Decision (P x)} (l : list A) :
  (forall x, x ∈ l -> ~ P x) -> filter P l = [].
Proof.
  induction l as [|x l IH]; intros Hl; [done|]. rewrite filter_cons, decide_False by (apply Hl; left).
  apply IH. intros y ?. apply Hl. by right.
Qed.
Lemma filter_all {A} (P : A -> Prop) `{forall x, Decision (P x)} (l : list A) :
  (forall x, x ∈ l -> P x) -> filter P l = l.
Proof.
  induction l as [|x l IH]; intros Hl; [done|]. rewrite filter_cons, decide_True by (apply Hl; left).
  f_equal. apply IH. intros y ?. apply Hl. by right.
Qed.

(** [Vec == Vec], for element types whose equality is recursive. *)
Section list_eqb.
Context {A : Type} (eqb : A -> A -> bool).
Fixpoint list_eqb (xs ys : list A) : bool :=
  match xs, ys with
  | [], [] => true
  | x :: xs, y :: ys => eqb x y && list_eqb xs ys
  | _, _ => false
  end.
Lemma list_eqb_eq xs ys :
  Forall (fun x => forall y, eqb x y = true <-> x = y) xs -> list_eqb xs ys = true <-> xs = ys.
Proof.
  intros H. revert ys. induction H as [|x xs Hx _ IH]; intros [|y ys]; cbn; try (split; congruence).
  rewrite andb_true_iff, Hx, IH. split; [intros [-> ->]|intros [= -> ->]]; done.
Qed.
End list_eqb.

Lemma forallb_elem {A} (p : A -> bool) l : forallb p l = true <-> forall x, x ∈ l -> p x = true.
Proof. rewrite forallb_forall. by setoid_rewrite list_elem_of_In. Qed.
Lemma existsb_elem {A} (p : A -> bool) l : existsb p l = true <-> exists x, x ∈ l /\ p x = true.
Proof. rewrite existsb_exists. by setoid_rewrite list_elem_of_In. Qed.

(** Membership in a sorted list: [binary_search(&x).is_ok()].  The code only
    searches lists whose order it has validated. *)
Definition binary_search (x : N) (l : list N) : bool := bool_decide (x ∈ l).

(** [slice::chunk_by] *)
Fixpoint chunk_by {A} (same : A -> A -> bool) (l : list A) : list (list A) :=
  match l with
  | [] => []
  | x :: l =>
      match chunk_by same l with
      | (y :: chunk) :: chunks => if same x y then (x :: y :: chunk) :: chunks else [x] :: (y :: chunk) :: chunks
      | chunks => [x] :: chunks
      end
  end.

Lemma concat_chunk_by {A} (same : A -> A -> bool) l : concat (chunk_by same l) = l.
Proof.
  induction l as [|x l IH]; cbn [chunk_by]; [done|]. rewrite <- IH at 2.
  destruct (chunk_by same l) as [|[|y chunk] chunks]; [done|done|]. by destruct (same x y).
Qed.
Lemma chunk_by_same {A B} (f : A -> B) (same : A -> A -> bool) l :
  (forall x y, same x y = true -> f x = f y) ->
  Forall (fun chunk => exists x rest, chunk = x :: rest /\ Forall (fun y => f y = f x) chunk) (chunk_by same l).
Proof.
  intros Hs. induction l as [|x l IH]; cbn [chunk_by]; [constructor|].
  assert (exists x0 rest, [x] = x0 :: rest /\ Forall (fun y => f y = f x0) [x]) as Hone.
  { exists x, []. split; [done|]. by constructor. }
  destruct (chunk_by same l) as [|[|y chunk] chunks]; [by constructor|by constructor|].
  destruct (same x y) eqn:E; [|by constructor].
  apply Forall_cons in IH as [(x0 & rest & [= <- <-] & Hall) IH]. constructor; [|done].
  exists x, (y :: chunk). split; [done|]. constructor; [done|]. eapply Forall_impl; [exact Hall|]. cbn. intros z ->.
  symmetry. by apply Hs.
Qed.

(** Distinct images tell elements apart, and indices of an enumeration. *)
Lemma nodup_fmap_inj {A B} (f : A -> B) l x y : NoDup (f <$> l) -> x ∈ l -> y ∈ l -> f x = f y -> x = y.
Proof.
  intros Hnd [i Hi]%list_elem_of_lookup [j Hj]%list_elem_of_lookup Hf.
  assert (i = j) as ->; [|congruence]. eapply (NoDup_lookup _ _ _ (f x) Hnd); rewrite list_lookup_fmap; [by rewrite Hi|by rewrite Hj, Hf].
Qed.
Lemma enumerate_nodup {A} (l : list A) : NoDup (enumerate l).*1.
Proof.
  assert ((enumerate l).*1 = N.of_nat <$> seq 0 (length l)) as ->.
  { unfold enumerate. rewrite fmap_imap. apply list_eq. intros i. rewrite list_lookup_imap, list_lookup_fmap. cbn.
    destruct (decide (i < length l)%nat) as [H|H].
    - rewrite lookup_seq_lt by done. apply lookup_lt_is_Some in H as [x ->]. done.
    - rewrite lookup_seq_ge by lia. rewrite lookup_ge_None_2 by lia. done. }
  apply NoDup_fmap_2; [intros ???; lia|apply NoDup_seq].
Qed.

(** The part of an indexed family with one index. *)
Lemma filter_family {S A} (f : N * S -> list (N * A)) (l : list (N * S)) i s :
  NoDup l.*1 -> (forall x y, y ∈ f x -> y.1 = x.1) -> (i, s) ∈ l -> filter (fun y => y.1 = i) (mbind f l) = f (i, s).
Proof.
  intros Hnd Hf. induction l as [|x l IH]; intros Hi; [by apply elem_of_nil in Hi|]. apply NoDup_cons in Hnd as [Hx Hnd].
  rewrite bind_cons, filter_app. apply elem_of_cons in Hi as [<-|Hi].
  - rewrite filter_all by (intros y Hy; by rewrite (Hf _ _ Hy)). rewrite filter_none; [apply app_nil_r|].
    intros y (z & Hy & Hz)%list_elem_of_bind Hyi. apply Hx. apply Hf in Hy. cbn [fst] in *. apply list_elem_of_fmap. exists z. split; [congruence|done].
  - rewrite IH by done. rewrite filter_none; [done|]. intros y Hy Hyi. apply Hf in Hy. apply Hx, list_elem_of_fmap. exists (i, s).
    split; [cbn; congruence|done].
Qed.

Lemma filter_ext_in {A} (P Q : A -> Prop) `{forall x, Decision (P x)} `{forall x, Decision (Q x)} (l : list A) :
  (forall x, x ∈ l -> P x <-> Q x) -> filter P l = filter Q l.
Proof.
  induction l as [|x l IH]; intros Heq; [done|]. rewrite !filter_cons, IH by (intros y Hy; apply Heq; by right).
  pose proof (Heq x ltac:(left)). destruct (decide (P x)), (decide (Q x)); tauto.
Qed.

(** Ascending ids below a bound that are as many as it are all of them. *)
Lemma ascending_full l n : ascending l -> (forall x, x ∈ l -> x < n) -> len l = n -> forall x, x < n -> x ∈ l.
Proof.
  intros Ha Hb Hlen x Hx. assert (l ≡ₚ range 0 n) as ->; [|apply elem_of_range; lia]. apply submseteq_length_Permutation.
  - apply NoDup_submseteq; [by apply ascending_nodup|]. intros y ?%Hb. apply elem_of_range. lia.
  - pose proof (len_range 0 n). unfold len in *. lia.
Qed.

Lemma mapM_res_total {A B} (f : A -> res B) (P : A -> B -> Prop) l :
  (forall x, x ∈ l -> exists y, f x = Ok y /\ P x y) -> exists ys, mapM_res f l = Ok ys /\ Forall2 P l ys.
Proof.
  induction l as [|x l IH]; intros Hl; [exists []; done|].
  destruct (Hl x) as (y & Hy & HP); [left|]. destruct IH as (ys & Hys & HPs); [intros; apply Hl; by right|].
  exists (y :: ys). cbn. rewrite Hy. cbn. rewrite Hys. split; [done|by constructor].
Qed.

Lemma sumN_perm l k : l ≡ₚ k -> sumN l = sumN k.
Proof. induction 1; rewrite ?sumN_cons in *; lia. Qed.

(** Updates by index, as [get] sees them. *)
Lemma get_set_eq {A} (l : list A) i x : i < len l -> get (<[N.to_nat i := x]> l) i = Some x.
Proof. intros Hi. unfold get, len in *. apply list_lookup_insert_eq. lia. Qed.
Lemma get_set_ne {A} (l : list A) i j x : i <> j -> get (<[N.to_nat i := x]> l) j = get l j.
Proof. intros Hi. unfold get. apply list_lookup_insert_ne. lia. Qed.
Lemma len_set {A} (l : list A) i x : len (<[N.to_nat i := x]> l) = len l.
Proof. unfold len. by rewrite length_insert. Qed.

(** ** Sorting by keys: tuples of numbers in lexicographic order *)

Fixpoint lex_leb (a b : list N) : bool :=
  match a, b with
  | [], _ => true
  | _ :: _, [] => false
  | x :: a, y :: b => (x <? y) || (x =? y) && lex_leb a b
  end.
Definition lex_lt (a b : list N) : Prop := lex_leb a b = true /\ a <> b.

(** [sort_unstable_by_key] *)
Definition sort_by_key {A} (key : A -> list N) : list A -> list A := sort_by (fun a b => lex_leb (key a) (key b)).

Lemma lex_total a b : lex_leb a b = true \/ lex_leb b a = true.
Proof.
  revert b. induction a as [|x a IH]; intros [|y b]; cbn [lex_leb]; [by left|by left|by right|].
  destruct (N.lt_trichotomy x y) as [H|[->|H]].
  - left. by rewrite (proj2 (N.ltb_lt _ _) H).
  - rewrite N.ltb_irrefl, N.eqb_refl. apply IH.
  - right. by rewrite (proj2 (N.ltb_lt _ _) H).
Qed.
Lemma lex_cons x a y b : lex_leb (x :: a) (y :: b) = true <-> x < y \/ x = y /\ lex_leb a b = true.
Proof. cbn [lex_leb]. rewrite orb_true_iff, andb_true_iff, N.ltb_lt, N.eqb_eq. done. Qed.
Lemma lex_trans a b c : lex_leb a b = true -> lex_leb b c = true -> lex_leb a c = true.
Proof.
  revert b c. induction a as [|x a IH]; intros [|y b] [|z c]; try done. rewrite !lex_cons.
  intros [H1|[-> H1]] [H2|[-> H2]]; [left; lia|by left|by left|]. right. split; [done|]. by apply (IH b).
Qed.
Lemma lex_antisym a b : lex_leb a b = true -> lex_leb b a = true -> a = b.
Proof.
  revert b. induction a as [|x a IH]; intros [|y b]; try done. rewrite !lex_cons.
  intros [H1|[-> H1]] [H2|[H2' H2]]; [lia..|]. f_equal. by apply IH.
Qed.

Lemma sorted_by_key {A} (key : A -> list N) l : StronglySorted (fun a b => lex_leb (key a) (key b) = true) (sort_by_key key l).
Proof. apply sort_by_sorted; [intros; apply lex_total|intros x y z; apply lex_trans]. Qed.

(** Sorting elements with different keys. *)
Lemma sorted_strict {A} (key : A -> list N) l :
  NoDup (key <$> l) -> StronglySorted (fun a b => lex_lt (key a) (key b)) (sort_by_key key l).
Proof.
  intros Hnd. assert (NoDup (key <$> sort_by_key key l)) as Hnd' by (unfold sort_by_key; by rewrite sort_by_perm).
  pose proof (sorted_by_key key l) as Hs. revert Hnd' Hs. generalize (sort_by_key key l). clear. intros l Hnd Hs.
  induction Hs as [|x l Hs IH Hx]; [constructor|]. rewrite fmap_cons in Hnd. apply NoDup_cons in Hnd as [Hn Hnd].
  constructor; [by apply IH|]. rewrite Forall_forall in Hx |- *. intros y Hy. split; [by apply Hx|].
  intros E. apply Hn. rewrite E. by apply list_elem_of_fmap_2.
Qed.

Lemma dedup_head {A} `{EqDecision A} (x : A) l : exists t, dedup (x :: l) = x :: t.
Proof.
  revert x. induction l as [|y l IH]; intros x; [by eexists|].
  change (dedup (x :: y :: l)) with (if decide (x = y) then dedup (y :: l) else x :: dedup (y :: l)).
  destruct (decide (x = y)) as [->|]; [apply IH|by eexists].
Qed.

Lemma get_cons_cases {A} (x : A) l i y : get (x :: l) i = Some y -> i = 0 /\ y = x \/ exists i', i = 1 + i' /\ get l i' = Some y.
Proof.
  destruct (decide (i = 0)) as [->|Hi]; [rewrite get_cons_0; intros [= ->]; by left|]. replace i with (1 + (i - 1)) by lia.
  rewrite get_cons_S. intros H. right. by exists (i - 1).
Qed.

(** ** More lists *)

Lemma sound_mapM {A B} (honest : Prop) (f : A -> res B) (P : A -> B -> Prop) l :
  (forall x, x ∈ l -> sound honest (f x) (P x)) -> sound honest (mapM_res f l) (Forall2 P l).
Proof.
  induction l as [|x l IH]; intros H; [right; by exists []|]. cbn [mapM_res].
  destruct (H x ltac:(left)) as [(e & -> & Hn)|(y & -> & Hy)]; [left; by exists e|]. cbn [mbind res_bind].
  destruct IH as [(e & -> & Hn)|(ys & -> & Hys)]; [intros; apply H; by right|left; by exists e|]. right. exists (y :: ys). split; [done|by constructor].
Qed.

Lemma zip_fmap_r_self {A B} (f : A -> B) l : zip l (f <$> l) = (fun x => (x, f x)) <$> l.
Proof. induction l as [|x l IH]; [done|]. cbn. by f_equal. Qed.

Lemma mapM_res_fmap {A B C} (f : B -> res C) (g : A -> B) l : mapM_res f (g <$> l) = mapM_res (fun x => f (g x)) l.
Proof. induction l as [|x l IH]; [done|]. cbn. destruct (f (g x)); cbn; [|done..]. by rewrite IH. Qed.

Lemma elem_of_zip_fmap {A B} (f : A -> B) l x y : (x, y) ∈ zip l (f <$> l) -> x ∈ l /\ y = f x.
Proof.
  induction l as [|a l IH]; cbn; [by intros ?%elem_of_nil|]. intros [[= -> ->]|H]%elem_of_cons; [by split; [left|]|].
  destruct (IH H). split; [by right|done].
Qed.

Lemma range_nodup a b : NoDup (range a b).
Proof. apply ascending_nodup, range_ascending. Qed.

Lemma elem_of_coq_filter {A} (p : A -> bool) l x : x ∈ List.filter p l <-> x ∈ l /\ p x = true.
Proof. rewrite !list_elem_of_In. apply filter_In. Qed.

Lemma filter_ascending_fst {A} (p : N * A -> bool) (l : list (N * A)) : ascending l.*1 -> ascending (List.filter p l).*1.
Proof.
  induction l as [|x l IH]; [done|]. cbn. intros H. apply StronglySorted_inv in H as [Hl Hx]. destruct (p x); [|by apply IH].
  cbn. constructor; [by apply IH|]. rewrite Forall_forall in Hx |- *. intros y (c & -> & Hc)%list_elem_of_fmap. apply Hx, list_elem_of_fmap.
  apply elem_of_coq_filter in Hc as [Hc _]. by exists c.
Qed.

