(* ===== verification/BitPack.v ===== *)
(** * Fixed-width bit packing

    The accumulator loops shared, line for line, by [pack_ids]/[unpack_ids]
    (crates/index/src/lib.rs) and [pack_fixed]/[unpack_fixed]
    (crates/index/src/delta_blocks.rs).  The two encoders have the same body;
    the decoders differ in what they do when the input ends early and in the
    visitor, which are parameters here.  The number a list of [k]-bit digits
    denotes, [number k], is the specification both directions meet. *)

From S2P Require Import Prelude.

(** ** The loops *)

(** [while filled >= 8 { out.push(acc as u8); acc >>= 8; filled -= 8; }];
    [fuel] is at least [filled / 8]. *)
Fixpoint drain_bytes (fuel : nat) (acc filled : N) : list N * N * N :=
  match fuel with
  | S fuel =>
      if 8 <=? filled then
        let '(out, acc', filled') := drain_bytes fuel (N.shiftr acc 8) (filled - 8) in
        (acc mod U8 :: out, acc', filled')
      else ([], acc, filled)
  | O => ([], acc, filled)
  end.

Fixpoint pack_loop (values : list N) (width acc filled : N) : list N :=
  match values with
  | [] => if 0 <? filled then [acc mod U8] else []
  | value :: values =>
      let acc := N.lor acc (shl64 value filled) in
      let filled := filled + width in
      let '(out, acc, filled) := drain_bytes (N.to_nat (filled / 8)) acc filled in
      out ++ pack_loop values width acc filled
  end.

Definition pack_bits (values : list N) (width : N) : list N := pack_loop values width 0 0.

(** [while filled < width { acc |= next << filled; filled += 8; }]; [fuel] is
    at least [width - filled].  [eof] is what the caller does at the end of
    the input. *)
Fixpoint fill_acc (eof : res (N * N * list N)) (fuel : nat) (width acc filled : N) (input : list N)
    : res (N * N * list N) :=
  match fuel with
  | S fuel =>
      if filled <? width then
        match input with
        | b :: input => fill_acc eof fuel width (N.lor acc (shl64 b filled)) (filled + 8) input
        | [] => eof
        end
      else Ok (acc, filled, input)
  | O => Ok (acc, filled, input)
  end.

Fixpoint unpack_loop {S : Type} (eof : res (N * N * list N)) (visit : S -> N -> res S)
    (n : nat) (width acc filled : N) (input : list N) (s : S) : res S :=
  match n with
  | O => Ok s
  | Datatypes.S n =>
      '(acc, filled, input) ← fill_acc eof (N.to_nat (width - filled)) width acc filled input;
      let mask := N.shiftl 1 width - 1 in
      s ← visit s (N.land acc mask mod U32);
      unpack_loop eof visit n width (N.shiftr acc width) (filled - width) input s
  end.

(** ** Numbers in base [2^k], least significant digit first *)

Definition is_byte (b : N) : Prop := b < U8.

Fixpoint number (k : N) (l : list N) : N :=
  match l with
  | [] => 0
  | x :: l => x + 2 ^ k * number k l
  end.

Lemma pow2_pos k : 0 < 2 ^ k.
Proof. apply N.neq_0_lt_0, N.pow_nonzero. done. Qed.
Lemma pow2_add a b : 2 ^ (a + b) = 2 ^ a * 2 ^ b.
Proof. apply N.pow_add_r. Qed.

Lemma radix_lt p q a x : a < p -> x < q -> a + p * x < p * q.
Proof. intros. assert (p * (x + 1) <= p * q) by (apply N.mul_le_mono_l; lia). lia. Qed.
Lemma radix_lt_inv p q a x : 0 < p -> a + p * x < p * q -> x < q.
Proof.
  intros Hp H. destruct (N.lt_ge_cases x q); [done|].
  assert (p * q <= p * x) by (apply N.mul_le_mono_l; lia). lia.
Qed.

Lemma lor_add_shift a b n : a < 2 ^ n -> N.lor a (N.shiftl b n) = a + 2 ^ n * b.
Proof.
  intros Ha. rewrite N.shiftl_mul_pow2. rewrite (N.mul_comm (2 ^ n)).
  apply N.bits_inj. intros i.
  rewrite N.lor_spec.
  destruct (N.lt_ge_cases i n).
  - rewrite N.mul_pow2_bits_low by done. rewrite orb_false_r.
    rewrite <- (N.mod_pow2_bits_low (a + b * 2 ^ n) n i) by done.
    rewrite N.Div0.mod_add, N.mod_small by done. done.
  - rewrite N.mul_pow2_bits_high by done.
    replace i with (i - n + n) at 3 by lia. rewrite <- N.div_pow2_bits.
    rewrite N.div_add by (apply N.pow_nonzero; done). rewrite N.div_small by done.
    rewrite N.add_0_l.
    replace (N.testbit a i) with false; [done|].
    rewrite <- (N.mod_small a (2 ^ n)) by done. by rewrite N.mod_pow2_bits_high.
Qed.

Lemma number_app k l1 l2 : number k (l1 ++ l2) = number k l1 + 2 ^ (k * len l1) * number k l2.
Proof.
  induction l1 as [|y l1 IH].
  - rewrite len_nil, N.mul_0_r, N.pow_0_r. cbn [app number]. lia.
  - cbn [app number]. rewrite IH, len_cons.
    replace (k * (1 + len l1)) with (k + k * len l1) by lia. rewrite pow2_add. lia.
Qed.

Lemma number_bound k l : Forall (fun x => x < 2 ^ k) l -> number k l < 2 ^ (k * len l).
Proof.
  induction 1 as [|x l Hx Hl IH]; [rewrite len_nil, N.mul_0_r; cbn; lia|].
  rewrite len_cons. replace (k * (1 + len l)) with (k + k * len l) by lia.
  rewrite pow2_add. cbn [number]. by apply radix_lt.
Qed.

Lemma number_inj k l1 l2 :
  length l1 = length l2 ->
  Forall (fun x => x < 2 ^ k) l1 -> Forall (fun x => x < 2 ^ k) l2 ->
  number k l1 = number k l2 -> l1 = l2.
Proof.
  revert l2. induction l1 as [|x l1 IH]; intros [|y l2]; cbn; intros Hlen H1 H2 Heq; try done.
  inversion H1; inversion H2; subst. pose proof (pow2_pos k).
  assert (x = y) as ->.
  { apply (f_equal (fun z => z mod 2 ^ k)) in Heq.
    rewrite !(N.mul_comm (2 ^ k)), !N.Div0.mod_add, !N.mod_small in Heq by done. done. }
  f_equal. apply IH; [lia|done|done|]. nia.
Qed.

(** ** Encoding *)

Lemma drain_bytes_spec fuel acc filled out acc' filled' :
  drain_bytes fuel acc filled = (out, acc', filled') ->
  filled / 8 <= N.of_nat fuel ->
  filled' < 8 /\ filled = 8 * len out + filled' /\
  acc = number 8 out + 2 ^ (8 * len out) * acc' /\ Forall is_byte out.
Proof.
  revert acc filled out. induction fuel as [|fuel IH]; cbn [drain_bytes]; intros acc filled out.
  - intros [= <- <- <-] Hf. rewrite len_nil. cbn. split_and!; [lia|lia|lia|constructor].
  - destruct (N.leb_spec 8 filled).
    + destruct (drain_bytes fuel (N.shiftr acc 8) (filled - 8)) as [[o a] f] eqn:E.
      intros [= <- <- <-] Hf. apply IH in E as (? & ? & Hacc & ?); [|lia].
      rewrite len_cons. cbn [number]. split_and!; [done|lia| |].
      * rewrite N.shiftr_div_pow2 in Hacc.
        replace (8 * (1 + len o)) with (8 + 8 * len o) by lia. rewrite pow2_add.
        rewrite <- N.mul_assoc, <- N.add_assoc, <- N.mul_add_distr_l, <- Hacc.
        rewrite N.add_comm. apply N.div_mod'. 
      * constructor; [|done]. unfold is_byte. apply N.mod_lt. done.
    + intros [= <- <- <-] Hf. rewrite len_nil. cbn. split_and!; [lia|lia|lia|constructor].
Qed.

Lemma pack_loop_spec values width acc filled :
  width <= 32 -> filled < 8 -> acc < 2 ^ filled ->
  Forall (fun x => x < 2 ^ width) values ->
  let out := pack_loop values width acc filled in
  number 8 out = acc + 2 ^ filled * number width values /\
  len out = div_ceil (filled + width * len values) 8 /\
  Forall is_byte out.
Proof.
  intros Hw. revert acc filled. induction values as [|x values IH]; intros acc filled Hf Ha Hv.
  - cbn [pack_loop number]. rewrite len_nil, N.mul_0_r, !N.mul_0_r, !N.add_0_r.
    assert (acc < 2 ^ 8) by (eapply N.lt_le_trans; [exact Ha|apply N.pow_le_mono_r; lia]).
    destruct (N.ltb_spec 0 filled).
    + cbn [number]. rewrite N.mod_small by done. split_and!; [lia| |by repeat constructor].
      rewrite len_cons, len_nil. symmetry. apply div_ceil_unique; lia.
    + replace filled with 0 in * by lia. cbn in *. split_and!; [lia|done|constructor].
  - inversion Hv as [|? ? Hx Hvs]; subst. cbn [pack_loop].
    assert (Hsh : shl64 x filled = N.shiftl x filled).
    { unfold shl64. rewrite N.mod_small; [done|]. rewrite N.shiftl_mul_pow2.
      assert (2 ^ width <= 2 ^ 32) by (apply N.pow_le_mono_r; lia).
      assert (2 ^ filled <= 2 ^ 8) by (apply N.pow_le_mono_r; lia).
      change U64 with (2 ^ 32 * 2 ^ 32). nia. }
    rewrite Hsh, lor_add_shift by done.
    destruct (drain_bytes _ _ _) as [[out a] f] eqn:E.
    apply drain_bytes_spec in E as (Hf' & Hfill & Hacc & Hb); [|lia].
    assert (Ha' : a < 2 ^ f).
    { pose proof (radix_lt (2 ^ filled) (2 ^ width) acc x Ha Hx) as Hlt.
      rewrite <- pow2_add, Hfill, pow2_add, Hacc in Hlt.
      apply (radix_lt_inv (2 ^ (8 * len out)) _ (number 8 out)); [apply pow2_pos|done]. }
    destruct (IH a f Hf' Ha' Hvs) as (Hn & Hl & Hb'). cbn zeta.
    split_and!.
    + cbn [number].
      rewrite number_app, Hn, N.mul_add_distr_l, N.add_assoc, <- Hacc, N.mul_assoc, <- pow2_add.
      rewrite <- Hfill, pow2_add. lia.
    + rewrite len_app, Hl, len_cons. symmetry.
      pose proof (div_ceil_le (f + width * len values) 8 ltac:(lia)).
      apply div_ceil_unique; [lia| |lia].
      destruct (decide (f + width * len values = 0)) as [->|].
      * rewrite div_ceil_0 by done. lia.
      * pose proof (div_ceil_lt (f + width * len values) 8 ltac:(lia) ltac:(lia)). lia.
    + apply Forall_app. done.
Qed.

Lemma pack_bits_spec values width :
  width <= 32 -> Forall (fun x => x < 2 ^ width) values ->
  number 8 (pack_bits values width) = number width values /\
  len (pack_bits values width) = div_ceil (width * len values) 8 /\
  Forall is_byte (pack_bits values width).
Proof.
  intros Hw Hv. destruct (pack_loop_spec values width 0 0) as (H1 & H2 & H3); [done|lia|cbn; lia|done|].
  unfold pack_bits. rewrite H1, H2. split_and!; [cbn; lia|done|done].
Qed.

(** ** Decoding *)

Lemma fill_acc_spec eof fuel width acc filled input :
  width <= 32 -> acc < 2 ^ filled -> Forall is_byte input ->
  width <= filled + 8 * len input -> width - filled <= N.of_nat fuel ->
  exists acc' filled' input',
    fill_acc eof fuel width acc filled input = Ok (acc', filled', input') /\
    width <= filled' /\ acc' < 2 ^ filled' /\ Forall is_byte input' /\
    filled' + 8 * len input' = filled + 8 * len input /\
    acc' + 2 ^ filled' * number 8 input' = acc + 2 ^ filled * number 8 input.
Proof.
  intros Hw. revert acc filled input. induction fuel as [|fuel IH]; cbn [fill_acc].
  { intros acc filled input Ha Hb Hen Hf. exists acc, filled, input. split_and!; (done || lia). }
  intros acc filled input Ha Hb Hen Hf.
  destruct (N.ltb_spec filled width).
  2: { exists acc, filled, input. split_and!; (done || lia). }
  destruct input as [|b input]; [rewrite len_nil in Hen; lia|].
  inversion Hb as [|? ? Hbyte Hb']; subst. unfold is_byte in Hbyte. rewrite len_cons in *.
  assert (Hsh : shl64 b filled = N.shiftl b filled).
  { unfold shl64. rewrite N.mod_small; [done|]. rewrite N.shiftl_mul_pow2.
    assert (2 ^ filled <= 2 ^ 32) by (apply N.pow_le_mono_r; lia).
    change U64 with (2 ^ 32 * 2 ^ 32). nia. }
  rewrite Hsh, lor_add_shift by done.
  destruct (IH (acc + 2 ^ filled * b) (filled + 8) input) as (a' & f' & i' & E & ? & ? & ? & ? & Hn);
    [by rewrite pow2_add; apply radix_lt|done|lia|lia|].
  exists a', f', i'. split_and!; try done; [lia|].
  rewrite Hn. cbn [number]. rewrite pow2_add. lia.
Qed.

Lemma unpack_loop_spec {S} eof (visit : S -> N -> res S) n width acc filled input :
  width <= 32 -> acc < 2 ^ filled -> Forall is_byte input ->
  width * N.of_nat n <= filled + 8 * len input ->
  exists l,
    length l = n /\ Forall (fun x => x < 2 ^ width) l /\
    number width l = (acc + 2 ^ filled * number 8 input) mod 2 ^ (width * N.of_nat n) /\
    forall s, unpack_loop eof visit n width acc filled input s = foldM visit s l.
Proof.
  intros Hw. revert acc filled input. induction n as [|n IH]; intros acc filled input Ha Hb Hen.
  { exists []. rewrite N.mul_0_r. cbn. split_and!; [done|constructor|by rewrite N.mod_1_r|done]. }
  destruct (fill_acc_spec eof (N.to_nat (width - filled)) width acc filled input)
    as (a' & f' & i' & E & ? & ? & ? & ? & Hn); [done|done|done|lia|lia|].
  rewrite Nat2N.inj_succ in Hen.
  pose proof (pow2_pos width) as Hpw.
  assert (Hdiv : N.shiftr a' width < 2 ^ (f' - width)).
  { rewrite N.shiftr_div_pow2. apply N.Div0.div_lt_upper_bound. rewrite <- pow2_add.
    by replace (width + (f' - width)) with f' by lia. }
  destruct (IH (N.shiftr a' width) (f' - width) i' Hdiv ltac:(done) ltac:(lia)) as (l & Hl & Hd & Hnum & Hrun).
  assert (Hmask : N.land a' (N.shiftl 1 width - 1) mod U32 = a' mod 2 ^ width).
  { replace (N.shiftl 1 width - 1) with (N.ones width)
      by (rewrite N.ones_equiv, N.shiftl_1_l; lia).
    rewrite N.land_ones. apply N.mod_small.
    eapply N.lt_le_trans; [by apply N.mod_lt, N.pow_nonzero|].
    apply N.pow_le_mono_r; lia. }
  exists (a' mod 2 ^ width :: l). split_and!.
  - cbn. lia.
  - constructor; [by apply N.mod_lt, N.pow_nonzero|done].
  - cbn [number]. rewrite Hnum, <- Hn, Nat2N.inj_succ, N.mul_succ_r, (N.add_comm (width * _)), pow2_add.
    rewrite N.Div0.mod_mul_r. rewrite N.shiftr_div_pow2.
    assert (Hf' : 2 ^ f' = 2 ^ width * 2 ^ (f' - width))
      by (rewrite <- pow2_add; f_equal; lia).
    rewrite Hf', <- N.mul_assoc. f_equal.
    + by rewrite (N.mul_comm (2 ^ width)), N.Div0.mod_add.
    + rewrite (N.mul_comm (2 ^ width) (_ * _)), N.div_add by lia. done.
  - intros s. cbn [unpack_loop]. rewrite E. cbn [mbind res_bind].
    rewrite Hmask. cbn [foldM]. destruct (visit s _); cbn; [apply Hrun|done|done].
Qed.

(** Packing then unpacking visits exactly the packed values, in order. *)
Lemma unpack_pack {S} eof (visit : S -> N -> res S) values width s :
  width <= 32 -> Forall (fun x => x < 2 ^ width) values ->
  unpack_loop eof visit (length values) width 0 0 (pack_bits values width) s = foldM visit s values.
Proof.
  intros Hw Hv. destruct (pack_bits_spec values width Hw Hv) as (Hn & Hl & Hb).
  assert (Hlen : width * N.of_nat (length values) <= 8 * len (pack_bits values width)).
  { rewrite Hl. apply (div_ceil_le (width * len values) 8). done. }
  destruct (unpack_loop_spec eof visit (length values) width 0 0 (pack_bits values width))
    as (l & Hll & Hd & Hnum & Hrun); [done|cbn; lia|done|lia|].
  rewrite Hrun. f_equal. eapply number_inj; [done|done|done|].
  rewrite Hnum, Hn. rewrite N.pow_0_r, N.add_0_l, N.mul_1_l. apply N.mod_small.
  by apply number_bound.
Qed.

(** The number of significant bits, at least one: [(32 - leading_zeros).max(1)]. *)
Definition bit_width (value : N) : N := N.max (N.size value) 1.

Lemma bit_width_lt value : value < 2 ^ bit_width value.
Proof.
  unfold bit_width. eapply N.lt_le_trans; [apply N.size_gt|]. apply N.pow_le_mono_r; lia.
Qed.
Lemma bit_width_mono a b : a <= b -> bit_width a <= bit_width b.
Proof.
  intros. unfold bit_width. apply N.max_le_compat_r.
  destruct a as [|a]; [cbn; lia|]. rewrite !N.size_log2 by lia.
  apply -> N.succ_le_mono. by apply N.log2_le_mono.
Qed.
Lemma bit_width_le value k : 1 <= k -> value < 2 ^ k -> 1 <= bit_width value <= k.
Proof.
  intros Hk Hv. unfold bit_width. split; [lia|]. apply N.max_lub; [|done].
  destruct value as [|p]; [cbn; lia|]. rewrite N.size_log2 by lia.
  apply N.le_succ_l. by apply N.log2_lt_pow2.
Qed.
