(* ===== verification/Bytes.v ===== *)
(** * Integers as bytes

    [to_le_bytes], [from_le_bytes], [to_be_bytes], [from_be_bytes] and the
    lower-case hexadecimal form ([hex] of crates/index/src/sparse_table.rs), and
    what it takes to cut a concatenation of equally long records apart again. *)

From S2P Require Import Prelude BitPack.

Fixpoint le_bytes (n : nat) (x : N) : list N :=
  match n with
  | O => []
  | S n => x mod 256 :: le_bytes n (x / 256)
  end.
Fixpoint from_le (bytes : list N) : N :=
  match bytes with
  | [] => 0
  | b :: bytes => b + 256 * from_le bytes
  end.
Definition to_le_bytes (x : N) : list N := le_bytes 8 x.
Definition to_be_bytes (x : N) : list N := rev (to_le_bytes x).
Definition from_be (bytes : list N) : N := from_le (rev bytes).

(** [u64::from_le_bytes(bytes.try_into().expect("eight bytes"))] *)
Definition read_u64 (bytes : list N) : res N :=
  if len bytes =? 8 then Ok (from_le bytes) else Panic "eight bytes".

Definition hex_digit (d : N) : N := if d <? 10 then 48 + d else 87 + d.
Definition hex (bytes : list N) : list N :=
  mbind (fun byte => [hex_digit (byte / 16); hex_digit (byte mod 16)]) bytes.

(** [chunks_exact(k)]: a shorter remainder is dropped. *)
Definition chunks_exact {A} (k : nat) (l : list A) : list (list A) :=
  List.filter (fun c => Nat.eqb (length c) k) (chunks k l).

Lemma le_bytes_length n x : length (le_bytes n x) = n.
Proof. revert x. induction n; intros; cbn; auto. Qed.
Lemma le_bytes_bytes n x : Forall is_byte (le_bytes n x).
Proof.
  revert x. induction n as [|n IH]; intros x; constructor; [|apply IH].
  unfold is_byte. pose proof (N.mod_lt x 256 ltac:(lia)). lia.
Qed.
Lemma from_le_bytes n x : x < 256 ^ N.of_nat n -> from_le (le_bytes n x) = x.
Proof.
  revert x. induction n as [|n IH]; intros x Hx; cbn [le_bytes from_le].
  - change (256 ^ N.of_nat 0) with 1 in Hx. lia.
  - rewrite Nat2N.inj_succ, N.pow_succ_r' in Hx. rewrite IH; [lia|]. apply N.Div0.div_lt_upper_bound. lia.
Qed.
Lemma from_le_bound bytes : Forall is_byte bytes -> from_le bytes < 256 ^ len bytes.
Proof.
  induction 1 as [|b bytes Hb Hbs IH]; cbn; [done|]. rewrite len_cons, N.add_1_l, N.pow_succ_r'.
  unfold is_byte in Hb. lia.
Qed.

Lemma to_le_bytes_len x : len (to_le_bytes x) = 8.
Proof. unfold to_le_bytes, len. by rewrite le_bytes_length. Qed.
Lemma to_be_bytes_len x : len (to_be_bytes x) = 8.
Proof. unfold to_be_bytes, to_le_bytes, len. by rewrite length_rev, le_bytes_length. Qed.
Lemma read_to_le_bytes x : x < U64 -> read_u64 (to_le_bytes x) = Ok x.
Proof.
  intros Hx. unfold read_u64. rewrite to_le_bytes_len. cbn [N.eqb Pos.eqb]. f_equal. by apply from_le_bytes.
Qed.
Lemma from_to_be_bytes x : x < U64 -> from_be (to_be_bytes x) = x.
Proof. intros. unfold from_be, to_be_bytes. rewrite rev_involutive. by apply from_le_bytes. Qed.
Lemma read_u64_bound bytes x : Forall is_byte bytes -> read_u64 bytes = Ok x -> x < U64.
Proof.
  unfold read_u64. destruct (N.eqb_spec (len bytes) 8) as [E|]; [|done]. intros Hb [= <-].
  pose proof (from_le_bound _ Hb) as H. rewrite E in H. exact H.
Qed.
Lemma read_u64_no_panic bytes : len bytes = 8 -> exists x, read_u64 bytes = Ok x.
Proof. intros E. unfold read_u64. rewrite E. eauto. Qed.

Lemma hex_digit_inj a b : hex_digit a = hex_digit b -> a = b.
Proof. unfold hex_digit. destruct (N.ltb_spec a 10), (N.ltb_spec b 10); lia. Qed.
Lemma hex_inj a b : hex a = hex b -> a = b.
Proof.
  revert b. induction a as [|x a IH]; intros [|y b]; try done.
  intros H. unfold hex in H. rewrite !bind_cons in H. cbn [app] in H. injection H as H1 H2 H3.
  apply hex_digit_inj in H1, H2. f_equal; [|by apply IH].
  rewrite (N.div_mod x 16), (N.div_mod y 16) by lia. by rewrite H1, H2.
Qed.

(** ** Slices of a concatenation *)

Lemma get_range_app_skip {A} (l1 l2 : list A) a b :
  get_range (l1 ++ l2) (len l1 + a) (len l1 + b) = get_range l2 a b.
Proof.
  unfold get_range. rewrite len_app.
  destruct (N.leb_spec (len l1 + a) (len l1 + b)), (N.leb_spec a b); try lia; cbn; [|done].
  destruct (N.leb_spec (len l1 + b) (len l1 + len l2)), (N.leb_spec b (len l2)); try lia; [|done].
  f_equal. replace (len l1 + b - (len l1 + a)) with (b - a) by lia. f_equal.
  unfold len. rewrite drop_app_ge by lia. f_equal. lia.
Qed.
Lemma get_range_prefix {A} (l1 l2 : list A) b : b = len l1 -> get_range (l1 ++ l2) 0 b = Some l1.
Proof.
  intros ->. apply get_range_Some. rewrite len_app. split_and!; [lia|lia|].
  rewrite N.sub_0_r, to_nat_len. change (N.to_nat 0) with 0%nat. by rewrite drop_0, take_app_length.
Qed.
Lemma get_range_mid {A} (l1 l2 l3 : list A) a b :
  a = len l1 -> b = len l1 + len l2 -> get_range (l1 ++ l2 ++ l3) a b = Some l2.
Proof.
  intros -> ->. replace (len l1) with (len l1 + 0) at 1 by lia. rewrite get_range_app_skip.
  by apply get_range_prefix.
Qed.
Lemma get_range_suffix {A} (l1 l2 : list A) a b :
  a = len l1 -> b = len l1 + len l2 -> get_range (l1 ++ l2) a b = Some l2.
Proof. intros Ha Hb. rewrite <- (app_nil_r l2) at 1. by apply get_range_mid. Qed.
Lemma get_range_all {A} (l : list A) b : b = len l -> get_range l 0 b = Some l.
Proof. intros ->. rewrite <- (app_nil_r l) at 1. by apply get_range_prefix. Qed.

(** The part of a list between two positions, none when they cross. *)
Definition cut {A} (doc : list A) (a b : N) : list A := take (N.to_nat (b - a)) (drop (N.to_nat a) doc).

Lemma cut_get_range {A} (doc : list A) a b : a <= b -> b <= len doc -> get_range doc a b = Some (cut doc a b).
Proof. intros. apply get_range_Some. done. Qed.
Lemma cut_nil {A} (doc : list A) a b : b <= a -> cut doc a b = [].
Proof. intros. unfold cut. replace (b - a) with 0 by lia. done. Qed.
Lemma cut_app {A} (doc : list A) a b c : a <= b -> b <= c -> cut doc a b ++ cut doc b c = cut doc a c.
Proof.
  intros. unfold cut. rewrite <- (take_drop (N.to_nat (b - a)) (take (N.to_nat (c - a)) (drop (N.to_nat a) doc))).
  rewrite take_take, skipn_firstn_comm, drop_drop. f_equal; [f_equal; lia|]. f_equal; [lia|]. f_equal. lia.
Qed.
Lemma len_cut {A} (doc : list A) a b : b <= len doc -> len (cut doc a b) = b - a.
Proof. intros. unfold cut, len in *. rewrite length_take, length_drop. lia. Qed.
Lemma cut_app_l {A} (l1 l2 : list A) a b : b <= len l1 -> cut (l1 ++ l2) a b = cut l1 a b.
Proof.
  intros Hb. destruct (decide (a <= b)) as [Hab|]; [|by rewrite !cut_nil by lia]. unfold cut. unfold len in Hb.
  rewrite drop_app_le by lia. apply take_app_le. rewrite length_drop. lia.
Qed.
Lemma cut_app_r {A} (l1 l2 : list A) a b : len l1 <= a -> cut (l1 ++ l2) a b = cut l2 (a - len l1) (b - len l1).
Proof.
  intros Ha. unfold cut. unfold len in *. rewrite drop_app_ge by lia. f_equal; [lia|]. f_equal. lia.
Qed.
Lemma cut_app_shift {A} (l1 l2 : list A) a b : cut (l1 ++ l2) (len l1 + a) (len l1 + b) = cut l2 a b.
Proof. rewrite cut_app_r by lia. f_equal; lia. Qed.
Lemma cut_cut {A} (l : list A) a b c d : a + d <= b -> cut (cut l a b) c d = cut l (a + c) (a + d).
Proof.
  intros H. destruct (decide (c <= d)); [|by rewrite !cut_nil by lia]. unfold cut. rewrite skipn_firstn_comm, drop_drop, take_take.
  f_equal; [lia|]. f_equal. lia.
Qed.
Lemma cut_middle {A} (doc x y z : list A) a b : doc = x ++ y ++ z -> a = len x -> b = len x + len y -> cut doc a b = y.
Proof.
  intros -> -> ->. unfold cut. rewrite to_nat_len, drop_app_length. replace (len x + len y - len x) with (len y) by lia.
  rewrite to_nat_len. by apply take_app_length.
Qed.

(** ** Records of one length *)

Lemma chunks_records {A} (k : nat) (records : list (list A)) :
  (0 < k)%nat -> Forall (fun r => length r = k) records -> chunks k (concat records) = records.
Proof.
  intros Hk. induction 1 as [|r records Hr Hrs IH]; [done|]. cbn [concat].
  rewrite chunks_unfold; [|done|].
  - rewrite take_app_length' by done. rewrite drop_app_length' by done. by rewrite IH.
  - intros E. apply (f_equal length) in E. rewrite length_app in E. cbn in E. lia.
Qed.
Lemma chunks_exact_records {A} (k : nat) (records : list (list A)) :
  (0 < k)%nat -> Forall (fun r => length r = k) records -> chunks_exact k (concat records) = records.
Proof.
  intros Hk Hr. unfold chunks_exact. rewrite chunks_records by done.
  induction Hr as [|r records Hrk Hrs IH]; [done|]. cbn. by rewrite Hrk, Nat.eqb_refl, IH.
Qed.
Lemma length_concat_records {A} (k : nat) (records : list (list A)) :
  Forall (fun r => length r = k) records -> length (concat records) = (k * length records)%nat.
Proof. induction 1 as [|r records Hr Hrs IH]; cbn; [lia|]. rewrite length_app. lia. Qed.

Lemma chunks_exact_cons {A} (k : nat) (l : list A) :
  (0 < k)%nat -> (k <= length l)%nat -> chunks_exact k l = take k l :: chunks_exact k (drop k l).
Proof.
  intros Hk Hl. unfold chunks_exact. rewrite chunks_unfold; [|done|intros ->; cbn in Hl; lia].
  cbn [List.filter]. rewrite length_take, Nat.min_l by done. by rewrite Nat.eqb_refl.
Qed.
Lemma chunks_exact_spec {A} (k n : nat) (l : list A) :
  (0 < k)%nat -> length l = (k * n)%nat ->
  length (chunks_exact k l) = n /\ Forall (fun c => length c = k) (chunks_exact k l) /\
  concat (chunks_exact k l) = l.
Proof.
  intros Hk. revert l. induction n as [|n IH]; intros l Hl.
  - destruct l; [done|cbn in Hl; lia].
  - rewrite chunks_exact_cons by lia. destruct (IH (drop k l)) as (H1 & H2 & H3); [rewrite length_drop; lia|].
    cbn [length concat]. rewrite H1, H3, take_drop. split_and!; [done| |done].
    constructor; [rewrite length_take; lia|done].
Qed.

Lemma len_drop {A} (l : list A) k : len (drop (N.to_nat k) l) = len l - k.
Proof. unfold len. rewrite length_drop. lia. Qed.

Lemma len_chunks {A} k (l : list A) : 0 < k -> len (chunks (N.to_nat k) l) = div_ceil (len l) k.
Proof.
  intros Hk. symmetry. remember (length l) as m eqn:Hm. revert l Hm.
  induction (lt_wf m) as [m _ IH]. intros l ->.
  destruct (decide (l = [])) as [->|Hne]; [apply div_ceil_0; lia|].
  assert (0 < length l)%nat as Hl by (destruct l; [done|cbn; lia]).
  rewrite chunks_unfold, len_cons by (done || lia).
  rewrite <- (IH (length (drop (N.to_nat k) l))); [|rewrite length_drop; lia|done].
  rewrite len_drop. unfold len. apply div_ceil_unique; [lia| |].
  - destruct (decide (N.of_nat (length l) <= k)) as [E|E]; [replace (N.of_nat (length l) - k) with 0 by lia; rewrite div_ceil_0; lia|].
    pose proof (div_ceil_lt (N.of_nat (length l) - k) k ltac:(lia) ltac:(lia)). nia.
  - pose proof (div_ceil_le (N.of_nat (length l) - k) k ltac:(lia)). nia.
Qed.

Lemma lookup_chunks {A} (k : nat) (l : list A) i c :
  (0 < k)%nat -> chunks k l !! i = Some c -> c = take k (drop (i * k) l).
Proof.
  intros Hk. revert l. induction i as [|i IH]; intros l Hi.
  - destruct (decide (l = [])) as [->|]; [done|]. rewrite chunks_unfold in Hi by done. cbn in Hi.
    injection Hi as <-. by rewrite drop_0.
  - destruct (decide (l = [])) as [->|]; [done|]. rewrite chunks_unfold in Hi by done. cbn in Hi.
    apply IH in Hi. by rewrite Hi, drop_drop.
Qed.
