(* ===== verification/Postings.v ===== *)
(** * The fixed-width posting block codec (crates/index/src/lib.rs)

    A trigram posting list is stored as the present ids, as the complement
    (absent ids) when more than half of the id space is present, or as no
    bytes at all when every id is present.  The class and the byte length are
    functions of [(count, doc_count)] only. *)

From S2P Require Import Prelude BitPack.

(** Bits of one stored id. *)
Definition posting_id_bits (doc_count : N) : N := bit_width (doc_count - 1).

Definition stored_id_count (count doc_count : N) : N :=
  if count =? doc_count then 0
  else if doc_count <? count * 2 then doc_count - count
  else count.

Definition posting_block_len (count doc_count : N) : N :=
  let bits := stored_id_count count doc_count * posting_id_bits doc_count in
  div_ceil bits 8.

Definition pack_ids (ids : list N) (width : N) : list N := pack_bits ids width.

(** [input.next().expect("length validated")] *)
Definition unpack_ids (bytes : list N) (n width : N) : res (list N) :=
  unpack_loop (Panic "length validated") (fun out id => Ok (out ++ [id]))
    (N.to_nat n) width 0 0 bytes [].

(** The peekable scan that drops from [ids] the ones the sorted list [skip]
    names: [(0..doc_count).filter(..)] of the encoder and the
    [for id in 0..doc_count] loop of the decoder. *)
Fixpoint scan_absent (skip ids : list N) : list N :=
  match ids with
  | [] => []
  | id :: ids =>
      match skip with
      | next :: skip' => if next =? id then scan_absent skip' ids else id :: scan_absent skip ids
      | [] => id :: scan_absent [] ids
      end
  end.

Definition encode_posting_block (ids : list N) (doc_count : N) : list N :=
  let count := len ids mod U32 in
  if count =? doc_count then []
  else
    let width := posting_id_bits doc_count in
    if doc_count <? count * 2
    then pack_ids (scan_absent ids (range 0 doc_count)) width
    else pack_ids ids width.

(** [if let Some(&last) = stored.last() { ensure!(last < doc_count) }] *)
Definition check_last (stored : list N) (doc_count : N) : res unit :=
  match last stored with
  | Some l => ensure (l <? doc_count) "posting block references a doc out of range"
  | None => Ok tt
  end.

Definition decode_posting_block (bytes : list N) (count doc_count : N) : res (list N) :=
  _ ← ensure (count <=? doc_count) "posting count exceeds doc count";
  let expected := posting_block_len count doc_count in
  _ ← ensure (len bytes =? expected) "posting block has the wrong length";
  if count =? doc_count then Ok (range 0 doc_count)
  else
    stored ← unpack_ids bytes (stored_id_count count doc_count) (posting_id_bits doc_count);
    _ ← ensure (is_ascending stored) "posting block ids are not strictly ascending";
    _ ← check_last stored doc_count;
    if doc_count <? count * 2
    then Ok (scan_absent stored (range 0 doc_count))
    else Ok stored.

(** ** Lemmas *)

Lemma posting_id_bits_bounds doc_count :
  doc_count < U32 -> 1 <= posting_id_bits doc_count <= 32.
Proof. intros. apply bit_width_le; lia. Qed.

Lemma posting_id_bits_fits doc_count id : id < doc_count -> id < 2 ^ posting_id_bits doc_count.
Proof.
  intros. unfold posting_id_bits. pose proof (bit_width_lt (doc_count - 1)). lia.
Qed.

Lemma foldM_push {A} (l out : list A) :
  foldM (fun out x => Ok (out ++ [x])) out l = Ok (out ++ l).
Proof.
  revert out. induction l as [|x l IH]; intros out; cbn; [by rewrite app_nil_r|].
  by rewrite IH, <- app_assoc.
Qed.

Lemma unpack_ids_total bytes n width :
  width <= 32 -> Forall is_byte bytes -> width * n <= 8 * len bytes ->
  exists ids, unpack_ids bytes n width = Ok ids /\ len ids = n.
Proof.
  intros Hw Hb Hlen. unfold unpack_ids.
  destruct (unpack_loop_spec (Panic "length validated") (fun out id => Ok (out ++ [id]))
      (N.to_nat n) width 0 0 bytes) as (l & Hl & _ & _ & Hrun); [done|cbn; lia|done|lia|].
  exists l. rewrite Hrun, foldM_push. split; [done|]. unfold len. lia.
Qed.

Lemma unpack_pack_ids ids width :
  width <= 32 -> Forall (fun x => x < 2 ^ width) ids ->
  unpack_ids (pack_ids ids width) (len ids) width = Ok ids.
Proof.
  intros Hw Hv. unfold unpack_ids, pack_ids. rewrite to_nat_len, unpack_pack by done.
  apply foldM_push.
Qed.

Lemma scan_absent_range skip a b :
  ascending skip -> Forall (fun x => a <= x < b) skip ->
  scan_absent skip (range a b) = filter (fun x => x ∉ skip) (range a b).
Proof.
  remember (N.to_nat (b - a)) as n eqn:Hn. revert a skip Hn.
  induction n as [|n IH]; intros a skip Hn Hs Hb.
  { rewrite range_nil by lia. done. }
  rewrite range_cons by lia. cbn [scan_absent]. rewrite filter_cons.
  destruct skip as [|x skip].
  { rewrite decide_True by (apply not_elem_of_nil). f_equal. apply IH; [lia|done|constructor]. }
  apply StronglySorted_inv in Hs as [Hs Hx]. inversion Hb as [|? ? Hxb Hb']; subst.
  destruct (N.eqb_spec x a) as [->|Hne].
  - rewrite decide_False by (intros []; by left).
    rewrite (IH (a + 1) skip); [|lia|done|].
    + assert (forall y, y ∈ range (a + 1) b -> (y ∉ skip <-> y ∉ a :: skip)) as Hext.
      { intros y Hy%elem_of_range. rewrite elem_of_cons. intuition lia. }
      clear -Hext. induction (range (a + 1) b) as [|y l IHl]; [done|].
      rewrite !filter_cons, IHl by (intros; apply Hext; by right).
      specialize (Hext y ltac:(by left)).
      destruct (decide (y ∉ skip)), (decide (y ∉ a :: skip)); tauto.
    + apply Forall_forall. intros y Hy. rewrite Forall_forall in Hx, Hb'.
      specialize (Hx y Hy). specialize (Hb' y Hy). lia.
  - rewrite decide_True.
    + f_equal. apply IH; [lia|by constructor|]. constructor; [lia|].
      apply Forall_forall. intros y Hy. rewrite Forall_forall in Hx, Hb'.
      specialize (Hx y Hy). specialize (Hb' y Hy). lia.
    + rewrite elem_of_cons. intros [->|Hin]; [done|].
      rewrite Forall_forall in Hx. specialize (Hx a Hin). lia.
Qed.

Lemma elem_of_scan_absent skip a b x :
  ascending skip -> Forall (fun x => a <= x < b) skip ->
  x ∈ scan_absent skip (range a b) <-> a <= x < b /\ x ∉ skip.
Proof.
  intros. rewrite scan_absent_range by done. rewrite list_elem_of_filter, elem_of_range. tauto.
Qed.

Lemma scan_absent_ascending skip a b :
  ascending skip -> Forall (fun x => a <= x < b) skip ->
  ascending (scan_absent skip (range a b)).
Proof. intros. rewrite scan_absent_range by done. apply ascending_filter, range_ascending. Qed.

Lemma scan_absent_len skip a b :
  a <= b -> ascending skip -> Forall (fun x => a <= x < b) skip ->
  len (scan_absent skip (range a b)) + len skip = b - a.
Proof.
  intros Hab Hs Hb. rewrite <- (len_range a b).
  assert (scan_absent skip (range a b) ++ skip ≡ₚ range a b) as Hp.
  { apply NoDup_Permutation.
    - apply NoDup_app. split_and!.
      + by apply ascending_nodup, scan_absent_ascending.
      + intros x Hx. apply elem_of_scan_absent in Hx; tauto.
      + by apply ascending_nodup.
    - apply ascending_nodup, range_ascending.
    - intros x. rewrite elem_of_app, elem_of_scan_absent, elem_of_range by done.
      rewrite Forall_forall in Hb. specialize (Hb x). destruct (decide (x ∈ skip)); tauto. }
  rewrite <- len_app. unfold len. by rewrite Hp.
Qed.

(** Scanning twice gives the list back: the complement of the complement. *)
Lemma scan_absent_involutive ids n :
  ascending ids -> Forall (fun x => x < n) ids ->
  scan_absent (scan_absent ids (range 0 n)) (range 0 n) = ids.
Proof.
  intros Hs Hb.
  assert (Hb' : Forall (fun x => 0 <= x < n) ids) by (eapply Forall_impl; [exact Hb|]; cbn; intros; lia).
  assert (Hr : Forall (fun x => 0 <= x < n) (scan_absent ids (range 0 n))).
  { apply Forall_forall. intros x Hx. apply elem_of_scan_absent in Hx; tauto. }
  pose proof (scan_absent_ascending _ _ _ Hs Hb').
  apply ascending_ext; [by apply scan_absent_ascending|done|].
  intros x. rewrite elem_of_scan_absent, elem_of_scan_absent by done.
  rewrite Forall_forall in Hb'. specialize (Hb' x). destruct (decide (x ∈ ids)); tauto.
Qed.

Lemma stored_count_absent count doc_count :
  count <> doc_count -> doc_count < count * 2 ->
  stored_id_count count doc_count = doc_count - count.
Proof.
  intros ? ?. unfold stored_id_count. rewrite (proj2 (N.eqb_neq _ _)) by done.
  by rewrite (proj2 (N.ltb_lt _ _)).
Qed.
Lemma stored_count_present count doc_count :
  count <> doc_count -> count * 2 <= doc_count -> stored_id_count count doc_count = count.
Proof.
  intros ? ?. unfold stored_id_count. rewrite (proj2 (N.eqb_neq _ _)) by done.
  by rewrite (proj2 (N.ltb_ge _ _)).
Qed.

(** A list of ids the encoder may be given. *)
Definition valid_ids (doc_count : N) (ids : list N) : Prop :=
  ascending ids /\ Forall (fun id => id < doc_count) ids.

Lemma valid_ids_full doc_count ids :
  valid_ids doc_count ids -> len ids = doc_count -> ids = range 0 doc_count.
Proof.
  intros [Hs Hb] Hlen. apply ascending_ext; [done|apply range_ascending|].
  assert (Hb' : Forall (fun x => 0 <= x < doc_count) ids)
    by (eapply Forall_impl; [exact Hb|]; cbn; intros; lia).
  pose proof (scan_absent_len ids 0 doc_count ltac:(lia) Hs Hb').
  assert (scan_absent ids (range 0 doc_count) = []) as Hnil.
  { destruct (scan_absent _ _); [done|]. rewrite len_cons in *. lia. }
  intros x. rewrite elem_of_range. split.
  - rewrite Forall_forall in Hb'. apply Hb'.
  - intros Hx. destruct (decide (x ∈ ids)); [done|].
    assert (x ∈ scan_absent ids (range 0 doc_count)) as Hin by by apply elem_of_scan_absent.
    rewrite Hnil in Hin. by apply not_elem_of_nil in Hin.
Qed.

Lemma check_last_cases stored doc_count :
  ascending stored ->
  (check_last stored doc_count = Ok tt /\ Forall (fun x => 0 <= x < doc_count) stored) \/
  (exists e, check_last stored doc_count = Err e /\ ~ Forall (fun x => x < doc_count) stored).
Proof.
  intros Hs. unfold check_last. destruct (last stored) as [l|] eqn:El.
  2: { apply last_None in El as ->. left. split; [done|constructor]. }
  apply last_Some in El as [front ->].
  destruct (N.ltb_spec l doc_count); cbn [ensure]; [left|right].
  - split; [done|]. apply ascending_app in Hs as (_ & _ & Hlt).
    apply Forall_forall. intros x [Hx|Hx%list_elem_of_singleton]%elem_of_app; [|lia].
    specialize (Hlt x l Hx ltac:(by left)). lia.
  - eexists. split; [done|]. intros [_ Hl]%Forall_app. inversion Hl; lia.
Qed.

(** The encoder's output, class by class. *)
Lemma encode_posting_block_cases ids doc_count :
  valid_ids doc_count ids -> doc_count < U32 ->
  let out := encode_posting_block ids doc_count in
  (len ids = doc_count /\ out = []) \/
  (len ids < doc_count /\ exists stored,
     out = pack_ids stored (posting_id_bits doc_count) /\
     valid_ids doc_count stored /\ len stored = stored_id_count (len ids) doc_count /\
     stored = if doc_count <? len ids * 2 then scan_absent ids (range 0 doc_count) else ids).
Proof.
  intros [Hs Hb] Hdc. pose proof (ascending_len_le ids doc_count Hs Hb).
  assert (Hb' : Forall (fun x => 0 <= x < doc_count) ids)
    by (eapply Forall_impl; [exact Hb|]; cbn; intros; lia).
  unfold encode_posting_block. rewrite (N.mod_small (len ids)) by lia. cbn zeta.
  destruct (N.eqb_spec (len ids) doc_count); [by left|right]. split; [lia|].
  destruct (N.ltb_spec doc_count (len ids * 2)).
  - eexists. split; [done|]. split_and!; [|rewrite stored_count_absent by done|done].
    + split; [by apply scan_absent_ascending|]. apply Forall_forall.
      intros x Hx. apply elem_of_scan_absent in Hx; [lia|done|done].
    + pose proof (scan_absent_len ids 0 doc_count ltac:(lia) Hs Hb'). lia.
  - exists ids. rewrite stored_count_present by lia. done.
Qed.

Lemma posting_ids_fit doc_count ids :
  valid_ids doc_count ids -> Forall (fun x => x < 2 ^ posting_id_bits doc_count) ids.
Proof.
  intros [_ Hb]. eapply Forall_impl; [exact Hb|]. intros. by apply posting_id_bits_fits.
Qed.

Lemma encoded_len ids doc_count :
  valid_ids doc_count ids -> doc_count < U32 ->
  len (encode_posting_block ids doc_count) = posting_block_len (len ids) doc_count.
Proof.
  intros Hv Hdc. pose proof (posting_id_bits_bounds doc_count Hdc).
  destruct (encode_posting_block_cases ids doc_count Hv Hdc)
    as [[Hl ->]|(Hl & stored & -> & Hvs & Hn & _)].
  - unfold posting_block_len, stored_id_count. by rewrite Hl, N.eqb_refl.
  - unfold posting_block_len, pack_ids.
    destruct (pack_bits_spec stored (posting_id_bits doc_count)) as (_ & -> & _);
      [lia|by apply posting_ids_fit|]. rewrite <- Hn. f_equal. lia.
Qed.

(** The two density classes a non-full block decodes in. *)
Lemma decoded_class stored count doc_count :
  count < doc_count -> ascending stored -> Forall (fun x => 0 <= x < doc_count) stored ->
  len stored = stored_id_count count doc_count ->
  let ids := if doc_count <? count * 2 then scan_absent stored (range 0 doc_count) else stored in
  valid_ids doc_count ids /\ len ids = count.
Proof.
  intros Hc Hs Hall Hn. cbn zeta. destruct (N.ltb_spec doc_count (count * 2)).
  - rewrite stored_count_absent in Hn by lia.
    pose proof (scan_absent_len stored 0 doc_count ltac:(lia) Hs Hall).
    split; [split|lia]; [by apply scan_absent_ascending|].
    apply Forall_forall. intros x Hx. apply elem_of_scan_absent in Hx; [lia|done|done].
  - rewrite stored_count_present in Hn by lia. split; [split|done]; [done|].
    eapply Forall_impl; [exact Hall|]. cbn. lia.
Qed.

(** ** Properties *)

Lemma encoded_block_decodes ids doc_count :
  valid_ids doc_count ids -> doc_count < U32 ->
  len (encode_posting_block ids doc_count) = posting_block_len (len ids) doc_count /\
  decode_posting_block (encode_posting_block ids doc_count) (len ids) doc_count = Ok ids.
Proof.
  intros Hv Hdc. split; [by apply encoded_len|]. pose proof (posting_id_bits_bounds doc_count Hdc).
  pose proof (encode_posting_block_cases ids doc_count Hv Hdc) as Hcases.
  unfold decode_posting_block.
  rewrite encoded_len, N.eqb_refl by done.
  assert (len ids <= doc_count) by (destruct Hcases as [[]|[? _]]; lia).
  rewrite (proj2 (N.leb_le _ _)) by done. cbn [ensure mbind res_bind].
  destruct Hcases as [[Hl ->]|(Hl & stored & -> & Hvs & Hn & Hstored)].
  - rewrite Hl, N.eqb_refl. f_equal. symmetry. by apply valid_ids_full.
  - rewrite (proj2 (N.eqb_neq _ _)) by lia.
    rewrite <- Hn, unpack_pack_ids by (lia || by apply posting_ids_fit). cbn [mbind res_bind].
    destruct Hvs as [Hs Hb]. rewrite (proj2 (is_ascending_spec _)) by done. cbn [ensure mbind res_bind].
    destruct (check_last_cases stored doc_count Hs) as [[-> _]|(e & _ & [])]; [|done].
    cbn [mbind res_bind]. destruct (doc_count <? len ids * 2); subst; [|done].
    f_equal. apply scan_absent_involutive; apply Hv.
Qed.

(** C24: an encoded posting list has the byte length the reader derives from
    [(count, doc_count)] alone, so a read fetches exactly the block, and
    decoding it returns the list, in each density class. *)
Theorem decode_encode_posting_block ids doc_count :
  valid_ids doc_count ids -> doc_count < U32 ->
  len (encode_posting_block ids doc_count) = posting_block_len (len ids) doc_count /\
  decode_posting_block (encode_posting_block ids doc_count) (len ids) doc_count = Ok ids.
Proof. apply encoded_block_decodes. Qed.

Lemma decode_encode_posting_block_witness :
  valid_ids 10 [0;1;2;3;4;5] /\
  len (encode_posting_block [0;1;2;3;4;5] 10) = posting_block_len 6 10 /\
  decode_posting_block (encode_posting_block [0;1;2;3;4;5] 10) 6 10 = Ok [0;1;2;3;4;5].
Proof.
  assert (H : valid_ids 10 [0;1;2;3;4;5]).
  { split; [by apply is_ascending_spec|]. repeat constructor. }
  split; [exact H|]. apply (decode_encode_posting_block [0;1;2;3;4;5] 10 H). reflexivity.
Defined.

(** Whatever bytes it is given, the decoder never panics, and a list it
    accepts is strictly ascending, in bounds and has the count the dictionary
    promised: corruption cannot produce an ill-formed candidate set. *)
Theorem decode_posting_block_safe bytes count doc_count :
  Forall is_byte bytes -> doc_count < U32 ->
  no_panic (decode_posting_block bytes count doc_count) /\
  forall ids, decode_posting_block bytes count doc_count = Ok ids ->
    valid_ids doc_count ids /\ len ids = count.
Proof.
  intros Hb Hdc. pose proof (posting_id_bits_bounds doc_count Hdc).
  unfold decode_posting_block.
  destruct (N.leb_spec count doc_count); cbn [ensure mbind res_bind]; [|by split].
  destruct (N.eqb_spec (len bytes) (posting_block_len count doc_count)) as [Hlen|];
    cbn [ensure mbind res_bind]; [|by split].
  destruct (N.eqb_spec count doc_count) as [->|Hne].
  { split; [done|]. intros ids [= <-]. split; [split|].
    - apply range_ascending.
    - apply Forall_forall. intros x ?%elem_of_range. lia.
    - rewrite len_range. lia. }
  unfold posting_block_len in Hlen.
  destruct (unpack_ids_total bytes (stored_id_count count doc_count) (posting_id_bits doc_count))
    as (stored & -> & Hn); [lia|done| |].
  { pose proof (div_ceil_le (stored_id_count count doc_count * posting_id_bits doc_count) 8 ltac:(done)). lia. }
  cbn [mbind res_bind].
  destruct (is_ascending stored) eqn:Hs; cbn [ensure mbind res_bind]; [|by split].
  apply is_ascending_spec in Hs.
  destruct (check_last_cases stored doc_count Hs) as [[-> Hall]|(e & -> & _)]; [|by split].
  cbn [mbind res_bind].
  pose proof (decoded_class stored count doc_count ltac:(lia) Hs Hall Hn) as Hclass. cbn zeta in Hclass.
  destruct (doc_count <? count * 2); (split; [done|]); by intros ids [= <-].
Qed.

Lemma decode_posting_block_safe_witness :
  Forall is_byte [53] /\
  decode_posting_block [53] 2 10 = Err "posting block ids are not strictly ascending" /\
  no_panic (decode_posting_block [53] 2 10).
Proof.
  assert (H : Forall is_byte [53]) by (repeat constructor).
  split; [exact H|]. split; [vm_compute; reflexivity|].
  apply (decode_posting_block_safe [53] 2 10 H). reflexivity.
Defined.
