(* ===== verification/DeltaBlocks.v ===== *)
(** * Delta-bitpacked posting lists (crates/index/src/delta_blocks.rs)

    Sparse posting lists are cut into blocks of 128 deltas, each packed at the
    width of its largest delta behind a one-byte header. *)

From S2P Require Import Prelude BitPack Postings.

Definition BLOCK_IDS : N := 128.

Definition bits_for (value : N) : N := bit_width value.
Definition pack_fixed (values : list N) (width : N) : list N := pack_bits values width.
Definition unpack_fixed {S} (bytes : list N) (n width : N) (visit : S -> N -> res S) (s : S) : res S :=
  unpack_loop (Err "packed ids are truncated") visit (N.to_nat n) width 0 0 bytes s.

(** [match previous { None => id, Some(p) => id - p - 1 }] in [u32]. *)
Definition delta_of (previous : option N) (id : N) : N :=
  match previous with
  | None => id
  | Some p => wrapping_sub U32 (wrapping_sub U32 id p) 1
  end.

(** The inner loop over one chunk: the deltas and the new [previous]. *)
Fixpoint chunk_deltas (previous : option N) (chunk : list N) : list N * option N :=
  match chunk with
  | [] => ([], previous)
  | id :: chunk =>
      let '(deltas, last) := chunk_deltas (Some id) chunk in
      (delta_of previous id :: deltas, last)
  end.

Definition max_of (l : list N) : N := foldr N.max 0 l.

Fixpoint encode_chunks (previous : option N) (ids : list (list N)) : list N :=
  match ids with
  | [] => []
  | chunk :: rest =>
      let '(deltas, previous) := chunk_deltas previous chunk in
      let width := bits_for (max_of deltas) in
      (width mod U8 :: pack_fixed deltas width) ++ encode_chunks previous rest
  end.

Definition encode_delta_blocks (ids : list N) : list N :=
  encode_chunks None (chunks (N.to_nat BLOCK_IDS) ids).

(** The visitor of one unpacked delta: [previous] and [ids] are its state. *)
Definition push_delta (doc_count : N) (s : option N * list N) (delta : N) : res (option N * list N) :=
  let '(previous, ids) := s in
  id ← match previous with
       | None => Ok delta
       | Some p =>
           with_context (checked_add U32 p delta ≫= fun sum => checked_add U32 sum 1)
             "posting delta overflows the id space"
       end;
  _ ← ensure (id <? doc_count) "posting id is out of bounds";
  Ok (Some id, ids ++ [id]).

(** [while remaining > 0]; every pass takes at least one id, so [remaining]
    passes are enough. *)
Fixpoint decode_loop (fuel : nat) (bytes : list N) (doc_count remaining cursor : N)
    (s : option N * list N) : res (N * (option N * list N)) :=
  if remaining =? 0 then Ok (cursor, s)
  else
    match fuel with
    | O => Panic "decode_loop: out of fuel"
    | S fuel =>
        width ← with_context (get bytes cursor) "posting block ends before its width header";
        let cursor := cursor + 1 in
        _ ← ensure ((1 <=? width) && (width <=? 32)) "posting block width is invalid";
        let block_ids := N.min remaining BLOCK_IDS in
        let block_bytes := div_ceil (block_ids * width) 8 in
        packed ← with_context (get_range bytes cursor (cursor + block_bytes))
          "posting block ends inside its packed ids";
        let cursor := cursor + block_bytes in
        s ← unpack_fixed packed block_ids width (push_delta doc_count) s;
        decode_loop fuel bytes doc_count (remaining - block_ids) cursor s
    end.

Definition decode_delta_blocks (bytes : list N) (count doc_count : N) : res (list N) :=
  _ ← ensure (count <=? doc_count) "posting count exceeds doc count";
  '(cursor, (_, ids)) ← decode_loop (N.to_nat count) bytes doc_count count 0 (None, []);
  _ ← ensure (cursor =? len bytes) "posting list has trailing bytes";
  Ok ids.

(** ** Deltas *)

(** [ids] strictly ascends and starts above [previous]. *)
Definition ascends_from (previous : option N) (ids : list N) : Prop :=
  ascending ids /\ match previous with Some p => Forall (fun id => p < id) ids | None => True end.

Lemma ascends_from_cons previous id ids :
  ascends_from previous (id :: ids) ->
  match previous with Some p => p < id | None => True end /\ ascends_from (Some id) ids.
Proof.
  intros [[Hs Hx]%StronglySorted_inv Hp]. split; [|by split].
  destruct previous; [by inversion Hp|done].
Qed.

Lemma delta_of_exact p id : p < id -> id < U32 -> delta_of (Some p) id = id - p - 1.
Proof.
  intros. cbn [delta_of]. unfold wrapping_sub.
  replace (id + U32 - p) with (id - p + 1 * U32) by lia.
  rewrite N.Div0.mod_add, (N.mod_small (id - p)) by lia.
  replace (id - p + U32 - 1) with (id - p - 1 + 1 * U32) by lia.
  rewrite N.Div0.mod_add, N.mod_small by lia. done.
Qed.

(** Pushing the delta of the next id appends that id. *)
Lemma push_delta_of doc_count previous out id :
  match previous with Some p => p < id | None => True end -> id < doc_count -> doc_count <= U32 ->
  push_delta doc_count (previous, out) (delta_of previous id) = Ok (Some id, out ++ [id]).
Proof.
  intros Hp Hid Hdc. unfold push_delta. destruct previous as [p|].
  - rewrite delta_of_exact by lia. unfold checked_add.
    rewrite (proj2 (N.ltb_lt _ _)) by lia. cbn [mbind option_bind].
    rewrite (proj2 (N.ltb_lt _ _)) by lia. cbn [with_context mbind res_bind].
    replace (p + (id - p - 1) + 1) with id by lia.
    rewrite (proj2 (N.ltb_lt _ _)) by lia. done.
  - cbn [delta_of mbind res_bind]. rewrite (proj2 (N.ltb_lt _ _)) by lia. done.
Qed.

Lemma chunk_deltas_visit doc_count previous chunk rest deltas previous' :
  chunk_deltas previous chunk = (deltas, previous') ->
  ascends_from previous (chunk ++ rest) -> Forall (fun id => id < doc_count) (chunk ++ rest) ->
  doc_count <= U32 ->
  length deltas = length chunk /\ Forall (fun d => d < doc_count) deltas /\
  ascends_from previous' rest /\
  forall out, foldM (push_delta doc_count) (previous, out) deltas = Ok (previous', out ++ chunk).
Proof.
  revert previous deltas. induction chunk as [|id chunk IH]; cbn [chunk_deltas app];
    intros previous deltas E Hs Hb Hdc.
  { injection E as <- <-. split_and!; [done|constructor|done|]. intros. cbn. by rewrite app_nil_r. }
  destruct (chunk_deltas (Some id) chunk) as [ds q] eqn:E'. injection E as <- <-.
  inversion Hb as [|? ? Hid Hb']; subst. apply ascends_from_cons in Hs as [Hp Hs].
  destruct (IH (Some id) ds E' Hs Hb' Hdc) as (Hl & Hd & Hs' & Hrun). split_and!.
  - cbn. lia.
  - constructor; [|done]. destruct previous as [p|]; [|done]. cbn in Hp. rewrite delta_of_exact by lia. lia.
  - done.
  - intros out. cbn [foldM]. rewrite push_delta_of by done. cbn [mbind res_bind].
    by rewrite Hrun, <- app_assoc.
Qed.

Lemma max_of_cons x l : max_of (x :: l) = N.max x (max_of l).
Proof. done. Qed.

Lemma max_of_spec l : Forall (fun x => x <= max_of l) l.
Proof.
  induction l as [|x l IH]; constructor.
  - rewrite max_of_cons. lia.
  - eapply Forall_impl; [exact IH|]. intros y Hy.
    rewrite max_of_cons. cbn in Hy. lia.
Qed.
Lemma max_of_lt l b : 0 < b -> Forall (fun x => x < b) l -> max_of l < b.
Proof. induction 2; rewrite ?max_of_cons; [done|lia]. Qed.

(** ** Round trip *)

Lemma get_app_r {A} (l1 l2 : list A) i : get (l1 ++ l2) (len l1 + i) = get l2 i.
Proof.
  unfold get, len. rewrite lookup_app_r by lia. f_equal. lia.
Qed.
Lemma get_range_app {A} (l1 l2 l3 : list A) :
  get_range (l1 ++ l2 ++ l3) (len l1) (len l1 + len l2) = Some l2.
Proof.
  apply get_range_Some. rewrite !len_app. split_and!; [lia|lia|].
  replace (N.to_nat (len l1 + len l2 - len l1)) with (length l2) by (unfold len; lia).
  by rewrite to_nat_len, drop_app_length, take_app_length.
Qed.

Lemma encode_chunks_decode doc_count ids bytes_before previous out fuel :
  doc_count <= U32 -> 0 < doc_count ->
  ascends_from previous ids -> Forall (fun id => id < doc_count) ids ->
  (length ids <= fuel)%nat ->
  let enc := encode_chunks previous (chunks (N.to_nat BLOCK_IDS) ids) in
  exists previous',
    decode_loop fuel (bytes_before ++ enc) doc_count (len ids) (len bytes_before) (previous, out) =
    Ok (len (bytes_before ++ enc), (previous', out ++ ids)).
Proof.
  intros Hdc Hpos. revert ids bytes_before previous out.
  induction fuel as [|fuel IH]; intros ids before previous out Hs Hb Hf; cbn zeta.
  { destruct ids; [|cbn in Hf; lia]. exists previous. cbn. by rewrite !app_nil_r. }
  destruct (decide (ids = [])) as [->|Hne].
  { exists previous. cbn. by rewrite !app_nil_r. }
  set (k := N.to_nat BLOCK_IDS). assert (0 < k)%nat by (unfold k, BLOCK_IDS; lia).
  rewrite (chunks_unfold k) by done. set (chunk := take k ids). set (rest := drop k ids).
  assert (Hids : ids = chunk ++ rest) by (unfold chunk, rest; by rewrite take_drop).
  assert (Hrl : length rest = (length ids - k)%nat) by apply length_drop.
  assert (Hcl : len chunk = N.min (len ids) BLOCK_IDS).
  { unfold chunk, len, k. rewrite length_take. unfold BLOCK_IDS. lia. }
  clearbody chunk rest.
  assert (Hlen : len ids = len chunk + len rest) by (by rewrite Hids, len_app).
  assert (0 < len ids) by (destruct ids; [done|len_lia]).
  cbn [encode_chunks]. destruct (chunk_deltas previous chunk) as [deltas q] eqn:E.
  rewrite Hids in Hs, Hb.
  destruct (chunk_deltas_visit doc_count _ _ _ _ _ E Hs Hb Hdc) as (Hdl & Hdb & Hs' & Hrun).
  set (width := bits_for (max_of deltas)).
  assert (Hw : 1 <= width <= 32).
  { apply bit_width_le; [lia|]. apply (N.lt_le_trans _ doc_count); [by apply max_of_lt|exact Hdc]. }
  assert (Hfit : Forall (fun d => d < 2 ^ width) deltas).
  { eapply Forall_impl; [apply max_of_spec|]. cbn. intros d Hd.
    eapply N.le_lt_trans; [exact Hd|]. apply bit_width_lt. }
  destruct (pack_bits_spec deltas width) as (_ & Hpl & _); [lia|done|].
  assert (Hdlen : len deltas = len chunk) by (unfold len; by rewrite Hdl).
  cbn [decode_loop]. rewrite (proj2 (N.eqb_neq _ _)) by lia.
  rewrite (N.mod_small width) by lia.
  pose proof (get_app_r before ((width :: pack_fixed deltas width) ++ encode_chunks q (chunks k rest)) 0) as Hget.
  rewrite N.add_0_r in Hget. rewrite Hget. cbn [app get lookup list_lookup with_context mbind res_bind].
  change (get (?x :: ?l) 0) with (Some x). cbn [with_context mbind res_bind].
  rewrite (proj2 (N.leb_le 1 width)), (proj2 (N.leb_le width 32)) by lia. cbn [andb ensure mbind res_bind].
  rewrite <- Hcl.
  replace (before ++ width :: pack_fixed deltas width ++ encode_chunks q (chunks k rest))
    with ((before ++ [width]) ++ pack_fixed deltas width ++ encode_chunks q (chunks k rest))
    by (by rewrite <- app_assoc).
  replace (len before + 1) with (len (before ++ [width])) by (by rewrite len_app, len_cons).
  assert (Hbb : div_ceil (len chunk * width) 8 = len (pack_fixed deltas width)).
  { unfold pack_fixed. rewrite Hpl, Hdlen. f_equal. lia. }
  rewrite Hbb, get_range_app. cbn [with_context mbind res_bind].
  unfold unpack_fixed at 1. rewrite <- Hdlen, to_nat_len. unfold pack_fixed.
  rewrite unpack_pack by (done || lia). rewrite Hrun. cbn [mbind res_bind].
  replace (len ids - len deltas) with (len rest) by lia.
  rewrite <- len_app, !(app_assoc (before ++ [width])).
  apply Forall_app in Hb as [_ Hb'].
  destruct (IH rest ((before ++ [width]) ++ pack_bits deltas width) q (out ++ chunk) Hs' Hb') as (p' & Hp').
  { lia. }
  exists p'. cbn zeta in Hp'. fold k in Hp'. rewrite Hp'. by rewrite <- (app_assoc out), <- Hids.
Qed.

(** ** Safety of the decoder *)

(** The decoder's state after a prefix: a valid id list ending at [previous]. *)
Definition delta_state (doc_count : N) (s : option N * list N) : Prop :=
  let '(previous, ids) := s in
  valid_ids doc_count ids /\ last ids = previous.

Lemma push_delta_inv doc_count s delta s' :
  delta_state doc_count s -> push_delta doc_count s delta = Ok s' ->
  delta_state doc_count s' /\ len s'.2 = len s.2 + 1.
Proof.
  destruct s as [previous ids]. intros [[Hs Hb] Hlast] H. unfold push_delta in H.
  apply bind_ok in H as (id & Hid & H). apply bind_ok in H as ([] & Hlt%ensure_ok%N.ltb_lt & [= <-]).
  assert (Hgt : forall x, x ∈ ids -> x < id).
  { intros x Hx. destruct previous as [p|].
    - apply with_context_ok in Hid. destruct (checked_add U32 p delta) as [sum|] eqn:E; [|done].
      apply checked_add_Some in E as [-> _]. apply checked_add_Some in Hid as [-> _].
      apply last_Some in Hlast as [front ->].
      apply elem_of_app in Hx as [Hx|Hx%list_elem_of_singleton]; [|lia].
      apply ascending_app in Hs as (_ & _ & Hlt'). specialize (Hlt' x p Hx ltac:(by left)). lia.
    - apply last_None in Hlast as ->. by apply not_elem_of_nil in Hx. }
  cbn [snd]. rewrite len_app, len_cons, len_nil. split; [|lia]. split; [split|].
  - apply ascending_app. split_and!; [done|repeat constructor|].
    intros x y Hx Hy%list_elem_of_singleton. subst. by apply Hgt.
  - apply Forall_app. split; [done|by repeat constructor].
  - apply last_snoc.
Qed.

Lemma push_delta_no_panic doc_count s delta : no_panic (push_delta doc_count s delta).
Proof.
  intros w. destruct s as [[p|] ids]; unfold push_delta.
  - destruct (with_context _ _) as [id|?|?] eqn:E; cbn; [|done|].
    + by destruct (id <? doc_count).
    + unfold with_context in E. by destruct (_ ≫= _).
  - cbn. by destruct (delta <? doc_count).
Qed.

Lemma push_deltas_inv doc_count l s :
  no_panic (foldM (push_delta doc_count) s l) /\
  forall s', delta_state doc_count s -> foldM (push_delta doc_count) s l = Ok s' ->
    delta_state doc_count s' /\ len s'.2 = len s.2 + len l.
Proof.
  revert s. induction l as [|d l IH]; intros s; cbn [foldM].
  { split; [done|]. intros s' ? [= <-]. rewrite len_nil. split; [done|lia]. }
  destruct (push_delta doc_count s d) as [s1|e|w] eqn:E; cbn.
  - destruct (IH s1) as [Hp Hinv]. split; [done|]. intros s' Hs H.
    destruct (push_delta_inv _ _ _ _ Hs E) as [Hs1 Hl1]. destruct (Hinv s' Hs1 H) as [? ->].
    rewrite len_cons. split; [done|lia].
  - split; [done|done].
  - by apply push_delta_no_panic in E.
Qed.

Lemma decode_loop_safe fuel bytes doc_count remaining cursor s :
  Forall is_byte bytes -> remaining <= N.of_nat fuel ->
  no_panic (decode_loop fuel bytes doc_count remaining cursor s) /\
  forall cursor' s', delta_state doc_count s ->
    decode_loop fuel bytes doc_count remaining cursor s = Ok (cursor', s') ->
    delta_state doc_count s' /\ len s'.2 = len s.2 + remaining.
Proof.
  intros Hbytes. revert remaining cursor s. induction fuel as [|fuel IH]; intros remaining cursor s Hf.
  { replace remaining with 0 by lia. split; [done|]. intros ? ? ? [= <- <-]. split; [done|lia]. }
  cbn [decode_loop]. destruct (N.eqb_spec remaining 0) as [->|Hne].
  { split; [done|]. intros ? ? ? [= <- <-]. split; [done|lia]. }
  destruct (get bytes cursor) as [width|]; cbn [with_context mbind res_bind]; [|by split].
  destruct ((1 <=? width) && (width <=? 32)) eqn:Hw; cbn [ensure mbind res_bind]; [|by split].
  apply andb_true_iff in Hw as [?%N.leb_le ?%N.leb_le].
  destruct (get_range _ _ _) as [packed|] eqn:Hpk; cbn [with_context mbind res_bind]; [|by split].
  pose proof (get_range_len _ _ _ _ Hpk) as Hpl.
  assert (Forall is_byte packed).
  { apply get_range_Some in Hpk as (_ & _ & ->). by apply Forall_take, Forall_drop. }
  pose proof (div_ceil_le (N.min remaining BLOCK_IDS * width) 8 ltac:(done)).
  unfold unpack_fixed.
  destruct (unpack_loop_spec (Err "packed ids are truncated") (push_delta doc_count)
    (N.to_nat (N.min remaining BLOCK_IDS)) width 0 0 packed) as (l & Hl & _ & _ & ->);
    [lia|cbn; lia|done|lia|].
  destruct (push_deltas_inv doc_count l s) as [Hnp Hinv].
  assert (0 < N.min remaining BLOCK_IDS) by (unfold BLOCK_IDS; lia).
  destruct (foldM (push_delta doc_count) s l) as [s1|e|w] eqn:E; cbn [mbind res_bind];
    [|by split|by destruct (Hnp w)].
  destruct (IH (remaining - N.min remaining BLOCK_IDS)
    (cursor + 1 + div_ceil (N.min remaining BLOCK_IDS * width) 8) s1 ltac:(lia)) as [Hnp' Hinv'].
  split; [done|]. intros cursor' s' Hs Hdec.
  destruct (Hinv s1 Hs eq_refl) as [Hs1 Hl1]. destruct (Hinv' _ _ Hs1 Hdec) as [? ->].
  split; [done|]. rewrite Hl1. unfold len at 2. rewrite Hl. lia.
Qed.

(** ** Properties *)

Lemma encoded_deltas_decode ids doc_count :
  valid_ids doc_count ids -> doc_count < U32 ->
  decode_delta_blocks (encode_delta_blocks ids) (len ids) doc_count = Ok ids.
Proof.
  intros [Hs Hb] Hdc. pose proof (ascending_len_le ids doc_count Hs Hb).
  unfold decode_delta_blocks, encode_delta_blocks.
  rewrite (proj2 (N.leb_le _ _)) by done. cbn [ensure mbind res_bind].
  destruct (decide (doc_count = 0)) as [->|].
  { destruct ids; [done|]. rewrite len_cons in *. lia. }
  destruct (encode_chunks_decode doc_count ids [] None [] (N.to_nat (len ids))) as (p & Hp);
    [lia|lia|by split|done|by rewrite to_nat_len|].
  cbn [app] in Hp. rewrite len_nil in Hp. rewrite Hp. cbn [mbind res_bind].
  by rewrite N.eqb_refl.
Qed.

(** C36: decoding an encoded sparse posting list returns the list: widths,
    headers, block boundaries and the ascent between blocks agree. *)
Theorem decode_encode_delta_blocks ids doc_count :
  valid_ids doc_count ids -> doc_count < U32 ->
  decode_delta_blocks (encode_delta_blocks ids) (len ids) doc_count = Ok ids.
Proof. apply encoded_deltas_decode. Qed.

Lemma decode_encode_delta_blocks_witness :
  valid_ids 1000 [3;4;5;900] /\
  decode_delta_blocks (encode_delta_blocks [3;4;5;900]) 4 1000 = Ok [3;4;5;900].
Proof.
  assert (H : valid_ids 1000 [3;4;5;900]).
  { split; [by apply is_ascending_spec|]. repeat constructor. }
  split; [exact H|]. apply (decode_encode_delta_blocks [3;4;5;900] 1000 H). reflexivity.
Defined.

(** The sparse decoder never panics and never loops, and a list it accepts
    is strictly ascending, in bounds and of the promised count. *)
Theorem decode_delta_blocks_safe bytes count doc_count :
  Forall is_byte bytes ->
  no_panic (decode_delta_blocks bytes count doc_count) /\
  forall ids, decode_delta_blocks bytes count doc_count = Ok ids ->
    valid_ids doc_count ids /\ len ids = count.
Proof.
  intros Hb. unfold decode_delta_blocks.
  destruct (count <=? doc_count); cbn [ensure mbind res_bind]; [|by split].
  destruct (decode_loop_safe (N.to_nat count) bytes doc_count count 0 (None, []) Hb ltac:(lia))
    as [Hnp Hinv].
  destruct (decode_loop _ _ _ _ _ _) as [[cursor [previous ids]]|e|w];
    cbn [mbind res_bind]; [|by split|by destruct (Hnp w)].
  destruct (cursor =? len bytes); cbn [ensure mbind res_bind]; [|by split].
  split; [done|]. intros ids' [= <-].
  destruct (Hinv _ _ ltac:(by repeat constructor) eq_refl) as [[Hv _] Hl]. done.
Qed.

Lemma decode_delta_blocks_safe_witness :
  Forall is_byte [33; 0] /\
  decode_delta_blocks [33; 0] 1 10 = Err "posting block width is invalid" /\
  no_panic (decode_delta_blocks [33; 0] 1 10).
Proof.
  assert (H : Forall is_byte [33; 0]) by (repeat constructor).
  split; [exact H|]. split; [vm_compute; reflexivity|].
  apply (decode_delta_blocks_safe [33; 0] 1 10 H).
Defined.
