(* ===== verification/PostingsTable.v ===== *)
(** * Posting verification table (crates/index/src/postings_table.rs)

    The streaming writer that hashes every 64 KiB block of the posting data and
    appends the table and its footer, the parser of that tail, and the block
    arithmetic and verification of ranged reads.  SHA-256 is third-party: a
    parameter, of which only the digest length is used.  The sink is infallible
    and its content is part of the state; [std::io::Write] may accept any
    prefix of a buffer, so a write carries the number of bytes accepted. *)

From S2P Require Import Prelude BitPack Bytes.

(** "SGPOST01" *)
Definition POSTINGS_MAGIC : list N := [83; 71; 80; 79; 83; 84; 48; 49].
Definition VERIFY_BLOCK_BYTES : N := 64 * 1024.
Definition FOOTER_BYTES : N := 8 + 8 + 8.

Section postings_table.
Context (sha256 : list N -> list N).

(** [hasher] is the input fed to the running digest so far. *)
Record PostingsTableWriter : Type := {
  inner : list N;
  hasher : list N;
  block_fill : N;
  hashes : list (list N);
  data_len : N;
}.

Definition new_writer (inner : list N) : PostingsTableWriter :=
  {| inner := inner; hasher := []; block_fill := 0; hashes := []; data_len := 0 |}.

Definition close_block (w : PostingsTableWriter) : PostingsTableWriter :=
  {| inner := inner w; hasher := []; block_fill := 0; hashes := hashes w ++ [sha256 (hasher w)];
     data_len := data_len w |}.

(** [while !rest.is_empty()]: each pass consumes at least a byte. *)
Fixpoint hash_loop (fuel : nat) (w : PostingsTableWriter) (rest : list N) : PostingsTableWriter :=
  match fuel, rest with
  | S fuel, _ :: _ =>
      let n := N.min (len rest) (VERIFY_BLOCK_BYTES - block_fill w) in
      let w := {| inner := inner w; hasher := hasher w ++ take (N.to_nat n) rest;
                  block_fill := block_fill w + n; hashes := hashes w; data_len := data_len w |} in
      let w := if block_fill w =? VERIFY_BLOCK_BYTES then close_block w else w in
      hash_loop fuel w (drop (N.to_nat n) rest)
  | _, _ => w
  end.

(** [Write::write] when the inner writer accepts [written <= len bytes]. *)
Definition write (w : PostingsTableWriter) (bytes : list N) (written : N) : PostingsTableWriter :=
  let accepted := take (N.to_nat written) bytes in
  let w := {| inner := inner w ++ accepted; hasher := hasher w; block_fill := block_fill w;
              hashes := hashes w; data_len := data_len w |} in
  let w := hash_loop (length accepted) w accepted in
  {| inner := inner w; hasher := hasher w; block_fill := block_fill w; hashes := hashes w;
     data_len := wrapping_add U64 (data_len w) written |}.

(** [write_all]: [write] until the buffer is consumed, here in one piece. *)
Definition write_all (w : PostingsTableWriter) (bytes : list N) : PostingsTableWriter :=
  write w bytes (len bytes).

Definition finish (w : PostingsTableWriter) : list N * N * list N :=
  let w := if 0 <? block_fill w then close_block w else w in
  let tail := concat (hashes w) ++ to_le_bytes (data_len w) ++
              to_le_bytes (len (hashes w)) ++ POSTINGS_MAGIC in
  (inner w ++ tail, data_len w, hex (sha256 tail)).

Record PostingsTableIndex : Type := { index_data_len : N; index_hashes : list (list N) }.

Definition parse (blob_len : N) (tail : list N) : res PostingsTableIndex :=
  ensure ((FOOTER_BYTES <=? len tail) && (len tail <=? blob_len)) "postings table tail is truncated";;
  footer ← expect (get_range tail (len tail - FOOTER_BYTES) (len tail)) "range out of bounds";
  magic ← expect (get_range footer 16 24) "range out of bounds";
  ensure (bool_decide (magic = POSTINGS_MAGIC)) "postings table footer magic mismatch";;
  data_len ← (b ← expect (get_range footer 0 8) "range out of bounds"; read_u64 b);
  block_count ← (b ← expect (get_range footer 8 16) "range out of bounds"; read_u64 b);
  ensure (block_count =? div_ceil data_len VERIFY_BLOCK_BYTES)
    "postings table block count does not match its data length";;
  table_len ← with_context (checked_mul U64 block_count 32) "postings table length overflows";
  ensure (bool_decide ((checked_add U64 data_len table_len ≫= fun end_ => checked_add U64 end_ FOOTER_BYTES)
            = Some blob_len)) "postings table does not abut its data region";;
  table_in_tail ← with_context (checked_sub (len tail) (wrapping_add U64 FOOTER_BYTES table_len))
    "postings table tail does not include the full table";
  table ← expect (get_range tail table_in_tail (len tail - FOOTER_BYTES)) "range out of bounds";
  Ok {| index_data_len := data_len; index_hashes := chunks_exact 32 table |}.

Definition block_range (t : PostingsTableIndex) (index : N) : N * N :=
  let offset := index * VERIFY_BLOCK_BYTES in
  (offset, N.min VERIFY_BLOCK_BYTES (wrapping_sub U64 (index_data_len t) offset)).

Definition blocks_covering (t : PostingsTableIndex) (offset length_ : N) : res (N * N) :=
  end_ ← with_context (checked_add U64 offset length_) "postings range overflows";
  ensure ((end_ <=? index_data_len t) && (0 <? length_)) "postings range is outside the data region";;
  Ok (offset / VERIFY_BLOCK_BYTES, div_ceil end_ VERIFY_BLOCK_BYTES).

(** The digest of [self.hashes] is only read when the length agrees. *)
Definition verify (t : PostingsTableIndex) (index : N) (payload : list N) : res unit :=
  let '(_, n) := block_range t index in
  if len payload =? n then
    hash ← expect (get (index_hashes t) index) "index out of bounds";
    ensure (bool_decide (sha256 payload = hash)) "postings block failed verification"
  else Err "postings block failed verification".

Definition block_hash (t : PostingsTableIndex) (index : N) : res (list N) :=
  expect (get (index_hashes t) index) "index out of bounds".
End postings_table.

(** ** The writer hashes the chunks of its data *)

Section proofs.
Context (sha256 : list N -> list N).
Context (sha256_len : forall data, length (sha256 data) = 32%nat).

Let block_nat : nat := N.to_nat VERIFY_BLOCK_BYTES.

(** After [data]: whole blocks are hashed, the remainder is in the digest. *)
Definition hashed (w : PostingsTableWriter) (data : list N) : Prop :=
  exists full, data = concat full ++ hasher w /\
    Forall (fun b => length b = block_nat) full /\ hashes w = sha256 <$> full /\
    block_fill w = len (hasher w) /\ len (hasher w) < VERIFY_BLOCK_BYTES.

(** One pass of the loop. *)
Definition hash_step (w : PostingsTableWriter) (rest : list N) : PostingsTableWriter * list N :=
  let n := N.min (len rest) (VERIFY_BLOCK_BYTES - block_fill w) in
  let w := {| inner := inner w; hasher := hasher w ++ take (N.to_nat n) rest;
              block_fill := block_fill w + n; hashes := hashes w; data_len := data_len w |} in
  (if block_fill w =? VERIFY_BLOCK_BYTES then close_block sha256 w else w, drop (N.to_nat n) rest).

Lemma hash_loop_step fuel w rest :
  rest <> [] -> hash_loop sha256 (S fuel) w rest =
    let '(w', rest') := hash_step w rest in hash_loop sha256 fuel w' rest'.
Proof. by destruct rest. Qed.

Lemma hash_step_spec w rest data :
  hashed w data -> rest <> [] ->
  let '(w', rest') := hash_step w rest in
  exists taken, rest = taken ++ rest' /\ taken <> [] /\ hashed w' (data ++ taken) /\
    inner w' = inner w /\ data_len w' = data_len w.
Proof.
  intros (full & Hd & Hfull & Hh & Hfill & Hsmall) Hrest. unfold hash_step.
  set (n := N.min _ _).
  assert (len rest <> 0) as Hne by (destruct rest; [done|len_lia]).
  assert (0 < n <= len rest) as Hn by lia.
  assert (len (take (N.to_nat n) rest) = n) as Htake by (unfold len in *; rewrite length_take; lia).
  exists (take (N.to_nat n) rest). split_and!; [by rewrite take_drop| | |by destruct (_ =? _)|by destruct (_ =? _)].
  { intros E. rewrite E, len_nil in Htake. lia. }
  cbn [block_fill]. destruct (N.eqb_spec (block_fill w + n) VERIFY_BLOCK_BYTES) as [E|E].
  - exists (full ++ [hasher w ++ take (N.to_nat n) rest]). cbn [close_block hasher hashes block_fill].
    rewrite concat_app. cbn [concat]. rewrite !app_nil_r, Hd, <- app_assoc.
    split_and!; [done| |by rewrite fmap_app, Hh|done|done]. apply Forall_app. split; [done|]. constructor; [|done].
    unfold block_nat. rewrite length_app. unfold len in *. lia.
  - exists full. cbn [hasher hashes block_fill]. rewrite Hd, <- app_assoc, len_app. split_and!; try done; lia.
Qed.

Lemma hash_loop_spec fuel w data rest :
  hashed w data -> (length rest <= fuel)%nat ->
  hashed (hash_loop sha256 fuel w rest) (data ++ rest) /\
  inner (hash_loop sha256 fuel w rest) = inner w /\
  data_len (hash_loop sha256 fuel w rest) = data_len w.
Proof.
  revert w data rest. induction fuel as [|fuel IH]; intros w data rest Hw Hf.
  { destruct rest; [|cbn in Hf; lia]. by rewrite app_nil_r. }
  destruct (decide (rest = [])) as [->|Hne]; [by rewrite app_nil_r|].
  rewrite hash_loop_step by done. pose proof (hash_step_spec w rest data Hw Hne) as Hs.
  destruct (hash_step w rest) as [w' rest']. destruct Hs as (taken & -> & Ht & Hw' & Hi & Hl).
  destruct (IH w' (data ++ taken) rest' Hw') as (H1 & H2 & H3).
  { rewrite length_app in Hf. destruct taken; [done|cbn in Hf; lia]. }
  rewrite app_assoc. split_and!; [done|congruence|congruence].
Qed.

Definition written_ok (w : PostingsTableWriter) (base data : list N) : Prop :=
  hashed w data /\ inner w = base ++ data /\ data_len w = len data.

Lemma new_writer_ok base : written_ok (new_writer base) base [].
Proof.
  split_and!; [|cbn; by rewrite app_nil_r|done]. exists []. split_and!; try done.
Qed.

Lemma write_ok w base data bytes written :
  written_ok w base data -> written <= len bytes -> len (data ++ bytes) < U64 ->
  written_ok (write sha256 w bytes written) base (data ++ take (N.to_nat written) bytes).
Proof.
  intros (Hh & Hi & Hl) Hw Hb. unfold write. set (accepted := take _ bytes).
  set (w1 := {| inner := inner w ++ accepted; hasher := hasher w; block_fill := block_fill w;
                hashes := hashes w; data_len := data_len w |}).
  assert (hashed w1 data) as Hw1 by exact Hh.
  destruct (hash_loop_spec (length accepted) w1 data accepted Hw1) as (H1 & H2 & H3); [done|].
  assert (len accepted = written) as Ha by (subst accepted; unfold len in *; rewrite length_take; lia).
  split_and!; [exact H1|cbn [inner]; rewrite H2; subst w1; cbn [inner]; by rewrite Hi, app_assoc|].
  cbn [data_len]. rewrite H3. subst w1. cbn [data_len]. rewrite Hl, !len_app, Ha in *.
  unfold wrapping_add. apply N.mod_small. lia.
Qed.

(** The table the writer emits: the digests of the 64 KiB chunks. *)
Definition table_of (data : list N) : list (list N) := sha256 <$> chunks block_nat data.

Lemma table_of_split full tail :
  Forall (fun b => length b = block_nat) full -> len tail < VERIFY_BLOCK_BYTES ->
  table_of (concat full ++ tail) = (sha256 <$> full) ++ (match tail with [] => [] | _ => [sha256 tail] end).
Proof.
  assert (0 < block_nat)%nat as Hpos by (unfold block_nat, VERIFY_BLOCK_BYTES; lia).
  intros Hf Ht. unfold table_of. induction Hf as [|b full Hb Hf IH]; cbn [concat app fmap list_fmap].
  - destruct tail as [|x tail]; [done|]. rewrite chunks_unfold by done.
    assert (length (x :: tail) <= block_nat)%nat by (unfold block_nat, len in *; lia).
    rewrite take_ge, drop_ge by done. done.
  - rewrite <- app_assoc, chunks_unfold; [|done|].
    + rewrite take_app_length', drop_app_length' by done. cbn [fmap list_fmap]. f_equal. exact IH.
    + intros E. apply (f_equal length) in E. rewrite length_app in E. cbn in E. lia.
Qed.

Lemma finish_ok w base data :
  written_ok w base data ->
  let tail := concat (table_of data) ++ to_le_bytes (len data) ++ to_le_bytes (len (table_of data)) ++ POSTINGS_MAGIC in
  finish sha256 w = (base ++ data ++ tail, len data, hex (sha256 tail)).
Proof.
  intros ((full & Hd & Hfull & Hh & Hfill & Hsmall) & Hi & Hl) tail. unfold finish.
  set (w' := if 0 <? block_fill w then close_block sha256 w else w).
  assert (hashes w' = table_of data /\ inner w' = inner w /\ data_len w' = data_len w) as (H1 & H2 & H3).
  { subst w'. rewrite Hd, table_of_split by done. rewrite Hfill.
    destruct (hasher w) as [|x h] eqn:E; cbn [len length]; rewrite ?E.
    - rewrite app_nil_r. done.
    - destruct (N.ltb_spec 0 (len (x :: h))) as [|H]; [|rewrite len_cons in H; lia].
      cbn [close_block hashes inner data_len]. rewrite Hh, E. done. }
  rewrite H1, H2, H3, Hi, Hl. subst tail. by rewrite <- !app_assoc.
Qed.

Lemma table_of_len data : len (table_of data) = div_ceil (len data) VERIFY_BLOCK_BYTES.
Proof. unfold table_of, block_nat. rewrite len_fmap. by apply len_chunks. Qed.

Lemma table_of_records data : Forall (fun h => length h = 32%nat) (table_of data).
Proof. unfold table_of. apply Forall_fmap, Forall_forall. intros. apply sha256_len. Qed.

Definition tail_of (data : list N) : list N :=
  concat (table_of data) ++ to_le_bytes (len data) ++ to_le_bytes (len (table_of data)) ++ POSTINGS_MAGIC.

Lemma posting_tail_len data : len (tail_of data) = 32 * len (table_of data) + 24.
Proof.
  unfold tail_of. rewrite !len_app, !to_le_bytes_len. change (len POSTINGS_MAGIC) with 8.
  pose proof (length_concat_records 32 (table_of data) (table_of_records data)). unfold len. lia.
Qed.

(** The footer's fields, whatever precedes the footer. *)
Lemma posting_footer_fields before a b :
  let tail := before ++ to_le_bytes a ++ to_le_bytes b ++ POSTINGS_MAGIC in
  exists footer, get_range tail (len tail - FOOTER_BYTES) (len tail) = Some footer /\
    get_range footer 0 8 = Some (to_le_bytes a) /\ get_range footer 8 16 = Some (to_le_bytes b) /\
    get_range footer 16 24 = Some POSTINGS_MAGIC.
Proof.
  intros tail. exists (to_le_bytes a ++ to_le_bytes b ++ POSTINGS_MAGIC). split_and!.
  - subst tail. replace (before ++ to_le_bytes a ++ to_le_bytes b ++ POSTINGS_MAGIC) with
      (before ++ (to_le_bytes a ++ to_le_bytes b ++ POSTINGS_MAGIC) ++ []) by (by rewrite app_nil_r).
    apply get_range_mid; rewrite ?app_nil_r, !len_app, !to_le_bytes_len; unfold FOOTER_BYTES;
      change (len POSTINGS_MAGIC) with 8; lia.
  - by apply get_range_prefix.
  - by apply get_range_mid.
  - rewrite app_assoc. rewrite <- (app_nil_r POSTINGS_MAGIC).
    apply get_range_mid; rewrite ?len_app; by rewrite !to_le_bytes_len.
Qed.

(** Any tail that includes the table parses back to it. *)
Lemma parse_tail data pre :
  len pre <= len data -> len data + len (tail_of data) < U64 ->
  parse (len data + len (tail_of data)) (pre ++ tail_of data) =
    Ok {| index_data_len := len data; index_hashes := table_of data |}.
Proof.
  intros Hpre Hb. rewrite posting_tail_len in *.
  assert (len (concat (table_of data)) = 32 * len (table_of data)) as Hc.
  { pose proof (length_concat_records 32 (table_of data) (table_of_records data)). unfold len. lia. }
  destruct (posting_footer_fields (pre ++ concat (table_of data)) (len data) (len (table_of data)))
    as (footer & Hf & Hf1 & Hf2 & Hf3).
  rewrite <- !app_assoc in Hf. fold (tail_of data) in Hf.
  assert (len (pre ++ tail_of data) = len pre + 32 * len (table_of data) + 24) as Hlen
    by (rewrite len_app, posting_tail_len; lia).
  unfold parse. rewrite Hlen in *. change FOOTER_BYTES with 24 in *. rewrite Hf.
  destruct (N.leb_spec 24 (len pre + 32 * len (table_of data) + 24)); [|lia].
  destruct (N.leb_spec (len pre + 32 * len (table_of data) + 24) (len data + (32 * len (table_of data) + 24))); [|lia].
  cbn [andb ensure expect mbind res_bind]. rewrite Hf1, Hf2, Hf3. cbn [expect mbind res_bind].
  rewrite bool_decide_true by done. cbn [ensure]. rewrite !read_to_le_bytes by lia. cbn [mbind res_bind].
  rewrite <- table_of_len, N.eqb_refl. cbn [ensure mbind res_bind].
  unfold checked_mul. destruct (N.ltb_spec (len (table_of data) * 32) U64); [|lia]. cbn [with_context mbind res_bind].
  rewrite bool_decide_true; cbn [ensure].
  2: { unfold checked_add. destruct (N.ltb_spec (len data + len (table_of data) * 32) U64); [|lia]. cbn.
       destruct (N.ltb_spec (len data + len (table_of data) * 32 + 24) U64); [f_equal|]; lia. }
  unfold wrapping_add, checked_sub. rewrite N.mod_small by lia.
  destruct (N.leb_spec (24 + len (table_of data) * 32) (len pre + 32 * len (table_of data) + 24)); [|lia].
  cbn [with_context mbind res_bind]. unfold tail_of. rewrite (get_range_mid pre (concat (table_of data))); [|lia|lia].
  cbn [expect mbind res_bind]. rewrite chunks_exact_records; [done|lia|apply table_of_records].
Qed.

(** The slice of the data that a block index stands for. *)
Lemma block_slice data i hash :
  len data < U64 -> get (table_of data) i = Some hash ->
  let t := {| index_data_len := len data; index_hashes := table_of data |} in
  let '(offset, n) := block_range t i in
  exists block, get_range data offset (offset + n) = Some block /\ len block = n /\ hash = sha256 block.
Proof.
  intros Hb Hi t. unfold block_range. cbn [index_data_len t].
  pose proof (get_Some_lt _ _ _ Hi) as Hlt. rewrite table_of_len in Hlt.
  assert (i * VERIFY_BLOCK_BYTES < len data) as Hoff.
  { destruct (decide (len data = 0)) as [E|E]; [rewrite E, div_ceil_0 in Hlt by done; lia|].
    pose proof (div_ceil_lt (len data) VERIFY_BLOCK_BYTES ltac:(done) ltac:(lia)).
    unfold VERIFY_BLOCK_BYTES in *. nia. }
  rewrite (wrapping_sub_small U64 (len data) (i * VERIFY_BLOCK_BYTES) (N.lt_le_incl _ _ Hoff) Hb).
  set (n := N.min _ _). destruct (get_range_is_Some data (i * VERIFY_BLOCK_BYTES) (i * VERIFY_BLOCK_BYTES + n))
    as [block Hblock]; [lia|lia|].
  exists block. split_and!; [done|apply get_range_len in Hblock; lia|].
  unfold table_of, get in Hi. rewrite list_lookup_fmap in Hi. apply fmap_Some in Hi as (c & Hc & ->). f_equal.
  apply get_range_Some in Hblock as (_ & _ & ->).
  apply lookup_chunks in Hc; [|unfold block_nat, VERIFY_BLOCK_BYTES; lia]. rewrite Hc.
  replace (N.to_nat i * block_nat)%nat with (N.to_nat (i * VERIFY_BLOCK_BYTES)) by (unfold block_nat; lia).
  replace (i * VERIFY_BLOCK_BYTES + n - i * VERIFY_BLOCK_BYTES) with n by lia.
  subst n. unfold block_nat. destruct (N.min_spec VERIFY_BLOCK_BYTES (len data - i * VERIFY_BLOCK_BYTES)) as [[? ->]|[? ->]]; [done|].
  rewrite !take_ge; [done| |]; rewrite length_drop; unfold len in *; lia.
Qed.

Lemma writes_ok writes w base data :
  written_ok w base data ->
  Forall (fun '(bytes, n) => n <= len bytes) writes ->
  len data + len (concat (fst <$> writes)) < U64 ->
  written_ok (fold_left (fun w '(bytes, n) => write sha256 w bytes n) writes w) base
    (data ++ concat ((fun '(bytes, n) => take (N.to_nat n) bytes) <$> writes)).
Proof.
  revert w data. induction writes as [|[bytes n] writes IH]; intros w data Hw Hn Hb; cbn [fold_left fmap list_fmap concat].
  - by rewrite app_nil_r.
  - apply Forall_cons in Hn as [Hn1 Hn]. cbn [fmap list_fmap concat fst] in Hb. rewrite len_app in Hb.
    rewrite app_assoc. apply IH; [|done|].
    + apply write_ok; [done|done|]. len_lia.
    + rewrite len_app. assert (len (take (N.to_nat n) bytes) <= len bytes)
        by (unfold len; rewrite length_take; lia). lia.
Qed.

(** What a successful parse guarantees. *)
Definition table_ok (t : PostingsTableIndex) (blob_len : N) : Prop :=
  len (index_hashes t) = div_ceil (index_data_len t) VERIFY_BLOCK_BYTES /\
  Forall (fun h => length h = 32%nat) (index_hashes t) /\
  index_data_len t + 32 * len (index_hashes t) + FOOTER_BYTES = blob_len.

Lemma parse_cases blob_len tail :
  Forall is_byte tail -> blob_len < U64 ->
  (exists e, parse blob_len tail = Err e) \/ (exists t, parse blob_len tail = Ok t /\ table_ok t blob_len).
Proof.
  intros Hb Hblob. unfold parse. destruct (_ && _) eqn:E; cbn [ensure mbind res_bind]; [|by left; eexists].
  change FOOTER_BYTES with 24 in *. apply andb_true_iff in E as [E1%N.leb_le E2%N.leb_le].
  destruct (get_range_is_Some tail (len tail - 24) (len tail)) as [footer Hf]; [lia|lia|].
  rewrite Hf. pose proof (get_range_len _ _ _ _ Hf) as Hfl. cbn [expect mbind res_bind].
  destruct (get_range_is_Some footer 16 24) as [magic ->]; [lia|lia|]. cbn [expect mbind res_bind].
  destruct (bool_decide _); cbn [ensure mbind res_bind]; [|by left; eexists].
  destruct (get_range_is_Some footer 0 8) as [b1 Hb1]; [lia|lia|]. rewrite Hb1. cbn [expect mbind res_bind].
  destruct (read_u64_no_panic b1) as [data_len ->]; [by apply get_range_len in Hb1|]. cbn [mbind res_bind].
  destruct (get_range_is_Some footer 8 16) as [b2 Hb2]; [lia|lia|]. rewrite Hb2. cbn [expect mbind res_bind].
  destruct (read_u64_no_panic b2) as [block_count ->]; [by apply get_range_len in Hb2|]. cbn [mbind res_bind].
  destruct (N.eqb_spec block_count (div_ceil data_len VERIFY_BLOCK_BYTES)) as [Hbc|]; cbn [ensure mbind res_bind]; [|by left; eexists].
  destruct (checked_mul _ _ _) as [table_len|] eqn:Em; cbn [with_context mbind res_bind]; [|by left; eexists].
  apply checked_mul_Some in Em as [-> Em].
  destruct (bool_decide _) eqn:Ea; cbn [ensure mbind res_bind]; [|by left; eexists].
  apply bool_decide_eq_true in Ea. destruct (checked_add U64 data_len _) as [x|] eqn:Ex; [|done]. cbn in Ea.
  apply checked_add_Some in Ex as [-> _], Ea as [Ea _].
  rewrite wrapping_add_small by lia.
  destruct (checked_sub _ _) as [at_|] eqn:Es; cbn [with_context mbind res_bind]; [|by left; eexists].
  apply checked_sub_Some in Es as [-> Es].
  destruct (get_range_is_Some tail (len tail - (24 + block_count * 32)) (len tail - 24)) as [table Ht]; [lia|lia|].
  rewrite Ht. cbn [expect mbind res_bind]. right. eexists. split; [done|].
  destruct (chunks_exact_spec 32 (N.to_nat block_count) table) as (H1 & H2 & _); [lia| |].
  { apply get_range_len in Ht. rewrite <- to_nat_len. lia. }
  unfold table_ok. cbn [index_data_len index_hashes]. change FOOTER_BYTES with 24.
  assert (len (chunks_exact 32 table) = block_count) as -> by (unfold len; lia).
  split_and!; [done|done|lia].
Qed.
End proofs.

(** ** Theorems *)

(** C33: the table round trip.  However the posting data is cut into writes,
    short writes included, the finished blob is the data followed by a tail
    that every suffix of the blob holding it parses back to; the parsed table
    has the data's length and accepts, for each block, exactly the payloads of
    the block's length whose digest is that of the block's slice. *)
Theorem postings_table_roundtrip sha256 writes blob n tail_hash :
  (forall data, length (sha256 data) = 32%nat) ->
  Forall (fun '(bytes, n) => n <= len bytes) writes ->
  len (concat (fst <$> writes)) < 2 ^ 63 ->
  finish sha256 (fold_left (fun w '(bytes, n) => write sha256 w bytes n) writes (new_writer [])) = (blob, n, tail_hash) ->
  let data := concat ((fun '(bytes, n) => take (N.to_nat n) bytes) <$> writes) in
  exists table tail, blob = data ++ tail /\ n = len data /\ tail_hash = hex (sha256 tail) /\
    index_data_len table = len data /\
    (forall skipped suffix, data = skipped ++ suffix -> parse (len blob) (suffix ++ tail) = Ok table) /\
    forall i, i < len (index_hashes table) ->
      let '(offset, size) := block_range table i in
      exists block, get_range data offset (offset + size) = Some block /\
        forall payload, verify sha256 table i payload = Ok tt <-> len payload = size /\ sha256 payload = sha256 block.
Proof.
  intros Hsha Hn Hlen Hfin data.
  destruct (writes_ok sha256 writes (new_writer []) [] [] (new_writer_ok sha256 []) Hn) as (Hw & Hi & Hl).
  { len_lia. }
  cbn [app] in *. fold data in Hw, Hi, Hl.
  assert (len data <= len (concat (fst <$> writes))) as Hdata.
  { subst data. clear. induction writes as [|[bytes k] writes IH]; [done|]. cbn [fmap list_fmap concat fst].
    rewrite !len_app. assert (len (take (N.to_nat k) bytes) <= len bytes) by (unfold len; rewrite length_take; lia). lia. }
  rewrite (finish_ok sha256 _ [] data (conj Hw (conj Hi Hl))) in Hfin.
  fold (tail_of sha256 data) in Hfin. injection Hfin as <- <- <-.
  pose proof (posting_tail_len sha256 Hsha data) as Ht. pose proof (table_of_len sha256 data) as Htab.
  assert (len data + len (tail_of sha256 data) < U64) as Hfit.
  { rewrite Ht, Htab. destruct (decide (len data = 0)) as [E|E]; [rewrite E, div_ceil_0 by done; lia|].
    pose proof (div_ceil_lt (len data) VERIFY_BLOCK_BYTES ltac:(done) ltac:(lia)).
    change VERIFY_BLOCK_BYTES with 65536 in *. lia. }
  exists {| index_data_len := len data; index_hashes := table_of sha256 data |}, (tail_of sha256 data).
  split_and!; [done|done|done|done| |].
  - intros skipped suffix E. cbn [app]. rewrite len_app. apply parse_tail; [done| |done]. rewrite E, len_app. lia.
  - cbn [index_hashes]. intros i Hi'. destruct (get_is_Some _ _ Hi') as [hash Hh].
    pose proof (block_slice sha256 data i hash ltac:(lia) Hh) as Hs. cbv zeta in Hs. unfold verify.
    destruct (block_range _ i) as [offset size]. destruct Hs as (block & Hb & Hbl & Hhash).
    exists block. split; [done|]. intros payload. cbn [index_hashes]. rewrite Hh. cbn [expect mbind res_bind].
    destruct (N.eqb_spec (len payload) size); [|naive_solver]. rewrite ensure_ok, bool_decide_eq_true. naive_solver.
Qed.

(** Parsing is safe on arbitrary bytes.  It never panics, and what it
    accepts has one 32-byte digest per 64 KiB block and exactly fills the
    blob. *)
Theorem postings_table_parse_safe blob_len tail :
  Forall is_byte tail -> blob_len < U64 ->
  no_panic (parse blob_len tail) /\
  forall table, parse blob_len tail = Ok table ->
    len (index_hashes table) = div_ceil (index_data_len table) VERIFY_BLOCK_BYTES /\
    Forall (fun hash => length hash = 32%nat) (index_hashes table) /\
    index_data_len table + 32 * len (index_hashes table) + FOOTER_BYTES = blob_len.
Proof.
  intros Hb Hblob. destruct (parse_cases blob_len tail Hb Hblob) as [[e ->]|(t & -> & Ht)].
  - split; [by intros ?|done].
  - split; [by intros ?|]. intros table [= <-]. exact Ht.
Qed.

(** The verification blocks of a posting range.  On a well-formed table an
    accepted range maps to existing blocks; the first starts at or before the
    range, the last ends at or after it, and no block outside the result
    overlaps the range. *)
Theorem blocks_covering_spec table offset size first last :
  len (index_hashes table) = div_ceil (index_data_len table) VERIFY_BLOCK_BYTES ->
  index_data_len table < U64 ->
  blocks_covering table offset size = Ok (first, last) ->
  first < last /\ last <= len (index_hashes table) /\ offset + size <= index_data_len table /\
  (forall i, first <= i < last <->
    let '(at_, n) := block_range table i in
    i < len (index_hashes table) /\ at_ < offset + size /\ offset < at_ + n).
Proof.
  intros Hlen Hfit H. unfold blocks_covering in H. res_inv.
  apply checked_add_Some in H0 as [-> _]. apply andb_true_iff in H1 as [H1%N.leb_le H2%N.ltb_lt].
  change VERIFY_BLOCK_BYTES with 65536 in *.
  pose proof (div_ceil_le (offset + size) 65536 ltac:(done)) as Hd1.
  pose proof (div_ceil_lt (offset + size) 65536 ltac:(done) ltac:(lia)) as Hd2.
  pose proof (div_ceil_le (index_data_len table) 65536 ltac:(done)) as Hd3.
  pose proof (div_ceil_lt (index_data_len table) 65536 ltac:(done) ltac:(lia)) as Hd4.
  split_and!; [lia|lia|lia|]. intros i. unfold block_range. change VERIFY_BLOCK_BYTES with 65536.
  destruct (decide (i * 65536 <= index_data_len table)).
  - rewrite wrapping_sub_small by lia. lia.
  - split; lia.
Qed.

(** ** Witnesses *)

(** A stand-in digest of the right length. *)
Definition toy_sha (data : list N) : list N :=
  (foldl (fun acc b => (acc * 31 + b + 7) mod 251) 1 data) :: repeat (len data mod 256) 31.

Lemma toy_sha_length data : length (toy_sha data) = 32%nat.
Proof. reflexivity. Defined.

Definition toy_writes : list (list N * N) := [([1; 2; 3], 2); ([3; 4], 2)].

Lemma postings_table_roundtrip_witness :
  let '(blob, n, tail_hash) :=
    finish toy_sha (fold_left (fun w '(bytes, n) => write toy_sha w bytes n) toy_writes (new_writer [])) in
  exists table tail, blob = [1; 2; 3; 4] ++ tail /\ n = 4 /\ tail_hash = hex (toy_sha tail) /\
    index_data_len table = 4 /\
    (forall skipped suffix, [1; 2; 3; 4] = skipped ++ suffix -> parse (len blob) (suffix ++ tail) = Ok table) /\
    forall i, i < len (index_hashes table) ->
      let '(offset, size) := block_range table i in
      exists block, get_range [1; 2; 3; 4] offset (offset + size) = Some block /\
        forall payload, verify toy_sha table i payload = Ok tt <-> len payload = size /\ toy_sha payload = toy_sha block.
Proof.
  destruct (finish toy_sha _) as [[blob n] tail_hash] eqn:E.
  refine (postings_table_roundtrip toy_sha toy_writes blob n tail_hash toy_sha_length _ _ E).
  - repeat constructor; vm_compute; discriminate.
  - reflexivity.
Defined.

Lemma postings_table_parse_safe_witness :
  Forall is_byte POSTINGS_MAGIC /\ no_panic (parse 100 POSTINGS_MAGIC).
Proof.
  assert (Forall is_byte POSTINGS_MAGIC) as H by repeat constructor.
  split; [exact H|]. apply (postings_table_parse_safe 100 POSTINGS_MAGIC H). reflexivity.
Defined.

Lemma blocks_covering_spec_witness :
  let table := {| index_data_len := 100000; index_hashes := [toy_sha [0]; toy_sha [1]] |} in
  blocks_covering table 60000 10000 = Ok (0, 2) /\ 0 < 2 /\ 60000 + 10000 <= 100000.
Proof.
  cbv zeta. split; [reflexivity|].
  destruct (blocks_covering_spec {| index_data_len := 100000; index_hashes := [toy_sha [0]; toy_sha [1]] |} 60000 10000 0 2)
    as (H & _ & H' & _); [reflexivity|reflexivity|reflexivity|]. split; [exact H|exact H'].
Defined.
