(* ===== verification/Trigrams.v ===== *)
(** * Trigram extraction (crates/core/src/grams.rs)

    Trigrams as packed integers: the sorting path, the bitmap path for large
    inputs, and the block-granular form that attributes every trigram to the
    128 KiB candidate block of its first byte.  [radsort::sort] is third-party
    code: a parameter, with its sorting behaviour as the class [SortsN].  The
    theorems say that both paths compute the sorted, deduplicated set of the
    packed windows, and that erasing the blocks gives the whole-document set. *)

From S2P Require Import Prelude BitPack.

Inductive Strategy : Type := Trigram | Sparse.
#[export] Instance Strategy_eq_dec : EqDecision Strategy.
Proof. solve_decision. Defined.

(** What the code relies on of a sorting routine for integers. *)
Class SortsN (sort : list N -> list N) : Prop := {
  sorts_perm : forall l, sort l ≡ₚ l;
  sorts_sorted : forall l, StronglySorted N.le (sort l);
}.
#[export] Instance sort_N_SortsN : SortsN sort_N.
Proof.
  split; intros l; [apply sort_by_perm|].
  assert (H : StronglySorted (fun a b => (a <=? b) = true) (sort_N l)).
  { apply sort_by_sorted; intros; lia. }
  induction H as [|x l' H IH Hx]; constructor; [done|].
  eapply Forall_impl; [exact Hx|]. intros y. apply N.leb_le.
Qed.

Definition BITMAP_WORDS : N := 2 ^ 24 / 64.
Definition BITMAP_THRESHOLD : N := BITMAP_WORDS * 8 / 4.
Definition RADIX_SORT_MIN : N := 512.
Definition CANDIDATE_BLOCK_BYTES : N := 128 * 1024.

(** [data.windows(3)] *)
Fixpoint windows3 (data : list N) : list (N * N * N) :=
  match data with
  | a :: ((b :: c :: _) as rest) => (a, b, c) :: windows3 rest
  | _ => []
  end.

(** [w[0] << 16 | w[1] << 8 | w[2]] *)
Definition pack_window (w : N * N * N) : N :=
  let '(a, b, c) := w in N.lor (N.lor (N.shiftl a 16) (N.shiftl b 8)) c.

(** [u64::trailing_zeros] *)
Fixpoint pos_trailing_zeros (p : positive) : N :=
  match p with
  | xO p => 1 + pos_trailing_zeros p
  | _ => 0
  end.
Definition trailing_zeros (word : N) : N :=
  match word with 0 => 64 | N.pos p => pos_trailing_zeros p end.

(** [while word != 0 { push(base + trailing_zeros); word &= word - 1 }]; each
    pass clears a bit, so the word's width is enough fuel. *)
Fixpoint drain_word (fuel : nat) (base word : N) : list N :=
  match fuel with
  | O => []
  | S fuel =>
      if word =? 0 then []
      else (base + trailing_zeros word) :: drain_word fuel base (N.land word (word - 1))
  end.

(** [bitmap[gram / 64] |= 1 << (gram % 64)] *)
Definition mark_gram (bitmap : list N) (gram : N) : list N :=
  alter (fun word => N.lor word (shl64 1 (gram mod 64))) (N.to_nat (gram / 64)) bitmap.

Definition read_bitmap (grams bitmap : list N) : list N :=
  mbind (fun '(index, word) => drain_word 64 (index * 64) word)
    (enumerate (fold_left mark_gram grams bitmap)).

Section trigrams.
Context (radsort : list N -> list N).

Definition sort_packed_grams (grams : list N) : list N :=
  dedup (if len grams <? RADIX_SORT_MIN then sort_N grams else radsort grams).

Definition pack_trigram_grams (data : list N) : list N :=
  let grams := pack_window <$> windows3 data in
  if BITMAP_THRESHOLD <? len data - 2
  then read_bitmap grams (replicate (N.to_nat BITMAP_WORDS) 0)
  else sort_packed_grams grams.

(** The loop of [pack_trigram_block_grams]; [start] advances by a block, so
    [len data] passes are enough. *)
Fixpoint block_grams_loop (fuel : nat) (data : list N) (block start : N) : list (N * N) :=
  match fuel with
  | O => []
  | S fuel =>
      if start + 2 <? len data then
        let end_ := N.min (start + CANDIDATE_BLOCK_BYTES + 2) (len data) in
        let window := take (N.to_nat (end_ - start)) (drop (N.to_nat start) data) in
        ((fun gram => (block, gram)) <$> pack_trigram_grams window) ++
        block_grams_loop fuel data (wrapping_add U32 block 1) (start + CANDIDATE_BLOCK_BYTES)
      else []
  end.

Definition pack_trigram_block_grams (data : list N) : list (N * N) :=
  if len data <? 3 then [] else block_grams_loop (length data) data 0 0.

Definition trigram_grams_bytes (data : list N) : list (list N) :=
  (fun g => [N.shiftr g 16 mod U8; N.shiftr g 8 mod U8; g mod U8]) <$> pack_trigram_grams data.
End trigrams.

(** ** Draining a bitmap word *)

Lemma trailing_zeros_spec p :
  N.testbit (N.pos p) (pos_trailing_zeros p) = true /\
  (forall j, j < pos_trailing_zeros p -> N.testbit (N.pos p) j = false).
Proof.
  induction p as [p _|p [IH1 IH2]|]; cbn [pos_trailing_zeros].
  - split; [done|lia].
  - change (N.pos p~0) with (2 * N.pos p). split.
    + rewrite N.add_1_l, N.testbit_even_succ by lia. done.
    + intros j Hj. destruct (decide (j = 0)) as [->|]; [apply N.testbit_even_0|].
      replace j with (N.succ (j - 1)) by lia. rewrite N.testbit_even_succ by lia. apply IH2. lia.
  - split; [done|lia].
Qed.

(** [word & (word - 1)] clears the lowest set bit. *)
Lemma clear_lowest p j :
  N.testbit (N.land (N.pos p) (N.pos p - 1)) j =
  N.testbit (N.pos p) j && negb (j =? pos_trailing_zeros p).
Proof.
  revert j. induction p as [p _|p IH|]; intros j; cbn [pos_trailing_zeros].
  - rewrite N.land_spec. replace (N.pos p~1 - 1) with (2 * N.pos p) by lia.
    change (N.pos p~1) with (2 * N.pos p + 1).
    destruct (decide (j = 0)) as [->|].
    + rewrite N.testbit_even_0, N.testbit_odd_0. done.
    + replace j with (N.succ (j - 1)) by lia.
      rewrite N.testbit_even_succ, N.testbit_odd_succ by lia.
      destruct (N.eqb_spec (N.succ (j - 1)) 0); [lia|]. by rewrite andb_true_r, andb_diag.
  - rewrite N.land_spec. replace (N.pos p~0 - 1) with (2 * (N.pos p - 1) + 1) by lia.
    change (N.pos p~0) with (2 * N.pos p).
    destruct (decide (j = 0)) as [->|].
    + rewrite N.testbit_even_0. done.
    + replace j with (N.succ (j - 1)) by lia.
      rewrite N.testbit_even_succ, N.testbit_odd_succ by lia.
      specialize (IH (j - 1)). rewrite N.land_spec in IH. rewrite IH. f_equal. f_equal.
      destruct (N.eqb_spec (j - 1) (pos_trailing_zeros p)), (N.eqb_spec (N.succ (j - 1)) (1 + pos_trailing_zeros p)); lia.
  - rewrite N.land_spec. cbn [N.sub Pos.sub_mask]. destruct j as [|j]; [done|]. by destruct j.
Qed.

Lemma elem_of_drain_word fuel base word m x :
  (forall j, j < m -> N.testbit word j = false) ->
  (forall j, 64 <= j -> N.testbit word j = false) ->
  64 <= m + N.of_nat fuel ->
  x ∈ drain_word fuel base word <-> exists j, N.testbit word j = true /\ x = base + j.
Proof.
  revert word m. induction fuel as [|fuel IH]; intros word m Hlo Hhi Hf; cbn [drain_word].
  - split; [by intros ?%elem_of_nil|]. intros (j & Hj & _).
    destruct (N.ltb_spec j m); [by rewrite Hlo in Hj|]. rewrite Hhi in Hj by lia. done.
  - destruct word as [|p].
    { cbn. split; [by intros ?%elem_of_nil|]. by intros (j & Hj & _). }
    cbn [N.eqb trailing_zeros]. destruct (trailing_zeros_spec p) as [Ht Hbelow].
    assert (m <= pos_trailing_zeros p).
    { destruct (N.ltb_spec (pos_trailing_zeros p) m); [|done]. by rewrite Hlo in Ht. }
    rewrite elem_of_cons, (IH _ (pos_trailing_zeros p + 1)).
    + setoid_rewrite clear_lowest. split.
      * intros [->|(j & [? _]%andb_true_iff & ->)]; eauto.
      * intros (j & Hj & ->). destruct (N.eqb_spec j (pos_trailing_zeros p)) as [->|Hne]; [by left|].
        right. exists j. rewrite Hj. apply N.eqb_neq in Hne. by rewrite Hne.
    + intros j Hj. rewrite clear_lowest.
      destruct (N.eqb_spec j (pos_trailing_zeros p)); cbn; rewrite ?andb_false_r, ?andb_true_r; [done|].
      apply Hbelow. lia.
    + intros j Hj. rewrite clear_lowest, Hhi by done. done.
    + lia.
Qed.

Lemma drain_word_ascending fuel base word :
  ascending (drain_word fuel base word) /\
  (word <> 0 -> Forall (fun x => base + trailing_zeros word <= x) (drain_word fuel base word)).
Proof.
  revert word. induction fuel as [|fuel IH]; intros word; cbn [drain_word]; [by repeat constructor|].
  destruct word as [|p]; [by repeat constructor|]. cbn [N.eqb trailing_zeros].
  set (rest := N.land _ _). destruct (IH rest) as [Hs Hlow].
  assert (Forall (fun x => base + pos_trailing_zeros p < x) (drain_word fuel base rest)) as Hgt.
  { destruct rest as [|q] eqn:Hq; [destruct fuel; constructor|].
    eapply Forall_impl; [by apply Hlow|]. cbn. intros x Hx.
    destruct (trailing_zeros_spec q) as [Hset _]. rewrite <- Hq in Hset. subst rest.
    rewrite clear_lowest in Hset. apply andb_true_iff in Hset as [Hset Hne].
    destruct (trailing_zeros_spec p) as [_ Hbelow].
    destruct (N.ltb_spec (pos_trailing_zeros q) (pos_trailing_zeros p)) as [Hlt|].
    - by rewrite Hbelow in Hset.
    - apply negb_true_iff, N.eqb_neq in Hne. lia. }
  split; [by constructor|]. intros _. constructor; [lia|].
  eapply Forall_impl; [exact Hgt|]. cbn. intros; lia.
Qed.

(** ** The bitmap as a set of grams *)

Definition in_bitmap (bitmap : list N) (g : N) : bool :=
  match get bitmap (g / 64) with Some word => N.testbit word (g mod 64) | None => false end.

Definition words64 (bitmap : list N) : Prop :=
  Forall (fun word => forall j, 64 <= j -> N.testbit word j = false) bitmap.

Lemma shl64_bit i j : i < 64 -> N.testbit (shl64 1 i) j = (j =? i).
Proof.
  intros Hi. unfold shl64. rewrite N.shiftl_1_l, N.mod_small by (apply N.pow_lt_mono_r; lia).
  rewrite N.pow2_bits_eqb. apply N.eqb_sym.
Qed.

Lemma mark_gram_bits bitmap g x :
  g / 64 < len bitmap -> in_bitmap (mark_gram bitmap g) x = in_bitmap bitmap x || (x =? g).
Proof.
  intros Hg. unfold in_bitmap, mark_gram, get.
  destruct (decide (x / 64 = g / 64)) as [E|E].
  - rewrite E, list_lookup_alter.
    destruct (get_is_Some bitmap (g / 64) Hg) as [word Hw]. unfold get in Hw. rewrite Hw. cbn. rewrite decide_True by done.
    rewrite N.lor_spec, shl64_bit by (apply N.mod_lt; lia). f_equal.
    destruct (N.eqb_spec (x mod 64) (g mod 64)), (N.eqb_spec x g); lia.
  - rewrite list_lookup_alter_ne by lia. destruct (N.eqb_spec x g) as [->|]; [done|].
    by rewrite orb_false_r.
Qed.

Lemma mark_gram_words64 bitmap g : words64 bitmap -> words64 (mark_gram bitmap g).
Proof.
  unfold words64, mark_gram. rewrite !Forall_lookup. intros H i w.
  rewrite list_lookup_alter. case_decide; [|eauto]. intros (w' & Hw & ->)%fmap_Some.
  intros j Hj. rewrite N.lor_spec, (H _ _ Hw j Hj).
  rewrite shl64_bit by (apply N.mod_lt; lia). apply N.eqb_neq.
  pose proof (N.mod_lt g 64 ltac:(lia)). lia.
Qed.

Lemma mark_grams_bits grams bitmap :
  words64 bitmap -> Forall (fun g => g / 64 < len bitmap) grams ->
  words64 (fold_left mark_gram grams bitmap) /\
  len (fold_left mark_gram grams bitmap) = len bitmap /\
  forall x, in_bitmap (fold_left mark_gram grams bitmap) x = in_bitmap bitmap x || bool_decide (x ∈ grams).
Proof.
  revert bitmap. induction grams as [|g grams IH]; intros bitmap Hw Hg; cbn [fold_left].
  - split_and!; [done|done|]. intros x. rewrite bool_decide_eq_false_2 by set_solver. by rewrite orb_false_r.
  - inversion Hg; subst.
    assert (len (mark_gram bitmap g) = len bitmap) as Hlen by (unfold len, mark_gram; by rewrite length_alter).
    destruct (IH (mark_gram bitmap g)) as (? & ? & Hbits); [by apply mark_gram_words64|by rewrite Hlen|].
    split_and!; [done|lia|]. intros x. rewrite Hbits, mark_gram_bits by done.
    rewrite <- orb_assoc. f_equal. apply eq_true_iff_eq.
    rewrite orb_true_iff, !bool_decide_eq_true, elem_of_cons, N.eqb_eq. tauto.
Qed.

Lemma elem_of_bitmap_grams bitmap x :
  words64 bitmap ->
  x ∈ mbind (fun '(index, word) => drain_word 64 (index * 64) word) (enumerate bitmap) <->
  in_bitmap bitmap x = true.
Proof.
  intros Hw. rewrite list_elem_of_bind. split.
  - intros ([i word] & Hx & Hi%elem_of_enumerate).
    apply (elem_of_drain_word _ _ _ 0) in Hx as (j & Hj & ->); [|lia| |lia].
    + unfold in_bitmap. destruct (N.ltb_spec j 64) as [Hlt|Hge].
      * replace ((i * 64 + j) / 64) with i by lia. rewrite Hi. by replace ((i * 64 + j) mod 64) with j by lia.
      * unfold words64 in Hw. rewrite Forall_forall in Hw. rewrite (Hw word) in Hj; [done|by eapply get_elem|done].
    + intros k Hk. unfold words64 in Hw. rewrite Forall_forall in Hw. apply Hw; [by eapply get_elem|done].
  - unfold in_bitmap. destruct (get bitmap (x / 64)) as [word|] eqn:Hg; [|done]. intros Hbit.
    exists (x / 64, word). split; [|by apply elem_of_enumerate].
    apply (elem_of_drain_word _ _ _ 0); [lia| |lia|].
    + intros k Hk. unfold words64 in Hw. rewrite Forall_forall in Hw. apply Hw; [by eapply get_elem|done].
    + exists (x mod 64). split; [done|lia].
Qed.

Lemma bitmap_grams_ascending bitmap offset :
  words64 bitmap ->
  ascending (mbind (fun '(index, word) => drain_word 64 (index * 64) word)
    (imap (fun i word => (offset + N.of_nat i, word)) bitmap)) /\
  Forall (fun x => offset * 64 <= x) (mbind (fun '(index, word) => drain_word 64 (index * 64) word)
    (imap (fun i word => (offset + N.of_nat i, word)) bitmap)).
Proof.
  intros Hw. revert offset. induction Hw as [|word bitmap Hword Hw IH]; intros offset; [by repeat constructor|].
  cbn [imap mbind list_bind]. rewrite N.add_0_r.
  rewrite (imap_ext _ (fun i word => (offset + 1 + N.of_nat i, word))) by (intros; cbn; f_equal; lia).
  destruct (IH (offset + 1)) as [Hs Hlow]. rewrite Forall_forall in Hlow.
  assert (forall x, x ∈ drain_word 64 (offset * 64) word -> offset * 64 <= x < (offset + 1) * 64) as Hx.
  { intros x Hx. apply (elem_of_drain_word _ _ _ 0) in Hx as (j & Hj & ->); [|lia|done|lia].
    destruct (N.ltb_spec j 64); [lia|]. rewrite Hword in Hj by done. done. }
  split.
  - apply ascending_app. split_and!; [apply drain_word_ascending|done|].
    intros x y Hx1 Hy1. specialize (Hx _ Hx1). specialize (Hlow _ Hy1). cbn in Hlow. lia.
  - rewrite Forall_app. split; apply Forall_forall; intros x Hx1; [specialize (Hx _ Hx1); lia|].
    specialize (Hlow _ Hx1). cbn in Hlow. lia.
Qed.

(** ** Windows *)

Lemma lookup_windows3 data i a b c :
  get (windows3 data) i = Some (a, b, c) <->
  get data i = Some a /\ get data (i + 1) = Some b /\ get data (i + 2) = Some c.
Proof.
  unfold get. replace (N.to_nat (i + 1)) with (S (N.to_nat i)) by lia.
  replace (N.to_nat (i + 2)) with (S (S (N.to_nat i))) by lia.
  generalize (N.to_nat i) as k. clear i. induction data as [|x data IH]; intros k; [cbn; rewrite ?lookup_nil; intuition congruence|].
  destruct data as [|y [|z data]].
  - destruct k; cbn; rewrite ?lookup_nil; intuition congruence.
  - destruct k as [|[|k]]; cbn; rewrite ?lookup_nil; intuition congruence.
  - change (windows3 (x :: y :: z :: data)) with ((x, y, z) :: windows3 (y :: z :: data)).
    destruct k as [|k]; [cbn; split; [intros [= -> -> ->]; done|intros (? & ? & ?); congruence]|].
    cbn [lookup list_lookup]. apply IH.
Qed.

Lemma elem_of_windows3 data w :
  w ∈ windows3 data <-> exists i a b c, w = (a, b, c) /\
    get data i = Some a /\ get data (i + 1) = Some b /\ get data (i + 2) = Some c.
Proof.
  split.
  - intros [i Hi]%elem_get. destruct w as [[a b] c]. apply lookup_windows3 in Hi. eauto 8.
  - intros (i & a & b & c & -> & H). apply lookup_windows3 in H. by eapply get_elem.
Qed.

(** A packed window is the window's big-endian number. *)
Lemma pack_window_value a b c :
  is_byte a -> is_byte b -> is_byte c -> pack_window (a, b, c) = a * 65536 + b * 256 + c.
Proof.
  unfold is_byte, pack_window. intros Ha Hb Hc.
  rewrite <- N.lor_assoc, (N.lor_comm (N.shiftl b 8) c), lor_add_shift by done.
  rewrite N.lor_comm, lor_add_shift; lia.
Qed.

Lemma pack_window_bound a b c :
  is_byte a -> is_byte b -> is_byte c -> pack_window (a, b, c) < 2 ^ 24.
Proof. intros. rewrite pack_window_value by done. unfold is_byte in *. lia. Qed.

(** The bytes a packed window is unpacked to are the window. *)
Lemma unpack_window a b c :
  is_byte a -> is_byte b -> is_byte c ->
  let g := pack_window (a, b, c) in
  [N.shiftr g 16 mod U8; N.shiftr g 8 mod U8; g mod U8] = [a; b; c].
Proof.
  intros. subst g. rewrite pack_window_value by done. unfold is_byte in *.
  rewrite !N.shiftr_div_pow2. repeat f_equal; lia.
Qed.

Lemma windows3_bytes data a b c :
  Forall is_byte data -> (a, b, c) ∈ windows3 data -> is_byte a /\ is_byte b /\ is_byte c.
Proof.
  rewrite Forall_forall. intros Hd (i & ? & ? & ? & [= <- <- <-] & Ha & Hb & Hc)%elem_of_windows3.
  split_and!; apply Hd; by eapply get_elem.
Qed.

(** ** The gram set of a document *)

Section spec.
Context (radsort : list N -> list N) `{!SortsN radsort}.

Lemma sort_packed_grams_spec grams : sort_packed_grams radsort grams = sort_dedup grams.
Proof.
  apply ascending_ext; [|apply sort_dedup_ascending|].
  - unfold sort_packed_grams. apply (dedup_strict N.le); [intros; lia|intros; lia|].
    destruct (_ <? _); apply sorts_sorted.
  - intros x. unfold sort_packed_grams. rewrite elem_of_sort_dedup, elem_of_dedup.
    destruct (_ <? _); by rewrite sorts_perm.
Qed.

Lemma read_bitmap_spec grams words :
  Forall (fun g => g / 64 < N.of_nat words) grams ->
  read_bitmap grams (replicate words 0) = sort_dedup grams.
Proof.
  intros Hg. destruct (mark_grams_bits grams (replicate words 0)) as (Hw & _ & Hbits).
  { apply Forall_replicate. intros j _. apply N.bits_0. }
  { unfold len. by rewrite length_replicate. }
  unfold read_bitmap. apply ascending_ext; [|apply sort_dedup_ascending|].
  - destruct (bitmap_grams_ascending (fold_left mark_gram grams (replicate words 0)) 0 Hw) as [Hs _].
    unfold enumerate. erewrite imap_ext; [exact Hs|]. done.
  - intros x. rewrite elem_of_bitmap_grams, Hbits, elem_of_sort_dedup by done.
    rewrite orb_true_iff, bool_decide_eq_true. split; [intros [H|H]; [|done]|by right].
    unfold in_bitmap, get in H. destruct (replicate words 0 !! _) as [w|] eqn:Hl; [|done].
    apply lookup_replicate in Hl as [-> _]. by rewrite N.bits_0 in H.
Qed.

Lemma pack_trigram_grams_eq data :
  Forall is_byte data -> pack_trigram_grams radsort data = sort_dedup (pack_window <$> windows3 data).
Proof.
  intros Hd. unfold pack_trigram_grams. destruct (_ <? _); [|apply sort_packed_grams_spec].
  apply read_bitmap_spec. apply Forall_fmap, Forall_forall. intros [[a b] c] Hin. cbn [compose].
  destruct (windows3_bytes _ _ _ _ Hd Hin) as (Ha & Hb & Hc).
  pose proof (pack_window_bound a b c Ha Hb Hc) as Hlt.
  rewrite N2Nat.id. unfold BITMAP_WORDS. change (2 ^ 24 / 64) with 262144. lia.
Qed.

Lemma elem_of_pack_trigram_grams data g :
  Forall is_byte data ->
  g ∈ pack_trigram_grams radsort data <->
  exists i a b c, g = pack_window (a, b, c) /\
    get data i = Some a /\ get data (i + 1) = Some b /\ get data (i + 2) = Some c.
Proof.
  intros Hd. rewrite pack_trigram_grams_eq, elem_of_sort_dedup, list_elem_of_fmap by done.
  setoid_rewrite elem_of_windows3. split.
  - intros (w & -> & i & a & b & c & -> & ?). eauto 8.
  - intros (i & a & b & c & -> & ?). exists (a, b, c). eauto 8.
Qed.

(** ** Block grams *)

Lemma get_slice {A} (data : list A) start n j x :
  get (take (N.to_nat n) (drop (N.to_nat start) data)) j = Some x <->
  j < n /\ get data (start + j) = Some x.
Proof.
  unfold get. rewrite lookup_take_Some, lookup_drop.
  replace (N.to_nat start + N.to_nat j)%nat with (N.to_nat (start + j)) by lia.
  intuition lia.
Qed.

(** The grams of the window that starts at [start]: those whose first byte is
    among its first [CANDIDATE_BLOCK_BYTES]. *)
Lemma elem_of_window_grams data start g :
  Forall is_byte data ->
  g ∈ pack_trigram_grams radsort (take (N.to_nat (N.min (start + CANDIDATE_BLOCK_BYTES + 2) (len data) - start))
        (drop (N.to_nat start) data)) <->
  exists i a b c, start <= i < start + CANDIDATE_BLOCK_BYTES /\ g = pack_window (a, b, c) /\
    get data i = Some a /\ get data (i + 1) = Some b /\ get data (i + 2) = Some c.
Proof.
  intros Hd. rewrite elem_of_pack_trigram_grams by (by apply Forall_take, Forall_drop).
  setoid_rewrite get_slice. split.
  - intros (j & a & b & c & -> & [? Ha] & [? Hb] & [? Hc]). exists (start + j), a, b, c.
    rewrite !N.add_assoc in *. split_and!; try done; lia.
  - intros (i & a & b & c & Hi & -> & Ha & Hb & Hc). exists (i - start), a, b, c.
    pose proof (get_Some_lt _ _ _ Hc).
    replace (start + (i - start)) with i by lia.
    replace (start + (i - start + 1)) with (i + 1) by lia.
    replace (start + (i - start + 2)) with (i + 2) by lia.
    split_and!; try done; lia.
Qed.

Lemma elem_of_block_grams_loop fuel data k b g :
  Forall is_byte data -> len data <= 2 ^ 32 * CANDIDATE_BLOCK_BYTES ->
  len data <= k * CANDIDATE_BLOCK_BYTES + N.of_nat fuel ->
  (b, g) ∈ block_grams_loop radsort fuel data (k mod U32) (k * CANDIDATE_BLOCK_BYTES) <->
  exists i x y z, k * CANDIDATE_BLOCK_BYTES <= i /\ b = i / CANDIDATE_BLOCK_BYTES /\
    g = pack_window (x, y, z) /\
    get data i = Some x /\ get data (i + 1) = Some y /\ get data (i + 2) = Some z.
Proof.
  pose proof elem_of_window_grams as HW. change CANDIDATE_BLOCK_BYTES with 131072 in *.
  intros Hd Hlen. revert k. induction fuel as [|fuel IH]; intros k Hf; cbn [block_grams_loop].
  - split; [by intros ?%elem_of_nil|]. intros (i & x & y & z & Hi & _ & _ & Hx%get_Some_lt & _). lia.
  - change CANDIDATE_BLOCK_BYTES with 131072.
    destruct (N.ltb_spec (k * 131072 + 2) (len data)) as [Hlt|Hge].
    2: { split; [by intros ?%elem_of_nil|]. intros (i & x & y & z & Hi & _ & _ & _ & _ & Hx%get_Some_lt). lia. }
    unfold wrapping_add. rewrite N.Div0.add_mod_idemp_l.
    replace (k * 131072 + 131072) with ((k + 1) * 131072) at 2 by lia.
    rewrite elem_of_app, list_elem_of_fmap, IH by lia.
    setoid_rewrite HW; [|done]. rewrite (N.mod_small k) by lia. split.
    + intros [(g' & [= -> ->] & i & x & y & z & Hi & -> & H)|(i & x & y & z & Hi & H)];
        exists i, x, y, z; split_and!; try done; try lia; apply H.
    + intros (i & x & y & z & Hi & Hb & -> & H). destruct (N.ltb_spec i ((k + 1) * 131072)) as [Hw|Hw].
      * left. exists (pack_window (x, y, z)). split; [f_equal; lia|]. exists i, x, y, z. split_and!; try done; try apply H; lia.
      * right. exists i, x, y, z. split_and!; try done; try apply H; lia.
Qed.

Lemma elem_of_block_grams data b g :
  Forall is_byte data -> len data <= 2 ^ 32 * CANDIDATE_BLOCK_BYTES ->
  (b, g) ∈ pack_trigram_block_grams radsort data <->
  exists i x y z, b = i / CANDIDATE_BLOCK_BYTES /\ g = pack_window (x, y, z) /\
    get data i = Some x /\ get data (i + 1) = Some y /\ get data (i + 2) = Some z.
Proof.
  intros Hd Hlen. unfold pack_trigram_block_grams. destruct (N.ltb_spec (len data) 3).
  - split; [by intros ?%elem_of_nil|]. intros (i & x & y & z & _ & _ & _ & _ & Hx%get_Some_lt). lia.
  - etrans; [apply (elem_of_block_grams_loop (length data) data 0 b g); [done|done|unfold len; lia]|].
    split; intros (i & x & y & z & H'); exists i, x, y, z; intuition lia.
Qed.

(** The bitmap path and the sorting paths of [pack_trigram_grams] compute
    the same thing: the ascending list of the distinct packed windows, all
    below 2^24, and a gram is listed exactly when it occurs at some offset. *)
Theorem pack_trigram_grams_reference data :
  Forall is_byte data ->
  pack_trigram_grams radsort data = sort_dedup (pack_window <$> windows3 data) /\
  ascending (pack_trigram_grams radsort data) /\
  forall g, g ∈ pack_trigram_grams radsort data <->
    exists i a b c, g = a * 65536 + b * 256 + c /\
      get data i = Some a /\ get data (i + 1) = Some b /\ get data (i + 2) = Some c.
Proof.
  intros Hd. split_and!; [by apply pack_trigram_grams_eq| |].
  - rewrite pack_trigram_grams_eq by done. apply sort_dedup_ascending.
  - intros g. rewrite elem_of_pack_trigram_grams by done. rewrite Forall_forall in Hd.
    split; intros (i & a & b & c & -> & Ha & Hb & Hc); exists i, a, b, c; split_and!; try done;
      [|symmetry]; apply pack_window_value; apply Hd; by eapply get_elem.
Qed.

(** The block-granular grams refine the whole-document ones.  A pair
    [(block, gram)] is listed exactly when the gram's first byte lies in that
    128 KiB block, straddlers included, and erasing the blocks gives
    [pack_trigram_grams]. *)
Theorem pack_trigram_block_grams_spec data :
  Forall is_byte data -> len data <= 2 ^ 32 * CANDIDATE_BLOCK_BYTES ->
  (forall block gram, (block, gram) ∈ pack_trigram_block_grams radsort data <->
    exists i a b c, block = i / CANDIDATE_BLOCK_BYTES /\ gram = pack_window (a, b, c) /\
      get data i = Some a /\ get data (i + 1) = Some b /\ get data (i + 2) = Some c) /\
  sort_dedup (pack_trigram_block_grams radsort data).*2 = pack_trigram_grams radsort data.
Proof.
  intros Hd Hlen. split; [intros; by apply elem_of_block_grams|].
  apply ascending_ext; [apply sort_dedup_ascending|rewrite pack_trigram_grams_eq by done; apply sort_dedup_ascending|].
  intros g. rewrite elem_of_sort_dedup, elem_of_pack_trigram_grams, list_elem_of_fmap by done. split.
  - intros ([b g'] & -> & Hin). apply elem_of_block_grams in Hin as (i & a & b' & c & _ & ? & ?); [|done|done].
    exists i, a, b', c. done.
  - intros (i & a & b & c & Hg & H). exists (i / CANDIDATE_BLOCK_BYTES, g). split; [done|].
    apply elem_of_block_grams; [done|done|]. exists i, a, b, c. done.
Qed.
End spec.

(** ** Witnesses *)

Lemma abcab_bytes : Forall is_byte [97; 98; 99; 97; 98].
Proof. repeat constructor. Defined.

Lemma pack_trigram_grams_reference_witness :
  pack_trigram_grams sort_N [97; 98; 99; 97; 98] = [6382179; 6447969; 6512994] /\
  ascending (pack_trigram_grams sort_N [97; 98; 99; 97; 98]).
Proof.
  destruct (pack_trigram_grams_reference sort_N [97; 98; 99; 97; 98] abcab_bytes) as (H & Hs & _).
  split; [rewrite H; vm_compute; reflexivity|exact Hs].
Defined.

Lemma pack_trigram_block_grams_spec_witness :
  (0, pack_window (98, 99, 97)) ∈ pack_trigram_block_grams sort_N [97; 98; 99; 97; 98] /\
  sort_dedup (pack_trigram_block_grams sort_N [97; 98; 99; 97; 98]).*2 = [6382179; 6447969; 6512994].
Proof.
  destruct (pack_trigram_block_grams_spec sort_N [97; 98; 99; 97; 98] abcab_bytes) as (H & He).
  { vm_compute. discriminate. }
  split.
  - apply H. exists 1, 98, 99, 97. repeat split; vm_compute; reflexivity.
  - vm_compute. reflexivity.
Defined.
