(* ===== verification/SparseGrams.v ===== *)
(** * Sparse n-grams (crates/core/src/grams.rs)

    The resumable iterator of the indexing side, the covering set of the query
    side, and the two strategies behind one pair of entry points.
    [rapidhash_v3] is third-party code and a parameter: nothing is assumed of
    it, since the weights only steer selectivity. *)

From S2P Require Import Prelude BitPack Trigrams.

Section sparse.
Context (rapidhash_v3 : list N -> N) (radsort : list N -> list N).

Definition hash_ngram (gram : list N) : N := N.land (rapidhash_v3 gram) (2 ^ 40 - 1).
Definition pair_weight (a b : N) : N := rapidhash_v3 [a; b] mod U32.

(** ** The resumable sparse iterator *)

Record SparseGramRanges : Type := {
  pair_count : N;
  start : N;
  end_ : N;
  interior_max : N;
  start_weight : N;
  emit_pair : bool;
}.

Definition start_sparse_gram_ranges (n : N) : SparseGramRanges :=
  {| pair_count := n - 1; start := 0; end_ := 0; interior_max := 0; start_weight := 0;
     emit_pair := true |}.

(** The [while self.end < self.pair_count] loop: [Some range] when it returns,
    [None] when it breaks or runs off the end. *)
Fixpoint extend_gram (fuel : nat) (byte : N -> res N) (s : SparseGramRanges)
    : res (option (N * N) * SparseGramRanges) :=
  match fuel with
  | O => Ok (None, s)
  | S fuel =>
      if end_ s <? pair_count s then
        interior ← (if start s + 1 <? end_ s
                    then a ← byte (end_ s - 1); b ← byte (end_ s);
                         Ok (N.max (interior_max s) (pair_weight a b))
                    else Ok (interior_max s));
        if start_weight s <=? interior
        then Ok (None, {| pair_count := pair_count s; start := start s; end_ := end_ s;
                          interior_max := interior; start_weight := start_weight s;
                          emit_pair := emit_pair s |})
        else
          let current := end_ s in
          let s := {| pair_count := pair_count s; start := start s; end_ := end_ s + 1;
                      interior_max := interior; start_weight := start_weight s;
                      emit_pair := emit_pair s |} in
          a ← byte current; b ← byte (current + 1);
          if interior <? pair_weight a b
          then Ok (Some (start s, current + 2), s)
          else extend_gram fuel byte s
      else Ok (None, s)
  end.

(** [next_with]; the outer loop runs at most twice, once to exhaust the current
    start and once to emit the next one's pair. *)
Fixpoint next_with (fuel : nat) (byte : N -> res N) (s : SparseGramRanges)
    : res (option (N * N) * SparseGramRanges) :=
  match fuel with
  | O => Panic "next_with: out of fuel"
  | S fuel =>
      if pair_count s <=? start s then Ok (None, s)
      else if emit_pair s then
        a ← byte (start s); b ← byte (start s + 1);
        Ok (Some (start s, start s + 2),
            {| pair_count := pair_count s; start := start s; end_ := start s + 1;
               interior_max := 0; start_weight := pair_weight a b; emit_pair := false |})
      else
        '(found, s) ← extend_gram (N.to_nat (pair_count s - end_ s)) byte s;
        match found with
        | Some range => Ok (Some range, s)
        | None =>
            next_with fuel byte
              {| pair_count := pair_count s; start := start s + 1; end_ := end_ s;
                 interior_max := interior_max s; start_weight := start_weight s;
                 emit_pair := true |}
        end
  end.

(** [std::iter::from_fn] over [next_with], collected. *)
Fixpoint collect_ranges (fuel : nat) (byte : N -> res N) (s : SparseGramRanges) : res (list (N * N)) :=
  match fuel with
  | O => Panic "collect_ranges: out of fuel"
  | S fuel =>
      '(found, s) ← next_with 2 byte s;
      match found with
      | None => Ok []
      | Some range => rest ← collect_ranges fuel byte s; Ok (range :: rest)
      end
  end.

Definition iterate_sparse_gram_ranges (n : N) (byte : N -> res N) : res (list (N * N)) :=
  collect_ranges (N.to_nat (n * n + 1)) byte (start_sparse_gram_ranges n).

Definition iterate_sparse_grams (data : list N) : res (list (list N)) :=
  ranges ← iterate_sparse_gram_ranges (len data) (fun index => expect (get data index) "index out of bounds");
  mapM_res (fun '(a, b) => expect (get_range data a b) "range out of bounds") ranges.

(** Lexicographic order of byte strings, as [Vec<u8>: Ord]. *)
Fixpoint bytes_leb (a b : list N) : bool :=
  match a, b with
  | [], _ => true
  | _ :: _, [] => false
  | x :: a, y :: b => if x =? y then bytes_leb a b else x <? y
  end.

Definition sparse_grams_all_bytes (data : list N) : res (list (list N)) :=
  grams ← iterate_sparse_grams data;
  Ok (dedup (sort_by bytes_leb grams)).

(** ** The covering set *)

Fixpoint pair_weights (data : list N) : list N :=
  match data with
  | a :: ((b :: _) as rest) => pair_weight a b :: pair_weights rest
  | _ => []
  end.

Definition index_weight (weights : list N) (i : N) : res N := expect (get weights i) "index out of bounds".

Definition is_indexed_gram (weights : list N) (a e : N) : res bool :=
  let last := e - 2 in
  if last =? a then Ok true
  else
    interior ← expect (get_range weights (a + 1) last) "range out of bounds";
    let interior_max := foldr N.max 0 interior in
    wa ← index_weight weights a;
    if interior_max <? wa
    then wl ← index_weight weights last; Ok (interior_max <? wl)
    else Ok false.

Definition push_gram (data weights : list N) (out : list (list N)) (a e : N) : res (list (list N)) :=
  keep ← is_indexed_gram weights a e;
  if keep : bool
  then gram ← expect (get_range data a e) "range out of bounds"; Ok (out ++ [gram])
  else Ok out.

(** [while let Some(&top) = stack.last()]; the stack's top is its head. *)
Fixpoint pop_stack (data weights : list N) (i wi : N) (out : list (list N)) (stack : list N)
    : res (list (list N) * list N) :=
  match stack with
  | [] => Ok (out, [])
  | top :: rest =>
      wt ← index_weight weights top;
      if wt <=? wi then
        out ← push_gram data weights out top (i + 2);
        if wt =? wi then Ok (out, rest) else pop_stack data weights i wi out rest
      else Ok (out, stack)
  end.

Definition cover_step (data weights : list N) (s : list (list N) * list N) (i : N)
    : res (list (list N) * list N) :=
  let '(out, stack) := s in
  wi ← index_weight weights i;
  '(out, stack) ← pop_stack data weights i wi out stack;
  Ok (out, i :: stack).

(** [while stack.len() > 1] and the final [if let Some(&pos)]. *)
Fixpoint drain_stack (data weights : list N) (out : list (list N)) (stack : list N) : res (list (list N)) :=
  match stack with
  | [] => Ok out
  | top :: rest =>
      match rest with
      | [] => push_gram data weights out top (top + 2)
      | prev :: _ =>
          out ← push_gram data weights out prev (top + 2);
          drain_stack data weights out rest
      end
  end.

Definition sparse_grams_covering_bytes (data : list N) : res (list (list N)) :=
  if len data <? 2 then Ok []
  else
    let weights := pair_weights data in
    '(out, stack) ← foldM (cover_step data weights) ([], []) (range 0 (len weights));
    out ← drain_stack data weights out stack;
    Ok (dedup (sort_by bytes_leb out)).

Definition grams_index (data : list N) (s : Strategy) : res (list (list N)) :=
  match s with
  | Trigram => Ok (trigram_grams_bytes radsort data)
  | Sparse => sparse_grams_all_bytes data
  end.

Definition grams_query (data : list N) (s : Strategy) : res (list (list N)) :=
  match s with
  | Trigram => Ok (trigram_grams_bytes radsort data)
  | Sparse => sparse_grams_covering_bytes data
  end.
End sparse.

(** [Vec<u8>: Ord] is a total order. *)
Lemma bytes_leb_total a b : bytes_leb a b = true \/ bytes_leb b a = true.
Proof.
  revert b. induction a as [|x a IH]; intros [|y b]; cbn; try (by left); try (by right).
  rewrite (N.eqb_sym y x). destruct (N.eqb_spec x y); [apply IH|]. lia.
Qed.
Lemma bytes_leb_trans a b c : bytes_leb a b = true -> bytes_leb b c = true -> bytes_leb a c = true.
Proof.
  revert b c. induction a as [|x a IH]; intros [|y b] [|z c]; cbn; try done.
  destruct (N.eqb_spec x y) as [->|], (N.eqb_spec y z) as [->|]; try (intros; by eauto).
  - intros ? ?. destruct (N.eqb_spec x z); [lia|done].
  - intros ? ?. destruct (N.eqb_spec x z); [lia|]. lia.
Qed.
Lemma bytes_leb_antisym a b : bytes_leb a b = true -> bytes_leb b a = true -> a = b.
Proof.
  revert b. induction a as [|x a IH]; intros [|y b]; cbn; try done.
  rewrite (N.eqb_sym y x). destruct (N.eqb_spec x y) as [->|]; [|lia]. intros. f_equal. by apply IH.
Qed.

(** ** The iterator against its specification

    [w i] is the weight of the pair at [i]; [interior_max_of w a b] the largest
    weight in [a, b), zero when empty. *)

Definition interior_max_of (w : N -> N) (a b : N) : N := foldr N.max 0 (w <$> range a b).

(** The gram that starts at pair [s] and ends with pair [last > s] is emitted. *)
Definition emitted (w : N -> N) (s last : N) : bool :=
  (interior_max_of w (s + 1) last <? w s) && (interior_max_of w (s + 1) last <? w last).

Definition grams_from (w : N -> N) (pairs_ s : N) : list (N * N) :=
  (s, s + 2) :: ((fun last => (s, last + 2)) <$> filter (fun last => emitted w s last = true) (range (s + 1) pairs_)).

Definition all_ranges (w : N -> N) (pairs_ from : N) : list (N * N) :=
  mbind (grams_from w pairs_) (range from pairs_).

Lemma interior_max_snoc w a b : a <= b -> interior_max_of w a (b + 1) = N.max (interior_max_of w a b) (w b).
Proof.
  intros. unfold interior_max_of. rewrite range_snoc, fmap_app, foldr_app by done. cbn.
  rewrite N.max_0_r. generalize (w b) as x. generalize (w <$> range a b) as l.
  induction l as [|y l IH]; intros x; cbn; [lia|]. rewrite IH. lia.
Qed.
Lemma interior_max_nil w a b : b <= a -> interior_max_of w a b = 0.
Proof. intros. unfold interior_max_of. by rewrite range_nil. Qed.
Lemma interior_max_mono w a b c : a <= b -> b <= c -> interior_max_of w a b <= interior_max_of w a c.
Proof.
  intros Ha Hb. replace c with (b + (c - b)) by lia. generalize (c - b) as n. clear c Hb.
  induction n as [|n IH] using N.peano_ind; [by rewrite N.add_0_r|].
  rewrite <- N.add_1_r, N.add_assoc, interior_max_snoc by lia. lia.
Qed.

Lemma all_ranges_cons w n s : s < n -> all_ranges w n s = grams_from w n s ++ all_ranges w n (s + 1).
Proof. intros. unfold all_ranges. by rewrite range_cons. Qed.
Lemma all_ranges_nil w n s : n <= s -> all_ranges w n s = [].
Proof. intros. unfold all_ranges. by rewrite range_nil. Qed.

Lemma all_ranges_length w n s : len (all_ranges w n s) <= (n - s) * n.
Proof.
  remember (N.to_nat (n - s)) as k eqn:Hk. revert s Hk. induction k as [|k IH]; intros s Hk.
  - rewrite all_ranges_nil by lia. len_lia.
  - rewrite all_ranges_cons, len_app by lia. specialize (IH (s + 1) ltac:(lia)).
    unfold grams_from. rewrite len_cons, len_fmap.
    assert (len (filter (fun last => emitted w s last = true) (range (s + 1) n)) <= n - (s + 1)).
    { rewrite <- len_range. unfold len. pose proof (length_filter (fun last => emitted w s last = true) (range (s + 1) n)). lia. }
    nia.
Qed.

Section iterator.
Context (rapidhash_v3 : list N -> N) (n : N) (byte : N -> res N) (value : N -> N).
Context (byte_ok : forall i, i < n -> byte i = Ok (value i)).

Let weight (i : N) : N := pair_weight rapidhash_v3 (value i) (value (i + 1)).

(** A state in the middle of a start's extensions. *)
Definition extending (s : SparseGramRanges) : Prop :=
  pair_count s = n - 1 /\ start s < end_ s /\ emit_pair s = false /\
  interior_max s = interior_max_of weight (start s + 1) (end_ s - 1) /\
  start_weight s = weight (start s).

Let pending (a e : N) : list N := filter (fun last => emitted weight a last = true) (range e (n - 1)).

Lemma pending_cons a e : e < n - 1 ->
  pending a e = if emitted weight a e then e :: pending a (e + 1) else pending a (e + 1).
Proof.
  intros. unfold pending. rewrite range_cons, filter_cons by done.
  destruct (emitted weight a e); [rewrite decide_True by done|rewrite decide_False by done]; done.
Qed.

Lemma pending_stop a e :
  a < e -> weight a <= interior_max_of weight (a + 1) e -> pending a e = [].
Proof.
  intros Ha Hstop. unfold pending. apply filter_none. intros last Hl.
  apply elem_of_range in Hl. pose proof (interior_max_mono weight (a + 1) e last ltac:(lia) ltac:(lia)).
  unfold emitted. lia.
Qed.

(** One run of the inner loop returns the next pending range, or none. *)
Lemma extend_gram_spec fuel s :
  extending s -> n - 1 <= end_ s + N.of_nat fuel ->
  exists s', start s' = start s /\ pair_count s' = n - 1 /\
    match pending (start s) (end_ s) with
    | [] => extend_gram rapidhash_v3 fuel byte s = Ok (None, s')
    | last :: rest =>
        extend_gram rapidhash_v3 fuel byte s = Ok (Some (start s, last + 2), s') /\
        extending s' /\ pending (start s) (end_ s') = rest
    end.
Proof.
  revert s. induction fuel as [|fuel IH]; intros s Hs Hf; pose proof Hs as (Hp & Ha & He & Hm & Hw).
  { exists s. unfold pending. rewrite range_nil by lia. done. }
  cbn [extend_gram]. rewrite Hp. destruct (N.ltb_spec (end_ s) (n - 1)) as [Hlt|Hge].
  2: { exists s. unfold pending. rewrite range_nil by lia. done. }
  assert ((if start s + 1 <? end_ s
           then a ← byte (end_ s - 1); b ← byte (end_ s); Ok (N.max (interior_max s) (pair_weight rapidhash_v3 a b))
           else Ok (interior_max s)) = Ok (interior_max_of weight (start s + 1) (end_ s))) as ->.
  { rewrite Hm. destruct (N.ltb_spec (start s + 1) (end_ s)).
    - rewrite !byte_ok by lia. cbn. f_equal.
      assert (interior_max_of weight (start s + 1) (end_ s) =
        N.max (interior_max_of weight (start s + 1) (end_ s - 1)) (weight (end_ s - 1))) as ->.
      { replace (end_ s) with (end_ s - 1 + 1) at 1 by lia. apply interior_max_snoc. lia. }
      unfold weight. by replace (end_ s - 1 + 1) with (end_ s) by lia.
    - by rewrite !interior_max_nil by lia. }
  cbn [mbind res_bind]. set (M := interior_max_of weight (start s + 1) (end_ s)). rewrite Hw.
  destruct (N.leb_spec (weight (start s)) M) as [Hstop|Hgo].
  { rewrite pending_stop by (subst M; lia). eexists; split_and!; [| |reflexivity]; done. }
  rewrite !byte_ok by lia. cbn [mbind res_bind]. fold (weight (end_ s)).
  rewrite pending_cons by done.
  assert (extending {| pair_count := n - 1; start := start s; end_ := end_ s + 1; interior_max := M;
    start_weight := weight (start s); emit_pair := emit_pair s |}) as Hnext.
  { unfold extending; cbn. split_and!; try done; try lia. by replace (end_ s + 1 - 1) with (end_ s) by lia. }
  assert (emitted weight (start s) (end_ s) = (M <? weight (end_ s))) as ->.
  { unfold emitted. fold M. destruct (N.ltb_spec M (weight (start s))); [done|lia]. }
  destruct (M <? weight (end_ s)).
  - eexists. split_and!; [| |reflexivity|exact Hnext|]; done.
  - destruct (IH _ Hnext) as (s' & H); cbn [start end_] in *; [lia|]. exists s'. done.
Qed.

(** What the iterator still has to emit in a state. *)
Inductive emits : SparseGramRanges -> list (N * N) -> Prop :=
  | emits_pair s :
      pair_count s = n - 1 -> emit_pair s = true ->
      emits s (all_ranges weight (n - 1) (start s))
  | emits_extend s :
      extending s -> start s < n - 1 ->
      emits s (((fun last => (start s, last + 2)) <$> pending (start s) (end_ s)) ++
               all_ranges weight (n - 1) (start s + 1)).

Lemma next_emit_pair fuel s :
  pair_count s = n - 1 -> emit_pair s = true ->
  exists s', match all_ranges weight (n - 1) (start s) with
    | [] => next_with rapidhash_v3 (S fuel) byte s = Ok (None, s')
    | r :: rest => next_with rapidhash_v3 (S fuel) byte s = Ok (Some r, s') /\ emits s' rest
    end.
Proof.
  intros Hp He. cbn [next_with]. rewrite Hp. destruct (N.leb_spec (n - 1) (start s)) as [H|H].
  - rewrite all_ranges_nil by done. eauto.
  - rewrite He, !byte_ok by lia. cbn [mbind res_bind]. rewrite all_ranges_cons by done.
    unfold grams_from. cbn [app]. eexists. split; [reflexivity|].
    apply (emits_extend {| pair_count := n - 1; start := start s; end_ := start s + 1; interior_max := 0;
      start_weight := _; emit_pair := false |}); [|cbn; lia].
    unfold extending; cbn. split_and!; try done; try lia. by rewrite interior_max_nil by lia.
Qed.

Lemma next_with_spec s todo :
  emits s todo ->
  exists s', match todo with
    | [] => next_with rapidhash_v3 2 byte s = Ok (None, s')
    | r :: rest => next_with rapidhash_v3 2 byte s = Ok (Some r, s') /\ emits s' rest
    end.
Proof.
  intros [s' Hp He|s' Hs Hlt]; [by apply next_emit_pair|].
  pose proof Hs as (Hp & Ha & He & Hm & Hw).
  remember 1%nat as one eqn:Hone. cbn [next_with]. rewrite Hp, He.
  destruct (N.leb_spec (n - 1) (start s')); [lia|].
  destruct (extend_gram_spec (N.to_nat (n - 1 - end_ s')) s') as (s2 & Hst & Hp2 & H2); [done|lia|].
  destruct (pending (start s') (end_ s')) as [|last rest].
  - rewrite H2. cbn [mbind res_bind fmap list_fmap app]. subst one.
    set (s3 := {| pair_count := pair_count s2; start := start s2 + 1; end_ := end_ s2;
      interior_max := interior_max s2; start_weight := start_weight s2; emit_pair := true |}).
    destruct (next_emit_pair 0 s3) as (s4 & H4); [done|done|].
    subst s3. cbn [start] in H4. rewrite Hst in H4 |- *. exists s4. exact H4.
  - destruct H2 as (-> & Hs2 & Hrest). cbn [mbind res_bind fmap list_fmap app].
    exists s2. split; [done|]. subst rest. rewrite <- Hst. apply emits_extend; [done|]. lia.
Qed.

Lemma collect_ranges_spec fuel s todo :
  emits s todo -> (length todo < fuel)%nat -> collect_ranges rapidhash_v3 fuel byte s = Ok todo.
Proof.
  revert s todo. induction fuel as [|fuel IH]; intros s todo Hs Hf; [lia|]. cbn [collect_ranges].
  destruct (next_with_spec s todo Hs) as (s' & H). destruct todo as [|r rest].
  - rewrite H. done.
  - destruct H as [-> Hs']. cbn [mbind res_bind]. rewrite (IH s' rest Hs') by (cbn in Hf; lia). done.
Qed.

Lemma iterate_ranges_eq :
  iterate_sparse_gram_ranges rapidhash_v3 n byte = Ok (all_ranges weight (n - 1) 0).
Proof.
  unfold iterate_sparse_gram_ranges. apply collect_ranges_spec.
  - by apply (emits_pair (start_sparse_gram_ranges n)).
  - pose proof (all_ranges_length weight (n - 1) 0) as H. unfold len in H. nia.
Qed.
End iterator.

(** ** The index-side gram set of a document *)

Section document.
Context (rapidhash_v3 : list N -> N).

Definition byte_at (data : list N) (i : N) : N := default 0 (get data i).
Definition weight_at (data : list N) (i : N) : N :=
  pair_weight rapidhash_v3 (byte_at data i) (byte_at data (i + 1)).

Lemma get_byte_at data i : i < len data -> get data i = Some (byte_at data i).
Proof. intros H. unfold byte_at. destruct (get_is_Some data i H) as [x ->]. done. Qed.

Lemma elem_of_all_ranges w n a e :
  (a, e) ∈ all_ranges w n 0 <->
  a < n /\ (e = a + 2 \/ exists last, e = last + 2 /\ a < last < n /\ emitted w a last = true).
Proof.
  unfold all_ranges. rewrite list_elem_of_bind. setoid_rewrite elem_of_range.
  unfold grams_from. setoid_rewrite elem_of_cons. setoid_rewrite list_elem_of_fmap.
  setoid_rewrite list_elem_of_filter. setoid_rewrite elem_of_range. split.
  - intros (s & [[= -> ->]|(last & [= -> ->] & ? & ?)] & ?); (split; [lia|]); [by left|].
    right. exists last. split_and!; [done|lia|lia|done].
  - intros [? [->|(last & -> & ? & ?)]]; exists a; (split; [|lia]); [by left|].
    right. exists last. split_and!; [done|done|lia|lia].
Qed.

Lemma iterate_sparse_grams_ok data :
  exists grams, iterate_sparse_grams rapidhash_v3 data = Ok grams /\
  forall g, g ∈ grams <-> exists a e,
    (a, e) ∈ all_ranges (weight_at data) (len data - 1) 0 /\ get_range data a e = Some g.
Proof.
  unfold iterate_sparse_grams.
  rewrite (iterate_ranges_eq rapidhash_v3 (len data) _ (byte_at data)).
  2: { intros i Hi. by rewrite get_byte_at. }
  cbn [mbind res_bind].
  change (λ i : N, pair_weight _ _ _) with (weight_at data).
  assert (forall r, r ∈ all_ranges (weight_at data) (len data - 1) 0 -> exists g, get_range data r.1 r.2 = Some g) as Hr.
  { intros [a e] Hin. apply elem_of_all_ranges in Hin as [Ha Hin]. cbn. unfold get_range.
    destruct (N.leb_spec a e), (N.leb_spec e (len data)); cbn; try (by eauto); exfalso;
      destruct Hin as [->|(? & -> & ? & ?)]; lia. }
  revert Hr. induction (all_ranges _ _ _) as [|[a e] l IH]; intros Hr.
  { exists []. split; [done|]. intros g. set_solver. }
  destruct IH as (grams & IH & Hg); [intros; apply Hr; by right|].
  destruct (Hr (a, e)) as [g0 Hg0]; [by left|]. cbn in Hg0.
  exists (g0 :: grams). cbn [mapM_res]. rewrite Hg0. cbn [expect mbind res_bind]. rewrite IH.
  split; [done|]. intros g. rewrite elem_of_cons, Hg. split.
  - intros [->|(a' & e' & ? & ?)]; [exists a, e; split; [by left|done]|]. exists a', e'. split; [by right|done].
  - intros (a' & e' & [[= -> ->]|?]%elem_of_cons & ?); [left; congruence|]. right. eauto.
Qed.

Lemma elem_of_sparse_all data :
  exists grams, sparse_grams_all_bytes rapidhash_v3 data = Ok grams /\
  forall g, g ∈ grams <-> exists a e,
    (a, e) ∈ all_ranges (weight_at data) (len data - 1) 0 /\ get_range data a e = Some g.
Proof.
  unfold sparse_grams_all_bytes. destruct (iterate_sparse_grams_ok data) as (grams & -> & Hg).
  cbn [mbind res_bind]. eexists. split; [reflexivity|]. intros g.
  by rewrite elem_of_dedup, elem_of_sort_by, Hg.
Qed.

(** ** The covering set only lists indexed grams *)

Lemma pair_weights_cons x y l :
  pair_weights rapidhash_v3 (x :: y :: l) = pair_weight rapidhash_v3 x y :: pair_weights rapidhash_v3 (y :: l).
Proof. done. Qed.

Lemma pair_weights_len data : len (pair_weights rapidhash_v3 data) = len data - 1.
Proof.
  induction data as [|x [|y l] IH]; [done|done|].
  rewrite pair_weights_cons, len_cons, IH, !len_cons. lia.
Qed.

Lemma get_pair_weights data i :
  i < len data - 1 -> get (pair_weights rapidhash_v3 data) i = Some (weight_at data i).
Proof.
  unfold weight_at, byte_at, get. replace (N.to_nat (i + 1)) with (S (N.to_nat i)) by lia.
  intros Hi. assert (S (N.to_nat i) < length data)%nat as Hk by (unfold len in Hi; lia). clear Hi.
  revert Hk. generalize (N.to_nat i) as k. clear i.
  induction data as [|x [|y l] IH]; intros k Hk; [cbn in Hk; lia|cbn in Hk; lia|].
  rewrite pair_weights_cons. destruct k as [|k]; [done|].
  change ((?z :: pair_weights rapidhash_v3 (y :: l)) !! S k) with (pair_weights rapidhash_v3 (y :: l) !! k).
  rewrite IH by (cbn in Hk |- *; lia). done.
Qed.

Lemma weights_range data a b :
  a <= b -> b <= len data - 1 ->
  get_range (pair_weights rapidhash_v3 data) a b = Some (weight_at data <$> range a b).
Proof.
  intros Ha Hb. apply get_range_Some. rewrite pair_weights_len. split_and!; [done|done|].
  apply list_eq. intros k. rewrite list_lookup_fmap. unfold range. rewrite list_lookup_fmap.
  destruct (decide (k < N.to_nat (b - a))%nat).
  - rewrite lookup_take_lt, lookup_drop, lookup_seq_lt by done. cbn.
    pose proof (get_pair_weights data (a + N.of_nat k) ltac:(lia)) as H. unfold get in H.
    rewrite <- H. f_equal. lia.
  - rewrite lookup_take_ge, lookup_seq_ge by lia. done.
Qed.

(** [is_indexed_gram] mirrors the iterator. *)
Lemma is_indexed_gram_spec data a e :
  a + 2 <= e -> e <= len data ->
  exists keep, is_indexed_gram (pair_weights rapidhash_v3 data) a e = Ok keep /\
    (keep = true <-> (a, e) ∈ all_ranges (weight_at data) (len data - 1) 0).
Proof.
  intros Ha He. unfold is_indexed_gram. destruct (N.eqb_spec (e - 2) a).
  { exists true. split; [done|]. split; [|done]. intros _. apply elem_of_all_ranges. split; [lia|]. left. lia. }
  rewrite weights_range by lia. cbn [expect mbind res_bind]. unfold index_weight.
  rewrite !get_pair_weights by lia. cbn [expect mbind res_bind].
  fold (interior_max_of (weight_at data) (a + 1) (e - 2)).
  exists (emitted (weight_at data) a (e - 2)). split; [unfold emitted; by destruct (_ <? _)|].
  rewrite elem_of_all_ranges. split.
  - intros. split; [lia|]. right. exists (e - 2). split_and!; [lia|lia|lia|done].
  - intros [? [->|(last & -> & ? & H)]]; [lia|]. by replace (last + 2 - 2) with last by lia.
Qed.

Section covering.
Context (data : list N).

Let weights : list N := pair_weights rapidhash_v3 data.

Definition indexed (g : list N) : Prop := exists a e,
  (a, e) ∈ all_ranges (weight_at data) (len data - 1) 0 /\ get_range data a e = Some g.

Lemma index_weight_ok i : i < len data - 1 -> index_weight weights i = Ok (weight_at data i).
Proof. intros. unfold index_weight, weights. by rewrite get_pair_weights. Qed.

(** Both loops keep the stack strictly descending from the top. *)
Definition descending : list N -> Prop := StronglySorted (fun a b => b < a).

Lemma push_gram_spec out a e :
  a + 2 <= e -> e <= len data -> Forall indexed out ->
  exists out', push_gram data weights out a e = Ok out' /\ Forall indexed out' /\
    (out <> [] \/ e = a + 2 -> out' <> []).
Proof.
  intros Ha He Hout. destruct (is_indexed_gram_spec data a e Ha He) as (keep & Hk & Hin).
  unfold push_gram. fold weights in Hk. rewrite Hk. cbn [mbind res_bind]. destruct keep.
  - destruct (get_range_is_Some data a e) as [g Hg]; [lia|done|]. rewrite Hg.
    cbn [expect mbind res_bind]. eexists. split_and!; [done| |intros _ ?%app_eq_nil; naive_solver].
    apply Forall_app. split; [done|]. constructor; [|done]. exists a, e. split; [by apply Hin|done].
  - exists out. split_and!; [done|done|]. intros [?| ->]; [done|].
    exfalso. assert (false = true); [|done]. apply Hin, elem_of_all_ranges. split; [lia|by left].
Qed.

Lemma pop_stack_spec i out stack :
  i < len data - 1 -> Forall indexed out -> descending stack -> Forall (fun s => s < i) stack ->
  exists out' stack', pop_stack data weights i (weight_at data i) out stack = Ok (out', stack') /\
    Forall indexed out' /\ descending stack' /\ Forall (fun s => s < i) stack'.
Proof.
  intros Hi Hout Hs Hb. revert out Hout. induction Hs as [|top rest Hrest IH Htop]; intros out Hout.
  { exists out, []. repeat constructor. done. }
  inversion Hb as [|? ? Htopi Hresti]; subst. cbn [pop_stack].
  rewrite index_weight_ok by lia. cbn [mbind res_bind].
  destruct (_ <=? _); [|exists out, (top :: rest); split_and!; [done|done|by constructor|by constructor]].
  destruct (push_gram_spec out top (i + 2)) as (out' & -> & Hout' & _); [lia|lia|done|].
  cbn [mbind res_bind]. destruct (_ =? _); [exists out', rest; done|]. by apply IH.
Qed.

Lemma cover_loop_spec k n out stack :
  k <= n -> n <= len data - 1 ->
  Forall indexed out -> descending stack -> Forall (fun s => s < k) stack ->
  exists out' stack', foldM (cover_step data weights) (out, stack) (range k n) = Ok (out', stack') /\
    Forall indexed out' /\ descending stack' /\ Forall (fun s => s < n) stack' /\
    (k < n -> stack' <> []) /\ (stack <> [] -> stack' <> []).
Proof.
  remember (N.to_nat (n - k)) as m eqn:Hm. revert k out stack Hm.
  induction m as [|m IH]; intros k out stack Hm Hk Hn Hout Hs Hb.
  { rewrite range_nil by lia. exists out, stack. replace n with k by lia. split_and!; try done; lia. }
  rewrite range_cons by lia. cbn [foldM].
  destruct (pop_stack_spec k out stack) as (out1 & stack1 & Hpop & Hout1 & Hs1 & Hb1); [lia|done|done|done|].
  assert (cover_step data weights (out, stack) k = Ok (out1, k :: stack1)) as ->.
  { unfold cover_step. rewrite index_weight_ok by lia. cbn [mbind res_bind]. by rewrite Hpop. }
  cbn [mbind res_bind].
  destruct (IH (k + 1) out1 (k :: stack1)) as (out' & stack' & H' & ? & ? & ? & _ & Hne);
    [lia|lia|lia|done| |by constructor; [lia|eapply Forall_impl; [exact Hb1|]; cbn; intros; lia]|].
  { constructor; [done|]. eapply Forall_impl; [exact Hb1|]. cbn. intros; lia. }
  exists out', stack'. rewrite H'. split_and!; try done; intros _; by apply Hne.
Qed.

Lemma drain_stack_spec out stack :
  Forall indexed out -> descending stack -> Forall (fun s => s < len data - 1) stack ->
  exists out', drain_stack data weights out stack = Ok out' /\ Forall indexed out' /\
    (stack <> [] -> out' <> []).
Proof.
  intros Hout Hs Hb. revert out Hout. induction Hs as [|top rest Hrest IH Htop]; intros out Hout.
  { exists out. done. }
  inversion Hb; subst. destruct rest as [|prev rest]; cbn [drain_stack].
  - destruct (push_gram_spec out top (top + 2)) as (out' & ? & ? & Hne); [lia|lia|done|].
    exists out'. split_and!; [done|done|]. intros _. apply Hne. by right.
  - inversion Htop; subst. cbn [drain_stack] in IH.
    destruct (push_gram_spec out prev (top + 2)) as (out1 & -> & ? & _); [lia|lia|done|].
    cbn [mbind res_bind]. destruct (IH ltac:(done) out1) as (out' & ? & ? & Hne); [done|].
    exists out'. split_and!; [done|done|]. intros _. by apply Hne.
Qed.

Lemma covering_spec :
  exists grams, sparse_grams_covering_bytes rapidhash_v3 data = Ok grams /\
    (forall g, g ∈ grams -> indexed g) /\ (2 <= len data -> grams <> []).
Proof.
  unfold sparse_grams_covering_bytes. destruct (N.ltb_spec (len data) 2).
  { exists []. split_and!; [done|set_solver|lia]. }
  fold weights. replace (len weights) with (len data - 1) by (symmetry; apply pair_weights_len).
  destruct (cover_loop_spec 0 (len data - 1) [] []) as (out & stack & -> & Hout & Hs & Hb & Hne & _);
    [lia|lia|done|constructor|done|].
  cbn [mbind res_bind].
  destruct (drain_stack_spec out stack) as (out' & -> & Hout' & Hne'); [done|done|done|].
  cbn [mbind res_bind]. eexists. split_and!; [done| |].
  - intros g. rewrite elem_of_dedup, elem_of_sort_by. by apply Forall_forall.
  - intros _ Hnil. destruct out' as [|g out']; [apply Hne'; [apply Hne; lia|done]|].
    assert (g ∈ dedup (sort_by bytes_leb (g :: out'))) as Hg by (rewrite elem_of_dedup, elem_of_sort_by; left).
    rewrite Hnil in Hg. set_solver.
Qed.
End covering.

(** ** A substring's indexed grams are the document's *)

Lemma byte_at_infix pre p post i :
  i < len p -> byte_at (pre ++ p ++ post) (len pre + i) = byte_at p i.
Proof.
  intros Hi. unfold byte_at, get. unfold len in *.
  rewrite lookup_app_r by lia. rewrite lookup_app_l by lia. do 2 f_equal. lia.
Qed.

Lemma interior_max_shift w1 w2 k a b :
  (forall i, a <= i < b -> w1 (k + i) = w2 i) -> interior_max_of w1 (k + a) (k + b) = interior_max_of w2 a b.
Proof.
  intros H. unfold interior_max_of. f_equal.
  assert (range (k + a) (k + b) = N.add k <$> range a b) as ->.
  { unfold range. rewrite <- list_fmap_compose. replace (k + b - (k + a)) with (b - a) by lia.
    apply list_fmap_ext. intros. cbn. lia. }
  rewrite <- list_fmap_compose. apply list_fmap_ext. intros i x Hx. apply H.
  apply elem_of_range. by eapply list_elem_of_lookup_2.
Qed.

Lemma indexed_infix pre p post g : indexed p g -> indexed (pre ++ p ++ post) g.
Proof.
  intros (a & e & Hin & Hg). apply get_range_Some in Hg as (Hae & He & ->).
  apply elem_of_all_ranges in Hin as [Ha Hin].
  assert (forall i, i < len p - 1 -> weight_at (pre ++ p ++ post) (len pre + i) = weight_at p i) as Hw.
  { intros i Hi. unfold weight_at. rewrite <- N.add_assoc, !byte_at_infix by lia. done. }
  exists (len pre + a), (len pre + e). split.
  - apply elem_of_all_ranges. rewrite !len_app. split; [lia|].
    destruct Hin as [->|(last & -> & Hlast & Hem)]; [left; lia|]. right.
    exists (len pre + last). split_and!; [lia|lia|lia|].
    unfold emitted in *. rewrite <- N.add_assoc, (interior_max_shift _ (weight_at p)), !Hw by (try intros; try apply Hw; lia). done.
  - apply get_range_Some. rewrite !len_app. split_and!; [lia|lia|].
    replace (len pre + e - (len pre + a)) with (e - a) by lia.
    unfold len in *. rewrite (drop_app_ge pre) by lia.
    replace (N.to_nat (N.of_nat (length pre) + a) - length pre)%nat with (N.to_nat a) by lia.
    rewrite drop_app_le by lia. rewrite take_app_le; [done|]. rewrite length_drop. lia.
Qed.
End document.

(** ** Theorems *)

Lemma elem_of_trigram_grams radsort `{!SortsN radsort} data g :
  Forall is_byte data ->
  g ∈ trigram_grams_bytes radsort data <->
  exists i a b c, g = [a; b; c] /\
    get data i = Some a /\ get data (i + 1) = Some b /\ get data (i + 2) = Some c.
Proof.
  intros Hd. unfold trigram_grams_bytes. rewrite list_elem_of_fmap.
  setoid_rewrite elem_of_pack_trigram_grams; [|done|done]. rewrite Forall_forall in Hd. split.
  - intros (? & -> & i & a & b & c & -> & Ha & Hb & Hc). exists i, a, b, c. split; [|done].
    apply unpack_window; apply Hd; by eapply get_elem.
  - intros (i & a & b & c & -> & Ha & Hb & Hc). exists (pack_window (a, b, c)). split; [|eauto 10].
    symmetry. apply unpack_window; apply Hd; by eapply get_elem.
Qed.

Lemma get_infix {A} (pre p post : list A) i x : get p i = Some x -> get (pre ++ p ++ post) (len pre + i) = Some x.
Proof.
  intros Hi. pose proof (get_Some_lt _ _ _ Hi). unfold get, len in *.
  rewrite lookup_app_r by lia. rewrite lookup_app_l by lia. rewrite <- Hi. f_equal. lia.
Qed.

Section entry_points.
Context (rapidhash_v3 : list N -> N) (radsort : list N -> list N) (s : Strategy).

Lemma grams_query_total p : exists query, grams_query rapidhash_v3 radsort p s = Ok query.
Proof.
  destruct s; cbn [grams_query]; [eauto|]. destruct (covering_spec rapidhash_v3 p) as (query & ? & _). eauto.
Qed.
Lemma grams_index_total p : exists index, grams_index rapidhash_v3 radsort p s = Ok index.
Proof.
  destruct s; cbn [grams_index]; [eauto|]. destruct (elem_of_sparse_all rapidhash_v3 p) as (index & ? & _). eauto.
Qed.

Lemma grams_subset `{!SortsN radsort} pre p post query index g :
  Forall is_byte (pre ++ p ++ post) ->
  grams_query rapidhash_v3 radsort p s = Ok query ->
  grams_index rapidhash_v3 radsort (pre ++ p ++ post) s = Ok index ->
  g ∈ query -> g ∈ index.
Proof.
  intros Hd. assert (Forall is_byte p) as Hp by (rewrite !Forall_app in Hd; tauto).
  destruct s; cbn [grams_query grams_index].
  - intros [= <-] [= <-]. rewrite !elem_of_trigram_grams by done. intros (i & a & b & c & -> & Ha & Hb & Hc).
    exists (len pre + i), a, b, c. split; [done|]. rewrite <- !N.add_assoc.
    split_and!; by apply get_infix.
  - destruct (covering_spec rapidhash_v3 p) as (? & -> & Hsub & _).
    destruct (elem_of_sparse_all rapidhash_v3 (pre ++ p ++ post)) as (? & -> & Hin).
    intros [= <-] [= <-] Hg. apply Hin. by apply indexed_infix, Hsub.
Qed.

Lemma grams_query_nonempty `{!SortsN radsort} p query :
  Forall is_byte p -> grams_query rapidhash_v3 radsort p s = Ok query -> 3 <= len p -> query <> [].
Proof.
  intros Hp. destruct s; cbn [grams_query].
  - intros [= <-] Hlen Hnil. destruct p as [|a [|b [|c p]]]; try (vm_compute in Hlen; done).
    assert ([a; b; c] ∈ trigram_grams_bytes radsort (a :: b :: c :: p)) as Hin.
    { apply elem_of_trigram_grams; [done|done|]. by exists 0, a, b, c. }
    rewrite Hnil in Hin. set_solver.
  - destruct (covering_spec rapidhash_v3 p) as (? & -> & _ & Hne). intros [= <-] ?. apply Hne. lia.
Qed.
End entry_points.

(** The resumable iterator is total and emits exactly the ranges that
    [is_indexed_gram] accepts: every pair, and every longer range whose two
    boundary weights exceed all interior ones. *)
Theorem iterate_sparse_gram_ranges_exact rapidhash_v3 data :
  exists ranges,
    iterate_sparse_gram_ranges rapidhash_v3 (len data)
      (fun index => expect (get data index) "index out of bounds") = Ok ranges /\
    forall a e, (a, e) ∈ ranges <->
      a + 2 <= e /\ e <= len data /\ is_indexed_gram (pair_weights rapidhash_v3 data) a e = Ok true.
Proof.
  rewrite (iterate_ranges_eq rapidhash_v3 (len data) _ (byte_at data)).
  2: { intros i Hi. by rewrite get_byte_at. }
  change (λ i : N, pair_weight _ _ _) with (weight_at rapidhash_v3 data).
  eexists. split; [reflexivity|]. intros a e. split.
  - intros Hin. pose proof Hin as Hin'. apply elem_of_all_ranges in Hin' as [Ha Hin'].
    assert (a + 2 <= e /\ e <= len data) as [Hae He] by (destruct Hin' as [->|(? & -> & ? & ?)]; lia).
    destruct (is_indexed_gram_spec rapidhash_v3 data a e Hae He) as (keep & -> & Hk).
    split_and!; [done|done|]. by rewrite (proj2 Hk Hin).
  - intros (Hae & He & Hk). destruct (is_indexed_gram_spec rapidhash_v3 data a e Hae He) as (keep & Hk' & Hi).
    apply Hi. congruence.
Qed.

(** C11: no false negative at the gram level.  For both strategies, whatever a
    query extracts from a byte string [p] without panicking, indexing extracts
    from every document that contains [p]; and a string long enough to hold a
    gram yields at least one. *)
Theorem grams_query_subset rapidhash_v3 radsort `{!SortsN radsort} s pre p post :
  Forall is_byte (pre ++ p ++ post) ->
  exists query index,
    grams_query rapidhash_v3 radsort p s = Ok query /\
    grams_index rapidhash_v3 radsort (pre ++ p ++ post) s = Ok index /\
    (forall gram, gram ∈ query -> gram ∈ index) /\
    (3 <= len p -> query <> []).
Proof.
  intros Hd. destruct (grams_query_total rapidhash_v3 radsort s p) as [query Hq].
  destruct (grams_index_total rapidhash_v3 radsort s (pre ++ p ++ post)) as [index Hi].
  exists query, index. split_and!; [done|done| |].
  - intros gram. by eapply grams_subset.
  - apply (grams_query_nonempty rapidhash_v3 radsort s p query); [|exact Hq]. rewrite !Forall_app in Hd. tauto.
Qed.

(** ** Witness: a hash that weighs pairs by their bytes *)

Definition sum_hash (bytes : list N) : N := foldr (fun b acc => b * 31 + acc * 7) 0 bytes.

Lemma grams_query_subset_witness :
  grams_query sum_hash sort_N [98; 99; 97; 100] Sparse = Ok [[97; 100]; [98; 99; 97; 100]; [99; 97; 100]] /\
  exists query index,
    grams_query sum_hash sort_N [98; 99; 97; 100] Sparse = Ok query /\
    grams_index sum_hash sort_N ([97] ++ [98; 99; 97; 100] ++ [98]) Sparse = Ok index /\
    (forall gram, gram ∈ query -> gram ∈ index) /\ (3 <= len [98; 99; 97; 100] -> query <> []).
Proof.
  split; [vm_compute; reflexivity|].
  apply (grams_query_subset sum_hash sort_N Sparse [97] [98; 99; 97; 100] [98]). repeat constructor.
Defined.
