(* ===== verification/QueryPlan.v ===== *)
(** * Query planning (crates/query/src/lib.rs)

    A regex becomes a boolean combination of grams that every matching
    document must satisfy.  [regex_syntax] is third-party: the class
    [RegexSyntax] holds the operations the planner calls, [RegexSyntaxOk] their
    documented behaviour with respect to an abstract match relation.  The main
    theorem says planning never loses a match. *)

From S2P Require Import Prelude BitPack Trigrams SparseGrams.

Inductive Query : Type :=
  | QAll
  | QAnd (children : list Query)
  | QOr (children : list Query)
  | QGram (gram : list N).

(** The structural induction principle with the nested lists. *)
Section query_ind.
Context (P : Query -> Prop).
Context (HAll : P QAll) (HAnd : forall qs, Forall P qs -> P (QAnd qs))
  (HOr : forall qs, Forall P qs -> P (QOr qs)) (HGram : forall g, P (QGram g)).
Fixpoint query_ind' (q : Query) : P q :=
  let fix go (qs : list Query) : Forall P qs :=
    match qs with [] => Forall_nil_2 P | q :: qs => Forall_cons_2 P q qs (query_ind' q) (go qs) end in
  match q with
  | QAll => HAll
  | QAnd qs => HAnd qs (go qs)
  | QOr qs => HOr qs (go qs)
  | QGram g => HGram g
  end.
End query_ind.

(** [derive(PartialEq, Eq)] *)
Fixpoint query_eqb (x y : Query) : bool :=
  match x, y with
  | QAll, QAll => true
  | QAnd xs, QAnd ys => list_eqb query_eqb xs ys
  | QOr xs, QOr ys => list_eqb query_eqb xs ys
  | QGram g, QGram h => bool_decide (g = h)
  | _, _ => false
  end.

Lemma query_eqb_eq x y : query_eqb x y = true <-> x = y.
Proof.
  revert y. induction x as [|xs IH|xs IH|g] using query_ind'; intros [|ys|ys|h]; cbn [query_eqb];
    rewrite ?bool_decide_eq_true, ?list_eqb_eq by done; split; congruence.
Qed.

#[export] Instance Query_eq_dec : EqDecision Query.
Proof.
  intros x y. destruct (query_eqb x y) eqn:E; [left|right].
  - by apply query_eqb_eq.
  - intros H%query_eqb_eq. congruence.
Defined.

(** [regex_syntax::hir::HirKind], as far as the planner looks at it. *)
Inductive HirKind (Hir : Type) : Type :=
  | Concat (children : list Hir)
  | Alternation (alternatives : list Hir)
  | Capture (sub : Hir)
  | Repetition (min : N) (sub : Hir)
  | OtherKind.
Arguments Concat {Hir} children.
Arguments Alternation {Hir} alternatives.
Arguments Capture {Hir} sub.
Arguments Repetition {Hir} min sub.
Arguments OtherKind {Hir}.

(** [regex_syntax]: the view of an expression, its (finite) nesting depth, and
    the literals of a prefix or suffix extraction, [None] when infinite. *)
Class RegexSyntax (Hir : Type) : Type := {
  hir_kind : Hir -> HirKind Hir;
  hir_depth : Hir -> nat;
  extract_prefixes : Hir -> option (list (list N));
  extract_suffixes : Hir -> option (list (list N));
  parse : list N -> res Hir;
}.

Section plan.
Context (rapidhash_v3 : list N -> N) (radsort : list N -> list N) `{RegexSyntax Hir}.

Definition lit_query (lit : list N) (s : Strategy) : res Query :=
  grams ← grams_query rapidhash_v3 radsort lit s;
  Ok (match grams with [] => QAll | _ => QAnd (QGram <$> grams) end).

Definition side_query (seq : option (list (list N))) (strategy : Strategy) : res (option Query) :=
  match seq with
  | None => Ok None
  | Some [] => Ok None
  | Some literals =>
      branches ← mapM_res (fun l => lit_query l strategy) literals;
      Ok (if bool_decide (QAll ∈ branches) then None else Some (QOr branches))
  end.

(** The [unique] loop. *)
Fixpoint unique_parts (parts unique : list Query) : list Query :=
  match parts with
  | [] => unique
  | part :: parts =>
      unique_parts parts
        (if bool_decide (part <> QAll) && negb (bool_decide (part ∈ unique)) then unique ++ [part] else unique)
  end.

Definition option_list {A} (o : option A) : list A := match o with Some a => [a] | None => [] end.

(** [hir_query]: structural recursion on a third-party tree, by its depth. *)
Fixpoint hir_query_fuel (fuel : nat) (hir : Hir) (strategy : Strategy) : res Query :=
  match fuel with
  | O => Panic "hir_query: out of fuel"
  | S fuel =>
      prefix ← side_query (extract_prefixes hir) strategy;
      suffix ← side_query (extract_suffixes hir) strategy;
      let parts := option_list prefix ++ option_list suffix in
      parts ← (match hir_kind hir with
        | Concat children =>
            qs ← mapM_res (fun child => hir_query_fuel fuel child strategy) children;
            Ok (parts ++ qs)
        | Alternation alternatives =>
            branches ← mapM_res (fun alt => hir_query_fuel fuel alt strategy) alternatives;
            Ok (if bool_decide (QAll ∈ branches) then parts else parts ++ [QOr branches])
        | Capture sub => q ← hir_query_fuel fuel sub strategy; Ok (parts ++ [q])
        | Repetition min sub =>
            if 1 <=? min then q ← hir_query_fuel fuel sub strategy; Ok (parts ++ [q]) else Ok parts
        | OtherKind => Ok parts
        end);
      let unique := unique_parts parts [] in
      Ok (match unique with
          | [] => QAll
          | [q] => q
          | _ => QAnd unique
          end)
  end.

Definition hir_query (hir : Hir) (strategy : Strategy) : res Query :=
  hir_query_fuel (S (hir_depth hir)) hir strategy.

Definition plan_hir (hir : Hir) (strategy : Strategy) : res Query := hir_query hir strategy.

Definition plan (pattern : list N) (strategy : Strategy) : res Query :=
  hir ← parse pattern; plan_hir hir strategy.
End plan.

(** ** Satisfaction *)

(** Whether a document with a given gram set can match. *)
Fixpoint satisfied (has : list N -> bool) (q : Query) : bool :=
  match q with
  | QAll => true
  | QAnd qs => forallb (satisfied has) qs
  | QOr qs => existsb (satisfied has) qs
  | QGram g => has g
  end.

Lemma unique_parts_satisfied has parts unique :
  (forall q, q ∈ parts \/ q ∈ unique -> satisfied has q = true) ->
  forall q, q ∈ unique_parts parts unique -> satisfied has q = true.
Proof.
  revert unique. induction parts as [|p parts IH]; intros unique Hq; cbn [unique_parts].
  - intros q ?. apply Hq. by right.
  - apply IH. intros q [?|Hin]; [apply Hq; left; by right|].
    destruct (_ && _); [|apply Hq; by right].
    apply elem_of_app in Hin as [?| ->%list_elem_of_singleton]; apply Hq; [by right|left; left].
Qed.

(** [regex_syntax]'s documented behaviour.  [matches h t]: the expression [h]
    can match the text [t]. *)
Class RegexSyntaxOk (Hir : Type) `{RegexSyntax Hir} (matches : Hir -> list N -> Prop) : Prop := {
  concat_ok : forall h hs t c, hir_kind h = Concat hs -> matches h t -> c ∈ hs ->
    exists a u b, t = a ++ u ++ b /\ matches c u;
  concat_depth : forall h hs c, hir_kind h = Concat hs -> c ∈ hs -> (hir_depth c < hir_depth h)%nat;
  alternation_ok : forall h hs t, hir_kind h = Alternation hs -> matches h t -> exists c, c ∈ hs /\ matches c t;
  alternation_depth : forall h hs c, hir_kind h = Alternation hs -> c ∈ hs -> (hir_depth c < hir_depth h)%nat;
  capture_ok : forall h c t, hir_kind h = Capture c -> matches h t -> matches c t;
  capture_depth : forall h c, hir_kind h = Capture c -> (hir_depth c < hir_depth h)%nat;
  repetition_ok : forall h n c t, hir_kind h = Repetition n c -> 1 <= n -> matches h t ->
    exists a u b, t = a ++ u ++ b /\ matches c u;
  repetition_depth : forall h n c, hir_kind h = Repetition n c -> (hir_depth c < hir_depth h)%nat;
  prefixes_ok : forall h lits t, extract_prefixes h = Some lits -> matches h t ->
    exists lit rest, lit ∈ lits /\ t = lit ++ rest;
  suffixes_ok : forall h lits t, extract_suffixes h = Some lits -> matches h t ->
    exists lit rest, lit ∈ lits /\ t = rest ++ lit;
}.

(** ** Soundness *)

Section soundness.
Context (rapidhash_v3 : list N -> N) (radsort : list N -> list N) (strategy : Strategy).

(** A gram set that holds the query grams of every substring of a text. *)
Definition covers (has : list N -> bool) (t : list N) : Prop :=
  forall a u b grams g, t = a ++ u ++ b ->
    grams_query rapidhash_v3 radsort u strategy = Ok grams -> g ∈ grams -> has g = true.

Lemma covers_infix has a u b : covers has (a ++ u ++ b) -> covers has u.
Proof.
  intros Hc a' u' b' grams g -> Hg Hin. eapply (Hc (a ++ a') u' (b' ++ b)); [|done|done].
  by rewrite <- !app_assoc.
Qed.

Lemma lit_query_ok lit :
  exists q, lit_query rapidhash_v3 radsort lit strategy = Ok q /\
    forall has a b, covers has (a ++ lit ++ b) -> satisfied has q = true.
Proof.
  unfold lit_query. destruct (grams_query_total rapidhash_v3 radsort strategy lit) as (grams & Hg). rewrite Hg. cbn [mbind res_bind].
  eexists. split; [done|]. intros has a b Hc. destruct grams as [|g0 grams0] eqn:E; [done|]. rewrite <- E.
  cbn [satisfied]. apply forallb_elem. intros q (g' & -> & Hin)%list_elem_of_fmap. cbn.
  eapply Hc; [done|exact Hg|]. congruence.
Qed.

Lemma side_query_ok seq :
  exists o, side_query rapidhash_v3 radsort seq strategy = Ok o /\
    forall q has, o = Some q ->
      (exists lits lit a b, seq = Some lits /\ lit ∈ lits /\ covers has (a ++ lit ++ b)) ->
      satisfied has q = true.
Proof.
  unfold side_query. destruct seq as [[|l0 lits0]|]; [by exists None|set (lits := l0 :: lits0); clearbody lits|by exists None].
  destruct (mapM_res_total (fun l => lit_query rapidhash_v3 radsort l strategy)
    (fun lit q => forall has a b, covers has (a ++ lit ++ b) -> satisfied has q = true) lits) as (branches & -> & Hb).
  { intros; apply lit_query_ok. }
  cbn [mbind res_bind]. eexists. split; [done|]. intros q has Hq (lits' & lit & a & b & [= <-] & Hin & Hc).
  destruct (bool_decide _); [done|]. injection Hq as <-. cbn [satisfied]. apply existsb_elem.
  destruct (proj1 (list_elem_of_lookup lits lit) Hin) as [i Hi].
  destruct (Forall2_lookup_l _ _ _ _ _ Hb Hi) as (q & Hq & Hs).
  exists q. split; [by eapply list_elem_of_lookup_2|]. by eapply Hs.
Qed.

Context `{RegexSyntaxOk Hir matches}.

Definition sound (h : Hir) (q : Query) : Prop :=
  forall has t, matches h t -> covers has t -> satisfied has q = true.

Lemma ends_ok h :
  exists prefix suffix,
    side_query rapidhash_v3 radsort (extract_prefixes h) strategy = Ok prefix /\
    side_query rapidhash_v3 radsort (extract_suffixes h) strategy = Ok suffix /\
    Forall (sound h) (option_list prefix ++ option_list suffix).
Proof.
  destruct (side_query_ok (extract_prefixes h)) as (prefix & Hp & Hpre).
  destruct (side_query_ok (extract_suffixes h)) as (suffix & Hs & Hsuf).
  exists prefix, suffix. split_and!; [done|done|]. apply Forall_app. split.
  - destruct prefix as [q|]; constructor; [|done]. intros has t Hm Hc. apply (Hpre q has); [done|].
    destruct (extract_prefixes h) as [lits|] eqn:E; [|done].
    destruct (prefixes_ok h lits t E Hm) as (lit & rest & ? & ->). exists lits, lit, [], rest. done.
  - destruct suffix as [q|]; constructor; [|done]. intros has t Hm Hc. apply (Hsuf q has); [done|].
    destruct (extract_suffixes h) as [lits|] eqn:E; [|done].
    destruct (suffixes_ok h lits t E Hm) as (lit & rest & ? & ->). exists lits, lit, rest, [].
    by rewrite app_nil_r.
Qed.

(** The constraints of a node's kind, given sound plans of its children. *)
Lemma kind_parts_ok fuel h parts :
  (forall c, (hir_depth c < hir_depth h)%nat ->
    exists q, hir_query_fuel rapidhash_v3 radsort fuel c strategy = Ok q /\ sound c q) ->
  Forall (sound h) parts ->
  exists parts', (match hir_kind h with
    | Concat children =>
        qs ← mapM_res (fun child => hir_query_fuel rapidhash_v3 radsort fuel child strategy) children;
        Ok (parts ++ qs)
    | Alternation alternatives =>
        branches ← mapM_res (fun alt => hir_query_fuel rapidhash_v3 radsort fuel alt strategy) alternatives;
        Ok (if bool_decide (QAll ∈ branches) then parts else parts ++ [QOr branches])
    | Capture sub => q ← hir_query_fuel rapidhash_v3 radsort fuel sub strategy; Ok (parts ++ [q])
    | Repetition min sub =>
        if 1 <=? min then q ← hir_query_fuel rapidhash_v3 radsort fuel sub strategy; Ok (parts ++ [q]) else Ok parts
    | OtherKind => Ok parts
    end) = Ok parts' /\ Forall (sound h) parts'.
Proof.
  intros IH Hp. destruct (hir_kind h) as [hs|hs|c|n c|] eqn:K.
  - edestruct (mapM_res_total (fun c => hir_query_fuel rapidhash_v3 radsort fuel c strategy) sound hs) as (qs & -> & Hqs).
    { intros c Hc. apply IH. by eapply concat_depth. }
    cbn. eexists. split; [done|]. apply Forall_app. split; [done|]. apply Forall_forall. intros q [i Hi]%list_elem_of_lookup_1.
    destruct (Forall2_lookup_r _ _ _ _ _ Hqs Hi) as (c & Hc & Hs). intros has t Hm Hcov.
    destruct (concat_ok h hs t c K Hm) as (a & u & b & -> & Hu); [by eapply list_elem_of_lookup_2|].
    eapply Hs; [exact Hu|]. by eapply covers_infix.
  - edestruct (mapM_res_total (fun c => hir_query_fuel rapidhash_v3 radsort fuel c strategy) sound hs) as (qs & -> & Hqs).
    { intros c Hc. apply IH. by eapply alternation_depth. }
    cbn. eexists. split; [done|]. destruct (bool_decide _); [done|]. apply Forall_app. split; [done|].
    constructor; [|done]. intros has t Hm Hcov. cbn. apply existsb_elem.
    destruct (alternation_ok h hs t K Hm) as (c & [i Hi]%list_elem_of_lookup_1 & Hc).
    destruct (Forall2_lookup_l _ _ _ _ _ Hqs Hi) as (q & Hq & Hs).
    exists q. split; [by eapply list_elem_of_lookup_2|]. by eapply Hs.
  - destruct (IH c) as (q & -> & Hs); [by eapply capture_depth|]. cbn. eexists. split; [done|].
    apply Forall_app. split; [done|]. constructor; [|done]. intros has t Hm Hcov.
    eapply Hs; [|done]. by eapply capture_ok.
  - destruct (N.leb_spec 1 n); [|by eexists]. destruct (IH c) as (q & -> & Hs); [by eapply repetition_depth|].
    cbn. eexists. split; [done|]. apply Forall_app. split; [done|]. constructor; [|done]. intros has t Hm Hcov.
    destruct (repetition_ok h n c t K) as (a & u & b & -> & Hu); [done|done|].
    eapply Hs; [exact Hu|]. by eapply covers_infix.
  - by eexists.
Qed.

Lemma hir_query_fuel_ok fuel h :
  (hir_depth h < fuel)%nat ->
  exists q, hir_query_fuel rapidhash_v3 radsort fuel h strategy = Ok q /\ sound h q.
Proof.
  revert h. induction fuel as [|fuel IH]; intros h Hf; [lia|]. cbn [hir_query_fuel].
  destruct (ends_ok h) as (prefix & suffix & -> & -> & Hends). cbn [mbind res_bind].
  destruct (kind_parts_ok fuel h (option_list prefix ++ option_list suffix)) as (parts & Hk & Hparts).
  { intros c Hc. apply IH. lia. }
  { done. }
  rewrite Hk. cbn [mbind res_bind]. eexists. split; [done|]. intros has t Hm Hc.
  assert (forall q, q ∈ unique_parts parts [] -> satisfied has q = true) as Hu.
  { apply unique_parts_satisfied. intros q [Hq|Hq]; [|set_solver]. rewrite Forall_forall in Hparts. by eapply Hparts. }
  destruct (unique_parts parts []) as [|q [|q2 qs]]; [done|apply Hu; left|]. cbn [satisfied]. by apply forallb_elem.
Qed.
End soundness.

(** C9: planning is total and never loses a match.  If an expression matches a
    text somewhere inside a document, the document's indexed grams satisfy the
    plan of the expression, whatever the literal extraction and the nesting of
    concatenations, alternations, captures and repetitions. *)
Theorem plan_hir_sound rapidhash_v3 radsort `{!SortsN radsort} `{RegexSyntaxOk Hir matches}
    strategy h pre text post :
  Forall is_byte (pre ++ text ++ post) -> matches h text ->
  exists q index,
    plan_hir rapidhash_v3 radsort h strategy = Ok q /\
    grams_index rapidhash_v3 radsort (pre ++ text ++ post) strategy = Ok index /\
    satisfied (fun gram => bool_decide (gram ∈ index)) q = true.
Proof.
  intros Hd Hm. unfold plan_hir, hir_query.
  destruct (hir_query_fuel_ok rapidhash_v3 radsort strategy (S (hir_depth h)) h) as (q & -> & Hs); [lia|].
  destruct (grams_index_total rapidhash_v3 radsort strategy (pre ++ text ++ post)) as (index & Hi).
  exists q, index. split_and!; [done|done|]. apply (Hs _ text Hm).
  intros a u b grams g -> Hg Hin. apply bool_decide_eq_true.
  apply (grams_subset rapidhash_v3 radsort strategy (pre ++ a) u (b ++ post) grams index g); try done.
  - by rewrite <- !app_assoc in *.
  - by rewrite <- !app_assoc in *.
Qed.

(** ** Witness: literals, gaps, concatenation and a repetition *)

Inductive re : Type :=
  | RLit (l : list N)
  | RAny
  | RCat (a b : re)
  | RPlus (a : re).

Fixpoint re_depth (r : re) : nat :=
  match r with
  | RLit _ | RAny => 0
  | RCat a b => S (Nat.max (re_depth a) (re_depth b))
  | RPlus a => S (re_depth a)
  end.
Fixpoint re_prefix (r : re) : option (list (list N)) :=
  match r with
  | RLit l => Some [l]
  | RAny => None
  | RCat a _ => re_prefix a
  | RPlus a => re_prefix a
  end.
Fixpoint re_suffix (r : re) : option (list (list N)) :=
  match r with
  | RLit l => Some [l]
  | RAny => None
  | RCat _ b => re_suffix b
  | RPlus a => re_suffix a
  end.
Inductive re_matches : re -> list N -> Prop :=
  | m_lit l : re_matches (RLit l) l
  | m_any t : re_matches RAny t
  | m_cat a b t u : re_matches a t -> re_matches b u -> re_matches (RCat a b) (t ++ u)
  | m_plus_one a t : re_matches a t -> re_matches (RPlus a) t
  | m_plus_more a t u : re_matches a t -> re_matches (RPlus a) u -> re_matches (RPlus a) (t ++ u).

#[export] Instance re_syntax : RegexSyntax re := {
  hir_kind r := match r with RCat a b => Concat [a; b] | RPlus a => Repetition 1 a | _ => OtherKind end;
  hir_depth := re_depth;
  extract_prefixes := re_prefix;
  extract_suffixes := re_suffix;
  parse l := Ok (RLit l);
}.

Lemma re_prefix_ok r t : re_matches r t -> forall lits, re_prefix r = Some lits ->
  exists lit rest, lit ∈ lits /\ t = lit ++ rest.
Proof.
  induction 1 as [l| |a b t u _ IH _ _|a t _ IH|a t u _ IH _ _]; cbn; intros lits Hl; try done.
  - injection Hl as <-. exists l, []. rewrite app_nil_r. split; [left|done].
  - destruct (IH _ Hl) as (lit & rest & ? & ->). exists lit, (rest ++ u). by rewrite app_assoc.
  - by apply IH.
  - destruct (IH _ Hl) as (lit & rest & ? & ->). exists lit, (rest ++ u). by rewrite app_assoc.
Qed.
Lemma re_suffix_ok r t : re_matches r t -> forall lits, re_suffix r = Some lits ->
  exists lit rest, lit ∈ lits /\ t = rest ++ lit.
Proof.
  induction 1 as [l| |a b t u _ _ _ IH|a t _ IH|a t u _ _ _ IH]; cbn; intros lits Hl; try done.
  - injection Hl as <-. exists l, []. split; [left|done].
  - destruct (IH _ Hl) as (lit & rest & ? & ->). exists lit, (t ++ rest). by rewrite app_assoc.
  - by apply IH.
  - destruct (IH _ Hl) as (lit & rest & ? & ->). exists lit, (t ++ rest). by rewrite app_assoc.
Qed.

#[export] Instance re_syntax_ok : RegexSyntaxOk re re_matches.
Proof.
  split; cbn.
  - intros h hs t c K Hm Hc. destruct Hm; try done. injection K as <-.
    apply elem_of_cons in Hc as [->|Hc]; [by exists [], t, u|]. apply list_elem_of_singleton in Hc as ->.
    exists t, u, []. by rewrite app_nil_r.
  - intros [] hs c K Hc; try done. injection K as <-. cbn.
    apply elem_of_cons in Hc as [->| ->%list_elem_of_singleton]; lia.
  - by intros [].
  - by intros [].
  - by intros [].
  - by intros [].
  - intros h n c t K _ Hm. destruct Hm; try done; injection K as <- <-.
    + exists [], t, []. by rewrite app_nil_r.
    + by exists [], t, u.
  - intros [] n c K; try done. injection K as <- <-. cbn. lia.
  - intros. by eapply re_prefix_ok.
  - intros. by eapply re_suffix_ok.
Qed.

Definition abc_gap_bcd : re := RCat (RLit [97; 98; 99]) (RCat RAny (RPlus (RLit [98; 99; 100]))).

Lemma plan_hir_sound_witness :
  plan_hir sum_hash sort_N abc_gap_bcd Trigram =
    Ok (QAnd [QOr [QAnd [QGram [97; 98; 99]]]; QOr [QAnd [QGram [98; 99; 100]]]]) /\
  exists q index,
    plan_hir sum_hash sort_N abc_gap_bcd Trigram = Ok q /\
    grams_index sum_hash sort_N ([120] ++ [97; 98; 99; 121; 98; 99; 100] ++ []) Trigram = Ok index /\
    satisfied (fun gram => bool_decide (gram ∈ index)) q = true.
Proof.
  split; [vm_compute; reflexivity|].
  apply (plan_hir_sound (Hir := re) (matches := re_matches) sum_hash sort_N Trigram abc_gap_bcd [120] _ []).
  - repeat constructor.
  - apply (m_cat _ _ [97; 98; 99] [121; 98; 99; 100]); [constructor|].
    apply (m_cat _ _ [121] [98; 99; 100]); repeat constructor.
Defined.
