(* ===== verification/Eval.v ===== *)
(** * Query evaluation (crates/index/src/eval.rs)

    Resolving a query against the term dictionary, pruning, collecting the
    posting blocks it needs, and evaluating it over the fetched blocks.  The
    theorems: packing is a bijection within the format limits, the evaluator
    computes the set denotation of the resolved query and never misses a block
    that was requested, and no id of a truly matching document is lost. *)

From S2P Require Import Prelude BitPack Postings Trigrams SparseGrams QueryPlan.

Definition SPARSE_MAX_GRAMS_PER_AND : nat := 8.
Definition BLOCK_MAX_GRAMS_PER_AND : nat := 64.
Definition OFFSET_BITS : N := 40.
Definition COUNT_BITS : N := 24.
Definition MAX_POSTING_COUNT : N := N.shiftl 1 COUNT_BITS - 1.

Definition pack_posting (offset count : N) : res N :=
  ensure (offset <? N.shiftl 1 OFFSET_BITS) "postings offset exceeds the 1 TiB format limit";;
  ensure (count <? N.shiftl 1 COUNT_BITS) "posting list exceeds the format limit";;
  Ok (N.lor offset (shl64 count OFFSET_BITS)).

Definition unpack_posting (value : N) : N * N :=
  (N.land value (N.shiftl 1 OFFSET_BITS - 1), N.shiftr value OFFSET_BITS mod U32).

Record TermValue : Type := { packed : N; tv_len : option N }.

(** [while let Some(query) = stack.pop()]; the stack's top is its head. *)
Fixpoint query_size (q : Query) : nat :=
  match q with
  | QAnd qs | QOr qs => S (list_sum (query_size <$> qs))
  | _ => 1
  end.
Fixpoint collect_loop (fuel : nat) (grams : list (list N)) (stack : list Query) : list (list N) :=
  match fuel with
  | O => grams
  | S fuel =>
      match stack with
      | [] => grams
      | QAll :: stack => collect_loop fuel grams stack
      | QGram gram :: stack => collect_loop fuel (grams ++ [gram]) stack
      | QAnd children :: stack | QOr children :: stack => collect_loop fuel grams (rev children ++ stack)
      end
  end.
Definition collect_query_grams (queries : list Query) : list (list N) :=
  dedup (sort_by bytes_leb (collect_loop (S (list_sum (query_size <$> queries))) [] (rev queries))).

Inductive Resolved : Type :=
  | RAll
  | RNone
  | RDoc (id : N)
  | RGram (offset count len_ : N)
  | RAnd (children : list Resolved)
  | ROr (children : list Resolved).

Definition is_doc (r : Resolved) : bool := match r with RDoc _ => true | _ => false end.
Definition is_gram (r : Resolved) : bool := match r with RGram _ _ _ => true | _ => false end.
Definition gram_count (r : Resolved) : N := match r with RGram _ count _ => count | _ => u32_max end.

Definition prune_and (children : list Resolved) (strategy : Strategy) : Resolved :=
  if existsb is_doc children then
    let docs := List.filter (fun child => negb (is_gram child)) children in
    match docs with [doc] => doc | _ => RAnd docs end
  else
    let '(grams, others) := List.partition is_gram children in
    let limit := match strategy with
      | Trigram => BLOCK_MAX_GRAMS_PER_AND
      | Sparse => SPARSE_MAX_GRAMS_PER_AND
      end in
    let grams := if (limit <? length grams)%nat
      then take limit (sort_by (fun a b => gram_count a <=? gram_count b) grams)
      else grams in
    match grams ++ others with
    | [] => RAll
    | [child] => child
    | all => RAnd all
    end.

Definition resolve_gram (id_space : N) (hit : option TermValue) : res Resolved :=
  match hit with
  | Some value =>
      let '(offset, count) := unpack_posting (packed value) in
      if count =? 1 then
        id ← with_context (if (offset <? U32) && (offset <? id_space) then Some offset else None)
          "singleton posting id is outside the id space";
        Ok (RDoc id)
      else if id_space <=? count then Ok RAll
      else Ok (RGram offset count (default (posting_block_len count id_space) (tv_len value)))
  | None => Ok RNone
  end.

(** The loops over the children return early, on NONE under an AND and on ALL
    under an OR: later children are not looked up. *)
Section resolve.
Context (id_space : N) (strategy : Strategy) (lookup_ : list N -> res (option TermValue)).

Fixpoint resolve (q : Query) : res Resolved :=
  let fix and_children (subs : list Query) (children : list Resolved) : res Resolved :=
    match subs with
    | [] => Ok (prune_and children strategy)
    | sub :: subs =>
        r ← resolve sub;
        match r with
        | RNone => Ok RNone
        | RAll => and_children subs children
        | resolved => and_children subs (children ++ [resolved])
        end
    end in
  let fix or_children (subs : list Query) (children : list Resolved) : res Resolved :=
    match subs with
    | [] => Ok (match children with [child] => child | [] => RNone | _ => ROr children end)
    | sub :: subs =>
        r ← resolve sub;
        match r with
        | RAll => Ok RAll
        | RNone => or_children subs children
        | resolved => or_children subs (children ++ [resolved])
        end
    end in
  match q with
  | QAll => Ok RAll
  | QGram gram => hit ← lookup_ gram; resolve_gram id_space hit
  | QAnd subs => and_children subs []
  | QOr subs => or_children subs []
  end.

Definition bind_queries (queries : list Query) : res (list Resolved) := mapM_res resolve queries.
End resolve.

(** The map offset -> (count, len); a later insert of an offset replaces. *)
Fixpoint blocks_needed (resolved : Resolved) (out : gmap N (N * N)) : gmap N (N * N) :=
  match resolved with
  | RGram offset count len_ => <[offset := (count, len_)]> out
  | RAnd children | ROr children => fold_left (fun out child => blocks_needed child out) children out
  | _ => out
  end.

Inductive Selection : Type := SAll | SIds (ids : list N).

Definition expand_ids (ids : list N) (expand : option (N -> N * N)) : list N :=
  match expand with
  | None => ids
  | Some expand => sort_dedup (mbind (fun id => let '(lo, hi) := expand id in range lo (hi + 1)) ids)
  end.

(** Intersection of two sorted slices; [i] and [j] advance in [a] and [b]. *)
Fixpoint intersect (a : list N) : list N -> list N :=
  fix go (b : list N) : list N :=
    match a, b with
    | x :: a', y :: b' =>
        match x ?= y with
        | Lt => intersect a' b
        | Gt => go b'
        | Eq => x :: intersect a' b'
        end
    | _, _ => []
    end.

Definition union_many (lists : list (list N)) : list N := sort_dedup (concat lists).

Fixpoint intersect_all (acc : list N) (sets : list (list N)) : list N :=
  match sets with
  | [] => acc
  | set :: sets =>
      let acc := intersect acc set in
      match acc with [] => [] | _ => intersect_all acc sets end
  end.

Definition and_sets (sets : list (list N)) : Selection :=
  match sort_by (fun a b => (length a <=? length b)%nat) sets with
  | [] => SAll
  | acc :: sets => SIds (intersect_all acc sets)
  end.

Section eval.
Context (blocks : gmap N (list N)) (expand : option (N -> N * N)).

Fixpoint eval (resolved : Resolved) : res Selection :=
  let fix and_children (children : list Resolved) (sets : list (list N)) : res Selection :=
    match children with
    | [] => Ok (and_sets sets)
    | child :: children =>
        s ← eval child;
        match s with
        | SAll => and_children children sets
        | SIds [] => Ok (SIds [])
        | SIds ids => and_children children (sets ++ [ids])
        end
    end in
  let fix or_children (children : list Resolved) (lists : list (list N)) : res Selection :=
    match children with
    | [] => Ok (SIds (union_many lists))
    | child :: children =>
        s ← eval child;
        match s with
        | SAll => Ok SAll
        | SIds ids => or_children children (lists ++ [ids])
        end
    end in
  match resolved with
  | RAll => Ok SAll
  | RNone => Ok (SIds [])
  | RDoc id => Ok (SIds (expand_ids [id] expand))
  | RGram offset _ _ =>
      ids ← with_context (blocks !! offset) "posting block was not fetched";
      Ok (SIds (expand_ids ids expand))
  | RAnd children => and_children children []
  | ROr children => or_children children []
  end.
End eval.

Section resolved_ind.
Context (P : Resolved -> Prop) (HAll : P RAll) (HNone : P RNone) (HDoc : forall id, P (RDoc id))
  (HGram : forall o c l, P (RGram o c l)) (HAnd : forall rs, Forall P rs -> P (RAnd rs))
  (HOr : forall rs, Forall P rs -> P (ROr rs)).
Fixpoint resolved_ind' (r : Resolved) : P r :=
  let fix go (rs : list Resolved) : Forall P rs :=
    match rs with [] => Forall_nil_2 P | r :: rs => Forall_cons_2 P r rs (resolved_ind' r) (go rs) end in
  match r with
  | RAll => HAll
  | RNone => HNone
  | RDoc id => HDoc id
  | RGram o c l => HGram o c l
  | RAnd rs => HAnd rs (go rs)
  | ROr rs => HOr rs (go rs)
  end.
End resolved_ind.

(** ** Packing *)

Lemma unpack_pack_posting offset count :
  offset < 2 ^ 40 -> count < 2 ^ 24 ->
  unpack_posting (N.lor offset (shl64 count OFFSET_BITS)) = (offset, count) /\
  N.lor offset (shl64 count OFFSET_BITS) < U64.
Proof.
  intros Ho Hc. unfold unpack_posting, shl64, OFFSET_BITS.
  rewrite N.mod_small by (rewrite N.shiftl_mul_pow2; lia).
  rewrite lor_add_shift by done.
  replace (N.shiftl 1 40 - 1) with (N.ones 40) by done.
  rewrite N.land_ones, N.shiftr_div_pow2. split; [f_equal; lia|lia].
Qed.

(** ** Collecting the grams *)

Fixpoint occurs (g : list N) (q : Query) : Prop :=
  match q with
  | QAll => False
  | QGram h => g = h
  | QAnd qs | QOr qs => foldr (fun q acc => occurs g q \/ acc) False qs
  end.
Lemma occurs_list g qs : foldr (fun q acc => occurs g q \/ acc) False qs <-> exists q, q ∈ qs /\ occurs g q.
Proof.
  induction qs as [|q qs IH]; cbn; [set_solver|]. rewrite IH. setoid_rewrite elem_of_cons. naive_solver.
Qed.

Lemma list_sum_rev l : list_sum (rev l) = list_sum l.
Proof. induction l as [|x l IH]; cbn [rev]; [done|]. rewrite list_sum_app, IH. unfold list_sum. cbn. lia. Qed.
Lemma sizes_cons q qs : list_sum (query_size <$> (q :: qs)) = (query_size q + list_sum (query_size <$> qs))%nat.
Proof. done. Qed.
Lemma elem_of_rev {A} (l : list A) x : x ∈ rev l <-> x ∈ l.
Proof. rewrite !list_elem_of_In. symmetry. apply in_rev. Qed.

Lemma collect_loop_spec fuel grams stack g :
  (list_sum (query_size <$> stack) < fuel)%nat ->
  g ∈ collect_loop fuel grams stack <-> g ∈ grams \/ exists q, q ∈ stack /\ occurs g q.
Proof.
  revert grams stack. induction fuel as [|fuel IH]; intros grams stack Hf; [lia|]. cbn [collect_loop].
  destruct stack as [|q stack]; [set_solver|]. rewrite sizes_cons in Hf. destruct q as [|qs|qs|h].
  - cbn in Hf. rewrite IH by lia. setoid_rewrite elem_of_cons. cbn. naive_solver.
  - rewrite IH by (rewrite fmap_app, list_sum_app, fmap_rev, list_sum_rev; change (query_size _) with (S (list_sum (query_size <$> qs))) in Hf; lia).
    setoid_rewrite elem_of_app. setoid_rewrite elem_of_rev. setoid_rewrite elem_of_cons.
    pose proof (occurs_list g qs). cbn [occurs]. naive_solver.
  - rewrite IH by (rewrite fmap_app, list_sum_app, fmap_rev, list_sum_rev; change (query_size _) with (S (list_sum (query_size <$> qs))) in Hf; lia).
    setoid_rewrite elem_of_app. setoid_rewrite elem_of_rev. setoid_rewrite elem_of_cons.
    pose proof (occurs_list g qs). cbn [occurs]. naive_solver.
  - cbn in Hf. rewrite IH by lia. rewrite elem_of_app, list_elem_of_singleton. setoid_rewrite elem_of_cons. cbn. naive_solver.
Qed.

Lemma elem_of_collect queries g : g ∈ collect_query_grams queries <-> exists q, q ∈ queries /\ occurs g q.
Proof.
  unfold collect_query_grams. rewrite elem_of_dedup, elem_of_sort_by, collect_loop_spec.
  - setoid_rewrite elem_of_rev. set_solver.
  - rewrite fmap_rev, list_sum_rev. lia.
Qed.

(** ** Set algebra on sorted lists *)

Lemma intersect_nil_r a : intersect a [] = [].
Proof. by destruct a. Qed.
Lemma intersect_cons x a y b :
  intersect (x :: a) (y :: b) =
  match x ?= y with Lt => intersect a (y :: b) | Gt => intersect (x :: a) b | Eq => x :: intersect a b end.
Proof. done. Qed.

Lemma elem_of_intersect a b :
  ascending a -> ascending b -> forall x, x ∈ intersect a b <-> x ∈ a /\ x ∈ b.
Proof.
  intros Ha. revert b. induction Ha as [|y a Ha IHa Hy]; intros b Hb x.
  { destruct b; set_solver. }
  induction Hb as [|z b Hb IHb Hz]; [rewrite intersect_nil_r; set_solver|].
  rewrite Forall_forall in Hy, Hz. rewrite intersect_cons. destruct (N.compare_spec y z) as [->|Hlt|Hgt].
  - rewrite !elem_of_cons, (IHa b Hb). split; [tauto|]. intros [[?|H1] [?|H2]]; auto.
  - rewrite (IHa (z :: b)); [|constructor; [done|by apply Forall_forall]]. rewrite !elem_of_cons. split; [tauto|].
    intros [[->|?] [->|H2]]; try lia; try tauto. specialize (Hz _ H2). lia.
  - rewrite IHb, !elem_of_cons. split; [tauto|]. intros [[->|H1] [->|?]]; try lia; try tauto.
    specialize (Hy _ H1). lia.
Qed.

Lemma intersect_ascending a b : ascending a -> ascending b -> ascending (intersect a b).
Proof.
  intros Ha. revert b. induction Ha as [|y a Ha IHa Hy]; intros b Hb.
  { destruct b; constructor. }
  induction Hb as [|z b Hb IHb Hz]; [rewrite intersect_nil_r; constructor|].
  rewrite intersect_cons. destruct (N.compare_spec y z) as [->|Hlt|Hgt].
  - constructor; [by apply IHa|]. apply Forall_forall. intros x Hx. apply elem_of_intersect in Hx as [Hx _]; [|done|done].
    rewrite Forall_forall in Hy. by apply Hy.
  - apply IHa. by constructor.
  - done.
Qed.

Lemma intersect_all_spec sets acc :
  ascending acc -> Forall ascending sets ->
  ascending (intersect_all acc sets) /\
  forall x, x ∈ intersect_all acc sets <-> x ∈ acc /\ forall set, set ∈ sets -> x ∈ set.
Proof.
  intros Hacc Hs. revert acc Hacc. induction Hs as [|set sets Hset Hs IH]; intros acc Hacc; cbn [intersect_all].
  { split; [done|]. set_solver. }
  pose proof (elem_of_intersect acc set Hacc Hset) as Hin.
  destruct (intersect acc set) as [|y l] eqn:E.
  - split; [constructor|]. intros x. specialize (Hin x). set_solver.
  - destruct (IH (y :: l)) as [Ha Hx]; [rewrite <- E; by apply intersect_ascending|].
    split; [done|]. intros x. rewrite Hx, Hin. set_solver.
Qed.

Definition selected (s : Selection) (x : N) : Prop :=
  match s with SAll => True | SIds ids => x ∈ ids end.
Definition selection_ok (s : Selection) : Prop :=
  match s with SAll => True | SIds ids => ascending ids end.

Lemma and_sets_spec sets :
  Forall ascending sets ->
  selection_ok (and_sets sets) /\
  forall x, selected (and_sets sets) x <-> forall set, set ∈ sets -> x ∈ set.
Proof.
  intros Hs. unfold and_sets.
  pose proof (sort_by_perm (fun a b : list N => (length a <=? length b)%nat) sets) as Hp.
  destruct (sort_by _ sets) as [|acc rest].
  - apply Permutation_nil in Hp. subst sets. cbn. set_solver.
  - rewrite <- Hp in Hs. apply Forall_cons in Hs as [Hacc Hrest].
    destruct (intersect_all_spec rest acc Hacc Hrest) as [Ha Hx]. split; [done|]. cbn.
    intros x. rewrite Hx. setoid_rewrite <- Hp. setoid_rewrite elem_of_cons. naive_solver.
Qed.

Lemma elem_of_union_many lists x : x ∈ union_many lists <-> exists l, l ∈ lists /\ x ∈ l.
Proof. unfold union_many. rewrite elem_of_sort_dedup, list_elem_of_In, in_concat. by setoid_rewrite list_elem_of_In. Qed.

Lemma elem_of_expand ids expand x :
  x ∈ expand_ids ids expand <->
  match expand with
  | None => x ∈ ids
  | Some f => exists id, id ∈ ids /\ (f id).1 <= x <= (f id).2
  end.
Proof.
  destruct expand as [f|]; [|done]. cbn. rewrite elem_of_sort_dedup, list_elem_of_bind.
  split; intros (id & H1 & H2); exists id; destruct (f id) as [lo hi]; cbn in *;
    rewrite ?elem_of_range in *; split; try done; lia.
Qed.
Lemma expand_ascending ids expand : ascending ids -> ascending (expand_ids ids expand).
Proof. destruct expand; cbn; [intros _; apply sort_dedup_ascending|done]. Qed.

(** ** The evaluator computes the denotation *)

Section denotation.
Context (blocks : gmap N (list N)) (expand : option (N -> N * N)).

(** The ids a resolved query stands for. *)
Fixpoint denote (r : Resolved) (x : N) : Prop :=
  match r with
  | RAll => True
  | RNone => False
  | RDoc id => x ∈ expand_ids [id] expand
  | RGram offset _ _ => exists ids, blocks !! offset = Some ids /\ x ∈ expand_ids ids expand
  | RAnd rs => foldr (fun r acc => denote r x /\ acc) True rs
  | ROr rs => foldr (fun r acc => denote r x \/ acc) False rs
  end.

Lemma denote_and rs x : denote (RAnd rs) x <-> forall r, r ∈ rs -> denote r x.
Proof.
  cbn [denote]. induction rs as [|r rs IH]; cbn [foldr]; [set_solver|]. rewrite IH.
  setoid_rewrite elem_of_cons. naive_solver.
Qed.
Lemma denote_or rs x : denote (ROr rs) x <-> exists r, r ∈ rs /\ denote r x.
Proof.
  cbn [denote]. induction rs as [|r rs IH]; cbn [foldr]; [set_solver|]. rewrite IH.
  setoid_rewrite elem_of_cons. naive_solver.
Qed.

(** Every posting block a query mentions has been fetched. *)
Fixpoint fetched (r : Resolved) : Prop :=
  match r with
  | RGram offset _ _ => is_Some (blocks !! offset)
  | RAnd rs | ROr rs => foldr (fun r acc => fetched r /\ acc) True rs
  | _ => True
  end.
Lemma fetched_children rs : foldr (fun r acc => fetched r /\ acc) True rs <-> Forall fetched rs.
Proof. induction rs as [|r rs IH]; cbn; [done|]. by rewrite IH, Forall_cons. Qed.

Definition evaluates (r : Resolved) (s : Selection) : Prop :=
  eval blocks expand r = Ok s /\ selection_ok s /\ forall x, selected s x <-> denote r x.

Lemma eval_and_children rs sets :
  Forall (fun r => fetched r -> exists s, evaluates r s) rs -> Forall fetched rs -> Forall ascending sets ->
  exists s, (fix and_children (children : list Resolved) (sets : list (list N)) : res Selection :=
      match children with
      | [] => Ok (and_sets sets)
      | child :: children =>
          s ← eval blocks expand child;
          match s with
          | SAll => and_children children sets
          | SIds [] => Ok (SIds [])
          | SIds ids => and_children children (sets ++ [ids])
          end
      end) rs sets = Ok s /\ selection_ok s /\
    forall x, selected s x <-> (forall set, set ∈ sets -> x ∈ set) /\ denote (RAnd rs) x.
Proof.
  setoid_rewrite denote_and. intros Hrs. revert sets. induction Hrs as [|r rs Hr Hrs IH]; intros sets Hf Hs.
  - destruct (and_sets_spec sets Hs) as [Hok Hx]. eexists. split_and!; [done|done|].
    intros x. rewrite Hx. set_solver.
  - apply Forall_cons in Hf as [Hfr Hf]. destruct (Hr Hfr) as (s & -> & Hok & Hx). cbn [mbind res_bind].
    setoid_rewrite elem_of_cons. destruct s as [|[|i ids]].
    + destruct (IH sets Hf Hs) as (s & -> & Hok' & Hx'). exists s. split_and!; [done|done|].
      intros x. rewrite Hx'. specialize (Hx x). cbn in Hx. naive_solver.
    + eexists. split_and!; [done|done|]. intros x. specialize (Hx x). cbn in Hx |- *.
      split; [set_solver|]. intros [_ H]. apply Hx, H. by left.
    + destruct (IH (sets ++ [i :: ids]) Hf) as (s & -> & Hok' & Hx'); [apply Forall_app; by split; [|constructor]|].
      exists s. split_and!; [done|done|]. intros x. rewrite Hx'. specialize (Hx x). cbn in Hx.
      setoid_rewrite elem_of_app. setoid_rewrite list_elem_of_singleton. naive_solver.
Qed.

Lemma eval_or_children rs lists :
  Forall (fun r => fetched r -> exists s, evaluates r s) rs -> Forall fetched rs ->
  exists s, (fix or_children (children : list Resolved) (lists : list (list N)) : res Selection :=
      match children with
      | [] => Ok (SIds (union_many lists))
      | child :: children =>
          s ← eval blocks expand child;
          match s with
          | SAll => Ok SAll
          | SIds ids => or_children children (lists ++ [ids])
          end
      end) rs lists = Ok s /\ selection_ok s /\
    forall x, selected s x <-> (exists l, l ∈ lists /\ x ∈ l) \/ denote (ROr rs) x.
Proof.
  setoid_rewrite denote_or. intros Hrs. revert lists. induction Hrs as [|r rs Hr Hrs IH]; intros lists Hf.
  - eexists. split_and!; [done|cbn; apply sort_dedup_ascending|].
    intros x. cbn. rewrite elem_of_union_many. set_solver.
  - apply Forall_cons in Hf as [Hfr Hf]. destruct (Hr Hfr) as (s & -> & Hok & Hx). cbn [mbind res_bind].
    setoid_rewrite elem_of_cons. destruct s as [|ids].
    + eexists. split_and!; [done|done|]. intros x. specialize (Hx x). cbn in Hx |- *. naive_solver.
    + destruct (IH (lists ++ [ids]) Hf) as (s & -> & Hok' & Hx').
      exists s. split_and!; [done|done|]. intros x. rewrite Hx'. specialize (Hx x). cbn in Hx.
      setoid_rewrite elem_of_app. setoid_rewrite list_elem_of_singleton. naive_solver.
Qed.

Context (blocks_ok : forall offset ids, blocks !! offset = Some ids -> ascending ids).

Lemma eval_ok r : fetched r -> exists s, evaluates r s.
Proof.
  induction r as [| |id|o c l|rs IH|rs IH] using resolved_ind'; cbn [fetched]; intros Hf; unfold evaluates; cbn [eval].
  - exists SAll. done.
  - exists (SIds []). split_and!; [done|constructor|]. cbn. set_solver.
  - eexists. split_and!; [done| |done]. apply expand_ascending. repeat constructor.
  - destruct Hf as [ids Hids]. rewrite Hids. cbn. eexists. split_and!; [done| |].
    + apply expand_ascending. by eapply blocks_ok.
    + intros x. cbn. rewrite Hids. naive_solver.
  - apply fetched_children in Hf. destruct (eval_and_children rs [] IH Hf) as (s & -> & Hok & Hx); [constructor|].
    exists s. split_and!; [done|done|]. intros x. rewrite Hx. set_solver.
  - apply fetched_children in Hf. destruct (eval_or_children rs [] IH Hf) as (s & -> & Hok & Hx).
    exists s. split_and!; [done|done|]. intros x. rewrite Hx. set_solver.
Qed.
End denotation.

(** ** The blocks a query needs *)

Fixpoint mentions (r : Resolved) (offset : N) : Prop :=
  match r with
  | RGram o _ _ => offset = o
  | RAnd rs | ROr rs => foldr (fun r acc => mentions r offset \/ acc) False rs
  | _ => False
  end.
Lemma mentions_children rs offset :
  foldr (fun r acc => mentions r offset \/ acc) False rs <-> exists r, r ∈ rs /\ mentions r offset.
Proof.
  induction rs as [|r rs IH]; cbn; [set_solver|]. rewrite IH. setoid_rewrite elem_of_cons. naive_solver.
Qed.

Lemma blocks_needed_children rs :
  Forall (fun r => forall out offset, is_Some (blocks_needed r out !! offset) <-> is_Some (out !! offset) \/ mentions r offset) rs ->
  forall out offset, is_Some (fold_left (fun out child => blocks_needed child out) rs out !! offset) <->
    is_Some (out !! offset) \/ foldr (fun r acc => mentions r offset \/ acc) False rs.
Proof.
  induction 1 as [|r rs Hr Hrs IH]; intros out offset; cbn [fold_left foldr]; [tauto|]. rewrite IH, Hr. tauto.
Qed.

Lemma blocks_needed_spec r out offset :
  is_Some (blocks_needed r out !! offset) <-> is_Some (out !! offset) \/ mentions r offset.
Proof.
  revert out offset. induction r as [| |id|o c l|rs IH|rs IH] using resolved_ind'; intros out offset;
    cbn [blocks_needed mentions]; try tauto; try by apply blocks_needed_children.
  destruct (decide (o = offset)) as [->|].
  - rewrite lookup_insert. case_decide; [|done]. naive_solver.
  - rewrite lookup_insert_ne by done. naive_solver.
Qed.

Lemma fetched_mentions blocks r :
  (forall offset, mentions r offset -> is_Some (blocks !! offset)) -> fetched blocks r.
Proof.
  induction r as [| |id|o c l|rs IH|rs IH] using resolved_ind'; cbn [fetched mentions]; intros H; try done.
  - by apply H.
  - apply fetched_children. setoid_rewrite mentions_children in H. rewrite Forall_forall in IH |- *.
    intros r Hr. apply IH; [done|]. eauto.
  - apply fetched_children. setoid_rewrite mentions_children in H. rewrite Forall_forall in IH |- *.
    intros r Hr. apply IH; [done|]. eauto.
Qed.

(** ** Resolution loses no id *)

Section resolution.
Context (id_space : N) (strategy : Strategy) (lookup_ : list N -> res (option TermValue)).
Context (postings : list N -> list N) (content : N -> list N) (expand : option (N -> N * N)).

(** The dictionary and the posting file describe the posting lists: no entry
    for an empty list, the id inlined for a singleton, a block otherwise. *)
Definition entry_ok (g : list N) : Prop :=
  match lookup_ g with
  | Ok None => postings g = []
  | Ok (Some value) =>
      let '(offset, count) := unpack_posting (packed value) in
      count = len (postings g) /\
      (count = 1 -> postings g = [offset] /\ offset < id_space /\ offset < U32) /\
      (count <> 1 -> content offset = postings g)
  | _ => False
  end.

Context (entries_ok : forall g, entry_ok g).

(** An id is near a gram when a posting of the gram expands over it. *)
Definition near (x : N) (g : list N) : bool := bool_decide (x ∈ expand_ids (postings g) expand).

Context (blocks : gmap N (list N)).

Definition agrees (r : Resolved) : Prop :=
  forall offset, mentions r offset -> blocks !! offset = Some (content offset).
Definition holds (x : N) (r : Resolved) : Prop := agrees r -> denote blocks expand r x.

Lemma holds_and x rs : (forall r, r ∈ rs -> holds x r) -> holds x (RAnd rs).
Proof.
  intros H Ha. apply denote_and. intros r Hr. apply H; [done|]. intros offset Hm. apply Ha.
  cbn [mentions]. apply mentions_children. eauto.
Qed.
Lemma holds_or x rs r : r ∈ rs -> holds x r -> holds x (ROr rs).
Proof.
  intros Hr H Ha. apply denote_or. exists r. split; [done|]. apply H. intros offset Hm. apply Ha.
  cbn [mentions]. apply mentions_children. eauto.
Qed.

Lemma resolve_gram_ok g :
  exists r, (hit ← lookup_ g; resolve_gram id_space hit) = Ok r /\ forall x, near x g = true -> holds x r.
Proof.
  pose proof (entries_ok g) as He. unfold entry_ok in He. unfold near.
  destruct (lookup_ g) as [[value|]| |] eqn:El; try done; cbn [mbind res_bind resolve_gram].
  - destruct (unpack_posting (packed value)) as [offset count]. destruct He as (Hc & H1 & Hn).
    destruct (N.eqb_spec count 1) as [Hc1|Hc1].
    + destruct (H1 Hc1) as (Hp & Hid & Hu).
      destruct (N.ltb_spec offset U32), (N.ltb_spec offset id_space); try lia. cbn. eexists. split; [done|].
      intros x Hx%bool_decide_eq_true _. cbn [denote]. by rewrite <- Hp.
    + destruct (id_space <=? count); eexists; (split; [done|]); [done|].
      intros x Hx%bool_decide_eq_true Ha. cbn [denote]. exists (content offset).
      split; [by apply Ha|]. by rewrite Hn.
  - eexists. split; [done|]. rewrite He. intros x Hx%bool_decide_eq_true.
    apply elem_of_expand in Hx. destruct expand; set_solver.
Qed.

(** Everything [prune_and] keeps was a child. *)
Lemma prune_and_kept (Q : Resolved -> Prop) children :
  Q RAll -> (forall cs, (forall c, c ∈ cs -> Q c) -> Q (RAnd cs)) ->
  (forall c, c ∈ children -> Q c) -> Q (prune_and children strategy).
Proof.
  intros Hall_ Hand Hc. unfold prune_and. destruct (existsb is_doc children).
  - assert (forall c, c ∈ List.filter (fun child => negb (is_gram child)) children -> Q c) as Hf.
    { intros c [? _]%elem_of_coq_filter. by apply Hc. }
    destruct (List.filter _ children) as [|d [|d2 ds]]; [by apply Hand|apply Hf; left|by apply Hand].
  - destruct (List.partition is_gram children) as [grams others] eqn:E.
    match goal with |- context [match ?l ++ others with _ => _ end] => set (all := l) end.
    assert (forall c, c ∈ all ++ others -> Q c) as Hall.
    { intros c Hin. apply Hc. apply list_elem_of_In, (elements_in_partition _ _ E).
      apply elem_of_app in Hin as [Hin|Hin]; [left|right]; apply list_elem_of_In; [|done].
      subst all. destruct (_ <? _)%nat; [|done]. apply elem_of_take in Hin as (i & Hi & _).
      apply list_elem_of_lookup_2 in Hi. by rewrite elem_of_sort_by in Hi. }
    destruct (all ++ others) as [|c [|c2 cs]]; [done|apply Hall; left|by apply Hand].
Qed.
Lemma prune_and_holds x children :
  (forall c, c ∈ children -> holds x c) -> holds x (prune_and children strategy).
Proof. apply prune_and_kept; [done|apply holds_and]. Qed.

(** What the dictionary says of a list that has a block. *)
Definition from_dictionary (offset count length_ : N) : Prop :=
  exists g value, lookup_ g = Ok (Some value) /\ unpack_posting (packed value) = (offset, count) /\
    count <> 1 /\ count < id_space /\ length_ = default (posting_block_len count id_space) (tv_len value).

(** What a resolved query names: lists of the dictionary, and ids of the space. *)
Fixpoint grams_known (r : Resolved) : Prop :=
  match r with
  | RDoc id => id < id_space
  | RGram offset count length_ => from_dictionary offset count length_
  | RAnd rs | ROr rs => foldr (fun r acc => grams_known r /\ acc) True rs
  | _ => True
  end.
Lemma grams_known_children rs : foldr (fun r acc => grams_known r /\ acc) True rs <-> forall r, r ∈ rs -> grams_known r.
Proof. rewrite <- Forall_forall. induction rs as [|r rs IH]; cbn; [done|]. by rewrite IH, Forall_cons. Qed.

Definition knows (q : Query) : Prop := forall r, resolve id_space strategy lookup_ q = Ok r -> grams_known r.

Lemma resolve_and_known qs children r :
  Forall knows qs -> (forall c, c ∈ children -> grams_known c) ->
  (fix and_children (subs : list Query) (children : list Resolved) : res Resolved :=
      match subs with
      | [] => Ok (prune_and children strategy)
      | sub :: subs =>
          r ← resolve id_space strategy lookup_ sub;
          match r with
          | RNone => Ok RNone
          | RAll => and_children subs children
          | resolved => and_children subs (children ++ [resolved])
          end
      end) qs children = Ok r -> grams_known r.
Proof.
  intros Hqs. revert children. induction Hqs as [|q qs Hq Hqs IH]; intros children Hch H.
  - injection H as <-. apply prune_and_kept; [done| |done]. intros cs. apply grams_known_children.
  - destruct (resolve id_space strategy lookup_ q) as [rq|?|?] eqn:E; [|done..]. specialize (Hq rq E). cbn [mbind res_bind] in H.
    assert (forall c, c ∈ children ++ [rq] -> grams_known c) as Hch' by (intros c [?| ->%list_elem_of_singleton]%elem_of_app; auto).
    destruct rq; [exact (IH _ Hch H)|by injection H as <-|exact (IH _ Hch' H)..].
Qed.
Lemma resolve_or_known qs children r :
  Forall knows qs -> (forall c, c ∈ children -> grams_known c) ->
  (fix or_children (subs : list Query) (children : list Resolved) : res Resolved :=
      match subs with
      | [] => Ok (match children with [child] => child | [] => RNone | _ => ROr children end)
      | sub :: subs =>
          r ← resolve id_space strategy lookup_ sub;
          match r with
          | RAll => Ok RAll
          | RNone => or_children subs children
          | resolved => or_children subs (children ++ [resolved])
          end
      end) qs children = Ok r -> grams_known r.
Proof.
  intros Hqs. revert children. induction Hqs as [|q qs Hq Hqs IH]; intros children Hch H.
  - injection H as <-. destruct children as [|c1 [|c2 cs]]; [done|apply Hch; left|by apply grams_known_children].
  - destruct (resolve id_space strategy lookup_ q) as [rq|?|?] eqn:E; [|done..]. specialize (Hq rq E). cbn [mbind res_bind] in H.
    assert (forall c, c ∈ children ++ [rq] -> grams_known c) as Hch' by (intros c [?| ->%list_elem_of_singleton]%elem_of_app; auto).
    destruct rq; [by injection H as <-|exact (IH _ Hch H)|exact (IH _ Hch' H)..].
Qed.

(** Every list a resolved query needs is one the dictionary has. *)
Lemma resolve_known q : knows q.
Proof.
  induction q as [|qs IH|qs IH|g] using query_ind'; unfold knows; cbn [resolve]; intros r.
  - by intros [= <-].
  - apply resolve_and_known; [done|by intros ? ?%elem_of_nil].
  - apply resolve_or_known; [done|by intros ? ?%elem_of_nil].
  - intros H. apply bind_ok in H as ([value|] & Hg & H); [|by injection H as <-]. unfold resolve_gram in H.
    destruct (unpack_posting (packed value)) as [offset count] eqn:Eu. destruct (N.eqb_spec count 1) as [|Hne].
    { apply bind_ok in H as (id & Hid & H). injection H as <-. destruct (N.ltb_spec offset id_space) as [Hlt|]; [|by rewrite andb_false_r in Hid].
      destruct (offset <? U32); [|done]. by injection Hid as <-. }
    destruct (N.leb_spec id_space count) as [|Hlt]; injection H as <-; [done|]. exists g, value. done.
Qed.

Lemma blocks_needed_known r out :
  grams_known r -> (forall offset count length_, out !! offset = Some (count, length_) -> from_dictionary offset count length_) ->
  forall offset count length_, blocks_needed r out !! offset = Some (count, length_) -> from_dictionary offset count length_.
Proof.
  revert out. induction r as [| |id|o c l|rs IH|rs IH] using resolved_ind'; intros out Hr Hout; cbn [blocks_needed grams_known] in *; try done.
  1: { intros offset count length_. rewrite lookup_insert_Some. intros [[<- [= <- <-]]|[_ H]]; [done|by apply Hout]. }
  all: rewrite grams_known_children in Hr; revert out Hout; induction IH as [|r rs H1 _ IHrs]; intros out Hout; cbn [fold_left]; [done|];
    apply IHrs; [intros; apply Hr; by right|apply H1; [apply Hr; left|done]].
Qed.

Definition resolves (q : Query) : Prop :=
  exists r, resolve id_space strategy lookup_ q = Ok r /\
    forall x, satisfied (near x) q = true -> holds x r.

Lemma resolve_and_children qs children (P : N -> Prop) :
  Forall resolves qs -> (forall x, P x -> forall c, c ∈ children -> holds x c) ->
  exists r, (fix and_children (subs : list Query) (children : list Resolved) : res Resolved :=
      match subs with
      | [] => Ok (prune_and children strategy)
      | sub :: subs =>
          r ← resolve id_space strategy lookup_ sub;
          match r with
          | RNone => Ok RNone
          | RAll => and_children subs children
          | resolved => and_children subs (children ++ [resolved])
          end
      end) qs children = Ok r /\
    forall x, P x -> forallb (satisfied (near x)) qs = true -> holds x r.
Proof.
  intros Hqs. revert children P. induction Hqs as [|q qs Hq Hqs IH]; intros children P Hch.
  - eexists. split; [done|]. intros x HP _. apply prune_and_holds. by apply Hch.
  - destruct Hq as (r & -> & Hr). cbn [mbind res_bind].
    assert (forall x, P x /\ satisfied (near x) q = true -> forall c, c ∈ children ++ [r] -> holds x c) as Hch'.
    { intros x [HP Hs] c [?| ->%list_elem_of_singleton]%elem_of_app; [by eapply Hch|by apply Hr]. }
    destruct r; try (destruct (IH _ _ Hch') as (r' & Hr' & Hx); exists r'; split; [exact Hr'|];
      intros x HP [Hs Hs']%andb_true_iff; by apply Hx).
    + destruct (IH _ _ Hch) as (r' & Hr' & Hx). exists r'. split; [exact Hr'|].
      intros x HP [Hs Hs']%andb_true_iff. by apply Hx.
    + exists RNone. split; [done|]. intros x HP [Hs Hs']%andb_true_iff. by apply Hr.
Qed.

Lemma resolve_or_children qs children (P : N -> Prop) :
  Forall resolves qs -> (forall x, P x -> exists c, c ∈ children /\ holds x c) ->
  exists r, (fix or_children (subs : list Query) (children : list Resolved) : res Resolved :=
      match subs with
      | [] => Ok (match children with [child] => child | [] => RNone | _ => ROr children end)
      | sub :: subs =>
          r ← resolve id_space strategy lookup_ sub;
          match r with
          | RAll => Ok RAll
          | RNone => or_children subs children
          | resolved => or_children subs (children ++ [resolved])
          end
      end) qs children = Ok r /\
    forall x, P x \/ existsb (satisfied (near x)) qs = true -> holds x r.
Proof.
  intros Hqs. revert children P. induction Hqs as [|q qs Hq Hqs IH]; intros children P Hch.
  - eexists. split; [done|]. intros x [HP|?]; [|done]. destruct (Hch x HP) as (c & Hc & Hh).
    destruct children as [|c1 [|c2 cs]]; [set_solver|apply list_elem_of_singleton in Hc; by subst|by eapply holds_or].
  - destruct Hq as (r & -> & Hr). cbn [mbind res_bind existsb].
    assert (forall x, P x \/ satisfied (near x) q = true -> exists c, c ∈ children ++ [r] /\ holds x c) as Hch'.
    { intros x [HP|Hs]; [destruct (Hch x HP) as (c & ? & ?); exists c|exists r]; set_solver. }
    destruct r; try (destruct (IH _ _ Hch') as (r' & Hr' & Hx); exists r'; split; [exact Hr'|];
      intros x Hs; apply Hx; rewrite orb_true_iff in Hs; tauto).
    + exists RAll. split; [done|]. done.
    + destruct (IH _ _ Hch) as (r' & Hr' & Hx). exists r'. split; [exact Hr'|].
      intros x Hs. apply Hx. rewrite orb_true_iff in Hs. destruct Hs as [?|[Hs|?]]; [tauto| |tauto].
      exfalso. apply (Hr x Hs). by intros ? [].
Qed.

Lemma resolve_ok q : resolves q.
Proof.
  induction q as [|qs IH|qs IH|g] using query_ind'; unfold resolves; cbn [resolve satisfied].
  - exists RAll. done.
  - destruct (resolve_and_children qs [] (fun _ => True) IH) as (r & Hr & Hx); [set_solver|].
    exists r. split; [exact Hr|]. intros x. by apply Hx.
  - destruct (resolve_or_children qs [] (fun _ => False) IH) as (r & Hr & Hx); [done|].
    exists r. split; [exact Hr|]. intros x Hs. apply Hx. by right.
  - apply resolve_gram_ok.
Qed.
End resolution.

(** ** Theorems *)

(** The dictionary value of a posting: packing accepts exactly the offsets
    and counts within the format limits, fits 64 bits and unpacks to what was
    packed. *)
Theorem pack_posting_roundtrip offset count :
  (offset < 2 ^ 40 /\ count < 2 ^ 24 <-> exists value, pack_posting offset count = Ok value) /\
  forall value, pack_posting offset count = Ok value ->
    value < U64 /\ unpack_posting value = (offset, count).
Proof.
  unfold pack_posting, OFFSET_BITS, COUNT_BITS. rewrite !N.shiftl_1_l. split.
  - destruct (N.ltb_spec offset (2 ^ 40)), (N.ltb_spec count (2 ^ 24)); cbn; split; intros H'; try lia; eauto;
      destruct H' as [? ?]; done.
  - intros value H. res_inv.
    destruct (unpack_pack_posting offset count) as [Hu Hb]; [lia|lia|]. by split.
Qed.

(** The grams looked up for a set of queries are exactly those that occur
    in them, and the traversal of the explicit stack terminates. *)
Theorem collect_query_grams_exact queries gram :
  gram ∈ collect_query_grams queries <-> exists q, q ∈ queries /\ occurs gram q.
Proof. apply elem_of_collect. Qed.

(** C35: the evaluator implements the set denotation.  When every block that
    [blocks_needed] lists was fetched and is ascending, evaluation succeeds,
    early exits and the ordering of the intersections included: the selection
    is ascending and holds exactly the ids of the denotation. *)
Theorem eval_refines_denotation blocks expand resolved :
  (forall offset ids, blocks !! offset = Some ids -> ascending ids) ->
  (forall offset, is_Some (blocks_needed resolved ∅ !! offset) -> is_Some (blocks !! offset)) ->
  exists selection, eval blocks expand resolved = Ok selection /\
    selection_ok selection /\ forall id, selected selection id <-> denote blocks expand resolved id.
Proof.
  intros Hasc Hneeded. apply eval_ok; [done|]. apply fetched_mentions.
  intros offset Hm. apply Hneeded, blocks_needed_spec. by right.
Qed.

(** C10: no false negative in evaluation.  Let the dictionary and the fetched
    blocks describe posting lists.  Then resolving and evaluating a query
    succeed, and every id for which each gram the query relies on has a posting
    that expands over the id is selected: dropping absent grams, saturated
    grams, the siblings of singletons and all but the rarest grams only ever
    widens the result. *)
Theorem resolve_eval_no_false_negative id_space strategy lookup_ postings content expand blocks q :
  (forall gram, entry_ok id_space lookup_ postings content gram) ->
  (forall offset ids, blocks !! offset = Some ids -> ascending ids) ->
  (forall resolved offset, resolve id_space strategy lookup_ q = Ok resolved ->
    is_Some (blocks_needed resolved ∅ !! offset) -> blocks !! offset = Some (content offset)) ->
  exists resolved selection,
    resolve id_space strategy lookup_ q = Ok resolved /\
    eval blocks expand resolved = Ok selection /\
    forall id, satisfied (near postings expand id) q = true -> selected selection id.
Proof.
  intros Hentries Hasc Hblocks.
  destruct (resolve_ok id_space strategy lookup_ postings content expand Hentries blocks q) as (r & Hr & Hx).
  assert (agrees content blocks r) as Ha.
  { intros offset Hm. eapply Hblocks; [done|]. apply blocks_needed_spec. by right. }
  destruct (eval_ok blocks expand Hasc r) as (s & Hs & _ & Hden).
  { apply fetched_mentions. intros offset Hm. rewrite Ha by done. done. }
  exists r, s. split_and!; [done|done|]. intros id Hsat. apply Hden. by apply Hx.
Qed.

Lemma elem_of_partition (p : Resolved -> bool) l yes no c :
  List.partition p l = (yes, no) -> (c ∈ yes <-> c ∈ l /\ p c = true) /\ (c ∈ no <-> c ∈ l /\ p c = false).
Proof.
  intros E. rewrite partition_as_filter in E. injection E as <- <-.
  rewrite !elem_of_coq_filter, negb_true_iff. tauto.
Qed.

(** The first [k] elements in count order are no more frequent than the rest. *)
Lemma rarest_first k (l : list Resolved) c d :
  let sorted := sort_by (fun a b => gram_count a <=? gram_count b) l in
  c ∈ take k sorted -> d ∈ l -> d ∉ take k sorted -> gram_count c <= gram_count d.
Proof.
  intros sorted Hc Hd Hn.
  assert (StronglySorted (fun a b => (gram_count a <=? gram_count b) = true) sorted) as Hs
    by (apply sort_by_sorted; intros; lia).
  assert (d ∈ take k sorted ++ drop k sorted) as Hd' by (rewrite take_drop; by apply elem_of_sort_by).
  apply elem_of_app in Hd' as [?|Hd']; [done|].
  rewrite <- (take_drop k sorted) in Hs. clear Hn. clearbody sorted. revert Hs Hc Hd'.
  generalize (take k sorted) as l1, (drop k sorted) as l2. clear. intros l1 l2 Hs Hc Hd.
  induction l1 as [|x l1 IH]; [set_solver|]. apply StronglySorted_inv in Hs as [Hs Hx].
  apply elem_of_cons in Hc as [->|Hc]; [|by apply IH].
  rewrite Forall_forall in Hx. apply N.leb_le, Hx, elem_of_app. by right.
Qed.

(** [prune_and] without a singleton among the children. *)
Lemma prune_grams_spec strategy children :
  let limit := match strategy with Trigram => 64%nat | Sparse => 8%nat end in
  existsb is_doc children = false ->
  exists grams others,
    prune_and children strategy = match grams ++ others with [] => RAll | [child] => child | all => RAnd all end /\
    (length grams <= limit)%nat /\
    (forall c, c ∈ others <-> c ∈ children /\ is_gram c = false) /\
    (forall c, c ∈ grams -> c ∈ children /\ is_gram c = true /\
      forall d, d ∈ children -> is_gram d = true -> d ∉ grams -> gram_count c <= gram_count d).
Proof.
  intros limit Hdoc. unfold prune_and. rewrite Hdoc.
  destruct (List.partition is_gram children) as [grams others] eqn:E.
  pose proof (fun c => proj1 (elem_of_partition _ _ _ _ c E)) as Hg.
  pose proof (fun c => proj2 (elem_of_partition _ _ _ _ c E)) as Ho.
  change (match strategy with Trigram => BLOCK_MAX_GRAMS_PER_AND | Sparse => SPARSE_MAX_GRAMS_PER_AND end) with limit.
  eexists _, others. split; [reflexivity|]. destruct (Nat.ltb_spec limit (length grams)).
  - split_and!; [rewrite length_take; lia|done|]. intros c Hc.
    assert (c ∈ grams) as Hc'.
    { apply elem_of_take in Hc as (i & Hi & _). apply list_elem_of_lookup_2 in Hi. by rewrite elem_of_sort_by in Hi. }
    apply Hg in Hc' as [? ?]. split_and!; [done|done|]. intros d Hd Hdg Hn.
    eapply rarest_first; [exact Hc| |exact Hn]. by apply Hg.
  - split_and!; [done|done|]. intros c [? ?]%Hg. split_and!; [done|done|]. intros d Hd Hdg Hn.
    destruct Hn. by apply Hg.
Qed.

(** Pruning bounds the posting fetches of a conjunction.  Beside a
    singleton no gram child survives; otherwise at most the strategy's limit
    do, each at least as rare as every dropped one.  The other children stay. *)
Theorem prune_and_bounded strategy children :
  let limit := match strategy with Trigram => 64%nat | Sparse => 8%nat end in
  exists grams others,
    prune_and children strategy = match grams ++ others with [] => RAll | [child] => child | all => RAnd all end /\
    (length grams <= if existsb is_doc children then 0 else limit)%nat /\
    (forall c, c ∈ others <-> c ∈ children /\ is_gram c = false) /\
    (forall c, c ∈ grams -> c ∈ children /\ is_gram c = true /\
      forall d, d ∈ children -> is_gram d = true -> d ∉ grams -> gram_count c <= gram_count d).
Proof.
  intros limit. destruct (existsb is_doc children) eqn:Hdoc; [|by apply prune_grams_spec].
  exists [], (List.filter (fun child => negb (is_gram child)) children). cbn [app]. split_and!.
  - unfold prune_and. rewrite Hdoc. destruct (List.filter _ children) as [|c [|c2 cs]] eqn:E; try done.
    apply existsb_elem in Hdoc as (c & Hc & Hd).
    assert (c ∈ List.filter (fun child => negb (is_gram child)) children) as Hin.
    { apply elem_of_coq_filter. split; [done|]. by destruct c. }
    rewrite E in Hin. set_solver.
  - done.
  - intros c. by rewrite elem_of_coq_filter, negb_true_iff.
  - intros c Hc. set_solver.
Qed.

(** ** Witnesses: three documents, the grams "abc" (rare), "bcd" (singleton)
    and "xyz" (everywhere) *)

Definition demo_postings (g : list N) : list N :=
  if bool_decide (g = [97; 98; 99]) then [0; 2]
  else if bool_decide (g = [98; 99; 100]) then [2]
  else if bool_decide (g = [120; 121; 122]) then [0; 1; 2] else [].
Definition demo_lookup (g : list N) : res (option TermValue) :=
  match demo_postings g with
  | [] => Ok None
  | [id] => v ← pack_posting id 1; Ok (Some {| packed := v; tv_len := None |})
  | [_; _] as ids => v ← pack_posting 100 (len ids); Ok (Some {| packed := v; tv_len := None |})
  | ids => v ← pack_posting 200 (len ids); Ok (Some {| packed := v; tv_len := None |})
  end.
Definition demo_content (offset : N) : list N := if offset =? 100 then [0; 2] else [0; 1; 2].
Definition demo_query : Query := QAnd [QGram [97; 98; 99]; QOr [QGram [98; 99; 100]; QGram [113; 113; 113]]].
Definition demo_wide_query : Query := QAnd [QGram [97; 98; 99]; QGram [97; 98; 99]].

Lemma pack_posting_roundtrip_witness :
  pack_posting 100 2 = Ok 2199023255652 /\ unpack_posting 2199023255652 = (100, 2).
Proof.
  split; [vm_compute; reflexivity|].
  exact (proj2 (proj2 (pack_posting_roundtrip 100 2) 2199023255652 eq_refl)).
Defined.

Lemma demo_blocks_ascending offset ids :
  (<[100 := [0; 2]]> ∅ : gmap N (list N)) !! offset = Some ids -> ascending ids.
Proof.
  rewrite lookup_insert. case_decide; [|by rewrite lookup_empty]. intros [= <-].
  apply is_ascending_spec. reflexivity.
Defined.

Lemma eval_refines_denotation_witness :
  eval (<[100 := [0; 2]]> ∅) None (RAnd [RGram 100 2 2; RDoc 2]) = Ok (SIds [2]) /\
  exists selection, eval (<[100 := [0; 2]]> ∅) None (RAnd [RGram 100 2 2; RDoc 2]) = Ok selection /\
    selection_ok selection /\
    forall id, selected selection id <-> denote (<[100 := [0; 2]]> ∅) None (RAnd [RGram 100 2 2; RDoc 2]) id.
Proof.
  split; [vm_compute; reflexivity|]. apply eval_refines_denotation; [exact demo_blocks_ascending|].
  intros offset. cbn [blocks_needed fold_left]. rewrite !lookup_insert.
  case_decide; [done|]. rewrite lookup_empty. by intros [? ?].
Defined.

Lemma resolve_eval_no_false_negative_witness :
  resolve 3 Trigram demo_lookup demo_query = Ok (RDoc 2) /\
  exists resolved selection,
    resolve 3 Trigram demo_lookup demo_wide_query = Ok resolved /\
    eval (<[100 := [0; 2]]> ∅) None resolved = Ok selection /\
    forall id, satisfied (near demo_postings None id) demo_wide_query = true -> selected selection id.
Proof.
  split; [vm_compute; reflexivity|].
  apply (resolve_eval_no_false_negative 3 Trigram demo_lookup demo_postings demo_content);
    [|exact demo_blocks_ascending|].
  - intros gram. unfold entry_ok, demo_lookup, demo_postings.
    repeat case_bool_decide; vm_compute; repeat split; intros; first [discriminate|reflexivity|congruence].
  - intros resolved offset Hr. vm_compute in Hr. injection Hr as <-.
    cbn [blocks_needed fold_left]. rewrite !lookup_insert. case_decide as E; [|rewrite lookup_empty; by intros [? ?]].
    intros _. rewrite <- E. reflexivity.
Defined.
