(* ===== verification/SparseTable.v ===== *)
(** * Sparse term dictionary (crates/index/src/sparse_table.rs)

    A sorted hash table: delta-varint entries in blocks of about 128 KiB, an
    index of first hashes, offsets and digests, and a footer.  The writer, the
    entry decoder, the index parser and the block lookup.  SHA-256 is a
    parameter; the sink is an infallible byte list that is part of the state. *)

From S2P Require Import Prelude BitPack Bytes Eval.

(** "SGSPARSE" *)
Definition SPARSE_TABLE_MAGIC : list N := [83; 71; 83; 80; 65; 82; 83; 69].
Definition BLOCK_BYTES : N := 128 * 1024.
Definition INDEX_ENTRY_BYTES : N := 8 + 8 + 32.
Definition FOOTER_BYTES : N := 8 + 8 + 8 + 8.

(** Seven bits a byte: ten passes drain a [u64]. *)
Fixpoint write_varint_loop (fuel : nat) (value : N) : list N :=
  match fuel with
  | O => []
  | S fuel =>
      let byte := N.land value 127 in
      let value := N.shiftr value 7 in
      if value =? 0 then [byte] else N.lor byte 128 :: write_varint_loop fuel value
  end.
Definition write_varint (value : N) : list N := write_varint_loop 10 value.

(** The cursor is the remaining input. *)
Fixpoint read_varint_loop (input : list N) (value shift : N) : res (N * list N) :=
  match input with
  | [] => Err "sparse table block ended inside a varint"
  | byte :: input =>
      ensure (shift <? 64) "sparse table varint overflows u64";;
      ensure ((shift <? 63) || (N.land byte 127 <=? 1)) "sparse table varint overflows u64";;
      let value := N.lor value (shl64 (N.land byte 127) shift) in
      if N.land byte 128 =? 0 then Ok (value, input)
      else read_varint_loop input value (shift + 7)
  end.
Definition read_varint (input : list N) : res (N * list N) := read_varint_loop input 0 0.

Definition Entry : Type := N * N * option N.

(** The [read_value] closure. *)
Definition read_value (input : list N) : res (N * option N * list N) :=
  '(tag, input) ← read_varint input;
  if N.land tag 1 =? 1 then
    value ← pack_posting (N.shiftr tag 1) 1; Ok (value, None, input)
  else
    ensure (negb (N.shiftr tag 1 =? 1)) "sparse table singleton is not canonical";;
    '(offset, input) ← read_varint input;
    '(length_, input) ← read_varint input;
    ensure (0 <? length_) "sparse table posting length is zero";;
    value ← pack_posting offset (N.shiftr tag 1); Ok (value, Some length_, input).

Section visit.
Context {S : Type} (visit : S -> Entry -> res S).

(** [while cursor < block.len()]: each pass consumes a byte. *)
Fixpoint entries_loop (fuel : nat) (hash : N) (input : list N) (s : S) : res S :=
  match fuel, input with
  | Datatypes.S fuel, _ :: _ =>
      '(delta, input) ← read_varint input;
      ensure (0 <? delta) "sparse table hashes must be strictly ascending";;
      hash ← with_context (checked_add U64 hash delta) "sparse table hash delta overflows";
      '(value, length_, input) ← read_value input;
      s ← visit s (hash, value, length_);
      entries_loop fuel hash input s
  | _, _ => Ok s
  end.

Definition for_each_entry (block : list N) (s : S) : res S :=
  ensure (8 <? len block) "sparse table block is too short";;
  first ← expect (get_range block 0 8) "eight bytes";
  let hash := from_be first in
  '(value, length_, input) ← read_value (drop 8 block);
  s ← visit s (hash, value, length_);
  entries_loop (length input) hash input s.
End visit.

Record SparseBlockRef : Type := { first_hash : N; br_offset : N; br_len : N; br_hash : list N }.
Record SparseTableIndex : Type := { entry_count : N; blocks : list SparseBlockRef }.

Section writer.
Context (sha256 : list N -> list N).

Record SparseTableWriter : Type := {
  writer : list N;
  block : list N;
  block_first_hash : N;
  last_hash : option N;
  w_entry_count : N;
  written : N;
  index : list SparseBlockRef;
}.

Definition new_table (sink : list N) : SparseTableWriter :=
  {| writer := sink ++ SPARSE_TABLE_MAGIC; block := []; block_first_hash := 0; last_hash := None;
     w_entry_count := 0; written := len SPARSE_TABLE_MAGIC; index := [] |}.

Definition flush_block (w : SparseTableWriter) : SparseTableWriter :=
  match block w with
  | [] => w
  | _ =>
      {| writer := writer w ++ block w; block := []; block_first_hash := block_first_hash w;
         last_hash := last_hash w; w_entry_count := w_entry_count w;
         written := wrapping_add U64 (written w) (len (block w));
         index := index w ++ [{| first_hash := block_first_hash w; br_offset := written w;
                                br_len := len (block w); br_hash := sha256 (block w) |}] |}
  end.

Definition insert (w : SparseTableWriter) (hash value : N) (length_ : option N) : res SparseTableWriter :=
  ensure (match last_hash w with None => true | Some last => last <? hash end)
    "sparse table inserts must be ascending and unique";;
  '(first, key) ← (match block w with
    | [] => Ok (hash, to_be_bytes hash)
    | _ => last ← with_context (last_hash w) "delta after the first entry";
           Ok (block_first_hash w, write_varint (wrapping_sub U64 hash last))
    end);
  let '(offset, count) := unpack_posting value in
  payload ← (if count =? 1 then
      ensure (bool_decide (length_ = None)) "singletons have no posting list";;
      Ok (write_varint (N.lor (shl64 offset 1) 1))
    else
      n ← with_context length_ "multi-doc sparse entries must carry a posting length";
      ensure (0 <? n) "posting length must be positive";;
      Ok (write_varint (shl64 count 1) ++ write_varint offset ++ write_varint n));
  let w := {| writer := writer w; block := block w ++ key ++ payload; block_first_hash := first;
              last_hash := Some hash; w_entry_count := wrapping_add U64 (w_entry_count w) 1;
              written := written w; index := index w |} in
  Ok (if BLOCK_BYTES <=? len (block w) then flush_block w else w).

Definition index_record (r : SparseBlockRef) : list N :=
  to_le_bytes (first_hash r) ++ to_le_bytes (br_offset r) ++ br_hash r.

Definition finish (w : SparseTableWriter) : list N * list N :=
  let w := flush_block w in
  let index_offset := written w in
  let tail := concat (index_record <$> index w) ++ to_le_bytes (w_entry_count w) ++
              to_le_bytes (len (index w)) ++ to_le_bytes index_offset ++ SPARSE_TABLE_MAGIC in
  (writer w ++ tail, hex (sha256 tail)).
End writer.

(** The loop over [index_bytes.chunks_exact(INDEX_ENTRY_BYTES)]. *)
Definition parse_entry (index_bytes : list N) (block_count index_offset : N)
    (s : N * list SparseBlockRef) (entry : list N) : res (N * list SparseBlockRef) :=
  let '(expected_offset, blocks) := s in
  first_hash ← (b ← expect (get_range entry 0 8) "range out of bounds"; read_u64 b);
  offset ← (b ← expect (get_range entry 8 16) "range out of bounds"; read_u64 b);
  ensure (offset =? expected_offset) "sparse table blocks are not contiguous";;
  let next := len blocks + 1 in
  next_offset ← (if next <? block_count
    then b ← expect (get_range index_bytes (next * INDEX_ENTRY_BYTES + 8) (next * INDEX_ENTRY_BYTES + 16)) "range out of bounds";
         read_u64 b
    else Ok index_offset);
  n ← with_context (checked_sub next_offset offset) "sparse table block length underflows";
  ensure ((8 <? n) && (n <=? BLOCK_BYTES + 32)) "sparse table block length is invalid";;
  hash ← expect (get_range entry 16 48) "range out of bounds";
  Ok (next_offset, blocks ++ [{| first_hash := first_hash; br_offset := offset; br_len := n; br_hash := hash |}]).

Definition parse (table_len : N) (tail : list N) : res SparseTableIndex :=
  ensure ((len SPARSE_TABLE_MAGIC + FOOTER_BYTES <=? table_len) && (FOOTER_BYTES <=? len tail) && (len tail <=? table_len))
    "sparse table is truncated";;
  footer ← expect (get_range tail (len tail - FOOTER_BYTES) (len tail)) "range out of bounds";
  magic ← expect (get_range footer 24 32) "range out of bounds";
  ensure (bool_decide (magic = SPARSE_TABLE_MAGIC)) "sparse table footer magic mismatch";;
  entry_count ← (b ← expect (get_range footer 0 8) "range out of bounds"; read_u64 b);
  block_count ← (b ← expect (get_range footer 8 16) "range out of bounds"; read_u64 b);
  index_offset ← (b ← expect (get_range footer 16 24) "range out of bounds"; read_u64 b);
  index_len ← with_context (checked_mul U64 block_count INDEX_ENTRY_BYTES) "sparse table index length overflows";
  ensure (bool_decide ((checked_add U64 index_offset index_len ≫= fun end_ => checked_add U64 end_ FOOTER_BYTES)
            = Some table_len)) "sparse table index does not abut the footer";;
  let tail_start := table_len - len tail in
  ensure (tail_start <=? index_offset) "sparse table tail does not include the index";;
  index_bytes ← with_context (get_range tail (index_offset - tail_start) (len tail - FOOTER_BYTES))
    "sparse table index is out of tail bounds";
  ensure (len index_bytes =? index_len) "sparse table index length mismatch";;
  '(_, blocks) ← foldM (parse_entry index_bytes block_count index_offset) (len SPARSE_TABLE_MAGIC, [])
    (chunks_exact (N.to_nat INDEX_ENTRY_BYTES) index_bytes);
  ensure (forallb (fun '(a, b) => first_hash a <? first_hash b) (pairs blocks)) "sparse table block index is not sorted";;
  ensure (Bool.eqb (entry_count =? 0) (match blocks with [] => true | _ => false end))
    "sparse table entry count does not match its blocks";;
  Ok {| entry_count := entry_count; blocks := blocks |}.

(** [partition_point(..).checked_sub(1)] *)
Definition block_for (t : SparseTableIndex) (hash : N) : option N :=
  checked_sub (partition_point (fun b => first_hash b <=? hash) (blocks t)) 1.

(** ** Varints *)

Lemma land_127 v : N.land v 127 = v mod 128.
Proof. change 127 with (N.ones 7). apply N.land_ones. Qed.
Lemma land_128 b : b < 256 -> (N.land b 128 =? 0) = (b <? 128).
Proof.
  intros Hb. apply eq_true_iff_eq. rewrite N.eqb_eq, N.ltb_lt.
  change 128 with (N.shiftl 1 7) at 1. destruct (N.ltb_spec b 128) as [Hlt|Hge].
  - split; [done|]. intros _. apply N.bits_inj. intros j. rewrite N.land_spec, N.bits_0.
    rewrite N.shiftl_1_l, N.pow2_bits_eqb. destruct (N.eqb_spec 7 j) as [<-|]; [|by rewrite andb_false_r].
    rewrite andb_true_r. apply N.bits_above_log2. destruct (decide (b = 0)) as [->|]; [done|].
    apply N.log2_lt_pow2; [lia|done].
  - split; [|lia]. intros H. apply (f_equal (fun x => N.testbit x 7)) in H.
    rewrite N.land_spec, N.shiftl_1_l, N.pow2_bits_true, N.bits_0, andb_true_r in H.
    rewrite N.testbit_eqb in H. apply N.eqb_neq in H. change (2 ^ 7) with 128 in H. lia.
Qed.
Lemma lor_128 b : b < 128 -> N.lor b 128 = b + 128.
Proof. intros. change 128 with (N.shiftl 1 7). rewrite lor_add_shift by done. done. Qed.

Lemma read_write_varint_loop fuel value acc shift rest :
  value * 2 ^ shift < U64 -> shift < 64 -> acc < 2 ^ shift -> value < 128 ^ N.of_nat fuel -> (0 < fuel)%nat ->
  read_varint_loop (write_varint_loop fuel value ++ rest) acc shift = Ok (acc + 2 ^ shift * value, rest).
Proof.
  revert value acc shift. induction fuel as [|fuel IH]; intros value acc shift Hv Hs Ha Hf Hpos; [lia|].
  cbn [write_varint_loop]. rewrite land_127, N.shiftr_div_pow2. change (2 ^ 7) with 128.
  pose proof (N.mod_lt value 128 ltac:(lia)) as Hm. pose proof (pow2_pos shift) as Hp.
  assert (value mod 128 * 2 ^ shift < U64) as Hlow.
  { eapply N.le_lt_trans; [|exact Hv]. apply N.mul_le_mono_r, N.Div0.mod_le. }
  assert ((shift <? 63) || (value mod 128 <=? 1) = true) as Hcheck.
  { destruct (N.ltb_spec shift 63); [done|]. replace shift with 63 in * by lia. cbn [orb]. apply N.leb_le.
    change (2 ^ 63) with 9223372036854775808 in Hlow. lia. }
  assert (N.lor acc (shl64 (value mod 128) shift) = acc + 2 ^ shift * (value mod 128)) as Hlor.
  { unfold shl64. rewrite N.mod_small by (rewrite N.shiftl_mul_pow2; done). by apply lor_add_shift. }
  destruct (N.eqb_spec (value / 128) 0) as [E|E]; cbn [app read_varint_loop].
  - destruct (N.ltb_spec shift 64); [|lia]. cbn [ensure mbind res_bind].
    rewrite land_127, N.Div0.mod_mod, Hcheck, Hlor. cbn [ensure mbind res_bind].
    rewrite land_128 by lia. destruct (N.ltb_spec (value mod 128) 128); [|lia].
    do 2 f_equal. replace (value mod 128) with value by lia. done.
  - destruct (N.ltb_spec shift 64); [|lia]. cbn [ensure mbind res_bind].
    rewrite lor_128 by done. rewrite land_127. replace ((value mod 128 + 128) mod 128) with (value mod 128) by lia.
    rewrite Hcheck, Hlor. cbn [ensure mbind res_bind]. rewrite land_128 by lia.
    destruct (N.ltb_spec (value mod 128 + 128) 128); [lia|].
    assert (value / 128 * 2 ^ (shift + 7) < U64) as Hv'.
    { rewrite pow2_add. change (2 ^ 7) with 128. eapply N.le_lt_trans; [|exact Hv].
      pose proof (N.Div0.mul_div_le value 128). nia. }
    rewrite IH; [| done | | |rewrite Nat2N.inj_succ, N.pow_succ_r' in Hf; apply N.Div0.div_lt_upper_bound; lia|].
    + do 2 f_equal. rewrite pow2_add. change (2 ^ 7) with 128. pose proof (N.div_mod value 128 ltac:(lia)). nia.
    + destruct (N.ltb_spec (shift + 7) 64); [done|]. exfalso.
      assert (2 ^ 64 <= 2 ^ (shift + 7)) by (apply N.pow_le_mono_r; lia). nia.
    + rewrite pow2_add. change (2 ^ 7) with 128. nia.
    + destruct fuel; [|lia]. change (128 ^ N.of_nat 1) with 128 in Hf. lia.
Qed.

Lemma read_write_varint value rest : value < U64 -> read_varint (write_varint value ++ rest) = Ok (value, rest).
Proof.
  intros Hv. unfold read_varint, write_varint. rewrite read_write_varint_loop; try lia.
  f_equal. f_equal. lia.
Qed.

Lemma write_varint_loop_len fuel k value :
  value < 128 ^ N.of_nat k -> (0 < k)%nat -> (0 < fuel)%nat ->
  (1 <= length (write_varint_loop fuel value) <= k)%nat.
Proof.
  revert k value. induction fuel as [|fuel IH]; intros k value Hv Hk Hf; [lia|]. cbn [write_varint_loop].
  rewrite N.shiftr_div_pow2. change (2 ^ 7) with 128.
  destruct (N.eqb_spec (value / 128) 0) as [E|E]; cbn [length]; [lia|].
  destruct k as [|[|k]]; [lia|change (128 ^ N.of_nat 1) with 128 in Hv; lia|].
  destruct fuel as [|fuel]; [cbn; lia|].
  specialize (IH (S k) (value / 128)). rewrite Nat2N.inj_succ, N.pow_succ_r' in Hv.
  specialize (IH ltac:(apply N.Div0.div_lt_upper_bound; lia) ltac:(lia) ltac:(lia)). lia.
Qed.
Lemma write_varint_len k value : value < 128 ^ N.of_nat k -> (0 < k)%nat -> 1 <= len (write_varint value) <= N.of_nat k.
Proof. intros. pose proof (write_varint_loop_len 10 k value). unfold len, write_varint. lia. Qed.

(** ** Entries *)

(** What [insert] writes for a value and its posting length. *)
Definition encode_value (value : N) (length_ : option N) : list N :=
  let '(offset, count) := unpack_posting value in
  if count =? 1 then write_varint (N.lor (shl64 offset 1) 1)
  else write_varint (shl64 count 1) ++ write_varint offset ++ write_varint (default 0 length_).

Definition entry_hash (e : Entry) : N := e.1.1.
Definition valid_entry (e : Entry) : Prop :=
  let '(hash, value, length_) := e in
  hash < U64 /\ value < U64 /\
  match length_ with
  | None => (unpack_posting value).2 = 1
  | Some n => 0 < n < U64 /\ (unpack_posting value).2 <> 1
  end.

Fixpoint encode_rest (previous : N) (es : list Entry) : list N :=
  match es with
  | [] => []
  | e :: es => write_varint (entry_hash e - previous) ++ encode_value e.1.2 e.2 ++ encode_rest (entry_hash e) es
  end.
Definition encode_block (es : list Entry) : list N :=
  match es with
  | [] => []
  | e :: es => to_be_bytes (entry_hash e) ++ encode_value e.1.2 e.2 ++ encode_rest (entry_hash e) es
  end.

Lemma unpack_bounds value : value < U64 -> (unpack_posting value).1 < 2 ^ 40 /\ (unpack_posting value).2 < 2 ^ 24.
Proof.
  intros Hv. unfold unpack_posting, OFFSET_BITS. cbn [fst snd].
  replace (N.shiftl 1 40 - 1) with (N.ones 40) by done. rewrite N.land_ones, N.shiftr_div_pow2.
  split; [apply N.mod_lt; lia|lia].
Qed.
Lemma pack_unpack value : value < U64 ->
  let '(offset, count) := unpack_posting value in pack_posting offset count = Ok value.
Proof.
  intros Hv. pose proof (unpack_bounds value Hv) as [Ho Hc].
  destruct (unpack_posting value) as [offset count] eqn:E. cbn [fst snd] in *. unfold pack_posting.
  unfold OFFSET_BITS, COUNT_BITS. rewrite !N.shiftl_1_l.
  destruct (N.ltb_spec offset (2 ^ 40)); [|lia]. destruct (N.ltb_spec count (2 ^ 24)); [|lia].
  cbn [ensure mbind res_bind]. f_equal. unfold shl64. rewrite N.mod_small by (rewrite N.shiftl_mul_pow2; lia).
  rewrite lor_add_shift by done.
  unfold unpack_posting, OFFSET_BITS in E. replace (N.shiftl 1 40 - 1) with (N.ones 40) in E by done.
  rewrite N.land_ones, N.shiftr_div_pow2 in E. injection E as <- <-.
  rewrite (N.mod_small (value / 2 ^ 40)) by lia. pose proof (N.div_mod value (2 ^ 40) ltac:(lia)). lia.
Qed.

Lemma tag_bit v : N.land v 1 = v mod 2.
Proof. change 1 with (N.ones 1) at 1. apply N.land_ones. Qed.

Lemma read_encode_value value length_ rest :
  valid_entry (0, value, length_) -> read_value (encode_value value length_ ++ rest) = Ok (value, length_, rest).
Proof.
  intros (_ & Hv & Hl). pose proof (unpack_bounds value Hv) as [Ho Hc]. pose proof (pack_unpack value Hv) as Hp.
  unfold encode_value, read_value. destruct (unpack_posting value) as [offset count]. cbn [fst snd] in *.
  destruct (N.eqb_spec count 1) as [->|Hne].
  - destruct length_ as [n|]; [lia|].
    assert (N.lor (shl64 offset 1) 1 = 2 * offset + 1) as ->.
    { unfold shl64. rewrite N.shiftl_mul_pow2, N.mod_small by lia. rewrite N.lor_comm.
      rewrite <- N.shiftl_mul_pow2, lor_add_shift by done. change (2 ^ 1) with 2. lia. }
    rewrite read_write_varint by lia. cbn [mbind res_bind]. rewrite tag_bit, N.shiftr_div_pow2. change (2 ^ 1) with 2.
    replace ((2 * offset + 1) mod 2) with 1 by lia. replace ((2 * offset + 1) / 2) with offset by lia.
    cbn [N.eqb Pos.eqb]. by rewrite Hp.
  - destruct length_ as [n|]; [|done].
    assert (shl64 count 1 = 2 * count) as ->.
    { unfold shl64. rewrite N.shiftl_mul_pow2, N.mod_small by lia. change (2 ^ 1) with 2. lia. }
    rewrite <- !app_assoc, read_write_varint by lia. cbn [mbind res_bind].
    rewrite tag_bit, N.shiftr_div_pow2. change (2 ^ 1) with 2.
    replace ((2 * count) mod 2) with 0 by lia. replace (2 * count / 2) with count by lia.
    cbn [N.eqb]. destruct (N.eqb_spec count 1); [done|]. change (default 0 (Some n)) with n. cbn [negb ensure mbind res_bind].
    rewrite read_write_varint by lia. cbn [mbind res_bind]. rewrite read_write_varint by lia. cbn [mbind res_bind].
    destruct (N.ltb_spec 0 n); [|lia]. cbn [ensure mbind res_bind]. by rewrite Hp.
Qed.

Lemma encode_value_len value length_ :
  valid_entry (0, value, length_) -> 1 <= len (encode_value value length_) <= 20.
Proof.
  intros (_ & Hv & Hl). pose proof (unpack_bounds value Hv) as [Ho Hc].
  unfold encode_value. destruct (unpack_posting value) as [offset count]. cbn [fst snd] in *.
  destruct (N.eqb_spec count 1) as [->|Hne].
  - destruct (write_varint_len 10 (N.lor (shl64 offset 1) 1)); [|lia|lia].
    unfold shl64. rewrite N.shiftl_mul_pow2, N.mod_small by lia. rewrite N.lor_comm, <- N.shiftl_mul_pow2, lor_add_shift by done.
    change (128 ^ N.of_nat 10) with (2 ^ 70). lia.
  - destruct length_ as [n|]; [|done]. rewrite !len_app. change (default 0 (Some n)) with n.
    assert (shl64 count 1 < 128 ^ N.of_nat 4).
    { unfold shl64. rewrite N.shiftl_mul_pow2, N.mod_small by lia. change (128 ^ N.of_nat 4) with (2 ^ 28). lia. }
    pose proof (write_varint_len 4 (shl64 count 1) ltac:(done) ltac:(lia)).
    pose proof (write_varint_len 6 offset ltac:(change (128 ^ N.of_nat 6) with (2 ^ 42); lia) ltac:(lia)).
    pose proof (write_varint_len 10 n ltac:(change (128 ^ N.of_nat 10) with (2 ^ 70); lia) ltac:(lia)). lia.
Qed.

(** ** Decoding a block gives its entries *)

Abbreviation hashes_ascending es := (ascending (entry_hash <$> es)).

Section decode.
Context {S : Type} (visit : S -> Entry -> res S).

Lemma entries_loop_spec fuel previous es s :
  Forall valid_entry es -> ascending (previous :: (entry_hash <$> es)) -> previous < U64 ->
  (length (encode_rest previous es) <= fuel)%nat ->
  entries_loop visit fuel previous (encode_rest previous es) s = foldM visit s es.
Proof.
  revert fuel previous s. induction es as [|[[hash value] length_] es IH]; intros fuel previous s Hv Ha Hp Hf.
  { by destruct fuel. }
  apply Forall_cons in Hv as [Hv1 Hv]. cbn [fmap list_fmap] in Ha. change (entry_hash (hash, value, length_)) with hash in Ha.
  apply StronglySorted_inv in Ha as [Ha Hlt]. apply Forall_cons in Hlt as [Hlt _]. pose proof Hv1 as (Hh & Hval & Hl).
  assert (valid_entry (0, value, length_)) as Hv0 by (split; [lia|done]).
  cbn [encode_rest entry_hash fst snd] in *.
  assert (1 <= len (write_varint (hash - previous))) as Hne.
  { apply (write_varint_len 10); [change (128 ^ N.of_nat 10) with (2 ^ 70)|]; lia. }
  rewrite length_app in Hf. destruct fuel as [|fuel]; [unfold len in Hne; lia|].
  destruct (write_varint (hash - previous) ++ _) as [|b input] eqn:E.
  { apply app_eq_nil in E as [E _]. rewrite E in Hne. vm_compute in Hne. done. }
  cbn [entries_loop]. rewrite <- E. clear E b input.
  rewrite read_write_varint by lia. cbn [mbind res_bind].
  destruct (N.ltb_spec 0 (hash - previous)); [|lia]. cbn [ensure mbind res_bind].
  unfold checked_add. replace (previous + (hash - previous)) with hash by lia.
  destruct (N.ltb_spec hash U64); [|lia]. cbn [with_context mbind res_bind].
  rewrite read_encode_value by done. cbn [mbind res_bind foldM].
  destruct (visit s (hash, value, length_)) as [s'| |]; cbn [mbind res_bind]; [|done|done].
  apply IH; [done|done|done|]. rewrite length_app in Hf. unfold len in Hne. lia.
Qed.

Lemma for_each_entry_encode es s :
  es <> [] -> Forall valid_entry es -> hashes_ascending es ->
  for_each_entry visit (encode_block es) s = foldM visit s es.
Proof.
  intros Hne Hv Ha. destruct es as [|[[hash value] length_] es]; [done|]. clear Hne.
  apply Forall_cons in Hv as [Hv1 Hv]. pose proof Hv1 as (Hh & Hval & Hl).
  assert (valid_entry (0, value, length_)) as Hv0 by (split; [lia|done]).
  unfold for_each_entry, encode_block. cbn [entry_hash fst snd].
  pose proof (encode_value_len value length_ Hv0). pose proof (to_be_bytes_len hash) as Hb.
  rewrite !len_app, Hb. destruct (N.ltb_spec 8 (8 + (len (encode_value value length_) + len (encode_rest hash es)))); [|lia].
  cbn [ensure mbind res_bind]. rewrite get_range_prefix by done. cbn [expect mbind res_bind].
  rewrite from_to_be_bytes by done. rewrite drop_app_length' by (unfold len in Hb; lia).
  rewrite read_encode_value by done. cbn [mbind res_bind foldM].
  destruct (visit s (hash, value, length_)) as [s'| |]; cbn [mbind res_bind]; [|done|done].
  apply entries_loop_spec; [done|done|done|done].
Qed.
End decode.

Lemma encode_rest_app previous es e :
  encode_rest previous (es ++ [e]) =
  encode_rest previous es ++ write_varint (entry_hash e - List.last (entry_hash <$> es) previous) ++
    encode_value e.1.2 e.2.
Proof.
  revert previous. induction es as [|e' es IH]; intros previous; cbn [app encode_rest fmap list_fmap].
  - cbn. by rewrite app_nil_r.
  - rewrite IH, <- !app_assoc. do 3 f_equal. destruct es; [done|]. cbn [fmap list_fmap].
    change (List.last (?a :: ?b :: ?l) ?d) with (List.last (b :: l) d).
    f_equal. f_equal. f_equal. generalize (entry_hash <$> es). intros l. generalize (entry_hash e0). intros x.
    revert x. induction l as [|y l IHl]; intros x; [done|apply IHl].
Qed.

Lemma encode_block_snoc es e :
  es <> [] ->
  encode_block (es ++ [e]) =
  encode_block es ++ write_varint (entry_hash e - List.last (entry_hash <$> es) 0) ++ encode_value e.1.2 e.2.
Proof.
  destruct es as [|e0 es]; [done|]. intros _. cbn [app encode_block]. rewrite encode_rest_app, <- !app_assoc.
  do 4 f_equal. destruct es; [done|]. cbn [fmap list_fmap].
  change (List.last (?a :: ?b :: ?l) ?d) with (List.last (b :: l) d).
  f_equal. f_equal. generalize (entry_hash <$> es). intros l. generalize (entry_hash e1). intros x.
  revert x. induction l as [|y l IHl]; intros x; [done|apply IHl].
Qed.

Lemma encode_block_nil es : encode_block es = [] -> es = [].
Proof.
  destruct es as [|e es]; [done|]. cbn [encode_block]. intros [E _]%app_eq_nil.
  pose proof (to_be_bytes_len (entry_hash e)) as H. by rewrite E in H.
Qed.

Lemma encode_rest_len previous es :
  Forall valid_entry es -> len (encode_rest previous es) <= 30 * len es.
Proof.
  revert previous. induction es as [|[[hash value] length_] es IH]; intros previous Hv; cbn [encode_rest]; [done|].
  apply Forall_cons in Hv as [Hv1 Hv]. rewrite !len_app, len_cons. specialize (IH (entry_hash (hash, value, length_)) Hv).
  destruct Hv1 as (Hh & Hv1). pose proof (encode_value_len value length_ ltac:(split; [lia|done])).
  cbn [entry_hash fst snd] in *.
  pose proof (write_varint_len 10 (hash - previous) ltac:(change (128 ^ N.of_nat 10) with (2 ^ 70); lia) ltac:(lia)). lia.
Qed.
Lemma encode_block_len es : Forall valid_entry es -> len (encode_block es) <= 30 * len es.
Proof.
  destruct es as [|[[hash value] length_] es]; [done|]. intros [Hv1 Hv]%Forall_cons. cbn [encode_block].
  rewrite !len_app, to_be_bytes_len, len_cons. pose proof (encode_rest_len hash es Hv).
  destruct Hv1 as (Hh & Hv1). pose proof (encode_value_len value length_ ltac:(split; [lia|done])).
  cbn [entry_hash fst snd] in *. lia.
Qed.

(** ** The writer *)

Section writer_proofs.
Context (sha256 : list N -> list N).

(** The index of a sequence of blocks laid out from an offset. *)
Fixpoint refs (offset : N) (groups : list (list Entry)) : list SparseBlockRef :=
  match groups with
  | [] => []
  | g :: groups =>
      {| first_hash := default 0 (head (entry_hash <$> g)); br_offset := offset;
         br_len := len (encode_block g); br_hash := sha256 (encode_block g) |} ::
      refs (offset + len (encode_block g)) groups
  end.
Definition layout (groups : list (list Entry)) : list N := concat (encode_block <$> groups).

Lemma refs_app offset g1 g2 : refs offset (g1 ++ g2) = refs offset g1 ++ refs (offset + len (layout g1)) g2.
Proof.
  revert offset. induction g1 as [|g g1 IH]; intros offset; unfold layout; cbn [app refs fmap list_fmap concat].
  - by rewrite N.add_0_r.
  - rewrite IH. unfold layout. rewrite len_app. do 3 f_equal. lia.
Qed.
Lemma layout_app g1 g2 : layout (g1 ++ g2) = layout g1 ++ layout g2.
Proof. unfold layout. by rewrite fmap_app, concat_app. Qed.
Lemma layout_len groups : Forall valid_entry (concat groups) -> len (layout groups) <= 30 * len (concat groups).
Proof.
  unfold layout. induction groups as [|g groups IH]; cbn [concat fmap list_fmap]; [done|].
  rewrite Forall_app, !len_app. intros [Hg Hgs]. specialize (IH Hgs). pose proof (encode_block_len g Hg). lia.
Qed.

Definition block_size_ok (g : list Entry) : Prop := g <> [] /\ 8 < len (encode_block g) <= BLOCK_BYTES + 32.

Record writes (w : SparseTableWriter) (es : list Entry) (closed : list (list Entry)) (current : list Entry) : Prop := {
  ws_split : es = concat closed ++ current;
  ws_valid : Forall valid_entry es;
  ws_ascending : hashes_ascending es;
  ws_writer : writer w = SPARSE_TABLE_MAGIC ++ layout closed;
  ws_block : block w = encode_block current;
  ws_first : current <> [] -> block_first_hash w = default 0 (head (entry_hash <$> current));
  ws_last : last_hash w = last (entry_hash <$> es);
  ws_count : w_entry_count w = len es;
  ws_written : written w = 8 + len (layout closed);
  ws_index : index w = refs 8 closed;
  ws_closed : Forall block_size_ok closed;
  ws_current : len (encode_block current) < BLOCK_BYTES;
}.

Lemma new_table_writes : writes (new_table []) [] [] [].
Proof. split; try done; constructor. Qed.

Lemma flush_block_spec w es closed current :
  es = concat closed ++ current -> Forall valid_entry es -> len es < 2 ^ 56 ->
  writer w = SPARSE_TABLE_MAGIC ++ layout closed -> block w = encode_block current ->
  (current <> [] -> block_first_hash w = default 0 (head (entry_hash <$> current))) ->
  written w = 8 + len (layout closed) -> index w = refs 8 closed ->
  let closed' := match current with [] => closed | _ => closed ++ [current] end in
  flush_block sha256 w =
    {| writer := SPARSE_TABLE_MAGIC ++ layout closed'; block := []; block_first_hash := block_first_hash w;
       last_hash := last_hash w; w_entry_count := w_entry_count w;
       written := 8 + len (layout closed'); index := refs 8 closed' |}.
Proof.
  intros Hes Hv Hlen Hw Hb Hf Hwr Hi closed'. unfold flush_block. rewrite Hb.
  destruct current as [|e current].
  { cbn [encode_block]. destruct w; cbn in *. by subst. }
  destruct (encode_block (e :: current)) eqn:E; [by apply encode_block_nil in E|]. rewrite <- E.
  subst closed'. rewrite layout_app, refs_app, Hw, Hwr, Hi, Hf by done.
  assert (layout [e :: current] = encode_block (e :: current)) as El by (unfold layout; cbn [fmap list_fmap concat]; by rewrite app_nil_r).
  rewrite El, len_app, <- app_assoc. cbn [refs].
  rewrite wrapping_add_small; [by rewrite N.add_assoc|].
  subst es. apply Forall_app in Hv as [Hv1 Hv2]. rewrite len_app in Hlen.
  pose proof (layout_len closed Hv1). pose proof (encode_block_len _ Hv2). lia.
Qed.

Lemma last_current (closed : list (list Entry)) current :
  current <> [] -> last (entry_hash <$> concat closed ++ current) = last (entry_hash <$> current).
Proof.
  intros Hne. rewrite fmap_app, last_app. destruct (last (entry_hash <$> current)) eqn:E; [done|].
  apply last_None in E. by destruct current.
Qed.

(** The bytes [insert] appends for the key. *)
Lemma insert_block current hash value length_ last_ :
  (current <> [] -> last (entry_hash <$> current) = Some last_) ->
  encode_block (current ++ [(hash, value, length_)]) =
  encode_block current ++ (match current with [] => to_be_bytes hash | _ => write_varint (hash - last_) end) ++
    encode_value value length_.
Proof.
  intros Hlast. destruct current as [|e current].
  - cbn [app encode_block encode_rest entry_hash fst snd]. by rewrite app_nil_r.
  - rewrite encode_block_snoc by done. rewrite list_last_default, Hlast by done. done.
Qed.

Lemma insert_inversion w hash value length_ w' :
  insert sha256 w hash value length_ = Ok w' -> value < U64 -> (forall n, length_ = Some n -> n < U64) ->
  (forall last_, last_hash w = Some last_ -> last_ < hash) /\
  (hash < U64 -> valid_entry (hash, value, length_)) /\
  exists first key,
    (match block w with
     | [] => Ok (hash, to_be_bytes hash)
     | _ => last ← with_context (last_hash w) "delta after the first entry";
            Ok (block_first_hash w, write_varint (wrapping_sub U64 hash last))
     end) = Ok (first, key) /\
    let w1 := {| writer := writer w; block := block w ++ key ++ encode_value value length_; block_first_hash := first;
              last_hash := Some hash; w_entry_count := wrapping_add U64 (w_entry_count w) 1;
              written := written w; index := index w |} in
    w' = if BLOCK_BYTES <=? len (block w1) then flush_block sha256 w1 else w1.
Proof.
  intros H Hv Hn. unfold insert in H. apply bind_ok in H as ([] & Hasc%ensure_ok & H).
  apply bind_ok in H as ([first key] & Hkey & H).
  unfold valid_entry, encode_value. destruct (unpack_posting value) as [offset count]. cbn [snd].
  apply bind_ok in H as (payload & Hpay & H). injection H as <-.
  split; [|split].
  - intros last_ E. rewrite E in Hasc. lia.
  - intros Hh. split_and!; [done|done|]. destruct (N.eqb_spec count 1); res_inv.
    + apply bool_decide_eq_true in H as ->. done.
    + subst length_. split; [|done]. specialize (Hn _ eq_refl). lia.
  - exists first, key. split; [done|]. destruct (N.eqb_spec count 1); res_inv; [done|]. by subst length_.
Qed.

Lemma insert_writes w es closed current hash value length_ w' :
  writes w es closed current -> hash < U64 -> value < U64 -> (forall n, length_ = Some n -> n < U64) ->
  len es + 1 < 2 ^ 56 -> insert sha256 w hash value length_ = Ok w' ->
  exists closed' current', writes w' (es ++ [(hash, value, length_)]) closed' current'.
Proof.
  intros [Hes Hval Hasc Hwr Hb Hf Hlast Hc Hwn Hi Hcl Hcur] Hh Hv Hn Hlen H.
  destruct (insert_inversion _ _ _ _ _ H Hv Hn) as (Hlt & Hve & first & key & Hkey & Hw'). clear H.
  specialize (Hve Hh). set (e := (hash, value, length_)) in *.
  assert (Forall valid_entry (es ++ [e])) as Hval' by (apply Forall_app; split; [done|by constructor]).
  assert (hashes_ascending (es ++ [e])) as Hasc'.
  { rewrite fmap_app. apply ascending_snoc; [done|]. intros x Hx. apply Hlt. by rewrite Hlast. }
  assert (block w ++ key ++ encode_value value length_ = encode_block (current ++ [e]) /\
          first = default 0 (head (entry_hash <$> current ++ [e]))) as [Hblock Hfirst].
  { subst e. rewrite Hb in Hkey |- *. destruct current as [|e0 current].
    - cbn [encode_block] in Hkey. injection Hkey as <- <-. split; [|done].
      symmetry. by apply (insert_block [] hash value length_ 0).
    - destruct (encode_block (e0 :: current)) eqn:E; [by apply encode_block_nil in E|]. rewrite <- E in *. clear E.
      apply bind_ok in Hkey as (last_ & Hl%with_context_ok & Hkey). injection Hkey as <- <-.
      pose proof Hl as Hl'. rewrite Hlast, Hes, last_current in Hl' by done.
      specialize (Hlt _ Hl). rewrite wrapping_sub_small by lia.
      split; [symmetry; by apply (insert_block (e0 :: current) hash value length_ last_)|]. by rewrite Hf. }
  assert (len (encode_block (current ++ [e])) <= len (encode_block current) + 30) as Hgrow.
  { rewrite <- Hblock, <- Hb, !len_app.
    pose proof (encode_value_len value length_ ltac:(destruct Hve; split; [lia|done])) as Hev.
    rewrite Hb in Hkey |- *. destruct current as [|e0 current].
    - injection Hkey as _ <-. rewrite to_be_bytes_len. lia.
    - destruct (encode_block (e0 :: current)) eqn:E; [by apply encode_block_nil in E|].
      apply bind_ok in Hkey as (last_ & _ & Hkey). injection Hkey as _ <-.
      pose proof (write_varint_len 10 (wrapping_sub U64 hash last_)) as Hwl. unfold wrapping_sub in *.
      pose proof (N.mod_lt (hash + U64 - last_) U64 ltac:(lia)).
      change (128 ^ N.of_nat 10) with (2 ^ 70) in Hwl. lia. }
  cbv zeta in Hw'. cbn [block] in Hw'. rewrite Hblock in Hw'.
  assert (es ++ [e] = concat closed ++ (current ++ [e])) as Hes' by (by rewrite Hes, app_assoc).
  assert (wrapping_add U64 (w_entry_count w) 1 = len (es ++ [e])) as Hcount.
  { rewrite Hc, wrapping_add_small, len_app by lia. done. }
  destruct (N.leb_spec BLOCK_BYTES (len (encode_block (current ++ [e])))) as [Hfull|Hroom].
  - exists (closed ++ [current ++ [e]]), []. subst w'.
    rewrite (flush_block_spec _ (es ++ [e]) closed (current ++ [e])); cbn [writer block block_first_hash written index]; try done.
    2: { rewrite len_app. done. }
    destruct (current ++ [e]) eqn:Ec; [by destruct current|]. rewrite <- Ec in *. cbn [last_hash w_entry_count].
    split; cbn [writer block block_first_hash last_hash w_entry_count written index]; try done.
    + rewrite Hes', concat_app. cbn [concat]. by rewrite !app_nil_r.
    + rewrite fmap_app. symmetry. apply last_snoc.
    + apply Forall_app. split; [done|]. constructor; [|done]. split; [congruence|]. change BLOCK_BYTES with 131072 in *. lia.
  - exists closed, (current ++ [e]). subst w'.
    split; cbn [writer block block_first_hash last_hash w_entry_count written index]; try done.
    rewrite fmap_app. symmetry. apply last_snoc.
Qed.

Context (sha256_len : forall data, length (sha256 data) = 32%nat).

Definition tail_of (es : list Entry) (groups : list (list Entry)) : list N :=
  concat (index_record <$> refs 8 groups) ++ to_le_bytes (len es) ++
  to_le_bytes (len (refs 8 groups)) ++ to_le_bytes (8 + len (layout groups)) ++ SPARSE_TABLE_MAGIC.

Lemma encode_block_size current :
  Forall valid_entry current -> current <> [] -> 8 < len (encode_block current).
Proof.
  destruct current as [|[[hash value] length_] es]; [done|]. intros [(Hh & Hv) _]%Forall_cons _.
  cbn [encode_block]. rewrite !len_app, to_be_bytes_len.
  pose proof (encode_value_len value length_ ltac:(split; [lia|done])). cbn [entry_hash fst snd]. lia.
Qed.

Lemma finish_writes w es closed current :
  writes w es closed current -> len es < 2 ^ 56 ->
  exists groups, es = concat groups /\ Forall block_size_ok groups /\
    finish sha256 w = (SPARSE_TABLE_MAGIC ++ layout groups ++ tail_of es groups, hex (sha256 (tail_of es groups))).
Proof.
  intros [Hes Hval Hasc Hwr Hb Hf Hlast Hc Hwn Hi Hcl Hcur] Hlen.
  exists (match current with [] => closed | _ => closed ++ [current] end). split_and!.
  - destruct current; [by rewrite app_nil_r in Hes|]. rewrite concat_app. cbn [concat]. by rewrite app_nil_r.
  - destruct current as [|e current]; [done|]. apply Forall_app. split; [done|]. constructor; [|done].
    split; [done|]. rewrite Hes in Hval. apply Forall_app in Hval as [_ Hval].
    pose proof (encode_block_size _ Hval). split; [auto|]. change BLOCK_BYTES with 131072 in *. lia.
  - unfold finish. rewrite (flush_block_spec w es closed current) by done. cbn [writer index w_entry_count written].
    rewrite Hc. unfold tail_of. by rewrite <- !app_assoc.
Qed.

(** ** Parsing the written tail *)

Lemma index_record_length r : length (br_hash r) = 32%nat -> length (index_record r) = 48%nat.
Proof. intros H. unfold index_record, to_le_bytes. by rewrite !length_app, !le_bytes_length, H. Qed.
Lemma refs_hash_length offset groups : Forall (fun r => length (br_hash r) = 32%nat) (refs offset groups).
Proof. revert offset. induction groups; intros; constructor; [apply sha256_len|auto]. Qed.
Lemma refs_records offset groups : Forall (fun r => length r = 48%nat) (index_record <$> refs offset groups).
Proof.
  apply Forall_fmap. eapply Forall_impl; [apply refs_hash_length|]. intros r. apply index_record_length.
Qed.
Lemma refs_length offset groups : length (refs offset groups) = length groups.
Proof. revert offset. induction groups; intros; cbn; auto. Qed.
Lemma records_len offset groups : len (concat (index_record <$> refs offset groups)) = 48 * len groups.
Proof.
  pose proof (length_concat_records 48 _ (refs_records offset groups)) as H.
  rewrite length_fmap, refs_length in H. unfold len. lia.
Qed.

Lemma record_fields r before after :
  first_hash r < U64 -> br_offset r < U64 -> length (br_hash r) = 32%nat ->
  get_range (index_record r) 0 8 = Some (to_le_bytes (first_hash r)) /\
  get_range (before ++ index_record r ++ after) (len before + 8) (len before + 16) = Some (to_le_bytes (br_offset r)) /\
  get_range (index_record r) 8 16 = Some (to_le_bytes (br_offset r)) /\
  get_range (index_record r) 16 48 = Some (br_hash r).
Proof.
  intros Hf Ho Hh. unfold index_record. split_and!.
  - by apply get_range_prefix.
  - rewrite get_range_app_skip, <- !app_assoc. by apply get_range_mid.
  - by apply get_range_mid.
  - rewrite app_assoc. apply get_range_suffix; rewrite ?len_app, !to_le_bytes_len; [done|].
    unfold len. rewrite Hh. done.
Qed.

Lemma parse_entries index_bytes done_ groups offset expected count end_ :
  index_bytes = concat (index_record <$> done_) ++ concat (index_record <$> refs offset groups) ->
  Forall (fun r => length (br_hash r) = 32%nat) done_ ->
  count = len done_ + len groups -> end_ = offset + len (layout groups) -> end_ < U64 ->
  Forall block_size_ok groups -> Forall valid_entry (concat groups) -> expected = offset ->
  foldM (parse_entry index_bytes count end_) (expected, done_) (index_record <$> refs offset groups) =
    Ok (end_, done_ ++ refs offset groups).
Proof.
  intros Hib Hdone Hc He Hend Hg Hv ->. revert done_ offset Hib Hdone Hc He.
  induction groups as [|g groups IH]; intros done_ offset Hib Hdone Hc He; cbn [refs fmap list_fmap foldM].
  { unfold layout in He. cbn in He. rewrite len_nil, N.add_0_r in He. by rewrite app_nil_r, He. }
  apply Forall_cons in Hg as [[Hne Hsize] Hg]. cbn [concat] in Hv. apply Forall_app in Hv as [Hv1 Hv].
  unfold layout in He. cbn [fmap list_fmap concat] in He. rewrite len_app in He. fold (layout groups) in He.
  set (r := {| first_hash := _ |}).
  assert (first_hash r < U64) as Hfh.
  { subst r. destruct g as [|[[h v] l] g]; [done|]. apply Forall_cons in Hv1 as [(Hh & _) _]. exact Hh. }
  assert (length (br_hash r) = 32%nat) as Hrh by apply sha256_len.
  destruct (record_fields r [] [] Hfh ltac:(subst r; cbn [br_offset]; lia) Hrh) as (Hf1 & _ & Hf2 & Hf3).
  assert (parse_entry index_bytes count end_ (offset, done_) (index_record r) = Ok (offset + len (encode_block g), done_ ++ [r])) as ->.
  { unfold parse_entry. rewrite Hf1, Hf2, Hf3. cbn [expect mbind res_bind]. rewrite !read_to_le_bytes by (subst r; cbn [br_offset]; lia).
    cbn [mbind res_bind]. change (br_offset r) with offset. rewrite N.eqb_refl. cbn [ensure mbind res_bind].
    assert ((if len done_ + 1 <? count
      then b ← expect (get_range index_bytes ((len done_ + 1) * INDEX_ENTRY_BYTES + 8) ((len done_ + 1) * INDEX_ENTRY_BYTES + 16)) "range out of bounds";
           read_u64 b
      else Ok end_) = Ok (offset + len (encode_block g))) as ->.
    { rewrite len_cons in Hc. destruct groups as [|g2 groups].
      - destruct (N.ltb_spec (len done_ + 1) count); [change (len (@nil (list Entry))) with 0 in Hc; lia|].
        unfold layout in He. cbn in He. rewrite len_nil in He. f_equal. lia.
      - rewrite len_cons in Hc. destruct (N.ltb_spec (len done_ + 1) count); [|lia].
        cbn [refs fmap list_fmap concat] in Hib. fold r in Hib.
        match type of Hib with _ = _ ++ _ ++ index_record ?x ++ ?after => set (r2 := x) in *; set (tl := after) in * end.
        assert (first_hash r2 < U64) as Hfh2.
        { subst r2. apply Forall_cons in Hg as [[Hne2 _] _]. destruct g2 as [|[[h v] l] g2]; [done|].
          apply Forall_cons in Hv as [(Hh & _) _]. exact Hh. }
        destruct (record_fields r2 (concat (index_record <$> done_) ++ index_record r) tl Hfh2) as (_ & Hn & _).
        { subst r2. cbn [br_offset]. lia. }
        { apply sha256_len. }
        assert (len (concat (index_record <$> done_) ++ index_record r) = (len done_ + 1) * INDEX_ENTRY_BYTES) as Hl.
        { rewrite len_app. pose proof (length_concat_records 48 (index_record <$> done_)) as H1.
          rewrite length_fmap in H1. specialize (H1 ltac:(apply Forall_fmap; eapply Forall_impl; [exact Hdone|]; intros x; apply index_record_length)).
          pose proof (index_record_length r Hrh). change INDEX_ENTRY_BYTES with 48. unfold len. lia. }
        rewrite Hl, <- app_assoc, <- Hib in Hn. rewrite Hn. cbn [expect mbind res_bind]. rewrite read_to_le_bytes; [done|].
        subst r2. cbn [br_offset]. lia. }
    cbn [mbind res_bind]. unfold checked_sub. destruct (N.leb_spec offset (offset + len (encode_block g))); [|lia].
    cbn [with_context mbind res_bind]. replace (offset + len (encode_block g) - offset) with (len (encode_block g)) by lia.
    destruct (N.ltb_spec 8 (len (encode_block g))), (N.leb_spec (len (encode_block g)) (BLOCK_BYTES + 32)); try lia.
    cbn [andb ensure mbind res_bind]. reflexivity. }
  cbn [mbind res_bind]. rewrite IH; [by rewrite <- app_assoc|done|done| | | |].
  - rewrite Hib, fmap_app, concat_app. cbn [refs fmap list_fmap concat]. fold r. by rewrite app_nil_r, <- app_assoc.
  - apply Forall_app. split; [done|]. by constructor.
  - rewrite len_app. change (len [r]) with 1. rewrite len_cons in Hc. lia.
  - lia.
Qed.

Lemma tail_of_len es groups : len (tail_of es groups) = 48 * len groups + 32.
Proof.
  unfold tail_of. rewrite !len_app, !to_le_bytes_len, records_len.
  change (len SPARSE_TABLE_MAGIC) with 8. lia.
Qed.

(** The footer's fields, whatever precedes the footer. *)
Lemma footer_fields before a b c :
  let tail := before ++ to_le_bytes a ++ to_le_bytes b ++ to_le_bytes c ++ SPARSE_TABLE_MAGIC in
  exists footer, get_range tail (len tail - 32) (len tail) = Some footer /\
    get_range footer 0 8 = Some (to_le_bytes a) /\ get_range footer 8 16 = Some (to_le_bytes b) /\
    get_range footer 16 24 = Some (to_le_bytes c) /\ get_range footer 24 32 = Some SPARSE_TABLE_MAGIC.
Proof.
  intros tail. exists (to_le_bytes a ++ to_le_bytes b ++ to_le_bytes c ++ SPARSE_TABLE_MAGIC). split_and!.
  - subst tail. apply get_range_suffix; rewrite !len_app, !to_le_bytes_len; change (len SPARSE_TABLE_MAGIC) with 8; lia.
  - by apply get_range_prefix.
  - by apply get_range_mid.
  - rewrite app_assoc. apply get_range_mid; rewrite ?len_app; by rewrite !to_le_bytes_len.
  - rewrite !app_assoc. apply get_range_suffix; rewrite ?len_app; by rewrite !to_le_bytes_len.
Qed.

Lemma refs_sorted offset groups :
  Forall block_size_ok groups -> hashes_ascending (concat groups) ->
  forallb (fun '(a, b) => first_hash a <? first_hash b) (pairs (refs offset groups)) = true.
Proof.
  intros Hg Ha. revert offset. induction Hg as [|g1 groups [Hne1 _] Hg IH]; intros offset; [done|].
  destruct Hg as [|g2 groups [Hne2 _] Hg]; [done|]. cbn [refs]. rewrite pairs_cons. cbn [forallb].
  cbn [concat] in Ha. rewrite fmap_app in Ha. apply ascending_app in Ha as (Ha1 & Ha2 & Hlt).
  rewrite andb_true_iff. split; [|by apply (IH Ha2)]. apply N.ltb_lt. cbn [first_hash].
  destruct g1 as [|e1 g1]; [done|]. destruct g2 as [|e2 g2]; [done|]. cbn. apply Hlt; left.
Qed.

Lemma parse_written es groups suffix skipped :
  es = concat groups -> Forall block_size_ok groups -> Forall valid_entry es -> hashes_ascending es ->
  SPARSE_TABLE_MAGIC ++ layout groups = skipped ++ suffix ->
  len (SPARSE_TABLE_MAGIC ++ layout groups) + len (tail_of es groups) < U64 ->
  len es < U64 ->
  parse (len (SPARSE_TABLE_MAGIC ++ layout groups) + len (tail_of es groups)) (suffix ++ tail_of es groups) =
    Ok {| entry_count := len es; blocks := refs 8 groups |}.
Proof.
  intros Hes Hg Hv Ha Hsplit Hfit Hcount. rewrite tail_of_len, len_app in *.
  change (len SPARSE_TABLE_MAGIC) with 8 in *.
  assert (len skipped + len suffix = 8 + len (layout groups)) as Hsl.
  { apply (f_equal len) in Hsplit. rewrite !len_app in Hsplit. change (len SPARSE_TABLE_MAGIC) with 8 in Hsplit. lia. }
  destruct (footer_fields (suffix ++ concat (index_record <$> refs 8 groups)) (len es) (len (refs 8 groups))
    (8 + len (layout groups))) as (footer & Hf & Hf1 & Hf2 & Hf3 & Hf4).
  rewrite <- !app_assoc in Hf. fold (tail_of es groups) in Hf.
  assert (len (suffix ++ tail_of es groups) = len suffix + 48 * len groups + 32) as Hlen by (rewrite len_app, tail_of_len; lia).
  assert (len (refs 8 groups) = len groups) as Hrl by (unfold len; by rewrite refs_length).
  unfold parse. rewrite Hlen in *. change FOOTER_BYTES with 32 in *. change (len SPARSE_TABLE_MAGIC) with 8.
  rewrite Hf, !Hrl in *.
  destruct (N.leb_spec (8 + 32) (8 + len (layout groups) + (48 * len groups + 32))); [|lia].
  destruct (N.leb_spec 32 (len suffix + 48 * len groups + 32)); [|lia].
  destruct (N.leb_spec (len suffix + 48 * len groups + 32) (8 + len (layout groups) + (48 * len groups + 32))); [|lia].
  cbn [andb ensure expect mbind res_bind]. rewrite Hf1, Hf2, Hf3, Hf4. cbn [expect mbind res_bind].
  rewrite bool_decide_true by done. cbn [ensure]. rewrite !read_to_le_bytes by lia. cbn [mbind res_bind].
  unfold checked_mul. change INDEX_ENTRY_BYTES with 48. destruct (N.ltb_spec (len groups * 48) U64); [|lia].
  cbn [with_context mbind res_bind]. rewrite bool_decide_true; cbn [ensure mbind res_bind].
  2: { unfold checked_add. destruct (N.ltb_spec (8 + len (layout groups) + len groups * 48) U64); [|lia]. cbn.
       destruct (N.ltb_spec (8 + len (layout groups) + len groups * 48 + 32) U64); [f_equal|]; lia. }
  set (tail_start := 8 + len (layout groups) + (48 * len groups + 32) - (len suffix + 48 * len groups + 32)).
  destruct (N.leb_spec tail_start (8 + len (layout groups))); [|lia]. cbn [ensure mbind res_bind].
  assert (get_range (suffix ++ tail_of es groups) (8 + len (layout groups) - tail_start) (len suffix + 48 * len groups + 32 - 32)
    = Some (concat (index_record <$> refs 8 groups))) as ->.
  { unfold tail_of. apply get_range_mid; [lia|rewrite records_len; lia]. }
  cbn [with_context mbind res_bind]. rewrite records_len. destruct (N.eqb_spec (48 * len groups) (len groups * 48)); [|lia].
  cbn [ensure mbind res_bind]. change (N.to_nat 48) with 48%nat. rewrite chunks_exact_records; [|lia|apply refs_records].
  rewrite (parse_entries _ [] groups 8); [|done|done|len_lia|done|lia|done|by rewrite <- Hes|done].
  cbn [mbind res_bind app]. rewrite refs_sorted by (done || by rewrite <- Hes). cbn [ensure mbind res_bind].
  destruct groups as [|g groups]; [rewrite Hes; done|]. cbn [refs].
  destruct (N.eqb_spec (len es) 0) as [E|]; [|done]. exfalso.
  apply Forall_cons in Hg as [[Hne _] _]. rewrite Hes in E. cbn [concat] in E. rewrite len_app in E.
  destruct g; [done|rewrite len_cons in E; lia].
Qed.

(** ** Looking a hash up *)

(** The candidate block of a hash is the only one that may hold it. *)
Lemma partition_groups offset groups hash :
  Forall block_size_ok groups -> hashes_ascending (concat groups) ->
  let k := partition_point (fun b => first_hash b <=? hash) (refs offset groups) in
  (forall g e, (exists i, get groups i = Some g /\ i + 1 <> k) -> e ∈ g -> entry_hash e <> hash) /\
  forall i r, get (refs offset groups) i = Some r ->
    exists before g after, groups = before ++ g :: after /\ i = len before /\
      r = {| first_hash := default 0 (head (entry_hash <$> g)); br_offset := offset + len (layout before);
             br_len := len (encode_block g); br_hash := sha256 (encode_block g) |}.
Proof.
  intros Hg Ha. split.
  - revert offset. induction Hg as [|g0 groups [Hne Hsz] Hg IH]; intros offset g e (i & Hi & Hik) He; [done|].
    cbn [concat] in Ha. rewrite fmap_app in Ha. apply ascending_app in Ha as (Ha0 & Ha1 & Hlt).
    cbn [refs partition_point first_hash] in *. destruct g0 as [|e0 g0]; [done|]. cbn [fmap list_fmap head] in *.
    change (default 0 (Some (entry_hash e0))) with (entry_hash e0) in *.
    destruct (N.leb_spec (entry_hash e0) hash) as [Hle|Hgt].
    + destruct (decide (i = 0)) as [->|Hi0].
      * rewrite get_cons_0 in Hi. injection Hi as <-. intros Heq.
        set (k := partition_point _ _) in Hik. assert (k <> 0) as Hk by lia. subst k.
        destruct groups as [|g1 groups]; [done|]. apply Forall_cons in Hg as [[Hne1 _] _].
        destruct g1 as [|e1 g1]; [done|]. cbn [refs partition_point first_hash fmap list_fmap head] in Hk.
        change (default 0 (Some (entry_hash e1))) with (entry_hash e1) in Hk.
        destruct (N.leb_spec (entry_hash e1) hash); [|done].
        assert (entry_hash e < entry_hash e1); [|lia].
        apply Hlt; [change (entry_hash e ∈ entry_hash <$> (e0 :: g0)); by apply list_elem_of_fmap_2|left].
      * replace i with (1 + (i - 1)) in Hi, Hik by lia. rewrite get_cons_S in Hi.
        apply (IH Ha1 (offset + len (encode_block (e0 :: g0))) g e); [|done].
        exists (i - 1). split; [exact Hi|]. lia.
    + assert (e ∈ concat ((e0 :: g0) :: groups)) as Hin.
      { apply list_elem_of_In, in_concat. exists g. rewrite <- !list_elem_of_In. split; [by eapply get_elem|done]. }
      cbn [concat] in Hin. apply elem_of_app in Hin as [Hin|Hin].
      * apply StronglySorted_inv in Ha0 as [_ Hall]. rewrite Forall_forall in Hall.
        apply elem_of_cons in Hin as [->|Hin]; [lia|]. specialize (Hall (entry_hash e) ltac:(by apply list_elem_of_fmap_2)). lia.
      * specialize (Hlt (entry_hash e0) (entry_hash e) ltac:(left) ltac:(by apply list_elem_of_fmap_2)). lia.
  - revert offset. clear. induction groups as [|g groups IH]; intros offset i r Hi; [done|]. cbn [refs] in Hi.
    destruct (decide (i = 0)) as [->|Hi0].
    + rewrite get_cons_0 in Hi. injection Hi as <-. exists [], g, groups. split_and!; [done|done|].
      unfold layout. cbn. by rewrite N.add_0_r.
    + replace i with (1 + (i - 1)) in Hi by lia. rewrite get_cons_S in Hi.
      destruct (IH _ _ _ Hi) as (before & g' & after & -> & Hlen & ->). exists (g :: before), g', after.
      split_and!; [done|len_lia|]. unfold layout. cbn [fmap list_fmap concat]. rewrite len_app. f_equal. lia.
Qed.

Definition insert_entry (w : SparseTableWriter) (e : Entry) : res SparseTableWriter :=
  let '(hash, value, length_) := e in insert sha256 w hash value length_.
Definition insert_all (es : list Entry) : res SparseTableWriter := foldM insert_entry (new_table []) es.

Definition entry_fits (e : Entry) : Prop :=
  let '(hash, value, length_) := e in hash < U64 /\ value < U64 /\ forall n, length_ = Some n -> n < U64.

Lemma insert_entry_writes w es closed current e w' :
  writes w es closed current -> entry_fits e -> len es + 1 < 2 ^ 56 -> insert_entry w e = Ok w' ->
  exists closed' current', writes w' (es ++ [e]) closed' current'.
Proof.
  intros Hw Hf Hlen H. destruct e as [[hash value] length_]. destruct Hf as (Hh & Hv & Hn).
  by eapply insert_writes.
Qed.

Lemma insert_all_writes w0 es0 closed current es w :
  writes w0 es0 closed current -> Forall entry_fits es -> len es0 + len es < 2 ^ 56 ->
  foldM insert_entry w0 es = Ok w -> exists closed' current', writes w (es0 ++ es) closed' current'.
Proof.
  revert w0 es0 closed current. induction es as [|e es IH]; intros w0 es0 closed current Hw Hf Hlen H.
  { cbn in H. injection H as <-. rewrite app_nil_r. eauto. }
  apply Forall_cons in Hf as [Hf1 Hf]. rewrite len_cons in Hlen.
  cbn [foldM] in H. apply bind_ok in H as (w1 & H1 & H).
  destruct (insert_entry_writes w0 es0 closed current e w1) as (c1 & u1 & Hw1); try done; [lia|].
  rewrite cons_middle, app_assoc. eapply IH; [exact Hw1|done| |done]. rewrite len_app. change (len [e]) with 1. lia.
Qed.

(** Valid ascending entries are accepted. *)
Lemma insert_accepts w es closed current e :
  writes w es closed current -> valid_entry e -> hashes_ascending (es ++ [e]) ->
  exists w', insert_entry w e = Ok w'.
Proof.
  intros [Hes Hval Hasc Hwr Hb Hf Hlast Hc Hwn Hi Hcl Hcur] Hve Ha. destruct e as [[hash value] length_].
  unfold insert_entry, insert.
  assert (match last_hash w with None => true | Some last => last <? hash end = true) as ->.
  { rewrite Hlast. destruct (last (entry_hash <$> es)) as [l|] eqn:E; [|done]. apply last_Some in E as [l' E].
    rewrite fmap_app, E in Ha. apply ascending_app in Ha as (_ & _ & Hlt). apply N.ltb_lt, Hlt; [|left].
    apply elem_of_app. right. left. }
  cbn [ensure mbind res_bind].
  assert (exists fk, (match block w with
     | [] => Ok (hash, to_be_bytes hash)
     | _ => last ← with_context (last_hash w) "delta after the first entry";
            Ok (block_first_hash w, write_varint (wrapping_sub U64 hash last))
     end) = Ok fk) as [[first key] ->].
  { rewrite Hb, Hlast. destruct current as [|e current]; [cbn; eauto|].
    destruct (encode_block (e :: current)) eqn:E; [by apply encode_block_nil in E|].
    rewrite Hes, last_current by done. destruct (last (entry_hash <$> e :: current)) eqn:E2; [cbn; eauto|].
    by apply last_None in E2. }
  cbn [mbind res_bind]. destruct Hve as (_ & _ & Hl). destruct (unpack_posting value) as [offset count]. cbn [snd] in Hl.
  destruct length_ as [n|].
  - destruct Hl as [Hn Hc1]. destruct (N.eqb_spec count 1); [done|]. cbn [with_context mbind res_bind].
    destruct (N.ltb_spec 0 n); [|lia]. cbn [ensure mbind res_bind]. eauto.
  - subst count. cbn [N.eqb Pos.eqb]. rewrite bool_decide_true by done. cbn [ensure mbind res_bind]. eauto.
Qed.

Lemma valid_fits e : valid_entry e -> entry_fits e.
Proof.
  destruct e as [[hash value] length_]. intros (Hh & Hv & Hl). split_and!; [done|done|]. intros n ->. lia.
Qed.

Lemma insert_all_accepts w0 es0 closed current es :
  writes w0 es0 closed current -> Forall valid_entry es -> hashes_ascending (es0 ++ es) ->
  len es0 + len es < 2 ^ 56 -> exists w, foldM insert_entry w0 es = Ok w.
Proof.
  revert w0 es0 closed current. induction es as [|e es IH]; intros w0 es0 closed current Hw Hv Ha Hlen; [cbn; eauto|].
  apply Forall_cons in Hv as [Hv1 Hv]. rewrite len_cons in Hlen.
  rewrite cons_middle, app_assoc in Ha.
  destruct (insert_accepts w0 es0 closed current e Hw Hv1) as [w1 H1].
  { rewrite fmap_app in Ha. by apply ascending_app in Ha as (? & _). }
  cbn [foldM]. rewrite H1. cbn [mbind res_bind].
  destruct (insert_entry_writes w0 es0 closed current e w1) as (c1 & u1 & Hw1); try done; [by apply valid_fits|lia|].
  eapply IH; [exact Hw1|done|done|]. rewrite len_app. change (len [e]) with 1. lia.
Qed.

Lemma collect_entries es acc :
  foldM (fun acc (e : Entry) => Ok (acc ++ [e])) acc es = Ok (acc ++ es).
Proof.
  revert acc. induction es as [|e es IH]; intros acc; cbn [foldM mbind res_bind]; [by rewrite app_nil_r|].
  by rewrite IH, <- app_assoc.
Qed.

(** What a lookup of [hash] finds in the blob. *)
Lemma lookup_written es groups blob rest hash :
  es = concat groups -> Forall block_size_ok groups -> Forall valid_entry es -> hashes_ascending es ->
  blob = (SPARSE_TABLE_MAGIC ++ layout groups) ++ rest ->
  match block_for {| entry_count := len es; blocks := refs 8 groups |} hash with
  | None => forall e, e ∈ es -> entry_hash e <> hash
  | Some i => exists ref bytes entries,
      get (refs 8 groups) i = Some ref /\
      get_range blob (br_offset ref) (br_offset ref + br_len ref) = Some bytes /\
      sha256 bytes = br_hash ref /\
      for_each_entry (fun acc (e : Entry) => Ok (acc ++ [e])) bytes [] = Ok entries /\
      hashes_ascending entries /\
      forall e, entry_hash e = hash -> (e ∈ entries <-> e ∈ es)
  end.
Proof.
  intros Hes Hg Hv Ha Hblob. subst es.
  destruct (partition_groups 8 groups hash Hg Ha) as [Hother Hshape]. unfold block_for. cbn [blocks].
  set (k := partition_point _ _) in *.
  assert (forall e, e ∈ concat groups -> exists g i, get groups i = Some g /\ e ∈ g) as Hgroup.
  { intros e He. apply list_elem_of_In, in_concat in He as (g & Hgr & He). rewrite <- list_elem_of_In in Hgr. rewrite <- list_elem_of_In in He.
    apply elem_get in Hgr as [i Hi]. eauto. }
  unfold checked_sub. destruct (N.leb_spec 1 k) as [Hk|Hk].
  - assert (k <= len (refs 8 groups)) as Hkl by apply partition_point_le.
    destruct (get_is_Some (refs 8 groups) (k - 1)) as [ref Href]; [lia|].
    destruct (Hshape _ _ Href) as (before & g & after & -> & Hi & ->).
    rewrite concat_app in *. cbn [concat] in *.
    apply Forall_app in Hv as [_ [Hvg _]%Forall_app]. rewrite !fmap_app in Ha.
    apply ascending_app in Ha as (_ & Ha & _). apply ascending_app in Ha as (Hag & _ & _).
    apply Forall_app in Hg as [_ [[Hgne _] _]%Forall_cons].
    exists {| first_hash := default 0 (head (entry_hash <$> g)); br_offset := 8 + len (layout before);
             br_len := len (encode_block g); br_hash := sha256 (encode_block g) |}, (encode_block g), g.
    cbn [br_offset br_len br_hash]. split_and!; try done.
    + subst blob. rewrite layout_app. unfold layout at 2. cbn [fmap list_fmap concat]. rewrite <- !app_assoc, app_assoc.
      apply get_range_mid; rewrite len_app; change (len SPARSE_TABLE_MAGIC) with 8; lia.
    + rewrite for_each_entry_encode by done. apply collect_entries.
    + intros e He. split; [intros; apply elem_of_app; right; apply elem_of_app; by left|]. intros Hin.
      destruct (Hgroup e Hin) as (g' & i & Hgi & Heg).
      destruct (decide (i + 1 = k)) as [E|E].
      * replace i with (len before) in Hgi by lia. unfold get in Hgi. rewrite to_nat_len, list_lookup_middle in Hgi by done.
        by injection Hgi as <-.
      * exfalso. apply (Hother g' e); [|done|done]. exists i. done.
  - intros e He. destruct (Hgroup e He) as (g & i & Hi & Heg). apply (Hother g e); [|done].
    exists i. split; [done|lia].
Qed.
End writer_proofs.

(** ** Hostile input *)

Lemma read_varint_loop_safe input value shift :
  safe (read_varint_loop input value shift) (fun '(_, rest) => (length rest < length input)%nat).
Proof.
  revert value shift. induction input as [|b input IH]; intros value shift; cbn [read_varint_loop]; [left; by eexists|].
  safe_next. intros [] _. safe_next. intros [] _. cbv zeta.
  destruct (_ =? 0); [apply safe_ok; cbn; lia|]. eapply safe_weaken; [apply IH|]. intros [v rest] ?. cbn. lia.
Qed.
#[export] Hint Resolve read_varint_loop_safe : safe.

Lemma pack_posting_safe offset count :
  safe (pack_posting offset count) (fun value => value < U64 /\ unpack_posting value = (offset, count)).
Proof.
  unfold pack_posting, OFFSET_BITS, COUNT_BITS. rewrite !N.shiftl_1_l.
  safe_next. intros [] Ho. safe_next. intros [] Hc.
  apply safe_ok. destruct (unpack_pack_posting offset count); [lia|lia|]. done.
Qed.
#[export] Hint Resolve pack_posting_safe : safe.

Definition valid_value (value : N) (length_ : option N) : Prop :=
  value < U64 /\
  match length_ with None => (unpack_posting value).2 = 1 | Some n => 0 < n /\ (unpack_posting value).2 <> 1 end.

Lemma read_value_safe input :
  safe (read_value input) (fun '(value, length_, rest) => valid_value value length_ /\ (length rest < length input)%nat).
Proof.
  unfold read_value. safe_next. intros [tag rest] Hr.
  destruct (_ =? 1).
  - safe_next. intros value [Hv Hu]. apply safe_ok.
    unfold valid_value. by rewrite Hu.
  - safe_next. intros [] Hcan.
    safe_next. intros [offset rest2] Hr2.
    safe_next. intros [n rest3] Hr3.
    safe_next. intros [] Hn.
    safe_next. intros value [Hv Hu]. apply safe_ok.
    unfold valid_value. rewrite Hu. split; [split; [done|]|lia]. cbn [snd]. split; [lia|].
    apply negb_true_iff, N.eqb_neq in Hcan. done.
Qed.
#[export] Hint Resolve read_value_safe : safe.

Definition entries_ok (es : list Entry) : Prop :=
  hashes_ascending es /\ Forall (fun e => valid_value e.1.2 e.2) es.

Lemma entries_loop_safe fuel hash input acc :
  (length input <= fuel)%nat -> entries_ok acc -> last (entry_hash <$> acc) = Some hash ->
  safe (entries_loop (fun acc (e : Entry) => Ok (acc ++ [e])) fuel hash input acc) (fun es => entries_ok es /\ es <> []).
Proof.
  revert hash input acc. induction fuel as [|fuel IH]; intros hash input acc Hf Hok Hlast; cbn [entries_loop].
  { apply safe_ok. split; [done|]. by intros ->. }
  destruct input as [|b input]; [apply safe_ok; split; [done|]; by intros ->|].
  safe_next. intros [delta rest] Hr.
  safe_next. intros [] Hd.
  safe_next. intros hash' Hh.
  safe_next. intros [[value length_] rest2] [Hv Hr2].
  cbn [mbind res_bind]. apply IH; [lia| |].
  - destruct Hok as [Ha Hvs]. apply checked_add_Some in Hh as [-> _]. split.
    + rewrite fmap_app. apply ascending_snoc; [done|]. intros x. rewrite Hlast. intros [= <-]. cbn. lia.
    + apply Forall_app. split; [done|]. by constructor.
  - rewrite fmap_app. apply last_snoc.
Qed.

Lemma for_each_entry_safe block :
  safe (for_each_entry (fun acc (e : Entry) => Ok (acc ++ [e])) block []) (fun es => entries_ok es /\ es <> []).
Proof.
  unfold for_each_entry. safe_next. intros [] Hl.
  eapply safe_bind; [apply safe_expect, get_range_is_Some; lia|]. intros first _. cbv zeta.
  safe_next. intros [[value length_] rest] [Hv Hr]. cbn [mbind res_bind].
  apply entries_loop_safe; [done| |done]. split; [repeat constructor|by constructor].
Qed.

(** Blocks that tile a byte range. *)
Fixpoint contiguous (offset : N) (bs : list SparseBlockRef) (end_ : N) : Prop :=
  match bs with
  | [] => offset = end_
  | b :: bs => br_offset b = offset /\ 8 < br_len b <= BLOCK_BYTES + 32 /\ length (br_hash b) = 32%nat /\
      contiguous (offset + br_len b) bs end_
  end.
Lemma contiguous_snoc offset bs mid b end_ :
  contiguous offset bs mid -> br_offset b = mid -> 8 < br_len b <= BLOCK_BYTES + 32 -> length (br_hash b) = 32%nat ->
  end_ = mid + br_len b -> contiguous offset (bs ++ [b]) end_.
Proof.
  revert offset. induction bs as [|b' bs IH]; intros offset; cbn [contiguous app].
  - by intros -> -> ? ? ->.
  - intros (? & ? & ? & ?) ? ? ? ?. split_and!; try done; try lia. by apply IH.
Qed.

Lemma safe_read_u64 l a b : b = a + 8 -> b <= len l ->
  safe (x ← expect (get_range l a b) "range out of bounds"; read_u64 x) (fun _ => True).
Proof.
  intros Hb Hl. eapply safe_bind; [apply safe_expect, get_range_is_Some; lia|]. intros x Hx%get_range_len.
  destruct (read_u64_no_panic x) as [v ->]; [lia|]. by apply safe_ok.
Qed.
#[export] Hint Resolve safe_read_u64 : safe.

Lemma parse_entry_safe index_bytes count end_ expected bs entry :
  len entry = 48 -> len index_bytes = 48 * count -> len bs < count -> contiguous 8 bs expected ->
  safe (parse_entry index_bytes count end_ (expected, bs) entry) (fun '(expected', bs') =>
    len bs' = len bs + 1 /\ contiguous 8 bs' expected' /\ (len bs + 1 = count -> expected' = end_)).
Proof.
  intros He Hi Hlt Hc. unfold parse_entry.
  safe_next. intros fh _.
  safe_next. intros offset _.
  safe_next. intros [] Hoff. apply N.eqb_eq in Hoff as ->. cbv zeta.
  eapply (safe_bind _ _ (fun next => len bs + 1 = count -> next = end_)).
  { destruct (N.ltb_spec (len bs + 1) count); [|by apply safe_ok].
    eapply safe_weaken; [apply safe_read_u64; change INDEX_ENTRY_BYTES with 48; lia|]. intros; lia. }
  intros next Hnext. safe_next. intros n Hn. apply checked_sub_Some in Hn as [-> Hle].
  safe_next. intros [] Hsz.
  eapply safe_bind; [apply safe_expect, get_range_is_Some; lia|]. intros hash Hhash%get_range_len. apply safe_ok.
  rewrite len_app. split_and!; [done| |done].
  eapply contiguous_snoc; [exact Hc|done| | |]; cbn [br_len br_hash]; [|unfold len in Hhash; lia|lia].
  change BLOCK_BYTES with 131072 in *. lia.
Qed.

Lemma parse_entries_safe index_bytes count end_ entries expected bs :
  Forall (fun e => length e = 48%nat) entries -> len index_bytes = 48 * count -> len bs + len entries = count ->
  contiguous 8 bs expected -> (entries = [] -> bs <> [] -> expected = end_) ->
  safe (foldM (parse_entry index_bytes count end_) (expected, bs) entries) (fun '(expected', bs') =>
    len bs' = count /\ contiguous 8 bs' expected' /\ (bs' <> [] -> expected' = end_)).
Proof.
  intros He Hi. revert expected bs. induction He as [|e entries He Hes IH]; intros expected bs Hlen Hc Hend; cbn [foldM].
  { rewrite len_nil in Hlen. apply safe_ok. split_and!; [lia|done|]. by apply Hend. }
  rewrite len_cons in Hlen. eapply safe_bind; [apply parse_entry_safe; [unfold len; lia|done|lia|done]|].
  intros [expected' bs'] (Hl & Hc' & Hend'). apply IH; [lia|done|]. intros -> _. apply Hend'. rewrite len_nil in Hlen. lia.
Qed.

Definition index_ok (t : SparseTableIndex) (table_len : N) : Prop :=
  (exists end_, contiguous 8 (blocks t) end_ /\
    (blocks t <> [] -> end_ + 48 * len (blocks t) + FOOTER_BYTES = table_len)) /\
  StronglySorted (fun a b => first_hash a < first_hash b) (blocks t) /\
  (entry_count t = 0 <-> blocks t = []).

Lemma parse_safe table_len tail : safe (parse table_len tail) (fun t => index_ok t table_len).
Proof.
  unfold parse. safe_next. intros [] H0. rewrite !andb_true_iff, !N.leb_le in H0.
  change FOOTER_BYTES with 32 in *. change (len SPARSE_TABLE_MAGIC) with 8 in *.
  eapply safe_bind; [apply safe_expect, get_range_is_Some; lia|]. intros footer Hf%get_range_len.
  eapply safe_bind; [apply safe_expect, get_range_is_Some; lia|]. intros magic _.
  safe_next. intros [] _.
  safe_next. intros entry_count _.
  safe_next. intros block_count _.
  safe_next. intros index_offset _.
  safe_next. intros index_len [-> Hil]%checked_mul_Some.
  safe_next. intros [] Habut%bool_decide_eq_true. cbv zeta.
  change INDEX_ENTRY_BYTES with 48 in *.
  assert (index_offset + block_count * 48 + 32 = table_len) as Hend.
  { destruct (checked_add U64 index_offset _) as [x|] eqn:Ex; [|done]. cbn in Habut.
    apply checked_add_Some in Ex as [-> _], Habut as [-> _]. done. }
  safe_next. intros [] Hts. safe_next. intros index_bytes _.
  safe_next. intros [] Hlen%N.eqb_eq.
  destruct (chunks_exact_spec 48 (N.to_nat block_count) index_bytes) as (H1 & H2 & _); [lia|rewrite <- to_nat_len; lia|].
  eapply safe_bind; [apply (parse_entries_safe index_bytes block_count index_offset _ 8 []); [exact H2|lia| |done|done]|].
  { rewrite len_nil. change (N.to_nat 48) with 48%nat. unfold len. lia. }
  intros [expected bs] (Hcount & Hcont & Hlast).
  safe_next. intros [] Hsorted.
  safe_next. intros [] Hempty. apply safe_ok. unfold index_ok. cbn [blocks SparseTable.entry_count].
  split_and!.
  - exists expected. split; [done|]. intros Hne. rewrite (Hlast Hne), Hcount. change FOOTER_BYTES with 32. lia.
  - eapply pairs_sorted; [|intros ? ? ?; apply N.lt_trans|exact Hsorted]. intros a b. apply N.ltb_lt.
  - apply eqb_prop in Hempty. destruct bs; destruct (N.eqb_spec entry_count 0); try done.
  Unshelve. all: done.
Qed.

(** ** Theorems *)

(** The writer accepts exactly the well-formed dictionaries: hashes
    strictly ascending, a posting length for every value but singletons. *)
Theorem sparse_insert_accepts sha256 es :
  (forall data, length (sha256 data) = 32%nat) -> Forall entry_fits es -> len es < 2 ^ 56 ->
  (exists w, insert_all sha256 es = Ok w) <-> Forall valid_entry es /\ hashes_ascending es.
Proof.
  intros Hsha Hf Hlen. split.
  - intros [w Hw]. destruct (insert_all_writes sha256 (new_table []) [] [] [] es w) as (c & u & H);
      [apply new_table_writes|done|done|done|]. cbn [app] in H. destruct H. done.
  - intros [Hv Ha]. eapply (insert_all_accepts sha256 (new_table []) [] [] []); [apply new_table_writes|done|done|done].
Qed.

(** C31: write, parse, look up.  The index parses back from every suffix of the
    blob that holds it, the recorded hash is the tail's digest, and the block
    the index names for a hash has the recorded digest and decodes to ascending
    entries among which the hash is found exactly when it was inserted, with
    the inserted value; a hash without a block was never inserted. *)
Theorem sparse_table_roundtrip sha256 es w blob tail_hash :
  (forall data, length (sha256 data) = 32%nat) -> Forall entry_fits es -> len es < 2 ^ 56 ->
  insert_all sha256 es = Ok w -> finish sha256 w = (blob, tail_hash) ->
  exists table data tail,
    blob = data ++ tail /\ tail_hash = hex (sha256 tail) /\ entry_count table = len es /\
    (forall skipped suffix, data = skipped ++ suffix -> parse (len blob) (suffix ++ tail) = Ok table) /\
    forall hash,
      match block_for table hash with
      | None => forall e, e ∈ es -> entry_hash e <> hash
      | Some i => exists ref bytes entries,
          get (blocks table) i = Some ref /\
          get_range blob (br_offset ref) (br_offset ref + br_len ref) = Some bytes /\
          sha256 bytes = br_hash ref /\
          for_each_entry (fun acc (e : Entry) => Ok (acc ++ [e])) bytes [] = Ok entries /\
          hashes_ascending entries /\
          forall e, entry_hash e = hash -> (e ∈ entries <-> e ∈ es)
      end.
Proof.
  intros Hsha Hf Hlen Hw Hfin.
  destruct (insert_all_writes sha256 (new_table []) [] [] [] es w) as (c & u & H);
    [apply new_table_writes|done|done|done|]. cbn [app] in H.
  destruct (finish_writes sha256 w es c u H Hlen) as (groups & Hes & Hg & Hfinish).
  rewrite Hfinish in Hfin. apply pair_equal_spec in Hfin as [<- <-]. destruct H as [_ Hval Hasc _ _ _ _ _ _ _ _ _].
  exists {| entry_count := len es; blocks := refs sha256 8 groups |}, (SPARSE_TABLE_MAGIC ++ layout groups), (tail_of sha256 es groups).
  split_and!; [by rewrite <- app_assoc|done|done| |].
  - intros skipped suffix Hs. rewrite app_assoc, len_app. apply (parse_written sha256 Hsha es groups suffix skipped); try done.
    + rewrite tail_of_len, len_app by done. change (len SPARSE_TABLE_MAGIC) with 8.
      assert (len (layout groups) <= 30 * len es) by (rewrite Hes; apply layout_len; by rewrite <- Hes).
      assert (len groups <= len es); [|lia]. rewrite Hes. clear -Hg.
      induction Hg as [|g groups [Hne _] _ IH]; [done|]. cbn [concat]. rewrite len_app, len_cons.
      destruct g; [done|]. len_lia.
    + lia.
  - intros hash. rewrite app_assoc. by apply (lookup_written sha256 es groups _ (tail_of sha256 es groups)).
Qed.

(** The index parser and the entry decoder are safe on arbitrary bytes.
    Neither panics.  An accepted index has sorted blocks of valid lengths that
    tile the table up to the index; an accepted block has at least one entry,
    strictly ascending hashes, values within the format limits and canonical
    singletons. *)
Theorem sparse_table_safe table_len tail block :
  no_panic (parse table_len tail) /\
  (forall table, parse table_len tail = Ok table -> index_ok table table_len) /\
  no_panic (for_each_entry (fun acc (e : Entry) => Ok (acc ++ [e])) block []) /\
  (forall entries, for_each_entry (fun acc (e : Entry) => Ok (acc ++ [e])) block [] = Ok entries ->
    entries_ok entries /\ entries <> []).
Proof.
  destruct (safe_no_panic _ _ (parse_safe table_len tail)) as [H1 H2].
  destruct (safe_no_panic _ _ (for_each_entry_safe block)) as [H3 H4]. done.
Qed.

(** ** Witnesses *)

Definition demo_sha (data : list N) : list N :=
  (foldl (fun acc b => (acc * 31 + b + 7) mod 251) 1 data) :: repeat (len data mod 256) 31.
Lemma demo_sha_length data : length (demo_sha data) = 32%nat.
Proof. reflexivity. Defined.

(** A singleton at document 5, and a posting of three ids at offset 300. *)
Definition demo_entries : list Entry := [(10, 2 ^ 40 + 5, None); (77, 3 * 2 ^ 40 + 300, Some 9)].
Lemma demo_entries_fit : Forall entry_fits demo_entries.
Proof. repeat constructor; intros n; intros E; [discriminate|injection E as <-; reflexivity]. Defined.

Lemma sparse_insert_accepts_witness :
  is_ok (insert_all demo_sha demo_entries) = true /\ (Forall valid_entry demo_entries /\ hashes_ascending demo_entries).
Proof.
  split; [vm_compute; reflexivity|].
  apply (sparse_insert_accepts demo_sha demo_entries demo_sha_length demo_entries_fit); [reflexivity|].
  eexists. vm_compute. reflexivity.
Defined.

Lemma sparse_table_roundtrip_witness :
  exists w blob tail_hash table data tail,
    insert_all demo_sha demo_entries = Ok w /\ finish demo_sha w = (blob, tail_hash) /\
    blob = data ++ tail /\ tail_hash = hex (demo_sha tail) /\ entry_count table = len demo_entries /\
    parse (len blob) (data ++ tail) = Ok table.
Proof.
  destruct (insert_all demo_sha demo_entries) as [w| |] eqn:E; [|vm_compute in E; discriminate|vm_compute in E; discriminate].
  destruct (finish demo_sha w) as [blob tail_hash] eqn:F.
  destruct (sparse_table_roundtrip demo_sha demo_entries w blob tail_hash demo_sha_length demo_entries_fit ltac:(reflexivity) E F)
    as (table & data & tail & Hb & Ht & Hc & Hp & _).
  exists w, blob, tail_hash, table, data, tail. repeat (split; [first [reflexivity|assumption]|]). exact (Hp [] data eq_refl).
Defined.
