(* ===== verification/Terms.v ===== *)
(** * Term dictionaries (crates/index/src/terms.rs)

    The dictionary of a segment maps the key of a gram to its posting list: the
    block table of SparseTable for sparse indexes, a finite-state map of the
    [fst] crate for small trigram indexes, and 256 such maps, one per first
    byte, for large ones.  The crate is an argument with its documented laws.
    The cache of decoded blocks of a lookup does not change its result and is
    left out. *)

From S2P Require Import Prelude BitPack Bytes Trigrams SparseGrams QueryPlan Eval SparseTable.

Definition TRIGRAM_SHARDS : N := 256.
Definition TRIGRAM_OFFSETS : N := TRIGRAM_SHARDS + 1.
(** "SGTERM01" *)
Definition TRIGRAM_MAGIC : list N := [83; 71; 84; 69; 82; 77; 48; 49].
Definition TRIGRAM_FOOTER_LEN : N := TRIGRAM_OFFSETS * 8.

Definition TermEntry : Type := list N * N * option N.

(** ** The fst crate *)

Record Fst (B M : Type) : Type := {
  fst_new : B; fst_insert : B -> list N -> N -> res B; fst_into_inner : B -> res (list N);
  fst_open : list N -> res M; fst_get : M -> list N -> option N; fst_stream : M -> list (list N * N);
}.
Arguments fst_new {B M} _.
Arguments fst_insert {B M} _ _ _ _.
Arguments fst_into_inner {B M} _ _.
Arguments fst_open {B M} _ _.
Arguments fst_get {B M} _ _ _.
Arguments fst_stream {B M} _ _.

(** A builder holds the entries that were inserted; the map of its bytes streams
    these entries, and a lookup finds them.  The bytes of a map begin with the
    version of the format, which is a small number. *)
Definition is_map {B M} (F : Fst B M) (kvs : list (list N * N)) (m : M) : Prop :=
  fst_stream F m = kvs /\ forall k v, fst_get F m k = Some v <-> (k, v) ∈ kvs.

Class FstOk {B M} (F : Fst B M) : Type := {
  fst_entries : B -> list (list N * N);
  fst_entries_new : fst_entries (fst_new F) = [];
  fst_entries_insert : forall b k v, safe (fst_insert F b k v) (fun b' => fst_entries b' = fst_entries b ++ [(k, v)]);
  fst_written : forall b, safe (fst_into_inner F b) (fun bytes => 0 < len bytes /\ take 8 bytes <> TRIGRAM_MAGIC /\
    exists m, fst_open F bytes = Ok m /\ is_map F (fst_entries b) m);
}.

(** ** Building *)

Section terms.
Context {B M : Type} (F : Fst B M) (sha256 : list N -> list N) (rapidhash_v3 : list N -> N).

(** [CountingWriter::write]; the writer is what was written. *)
Definition count_write (writer bytes : list N) : res (list N) :=
  _ ← with_context (checked_add U64 (len writer) (len bytes)) "term map length overflows u64";
  Ok (writer ++ bytes).

(** A builder of the crate holds the writer that it writes to. *)
Record TrigramBuilder : Type := {
  tb_builder : option (B * list N); tb_writer : option (list N); tb_shard : N; tb_offsets : list N; tb_empty : list N;
}.

Definition new_trigram : res TrigramBuilder :=
  writer ← count_write [] TRIGRAM_MAGIC;
  empty ← fst_into_inner F (fst_new F);
  Ok {| tb_builder := None; tb_writer := Some writer; tb_shard := 0; tb_offsets := [len TRIGRAM_MAGIC]; tb_empty := empty |}.

Definition close_shard (t : TrigramBuilder) : res TrigramBuilder :=
  writer ← match tb_builder t with
    | Some (builder, writer) => bytes ← fst_into_inner F builder; count_write writer bytes
    | None => writer ← with_context (tb_writer t) "trigram writer is closed"; count_write writer (tb_empty t)
    end;
  Ok {| tb_builder := None; tb_writer := Some writer; tb_shard := tb_shard t + 1; tb_offsets := tb_offsets t ++ [len writer]; tb_empty := tb_empty t |}.

(** [while self.shard < shard], which closes one shard a time. *)
Definition close_until (t : TrigramBuilder) (shard : N) : res TrigramBuilder := foldM (fun t _ => close_shard t) t (range (tb_shard t) shard).

Definition insert_trigram (t : TrigramBuilder) (gram : list N) (value : N) : res TrigramBuilder :=
  ensure (len gram =? 3) "trigram term has invalid length";;
  shard ← expect (get gram 0) "index out of bounds";
  ensure (tb_shard t <=? shard) "trigram terms are not sorted";;
  t ← close_until t shard;
  '(builder, writer) ← match tb_builder t with
    | Some builder => Ok builder
    | None => writer ← with_context (tb_writer t) "trigram writer is closed"; Ok (fst_new F, writer)
    end;
  builder ← fst_insert F builder (drop 1 gram) value;
  Ok {| tb_builder := Some (builder, writer); tb_writer := None; tb_shard := tb_shard t; tb_offsets := tb_offsets t; tb_empty := tb_empty t |}.

Definition finish_trigram (t : TrigramBuilder) : res (list N) :=
  t ← close_until t TRIGRAM_SHARDS;
  ensure (len (tb_offsets t) =? TRIGRAM_OFFSETS) "trigram term offsets are incomplete";;
  writer ← with_context (tb_writer t) "trigram writer is closed";
  foldM (fun writer offset => count_write writer (to_le_bytes offset)) writer (tb_offsets t).

Inductive TermBuilder : Type :=
  | BSingle (builder : B)
  | BSparse (w : SparseTableWriter)
  | BTrigram (t : TrigramBuilder).

Definition new_terms (strategy : Strategy) (is_sharded : bool) : res TermBuilder :=
  ensure (negb is_sharded || bool_decide (strategy = Trigram)) "only trigram term maps can be sharded";;
  match strategy, is_sharded with
  | Trigram, true => t ← new_trigram; Ok (BTrigram t)
  | Trigram, false => Ok (BSingle (fst_new F))
  | Sparse, false => Ok (BSparse (new_table []))
  | Sparse, true => Panic "entered unreachable code"
  end.

Definition insert_term (t : TermBuilder) (gram : list N) (value : N) (length_ : option N) : res TermBuilder :=
  match t with
  | BSingle builder =>
      ensure (bool_decide (length_ = None)) "trigram lengths derive from counts";;
      builder ← fst_insert F builder gram value; Ok (BSingle builder)
  | BSparse w =>
      ensure (len gram =? 8) "sparse term key must be an 8-byte hash";;
      w ← insert sha256 w (from_be gram) value length_; Ok (BSparse w)
  | BTrigram t =>
      ensure (bool_decide (length_ = None)) "trigram lengths derive from counts";;
      t ← insert_trigram t gram value; Ok (BTrigram t)
  end.

Definition finish_terms (t : TermBuilder) : res (list N * option (list N)) :=
  match t with
  | BSingle builder => bytes ← fst_into_inner F builder; Ok (bytes, None)
  | BSparse w => let '(bytes, tail_hash) := finish sha256 w in Ok (bytes, Some tail_hash)
  | BTrigram t => bytes ← finish_trigram t; Ok (bytes, None)
  end.

(** ** Reading *)

(** [SparseRemote] is left out: its ranges are read from the store
    (remote_terms.rs). *)
Inductive TermMap : Type :=
  | MSingle (map : M)
  | MSparse (index : SparseTableIndex) (bytes : list N)
  | MTrigram (maps : list M).

Definition open_terms (bytes : list N) (strategy : Strategy) : res TermMap :=
  let is_sharded := bool_decide (strategy = Trigram) && (len TRIGRAM_MAGIC <=? len bytes) && bool_decide (take (length TRIGRAM_MAGIC) bytes = TRIGRAM_MAGIC) in
  if negb is_sharded then
    match strategy with
    | Sparse => index ← parse (len bytes) bytes; Ok (MSparse index bytes)
    | Trigram => map ← fst_open F bytes; Ok (MSingle map)
    end
  else
    ensure (len TRIGRAM_MAGIC + TRIGRAM_FOOTER_LEN <=? len bytes) "trigram term map footer is truncated";;
    let footer := len bytes - TRIGRAM_FOOTER_LEN in
    let offsets := from_le <$> chunks_exact 8 (drop (N.to_nat footer) bytes) in
    ensure ((len offsets =? TRIGRAM_OFFSETS) && bool_decide (head offsets = Some (len TRIGRAM_MAGIC)) && bool_decide (last offsets = Some footer) &&
            forallb (fun pair => pair.1 <? pair.2) (pairs offsets)) "trigram term map offsets are invalid";;
    maps ← mapM_res (fun range => slice ← expect (get_range bytes range.1 range.2) "range out of bounds"; fst_open F slice) (pairs offsets);
    Ok (MTrigram maps).

(** [binary_search_by_key] in the entries of a block, whose hashes are unique. *)
Definition find_entry (hash : N) (entries : list Entry) : option Entry := snd <$> list_find (fun e : Entry => e.1.1 = hash) entries.

Definition get_term (t : TermMap) (gram : list N) : res (option TermValue) :=
  match t with
  | MSingle map => Ok ((fun v => {| packed := v; tv_len := None |}) <$> fst_get F map gram)
  | MSparse index bytes =>
      let hash := hash_ngram rapidhash_v3 gram in
      match block_for index hash with
      | None => Ok None
      | Some block_id =>
          block ← expect (get (blocks index) block_id) "index out of bounds";
          end_ ← with_context (checked_add U64 (br_offset block) (br_len block)) "sparse block extent overflows";
          raw ← with_context (get_range bytes (br_offset block) end_) "sparse block extends beyond the dictionary";
          entries ← for_each_entry (fun entries e => Ok (entries ++ [e])) raw [];
          Ok ((fun e : Entry => {| packed := e.1.2; tv_len := e.2 |}) <$> find_entry hash entries)
      end
  | MTrigram maps =>
      if len gram =? 3 then
        shard ← expect (get gram 0) "index out of bounds";
        map ← expect (get maps shard) "index out of bounds";
        Ok ((fun v => {| packed := v; tv_len := None |}) <$> fst_get F map (drop 1 gram))
      else Ok None
  end.

Definition len_terms (t : TermMap) : N :=
  match t with
  | MSingle map => len (fst_stream F map)
  | MSparse index _ => entry_count index
  | MTrigram maps => sumN ((fun map => len (fst_stream F map)) <$> maps)
  end.

Section visit.
Context {S : Type} (visit : S -> TermEntry -> res S).

Definition visit_block (bytes : list N) (s : S) (block : SparseBlockRef) : res S :=
  end_ ← with_context (checked_add U64 (br_offset block) (br_len block)) "sparse table block range overflows";
  raw ← with_context (get_range bytes (br_offset block) end_) "sparse table block is out of bounds";
  for_each_entry (fun s (e : Entry) => visit s (to_be_bytes e.1.1, e.1.2, e.2)) raw s.

Definition visit_shard (s : S) (entry : N * M) : res S :=
  shard ← (if entry.1 <? 256 then Ok entry.1 else Err "out of range integral type conversion attempted");
  foldM (fun s '(suffix, value) =>
    ensure (len suffix =? 2) "trigram suffix has invalid length";;
    visit s (shard :: suffix, value, None)) s (fst_stream F entry.2).

Definition visit_terms (t : TermMap) (s : S) : res S :=
  match t with
  | MSingle map => foldM (fun s '(gram, value) => visit s (gram, value, None)) s (fst_stream F map)
  | MSparse index bytes => foldM (visit_block bytes) s (blocks index)
  | MTrigram maps => foldM visit_shard s (enumerate maps)
  end.
End visit.
End terms.

(** ** What a builder and a map hold *)

Section term_proofs.
Context {B M : Type} (F : Fst B M) `{!FstOk F} (sha256 : list N -> list N) (rapidhash_v3 : list N -> N).
Context (sha256_len : forall data, length (sha256 data) = 32%nat).

(** The key of a gram. *)
Definition term_key (strategy : Strategy) (gram : list N) : list N :=
  match strategy with Trigram => gram | Sparse => to_be_bytes (hash_ngram rapidhash_v3 gram) end.

(** An entry of a dictionary of a strategy. *)
Definition term_fits (strategy : Strategy) (e : TermEntry) : Prop :=
  match strategy with
  | Trigram => len e.1.1 = 3 /\ Forall is_byte e.1.1
  | Sparse => exists hash, e.1.1 = to_be_bytes hash /\ entry_fits (hash, e.1.2, e.2)
  end.

Definition single_entry (kv : list N * N) : TermEntry := (kv.1, kv.2, None).
Definition sparse_entry (e : Entry) : TermEntry := (to_be_bytes e.1.1, e.1.2, e.2).
Definition shard_entry (shard : N) (kv : list N * N) : TermEntry := (shard :: kv.1, kv.2, None).
Definition shard_entries (shards : list (list (list N * N))) : list TermEntry := concat (imap (fun i kvs => shard_entry (N.of_nat i) <$> kvs) shards).

(** The bytes of a map of the crate with these entries. *)
Definition opens (kvs : list (list N * N)) (bytes : list N) : Prop := 0 < len bytes /\ exists m, fst_open F bytes = Ok m /\ is_map F kvs m.

Fixpoint offsets_from (offset : N) (files : list (list N)) : list N :=
  offset :: match files with [] => [] | file :: files => offsets_from (offset + len file) files end.

Lemma offsets_from_snoc offset files file : offsets_from offset (files ++ [file]) = offsets_from offset files ++ [offset + len (concat (files ++ [file]))].
Proof.
  revert offset. induction files as [|f files IH]; intros offset; cbn [app offsets_from concat]; [by rewrite app_nil_r|]. rewrite IH. cbn [app]. do 3 f_equal.
  rewrite !len_app. by rewrite N.add_assoc.
Qed.
Lemma len_offsets_from offset files : len (offsets_from offset files) = len files + 1.
Proof. revert offset. induction files as [|f files IH]; intros offset; cbn [offsets_from]; [done|]. rewrite !len_cons, IH. lia. Qed.

Definition suffixes_ok (kvs : list (list N * N)) : Prop := Forall (fun kv => len kv.1 = 2) kvs.

(** The state of a builder of shards: the closed ones are written, the current
    one is in the builder of the crate. *)
Record trigram_holds (es : list TermEntry) (t : TrigramBuilder) (closed : list (list (list N * N))) (files : list (list N)) (current : list (list N * N)) : Prop := {
  tg_shard : len closed = tb_shard t;
  tg_files : Forall2 opens closed files;
  tg_entries : es = shard_entries closed ++ (shard_entry (tb_shard t) <$> current);
  tg_suffixes : Forall suffixes_ok closed /\ suffixes_ok current;
  tg_offsets : tb_offsets t = offsets_from 8 files;
  tg_bound : len (TRIGRAM_MAGIC ++ concat files) < U64;
  tg_writer : match tb_builder t with
    | Some (b, writer) => writer = TRIGRAM_MAGIC ++ concat files /\ fst_entries b = current
    | None => tb_writer t = Some (TRIGRAM_MAGIC ++ concat files) /\ current = []
    end;
  tg_empty : opens [] (tb_empty t);
}.

Lemma count_write_safe writer bytes : safe (count_write writer bytes) (fun w => w = writer ++ bytes /\ len w < U64).
Proof. unfold count_write. safe_next. intros n [-> Hn]%checked_add_Some. apply safe_ok. split; [done|]. by rewrite len_app. Qed.

Lemma shard_entries_snoc closed current : shard_entries (closed ++ [current]) = shard_entries closed ++ (shard_entry (len closed) <$> current).
Proof. unfold shard_entries. rewrite imap_app, concat_app. cbn. rewrite app_nil_r. unfold len. by rewrite Nat.add_0_r. Qed.

Lemma written_opens b : safe (fst_into_inner F b) (opens (fst_entries b)).
Proof. eapply safe_weaken; [apply fst_written|]. intros bytes (H1 & _ & m & H2 & H3). split; [done|by exists m]. Qed.

Lemma new_trigram_ok : safe (new_trigram F) (fun t => trigram_holds [] t [] [] [] /\ tb_shard t = 0).
Proof.
  unfold new_trigram. eapply safe_bind; [apply count_write_safe|]. intros w [-> Hw]. cbn [app] in *. eapply safe_bind; [apply written_opens|]. intros empty He.
  rewrite fst_entries_new in He. apply safe_ok. split; [|done]. split; cbn [tb_shard tb_builder tb_writer tb_offsets tb_empty]; try done. by split; constructor.
Qed.

Lemma close_shard_ok es t closed files current :
  trigram_holds es t closed files current ->
  safe (close_shard F t) (fun t' => exists files', trigram_holds es t' (closed ++ [current]) files' [] /\ tb_shard t' = tb_shard t + 1 /\ tb_builder t' = None).
Proof.
  intros [Hs Hf He [Hsuf1 Hsuf2] Ho Hb Hw Hemp]. unfold close_shard.
  eapply (safe_bind _ _ (fun writer => exists file, opens current file /\ writer = TRIGRAM_MAGIC ++ concat (files ++ [file]) /\ len writer < U64)).
  { assert (forall file, TRIGRAM_MAGIC ++ concat (files ++ [file]) = (TRIGRAM_MAGIC ++ concat files) ++ file) as Happ by (intros; rewrite concat_app; cbn [concat]; by rewrite app_nil_r, app_assoc).
    destruct (tb_builder t) as [[b writer]|].
    - destruct Hw as [-> <-]. eapply safe_bind; [apply written_opens|]. intros bytes Hop. eapply safe_weaken; [apply count_write_safe|]. intros w [-> Hlt].
      exists bytes. by rewrite Happ.
    - destruct Hw as [-> ->]. cbn [with_context mbind res_bind]. eapply safe_weaken; [apply count_write_safe|]. intros w [-> Hlt]. exists (tb_empty t). by rewrite Happ. }
  intros writer (file & Hop & -> & Hlt). apply safe_ok. exists (files ++ [file]). split; [|done].
  split; cbn [tb_shard tb_builder tb_writer tb_offsets tb_empty].
  - rewrite len_app, Hs. done.
  - apply Forall2_app; [done|]. by constructor.
  - rewrite shard_entries_snoc, Hs, app_nil_r. exact He.
  - split; [|constructor]. apply Forall_app. split; [done|]. by constructor.
  - rewrite Ho, offsets_from_snoc. do 2 f_equal. by rewrite len_app.
  - done.
  - done.
  - done.
Qed.

Lemma close_until_ok es t closed files current shard :
  trigram_holds es t closed files current -> tb_shard t <= shard ->
  safe (close_until F t shard) (fun t' => tb_shard t' = shard /\ exists closed' files' current', trigram_holds es t' closed' files' current' /\ (tb_shard t < shard -> tb_builder t' = None)).
Proof.
  intros H Hle. unfold close_until. set (start := tb_shard t) in *. eapply safe_weaken.
  - apply (foldM_safe (fun pre t' => tb_shard t' = start + len pre /\ exists closed' files' current', trigram_holds es t' closed' files' current' /\ (pre <> [] -> tb_builder t' = None))).
    + split; [rewrite len_nil; subst start; lia|]. by exists closed, files, current.
    + intros pre x post t' _ (Hs & c & f & u & H' & _). eapply safe_weaken; [by eapply close_shard_ok|]. intros t2 (f2 & H2 & Hs2 & Hb2).
      split; [rewrite Hs2, Hs, len_app; change (len [x]) with 1; lia|]. by exists (c ++ [u]), f2, [].
  - intros t' (Hs & c & f & u & H' & Hb). rewrite len_range in Hs. split; [lia|]. exists c, f, u. split; [done|]. intros Hlt. apply Hb.
    intros E. apply (f_equal len) in E. rewrite len_range, len_nil in E. lia.
Qed.

Lemma insert_trigram_ok es t closed files current gram value :
  trigram_holds es t closed files current -> Forall is_byte gram ->
  safe (insert_trigram F t gram value) (fun t' => tb_shard t' < 256 /\ exists closed' files' current', trigram_holds (es ++ [(gram, value, None)]) t' closed' files' current').
Proof.
  intros H Hbytes. unfold insert_trigram. eapply safe_bind; [apply safe_ensure|]. intros [] Hlen%N.eqb_eq.
  destruct gram as [|x [|y [|z [|]]]]; try (rewrite ?len_cons, ?len_nil in Hlen; lia). change (get [x; y; z] 0) with (Some x). cbn [expect mbind res_bind].
  eapply safe_bind; [apply safe_ensure|]. intros [] Hle%N.leb_le. eapply safe_bind; [by eapply close_until_ok|]. intros t1 (Hs & c & f & u & H1 & _).
  eapply (safe_bind _ _ (fun bw => bw.2 = TRIGRAM_MAGIC ++ concat f /\ fst_entries bw.1 = u)).
  { pose proof (tg_writer _ _ _ _ _ H1) as Hw. destruct (tb_builder t1) as [bw|]; [destruct bw; by apply safe_ok|]. destruct Hw as [-> ->]. cbn [with_context mbind res_bind].
    apply safe_ok. split; [done|]. apply fst_entries_new. }
  intros [b writer] [Hwr Hb]. cbn [fst snd] in *. eapply safe_bind; [apply fst_entries_insert|]. intros b' Hb'. apply safe_ok. apply Forall_cons in Hbytes as [Hx _].
  split; [cbn [tb_shard]; rewrite Hs; exact Hx|]. destruct H1 as [E1 E2 E3 [E4 E5] E6 E7 E8 E9]. exists c, f, (u ++ [([y; z], value)]).
  split; cbn [tb_shard tb_builder tb_writer tb_offsets tb_empty]; try done.
  - rewrite E3, fmap_app, <- app_assoc. do 2 f_equal. cbn. unfold shard_entry. cbn. by rewrite Hs.
  - split; [done|]. apply Forall_app. split; [done|]. by repeat constructor.
  - split; [done|]. by rewrite Hb', Hb.
Qed.

Lemma write_offsets_ok writer offsets :
  safe (foldM (fun writer offset => count_write writer (to_le_bytes offset)) writer offsets) (fun bytes => bytes = writer ++ concat (to_le_bytes <$> offsets)).
Proof.
  apply (foldM_safe (fun pre bytes => bytes = writer ++ concat (to_le_bytes <$> pre))); [cbn; by rewrite app_nil_r|].
  intros pre x post bytes _ ->. eapply safe_weaken; [apply count_write_safe|]. intros w [-> _]. rewrite fmap_app, concat_app. cbn [fmap list_fmap concat]. by rewrite app_nil_r, app_assoc.
Qed.

(** The bytes of a dictionary of shards. *)
Definition shard_file (closed : list (list (list N * N))) (bytes : list N) : Prop :=
  len closed = TRIGRAM_SHARDS /\ Forall suffixes_ok closed /\ exists files, Forall2 opens closed files /\ len (TRIGRAM_MAGIC ++ concat files) < U64 /\
    bytes = (TRIGRAM_MAGIC ++ concat files) ++ concat (to_le_bytes <$> offsets_from 8 files).

Lemma finish_trigram_ok es t closed files current :
  trigram_holds es t closed files current -> tb_shard t < 256 -> safe (finish_trigram F t) (fun bytes => exists closed', es = shard_entries closed' /\ shard_file closed' bytes).
Proof.
  intros H Hlt. unfold finish_trigram. eapply safe_bind; [eapply close_until_ok; [exact H|unfold TRIGRAM_SHARDS; lia]|].
  intros t1 (Hs & c & f & u & [E1 E2 E3 [E4 E5] E6 E7 E8 E9] & Hb). specialize (Hb Hlt). rewrite Hb in E8. destruct E8 as [Hw ->].
  eapply safe_bind; [apply safe_ensure|]. intros [] _. rewrite Hw. cbn [with_context mbind res_bind]. rewrite E6. eapply safe_weaken; [apply write_offsets_ok|]. intros bytes ->.
  exists c. split; [by rewrite E3, fmap_nil, app_nil_r|]. split; [by rewrite E1|]. split; [done|]. by exists f.
Qed.

(** ** Opening what was written *)

Lemma offsets_from_unfold offset files : exists rest, offsets_from offset files = offset :: rest.
Proof. destruct files; by eexists. Qed.
Lemma pairs_offsets offset file files : pairs (offsets_from offset (file :: files)) = (offset, offset + len file) :: pairs (offsets_from (offset + len file) files).
Proof. cbn [offsets_from]. destruct (offsets_from_unfold (offset + len file) files) as [rest ->]. by rewrite pairs_cons. Qed.
Lemma last_offset offset files : last (offsets_from offset files) = Some (offset + len (concat files)).
Proof.
  revert offset. induction files as [|f files IH]; intros offset; cbn [concat]; [cbn; f_equal; len_lia|].
  cbn [offsets_from]. destruct (offsets_from_unfold (offset + len f) files) as [rest E]. rewrite E, last_cons_cons, <- E, IH, len_app. f_equal. lia.
Qed.
Lemma offsets_bound offset files o : o ∈ offsets_from offset files -> o <= offset + len (concat files).
Proof.
  revert offset. induction files as [|f files IH]; intros offset; cbn [offsets_from concat].
  - intros ->%list_elem_of_singleton. lia.
  - intros [->|H%IH]%elem_of_cons; rewrite len_app; lia.
Qed.

Lemma offsets_sorted offset closed files : Forall2 opens closed files -> forallb (fun pair : N * N => pair.1 <? pair.2) (pairs (offsets_from offset files)) = true.
Proof.
  intros H. revert offset. induction H as [|kvs file closed files [Hne _] _ IH]; intros offset; [done|].
  rewrite pairs_offsets. cbn [forallb fst snd]. rewrite IH. destruct (N.ltb_spec offset (offset + len file)); [done|lia].
Qed.

Definition maps_hold (closed : list (list (list N * N))) (maps : list M) : Prop :=
  Forall2 (is_map F) closed maps.

Lemma open_shards pre closed files rest :
  Forall2 opens closed files -> exists maps, maps_hold closed maps /\
    mapM_res (fun range => slice ← expect (get_range (pre ++ concat files ++ rest) range.1 range.2) "range out of bounds"; fst_open F slice) (pairs (offsets_from (len pre) files)) = Ok maps.
Proof.
  intros H. revert pre. induction H as [|kvs file closed files (_ & m & Hopen & Hstream) _ IH]; intros pre; [by exists []; split; [constructor|]|].
  destruct (IH (pre ++ file)) as (maps & Hmaps & E). exists (m :: maps). split; [by constructor|].
  rewrite pairs_offsets. cbn [mapM_res concat fst snd]. rewrite <- app_assoc, (get_range_mid pre file (concat files ++ rest)) by lia. cbn [expect mbind res_bind]. rewrite Hopen. cbn [mbind res_bind].
  rewrite len_app, <- app_assoc in E. rewrite E. done.
Qed.

Lemma open_shard_file closed bytes : shard_file closed bytes -> exists maps, maps_hold closed maps /\ open_terms F bytes Trigram = Ok (MTrigram maps).
Proof.
  intros (Hlen & _ & files & Hfiles & Hbound & ->). pose proof (Forall2_length _ _ _ Hfiles) as Hl. set (offsets := offsets_from 8 files).
  assert (len offsets = TRIGRAM_OFFSETS) as Hoff by (unfold offsets; rewrite len_offsets_from; unfold len in *; unfold TRIGRAM_OFFSETS; lia).
  assert (len (concat (to_le_bytes <$> offsets)) = TRIGRAM_FOOTER_LEN) as Hfoot.
  { unfold TRIGRAM_FOOTER_LEN. rewrite <- Hoff. clear. induction offsets as [|o offsets IH]; [done|]. cbn [fmap list_fmap concat]. rewrite len_app, len_cons, IH, to_le_bytes_len. lia. }
  unfold open_terms. rewrite bool_decide_eq_true_2 by done. rewrite !len_app in *. change (len TRIGRAM_MAGIC) with 8 in *.
  destruct (N.leb_spec 8 (8 + len (concat files) + len (concat (to_le_bytes <$> offsets)))); [|lia].
  rewrite bool_decide_eq_true_2 by (rewrite <- app_assoc; by apply take_app_length). cbn [negb andb]. rewrite Hfoot.
  destruct (N.leb_spec (8 + TRIGRAM_FOOTER_LEN) (8 + len (concat files) + TRIGRAM_FOOTER_LEN)); [|lia]. cbn [ensure mbind res_bind].
  replace (8 + len (concat files) + TRIGRAM_FOOTER_LEN - TRIGRAM_FOOTER_LEN) with (len (TRIGRAM_MAGIC ++ concat files)) by (rewrite len_app; change (len TRIGRAM_MAGIC) with 8; lia).
  rewrite to_nat_len, drop_app_length, chunks_exact_records by (try lia; apply Forall_fmap, Forall_forall; intros; apply le_bytes_length).
  assert (from_le <$> (to_le_bytes <$> offsets) = offsets) as ->.
  { rewrite <- list_fmap_compose. rewrite <- (list_fmap_id offsets) at 2. apply list_fmap_ext. intros i o Ho%list_elem_of_lookup_2. apply (from_le_bytes 8).
    apply offsets_bound in Ho. change (256 ^ N.of_nat 8) with 18446744073709551616. change U64 with 18446744073709551616 in Hbound. unfold id. lia. }
  rewrite Hoff, N.eqb_refl. assert (head offsets = Some 8) as -> by (unfold offsets; by destruct files). rewrite (last_offset 8 files : last offsets = _).
  rewrite bool_decide_eq_true_2 by done. rewrite bool_decide_eq_true_2 by (rewrite len_app; done). rewrite (offsets_sorted 8 closed files Hfiles : forallb _ (pairs offsets) = true).
  cbn [andb ensure mbind res_bind]. destruct (open_shards TRIGRAM_MAGIC closed files (concat (to_le_bytes <$> offsets)) Hfiles) as (maps & Hmaps & E).
  exists maps. split; [done|]. rewrite <- app_assoc. change (len TRIGRAM_MAGIC) with 8 in E. fold offsets in E. by rewrite E.
Qed.

(** ** A dictionary that was written *)

(** A map holds some entries: it has as many, visits them in order, and finds
    those of a gram. *)
Definition map_holds (strategy : Strategy) (es : list TermEntry) (m : TermMap) : Prop :=
  len_terms F m = len es /\ (forall S (f : S -> TermEntry -> res S) s, visit_terms F f m s = foldM f s es) /\
  forall gram, Forall is_byte gram -> exists r, get_term F rapidhash_v3 m gram = Ok r /\ forall v, r = Some v <-> (term_key strategy gram, packed v, tv_len v) ∈ es.

Lemma single_holds kvs m : is_map F kvs m -> map_holds Trigram (single_entry <$> kvs) (MSingle m).
Proof.
  intros [<- Hm]. split; [by rewrite len_fmap|]. split.
  - intros S f s. rewrite foldM_fmap. apply foldM_ext_elem. by intros [k v] s' _.
  - intros gram _. eexists. split; [done|]. intros v. split.
    + intros (x & Hx & ->)%fmap_Some. apply Hm in Hx. apply list_elem_of_fmap. by exists (gram, x).
    + intros ([k x] & [= Ek Ex El] & Hin)%list_elem_of_fmap. cbn [fst snd term_key] in *. subst. destruct v as [p n]. cbn in *. subst.
      apply Hm in Hin. by rewrite Hin.
Qed.

Lemma shard_get closed maps shard kvs : maps_hold closed maps -> get closed shard = Some kvs -> exists m, get maps shard = Some m /\ is_map F kvs m.
Proof. unfold get. intros H Hk. destruct (Forall2_lookup_l _ _ _ _ _ H Hk) as (m & Hm & Hs). by exists m. Qed.

Lemma elem_of_shard_entries closed e : e ∈ shard_entries closed <-> exists shard kvs, get closed shard = Some kvs /\ e ∈ shard_entry shard <$> kvs.
Proof.
  unfold shard_entries. rewrite list_elem_of_In, in_concat. setoid_rewrite <- list_elem_of_In. split.
  - intros (l & Hl & He). apply elem_of_lookup_imap in Hl as (i & kvs & -> & Hi). exists (N.of_nat i), kvs. split; [unfold get; by rewrite Nat2N.id|done].
  - intros (shard & kvs & Hk & He). exists (shard_entry shard <$> kvs). split; [|done]. apply elem_of_lookup_imap. exists (N.to_nat shard), kvs. split; [by rewrite N2Nat.id|exact Hk].
Qed.

Lemma shards_hold closed maps : len closed = TRIGRAM_SHARDS -> Forall suffixes_ok closed -> maps_hold closed maps -> map_holds Trigram (shard_entries closed) (MTrigram maps).
Proof.
  intros Hlen Hsuf Hmaps. split; [|split].
  - cbn [len_terms]. unfold shard_entries. clear Hlen Hsuf. assert (forall k, sumN ((fun map => len (fst_stream F map)) <$> maps) =
      len (concat (imap (fun i kvs => shard_entry (N.of_nat (k + i)) <$> kvs) closed))) as H; [|exact (H 0%nat)].
    induction Hmaps as [|kvs m closed maps [<- _] _ IH]; intros k; [done|]. rewrite imap_cons. cbn [fmap list_fmap concat]. rewrite sumN_cons, len_app, len_fmap. f_equal.
    rewrite (IH (S k)). do 2 f_equal. apply imap_ext. intros i x _. cbn. do 3 f_equal. lia.
  - intros S f s. cbn [visit_terms]. unfold shard_entries, enumerate. rewrite foldM_concat.
    assert (forall k s, (k + length closed <= 256)%nat -> foldM (visit_shard F f) s (imap (fun i m => (N.of_nat (k + i), m)) maps) =
      foldM (fun s l => foldM f s l) s (imap (fun i kvs => shard_entry (N.of_nat (k + i)) <$> kvs) closed)) as H.
    2: { apply (H 0%nat s). unfold len, TRIGRAM_SHARDS in Hlen. lia. }
    clear Hlen s. induction Hmaps as [|kvs m closed maps [<- _] _ IH]; intros k s Hk; [done|]. rewrite !imap_cons. cbn [foldM]. apply Forall_cons in Hsuf as [Hs Hsuf].
    assert (visit_shard F f s (N.of_nat (k + 0), m) = foldM f s (shard_entry (N.of_nat (k + 0)) <$> fst_stream F m)) as ->.
    { unfold visit_shard. cbn [fst snd length] in *. destruct (N.ltb_spec (N.of_nat (k + 0)) 256); [|lia]. cbn [mbind res_bind]. rewrite foldM_fmap. apply foldM_ext_elem.
      intros [suffix v] s' Hin. unfold suffixes_ok in Hs. rewrite Forall_forall in Hs. specialize (Hs _ Hin). cbn [fst] in Hs. by rewrite Hs. }
    destruct (foldM f s _) as [s'|?|?]; cbn [mbind res_bind]; [|done..]. cbn [length] in Hk. specialize (IH Hsuf (Datatypes.S k) s' ltac:(lia)).
    etrans; [etrans; [|exact IH]|]; f_equal; apply imap_ext; intros i x _; cbn; [do 2 f_equal; lia|f_equal; f_equal; lia].
  - intros gram Hb. cbn [get_term term_key]. destruct (N.eqb_spec (len gram) 3) as [Hg|Hg].
    + destruct gram as [|x gram]; [done|]. apply Forall_cons in Hb as [Hx _]. change (get (x :: gram) 0) with (Some x). cbn [expect mbind res_bind].
      destruct (get_is_Some closed x) as [kvs Hk]; [rewrite Hlen; exact Hx|]. destruct (shard_get _ _ _ _ Hmaps Hk) as (m & -> & Hs & Hm). cbn [expect mbind res_bind]. change (drop 1 (x :: gram)) with gram.
      eexists. split; [done|]. intros v. rewrite elem_of_shard_entries. split.
      * intros (y & Hy & ->)%fmap_Some. apply Hm in Hy. exists x, kvs. split; [done|]. apply list_elem_of_fmap. by exists (gram, y).
      * intros (shard & kvs' & Hk' & ([k y] & [= -> -> Ey El] & Hin)%list_elem_of_fmap). cbn [fst snd] in *. rewrite Hk in Hk'. injection Hk' as <-.
        apply Hm in Hin. rewrite Hin. cbn. destruct v as [p n]. cbn in *. by subst.
    + eexists. split; [done|]. intros v. split; [done|]. intros (shard & kvs & Hk & ([k y] & [= E _ _] & Hin)%list_elem_of_fmap)%elem_of_shard_entries. exfalso. apply Hg.
      rewrite E, len_cons. cbn [fst]. rewrite Forall_forall in Hsuf. pose proof (Hsuf kvs (get_elem _ _ _ Hk)) as Hs. unfold suffixes_ok in Hs. rewrite Forall_forall in Hs.
      pose proof (Hs _ Hin) as Hl. cbn [fst] in Hl. lia.
Qed.

(** ** Sparse dictionaries *)

Lemma hash_ngram_lt gram : hash_ngram rapidhash_v3 gram < U64.
Proof. unfold hash_ngram. change (2 ^ 40 - 1) with (N.ones 40). rewrite N.land_ones. apply (N.lt_le_trans _ (2 ^ 40)); [apply N.mod_lt; lia|done]. Qed.

Lemma find_entry_Some hash entries e : hashes_ascending entries -> find_entry hash entries = Some e <-> e ∈ entries /\ entry_hash e = hash.
Proof.
  intros Ha. unfold find_entry. split.
  - intros ([i e'] & (Hi & Hh & _)%list_find_Some & ->)%fmap_Some. split; [by eapply list_elem_of_lookup_2|done].
  - intros [Hin Hh]. destruct (list_find (fun e : Entry => e.1.1 = hash) entries) as [[i e']|] eqn:E.
    + apply list_find_Some in E as (Hi & Hh' & _). cbn. f_equal. eapply (nodup_fmap_inj entry_hash entries); [by apply ascending_nodup|by eapply list_elem_of_lookup_2|done|].
      by rewrite Hh.
    + apply list_find_None in E. rewrite Forall_forall in E. by destruct (E e Hin).
Qed.

Lemma visit_blocks {S} (f : S -> TermEntry -> res S) pre groups rest s :
  Forall block_size_ok groups -> Forall valid_entry (concat groups) -> hashes_ascending (concat groups) -> len (pre ++ layout groups ++ rest) < U64 ->
  foldM (visit_block f (pre ++ layout groups ++ rest)) s (refs sha256 (len pre) groups) = foldM f s (sparse_entry <$> concat groups).
Proof.
  intros Hg. revert pre s. induction Hg as [|g groups [Hne _] _ IH]; intros pre s Hv Ha Hlen; [done|].
  cbn [concat refs foldM] in *. apply Forall_app in Hv as [Hv1 Hv]. rewrite fmap_app. rewrite fmap_app in Ha. apply ascending_app in Ha as (Ha1 & Ha & _). rewrite foldM_app.
  assert (pre ++ layout (g :: groups) ++ rest = (pre ++ encode_block g) ++ layout groups ++ rest) as E by (unfold layout; cbn [fmap list_fmap concat]; by rewrite <- !app_assoc).
  assert (visit_block f (pre ++ layout (g :: groups) ++ rest) s
    {| first_hash := default 0 (head (entry_hash <$> g)); br_offset := len pre; br_len := len (encode_block g); br_hash := sha256 (encode_block g) |} = foldM f s (sparse_entry <$> g)) as ->.
  { unfold visit_block. cbn [br_offset br_len]. rewrite E. rewrite E in Hlen. unfold checked_add. rewrite !len_app in Hlen.
    destruct (N.ltb_spec (len pre + len (encode_block g)) U64); [|lia]. cbn [with_context mbind res_bind].
    rewrite <- app_assoc, (get_range_mid pre (encode_block g)) by lia. cbn [with_context mbind res_bind]. rewrite for_each_entry_encode by done. by rewrite foldM_fmap. }
  destruct (foldM f s (sparse_entry <$> g)) as [s'|?|?]; cbn [mbind res_bind]; [|done..].
  rewrite E. rewrite E in Hlen. rewrite <- len_app. by apply IH.
Qed.

Lemma sparse_key_elem ses gram value length_ :
  Forall valid_entry ses -> (to_be_bytes (hash_ngram rapidhash_v3 gram), value, length_) ∈ sparse_entry <$> ses <-> (hash_ngram rapidhash_v3 gram, value, length_) ∈ ses.
Proof.
  intros Hv. split; intros H.
  - apply list_elem_of_fmap in H as ([[h v] n] & E & Hin). cbv [sparse_entry fst snd] in E. apply pair_equal_spec in E as [[E ->]%pair_equal_spec ->]. rewrite Forall_forall in Hv. destruct (Hv _ Hin) as (Hh & _).
    apply (f_equal from_be) in E. rewrite !from_to_be_bytes in E by (done || apply hash_ngram_lt). by rewrite E.
  - apply list_elem_of_fmap. by exists (hash_ngram rapidhash_v3 gram, value, length_).
Qed.

Lemma sparse_holds groups rest :
  let es := concat groups in let bytes := (SPARSE_TABLE_MAGIC ++ layout groups) ++ rest in
  Forall block_size_ok groups -> Forall valid_entry es -> hashes_ascending es -> len bytes < U64 ->
  map_holds Sparse (sparse_entry <$> es) (MSparse {| entry_count := len es; blocks := refs sha256 8 groups |} bytes).
Proof.
  intros es bytes Hg Hv Ha Hlen. split; [by rewrite len_fmap|]. split.
  - intros S f s. cbn [visit_terms blocks]. subst bytes es. rewrite <- app_assoc. rewrite <- app_assoc in Hlen. exact (visit_blocks f SPARSE_TABLE_MAGIC groups rest s Hg Hv Ha Hlen).
  - intros gram _. cbn [get_term term_key]. pose proof (lookup_written sha256 es groups bytes rest (hash_ngram rapidhash_v3 gram) eq_refl Hg Hv Ha eq_refl) as Hl.
    destruct (block_for _ _) as [i|].
    + destruct Hl as (ref & raw & entries & Href & Hraw & _ & Hdec & Hasc & Hin). cbn [blocks]. rewrite Href. cbn [expect mbind res_bind].
      pose proof Hraw as (_ & Hb & _)%get_range_Some. unfold checked_add. destruct (N.ltb_spec (br_offset ref + br_len ref) U64); [|lia].
      cbn [with_context mbind res_bind]. rewrite Hraw. cbn [with_context mbind res_bind]. rewrite Hdec. cbn [mbind res_bind].
      eexists. split; [done|]. intros [p n]. cbn [packed tv_len]. rewrite sparse_key_elem by done. rewrite <- Hin by done. split.
      * intros ([[h v] m] & [He Hh]%find_entry_Some & E)%fmap_Some; [|done]. cbn in E, Hh. injection E as -> ->. by subst h.
      * intros He. rewrite (proj2 (find_entry_Some _ entries (hash_ngram rapidhash_v3 gram, p, n) Hasc)); done.
    + eexists. split; [done|]. intros [p n]. cbn [packed tv_len]. rewrite sparse_key_elem by done. split; [done|]. intros He. by destruct (Hl _ He).
Qed.

(** ** The builder *)

Definition builder_holds (strategy : Strategy) (es : list TermEntry) (t : TermBuilder) : Prop :=
  match t with
  | BSingle b => strategy = Trigram /\ es = single_entry <$> fst_entries b
  | BSparse w => strategy = Sparse /\ exists ses closed current, es = sparse_entry <$> ses /\ writes sha256 w ses closed current
  | BTrigram t => strategy = Trigram /\ tb_shard t < 256 /\ exists closed files current, trigram_holds es t closed files current
  end.

Lemma new_terms_ok strategy is_sharded : safe (new_terms F strategy is_sharded) (builder_holds strategy []).
Proof.
  unfold new_terms. eapply safe_bind; [apply safe_ensure|]. intros [] H. destruct strategy, is_sharded; cbn [negb orb] in H.
  - eapply safe_bind; [apply new_trigram_ok|]. intros t [Ht Hs]. apply safe_ok. split; [done|]. rewrite Hs. split; [done|]. by exists [], [], [].
  - apply safe_ok. split; [done|]. by rewrite fst_entries_new.
  - by rewrite bool_decide_eq_false_2 in H.
  - apply safe_ok. split; [done|]. exists [], [], []. split; [done|apply new_table_writes].
Qed.

Lemma insert_safe w hash value length_ : safe (insert sha256 w hash value length_) (fun w' => insert sha256 w hash value length_ = Ok w').
Proof.
  destruct (insert sha256 w hash value length_) as [w'|e|e] eqn:E; [by apply safe_ok|by left; exists e|]. exfalso.
  assert (safe (insert sha256 w hash value length_) (fun _ => True)) as Hs; [|rewrite E in Hs; by destruct Hs as [[? [=]]|(? & [=] & _)]].
  clear E. unfold insert. eapply safe_bind; [apply safe_ensure|]. intros [] _. eapply (safe_bind _ _ (fun _ => True)).
  { destruct (block w); [by apply safe_ok|]. safe_next. intros last _. by apply safe_ok. }
  intros [first key] _. destruct (unpack_posting value) as [offset count]. eapply (safe_bind _ _ (fun _ => True)); [|intros payload _; by apply safe_ok].
  destruct (count =? 1).
  - eapply safe_bind; [apply safe_ensure|]. intros [] _. by apply safe_ok.
  - safe_next. intros n _. eapply safe_bind; [apply safe_ensure|]. intros [] _. by apply safe_ok.
Qed.

Lemma insert_term_ok strategy es t e :
  builder_holds strategy es t -> term_fits strategy e -> len es + 1 < 2 ^ 56 ->
  safe (insert_term F sha256 t e.1.1 e.1.2 e.2) (builder_holds strategy (es ++ [e])).
Proof.
  destruct e as [[gram value] length_]. intros Ht Hfit Hlen. cbn [fst snd]. destruct t as [b|w|t]; cbn [insert_term builder_holds] in *.
  - destruct Ht as [-> ->]. eapply safe_bind; [apply safe_ensure|]. intros [] ->%bool_decide_eq_true. eapply safe_bind; [apply fst_entries_insert|]. intros b' Hb'.
    apply safe_ok. split; [done|]. by rewrite Hb', fmap_app.
  - destruct Ht as (-> & ses & closed & current & -> & Hw). destruct Hfit as (hash & Hh & Hfit). cbn [fst snd] in Hh, Hfit. subst gram. destruct Hfit as (Hhash & Hvalue & Hn).
    eapply safe_bind; [apply safe_ensure|]. intros [] _. rewrite from_to_be_bytes by exact Hhash. eapply safe_bind; [apply insert_safe|]. intros w' Hw'.
    rewrite len_fmap in Hlen. destruct (insert_writes sha256 w ses closed current hash value length_ w') as (c & u & H); [done|done|done|done|done|done|].
    apply safe_ok. split; [done|]. exists (ses ++ [(hash, value, length_)]), c, u. split; [by rewrite fmap_app|done].
  - destruct Ht as (-> & _ & closed & files & current & Ht). eapply safe_bind; [apply safe_ensure|]. intros [] ->%bool_decide_eq_true.
    eapply safe_bind; [eapply insert_trigram_ok; [exact Ht|apply Hfit]|]. intros t' [Hs Ht']. by apply safe_ok.
Qed.

Lemma groups_len groups : Forall block_size_ok groups -> len groups <= len (concat groups).
Proof.
  induction 1 as [|g groups [Hne _] _ IH]; [done|]. cbn [concat]. rewrite len_app, len_cons. destruct g; [done|]. len_lia.
Qed.

Lemma finish_terms_ok strategy es t :
  builder_holds strategy es t -> len es < 2 ^ 56 ->
  safe (finish_terms F sha256 t) (fun '(bytes, tail_hash) => exists m, open_terms F bytes strategy = Ok m /\ map_holds strategy es m).
Proof.
  intros Ht Hlen. destruct t as [b|w|t]; cbn [finish_terms builder_holds] in *.
  - destruct Ht as [-> ->]. eapply safe_bind; [apply fst_written|]. intros bytes (_ & Hmagic & m & Hopen & Hm). apply safe_ok. exists (MSingle m). split; [|by apply single_holds].
    unfold open_terms. rewrite (bool_decide_eq_false_2 (take _ _ = _)) by exact Hmagic. rewrite andb_false_r. cbn [negb]. by rewrite Hopen.
  - destruct Ht as (-> & ses & closed & current & -> & Hw). rewrite len_fmap in Hlen. destruct (finish_writes sha256 w ses closed current Hw Hlen) as (groups & -> & Hg & ->).
    apply safe_ok. destruct Hw as [_ Hv Ha _ _ _ _ _ _ _ _ _]. rewrite app_assoc.
    assert (len groups <= len (concat groups)) as Hgl by (by apply groups_len).
    pose proof (layout_len groups Hv) as Hl.
    assert (len (SPARSE_TABLE_MAGIC ++ layout groups) + len (tail_of sha256 (concat groups) groups) < U64) as Hfit.
    { rewrite (tail_of_len sha256 sha256_len), len_app. change (len SPARSE_TABLE_MAGIC) with 8. change U64 with 18446744073709551616. lia. }
    eexists. split; [|apply sparse_holds; [done|done|done|by rewrite len_app]].
    cbn [open_terms]. unfold open_terms. rewrite bool_decide_eq_false_2 by done. cbn [andb negb].
    rewrite len_app. rewrite (parse_written sha256 sha256_len (concat groups) groups (SPARSE_TABLE_MAGIC ++ layout groups) []); [done|done|done|done|done|done|exact Hfit|].
    change U64 with 18446744073709551616. lia.
  - destruct Ht as (-> & Hlt & closed & files & current & Ht). eapply safe_bind; [by eapply finish_trigram_ok|]. intros bytes (closed' & -> & Hfile). apply safe_ok.
    destruct (open_shard_file closed' bytes Hfile) as (maps & Hmaps & Hopen). exists (MTrigram maps). split; [done|]. destruct Hfile as (H1 & H2 & _). by apply shards_hold.
Qed.

(** Building a dictionary from entries in the order that they come. *)
Definition build_terms (strategy : Strategy) (is_sharded : bool) (es : list TermEntry) : res (list N * option (list N)) :=
  t ← new_terms F strategy is_sharded;
  t ← foldM (fun t (e : TermEntry) => insert_term F sha256 t e.1.1 e.1.2 e.2) t es;
  finish_terms F sha256 t.
End term_proofs.

(** C32: a dictionary that was built is one that is read.  Whatever the strategy,
    and whether the dictionary is one map or 256 shards: building it from
    entries never panics, and when it succeeds the bytes open to a map that
    counts the entries, visits them in the order they were inserted, stopping
    where the visitor stops, and finds for the key of a gram exactly the value
    and posting length that were inserted for it. *)
Theorem term_map_roundtrip {B M} (F : Fst B M) `{!FstOk F} sha256 rapidhash_v3 strategy is_sharded es :
  (forall data, length (sha256 data) = 32%nat) -> Forall (term_fits strategy) es -> len es < 2 ^ 56 ->
  safe (build_terms F sha256 strategy is_sharded es) (fun '(bytes, tail_hash) =>
    exists m, open_terms F bytes strategy = Ok m /\ map_holds F rapidhash_v3 strategy es m).
Proof.
  intros Hsha Hfit Hlen. unfold build_terms. eapply safe_bind; [apply new_terms_ok|]. intros t0 H0. apply (safe_bind _ _ (builder_holds F sha256 strategy es)); [|intros t Ht; by eapply finish_terms_ok].
  apply (foldM_safe (fun pre t => builder_holds F sha256 strategy pre t)); [done|].
  intros pre e post t -> Ht. rewrite len_app, len_cons in Hlen. apply insert_term_ok; [done|done| |lia].
  apply Forall_app in Hfit as [_ Hfit]. by inversion Hfit.
Qed.

(** ** Witness *)

(** A map that is a list of keys and values after its version. *)
Definition demo_record (kv : list N * N) : list N := len kv.1 :: kv.1 ++ [kv.2].
Fixpoint demo_records (fuel : nat) (bytes : list N) : res (list (list N * N)) :=
  match fuel, bytes with
  | S fuel, n :: bytes =>
      value ← with_context (get bytes n) "truncated";
      kvs ← demo_records fuel (drop (N.to_nat n + 1) bytes);
      Ok ((take (N.to_nat n) bytes, value) :: kvs)
  | _, _ => Ok []
  end.
Definition demo_get (kvs : list (list N * N)) (key : list N) : option N := (fun found => found.2.2) <$> list_find (fun kv : list N * N => kv.1 = key) kvs.
Definition demo_fst : Fst (list (list N * N)) (list (list N * N)) := {|
  fst_new := [];
  fst_insert := fun kvs key value => ensure (bool_decide (key ∉ kvs.*1)) "out of order";; Ok (kvs ++ [(key, value)]);
  fst_into_inner := fun kvs => ensure (bool_decide (NoDup kvs.*1)) "out of order";; Ok (3 :: concat (demo_record <$> kvs));
  fst_open := fun bytes => match bytes with 3 :: bytes => demo_records (length bytes) bytes | _ => Err "version" end;
  fst_get := demo_get; fst_stream := fun kvs => kvs;
|}.

Lemma demo_records_spec fuel kvs : (length (concat (demo_record <$> kvs)) <= fuel)%nat -> demo_records fuel (concat (demo_record <$> kvs)) = Ok kvs.
Proof.
  revert fuel. induction kvs as [|[k v] kvs IH]; intros fuel Hf; [by destruct fuel|]. cbn [fmap list_fmap concat] in *.
  change (demo_record (k, v)) with (len k :: k ++ [v]) in *. rewrite length_app in Hf. cbn [length app] in *. rewrite length_app in Hf. destruct fuel as [|fuel]; [lia|].
  cbn [demo_records]. rewrite <- app_assoc. cbn [app]. unfold get. rewrite to_nat_len, list_lookup_middle by done. cbn [with_context mbind res_bind].
  rewrite take_app_length, (cons_middle v k), app_assoc, drop_app_length' by (rewrite length_app; cbn; lia). rewrite IH; [done|]. unfold demo_record in *. lia.
Qed.

Lemma demo_get_spec kvs key value : NoDup kvs.*1 -> demo_get kvs key = Some value <-> (key, value) ∈ kvs.
Proof.
  intros Hnd. unfold demo_get. split.
  - intros ([i [k v]] & (Hi & Hk & _)%list_find_Some & ->)%fmap_Some. cbn in *. subst. by eapply list_elem_of_lookup_2.
  - intros Hin. destruct (list_find (fun kv : list N * N => kv.1 = key) kvs) as [[i [k v]]|] eqn:E.
    + apply list_find_Some in E as (Hi & Hk & _). cbn in *. f_equal. subst k. apply list_elem_of_lookup_2 in Hi.
      pose proof (nodup_fmap_inj fst kvs (key, v) (key, value) Hnd Hi Hin eq_refl). congruence.
    + apply list_find_None in E. rewrite Forall_forall in E. by destruct (E _ Hin).
Qed.

#[export] Instance demo_fst_ok : FstOk demo_fst.
Proof.
  refine {| fst_entries := fun (kvs : list (list N * N)) => kvs : list (list N * N) |}.
  - done.
  - intros b k v. cbn [fst_insert demo_fst]. eapply safe_bind; [apply safe_ensure|]. intros [] _. by apply safe_ok.
  - intros b. cbn [fst_into_inner demo_fst]. eapply safe_bind; [apply safe_ensure|]. intros [] Hnd%bool_decide_eq_true. apply safe_ok.
    split; [rewrite len_cons; lia|]. split; [by intros [=]|]. exists b. split; [by apply demo_records_spec|]. split; [done|]. intros k v. by apply demo_get_spec.
Defined.

Definition demo_trigrams : list TermEntry := [([1; 2; 3], 7, None); ([1; 2; 4], 8, None); ([5; 0; 0], 9, None)].

(** A sharded dictionary of three trigrams, and a sparse one of two hashes. *)
Lemma term_map_roundtrip_witness :
  is_ok (build_terms demo_fst demo_sha Trigram true demo_trigrams) = true /\
  safe (build_terms demo_fst demo_sha Trigram true demo_trigrams) (fun '(bytes, _) =>
    exists m, open_terms demo_fst bytes Trigram = Ok m /\ map_holds demo_fst (fun _ => 0) Trigram demo_trigrams m) /\
  is_ok (build_terms demo_fst demo_sha Sparse false (sparse_entry <$> demo_entries)) = true /\
  safe (build_terms demo_fst demo_sha Sparse false (sparse_entry <$> demo_entries)) (fun '(bytes, _) =>
    exists m, open_terms demo_fst bytes Sparse = Ok m /\ map_holds demo_fst (fun _ => 0) Sparse (sparse_entry <$> demo_entries) m).
Proof.
  split; [vm_compute; reflexivity|]. split; [|split; [vm_compute; reflexivity|]].
  - apply (term_map_roundtrip demo_fst demo_sha (fun _ => 0) Trigram true demo_trigrams); [reflexivity| |reflexivity]. repeat (constructor; [split; [reflexivity|repeat constructor]|]). constructor.
  - apply (term_map_roundtrip demo_fst demo_sha (fun _ => 0) Sparse false (sparse_entry <$> demo_entries)); [reflexivity| |reflexivity].
    constructor; [|constructor; [|constructor]].
    + exists 10. split; [reflexivity|]. split; [reflexivity|]. split; [reflexivity|]. intros n [=].
    + exists 77. split; [reflexivity|]. split; [reflexivity|]. split; [reflexivity|]. intros n [= <-]. reflexivity.
Defined.
