(* ===== verification/Format.v ===== *)
(** * Segment tables (crates/index/src/format.rs)

    The source, document and pack-block tables of a segment, their validation,
    and the validation of a dead set against them.  Keys are byte strings in
    UTF-8 order.  [postcard] is third-party: the decoders are parameters. *)

From S2P Require Import Prelude BitPack SparseGrams.

(** [seagrep_core::SourceEncoding] *)
Inductive SourceEncoding : Type :=
  | Raw | Gzip | Zstd | Bzip2 | Xz | SnappyFrame | Lz4Frame | Parquet | Avro | Zip | Tar | ArrowIpc | Orc | Brotli | Zlib.

Definition PACK_BLOCK_BYTES : N := 128 * 1024.

(** crates/index/src/pack.rs *)
Record PackBlock : Type := {
  pack : N; pb_offset : N; compressed_len : N; decoded_len : N; pb_hash : list N;
}.

Record SourceEntry : Type := {
  key : list N; version : list N; encoded_size : N; encoding : SourceEncoding;
  first_doc : N; doc_count : N; failed : bool; retry : bool;
}.
Record DocEntry : Type := {
  display_key : list N; source_id : N; member_path : option (list N); decoded_size : N;
  first_block : N; block_offset : N; max_line_len : N; block_newlines : list N;
}.
Record SegmentTables : Type := {
  sources : list SourceEntry; documents : list DocEntry; blocks : list PackBlock;
}.
Record DeadSet : Type := { dead_sources : list N; dead_documents : list N }.

(** [str: Ord], strict. *)
Definition bytes_ltb (a b : list N) : bool := bytes_leb a b && negb (bool_decide (a = b)).

(** [format!("{}!/{member_path}", source.key)] *)
Definition member_key (source member : list N) : list N := source ++ [33; 47] ++ member.

(** ** Sources and their documents *)

Definition check_document (source_index : N) (source : SourceEntry) (seen : gset (list N)) (document : DocEntry)
    : res (gset (list N)) :=
  ensure (source_id document =? source_index) "document points to the wrong source";;
  match member_path document with
  | Some member =>
      ensure (negb (bool_decide (member = [])) && bool_decide (display_key document = member_key (key source) member))
        "document display key does not match its member path"
  | None =>
      ensure (bool_decide (display_key document = key source)) "source document display key does not match its source"
  end;;
  ensure (negb (bool_decide (display_key document ∈ seen))) "duplicate document display key";;
  Ok ({[ display_key document ]} ∪ seen).

Definition check_source (tables : SegmentTables) (s : option (list N) * gset (list N) * N) (entry : N * SourceEntry)
    : res (option (list N) * gset (list N) * N) :=
  let '(previous_source, seen_documents, expected_first_doc) := s in
  let '(source_index, source) := entry in
  ensure (match previous_source with Some previous => bytes_ltb previous (key source) | None => true end)
    "segment sources are not unique and sorted";;
  let start := first_doc source in
  let count := doc_count source in
  end_ ← with_context (checked_add U64 start count) "source document range overflows";
  ensure (start =? expected_first_doc) "source document ranges are not contiguous";;
  ensure (end_ <=? len (documents tables)) "source document range is out of bounds";;
  ensure (negb (failed source) || (count =? 0)) "failed source contains documents";;
  ensure (negb (retry source) || failed source) "retryable source is not failed";;
  owned ← expect (get_range (documents tables) start end_) "range out of bounds";
  seen_documents ← foldM (check_document source_index source) seen_documents owned;
  ensure (forallb (fun '(a, b) => bytes_ltb (display_key a) (display_key b)) (pairs owned))
    "source documents are not sorted";;
  Ok (Some (key source), seen_documents, end_).

(** ** Pack blocks *)

Definition check_block (s : option N * N) (block : PackBlock) : res (option N * N) :=
  let '(previous_pack, expected_offset) := s in
  ensure (0 <? compressed_len block) "pack block compressed length is zero";;
  ensure ((0 <? decoded_len block) && (decoded_len block <=? PACK_BLOCK_BYTES)) "pack block decoded length is invalid";;
  '(previous_pack, expected_offset) ←
    (if negb (bool_decide (previous_pack = Some (pack block))) then
       ensure (match previous_pack with Some p => pack block =? wrapping_add U32 p 1 | None => true end)
         "pack IDs are not contiguous";;
       Ok (Some (pack block), 0)
     else Ok (previous_pack, expected_offset));
  ensure (pb_offset block =? expected_offset) "pack blocks are not contiguous";;
  expected_offset ← with_context (checked_add U64 expected_offset (compressed_len block)) "pack block offsets overflow";
  Ok (previous_pack, expected_offset).

(** ** Document coordinates *)

(** [while remaining > 0]; every pass finishes the document or a block, so one
    more pass than there are blocks is enough. *)
Fixpoint consume (fuel : nat) (blocks : list PackBlock) (remaining next_block next_offset : N) : res (N * N) :=
  match fuel with
  | O => Panic "consume: out of fuel"
  | S fuel =>
      if 0 <? remaining then
        block ← with_context (get blocks next_block) "document points outside pack blocks";
        available ← with_context (checked_sub (decoded_len block) next_offset) "document block offset is out of bounds";
        let consumed := N.min remaining available in
        let next_offset := next_offset + consumed in
        if next_offset =? decoded_len block
        then consume fuel blocks (remaining - consumed) (next_block + 1) 0
        else consume fuel blocks (remaining - consumed) next_block next_offset
      else Ok (next_block, next_offset)
  end.

Definition check_coordinates (blocks : list PackBlock) (s : N * N) (document : DocEntry) : res (N * N) :=
  let '(next_block, next_offset) := s in
  if decoded_size document =? 0 then
    ensure ((first_block document =? 0) && (block_offset document =? 0)) "empty document has pack coordinates";;
    Ok s
  else
    ensure ((first_block document =? next_block) && (block_offset document =? next_offset))
      "document pack coordinates are not contiguous";;
    consume (S (S (length blocks))) blocks (decoded_size document) next_block next_offset.

Definition owned_by_source (tables : SegmentTables) (entry : N * DocEntry) : bool :=
  let '(id, document) := entry in
  match get (sources tables) (source_id document) with
  | Some source => (first_doc source <=? id) && (id <? first_doc source + doc_count source)
  | None => false
  end.

Definition validate (tables : SegmentTables) : res unit :=
  '(_, _, expected_first_doc) ← foldM (check_source tables) (None, ∅, 0) (enumerate (sources tables));
  ensure (expected_first_doc =? len (documents tables)) "unowned documents remain";;
  ensure (forallb (owned_by_source tables) (enumerate (documents tables))) "document lies outside its source range";;
  _ ← foldM check_block (None, 0) (blocks tables);
  '(next_block, next_offset) ← foldM (check_coordinates (blocks tables)) (0, 0) (documents tables);
  ensure ((next_block =? len (blocks tables)) && (next_offset =? 0)) "unowned decoded bytes remain in pack blocks".

(** ** Dead sets *)

Definition dead_range (source : SourceEntry) : res (N * N) :=
  end_ ← with_context (checked_add U32 (first_doc source) (doc_count source)) "dead source document range overflows";
  Ok (first_doc source, end_).

Definition validate_dead (dead : DeadSet) (tables : SegmentTables) : res unit :=
  ensure (match last (dead_sources dead) with Some s => s <? len (sources tables) | None => true end)
    "dead source ID is out of bounds";;
  ensure (match last (dead_documents dead) with Some d => d <? len (documents tables) | None => true end)
    "dead document ID is out of bounds";;
  _ ← foldM (fun _ source_id =>
    source ← expect (get (sources tables) source_id) "index out of bounds";
    '(first, end_) ← dead_range source;
    ensure (forallb (fun document => binary_search document (dead_documents dead)) (range first end_))
      "dead source has live documents") tt (dead_sources dead);
  foldM (fun _ document_id =>
    document ← expect (get (documents tables) document_id) "index out of bounds";
    ensure (binary_search (source_id document) (dead_sources dead)) "dead document belongs to a live source")
    tt (dead_documents dead).

Section parse.
Context (decode_tables : list N -> option SegmentTables) (decode_dead : list N -> option DeadSet).

Definition parse_tables (bytes : list N) : res SegmentTables :=
  tables ← with_context (decode_tables bytes) "segment docs.bin unreadable";
  validate tables;;
  Ok tables.

Definition parse_dead (bytes : list N) : res DeadSet :=
  dead ← with_context (decode_dead bytes) "segment dead set unreadable";
  ensure (is_ascending (dead_sources dead)) "dead source IDs are not sorted and unique";;
  ensure (is_ascending (dead_documents dead)) "dead document IDs are not sorted and unique";;
  Ok dead.
End parse.

(** ** Order of keys *)

Lemma bytes_ltb_spec a b : bytes_ltb a b = true <-> bytes_leb a b = true /\ a <> b.
Proof. unfold bytes_ltb. rewrite andb_true_iff, negb_true_iff, bool_decide_eq_false. done. Qed.
Lemma bytes_ltb_trans a b c : bytes_ltb a b = true -> bytes_ltb b c = true -> bytes_ltb a c = true.
Proof.
  rewrite !bytes_ltb_spec. intros [H1 N1] [H2 N2]. split; [by eapply bytes_leb_trans|].
  intros ->. apply N1. by apply bytes_leb_antisym.
Qed.

Abbreviation keys_ascending := (StronglySorted (fun a b => bytes_ltb a b = true)).

Lemma ascending_keys_nodup l : keys_ascending l -> NoDup l.
Proof.
  induction 1 as [|x l _ IH Hx]; constructor; [|done]. rewrite Forall_forall in Hx. intros [_ H]%Hx%bytes_ltb_spec. done.
Qed.

Lemma sorted_snoc {A} (R : A -> A -> Prop) l x :
  (forall a b c, R a b -> R b c -> R a c) -> StronglySorted R l ->
  (forall y, last l = Some y -> R y x) -> StronglySorted R (l ++ [x]).
Proof.
  intros Htr. induction 1 as [|y l Hl IH Hy]; intros Hx; cbn [app]; [repeat constructor|].
  constructor.
  - apply IH. intros z Hz. apply Hx. destruct l; [done|exact Hz].
  - apply Forall_app. split; [done|]. constructor; [|done]. destruct l as [|z l]; [by apply Hx|].
    destruct (last (z :: l)) as [m|] eqn:E; [|by apply last_None in E].
    eapply (Htr _ m); [|by apply Hx]. rewrite Forall_forall in Hy. apply Hy.
    apply last_Some in E as [l' ->]. apply elem_of_app. right. left.
Qed.

(** ** Document coordinates as stream positions *)

Definition decoded_lens (blocks : list PackBlock) : list N := decoded_len <$> blocks.

(** The offset of a coordinate in the concatenation of all decoded blocks. *)
Definition position (blocks : list PackBlock) (block_id offset : N) : N :=
  sumN (take (N.to_nat block_id) (decoded_lens blocks)) + offset.

(** A coordinate is inside a block, or the end of the last one. *)
Definition coordinate_ok (blocks : list PackBlock) (block_id offset : N) : Prop :=
  match get blocks block_id with
  | Some block => offset < decoded_len block
  | None => block_id = len blocks /\ offset = 0
  end.

Lemma position_next blocks block_id block :
  get blocks block_id = Some block ->
  position blocks (block_id + 1) 0 = position blocks block_id (decoded_len block).
Proof.
  intros H. unfold position, get in *. replace (N.to_nat (block_id + 1)) with (S (N.to_nat block_id)) by lia.
  rewrite (take_S_r _ _ (decoded_len block)); [|unfold decoded_lens; by rewrite list_lookup_fmap, H].
  rewrite sumN_snoc. lia.
Qed.
Lemma position_le blocks block_id offset :
  coordinate_ok blocks block_id offset -> position blocks block_id offset <= sumN (decoded_lens blocks).
Proof.
  unfold coordinate_ok. destruct (get blocks block_id) as [block|] eqn:E.
  - intros Ho. pose proof (position_next _ _ _ E) as Hn. unfold position in *.
    pose proof (sumN_take_le (decoded_lens blocks) (N.to_nat (block_id + 1))). lia.
  - intros [-> ->]. unfold position. pose proof (sumN_take_le (decoded_lens blocks) (N.to_nat (len blocks))). lia.
Qed.
Lemma position_end blocks : position blocks (len blocks) 0 = sumN (decoded_lens blocks).
Proof.
  unfold position. rewrite take_ge; [lia|]. unfold decoded_lens. rewrite length_fmap. unfold len. lia.
Qed.

(** The first position after [block_id]'s blocks, for positive block sizes. *)
Lemma coordinate_next blocks block_id block :
  Forall (fun b => 0 < decoded_len b) blocks -> get blocks block_id = Some block ->
  coordinate_ok blocks (block_id + 1) 0.
Proof.
  intros Hpos Hb. unfold coordinate_ok. destruct (get blocks (block_id + 1)) as [b|] eqn:E.
  - rewrite Forall_forall in Hpos. apply Hpos. by eapply get_elem.
  - split; [|done]. apply get_Some_lt in Hb. unfold get in E. apply lookup_ge_None in E. unfold len in *. lia.
Qed.

Lemma consume_spec fuel blocks remaining next_block next_offset :
  Forall (fun b => 0 < decoded_len b) blocks ->
  coordinate_ok blocks next_block next_offset -> len blocks + 1 < next_block + N.of_nat fuel ->
  (position blocks next_block next_offset + remaining <= sumN (decoded_lens blocks) ->
    exists b o, consume fuel blocks remaining next_block next_offset = Ok (b, o) /\ coordinate_ok blocks b o /\
      position blocks b o = position blocks next_block next_offset + remaining) /\
  (sumN (decoded_lens blocks) < position blocks next_block next_offset + remaining ->
    exists e, consume fuel blocks remaining next_block next_offset = Err e).
Proof.
  intros Hpos. revert remaining next_block next_offset.
  induction fuel as [|fuel IH]; intros remaining next_block next_offset Hc Hf.
  { unfold coordinate_ok in Hc. destruct (get blocks next_block) eqn:E; [apply get_Some_lt in E; lia|lia]. }
  cbn [consume]. destruct (N.ltb_spec 0 remaining) as [Hr|Hr].
  2: { assert (remaining = 0) as -> by lia. pose proof (position_le _ _ _ Hc).
       split; [|lia]. intros _. exists next_block, next_offset. rewrite N.add_0_r. done. }
  unfold coordinate_ok in Hc. destruct (get blocks next_block) as [block|] eqn:E; cbn [with_context mbind res_bind].
  2: { destruct Hc as [-> ->]. rewrite position_end. split; [lia|]. intros _. by eexists. }
  unfold checked_sub. destruct (N.leb_spec next_offset (decoded_len block)); [|lia]. cbn [with_context mbind res_bind].
  pose proof (position_next _ _ _ E) as Hn.
  set (consumed := N.min remaining (decoded_len block - next_offset)).
  assert (position blocks next_block (next_offset + consumed) = position blocks next_block next_offset + consumed) as Hp
    by (unfold position; lia).
  destruct (N.eqb_spec (next_offset + consumed) (decoded_len block)) as [Eq|Ne].
  - destruct (IH (remaining - consumed) (next_block + 1) 0) as [IH1 IH2]; [by eapply coordinate_next|lia|].
    rewrite Hn, <- Eq, Hp in IH1, IH2. split; intros Hle.
    + destruct IH1 as (b & o & H1 & H2 & H3); [lia|]. exists b, o. split_and!; [done|done|]. rewrite H3. lia.
    + apply IH2. lia.
  - assert (remaining - consumed = 0) as -> by lia. assert (consumed = remaining) as Ec by lia.
    destruct fuel as [|fuel]; [apply get_Some_lt in E; lia|]. cbn [consume N.ltb N.compare].
    assert (coordinate_ok blocks next_block (next_offset + consumed)) as Hok
      by (unfold coordinate_ok; rewrite E; lia).
    pose proof (position_le _ _ _ Hok). split; [|lia]. intros _.
    exists next_block, (next_offset + consumed). split_and!; [done|done|lia].
Qed.

(** Every document starts where the previous ones end. *)
Definition coordinates_ok (blocks : list PackBlock) (documents : list DocEntry) : Prop :=
  forall id d, get documents id = Some d ->
    if decoded_size d =? 0 then first_block d = 0 /\ block_offset d = 0
    else coordinate_ok blocks (first_block d) (block_offset d) /\
         position blocks (first_block d) (block_offset d) = sumN (take (N.to_nat id) (decoded_size <$> documents)) /\
         position blocks (first_block d) (block_offset d) + decoded_size d <= sumN (decoded_lens blocks).

Lemma coordinates_safe blocks documents :
  Forall (fun b => 0 < decoded_len b) blocks ->
  safe (foldM (check_coordinates blocks) (0, 0) documents) (fun '(b, o) =>
    coordinate_ok blocks b o /\ position blocks b o = sumN (decoded_size <$> documents) /\
    coordinates_ok blocks documents).
Proof.
  intros Hpos. eapply safe_weaken.
  - apply (foldM_safe (fun pre '(b, o) => coordinate_ok blocks b o /\
      position blocks b o = sumN (decoded_size <$> pre) /\ coordinates_ok blocks pre)).
    { split_and!; [|by unfold position; rewrite N.add_0_r|by intros ??]. unfold coordinate_ok.
      destruct (get blocks 0) as [b|] eqn:E; [rewrite Forall_forall in Hpos; apply Hpos; by eapply get_elem|].
      split; [|done]. unfold get in E. apply lookup_ge_None in E. unfold len. lia. }
    intros pre d post [b o] _ (Hc & Hp & Hall). unfold check_coordinates.
    assert ((if decoded_size d =? 0 then first_block d = 0 /\ block_offset d = 0
       else coordinate_ok blocks (first_block d) (block_offset d) /\
         position blocks (first_block d) (block_offset d) = sumN (decoded_size <$> pre) /\
         position blocks (first_block d) (block_offset d) + decoded_size d <= sumN (decoded_lens blocks)) ->
       coordinates_ok blocks (pre ++ [d])) as Hsnoc.
    { intros Hd id x [Hx|[-> ->]]%get_snoc.
      - pose proof (get_Some_lt _ _ _ Hx). specialize (Hall _ _ Hx). rewrite fmap_app, take_app_le by (rewrite length_fmap; unfold len in *; lia). done.
      - rewrite fmap_app, to_nat_len, take_app_length' by (by rewrite length_fmap). done. }
    destruct (decoded_size d =? 0) eqn:E.
    + safe_next. intros [] [H1%N.eqb_eq H2%N.eqb_eq]%andb_true_iff. apply safe_ok.
      rewrite fmap_app. cbn [fmap list_fmap]. rewrite sumN_snoc. apply N.eqb_eq in E.
      split_and!; [done|lia|]. by apply Hsnoc.
    + safe_next. intros [] [H1%N.eqb_eq H2%N.eqb_eq]%andb_true_iff.
      rewrite H1, H2 in Hsnoc. assert (b <= len blocks).
      { unfold coordinate_ok in Hc. destruct (get blocks b) eqn:E2; [apply get_Some_lt in E2; lia|lia]. }
      destruct (consume_spec (S (S (length blocks))) blocks (decoded_size d) b o Hpos Hc) as [Hgood Hbad].
      { unfold len. lia. }
      destruct (N.leb_spec (position blocks b o + decoded_size d) (sumN (decoded_lens blocks))) as [Hle|Hgt].
      * destruct (Hgood Hle) as (b' & o' & -> & Hc' & Hp'). apply safe_ok.
        rewrite fmap_app. cbn [fmap list_fmap]. rewrite sumN_snoc. split_and!; [done|lia|]. by apply Hsnoc.
      * destruct (Hbad Hgt) as [e ->]. left. by eexists.
  - intros [b o]. done.
Qed.

(** ** Pack blocks *)

(** Blocks tile their packs: the first starts at zero, each starts where the
    previous one of the pack ends, and packs are numbered consecutively. *)
Definition follows (a b : PackBlock) : Prop :=
  (pack b = pack a /\ pb_offset b = pb_offset a + compressed_len a) \/
  (pack b = wrapping_add U32 (pack a) 1 /\ pb_offset b = 0).
Definition blocks_ok (blocks : list PackBlock) : Prop :=
  Forall (fun b => 0 < compressed_len b /\ 0 < decoded_len b <= PACK_BLOCK_BYTES /\
                   pb_offset b + compressed_len b < U64) blocks /\
  (forall b, head blocks = Some b -> pb_offset b = 0) /\
  forall i a b, get blocks i = Some a -> get blocks (i + 1) = Some b -> follows a b.

Lemma check_blocks_safe blocks : safe (foldM check_block (None, 0) blocks) (fun _ => blocks_ok blocks).
Proof.
  eapply safe_weaken.
  - apply (foldM_safe (fun pre '(previous, expected) => blocks_ok pre /\
      match last pre with
      | None => previous = None /\ expected = 0
      | Some a => previous = Some (pack a) /\ expected = pb_offset a + compressed_len a
      end)).
    { split; [|done]. split_and!; [constructor|done|by intros]. }
    intros pre b post [previous expected] _ [(Hall & Hhead & Hadj) Hlast]. unfold check_block.
    safe_next. intros [] Hcl. safe_next. intros [] Hdl.
    eapply (safe_bind _ _ (fun '(previous', expected') => previous' = Some (pack b) /\
      match last pre with
      | None => expected' = 0
      | Some a => (pack b = pack a /\ expected' = pb_offset a + compressed_len a) \/
                  (pack b = wrapping_add U32 (pack a) 1 /\ expected' = 0)
      end)).
    { destruct (bool_decide_reflect (previous = Some (pack b))) as [->|Hne]; cbn [negb].
      - apply safe_ok. split; [done|]. destruct (last pre) as [a|]; [|by destruct Hlast]. left.
        destruct Hlast as [[= ->] ->]. done.
      - safe_next. intros [] Hp. apply safe_ok. split; [done|].
        destruct (last pre) as [a|]; [|done]. right. destruct Hlast as [-> _]. split; [lia|done]. }
    intros [previous' expected'] [-> Hexp]. safe_next. intros [] Hoff%N.eqb_eq.
    safe_next. intros e [-> He]%checked_add_Some. apply safe_ok.
    rewrite last_snoc. split; [|by rewrite Hoff]. split_and!.
    + apply Forall_app. split; [done|]. constructor; [|done]. rewrite Hoff. lia.
    + destruct pre as [|a pre]; [|exact Hhead]. intros b' [= <-]. by rewrite Hoff.
    + intros i x y Hx Hy. apply get_snoc in Hx as [Hx|[-> ->]].
      * apply get_snoc in Hy as [Hy|[Hi ->]]; [by eapply Hadj|]. destruct (last pre) as [a|] eqn:E.
        2: { apply last_None in E as ->. done. }
        apply last_Some in E as [pre' ->]. rewrite len_app in Hi. change (len [a]) with 1 in Hi.
        replace i with (len pre') in Hx by lia. rewrite get_middle in Hx. injection Hx as <-.
        unfold follows. rewrite Hoff. naive_solver.
      * apply get_Some_lt in Hy. rewrite len_app in Hy. change (len [b]) with 1 in Hy. lia.
  - intros [previous expected]. by intros [? _].
Qed.

(** ** Sources *)

(** What validation establishes about a source at an index. *)
Record source_ok (docs : list DocEntry) (previous : list SourceEntry) (source : SourceEntry) : Prop := {
  so_first : first_doc source = sumN (doc_count <$> previous);
  so_failed : (failed source = true -> doc_count source = 0) /\ (retry source = true -> failed source = true);
  so_documents : forall id, first_doc source <= id < first_doc source + doc_count source ->
    exists d, get docs id = Some d /\ source_id d = len previous /\
      display_key d = match member_path d with None => key source | Some m => member_key (key source) m end;
}.

Definition sources_ok (docs : list DocEntry) (sources : list SourceEntry) : Prop :=
  keys_ascending (key <$> sources) /\
  forall i s, get sources i = Some s -> source_ok docs (take (N.to_nat i) sources) s.

Lemma check_documents_safe i source seen0 owned :
  safe (foldM (check_document i source) seen0 owned) (fun seen =>
    (forall k, k ∈ seen <-> k ∈ seen0 \/ k ∈ (display_key <$> owned)) /\
    NoDup (display_key <$> owned) /\ (forall d, d ∈ owned -> display_key d ∉ seen0) /\
    Forall (fun d => source_id d = i /\
      display_key d = match member_path d with None => key source | Some m => member_key (key source) m end) owned).
Proof.
  eapply safe_weaken; [apply (foldM_safe (fun pre seen =>
    (forall k, k ∈ seen <-> k ∈ seen0 \/ k ∈ (display_key <$> pre)) /\
    NoDup (display_key <$> pre) /\ (forall d, d ∈ pre -> display_key d ∉ seen0) /\
    Forall (fun d => source_id d = i /\
      display_key d = match member_path d with None => key source | Some m => member_key (key source) m end) pre))|done].
  { split_and!; [set_solver|constructor|set_solver|constructor]. }
  intros pre d post seen _ (Hseen & Hnd & Hfresh & Hall). unfold check_document.
  safe_next. intros [] Hid%N.eqb_eq.
  eapply (safe_bind _ _ (fun _ => display_key d = match member_path d with None => key source | Some m => member_key (key source) m end)).
  { destruct (member_path d) as [m|]; (eapply safe_weaken; [apply safe_ensure|]).
    - intros [] [_ H%bool_decide_eq_true]%andb_true_iff. done.
    - intros [] H%bool_decide_eq_true. done. }
  intros [] Hkey. safe_next. intros [] Hnew%negb_true_iff%bool_decide_eq_false.
  apply safe_ok. rewrite fmap_app. cbn [fmap list_fmap]. assert ((display_key d ∉ seen0) /\ display_key d ∉ (display_key <$> pre)) as [N1 N2].
  { rewrite Hseen in Hnew. tauto. }
  split_and!.
  - intros k. rewrite elem_of_union, elem_of_singleton, Hseen, elem_of_app, list_elem_of_singleton. tauto.
  - apply NoDup_app. split_and!; [done| |apply NoDup_singleton]. intros k Hk ->%list_elem_of_singleton. done.
  - intros x [Hx| ->%list_elem_of_singleton]%elem_of_app; [by apply Hfresh|done].
  - apply Forall_app. split; [done|]. by repeat constructor.
Qed.

(** The invariant of the loop over the sources. *)
Record sources_so_far (docs : list DocEntry) (pre : list SourceEntry)
    (previous : option (list N)) (seen : gset (list N)) (expected : N) : Prop := {
  sf_ok : sources_ok docs pre;
  sf_previous : previous = last (key <$> pre);
  sf_expected : expected = sumN (doc_count <$> pre);
  sf_bound : expected <= len docs;
  sf_seen : forall k, k ∈ seen <-> k ∈ (display_key <$> take (N.to_nat expected) docs);
  sf_nodup : NoDup (display_key <$> take (N.to_nat expected) docs);
}.

Lemma sources_ok_snoc docs pre source :
  sources_ok docs pre -> (forall k, last (key <$> pre) = Some k -> bytes_ltb k (key source) = true) ->
  source_ok docs pre source -> sources_ok docs (pre ++ [source]).
Proof.
  intros [Hk Hall] Hlast Hs. split.
  - rewrite fmap_app. apply sorted_snoc; [apply bytes_ltb_trans|done|done].
  - intros i s [Hi|[-> ->]]%get_snoc.
    + rewrite take_app_le; [by apply Hall|]. apply get_Some_lt in Hi. unfold len in Hi. lia.
    + rewrite to_nat_len, take_app_length. done.
Qed.

Lemma take_range {A} (l : list A) a b s :
  get_range l a b = Some s -> take (N.to_nat b) l = take (N.to_nat a) l ++ s.
Proof.
  intros (Ha & Hb & ->)%get_range_Some. unfold len in Hb.
  replace (N.to_nat b) with (N.to_nat a + N.to_nat (b - a))%nat at 1 by lia.
  rewrite <- (take_drop (N.to_nat a) l) at 1. rewrite take_app_ge; rewrite length_take; [|lia].
  f_equal. f_equal. lia.
Qed.
Lemma get_range_get {A} (l : list A) a b s i x :
  get_range l a b = Some s -> (get s i = Some x <-> i < b - a /\ get l (a + i) = Some x).
Proof.
  intros (Ha & Hb & ->)%get_range_Some. unfold get. rewrite lookup_take_Some, lookup_drop.
  replace (N.to_nat (a + i)) with (N.to_nat a + N.to_nat i)%nat by lia. intuition lia.
Qed.

Lemma check_source_safe tables pre i source previous seen expected :
  i = len pre -> sources_so_far (documents tables) pre previous seen expected ->
  safe (check_source tables (previous, seen, expected) (i, source)) (fun '(previous', seen', expected') =>
    sources_so_far (documents tables) (pre ++ [source]) previous' seen' expected').
Proof.
  intros -> [Hok -> Hexp Hbound Hseen Hnd]. unfold check_source.
  safe_next. intros [] Hsorted. cbv zeta.
  safe_next. intros end_ [-> Hfit]%checked_add_Some.
  safe_next. intros [] Hstart%N.eqb_eq.
  safe_next. intros [] Hend%N.leb_le.
  safe_next. intros [] Hfailed. safe_next. intros [] Hretry.
  eapply safe_bind; [apply safe_expect, get_range_is_Some; lia|]. intros owned Howned.
  eapply safe_bind; [apply check_documents_safe|]. intros seen' (Hseen' & Hnd' & Hfresh & Hall).
  safe_next. intros [] _. apply safe_ok.
  pose proof (take_range _ _ _ _ Howned) as Htake. split.
  - apply sources_ok_snoc; [done|intros k Hk; by rewrite Hk in Hsorted|]. split.
    + lia.
    + split; [intros Hf; rewrite Hf in Hfailed; cbn in Hfailed; lia|intros Hr; by rewrite Hr in Hretry].
    + intros id Hid. rewrite Hstart in Hid. destruct (get_is_Some owned (id - expected)) as [d Hd].
      { rewrite (get_range_len _ _ _ _ Howned). lia. }
      exists d. rewrite Forall_forall in Hall. pose proof (Hall d (get_elem _ _ _ Hd)) as [-> ->]. split; [|done].
      apply (get_range_get _ _ _ _ _ _ Howned) in Hd as [_ Hd]. rewrite <- Hd. f_equal. lia.
  - rewrite fmap_app. symmetry. apply last_snoc.
  - rewrite fmap_app. cbn [fmap list_fmap]. rewrite sumN_snoc. lia.
  - done.
  - intros k. rewrite Hseen', Htake, fmap_app, elem_of_app, Hstart, Hseen. done.
  - rewrite Htake, fmap_app, Hstart. apply NoDup_app. split_and!; [done| |done].
    intros k Hk [d [-> Hd]]%list_elem_of_fmap. apply (Hfresh d Hd), Hseen. done.
Qed.

(** ** What validation establishes *)

Record well_formed (tables : SegmentTables) : Prop := {
  wf_sources : sources_ok (documents tables) (sources tables);
  wf_total : len (documents tables) = sumN (doc_count <$> sources tables);
  wf_keys : NoDup (display_key <$> documents tables);
  wf_owner : forall id d, get (documents tables) id = Some d -> exists s,
    get (sources tables) (source_id d) = Some s /\ first_doc s <= id < first_doc s + doc_count s;
  wf_blocks : blocks_ok (blocks tables);
  wf_coordinates : coordinates_ok (blocks tables) (documents tables);
  wf_bytes : sumN (decoded_size <$> documents tables) = sumN (decoded_lens (blocks tables));
}.

Lemma validate_safe tables : safe (validate tables) (fun _ => well_formed tables).
Proof.
  unfold validate. eapply (safe_bind _ _ (fun '(previous, seen, expected) =>
    sources_so_far (documents tables) (sources tables) previous seen expected)).
  { eapply safe_weaken; [apply (foldM_safe (fun pre '(previous, seen, expected) =>
      sources_so_far (documents tables) pre.*2 previous seen expected))|].
    - split; try done; [|lia|set_solver|constructor]. split; [constructor|by intros].
    - intros pre [i source] post [[previous seen] expected] Hpre Hinv.
      apply enumerate_split in Hpre as [-> _]. rewrite fmap_app. eapply safe_weaken.
      + apply check_source_safe; [|exact Hinv]. by rewrite len_fmap.
      + by intros [[previous' seen'] expected'].
    - intros [[previous seen] expected]. by rewrite enumerate_snd. }
  intros [[previous seen] expected] [Hok _ Hexp Hbound Hseen Hnd].
  safe_next. intros [] Hall%N.eqb_eq.
  safe_next. intros [] Howner.
  eapply safe_bind; [apply check_blocks_safe|]. intros ? Hblocks. cbn beta in Hblocks.
  assert (Forall (fun b => 0 < decoded_len b) (blocks tables)) as Hpos.
  { destruct Hblocks as [H _]. eapply Forall_impl; [exact H|]. cbn. intros b Hb. lia. }
  eapply safe_bind; [by apply coordinates_safe|]. intros [b o] (Hc & Hp & Hcoord).
  eapply safe_weaken; [apply safe_ensure|]. intros [] [Hb%N.eqb_eq Ho%N.eqb_eq]%andb_true_iff.
  rewrite Hall in *. rewrite to_nat_len in Hnd. rewrite take_ge in Hnd by done.
  rewrite Hb, Ho, position_end in Hp. split; try done.
  intros id d Hd. rewrite forallb_elem in Howner. apply elem_of_enumerate in Hd. specialize (Howner _ Hd).
  cbn in Howner. destruct (get (sources tables) (source_id d)) as [s|]; [|done]. exists s. split; [done|lia].
Qed.

(** ** Dead sets *)

Lemma last_bound l n :
  ascending l -> match last l with Some x => x <? n | None => true end = true <-> forall x, x ∈ l -> x < n.
Proof.
  intros Ha. destruct (last l) as [m|] eqn:E.
  - apply last_Some in E as [l' ->]. rewrite N.ltb_lt. split.
    + intros Hm x [Hx| ->%list_elem_of_singleton]%elem_of_app; [|done].
      apply ascending_app in Ha as (_ & _ & Hlt). specialize (Hlt x m Hx ltac:(left)). lia.
    + intros H. apply H, elem_of_app. right. left.
  - apply last_None in E as ->. split; [set_solver|done].
Qed.

(** A dead set is closed when the dead documents are those of the dead sources. *)
Definition dead_closed (dead : DeadSet) (tables : SegmentTables) : Prop :=
  (forall s, s ∈ dead_sources dead -> s < len (sources tables)) /\
  (forall id, id ∈ dead_documents dead -> id < len (documents tables)) /\
  forall id d, get (documents tables) id = Some d ->
    (id ∈ dead_documents dead <-> source_id d ∈ dead_sources dead).

Section dead.
Context (dead : DeadSet) (tables : SegmentTables).
Context (Hwf : well_formed tables) (Hsmall : len (documents tables) < U32).

Lemma source_range i s :
  get (sources tables) i = Some s ->
  first_doc s + doc_count s <= len (documents tables) /\
  forall id, first_doc s <= id < first_doc s + doc_count s <->
    exists d, get (documents tables) id = Some d /\ source_id d = i.
Proof.
  intros Hi. destruct (wf_sources _ Hwf) as [_ Hall]. destruct (Hall _ _ Hi) as [Hf _ Hd].
  assert (len (take (N.to_nat i) (sources tables)) = i) as Hlen.
  { pose proof (get_Some_lt _ _ _ Hi). unfold len in *. rewrite length_take. lia. }
  rewrite Hlen in Hd. split.
  - rewrite Hf, (wf_total _ Hwf). unfold get in Hi.
    rewrite <- (take_drop_middle _ _ _ Hi) at 2. rewrite fmap_app. cbn [fmap list_fmap].
    rewrite sumN_app, sumN_cons. lia.
  - intros id. split.
    + intros Hid. destruct (Hd id Hid) as (d & ? & ? & _). eauto.
    + intros (d & Hget & <-). destruct (wf_owner _ Hwf id d Hget) as (s' & Hs' & ?). congruence.
Qed.

Lemma dead_range_ok i s : get (sources tables) i = Some s -> dead_range s = Ok (first_doc s, first_doc s + doc_count s).
Proof.
  intros Hi. destruct (source_range i s Hi) as [Hb _]. unfold dead_range, checked_add.
  destruct (N.ltb_spec (first_doc s + doc_count s) U32); [done|lia].
Qed.

Lemma dead_sources_loop :
  (forall s, s ∈ dead_sources dead -> s < len (sources tables)) ->
  let f := fun (_ : unit) source_id =>
    source ← expect (get (sources tables) source_id) "index out of bounds";
    '(first, end_) ← dead_range source;
    ensure (forallb (fun document => binary_search document (dead_documents dead)) (range first end_))
      "dead source has live documents" in
  no_panic (foldM f tt (dead_sources dead)) /\
  (foldM f tt (dead_sources dead) = Ok tt <->
   forall id d, get (documents tables) id = Some d -> source_id d ∈ dead_sources dead -> id ∈ dead_documents dead).
Proof.
  intros Hb f. assert (forall i s, i ∈ dead_sources dead -> get (sources tables) i = Some s ->
    f tt i = ensure (forallb (fun document => binary_search document (dead_documents dead))
      (range (first_doc s) (first_doc s + doc_count s))) "dead source has live documents") as Hf.
  { intros i s Hi Hs. subst f. cbv beta. rewrite Hs. cbn [expect mbind res_bind]. by rewrite (dead_range_ok i s Hs). }
  split.
  - apply (safe_no_panic _ (fun _ => True)). apply (foldM_safe (fun _ _ => True)); [done|].
    intros pre i post [] Hpre _. assert (i ∈ dead_sources dead) as Hi by (rewrite Hpre; set_solver).
    destruct (get_is_Some _ _ (Hb i Hi)) as [s Hs]. rewrite (Hf i s Hi Hs).
    eapply safe_weaken; [apply safe_ensure|done].
  - rewrite foldM_unit. split.
    + intros Hall id d Hd Hin. destruct (wf_owner _ Hwf id d Hd) as (s & Hs & Hid).
      specialize (Hall _ Hin). rewrite (Hf _ s Hin Hs), ensure_ok, forallb_elem in Hall.
      specialize (Hall id ltac:(by apply elem_of_range)). by apply bool_decide_eq_true in Hall.
    + intros Hall i Hi. destruct (get_is_Some _ _ (Hb i Hi)) as [s Hs]. rewrite (Hf i s Hi Hs).
      apply ensure_ok, forallb_elem. intros id Hid%elem_of_range. apply bool_decide_eq_true.
      apply (source_range i s Hs) in Hid as (d & Hd & <-). by eapply Hall.
Qed.

Lemma dead_documents_loop :
  (forall id, id ∈ dead_documents dead -> id < len (documents tables)) ->
  let f := fun (_ : unit) document_id =>
    document ← expect (get (documents tables) document_id) "index out of bounds";
    ensure (binary_search (source_id document) (dead_sources dead)) "dead document belongs to a live source" in
  no_panic (foldM f tt (dead_documents dead)) /\
  (foldM f tt (dead_documents dead) = Ok tt <->
   forall id d, get (documents tables) id = Some d -> id ∈ dead_documents dead -> source_id d ∈ dead_sources dead).
Proof.
  intros Hb f. split.
  - apply (safe_no_panic _ (fun _ => True)). apply (foldM_safe (fun _ _ => True)); [done|].
    intros pre i post [] Hpre _. assert (i ∈ dead_documents dead) as Hi by (rewrite Hpre; set_solver).
    destruct (get_is_Some _ _ (Hb i Hi)) as [d Hd]. subst f. cbv beta. rewrite Hd. cbn [expect mbind res_bind].
    eapply safe_weaken; [apply safe_ensure|done].
  - rewrite foldM_unit. split.
    + intros Hall id d Hd Hin. specialize (Hall _ Hin). subst f. cbv beta in Hall. rewrite Hd in Hall.
      cbn [expect mbind res_bind] in Hall. rewrite ensure_ok in Hall. by apply bool_decide_eq_true in Hall.
    + intros Hall i Hi. destruct (get_is_Some _ _ (Hb i Hi)) as [d Hd]. subst f. cbv beta. rewrite Hd.
      cbn [expect mbind res_bind]. apply ensure_ok, bool_decide_eq_true. by eapply Hall.
Qed.
End dead.

Lemma validate_dead_iff dead tables :
  well_formed tables -> len (documents tables) < U32 -> ascending (dead_sources dead) -> ascending (dead_documents dead) ->
  no_panic (validate_dead dead tables) /\ (validate_dead dead tables = Ok tt <-> dead_closed dead tables).
Proof.
  intros Hwf Hsmall Hs Hd. unfold validate_dead, dead_closed.
  pose proof (last_bound _ (len (sources tables)) Hs) as Hsb.
  pose proof (last_bound _ (len (documents tables)) Hd) as Hdb.
  destruct (match last (dead_sources dead) with Some _ => _ | None => _ end); cbn [ensure mbind res_bind].
  2: { split; [by intros ?|]. split; [done|]. intros (H' & _). by apply Hsb in H'. }
  destruct (match last (dead_documents dead) with Some _ => _ | None => _ end); cbn [ensure mbind res_bind].
  2: { split; [by intros ?|]. split; [done|]. intros (_ & H' & _). by apply Hdb in H'. }
  pose proof (proj1 Hsb eq_refl) as Hs'. pose proof (proj1 Hdb eq_refl) as Hd'.
  destruct (dead_sources_loop dead tables Hwf Hsmall Hs') as [P1 E1].
  destruct (dead_documents_loop dead tables Hwf Hsmall Hd') as [P2 E2]. cbv zeta in *.
  destruct (foldM _ tt (dead_sources dead)) as [[]|e|w]; cbn [mbind res_bind].
  - split; [exact P2|]. rewrite E2. pose proof (proj1 E1 eq_refl). naive_solver.
  - split; [by intros ?|]. split; [done|]. intros (_ & _ & H'). exfalso. assert (Err e = Ok tt) as [=]. apply E1. naive_solver.
  - exfalso. by apply (P1 w).
Qed.

(** ** Theorems *)

(** C37: validation of decoded tables never panics, and what it accepts is well
    formed: sources strictly sorted, their document ranges partitioning the
    documents, every document owned by the source it names, display keys
    unique, pack blocks tiling their packs, and documents tiling the decoded
    stream of the blocks exactly, in order. *)
Theorem validate_well_formed tables :
  no_panic (validate tables) /\ (validate tables = Ok tt -> well_formed tables).
Proof.
  destruct (safe_no_panic _ _ (validate_safe tables)) as [Hp Hok]. split; [done|]. by apply Hok.
Qed.

(** On validated tables a parsed dead set is checked without panics, and
    it is accepted exactly when its ids are in range and its documents are
    precisely those of its sources. *)
Theorem dead_set_exact decode_dead bytes dead tables :
  parse_dead decode_dead bytes = Ok dead -> validate tables = Ok tt -> len (documents tables) < U32 ->
  no_panic (validate_dead dead tables) /\
  (validate_dead dead tables = Ok tt <-> dead_closed dead tables).
Proof.
  intros Hparse Hval Hsmall. destruct (safe_no_panic _ _ (validate_safe tables)) as [_ Hok].
  unfold parse_dead in Hparse. res_inv. apply validate_dead_iff; [by apply (Hok tt)|done|by apply is_ascending_spec..].
Qed.

(** ** Witnesses: an archive with two members and a plain source *)

Definition demo_source (k : list N) (first count : N) : SourceEntry :=
  {| key := k; version := [118]; encoded_size := 10; encoding := Raw; first_doc := first; doc_count := count;
     failed := false; retry := false |}.
Definition demo_doc (k : list N) (source : N) (member : option (list N)) (size offset : N) : DocEntry :=
  {| display_key := k; source_id := source; member_path := member; decoded_size := size; first_block := 0;
     block_offset := offset; max_line_len := 0; block_newlines := [] |}.
Definition demo_tables : SegmentTables :=
  {| sources := [demo_source [97] 0 2; demo_source [98] 2 1];
     documents := [demo_doc [97; 33; 47; 97] 0 (Some [97]) 1 0; demo_doc [97; 33; 47; 98] 0 (Some [98]) 1 1;
                   demo_doc [98] 1 None 3 2];
     blocks := [{| pack := 0; pb_offset := 0; compressed_len := 1; decoded_len := 5; pb_hash := [] |}] |}.

Lemma validate_well_formed_witness : validate demo_tables = Ok tt /\ well_formed demo_tables.
Proof. split; [vm_compute; reflexivity|]. apply (validate_well_formed demo_tables). vm_compute. reflexivity. Defined.

Lemma dead_set_exact_witness :
  validate_dead {| dead_sources := [0]; dead_documents := [0; 1] |} demo_tables = Ok tt /\
  dead_closed {| dead_sources := [0]; dead_documents := [0; 1] |} demo_tables.
Proof.
  split; [vm_compute; reflexivity|].
  apply (dead_set_exact (fun _ => Some {| dead_sources := [0]; dead_documents := [0; 1] |}) []);
    vm_compute; reflexivity.
Defined.
