(* ===== verification/Detect.v ===== *)
(** * Encodings of a source and its decoded bytes (crates/core/src/codec)

    [detect_codec] tells an encoding from the first bytes of a body
    (codec/detect.rs).  A [DecodeWriter] collects decoded bytes within a limit,
    in memory and then in a file (codec/body.rs).  The readers of
    codec/compressed.rs drain a decoder into a writer: a strict one fails with
    the decoder, a salvaging one keeps what came out before it failed.  The
    decoders themselves, the parsers of container headers and the projections of
    tables to JSON lines are third-party code: a record of functions, of which
    nothing is assumed. *)

From Stdlib Require Import Strings.Ascii.
From S2P Require Import Prelude BitPack Bytes Format.

Inductive Codec : Type :=
  | CRaw | CGzip | CZstd | CBzip2 | CSnappyFrame | CLz4Frame | CLz4Legacy | CXz | CParquet | CAvro | CZip | CTar | CArrowIpc | CBrotli | CZlib
  | COrc | CArrowIpcStream.
#[export] Instance Codec_eq_dec : EqDecision Codec.
Proof. solve_decision. Defined.

(** What reading from a decoder gives, one call after the other; the end of the
    list is the end of the stream. *)
Inductive ReadEvent : Type :=
  | Chunk (bytes : list N)
  | Interrupted
  | Failed.

(** [orc_rust::proto::PostScript], as far as it is looked at. *)
Record PostScript : Type := {
  ps_magic_ok : bool; ps_compression : option N; ps_compression_block_size : option N; ps_footer_length : option N; ps_metadata_length : option N;
}.

(** One call of [stream.process] of the xz decoder: the bytes it wrote, whether
    its input was used up, and its status. *)
Inductive XzStatus : Type := XzStreamEnd | XzRunning | XzFailed.
Record XzStep : Type := { xz_written : list N; xz_input_empty : bool; xz_status : XzStatus }.

(** A member of an archive, with what reading it gives. *)
Record ZipMember : Type := { zm_name : list N; zm_encrypted : bool; zm_dir : bool; zm_symlink : bool; zm_file : bool; zm_read : list ReadEvent }.
Record TarEntry : Type := { te_file : bool; te_path : res (list N); te_read : list ReadEvent }.

Record Crates : Type := {
  x_arrow_file : list N -> bool;
  x_arrow_stream : list N -> bool;
  x_postscript : list N -> option PostScript;
  x_compression_kind : N -> bool;
  x_tar_cksum : list N -> option N;
  x_tar_expected : list N -> option N;
  (** A decoder over some bytes; creating it may fail. *)
  x_stream : Codec -> list N -> res (list ReadEvent);
  (** A frame decoder, and the bytes after the frame. *)
  x_lz4_frame : list N -> list ReadEvent * list N;
  (** The steps of a stream, and how much of the input it takes. *)
  x_xz_stream : list N -> res (list XzStep * N);
  (** What a projection to JSON lines writes. *)
  x_project : Codec -> list N -> list ReadEvent;
  x_transcode : list N -> res (list N);
  (** The start of the central directory, and the members. *)
  x_zip : list N -> res (N * list (res ZipMember));
  x_tar : list N -> res (list (res TarEntry));
}.

(** ** Magic bytes *)

Definition ascii (s : string) : list N := N_of_ascii <$> String.list_ascii_of_string s.
Definition starts_with (bytes prefix : list N) : bool := bool_decide (take (length prefix) bytes = prefix).
Definition ends_with (bytes suffix : list N) : bool := bool_decide (drop (length bytes - length suffix) bytes = suffix) && (len suffix <=? len bytes).
Definition to_ascii_lowercase (key : list N) : list N := (fun c => if (65 <=? c) && (c <=? 90) then c + 32 else c) <$> key.
(** [u32::from_le_bytes(bytes[at..at + 4])] *)
Definition u32_at (bytes : list N) (at_ : N) : option N := from_le <$> get_range bytes at_ (at_ + 4).

(** [while let Some(rest) = bytes.get(at..)]: every pass but the last moves on
    by eight bytes or more. *)
Fixpoint skip_frames (fuel : nat) (bytes : list N) (at_ : N) : res (option N) :=
  match fuel with
  | O => Panic "skip_skippable_frames: out of fuel"
  | S fuel =>
      let rest := drop (N.to_nat at_) bytes in
      match rest with
      | magic :: 42 :: 77 :: 24 :: a :: b :: c :: d :: _ =>
          if N.land magic 240 =? 80 then
            match size ← checked_add U64 8 (from_le [a; b; c; d]); checked_add U64 at_ size with
            | Some next => if next <=? len bytes then skip_frames fuel bytes next else Ok None
            | None => Ok None
            end
          else Ok (Some at_)
      | _ => Ok (Some at_)
      end
  end.
Definition skip_skippable_frames (bytes : list N) : res (option N) := skip_frames (S (length bytes)) bytes 0.

Definition ZSTD_MAGIC : list N := [40; 181; 47; 253].
Definition LZ4_MAGIC : list N := [4; 34; 77; 24].
Definition LZ4_LEGACY_MAGIC : list N := [2; 33; 76; 24].
Definition XZ_MAGIC : list N := [253; 55; 122; 88; 90; 0].
Definition SNAPPY_FRAME_MAGIC : list N := [255; 6; 0; 0] ++ ascii "sNaPpY".

Definition is_bzip2 (bytes : list N) : bool :=
  (10 <=? len bytes) && starts_with bytes (ascii "BZh") &&
  match get bytes 3 with Some level => (49 <=? level) && (level <=? 57) | None => false end &&
  (bool_decide (get_range bytes 4 10 = Some [49; 65; 89; 38; 83; 89]) || bool_decide (get_range bytes 4 10 = Some [23; 114; 69; 56; 80; 144])).

Definition is_parquet (bytes : list N) : bool :=
  if (len bytes <? 12) || negb (starts_with bytes (ascii "PAR1")) || negb (ends_with bytes (ascii "PAR1")) then false
  else match u32_at bytes (len bytes - 8) with Some metadata_len => metadata_len + 12 <=? len bytes | None => false end.

Section detect.
Context (x : Crates).

Definition postscript_ok (bytes : list N) (postscript_len : N) (postscript : PostScript) : bool :=
  if negb (ps_magic_ok postscript) ||
     match ps_compression postscript with Some kind => negb (x_compression_kind x kind) | None => false end ||
     match ps_compression_block_size postscript with Some size => 64 * 1024 * 1024 <? size | None => false end then false
  else match ps_footer_length postscript, ps_metadata_length postscript with
       | Some footer_len, Some metadata_len =>
           (0 <? footer_len) &&
           match total ← checked_add U64 footer_len metadata_len; checked_add U64 total (postscript_len + 1) with
           | Some total => total <=? len bytes
           | None => false
           end
       | _, _ => false
       end.

Definition is_orc (bytes : list N) : bool :=
  if negb (starts_with bytes (ascii "ORC")) || (len bytes <? 5) then false
  else match last bytes with
       | None => false
       | Some postscript_len =>
           match checked_sub (len bytes) (postscript_len + 1) with
           | None => false
           | Some postscript_at =>
               if (postscript_len =? 0) || (postscript_at <? 3) then false
               else match bytes ← get_range bytes postscript_at (len bytes - 1); x_postscript x bytes with
                    | Some postscript => postscript_ok bytes postscript_len postscript
                    | None => false
                    end
           end
       end.

Definition is_arrow_ipc (bytes : list N) : bool :=
  (12 <=? len bytes) && starts_with bytes (ascii "ARROW1") && ends_with bytes (ascii "ARROW1") && x_arrow_file x bytes.

(** The length of the metadata is a signed number, positive below 2^31. *)
Definition is_arrow_ipc_stream (bytes : list N) (allow_legacy : bool) : bool :=
  let check length_at metadata_at :=
    match u32_at bytes length_at with
    | None => false
    | Some length_ =>
        if (length_ =? 0) || (2 ^ 31 <=? length_) || (len bytes <? metadata_at + length_) then false else x_arrow_stream x bytes
    end in
  if starts_with bytes [255; 255; 255; 255] then check 4 8 else if allow_legacy then check 0 4 else false.

Definition is_tar (bytes : list N) : bool :=
  match get_range bytes 0 512 with
  | None => false
  | Some header =>
      if negb (bool_decide (get_range header 257 262 = Some (ascii "ustar"))) then false
      else match x_tar_cksum x header with
           | None => false
           | Some stored => bool_decide (x_tar_expected x header = Some stored)
           end
  end.

Definition detect_codec (bytes : list N) : res Codec :=
  skipped ← skip_skippable_frames bytes;
  match skipped with
  | None => Ok CRaw
  | Some at_ =>
      if 0 <? at_ then
        let rest := drop (N.to_nat at_) bytes in
        Ok (if bool_decide (rest = []) || starts_with rest ZSTD_MAGIC then CZstd else if starts_with rest LZ4_MAGIC then CLz4Frame else CRaw)
      else Ok (
        if starts_with bytes [31; 139; 8] then CGzip
        else if starts_with bytes ZSTD_MAGIC then CZstd
        else if is_bzip2 bytes then CBzip2
        else if starts_with bytes SNAPPY_FRAME_MAGIC then CSnappyFrame
        else if starts_with bytes LZ4_MAGIC then CLz4Frame
        else if starts_with bytes LZ4_LEGACY_MAGIC then CLz4Legacy
        else if starts_with bytes XZ_MAGIC then CXz
        else if is_parquet bytes then CParquet
        else if starts_with bytes (ascii "Obj" ++ [1]) then CAvro
        else if is_orc bytes then COrc
        else if starts_with bytes (ascii "PK" ++ [3; 4]) || starts_with bytes (ascii "PK" ++ [5; 6]) || starts_with bytes (ascii "PK" ++ [7; 8]) then CZip
        else if is_tar bytes then CTar
        else if is_arrow_ipc bytes then CArrowIpc
        else if is_arrow_ipc_stream bytes false then CArrowIpcStream
        else CRaw)
  end.

Definition detect_codec_for_key (key bytes : list N) : res Codec :=
  codec ← detect_codec bytes;
  if negb (bool_decide (codec = CRaw)) then Ok codec
  else
    let key := to_ascii_lowercase key in
    Ok (if (ends_with key (ascii ".arrow") || ends_with key (ascii ".arrows") || ends_with key (ascii ".ipc")) && is_arrow_ipc_stream bytes true
        then CArrowIpcStream
        else if ends_with key (ascii ".br") then CBrotli
        else if ends_with key (ascii ".zlib") || ends_with key (ascii ".zz") then CZlib
        else CRaw).

(** [is_raw_source] *)
Definition is_raw_source (key bytes : list N) : res bool := codec ← detect_codec_for_key key bytes; Ok (bool_decide (codec = CRaw)).
End detect.

Definition codec_encoding (codec : Codec) : SourceEncoding :=
  match codec with
  | CRaw => Raw | CGzip => Gzip | CZstd => Zstd | CBzip2 => Bzip2 | CSnappyFrame => SnappyFrame | CLz4Frame | CLz4Legacy => Lz4Frame | CXz => Xz
  | CParquet => Parquet | CAvro => Avro | CZip => Zip | CTar => Tar | CArrowIpc | CArrowIpcStream => ArrowIpc | CBrotli => Brotli | CZlib => Zlib
  | COrc => Orc
  end.

(** ** Collecting decoded bytes *)

(** [DocumentStorage]: in memory or in a file, and what it holds. *)
Inductive DocumentBody : Type :=
  | BodyBytes (bytes : list N)
  | BodyFile (bytes : list N).
Definition body_bytes (body : DocumentBody) : list N := match body with BodyBytes bytes | BodyFile bytes => bytes end.

(** [DecodeWriter]; [dw_file]: the bytes are in a file. *)
Record DecodeWriter : Type := { dw_limit : option N; dw_memory_limit : N; dw_bytes : list N; dw_file : bool }.
Definition new_decode_writer (limit : option N) (memory_limit : N) : DecodeWriter :=
  {| dw_limit := limit; dw_memory_limit := memory_limit; dw_bytes := []; dw_file := false |}.

Definition dw_append (w : DecodeWriter) (bytes : list N) : res DecodeWriter :=
  length_ ← with_context (checked_add U64 (len (dw_bytes w)) (len bytes)) "decoded length overflows";
  ensure (match dw_limit w with Some limit => length_ <=? limit | None => true end) "decoded source exceeds its limit";;
  Ok {| dw_limit := dw_limit w; dw_memory_limit := dw_memory_limit w; dw_bytes := dw_bytes w ++ bytes;
        dw_file := dw_file w || (dw_memory_limit w <? length_) |}.
Definition dw_finish (w : DecodeWriter) : DocumentBody := if dw_file w then BodyFile (dw_bytes w) else BodyBytes (dw_bytes w).
Definition dw_is_empty (w : DecodeWriter) : bool := len (dw_bytes w) =? 0.

(** ** Draining decoders *)

(** [read_salvaging]: a chunk without bytes is the end of the stream. *)
Fixpoint read_salvaging (out : DecodeWriter) (events : list ReadEvent) : res DocumentBody :=
  match events with
  | [] => Ok (dw_finish out)
  | Chunk [] :: _ => Ok (dw_finish out)
  | Chunk bytes :: events => out ← dw_append out bytes; read_salvaging out events
  | Interrupted :: events => read_salvaging out events
  | Failed :: _ => if dw_is_empty out then Err "decode failed" else Ok (dw_finish out)
  end.

Fixpoint read_strict (out : DecodeWriter) (events : list ReadEvent) : res DocumentBody :=
  match events with
  | [] => Ok (dw_finish out)
  | Chunk [] :: _ => Ok (dw_finish out)
  | Chunk bytes :: events => out ← dw_append out bytes; read_strict out events
  | _ => Err "decode failed"
  end.

(** One frame: [inl] when what decoded is all there is. *)
Fixpoint lz4_frame (decoded_any : bool) (out : DecodeWriter) (events : list ReadEvent) : res (DocumentBody + DecodeWriter) :=
  match events with
  | [] => Ok (inr out)
  | Chunk [] :: _ => Ok (inr out)
  | Chunk bytes :: events => out ← dw_append out bytes; lz4_frame decoded_any out events
  | _ => if decoded_any || negb (dw_is_empty out) then Ok (inl (dw_finish out)) else Err "lz4 decode failed"
  end.

Section drain.
Context (x : Crates).

(** Every frame leaves fewer bytes. *)
Fixpoint lz4_frames (fuel : nat) (out : DecodeWriter) (rest : list N) (decoded_any : bool) : res DocumentBody :=
  match fuel with
  | O => Panic "decode_lz4_frames: out of fuel"
  | S fuel =>
      skipped ← skip_skippable_frames rest;
      let skipped := match skipped with Some at_ => drop (N.to_nat at_) rest | None => [] end in
      if bool_decide (skipped = []) then Ok (dw_finish out)
      else if negb (starts_with skipped LZ4_MAGIC) then
        if decoded_any then Ok (dw_finish out) else Err "lz4 decode failed: input is not an lz4 frame"
      else
        let '(events, remaining) := x_lz4_frame x skipped in
        frame ← lz4_frame decoded_any out events;
        match frame with
        | inl body => Ok body
        | inr out =>
            ensure (len remaining <? len skipped) "lz4 decoder made no progress";;
            lz4_frames fuel out remaining true
        end
  end.
Definition decode_lz4_frames (bytes : list N) (limit : option N) (memory_limit : N) : res DocumentBody :=
  lz4_frames (S (length bytes)) (new_decode_writer limit memory_limit) bytes false.

(** One xz stream: [inl] when what decoded is all there is. *)
Fixpoint xz_stream (out : DecodeWriter) (steps : list XzStep) : res (DocumentBody + DecodeWriter) :=
  match steps with
  | [] => Panic "an xz stream ends with its last step"
  | step :: steps =>
      out ← dw_append out (xz_written step);
      match xz_status step with
      | XzStreamEnd => Ok (inr out)
      | XzRunning =>
          if xz_input_empty step && bool_decide (xz_written step = []) then
            ensure (negb (dw_is_empty out)) "xz stream is truncated";;
            Ok (inl (dw_finish out))
          else xz_stream out steps
      | XzFailed => if dw_is_empty out then Err "xz decode failed" else Ok (inl (dw_finish out))
      end
  end.

Fixpoint skip_zeros (bytes : list N) : list N := match bytes with 0 :: bytes => skip_zeros bytes | _ => bytes end.

(** A stream takes at least its magic bytes; [fuel] bounds the streams. *)
Fixpoint xz_streams (fuel : nat) (out : DecodeWriter) (rest : list N) : res DocumentBody :=
  match fuel with
  | O => Panic "decode_xz_streams: out of fuel"
  | S fuel =>
      let rest := skip_zeros rest in
      if bool_decide (rest = []) then Ok (dw_finish out)
      else if negb (starts_with rest XZ_MAGIC) then
        ensure (negb (dw_is_empty out)) "xz decode failed: input is not an xz stream";;
        Ok (dw_finish out)
      else
        '(steps, total_in) ← x_xz_stream x rest;
        stream ← xz_stream out steps;
        match stream with
        | inl body => Ok body
        | inr out => xz_streams fuel out (drop (N.to_nat total_in) rest)
        end
  end.
Definition decode_xz_streams (bytes : list N) (limit : option N) (memory_limit : N) : res DocumentBody :=
  xz_streams (S (length bytes)) (new_decode_writer limit memory_limit) bytes.

Definition can_decode_stream (codec : Codec) : bool :=
  match codec with CGzip | CZstd | CBzip2 | CSnappyFrame | CBrotli | CZlib => true | _ => false end.

(** [decode_stream]; the decoders of a body in memory are the same. *)
Definition decode_stream (codec : Codec) (bytes : list N) (limit : option N) (memory_limit : N) : res DocumentBody :=
  let out := new_decode_writer limit memory_limit in
  match codec with
  | CGzip | CZstd | CBzip2 | CSnappyFrame => events ← x_stream x codec bytes; read_salvaging out events
  | CBrotli | CZlib => events ← x_stream x codec bytes; read_strict out events
  | _ => Panic "non-streaming codec passed to decode_stream"
  end.

(** [check_output] *)
Definition check_output (length_ : N) (limit : option N) : res unit :=
  ensure (match limit with Some limit => length_ <=? limit | None => true end) "decoded source exceeds its limit".

(** [decode_body_inner] *)
Definition decode_body_inner (key bytes : list N) (limit : option N) (memory_limit : N) : res DocumentBody :=
  codec ← detect_codec_for_key x key bytes;
  match codec with
  | CRaw => check_output (len bytes) limit;; Ok (BodyBytes bytes)
  | CGzip | CZstd | CBzip2 | CSnappyFrame | CBrotli | CZlib => decode_stream codec bytes limit memory_limit
  | CLz4Frame => decode_lz4_frames bytes limit memory_limit
  | CLz4Legacy => Err "an lz4 legacy frame is not decoded"
  | CXz => decode_xz_streams bytes limit memory_limit
  | CParquet | CAvro | CArrowIpc | CArrowIpcStream | COrc => read_strict (new_decode_writer limit memory_limit) (x_project x codec bytes)
  | CZip | CTar => Err "multiple archive documents; use decode_source"
  end.
End drain.

(** ** Detection is total *)

Lemma skip_frames_ok fuel bytes at_ :
  at_ <= len bytes -> (N.to_nat (len bytes - at_) < fuel)%nat ->
  exists o, skip_frames fuel bytes at_ = Ok o /\ forall e, o = Some e -> at_ <= e <= len bytes.
Proof.
  revert at_. induction fuel as [|fuel IH]; intros at_ Ha Hf; [lia|]. cbn [skip_frames].
  assert (exists o, Ok (Some at_) = Ok o /\ forall e, o = Some e -> at_ <= e <= len bytes) as Hstop by (exists (Some at_); split; [done|]; intros e [= <-]; lia).
  assert (exists o, @Ok (option N) None = Ok o /\ forall e, o = Some e -> at_ <= e <= len bytes) as Hnone by (by exists None).
  destruct (drop (N.to_nat at_) bytes) as [|magic rest]; [exact Hstop|].
  repeat (match goal with |- context [match ?l with _ => _ end] => is_var l; destruct l; try exact Hstop end).
  destruct (N.land magic 240 =? 80); [|exact Hstop].
  destruct (mbind _ _) as [next|] eqn:E; [|exact Hnone]. destruct (N.leb_spec next (len bytes)) as [Hn|]; [|exact Hnone].
  destruct (checked_add U64 8 _) as [size|] eqn:Es; [|done]. cbn in E. apply checked_add_Some in Es as [-> _]. apply checked_add_Some in E as [-> _].
  destruct (IH _ Hn) as (o & -> & Ho); [clear -Hf Hn; lia|]. exists o. split; [done|]. intros e He. apply Ho in He. lia.
Qed.

Lemma skip_skippable_ok bytes : exists o, skip_skippable_frames bytes = Ok o.
Proof. destruct (skip_frames_ok (S (length bytes)) bytes 0) as (o & E & _); [lia|unfold len; lia|]. by exists o. Qed.

Lemma detect_codec_total x bytes : exists codec, detect_codec x bytes = Ok codec.
Proof.
  unfold detect_codec. destruct (skip_skippable_ok bytes) as [[at_|] ->]; cbn [mbind res_bind]; [|by eexists]. by destruct (0 <? at_); eexists.
Qed.
Lemma detect_for_key_total x key bytes : exists codec, detect_codec_for_key x key bytes = Ok codec.
Proof. unfold detect_codec_for_key. destruct (detect_codec_total x bytes) as [codec ->]. cbn [mbind res_bind]. by destruct (negb _); eexists. Qed.

(** A hint never overrules what the bytes say. *)
Lemma detect_hint x key bytes codec :
  detect_codec x bytes = Ok codec -> codec <> CRaw -> detect_codec_for_key x key bytes = Ok codec.
Proof. intros E H. unfold detect_codec_for_key. rewrite E. cbn [mbind res_bind]. by rewrite bool_decide_eq_false_2 by done. Qed.

(** ** Decoding stays within its limit *)

Lemma safe_err {A} e (P : A -> Prop) : safe (Err e) P.
Proof. left. by eexists. Qed.
#[export] Hint Resolve safe_err : core.

Definition within (limit : option N) (bytes : list N) : Prop := match limit with Some limit => len bytes <= limit | None => True end.
Definition writer_within (limit : option N) (w : DecodeWriter) : Prop := dw_limit w = limit /\ within limit (dw_bytes w).
Definition body_within (limit : option N) (body : DocumentBody) : Prop := within limit (body_bytes body).

Lemma new_writer_within limit memory_limit : writer_within limit (new_decode_writer limit memory_limit).
Proof. split; [done|]. destruct limit; [apply N.le_0_l|exact I]. Qed.
Lemma dw_append_within limit w bytes : writer_within limit w -> safe (dw_append w bytes) (writer_within limit).
Proof.
  intros [E _]. unfold dw_append. eapply safe_bind; [apply safe_context|]. intros length_ Hl%checked_add_Some.
  eapply safe_bind; [apply safe_ensure|]. intros [] H. apply safe_ok. split; [done|]. cbn [dw_bytes]. rewrite E in H. unfold within. destruct limit; [|done].
  rewrite len_app. lia.
Qed.
Lemma dw_finish_within limit w : writer_within limit w -> body_within limit (dw_finish w).
Proof. intros [_ H]. unfold body_within, dw_finish. by destruct (dw_file w). Qed.

Lemma read_salvaging_within limit out events : writer_within limit out -> safe (read_salvaging out events) (body_within limit).
Proof.
  revert out. induction events as [|[bytes| |] events IH]; intros out Hout; cbn [read_salvaging].
  - by apply safe_ok, dw_finish_within.
  - destruct bytes as [|b bytes]; [by apply safe_ok, dw_finish_within|]. eapply safe_bind; [by apply dw_append_within|]. intros w Hw. by apply IH.
  - by apply IH.
  - destruct (dw_is_empty out); [done|]. by apply safe_ok, dw_finish_within.
Qed.
Lemma read_strict_within limit out events : writer_within limit out -> safe (read_strict out events) (body_within limit).
Proof.
  revert out. induction events as [|[bytes| |] events IH]; intros out Hout; cbn [read_strict]; [by apply safe_ok, dw_finish_within| |done..].
  destruct bytes as [|b bytes]; [by apply safe_ok, dw_finish_within|]. eapply safe_bind; [by apply dw_append_within|]. intros w Hw. by apply IH.
Qed.

Definition drained (limit : option N) (r : DocumentBody + DecodeWriter) : Prop :=
  match r with inl body => body_within limit body | inr out => writer_within limit out end.

Lemma lz4_frame_within limit any out events : writer_within limit out -> safe (lz4_frame any out events) (drained limit).
Proof.
  revert out. induction events as [|[bytes| |] events IH]; intros out Hout; cbn [lz4_frame]; [by apply safe_ok| |..].
  - destruct bytes as [|b bytes]; [by apply safe_ok|]. eapply safe_bind; [by apply dw_append_within|]. intros w Hw. by apply IH.
  - destruct (any || _); [|done]. by apply safe_ok, dw_finish_within.
  - destruct (any || _); [|done]. by apply safe_ok, dw_finish_within.
Qed.

(** What the third-party code promises: it does not panic; an xz stream ends, or
    comes to a standstill, and takes bytes. *)
Definition xz_last (step : XzStep) : Prop := xz_status step <> XzRunning \/ (xz_input_empty step = true /\ xz_written step = []).
Class CratesOk (x : Crates) : Prop := {
  cr_stream : forall codec bytes, no_panic (x_stream x codec bytes);
  cr_transcode : forall bytes, no_panic (x_transcode x bytes);
  cr_zip : forall bytes, no_panic (x_zip x bytes);
  cr_zip_members : forall bytes start members, x_zip x bytes = Ok (start, members) -> Forall no_panic members;
  cr_tar : forall bytes, no_panic (x_tar x bytes);
  cr_tar_entries : forall bytes entries, x_tar x bytes = Ok entries ->
    Forall (fun entry => safe entry (fun e => no_panic (te_path e))) entries;
  cr_xz : forall bytes, safe (x_xz_stream x bytes) (fun '(steps, total_in) => Exists xz_last steps /\ 0 < total_in);
}.

Section drain_proofs.
Context (x : Crates) `{!CratesOk x}.

Lemma lz4_frames_within fuel limit out rest any :
  writer_within limit out -> (length rest < fuel)%nat -> safe (lz4_frames x fuel out rest any) (body_within limit).
Proof.
  revert out rest any. induction fuel as [|fuel IH]; intros out rest any Hout Hf; [lia|]. cbn [lz4_frames].
  destruct (skip_frames_ok (S (length rest)) rest 0) as (o & E & Ho); [lia|unfold len; lia|]. unfold skip_skippable_frames. rewrite E. cbn [mbind res_bind].
  set (skipped := match o with Some at_ => _ | None => _ end). assert (length skipped <= length rest)%nat as Hs.
  { subst skipped. destruct o; [rewrite length_drop; lia|cbn; lia]. }
  case_bool_decide; [by apply safe_ok, dw_finish_within|]. destruct (negb _); [destruct any; [by apply safe_ok, dw_finish_within|done]|].
  destruct (x_lz4_frame x skipped) as [events remaining]. eapply safe_bind; [by apply lz4_frame_within|]. intros [body|w] Hr; [by apply safe_ok|].
  eapply safe_bind; [apply safe_ensure|]. intros [] Hlt%N.ltb_lt. apply IH; [exact Hr|]. unfold len in Hlt. lia.
Qed.

Lemma xz_stream_within limit out steps : writer_within limit out -> Exists xz_last steps -> safe (xz_stream out steps) (drained limit).
Proof.
  intros Hout Hlast. revert out Hout. induction steps as [|step steps IH]; intros out Hout; [by apply Exists_nil in Hlast|]. cbn [xz_stream].
  eapply safe_bind; [by apply dw_append_within|]. intros w Hw. destruct (xz_status step) eqn:Es; [by apply safe_ok| |].
  - destruct (xz_input_empty step && _) eqn:E.
    + eapply safe_bind; [apply safe_ensure|]. intros [] _. by apply safe_ok, dw_finish_within.
    + apply IH; [|exact Hw]. apply Exists_cons in Hlast as [[?|[H1 H2]]|?]; [done| |done]. rewrite H1, bool_decide_eq_true_2 in E by done. done.
  - destruct (dw_is_empty w); [done|]. by apply safe_ok, dw_finish_within.
Qed.

Lemma skip_zeros_length bytes : (length (skip_zeros bytes) <= length bytes)%nat.
Proof. induction bytes as [|[|p] bytes IH]; cbn; lia. Qed.

Lemma xz_streams_within fuel limit out rest :
  writer_within limit out -> (length rest < fuel)%nat -> safe (xz_streams x fuel out rest) (body_within limit).
Proof.
  revert out rest. induction fuel as [|fuel IH]; intros out rest Hout Hf; [lia|]. cbn [xz_streams]. pose proof (skip_zeros_length rest) as Hz.
  case_bool_decide as He; [by apply safe_ok, dw_finish_within|]. destruct (negb _).
  - eapply safe_bind; [apply safe_ensure|]. intros [] _. by apply safe_ok, dw_finish_within.
  - eapply safe_bind; [apply cr_xz|]. intros [steps total_in] [Hlast Hin]. eapply safe_bind; [by apply xz_stream_within|].
    intros [body|w] Hr; [by apply safe_ok|]. apply IH; [exact Hr|]. rewrite length_drop. destruct (skip_zeros rest); [done|]. cbn [length] in *. lia.
Qed.

Lemma no_panic_safe {A} (r : res A) : no_panic r -> safe r (fun _ => True).
Proof. intros H. destruct r as [a|e|w]; [by apply safe_ok|left; by eexists|by destruct (H w)]. Qed.

Lemma stream_within codec bytes limit memory_limit :
  can_decode_stream codec = true -> safe (decode_stream x codec bytes limit memory_limit) (body_within limit).
Proof.
  intros H. unfold decode_stream.
  destruct codec; try done; (eapply safe_bind; [apply no_panic_safe, cr_stream|]; intros events _);
    first [apply read_salvaging_within, new_writer_within|apply read_strict_within, new_writer_within].
Qed.

(** Whatever a body decodes to stays within the limit. *)
Lemma decode_body_within key bytes limit memory_limit : safe (decode_body_inner x key bytes limit memory_limit) (body_within limit).
Proof.
  unfold decode_body_inner. destruct (detect_for_key_total x key bytes) as [codec ->]. cbn [mbind res_bind].
  destruct codec; try (by apply stream_within); try done; try (apply read_strict_within, new_writer_within).
  - eapply safe_bind; [apply safe_ensure|]. intros [] H. apply safe_ok. unfold body_within, within. cbn [body_bytes]. destruct limit; [lia|done].
  - apply lz4_frames_within; [apply new_writer_within|lia].
  - apply xz_streams_within; [apply new_writer_within|lia].
Qed.
End drain_proofs.
