(* ===== verification/Decode.v ===== *)
(** * Decoding a source into documents (crates/core/src/codec.rs)

    [decode_source_body] unpacks a source, compressed data and archives inside
    one another up to a depth, and hands its documents one after the other to a
    sink: [begin], one [write], [finish].  The sink is a class with two
    instances: the indexer's ([Build]) and the one that picks the documents a
    reader asked for.  What the sink gets does not depend on the sink; members of
    archives get paths that are all different; the numbers of members and of
    decoded bytes stay within the limits. *)

From stdpp Require Import pretty.
From Stdlib Require Import Strings.Ascii.
From S2P Require Import Prelude BitPack Bytes Format Detect.

Record DecodeLimits : Type := { max_depth : N; max_members : N; max_expanded_bytes : N }.
Definition DECODE_LIMITS : DecodeLimits := {| max_depth := 4; max_members := 100000; max_expanded_bytes := 64 * 1024 * 1024 * 1024 |}.
Definition DECODE_MEMORY_LIMIT : N := 8 * 1024 * 1024.

Record LogicalDocumentMeta : Type := { dm_display_key : list N; dm_member_path : option (list N) }.
Record DecodeSummary : Type := { sm_encoding : SourceEncoding; sm_documents : N; sm_expanded_bytes : N }.

(** [trait DecodeSink] *)
Class DecodeSink (K : Type) : Type := {
  sink_begin : K -> LogicalDocumentMeta -> res K;
  sink_write_bytes : K -> list N -> res K;
  sink_write_file : K -> list N -> N -> res K;
  sink_finish : K -> res K;
}.

(** ** Member paths *)

(** [replace('\\', "/")], then [Path::components]: a leading slash is the root,
    empty parts and single dots are dropped. *)
Fixpoint split_on (sep : N) (bytes part : list N) : list (list N) :=
  match bytes with
  | [] => [part]
  | c :: bytes => if c =? sep then part :: split_on sep bytes [] else split_on sep bytes (part ++ [c])
  end.
Definition SLASH : N := 47.
Definition component (parts : list (list N)) (part : list N) : res (list (list N)) :=
  if bool_decide (part = []) || bool_decide (part = [46]) then Ok parts
  else if bool_decide (part = [46; 46]) then Err "unsafe archive path"
  else Ok (parts ++ [part]).
Fixpoint join_with (sep : N) (parts : list (list N)) : list N :=
  match parts with
  | [] => []
  | [part] => part
  | part :: parts => part ++ sep :: join_with sep parts
  end.

Definition clean_member_path (raw : list N) : res (list N) :=
  ensure (negb (bool_decide (0 ∈ raw))) "unsafe archive path contains NUL";;
  let replaced := (fun c => if c =? 92 then SLASH else c) <$> raw in
  ensure (negb (starts_with replaced [SLASH])) "unsafe archive path";;
  parts ← foldM component [] (split_on SLASH replaced []);
  ensure (negb (bool_decide (parts = []))) "unsafe empty archive path";;
  Ok (join_with SLASH parts).

Definition join_member_path (parent : option (list N)) (child : list N) : list N :=
  match parent with Some parent => parent ++ ascii "!/" ++ child | None => child end.

Definition decimal (n : N) : list N := ascii (pretty n).
(** [format!("{path}#{count}")] *)
Definition numbered (path : list N) (count : N) : list N := path ++ ascii "#" ++ decimal count.

(** The loop of [unique_path]: one of the candidates is not used yet. *)
Fixpoint first_unused (fuel : nat) (used : gset (list N)) (path : list N) (count : N) : res (list N * N) :=
  match fuel with
  | O => Panic "unique_path: out of fuel"
  | S fuel =>
      let candidate := numbered path count in
      let count := wrapping_add U32 count 1 in
      if bool_decide (candidate ∈ used) then first_unused fuel used path count else Ok (candidate, count)
  end.

(** ** The state of a decode *)

Section decode.
Context (x : Crates) (source_key : list N) (limits : DecodeLimits).

(** What [DecodeState] keeps beside its sink: the numbers of documents, members
    and decoded bytes, [path_counts] and [used_paths]. *)
Record Counters : Type := {
  ct_documents : N; ct_members : N; ct_expanded : N; ct_counts : gmap (list N) N; ct_used : gset (list N);
}.
Definition new_counters : Counters := {| ct_documents := 0; ct_members := 0; ct_expanded := 0; ct_counts := ∅; ct_used := ∅ |}.

Definition set_members (members : N) (c : Counters) : Counters :=
  {| ct_documents := ct_documents c; ct_members := members; ct_expanded := ct_expanded c; ct_counts := ct_counts c; ct_used := ct_used c |}.
Definition set_paths (counts : gmap (list N) N) (used : gset (list N)) (c : Counters) : Counters :=
  {| ct_documents := ct_documents c; ct_members := ct_members c; ct_expanded := ct_expanded c; ct_counts := counts; ct_used := used |}.
Definition set_emitted (documents expanded : N) (c : Counters) : Counters :=
  {| ct_documents := documents; ct_members := ct_members c; ct_expanded := expanded; ct_counts := ct_counts c; ct_used := ct_used c |}.

Definition count_member : ST Counters unit :=
  members ← gets ct_members;
  members ← lift (with_context (checked_add U32 members 1) "archive member count overflows u32");
  _ ← modify (set_members members);
  lift (ensure (members <=? max_members limits) "archive member count exceeds its limit").

Definition remaining : ST Counters N :=
  expanded ← gets ct_expanded;
  lift (with_context (checked_sub (max_expanded_bytes limits) expanded) "decoded byte count exceeds its limit").

Definition unique_path (path : list N) : ST Counters (list N) := fun c =>
  if bool_decide (path ∈ ct_used c) then
    match first_unused (S (size (ct_used c))) (ct_used c) path (default 2 (ct_counts c !! path)) with
    | Ok (candidate, count) => (Ok candidate, set_paths (<[path := count]> (ct_counts c)) ({[candidate]} ∪ ct_used c) c)
    | Err e => (Err e, c)
    | Panic w => (Panic w, c)
    end
  else (Ok path, set_paths (<[path := 2]> (ct_counts c)) ({[path]} ∪ ct_used c) c).

(** [transcode_utf16_body] *)
Definition transcode_utf16_body (body : DocumentBody) : res DocumentBody :=
  let bom := match body_bytes body with
    | a :: b :: _ => (a =? 255) && (b =? 254) || (a =? 254) && (b =? 255) || (a =? 239) && (b =? 187)
    | _ => false
    end in
  if bom then
    bytes ← x_transcode x (body_bytes body);
    Ok (match body with BodyBytes _ => BodyBytes bytes | BodyFile _ => BodyFile bytes end)
  else Ok body.

Definition display_key_of (member_path : option (list N)) : list N :=
  match member_path with Some path => source_key ++ ascii "!/" ++ path | None => source_key end.

(** [read_bounded]: at most one byte more than the limit is read, which is an
    error of the writer; the first byte goes to a file. *)
Fixpoint take_events (n : N) (events : list ReadEvent) : list ReadEvent :=
  match events with
  | Chunk bytes :: events =>
      if n <=? len bytes then [Chunk (take (N.to_nat n) bytes)] else Chunk bytes :: take_events (n - len bytes) events
  | event :: events => event :: take_events n events
  | [] => []
  end.
Fixpoint copy_events (out : DecodeWriter) (events : list ReadEvent) : res DocumentBody :=
  match events with
  | [] => Ok (dw_finish out)
  | Chunk [] :: _ => Ok (dw_finish out)
  | Chunk bytes :: events => out ← dw_append out bytes; copy_events out events
  | Interrupted :: events => copy_events out events
  | Failed :: _ => Err "read failed"
  end.
Definition read_bounded (events : list ReadEvent) (limit : N) : res DocumentBody :=
  read_limit ← with_context (checked_add U64 limit 1) "archive byte limit overflows u64";
  copy_events (new_decode_writer (Some limit) 0) (take_events read_limit events).

(** The scan of the central directory; a header is at least 46 bytes. *)
Fixpoint duplicate_scan (fuel : nat) (bytes : list N) (at_ : N) (seen : gset (list N)) : res (option (list N)) :=
  match fuel with
  | O => Panic "first_duplicate_zip_member_name: out of fuel"
  | S fuel =>
      magic ← with_context (get_range bytes at_ (at_ + 4)) "zip central directory scan failed";
      if negb (bool_decide (magic = [80; 75; 1; 2])) then Ok None
      else
        ensure (N.of_nat (size seen) <? max_members limits) "archive member count exceeds its limit";;
        fixed ← with_context (get_range bytes (at_ + 4) (at_ + 46)) "zip central directory scan failed";
        let u16_at i := from_le (default [] (get_range fixed i (i + 2))) in
        let name_end := at_ + 46 + u16_at 24 in
        name ← with_context (get_range bytes (at_ + 46) name_end) "zip central directory scan failed";
        if bool_decide (name ∈ seen) then Ok (Some name)
        else duplicate_scan fuel bytes (name_end + u16_at 26 + u16_at 28) ({[name]} ∪ seen)
  end.
Definition first_duplicate_zip_member_name (bytes : list N) (directory_start : N) : res (option (list N)) :=
  duplicate_scan (S (length bytes)) bytes directory_start ∅.

(** ** Emitting documents *)

Section sink.
Context {K : Type} `{!DecodeSink K}.

Abbreviation M := (ST (Counters * K)).

(** A call of the sink. *)
Definition call_sink (f : K -> res K) : ST K unit := fun k =>
  match f k with
  | Ok k => (Ok tt, k)
  | Err e => (Err e, k)
  | Panic w => (Panic w, k)
  end.

(** The calls for a document. *)
Definition emit_calls (meta : LogicalDocumentMeta) (body : DocumentBody) : ST K unit :=
  _ ← call_sink (fun k => sink_begin k meta);
  _ ← match body with
      | BodyBytes [] | BodyFile [] => mret tt
      | BodyBytes bytes => call_sink (fun k => sink_write_bytes k bytes)
      | BodyFile bytes => call_sink (fun k => sink_write_file k bytes (len bytes))
      end;
  call_sink sink_finish.

Definition emit (member_path : option (list N)) (body : DocumentBody) : M unit :=
  body ← lift (transcode_utf16_body body);
  let length_ := len (body_bytes body) in
  expanded ← on_fst (gets ct_expanded);
  expanded ← lift (with_context (checked_add U64 expanded length_) "decoded byte count overflows u64");
  _ ← lift (ensure (expanded <=? max_expanded_bytes limits) "decoded source exceeds its limit");
  _ ← on_snd (emit_calls {| dm_display_key := display_key_of member_path; dm_member_path := member_path |} body);
  documents ← on_fst (gets ct_documents);
  documents ← lift (with_context (checked_add U32 documents 1) "logical document count overflows u32");
  on_fst (modify (set_emitted documents expanded)).

Definition check_depth (depth : N) : M unit := lift (ensure (depth <=? max_depth limits) "decode depth exceeds its limit").

(** ** Archives and frames

    [rec] is [decode_output] one level further in. *)

Section rec.
Context (rec : DocumentBody -> option (list N) -> N -> bool -> M SourceEncoding).

Definition zip_member (parent : option (list N)) (depth : N) (entry : res ZipMember) : M unit :=
  entry ← lift entry;
  _ ← on_fst count_member;
  _ ← lift (ensure (negb (zm_encrypted entry)) "encrypted ZIP member is unsupported");
  if zm_dir entry || zm_symlink entry || negb (zm_file entry) then mret tt
  else
    name ← lift (clean_member_path (zm_name entry));
    path ← on_fst (unique_path (join_member_path parent name));
    limit ← on_fst remaining;
    body ← lift (read_bounded (zm_read entry) limit);
    _ ← rec body (Some path) (depth + 1) true;
    mret tt.

Definition decode_zip (bytes : list N) (parent : option (list N)) (depth : N) : M unit :=
  '(directory_start, members) ← lift (x_zip x bytes);
  duplicate ← lift (first_duplicate_zip_member_name bytes directory_start);
  _ ← lift (ensure (bool_decide (duplicate = None)) "duplicate zip member name");
  forS (zip_member parent depth) members.

Definition tar_member (parent : option (list N)) (depth : N) (entry : res TarEntry) : M unit :=
  entry ← lift entry;
  _ ← on_fst count_member;
  if negb (te_file entry) then mret tt
  else
    name ← lift (te_path entry);
    name ← lift (clean_member_path name);
    path ← on_fst (unique_path (join_member_path parent name));
    limit ← on_fst remaining;
    body ← lift (read_bounded (te_read entry) limit);
    _ ← rec body (Some path) (depth + 1) true;
    mret tt.

Definition decode_tar (bytes : list N) (parent : option (list N)) (depth : N) : M unit :=
  entries ← lift (x_tar x bytes);
  forS (tar_member parent depth) entries.

Definition memory_limit_of (member_path : option (list N)) : N := match member_path with Some _ => 0 | None => DECODE_MEMORY_LIMIT end.
Definition key_of (member_path : option (list N)) : list N := default source_key member_path.
Definition detect (allow_hint : bool) (key bytes : list N) : res Codec :=
  if allow_hint then detect_codec_for_key x key bytes else detect_codec x bytes.

Definition decode_frame (bytes : list N) (member_path : option (list N)) (depth : N) (allow_hint : bool) : M SourceEncoding :=
  let key := key_of member_path in
  codec ← lift (detect allow_hint key bytes);
  _ ← (if bool_decide (codec = CRaw) then mret tt else check_depth depth);
  let memory_limit := memory_limit_of member_path in
  _ ← match codec with
      | CRaw =>
          if memory_limit <? len bytes then
            limit ← on_fst remaining;
            out ← lift (dw_append (new_decode_writer (Some limit) 0) bytes);
            emit member_path (dw_finish out)
          else emit member_path (BodyBytes bytes)
      | CZip => decode_zip bytes member_path depth
      | CTar => decode_tar bytes member_path depth
      | CLz4Legacy => limit ← on_fst remaining; _ ← lift (decode_body_inner x source_key bytes (Some limit) memory_limit); mret tt
      | _ =>
          limit ← on_fst remaining;
          decoded ← lift (decode_body_inner x key bytes (Some limit) memory_limit);
          _ ← rec decoded member_path (depth + 1) false;
          mret tt
      end;
  mret (codec_encoding codec).

Definition decode_file (bytes : list N) (member_path : option (list N)) (depth : N) (allow_hint : bool) : M SourceEncoding :=
  codec ← lift (detect allow_hint (key_of member_path) bytes);
  match codec with
  | CRaw => _ ← emit member_path (BodyFile bytes); mret Raw
  | CZip => _ ← check_depth depth; _ ← decode_zip bytes member_path depth; mret (codec_encoding codec)
  | CTar => _ ← check_depth depth; _ ← decode_tar bytes member_path depth; mret (codec_encoding codec)
  | _ =>
      if can_decode_stream codec then
        _ ← check_depth depth;
        limit ← on_fst remaining;
        decoded ← lift (decode_stream x codec bytes (Some limit) (memory_limit_of member_path));
        _ ← rec decoded member_path (depth + 1) false;
        mret (codec_encoding codec)
      else decode_frame bytes member_path depth allow_hint
  end.
End rec.

(** [decode_output]: every level but the last is an encoding, whose depth is
    checked, so [max_depth] and two levels are enough. *)
Fixpoint decode_output (fuel : nat) (body : DocumentBody) (member_path : option (list N)) (depth : N) (allow_hint : bool) : M SourceEncoding :=
  match fuel with
  | O => lift (Panic "decode_output: out of fuel")
  | S fuel =>
      match body with
      | BodyBytes bytes => decode_frame (decode_output fuel) bytes member_path depth allow_hint
      | BodyFile bytes => decode_file (decode_output fuel) bytes member_path depth allow_hint
      end
  end.

(** [decode_source_body]; the sink is kept, as it is behind a reference. *)
Definition decode_source_body (body : DocumentBody) (sink : K) : res DecodeSummary * K :=
  match (ensure (0 <? max_depth limits) "decode max depth must be positive";;
         ensure (0 <? max_members limits) "decode max members must be positive";;
         ensure (0 <? max_expanded_bytes limits) "decode expanded-byte limit must be positive") with
  | Ok _ =>
      let '(r, s) := decode_output (N.to_nat (max_depth limits) + 2) body None 1 true (new_counters, sink) in
      (encoding ← r; Ok {| sm_encoding := encoding; sm_documents := ct_documents s.1; sm_expanded_bytes := ct_expanded s.1 |}, s.2)
  | Err e => (Err e, sink)
  | Panic w => (Panic w, sink)
  end.
End sink.
End decode.

(** ** Picking documents (decode_requested_body) *)

(** [RequestedSink], with what its consumer changes. *)
Record RequestedSink (S : Type) : Type := {
  rq_requests : gmap (option (list N)) (list N); rq_selected : list N; rq_bytes : list (list N); rq_file : option (list N); rq_out : S;
}.
Arguments rq_requests {S}.
Arguments rq_selected {S}.
Arguments rq_bytes {S}.
Arguments rq_file {S}.
Arguments rq_out {S}.

Section requested.
Context {S : Type} (consume : S -> N -> DocumentBody -> res S).

Definition requested_begin (k : RequestedSink S) (document : LogicalDocumentMeta) : res (RequestedSink S) :=
  Ok {| rq_requests := delete (dm_member_path document) (rq_requests k); rq_selected := default [] (rq_requests k !! dm_member_path document);
        rq_bytes := []; rq_file := None; rq_out := rq_out k |}.
Definition requested_write_bytes (k : RequestedSink S) (bytes : list N) : res (RequestedSink S) :=
  if bool_decide (rq_selected k = []) then Ok k
  else
    ensure (bool_decide (rq_file k = None)) "decoder mixed file and byte output";;
    Ok {| rq_requests := rq_requests k; rq_selected := rq_selected k; rq_bytes := rq_bytes k ++ [bytes]; rq_file := rq_file k; rq_out := rq_out k |}.
Definition requested_write_file (k : RequestedSink S) (file : list N) (length_ : N) : res (RequestedSink S) :=
  if bool_decide (rq_selected k = []) then Ok k
  else
    ensure (bool_decide (rq_bytes k = []) && bool_decide (rq_file k = None)) "decoder mixed output";;
    Ok {| rq_requests := rq_requests k; rq_selected := rq_selected k; rq_bytes := rq_bytes k; rq_file := Some file; rq_out := rq_out k |}.
Definition requested_finish (k : RequestedSink S) : res (RequestedSink S) :=
  if bool_decide (rq_selected k = []) then Ok k
  else
    let body := match rq_file k with Some file => BodyFile file | None => BodyBytes (concat (rq_bytes k)) end in
    out ← match rq_selected k with
          | [index] => consume (rq_out k) index body
          | selected => foldM (fun out index => consume out index (BodyBytes (body_bytes body))) (rq_out k) selected
          end;
    Ok {| rq_requests := rq_requests k; rq_selected := []; rq_bytes := match rq_file k with Some _ => rq_bytes k | None => [] end;
          rq_file := None; rq_out := out |}.
#[local] Instance requested_sink : DecodeSink (RequestedSink S) := {|
  sink_begin := requested_begin; sink_write_bytes := requested_write_bytes; sink_write_file := requested_write_file; sink_finish := requested_finish;
|}.

(** [grouped] *)
Definition group_request (grouped : gmap (option (list N)) (list N)) (request : N * option (list N)) : gmap (option (list N)) (list N) :=
  <[request.2 := default [] (grouped !! request.2) ++ [request.1]]> grouped.
Definition group_requests (requests : list (N * option (list N))) : gmap (option (list N)) (list N) := fold_left group_request requests ∅.

Definition decode_requested_body (x : Crates) (source_key : list N) (requests : list (N * option (list N))) (body : DocumentBody) (out : S) : res unit * S :=
  let '(r, sink) := decode_source_body x source_key DECODE_LIMITS body
    {| rq_requests := group_requests requests; rq_selected := []; rq_bytes := []; rq_file := None; rq_out := out |} in
  (_ ← r; ensure (bool_decide (rq_requests sink = ∅)) "indexed logical documents are missing", rq_out sink).
End requested.

(** ** What a sink gets *)

Definition Document : Type := LogicalDocumentMeta * DocumentBody.

(** A document's calls. *)
Definition sink_document {K} `{!DecodeSink K} (k : K) (document : Document) : res K :=
  k ← sink_begin k document.1;
  k ← match document.2 with
      | BodyBytes [] | BodyFile [] => Ok k
      | BodyBytes bytes => sink_write_bytes k bytes
      | BodyFile bytes => sink_write_file k bytes (len bytes)
      end;
  sink_finish k.

(** The sink that records its documents. *)
Definition Trace : Type := list Document * option Document.
Definition trace_write (t : Trace) (body : DocumentBody) : res Trace :=
  match t.2 with Some (meta, _) => Ok (t.1, Some (meta, body)) | None => Err "no document" end.
#[export] Instance trace_sink : DecodeSink Trace := {|
  sink_begin := fun t meta => Ok (t.1, Some (meta, BodyBytes []));
  sink_write_bytes := fun t bytes => trace_write t (BodyBytes bytes);
  sink_write_file := fun t bytes _ => trace_write t (BodyFile bytes);
  sink_finish := fun t => match t.2 with Some document => Ok (t.1 ++ [document], None) | None => Err "no document" end;
|}.

Section simulation.
Context (x : Crates) (source_key : list N) (limits : DecodeLimits) {K : Type} `{!DecodeSink K}.

(** The two runs do the same, as long as the sink takes the documents. *)
Definition sim {A} (traced : ST (Counters * Trace) A) (m : ST (Counters * K) A) : Prop := forall c docs k r s,
  traced (c, (docs, None)) = (r, s) -> exists new, s.2 = (docs ++ new, None) /\
    match foldM sink_document k new with
    | Ok k' => m (c, k) = (r, (s.1, k'))
    | Err e => exists s', m (c, k) = (Err e, s')
    | Panic w => exists s', m (c, k) = (Panic w, s')
    end.

Lemma sim_bind {A B} (t1 : ST (Counters * Trace) A) (m1 : ST (Counters * K) A) (t2 : A -> ST (Counters * Trace) B) (m2 : A -> ST (Counters * K) B) :
  sim t1 m1 -> (forall a, sim (t2 a) (m2 a)) -> sim (t1 ≫= t2) (m1 ≫= m2).
Proof.
  intros H1 H2 c docs k r s. unfold mbind, ST_bind. destruct (t1 (c, (docs, None))) as [r1 [c1 tr1]] eqn:E1.
  destruct (H1 c docs k r1 _ E1) as (new1 & Htr & Hm1). cbn [fst snd] in Htr, Hm1. subst tr1. intros E. destruct r1 as [a|e|w].
  - destruct (foldM sink_document k new1) as [k1|e|w] eqn:F1.
    + destruct (H2 a c1 (docs ++ new1) k1 r s E) as (new2 & Hs & Hm2). exists (new1 ++ new2). rewrite app_assoc. split; [done|].
      rewrite foldM_app, F1. cbn [mbind res_bind]. by rewrite Hm1.
    + destruct (H2 a c1 (docs ++ new1) k r s E) as (new2 & Hs & _). exists (new1 ++ new2). rewrite app_assoc. split; [done|].
      rewrite foldM_app, F1. cbn [mbind res_bind]. destruct Hm1 as [s' ->]. by exists s'.
    + destruct (H2 a c1 (docs ++ new1) k r s E) as (new2 & Hs & _). exists (new1 ++ new2). rewrite app_assoc. split; [done|].
      rewrite foldM_app, F1. cbn [mbind res_bind]. destruct Hm1 as [s' ->]. by exists s'.
  - injection E as <- <-. exists new1. split; [done|]. destruct (foldM sink_document k new1); [by rewrite Hm1|destruct Hm1 as [s' ->]; by exists s'..].
  - injection E as <- <-. exists new1. split; [done|]. destruct (foldM sink_document k new1); [by rewrite Hm1|destruct Hm1 as [s' ->]; by exists s'..].
Qed.

Lemma sim_ret {A} (a : A) : sim (mret a) (mret a).
Proof. intros c docs k r s [= <- <-]. exists []. by rewrite app_nil_r. Qed.
Lemma sim_lift {A} (a : res A) : sim (lift a) (lift a).
Proof. intros c docs k r s [= <- <-]. exists []. by rewrite app_nil_r. Qed.
Lemma sim_on_fst {A} (m : ST Counters A) : sim (on_fst m) (on_fst m).
Proof. intros c docs k r s. unfold on_fst. cbn [fst snd]. destruct (m c) as [r' c']. intros [= <- <-]. exists []. by rewrite app_nil_r. Qed.
Lemma sim_forS {A} (f1 : A -> ST (Counters * Trace) unit) (f2 : A -> ST (Counters * K) unit) l :
  (forall a, sim (f1 a) (f2 a)) -> sim (forS f1 l) (forS f2 l).
Proof.
  intros H. unfold forS. induction l as [|a l IH]; cbn [foldS]; [apply sim_ret|]. apply sim_bind; [apply H|]. intros []. exact IH.
Qed.

(** A body without bytes is the same in memory and in a file. *)
Definition shown (body : DocumentBody) : DocumentBody := match body with BodyFile [] => BodyBytes [] | _ => body end.

Lemma emit_calls_run meta body (k : K) :
  match sink_document k (meta, shown body) with
  | Ok k' => emit_calls meta body k = (Ok tt, k')
  | Err e => exists k', emit_calls meta body k = (Err e, k')
  | Panic w => exists k', emit_calls meta body k = (Panic w, k')
  end.
Proof.
  unfold sink_document, emit_calls, mbind, ST_bind, res_bind, call_sink. cbn [fst snd].
  destruct (sink_begin k meta) as [k1|e|w]; [|by eexists..].
  destruct body as [[|y bytes]|[|y bytes]]; cbn [shown].
  - unfold mret, ST_ret. destruct (sink_finish k1); [done|by eexists..].
  - destruct (sink_write_bytes k1 (y :: bytes)) as [k2|e|w]; [|by eexists..]. destruct (sink_finish k2); [done|by eexists..].
  - unfold mret, ST_ret. destruct (sink_finish k1); [done|by eexists..].
  - destruct (sink_write_file k1 (y :: bytes) _) as [k2|e|w]; [|by eexists..]. destruct (sink_finish k2); [done|by eexists..].
Qed.

(** A document is emitted as a whole. *)
Lemma sim_emit_calls meta body : sim (on_snd (emit_calls meta body)) (on_snd (emit_calls meta body)).
Proof.
  intros c docs k r s Hrun. exists [(meta, shown body)]. unfold on_snd in *. cbn [fst snd] in *.
  assert (s = (c, (docs ++ [(meta, shown body)], None)) /\ r = Ok tt) as [-> ->].
  { destruct body as [[|y bytes]|[|y bytes]]; by injection Hrun as <- <-. }
  split; [done|]. cbn [foldM]. pose proof (emit_calls_run meta body k) as H.
  destruct (sink_document k (meta, shown body)) as [k'|e|w]; cbn [mbind res_bind]; [by rewrite H|destruct H as [k' ->]; by eexists..].
Qed.

Lemma sim_emit member_path body : sim (emit x source_key limits member_path body) (emit x source_key limits member_path body).
Proof.
  unfold emit. repeat first [apply sim_bind; [first [apply sim_lift|apply sim_on_fst|apply sim_emit_calls]|intros ?]|apply sim_on_fst].
Qed.

Ltac sim_step := first [apply sim_ret|apply sim_lift|apply sim_on_fst|apply sim_emit|apply sim_forS; intros ?|apply sim_bind; [|intros ?]].
Ltac sim := repeat first [sim_step|case_match].

(** Archives and frames, if they are alike one level further in. *)
Section rec.
Context (rec1 : DocumentBody -> option (list N) -> N -> bool -> ST (Counters * Trace) SourceEncoding).
Context (rec2 : DocumentBody -> option (list N) -> N -> bool -> ST (Counters * K) SourceEncoding).
Context (Hrec : forall body member_path depth hint, sim (rec1 body member_path depth hint) (rec2 body member_path depth hint)).

Lemma sim_zip bytes parent depth : sim (decode_zip x limits rec1 bytes parent depth) (decode_zip x limits rec2 bytes parent depth).
Proof. unfold decode_zip, zip_member. repeat first [apply Hrec|sim_step|case_match]. Qed.
Lemma sim_tar bytes parent depth : sim (decode_tar x limits rec1 bytes parent depth) (decode_tar x limits rec2 bytes parent depth).
Proof. unfold decode_tar, tar_member. repeat first [apply Hrec|sim_step|case_match]. Qed.
Lemma sim_frame bytes member_path depth hint :
  sim (decode_frame x source_key limits rec1 bytes member_path depth hint) (decode_frame x source_key limits rec2 bytes member_path depth hint).
Proof.
  unfold decode_frame, check_depth. apply sim_bind; [apply sim_lift|]. intros codec. apply sim_bind; [case_bool_decide; sim_step|]. intros _.
  apply sim_bind; [|intros _; apply sim_ret].
  destruct codec; first [apply sim_zip|apply sim_tar|repeat first [apply Hrec|sim_step|case_match]].
Qed.
Lemma sim_file bytes member_path depth hint :
  sim (decode_file x source_key limits rec1 bytes member_path depth hint) (decode_file x source_key limits rec2 bytes member_path depth hint).
Proof.
  unfold decode_file, check_depth. apply sim_bind; [apply sim_lift|]. intros codec.
  destruct codec; cbn [can_decode_stream]; repeat first [apply sim_frame|apply sim_zip|apply sim_tar|apply Hrec|sim_step].
Qed.
End rec.

Lemma sim_output fuel body member_path depth hint :
  sim (decode_output x source_key limits fuel body member_path depth hint) (decode_output x source_key limits fuel body member_path depth hint).
Proof.
  revert body member_path depth hint. induction fuel as [|fuel IH]; intros body member_path depth hint; cbn [decode_output]; [apply sim_lift|].
  destruct body; [by apply sim_frame|by apply sim_file].
Qed.
End simulation.

(** What a source decodes to: its documents, whether it decodes and how. *)
Definition source_documents (x : Crates) (source_key : list N) (limits : DecodeLimits) (body : DocumentBody) : res DecodeSummary * list Document :=
  let '(r, t) := decode_source_body x source_key limits body (([], None) : Trace) in (r, t.1).

(** Every sink gets these documents, in order, until it fails. *)
Lemma decode_source_run x source_key limits {K} `{!DecodeSink K} body (k : K) :
  let '(r, docs) := source_documents x source_key limits body in
  match foldM sink_document k docs with
  | Ok k' => decode_source_body x source_key limits body k = (r, k')
  | Err e => exists k', decode_source_body x source_key limits body k = (Err e, k')
  | Panic w => exists k', decode_source_body x source_key limits body k = (Panic w, k')
  end.
Proof.
  unfold source_documents, decode_source_body. destruct (ensure _ _;; _) as [u|e|w]; [|done..].
  set (fuel := (_ + 2)%nat). clearbody fuel. pose proof (sim_output (K := K) x source_key limits fuel body None 1 true new_counters [] k) as H.
  destruct (decode_output x source_key limits fuel body None 1 true (new_counters, (([], None) : Trace))) as [r s] eqn:E.
  destruct (H r s E) as (new & Hs & Hrun). cbn [snd fst]. rewrite Hs. cbn [fst app].
  destruct (foldM sink_document k new) as [k'|e|w]; [by rewrite Hrun|destruct Hrun as [s' ->]; by eexists..].
Qed.

(** ** The documents of a source *)

Lemma ascii_inj a b : ascii a = ascii b -> a = b.
Proof.
  unfold ascii. intros H. assert (String.list_ascii_of_string a = String.list_ascii_of_string b) as E.
  { revert H. generalize (String.list_ascii_of_string a) (String.list_ascii_of_string b). induction l as [|c l IH]; intros [|d l'] [=]; [done|].
    f_equal; [|by apply IH]. rewrite <- (ascii_N_embedding c), <- (ascii_N_embedding d). congruence. }
  rewrite <- (String.string_of_list_ascii_of_string a), <- (String.string_of_list_ascii_of_string b). by rewrite E.
Qed.
Lemma numbered_inj path a b : numbered path a = numbered path b -> a = b.
Proof. unfold numbered, decimal. intros H%app_inv_head%app_inv_head%ascii_inj. by apply (inj pretty). Qed.

(** The candidates below a count are all used: there are not more of them than
    used paths. *)
Definition all_used (used : gset (list N)) (path : list N) (count : N) : Prop := 2 <= count /\ forall k, 2 <= k < count -> numbered path k ∈ used.
Lemma count_bound used path count : all_used used path count -> count <= N.of_nat (size used) + 2.
Proof.
  intros [H2 Hall]. set (candidates := numbered path <$> range 2 count).
  assert (NoDup candidates) as Hnd by (apply NoDup_fmap_2; [intros a b; apply numbered_inj|apply range_nodup]).
  assert (list_to_set (C := gset (list N)) candidates ⊆ used) as Hsub.
  { intros p Hp. apply elem_of_list_to_set, list_elem_of_fmap in Hp as (k & -> & Hk). apply elem_of_range in Hk. apply Hall. lia. }
  apply subseteq_size in Hsub. rewrite size_list_to_set in Hsub by done. unfold candidates in Hsub. rewrite length_fmap in Hsub.
  pose proof (len_range 2 count) as Hl. unfold len in Hl. lia.
Qed.

Lemma first_unused_ok fuel used path count :
  all_used used path count -> N.of_nat (size used) + 2 < count + N.of_nat fuel -> N.of_nat (size used) + 3 < U32 ->
  exists n, first_unused fuel used path count = Ok (numbered path n, n + 1) /\ (numbered path n ∉ used) /\ all_used used path n.
Proof.
  revert count. induction fuel as [|fuel IH]; intros count Hall Hf Hs.
  { pose proof (count_bound _ _ _ Hall). lia. }
  pose proof (count_bound _ _ _ Hall). cbn [first_unused]. rewrite wrapping_add_small by lia. case_bool_decide as E.
  - destruct (IH (count + 1)) as (n & -> & Hn); [|lia|done|by exists n]. destruct Hall as [H2 Hall]. split; [lia|].
    intros k Hk. destruct (decide (k = count)) as [->|]; [done|]. apply Hall. lia.
  - by exists count.
Qed.

Definition paths (docs : list Document) : list (option (list N)) := (fun d => dm_member_path d.1) <$> docs.
Definition decoded_bytes (docs : list Document) : N := sumN ((fun d => len (body_bytes d.2)) <$> docs).

(** The state of the recording sink between documents. *)
Definition traced (docs : list Document) : Trace := (docs, None).

Section documents.
Context (x : Crates) `{!CratesOk x} (source_key : list N) (limits : DecodeLimits).
Context (Hmembers : max_members limits + 4 < U32).

(** No two documents share a path; each is named after its source and its path;
    together they are not larger than the limit. *)
Record docs_ok (docs : list Document) : Prop := {
  dc_paths : NoDup (paths docs);
  dc_keys : Forall (fun d => dm_display_key d.1 = display_key_of source_key (dm_member_path d.1)) docs;
  dc_size : decoded_bytes docs <= max_expanded_bytes limits;
}.

(** What the counters know about the documents so far. *)
Record good (c : Counters) (docs : list Document) : Prop := {
  gd_docs : docs_ok docs;
  gd_paths : forall p, Some p ∈ paths docs -> p ∈ ct_used c;
  gd_used : N.of_nat (size (ct_used c)) <= ct_members c;
  gd_members : ct_members c <= max_members limits;
  gd_counts : forall p n, ct_counts c !! p = Some n -> all_used (ct_used c) p n;
  gd_expanded : ct_expanded c = decoded_bytes docs;
  gd_documents : ct_documents c = len docs;
}.

(** A path that was not taken yet. *)
Definition fresh (c : Counters) (q : option (list N)) : Prop := exists p, q = Some p /\ p ∉ ct_used c.

(** A run from a good state: it adds documents at paths that are allowed or
    fresh, and its result and counters are as said; failing, it leaves good
    documents. *)
Definition out {A} (allow : option (list N) -> Prop) (m : ST (Counters * Trace) A) (c : Counters) (docs : list Document) (Q : A -> Counters -> Prop) : Prop :=
  match m (c, traced docs) with
  | (Ok a, s) => exists c' new, s = (c', traced (docs ++ new)) /\ good c' (docs ++ new) /\ ct_used c ⊆ ct_used c' /\
      (forall q, q ∈ paths new -> allow q \/ fresh c q) /\ Q a c'
  | (Err _, s) => docs_ok s.2.1
  | (Panic _, _) => False
  end.

Lemma fresh_mono c c' q : ct_used c ⊆ ct_used c' -> fresh c' q -> fresh c q.
Proof. intros H (p & -> & Hp). exists p. split; [done|]. set_solver. Qed.

Lemma out_ret {A} allow (a : A) c docs (Q : A -> Counters -> Prop) : good c docs -> Q a c -> out allow (mret a) c docs Q.
Proof. intros Hg HQ. exists c, []. rewrite app_nil_r. split; [done|]. split; [done|]. split; [done|]. split; [by intros q ?%elem_of_nil|exact HQ]. Qed.

Lemma out_bind {A B} allow (m : ST (Counters * Trace) A) (f : A -> ST (Counters * Trace) B) c docs Q Q' :
  out allow m c docs Q ->
  (forall a c' new, good c' (docs ++ new) -> ct_used c ⊆ ct_used c' -> (forall q, q ∈ paths new -> allow q \/ fresh c q) -> Q a c' ->
    out allow (f a) c' (docs ++ new) Q') ->
  out allow (m ≫= f) c docs Q'.
Proof.
  unfold out, mbind, ST_bind. intros Hm Hf. destruct (m (c, traced docs)) as [[a|e|w] s]; [|done..].
  destruct Hm as (c1 & new1 & -> & Hg1 & Hu1 & Hp1 & HQ). specialize (Hf a c1 new1 Hg1 Hu1 Hp1 HQ). cbv beta iota.
  destruct (f a (c1, traced (docs ++ new1))) as [[b|e|w] s]; [|done..]. destruct Hf as (c2 & new2 & -> & Hg2 & Hu2 & Hp2 & HQ2).
  exists c2, (new1 ++ new2). rewrite app_assoc. split_and!; [done|done|by transitivity (ct_used c1)| |done].
  intros q. unfold paths. rewrite fmap_app, elem_of_app. intros [Hq|Hq]; [by apply Hp1|]. destruct (Hp2 q Hq) as [?|?]; [by left|right; by eapply fresh_mono].
Qed.

Lemma out_lift {A B} allow (r : res A) (P : A -> Prop) (f : A -> ST (Counters * Trace) B) c docs Q :
  good c docs -> safe r P -> (forall a, P a -> out allow (f a) c docs Q) -> out allow (lift r ≫= f) c docs Q.
Proof.
  intros Hg [[e ->]|(a & -> & Ha)] Hf; [exact (gd_docs _ _ Hg)|]. exact (Hf a Ha).
Qed.

(** A step on the counters; the paths it takes are fresh for what follows. *)
Lemma out_fst {A B} (allow : A -> option (list N) -> Prop) final (m : ST Counters A) (P : A -> Counters -> Prop)
    (f : A -> ST (Counters * Trace) B) c docs Q :
  good c docs -> match m c with (Ok a, c') => P a c' | (Err _, _) => True | (Panic _, _) => False end ->
  (forall a c', P a c' -> good c' docs /\ ct_used c ⊆ ct_used c' /\ (forall q, allow a q -> final q \/ fresh c q) /\ out (allow a) (f a) c' docs Q) ->
  out final (on_fst m ≫= f) c docs Q.
Proof.
  intros Hg Hm Hf. unfold out, mbind, ST_bind, on_fst. cbn [fst snd]. destruct (m c) as [[a|e|w] c1]; [|exact (gd_docs _ _ Hg)|done].
  destruct (Hf a c1 Hm) as (Hg1 & Hu1 & Ha & Hout). unfold out in Hout. cbv beta iota. cbn [fst snd].
  destruct (f a (c1, traced docs)) as [[b|e|w] s]; [|done..].
  destruct Hout as (c2 & new & -> & Hg2 & Hu2 & Hp & HQ). exists c2, new. split_and!; [done|done|by transitivity (ct_used c1)| |done].
  intros q Hq. destruct (Hp q Hq) as [?|?]; [by apply Ha|right; by eapply fresh_mono].
Qed.

Lemma out_weaken {A} (allow allow' : option (list N) -> Prop) (m : ST (Counters * Trace) A) c docs (Q Q' : A -> Counters -> Prop) :
  out allow m c docs Q -> (forall q, allow q -> allow' q) -> (forall a c', Q a c' -> Q' a c') -> out allow' m c docs Q'.
Proof.
  unfold out. intros H Ha HQ. destruct (m (c, traced docs)) as [[a|e|w] s]; [|done..]. destruct H as (c' & new & -> & Hg & Hu & Hp & Hq).
  exists c', new. split_and!; auto. intros q Hin. destruct (Hp q Hin); auto.
Qed.

Lemma out_forS {A} (f : A -> ST (Counters * Trace) unit) l c docs :
  good c docs ->
  (forall a c' docs', a ∈ l -> good c' docs' -> out (fun _ => False) (f a) c' docs' (fun _ _ => True)) ->
  out (fun _ => False) (forS f l) c docs (fun _ _ => True).
Proof.
  intros Hg Hf. unfold forS. revert c docs Hg. induction l as [|a l IH]; intros c docs Hg; cbn [foldS]; [by apply out_ret|].
  eapply out_bind; [apply Hf; [left|exact Hg]|]. intros [] c' new Hg' _ _ _. apply IH; [|exact Hg']. intros b c'' docs' Hb. apply Hf. by right.
Qed.

(** *** The steps *)

Lemma out_remaining {B} allow (f : N -> ST (Counters * Trace) B) c docs Q :
  good c docs -> (forall limit, out allow (f limit) c docs Q) -> out allow (on_fst (remaining limits) ≫= f) c docs Q.
Proof.
  intros Hg Hf. apply (out_fst (fun _ => allow) allow _ (fun _ c' => c' = c)); [done| |].
  - unfold remaining, gets, lift, mbind, ST_bind. by destruct (checked_sub _ _).
  - intros limit c' ->. split_and!; [done|done|auto|apply Hf].
Qed.

(** A counted member has room for a path. *)
Definition room (c : Counters) : Prop := N.of_nat (size (ct_used c)) < ct_members c.
Lemma out_count {B} allow (f : unit -> ST (Counters * Trace) B) c docs Q :
  good c docs -> (forall c', good c' docs -> room c' -> ct_used c' = ct_used c -> out allow (f tt) c' docs Q) ->
  out allow (on_fst (count_member limits) ≫= f) c docs Q.
Proof.
  intros Hg Hf. apply (out_fst (fun _ => allow) allow _ (fun _ c' => c' = set_members (ct_members c + 1) c /\ ct_members c + 1 <= max_members limits)); [done| |].
  - unfold count_member, gets, lift, modify, mbind, ST_bind. destruct (checked_add U32 (ct_members c) 1) as [members|] eqn:E; cbn [with_context]; cbv beta iota; [|exact I].
    apply checked_add_Some in E as [-> _]. destruct (N.leb_spec (ct_members c + 1) (max_members limits)); cbn [ensure]; [by split|exact I].
  - intros [] c' [-> Hm]. destruct Hg as [H1 H2 H3 H4 H5 H6 H7]. assert (good (set_members (ct_members c + 1) c) docs) as Hg'.
    { split; cbn [set_members ct_used ct_members ct_counts ct_expanded ct_documents]; try done. lia. }
    split_and!; [done|done|auto|]. apply Hf; [done| |done]. unfold room. cbn. lia.
Qed.

Lemma unique_path_ok path c docs :
  good c docs -> room c ->
  exists path' counts, unique_path path c = (Ok path', set_paths counts ({[path']} ∪ ct_used c) c) /\ (path' ∉ ct_used c) /\
    good (set_paths counts ({[path']} ∪ ct_used c) c) docs.
Proof.
  intros [H1 H2 H3 H4 H5 H6 H7] Hroom. unfold room in Hroom.
  assert (forall path' counts, (path' ∉ ct_used c) -> (forall p n, counts !! p = Some n -> all_used ({[path']} ∪ ct_used c) p n) ->
    good (set_paths counts ({[path']} ∪ ct_used c) c) docs) as Hgood.
  { intros path' counts Hp Hc. split; cbn [set_paths ct_used ct_members ct_counts ct_expanded ct_documents]; try done.
    - intros p Hin%H2. set_solver.
    - rewrite size_union, size_singleton by set_solver. lia. }
  assert (forall used path' p n, used = ct_used c -> all_used used p n -> all_used ({[path']} ∪ ct_used c) p n) as Hmono.
  { intros used path' p n -> [Hn Hall]. split; [done|]. intros k Hk. apply Hall in Hk. set_solver. }
  unfold unique_path. case_bool_decide as E.
  - destruct (first_unused_ok (S (size (ct_used c))) (ct_used c) path (default 2 (ct_counts c !! path))) as (n & -> & Hn & Hall).
    + destruct (ct_counts c !! path) as [n|] eqn:Ec; cbn; [by apply H5|]. split; [lia|]. intros; lia.
    + destruct (ct_counts c !! path) as [n|] eqn:Ec; cbn; [apply H5 in Ec as [? _]|]; lia.
    + lia.
    + eexists _, _. split; [done|]. split; [done|]. apply Hgood; [done|]. intros p m Hm. apply lookup_insert_Some in Hm as [[<- <-]|[_ Hm]].
      * destruct Hall as [H2' Hall]. split; [lia|]. intros k Hk. destruct (decide (k = n)) as [->|]; [set_solver|]. assert (numbered path k ∈ ct_used c) by (apply Hall; lia). set_solver.
      * by eapply Hmono, H5.
  - eexists _, _. split; [done|]. split; [done|]. apply Hgood; [done|]. intros p m Hm. apply lookup_insert_Some in Hm as [[<- <-]|[_ Hm]].
    + split; [lia|]. intros; lia.
    + by eapply Hmono, H5.
Qed.

(** A path that may be emitted: reserved, and not emitted yet. *)
Definition slot (member_path : option (list N)) (c : Counters) (docs : list Document) : Prop :=
  (member_path ∉ paths docs) /\ forall p, member_path = Some p -> p ∈ ct_used c.
Abbreviation emitting member_path := (fun q => q = member_path).
Abbreviation anything := (fun _ _ => True).

Lemma slot_snoc member_path body c docs :
  good c docs -> slot member_path c docs ->
  ct_expanded c + len (body_bytes body) <= max_expanded_bytes limits ->
  docs_ok (docs ++ [({| dm_display_key := display_key_of source_key member_path; dm_member_path := member_path |}, body)]).
Proof.
  intros [[H1 H2 H3] _ _ _ _ H6 _] [Hs _] Hsize. split.
  - unfold paths. rewrite fmap_app. apply NoDup_app. split; [exact H1|]. split; [|apply NoDup_singleton]. intros q Hq ->%list_elem_of_singleton. done.
  - apply Forall_app. split; [exact H2|]. by constructor.
  - unfold decoded_bytes in *. rewrite fmap_app, sumN_app. cbn. lia.
Qed.

Lemma out_emit member_path body c docs :
  good c docs -> slot member_path c docs -> out (emitting member_path) (emit x source_key limits member_path body) c docs anything.
Proof.
  intros Hg Hslot. unfold emit. apply (out_lift _ _ (fun _ => True)); [exact Hg| |].
  { unfold transcode_utf16_body. cbv zeta. match goal with |- safe (if ?b then _ else _) _ => destruct b end; [|by apply safe_ok]. eapply safe_bind; [apply no_panic_safe, cr_transcode|].
    intros bytes _. by apply safe_ok. }
  intros b _. unfold out, on_fst, on_snd, gets, lift, modify, mbind, ST_bind. cbn [fst snd].
  destruct (checked_add U64 (ct_expanded c) (len (body_bytes b))) as [expanded|] eqn:E; cbn [with_context]; [|exact (gd_docs _ _ Hg)].
  apply checked_add_Some in E as [-> _]. destruct (N.leb_spec (ct_expanded c + len (body_bytes b)) (max_expanded_bytes limits)); cbn [ensure]; [|exact (gd_docs _ _ Hg)].
  set (meta := {| dm_display_key := _; dm_member_path := _ |}).
  assert (emit_calls meta b (traced docs) = (Ok tt, traced (docs ++ [(meta, shown b)]))) as -> by (by destruct b as [[|y bytes]|[|y bytes]]).
  assert (docs_ok (docs ++ [(meta, shown b)])) as Hok by (apply (slot_snoc member_path (shown b) c docs Hg Hslot); by destruct b as [bytes|[|y bytes]]).
  cbn [fst snd]. destruct (checked_add U32 (ct_documents c) 1) as [documents|] eqn:Ed; cbn [with_context]; [|exact Hok].
  apply checked_add_Some in Ed as [-> _]. eexists _, [(meta, shown b)]. split; [done|]. destruct Hg as [_ H2 H3 H4 H5 H6 H7]. split; [|split; [done|split; [|exact I]]].
  - split; cbn [set_emitted ct_used ct_members ct_counts ct_expanded ct_documents]; [exact Hok| |done|done|done| |].
    + unfold paths. rewrite fmap_app. intros p [Hp|Hp%list_elem_of_singleton]%elem_of_app; [by apply H2|]. by apply Hslot.
    + unfold decoded_bytes in *. rewrite fmap_app, sumN_app, H6. cbn. by destruct b as [bytes|[|y bytes]]; cbn; lia.
    + rewrite len_app, H7. change (len [(meta, shown b)]) with 1. lia.
  - intros q ->%list_elem_of_singleton. by left.
Qed.

Lemma read_bounded_safe events limit : safe (read_bounded events limit) (fun _ => True).
Proof.
  unfold read_bounded. eapply safe_bind; [apply safe_context|]. intros n _.
  assert (forall w, writer_within (Some limit) w -> forall events, safe (copy_events w events) (fun _ => True)) as H.
  { intros w Hw evs. revert w Hw. induction evs as [|[bytes| |] evs IH]; intros w Hw; cbn [copy_events]; [by apply safe_ok| |by apply IH|done].
    destruct bytes as [|b bytes]; [by apply safe_ok|]. eapply safe_bind; [by apply dw_append_within|]. intros w' Hw'. by apply IH. }
  apply H, new_writer_within.
Qed.

Lemma clean_member_path_safe raw : safe (clean_member_path raw) (fun _ => True).
Proof.
  unfold clean_member_path. eapply safe_bind; [apply safe_ensure|]. intros [] _. eapply safe_bind; [apply safe_ensure|]. intros [] _.
  apply (safe_bind _ _ (fun _ => True)).
  - generalize (@nil (list N)). induction (split_on _ _ _) as [|part parts IH]; intros acc; cbn [foldM]; [by apply safe_ok|].
    apply (safe_bind _ _ (fun _ => True)); [|auto]. unfold component. destruct (_ || _); [by apply safe_ok|]. destruct (bool_decide _); [done|by apply safe_ok].
  - intros parts _. eapply safe_bind; [apply safe_ensure|]. intros [] _. by apply safe_ok.
Qed.

Lemma duplicate_scan_safe fuel bytes at_ seen :
  (N.to_nat (len bytes - at_) < fuel)%nat -> safe (duplicate_scan limits fuel bytes at_ seen) (fun _ => True).
Proof.
  revert at_ seen. induction fuel as [|fuel IH]; intros at_ seen Hf; [lia|]. cbn [duplicate_scan].
  eapply safe_bind; [apply safe_context|]. intros magic (_ & Hm & _)%get_range_Some. destruct (negb _); [by apply safe_ok|].
  eapply safe_bind; [apply safe_ensure|]. intros [] _. eapply safe_bind; [apply safe_context|]. intros fixed _.
  eapply safe_bind; [apply safe_context|]. intros name _. case_bool_decide; [by apply safe_ok|]. apply IH. lia.
Qed.

(** *** Archives and frames, one level after the other *)

Section rec_proofs.
Context (rec : DocumentBody -> option (list N) -> N -> bool -> ST (Counters * Trace) SourceEncoding) (depth : N).
Context (Hrec : depth <= max_depth limits -> forall body member_path hint c docs,
  good c docs -> slot member_path c docs -> out (emitting member_path) (rec body member_path (depth + 1) hint) c docs anything).

(** A member goes on at a path of its own. *)
Lemma out_member parent name events c docs :
  depth <= max_depth limits -> good c docs -> room c ->
  out (fun _ => False) (path ← on_fst (unique_path (join_member_path parent name)); limit ← on_fst (remaining limits);
    body ← lift (read_bounded events limit); _ ← rec body (Some path) (depth + 1) true; mret tt) c docs anything.
Proof.
  intros Hd Hg Hroom. destruct (unique_path_ok (join_member_path parent name) c docs Hg Hroom) as (path & counts & E & Hfresh & Hg').
  apply (out_fst (fun p => emitting (Some p)) _ _ (fun p c' => p = path /\ c' = set_paths counts ({[path]} ∪ ct_used c) c)); [exact Hg|by rewrite E|].
  intros p c' [-> ->]. split; [exact Hg'|]. split; [cbn; set_solver|]. split; [intros q ->; right; by exists path|].
  apply out_remaining; [exact Hg'|]. intros limit. apply (out_lift _ _ (fun _ => True)); [exact Hg'|apply read_bounded_safe|]. intros body _.
  eapply out_bind.
  - apply Hrec; [exact Hd|exact Hg'|]. split; [|intros q [= <-]; cbn; set_solver]. intros Hin. destruct Hfresh. by apply (gd_paths _ _ Hg).
  - intros enc c2 new Hg2 _ _ _. by apply out_ret.
Qed.

Lemma out_zip_member parent entry c docs :
  depth <= max_depth limits -> no_panic entry -> good c docs -> out (fun _ => False) (zip_member limits rec parent depth entry) c docs anything.
Proof.
  intros Hd He Hg. unfold zip_member. apply (out_lift _ _ (fun _ => True)); [exact Hg|by apply no_panic_safe|]. intros e _.
  apply out_count; [exact Hg|]. intros c1 Hg1 Hroom _. eapply out_lift; [exact Hg1|apply safe_ensure|]. intros [] _.
  destruct (_ || _); [by apply out_ret|]. eapply out_lift; [exact Hg1|apply clean_member_path_safe|]. intros name _. by apply out_member.
Qed.
Lemma out_tar_member parent entry c docs :
  depth <= max_depth limits -> safe entry (fun e => no_panic (te_path e)) -> good c docs ->
  out (fun _ => False) (tar_member limits rec parent depth entry) c docs anything.
Proof.
  intros Hd He Hg. unfold tar_member. eapply out_lift; [exact Hg|exact He|]. intros e Hpath.
  apply out_count; [exact Hg|]. intros c1 Hg1 Hroom _. destruct (negb _); [by apply out_ret|].
  apply (out_lift _ _ (fun _ => True)); [exact Hg1|by apply no_panic_safe|]. intros raw _.
  eapply out_lift; [exact Hg1|apply clean_member_path_safe|]. intros name _. by apply out_member.
Qed.

Lemma no_panic_ok {A} (r : res A) : no_panic r -> safe r (fun a => r = Ok a).
Proof. intros H. destruct r as [a|e|w]; [by apply safe_ok|done|by destruct (H w)]. Qed.

Lemma out_zip bytes parent c docs :
  depth <= max_depth limits -> good c docs -> out (fun _ => False) (decode_zip x limits rec bytes parent depth) c docs anything.
Proof.
  intros Hd Hg. unfold decode_zip. eapply out_lift; [exact Hg|apply no_panic_ok, cr_zip|]. intros [start members] Hx.
  eapply out_lift; [exact Hg|apply duplicate_scan_safe; unfold len; lia|]. intros duplicate _. eapply out_lift; [exact Hg|apply safe_ensure|]. intros [] _.
  apply out_forS; [exact Hg|]. intros entry c' docs' Hin Hg'. apply out_zip_member; [exact Hd| |exact Hg'].
  pose proof (cr_zip_members _ _ _ Hx) as Hall. rewrite Forall_forall in Hall. by apply Hall.
Qed.
Lemma out_tar bytes parent c docs :
  depth <= max_depth limits -> good c docs -> out (fun _ => False) (decode_tar x limits rec bytes parent depth) c docs anything.
Proof.
  intros Hd Hg. unfold decode_tar. eapply out_lift; [exact Hg|apply no_panic_ok, cr_tar|]. intros entries Hx.
  apply out_forS; [exact Hg|]. intros entry c' docs' Hin Hg'. apply out_tar_member; [exact Hd| |exact Hg'].
  pose proof (cr_tar_entries _ _ Hx) as Hall. rewrite Forall_forall in Hall. by apply Hall.
Qed.

Lemma detect_safe hint key bytes : safe (detect x hint key bytes) (fun _ => True).
Proof.
  unfold detect. destruct hint; [destruct (detect_for_key_total x key bytes) as [codec ->]|destruct (detect_codec_total x bytes) as [codec ->]]; by apply safe_ok.
Qed.
Lemma out_depth {A} allow (f : unit -> ST (Counters * Trace) A) c docs Q :
  good c docs -> (depth <= max_depth limits -> out allow (f tt) c docs Q) -> out allow (check_depth limits depth ≫= f) c docs Q.
Proof. intros Hg Hf. unfold check_depth. eapply out_lift; [exact Hg|apply safe_ensure|]. intros [] H. apply Hf. by apply N.leb_le. Qed.

(** The documents of a frame that is not an archive. *)
Lemma out_rec member_path c docs (r : res DocumentBody) (encoding : SourceEncoding) :
  depth <= max_depth limits -> good c docs -> slot member_path c docs -> safe r (fun _ => True) ->
  out (emitting member_path) (decoded ← lift r; _ ← rec decoded member_path (depth + 1) false; mret encoding) c docs anything.
Proof.
  intros Hd Hg Hslot Hr. apply (out_lift _ _ (fun _ => True)); [exact Hg|exact Hr|]. intros decoded _.
  eapply out_bind; [by apply Hrec|]. intros enc c' new Hg' _ _ _. by apply out_ret.
Qed.

Lemma safe_body key bytes limit memory_limit : safe (decode_body_inner x key bytes limit memory_limit) (fun _ => True).
Proof. eapply safe_weaken; [apply decode_body_within; exact _|done]. Qed.

Lemma out_frame bytes member_path hint c docs :
  good c docs -> slot member_path c docs -> out (emitting member_path) (decode_frame x source_key limits rec bytes member_path depth hint) c docs anything.
Proof.
  intros Hg Hslot. unfold decode_frame. apply (out_lift _ _ (fun _ => True)); [exact Hg|apply detect_safe|]. intros codec _.
  assert (forall (m : ST (Counters * Trace) unit), (codec <> CRaw -> depth <= max_depth limits -> out (emitting member_path) m c docs anything) ->
    (codec = CRaw -> out (emitting member_path) m c docs anything) ->
    out (emitting member_path) (_ ← (if bool_decide (codec = CRaw) then mret tt else check_depth limits depth); _ ← m; mret (codec_encoding codec)) c docs anything) as Hcase.
  { intros m H1 H2. assert (out (emitting member_path) m c docs anything -> out (emitting member_path) (_ ← m; mret (codec_encoding codec)) c docs anything) as Hend.
    { intros Hm. eapply out_bind; [exact Hm|]. intros [] c' new Hg' _ _ _. by apply out_ret. }
    case_bool_decide as E; [exact (Hend (H2 E))|]. apply out_depth; [exact Hg|]. intros Hd. by apply Hend, H1. }
  apply Hcase.
  - intros Hne Hd. destruct codec; [done|..]; first
      [ eapply out_weaken; [first [apply out_zip|apply out_tar]; done|done|done]
      | apply out_remaining; [exact Hg|]; intros limit; eapply out_lift; [exact Hg|apply safe_body|]; intros body _; first [by apply out_ret
        | eapply out_bind; [by apply Hrec|]; intros enc c' new Hg' _ _ _; by apply out_ret] ].
  - intros ->. destruct (_ <? _); [|by apply out_emit]. apply out_remaining; [exact Hg|]. intros limit.
    apply (out_lift _ _ (fun _ => True)); [exact Hg|eapply safe_weaken; [apply dw_append_within, new_writer_within|done]|]. intros w _. by apply out_emit.
Qed.

Lemma out_file bytes member_path hint c docs :
  good c docs -> slot member_path c docs -> out (emitting member_path) (decode_file x source_key limits rec bytes member_path depth hint) c docs anything.
Proof.
  intros Hg Hslot. unfold decode_file. apply (out_lift _ _ (fun _ => True)); [exact Hg|apply detect_safe|]. intros codec _.
  destruct codec; cbn [can_decode_stream]; try (by apply out_frame).
  all: try (apply out_depth; [exact Hg|]; intros Hd).
  all: try (eapply out_bind; [eapply (out_weaken (fun _ => False)); [first [by apply out_zip|by apply out_tar]|done|done]|];
    intros [] c' new Hg' _ _ _; by apply out_ret).
  all: try (apply out_remaining; [exact Hg|]; intros limit; apply out_rec; [done|done|done|]; eapply safe_weaken; [by apply stream_within|done]).
  eapply out_bind; [by apply out_emit|]. intros [] c' new Hg' _ _ _. by apply out_ret.
Qed.
End rec_proofs.

Lemma out_output fuel body member_path depth hint c docs :
  max_depth limits + 2 <= depth + N.of_nat fuel -> (1 <= fuel)%nat -> good c docs -> slot member_path c docs ->
  out (emitting member_path) (decode_output x source_key limits fuel body member_path depth hint) c docs anything.
Proof.
  revert body member_path depth hint c docs. induction fuel as [|fuel IH]; intros body member_path depth hint c docs Hf H1 Hg Hslot; [lia|]. cbn [decode_output].
  destruct body; [apply out_frame|apply out_file]; try done; (intros Hd body' path' hint' c' docs' Hg' Hslot'; apply IH; [lia|lia|done|done]).
Qed.
End documents.

(** ** What is asked for is what the source decodes to *)

(** The indices a path is asked with, and what its document is handed out as. *)
Definition asked (requests : list (N * option (list N))) (path : option (list N)) : list N := (filter (fun r => r.2 = path) requests).*1.
Definition deliver (requests : list (N * option (list N))) (d : Document) : list (N * DocumentBody) :=
  match asked requests (dm_member_path d.1) with
  | [index] => [(index, shown d.2)]
  | indices => (fun index => (index, BodyBytes (body_bytes d.2))) <$> indices
  end.

Lemma group_lookup requests path :
  group_requests requests !! path = match asked requests path with [] => None | indices => Some indices end.
Proof.
  unfold group_requests. cut (forall grouped, fold_left group_request requests grouped !! path =
    match default [] (grouped !! path) ++ asked requests path with [] => grouped !! path | indices => Some indices end).
  { intros H. rewrite H, lookup_empty. cbn [from_option app]. by destruct (asked requests path). }
  induction requests as [|[i p] requests IH]; intros grouped; cbn [fold_left].
  { unfold asked. cbn. rewrite app_nil_r. destruct (grouped !! path) as [[|]|]; done. }
  rewrite IH. unfold group_request, asked in *. cbn [fst snd]. destruct (decide (p = path)) as [->|Hne].
  - rewrite lookup_insert_eq, filter_cons_True by done. cbn [from_option id fmap list_fmap fst]. rewrite <- app_assoc. cbn [app].
    by destruct (grouped !! path) as [[|]|].
  - by rewrite lookup_insert_ne, filter_cons_False by done.
Qed.

Section requested_proofs.
Context {S : Type} (consume : S -> N -> DocumentBody -> res S) (requests : list (N * option (list N))).
#[local] Instance picking_sink : DecodeSink (RequestedSink S) := requested_sink consume.
Abbreviation hand := (foldM (fun out d => consume out d.1 d.2)).

Definition idle (left : gmap (option (list N)) (list N)) (out : S) : RequestedSink S :=
  {| rq_requests := left; rq_selected := []; rq_bytes := []; rq_file := None; rq_out := out |}.

Lemma requested_document left out d :
  left !! dm_member_path d.1 = group_requests requests !! dm_member_path d.1 ->
  sink_document (idle left out) d = (out ← hand out (deliver requests d); Ok (idle (delete (dm_member_path d.1) left) out)).
Proof.
  intros E. unfold sink_document. cbn [sink_begin sink_write_bytes sink_write_file sink_finish picking_sink requested_sink].
  unfold requested_begin. cbn [mbind res_bind rq_requests rq_out idle]. rewrite E, group_lookup. unfold deliver.
  destruct (asked requests (dm_member_path d.1)) as [|i [|j rest]]; cbn [from_option].
  - by destruct (d.2) as [[|b bytes]|[|b bytes]].
  - destruct (d.2) as [[|b bytes]|[|b bytes]]; cbn; rewrite ?app_nil_r; by destruct (consume out i _).
  - rewrite foldM_fmap. destruct (d.2) as [[|b bytes]|[|b bytes]]; cbn -[foldM]; rewrite ?app_nil_r; by destruct (foldM _ out _).
Qed.

Definition remove_paths (docs : list Document) (left : gmap (option (list N)) (list N)) : gmap (option (list N)) (list N) :=
  fold_left (fun left d => delete (dm_member_path d.1) left) docs left.

Lemma requested_documents docs left out :
  NoDup (paths docs) -> (forall p, p ∈ paths docs -> left !! p = group_requests requests !! p) ->
  foldM sink_document (idle left out) docs =
    (out ← hand out (mbind (deliver requests) docs); Ok (idle (remove_paths docs left) out)).
Proof.
  revert left out. induction docs as [|d docs IH]; intros left out Hnd Hleft; [done|]. apply NoDup_cons in Hnd as [Hd Hnd]. cbn [foldM].
  rewrite requested_document by (apply Hleft; left). rewrite bind_cons, foldM_app. destruct (hand out (deliver requests d)) as [out'|e|w]; cbn [mbind res_bind]; [|done..].
  apply IH; [exact Hnd|]. intros p Hp. rewrite lookup_delete_ne by (intros E; apply Hd; cbn; rewrite E; exact Hp). apply Hleft. by right.
Qed.

Lemma remove_paths_lookup docs left p : remove_paths docs left !! p = if decide (p ∈ paths docs) then None else left !! p.
Proof.
  unfold remove_paths. revert left. induction docs as [|d docs IH]; intros left; cbn [fold_left]; [by rewrite decide_False by (apply not_elem_of_nil)|]. rewrite IH.
  destruct (decide (p ∈ paths docs)) as [Hin|Hin]; [by rewrite decide_True by (by right)|]. destruct (decide (p = dm_member_path d.1)) as [->|Hne].
  - rewrite lookup_delete_eq, decide_True; [done|by left].
  - rewrite lookup_delete_ne, decide_False; [done| |done]. intros [?|?]%elem_of_cons; done.
Qed.

Lemma nothing_left docs :
  remove_paths docs (group_requests requests) = ∅ <-> forall r, r ∈ requests -> r.2 ∈ paths docs.
Proof.
  split.
  - intros E r Hr. destruct (decide (r.2 ∈ paths docs)) as [|Hn]; [done|]. exfalso. pose proof (f_equal (lookup r.2) E) as H.
    rewrite remove_paths_lookup, decide_False, lookup_empty, group_lookup in H by done.
    assert (r.1 ∈ asked requests r.2) as Ha by (unfold asked; apply list_elem_of_fmap; exists r; split; [done|]; by apply list_elem_of_filter).
    by destruct (asked requests r.2); [apply not_elem_of_nil in Ha|].
  - intros H. apply map_eq. intros p. rewrite remove_paths_lookup, lookup_empty. case_decide as E; [done|]. rewrite group_lookup.
    destruct (asked requests p) as [|i l] eqn:Ea; [done|]. exfalso. assert (i ∈ asked requests p) as Hi by (rewrite Ea; left). unfold asked in Hi.
    apply list_elem_of_fmap in Hi as (r & -> & [<- Hr]%list_elem_of_filter). by apply E, H.
Qed.
End requested_proofs.

(** The documents of a run are good ones. *)
Lemma source_documents_ok x `{!CratesOk x} source_key limits body :
  max_members limits + 4 < U32 ->
  let '(r, docs) := source_documents x source_key limits body in
  docs_ok source_key limits docs /\
  match r with
  | Ok summary => sm_documents summary = len docs /\ sm_expanded_bytes summary = decoded_bytes docs
  | Err _ => True
  | Panic _ => False
  end.
Proof.
  intros Hm. destruct (source_documents x source_key limits body) as [r docs] eqn:E.
  assert (docs_ok source_key limits []) as Hnil by (split; [apply NoDup_nil_2|constructor|apply N.le_0_l]).
  assert (good source_key limits new_counters []) as Hgood.
  { split; cbn [new_counters ct_members ct_expanded ct_documents ct_used ct_counts];
      [exact Hnil|by intros p ?%elem_of_nil|apply N.le_0_l|apply N.le_0_l|by intros p n; rewrite lookup_empty|done|done]. }
  unfold source_documents, decode_source_body in E. destruct (ensure _ _;; _) as [u|e|w] eqn:Ee.
  - pose proof (out_output x source_key limits Hm (N.to_nat (max_depth limits) + 2) body None 1 true new_counters []) as H. unfold out in H.
    change (([], None) : Trace) with (traced []) in E. destruct (decode_output _ _ _ _ _ _ _ _ (new_counters, traced [])) as [[enc|e|w] s].
    + destruct H as (c' & new & -> & [H1 _ _ _ _ H6 H7] & _); [lia|lia|done|split; [by apply not_elem_of_nil|done]|]. injection E as <- <-. cbn [fst]. by split.
    + injection E as <- <-. split; [|done]. apply H; [lia|lia|done|split; [by apply not_elem_of_nil|done]].
    + destruct H; [lia|lia|done|split; [by apply not_elem_of_nil|done]].
  - injection E as <- <-. by split.
  - exfalso. revert Ee. repeat (destruct (_ <? _); cbn [ensure mbind res_bind]); done.
Qed.

(** ** Properties *)

(** C19: a source decodes to the same documents for every sink, and decoding is
    total: archives and encodings inside one another end at the depth limit, a
    free path is found for every member, a bad source is an error.  No two
    documents have the same path, each is named after the source and its path,
    and the summary counts them; the documents together, even those of a source
    that fails in the end, are not larger than the limit. *)
Theorem decode_source_exact x `{!CratesOk x} source_key limits body :
  max_members limits + 4 < U32 ->
  let '(r, docs) := source_documents x source_key limits body in
  docs_ok source_key limits docs /\
  match r with
  | Ok summary => sm_documents summary = len docs /\ sm_expanded_bytes summary = decoded_bytes docs
  | Err _ => True
  | Panic _ => False
  end /\
  forall K (H : DecodeSink K) (k : K),
    match foldM sink_document k docs with
    | Ok k' => decode_source_body x source_key limits body k = (r, k')
    | Err e => exists k', decode_source_body x source_key limits body k = (Err e, k')
    | Panic w => exists k', decode_source_body x source_key limits body k = (Panic w, k')
    end.
Proof.
  intros Hm. pose proof (source_documents_ok x source_key limits body Hm) as Hok.
  pose proof (fun K (H : DecodeSink K) k => decode_source_run x source_key limits (K := K) body k) as Hrun.
  destruct (source_documents x source_key limits body) as [r docs]. destruct Hok as [H1 H2]. split_and!; [exact H1|exact H2|exact Hrun].
Qed.

(** C20: asking for documents of a source hands out exactly those: for every
    document that it decodes to, in order, the indices its path is asked with,
    each with the bytes that indexing gets for it.  It succeeds only if the source
    decodes and has every path that is asked for. *)
Theorem requested_exact {S} (consume : S -> N -> DocumentBody -> res S) x `{!CratesOk x} source_key requests body out :
  let '(r, docs) := source_documents x source_key DECODE_LIMITS body in
  match foldM (fun out d => consume out d.1 d.2) out (mbind (deliver requests) docs) with
  | Ok out' => decode_requested_body consume x source_key requests body out =
      (_ ← r; ensure (bool_decide (Forall (fun r => r.2 ∈ paths docs) requests)) "indexed logical documents are missing", out')
  | Err e => exists out', decode_requested_body consume x source_key requests body out = (Err e, out')
  | Panic w => exists out', decode_requested_body consume x source_key requests body out = (Panic w, out')
  end.
Proof.
  pose proof (source_documents_ok x source_key DECODE_LIMITS body ltac:(done)) as Hok.
  pose proof (decode_source_run x source_key DECODE_LIMITS body (K := RequestedSink S) (DecodeSink0 := requested_sink consume) (idle (group_requests requests) out)) as Hrun.
  destruct (source_documents x source_key DECODE_LIMITS body) as [r docs]. destruct Hok as [[Hnd _ _] _].
  rewrite (requested_documents consume requests) in Hrun by (exact Hnd || done). unfold decode_requested_body. change {| rq_out := out |} with (idle (group_requests requests) out).
  destruct (foldM _ out _) as [out'|e|w]; cbn [mbind res_bind] in Hrun.
  - rewrite Hrun. cbn [rq_requests rq_out idle]. f_equal. destruct r; [|done..]. cbn [mbind res_bind]. f_equal.
    apply bool_decide_ext. rewrite nothing_left. by rewrite Forall_forall.
  - destruct Hrun as [k' ->]. by eexists.
  - destruct Hrun as [k' ->]. by eexists.
Qed.

(** ** Witnesses: an archive whose two members have the same clean path *)

Definition demo_archive : list N := ascii "PK" ++ [3; 4; 0; 0; 0; 0].
Definition demo_member (name bytes : list N) : res ZipMember :=
  Ok {| zm_name := name; zm_encrypted := false; zm_dir := false; zm_symlink := false; zm_file := true; zm_read := [Chunk bytes] |}.
Definition demo_crates : Crates := {|
  x_arrow_file := fun _ => false; x_arrow_stream := fun _ => false; x_postscript := fun _ => None; x_compression_kind := fun _ => true;
  x_tar_cksum := fun _ => None; x_tar_expected := fun _ => None; x_stream := fun _ _ => Err "no decoder"; x_lz4_frame := fun bytes => ([Failed], bytes);
  x_xz_stream := fun _ => Err "no decoder"; x_project := fun _ _ => [Failed]; x_transcode := fun bytes => Ok bytes;
  x_zip := fun _ => Ok (4, [demo_member (ascii "a.txt") (ascii "one"); demo_member (ascii "./a.txt") (ascii "two")]); x_tar := fun _ => Err "no archive";
|}.
#[export] Instance demo_crates_ok : CratesOk demo_crates.
Proof.
  split; cbn.
  - done.
  - done.
  - done.
  - intros bytes start members [= <- <-]. repeat constructor; done.
  - done.
  - done.
  - intros bytes. by left; eexists.
Qed.

Lemma decode_source_exact_witness :
  docs_ok (ascii "z.zip") DECODE_LIMITS (source_documents demo_crates (ascii "z.zip") DECODE_LIMITS (BodyBytes demo_archive)).2 /\
  paths (source_documents demo_crates (ascii "z.zip") DECODE_LIMITS (BodyBytes demo_archive)).2 = [Some (ascii "a.txt"); Some (ascii "a.txt#2")].
Proof.
  split; [|vm_compute; reflexivity]. pose proof (decode_source_exact demo_crates (ascii "z.zip") DECODE_LIMITS (BodyBytes demo_archive) ltac:(done)) as H.
  destruct (source_documents _ _ _ _) as [r docs]. exact (proj1 H).
Defined.

Lemma requested_exact_witness :
  decode_requested_body (fun out index body => Ok (out ++ [(index, body_bytes body)])) demo_crates (ascii "z.zip")
    [(7, Some (ascii "a.txt#2")); (8, Some (ascii "a.txt")); (9, Some (ascii "a.txt"))] (BodyBytes demo_archive) [] =
    (Ok tt, [(8, ascii "one"); (9, ascii "one"); (7, ascii "two")]).
Proof.
  pose proof (requested_exact (fun out index body => Ok (out ++ [(index, body_bytes body)])) demo_crates (ascii "z.zip")
    [(7, Some (ascii "a.txt#2")); (8, Some (ascii "a.txt")); (9, Some (ascii "a.txt"))] (BodyBytes demo_archive) []) as H.
  vm_compute in H |- *. exact H.
Defined.
