(* ===== verification/Candidate.v ===== *)
(** * Candidate blocks and documents (crates/index/src/candidate.rs)

    From evaluated posting ids to the documents and block ranges that must be
    verified: plan validation, the shared evaluation of several plans, block
    numbering, the slack that makes up for grams of one match lying in several
    blocks, and the grouping and merging of block ranges. *)

From stdpp Require Import sorting.
From S2P Require Import Prelude BitPack Trigrams SparseGrams QueryPlan Eval Format.

(** [seagrep_core::SearchExtent] *)
Inductive SearchExtent : Type :=
  | EBytes (span : N)
  | ELines
  | EDocument.
#[export] Instance SearchExtent_eq_dec : EqDecision SearchExtent.
Proof. solve_decision. Defined.

(** [seagrep_core::CandidateRange]: the blocks [start..end_). *)
Record CandidateRange : Type := { start : N; end_ : N; extent : SearchExtent }.

Record CandidatePlan : Type := { plan_query : Query; plan_extent : SearchExtent }.
Record CandidateBatchLimits : Type := { limit_documents : N; limit_decoded_bytes : N }.

Definition zero_span (e : SearchExtent) : bool := match e with EBytes 0 => true | _ => false end.

Definition validate_candidate_plans (plans : list CandidatePlan) (limits : CandidateBatchLimits) : res unit :=
  ensure (negb (bool_decide (length plans = 0%nat))) "candidate plans must not be empty";;
  ensure (0 <? limit_documents limits) "candidate document batch limit must be positive";;
  ensure (0 <? limit_decoded_bytes limits) "candidate decoded-byte batch limit must be positive";;
  ensure (forallb (fun plan => negb (zero_span (plan_extent plan))) plans) "candidate byte span must be positive".

Section visit.
Context {S : Type} (id_space : N) (strategy : Strategy) (lookup_ : list N -> res (option TermValue)).
Context (expand : N -> N -> N * N) (fetch_blocks : gmap N (N * N) -> res (gmap N (list N))).
Context (visit : S -> N -> Selection -> res S).

Definition visit_candidate_selections (plans : list CandidatePlan) (s : S) : res S :=
  match plans with
  | [plan] =>
      query ← resolve id_space strategy lookup_ (plan_query plan);
      blocks ← fetch_blocks (blocks_needed query ∅);
      selection ← eval blocks (Some (expand 0)) query;
      visit s 0 selection
  | _ =>
      bound ← bind_queries id_space strategy lookup_ (plan_query <$> plans);
      blocks ← fetch_blocks (fold_left (fun needed query => blocks_needed query needed) bound ∅);
      foldM (fun s '(index, query) =>
        selection ← eval blocks (Some (expand index)) query;
        visit s index selection) s (enumerate bound)
  end.
End visit.

(** ** Block numbering *)

Definition add_base (s : N * list N) (document : DocEntry) : res (N * list N) :=
  let '(next, bases) := s in
  blocks ← to_u32 (div_ceil (decoded_size document) CANDIDATE_BLOCK_BYTES);
  next ← with_context (checked_add U32 next blocks) "segment candidate block count overflows u32";
  Ok (next, bases ++ [next]).

Definition build_block_bases (tables : SegmentTables) : res (list N) :=
  '(_, bases) ← foldM add_base (0, [0]) (documents tables);
  Ok bases.

Definition get_block_document (id : N) (bases : list N) : N :=
  wrapping_sub U64 (partition_point (fun base => base <=? id) bases) 1.

Definition block_slack (start end_ : N) (document : DocEntry) (extent : SearchExtent) : N :=
  match extent with
  | EBytes span => N.min (1 + wrapping_sub U64 span 1 / CANDIDATE_BLOCK_BYTES) u32_max
  | ELines =>
      if max_line_len document =? u32_max then wrapping_add U32 (wrapping_sub U32 end_ start) 1
      else 1 + max_line_len document / CANDIDATE_BLOCK_BYTES
  | EDocument => 0
  end.

Definition expand_candidate_block (id : N) (bases : list N) (tables : SegmentTables) (extent : SearchExtent)
    : res (N * N) :=
  let document := get_block_document id bases in
  start ← expect (get bases document) "index out of bounds";
  next ← expect (get bases (document + 1)) "index out of bounds";
  let end_ := wrapping_sub U32 next 1 in
  if decide (extent = EDocument) then Ok (start, end_)
  else
    doc ← expect (get (documents tables) document) "index out of bounds";
    let slack := block_slack start end_ doc extent in
    Ok (N.max (id - slack) start, N.min (saturating_add U32 id slack) end_).

(** ** Grouping ids into ranges *)

Definition singleton_range (local : N) (extent : SearchExtent) : CandidateRange :=
  {| start := local; end_ := local + 1; extent := extent |}.

(** [documents.last_mut()], [ranges.last_mut()]. *)
Definition group_step (total : N) (bases : list N) (extent_ : SearchExtent)
    (documents : list (N * list CandidateRange)) (id : N) : res (list (N * list CandidateRange)) :=
  ensure (id <? total) "candidate block is outside the segment";;
  let document_index := get_block_document id bases in
  document ← to_u32 document_index;
  base ← expect (get bases document_index) "index out of bounds";
  let local := wrapping_sub U32 id base in
  match last documents with
  | Some (current, ranges) =>
      if current =? document then
        let before := removelast documents in
        range ← expect (last ranges) "candidate range exists";
        if end_ range =? local
        then Ok (before ++ [(current, removelast ranges ++
               [{| start := start range; end_ := end_ range + 1; extent := extent range |}])])
        else Ok (before ++ [(current, ranges ++ [singleton_range local extent_])])
      else Ok (documents ++ [(document, [singleton_range local extent_])])
  | None => Ok (documents ++ [(document, [singleton_range local extent_])])
  end.

Definition group_candidate_blocks (ids bases : list N) (extent : SearchExtent)
    : res (list (N * list CandidateRange)) :=
  ensure (negb (bool_decide (extent = EDocument))) "document extent cannot be stored as a candidate range";;
  foldM (group_step (default 0 (last bases)) bases extent) [] ids.

(** ** Merging ranges *)

Definition pick_broader_extent (a b : SearchExtent) : SearchExtent :=
  match a, b with
  | EDocument, _ | _, EDocument => EDocument
  | ELines, _ | _, ELines => ELines
  | EBytes left_, EBytes right_ => EBytes (N.max left_ right_)
  end.

Definition range_leb (a b : CandidateRange) : bool :=
  if start a =? start b then end_ a <=? end_ b else start a <? start b.

(** The loop over the sorted ranges; [merged] is reversed, its head is
    [merged.last_mut()]. *)
Fixpoint merge_loop (ranges merged : list CandidateRange) : list CandidateRange :=
  match ranges with
  | [] => rev merged
  | range :: ranges =>
      match merged with
      | previous :: rest =>
          let overlaps := start range <? end_ previous in
          let joins := (start range =? end_ previous) && bool_decide (extent range = extent previous) in
          if overlaps || joins then
            merge_loop ranges
              ({| start := start previous; end_ := N.max (end_ previous) (end_ range);
                  extent := if overlaps then pick_broader_extent (extent previous) (extent range) else extent previous |} :: rest)
          else merge_loop ranges (range :: merged)
      | [] => merge_loop ranges [range]
      end
  end.

Definition merge_candidate_ranges (current incoming : list CandidateRange) : list CandidateRange :=
  merge_loop (sort_by range_leb (current ++ incoming)) [].

(** ** Candidate documents *)

(** [dedup_by_key(|(document, _)| *document)] *)
Definition document_loop (total : N) (bases : list N) (documents : list N) (id : N) : res (list N) :=
  ensure (id <? total) "candidate block is outside the segment";;
  document ← to_u32 (get_block_document id bases);
  Ok (documents ++ [document]).

Definition whole_document (document : N) : N * option (list CandidateRange) := (document, None).

Definition ranged_document (group : N * list CandidateRange) : N * option (list CandidateRange) :=
  (group.1, Some group.2).

(** The three arms over selected ids: sparse segments index documents, trigram
    segments blocks. *)
Definition sparse_documents (document_count : N) (ids : list N) : res (list (N * option (list CandidateRange))) :=
  mapM_res (fun document =>
    ensure (document <? document_count) "candidate document is outside the segment";;
    Ok (whole_document document)) ids.

Definition block_documents (bases ids : list N) : res (list (N * option (list CandidateRange))) :=
  documents ← foldM (document_loop (default 0 (last bases)) bases) [] ids;
  Ok (fmap (M := list) whole_document (dedup (A := N) documents)).

Definition ranged_documents (ids bases : list N) (extent : SearchExtent)
    : res (list (N * option (list CandidateRange))) :=
  groups ← group_candidate_blocks ids bases extent;
  Ok (fmap (M := list) ranged_document groups).

Definition candidate_documents (selection : Selection) (extent : SearchExtent) (strategy : Strategy)
    (document_count : N) (block_bases : option (list N)) : res (list (N * option (list CandidateRange))) :=
  match selection with
  | SAll => Ok (whole_document <$> range 0 document_count)
  | SIds ids =>
      if decide (strategy = Sparse) then sparse_documents document_count ids
      else
        bases ← with_context block_bases "trigram candidate block bases are missing";
        if decide (extent = EDocument) then block_documents bases ids else ranged_documents ids bases extent
  end.

(** The map from documents to ranges; [None] is the whole document and
    absorbs later ranges. *)
Definition add_candidate (documents : gmap N (option (list CandidateRange)))
    (candidate : N * option (list CandidateRange)) : gmap N (option (list CandidateRange)) :=
  let '(document, ranges) := candidate in
  match ranges with
  | None => <[document := None]> documents
  | Some ranges =>
      match default (Some []) (documents !! document) with
      | Some current => <[document := Some (merge_candidate_ranges current ranges)]> documents
      | None => <[document := None]> documents
      end
  end.

Definition add_candidate_selection (documents : gmap N (option (list CandidateRange))) (selection : Selection)
    (extent : SearchExtent) (strategy : Strategy) (document_count : N) (block_bases : option (list N))
    : res (gmap N (option (list CandidateRange))) :=
  candidates ← candidate_documents selection extent strategy document_count block_bases;
  Ok (fold_left add_candidate candidates documents).

(** ** Block bases are prefix sums *)

Definition block_count (d : DocEntry) : N := div_ceil (decoded_size d) CANDIDATE_BLOCK_BYTES.
Definition base_of (docs : list DocEntry) (i : N) : N := sumN (take (N.to_nat i) (block_count <$> docs)).

Record bases_ok (docs : list DocEntry) (bases : list N) : Prop := {
  bo_len : len bases = len docs + 1;
  bo_get : forall i, i <= len docs -> get bases i = Some (base_of docs i);
  bo_fits : base_of docs (len docs) < U32;
}.

Lemma base_of_next docs i d : get docs i = Some d -> base_of docs (i + 1) = base_of docs i + block_count d.
Proof.
  intros H. unfold base_of, get in *. replace (N.to_nat (i + 1)) with (S (N.to_nat i)) by lia.
  rewrite (take_S_r _ _ (block_count d)); [|by rewrite list_lookup_fmap, H]. by rewrite sumN_snoc.
Qed.
Lemma base_of_mono docs i j : i <= j -> base_of docs i <= base_of docs j.
Proof.
  intros Hij. unfold base_of. replace (N.to_nat j) with (N.to_nat i + N.to_nat (j - i))%nat by lia.
  generalize (block_count <$> docs) as l. intros l.
  rewrite <- (take_drop (N.to_nat i) (take (N.to_nat i + N.to_nat (j - i)) l)), sumN_app, take_take.
  rewrite Nat.min_l by lia. lia.
Qed.

Lemma base_of_app docs docs' i : i <= len docs -> base_of (docs ++ docs') i = base_of docs i.
Proof.
  intros Hi. unfold base_of, len in *. rewrite fmap_app, take_app_le; [done|]. rewrite length_fmap. lia.
Qed.

Lemma add_base_safe docs :
  safe (foldM add_base (0, [0]) docs) (fun '(next, bases) => next = base_of docs (len docs) /\ bases_ok docs bases).
Proof.
  eapply safe_weaken; [apply (foldM_safe (fun pre '(next, bases) => next = base_of pre (len pre) /\ bases_ok pre bases))|].
  - split; [done|]. split; [done| |done]. intros i Hi. rewrite len_nil in Hi. by replace i with 0 by lia.
  - intros pre d post [next bases] _ [-> [Hlen Hget Hfits]]. unfold add_base.
    eapply (safe_bind _ _ (fun n => n = block_count d)).
    { unfold to_u32. destruct (_ <? U32); [by apply safe_ok|left; by eexists]. }
    intros ? ->. safe_next. intros n [-> Hn]%checked_add_Some. apply safe_ok.
    assert (base_of (pre ++ [d]) (len (pre ++ [d])) = base_of pre (len pre) + block_count d) as Hnext.
    { rewrite len_app. change (len [d]) with 1. rewrite (base_of_next _ _ d) by apply get_middle.
      by rewrite base_of_app by lia. }
    split; [done|]. split; [rewrite !len_app; change (len [d]) with 1; change (len [_]) with 1; lia| |lia].
    intros i Hi. apply get_snoc. rewrite len_app in Hi. change (len [d]) with 1 in Hi.
    destruct (decide (i = len pre + 1)) as [->|].
    + right. split; [done|]. rewrite <- Hnext. f_equal. rewrite len_app. done.
    + left. rewrite base_of_app by lia. apply Hget. lia.
  - intros [next bases] H. exact H.
Qed.

Lemma build_block_bases_ok tables bases : build_block_bases tables = Ok bases -> bases_ok (documents tables) bases.
Proof.
  unfold build_block_bases. intros H. apply bind_ok in H as ([next bases'] & H & [= <-]).
  destruct (safe_no_panic _ _ (add_base_safe (documents tables))) as [_ Hok]. by apply Hok in H as [_ ?].
Qed.

Section numbering.
Context (docs : list DocEntry) (bases : list N) (Hbases : bases_ok docs bases) (Hsmall : len docs < U32).

Let total : N := base_of docs (len docs).

Lemma bases_last : default 0 (last bases) = total.
Proof.
  destruct (last bases) as [m|] eqn:E.
  - apply last_Some in E as [l E]. pose proof (bo_len _ _ Hbases) as Hlen. pose proof (bo_get _ _ Hbases (len docs) ltac:(lia)) as Hg.
    rewrite E in Hlen, Hg. rewrite len_app in Hlen. change (len [m]) with 1 in Hlen.
    replace (len docs) with (len l) in Hg by lia. rewrite get_middle in Hg. injection Hg as ->. cbn. unfold total. f_equal. lia.
  - apply last_None in E. pose proof (bo_len _ _ Hbases) as Hlen. rewrite E, len_nil in Hlen. lia.
Qed.

(** The document of an id is the one whose block range holds it. *)
Lemma get_block_document_spec id :
  id < total ->
  let i := get_block_document id bases in
  i < len docs /\ base_of docs i <= id < base_of docs (i + 1) /\
  get bases i = Some (base_of docs i) /\ get bases (i + 1) = Some (base_of docs (i + 1)).
Proof.
  intros Hid i. subst i. unfold get_block_document. set (k := partition_point _ _).
  pose proof (bo_len _ _ Hbases) as Hlen.
  assert (k <> 0) as Hk.
  { intros E. pose proof (bo_get _ _ Hbases 0 ltac:(lia)) as H0.
    pose proof (partition_point_at (fun base => base <=? id) bases (base_of docs 0)) as Hat.
    fold k in Hat. rewrite E in Hat. specialize (Hat H0). change (base_of docs 0) with 0 in Hat. apply N.leb_gt in Hat. lia. }
  assert (k <= len docs) as Hkl.
  { destruct (N.leb_spec k (len docs)); [done|]. pose proof (bo_get _ _ Hbases (len docs) ltac:(lia)) as H0.
    pose proof (partition_point_before (fun base => base <=? id) bases (len docs) _ H0) as Hb. fold k in Hb.
    specialize (Hb ltac:(lia)). cbn beta in Hb. fold total in Hb. lia. }
  rewrite wrapping_sub_small by lia. replace (k - 1 + 1) with k by lia.
  pose proof (bo_get _ _ Hbases (k - 1) ltac:(lia)) as H1. pose proof (bo_get _ _ Hbases k Hkl) as H2.
  pose proof (partition_point_before (fun base => base <=? id) bases (k - 1) _ H1 ltac:(fold k; lia)) as Hb.
  pose proof (partition_point_at (fun base => base <=? id) bases _ H2) as Ha. cbn beta in Hb, Ha.
  split_and!; [lia|lia|lia|done|done].
Qed.

Lemma get_block_document_unique id i :
  i < len docs -> base_of docs i <= id < base_of docs (i + 1) -> get_block_document id bases = i.
Proof.
  intros Hi Hid. assert (id < total) as Ht.
  { pose proof (base_of_mono docs (i + 1) (len docs) ltac:(lia)). unfold total. lia. }
  destruct (get_block_document_spec id Ht) as (Hj & Hjid & _ & _). set (j := get_block_document id bases) in *.
  destruct (N.lt_trichotomy i j) as [H|[H|H]]; [|done|].
  - pose proof (base_of_mono docs (i + 1) j ltac:(lia)). lia.
  - pose proof (base_of_mono docs (j + 1) i ltac:(lia)). lia.
Qed.
End numbering.

(** ** The slack covers a match *)

(** Two byte offsets of one match, by the extent the plan was given. *)
Definition extent_reaches (e : SearchExtent) (d : DocEntry) (p q : N) : Prop :=
  match e with
  | EBytes span => 0 < span < U64 /\ p < q + span /\ q < p + span
  | ELines => max_line_len d = u32_max \/ p <= q + max_line_len d /\ q <= p + max_line_len d
  | EDocument => True
  end.

Section expansion.
Context (tables : SegmentTables) (bases : list N).
Context (Hbases : bases_ok (documents tables) bases) (Hsmall : len (documents tables) < U32).

Let docs : list DocEntry := documents tables.

Lemma block_in_document i d p :
  get docs i = Some d -> p < decoded_size d -> decoded_size d <= 2 ^ 63 ->
  base_of docs i <= base_of docs i + p / CANDIDATE_BLOCK_BYTES < base_of docs (i + 1).
Proof.
  intros Hd Hp Hs. rewrite (base_of_next _ _ _ Hd). unfold block_count. change CANDIDATE_BLOCK_BYTES with 131072.
  pose proof (div_ceil_le (decoded_size d) 131072 ltac:(lia)). lia.
Qed.

Lemma block_slack_covers d e p q s t :
  extent_reaches e d p q -> e <> EDocument -> t + 1 < U32 -> s <= t ->
  p / CANDIDATE_BLOCK_BYTES <= t - s -> q / CANDIDATE_BLOCK_BYTES <= t - s ->
  q / CANDIDATE_BLOCK_BYTES <= p / CANDIDATE_BLOCK_BYTES + block_slack s t d e /\
  p / CANDIDATE_BLOCK_BYTES <= q / CANDIDATE_BLOCK_BYTES + block_slack s t d e.
Proof.
  unfold block_slack. change CANDIDATE_BLOCK_BYTES with 131072. intros He Hne Ht Hst Hp Hq.
  destruct e as [span| |]; [| |done]; cbn [extent_reaches] in He.
  - rewrite wrapping_sub_small by lia. lia.
  - destruct (N.eqb_spec (max_line_len d) u32_max) as [E|E].
    + rewrite wrapping_sub_small, wrapping_add_small by lia. lia.
    + destruct He as [?|He]; [done|]. lia.
Qed.

(** The expansion of the block of one offset contains the block of any other
    offset the extent reaches, and stays within the document. *)
Lemma expand_covers i d e p q :
  get docs i = Some d -> p < decoded_size d -> q < decoded_size d -> decoded_size d <= 2 ^ 63 ->
  extent_reaches e d p q ->
  exists lo hi, expand_candidate_block (base_of docs i + p / CANDIDATE_BLOCK_BYTES) bases tables e = Ok (lo, hi) /\
    lo <= base_of docs i + q / CANDIDATE_BLOCK_BYTES <= hi /\
    base_of docs i <= lo /\ hi < base_of docs (i + 1).
Proof.
  intros Hd Hp Hq Hs He. pose proof (get_Some_lt _ _ _ Hd) as Hi.
  pose proof (block_in_document i d p Hd Hp Hs) as Hbp. pose proof (block_in_document i d q Hd Hq Hs) as Hbq.
  unfold expand_candidate_block. cbv zeta.
  rewrite (get_block_document_unique docs bases Hbases Hsmall _ i Hi Hbp).
  rewrite (bo_get _ _ Hbases i), (bo_get _ _ Hbases (i + 1)) by (fold docs; lia). fold docs. cbn [expect mbind res_bind].
  pose proof (base_of_mono docs (i + 1) (len docs) ltac:(lia)). pose proof (bo_fits _ _ Hbases) as Hfit. fold docs in Hfit.
  rewrite wrapping_sub_small by lia. destruct (decide (e = EDocument)) as [|Hne].
  { eexists _, _. split; [done|]. lia. }
  fold docs. rewrite Hd. cbn [expect mbind res_bind].
  destruct (block_slack_covers d e p q (base_of docs i) (base_of docs (i + 1) - 1) He Hne) as [H1 H2]; [lia|lia|lia|lia|].
  eexists _, _. split; [done|]. unfold saturating_add. lia.
Qed.
End expansion.

(** ** Evaluating several plans *)

Section plans.
Context (id_space : N) (strategy : Strategy) (lookup_ : list N -> res (option TermValue)).
Context (postings : list N -> list N) (content : N -> list N).
Context (expand : N -> N -> N * N) (fetch_blocks : gmap N (N * N) -> res (gmap N (list N))).
Context (entries_ok : forall g, entry_ok id_space lookup_ postings content g).

(** Fetching lists of the dictionary returns every requested block, with its
    content. *)
Definition fetch_ok : Prop := forall needed,
  (forall offset count length_, needed !! offset = Some (count, length_) -> from_dictionary id_space lookup_ offset count length_) ->
  exists blocks, fetch_blocks needed = Ok blocks /\
  (forall offset ids, blocks !! offset = Some ids -> ascending ids) /\
  (forall offset, is_Some (needed !! offset) -> blocks !! offset = Some (content offset)).
Context (Hfetch : fetch_ok).

(** A selection that loses no near id of a query. *)
Definition keeps_near (index : N) (q : Query) (s : Selection) : Prop :=
  selection_ok s /\ forall x, satisfied (near postings (Some (expand index)) x) q = true -> selected s x.

Lemma resolved_keeps_near index q blocks r :
  (forall offset ids, blocks !! offset = Some ids -> ascending ids) ->
  resolve id_space strategy lookup_ q = Ok r -> agrees content blocks r ->
  exists s, eval blocks (Some (expand index)) r = Ok s /\ keeps_near index q s.
Proof.
  intros Hasc Hr Ha.
  destruct (resolve_ok id_space strategy lookup_ postings content (Some (expand index)) entries_ok blocks q) as (r' & Hr' & Hx).
  rewrite Hr in Hr'. injection Hr' as <-.
  destruct (eval_ok blocks (Some (expand index)) Hasc r) as (s & Hs & Hok & Hden).
  { apply fetched_mentions. intros offset Hm. by rewrite Ha. }
  exists s. split; [exact Hs|]. split; [exact Hok|]. intros x Hsat. apply Hden. by apply Hx.
Qed.

Lemma resolve_total q : exists r, resolve id_space strategy lookup_ q = Ok r.
Proof.
  destruct (resolve_ok id_space strategy lookup_ postings content None entries_ok ∅ q) as (r & Hr & _). eauto.
Qed.

Lemma needed_all bound needed0 offset :
  is_Some (fold_left (fun needed query => blocks_needed query needed) bound needed0 !! offset) <->
  is_Some (needed0 !! offset) \/ exists r, r ∈ bound /\ mentions r offset.
Proof.
  clear -bound needed0 offset. revert needed0. induction bound as [|r bound IH]; intros needed0; cbn [fold_left]; [set_solver|].
  rewrite IH, blocks_needed_spec. setoid_rewrite elem_of_cons. naive_solver.
Qed.

Lemma needed_known bound needed0 :
  (forall r, r ∈ bound -> grams_known id_space lookup_ r) ->
  (forall offset count length_, needed0 !! offset = Some (count, length_) -> from_dictionary id_space lookup_ offset count length_) ->
  forall offset count length_, fold_left (fun needed query => blocks_needed query needed) bound needed0 !! offset = Some (count, length_) ->
    from_dictionary id_space lookup_ offset count length_.
Proof.
  revert needed0. induction bound as [|r bound IH]; intros needed0 Hb H0; cbn [fold_left]; [done|].
  apply IH; [intros; apply Hb; by right|]. apply blocks_needed_known; [apply Hb; left|done].
Qed.

Abbreviation collect := (fun (acc : list (N * Selection)) index selection => Ok (acc ++ [(index, selection)])).

Definition visited_ok (plans : list CandidatePlan) (out : list (N * Selection)) : Prop :=
  len out = len plans /\
  forall k plan, get plans k = Some plan -> exists s, get out k = Some (k, s) /\ keeps_near k (plan_query plan) s.

Lemma visit_bound_ok plans bound blocks :
  (forall offset ids, blocks !! offset = Some ids -> ascending ids) ->
  Forall2 (fun plan r => resolve id_space strategy lookup_ (plan_query plan) = Ok r) plans bound ->
  Forall (agrees content blocks) bound ->
  exists out, foldM (fun s '(index, query) =>
      selection ← eval blocks (Some (expand index)) query; collect s index selection) [] (enumerate bound) = Ok out /\
    visited_ok plans out.
Proof.
  intros Hasc Hb Ha. edestruct (foldM_total (fun (pre : list (N * Resolved)) (out : list (N * Selection)) => len out = len pre /\
    forall k plan, k < len pre -> get plans k = Some plan ->
      exists s, get out k = Some (k, s) /\ keeps_near k (plan_query plan) s)) as (out & Hout & Hlen & Hall).
  3: { exists out. split; [exact Hout|]. rewrite len_enumerate in *.
       assert (len bound = len plans) as Hl by (unfold len; by rewrite (Forall2_length _ _ _ Hb)).
       split; [lia|]. intros k plan Hk. apply Hall; [|done]. apply get_Some_lt in Hk. lia. }
  { split; [done|]. intros k plan Hk. rewrite len_nil in Hk. lia. }
  intros pre [index r] post out Hpre [Hlen Hall]. apply enumerate_split in Hpre as [-> Hbound].
  assert (get bound (len pre) = Some r) as Hr by (rewrite Hbound, <- (len_fmap snd pre); apply get_middle).
  destruct (Forall2_lookup_r _ _ _ _ _ Hb Hr) as (plan & Hplan & Hres).
  rewrite Forall_forall in Ha. destruct (resolved_keeps_near (len pre) (plan_query plan) blocks r) as (s & Hs & Hk);
    [done|done|apply Ha; by eapply get_elem|].
  exists (out ++ [(len pre, s)]). rewrite Hs. cbn [mbind res_bind]. split; [done|].
  rewrite !len_app, Hlen. split; [done|]. intros k plan' Hlt Hget. change (len [_]) with 1 in Hlt.
  destruct (decide (k = len pre)) as [->|Hne].
  - exists s. split; [rewrite <- Hlen; apply get_middle|]. unfold get in Hget, Hplan. rewrite Hplan in Hget. by injection Hget as <-.
  - destruct (Hall k plan' ltac:(lia) Hget) as (s' & Hs' & Hk'). exists s'. split; [|done].
    rewrite get_app_l by (apply get_Some_lt in Hs'; lia). done.
Qed.

Lemma visit_ok plans :
  exists out, visit_candidate_selections id_space strategy lookup_ expand fetch_blocks collect plans [] = Ok out /\
    visited_ok plans out.
Proof.
  unfold visit_candidate_selections.
  assert (forall many, many = plans -> exists out, (bound ← bind_queries id_space strategy lookup_ (plan_query <$> many);
      blocks ← fetch_blocks (fold_left (fun needed query => blocks_needed query needed) bound ∅);
      foldM (fun s '(index, query) =>
        selection ← eval blocks (Some (expand index)) query; collect s index selection) [] (enumerate bound)) = Ok out /\
    visited_ok plans out) as Hmany.
  { intros many ->. destruct (mapM_res_total (resolve id_space strategy lookup_) (fun _ _ => True) (plan_query <$> plans)) as (bound & Hb & _).
    { intros q _. destruct (resolve_total q) as [r Hr]. eauto. }
    unfold bind_queries. rewrite Hb. cbn [mbind res_bind]. apply mapM_res_ok, Forall2_fmap_l in Hb.
    destruct (Hfetch (fold_left (fun needed query => blocks_needed query needed) bound ∅)) as (blocks & -> & Hasc & Hneeded).
    { apply needed_known; [|by intros ? ? ?; rewrite lookup_empty]. intros r Hr. apply list_elem_of_lookup in Hr as [k Hk].
      destruct (Forall2_lookup_r _ _ _ _ _ Hb Hk) as (plan & _ & Hres). by eapply resolve_known. }
    cbn [mbind res_bind].
    apply visit_bound_ok; [done|exact Hb|]. apply Forall_forall. intros r Hr offset Hm. apply Hneeded, needed_all. right. eauto. }
  destruct plans as [|plan [|plan2 plans]]; [by apply Hmany| |by apply Hmany]. clear Hmany.
  destruct (resolve_total (plan_query plan)) as [r Hr]. rewrite Hr. cbn [mbind res_bind].
  destruct (Hfetch (blocks_needed r ∅)) as (blocks & -> & Hasc & Hneeded).
  { apply blocks_needed_known; [by eapply resolve_known|by intros ? ? ?; rewrite lookup_empty]. }
  cbn [mbind res_bind].
  destruct (resolved_keeps_near 0 (plan_query plan) blocks r) as (s & Hs & Hk); [done|done| |].
  { intros offset Hm. apply Hneeded, blocks_needed_spec. by right. }
  rewrite Hs. cbn [mbind res_bind app]. eexists. split; [done|]. split; [done|].
  intros k plan' Hget. destruct (decide (k = 0)) as [->|Hne]; [|apply get_Some_lt in Hget; change (len [plan]) with 1 in Hget; lia].
  rewrite get_cons_0 in Hget. injection Hget as <-. exists s. done.
Qed.
End plans.

(** ** A match is never missed *)

Lemma satisfied_mono has has' q :
  (forall g, has g = true -> has' g = true) -> satisfied has q = true -> satisfied has' q = true.
Proof.
  intros Hg. induction q as [|qs IH|qs IH|g] using query_ind'; cbn [satisfied]; [done| | |apply Hg].
  - rewrite !forallb_elem. rewrite Forall_forall in IH. eauto.
  - rewrite !existsb_elem. rewrite Forall_forall in IH. intros (q & Hq & Hs). exists q. eauto.
Qed.

Section cover.
Context (radsort : list N -> list N) `{!SortsN radsort}.
Context (tables : SegmentTables) (bases : list N) (contents : list (list N)) (plans : list CandidatePlan).

(** The closure the segment reader passes for [expand] on a trigram segment.
    The source panics where an id is beyond the block bases; the empty range
    stands for that here, and [expand_covers] shows that no id of a document's
    block gets there. *)
Definition expand_plan (index id : N) : N * N :=
  match get plans index with
  | Some plan =>
      match expand_candidate_block id bases tables (plan_extent plan) with Ok bounds => bounds | _ => (1, 0) end
  | None => (1, 0)
  end.

Definition gram_bytes (g : N) : list N := [N.shiftr g 16 mod U8; N.shiftr g 8 mod U8; g mod U8].

(** The contents of the documents, and posting lists of their block grams. *)
Definition contents_ok : Prop :=
  forall i d, get (documents tables) i = Some d -> exists data, get contents i = Some data /\
    Forall is_byte data /\ len data = decoded_size d /\ len data <= 2 ^ 32 * CANDIDATE_BLOCK_BYTES.
Definition postings_describe (postings : list N -> list N) : Prop :=
  forall g id, id ∈ postings g <-> exists i data block gram, get contents i = Some data /\
    (block, gram) ∈ pack_trigram_block_grams radsort data /\
    id = base_of (documents tables) i + block /\ g = gram_bytes gram.

(** The posting lists of a sparse segment are lists of documents.  The dictionary
    has hashes of grams, so a gram shares its list with every other of its hash. *)
Definition sparse_describe (rapidhash_v3 : list N -> N) (postings : list N -> list N) : Prop :=
  forall g id, id ∈ postings g <-> exists data grams gram, get contents id = Some data /\
    grams_index rapidhash_v3 radsort data Sparse = Ok grams /\ gram ∈ grams /\ hash_ngram rapidhash_v3 g = hash_ngram rapidhash_v3 gram.

Context (postings : list N -> list N) (Hpost : postings_describe postings) (Hcontents : contents_ok).
Context (Hbases : bases_ok (documents tables) bases) (Hsmall : len (documents tables) < U32).

(** Every gram of a piece of a document is near every block of the piece. *)
Lemma gram_near k plan i d data text before after x g :
  get plans k = Some plan -> get (documents tables) i = Some d -> get contents i = Some data ->
  data = before ++ text ++ after ->
  (forall p q, len before <= p < len before + len text -> len before <= q < len before + len text ->
    extent_reaches (plan_extent plan) d p q) ->
  len before <= x < len before + len text ->
  g ∈ trigram_grams_bytes radsort text ->
  near postings (Some (expand_plan k)) (base_of (documents tables) i + x / CANDIDATE_BLOCK_BYTES) g = true.
Proof.
  intros Hplan Hd Hdata Hsplit Hreach Hx Hg. destruct (Hcontents i d Hd) as (data' & Hdata' & Hbytes & Hsize & Hbig).
  rewrite Hdata in Hdata'. injection Hdata' as <-.
  assert (Forall is_byte text) as Hbt by (rewrite Hsplit, !Forall_app in Hbytes; tauto).
  unfold trigram_grams_bytes in Hg. apply list_elem_of_fmap in Hg as (packed & -> & Hin).
  apply elem_of_pack_trigram_grams in Hin as (j & a & b & c & -> & Ha & Hb & Hc); [|done|done].
  pose proof (get_Some_lt _ _ _ Hc) as Hj.
  assert (len data = len before + len text + len after) as Hlen by (rewrite Hsplit, !len_app; lia).
  change CANDIDATE_BLOCK_BYTES with 131072 in Hbig.
  destruct (expand_covers tables bases Hbases Hsmall i d (plan_extent plan) (len before + j) x Hd)
    as (lo & hi & He & Hin & _); [lia|lia|lia|apply Hreach; lia|].
  unfold near. apply bool_decide_eq_true, elem_of_expand.
  exists (base_of (documents tables) i + (len before + j) / CANDIDATE_BLOCK_BYTES). split.
  - apply Hpost. exists i, data, ((len before + j) / CANDIDATE_BLOCK_BYTES), (pack_window (a, b, c)).
    split_and!; [done| |done|done]. apply elem_of_block_grams; [done|done|done|].
    exists (len before + j), a, b, c. split_and!; [done|done| | |]; rewrite Hsplit, <- ?N.add_assoc; by apply get_infix.
  - unfold expand_plan. rewrite Hplan, He. exact Hin.
Qed.
End cover.

(** ** Grouping *)

Definition covered (docs : list DocEntry) (groups : list (N * list CandidateRange)) (id : N) : Prop :=
  exists doc ranges r, (doc, ranges) ∈ groups /\ r ∈ ranges /\
    base_of docs doc + start r <= id < base_of docs doc + end_ r.

(** Sorted ranges with a gap between neighbours. *)
Definition separated (ranges : list CandidateRange) : Prop :=
  Forall (fun r => start r < end_ r) ranges /\ StronglySorted (fun a b => end_ a < start b) ranges.

Lemma removelast_snoc {A} (l : list A) x : removelast (l ++ [x]) = l.
Proof. apply removelast_last. Qed.

Section grouping.
Context (docs : list DocEntry) (bases : list N) (Hbases : bases_ok docs bases) (Hsmall : len docs < U32).
Context (extent_ : SearchExtent).

Let total : N := base_of docs (len docs).

(** The invariant of [group_candidate_blocks] after a prefix of ascending ids. *)
Record groups_ok (ids : list N) (groups : list (N * list CandidateRange)) : Prop := {
  go_covered : forall id, id ∈ ids <-> covered docs groups id;
  go_sorted : ascending groups.*1;
  go_ranges : Forall (fun '(doc, ranges) => doc < len docs /\ separated ranges /\
    Forall (fun r => extent r = extent_ /\ base_of docs doc + end_ r <= base_of docs (doc + 1)) ranges) groups;
  go_last : match last ids with
    | None => groups = []
    | Some id => exists before doc ranges r, groups = before ++ [(doc, ranges ++ [r])] /\
        base_of docs doc + end_ r = id + 1 /\ base_of docs doc <= id < base_of docs (doc + 1)
    end;
}.

Lemma covered_app groups1 groups2 id : covered docs (groups1 ++ groups2) id <-> covered docs groups1 id \/ covered docs groups2 id.
Proof.
  unfold covered. split.
  - intros (doc & ranges & r & [?|?]%elem_of_app & ? & ?); [left|right]; exists doc, ranges, r; done.
  - intros [(doc & ranges & r & ? & ?)|(doc & ranges & r & ? & ?)]; exists doc, ranges, r; rewrite elem_of_app; tauto.
Qed.
Lemma covered_one doc ranges id :
  covered docs [(doc, ranges)] id <-> exists r, r ∈ ranges /\ base_of docs doc + start r <= id < base_of docs doc + end_ r.
Proof.
  unfold covered. split.
  - intros (d & rs & r & [= -> ->]%list_elem_of_singleton & ? & ?). eauto.
  - intros (r & ? & ?). exists doc, ranges, r. split; [left|done].
Qed.

Lemma group_in_range ids groups : groups_ok ids groups -> forall id, id ∈ ids -> id < total.
Proof.
  intros [Hc _ Hr _] id (doc & ranges & r & Hg & Hin & Hid)%Hc. rewrite Forall_forall in Hr.
  destruct (Hr _ Hg) as (Hd & _ & Hrs). rewrite Forall_forall in Hrs. destruct (Hrs _ Hin) as [_ ?].
  pose proof (base_of_mono docs (doc + 1) (len docs) ltac:(lia)). unfold total. lia.
Qed.

Section step.
Context (ids : list N) (groups : list (N * list CandidateRange)) (Hgroups : groups_ok ids groups).
Context (id i : N) (Hnew : forall x, last ids = Some x -> x < id).
Context (Hi : i < len docs) (Hid : base_of docs i <= id < base_of docs (i + 1)).

Lemma covered_singleton x : covered docs [(i, [singleton_range (id - base_of docs i) extent_])] x <-> x = id.
Proof.
  rewrite covered_one. split; [intros (r & ->%list_elem_of_singleton & H); cbn in H; lia|].
  intros ->. eexists. split; [left|]. cbn. lia.
Qed.

(** The id opens a new document. *)
Lemma group_push_document :
  (forall d, d ∈ groups.*1 -> d < i) ->
  groups_ok (ids ++ [id]) (groups ++ [(i, [singleton_range (id - base_of docs i) extent_])]).
Proof.
  intros Hlt. destruct Hgroups as [Hc Hs Hr Hl]. split.
  - intros x. by rewrite covered_app, covered_singleton, elem_of_app, list_elem_of_singleton, Hc.
  - rewrite fmap_app. apply ascending_snoc; [done|]. intros x Hx. apply Hlt. apply last_Some in Hx as [l ->]. set_solver.
  - apply Forall_app. split; [done|]. repeat constructor; cbn; lia || done.
  - rewrite last_snoc. exists groups, i, [], (singleton_range (id - base_of docs i) extent_). cbn. split; [done|lia].
Qed.

Context (before : list (N * list CandidateRange)) (ranges : list CandidateRange) (r : CandidateRange).
Context (Hsplit : groups = before ++ [(i, ranges ++ [r])]) (Hend : base_of docs i + end_ r <= id).

Lemma last_group : separated (ranges ++ [r]) /\ Forall (fun r => extent r = extent_ /\ base_of docs i + end_ r <= base_of docs (i + 1)) (ranges ++ [r]).
Proof.
  destruct Hgroups as [_ _ Hr _]. rewrite Hsplit in Hr. apply Forall_app in Hr as [_ Hr]. apply Forall_cons in Hr as [Hr _]. tauto.
Qed.

Lemma group_set_last ranges' r' :
  (forall x, (exists q, q ∈ ranges' ++ [r'] /\ base_of docs i + start q <= x < base_of docs i + end_ q) <->
     covered docs [(i, ranges ++ [r])] x \/ x = id) ->
  separated (ranges' ++ [r']) -> Forall (fun r => extent r = extent_ /\ base_of docs i + end_ r <= base_of docs (i + 1)) (ranges' ++ [r']) ->
  base_of docs i + end_ r' = id + 1 ->
  groups_ok (ids ++ [id]) (before ++ [(i, ranges' ++ [r'])]).
Proof.
  intros Hx Hsep Hall He. destruct Hgroups as [Hc Hs Hr Hl]. rewrite Hsplit in Hc, Hs, Hr. split.
  - intros x. rewrite covered_app, (covered_one i (ranges' ++ [r'])), Hx, elem_of_app, list_elem_of_singleton, Hc, covered_app. tauto.
  - rewrite fmap_app in Hs |- *. exact Hs.
  - apply Forall_app in Hr as [Hr _]. apply Forall_app. split; [done|]. constructor; [|constructor]. done.
  - rewrite last_snoc. exists before, i, ranges', r'. done.
Qed.

(** The id extends the last range. *)
Lemma group_extend :
  base_of docs i + end_ r = id ->
  groups_ok (ids ++ [id]) (before ++ [(i, ranges ++ [{| start := start r; end_ := end_ r + 1; extent := extent r |}])]).
Proof.
  intros He. destruct last_group as [[Hne Hsep] Hall]. apply Forall_app in Hne as [Hne Hner]. apply Forall_cons in Hner as [Hner _].
  apply Forall_app in Hall as [Hall Hr]. apply Forall_cons in Hr as [[Hext Hr] _].
  apply group_set_last; cbn [end_]; [|split| |lia].
  - intros x. rewrite covered_one. setoid_rewrite elem_of_app. setoid_rewrite list_elem_of_singleton. split.
    + intros (q & [Hq| ->] & Hx); [left; exists q; auto|]. cbn in Hx. destruct (decide (x = id)); [by right|].
      left. exists r. split; [by right|lia].
    + intros [(q & [Hq| ->] & Hx)| ->]; [exists q; auto| |]; (eexists; split; [by right|]; cbn; lia).
  - apply Forall_app. split; [done|]. repeat constructor. cbn. lia.
  - apply StronglySorted_app in Hsep as (Hc1 & Hs1 & _). apply StronglySorted_app_2; [|done|repeat constructor].
    intros a b Ha ->%list_elem_of_singleton. cbn. apply Hc1; [done|left].
  - apply Forall_app. split; [done|]. repeat constructor; cbn; [done|lia].
Qed.

(** The id opens a new range. *)
Lemma group_push_range :
  base_of docs i + end_ r < id ->
  groups_ok (ids ++ [id]) (before ++ [(i, (ranges ++ [r]) ++ [singleton_range (id - base_of docs i) extent_])]).
Proof.
  intros He. destruct last_group as [[Hne Hsep] Hall].
  apply group_set_last; [|split| |cbn; lia].
  - intros x. rewrite covered_one. setoid_rewrite (elem_of_app (ranges ++ [r])). setoid_rewrite list_elem_of_singleton. split.
    + intros (q & [Hq| ->] & Hx); [left; exists q; auto|right]. cbn in Hx. lia.
    + intros [(q & Hq & Hx)| ->]; [exists q; auto|]. eexists. split; [by right|]. cbn. lia.
  - apply Forall_app. split; [done|]. repeat constructor. cbn. lia.
  - apply StronglySorted_app_2; [|done|repeat constructor].
    intros a b Ha ->%list_elem_of_singleton. cbn. apply StronglySorted_app in Hsep as (Hc1 & _ & _).
    apply elem_of_app in Ha as [Ha|Ha%list_elem_of_singleton]; [specialize (Hc1 a r Ha ltac:(left))|subst a; lia].
    apply Forall_app in Hne as [_ Hner]. apply Forall_cons in Hner as [Hner _]. cbn in Hc1. lia.
  - apply Forall_app. split; [done|]. repeat constructor; cbn; lia || done.
Qed.
End step.
End grouping.

Section group.
Context (docs : list DocEntry) (bases : list N) (Hbases : bases_ok docs bases) (Hsmall : len docs < U32).
Context (extent_ : SearchExtent).

Let total : N := base_of docs (len docs).

Lemma group_step_ok ids groups id :
  groups_ok docs extent_ ids groups -> ascending (ids ++ [id]) -> id < total ->
  exists groups', group_step total bases extent_ groups id = Ok groups' /\ groups_ok docs extent_ (ids ++ [id]) groups'.
Proof.
  intros Hg Hasc Hid. destruct (get_block_document_spec docs bases Hbases Hsmall id Hid) as (Hi & Hir & Hb & _).
  unfold group_step. set (i := get_block_document id bases) in *.
  destruct (N.ltb_spec id total) as [_|]; [|lia]. cbn [ensure mbind res_bind]. cbv zeta.
  assert (to_u32 i = Ok i) as -> by (apply to_u32_ok; lia). cbn [mbind res_bind].
  rewrite Hb. cbn [expect mbind res_bind].
  assert (base_of docs i <= id) by lia. pose proof (base_of_mono docs i (len docs) ltac:(lia)) as Hm. fold total in Hm.
  pose proof (bo_fits _ _ Hbases) as Hfit. fold total in Hfit. rewrite wrapping_sub_small by lia.
  assert (forall x, last ids = Some x -> x < id) as Hnew.
  { intros x Hx. apply StronglySorted_app in Hasc as (Hc & _ & _). apply last_Some in Hx as [l ->]. apply Hc; set_solver. }
  pose proof (go_last _ _ _ _ Hg) as Hl. destruct (last ids) as [x|] eqn:Ex.
  - destruct Hl as (before & doc & ranges & r & Hsplit & He & Hx). specialize (Hnew x eq_refl).
    rewrite Hsplit, last_snoc, removelast_snoc. destruct (N.eqb_spec doc i) as [->|Hne].
    + rewrite last_snoc, removelast_snoc. cbn [expect mbind res_bind]. destruct (N.eqb_spec (end_ r) (id - base_of docs i)).
      * eexists. split; [done|]. eapply group_extend; first [exact Hg|exact Hsplit|lia].
      * eexists. split; [done|]. eapply group_push_range; first [exact Hg|exact Hsplit|lia].
    + eexists. split; [done|]. rewrite <- Hsplit. apply (group_push_document docs bases); [done|done|done|intros y; rewrite Ex; intros [= <-]; done|done|done|].
      intros d Hd. assert (doc < i) as Hdoc.
      { destruct (N.lt_trichotomy doc i) as [?|[?|?]]; [done|done|]. pose proof (base_of_mono docs (i + 1) doc ltac:(lia)). lia. }
      pose proof (go_sorted _ _ _ _ Hg) as Hs. rewrite Hsplit, fmap_app in Hs, Hd. apply StronglySorted_app in Hs as (Hc & _ & _).
      apply elem_of_app in Hd as [Hd|Hd]; [specialize (Hc d doc Hd ltac:(left)); lia|]. cbn in Hd. set_solver by lia.
  - rewrite Hl in Hg |- *. cbn [last]. eexists. split; [done|]. apply (group_push_document docs bases Hbases Hsmall extent_ ids []); [done|by rewrite Ex|done|done|].
    intros d Hd. cbn in Hd. set_solver.
Qed.

Lemma group_blocks_ok ids :
  ascending ids -> (forall id, id ∈ ids -> id < total) -> extent_ <> EDocument ->
  exists groups, group_candidate_blocks ids bases extent_ = Ok groups /\ groups_ok docs extent_ ids groups.
Proof.
  intros Hasc Hids Hne. unfold group_candidate_blocks. rewrite bool_decide_false by done. cbn [negb ensure mbind res_bind].
  rewrite (bases_last docs bases Hbases Hsmall). apply (foldM_total (fun pre groups => groups_ok docs extent_ pre groups)).
  - split; [|constructor|constructor|done]. intros id. unfold covered. split; [set_solver|]. intros (? & ? & ? & ? & _). set_solver.
  - intros pre id post groups -> Hg. apply group_step_ok; [done| |apply Hids; set_solver].
    rewrite cons_middle, app_assoc in Hasc. by apply StronglySorted_app in Hasc as (_ & ? & _).
Qed.
End group.

(** ** Merging keeps the coverage *)

Definition holds_block (r : CandidateRange) (x : N) : Prop := start r <= x < end_ r.
Definition broader (a b : SearchExtent) : Prop := pick_broader_extent a b = b.

Lemma broader_refl a : broader a a.
Proof. unfold broader. destruct a; cbn; [|done..]. f_equal. lia. Qed.
Lemma broader_trans a b c : broader a b -> broader b c -> broader a c.
Proof. unfold broader. destruct a, b, c; cbn; try done. intros [= ?] [= ?]. f_equal. lia. Qed.
Lemma pick_broader_l a b : broader a (pick_broader_extent a b).
Proof. unfold broader. destruct a, b; cbn; try done; f_equal; lia. Qed.
Lemma pick_broader_r a b : broader b (pick_broader_extent a b).
Proof. unfold broader. destruct a, b; cbn; try done; f_equal; lia. Qed.

(** [outs] covers what [ins] covers, with extents at least as broad. *)
Record covers_as (ins outs : list CandidateRange) : Prop := {
  ca_keeps : forall r x, r ∈ ins -> holds_block r x -> exists o, o ∈ outs /\ holds_block o x /\ broader (extent r) (extent o);
  ca_only : forall o x, o ∈ outs -> holds_block o x -> exists r, r ∈ ins /\ holds_block r x;
}.
Lemma covers_as_same ins outs : (forall r, r ∈ ins <-> r ∈ outs) -> covers_as ins outs.
Proof.
  intros H. split; [intros r x Hr Hx|intros o x Ho Hx].
  - exists r. split; [by apply H|]. split; [done|apply broader_refl].
  - exists o. split; [by apply H|done].
Qed.
Lemma covers_as_trans a b c : covers_as a b -> covers_as b c -> covers_as a c.
Proof.
  intros [K1 O1] [K2 O2]. split.
  - intros r x Hr Hx. destruct (K1 r x Hr Hx) as (o & Ho & Hox & He). destruct (K2 o x Ho Hox) as (p & Hp & Hpx & He2).
    exists p. split; [done|]. split; [done|]. by eapply broader_trans.
  - intros o x Ho Hx. destruct (O2 o x Ho Hx) as (p & Hp & Hpx). eauto.
Qed.

(** Disjoint ranges in order. *)
Definition in_order (ranges : list CandidateRange) : Prop :=
  Forall (fun r => start r < end_ r) ranges /\ StronglySorted (fun a b => end_ a <= start b) ranges.

Lemma in_order_snoc l r :
  in_order l -> start r < end_ r -> (forall p, last l = Some p -> end_ p <= start r) -> in_order (l ++ [r]).
Proof.
  intros [Hv Hs] Hr Hlast. split; [apply Forall_app; auto|]. apply StronglySorted_app_2; [|done|repeat constructor].
  intros a b Ha ->%list_elem_of_singleton. destruct (last l) as [p|] eqn:E; [|apply last_None in E as ->; set_solver].
  specialize (Hlast p eq_refl). apply last_Some in E as [l' ->].
  apply elem_of_app in Ha as [Ha|Ha%list_elem_of_singleton]; [|by subst].
  apply StronglySorted_app in Hs as (Hc & _ & _). specialize (Hc a p Ha ltac:(left)). apply Forall_app in Hv as [_ Hv].
  apply Forall_cons in Hv as [Hv _]. lia.
Qed.

Definition join_ranges (previous range : CandidateRange) : CandidateRange :=
  {| start := start previous; end_ := N.max (end_ previous) (end_ range);
     extent := if start range <? end_ previous then pick_broader_extent (extent previous) (extent range) else extent previous |}.

Lemma join_covers done_ previous range rest :
  start previous <= start range < end_ range ->
  start range < end_ previous \/ start range = end_ previous /\ extent range = extent previous ->
  covers_as (done_ ++ previous :: range :: rest) (done_ ++ join_ranges previous range :: rest).
Proof.
  intros Hs Hj. assert (broader (extent previous) (extent (join_ranges previous range)) /\
    broader (extent range) (extent (join_ranges previous range))) as [B1 B2].
  { cbn. destruct (N.ltb_spec (start range) (end_ previous)); [split; [apply pick_broader_l|apply pick_broader_r]|].
    destruct Hj as [|[_ ->]]; [lia|]. split; apply broader_refl. }
  split.
  - intros r x Hr Hx. rewrite elem_of_app, !elem_of_cons in Hr. unfold holds_block in *. destruct Hr as [Hr|[->|[->|Hr]]].
    + exists r. split; [set_solver|]. split; [done|apply broader_refl].
    + exists (join_ranges previous range). split; [set_solver|]. split; [cbn; lia|done].
    + exists (join_ranges previous range). split; [set_solver|]. split; [cbn; lia|done].
    + exists r. split; [set_solver|]. split; [done|apply broader_refl].
  - intros o x Ho Hx. rewrite elem_of_app, elem_of_cons in Ho. unfold holds_block in *. destruct Ho as [Ho|[->|Ho]].
    + exists o. set_solver.
    + cbn in Hx. destruct (decide (x < end_ previous)); [exists previous|exists range]; (split; [set_solver|lia]).
    + exists o. set_solver.
Qed.

Lemma merge_loop_ok ranges merged :
  Forall (fun r => start r < end_ r) ranges -> StronglySorted (fun a b => start a <= start b) ranges ->
  in_order (rev merged) ->
  (forall p, head merged = Some p -> Forall (fun r => start p <= start r) ranges) ->
  in_order (merge_loop ranges merged) /\ covers_as (rev merged ++ ranges) (merge_loop ranges merged).
Proof.
  revert merged. induction ranges as [|r ranges IH]; intros merged Hv Hs Hm Hhead; cbn [merge_loop].
  { split; [done|]. rewrite app_nil_r. by apply covers_as_same. }
  apply Forall_cons in Hv as [Hr Hv]. apply StronglySorted_inv in Hs as [Hs Hmin].
  destruct merged as [|p rest].
  { apply (IH [r]); [done|done|split; repeat constructor; lia|]. intros ? [= <-]. done. }
  specialize (Hhead p eq_refl). apply Forall_cons in Hhead as [Hp Hhead]. cbv zeta.
  destruct ((start r <? end_ p) || _) eqn:E.
  - assert (start r < end_ p \/ start r = end_ p /\ extent r = extent p) as Hj.
    { apply orb_true_iff in E as [E|[E1 E2]%andb_prop]; [left|right]; [by apply N.ltb_lt|].
      split; [by apply N.eqb_eq|by apply bool_decide_eq_true in E2]. }
    fold (join_ranges p r). destruct (IH (join_ranges p r :: rest)) as [Ho Hc]; [done|done| |by intros ? [= <-]|].
    { cbn [rev] in Hm |- *. destruct Hm as [Hvm Hsm]. apply Forall_app in Hvm as [Hvr Hvp]. apply Forall_cons in Hvp as [Hvp _].
      apply StronglySorted_app in Hsm as (Hc & Hsr & _). split.
      - apply Forall_app. split; [done|]. repeat constructor. cbn. lia.
      - apply StronglySorted_app_2; [|done|repeat constructor]. intros a b Ha ->%list_elem_of_singleton. cbn. apply Hc; [done|left]. }
    split; [done|]. eapply covers_as_trans; [|exact Hc]. cbn [rev]. rewrite <- !app_assoc. apply join_covers; [lia|done].
  - apply orb_false_iff in E as [E _]. apply N.ltb_ge in E.
    destruct (IH (r :: p :: rest)) as [Ho Hc]; [done|done| |by intros ? [= <-]|].
    { cbn [rev] in *. apply in_order_snoc; [done|done|]. intros q. rewrite last_snoc. by intros [= <-]. }
    split; [done|]. cbn [rev] in *. by rewrite <- (app_assoc _ [r]) in Hc.
Qed.

Lemma range_leb_sorted l : StronglySorted (fun a b => start a <= start b) (sort_by range_leb l).
Proof.
  assert (StronglySorted (fun a b => range_leb a b = true) (sort_by range_leb l)) as H.
  { apply sort_by_sorted; unfold range_leb.
    - intros a b. destruct (N.eqb_spec (start a) (start b)), (N.eqb_spec (start b) (start a)); lia.
    - intros a b c. destruct (N.eqb_spec (start a) (start b)), (N.eqb_spec (start b) (start c)), (N.eqb_spec (start a) (start c)); lia. }
  induction H as [|r l' H IH Hr]; constructor; [done|]. eapply Forall_impl; [exact Hr|].
  intros b. unfold range_leb. cbn beta. destruct (N.eqb_spec (start r) (start b)); lia.
Qed.

Lemma merge_candidate_ranges_ok current incoming :
  Forall (fun r => start r < end_ r) (current ++ incoming) ->
  in_order (merge_candidate_ranges current incoming) /\
  covers_as (current ++ incoming) (merge_candidate_ranges current incoming).
Proof.
  intros Hv. unfold merge_candidate_ranges. destruct (merge_loop_ok (sort_by range_leb (current ++ incoming)) []) as [Ho Hc].
  - rewrite Forall_forall in Hv |- *. intros r Hr%elem_of_sort_by. auto.
  - apply range_leb_sorted.
  - split; constructor.
  - done.
  - split; [done|]. eapply covers_as_trans; [|exact Hc]. apply covers_as_same. intros r. symmetry. apply elem_of_sort_by.
Qed.

(** ** Candidate documents *)

(** The block [x] of a document is covered, with at least the extent [e];
    [None] is the whole document. *)
Definition covers_block (e : SearchExtent) (ranges : option (list CandidateRange)) (x : N) : Prop :=
  match ranges with
  | None => True
  | Some ranges => exists r, r ∈ ranges /\ holds_block r x /\ broader e (extent r)
  end.
Definition touches_block (ranges : option (list CandidateRange)) (x : N) : Prop := exists e, covers_block e ranges x.

(** The blocks a selection asks for. *)
Definition wanted (docs : list DocEntry) (strategy : Strategy) (e : SearchExtent) (selection : Selection) (doc x : N) : Prop :=
  match selection with
  | SAll => True
  | SIds ids =>
      if decide (strategy = Sparse) then doc ∈ ids
      else if decide (e = EDocument) then exists id, id ∈ ids /\ base_of docs doc <= id < base_of docs (doc + 1)
      else base_of docs doc + x ∈ ids
  end.

(** A selection the evaluator can return: ids in order, inside the id space. *)
Definition selection_in (docs : list DocEntry) (strategy : Strategy) (selection : Selection) : Prop :=
  match selection with
  | SAll => True
  | SIds ids => ascending ids /\
      forall id, id ∈ ids -> id < if decide (strategy = Sparse) then len docs else base_of docs (len docs)
  end.

Lemma fmap_fst_whole l : (fmap (M := list) whole_document l).*1 = l.
Proof. induction l; cbn; [done|]. by f_equal. Qed.
Lemma fmap_fst_ranged l : (fmap (M := list) ranged_document l).*1 = l.*1.
Proof. induction l; cbn; [done|]. by f_equal. Qed.
Lemma elem_of_whole l doc ranges : (doc, ranges) ∈ fmap (M := list) whole_document l <-> doc ∈ l /\ ranges = None.
Proof.
  rewrite list_elem_of_fmap. unfold whole_document. split; [intros (? & [= -> ->] & ?); done|]. intros [? ->]. eauto.
Qed.

Section documents.
Context (docs : list DocEntry) (bases : list N) (Hbases : bases_ok docs bases) (Hsmall : len docs < U32).

(** What [candidate_documents] returns for a selection. *)
Record documents_for (want : N -> N -> Prop) (e : SearchExtent) (candidates : list (N * option (list CandidateRange))) : Prop := {
  df_sorted : ascending candidates.*1;
  df_docs : forall doc ranges, (doc, ranges) ∈ candidates -> doc < len docs;
  df_order : forall doc ranges, (doc, Some ranges) ∈ candidates ->
    Forall (fun r => start r < end_ r /\ extent r = e) ranges /\ in_order ranges;
  df_exact : forall doc x, doc < len docs -> x < base_of docs (doc + 1) - base_of docs doc ->
    (exists ranges, (doc, ranges) ∈ candidates /\ touches_block ranges x) <-> want doc x;
}.

Lemma whole_documents_for want e ids :
  ascending ids -> (forall doc, doc ∈ ids -> doc < len docs) ->
  (forall doc x, doc < len docs -> x < base_of docs (doc + 1) - base_of docs doc -> want doc x <-> doc ∈ ids) ->
  documents_for want e (fmap (M := list) whole_document ids).
Proof.
  intros Hs Hlt Hw. split.
  - by rewrite fmap_fst_whole.
  - intros doc ranges [? _]%elem_of_whole. auto.
  - intros doc ranges [_ ?]%elem_of_whole. done.
  - intros doc x Hd Hx. rewrite Hw by done. split; [intros (ranges & [? _]%elem_of_whole & _); done|].
    intros Hin. exists None. split; [by apply elem_of_whole|]. by exists e.
Qed.

Lemma sparse_documents_ok ids :
  (forall id, id ∈ ids -> id < len docs) -> sparse_documents (len docs) ids = Ok (fmap (M := list) whole_document ids).
Proof.
  clear Hbases Hsmall. unfold sparse_documents. induction ids as [|id ids IH]; intros H; cbn [mapM_res fmap list_fmap]; [done|].
  destruct (N.ltb_spec id (len docs)) as [_|]; [|specialize (H id); set_solver by lia].
  cbn [ensure mbind res_bind]. rewrite IH by set_solver. done.
Qed.

Lemma block_documents_ok ids :
  ascending ids -> (forall id, id ∈ ids -> id < base_of docs (len docs)) ->
  exists out, block_documents bases ids = Ok (fmap (M := list) whole_document out) /\ ascending out /\
    forall doc, doc ∈ out <-> exists id, id ∈ ids /\ doc < len docs /\ base_of docs doc <= id < base_of docs (doc + 1).
Proof.
  intros Hasc Hids. unfold block_documents. rewrite (bases_last docs bases Hbases Hsmall).
  edestruct (foldM_total (fun (pre : list N) (out : list N) => out = (fun id => get_block_document id bases) <$> pre)) as (out & Hf & Hout).
  3: { rewrite Hf. cbn [mbind res_bind]. subst out. eexists. split; [done|].
    assert (forall id, id ∈ ids -> let i := get_block_document id bases in i < len docs /\ base_of docs i <= id < base_of docs (i + 1)) as Hspec.
    { intros id Hid. destruct (get_block_document_spec docs bases Hbases Hsmall id (Hids _ Hid)) as (? & ? & _). done. }
    split.
    - apply (dedup_strict N.le N.lt); [lia|lia|]. clear Hf Hids. induction Hasc as [|id ids Hasc IH Hmin]; cbn; constructor.
      + apply IH. intros. apply Hspec. by right.
      + apply Forall_fmap, Forall_forall. intros id' Hid'. cbn. rewrite Forall_forall in Hmin. specialize (Hmin _ Hid').
        destruct (Hspec id ltac:(left)) as [_ H1]. destruct (Hspec id' ltac:(by right)) as [_ H2].
        destruct (N.leb_spec (get_block_document id bases) (get_block_document id' bases)) as [|Hc]; [done|].
        pose proof (base_of_mono docs (get_block_document id' bases + 1) (get_block_document id bases) ltac:(lia)). lia.
    - intros doc. rewrite elem_of_dedup, list_elem_of_fmap. split.
      + intros (id & -> & Hid). exists id. split; [done|]. by apply Hspec.
      + intros (id & Hid & Hd & Hr). exists id. split; [|done]. symmetry. by apply (get_block_document_unique docs bases). }
  - done.
  - intros pre id post out -> ->. unfold document_loop.
    destruct (get_block_document_spec docs bases Hbases Hsmall id) as (Hd & _); [apply Hids; set_solver|].
    destruct (N.ltb_spec id (base_of docs (len docs))) as [_|]; [|specialize (Hids id); set_solver by lia].
    cbn [ensure mbind res_bind]. assert (to_u32 (get_block_document id bases) = Ok (get_block_document id bases)) as -> by (apply to_u32_ok; lia).
    cbn [mbind res_bind]. eexists. split; [done|]. by rewrite fmap_app.
Qed.

Lemma ranged_documents_for ids e groups :
  groups_ok docs e ids groups -> documents_for (fun doc x => base_of docs doc + x ∈ ids) e (fmap (M := list) ranged_document groups).
Proof.
  intros [Hc Hs Hr _]. rewrite Forall_forall in Hr.
  assert (forall doc ranges, (doc, ranges) ∈ fmap (M := list) ranged_document groups -> exists rs, ranges = Some rs /\ (doc, rs) ∈ groups) as Hin.
  { intros doc ranges ([d rs] & [= -> ->] & Hg)%list_elem_of_fmap. eauto. }
  split.
  - by rewrite fmap_fst_ranged.
  - intros doc ranges (rs & -> & Hg)%Hin. by destruct (Hr _ Hg).
  - intros doc ranges (rs & [= ->] & Hg)%Hin. destruct (Hr _ Hg) as (_ & [Hv Hsep] & He). split.
    + apply Forall_forall. intros r Hrin. rewrite Forall_forall in Hv, He. split; [auto|]. by apply He.
    + split; [done|]. clear -Hsep. induction Hsep as [|r l H IH Hl]; constructor; [done|]. eapply Forall_impl; [exact Hl|]. cbn. lia.
  - intros doc x Hd Hx. rewrite Hc. split.
    + intros (ranges & (rs & -> & Hg)%Hin & e' & r & Hrs & Hh & _). exists doc, rs, r. unfold holds_block in Hh. split_and!; [done|done|lia|lia].
    + intros (doc' & rs & r & Hg & Hrs & Hh). destruct (Hr _ Hg) as (Hd' & _ & He). rewrite Forall_forall in He.
      destruct (He _ Hrs) as [_ Hend]. assert (doc = doc') as <-.
      { transitivity (get_block_document (base_of docs doc + x) bases); [symmetry|]; apply (get_block_document_unique docs bases Hbases Hsmall); lia. }
      exists (Some rs). split; [apply list_elem_of_fmap; by exists (doc, rs)|]. exists (extent r), r. unfold holds_block.
      split_and!; [done|lia|lia|apply broader_refl].
Qed.

Lemma candidate_documents_ok strategy e selection :
  selection_in docs strategy selection ->
  exists candidates, candidate_documents selection e strategy (len docs) (Some bases) = Ok candidates /\
    documents_for (wanted docs strategy e selection) e candidates.
Proof.
  unfold candidate_documents. destruct selection as [|ids]; cbn [selection_in wanted].
  { intros _. eexists. split; [done|]. apply whole_documents_for; [apply range_ascending| |].
    - intros doc H%elem_of_range. lia.
    - intros doc x Hd _. rewrite elem_of_range. split; [lia|done]. }
  intros [Hasc Hids]. case_decide as Es.
  { rewrite sparse_documents_ok by done. eexists. split; [done|]. apply whole_documents_for; [done|done|].
    intros doc x _ _. unfold wanted. by rewrite decide_True. }
  cbn [with_context mbind res_bind]. case_decide as Ee.
  - destruct (block_documents_ok ids Hasc Hids) as (out & -> & Hout & Helem). eexists. split; [done|].
    apply whole_documents_for; [done| |].
    + intros doc (id & _ & ? & _)%Helem. done.
    + intros doc x Hd _. unfold wanted. rewrite decide_False, decide_True, Helem by done. naive_solver.
  - destruct (group_blocks_ok docs bases Hbases Hsmall e ids Hasc Hids Ee) as (groups & Hg & Hok).
    unfold ranged_documents. rewrite Hg. cbn [mbind res_bind]. eexists. split; [done|].
    destruct (ranged_documents_for ids e groups Hok) as [H1 H2 H3 H4]. split; [done..|].
    intros doc x Hd Hx. unfold wanted. rewrite !decide_False by done. by apply H4.
Qed.
End documents.

(** ** Accumulating selections *)

Definition map_ok (documents : gmap N (option (list CandidateRange))) : Prop :=
  forall doc ranges, documents !! doc = Some (Some ranges) -> in_order ranges.
Definition map_covers (documents : gmap N (option (list CandidateRange))) (e : SearchExtent) (doc x : N) : Prop :=
  exists ranges, documents !! doc = Some ranges /\ covers_block e ranges x.
Definition map_touches (documents : gmap N (option (list CandidateRange))) (doc x : N) : Prop :=
  exists e, map_covers documents e doc x.

Record accumulates (documents documents' : gmap N (option (list CandidateRange))) (candidates : list (N * option (list CandidateRange))) : Prop := {
  ac_ok : map_ok documents';
  ac_keeps : forall e doc x, map_covers documents e doc x \/ (exists ranges, (doc, ranges) ∈ candidates /\ covers_block e ranges x) ->
    map_covers documents' e doc x;
  ac_only : forall doc x, map_touches documents' doc x ->
    map_touches documents doc x \/ exists ranges, (doc, ranges) ∈ candidates /\ touches_block ranges x;
}.

Lemma merged_covers e current incoming x :
  Forall (fun r => start r < end_ r) (current ++ incoming) ->
  covers_block e (Some current) x \/ covers_block e (Some incoming) x ->
  covers_block e (Some (merge_candidate_ranges current incoming)) x.
Proof.
  intros Hv H. destruct (merge_candidate_ranges_ok current incoming Hv) as [_ [Hk _]].
  assert (exists r, r ∈ current ++ incoming /\ holds_block r x /\ broader e (extent r)) as (r & Hr & Hx & He).
  { destruct H as [(r & ? & ?)|(r & ? & ?)]; exists r; set_solver. }
  destruct (Hk r x Hr Hx) as (o & Ho & Hox & Hoe). exists o. split_and!; [done|apply Hox..|by eapply broader_trans].
Qed.
Lemma merged_touches current incoming x :
  Forall (fun r => start r < end_ r) (current ++ incoming) ->
  touches_block (Some (merge_candidate_ranges current incoming)) x ->
  touches_block (Some current) x \/ touches_block (Some incoming) x.
Proof.
  intros Hv (e & o & Ho & Hx & _). destruct (merge_candidate_ranges_ok current incoming Hv) as [_ [_ Hon]].
  destruct (Hon o x Ho Hx) as (r & [Hr|Hr]%elem_of_app & Hrx); [left|right]; exists (extent r), r; split_and!; apply broader_refl || done || apply Hrx.
Qed.

Lemma add_candidate_ok documents doc ranges :
  map_ok documents -> (forall rs, ranges = Some rs -> Forall (fun r => start r < end_ r) rs) ->
  accumulates documents (add_candidate documents (doc, ranges)) [(doc, ranges)].
Proof.
  intros Hok Hv. unfold add_candidate.
  assert (Hnone : forall rs, ranges = Some rs \/ ranges = None -> (ranges = None \/ documents !! doc = Some None) ->
    accumulates documents (<[doc := None]> documents) [(doc, ranges)]).
  { intros rs _ Hwhole. split.
    - intros d r. rewrite lookup_insert_Some. intros [[<- ?]|[_ ?]]; [done|eauto].
    - intros e d x. unfold map_covers. setoid_rewrite list_elem_of_singleton. intros [(r & Hr & Hc)|(r & [= -> ->] & Hc)].
      + destruct (decide (doc = d)) as [->|]; [exists None; by rewrite lookup_insert_eq|exists r; by rewrite lookup_insert_ne].
      + exists None. by rewrite lookup_insert_eq.
    - intros d x (e & r & Hr & Hc). apply lookup_insert_Some in Hr as [[<- <-]|[_ Hr]]; [|left; exists e, r; done].
      destruct Hwhole as [->|Hd]; [right; exists None; split; [left|by exists e]|left; exists e, None; done]. }
  destruct ranges as [rs|]; [|apply (Hnone []); auto]. specialize (Hv rs eq_refl).
  destruct (default (Some []) (documents !! doc)) as [current|] eqn:E.
  2: { apply (Hnone rs); [by left|right]. destruct (documents !! doc) as [[|]|]; cbn in E; congruence. }
  clear Hnone. assert (in_order current) as Hcur.
  { destruct (documents !! doc) as [o|] eqn:Ed; cbn in E; [subst o; by eapply Hok|]. injection E as <-. split; constructor. }
  assert (Forall (fun r => start r < end_ r) (current ++ rs)) as Hall by (apply Forall_app; split; [apply Hcur|done]).
  split.
  - intros d r. rewrite lookup_insert_Some. intros [[<- [= <-]]|[_ ?]]; [by apply merge_candidate_ranges_ok|eauto].
  - intros e d x. unfold map_covers. setoid_rewrite list_elem_of_singleton. intros [(r & Hr & Hc)|(r & [= -> ->] & Hc)].
    + destruct (decide (doc = d)) as [->|]; [|exists r; by rewrite lookup_insert_ne]. rewrite Hr in E. cbn in E. subst r.
      rewrite lookup_insert_eq. eexists. split; [done|]. apply merged_covers; auto.
    + rewrite lookup_insert_eq. eexists. split; [done|]. apply merged_covers; auto.
  - intros d x (e & r & Hr & Hc). apply lookup_insert_Some in Hr as [[<- <-]|[_ Hr]]; [|left; exists e, r; done].
    destruct (merged_touches current rs x Hall) as [Ht|Ht]; [by exists e| |right; exists (Some rs); split; [left|done]].
    left. destruct Ht as (e' & Ht). exists e'. destruct (documents !! doc) as [o|] eqn:Ed; cbn in E.
    + subst o. by exists (Some current).
    + injection E as <-. destruct Ht as (? & ? & _). set_solver.
Qed.

Lemma add_candidates_ok candidates documents :
  map_ok documents -> (forall doc rs, (doc, Some rs) ∈ candidates -> Forall (fun r => start r < end_ r) rs) ->
  accumulates documents (fold_left add_candidate candidates documents) candidates.
Proof.
  revert documents. induction candidates as [|[doc ranges] candidates IH]; intros documents Hok Hv; cbn [fold_left].
  { split; [done| |auto]. intros e doc x [H|(? & ? & _)]; [done|set_solver]. }
  destruct (add_candidate_ok documents doc ranges Hok) as [Ok1 K1 O1].
  { intros rs ->. eapply Hv. left. }
  destruct (IH (add_candidate documents (doc, ranges)) Ok1) as [Ok2 K2 O2].
  { intros d rs H. eapply Hv. right. done. }
  split; [done| |].
  - intros e d x [H|(r & [E|H]%elem_of_cons & Hc)]; apply K2; [left; apply K1; by left| |right; eauto].
    left. apply K1. right. exists r. split; [rewrite E; left|done].
  - intros d x [H|(r & H & Hc)]%O2; [|right; exists r; split; [by right|done]].
    apply O1 in H as [H|(r & E%list_elem_of_singleton & Hc)]; [by left|right]. exists r. split; [rewrite E; left|done].
Qed.

(** ** Properties *)

(** C12: a match is never missed. For documents whose block grams the posting
    lists describe, a piece of text that contains every gram the plan's query
    asks for and whose offsets the plan's extent reaches has all of its blocks
    in the selection the plan is visited with: grams of one match may lie in
    different blocks, and the expansion makes up for it. *)
Theorem candidates_cover_match radsort `{!SortsN radsort} id_space strategy lookup_ tables bases contents plans
    postings content fetch_blocks k plan i d data before text after :
  (forall gram, entry_ok id_space lookup_ postings content gram) -> fetch_ok id_space lookup_ content fetch_blocks ->
  postings_describe radsort tables contents postings -> contents_ok tables contents ->
  build_block_bases tables = Ok bases -> len (documents tables) < U32 ->
  get plans k = Some plan -> get (documents tables) i = Some d -> get contents i = Some data ->
  data = before ++ text ++ after ->
  (forall p q, len before <= p < len before + len text -> len before <= q < len before + len text ->
    extent_reaches (plan_extent plan) d p q) ->
  satisfied (fun g => bool_decide (g ∈ trigram_grams_bytes radsort text)) (plan_query plan) = true ->
  exists out selection,
    visit_candidate_selections id_space strategy lookup_ (expand_plan tables bases plans) fetch_blocks
      (fun acc index selection => Ok (acc ++ [(index, selection)])) plans [] = Ok out /\
    get out k = Some (k, selection) /\
    forall x, len before <= x < len before + len text ->
      selected selection (base_of (documents tables) i + x / CANDIDATE_BLOCK_BYTES).
Proof.
  intros Hent Hfetch Hpost Hcont Hbb%build_block_bases_ok Hsmall Hplan Hd Hdata Hsplit Hreach Hsat.
  destruct (visit_ok id_space strategy lookup_ postings content (expand_plan tables bases plans) fetch_blocks Hent Hfetch plans)
    as (out & Hout & _ & Hall).
  destruct (Hall k plan Hplan) as (selection & Hs & _ & Hkeep). exists out, selection. split; [exact Hout|]. split; [exact Hs|].
  intros x Hx. apply Hkeep. eapply satisfied_mono; [|exact Hsat]. intros g Hg%bool_decide_eq_true.
  by eapply (gram_near radsort tables bases contents plans postings Hpost Hcont Hbb Hsmall k plan i d data text before after).
Qed.

(** The candidate documents of a selection are exactly what it asks for:
    documents in ascending order, each with no range (the whole document) or
    with ordered, disjoint ranges of the plan's extent, covering exactly the
    selected blocks; no id in range makes it fail. *)
Theorem candidate_documents_exact tables bases strategy e selection :
  build_block_bases tables = Ok bases -> len (documents tables) < U32 ->
  selection_in (documents tables) strategy selection ->
  exists candidates, candidate_documents selection e strategy (len (documents tables)) (Some bases) = Ok candidates /\
    documents_for (documents tables) (wanted (documents tables) strategy e selection) e candidates.
Proof. intros Hbb%build_block_bases_ok Hsmall Hsel. by apply candidate_documents_ok. Qed.

(** Accumulating a selection covers what was covered and what the selection
    asks for, each at least as broadly as asked, and no block besides; ranges
    stay ordered and disjoint. *)
Theorem add_candidate_selection_exact tables bases strategy e selection documents_ :
  build_block_bases tables = Ok bases -> len (documents tables) < U32 ->
  selection_in (documents tables) strategy selection -> map_ok documents_ ->
  exists documents', add_candidate_selection documents_ selection e strategy (len (documents tables)) (Some bases) = Ok documents' /\
    map_ok documents' /\
    (forall e' doc x, map_covers documents_ e' doc x -> map_covers documents' e' doc x) /\
    forall doc x, doc < len (documents tables) ->
      x < base_of (documents tables) (doc + 1) - base_of (documents tables) doc ->
      (wanted (documents tables) strategy e selection doc x -> map_covers documents' e doc x) /\
      (map_touches documents' doc x -> map_touches documents_ doc x \/ wanted (documents tables) strategy e selection doc x).
Proof.
  intros Hbb%build_block_bases_ok Hsmall Hsel Hok. set (docs := documents tables) in *.
  destruct (candidate_documents_ok docs bases Hbb Hsmall strategy e selection Hsel) as (candidates & Hc & [_ _ Hord Hex]).
  destruct (add_candidates_ok candidates documents_ Hok) as [Hok' Hk Ho].
  { intros doc rs Hin. by apply Hord in Hin as [_ [? _]]. }
  unfold add_candidate_selection. rewrite Hc. cbn [mbind res_bind]. eexists. split; [done|]. split; [exact Hok'|].
  split; [intros; apply Hk; by left|]. intros doc x Hd Hx. split.
  - intros Hw. apply (Hex doc x Hd Hx) in Hw as (ranges & Hin & Ht). apply Hk. right. exists ranges. split; [done|].
    destruct ranges as [rs|]; [|done]. destruct Ht as (e' & r & Hr & Hh & _). exists r. split_and!; [done|apply Hh..|].
    destruct (Hord _ _ Hin) as [Hall _]. rewrite Forall_forall in Hall. destruct (Hall r Hr) as [_ ->]. apply broader_refl.
  - intros [?|(ranges & Hin & Ht)]%Ho; [by left|right]. apply (Hex doc x Hd Hx). eauto.
Qed.

(** ** Witnesses: the documents "abc" and one of three blocks *)

Definition demo_doc (size : N) : DocEntry :=
  {| display_key := [100]; source_id := 0; member_path := None; decoded_size := size; first_block := 0;
     block_offset := 0; max_line_len := u32_max; block_newlines := [] |}.
Definition demo_tables : SegmentTables := {| sources := []; documents := [demo_doc 3]; blocks := [] |}.
Definition two_tables : SegmentTables := {| sources := []; documents := [demo_doc 3; demo_doc 300000]; blocks := [] |}.
Definition abc_postings (g : list N) : list N := if bool_decide (g = [97; 98; 99]) then [0] else [].
Definition abc_lookup (g : list N) : res (option TermValue) :=
  if bool_decide (g = [97; 98; 99])
  then v ← pack_posting 0 1; Ok (Some {| packed := v; tv_len := None |}) else Ok None.
Definition empty_fetch (needed : gmap N (N * N)) : res (gmap N (list N)) := Ok ((fun _ => []) <$> needed).
Definition abc_plan : CandidatePlan := {| plan_query := QAnd [QGram [97; 98; 99]]; plan_extent := EBytes 3 |}.

Lemma abc_postings_describe : postings_describe sort_N demo_tables [[97; 98; 99]] abc_postings.
Proof.
  assert (pack_trigram_block_grams sort_N [97; 98; 99] = [(0, 6382179)]) as Hp by (vm_compute; reflexivity).
  intros g id. unfold abc_postings. case_bool_decide as E.
  - split.
    + intros ->%list_elem_of_singleton. exists 0, [97; 98; 99], 0, 6382179. rewrite Hp, E. split_and!; [done|left|done|done].
    + intros (i & data & block & gram & Hi & Hin & -> & _). destruct (decide (i = 0)) as [->|].
      * injection Hi as <-. rewrite Hp in Hin. apply list_elem_of_singleton in Hin as [= -> ->]. left.
      * apply get_Some_lt in Hi. change (len [[97; 98; 99]]) with 1 in Hi. lia.
  - split; [set_solver|]. intros (i & data & block & gram & Hi & Hin & -> & ->). destruct E. destruct (decide (i = 0)) as [->|].
    + injection Hi as <-. rewrite Hp in Hin. apply list_elem_of_singleton in Hin as [= -> ->]. vm_compute. reflexivity.
    + apply get_Some_lt in Hi. change (len [[97; 98; 99]]) with 1 in Hi. lia.
Qed.

Lemma candidates_cover_match_witness :
  build_block_bases demo_tables = Ok [0; 1] /\
  exists out selection,
    visit_candidate_selections 1 Trigram abc_lookup (expand_plan demo_tables [0; 1] [abc_plan]) empty_fetch
      (fun acc index selection => Ok (acc ++ [(index, selection)])) [abc_plan] [] = Ok out /\
    get out 0 = Some (0, selection) /\
    forall x, len (@nil N) <= x < len (@nil N) + len [97; 98; 99] ->
      selected selection (base_of (documents demo_tables) 0 + x / CANDIDATE_BLOCK_BYTES).
Proof.
  split; [vm_compute; reflexivity|].
  apply (candidates_cover_match sort_N 1 Trigram abc_lookup demo_tables [0; 1] [[97; 98; 99]] [abc_plan] abc_postings
    (fun _ => []) empty_fetch 0 abc_plan 0 (demo_doc 3) [97; 98; 99] [] [97; 98; 99] []).
  - intros gram. unfold entry_ok, abc_lookup, abc_postings. case_bool_decide; [|done].
    vm_compute. repeat split; intros; reflexivity || congruence.
  - intros needed _. exists ((fun _ => []) <$> needed). split; [done|]. split.
    + intros offset ids H. apply lookup_fmap_Some in H as (? & <- & _). constructor.
    + intros offset [v Hv]. by rewrite lookup_fmap, Hv.
  - exact abc_postings_describe.
  - intros i d Hi. destruct (decide (i = 0)) as [->|]; [|apply get_Some_lt in Hi; change (len (documents demo_tables)) with 1 in Hi; lia].
    injection Hi as <-. exists [97; 98; 99]. split; [done|]. repeat split; [repeat constructor|vm_compute; discriminate].
  - vm_compute. reflexivity.
  - vm_compute. reflexivity.
  - reflexivity.
  - reflexivity.
  - reflexivity.
  - reflexivity.
  - intros p q. change (len [97; 98; 99]) with 3. rewrite len_nil. cbn. lia.
  - vm_compute. reflexivity.
Defined.

Lemma candidate_documents_exact_witness :
  candidate_documents (SIds [0; 2; 3]) ELines Trigram 2 (Some [0; 1; 4]) =
    Ok [(0, Some [{| start := 0; end_ := 1; extent := ELines |}]); (1, Some [{| start := 1; end_ := 3; extent := ELines |}])] /\
  exists candidates, candidate_documents (SIds [0; 2; 3]) ELines Trigram (len (documents two_tables)) (Some [0; 1; 4]) = Ok candidates /\
    documents_for (documents two_tables) (wanted (documents two_tables) Trigram ELines (SIds [0; 2; 3])) ELines candidates.
Proof.
  split; [vm_compute; reflexivity|]. apply candidate_documents_exact; [vm_compute; reflexivity..|].
  split; [repeat constructor|]. intros id Hid. change (base_of _ _) with 4. cbn. set_solver by lia.
Defined.

Lemma add_candidate_selection_exact_witness :
  exists documents', add_candidate_selection (<[1 := Some [{| start := 0; end_ := 1; extent := ELines |}]]> ∅)
      (SIds [1; 2]) (EBytes 4) Trigram (len (documents two_tables)) (Some [0; 1; 4]) = Ok documents' /\
    map_ok documents' /\
    (forall e' doc x, map_covers (<[1 := Some [{| start := 0; end_ := 1; extent := ELines |}]]> ∅) e' doc x ->
       map_covers documents' e' doc x) /\
    forall doc x, doc < len (documents two_tables) ->
      x < base_of (documents two_tables) (doc + 1) - base_of (documents two_tables) doc ->
      (wanted (documents two_tables) Trigram (EBytes 4) (SIds [1; 2]) doc x -> map_covers documents' (EBytes 4) doc x) /\
      (map_touches documents' doc x ->
         map_touches (<[1 := Some [{| start := 0; end_ := 1; extent := ELines |}]]> ∅) doc x \/
         wanted (documents two_tables) Trigram (EBytes 4) (SIds [1; 2]) doc x).
Proof.
  apply add_candidate_selection_exact; [vm_compute; reflexivity..| |].
  - split; [repeat constructor|]. intros id Hid. change (base_of _ _) with 4. cbn. set_solver by lia.
  - intros doc ranges. rewrite lookup_insert_Some, lookup_empty. intros [[_ [= <-]]|[_ ?]]; [|done].
    split; repeat constructor.
Defined.
