(* ===== verification/PackBuild.v ===== *)
(** * Building packs and locating documents in them (crates/index/src/pack.rs)

    Documents are appended to a stream that is cut into blocks; each block is
    compressed on its own and appended to the active pack file, and a pack that
    would grow past its target is closed first.  A document is found again by
    the block and offset it starts at.  [zstd] and [sha2] are third-party:
    parameters, with their contract as the class [Codec].  The temporary files
    are modelled by their contents. *)

From S2P Require Import Prelude BitPack Bytes Format.

Record PackSlice : Type := { ps_first_block : N; ps_block_offset : N }.
Record PackMeta : Type := { pm_hash : list N; pm_len : N }.
Record PackFile : Type := { pf_bytes : list N; pf_len : N; pf_hash : list N }.
Definition meta (file : PackFile) : PackMeta := {| pm_hash := pf_hash file; pm_len := pf_len file |}.

(** [hasher] is the input it has consumed. *)
Record ActivePack : Type := { ap_file : list N; ap_len : N; ap_hasher : list N }.
Definition new_pack : ActivePack := {| ap_file := []; ap_len := 0; ap_hasher := [] |}.

Record PackBuilder : Type := {
  block_bytes : N; pack_bytes : N; block : list N; pb_blocks : list PackBlock; packs : list PackFile;
  active : option ActivePack;
}.
Record BuiltPacks : Type := { built_packs : list PackFile; built_blocks : list PackBlock }.

Definition PACK_TARGET_BYTES : N := 256 * 1024 * 1024.

Definition set_block (b : PackBuilder) (bytes : list N) : PackBuilder :=
  {| block_bytes := block_bytes b; pack_bytes := pack_bytes b; block := bytes; pb_blocks := pb_blocks b;
     packs := packs b; active := active b |}.

Definition new_builder (block_bytes pack_bytes : N) : res PackBuilder :=
  ensure (0 <? block_bytes) "pack block size must be positive";;
  ensure (0 <? pack_bytes) "pack target size must be positive";;
  Ok {| block_bytes := block_bytes; pack_bytes := pack_bytes; block := []; pb_blocks := []; packs := []; active := None |}.

Definition production : res PackBuilder := new_builder PACK_BLOCK_BYTES PACK_TARGET_BYTES.

Section builder.
Context (compress : list N -> res (list N)) (sha256 : list N -> list N).

Definition finish_pack (b : PackBuilder) : PackBuilder :=
  match active b with
  | None => b
  | Some pack =>
      {| block_bytes := block_bytes b; pack_bytes := pack_bytes b; block := block b; pb_blocks := pb_blocks b;
         packs := packs b ++ [{| pf_bytes := ap_file pack; pf_len := ap_len pack; pf_hash := hex (sha256 (ap_hasher pack)) |}];
         active := None |}
  end.

(** [pack.len > 0 && pack.len.saturating_add(compressed_len) > self.pack_bytes] *)
Definition must_rotate (b : PackBuilder) (compressed_len : N) : bool :=
  match active b with
  | Some pack => (0 <? ap_len pack) && (pack_bytes b <? saturating_add U64 (ap_len pack) compressed_len)
  | None => false
  end.

Definition write_block (b : PackBuilder) (compressed : list N) : res PackBuilder :=
  let pack := default new_pack (active b) in
  pack_len ← with_context (checked_add U64 (ap_len pack) (len compressed)) "pack length overflows";
  pack_id ← to_u32 (len (packs b));
  decoded_len ← to_u32 (len (block b));
  Ok {| block_bytes := block_bytes b; pack_bytes := pack_bytes b; block := [];
        pb_blocks := pb_blocks b ++
          [{| pack := pack_id; pb_offset := ap_len pack; compressed_len := len compressed; decoded_len := decoded_len;
              pb_hash := sha256 compressed |}];
        packs := packs b;
        active := Some {| ap_file := ap_file pack ++ compressed; ap_len := pack_len; ap_hasher := ap_hasher pack ++ compressed |} |}.

Definition flush_block (b : PackBuilder) : res PackBuilder :=
  if decide (block b = []) then Ok b
  else
    compressed ← compress (block b);
    compressed_len ← to_u32 (len compressed);
    write_block (if must_rotate b compressed_len then finish_pack b else b) compressed.

(** [while remaining > 0]: every pass but the first and the last fills a whole
    block. *)
Fixpoint append_loop (fuel : nat) (b : PackBuilder) (reader : list N) (remaining : N) : res PackBuilder :=
  match fuel with
  | O => Panic "append: out of fuel"
  | S fuel =>
      if 0 <? remaining then
        let available := wrapping_sub U64 (block_bytes b) (len (block b)) in
        let read := N.min remaining available in
        bytes ← with_context (get_range reader 0 read) "decoded document ended before its declared length";
        let b := set_block b (block b ++ bytes) in
        b ← (if len (block b) =? block_bytes b then flush_block b else Ok b);
        append_loop fuel b (drop (N.to_nat read) reader) (remaining - read)
      else Ok b
  end.

Definition append (b : PackBuilder) (reader : list N) (size : N) : res (PackBuilder * PackSlice) :=
  if size =? 0 then Ok (b, {| ps_first_block := 0; ps_block_offset := 0 |})
  else
    first_block ← to_u32 (len (pb_blocks b));
    block_offset ← to_u32 (len (block b));
    b ← append_loop (N.to_nat (size / block_bytes b + 3)) b reader size;
    Ok (b, {| ps_first_block := first_block; ps_block_offset := block_offset |}).

Definition finish (b : PackBuilder) : res BuiltPacks :=
  b ← flush_block b;
  let b := finish_pack b in
  Ok {| built_packs := packs b; built_blocks := pb_blocks b |}.

(** A whole build: the documents in order. *)
Definition append_document (s : PackBuilder * list PackSlice) (document : list N) : res (PackBuilder * list PackSlice) :=
  let '(b, slices) := s in
  '(b, slice) ← append b document (len document);
  Ok (b, slices ++ [slice]).
Definition build_packs (block_bytes pack_bytes : N) (contents : list (list N)) : res (list PackSlice * BuiltPacks) :=
  b ← new_builder block_bytes pack_bytes;
  '(b, slices) ← foldM append_document (b, []) contents;
  built ← finish b;
  Ok (slices, built).
End builder.

(** [format!("packs/{hash}.pack")] *)
Definition pack_blob (hash : list N) : list N := [112; 97; 99; 107; 115; 47] ++ hash ++ [46; 112; 97; 99; 107].

(** ** Locating a document *)

Record DocumentBlock : Type := { db_block_id : N; db_start : N; db_offset : N; db_len : N }.

Fixpoint span_loop (fuel : nat) (blocks : list PackBlock) (block_id offset remaining : N) : res N :=
  match fuel with
  | O => Panic "block_span: out of fuel"
  | S fuel =>
      if 0 <? remaining then
        block ← with_context (get blocks block_id) "document points outside pack blocks";
        available ← with_context (checked_sub (decoded_len block) offset) "document block offset is out of bounds";
        ensure (0 <? available) "document block has no available bytes";;
        span_loop fuel blocks (block_id + 1) 0 (remaining - N.min remaining available)
      else Ok block_id
  end.

Definition block_span (slice : PackSlice) (size : N) (blocks : list PackBlock) : res (N * N) :=
  if size =? 0 then
    ensure ((ps_first_block slice =? 0) && (ps_block_offset slice =? 0)) "empty document has pack coordinates";;
    Ok (0, 0)
  else
    end_ ← span_loop (S (S (length blocks))) blocks (ps_first_block slice) (ps_block_offset slice) size;
    Ok (ps_first_block slice, end_).

Definition document_block_step (blocks : list PackBlock) (s : list DocumentBlock * N * N * N) (block_id : N)
    : res (list DocumentBlock * N * N * N) :=
  let '(parts, remaining, start, offset) := s in
  block ← expect (get blocks block_id) "index out of bounds";
  let len_ := N.min remaining (wrapping_sub U64 (decoded_len block) offset) in
  Ok (parts ++ [{| db_block_id := block_id; db_start := start; db_offset := offset; db_len := len_ |}],
      remaining - len_, start + len_, 0).

Definition document_blocks (slice : PackSlice) (decoded_size : N) (blocks : list PackBlock) : res (list DocumentBlock) :=
  '(first, end_) ← block_span slice decoded_size blocks;
  '(parts, remaining, _, _) ← foldM (document_block_step blocks) ([], decoded_size, 0, ps_block_offset slice) (range first end_);
  ensure (remaining =? 0) "pack blocks ended before the document";;
  Ok parts.

(** ** Slices of the decoded stream *)

Lemma get_range_sub {A} (l s : list A) a b x y :
  get_range l a b = Some s -> x <= y -> y <= len s -> get_range s x y = get_range l (a + x) (a + y).
Proof.
  intros H Hx Hy. pose proof (get_range_len _ _ _ _ H) as Hl. apply get_range_Some in H as (H1 & H2 & ->).
  unfold get_range. destruct (N.leb_spec x y), (N.leb_spec (a + x) (a + y)); try lia.
  destruct (N.leb_spec y (len (take (N.to_nat (b - a)) (drop (N.to_nat a) l)))), (N.leb_spec (a + y) (len l)); try lia; [|done..].
  cbn. f_equal. replace (a + y - (a + x)) with (y - x) by lia.
  rewrite skipn_firstn_comm, firstn_firstn, drop_drop. f_equal; [lia|]. f_equal. lia.
Qed.

(** Consecutive parts, from [s] to [e]. *)
Fixpoint tiles (s : N) (parts : list DocumentBlock) (e : N) : Prop :=
  match parts with
  | [] => s = e
  | part :: parts => db_start part = s /\ 0 < db_len part /\ tiles (s + db_len part) parts e
  end.

Lemma tiles_snoc s parts e part :
  tiles s parts e -> db_start part = e -> 0 < db_len part -> tiles s (parts ++ [part]) (e + db_len part).
Proof.
  revert s. induction parts as [|p parts IH]; intros s; cbn; [intros -> <- H; done|].
  intros (-> & H0 & Ht) Hs Hp. split_and!; [done|done|]. by apply IH.
Qed.

(** Each part is the stretch of the document it names, cut from its block. *)
Definition part_ok (decoded : list (list N)) (doc : list N) (part : DocumentBlock) : Prop :=
  exists d bytes, get decoded (db_block_id part) = Some d /\
    get_range d (db_offset part) (db_offset part + db_len part) = Some bytes /\
    get_range doc (db_start part) (db_start part + db_len part) = Some bytes.

Record parts_ok (decoded : list (list N)) (doc : list N) (parts : list DocumentBlock) : Prop := {
  po_tiles : tiles 0 parts (len doc);
  po_parts : Forall (part_ok decoded doc) parts;
  po_ids : ascending (db_block_id <$> parts);
}.

Section locate.
Context (blocks : list PackBlock) (decoded : list (list N)).
Context (Hlens : decoded_lens blocks = len <$> decoded) (Hpos : Forall (fun b => 0 < decoded_len b) blocks).

Lemma decoded_at i b : get blocks i = Some b -> exists d, get decoded i = Some d /\ len d = decoded_len b.
Proof.
  intros H. unfold get in *. assert ((len <$> decoded) !! N.to_nat i = Some (decoded_len b)) as Hd.
  { rewrite <- Hlens. unfold decoded_lens. by rewrite list_lookup_fmap, H. }
  rewrite list_lookup_fmap in Hd. destruct (decoded !! N.to_nat i) as [d|]; [|done]. injection Hd as <-. eauto.
Qed.

Lemma position_stream i : position blocks i 0 = len (concat (take (N.to_nat i) decoded)).
Proof.
  unfold position. rewrite Hlens, <- fmap_take. induction (take _ decoded) as [|d l IH]; cbn [fmap list_fmap concat]; [done|].
  rewrite sumN_cons, len_app. lia.
Qed.

Lemma block_of_stream i d x y :
  get decoded i = Some d -> x <= y -> y <= len d ->
  get_range d x y = get_range (concat decoded) (position blocks i 0 + x) (position blocks i 0 + y).
Proof.
  intros Hd Hx Hy. apply get_range_sub with (b := position blocks i 0 + len d); [|done|done].
  assert (concat decoded = concat (take (N.to_nat i) decoded) ++ d ++ concat (drop (S (N.to_nat i)) decoded)) as ->.
  { rewrite <- (take_drop_middle decoded (N.to_nat i) d Hd) at 1. by rewrite concat_app. }
  apply get_range_mid; by rewrite position_stream.
Qed.

Section document.
Context (doc : list N) (from : N) (Hdoc : get_range (concat decoded) from (from + len doc) = Some doc).

Lemma stream_total : from + len doc <= sumN (decoded_lens blocks).
Proof.
  apply get_range_Some in Hdoc as (_ & H & _). rewrite <- position_end, position_stream. 
  rewrite take_ge; [exact H|]. pose proof (f_equal length Hlens) as E. unfold decoded_lens in E. rewrite !length_fmap in E. unfold len. lia.
Qed.

(** One block: as much of the document as it holds. *)
Lemma block_part i b offset start remaining :
  get blocks i = Some b -> offset < decoded_len b -> position blocks i offset = from + start ->
  start + remaining = len doc -> 0 < remaining ->
  let n := N.min remaining (decoded_len b - offset) in
  0 < n /\ part_ok decoded doc {| db_block_id := i; db_start := start; db_offset := offset; db_len := n |} /\
  (n < remaining -> coordinate_ok blocks (i + 1) 0 /\ position blocks (i + 1) 0 = from + (start + n)).
Proof.
  intros Hb Ho Hp Hr H0 n. destruct (decoded_at i b Hb) as (d & Hd & Hl). subst n. split; [lia|]. split.
  - set (n := N.min _ _). assert (n <= decoded_len b - offset /\ n <= remaining) as [Hn1 Hn2] by (subst n; lia).
    destruct (get_range_is_Some doc start (start + n)) as [bytes Hbytes]; [lia|lia|]. exists d, bytes.
    split_and!; [exact Hd| |exact Hbytes]. cbn. rewrite (block_of_stream i d) by (done || lia).
    rewrite <- Hbytes, (get_range_sub (concat decoded) doc from _ start (start + n) Hdoc) by lia.
    unfold position in Hp |- *. f_equal; lia.
  - intros Hlt. pose proof (coordinate_next blocks i b Hpos Hb). pose proof (position_next blocks i b Hb) as Hn.
    split; [done|]. rewrite Hn. unfold position in *. lia.
Qed.

(** A position before the end lies inside a block. *)
Lemma inside_block i offset :
  coordinate_ok blocks i offset -> position blocks i offset < sumN (decoded_lens blocks) ->
  exists b, get blocks i = Some b /\ offset < decoded_len b.
Proof.
  unfold coordinate_ok. destruct (get blocks i) as [b|]; [eauto|]. intros [-> ->]. rewrite position_end. lia.
Qed.

Context (Hsmall : Forall (fun b => decoded_len b < U64) blocks).

(** The span and the parts, walked together. *)
Lemma span_parts fuel i offset start remaining parts :
  (0 < remaining -> coordinate_ok blocks i offset /\ position blocks i offset = from + start /\ len blocks + 1 <= i + N.of_nat fuel) ->
  (0 < fuel)%nat -> start + remaining = len doc ->
  tiles 0 parts start -> Forall (part_ok decoded doc) parts -> ascending (db_block_id <$> parts) ->
  (forall k, k ∈ db_block_id <$> parts -> k < i) ->
  exists end_ parts' start' offset', span_loop fuel blocks i offset remaining = Ok end_ /\ i <= end_ /\
    (0 < remaining -> i < end_) /\ (i <= len blocks -> end_ <= len blocks) /\
    foldM (document_block_step blocks) (parts, remaining, start, offset) (range i end_) = Ok (parts', 0, start', offset') /\
    parts_ok decoded doc parts'.
Proof.
  revert i offset start remaining parts.
  induction fuel as [|fuel IH]; intros i offset start remaining parts Hc Hf Hr Ht Hparts Hids Hlt; [lia|].
  cbn [span_loop]. destruct (N.ltb_spec 0 remaining) as [H0|H0].
  2: { assert (remaining = 0) as -> by lia. exists i, parts, start, offset. rewrite range_nil by lia.
       split_and!; [done|lia|lia|done|done|]. split; [|done|done]. by replace (len doc) with start by lia. }
  specialize (Hc H0). destruct Hc as (Hc & Hp & Hfuel). pose proof stream_total as Htot.
  destruct (inside_block i offset Hc) as (b & Hb & Ho); [lia|]. rewrite Hb. cbn [with_context mbind res_bind].
  pose proof (get_Some_lt _ _ _ Hb) as Hi.
  unfold checked_sub. destruct (N.leb_spec offset (decoded_len b)); [|lia]. cbn [with_context mbind res_bind].
  destruct (N.ltb_spec 0 (decoded_len b - offset)); [|lia]. cbn [ensure mbind res_bind].
  destruct (block_part i b offset start remaining Hb Ho Hp Hr H0) as (Hn & Hpart & Hnext).
  set (n := N.min remaining (decoded_len b - offset)) in *.
  destruct (IH (i + 1) 0 (start + n) (remaining - n)
    (parts ++ [{| db_block_id := i; db_start := start; db_offset := offset; db_len := n |}]))
    as (end_ & parts' & start' & offset' & -> & He1 & He2 & He3 & Hfold & Hok).
  - intros Hlt'. destruct Hnext as [Hcn Hpn]; [lia|]. split_and!; [done|lia|lia].
  - lia.
  - lia.
  - by apply tiles_snoc.
  - apply Forall_app. auto.
  - rewrite fmap_app. apply ascending_snoc; [done|]. intros x Hx. apply Hlt. apply last_Some in Hx as [l ->]. set_solver.
  - rewrite fmap_app. intros k [Hk|Hk]%elem_of_app; [apply Hlt in Hk; lia|]. cbn in Hk. set_solver by lia.
  - exists end_, parts', start', offset'. split_and!; [done|lia|lia|lia| |done].
    rewrite range_cons by lia. cbn [foldM].
    assert (document_block_step blocks (parts, remaining, start, offset) i =
      Ok (parts ++ [{| db_block_id := i; db_start := start; db_offset := offset; db_len := n |}], remaining - n, start + n, 0)) as ->.
    { unfold document_block_step. rewrite Hb. cbn [expect mbind res_bind].
      assert (decoded_len b < U64) by (rewrite Forall_forall in Hsmall; apply Hsmall; by eapply get_elem).
      by rewrite wrapping_sub_small by lia. }
    cbn [mbind res_bind]. exact Hfold.
Qed.
End document.

Definition slice_ok (slice : PackSlice) (from size : N) : Prop :=
  if size =? 0 then ps_first_block slice = 0 /\ ps_block_offset slice = 0
  else coordinate_ok blocks (ps_first_block slice) (ps_block_offset slice) /\
       position blocks (ps_first_block slice) (ps_block_offset slice) = from.

Lemma document_blocks_ok slice doc from :
  Forall (fun b => decoded_len b < U64) blocks ->
  get_range (concat decoded) from (from + len doc) = Some doc -> slice_ok slice from (len doc) ->
  exists parts, document_blocks slice (len doc) blocks = Ok parts /\ parts_ok decoded doc parts.
Proof.
  intros Hsmall Hdoc Hs. unfold document_blocks, block_span. unfold slice_ok in Hs.
  destruct (N.eqb_spec (len doc) 0) as [E|E].
  - destruct Hs as [H1 H2]. apply N.eqb_eq in H1, H2. rewrite H1, H2. cbn [andb ensure mbind res_bind].
    rewrite range_nil by lia. cbn. rewrite E. exists []. split; [done|]. split; [done|done|constructor].
  - destruct Hs as [Hc Hp]. destruct (span_parts doc from Hdoc Hsmall (S (S (length blocks))) (ps_first_block slice) (ps_block_offset slice)
      0 (len doc) []) as (end_ & parts' & start' & offset' & -> & _ & _ & _ & Hfold & Hok); [|lia|lia|done|constructor|constructor|cbn; set_solver|].
    + intros _. split_and!; [done|lia|unfold len; lia].
    + cbn [mbind res_bind]. rewrite Hfold. cbn. eauto.
Qed.
End locate.

(** ** The builder's invariant *)

(** What [zstd] and [sha2] promise: compressing yields bytes that decompress to
    the input, decompressing does not panic, digests have 32 bytes. *)
Class Codec (compress : list N -> res (list N)) (decompress : list N -> N -> res (list N)) (sha256 : list N -> list N) : Prop := {
  compress_roundtrip : forall b, safe (compress b) (fun c => 0 < len c /\ decompress c (len b) = Ok b);
  decompress_no_panic : forall c n, no_panic (decompress c n);
  digest_len : forall b, len (sha256 b) = 32;
}.

(** A block of the table, its compressed bytes in the pack files and what they
    decode to. *)
Definition stored (decompress : list N -> N -> res (list N)) (sha256 : list N -> list N) (files : list (list N))
    (b : PackBlock) (decoded : list N) : Prop :=
  exists file compressed, get files (pack b) = Some file /\
    get_range file (pb_offset b) (pb_offset b + compressed_len b) = Some compressed /\
    pb_hash b = sha256 compressed /\ compressed_len b = len compressed /\
    decoded_len b = len decoded /\ decompress compressed (len decoded) = Ok decoded.

Definition files_extend (files files' : list (list N)) : Prop :=
  forall i file, get files i = Some file -> exists tail, get files' i = Some (file ++ tail).

Lemma get_range_app_l {A} (l1 l2 s : list A) a b : get_range l1 a b = Some s -> get_range (l1 ++ l2) a b = Some s.
Proof.
  rewrite !get_range_Some, len_app. intros (H1 & H2 & ->). split_and!; [done|lia|].
  rewrite drop_app_le by (unfold len in *; lia). rewrite take_app_le; [done|]. rewrite length_drop. unfold len in *. lia.
Qed.
Lemma stored_extend decompress sha256 files files' b d :
  files_extend files files' -> stored decompress sha256 files b d -> stored decompress sha256 files' b d.
Proof.
  intros He (file & c & Hf & Hc & H). destruct (He _ _ Hf) as [tail Ht]. exists (file ++ tail), c.
  split; [exact Ht|]. split; [by apply get_range_app_l|exact H].
Qed.

Section build.
Context (compress : list N -> res (list N)) (decompress : list N -> N -> res (list N)) (sha256 : list N -> list N).
Context `{!Codec compress decompress sha256}.

Definition option_list {A} (o : option A) : list A := match o with Some a => [a] | None => [] end.
Definition files_of (b : PackBuilder) : list (list N) := (pf_bytes <$> packs b) ++ (ap_file <$> option_list (active b)).

Definition pack_file_ok (file : PackFile) : Prop :=
  pf_len file = len (pf_bytes file) /\ pf_hash file = hex (sha256 (pf_bytes file)).
Definition active_ok (pack : ActivePack) : Prop := ap_len pack = len (ap_file pack) /\ ap_hasher pack = ap_file pack.

Record builder_ok (b : PackBuilder) (decoded : list (list N)) : Prop := {
  bk_stored : Forall2 (stored decompress sha256 (files_of b)) (pb_blocks b) decoded;
  bk_blocks : blocks_ok (pb_blocks b);
  bk_packs : Forall pack_file_ok (packs b);
  bk_active : Forall active_ok (option_list (active b));
  bk_last : match last (pb_blocks b) with
    | None => active b = None /\ packs b = []
    | Some l => exists a, active b = Some a /\ pack l = len (packs b) /\ ap_len a = pb_offset l + compressed_len l
    end;
  bk_bound : Forall (fun l => pb_offset l = 0 \/ pb_offset l + compressed_len l <= pack_bytes b) (pb_blocks b);
}.

Lemma files_extend_finish b : files_of (finish_pack sha256 b) = files_of b.
Proof.
  unfold files_of, finish_pack. destruct (active b) as [a|] eqn:E; cbn; [|by rewrite E].
  by rewrite fmap_app, app_nil_r.
Qed.

Lemma blocks_ok_snoc blocks b :
  blocks_ok blocks -> 0 < compressed_len b -> 0 < decoded_len b <= PACK_BLOCK_BYTES -> pb_offset b + compressed_len b < U64 ->
  match last blocks with None => pb_offset b = 0 | Some l => follows l b end -> blocks_ok (blocks ++ [b]).
Proof.
  intros (Hall & Hhead & Hadj) H1 H2 H3 Hl. split_and!.
  - apply Forall_app. split; [done|]. by constructor.
  - destruct blocks as [|x blocks]; [by intros ? [= <-]|exact Hhead].
  - intros i x y Hx Hy. apply get_snoc in Hx as [Hx|[-> ->]].
    + apply get_snoc in Hy as [Hy|[Hi ->]]; [by eapply Hadj|]. assert (last blocks = Some x) as E.
      { rewrite last_lookup. unfold get, len in *. rewrite <- Hx. f_equal. apply get_Some_lt in Hx. unfold len in Hx. lia. }
      by rewrite E in Hl.
    + apply get_Some_lt in Hy. rewrite len_app in Hy. change (len [b]) with 1 in Hy. lia.
Qed.

(** Writing a compressed block where it follows the last one. *)
Lemma write_block_safe b compressed l :
  Forall2 (stored decompress sha256 (files_of b)) (pb_blocks b) l -> blocks_ok (pb_blocks b) ->
  Forall pack_file_ok (packs b) -> Forall active_ok (option_list (active b)) ->
  match last (pb_blocks b), active b with
  | None, a => a = None /\ packs b = []
  | Some l, Some a => pack l = len (packs b) /\ ap_len a = pb_offset l + compressed_len l
  | Some l, None => len (packs b) = pack l + 1
  end ->
  Forall (fun l => pb_offset l = 0 \/ pb_offset l + compressed_len l <= pack_bytes b) (pb_blocks b) ->
  match active b with Some a => ap_len a + len compressed <= pack_bytes b \/ ap_len a = 0 \/ U64 <= ap_len a + len compressed | None => True end ->
  0 < len compressed -> decompress compressed (len (block b)) = Ok (block b) ->
  block b <> [] -> len (block b) <= PACK_BLOCK_BYTES ->
  safe (write_block sha256 b compressed) (fun b' => builder_ok b' (l ++ [block b]) /\ block b' = [] /\
    block_bytes b' = block_bytes b /\ pack_bytes b' = pack_bytes b /\ len (pb_blocks b') = len (pb_blocks b) + 1).
Proof.
  intros Hst Hb Hp Ha Hl Hbd Hrot Hc Hd Hne Hlen. unfold write_block. set (a := default new_pack (active b)).
  assert (active_ok a) as [Halen Hahash].
  { subst a. destruct (active b); [by apply Forall_cons in Ha as [Ha _]|done]. }
  assert (files_extend (files_of b) ((pf_bytes <$> packs b) ++ [ap_file a ++ compressed])) as Hext.
  { unfold files_of. intros i file. destruct (active b) as [a'|] eqn:E; cbn.
    - intros [Hi|[-> ->]]%get_snoc; [exists []; rewrite get_app_l, app_nil_r by (by eapply get_Some_lt); done|].
      exists compressed. apply get_middle.
    - rewrite app_nil_r. intros Hi. exists []. rewrite get_app_l, app_nil_r by (by eapply get_Some_lt). done. }
  safe_next. intros pack_len [-> Hfit]%checked_add_Some.
  eapply (safe_bind _ _ (fun x => x = len (packs b) /\ len (packs b) < U32)).
  { unfold to_u32. destruct (N.ltb_spec (len (packs b)) U32); [by apply safe_ok|left; by eexists]. }
  intros ? [-> Hpk]. eapply (safe_bind _ _ (fun x => x = len (block b))).
  { unfold to_u32. destruct (_ <? U32); [by apply safe_ok|left; by eexists]. }
  intros ? ->. apply safe_ok. cbn [block block_bytes pack_bytes pb_blocks]. split; [|rewrite len_app; done].
  assert (0 < len (block b)) as Hpos by (destruct (block b); [done|len_lia]).
  split; cbn [pb_blocks packs active pack_bytes option_list].
  - apply Forall2_app.
    + eapply Forall2_impl; [exact Hst|]. intros x y. by apply stored_extend.
    + constructor; [|constructor]. exists (ap_file a ++ compressed), compressed. cbn. split_and!; [| |done..|done].
      * unfold files_of. cbn. rewrite <- (len_fmap pf_bytes). apply get_middle.
      * by apply get_range_suffix; rewrite Halen.
  - apply blocks_ok_snoc; cbn; [done|done|lia|lia|]. destruct (last (pb_blocks b)) as [lb|] eqn:El; subst a.
    + unfold follows. cbn. destruct (active b) as [a'|]; cbn in *; [left; destruct Hl; split; congruence|right]. split; [|done].
      rewrite wrapping_add_small by lia. lia.
    + by destruct Hl as [-> _].
  - done.
  - constructor; [|done]. split; cbn; [len_lia|by rewrite Hahash].
  - rewrite last_snoc. eexists. split; [done|]. done.
  - apply Forall_app. split; [done|]. constructor; [|done]. cbn. subst a. destruct (active b) as [a'|]; cbn in *; [lia|by left].
Qed.

Lemma flush_block_safe b l :
  builder_ok b l -> 0 < len (block b) <= PACK_BLOCK_BYTES ->
  safe (flush_block compress sha256 b) (fun b' => builder_ok b' (l ++ [block b]) /\ block b' = [] /\
    block_bytes b' = block_bytes b /\ pack_bytes b' = pack_bytes b /\ len (pb_blocks b') = len (pb_blocks b) + 1).
Proof.
  intros [Hst Hb Hp Ha Hl Hbd] Hlen. unfold flush_block. destruct (decide (block b = [])) as [E|Hne]; [rewrite E, len_nil in Hlen; lia|].
  eapply safe_bind; [apply compress_roundtrip|]. intros c [Hc Hd].
  eapply (safe_bind _ _ (fun x => x = len c)).
  { unfold to_u32. destruct (_ <? U32); [by apply safe_ok|left; by eexists]. }
  intros ? ->. destruct (must_rotate b (len c)) eqn:Er.
  - assert (exists a, active b = Some a) as [a Ea] by (unfold must_rotate in Er; destruct (active b); eauto; done).
    assert (block (finish_pack sha256 b) = block b /\ pb_blocks (finish_pack sha256 b) = pb_blocks b /\
      pack_bytes (finish_pack sha256 b) = pack_bytes b /\ block_bytes (finish_pack sha256 b) = block_bytes b) as (E1 & E2 & E3 & E4)
      by (unfold finish_pack; by rewrite Ea).
    pose proof (write_block_safe (finish_pack sha256 b) c l) as H. rewrite files_extend_finish, E1, E2, E3, E4 in H.
    apply H; clear H; try done; unfold finish_pack; rewrite Ea in *; cbn; try done.
    + apply Forall_app. split; [done|]. apply Forall_cons in Ha as [[Ha1 Ha2] _]. constructor; [|done]. split; cbn; [done|by rewrite Ha2].
    + destruct (last (pb_blocks b)); [|by destruct Hl]. destruct Hl as (a' & _ & -> & _). rewrite len_app. done.
    + lia.
  - apply write_block_safe; try done; [| |lia].
    + destruct (last (pb_blocks b)); [destruct Hl as (a & -> & ? & ?); done|]. destruct Hl as [-> ->]. done.
    + unfold must_rotate in Er. destruct (active b) as [a|]; [|done]. apply andb_false_iff in Er. unfold saturating_add in Er. lia.
Qed.

(** Between appends every block of the table is full and the open one is not. *)
Record filling (b : PackBuilder) (decoded : list (list N)) : Prop := {
  fl_ok : builder_ok b decoded;
  fl_full : Forall (fun d => len d = block_bytes b) decoded;
  fl_open : len (block b) < block_bytes b;
  fl_size : block_bytes b <= PACK_BLOCK_BYTES;
}.

Definition stream (b : PackBuilder) (decoded : list (list N)) : list N := concat decoded ++ block b.

Lemma builder_ok_set_block b decoded bytes : builder_ok b decoded -> builder_ok (set_block b bytes) decoded.
Proof. intros [H1 H2 H3 H4 H5 H6]. by split. Qed.

Lemma append_loop_safe fuel b decoded reader remaining :
  filling b decoded -> (0 < fuel)%nat ->
  (0 < remaining -> remaining + len (block b) < block_bytes b * (N.of_nat fuel - 1)) ->
  safe (append_loop compress sha256 fuel b reader remaining) (fun b' => exists decoded' bytes,
    filling b' decoded' /\ get_range reader 0 remaining = Some bytes /\ stream b' decoded' = stream b decoded ++ bytes /\
    block_bytes b' = block_bytes b /\ pack_bytes b' = pack_bytes b /\ decoded `prefix_of` decoded').
Proof.
  revert b decoded reader remaining. induction fuel as [|fuel IH]; intros b decoded reader remaining Hb Hfuel Hr; [lia|].
  cbn [append_loop]. destruct (N.ltb_spec 0 remaining) as [H0|H0].
  2: { assert (remaining = 0) as -> by lia. apply safe_ok. exists decoded, []. rewrite app_nil_r. split_and!; try done.
       apply get_range_Some. split_and!; [lia|lia|done]. }
  specialize (Hr H0). destruct Hb as [Hok Hfull Hopen Hsize]. change PACK_BLOCK_BYTES with 131072 in Hsize.
  assert (0 < fuel)%nat as Hfuel1 by (destruct fuel; [change (N.of_nat 1 - 1) with 0 in Hr; lia|lia]).
  rewrite wrapping_sub_small by lia. set (n := N.min remaining (block_bytes b - len (block b))).
  safe_next. intros bytes Hbytes. pose proof (get_range_len _ _ _ _ Hbytes) as Hn. rewrite N.sub_0_r in Hn.
  assert (forall rest, get_range (drop (N.to_nat n) reader) 0 (remaining - n) = Some rest -> get_range reader 0 remaining = Some (bytes ++ rest)) as Hjoin.
  { intros rest (_ & H2 & ->)%get_range_Some. apply get_range_Some in Hbytes as (_ & H4 & ->). rewrite len_drop in H2.
    apply get_range_Some. split_and!; [lia|lia|]. rewrite !drop_0, !N.sub_0_r.
    rewrite <- (take_drop (N.to_nat n) (take (N.to_nat remaining) reader)) at 1.
    rewrite take_take, skipn_firstn_comm. f_equal; f_equal; lia. }
  set (b1 := set_block b (block b ++ bytes)).
  assert (builder_ok b1 decoded) as Hok1 by by apply builder_ok_set_block.
  assert (len (block b1) = len (block b) + n) as Hl1 by (cbn; len_lia).
  destruct (N.eqb_spec (len (block b1)) (block_bytes b1)) as [Efull|Epart]; cbn [block_bytes b1 set_block] in *.
  - eapply safe_bind; [apply flush_block_safe; [exact Hok1|change PACK_BLOCK_BYTES with 131072; lia]|].
    intros b2 (Hok2 & Hblk & Hbb & Hpb & _). change (block_bytes b1) with (block_bytes b) in Hbb. change (pack_bytes b1) with (pack_bytes b) in Hpb.
    eapply safe_weaken; [apply (IH b2 (decoded ++ [block b1])); [|exact Hfuel1|]|].
    + split; [done|apply Forall_app; split; [by rewrite Hbb|by constructor; [rewrite Hbb|]]|rewrite Hblk, Hbb, len_nil; lia|rewrite Hbb; done].
    + intros _. rewrite Hblk, Hbb, len_nil. nia.
    + intros b' (decoded' & rest & Hf & Hrest & Hs & E1 & E2 & Hpre). exists decoded', (bytes ++ rest).
      split_and!; [done|by apply Hjoin| |by rewrite E1|by rewrite E2|by eapply prefix_app_l].
      rewrite Hs. unfold stream. rewrite Hblk, concat_app. cbn. by rewrite !app_nil_r, <- !app_assoc.
  - assert (remaining - n = 0) as E0 by lia. cbn [mbind res_bind].
    eapply safe_weaken; [apply (IH b1 decoded); [|exact Hfuel1|lia]|].
    + split; cbn [b1 set_block block_bytes]; [done|done|lia|done].
    + intros b' (decoded' & rest & Hf & Hrest & Hs & E1 & E2 & Hpre). exists decoded', (bytes ++ rest).
      split_and!; [done|by apply Hjoin| |done|done|done]. rewrite Hs. unfold stream. cbn. by rewrite <- !app_assoc.
Qed.

(** Where a document was put: at offset [from] of the stream. *)
Definition placed (bb from size : N) (slice : PackSlice) : Prop :=
  if size =? 0 then ps_first_block slice = 0 /\ ps_block_offset slice = 0
  else ps_block_offset slice < bb /\ bb * ps_first_block slice + ps_block_offset slice = from.

Lemma len_full k (l : list (list N)) : Forall (fun d => len d = k) l -> len (concat l) = k * len l.
Proof. induction 1 as [|d l Hd Hl IH]; cbn; [len_lia|]. rewrite len_app, len_cons, Hd, IH. lia. Qed.

Lemma append_safe b decoded doc :
  filling b decoded ->
  safe (append compress sha256 b doc (len doc)) (fun '(b', slice) => exists decoded', filling b' decoded' /\
    stream b' decoded' = stream b decoded ++ doc /\ block_bytes b' = block_bytes b /\ pack_bytes b' = pack_bytes b /\
    placed (block_bytes b) (len (stream b decoded)) (len doc) slice).
Proof.
  intros Hb. unfold append, placed. destruct (N.eqb_spec (len doc) 0) as [E|E].
  { apply safe_ok. exists decoded. split_and!; try done. destruct doc; [by rewrite app_nil_r|rewrite len_cons in E; lia]. }
  eapply (safe_bind _ _ (fun x => x = len (pb_blocks b))).
  { unfold to_u32. destruct (_ <? U32); [by apply safe_ok|left; by eexists]. }
  intros ? ->. eapply (safe_bind _ _ (fun x => x = len (block b))).
  { unfold to_u32. destruct (_ <? U32); [by apply safe_ok|left; by eexists]. }
  intros ? ->. pose proof (fl_open _ _ Hb) as Hopen. eapply safe_bind; [apply append_loop_safe; [exact Hb|lia|]|].
  - intros _. rewrite N2Nat.id. pose proof (N.div_mod (len doc) (block_bytes b) ltac:(lia)).
    pose proof (N.mod_lt (len doc) (block_bytes b) ltac:(lia)). nia.
  - intros b' (decoded' & bytes & Hf & Hbytes & Hs & E1 & E2 & _). apply safe_ok. exists decoded'.
    rewrite get_range_all in Hbytes by done. injection Hbytes as <-. split_and!; try done. cbn.
    pose proof (Forall2_length _ _ _ (bk_stored _ _ (fl_ok _ _ Hb))) as Hl.
    unfold stream. rewrite len_app, (len_full (block_bytes b) decoded) by exact (fl_full _ _ Hb).
    unfold len at 1. rewrite Hl. reflexivity.
Qed.

Definition placed_all (bb : N) (contents : list (list N)) (slices : list PackSlice) : Prop :=
  len slices = len contents /\
  forall i doc slice, get contents i = Some doc -> get slices i = Some slice ->
    placed bb (sumN (take (N.to_nat i) (len <$> contents))) (len doc) slice.

Lemma sum_lens (l : list (list N)) : sumN (len <$> l) = len (concat l).
Proof. induction l as [|d l IH]; cbn [fmap list_fmap concat]; [done|]. by rewrite sumN_cons, len_app, IH. Qed.

Lemma sum_lens_take (l : list (list N)) k : sumN (take k (len <$> l)) = len (concat (take k l)).
Proof. by rewrite <- fmap_take, sum_lens. Qed.

Lemma sum_before_le (contents : list (list N)) i doc :
  get contents i = Some doc -> sumN (take (N.to_nat i) (len <$> contents)) + len doc <= len (concat contents).
Proof.
  intros H. rewrite <- sum_lens, <- sumN_snoc, <- (take_S_r (len <$> contents)); [apply sumN_take_le|].
  unfold get in H. by rewrite list_lookup_fmap, H.
Qed.

Lemma placed_all_snoc bb contents slices doc slice :
  placed_all bb contents slices -> placed bb (len (concat contents)) (len doc) slice -> placed_all bb (contents ++ [doc]) (slices ++ [slice]).
Proof.
  intros [Hlen Hpl] Hp. split; [rewrite !len_app, Hlen; done|]. intros i d sl Hd Hsl. apply get_snoc in Hd as [Hd|[-> ->]].
  - pose proof (get_Some_lt _ _ _ Hd) as Hi. rewrite get_app_l in Hsl by lia.
    rewrite fmap_app, take_app_le by (rewrite length_fmap; unfold len in *; lia). by apply Hpl.
  - rewrite <- Hlen, get_middle in Hsl. injection Hsl as <-.
    rewrite fmap_app, to_nat_len, take_app_length' by (by rewrite length_fmap). by rewrite sum_lens.
Qed.

Lemma append_all_safe b contents :
  filling b [] -> stream b [] = [] ->
  safe (foldM (append_document compress sha256) (b, []) contents) (fun '(b', slices) => exists decoded,
    filling b' decoded /\ stream b' decoded = concat contents /\ block_bytes b' = block_bytes b /\
    pack_bytes b' = pack_bytes b /\ placed_all (block_bytes b) contents slices).
Proof.
  intros Hb Hs. apply (foldM_safe (fun pre '(b', slices) => exists decoded,
    filling b' decoded /\ stream b' decoded = concat pre /\ block_bytes b' = block_bytes b /\
    pack_bytes b' = pack_bytes b /\ placed_all (block_bytes b) pre slices)).
  { exists []. split_and!; try done. }
  intros pre doc post [b' slices] _ (decoded & Hf & Hst & E1 & E2 & Hpl). unfold append_document.
  eapply safe_bind; [by apply append_safe|]. intros [b2 slice] (decoded' & Hf' & Hst' & E1' & E2' & Hp).
  apply safe_ok. exists decoded'. split_and!; [done| |by rewrite E1'|by rewrite E2'|].
  - rewrite Hst', Hst, concat_app. cbn. by rewrite app_nil_r.
  - rewrite E1, Hst in Hp. by apply placed_all_snoc.
Qed.

(** ** The finished packs *)

Record built_ok (limit : N) (contents : list (list N)) (decoded : list (list N)) (slices : list PackSlice) (built : BuiltPacks) : Prop := {
  bo_stored : Forall2 (stored decompress sha256 (pf_bytes <$> built_packs built)) (built_blocks built) decoded;
  bo_stream : concat decoded = concat contents;
  bo_blocks : blocks_ok (built_blocks built);
  bo_packs : Forall pack_file_ok (built_packs built);
  bo_bound : Forall (fun l => pb_offset l = 0 \/ pb_offset l + compressed_len l <= limit) (built_blocks built);
  bo_slices : len slices = len contents /\ forall i doc slice, get contents i = Some doc -> get slices i = Some slice ->
    slice_ok (built_blocks built) slice (sumN (take (N.to_nat i) (len <$> contents))) (len doc);
}.

Lemma finish_safe b decoded :
  filling b decoded ->
  safe (finish compress sha256 b) (fun built => let l := if decide (block b = []) then decoded else decoded ++ [block b] in
    Forall2 (stored decompress sha256 (pf_bytes <$> built_packs built)) (built_blocks built) l /\
    blocks_ok (built_blocks built) /\ Forall pack_file_ok (built_packs built) /\
    Forall (fun l => pb_offset l = 0 \/ pb_offset l + compressed_len l <= pack_bytes b) (built_blocks built)).
Proof.
  intros [Hok Hfull Hopen Hsize]. unfold finish.
  eapply (safe_bind _ _ (fun b' => builder_ok b' (if decide (block b = []) then decoded else decoded ++ [block b]) /\ pack_bytes b' = pack_bytes b)).
  - destruct (decide (block b = [])) as [E|Hne].
    + unfold flush_block. rewrite decide_True by done. apply safe_ok. done.
    + eapply safe_weaken; [apply flush_block_safe; [exact Hok|]|].
      * split; [destruct (block b); [done|len_lia]|lia].
      * intros b' (H & _ & _ & E & _). done.
  - intros b' [[H1 H2 H3 H4 H5 H6] E]. apply safe_ok. cbn [built_packs built_blocks].
    assert (pb_blocks (finish_pack sha256 b') = pb_blocks b') as -> by (unfold finish_pack; by destruct (active b')).
    rewrite <- (files_extend_finish b') in H1. assert (active (finish_pack sha256 b') = None) as En.
    { unfold finish_pack. destruct (active b') eqn:Ea; [done|exact Ea]. }
    unfold files_of in H1. rewrite En, app_nil_r in H1. rewrite <- E. split_and!; [exact H1|done| |done].
    unfold finish_pack. destruct (active b') as [a|]; [|done]. cbn. apply Forall_app. split; [done|].
    apply Forall_cons in H4 as [[Ha1 Ha2] _]. constructor; [|done]. split; cbn; [done|by rewrite Ha2].
Qed.

Lemma stored_lens files blocks decoded :
  Forall2 (stored decompress sha256 files) blocks decoded -> decoded_lens blocks = len <$> decoded.
Proof.
  induction 1 as [|b d blocks decoded (f & c & _ & _ & _ & _ & Hl & _) _ IH]; [done|].
  unfold decoded_lens in *. cbn [fmap list_fmap]. by rewrite Hl, IH.
Qed.

(** A placed slice is a coordinate of the finished table. *)
Lemma placed_slice_ok bb blocks (full tail : list (list N)) from size slice :
  decoded_lens blocks = len <$> (full ++ tail) -> Forall (fun d => len d = bb) full -> (length tail <= 1)%nat ->
  from + size <= len (concat (full ++ tail)) -> placed bb from size slice -> Forall (fun d => len d <= bb) tail ->
  slice_ok blocks slice from size.
Proof.
  intros Hlens Hfull Htail Hfit Hp Hle. unfold slice_ok. unfold placed in Hp. destruct (N.eqb_spec size 0) as [E|E]; [done|].
  destruct Hp as [Ho Hfrom]. set (i := ps_first_block slice) in *. set (o := ps_block_offset slice) in *.
  rewrite concat_app, len_app, (len_full bb) in Hfit by done.
  assert (len (concat tail) <= bb) as Htl.
  { destruct tail as [|t [|]]; cbn; [len_lia| |cbn in Htail; lia]. apply Forall_cons in Hle as [Ht _].
    rewrite app_nil_r. exact Ht. }
  assert (i <= len full) as Hi by nia.
  assert (position blocks i 0 = bb * i) as Hpos.
  { unfold position. rewrite Hlens, fmap_app, take_app_le by (rewrite length_fmap; unfold len in *; lia).
    rewrite <- fmap_take, sum_lens, (len_full bb) by by apply Forall_take.
    assert (len (take (N.to_nat i) full) = i) as -> by (unfold len in *; rewrite length_take; lia). lia. }
  split; [|unfold position in *; lia]. unfold coordinate_ok.
  assert (forall d, get (full ++ tail) i = Some d -> exists b, get blocks i = Some b /\ decoded_len b = len d) as Hget.
  { intros d Hd. unfold get in *. pose proof (f_equal (fun l => l !! N.to_nat i) Hlens) as Hx. cbn beta in Hx.
    unfold decoded_lens in Hx. rewrite !list_lookup_fmap, Hd in Hx. destruct (blocks !! N.to_nat i) as [b|]; [|done].
    injection Hx as Hx. eauto. }
  destruct (decide (i = len full)) as [Ei|Ne].
  - destruct tail as [|t [|]]; [cbn in Hfit; rewrite len_nil in Hfit; lia| |cbn in Htail; lia].
    destruct (Hget t) as (b & -> & ->); [rewrite Ei; apply get_middle|]. cbn in Hfit. rewrite app_nil_r in Hfit. lia.
  - destruct (get_is_Some full i) as [d Hd]; [lia|]. destruct (Hget d) as (b & -> & ->); [by rewrite get_app_l by lia|].
    rewrite Forall_forall in Hfull. rewrite (Hfull d) by by eapply get_elem. exact Ho.
Qed.

Lemma new_builder_safe bb pb :
  bb <= PACK_BLOCK_BYTES ->
  safe (new_builder bb pb) (fun b => filling b [] /\ stream b [] = [] /\ block_bytes b = bb /\ pack_bytes b = pb).
Proof.
  intros Hbb. unfold new_builder. safe_next. intros [] H1. safe_next. intros [] H2. apply safe_ok.
  split; [|done]. split; [|constructor|cbn; len_lia|done]. split; try constructor; try done.
Qed.

(** Finishing a builder that holds some documents. *)
Lemma finish_built_safe b decoded contents slices :
  filling b decoded -> stream b decoded = concat contents -> placed_all (block_bytes b) contents slices ->
  safe (finish compress sha256 b) (fun built => exists decoded', built_ok (pack_bytes b) contents decoded' slices built).
Proof.
  intros Hf Hst [Hlen Hpl]. eapply safe_weaken; [by apply finish_safe|]. intros built (H1 & H2 & H3 & H4). eexists. split; [exact H1| |done|done|done|].
  - rewrite <- Hst. unfold stream. destruct (decide _) as [->|]; [by rewrite app_nil_r|]. rewrite concat_app. cbn. by rewrite app_nil_r.
  - split; [done|]. intros i doc slice Hd Hsl. pose proof (stored_lens _ _ _ H1) as Hlens.
    assert ((if decide (block b = []) then decoded else decoded ++ [block b]) = decoded ++ (if decide (block b = []) then [] else [block b])) as El
      by (destruct (decide _); [by rewrite app_nil_r|done]).
    eapply (placed_slice_ok (block_bytes b)).
    + rewrite Hlens, El. done.
    + apply Hf.
    + destruct (decide _); cbn; lia.
    + rewrite <- El. assert (concat (if decide (block b = []) then decoded else decoded ++ [block b]) = concat contents) as ->.
      { rewrite <- Hst. unfold stream. destruct (decide _) as [->|]; [by rewrite app_nil_r|]. rewrite concat_app. cbn. by rewrite app_nil_r. }
      by apply sum_before_le.
    + by apply Hpl.
    + destruct (decide _); constructor; [|constructor]. pose proof (fl_open _ _ Hf). lia.
Qed.

Lemma build_packs_safe bb pb contents :
  bb <= PACK_BLOCK_BYTES ->
  safe (build_packs compress sha256 bb pb contents) (fun '(slices, built) => exists decoded, built_ok pb contents decoded slices built).
Proof.
  intros Hbb. unfold build_packs. eapply safe_bind; [by apply new_builder_safe|].
  intros b (Hb & Hs & <- & <-). eapply safe_bind; [by apply append_all_safe|].
  intros [b' slices] (decoded & Hf & Hst & E1 & E2 & Hpl). eapply safe_bind; [eapply finish_built_safe; [exact Hf|exact Hst|by rewrite E1]|].
  intros built [decoded' H]. apply safe_ok. exists decoded'. by rewrite <- E2.
Qed.
End build.

(** ** The validator accepts what the builder wrote *)

Lemma check_blocks_total blocks : blocks_ok blocks -> exists s, foldM check_block (None, 0) blocks = Ok s.
Proof.
  intros (Hall & Hhead & Hadj).
  destruct (foldM_total (fun pre '(previous, expected) => match last pre with
      | None => previous = None /\ expected = 0
      | Some a => previous = Some (pack a) /\ expected = pb_offset a + compressed_len a
      end) check_block (None, 0) blocks) as (s & Hs & _); [done| |eauto].
  intros pre b post [previous expected] Hsplit Hlast. unfold check_block.
  assert (0 < compressed_len b /\ 0 < decoded_len b <= PACK_BLOCK_BYTES /\ pb_offset b + compressed_len b < U64) as (H1 & H2 & H3).
  { rewrite Forall_forall in Hall. apply Hall. rewrite Hsplit. set_solver. }
  destruct (N.ltb_spec 0 (compressed_len b)); [|lia]. cbn [ensure mbind res_bind].
  destruct (N.ltb_spec 0 (decoded_len b)), (N.leb_spec (decoded_len b) PACK_BLOCK_BYTES); try lia. cbn [ensure mbind res_bind andb].
  assert ((if negb (bool_decide (previous = Some (pack b))) then
       ensure (match previous with Some p => pack b =? wrapping_add U32 p 1 | None => true end) "pack IDs are not contiguous";;
       Ok (Some (pack b), 0)
     else Ok (previous, expected)) = Ok (Some (pack b), pb_offset b)) as ->.
  { destruct (last pre) as [a|] eqn:E.
    - apply last_Some in E as [pre' ->]. destruct Hlast as [-> ->].
      assert (follows a b) as [[Hp Ho]|[Hp Ho]].
      { apply (Hadj (len pre')); rewrite Hsplit, <- app_assoc; [apply get_middle|]. cbn [app].
        change (a :: b :: post) with ([a] ++ b :: post). rewrite app_assoc. replace (len pre' + 1) with (len (pre' ++ [a])); [apply get_middle|].
        rewrite len_app. done. }
      + rewrite bool_decide_true by congruence. cbn [negb]. by rewrite Hp, Ho.
      + rewrite bool_decide_false by (rewrite Hp; unfold wrapping_add; intros [= H']; lia). cbn [negb].
        rewrite Hp, N.eqb_refl. cbn. by rewrite Ho.
    - apply last_None in E as ->. destruct Hlast as [-> ->]. rewrite bool_decide_false by done. cbn.
      by rewrite (Hhead b) by by rewrite Hsplit. }
  cbn [mbind res_bind]. rewrite N.eqb_refl. cbn [ensure mbind res_bind]. unfold checked_add.
  destruct (N.ltb_spec (pb_offset b + compressed_len b) U64); [|lia]. cbn [with_context mbind res_bind].
  eexists. split; [done|]. rewrite last_snoc. done.
Qed.

Lemma position_mono blocks i j : i <= j -> position blocks i 0 <= position blocks j 0.
Proof.
  intros H. unfold position. replace (N.to_nat j) with (N.to_nat i + N.to_nat (j - i))%nat by lia.
  rewrite <- (take_drop (N.to_nat i) (take (N.to_nat i + N.to_nat (j - i)) (decoded_lens blocks))), sumN_app, take_take.
  rewrite Nat.min_l by lia. lia.
Qed.

Lemma coordinate_before blocks i1 o1 i2 o2 :
  coordinate_ok blocks i1 o1 -> coordinate_ok blocks i2 o2 -> i1 < i2 -> position blocks i1 o1 < position blocks i2 o2.
Proof.
  intros H1 H2 Hlt. assert (i2 <= len blocks).
  { unfold coordinate_ok in H2. destruct (get blocks i2) eqn:E; [apply get_Some_lt in E; lia|lia]. }
  unfold coordinate_ok in H1. destruct (get blocks i1) as [b|] eqn:E; [|lia].
  pose proof (position_next blocks i1 b E). pose proof (position_mono blocks (i1 + 1) i2 ltac:(lia)). unfold position in *. lia.
Qed.
Lemma coordinate_unique blocks i1 o1 i2 o2 :
  coordinate_ok blocks i1 o1 -> coordinate_ok blocks i2 o2 -> position blocks i1 o1 = position blocks i2 o2 -> i1 = i2 /\ o1 = o2.
Proof.
  intros H1 H2 Hp. destruct (N.lt_trichotomy i1 i2) as [H|[->|H]].
  - pose proof (coordinate_before blocks i1 o1 i2 o2 H1 H2 H). lia.
  - split; [done|]. unfold position in Hp. lia.
  - pose proof (coordinate_before blocks i2 o2 i1 o1 H2 H1 H). lia.
Qed.

Definition entry_placed (doc : list N) (slice : PackSlice) (entry : DocEntry) : Prop :=
  decoded_size entry = len doc /\ first_block entry = ps_first_block slice /\ block_offset entry = ps_block_offset slice.

Lemma check_coordinates_total blocks contents slices entries :
  Forall (fun b => 0 < decoded_len b) blocks -> sumN (decoded_lens blocks) = len (concat contents) ->
  (len slices = len contents /\ forall i doc slice, get contents i = Some doc -> get slices i = Some slice ->
    slice_ok blocks slice (sumN (take (N.to_nat i) (len <$> contents))) (len doc)) ->
  len entries = len contents ->
  (forall i doc slice entry, get contents i = Some doc -> get slices i = Some slice -> get entries i = Some entry -> entry_placed doc slice entry) ->
  foldM (check_coordinates blocks) (0, 0) entries = Ok (len blocks, 0).
Proof.
  intros Hpos Htotal [Hls Hslices] Hle Hentries.
  assert (coordinate_ok blocks 0 0) as H0.
  { unfold coordinate_ok. destruct (get blocks 0) as [b|] eqn:E; [rewrite Forall_forall in Hpos; apply Hpos; by eapply get_elem|].
    split; [|done]. unfold get in E. apply lookup_ge_None in E. unfold len. lia. }
  destruct (foldM_total (fun pre '(b, o) => coordinate_ok blocks b o /\
    position blocks b o = sumN (take (length pre) (len <$> contents))) (check_coordinates blocks) (0, 0) entries)
    as ([b o] & Hf & Hc & Hp).
  - done.
  - intros pre entry post [b o] Hsplit [Hc Hp].
    assert (get entries (len pre) = Some entry) as Hentry by (rewrite Hsplit; apply get_middle).
    pose proof (get_Some_lt _ _ _ Hentry). destruct (get_is_Some contents (len pre)) as [doc Hdoc]; [lia|].
    destruct (get_is_Some slices (len pre)) as [slice Hslice]; [lia|].
    destruct (Hentries _ _ _ _ Hdoc Hslice Hentry) as (E1 & E2 & E3). pose proof (Hslices _ _ _ Hdoc Hslice) as Hs.
    pose proof (sum_before_le contents (len pre) doc Hdoc) as Hfit. rewrite to_nat_len in Hs, Hfit.
    assert (sumN (take (length (pre ++ [entry])) (len <$> contents)) = sumN (take (length pre) (len <$> contents)) + len doc) as Hnext.
    { rewrite length_app, Nat.add_1_r, (take_S_r _ _ (len doc)); [apply sumN_snoc|]. unfold get in Hdoc. rewrite to_nat_len in Hdoc.
      by rewrite list_lookup_fmap, Hdoc. }
    unfold check_coordinates, slice_ok in *. rewrite E1, E2, E3. destruct (N.eqb_spec (len doc) 0) as [E|E].
    + destruct Hs as [-> ->]. cbn. eexists. split; [done|]. split; [done|]. rewrite Hp, Hnext. lia.
    + destruct Hs as [Hc' Hp']. destruct (coordinate_unique blocks b o _ _ Hc Hc') as [<- <-]; [congruence|].
      rewrite !N.eqb_refl. cbn [andb ensure mbind res_bind].
      destruct (consume_spec (S (S (length blocks))) blocks (len doc) b o Hpos Hc) as [Hgood _].
      { unfold len. lia. }
      destruct Hgood as (b' & o' & -> & Hc'' & Hp''); [lia|]. eexists. split; [done|]. split; [done|]. lia.
  - rewrite Hf. f_equal. rewrite take_ge in Hp by (rewrite length_fmap; unfold len in Hle; lia).
    rewrite sum_lens, <- Htotal, <- position_end in Hp. assert (coordinate_ok blocks (len blocks) 0) as He.
    { unfold coordinate_ok. destruct (get blocks (len blocks)) eqn:E; [apply get_Some_lt in E; lia|done]. }
    by destruct (coordinate_unique blocks b o _ _ Hc He Hp) as [-> ->].
Qed.

(** ** Properties *)

(** C23: building packs never panics; what it returns can be read back: every
    block is stored, contiguous, under its digest and within the pack target,
    the decoded blocks concatenate to the documents, and each document is found
    again, part by part, from the slice its append returned. *)
Theorem pack_build_roundtrip compress decompress sha256 `{!Codec compress decompress sha256} bb pb contents :
  bb <= PACK_BLOCK_BYTES ->
  safe (build_packs compress sha256 bb pb contents) (fun '(slices, built) => exists decoded,
    built_ok decompress sha256 pb contents decoded slices built /\
    forall i doc slice, get contents i = Some doc -> get slices i = Some slice ->
      exists parts, document_blocks slice (len doc) (built_blocks built) = Ok parts /\ parts_ok decoded doc parts).
Proof.
  intros Hbb. eapply safe_weaken; [by apply (build_packs_safe compress decompress sha256 bb pb contents)|].
  intros [slices built] [decoded Hok]. exists decoded. split; [exact Hok|]. destruct Hok as [Hst Hstream (Hall & _ & _) _ _ [Hls Hsl]].
  intros i doc slice Hd Hs. eapply (document_blocks_ok _ decoded); [by eapply stored_lens| | | |by apply Hsl].
  - eapply Forall_impl; [exact Hall|]. cbn. lia.
  - eapply Forall_impl; [exact Hall|]. cbn. change PACK_BLOCK_BYTES with 131072. lia.
  - rewrite Hstream, sum_lens_take.
    rewrite <- (take_drop_middle contents (N.to_nat i) doc Hd) at 1. rewrite concat_app. cbn [concat]. by apply get_range_mid.
Qed.

(** A built table passes the reader's validation: its blocks are accepted,
    and documents that carry the slices and sizes of the build have contiguous
    coordinates that use up every block. *)
Theorem built_tables_validate compress decompress sha256 `{!Codec compress decompress sha256} bb pb contents slices built entries :
  bb <= PACK_BLOCK_BYTES -> build_packs compress sha256 bb pb contents = Ok (slices, built) ->
  len entries = len contents ->
  (forall i doc slice entry, get contents i = Some doc -> get slices i = Some slice -> get entries i = Some entry ->
    entry_placed doc slice entry) ->
  (exists s, foldM check_block (None, 0) (built_blocks built) = Ok s) /\
  foldM (check_coordinates (built_blocks built)) (0, 0) entries = Ok (len (built_blocks built), 0).
Proof.
  intros Hbb Hbuild Hle Hentries.
  destruct (safe_no_panic _ _ (build_packs_safe compress decompress sha256 bb pb contents Hbb)) as [_ Hok].
  destruct (Hok _ Hbuild) as [decoded [Hst Hstream Hblocks _ _ Hsl]]. split; [by apply check_blocks_total|].
  destruct Hblocks as (Hall & _ & _). eapply check_coordinates_total; [| |exact Hsl|done|done].
  - eapply Forall_impl; [exact Hall|]. cbn. lia.
  - by rewrite (stored_lens _ _ _ _ _ Hst), sum_lens, Hstream.
Qed.

(** ** Witnesses: a codec that prefixes one byte *)

Definition demo_compress (b : list N) : res (list N) := Ok (0 :: b).
Definition demo_decompress (c : list N) (capacity : N) : res (list N) :=
  match c with
  | _ :: b => if len b <=? capacity then Ok b else Err "destination too small"
  | [] => Err "truncated frame"
  end.
Definition demo_sha256 (b : list N) : list N := replicate 31 0 ++ [sumN b mod 256].
#[export] Instance demo_codec : Codec demo_compress demo_decompress demo_sha256.
Proof.
  split.
  - intros b. right. exists (0 :: b). split; [done|]. rewrite len_cons. split; [lia|]. cbn. by rewrite N.leb_refl.
  - intros c n w. unfold demo_decompress. destruct c as [|x c]; [done|]. by destruct (len c <=? n).
  - intros b. unfold demo_sha256. rewrite len_app. done.
Qed.

Definition demo_contents : list (list N) := [[1; 2; 3; 4; 5]; []; [6; 7]].
Definition demo_built : list PackSlice * BuiltPacks :=
  match build_packs demo_compress demo_sha256 3 8 demo_contents with Ok r => r | _ => ([], {| built_packs := []; built_blocks := [] |}) end.

Lemma pack_build_roundtrip_witness :
  (ps_first_block <$> demo_built.1, ps_block_offset <$> demo_built.1, pf_bytes <$> built_packs demo_built.2) =
    ([0; 0; 1], [0; 0; 2], [[0; 1; 2; 3; 0; 4; 5; 6]; [0; 7]]) /\
  safe (build_packs demo_compress demo_sha256 3 8 demo_contents) (fun '(slices, built) => exists decoded,
    built_ok demo_decompress demo_sha256 8 demo_contents decoded slices built /\
    forall i doc slice, get demo_contents i = Some doc -> get slices i = Some slice ->
      exists parts, document_blocks slice (len doc) (built_blocks built) = Ok parts /\ parts_ok decoded doc parts).
Proof.
  split; [vm_compute; reflexivity|].
  apply (pack_build_roundtrip demo_compress demo_decompress demo_sha256). vm_compute. discriminate.
Defined.

Definition demo_entry (size first offset : N) : DocEntry :=
  {| display_key := []; source_id := 0; member_path := None; decoded_size := size; first_block := first;
     block_offset := offset; max_line_len := 0; block_newlines := [] |}.

Lemma built_tables_validate_witness :
  (exists s, foldM check_block (None, 0) (built_blocks demo_built.2) = Ok s) /\
  foldM (check_coordinates (built_blocks demo_built.2)) (0, 0) [demo_entry 5 0 0; demo_entry 0 0 0; demo_entry 2 1 2] =
    Ok (len (built_blocks demo_built.2), 0).
Proof.
  apply (built_tables_validate demo_compress demo_decompress demo_sha256 3 8 demo_contents demo_built.1).
  - vm_compute. discriminate.
  - vm_compute. reflexivity.
  - reflexivity.
  - intros i doc slice entry Hd Hs He. pose proof (get_Some_lt _ _ _ Hd) as Hi. change (len demo_contents) with 3 in Hi.
    assert (i = 0 \/ i = 1 \/ i = 2) as [->|[->| ->]] by lia; injection Hd as <-; vm_compute in Hs; injection Hs as <-; injection He as <-; done.
Defined.
