(* ===== verification/PackRead.v ===== *)
(** * Reading pack blocks (crates/index/src/pack.rs)

    Blocks of a document are grouped into runs, runs into batches, and fetched
    by ranges of the pack or served from a verified disk cache; every block is
    checked against its digest, decoded and kept.  The outside world (the blob
    store and the cache directory) is an abstract state with operations about
    which nothing is assumed; code over it lives in [ST]. *)

From S2P Require Import Prelude BitPack Bytes Format PackBuild.

Definition RANGE_BYTES : N := 8 * 1024 * 1024.

Record PackRun : Type := { run_pack : N; run_offset : N; run_len : N; run_blocks : list N }.

Definition saturating_sub (a b : N) : N := a - b.

(** ** Runs and batches *)

Definition contiguous (run : PackRun) (block : PackBlock) : bool :=
  (run_pack run =? pack block) && (saturating_add U64 (run_offset run) (run_len run) =? pb_offset block) &&
  (saturating_add U64 (run_len run) (compressed_len block) <=? RANGE_BYTES).

Definition new_run (block_id : N) (block : PackBlock) : PackRun :=
  {| run_pack := pack block; run_offset := pb_offset block; run_len := compressed_len block; run_blocks := [block_id] |}.

Definition block_run_step (blocks : list PackBlock) (runs : list PackRun) (block_id : N) : res (list PackRun) :=
  block ← with_context (get blocks block_id) "missing pack block";
  match last runs with
  | Some run =>
      if contiguous run block then
        len_ ← with_context (checked_add U64 (run_len run) (compressed_len block)) "pack range length overflows";
        Ok (removelast runs ++
          [{| run_pack := run_pack run; run_offset := run_offset run; run_len := len_; run_blocks := run_blocks run ++ [block_id] |}])
      else Ok (runs ++ [new_run block_id block])
  | None => Ok (runs ++ [new_run block_id block])
  end.

Definition block_runs (block_ids : list N) (blocks : list PackBlock) : res (list PackRun) :=
  foldM (block_run_step blocks) [] block_ids.

(** The inner loop of [run_batches]: the end of the batch; every pass advances
    [end_], so [length runs] passes are enough. *)
Fixpoint batch_end (fuel : nat) (runs : list PackRun) (max_bytes start end_ bytes : N) : N :=
  match fuel with
  | O => end_
  | S fuel =>
      match get runs end_ with
      | None => end_
      | Some run =>
          if (start <? end_) && (saturating_sub max_bytes bytes <? run_len run) then end_
          else batch_end fuel runs max_bytes start (end_ + 1) (saturating_add U64 bytes (run_len run))
      end
  end.
Fixpoint batches_from (fuel : nat) (runs : list PackRun) (max_bytes start : N) : list (N * N) :=
  match fuel with
  | O => []
  | S fuel =>
      if start <? len runs then
        let end_ := batch_end (length runs) runs max_bytes start start 0 in
        (start, end_) :: batches_from fuel runs max_bytes end_
      else []
  end.
Definition run_batches (runs : list PackRun) (max_bytes : N) : list (N * N) := batches_from (length runs) runs max_bytes 0.

(** ** Visiting blocks *)

(** [pack-{hash}-{offset:016x}] *)
Definition block_path (pack : PackMeta) (block : PackBlock) : list N :=
  [112; 97; 99; 107; 45] ++ pm_hash pack ++ [45] ++ hex (to_be_bytes (pb_offset block)).

(** The world of a reader: the blob store and the cache files, by name. *)
Record Io (W : Type) : Type := {
  io_get_ranges : list N -> list (N * N) -> ST W (list (list N));
  io_read_file : list N -> W -> option (list N) * W;
  io_write_back : list N -> list N -> W -> W;
}.
Arguments io_get_ranges {W}. Arguments io_read_file {W}. Arguments io_write_back {W}.

Section visit.
Context {W : Type} (io : Io W) (decompress : list N -> N -> res (list N)) (sha256 : list N -> list N).

Definition infallible {A} (f : W -> A * W) : ST W A := fun w => let '(a, w') := f w in (Ok a, w').

(** [read_verified] *)
Definition read_verified (path expected_hash : list N) : ST W (option (list N)) :=
  bytes ← infallible (io_read_file io path);
  mret (match bytes with
        | Some bytes => if bool_decide (hex (sha256 bytes) = expected_hash) then Some bytes else None
        | None => None
        end).

Definition cache_read (pack : PackMeta) (block : PackBlock) : ST W (option (list N)) :=
  read_verified (block_path pack block) (hex (pb_hash block)).
Definition cache_store (pack : PackMeta) (block : PackBlock) (compressed : list N) : ST W unit :=
  modify (io_write_back io (block_path pack block) compressed).

Context (cache : bool) (packs : list PackMeta) (blocks : list PackBlock).

(** [run.blocks.iter().map(cache.read).collect::<Option<Vec<_>>>()] *)
Fixpoint read_run (pack : PackMeta) (block_ids : list N) : ST W (option (list (list N))) :=
  match block_ids with
  | [] => mret (Some [])
  | block_id :: block_ids =>
      block ← lift (expect (get blocks block_id) "index out of bounds");
      hit ← cache_read pack block;
      match hit with
      | Some bytes => rest ← read_run pack block_ids; mret (cons bytes <$> rest)
      | None => mret None
      end
  end.
Definition resolve_run (pack : PackMeta) (run : PackRun) : ST W (option (list (list N))) :=
  if cache then read_run pack (run_blocks run) else mret None.

(** One block of a fetched run. *)
Definition take_block (pack : PackMeta) (bytes : list N) (s : N * list (list N)) (block_id : N) : ST W (N * list (list N)) :=
  let '(cursor, compressed_blocks) := s in
  block ← lift (expect (get blocks block_id) "index out of bounds");
  end_ ← lift (with_context (checked_add U64 cursor (compressed_len block)) "compressed block range overflows");
  compressed ← lift (with_context (get_range bytes cursor end_) "pack range ended inside a block");
  _ ← lift (ensure (bool_decide (sha256 compressed = pb_hash block)) "pack block hash mismatch");
  _ ← (if cache then cache_store pack block compressed else mret tt);
  mret (end_, compressed_blocks ++ [compressed]).

Definition take_run (pack : PackMeta) (batch : list PackRun) (resolved : list (option (list (list N)))) (miss : N * list N)
    : ST W (list (option (list (list N)))) :=
  let '(at_, bytes) := miss in
  run ← lift (expect (get batch at_) "index out of bounds");
  _ ← lift (ensure (len bytes =? run_len run) "pack range length mismatch");
  '(cursor, compressed_blocks) ← foldS (take_block pack bytes) (0, []) (run_blocks run);
  _ ← lift (ensure (cursor =? len bytes) "unparsed bytes remain in pack range");
  mret (<[N.to_nat at_ := Some compressed_blocks]> resolved).

Definition miss_indexes (resolved : list (option (list (list N)))) : list N :=
  fst <$> filter (fun '(_, hit) => hit = None) (enumerate resolved).

Definition range_of (batch : list PackRun) (at_ : N) : option (N * N) :=
  run ← get batch at_; Some (run_offset run, run_len run).

Definition fetch_misses (pack : PackMeta) (batch : list PackRun) (resolved : list (option (list (list N))))
    : ST W (list (option (list (list N)))) :=
  let misses := miss_indexes resolved in
  if decide (misses = []) then mret resolved
  else
    ranges ← lift (expect (mapM (range_of batch) misses) "index out of bounds");
    _ ← lift (ensure (forallb (fun '(offset, size) => saturating_add U64 offset size <=? pm_len pack) ranges)
          "pack range is out of bounds");
    fetched ← io_get_ranges io (pack_blob (pm_hash pack)) ranges;
    _ ← lift (ensure (len fetched =? len misses) "get_ranges returned the wrong number of ranges");
    foldS (take_run pack batch) resolved (zip misses fetched).

Definition resolve_step (pack : PackMeta) (resolved : list (option (list (list N)))) (run : PackRun)
    : ST W (list (option (list (list N)))) :=
  hit ← resolve_run pack run; mret (resolved ++ [hit]).

(** The compressed blocks of a batch, per run. *)
Definition resolve_batch (pack : PackMeta) (batch : list PackRun) : ST W (list (option (list (list N)))) :=
  resolved ← foldS (resolve_step pack) [] batch;
  fetch_misses pack batch resolved.

Context {V : Type} (visit : N -> list N -> ST V unit).

Definition visit_compressed_block (block_id : N) (compressed : list N) : ST V unit :=
  block ← lift (expect (get blocks block_id) "index out of bounds");
  _ ← lift (ensure (bool_decide (sha256 compressed = pb_hash block)) "pack block hash mismatch");
  decoded ← lift (decompress compressed (decoded_len block));
  _ ← lift (ensure (len decoded =? decoded_len block) "pack block decoded length mismatch");
  visit block_id decoded.

Definition visit_run (entry : PackRun * option (list (list N))) : ST V unit :=
  compressed_blocks ← lift (with_context entry.2 "pack run was neither cached nor fetched");
  forS (fun '(block_id, compressed) => visit_compressed_block block_id compressed) (zip (run_blocks entry.1) compressed_blocks).

Definition visit_batch (pack : PackMeta) (pack_runs : list PackRun) (bounds : N * N) : ST (W * V) unit :=
  batch ← lift (expect (get_range pack_runs bounds.1 bounds.2) "range out of bounds");
  resolved ← on_fst (resolve_batch pack batch);
  on_snd (forS visit_run (zip batch resolved)).

Definition visit_pack (batch_bytes : N) (pack_runs : list PackRun) : ST (W * V) unit :=
  first ← lift (expect (head pack_runs) "index out of bounds");
  pack ← lift (with_context (get packs (run_pack first)) "pack ID is out of bounds");
  forS (visit_batch pack pack_runs) (run_batches pack_runs batch_bytes).

Definition visit_blocks (runs : list PackRun) (batch_bytes : N) : ST (W * V) unit :=
  forS (visit_pack batch_bytes) (chunk_by (fun left right => run_pack left =? run_pack right) runs).
End visit.

(** ** Runs, batches and chunks partition their input *)

(** Consecutive non-empty ranges from [s] to [e]. *)
Fixpoint spans (s : N) (ranges : list (N * N)) (e : N) : Prop :=
  match ranges with
  | [] => s = e
  | (a, b) :: ranges => a = s /\ a < b /\ spans b ranges e
  end.

Lemma batch_end_ok fuel runs max_bytes start end_ bytes :
  start <= end_ <= len runs -> (end_ = start -> start < len runs /\ (0 < fuel)%nat) ->
  start < batch_end fuel runs max_bytes start end_ bytes <= len runs.
Proof.
  revert end_ bytes. induction fuel as [|fuel IH]; intros end_ bytes Hb Hs; cbn [batch_end].
  { destruct (decide (end_ = start)) as [E|]; [destruct (Hs E); lia|lia]. }
  destruct (get runs end_) as [run|] eqn:E.
  2: { destruct (decide (end_ = start)) as [->|]; [|lia]. destruct (get_is_Some runs start); [by apply Hs|congruence]. }
  pose proof (get_Some_lt _ _ _ E). destruct (N.ltb_spec start end_); cbn [andb].
  - destruct (_ <? _); [lia|]. apply IH; lia.
  - apply IH; lia.
Qed.
Lemma batches_from_ok fuel runs max_bytes start :
  start <= len runs -> len runs <= start + N.of_nat fuel -> spans start (batches_from fuel runs max_bytes start) (len runs).
Proof.
  revert start. induction fuel as [|fuel IH]; intros start Hs Hf; cbn [batches_from]; [cbn; lia|].
  destruct (N.ltb_spec start (len runs)); [|cbn; lia]. cbn [spans]. split; [done|].
  destruct (batch_end_ok (length runs) runs max_bytes start start 0) as [H1 H2]; [lia|unfold len in *; lia|].
  split; [done|]. apply IH; lia.
Qed.
Lemma run_batches_spans runs max_bytes : spans 0 (run_batches runs max_bytes) (len runs).
Proof. apply batches_from_ok; unfold len; lia. Qed.

(** A batch over the limit is a single run. *)
Lemma batch_end_bound fuel runs max_bytes start end_ bytes :
  start <= end_ -> bytes = sumN (run_len <$> take (N.to_nat (end_ - start)) (drop (N.to_nat start) runs)) ->
  Forall (fun r => 0 < run_len r < 2 ^ 32) runs -> max_bytes < 2 ^ 63 ->
  (end_ = start \/ end_ = start + 1 \/ bytes <= max_bytes) ->
  let e := batch_end fuel runs max_bytes start end_ bytes in
  e <= start + 1 \/ sumN (run_len <$> take (N.to_nat (e - start)) (drop (N.to_nat start) runs)) <= max_bytes.
Proof.
  revert end_ bytes. induction fuel as [|fuel IH]; intros end_ bytes Hs Hb Hl Hm Hd; cbn [batch_end]; cbv zeta; [rewrite <- Hb; lia|].
  destruct (get runs end_) as [run|] eqn:E; [|rewrite <- Hb; lia].
  assert (0 < run_len run < 2 ^ 32) as Hrun by (rewrite Forall_forall in Hl; apply Hl; by eapply get_elem).
  assert (sumN (run_len <$> take (N.to_nat (end_ + 1 - start)) (drop (N.to_nat start) runs)) = bytes + run_len run) as Hnext.
  { replace (N.to_nat (end_ + 1 - start)) with (S (N.to_nat (end_ - start))) by lia.
    rewrite (take_S_r _ _ run), fmap_app; [cbn [fmap list_fmap]; rewrite sumN_snoc; lia|].
    rewrite lookup_drop. unfold get in E. rewrite <- E. f_equal. lia. }
  destruct (N.ltb_spec start end_) as [Hlt|Hge]; cbn [andb].
  - unfold saturating_sub. destruct (N.ltb_spec (max_bytes - bytes) (run_len run)) as [|Hfit]; [rewrite <- Hb; lia|].
    unfold saturating_add. replace (N.min (bytes + run_len run) (U64 - 1)) with (bytes + run_len run) by lia.
    apply IH; try done; lia.
  - assert (end_ = start) as -> by lia. assert (bytes = 0) as E0 by (rewrite Hb, N.sub_diag; reflexivity).
    rewrite E0 in *. unfold saturating_add.
    replace (N.min (0 + run_len run) (U64 - 1)) with (run_len run) by lia. apply IH; [lia|by rewrite Hnext|done|done|lia].
Qed.

Section runs.
Context (blocks : list PackBlock) (Hblocks : blocks_ok blocks).

Fixpoint run_tiles (p offset : N) (ids : list N) (end_ : N) : Prop :=
  match ids with
  | [] => offset = end_
  | id :: ids => exists b, get blocks id = Some b /\ pack b = p /\ pb_offset b = offset /\
      run_tiles p (offset + compressed_len b) ids end_
  end.

(** A run is a stretch of one pack, bounded unless it is a single block. *)
Record run_ok (run : PackRun) : Prop := {
  ro_tiles : run_tiles (run_pack run) (run_offset run) (run_blocks run) (run_offset run + run_len run);
  ro_nonempty : run_blocks run <> [];
  ro_end : run_offset run + run_len run < U64;
  ro_bound : run_len run <= RANGE_BYTES \/ length (run_blocks run) = 1%nat;
}.

Lemma run_tiles_snoc p offset ids end_ id b :
  run_tiles p offset ids end_ -> get blocks id = Some b -> pack b = p -> pb_offset b = end_ ->
  run_tiles p offset (ids ++ [id]) (end_ + compressed_len b).
Proof.
  revert offset. induction ids as [|i ids IH]; intros offset; cbn [run_tiles app].
  - intros -> Hb Hp Ho. exists b. done.
  - intros (b' & H1 & H2 & H3 & H4) Hb Hp Ho. exists b'. split_and!; [done..|]. by apply IH.
Qed.

Lemma block_fits id b : get blocks id = Some b -> 0 < compressed_len b /\ pb_offset b + compressed_len b < U64.
Proof. intros H. destruct Hblocks as (Hall & _). rewrite Forall_forall in Hall. destruct (Hall b) as (? & _ & ?); [by eapply get_elem|done]. Qed.

Lemma new_run_ok id b : get blocks id = Some b -> run_ok (new_run id b).
Proof.
  intros H. destruct (block_fits id b H). split; cbn; [exists b; done|done|done|by right].
Qed.

Lemma block_run_step_ok runs id b :
  get blocks id = Some b -> Forall run_ok runs ->
  exists runs', block_run_step blocks runs id = Ok runs' /\ Forall run_ok runs' /\
    concat (run_blocks <$> runs') = concat (run_blocks <$> runs) ++ [id].
Proof.
  intros Hb Hruns. unfold block_run_step. rewrite Hb. cbn [with_context mbind res_bind]. destruct (block_fits id b Hb) as [Hc Hfit].
  assert (exists runs', Ok (runs ++ [new_run id b]) = Ok runs' /\ Forall run_ok runs' /\
    concat (run_blocks <$> runs') = concat (run_blocks <$> runs) ++ [id]) as Hnew.
  { eexists. split; [done|]. split; [apply Forall_app; split; [done|]; constructor; [by apply new_run_ok|done]|].
    rewrite fmap_app, concat_app. done. }
  destruct (last runs) as [run|] eqn:El; [|exact Hnew]. destruct (contiguous run b) eqn:Ec; [clear Hnew|exact Hnew].
  apply last_Some in El as [before ->]. apply Forall_app in Hruns as [Hbefore Hrun]. apply Forall_cons in Hrun as [[Ht Hne He Hb'] _].
  unfold contiguous, saturating_add in Ec. apply andb_prop in Ec as [[Hp%N.eqb_eq Ho%N.eqb_eq]%andb_prop Hl%N.leb_le].
  change RANGE_BYTES with 8388608 in *. unfold checked_add. destruct (N.ltb_spec (run_len run + compressed_len b) U64); [|lia].
  cbn [with_context mbind res_bind]. eexists. split; [done|]. rewrite removelast_last. split.
  - apply Forall_app. split; [done|]. constructor; [|done]. split; cbn.
    + rewrite N.add_assoc. apply run_tiles_snoc; [done|done|done|lia].
    + by destruct (run_blocks run).
    + lia.
    + left. change RANGE_BYTES with 8388608. lia.
  - rewrite !fmap_app, !concat_app. cbn. by rewrite !app_nil_r, <- app_assoc.
Qed.

Lemma block_runs_ok ids :
  (forall id, id ∈ ids -> id < len blocks) ->
  exists runs, block_runs ids blocks = Ok runs /\ Forall run_ok runs /\ concat (run_blocks <$> runs) = ids.
Proof.
  intros Hids. apply (foldM_total (fun pre runs => Forall run_ok runs /\ concat (run_blocks <$> runs) = pre)); [done|].
  intros pre id post runs -> [Hr Hc]. destruct (get_is_Some blocks id) as [b Hb]; [apply Hids; set_solver|].
  destruct (block_run_step_ok runs id b Hb Hr) as (runs' & -> & Hr' & Hc'). exists runs'. split; [done|]. by rewrite Hc', Hc.
Qed.
End runs.

Lemma run_tiles_app blocks p o l1 l2 e :
  run_tiles blocks p o (l1 ++ l2) e <-> exists m, run_tiles blocks p o l1 m /\ run_tiles blocks p m l2 e.
Proof.
  revert o. induction l1 as [|id l1 IH]; intros o; cbn [app run_tiles]; [naive_solver|]. split.
  - intros (b & H1 & H2 & H3 & (m & H4 & H5)%IH). eauto 10.
  - intros (m & (b & H1 & H2 & H3 & H4) & H5). exists b. split_and!; [done..|]. apply IH. eauto.
Qed.
Lemma run_tiles_fun blocks p o l e e' : run_tiles blocks p o l e -> run_tiles blocks p o l e' -> e = e'.
Proof.
  revert o. induction l as [|id l IH]; intros o; cbn [run_tiles]; [congruence|].
  intros (b & H1 & _ & _ & H2) (b' & H3 & _ & _ & H4). rewrite H1 in H3. injection H3 as <-. by eapply IH.
Qed.
Lemma run_tiles_le blocks p o l e : run_tiles blocks p o l e -> o <= e.
Proof.
  revert o. induction l as [|id l IH]; intros o; cbn [run_tiles]; [lia|]. intros (b & _ & _ & _ & H%IH). lia.
Qed.

(** ** What a reader gets, whatever the world does *)

Section reading.
Context {W : Type} (io : Io W) (decompress : list N -> N -> res (list N)) (sha256 : list N -> list N).
Context (cache : bool) (packs : list PackMeta) (blocks : list PackBlock).
Context (files decoded : list (list N)) (honest : Prop).

(** The pack files hold the blocks; a digest of the table identifies the bytes
    it was taken of (collisions aside); the store does not panic, and when it
    is honest it returns the requested slices of the pack files. *)
Record world_ok : Prop := {
  wo_stored : Forall2 (stored decompress sha256 files) blocks decoded;
  wo_blocks : blocks_ok blocks;
  wo_packs : forall i file, get files i = Some file -> exists pack, get packs i = Some pack /\ pm_len pack = len file;
  wo_digest : forall i b d c, get blocks i = Some b -> get decoded i = Some d -> sha256 c = pb_hash b ->
    decompress c (decoded_len b) = Ok d;
  wo_no_panic : forall name ranges w, no_panic (io_get_ranges io name ranges w).1;
  wo_honest : honest -> forall i pack file ranges w, get packs i = Some pack -> get files i = Some file ->
    Forall (fun '(offset, size) => offset + size <= len file) ranges ->
    exists parts w', io_get_ranges io (pack_blob (pm_hash pack)) ranges w = (Ok parts, w') /\
      Forall2 (fun '(offset, size) part => get_range file offset (offset + size) = Some part) ranges parts;
}.
Context (Hworld : world_ok).

Definition verified (id : N) (compressed : list N) : Prop := exists b, get blocks id = Some b /\ sha256 compressed = pb_hash b.

Lemma stored_at id b : get blocks id = Some b -> exists d, get decoded id = Some d /\ stored decompress sha256 files b d.
Proof. intros H. destruct (Forall2_lookup_l _ _ _ _ _ (wo_stored Hworld) H) as (d & Hd & Hs). eauto. Qed.

Lemma infallible_yields {S A} (f : S -> A * S) : yields honest (infallible f) (fun _ => True).
Proof. intros s _. unfold infallible. by destruct (f s). Qed.

Lemma cache_read_ok pack b : yields honest (cache_read io sha256 pack b) (fun hit => forall c, hit = Some c -> sha256 c = pb_hash b).
Proof.
  unfold cache_read, read_verified. eapply yields_bind; [apply infallible_yields|]. intros [c|] _; apply yields_ret; [|done].
  case_bool_decide as E; [|done]. intros c' [= <-]. by apply hex_inj.
Qed.

Lemma read_run_ok pack ids :
  (forall id, id ∈ ids -> id < len blocks) ->
  yields honest (read_run io sha256 blocks pack ids) (fun hit => forall cs, hit = Some cs -> Forall2 verified ids cs).
Proof.
  induction ids as [|id ids IH]; intros Hids; cbn [read_run].
  { apply yields_ret. intros cs [= <-]. constructor. }
  destruct (get_is_Some blocks id) as [b Hb]; [apply Hids; left|].
  eapply yields_bind; [apply yields_lift, (sound_expect _ _ _ (fun b' => b' = b)); by exists b|]. intros ? ->.
  eapply yields_bind; [apply cache_read_ok|]. intros [c|] Hc; [|by apply yields_ret].
  eapply yields_bind; [apply IH; intros; apply Hids; by right|]. intros [rest|] Hrest; apply yields_ret; [|done].
  intros cs [= <-]. constructor; [exists b; auto|auto].
Qed.

Lemma resolve_run_ok pack run :
  (forall id, id ∈ run_blocks run -> id < len blocks) ->
  yields honest (resolve_run io sha256 cache blocks pack run)
    (fun hit => forall cs, hit = Some cs -> Forall2 verified (run_blocks run) cs).
Proof. intros H. unfold resolve_run. destruct cache; [by apply read_run_ok|by apply yields_ret]. Qed.

Lemma run_ids run : run_ok blocks run -> forall id, id ∈ run_blocks run -> id < len blocks.
Proof.
  intros [Ht _ _ _] id Hid. apply list_elem_of_split in Hid as (l1 & l2 & E). rewrite E in Ht.
  apply run_tiles_app in Ht as (m & _ & (b & Hb & _)). by eapply get_Some_lt.
Qed.

(** Cutting a fetched run into its blocks. *)
Lemma take_blocks_ok pack run bytes file :
  run_ok blocks run -> get files (run_pack run) = Some file -> len bytes = run_len run ->
  (honest -> get_range file (run_offset run) (run_offset run + run_len run) = Some bytes) ->
  yields honest (foldS (take_block io sha256 cache blocks pack bytes) (0, []) (run_blocks run))
    (fun '(cursor, cs) => cursor = run_len run /\ Forall2 verified (run_blocks run) cs).
Proof.
  intros [Ht _ Hend _] Hfile Hlen Htrue.
  eapply yields_weaken; [apply (yields_foldS honest (fun pre '(cursor, cs) =>
    run_tiles blocks (run_pack run) (run_offset run) pre (run_offset run + cursor) /\ Forall2 verified pre cs))|].
  - split; [cbn; lia|constructor].
  - intros pre id post [cursor cs] Hids [Hpre Hcs]. pose proof Ht as Ht2. rewrite Hids in Ht2.
    apply run_tiles_app in Ht2 as (m & Hm & (b & Hb & Hp & Ho & Hrest)).
    rewrite (run_tiles_fun _ _ _ _ _ _ Hm Hpre) in *. apply run_tiles_le in Hrest.
    unfold take_block. eapply yields_bind; [apply yields_lift, (sound_expect _ _ _ (fun b' => b' = b)); by exists b|]. intros ? ->.
    eapply yields_bind; [apply yields_lift, sound_context; intros _; unfold checked_add; destruct (N.ltb_spec (cursor + compressed_len b) U64); [eauto|lia]|].
    intros end_ [-> _]%checked_add_Some. eapply yields_bind; [apply yields_lift, sound_context; intros _; apply get_range_is_Some; lia|].
    intros c Hc. eapply yields_bind; [apply yields_lift, sound_ensure|].
    + intros Hh. apply bool_decide_eq_true. destruct (stored_at id b Hb) as (d & _ & f & c' & Hf & Hc' & -> & _).
      rewrite Hp, Hfile in Hf. injection Hf as <-. f_equal. specialize (Htrue Hh).
      rewrite (get_range_sub _ _ _ _ cursor (cursor + compressed_len b) Htrue) in Hc by lia.
      rewrite Ho in Hc'. rewrite N.add_assoc in Hc. congruence.
    + intros [] Hhash%bool_decide_eq_true. eapply yields_bind; [destruct cache; [apply yields_modify|by apply yields_ret]|].
      intros [] _. apply yields_ret. split; [rewrite N.add_assoc; by apply run_tiles_snoc|].
      apply Forall2_app; [done|]. constructor; [by exists b|constructor].
  - intros [cursor cs] [H1 H2]. split; [|done]. pose proof (run_tiles_fun _ _ _ _ _ _ H1 Ht). lia.
Qed.

(** Every entry known so far is verified. *)
Definition entries_verified (batch : list PackRun) (resolved : list (option (list (list N)))) : Prop :=
  len resolved = len batch /\
  forall at_ run cs, get batch at_ = Some run -> get resolved at_ = Some (Some cs) -> Forall2 verified (run_blocks run) cs.

Lemma get_insert {A} (l : list A) i j x :
  i < len l -> get (<[N.to_nat i := x]> l) j = if decide (i = j) then Some x else get l j.
Proof.
  intros Hi. unfold get, len in *. destruct (decide (i = j)) as [->|].
  - apply list_lookup_insert_eq. lia.
  - rewrite list_lookup_insert_ne; [done|lia].
Qed.

Lemma take_run_ok pack pack_id file batch resolved at_ run bytes :
  Forall (fun run => run_ok blocks run /\ run_pack run = pack_id) batch -> get files pack_id = Some file ->
  entries_verified batch resolved -> get batch at_ = Some run ->
  (honest -> get_range file (run_offset run) (run_offset run + run_len run) = Some bytes) ->
  yields honest (take_run io sha256 cache blocks pack batch resolved (at_, bytes)) (fun resolved' =>
    entries_verified batch resolved' /\ is_Some (get resolved' at_ ≫= id) /\
    forall j, is_Some (get resolved j ≫= id) -> is_Some (get resolved' j ≫= id)).
Proof.
  intros Hbatch Hfile [Hl Hv] Hrun Htrue. rewrite Forall_forall in Hbatch.
  destruct (Hbatch run) as [Hok Hp]; [by eapply get_elem|]. unfold take_run.
  eapply yields_bind; [apply yields_lift, (sound_expect _ _ _ (fun r => r = run)); by exists run|]. intros ? ->.
  eapply yields_bind; [apply yields_lift, sound_ensure|].
  { intros Hh%Htrue. apply get_range_len in Hh. apply N.eqb_eq. lia. }
  intros [] Hlen%N.eqb_eq. eapply yields_bind; [eapply take_blocks_ok; [exact Hok|by rewrite Hp|exact Hlen|exact Htrue]|].
  intros [cursor cs] [-> Hcs]. eapply yields_bind; [apply yields_lift, sound_ensure; intros _; by apply N.eqb_eq|].
  intros [] _. apply yields_ret. pose proof (get_Some_lt _ _ _ Hrun) as Hat.
  assert (forall j, get (<[N.to_nat at_ := Some cs]> resolved) j = if decide (at_ = j) then Some (Some cs) else get resolved j) as Hget
    by (intros j; apply get_insert; lia).
  split_and!.
  - split; [unfold len; by rewrite length_insert|]. intros j run' cs' Hrun' Hj. rewrite Hget in Hj.
    destruct (decide (at_ = j)) as [<-|]; [|by eapply Hv]. injection Hj as <-. rewrite Hrun in Hrun'. by injection Hrun' as <-.
  - rewrite Hget, decide_True by done. by eexists.
  - intros j Hj. rewrite Hget. destruct (decide (at_ = j)); [by eexists|done].
Qed.

Lemma resolve_hits_ok pack batch :
  Forall (run_ok blocks) batch ->
  yields honest (foldS (resolve_step io sha256 cache blocks pack) [] batch) (entries_verified batch).
Proof.
  intros Hbatch. apply (yields_foldS honest (fun pre resolved => entries_verified pre resolved)).
  { split; [done|]. intros at_ run cs H. apply get_Some_lt in H. rewrite len_nil in H. lia. }
  intros pre run post resolved -> [Hl Hv]. unfold resolve_step.
  assert (run_ok blocks run) as Hrun by (rewrite Forall_forall in Hbatch; apply Hbatch; set_solver).
  eapply yields_bind; [apply resolve_run_ok; by apply run_ids|]. intros hit Hhit. apply yields_ret. split; [rewrite !len_app, Hl; done|].
  intros at_ run' cs [Hr|[-> ->]]%get_snoc Hc.
  - rewrite get_app_l in Hc by (apply get_Some_lt in Hr; lia). by eapply Hv.
  - rewrite <- Hl, get_middle in Hc. injection Hc as ->. by apply Hhit.
Qed.

Lemma miss_indexes_spec (resolved : list (option (list (list N)))) at_ :
  at_ ∈ miss_indexes resolved <-> get resolved at_ = Some None.
Proof.
  unfold miss_indexes. rewrite list_elem_of_fmap. split.
  - intros ([i hit] & -> & [Hn Hi]%list_elem_of_filter). subst hit. by apply elem_of_enumerate in Hi.
  - intros H. exists (at_, None). split; [done|]. apply list_elem_of_filter. split; [done|]. by apply elem_of_enumerate.
Qed.

Lemma range_of_total batch misses :
  (forall at_, at_ ∈ misses -> at_ < len batch) ->
  exists ranges, mapM (range_of batch) misses = Some ranges /\
    Forall2 (fun at_ r => exists run, get batch at_ = Some run /\ r = (run_offset run, run_len run)) misses ranges.
Proof.
  induction misses as [|at_ misses IH]; intros H; [exists []; split; [done|constructor]|].
  destruct IH as (ranges & Hm & Hall); [intros; apply H; by right|].
  destruct (get_is_Some batch at_) as [run Hrun]; [apply H; left|]. exists ((run_offset run, run_len run) :: ranges).
  split; [|constructor; [by exists run|done]]. assert (range_of batch at_ = Some (run_offset run, run_len run)) as Hr by (unfold range_of; by rewrite Hrun).
  cbn [mapM]. rewrite Hr. cbn [mbind option_bind]. by rewrite Hm.
Qed.

Lemma run_in_file run file :
  run_ok blocks run -> get files (run_pack run) = Some file -> run_offset run + run_len run <= len file.
Proof.
  intros [Ht Hne _ _] Hfile. destruct (exists_last Hne) as (l & id & E). rewrite E in Ht.
  apply run_tiles_app in Ht as (m & _ & (b & Hb & Hp & Ho & He)). cbn [run_tiles] in He.
  destruct (stored_at id b Hb) as (d & _ & f & c & Hf & Hc & _). rewrite Hp, Hfile in Hf. injection Hf as <-.
  apply get_range_Some in Hc as (_ & Hc & _). lia.
Qed.

(** The store call of a batch: what it returns for each miss. *)
Lemma get_ranges_yields pack pack_id file ranges :
  get packs pack_id = Some pack -> get files pack_id = Some file ->
  Forall (fun '(offset, size) => offset + size <= len file) ranges ->
  yields honest (io_get_ranges io (pack_blob (pm_hash pack)) ranges)
    (fun parts => honest -> Forall2 (fun '(offset, size) part => get_range file offset (offset + size) = Some part) ranges parts).
Proof.
  intros Hp Hf Hr w _. destruct (io_get_ranges io _ ranges w) as [[parts|e|why] w'] eqn:E.
  - intros Hh. destruct (wo_honest Hworld Hh pack_id pack file ranges w Hp Hf Hr) as (parts' & w'' & E' & Hall). rewrite E in E'. by injection E' as -> _.
  - intros Hh. destruct (wo_honest Hworld Hh pack_id pack file ranges w Hp Hf Hr) as (parts' & w'' & E' & _). congruence.
  - by apply (wo_no_panic Hworld (pack_blob (pm_hash pack)) ranges w why); rewrite E.
Qed.

Definition resolved_ok (batch : list PackRun) (resolved : list (option (list (list N)))) : Prop :=
  Forall2 (fun run hit => exists cs, hit = Some cs /\ Forall2 verified (run_blocks run) cs) batch resolved.

Lemma resolved_all batch resolved :
  entries_verified batch resolved -> (forall at_, at_ < len batch -> is_Some (get resolved at_ ≫= id)) -> resolved_ok batch resolved.
Proof.
  intros [Hl Hv] Hall. apply Forall2_same_length_lookup_2; [unfold len in Hl; lia|].
  intros i run hit Hr Hh. specialize (Hall (N.of_nat i)). unfold get in *. rewrite Nat2N.id in Hall. rewrite Hh in Hall.
  destruct Hall as [cs Hcs]; [apply lookup_lt_Some in Hr; unfold len; lia|]. cbn in Hcs. subst hit. exists cs. split; [done|].
  apply (Hv (N.of_nat i)); unfold get; by rewrite Nat2N.id.
Qed.

Lemma fetch_misses_ok pack pack_id file batch resolved :
  Forall (fun run => run_ok blocks run /\ run_pack run = pack_id) batch -> get packs pack_id = Some pack ->
  get files pack_id = Some file -> pm_len pack = len file -> entries_verified batch resolved ->
  yields honest (fetch_misses io sha256 cache blocks pack batch resolved) (resolved_ok batch).
Proof.
  intros Hbatch Hpack Hfile Hplen Hres. pose proof Hres as [Hl Hv].
  assert (forall at_, at_ < len batch -> at_ ∈ miss_indexes resolved \/ is_Some (get resolved at_ ≫= id)) as Hcase.
  { intros at_ Hat. destruct (get_is_Some resolved at_) as [[cs|] Hg]; [lia| |left; by apply miss_indexes_spec].
    right. rewrite Hg. by eexists. }
  assert (forall at_, at_ ∈ miss_indexes resolved -> at_ < len batch) as Hmiss.
  { intros at_ Hat%miss_indexes_spec%get_Some_lt. lia. }
  unfold fetch_misses. destruct (decide (miss_indexes resolved = [])) as [E|_].
  { apply yields_ret, resolved_all; [done|]. intros at_ Hat. destruct (Hcase at_ Hat) as [H|]; [|done]. rewrite E in H. set_solver. }
  destruct (range_of_total batch (miss_indexes resolved) Hmiss) as (ranges & Hm & Hranges).
  eapply yields_bind; [apply yields_lift, (sound_expect _ _ _ (fun r => r = ranges)); by exists ranges|]. intros ? ->.
  assert (Forall (fun '(offset, size) => offset + size <= len file /\ offset + size < U64) ranges) as Hfit.
  { clear Hm. apply Forall_forall. intros r Hr. apply list_elem_of_lookup in Hr as [i Hr].
    destruct (Forall2_lookup_r _ _ _ _ _ Hranges Hr) as (at_ & _ & run & Hrun & ->).
    rewrite Forall_forall in Hbatch. destruct (Hbatch run) as [Hok Hp]; [by eapply get_elem|].
    split; [apply run_in_file; [done|by rewrite Hp]|apply Hok]. }
  eapply yields_bind; [apply yields_lift, sound_ensure; intros _|intros [] _].
  { apply forallb_elem. intros [offset size] Hr. rewrite Forall_forall in Hfit. specialize (Hfit _ Hr). cbn in Hfit.
    unfold saturating_add. apply N.leb_le. lia. }
  eapply yields_bind; [eapply get_ranges_yields; [exact Hpack|exact Hfile|eapply Forall_impl; [exact Hfit|]; by intros [? ?] [? ?]]|].
  intros fetched Hfetched. eapply yields_bind; [apply yields_lift, sound_ensure; intros Hh|intros [] Hn%N.eqb_eq].
  { apply N.eqb_eq. unfold len. rewrite <- (Forall2_length _ _ _ (Hfetched Hh)), (Forall2_length _ _ _ Hranges). done. }
  eapply yields_weaken; [apply (yields_foldS honest (fun pre resolved' => entries_verified batch resolved' /\
    (forall at_, at_ ∈ pre.*1 \/ is_Some (get resolved at_ ≫= id) -> is_Some (get resolved' at_ ≫= id))))|].
  - split; [done|]. intros at_ [H|H]; [set_solver|done].
  - intros pre [at_ bytes] post resolved' Hz [Hev Hkeep].
    assert (zip (miss_indexes resolved) fetched !! length pre = Some (at_, bytes)) as Hk by (rewrite Hz; by rewrite lookup_app_r, Nat.sub_diag by lia).
    apply lookup_zip_with_Some in Hk as (a & c & [= <- <-] & Ha & Hc).
    destruct (Forall2_lookup_l _ _ _ _ _ Hranges Ha) as (r & Hr & run & Hrun & ->).
    eapply yields_weaken; [eapply take_run_ok; [exact Hbatch|exact Hfile|exact Hev|exact Hrun|]|].
    + intros Hh. destruct (Forall2_lookup_l _ _ _ _ _ (Hfetched Hh) Hr) as (part & Hpart & Hg). cbn in Hg. congruence.
    + intros resolved2 (Hev2 & Hat & Hkeep2). split; [done|]. intros j. rewrite fmap_app, elem_of_app. cbn.
      rewrite list_elem_of_singleton. intros [[Hj| ->]|Hj]; auto.
  - intros resolved' [Hev Hkeep]. apply resolved_all; [done|]. intros at_ Hat. apply Hkeep.
    destruct (Hcase at_ Hat) as [H|H]; [left|by right]. rewrite fst_zip by (unfold len in Hn; lia). done.
Qed.

Lemma resolve_batch_ok pack pack_id batch :
  Forall (fun run => run_ok blocks run /\ run_pack run = pack_id) batch -> get packs pack_id = Some pack ->
  (exists file, get files pack_id = Some file /\ pm_len pack = len file) ->
  yields honest (resolve_batch io sha256 cache blocks pack batch) (resolved_ok batch).
Proof.
  intros Hbatch Hpack (file & Hfile & Hlen). unfold resolve_batch. eapply yields_bind.
  - apply resolve_hits_ok. eapply Forall_impl; [exact Hbatch|]. by intros run [? _].
  - intros resolved Hres. by eapply fetch_misses_ok.
Qed.

(** ** Visiting in order *)

Section visitor.
Context {V : Type} (visit : N -> list N -> ST V unit) (ids : list N).
Context (I : list N -> V -> Prop) (E : V -> Prop).
Context (Hvisit : forall pre id post d, ids = pre ++ id :: post -> get decoded id = Some d ->
  triple (I pre) (visit id d) (fun _ => I (pre ++ [id])) E).
Context (Hfail : forall pre v, I pre v -> ~ honest -> E v).

Lemma visit_compressed_block_ok pre id post c :
  ids = pre ++ id :: post -> verified id c ->
  triple (I pre) (visit_compressed_block decompress sha256 blocks visit id c) (fun _ => I (pre ++ [id])) E.
Proof.
  intros Hids (b & Hb & Hc). unfold visit_compressed_block.
  destruct (stored_at id b Hb) as (d & Hd & _ & _ & _ & _ & _ & _ & Hlen & _).
  eapply triple_bind; [apply (triple_lift_ok _ _ b); by rewrite Hb|]. intros ?. apply triple_pure. intros ->.
  eapply triple_bind; [apply (triple_lift_ok _ _ tt); by rewrite bool_decide_true|]. intros ?. apply triple_pure. intros _.
  eapply triple_bind; [apply (triple_lift_ok _ _ d); by eapply (wo_digest Hworld)|]. intros ?. apply triple_pure. intros ->.
  eapply triple_bind; [apply (triple_lift_ok _ _ tt); by rewrite Hlen, N.eqb_refl|]. intros ?. apply triple_pure. intros _.
  by eapply Hvisit.
Qed.

Lemma visit_run_ok pre run hit post :
  ids = pre ++ run_blocks run ++ post -> (exists cs, hit = Some cs /\ Forall2 verified (run_blocks run) cs) ->
  triple (I pre) (visit_run decompress sha256 blocks visit (run, hit)) (fun _ => I (pre ++ run_blocks run)) E.
Proof.
  intros Hids (cs & -> & Hcs). unfold visit_run. cbn [fst snd].
  eapply triple_bind; [by apply (triple_lift_ok _ _ cs)|]. intros ?. apply triple_pure. intros ->.
  eapply triple_weaken; [apply (triple_forS (fun done_ => I (pre ++ done_.*1)))| | |done].
  - intros done_ [id c] rest Hz. assert (zip (run_blocks run) cs !! length done_ = Some (id, c)) as Hk
      by (rewrite Hz; by rewrite lookup_app_r, Nat.sub_diag by lia).
    apply lookup_zip_with_Some in Hk as (a & b & [= <- <-] & Ha & Hb).
    assert (run_blocks run = done_.*1 ++ id :: rest.*1) as Hr.
    { rewrite <- (fst_zip (run_blocks run) cs), Hz, fmap_app; [done|]. by rewrite (Forall2_length _ _ _ Hcs). }
    rewrite fmap_app. cbn. rewrite app_assoc. eapply visit_compressed_block_ok.
    + rewrite Hids, Hr, <- !app_assoc. done.
    + rewrite Forall2_lookup in Hcs. specialize (Hcs (length done_)). rewrite Ha, Hb in Hcs. by inversion Hcs.
  - intros v. cbn. by rewrite app_nil_r.
  - intros [] v. by rewrite fst_zip by (by rewrite (Forall2_length _ _ _ Hcs)).
Qed.

Lemma on_fst_yields {A} pre (m : ST W A) (Q : A -> Prop) :
  yields honest m Q -> triple (fun s => I pre s.2) (on_fst (T := V) m) (fun a s => I pre s.2 /\ Q a) (fun s => E s.2).
Proof.
  intros H [w v] Hv. specialize (H w Logic.I). unfold on_fst. cbn in *. destruct (m w) as [[a|e|why] w']; cbn; [done| |done].
  by eapply Hfail.
Qed.
Lemma on_snd_visitor {A} (P : V -> Prop) (m : ST V A) Q :
  triple P m Q E -> triple (fun s => P s.2) (on_snd (S := W) m) (fun a s => Q a s.2) (fun s => E s.2).
Proof. intros H [w v] Hv. specialize (H v Hv). unfold on_snd. cbn in *. by destruct (m v) as [[a|e|why] v']. Qed.

Abbreviation ids_of runs := (concat (run_blocks <$> runs)).

Lemma visit_batch_ok pre pack pack_id pack_runs a b batch post :
  get_range pack_runs a b = Some batch -> ids = pre ++ ids_of batch ++ post ->
  Forall (fun run => run_ok blocks run /\ run_pack run = pack_id) batch -> get packs pack_id = Some pack ->
  (exists file, get files pack_id = Some file /\ pm_len pack = len file) ->
  triple (fun s => I pre s.2) (visit_batch io decompress sha256 cache blocks visit pack pack_runs (a, b))
    (fun _ s => I (pre ++ ids_of batch) s.2) (fun s => E s.2).
Proof.
  intros Hr Hids Hbatch Hpack Hfile. unfold visit_batch. cbn [fst snd].
  eapply triple_bind; [apply (triple_lift_ok _ _ batch); by rewrite Hr|]. intros ?. apply triple_pure. intros ->.
  eapply triple_bind; [apply on_fst_yields; by eapply resolve_batch_ok|]. intros resolved. cbn beta.
  apply triple_pure. intros Hres. apply (on_snd_visitor (I pre) _ (fun _ => I (pre ++ ids_of batch))).
  eapply triple_weaken; [apply (triple_forS (fun done_ => I (pre ++ ids_of done_.*1)))| | |done].
  - intros done_ [run hit] rest Hz. assert (batch = done_.*1 ++ run :: rest.*1) as Hb.
    { rewrite <- (fst_zip batch resolved), Hz, fmap_app; [done|]. by rewrite (Forall2_length _ _ _ Hres). }
    assert (zip batch resolved !! length done_ = Some (run, hit)) as Hk by (rewrite Hz; by rewrite lookup_app_r, Nat.sub_diag by lia).
    apply lookup_zip_with_Some in Hk as (x & y & [= <- <-] & Hx & Hy).
    rewrite (fmap_app fst), fmap_app, concat_app. cbn. rewrite app_nil_r, app_assoc. eapply visit_run_ok.
    + rewrite Hids, Hb, fmap_app, concat_app. cbn. by rewrite <- !app_assoc.
    + unfold resolved_ok in Hres. rewrite Forall2_lookup in Hres. specialize (Hres (length done_)). rewrite Hx, Hy in Hres. by inversion Hres.
  - intros v. cbn. by rewrite app_nil_r.
  - intros [] v. by rewrite fst_zip by (by rewrite (Forall2_length _ _ _ Hres)).
Qed.

Lemma spans_batches pre pack pack_id pack_runs ranges s e post :
  spans s ranges e -> e <= len pack_runs -> ids = pre ++ ids_of (take (N.to_nat e) pack_runs) ++ post ->
  Forall (fun run => run_ok blocks run /\ run_pack run = pack_id) pack_runs -> get packs pack_id = Some pack ->
  (exists file, get files pack_id = Some file /\ pm_len pack = len file) ->
  triple (fun s' => I (pre ++ ids_of (take (N.to_nat s) pack_runs)) s'.2)
    (forS (visit_batch io decompress sha256 cache blocks visit pack pack_runs) ranges)
    (fun _ s' => I (pre ++ ids_of (take (N.to_nat e) pack_runs)) s'.2) (fun s => E s.2).
Proof.
  intros Hsp He Hids Hruns Hpack Hfile. revert s Hsp. induction ranges as [|[a b] ranges IH]; intros s.
  { cbn [spans]. intros -> s' Hs'. exact Hs'. }
  cbn [spans]. intros (-> & Hab & Hsp). assert (b <= e) as Hbe.
  { clear -Hsp. revert b Hsp. induction ranges as [|[x y] ranges IH]; intros b; cbn; [lia|]. intros (-> & ? & ?%IH). lia. }
  destruct (get_range_is_Some pack_runs s b) as [batch Hbatch]; [lia|lia|].
  assert (take (N.to_nat b) pack_runs = take (N.to_nat s) pack_runs ++ batch) as Htake.
  { apply get_range_Some in Hbatch as (_ & _ & ->). rewrite <- (take_drop (N.to_nat s) (take (N.to_nat b) pack_runs)).
    rewrite take_take, skipn_firstn_comm. f_equal; f_equal; lia. }
  unfold forS. cbn [foldS]. eapply triple_bind.
  - eapply (visit_batch_ok (pre ++ ids_of (take (N.to_nat s) pack_runs)) pack pack_id pack_runs s b batch); [exact Hbatch| | |done|done].
    + rewrite Hids. instantiate (1 := ids_of (take (N.to_nat e - N.to_nat b) (drop (N.to_nat b) pack_runs)) ++ post).
      rewrite <- (take_drop (N.to_nat b) (take (N.to_nat e) pack_runs)), take_take, skipn_firstn_comm, Nat.min_l by lia.
      rewrite Htake, !fmap_app, !concat_app, <- !app_assoc. done.
    + apply get_range_Some in Hbatch as (_ & _ & ->). by apply Forall_take, Forall_drop.
  - intros []. cbn beta. rewrite <- app_assoc, <- concat_app, <- fmap_app, <- Htake. by apply (IH b Hsp).
Qed.

Lemma visit_pack_ok pre batch_bytes pack_runs post :
  ids = pre ++ ids_of pack_runs ++ post -> Forall (run_ok blocks) pack_runs ->
  (exists x rest, pack_runs = x :: rest /\ Forall (fun y => run_pack y = run_pack x) pack_runs) ->
  triple (fun s => I pre s.2) (visit_pack io decompress sha256 cache packs blocks visit batch_bytes pack_runs)
    (fun _ s => I (pre ++ ids_of pack_runs) s.2) (fun s => E s.2).
Proof.
  intros Hids Hruns (x & rest & Ex & Hsame). unfold visit_pack.
  eapply triple_bind; [apply (triple_lift_ok _ _ x); by rewrite Ex|]. intros ?. apply triple_pure. intros ->.
  assert (run_ok blocks x) as [Ht Hne _ _] by (rewrite Ex in Hruns; by apply Forall_cons in Hruns as [? _]).
  assert (exists file, get files (run_pack x) = Some file) as [file Hfile].
  { destruct (run_blocks x) as [|id l]; [done|]. destruct Ht as (b & Hb & Hp & _).
    destruct (stored_at id b Hb) as (d & _ & f & c & Hf & _). rewrite Hp in Hf. by exists f. }
  destruct (wo_packs Hworld _ _ Hfile) as (pack & Hpack & Hplen).
  eapply triple_bind; [apply (triple_lift_ok _ _ pack); by rewrite Hpack|]. intros ?. apply triple_pure. intros ->.
  eapply triple_weaken; [eapply (spans_batches pre pack (run_pack x) pack_runs _ 0 (len pack_runs) post)| | |done].
  - apply run_batches_spans.
  - done.
  - by rewrite take_ge by (unfold len; lia).
  - apply Forall_forall. intros run Hrun. rewrite Forall_forall in Hruns, Hsame. split; [auto|]. by apply Hsame.
  - done.
  - eauto.
  - intros s. cbn. by rewrite app_nil_r.
  - intros [] s. by rewrite take_ge by (unfold len; lia).
Qed.

(** [visit_blocks] over the runs of [ids] visits each of them, in order, with
    its decoded contents; it fails only when the visitor does or the store is
    not honest. *)
Lemma visit_blocks_ok runs batch_bytes :
  ids_of runs = ids -> Forall (run_ok blocks) runs ->
  triple (fun s => I [] s.2) (visit_blocks io decompress sha256 cache packs blocks visit runs batch_bytes)
    (fun _ s => I ids s.2) (fun s => E s.2).
Proof.
  intros Hids Hruns. unfold visit_blocks. set (chunks_ := chunk_by _ runs).
  assert (concat chunks_ = runs) as Hchunks by apply concat_chunk_by.
  assert (Forall (fun chunk => exists x rest, chunk = x :: rest /\ Forall (fun y => run_pack y = run_pack x) chunk) chunks_) as Hsame.
  { apply chunk_by_same. intros x y. apply N.eqb_eq. }
  eapply triple_weaken; [apply (triple_forS (fun done_ s => I (ids_of (concat done_)) s.2) _ _ (fun s => E s.2))| | |done].
  - intros done_ chunk rest Hsplit. rewrite concat_app, fmap_app, concat_app. cbn [concat]. rewrite app_nil_r.
    rewrite Hsplit in Hsame. apply Forall_app in Hsame as [_ Hsame]. apply Forall_cons in Hsame as [Hsame _].
    eapply (visit_pack_ok _ _ chunk (ids_of (concat rest))).
    + rewrite <- Hids, <- Hchunks, Hsplit, concat_app, fmap_app, concat_app. cbn [concat]. by rewrite fmap_app, concat_app.
    + rewrite <- Hchunks, Hsplit, concat_app in Hruns. apply Forall_app in Hruns as [_ Hruns]. cbn in Hruns. by apply Forall_app in Hruns as [? _].
    + exact Hsame.
  - done.
  - intros [] s. by rewrite Hchunks, Hids.
Qed.
End visitor.
End reading.

(** ** Properties *)

(** A consumer that keeps what it is given. *)
Definition keep {A} (index : N) (item : A) : ST (list (N * A)) unit := modify (fun seen => seen ++ [(index, item)]).

(** The blocks of [ids] with their decoded contents. *)
Definition shows (decoded : list (list N)) (ids : list N) (seen : list (N * list N)) : Prop :=
  Forall2 (fun id '(id', bytes) => id' = id /\ get decoded id = Some bytes) ids seen.

(** C13: reading any blocks of a table never panics, whatever the blob store and
    the block cache return.  The visitor gets the asked blocks in order, each
    with the bytes it was built from; a failure leaves it a prefix of them, and
    there is none while the store is honest. *)
Theorem visit_blocks_verified {W} (io : Io W) decompress sha256 cache packs blocks files decoded honest ids w :
  world_ok io decompress sha256 packs blocks files decoded honest -> (forall id, id ∈ ids -> id < len blocks) ->
  exists runs, block_runs ids blocks = Ok runs /\
    match visit_blocks io decompress sha256 cache packs blocks keep runs RANGE_BYTES (w, []) with
    | (Ok _, (_, seen)) => shows decoded ids seen
    | (Err _, (_, seen)) => ~ honest /\ exists k, shows decoded (take k ids) seen
    | (Panic _, _) => False
    end.
Proof.
  intros Hworld Hids. destruct (block_runs_ok blocks (wo_blocks _ _ _ _ _ _ _ _ Hworld) ids Hids) as (runs & Hruns & Hok & Hof).
  exists runs. split; [exact Hruns|].
  set (I := fun pre seen => pre `prefix_of` ids /\ shows decoded pre seen).
  assert (triple (fun s => I [] s.2) (visit_blocks io decompress sha256 cache packs blocks keep runs RANGE_BYTES) (fun _ s => I ids s.2)
    (fun s => ~ honest /\ exists k, shows decoded (take k ids) s.2)) as H.
  { apply (visit_blocks_ok io decompress sha256 cache packs blocks files decoded honest Hworld keep ids I
      (fun seen => ~ honest /\ exists k, shows decoded (take k ids) seen)); [| |exact Hof|exact Hok].
    - intros pre id post d -> Hd seen [_ Hseen]. split; [exists post; by rewrite <- app_assoc|].
      apply Forall2_app; [exact Hseen|]. by constructor.
    - intros pre seen [[post ->] Hseen] Hn. split; [exact Hn|]. exists (length pre). by rewrite take_app_length. }
  specialize (H (w, []) ltac:(split; [apply prefix_nil|apply Forall2_nil_2])).
  destruct (visit_blocks _ _ _ _ _ _ _ _ _ _) as [[[]|e|why] [w' seen]]; [by destruct H|done|done].
Qed.

(** ** Witnesses *)

(** A digest that identifies short byte strings. *)
Definition tiny_sha256 (b : list N) : list N := take 32 (len b :: b ++ replicate 32 0).
Definition demo_packed : list PackSlice * BuiltPacks := Eval vm_compute in
  match build_packs demo_compress tiny_sha256 3 8 demo_contents with Ok r => r | _ => ([], {| built_packs := []; built_blocks := [] |}) end.
Definition demo_packs : list PackMeta := Eval vm_compute in meta <$> built_packs demo_packed.2.
Definition demo_files : list (list N) := Eval vm_compute in pf_bytes <$> built_packs demo_packed.2.
Definition demo_pack_blocks : list PackBlock := Eval vm_compute in built_blocks demo_packed.2.
Definition demo_decoded : list (list N) := [[1; 2; 3]; [4; 5; 6]; [7]].

(** A store that serves its packs and a cache of named files. *)
Definition demo_store (name : list N) : option (list N) :=
  snd ∘ snd <$> list_find (fun entry => pack_blob (pm_hash entry.1) = name) (zip demo_packs demo_files).
Definition slices_of (blob : option (list N)) (ranges : list (N * N)) : res (list (list N)) :=
  file ← with_context blob "no such blob";
  mapM_res (fun '(offset, size) => with_context (get_range file offset (offset + size)) "range is out of bounds") ranges.
Definition demo_io : Io (list (list N * list N)) := {|
  io_get_ranges := fun name ranges => lift (slices_of (demo_store name) ranges);
  io_read_file := fun name w => (snd ∘ snd <$> list_find (fun entry => entry.1 = name) w, w);
  io_write_back := fun name bytes w => (name, bytes) :: w;
|}.

Lemma demo_blocks_stored : Forall2 (stored demo_decompress tiny_sha256 demo_files) demo_pack_blocks demo_decoded.
Proof.
  constructor; [|constructor; [|constructor; [|constructor]]];
    [exists [0; 1; 2; 3; 0; 4; 5; 6], [0; 1; 2; 3]|exists [0; 1; 2; 3; 0; 4; 5; 6], [0; 4; 5; 6]|exists [0; 7], [0; 7]];
    split_and!; vm_compute; reflexivity.
Qed.
Lemma demo_blocks_ok : blocks_ok demo_pack_blocks.
Proof.
  split_and!; [by repeat (apply Forall_cons; split; [split_and!; vm_compute; try done; discriminate|])|intros b [= <-]; done|].
  intros i a b Ha Hb. pose proof (get_Some_lt _ _ _ Hb) as Hi. change (len demo_pack_blocks) with 3 in Hi.
  assert (i = 0 \/ i = 1) as [->| ->] by lia; vm_compute in Ha, Hb; injection Ha as <-; injection Hb as <-; vm_compute; intuition congruence.
Qed.
Lemma tiny_sha256_inj a b : len b < 32 -> tiny_sha256 a = tiny_sha256 b -> a = b.
Proof.
  unfold tiny_sha256. intros Hb H. injection H as Hl H. rewrite !take_app, !(take_ge a), !(take_ge b) in H by (unfold len in *; lia).
  by apply app_inj_1 in H as [-> _]; [|unfold len in *; lia].
Qed.

Lemma slices_of_no_panic blob ranges : no_panic (slices_of blob ranges).
Proof.
  unfold no_panic, slices_of. destruct blob as [file|]; cbn; [|congruence].
  induction ranges as [|[o n] ranges IH]; cbn; [congruence|]. destruct (get_range file o (o + n)); cbn; [|congruence].
  intros why. specialize (IH why). destruct (mapM_res _ ranges); cbn; congruence.
Qed.
Lemma slices_of_ok file ranges :
  Forall (fun '(offset, size) => offset + size <= len file) ranges ->
  exists parts, slices_of (Some file) ranges = Ok parts /\
    Forall2 (fun '(offset, size) part => get_range file offset (offset + size) = Some part) ranges parts.
Proof.
  unfold slices_of. cbn. induction 1 as [|[o n] ranges Hon _ (parts & IH & Hparts)]; cbn; [by eexists|].
  destruct (get_range_is_Some file o (o + n)) as [part Hpart]; [lia|done|]. rewrite Hpart. cbn. rewrite IH. cbn.
  eexists. split; [done|]. by constructor.
Qed.
Lemma demo_world : world_ok demo_io demo_decompress tiny_sha256 demo_packs demo_pack_blocks demo_files demo_decoded True.
Proof.
  split; [exact demo_blocks_stored|exact demo_blocks_ok| | |intros name ranges w; apply slices_of_no_panic|].
  - intros i file H. pose proof (get_Some_lt _ _ _ H) as Hi. change (len demo_files) with 2 in Hi.
    assert (i = 0 \/ i = 1) as [->| ->] by lia; vm_compute in H; injection H as <-; eexists; split; vm_compute; reflexivity.
  - intros i b d c Hb Hd Hc. destruct (Forall2_lookup_l _ _ _ _ _ demo_blocks_stored Hb) as (d' & Hd' & file & z & _ & _ & Hh & Hl & Hn & Hz).
    unfold get in Hd. rewrite Hd' in Hd. injection Hd as ->. rewrite Hh in Hc. apply tiny_sha256_inj in Hc as ->.
    + by rewrite Hn.
    + destruct demo_blocks_ok as (Hall & _). rewrite <- Hl. pose proof (get_Some_lt _ _ _ Hb) as Hi. change (len demo_pack_blocks) with 3 in Hi.
      clear -Hb Hi. assert (i = 0 \/ i = 1 \/ i = 2) as [->|[->| ->]] by lia; vm_compute in Hb; injection Hb as <-; done.
  - intros _ i pack file ranges w Hp Hf Hr. assert (demo_store (pack_blob (pm_hash pack)) = Some file) as Hs.
    { pose proof (get_Some_lt _ _ _ Hf) as Hi. change (len demo_files) with 2 in Hi.
      assert (i = 0 \/ i = 1) as [->| ->] by lia; vm_compute in Hp, Hf; injection Hp as <-; injection Hf as <-; vm_compute; reflexivity. }
    destruct (slices_of_ok file ranges Hr) as (parts & Hparts & Hall). exists parts, w. split; [|exact Hall].
    unfold demo_io, lift, io_get_ranges. by rewrite Hs, Hparts.
Qed.

Lemma visit_blocks_verified_witness :
  (exists runs, block_runs [0; 1; 2] demo_pack_blocks = Ok runs /\
    match visit_blocks demo_io demo_decompress tiny_sha256 true demo_packs demo_pack_blocks keep runs RANGE_BYTES ([], []) with
    | (Ok _, (_, seen)) => shows demo_decoded [0; 1; 2] seen
    | (Err _, (_, seen)) => ~ True /\ exists k, shows demo_decoded (take k [0; 1; 2]) seen
    | (Panic _, _) => False
    end) /\
  exists runs, block_runs [0; 1; 2] demo_pack_blocks = Ok runs /\ len runs = 2 /\
    (visit_blocks demo_io demo_decompress tiny_sha256 true demo_packs demo_pack_blocks keep runs RANGE_BYTES ([], [])).2.2 =
      [(0, [1; 2; 3]); (1, [4; 5; 6]); (2, [7])].
Proof.
  split; [|by eexists].
  apply (visit_blocks_verified demo_io demo_decompress tiny_sha256 true demo_packs demo_pack_blocks demo_files demo_decoded True [0; 1; 2] [] demo_world).
  intros id H. change (len demo_pack_blocks) with 3. rewrite !elem_of_cons, elem_of_nil in H. lia.
Defined.
