(* ===== verification/PackBatch.v ===== *)
(** * Decoded blocks shared by the requests of a batch (crates/index/src/pack.rs)

    [PackBatch] keeps each block it decoded, in memory or in a temporary file;
    a loader claims the missing blocks, marks them as loading, and on every
    exit releases the claims it did not fulfil.  Byte ranges of a document are
    assembled from the decoded blocks, and grown to whole lines or located by
    line number with the help of the newline count of each block.  The state of
    the batch is the second half of the state of [ST]; the world is the first.
    One loader runs at a time here: a loader that finds a block being loaded by
    another one would wait, which is a panic of this model and shown not to
    happen. *)

From S2P Require Import Prelude BitPack Bytes Trigrams Format PackBuild PackRead.

Inductive DecodedBlock : Type :=
  | DMemory (bytes : list N)
  | DFile (file offset size : N).

Inductive BlockEntry : Type :=
  | BLoading
  | BReady (decoded : DecodedBlock).

Record BlockState : Type := { entries : gmap N BlockEntry; temp_files : list (list N) }.

(** [DecodedBlock::read] *)
Definition read_decoded (temp_files : list (list N)) (decoded : DecodedBlock) (a b : N) : res (list N) :=
  match decoded with
  | DMemory bytes => with_context (get_range bytes a b) "document block range is out of bounds"
  | DFile file offset size =>
      ensure (b <=? size) "document block range is out of bounds";;
      start ← with_context (checked_add U64 offset a) "document block range overflows";
      content ← expect (get temp_files file) "the temporary file is open";
      with_context (get_range content start (start + (b - a))) "failed to fill whole buffer"
  end.

Definition is_ready (state : BlockState) (block_id : N) : bool :=
  match entries state !! block_id with Some (BReady _) => true | _ => false end.
Definition is_loading (state : BlockState) (block_id : N) : bool :=
  match entries state !! block_id with Some BLoading => true | _ => false end.

Definition set_entries (f : gmap N BlockEntry -> gmap N BlockEntry) (state : BlockState) : BlockState :=
  {| entries := f (entries state); temp_files := temp_files state |}.

(** The critical section that claims: [None] when every block is ready. *)
Definition claim (block_ids : list N) : ST BlockState (option (list N)) := fun state =>
  if forallb (is_ready state) block_ids then (Ok None, state)
  else if existsb (is_loading state) block_ids then (Panic "waits for another loader", state)
  else
    let claimed := filter (fun block_id => entries state !! block_id = None) block_ids in
    (Ok (Some claimed), set_entries (fun entries => foldr (fun block_id entries => <[block_id := BLoading]> entries) entries claimed) state).

(** [Drop for LoadingClaims] *)
Definition release (block_ids : list N) (state : BlockState) : BlockState :=
  set_entries (fun entries =>
    foldr (fun block_id entries => match entries !! block_id with Some BLoading => delete block_id entries | _ => entries end)
      entries block_ids) state.

Definition fulfil (block_id : N) (decoded : DecodedBlock) (state : BlockState) : BlockState :=
  if is_loading state block_id then set_entries <[block_id := BReady decoded]> state else state.

(** A local variable of a closure. *)
Definition with_local {W B C A} (c : C) (m : ST (W * (B * C)) A) : ST (W * B) A := fun s =>
  let '(r, (w, (b, _))) := m (s.1, (s.2, c)) in (r, (w, b)).

(** [seek(offset)] and [write_all(bytes)] *)
Definition write_file (content : list N) (offset : N) (bytes : list N) : list N :=
  take (N.to_nat offset) content ++ replicate (N.to_nat (offset - len content)) 0 ++ bytes ++
  drop (N.to_nat (offset + len bytes)) content.

Section batch.
Context {W : Type} (io : Io W) (decompress : list N -> N -> res (list N)) (sha256 : list N -> list N).
Context (cache : bool) (packs : list PackMeta) (blocks : list PackBlock).

Section load.
Context {C : Type} (store_block : list N -> ST (BlockState * C) DecodedBlock).

Definition load_visit (block_id : N) (decoded : list N) : ST (BlockState * C) unit :=
  stored ← store_block decoded;
  on_fst (modify (fulfil block_id stored)).

Definition load_claimed (block_ids claimed : list N) : ST (W * (BlockState * C)) unit :=
  runs ← lift (block_runs claimed blocks);
  _ ← visit_blocks io decompress sha256 cache packs blocks load_visit runs RANGE_BYTES;
  complete ← gets (fun s => forallb (is_ready s.2.1) block_ids);
  lift (ensure complete "decoded pack block is missing").

Definition load_blocks_with (block_ids : list N) : ST (W * (BlockState * C)) unit :=
  if decide (block_ids = []) then mret tt
  else
    claimed ← on_snd (on_fst (claim block_ids));
    match claimed with
    | None => mret tt
    | Some claimed => finally (load_claimed block_ids claimed) (fun s => (s.1, (release claimed s.2.1, s.2.2)))
    end.
End load.

Definition load_blocks (block_ids : list N) : ST (W * BlockState) unit :=
  with_local tt (load_blocks_with (fun decoded => mret (DMemory decoded)) block_ids).

(** The closure of [load_blocks_to_file]; its local is the offset. *)
Definition store_to_file (file : N) (decoded : list N) : ST (BlockState * N) DecodedBlock := fun '(state, offset) =>
  match get (temp_files state) file with
  | None => (Panic "the temporary file is open", (state, offset))
  | Some content =>
      let state' := {| entries := entries state;
        temp_files := <[N.to_nat file := write_file content offset decoded]> (temp_files state) |} in
      match checked_add U64 offset (len decoded) with
      | None => (Err "decoded block file offset overflows", (state', offset))
      | Some offset' => (Ok (DFile file offset (len decoded)), (state', offset'))
      end
  end.

Definition open_temp_file (state : BlockState) : BlockState :=
  {| entries := entries state; temp_files := temp_files state ++ [[]] |}.

Definition load_blocks_to_file (block_ids : list N) : ST (W * BlockState) unit :=
  file ← gets (fun s => len (temp_files s.2));
  _ ← on_snd (modify open_temp_file);
  with_local 0 (load_blocks_with (store_to_file file) block_ids).

(** ** Reading a range of a document *)

Definition part_end (part : DocumentBlock) : N := db_start part + db_len part.
Definition overlaps (a b : N) (part : DocumentBlock) : bool := (a <? part_end part) && (db_start part <? b).

(** [BTreeSet::insert] *)
Definition set_insert (x : N) (set : list N) : list N := sort_dedup (x :: set).

Definition overlapping_blocks (parts : list DocumentBlock) (a b : N) (output : list N) : list N :=
  fold_left (fun output part => if overlaps a b part then set_insert (db_block_id part) output else output) parts output.

(** The bytes of [a..b] that lie in one part. *)
Definition read_part (a b : N) (part : DocumentBlock) : ST BlockState (list N) := fun state =>
  let from := N.max a (db_start part) - db_start part in
  let to := N.min b (part_end part) - db_start part in
  (match entries state !! db_block_id part with
   | Some (BReady decoded) =>
       start ← with_context (checked_add U64 (db_offset part) from) "document block range overflows";
       end_ ← with_context (checked_add U64 (db_offset part) to) "document block range overflows";
       read_decoded (temp_files state) decoded start end_
   | _ => Err "decoded pack block is missing"
   end, state).

Definition read_range (parts : list DocumentBlock) (a b : N) : ST (W * BlockState) (list N) :=
  size ← lift (with_context (checked_sub b a) "document range is invalid");
  if size =? 0 then mret []
  else
    _ ← load_blocks (overlapping_blocks parts a b []);
    let matching := filter (fun part => overlaps a b part = true) parts in
    bytes ← on_snd (match matching with
      | [part] => read_part a b part
      | _ => foldS (fun output part => bytes ← read_part a b part; mret (output ++ bytes)) [] matching
      end);
    _ ← lift (ensure (len bytes =? size) "document range is incomplete");
    mret bytes.
End batch.

(** ** Overlapping parts and cuts *)

Lemma overlapping_blocks_spec parts a b out id :
  ascending out ->
  ascending (overlapping_blocks parts a b out) /\
  (id ∈ overlapping_blocks parts a b out <-> id ∈ out \/ exists part, part ∈ parts /\ overlaps a b part = true /\ id = db_block_id part).
Proof.
  revert out. induction parts as [|part parts IH]; intros out Hout; cbn [overlapping_blocks fold_left]; [set_solver|].
  unfold overlapping_blocks in IH. destruct (overlaps a b part) eqn:E.
  - destruct (IH (set_insert (db_block_id part) out)) as [H1 H2]; [apply sort_dedup_ascending|]. split; [done|].
    rewrite H2. unfold set_insert. rewrite elem_of_sort_dedup. set_solver.
  - destruct (IH out Hout) as [H1 H2]. split; [done|]. rewrite H2. split; [set_solver|].
    intros [?|(p & [->|?]%elem_of_cons & ? & ?)]; [by left|congruence|]. right. eauto.
Qed.

(** ** Claiming and releasing *)

Lemma claim_entries (claimed : list N) (m : gmap N BlockEntry) id :
  foldr (fun block_id entries => <[block_id := BLoading]> entries) m claimed !! id =
  if decide (id ∈ claimed) then Some BLoading else m !! id.
Proof.
  induction claimed as [|x claimed IH]; cbn [foldr]; [by rewrite decide_False by set_solver|].
  destruct (decide (x = id)) as [->|]; [rewrite lookup_insert_eq, decide_True by set_solver; done|].
  rewrite lookup_insert_ne, IH by done. destruct (decide (id ∈ claimed)), (decide (id ∈ x :: claimed)); set_solver.
Qed.
Lemma release_entries (claimed : list N) (m : gmap N BlockEntry) id :
  foldr (fun block_id entries => match entries !! block_id with Some BLoading => delete block_id entries | _ => entries end) m claimed !! id =
  match m !! id with Some BLoading => if decide (id ∈ claimed) then None else Some BLoading | e => e end.
Proof.
  induction claimed as [|x claimed IH]; cbn [foldr].
  { rewrite decide_False by set_solver. by destruct (m !! id) as [[|]|]. }
  set (m' := foldr _ m claimed) in *. destruct (decide (x = id)) as [->|Hne].
  - rewrite (decide_True (P := id ∈ id :: claimed)) by set_solver. rewrite IH.
    destruct (m !! id) as [[|d]|] eqn:E; [destruct (decide (id ∈ claimed))| |]; rewrite ?IH; try done. by rewrite lookup_delete_eq.
  - assert (match m' !! x with Some BLoading => delete x m' | _ => m' end !! id = m' !! id) as ->.
    { destruct (m' !! x) as [[|]|]; [by rewrite lookup_delete_ne|done|done]. }
    rewrite IH. destruct (m !! id) as [[|]|]; [|done|done]. destruct (decide (id ∈ claimed)), (decide (id ∈ x :: claimed)); set_solver.
Qed.

Section loading.
Context {W : Type} (io : Io W) (decompress : list N -> N -> res (list N)) (sha256 : list N -> list N).
Context (cache : bool) (packs : list PackMeta) (blocks : list PackBlock).
Context (files decoded : list (list N)) (honest : Prop).
Context (Hworld : world_ok io decompress sha256 packs blocks files decoded honest).

(** A decoded block that reads back as [bytes]. *)
Definition reads (temp_files : list (list N)) (d : DecodedBlock) (bytes : list N) : Prop :=
  match d with
  | DMemory content => content = bytes
  | DFile file offset size => exists content, get temp_files file = Some content /\
      get_range content offset (offset + size) = Some bytes /\ offset + size < U64
  end.

Definition entry_good (state : BlockState) (id : N) (e : BlockEntry) : Prop :=
  exists d bytes, e = BReady d /\ get decoded id = Some bytes /\ reads (temp_files state) d bytes.

(** Between loads every entry is a block that decoded correctly. *)
Definition batch_ok (state : BlockState) : Prop := forall id e, entries state !! id = Some e -> entry_good state id e.

(** During a load, with [done_] of the claims fulfilled. *)
Record loading_ok (ids claimed done_ : list N) (state : BlockState) : Prop := {
  lo_entries : forall id e, entries state !! id = Some e -> (e = BLoading /\ id ∈ claimed /\ id ∉ done_) \/ entry_good state id e;
  lo_ids : forall id, id ∈ ids -> id ∈ claimed \/ is_ready state id = true;
  lo_done : forall id, id ∈ claimed -> if decide (id ∈ done_) then is_ready state id = true else is_loading state id = true;
}.

Lemma is_ready_spec state id : is_ready state id = true <-> exists d, entries state !! id = Some (BReady d).
Proof. unfold is_ready. destruct (entries state !! id) as [[|d]|]; split; try done; [intros [? ?]; done|eauto|intros [? ?]; done]. Qed.
Lemma is_loading_spec state id : is_loading state id = true <-> entries state !! id = Some BLoading.
Proof. unfold is_loading. destruct (entries state !! id) as [[|d]|]; split; done. Qed.

Lemma claim_ok ids :
  triple batch_ok (claim ids)
    (fun claimed state => match claimed with
      | None => batch_ok state /\ forall id, id ∈ ids -> is_ready state id = true
      | Some claimed => loading_ok ids claimed [] state /\ sublist claimed ids
      end) (fun _ => False).
Proof.
  intros state Hok. unfold claim. destruct (forallb (is_ready state) ids) eqn:Er.
  { split; [done|]. by apply forallb_elem. }
  destruct (existsb (is_loading state) ids) eqn:El.
  { apply existsb_elem in El as (id & _ & H%is_loading_spec). destruct (Hok _ _ H) as (d & b & ? & _). done. }
  split; [|apply sublist_filter]. set (claimed := filter _ ids).
  assert (forall id, entries state !! id = None \/ exists d, entries state !! id = Some (BReady d)) as Hcase.
  { intros id. destruct (entries state !! id) as [e|] eqn:E; [right|by left]. destruct (Hok _ _ E) as (d & _ & -> & _). eauto. }
  assert (forall id, id ∈ claimed -> entries state !! id = None) as Hcl by (intros id [? _]%list_elem_of_filter; done).
  split; cbn [set_entries entries temp_files].
  - intros id e. rewrite claim_entries. destruct (decide (id ∈ claimed)); [intros [= <-]; left; set_solver|].
    intros H. right. by apply Hok in H.
  - intros id Hid. destruct (Hcase id) as [Hn|[d Hd]]; [left; by apply list_elem_of_filter|right].
    unfold is_ready. cbn. rewrite claim_entries, decide_False; [by rewrite Hd|]. intros H%Hcl. congruence.
  - intros id Hid. rewrite decide_False by set_solver. unfold is_loading. cbn. by rewrite claim_entries, decide_True.
Qed.

Lemma release_ok ids claimed done_ state : loading_ok ids claimed done_ state -> batch_ok (release claimed state).
Proof.
  intros [He _ Hd] id e. unfold release. cbn [set_entries entries]. rewrite release_entries.
  destruct (entries state !! id) as [[|d]|] eqn:E; [|intros [= <-]; destruct (He _ _ E) as [(? & _)|H]; done|done].
  destruct (He _ _ E) as [(_ & Hin & _)|(d & b & ? & _)]; [by rewrite decide_True|done].
Qed.
Lemma release_done ids claimed state :
  loading_ok ids claimed claimed state -> forall id, id ∈ ids -> is_ready (release claimed state) id = true.
Proof.
  intros [He Hi Hd] id Hid. assert (is_ready state id = true) as (d & E)%is_ready_spec.
  { destruct (Hi id Hid) as [Hc|]; [|done]. specialize (Hd id Hc). by rewrite decide_True in Hd. }
  unfold is_ready, release. cbn [set_entries entries]. rewrite release_entries, E. done.
Qed.

(** The closure that stores a decoded block, over its local state. *)
Section store.
Context {C : Type} (store_block : list N -> ST (BlockState * C) DecodedBlock) (J : list N -> BlockState -> C -> Prop).
Context (Hstore : forall done_ id bytes state c, ascending (done_ ++ [id]) -> (forall x, x ∈ done_ ++ [id] -> x < len blocks) ->
  get decoded id = Some bytes -> J done_ state c -> exists d state' c', store_block bytes (state, c) = (Ok d, (state', c')) /\
    entries state' = entries state /\ reads (temp_files state') d bytes /\
    (forall d0 b0, reads (temp_files state) d0 b0 -> reads (temp_files state') d0 b0) /\
    forall e, J (done_ ++ [id]) {| entries := e; temp_files := temp_files state' |} c').
Context (HJ : forall done_ state c e, J done_ state c -> J done_ {| entries := e; temp_files := temp_files state |} c).

Lemma load_visit_ok ids claimed pre id post bytes :
  ascending claimed -> (forall x, x ∈ claimed -> x < len blocks) -> claimed = pre ++ id :: post -> get decoded id = Some bytes ->
  triple (fun s => loading_ok ids claimed pre s.1 /\ J pre s.1 s.2) (load_visit store_block id bytes)
    (fun _ s => loading_ok ids claimed (pre ++ [id]) s.1 /\ J (pre ++ [id]) s.1 s.2)
    (fun s => exists done_, loading_ok ids claimed done_ s.1 /\ ~ honest).
Proof.
  intros Hasc Hlt Hsplit Hbytes [state c] [[He Hi Hd] HJs]. cbn [fst snd] in *.
  assert (claimed = (pre ++ [id]) ++ post) as Hsplit2 by (by rewrite <- app_assoc). pose proof Hasc as Hasc2. rewrite Hsplit2 in Hasc2.
  destruct (Hstore pre id bytes state c) as (d & state' & c' & Hs & Hent & Hr & Hkeep & HJ').
  { apply ascending_app in Hasc2. tauto. }
  { intros x Hx. apply Hlt. rewrite Hsplit2. set_solver. }
  { done. } { done. }
  assert (id ∉ pre) as Hnew.
  { intros Hin. apply ascending_nodup in Hasc. rewrite Hsplit in Hasc. apply NoDup_app in Hasc as (_ & Hn & _). apply (Hn id Hin). left. }
  assert (id ∈ claimed) as Hidc by (rewrite Hsplit; set_solver).
  assert (is_loading state' id = true) as Hload.
  { unfold is_loading. rewrite Hent. specialize (Hd id Hidc). by rewrite decide_False in Hd. }
  assert (fulfil id d state' = {| entries := <[id := BReady d]> (entries state); temp_files := temp_files state' |}) as Hf
    by (unfold fulfil; rewrite Hload; unfold set_entries; by rewrite Hent).
  unfold load_visit, mbind, ST_bind. rewrite Hs. unfold on_fst, modify. cbn [fst snd]. rewrite Hf.
  split; [|apply HJ']. split; cbn [entries temp_files].
  - intros x e. rewrite lookup_insert_Some. intros [[<- <-]|[Hne Hx]].
    + right. exists d, bytes. done.
    + destruct (He _ _ Hx) as [(-> & Hc & Hn)|(d0 & b0 & -> & Hb & Hr0)]; [left; split_and!; [done|done|rewrite elem_of_app, list_elem_of_singleton; naive_solver]|right].
      exists d0, b0. split_and!; [done|done|]. by apply Hkeep.
  - intros x Hx. destruct (decide (x = id)) as [->|Hne]; [by left|]. destruct (Hi x Hx) as [|Hready]; [by left|right].
    unfold is_ready in *. cbn. by rewrite lookup_insert_ne.
  - intros x Hx. destruct (decide (x = id)) as [->|Hne].
    + rewrite decide_True by set_solver. unfold is_ready. cbn. by rewrite lookup_insert_eq.
    + specialize (Hd x Hx). assert (x ∈ pre ++ [id] <-> x ∈ pre) as Hiff by (rewrite elem_of_app, list_elem_of_singleton; tauto).
      unfold is_ready, is_loading in *. cbn [entries]. rewrite lookup_insert_ne by done.
      destruct (decide (x ∈ pre)), (decide (x ∈ pre ++ [id])); tauto.
Qed.

Lemma load_claimed_ok ids claimed :
  ascending claimed -> (forall x, x ∈ claimed -> x < len blocks) ->
  triple (fun s : W * (BlockState * C) => loading_ok ids claimed [] s.2.1 /\ J [] s.2.1 s.2.2)
    (load_claimed io decompress sha256 cache packs blocks store_block ids claimed)
    (fun _ s => loading_ok ids claimed claimed s.2.1)
    (fun s => exists done_, loading_ok ids claimed done_ s.2.1 /\ ~ honest).
Proof.
  intros Hasc Hlt. unfold load_claimed.
  destruct (block_runs_ok blocks (wo_blocks _ _ _ _ _ _ _ _ Hworld) claimed Hlt) as (runs & Hruns & Hrok & Hids).
  eapply triple_bind; [apply (triple_lift_ok _ _ runs); exact Hruns|]. intros ?. apply triple_pure. intros ->.
  eapply triple_bind.
  - apply (visit_blocks_ok io decompress sha256 cache packs blocks files decoded honest Hworld (load_visit store_block) claimed
      (fun done_ s => loading_ok ids claimed done_ s.1 /\ J done_ s.1 s.2)
      (fun s => exists done_, loading_ok ids claimed done_ s.1 /\ ~ honest)); [|eauto|exact Hids|exact Hrok].
    + intros. by eapply load_visit_ok.
    + intros pre v [H _] Hn. eauto.
  - intros []. eapply triple_bind; [apply triple_gets|]. intros complete. cbn beta.
    intros s [[H _] ->]. assert (forallb (is_ready s.2.1) ids = true) as ->.
    { apply forallb_elem. intros id Hid. destruct (lo_ids _ _ _ _ H id Hid) as [Hc|]; [|done].
      pose proof (lo_done _ _ _ _ H id Hc) as Hd. by rewrite decide_True in Hd. }
    exact H.
Qed.

Lemma load_blocks_with_ok ids :
  ascending ids -> (forall x, x ∈ ids -> x < len blocks) ->
  triple (fun s : W * (BlockState * C) => batch_ok s.2.1 /\ J [] s.2.1 s.2.2)
    (load_blocks_with io decompress sha256 cache packs blocks store_block ids)
    (fun _ s => batch_ok s.2.1 /\ forall id, id ∈ ids -> is_ready s.2.1 id = true)
    (fun s => batch_ok s.2.1 /\ ~ honest).
Proof.
  intros Hasc Hlt. unfold load_blocks_with. destruct (decide (ids = [])) as [->|Hne].
  { intros s [H _]. split; [done|]. set_solver. }
  eapply (triple_bind _ _ _ (fun claimed s => match claimed with
      | None => batch_ok s.2.1 /\ forall id, id ∈ ids -> is_ready s.2.1 id = true
      | Some claimed => (loading_ok ids claimed [] s.2.1 /\ sublist claimed ids) /\ J [] s.2.1 s.2.2
      end)).
  - intros [w [state c]] [Hok HJs]. pose proof (claim_ok ids state Hok) as H. unfold on_snd, on_fst. cbn [fst snd] in *.
    assert (forall r s', claim ids state = (r, s') -> J [] s' c) as HJ'.
    { intros r s'. unfold claim. destruct (forallb _ ids); [by intros [= _ <-]|]. destruct (existsb _ ids); [by intros [= _ <-]|].
      intros [= _ <-]. by apply HJ. }
    destruct (claim ids state) as [[[claimed|]|e|why] s'] eqn:E; cbn [fst snd]; [split; [done|by eapply HJ']|done|done|done].
  - intros [claimed|]; [|intros s Hs; exact Hs]. apply triple_finally.
    eapply triple_pre. intros s [[Hl Hsub] HJs]. assert (ascending claimed /\ forall x, x ∈ claimed -> x < len blocks) as [Hc1 Hc2].
    { split; [by eapply sublist_ascending|]. intros x Hx. apply Hlt. by eapply (elem_of_sublist _ _ x Hx). }
    eapply triple_weaken; [by apply (load_claimed_ok ids claimed)|by intros ? ->| |].
    + intros [] s'. cbn. intros H. split; [by eapply release_ok|by apply release_done].
    + intros s' (done_ & H & Hn). cbn. split; [by eapply release_ok|done].
Qed.
End store.

Lemma triple_with_local {B C A} (P : W -> B -> C -> Prop) (c : C) (m : ST (W * (B * C)) A) (Q : A -> W -> B -> Prop) R :
  triple (fun s => P s.1 s.2.1 s.2.2) m (fun a s => Q a s.1 s.2.1) (fun s => R s.1 s.2.1) ->
  triple (fun s => P s.1 s.2 c) (with_local c m) (fun a s => Q a s.1 s.2) (fun s => R s.1 s.2).
Proof.
  intros H [w b] Hs. specialize (H (w, (b, c)) Hs). unfold with_local. cbn in *.
  destruct (m (w, (b, c))) as [[a|e|why] [w' [b' c']]]; done.
Qed.

Definition all_ready (ids : list N) (state : BlockState) : Prop := forall id, id ∈ ids -> is_ready state id = true.

Lemma load_blocks_ok ids :
  ascending ids -> (forall x, x ∈ ids -> x < len blocks) ->
  triple (fun s : W * BlockState => batch_ok s.2) (load_blocks io decompress sha256 cache packs blocks ids)
    (fun _ s => batch_ok s.2 /\ all_ready ids s.2) (fun s => batch_ok s.2 /\ ~ honest).
Proof.
  intros Hasc Hlt. unfold load_blocks.
  apply (triple_with_local (fun _ b _ => batch_ok b) tt _ (fun _ _ b => batch_ok b /\ all_ready ids b) (fun _ b => batch_ok b /\ ~ honest)).
  eapply triple_weaken; [apply (load_blocks_with_ok _ (fun _ _ _ => True)) with (ids := ids); [|done|done|done]| | |].
  - intros done_ id bytes state c _ _ _ _. exists (DMemory bytes), state, c. done.
  - intros s Hs. done.
  - intros [] s H. exact H.
  - intros s H. exact H.
Qed.

(** ** Temporary files *)

Lemma write_file_end content bytes : write_file content (len content) bytes = content ++ bytes.
Proof.
  unfold write_file. rewrite N.sub_diag, to_nat_len, firstn_all, drop_ge by (unfold len; lia). by rewrite app_nil_r.
Qed.

(** The decoded length of the blocks stored so far. *)
Definition stored_len (done_ : list N) : N := sumN ((fun id => default 0 (decoded_len <$> get blocks id)) <$> done_).

Definition file_local (file : N) (done_ : list N) (state : BlockState) (offset : N) : Prop :=
  exists content, get (temp_files state) file = Some content /\ len content = offset /\ offset = stored_len done_.

Lemma stored_len_bound done_ :
  ascending done_ -> (forall x, x ∈ done_ -> x < len blocks) -> len blocks < U32 -> stored_len done_ <= 2 ^ 32 * 131072.
Proof.
  intros Hasc Hlt Hsmall. assert (len done_ <= len blocks) as Hlen by (apply ascending_len_le; [done|]; by apply Forall_forall).
  assert (stored_len done_ <= len done_ * 131072); [|nia]. clear Hasc Hlen. unfold stored_len. induction done_ as [|id done_ IH]; [done|].
  cbn [fmap list_fmap]. rewrite sumN_cons, len_cons.
  assert (default 0 (decoded_len <$> get blocks id) <= 131072).
  { destruct (get blocks id) as [b|] eqn:E; [|cbn; lia]. destruct (wo_blocks _ _ _ _ _ _ _ _ Hworld) as (Hall & _).
    rewrite Forall_forall in Hall. destruct (Hall b) as (_ & H & _); [by eapply get_elem|]. change PACK_BLOCK_BYTES with 131072 in H. cbn. lia. }
  specialize (IH ltac:(intros; apply Hlt; by right)). lia.
Qed.

Lemma store_to_file_ok file done_ id bytes state offset :
  len blocks < U32 -> ascending (done_ ++ [id]) -> (forall x, x ∈ done_ ++ [id] -> x < len blocks) -> get decoded id = Some bytes ->
  file_local file done_ state offset ->
  exists d state' offset', store_to_file file bytes (state, offset) = (Ok d, (state', offset')) /\
    entries state' = entries state /\ reads (temp_files state') d bytes /\
    (forall d0 b0, reads (temp_files state) d0 b0 -> reads (temp_files state') d0 b0) /\
    forall e, file_local file (done_ ++ [id]) {| entries := e; temp_files := temp_files state' |} offset'.
Proof.
  intros Hsmall Hasc Hlt Hbytes (content & Hc & Hl & Ho). unfold store_to_file. rewrite Hc.
  destruct (get_is_Some blocks id) as [b Hb]; [apply Hlt; set_solver|].
  destruct (Forall2_lookup_l _ _ _ _ _ (wo_stored _ _ _ _ _ _ _ _ Hworld) Hb) as (d' & Hd' & _ & _ & _ & _ & _ & _ & Hdl & _).
  unfold get in Hbytes. rewrite Hbytes in Hd'. injection Hd' as <-.
  assert (stored_len (done_ ++ [id]) = offset + len bytes) as Hsum.
  { unfold stored_len. rewrite fmap_app. cbn. rewrite sumN_snoc, Hb. cbn. rewrite <- Hdl, Ho. done. }
  pose proof (stored_len_bound (done_ ++ [id]) Hasc Hlt Hsmall) as Hbound.
  unfold checked_add. destruct (N.ltb_spec (offset + len bytes) U64); [|lia].
  eexists _, _, _. split; [done|]. cbn [entries temp_files]. split; [done|].
  rewrite <- Hl, write_file_end. pose proof (get_Some_lt _ _ _ Hc) as Hf.
  assert (forall j, get (<[N.to_nat file := content ++ bytes]> (temp_files state)) j =
    if decide (file = j) then Some (content ++ bytes) else get (temp_files state) j) as Hget by (intros; by apply get_insert).
  split_and!.
  - exists (content ++ bytes). rewrite Hget, decide_True by done. split_and!; [done|by apply get_range_suffix|lia].
  - intros [m|f o n] b0; [done|]. cbn. intros (c0 & Hc0 & Hr & Hlt0). destruct (decide (file = f)) as [<-|Hne].
    + exists (content ++ bytes). rewrite Hget, decide_True by done. rewrite Hc in Hc0. injection Hc0 as <-.
      split_and!; [done|by apply get_range_app_l|done].
    + exists c0. rewrite Hget, decide_False by done. done.
  - intros e. exists (content ++ bytes). cbn. rewrite Hget, decide_True, len_app by done. split_and!; [done|lia|lia].
Qed.

Lemma load_blocks_to_file_ok ids :
  len blocks < U32 -> ascending ids -> (forall x, x ∈ ids -> x < len blocks) ->
  triple (fun s : W * BlockState => batch_ok s.2) (load_blocks_to_file io decompress sha256 cache packs blocks ids)
    (fun _ s => batch_ok s.2 /\ all_ready ids s.2) (fun s => batch_ok s.2 /\ ~ honest).
Proof.
  intros Hsmall Hasc Hlt. unfold load_blocks_to_file. eapply triple_bind; [apply triple_gets|]. intros file. cbn beta.
  eapply (triple_bind _ _ _ (fun _ s => batch_ok s.2 /\ file_local file [] s.2 0)).
  - intros [w state] [Hok ->]. cbn in *. split.
    + intros id e H. destruct (Hok id e H) as (d & b & -> & Hb & Hr). exists d, b. split_and!; [done|done|].
      destruct d as [m|f o n]; [done|]. destruct Hr as (c & Hc & Hr). exists c. split; [|done].
      change (temp_files (open_temp_file state)) with (temp_files state ++ [[]]). rewrite get_app_l by (by eapply get_Some_lt). done.
    + exists []. split_and!; [apply get_middle|done|done].
  - intros []. apply (triple_with_local (fun _ b o => batch_ok b /\ file_local file [] b o) 0 _
      (fun _ _ b => batch_ok b /\ all_ready ids b) (fun _ b => batch_ok b /\ ~ honest)).
    eapply triple_weaken; [apply (load_blocks_with_ok _ (file_local file)) with (ids := ids); [|done|done|done]| | |].
    + intros. by apply store_to_file_ok.
    + intros s H. exact H.
    + intros [] s H. exact H.
    + intros s H. exact H.
Qed.

(** ** Ranges *)

Section range.
Context (doc : list N) (parts : list DocumentBlock) (Hparts : parts_ok decoded doc parts).

Lemma reads_range state d bytes a b :
  reads (temp_files state) d bytes -> len bytes < U32 -> a <= b -> b <= len bytes -> read_decoded (temp_files state) d a b = Ok (cut bytes a b).
Proof.
  intros Hr Hsmall Ha Hb. destruct d as [m|file offset size]; cbn [reads read_decoded] in *.
  - subst m. by rewrite cut_get_range by done.
  - destruct Hr as (content & -> & Hc & Hfit). pose proof (get_range_len _ _ _ _ Hc) as Hl.
    destruct (N.leb_spec b size); [|lia]. cbn [ensure mbind res_bind]. unfold checked_add.
    destruct (N.ltb_spec (offset + a) U64); [|lia]. cbn [with_context expect mbind res_bind].
    replace (offset + a + (b - a)) with (offset + b) by lia.
    by rewrite <- (get_range_sub _ _ _ _ a b Hc), cut_get_range by lia.
Qed.

Lemma decoded_small id d : get decoded id = Some d -> len d <= 131072.
Proof.
  intros H. destruct (Forall2_lookup_r _ _ _ _ _ (wo_stored _ _ _ _ _ _ _ _ Hworld) H) as (b & Hb & _ & _ & _ & _ & _ & _ & Hdl & _).
  destruct (wo_blocks _ _ _ _ _ _ _ _ Hworld) as (Hall & _). rewrite Forall_forall in Hall.
  destruct (Hall b) as (_ & Hd & _); [apply list_elem_of_lookup; eauto|]. change PACK_BLOCK_BYTES with 131072 in Hd. lia.
Qed.

Lemma read_part_ok state a b part :
  batch_ok state -> is_ready state (db_block_id part) = true -> part_ok decoded doc part -> overlaps a b part = true -> b <= len doc -> a < b ->
  read_part a b part state = (Ok (cut doc (N.max a (db_start part)) (N.min b (part_end part))), state).
Proof.
  intros Hok (d & Hd)%is_ready_spec (bytes & piece & Hbytes & Hpiece & Hdoc) Ho Hb Hab. unfold read_part. rewrite Hd. f_equal.
  destruct (Hok _ _ Hd) as (d' & bytes' & [= <-] & Hbytes' & Hr). rewrite Hbytes in Hbytes'. injection Hbytes' as <-.
  pose proof (decoded_small _ _ Hbytes) as Hsmall. unfold overlaps, part_end in *. apply andb_prop in Ho as [Ho1%N.ltb_lt Ho2%N.ltb_lt].
  pose proof Hpiece as (_ & Hfit & _)%get_range_Some. pose proof Hdoc as (_ & Hfit2 & _)%get_range_Some.
  pose proof (get_range_len _ _ _ _ Hpiece) as Hlp.
  set (x := N.max a (db_start part)). set (y := N.min b (db_start part + db_len part)).
  unfold checked_add. destruct (N.ltb_spec (db_offset part + (x - db_start part)) U64); [|lia].
  destruct (N.ltb_spec (db_offset part + (y - db_start part)) U64); [|lia]. cbn [with_context mbind res_bind].
  rewrite (reads_range _ _ bytes) by (done || lia). f_equal.
  assert (Some (cut bytes (db_offset part + (x - db_start part)) (db_offset part + (y - db_start part))) = Some (cut doc x y)) as E; [|by injection E].
  rewrite <- !cut_get_range by lia. rewrite <- (get_range_sub _ _ _ _ (x - db_start part) (y - db_start part) Hpiece) by lia.
  rewrite (get_range_sub _ _ _ _ (x - db_start part) (y - db_start part) Hdoc) by lia. f_equal; lia.
Qed.

Definition piece (a b : N) (part : DocumentBlock) : list N := cut doc (N.max a (db_start part)) (N.min b (part_end part)).

Lemma pieces_cut s ps e a b :
  tiles s ps e -> a <= b ->
  concat (piece a b <$> filter (fun part => overlaps a b part = true) ps) = cut doc (N.max a s) (N.min b e).
Proof.
  revert s. induction ps as [|p ps IH]; intros s; cbn [tiles]; [intros -> _; by rewrite cut_nil by lia|].
  intros (Hs & Hl & Ht) Hab. assert (s + db_len p <= e) as Hle.
  { clear -Ht. revert Ht. generalize (s + db_len p). induction ps as [|q ps IH]; intros x; cbn [tiles]; [lia|]. intros (_ & ? & ?%IH). lia. }
  specialize (IH _ Ht Hab). rewrite filter_cons. destruct (decide (overlaps a b p = true)) as [Ho|Ho].
  - cbn [fmap list_fmap concat]. rewrite IH. unfold piece, part_end. rewrite Hs.
    unfold overlaps, part_end in Ho. apply andb_prop in Ho as [Ho1%N.ltb_lt Ho2%N.ltb_lt].
    destruct (decide (b <= s + db_len p)).
    + rewrite (cut_nil doc (N.max a (s + db_len p))) by lia. rewrite app_nil_r. f_equal; lia.
    + rewrite <- (cut_app doc (N.max a s) (s + db_len p) (N.min b e)) by lia. f_equal; f_equal; lia.
  - rewrite IH. apply not_true_iff_false in Ho. unfold overlaps, part_end in Ho. apply andb_false_iff in Ho.
    destruct Ho as [Ho%N.ltb_ge|Ho%N.ltb_ge]; [f_equal; lia|]. rewrite !cut_nil by lia. done.
Qed.

Lemma read_parts_ok state a b matching out :
  batch_ok state -> (forall p, p ∈ matching -> is_ready state (db_block_id p) = true /\ part_ok decoded doc p /\ overlaps a b p = true) ->
  b <= len doc -> a < b ->
  foldS (fun output part => bytes ← read_part a b part; mret (output ++ bytes)) out matching state =
    (Ok (out ++ concat (piece a b <$> matching)), state).
Proof.
  intros Hok. revert out. induction matching as [|p matching IH]; intros out Hm Hb Hab; cbn [foldS fmap list_fmap concat].
  { by rewrite app_nil_r. }
  destruct (Hm p) as (Hr & Hp & Ho); [left|]. 
  erewrite ST_bind_Ok by (by erewrite ST_bind_Ok by by apply (read_part_ok state a b p)). cbn beta.
  rewrite IH by (done || (intros; apply Hm; by right)). by rewrite <- app_assoc.
Qed.

Lemma read_range_ok a b :
  a <= b -> b <= len doc ->
  triple (fun s : W * BlockState => batch_ok s.2) (read_range io decompress sha256 cache packs blocks parts a b)
    (fun r s => batch_ok s.2 /\ r = cut doc a b) (fun s => batch_ok s.2 /\ ~ honest).
Proof.
  intros Hab Hb. destruct Hparts as [Htiles Hall Hids]. rewrite Forall_forall in Hall. unfold read_range.
  eapply triple_bind; [apply (triple_lift_ok _ _ (b - a)); unfold checked_sub; by destruct (N.leb_spec a b); [|lia]|].
  intros ?. apply triple_pure. intros ->. destruct (N.eqb_spec (b - a) 0) as [E|E].
  { intros s Hs. split; [done|]. by rewrite cut_nil by lia. }
  destruct (overlapping_blocks_spec parts a b [] 0) as [Hasc _]; [constructor|].
  eapply triple_bind; [apply load_blocks_ok; [exact Hasc|]|].
  - intros x Hx. apply (overlapping_blocks_spec parts a b [] x) in Hx as [?|(p & Hp & _ & ->)]; [set_solver| |constructor].
    destruct (Hall p Hp) as (d & _ & Hd & _). apply get_Some_lt in Hd.
    pose proof (Forall2_length _ _ _ (wo_stored _ _ _ _ _ _ _ _ Hworld)). unfold len in *. lia.
  - intros []. cbn beta. set (matching := filter _ parts).
    eapply (triple_bind _ _ _ (fun bytes s => batch_ok s.2 /\ bytes = cut doc a b)).
    + intros [w state] [Hok Hready]. cbn [snd] in *.
      assert (forall p, p ∈ matching -> is_ready state (db_block_id p) = true /\ part_ok decoded doc p /\ overlaps a b p = true) as Hm.
      { intros p [Ho Hp]%list_elem_of_filter. split_and!; [|by apply Hall|done]. apply Hready.
        apply (overlapping_blocks_spec parts a b []); [constructor|]. right. eauto. }
      assert (concat (piece a b <$> matching) = cut doc a b) as Hcut.
      { unfold matching. rewrite (pieces_cut 0 parts (len doc)) by done. f_equal; lia. }
      unfold on_snd. cbn [fst snd]. destruct matching as [|p [|q rest]].
      * rewrite (read_parts_ok state a b) by (done || lia). cbn in *. done.
      * destruct (Hm p) as (H1 & H2 & H3); [left|]. rewrite (read_part_ok state a b p) by (done || lia). cbn in Hcut. rewrite app_nil_r in Hcut. done.
      * rewrite (read_parts_ok state a b) by (done || lia). done.
    + intros bytes. cbn beta. apply triple_pure. intros ->.
      eapply triple_bind; [apply (triple_lift_ok _ _ tt); rewrite len_cut by done; by rewrite N.eqb_refl|].
      intros []. intros s [Hs _]. done.
Qed.
End range.
End loading.

(** ** Properties *)

(** What a client does with a batch. *)
Inductive batch_op : Type :=
  | OpLoad (ids : list N)
  | OpLoadToFile (ids : list N)
  | OpRead (doc : list N) (parts : list DocumentBlock) (a b : N).

Definition empty_batch : BlockState := {| entries := ∅; temp_files := [] |}.

Definition run_op {W} (io : Io W) decompress sha256 cache packs blocks (results : list (list N)) (op : batch_op)
    : ST (W * BlockState) (list (list N)) :=
  match op with
  | OpLoad ids => _ ← load_blocks io decompress sha256 cache packs blocks ids; mret results
  | OpLoadToFile ids => _ ← load_blocks_to_file io decompress sha256 cache packs blocks ids; mret results
  | OpRead _ parts a b => bytes ← read_range io decompress sha256 cache packs blocks parts a b; mret (results ++ [bytes])
  end.

(** A read of a document of the packs, or a load of some of their blocks. *)
Definition op_ok (blocks : list PackBlock) (decoded : list (list N)) (op : batch_op) : Prop :=
  match op with
  | OpLoad ids | OpLoadToFile ids => ascending ids /\ forall id, id ∈ ids -> id < len blocks
  | OpRead doc parts a b => parts_ok decoded doc parts /\ a <= b <= len doc
  end.
Definition op_result (op : batch_op) : list (list N) :=
  match op with OpRead doc _ a b => [cut doc a b] | _ => [] end.

(** C14: any sequence of loads and reads on a fresh batch reads exactly the
    bytes of the documents, whether their blocks were loaded before, to memory
    or to a file, and whatever the store and the cache return; it never panics
    and does not fail while the store is honest. *)
Theorem batch_reads_exact {W} (io : Io W) decompress sha256 cache packs blocks files decoded honest ops w :
  world_ok io decompress sha256 packs blocks files decoded honest -> len blocks < U32 -> Forall (op_ok blocks decoded) ops ->
  match foldS (run_op io decompress sha256 cache packs blocks) [] ops (w, empty_batch) with
  | (Ok results, _) => results = concat (op_result <$> ops)
  | (Err _, _) => ~ honest
  | (Panic _, _) => False
  end.
Proof.
  intros Hworld Hcount Hops.
  assert (triple (fun s : W * BlockState => batch_ok decoded s.2) (foldS (run_op io decompress sha256 cache packs blocks) [] ops)
    (fun results s => batch_ok decoded s.2 /\ results = concat (op_result <$> ops)) (fun s => batch_ok decoded s.2 /\ ~ honest)) as H.
  { eapply triple_weaken; [apply (triple_foldS (fun pre results (s : W * BlockState) => batch_ok decoded s.2 /\ results = concat (op_result <$> pre)) _ _ _
      (fun s => batch_ok decoded s.2 /\ ~ honest))|by intros s Hs|done|done].
    intros pre op post results ->. apply Forall_app in Hops as [_ [Hop _]%Forall_cons]. rewrite fmap_app, concat_app.
    cbn beta. apply triple_pure. intros ->. destruct op as [ids|ids|doc parts a b]; cbn [run_op op_ok fmap list_fmap op_result concat app] in *.
    - eapply triple_bind; [eapply load_blocks_ok; [exact Hworld|apply Hop..]|]. intros [] s [Hs _]. split; [exact Hs|by rewrite app_nil_r].
    - eapply triple_bind; [eapply load_blocks_to_file_ok; [exact Hworld|exact Hcount|apply Hop..]|]. intros [] s [Hs _]. split; [exact Hs|by rewrite app_nil_r].
    - destruct Hop as (Hp & Ha & Hb). eapply triple_bind; [eapply read_range_ok; [exact Hworld|exact Hp|exact Ha|exact Hb]|].
      intros bytes s [Hs ->]. by split. }
  specialize (H (w, empty_batch)). destruct (foldS _ _ _ _) as [[results|e|why] s]; apply H; intros id e' He; done.
Qed.

(** ** Witness *)

Definition demo_document : list N := [1; 2; 3; 4; 5].
Definition demo_parts : list DocumentBlock := [
  {| db_block_id := 0; db_start := 0; db_offset := 0; db_len := 3 |};
  {| db_block_id := 1; db_start := 3; db_offset := 0; db_len := 2 |}].
Definition demo_ops : list batch_op :=
  [OpLoad [1]; OpRead demo_document demo_parts 2 4; OpLoadToFile [0; 2]; OpRead demo_document demo_parts 0 5; OpRead demo_document demo_parts 1 1].

Lemma demo_parts_ok : parts_ok demo_decoded demo_document demo_parts.
Proof.
  split; [vm_compute; intuition congruence| |repeat constructor].
  constructor; [exists [1; 2; 3], [1; 2; 3]|constructor; [exists [4; 5; 6], [4; 5]|constructor]]; split_and!; reflexivity.
Qed.
Lemma demo_ops_ok : Forall (op_ok demo_pack_blocks demo_decoded) demo_ops.
Proof.
  assert (forall l, Forall (fun id => id < 3) l -> forall id, id ∈ l -> id < len demo_pack_blocks) as Hlt.
  { intros l Hl id Hid. rewrite Forall_forall in Hl. by apply Hl. }
  assert (forall a b, a <= b <= len demo_document -> op_ok demo_pack_blocks demo_decoded (OpRead demo_document demo_parts a b)) as Hread.
  { intros a b Hab. split; [exact demo_parts_ok|exact Hab]. }
  unfold demo_ops. repeat (apply Forall_cons; split); [|by apply Hread| |by apply Hread|by apply Hread|constructor];
    (split; [by repeat constructor|apply Hlt; by repeat constructor]).
Qed.

Lemma batch_reads_exact_witness :
  match foldS (run_op demo_io demo_decompress tiny_sha256 true demo_packs demo_pack_blocks) [] demo_ops ([], empty_batch) with
  | (Ok results, _) => results = concat (op_result <$> demo_ops)
  | (Err _, _) => ~ True
  | (Panic _, _) => False
  end /\
  (foldS (run_op demo_io demo_decompress tiny_sha256 true demo_packs demo_pack_blocks) [] demo_ops ([], empty_batch)).1 =
    Ok [[3; 4]; [1; 2; 3; 4; 5]; []].
Proof.
  split; [|vm_compute; reflexivity].
  apply (batch_reads_exact demo_io demo_decompress tiny_sha256 true demo_packs demo_pack_blocks demo_files demo_decoded True demo_ops [] demo_world);
    [done|exact demo_ops_ok].
Defined.
