(* ===== verification/PackLines.v ===== *)
(** * Whole lines around a byte range (crates/index/src/pack.rs)

    [extend_line_range] grows a range of a document to whole lines with
    context, and [locate_line] finds the number and the start of the line of an
    offset.  Both skip blocks the newline counts show to hold no newline and
    read the others.  The reading of a range is a parameter [read] here; the
    batch instantiates it with [read_range].  The references they are compared
    with count newlines in the document itself. *)

From S2P Require Import Prelude BitPack Bytes Trigrams Format PackBuild PackRead PackBatch.

Definition NEWLINE : N := 10.

(** [for (at, byte) in bytes { if *byte == b'\n' { needed -= 1; if needed == 0 { ..; break } } }] *)
Fixpoint scan_newlines (bytes : list (N * N)) (needed : N) : N * option N :=
  match bytes with
  | [] => (needed, None)
  | (at_, byte) :: bytes =>
      if byte =? NEWLINE then
        if needed - 1 =? 0 then (0, Some at_) else scan_newlines bytes (needed - 1)
      else scan_newlines bytes needed
  end.

(** [bytes.iter().rposition(|byte| *byte == b'\n')] *)
Definition rposition_newline (bytes : list N) : option N := (scan_newlines (rev (enumerate bytes)) 1).2.

Definition count_newlines (bytes : list N) : N := len (filter (fun byte => byte = NEWLINE) bytes).

Section lines.
Context {S : Type} (read : N -> N -> ST S (list N)) (block_newlines : list N).

(** [while start > 0 && needed > 0]: every pass moves [start] to the start of
    its block or ends the loop. *)
Fixpoint extend_back (fuel : nat) (start needed : N) : ST S (N * N) :=
  match fuel with
  | O => lift (Panic "extend_line_range: out of fuel")
  | Datatypes.S fuel =>
      if (0 <? start) && (0 <? needed) then
        let block := (start - 1) / CANDIDATE_BLOCK_BYTES in
        let block_start := block * CANDIDATE_BLOCK_BYTES in
        newlines ← lift (with_context (get block_newlines block) "document newline block is missing");
        if newlines =? 0 then extend_back fuel block_start needed
        else
          bytes ← read block_start start;
          let '(needed, found) := scan_newlines (rev (enumerate bytes)) needed in
          let start := match found with Some at_ => block_start + (at_ + 1) | None => start end in
          extend_back fuel (if 0 <? needed then block_start else start) needed
      else mret (start, needed)
  end.

(** [while end < decoded_size && needed > 0] *)
Fixpoint extend_forward (fuel : nat) (decoded_size end_ needed : N) : ST S (N * N) :=
  match fuel with
  | O => lift (Panic "extend_line_range: out of fuel")
  | Datatypes.S fuel =>
      if (end_ <? decoded_size) && (0 <? needed) then
        let block := end_ / CANDIDATE_BLOCK_BYTES in
        let block_end := N.min (saturating_mul U64 (block + 1) CANDIDATE_BLOCK_BYTES) decoded_size in
        newlines ← lift (with_context (get block_newlines block) "document newline block is missing");
        if newlines =? 0 then extend_forward fuel decoded_size block_end needed
        else
          bytes ← read end_ block_end;
          let '(needed, found) := scan_newlines (enumerate bytes) needed in
          end_ ← lift (match found with
            | Some at_ => with_context (checked_add U64 end_ (at_ + 1)) "document line range overflows"
            | None => Ok end_
            end);
          extend_forward fuel decoded_size (if 0 <? needed then block_end else end_) needed
      else mret (end_, needed)
  end.

Definition ends_with_newline (end_ : N) : ST S bool :=
  if 0 <? end_ then bytes ← read (end_ - 1) end_; mret (bool_decide (bytes = [NEWLINE])) else mret false.

Definition extend_line_range (decoded_size start end_ before_context after_context : N) : ST S (N * N) :=
  needed ← lift (with_context (checked_add U64 before_context 1) "line context overflows");
  '(start, needed) ← extend_back (N.to_nat (start / CANDIDATE_BLOCK_BYTES + 2)) start needed;
  let start := if 0 <? needed then 0 else start in
  ends_line ← ends_with_newline end_;
  needed ← lift (with_context (checked_add U64 after_context (if ends_line : bool then 0 else 1)) "line context overflows");
  '(end_, needed) ← extend_forward (N.to_nat (decoded_size / CANDIDATE_BLOCK_BYTES + 2 - end_ / CANDIDATE_BLOCK_BYTES)) decoded_size end_ needed;
  let end_ := if 0 <? needed then decoded_size else end_ in
  mret (start, end_).

(** [for previous in (0..block).rev()] *)
Fixpoint find_line_start (decoded_size line : N) (previous_blocks : list N) : ST S (N * N) :=
  match previous_blocks with
  | [] => mret (line, 0)
  | previous :: previous_blocks =>
      newlines ← lift (expect (get block_newlines previous) "index out of bounds");
      if newlines =? 0 then find_line_start decoded_size line previous_blocks
      else
        let previous_start := previous * CANDIDATE_BLOCK_BYTES in
        let previous_end := N.min (saturating_add U64 previous_start CANDIDATE_BLOCK_BYTES) decoded_size in
        bytes ← read previous_start previous_end;
        at_ ← lift (with_context (rposition_newline bytes) "document newline count is inconsistent");
        mret (line, previous_start + (at_ + 1))
  end.

Definition add_newlines (total count : N) : res N :=
  with_context (checked_add U64 total count) "document line number overflows".

(** [block < block_newlines.len() && block_newlines[block] > 0] *)
Definition block_has_newline (block : N) : bool :=
  match get block_newlines block with Some newlines => 0 <? newlines | None => false end.

Definition locate_line (parts : list DocumentBlock) (offset : N) : ST S (N * N) :=
  if offset =? 0 then mret (1, 0)
  else
    let decoded_size := match last parts with Some part => saturating_add U64 (db_start part) (db_len part) | None => 0 end in
    _ ← lift (ensure (offset <=? decoded_size) "document range is out of bounds");
    let block := offset / CANDIDATE_BLOCK_BYTES in
    _ ← lift (ensure (block <=? len block_newlines) "document newline block is missing");
    counts ← lift (expect (get_range block_newlines 0 block) "range out of bounds");
    before ← lift (foldM add_newlines 0 counts);
    let block_start := block * CANDIDATE_BLOCK_BYTES in
    within ← (if block_has_newline block then read block_start offset else mret []);
    line ← lift (with_context (count ← checked_add U64 before (count_newlines within); checked_add U64 count 1)
          "document line number overflows");
    match rposition_newline within with
    | Some at_ => mret (line, block_start + (at_ + 1))
    | None => find_line_start decoded_size line (rev (range 0 block))
    end.
End lines.

(** ** References *)

(** How many bytes precede the [n]-th newline, or all of them. *)
Fixpoint until_newline (bytes : list N) (n : N) : N :=
  match bytes with
  | [] => 0
  | byte :: bytes =>
      if byte =? NEWLINE then if n =? 1 then 0 else 1 + until_newline bytes (n - 1)
      else 1 + until_newline bytes n
  end.

(** The start of the line [n - 1] lines above the one [offset] is in. *)
Definition lines_before (doc : list N) (offset n : N) : N :=
  offset - until_newline (rev (take (N.to_nat offset) doc)) n.
(** The end of the [n]-th line that ends after [offset]. *)
Definition lines_after (doc : list N) (offset n : N) : N :=
  if n =? 0 then offset else N.min (offset + until_newline (drop (N.to_nat offset) doc) n + 1) (len doc).

Definition newlines_ok (doc : list N) (block_newlines : list N) : Prop :=
  len block_newlines = div_ceil (len doc) CANDIDATE_BLOCK_BYTES /\
  forall block, block < len block_newlines ->
    get block_newlines block = Some (count_newlines (cut doc (block * CANDIDATE_BLOCK_BYTES)
      (N.min ((block + 1) * CANDIDATE_BLOCK_BYTES) (len doc)))).

Lemma count_newlines_app l1 l2 : count_newlines (l1 ++ l2) = count_newlines l1 + count_newlines l2.
Proof. unfold count_newlines. by rewrite filter_app, len_app. Qed.
Lemma count_newlines_cons x l : count_newlines (x :: l) = (if x =? NEWLINE then 1 else 0) + count_newlines l.
Proof. unfold count_newlines. rewrite filter_cons. destruct (N.eqb_spec x NEWLINE); case_decide; rewrite ?len_cons; done. Qed.
Lemma count_newlines_rev l : count_newlines (rev l) = count_newlines l.
Proof. induction l as [|x l IH]; [done|]. cbn [rev]. rewrite count_newlines_app, IH, !count_newlines_cons. change (count_newlines []) with 0. lia. Qed.
Lemma count_newlines_le l : count_newlines l <= len l.
Proof. unfold count_newlines, len. pose proof (length_filter (fun byte => byte = NEWLINE) l). lia. Qed.

Lemma until_newline_le l n : until_newline l n <= len l.
Proof. revert n. induction l as [|x l IH]; intros n; cbn [until_newline]; [done|]. rewrite len_cons. repeat case_match; [lia|specialize (IH (n - 1)); lia|specialize (IH n); lia]. Qed.
Lemma until_newline_found l n : 0 < n -> n <= count_newlines l -> until_newline l n < len l.
Proof.
  revert n. induction l as [|x l IH]; intros n Hn; cbn [until_newline]; [change (count_newlines []) with 0; lia|].
  rewrite count_newlines_cons, len_cons. destruct (x =? NEWLINE); [destruct (N.eqb_spec n 1); [lia|]; intros; specialize (IH (n - 1)); lia|].
  intros. specialize (IH n). lia.
Qed.
Lemma until_newline_app l1 l2 n :
  0 < n -> until_newline (l1 ++ l2) n =
    if n <=? count_newlines l1 then until_newline l1 n else len l1 + until_newline l2 (n - count_newlines l1).
Proof.
  revert n. induction l1 as [|x l1 IH]; intros n Hn; cbn [app until_newline].
  { change (count_newlines []) with 0. destruct (N.leb_spec n 0); [lia|]. rewrite len_nil, N.sub_0_r. done. }
  rewrite count_newlines_cons, len_cons. destruct (x =? NEWLINE).
  - destruct (N.eqb_spec n 1) as [->|]; [destruct (N.leb_spec 1 (1 + count_newlines l1)); [done|lia]|]. rewrite IH by lia.
    destruct (N.leb_spec (n - 1) (count_newlines l1)), (N.leb_spec n (1 + count_newlines l1)); try lia.
    replace (n - (1 + count_newlines l1)) with (n - 1 - count_newlines l1) by lia. lia.
  - rewrite IH by lia. rewrite N.add_0_l. destruct (N.leb_spec n (count_newlines l1)); lia.
Qed.

Lemma scan_newlines_spec bytes n :
  0 < n ->
  if n <=? count_newlines bytes.*2 then
    exists at_ x, get bytes (until_newline bytes.*2 n) = Some (at_, x) /\ scan_newlines bytes n = (0, Some at_)
  else scan_newlines bytes n = (n - count_newlines bytes.*2, None).
Proof.
  revert n. induction bytes as [|[i x] bytes IH]; intros n Hn; cbn [fmap list_fmap snd scan_newlines until_newline].
  { change (count_newlines []) with 0. destruct (N.leb_spec n 0); [lia|]. by rewrite N.sub_0_r. }
  rewrite count_newlines_cons. change (list_fmap _ _ snd bytes) with bytes.*2. destruct (x =? NEWLINE) eqn:E.
  - destruct (N.eqb_spec n 1) as [->|Hne].
    + destruct (N.leb_spec 1 (1 + count_newlines bytes.*2)); [|lia]. exists i, x. split; [apply get_cons_0|done].
    + specialize (IH (n - 1) ltac:(lia)). destruct (N.eqb_spec (n - 1) 0); [lia|].
      destruct (N.leb_spec (n - 1) (count_newlines bytes.*2)), (N.leb_spec n (1 + count_newlines bytes.*2)); try lia.
      * destruct IH as (a & y & Hg & ->). exists a, y. split; [by rewrite get_cons_S|done].
      * rewrite IH. f_equal. lia.
  - specialize (IH n Hn). rewrite N.add_0_l. destruct (N.leb_spec n (count_newlines bytes.*2)); [|exact IH].
    destruct IH as (a & y & Hg & ->). exists a, y. split; [by rewrite get_cons_S|done].
Qed.

(** A newline found at position [u] from the end is at index [len - 1 - u]. *)
Lemma scan_back_spec bytes n :
  0 < n ->
  scan_newlines (rev (enumerate bytes)) n =
    if n <=? count_newlines bytes then (0, Some (len bytes - 1 - until_newline (rev bytes) n)) else (n - count_newlines bytes, None).
Proof.
  intros Hn. pose proof (scan_newlines_spec (rev (enumerate bytes)) n Hn) as H.
  rewrite fmap_rev, enumerate_snd, count_newlines_rev in H. destruct (n <=? count_newlines bytes); [|exact H].
  destruct H as (a & x & Hg & ->). do 2 f_equal. pose proof (get_Some_lt _ _ _ Hg) as Hlt.
  rewrite len_rev, len_enumerate in Hlt. rewrite rev_reverse in Hg. unfold get in Hg.
  pose proof (len_enumerate bytes) as Hle. rewrite reverse_lookup in Hg by (unfold len in *; lia).
  assert (get (enumerate bytes) (len bytes - 1 - until_newline (rev bytes) n) = Some (a, x)) as Hg2.
  { unfold get. rewrite <- Hg. f_equal. unfold len in *. lia. }
  assert (exists pre post, enumerate bytes = pre ++ (a, x) :: post /\ len pre = len bytes - 1 - until_newline (rev bytes) n) as (pre & post & Hs & Hlp).
  { exists (take (N.to_nat (len bytes - 1 - until_newline (rev bytes) n)) (enumerate bytes)), (drop (S (N.to_nat (len bytes - 1 - until_newline (rev bytes) n))) (enumerate bytes)).
    split; [symmetry; by apply take_drop_middle|]. unfold len. rewrite length_take. unfold len in *. lia. }
  apply enumerate_split in Hs as [-> _]. exact Hlp.
Qed.

Lemma scan_forward_spec bytes n :
  0 < n ->
  scan_newlines (enumerate bytes) n =
    if n <=? count_newlines bytes then (0, Some (until_newline bytes n)) else (n - count_newlines bytes, None).
Proof.
  intros Hn. pose proof (scan_newlines_spec (enumerate bytes) n Hn) as H. rewrite enumerate_snd in H.
  destruct (n <=? count_newlines bytes); [|exact H]. destruct H as (a & x & Hg & ->). do 2 f_equal.
  assert (exists pre post, enumerate bytes = pre ++ (a, x) :: post /\ len pre = until_newline bytes n) as (pre & post & Hs & Hlp).
  { exists (take (N.to_nat (until_newline bytes n)) (enumerate bytes)), (drop (S (N.to_nat (until_newline bytes n))) (enumerate bytes)).
    split; [symmetry; by apply take_drop_middle|]. apply get_Some_lt in Hg. unfold len in *. rewrite length_take. lia. }
  apply enumerate_split in Hs as [-> _]. exact Hlp.
Qed.

Lemma take_cut {A} (doc : list A) a b : a <= b -> take (N.to_nat b) doc = take (N.to_nat a) doc ++ cut doc a b.
Proof.
  intros. unfold cut. rewrite <- (take_drop (N.to_nat a) (take (N.to_nat b) doc)), take_take, skipn_firstn_comm.
  f_equal; f_equal; lia.
Qed.
Lemma drop_cut {A} (doc : list A) a b : a <= b -> drop (N.to_nat a) doc = cut doc a b ++ drop (N.to_nat b) doc.
Proof.
  intros. unfold cut. rewrite <- (take_drop (N.to_nat (b - a)) (drop (N.to_nat a) doc)) at 1. f_equal. rewrite drop_drop. f_equal. lia.
Qed.

Lemma lines_before_step doc a b n :
  a <= b -> b <= len doc -> 0 < n ->
  lines_before doc b n =
    if n <=? count_newlines (cut doc a b) then b - until_newline (rev (cut doc a b)) n
    else lines_before doc a (n - count_newlines (cut doc a b)).
Proof.
  intros Hab Hb Hn. unfold lines_before. rewrite (take_cut doc a b Hab), rev_app_distr, until_newline_app, count_newlines_rev by done.
  destruct (n <=? count_newlines (cut doc a b)); [done|]. rewrite len_rev, len_cut by done. lia.
Qed.
Lemma lines_after_step doc a b n :
  a <= b -> b <= len doc -> 0 < n ->
  lines_after doc a n =
    if n <=? count_newlines (cut doc a b) then a + until_newline (cut doc a b) n + 1
    else lines_after doc b (n - count_newlines (cut doc a b)).
Proof.
  intros Hab Hb Hn. unfold lines_after. destruct (N.eqb_spec n 0); [lia|].
  rewrite (drop_cut doc a b Hab), until_newline_app by done. destruct (N.leb_spec n (count_newlines (cut doc a b))) as [Hle|Hgt].
  - pose proof (until_newline_found _ _ Hn Hle) as Hf. rewrite len_cut in Hf by done. lia.
  - destruct (N.eqb_spec (n - count_newlines (cut doc a b)) 0); [lia|]. rewrite len_cut by done. lia.
Qed.

Section exact.
Context {S : Type} (read : N -> N -> ST S (list N)) (block_newlines doc : list N) (I R : S -> Prop).
Context (Hread : forall a b, a <= b -> b <= len doc -> triple I (read a b) (fun r s => I s /\ r = cut doc a b) R).
Context (Hnl : newlines_ok doc block_newlines) (Hlen : len doc < 2 ^ 63).

Lemma block_count block : block * CANDIDATE_BLOCK_BYTES < len doc ->
  get block_newlines block = Some (count_newlines (cut doc (block * CANDIDATE_BLOCK_BYTES)
      (N.min ((block + 1) * CANDIDATE_BLOCK_BYTES) (len doc)))).
Proof.
  intros H. apply (proj2 Hnl). rewrite (proj1 Hnl). change CANDIDATE_BLOCK_BYTES with 131072 in *.
  pose proof (div_ceil_le (len doc) 131072 ltac:(lia)). lia.
Qed.

Lemma no_newline_cut a b c d : a <= c -> c <= d -> d <= b -> count_newlines (cut doc a b) = 0 -> count_newlines (cut doc c d) = 0.
Proof.
  intros H1 H2 H3. rewrite <- (cut_app doc a c b), <- (cut_app doc c d b), !count_newlines_app by lia. lia.
Qed.

Lemma extend_back_ok fuel start needed :
  start <= len doc -> (0 < fuel)%nat -> (0 < needed -> start <= CANDIDATE_BLOCK_BYTES * (N.of_nat fuel - 1)) ->
  triple I (extend_back read block_newlines fuel start needed)
    (fun '(start', needed') s => I s /\ (if 0 <? needed' then 0 else start') = if needed =? 0 then start else lines_before doc start needed) R.
Proof.
  revert start needed. induction fuel as [|fuel IH]; intros start needed Hs Hf Hfuel; [lia|]. cbn [extend_back].
  destruct (N.ltb_spec 0 needed) as [Hn|Hn]; [|rewrite andb_false_r; intros s HI; cbn; split; [done|];
    destruct (N.ltb_spec 0 needed); [lia|]; by destruct (N.eqb_spec needed 0); [|lia]].
  specialize (Hfuel Hn). destruct (N.ltb_spec 0 start) as [Hpos|H0]; cbn [andb].
  2: { intros s HI. cbn. split; [done|]. destruct (N.ltb_spec 0 needed); [|lia]. destruct (N.eqb_spec needed 0); [lia|].
       unfold lines_before. assert (start = 0) as -> by lia. done. }
  destruct (N.eqb_spec needed 0) as [|_]; [lia|].
  set (block := (start - 1) / CANDIDATE_BLOCK_BYTES). cbv zeta. change CANDIDATE_BLOCK_BYTES with 131072 in *.
  assert (block * 131072 < start <= block * 131072 + 131072) as Hblock by (subst block; lia).
  pose proof (block_count block) as Hcount. change CANDIDATE_BLOCK_BYTES with 131072 in Hcount. specialize (Hcount ltac:(lia)).
  eapply triple_bind; [apply triple_lift_ok; rewrite Hcount; reflexivity|].
  intros ?. apply triple_pure. intros ->.
  rewrite (lines_before_step doc (block * 131072) start needed) by lia. match goal with |- context [count_newlines ?l =? 0] => destruct (N.eqb_spec (count_newlines l) 0) as [Ez|_] end.
  - rewrite (no_newline_cut (block * 131072) (N.min ((block + 1) * 131072) (len doc)) (block * 131072) start) by (done || lia).
    destruct (N.leb_spec needed 0); [lia|]. rewrite N.sub_0_r.
    eapply triple_weaken; [apply (IH (block * 131072) needed)|done| |done]; [lia|lia|lia|].
    intros [s' n'] s. destruct (N.eqb_spec needed 0); [lia|done].
  - eapply triple_bind; [apply Hread; lia|]. intros bytes. cbn beta. apply triple_pure. intros ->.
    rewrite scan_back_spec by done. destruct (N.leb_spec needed (count_newlines (cut doc (block * 131072) start))) as [Hle|Hgt].
    + eapply triple_weaken; [apply (IH _ 0)|done| |done]; [|lia|lia|].
      * cbn. rewrite len_cut by done. lia.
      * intros [s' n'] s. cbn. intros [HI ->]. split; [done|]. rewrite len_cut by done.
        pose proof (until_newline_found (rev (cut doc (block * 131072) start)) needed) as Hfd. rewrite count_newlines_rev in Hfd.
        rewrite len_rev, len_cut in Hfd by done. lia.
    + set (m := needed - _). destruct (N.ltb_spec 0 m); [|lia].
      eapply triple_weaken; [apply (IH (block * 131072) m)|done| |done]; [lia|lia|lia|].
      intros [s' n'] s. destruct (N.eqb_spec m 0); [lia|done].
Qed.

Lemma extend_forward_ok fuel end_ needed :
  end_ <= len doc -> (0 < fuel)%nat -> (0 < needed -> len doc < CANDIDATE_BLOCK_BYTES * (end_ / CANDIDATE_BLOCK_BYTES + N.of_nat fuel - 1)) ->
  triple I (extend_forward read block_newlines fuel (len doc) end_ needed)
    (fun '(end', needed') s => I s /\ (if 0 <? needed' then len doc else end') = lines_after doc end_ needed) R.
Proof.
  revert end_ needed. induction fuel as [|fuel IH]; intros end_ needed He Hf Hfuel; [lia|]. cbn [extend_forward].
  destruct (N.ltb_spec 0 needed) as [Hn|Hn].
  2: { rewrite andb_false_r. intros s HI. cbn. split; [done|]. destruct (N.ltb_spec 0 needed); [lia|]. unfold lines_after. by destruct (N.eqb_spec needed 0); [|lia]. }
  specialize (Hfuel Hn). destruct (N.ltb_spec end_ (len doc)) as [Hlt|Hge]; cbn [andb].
  2: { intros s HI. cbn. split; [done|]. destruct (N.ltb_spec 0 needed); [|lia]. unfold lines_after. destruct (N.eqb_spec needed 0); lia. }
  set (block := end_ / CANDIDATE_BLOCK_BYTES) in *. cbv zeta. change CANDIDATE_BLOCK_BYTES with 131072 in *.
  assert (block * 131072 <= end_ < block * 131072 + 131072) as Hblock by (subst block; lia).
  pose proof (block_count block) as Hcount. change CANDIDATE_BLOCK_BYTES with 131072 in Hcount. specialize (Hcount ltac:(lia)).
  eapply triple_bind; [apply triple_lift_ok; rewrite Hcount; reflexivity|].
  intros ?. apply triple_pure. intros ->.
  unfold saturating_mul. replace (N.min ((block + 1) * 131072) (U64 - 1)) with ((block + 1) * 131072) by lia.
  set (block_end := N.min ((block + 1) * 131072) (len doc)). assert (end_ < block_end <= len doc) as Hbe by lia.
  assert (forall n, 0 < n -> len doc < 131072 * (block_end / 131072 + N.of_nat fuel - 1) \/ block_end = len doc) as Hnext.
  { intros n _. destruct (N.leb_spec (len doc) ((block + 1) * 131072)); [right; lia|left].
    assert (block_end / 131072 = block + 1) as -> by lia. lia. }
  assert (0 < fuel)%nat as Hfuel1 by lia.
  assert (forall n, 0 < n -> triple I (extend_forward read block_newlines fuel (len doc) block_end n)
    (fun '(end', needed') s => I s /\ (if 0 <? needed' then len doc else end') = lines_after doc block_end n) R) as Hrec.
  { intros n Hn0. destruct (Hnext n Hn0) as [Hok|Eq]; [apply IH; [lia|lia|done]|].
    rewrite Eq. destruct fuel as [|fuel']; [lia|]. cbn [extend_forward]. rewrite N.ltb_irrefl. cbn [andb].
    intros s HI. cbn. split; [done|]. destruct (N.ltb_spec 0 n); [|lia]. unfold lines_after. destruct (N.eqb_spec n 0); lia. }
  rewrite (lines_after_step doc end_ block_end needed) by lia. match goal with |- context [count_newlines ?l =? 0] => destruct (N.eqb_spec (count_newlines l) 0) as [Ez|_] end.
  - rewrite (no_newline_cut (block * 131072) block_end end_ block_end) by (done || lia).
    destruct (N.leb_spec needed 0); [lia|]. rewrite N.sub_0_r. by apply Hrec.
  - eapply triple_bind; [apply Hread; lia|]. intros bytes. cbn beta. apply triple_pure. intros ->.
    rewrite scan_forward_spec by done. destruct (N.leb_spec needed (count_newlines (cut doc end_ block_end))) as [Hle|Hgt].
    + pose proof (until_newline_found _ _ Hn Hle) as Hfd. rewrite len_cut in Hfd by lia.
      eapply triple_bind; [apply triple_lift_ok; unfold checked_add; destruct (N.ltb_spec (end_ + (until_newline (cut doc end_ block_end) needed + 1)) U64); [done|lia]|].
      intros ?. apply triple_pure. intros ->. cbn [N.ltb N.compare].
      eapply triple_weaken; [apply (IH _ 0); [lia|done|lia]|done| |done].
      intros [e' n'] s [HI ->]. split; [done|]. unfold lines_after. cbn. lia.
    + eapply triple_bind; [by apply triple_lift_ok|]. intros ?. apply triple_pure. intros ->.
      set (m := needed - _). destruct (N.ltb_spec 0 m); [|lia]. apply Hrec. lia.
Qed.

Definition ends_line (end_ : N) : bool := (0 <? end_) && bool_decide (cut doc (end_ - 1) end_ = [NEWLINE]).

Lemma ends_with_newline_ok end_ :
  end_ <= len doc -> triple I (ends_with_newline read end_) (fun b s => I s /\ b = ends_line end_) R.
Proof.
  intros He. unfold ends_with_newline, ends_line. destruct (N.ltb_spec 0 end_); cbn [andb]; [|by intros s HI].
  eapply triple_bind; [apply Hread; lia|]. intros bytes. cbn beta. apply triple_pure. intros ->. by intros s HI.
Qed.

Lemma extend_line_range_ok start end_ before_context after_context :
  start <= len doc -> end_ <= len doc -> before_context + 1 < U64 -> after_context + 1 < U64 ->
  triple I (extend_line_range read block_newlines (len doc) start end_ before_context after_context)
    (fun bounds s => I s /\ bounds = (lines_before doc start (before_context + 1),
                                     lines_after doc end_ (after_context + if ends_line end_ then 0 else 1))) R.
Proof.
  intros Hs He Hb Ha. unfold extend_line_range.
  eapply triple_bind; [apply (triple_lift_ok _ _ (before_context + 1)); unfold checked_add; by destruct (N.ltb_spec (before_context + 1) U64); [|lia]|].
  intros ?. apply triple_pure. intros ->. eapply triple_bind.
  { apply extend_back_ok; [done|lia|]. intros _. change CANDIDATE_BLOCK_BYTES with 131072. lia. }
  intros [start' needed']. cbn beta iota. apply triple_pure. destruct (N.eqb_spec (before_context + 1) 0); [lia|]. intros ->.
  eapply triple_bind; [by apply ends_with_newline_ok|]. intros b. cbn beta. apply triple_pure. intros ->.
  eapply triple_bind; [apply (triple_lift_ok _ _ (after_context + if ends_line end_ then 0 else 1)); unfold checked_add;
    destruct (N.ltb_spec (after_context + if ends_line end_ then 0 else 1) U64); [done|destruct (ends_line end_); lia]|].
  intros ?. apply triple_pure. intros ->. eapply triple_bind.
  { apply extend_forward_ok; [done| |]; [|intros _]; change CANDIDATE_BLOCK_BYTES with 131072; lia. }
  intros [end' needed2]. cbn beta iota. apply triple_pure. intros ->. by intros s HI.
Qed.

(** ** The line of an offset *)

Lemma count_before block :
  block <= len block_newlines ->
  sumN (take (N.to_nat block) block_newlines) = count_newlines (take (N.to_nat (block * CANDIDATE_BLOCK_BYTES)) doc).
Proof.
  change CANDIDATE_BLOCK_BYTES with 131072. induction block as [|block IH] using N.peano_ind; [done|]. intros Hb.
  specialize (IH ltac:(lia)). rewrite N2Nat.inj_succ. destruct (get_is_Some block_newlines block) as [c Hc]; [lia|].
  pose proof (proj2 Hnl block ltac:(lia)) as Hcount. change CANDIDATE_BLOCK_BYTES with 131072 in Hcount. rewrite Hc in Hcount. injection Hcount as ->.
  rewrite (take_S_r _ _ _ Hc), sumN_snoc, IH. rewrite (take_cut doc (block * 131072) (N.succ block * 131072)) by lia.
  rewrite count_newlines_app. f_equal. f_equal. destruct (N.leb_spec ((block + 1) * 131072) (len doc)).
  - rewrite N.min_l by lia. by replace (N.succ block * 131072) with ((block + 1) * 131072) by lia.
  - unfold cut. rewrite !take_ge; [done| |]; rewrite length_drop; unfold len in *; lia.
Qed.

Lemma add_newlines_ok counts total :
  total + sumN counts < U64 -> foldM add_newlines total counts = Ok (total + sumN counts).
Proof.
  revert total. induction counts as [|c counts IH]; intros total H; cbn [foldM]; [change (sumN []) with 0; f_equal; lia|].
  rewrite sumN_cons in *. assert (add_newlines total c = Ok (total + c)) as ->
    by (unfold add_newlines, checked_add; destruct (N.ltb_spec (total + c) U64); [done|lia]).
  cbn [mbind res_bind]. rewrite IH by lia. f_equal. lia.
Qed.

Lemma rposition_spec bytes :
  rposition_newline bytes = if 1 <=? count_newlines bytes then Some (len bytes - 1 - until_newline (rev bytes) 1) else None.
Proof. unfold rposition_newline. rewrite scan_back_spec by lia. by destruct (1 <=? count_newlines bytes). Qed.

(** The start of the line of [offset]. *)
Definition line_start (offset : N) : N := lines_before doc offset 1.

Lemma find_line_start_ok line blocks_ upto :
  blocks_ = rev (range 0 upto) -> upto * CANDIDATE_BLOCK_BYTES <= len doc ->
  triple I (find_line_start read block_newlines (len doc) line blocks_)
    (fun r s => I s /\ r = (line, line_start (upto * CANDIDATE_BLOCK_BYTES))) R.
Proof.
  intros -> Hu. change CANDIDATE_BLOCK_BYTES with 131072 in *. induction upto as [|upto IH] using N.peano_ind.
  { intros s HI. split; [done|]. unfold line_start, lines_before. done. }
  rewrite <- N.add_1_r, range_snoc, rev_app_distr by lia. cbn [rev app find_line_start]. change CANDIDATE_BLOCK_BYTES with 131072.
  pose proof (block_count upto) as Hcount. change CANDIDATE_BLOCK_BYTES with 131072 in Hcount. specialize (Hcount ltac:(lia)).
  rewrite N.min_l in Hcount by lia. eapply triple_bind; [apply triple_lift_ok; rewrite Hcount; reflexivity|]. intros ?. apply triple_pure. intros ->.
  unfold line_start. rewrite (lines_before_step doc (upto * 131072) ((upto + 1) * 131072)) by lia.
  destruct (N.eqb_spec (count_newlines (cut doc (upto * 131072) ((upto + 1) * 131072))) 0) as [Ez|Hnz].
  - rewrite Ez. cbn [N.leb N.compare]. apply IH. lia.
  - unfold saturating_add. replace (N.min (N.min (upto * 131072 + 131072) (U64 - 1)) (len doc)) with ((upto + 1) * 131072) by lia.
    eapply triple_bind; [apply Hread; lia|]. intros bytes. cbn beta. apply triple_pure. intros ->.
    rewrite rposition_spec. destruct (N.leb_spec 1 (count_newlines (cut doc (upto * 131072) ((upto + 1) * 131072)))) as [H1|]; [|lia].
    eapply triple_bind; [by apply triple_lift_ok|]. intros ?. apply triple_pure. intros ->. intros s HI. split; [done|]. f_equal.
    pose proof (until_newline_found (rev (cut doc (upto * 131072) ((upto + 1) * 131072))) 1 ltac:(lia)) as Hf.
    rewrite count_newlines_rev, len_rev, len_cut in Hf by lia. rewrite len_cut by lia. lia.
Qed.

Lemma tiles_end ps s e : tiles s ps e -> (ps = [] /\ s = e) \/ exists p, last ps = Some p /\ db_start p + db_len p = e.
Proof.
  revert s. induction ps as [|p ps IH]; intros s; cbn [tiles]; [by left|]. intros (Hs & _ & Ht). right.
  destruct (IH _ Ht) as [[-> He]|(q & Hq & He)]; [exists p; split; [done|lia]|]. exists q. split; [|done].
  destruct ps; [done|exact Hq].
Qed.

Lemma locate_line_ok decoded parts offset :
  parts_ok decoded doc parts -> offset <= len doc ->
  triple I (locate_line read block_newlines parts offset)
    (fun r s => I s /\ r = (1 + count_newlines (take (N.to_nat offset) doc), line_start offset)) R.
Proof.
  intros [Htiles _ _] Ho. unfold locate_line. destruct (N.eqb_spec offset 0) as [->|Hne]; [by intros s HI|].
  destruct (tiles_end _ _ _ Htiles) as [[_ E]|(p & -> & E)]; [lia|]. cbv zeta.
  assert (saturating_add U64 (db_start p) (db_len p) = len doc) as -> by (unfold saturating_add; lia).
  destruct (N.leb_spec offset (len doc)) as [_|]; [|lia].
  eapply triple_bind; [by apply (triple_lift_ok _ _ tt)|]. intros ?. apply triple_pure. intros ->.
  set (block := offset / CANDIDATE_BLOCK_BYTES).
  assert (block <= len block_newlines) as Hbl.
  { rewrite (proj1 Hnl). subst block. change CANDIDATE_BLOCK_BYTES with 131072. pose proof (div_ceil_le (len doc) 131072 ltac:(lia)). lia. }
  destruct (N.leb_spec block (len block_newlines)) as [_|]; [|lia].
  eapply triple_bind; [by apply (triple_lift_ok _ _ tt)|]. intros ?. apply triple_pure. intros ->.
  assert (get_range block_newlines 0 block = Some (take (N.to_nat block) block_newlines)) as ->.
  { apply get_range_Some. rewrite N.sub_0_r. split_and!; [lia|done|by rewrite drop_0]. }
  eapply triple_bind; [by apply triple_lift_ok|]. intros ?. apply triple_pure. intros ->.
  pose proof (count_newlines_le (take (N.to_nat (block * CANDIDATE_BLOCK_BYTES)) doc)) as Hle1.
  pose proof (count_before block Hbl) as Hbefore.
  assert (len (take (N.to_nat (block * CANDIDATE_BLOCK_BYTES)) doc) <= len doc) as Hle2 by (unfold len; rewrite length_take; lia).
  eapply triple_bind; [apply triple_lift_ok; apply add_newlines_ok; lia|]. intros ?. apply triple_pure. intros ->. rewrite N.add_0_l, Hbefore.
  change CANDIDATE_BLOCK_BYTES with 131072 in *. assert (block * 131072 <= offset < block * 131072 + 131072) as Hblock by (subst block; lia).
  eapply (triple_bind _ _ _ (fun within s => I s /\ (count_newlines within = count_newlines (cut doc (block * 131072) offset) /\
    (within = cut doc (block * 131072) offset \/ count_newlines within = 0)))).
  { unfold block_has_newline. destruct (get block_newlines block) as [c|] eqn:Ec.
    - destruct (N.ltb_spec 0 c) as [Hc|Hc]; [eapply triple_weaken; [apply Hread; lia|done| |done]; cbn; intuition congruence|].
      intros s HI. split; [done|]. pose proof (proj2 Hnl block ltac:(by eapply get_Some_lt)) as Hcount.
      rewrite Ec in Hcount. injection Hcount as ->. change CANDIDATE_BLOCK_BYTES with 131072 in Hc.
      rewrite (no_newline_cut (block * 131072) (N.min ((block + 1) * 131072) (len doc)) (block * 131072) offset) by lia. by split; [|right].
    - intros s HI. split; [done|]. apply lookup_ge_None in Ec. assert (block = len block_newlines) as Eb by (unfold len in *; lia).
      rewrite (proj1 Hnl) in Eb. change CANDIDATE_BLOCK_BYTES with 131072 in Eb. pose proof (div_ceil_le (len doc) 131072 ltac:(lia)).
      rewrite cut_nil by lia. by split; [|right]. }
  intros within. cbn beta. apply triple_pure. intros [Hcw Hw].
  assert (count_newlines (take (N.to_nat offset) doc) = count_newlines (take (N.to_nat (block * 131072)) doc) + count_newlines within) as Htotal.
  { rewrite Hcw, <- count_newlines_app, <- take_cut by lia. done. }
  pose proof (count_newlines_le (take (N.to_nat offset) doc)) as Hle3. assert (len (take (N.to_nat offset) doc) <= len doc) by (unfold len; rewrite length_take; lia).
  eapply triple_bind; [apply (triple_lift_ok _ _ (1 + count_newlines (take (N.to_nat offset) doc)))|].
  { unfold checked_add. destruct (N.ltb_spec (count_newlines (take (N.to_nat (block * 131072)) doc) + count_newlines within) U64); [|lia].
    cbn [mbind option_bind]. destruct (N.ltb_spec (count_newlines (take (N.to_nat (block * 131072)) doc) + count_newlines within + 1) U64); [|lia].
    cbn [with_context]. f_equal. lia. }
  intros ?. apply triple_pure. intros ->. rewrite rposition_spec. unfold line_start.
  rewrite (lines_before_step doc (block * 131072) offset) by lia. rewrite <- Hcw.
  destruct (N.leb_spec 1 (count_newlines within)) as [H1|H0].
  - destruct Hw as [->|]; [|lia]. intros s HI. split; [done|]. f_equal. rewrite len_cut by lia.
    pose proof (until_newline_found (rev (cut doc (block * 131072) offset)) 1 ltac:(lia)) as Hf.
    rewrite count_newlines_rev, len_rev, len_cut in Hf by lia. lia.
  - replace (1 - count_newlines within) with 1 by lia. eapply triple_weaken; [apply (find_line_start_ok _ _ block); [done|change CANDIDATE_BLOCK_BYTES with 131072; lia]|done| |done].
    intros r s. change CANDIDATE_BLOCK_BYTES with 131072. done.
Qed.
End exact.

(** ** The references, in terms of newlines *)

Lemma until_newline_split l n :
  0 < n -> n <= count_newlines l ->
  exists pre post, l = pre ++ [NEWLINE] ++ post /\ len pre = until_newline l n /\ count_newlines pre = n - 1.
Proof.
  revert n. induction l as [|x l IH]; intros n Hn; cbn [until_newline]; [change (count_newlines []) with 0; lia|].
  rewrite count_newlines_cons. destruct (N.eqb_spec x NEWLINE) as [->|Hx]; [destruct (N.eqb_spec n 1) as [->|]|]; intros Hc.
  - exists [], l. done.
  - destruct (IH (n - 1)) as (pre & post & -> & Hl & Hp); [lia|lia|]. exists (NEWLINE :: pre), post.
    rewrite len_cons, Hl, count_newlines_cons, N.eqb_refl, Hp. split_and!; [done|lia|lia].
  - destruct (IH n) as (pre & post & -> & Hl & Hp); [lia|lia|]. exists (x :: pre), post.
    rewrite len_cons, Hl, count_newlines_cons, Hp. destruct (N.eqb_spec x NEWLINE); [done|]. split_and!; [done|lia|lia].
Qed.
Lemma until_newline_all l n : count_newlines l < n -> until_newline l n = len l.
Proof.
  revert n. induction l as [|x l IH]; intros n; cbn [until_newline]; [done|]. rewrite count_newlines_cons, len_cons.
  destruct (x =? NEWLINE); intros Hc; [destruct (N.eqb_spec n 1); [lia|]|]; rewrite IH; lia.
Qed.
(** The end of a line, or the start of the document. *)
Definition line_boundary (doc : list N) (at_ : N) : Prop := at_ = 0 \/ cut doc (at_ - 1) at_ = [NEWLINE].

Lemma lines_before_spec doc offset n :
  offset <= len doc -> 0 < n ->
  let start := lines_before doc offset n in
  start <= offset /\ line_boundary doc start /\
  count_newlines (cut doc start offset) = N.min (n - 1) (count_newlines (take (N.to_nat offset) doc)).
Proof.
  intros Ho Hn start. unfold start, lines_before. assert (len (take (N.to_nat offset) doc) = offset) as Hl by (unfold len in *; rewrite length_take; lia).
  split; [lia|]. set (l := rev (take (N.to_nat offset) doc)).
  assert (count_newlines l = count_newlines (take (N.to_nat offset) doc)) as Hcount by apply count_newlines_rev.
  assert (len l = offset) as Hll by (unfold l; by rewrite len_rev).
  destruct (N.leb_spec n (count_newlines l)) as [Hc|Hc].
  - destruct (until_newline_split l n Hn Hc) as (pre & post & El & Hp & Hcp).
    assert (doc = rev post ++ [NEWLINE] ++ rev pre ++ drop (N.to_nat offset) doc) as E.
    { rewrite <- (take_drop (N.to_nat offset) doc) at 1. rewrite <- (rev_involutive (take _ doc)). fold l. rewrite El, !rev_app_distr.
      by rewrite <- !app_assoc. }
    rewrite El, !len_app in Hll. change (len [NEWLINE]) with 1 in Hll. rewrite <- Hp. split.
    + right. apply (cut_middle doc (rev post) [NEWLINE] _ _ _ E); rewrite ?len_rev; change (len [NEWLINE]) with 1; lia.
    + rewrite (cut_middle doc (rev post ++ [NEWLINE]) (rev pre) (drop (N.to_nat offset) doc)), count_newlines_rev;
        [lia|by rewrite <- app_assoc|rewrite len_app|rewrite len_app]; rewrite ?len_rev; change (len [NEWLINE]) with 1; lia.
  - rewrite until_newline_all, Hll, N.sub_diag by done. split; [by left|]. unfold cut. rewrite N.sub_0_r. change (N.to_nat 0) with 0%nat. rewrite drop_0. lia.
Qed.

Lemma lines_after_spec doc offset n :
  offset <= len doc -> 0 < n ->
  let end_ := lines_after doc offset n in
  offset <= end_ <= len doc /\ (end_ = len doc \/ line_boundary doc end_ /\ n <= count_newlines (drop (N.to_nat offset) doc)) /\
  count_newlines (cut doc offset end_) = N.min n (count_newlines (drop (N.to_nat offset) doc)).
Proof.
  intros Ho Hn end_. unfold end_, lines_after. destruct (N.eqb_spec n 0) as [|_]; [lia|]. set (l := drop (N.to_nat offset) doc).
  assert (len l = len doc - offset) as Hll by (unfold l; rewrite len_drop; lia).
  destruct (N.leb_spec n (count_newlines l)) as [Hc|Hc].
  - destruct (until_newline_split l n Hn Hc) as (pre & post & El & Hp & Hcp). rewrite <- Hp.
    assert (doc = take (N.to_nat offset) doc ++ pre ++ [NEWLINE] ++ post) as E by (rewrite <- El; symmetry; apply take_drop).
    assert (len (take (N.to_nat offset) doc) = offset) as Ht by (unfold len in *; rewrite length_take; lia).
    rewrite El, !len_app in Hll. change (len [NEWLINE]) with 1 in Hll. rewrite N.min_l by lia. split_and!; [lia|lia| |].
    + right. split; [right|done]. apply (cut_middle doc (take (N.to_nat offset) doc ++ pre) [NEWLINE] post);
        [by rewrite <- app_assoc|len_lia|rewrite len_app; change (len [NEWLINE]) with 1; lia].
    + rewrite (cut_middle doc (take (N.to_nat offset) doc) (pre ++ [NEWLINE]) post), count_newlines_app;
        [change (count_newlines [NEWLINE]) with 1; lia|by rewrite <- app_assoc|lia|rewrite len_app; change (len [NEWLINE]) with 1; lia].
  - rewrite until_newline_all by done. rewrite N.min_r by lia. split_and!; [lia|lia|by left|].
    replace (cut doc offset (len doc)) with l; [lia|]. unfold cut, l. rewrite take_ge; [done|]. rewrite length_drop. unfold len. lia.
Qed.

(** ** Properties *)

(** [start .. end_] grown to whole lines, with that many lines of context or as
    many as there are. *)
Record whole_lines (doc : list N) (start end_ before_context after_context : N) (bounds : N * N) : Prop := {
  wl_around : bounds.1 <= start /\ end_ <= bounds.2 <= len doc;
  wl_first : line_boundary doc bounds.1;
  wl_before : count_newlines (cut doc bounds.1 start) = N.min before_context (count_newlines (take (N.to_nat start) doc));
  wl_last : bounds.2 = len doc \/ line_boundary doc bounds.2;
  wl_after : let needed := after_context + (if ends_line doc end_ then 0 else 1) in
    count_newlines (cut doc end_ bounds.2) = N.min needed (count_newlines (drop (N.to_nat end_) doc)) /\
    (count_newlines (drop (N.to_nat end_) doc) < needed -> bounds.2 = len doc);
}.

Lemma grown_whole_lines doc start end_ before_context after_context :
  start <= len doc -> end_ <= len doc ->
  whole_lines doc start end_ before_context after_context
    (lines_before doc start (before_context + 1), lines_after doc end_ (after_context + if ends_line doc end_ then 0 else 1)).
Proof.
  intros Hs He.
  destruct (lines_before_spec doc start (before_context + 1) Hs ltac:(lia)) as (H1 & H2 & H3).
  assert (let n := after_context + (if ends_line doc end_ then 0 else 1) in let e := lines_after doc end_ n in
    end_ <= e <= len doc /\ (e = len doc \/ line_boundary doc e) /\
    count_newlines (cut doc end_ e) = N.min n (count_newlines (drop (N.to_nat end_) doc)) /\
    (count_newlines (drop (N.to_nat end_) doc) < n -> e = len doc)) as (H4 & H5 & H6 & H7).
  { cbv zeta. destruct (decide (0 < after_context + (if ends_line doc end_ then 0 else 1))) as [Hn|Hn].
    - destruct (lines_after_spec doc end_ _ He Hn) as (G1 & G2 & G3). split_and!; [apply G1|apply G1|tauto|exact G3|intros; destruct G2 as [|[_ ?]]; lia].
    - destruct (ends_line doc end_) eqn:E; [|lia]. replace (after_context + 0) with 0 by lia. unfold lines_after. cbn [N.eqb].
      split_and!; [lia|lia|right; right|rewrite cut_nil by lia; symmetry; apply N.min_0_l|lia].
      unfold ends_line in E. by apply andb_prop in E as [_ E%bool_decide_eq_true]. }
  split; cbn [fst snd]; [lia|exact H2|rewrite H3; f_equal; lia|exact H5|done].
Qed.

(** Growing a range of a document ends, for any reader that returns the
    document's bytes, and gives the whole lines around the range with the
    requested lines of context (all that exist, if fewer). *)
Theorem extend_line_range_exact {S} (read : N -> N -> ST S (list N)) block_newlines doc (I R : S -> Prop) start end_ before_context after_context :
  (forall a b, a <= b -> b <= len doc -> triple I (read a b) (fun r s => I s /\ r = cut doc a b) R) ->
  newlines_ok doc block_newlines -> len doc < 2 ^ 63 -> start <= len doc -> end_ <= len doc ->
  before_context + 1 < U64 -> after_context + 1 < U64 ->
  triple I (extend_line_range read block_newlines (len doc) start end_ before_context after_context)
    (fun bounds s => I s /\ whole_lines doc start end_ before_context after_context bounds) R.
Proof.
  intros Hread Hnl Hlen Hs He Hb Ha.
  eapply triple_weaken; [exact (extend_line_range_ok read block_newlines doc I R Hread Hnl Hlen _ _ _ _ Hs He Hb Ha)|done| |done].
  intros bounds s [HI ->]. split; [exact HI|]. by apply grown_whole_lines.
Qed.

(** The line of an offset is found, for any reader that returns the
    document's bytes: its number counts the newlines before the offset, and its
    start is a line boundary with no newline between. *)
Theorem locate_line_exact {S} (read : N -> N -> ST S (list N)) block_newlines doc (I R : S -> Prop) decoded parts offset :
  (forall a b, a <= b -> b <= len doc -> triple I (read a b) (fun r s => I s /\ r = cut doc a b) R) ->
  newlines_ok doc block_newlines -> len doc < 2 ^ 63 -> parts_ok decoded doc parts -> offset <= len doc ->
  triple I (locate_line read block_newlines parts offset)
    (fun '(line, line_offset) s => I s /\ line = 1 + count_newlines (take (N.to_nat offset) doc) /\
      line_offset <= offset /\ line_boundary doc line_offset /\ count_newlines (cut doc line_offset offset) = 0) R.
Proof.
  intros Hread Hnl Hlen Hparts Ho.
  eapply triple_weaken; [exact (locate_line_ok read block_newlines doc I R Hread Hnl Hlen decoded parts offset Hparts Ho)|done| |done].
  intros [line line_offset] s [HI [= -> ->]]. split; [exact HI|]. split; [done|].
  destruct (lines_before_spec doc offset 1 Ho ltac:(lia)) as (H1 & H2 & H3). split_and!; [exact H1|exact H2|]. unfold line_start. lia.
Qed.

(** ** Witnesses *)

Definition demo_text : list N := [65; 10; 66; 67; 10; 68].
Definition demo_read (a b : N) : ST unit (list N) := mret (cut demo_text a b).
Definition demo_text_parts : list DocumentBlock := [{| db_block_id := 0; db_start := 0; db_offset := 0; db_len := 6 |}].

Lemma demo_reads a b : a <= b -> b <= len demo_text -> triple (fun _ => True) (demo_read a b) (fun r _ => True /\ r = cut demo_text a b) (fun _ => False).
Proof. by intros _ _ s _. Qed.
Lemma demo_text_newlines : newlines_ok demo_text [2].
Proof. split; [done|]. intros block Hb. change (len [2]) with 1 in Hb. by assert (block = 0) as -> by lia. Qed.
Lemma demo_text_parts_ok : parts_ok [demo_text] demo_text demo_text_parts.
Proof. split; [done| |by repeat constructor]. constructor; [by exists demo_text, demo_text|constructor]. Qed.

Lemma extend_line_range_exact_witness :
  (extend_line_range demo_read [2] 6 3 4 0 0 tt).1 = Ok (2, 5) /\
  triple (fun _ => True) (extend_line_range demo_read [2] 6 3 4 0 0) (fun bounds _ => True /\ whole_lines demo_text 3 4 0 0 bounds) (fun _ => False).
Proof.
  split; [vm_compute; reflexivity|].
  by apply (extend_line_range_exact demo_read [2] demo_text (fun _ => True) (fun _ => False) 3 4 0 0 demo_reads demo_text_newlines).
Defined.

Lemma locate_line_exact_witness :
  (locate_line demo_read [2] demo_text_parts 4 tt).1 = Ok (2, 2) /\
  triple (fun _ => True) (locate_line demo_read [2] demo_text_parts 4)
    (fun '(line, line_offset) _ => True /\ line = 1 + count_newlines (take (N.to_nat 4) demo_text) /\
      line_offset <= 4 /\ line_boundary demo_text line_offset /\ count_newlines (cut demo_text line_offset 4) = 0) (fun _ => False).
Proof.
  split; [vm_compute; reflexivity|].
  by apply (locate_line_exact demo_read [2] demo_text (fun _ => True) (fun _ => False) [demo_text] demo_text_parts 4 demo_reads demo_text_newlines eq_refl demo_text_parts_ok).
Defined.
