(* ===== verification/PackFetch.v ===== *)
(** * Fetching documents and regions (crates/index/src/pack.rs)

    Requests are cut into windows of bounded size; a large document is streamed
    into a spool on its own, the others are assembled from the blocks of the
    batch.  Region requests fetch only the planned ranges of a document, merged
    when they are near, grown to whole lines and located by line.  A document
    body is its bytes, whether it is kept in memory or in a file. *)

From S2P Require Import Prelude BitPack Bytes Trigrams Format PackBuild PackRead PackBatch PackLines.

Definition LARGE_DOCUMENT_BYTES : N := 16 * 1024 * 1024.
Definition WINDOW_BYTES : N := 32 * 1024 * 1024.
Definition WINDOW_DOCUMENTS : N := 1024.
Definition REGION_GAP_BYTES : N := 1024 * 1024.
Definition REGION_MAX_RANGES : N := 512.

Record PackRequest : Type := { rq_index : N; rq_slice : PackSlice; rq_size : N }.

Inductive PackRange : Type :=
  | PRegional (start end_ span : N)
  | PFullLines (start end_ before_context after_context : N).

Record PackRegionRequest : Type := {
  rr_index : N; rr_slice : PackSlice; rr_size : N; rr_ranges : list PackRange; rr_newlines : list N;
}.

Inductive PlannedRead : Type :=
  | ReadRegional
  | ReadFullLines (before_context after_context : N).
Record PlannedRange : Type := { pr_start : N; pr_end : N; pr_read : PlannedRead }.

Inductive PlannedRequest : Type :=
  | PlanWhole (parts : list DocumentBlock)
  | PlanRegions (parts : list DocumentBlock) (ranges : list PlannedRange).

(** [seagrep_core::{RegionProgram, DocumentRegion, FetchedDocument}] *)
Inductive RegionProgram : Type := ProgramRegional | ProgramFull.
Record DocumentRegion : Type := {
  dr_start : N; dr_line : N; dr_line_offset : N; dr_bytes : list N; dr_program : RegionProgram;
}.
Inductive FetchedDocument : Type :=
  | Whole (body : list N)
  | Regions (decoded_size : N) (regions : list DocumentRegion).

(** ** Windows of requests *)

Definition is_large_request (request : PackRequest) : bool := LARGE_DOCUMENT_BYTES <=? rq_size request.

(** The inner loop of [request_windows]. *)
Fixpoint window_end (fuel : nat) (requests : list PackRequest) (start end_ bytes : N) : N :=
  match fuel with
  | O => end_
  | S fuel =>
      match get requests end_ with
      | None => end_
      | Some request =>
          if end_ - start <? WINDOW_DOCUMENTS then
            if (start <? end_) && (is_large_request request || (saturating_sub WINDOW_BYTES bytes <? rq_size request)) then end_
            else if is_large_request request then end_ + 1
            else window_end fuel requests start (end_ + 1) (saturating_add U64 bytes (rq_size request))
          else end_
      end
  end.
Fixpoint windows_from (fuel : nat) (requests : list PackRequest) (start : N) : list (N * N) :=
  match fuel with
  | O => []
  | S fuel =>
      if start <? len requests then
        let end_ := window_end (length requests) requests start start 0 in
        (start, end_) :: windows_from fuel requests end_
      else []
  end.
Definition request_windows (requests : list PackRequest) : list (N * N) := windows_from (length requests) requests 0.

(** ** Planning ranges *)

Definition join_reads (current next : PlannedRead) : PlannedRead :=
  match current, next with
  | ReadFullLines before_context after_context, ReadFullLines next_before next_after =>
      ReadFullLines (N.max before_context next_before) (N.max after_context next_after)
  | ReadRegional, ReadFullLines before_context after_context => ReadFullLines before_context after_context
  | current, ReadRegional => current
  end.

(** The loop over the sorted ranges; [merged] is reversed, its head is
    [merged.last_mut()]. *)
Fixpoint merge_planned_loop (gap_bytes : N) (ranges merged : list PlannedRange) : list PlannedRange :=
  match ranges with
  | [] => rev merged
  | range :: ranges =>
      match merged with
      | previous :: rest =>
          if saturating_sub (pr_start range) (pr_end previous) <=? gap_bytes then
            merge_planned_loop gap_bytes ranges
              ({| pr_start := pr_start previous; pr_end := N.max (pr_end previous) (pr_end range);
                  pr_read := join_reads (pr_read previous) (pr_read range) |} :: rest)
          else merge_planned_loop gap_bytes ranges (range :: merged)
      | [] => merge_planned_loop gap_bytes ranges [range]
      end
  end.
Definition planned_leb (a b : PlannedRange) : bool := pr_start a <=? pr_start b.
Definition merge_planned_ranges (ranges : list PlannedRange) (gap_bytes : N) : list PlannedRange :=
  merge_planned_loop gap_bytes (sort_by planned_leb ranges) [].

Definition range_bytes (range : PackRange) : N * N :=
  match range with PRegional start end_ _ | PFullLines start end_ _ _ => (start, end_) end.

Definition plan_range (decoded_size : N) (range : PackRange) : res PlannedRange :=
  let '(start, end_) := range_bytes range in
  ensure ((start <? end_) && (end_ <=? decoded_size)) "candidate byte range is outside the document";;
  match range with
  | PRegional start end_ span =>
      overlap ← with_context (checked_sub span 1) "regional span must be positive";
      Ok {| pr_start := saturating_sub start overlap; pr_end := N.min (saturating_add U64 end_ overlap) decoded_size;
            pr_read := ReadRegional |}
  | PFullLines start end_ before_context after_context =>
      Ok {| pr_start := start; pr_end := end_; pr_read := ReadFullLines before_context after_context |}
  end.

Definition add_covered (covered : N) (range : PlannedRange) : res N :=
  with_context (checked_add U64 covered (wrapping_sub U64 (pr_end range) (pr_start range))) "candidate range coverage overflows".

Definition plan_pack_ranges (request : PackRegionRequest) : res (option (list PlannedRange)) :=
  ranges ← mapM_res (plan_range (rr_size request)) (rr_ranges request);
  let ranges := merge_planned_ranges ranges REGION_GAP_BYTES in
  covered ← foldM add_covered 0 ranges;
  if (REGION_MAX_RANGES <? len ranges) || (rr_size request <? saturating_mul U64 covered 2) then Ok None else Ok (Some ranges).

(** [collect_request_blocks] *)
Definition collect_request_blocks (slice : PackSlice) (decoded_size : N) (ranges : list (N * N)) (blocks : list PackBlock)
    (output : list N) : res (list N) :=
  parts ← document_blocks slice decoded_size blocks;
  Ok (fold_left (fun output '(a, b) => overlapping_blocks parts a b output) ranges output).

(** [DocumentSpool], by the contents of its file. *)
Record DocumentSpool : Type := { sp_bytes : list N; sp_len : N }.
Definition spool_new (size : N) : DocumentSpool := {| sp_bytes := replicate (N.to_nat size) 0; sp_len := size |}.
Definition spool_write_at (spool : DocumentSpool) (start : N) (bytes : list N) : res DocumentSpool :=
  end_ ← with_context (checked_add U64 start (len bytes)) "document spool range overflows";
  ensure (end_ <=? sp_len spool) "document spool range is out of bounds";;
  Ok {| sp_bytes := write_file (sp_bytes spool) start bytes; sp_len := sp_len spool |}.

(** What the closure of [fetch_large] captures. *)
Record LargeState : Type := { lg_spool : DocumentSpool; lg_remaining : N; lg_block_offset : N; lg_output_offset : N }.

Definition large_visit (_ : N) (decoded : list N) : ST LargeState unit := fun s =>
  match
    available ← with_context (checked_sub (len decoded) (lg_block_offset s)) "document block offset is out of bounds";
    let take_ := N.min (lg_remaining s) available in
    bytes ← expect (get_range decoded (lg_block_offset s) (lg_block_offset s + take_)) "range out of bounds";
    spool ← spool_write_at (lg_spool s) (lg_output_offset s) bytes;
    Ok {| lg_spool := spool; lg_remaining := lg_remaining s - take_; lg_block_offset := 0; lg_output_offset := lg_output_offset s + take_ |}
  with
  | Ok s' => (Ok tt, s')
  | Err e => (Err e, s)
  | Panic w => (Panic w, s)
  end.

Section fetch.
Context {W K : Type} (io : Io W) (decompress : list N -> N -> res (list N)) (sha256 : list N -> list N).
Context (cache : bool) (packs : list PackMeta) (blocks : list PackBlock).

Abbreviation read parts := (read_range io decompress sha256 cache packs blocks parts).

Definition fetch_large (request : PackRequest) : ST W (list N) :=
  '(first, end_) ← lift (block_span (rq_slice request) (rq_size request) blocks);
  runs ← lift (block_runs (range first end_) blocks);
  state ← (fun w =>
    let '(r, (w', state)) := visit_blocks io decompress sha256 cache packs blocks large_visit runs RANGE_BYTES
      (w, {| lg_spool := spool_new (rq_size request); lg_remaining := rq_size request;
             lg_block_offset := ps_block_offset (rq_slice request); lg_output_offset := 0 |}) in
    (_ ← r; Ok state, w'));
  _ ← lift (ensure (lg_remaining state =? 0) "pack blocks ended before the document");
  mret (sp_bytes (lg_spool state)).

(** [fetch_large_reusing_blocks] *)
Definition reuse_step (parts : list DocumentBlock) (spool : DocumentSpool) (part : DocumentBlock) : ST (W * BlockState) DocumentSpool :=
  end_ ← lift (with_context (checked_add U64 (db_start part) (db_len part)) "document block range overflows");
  bytes ← read parts (db_start part) end_;
  lift (spool_write_at spool (db_start part) bytes).

Definition fetch_large_reusing_blocks (slice : PackSlice) (decoded_size : N) : ST (W * BlockState) (list N) :=
  parts ← lift (document_blocks slice decoded_size blocks);
  let block_ids := fold_left (fun output part => set_insert (db_block_id part) output) parts [] in
  _ ← load_blocks_to_file io decompress sha256 cache packs blocks block_ids;
  spool ← foldS (reuse_step parts) (spool_new decoded_size) parts;
  mret (sp_bytes spool).

(** ** Documents *)

Context (consume : N -> FetchedDocument -> ST K unit).

Definition gather_request (s : list N * list (list DocumentBlock)) (request : PackRequest) : res (list N * list (list DocumentBlock)) :=
  let '(block_ids, parts) := s in
  document_parts ← document_blocks (rq_slice request) (rq_size request) blocks;
  block_ids ← (if 0 <? rq_size request
    then collect_request_blocks (rq_slice request) (rq_size request) [(0, rq_size request)] blocks block_ids
    else Ok block_ids);
  Ok (block_ids, parts ++ [document_parts]).

Definition consume_request (entry : PackRequest * list DocumentBlock) : ST ((W * BlockState) * K) unit :=
  let '(request, parts) := entry in
  bytes ← on_fst (read parts 0 (rq_size request));
  on_snd (consume (rq_index request) (Whole bytes)).

Definition fetch_window (requests : list PackRequest) (window : N * N) : ST ((W * BlockState) * K) unit :=
  requests ← lift (expect (get_range requests window.1 window.2) "range out of bounds");
  match requests with
  | [request] =>
      if is_large_request request then
        body ← on_fst (on_fst (fetch_large request));
        on_snd (consume (rq_index request) (Whole body))
      else
        '(block_ids, parts) ← lift (foldM gather_request ([], []) requests);
        _ ← on_fst (load_blocks io decompress sha256 cache packs blocks block_ids);
        forS consume_request (zip requests parts)
  | _ =>
      '(block_ids, parts) ← lift (foldM gather_request ([], []) requests);
      _ ← on_fst (load_blocks io decompress sha256 cache packs blocks block_ids);
      forS consume_request (zip requests parts)
  end.

Definition fetch_documents (requests : list PackRequest) : ST ((W * BlockState) * K) unit :=
  forS (fetch_window requests) (request_windows requests).

(** ** Regions *)

Definition plan_request (s : list N * list PlannedRequest) (request : PackRegionRequest) : res (list N * list PlannedRequest) :=
  let '(block_ids, plans) := s in
  parts ← document_blocks (rr_slice request) (rr_size request) blocks;
  plan ← plan_pack_ranges request;
  match plan with
  | None =>
      block_ids ← (if (rr_size request <? LARGE_DOCUMENT_BYTES) && (0 <? rr_size request)
        then collect_request_blocks (rr_slice request) (rr_size request) [(0, rr_size request)] blocks block_ids
        else Ok block_ids);
      Ok (block_ids, plans ++ [PlanWhole parts])
  | Some ranges =>
      block_ids ← collect_request_blocks (rr_slice request) (rr_size request)
        (fmap (M := list) (fun range => (pr_start range, pr_end range)) ranges) blocks block_ids;
      Ok (block_ids, plans ++ [PlanRegions parts ranges])
  end.

Definition exact_range (request : PackRegionRequest) (parts : list DocumentBlock) (exact : list PlannedRange) (range : PlannedRange)
    : ST (W * BlockState) (list PlannedRange) :=
  match pr_read range with
  | ReadRegional => mret (exact ++ [range])
  | ReadFullLines before_context after_context =>
      '(start, end_) ← extend_line_range (read parts) (rr_newlines request) (rr_size request)
        (pr_start range) (pr_end range) before_context after_context;
      mret (exact ++ [{| pr_start := start; pr_end := end_; pr_read := ReadFullLines before_context after_context |}])
  end.

Definition region_step (request : PackRegionRequest) (parts : list DocumentBlock) (regions : list DocumentRegion) (range : PlannedRange)
    : ST (W * BlockState) (list DocumentRegion) :=
  '(line, line_offset) ← locate_line (read parts) (rr_newlines request) parts (pr_start range);
  bytes ← read parts (pr_start range) (pr_end range);
  mret (regions ++ [{| dr_start := pr_start range; dr_line := line; dr_line_offset := line_offset; dr_bytes := bytes;
    dr_program := match pr_read range with ReadRegional => ProgramRegional | ReadFullLines _ _ => ProgramFull end |}]).

Definition fetch_planned (request : PackRegionRequest) (plan : PlannedRequest) : ST (W * BlockState) FetchedDocument :=
  match plan with
  | PlanWhole parts =>
      if LARGE_DOCUMENT_BYTES <=? rr_size request then
        body ← fetch_large_reusing_blocks (rr_slice request) (rr_size request);
        mret (Whole body)
      else
        bytes ← read parts 0 (rr_size request);
        mret (Whole bytes)
  | PlanRegions parts ranges =>
      exact ← foldS (exact_range request parts) [] ranges;
      let exact := merge_planned_ranges exact 0 in
      regions ← foldS (region_step request parts) [] exact;
      mret (Regions (rr_size request) regions)
  end.

Definition consume_planned (entry : PackRegionRequest * PlannedRequest) : ST ((W * BlockState) * K) unit :=
  let '(request, plan) := entry in
  document ← on_fst (fetch_planned request plan);
  on_snd (consume (rr_index request) document).

Definition fetch_regions (requests : list PackRegionRequest) : ST ((W * BlockState) * K) unit :=
  '(block_ids, plans) ← lift (foldM plan_request ([], []) requests);
  _ ← on_fst (load_blocks io decompress sha256 cache packs blocks block_ids);
  forS consume_planned (zip requests plans).
End fetch.

(** ** Windows *)

Lemma window_end_ok fuel requests start end_ bytes :
  start <= end_ <= len requests -> (end_ = start -> start < len requests /\ (0 < fuel)%nat) ->
  start < window_end fuel requests start end_ bytes <= len requests.
Proof.
  revert end_ bytes. induction fuel as [|fuel IH]; intros end_ bytes Hb Hs; cbn [window_end].
  { destruct (decide (end_ = start)) as [E|]; [destruct (Hs E); lia|lia]. }
  destruct (get requests end_) as [request|] eqn:E.
  2: { destruct (decide (end_ = start)) as [->|]; [|lia]. destruct (get_is_Some requests start); [by apply Hs|congruence]. }
  pose proof (get_Some_lt _ _ _ E). destruct (N.ltb_spec (end_ - start) WINDOW_DOCUMENTS) as [|Hw].
  2: { change WINDOW_DOCUMENTS with 1024 in Hw. lia. }
  destruct (N.ltb_spec start end_); cbn [andb].
  - destruct (is_large_request request) eqn:El; cbn [orb]; [lia|]. destruct (_ <? _); [lia|]. apply IH; lia.
  - destruct (is_large_request request); [lia|]. apply IH; lia.
Qed.
Lemma windows_from_ok fuel requests start :
  start <= len requests -> len requests <= start + N.of_nat fuel -> spans start (windows_from fuel requests start) (len requests).
Proof.
  revert start. induction fuel as [|fuel IH]; intros start Hs Hf; cbn [windows_from]; [cbn; lia|].
  destruct (N.ltb_spec start (len requests)); [|cbn; lia]. cbn [spans]. split; [done|].
  destruct (window_end_ok (length requests) requests start start 0) as [H1 H2]; [lia|unfold len in *; lia|].
  split; [done|]. apply IH; lia.
Qed.
Lemma request_windows_spans requests : spans 0 (request_windows requests) (len requests).
Proof. apply windows_from_ok; unfold len; lia. Qed.

Definition window_bytes (requests : list PackRequest) (a b : N) : N :=
  sumN (rq_size <$> take (N.to_nat (b - a)) (drop (N.to_nat a) requests)).

(** A window holds one request, or at most [WINDOW_DOCUMENTS] small ones of at
    most [WINDOW_BYTES] bytes together. *)
Definition window_ok (requests : list PackRequest) (window : N * N) : Prop :=
  let '(a, b) := window in
  b = a + 1 \/
  b - a <= WINDOW_DOCUMENTS /\ window_bytes requests a b <= WINDOW_BYTES /\
  forall i request, a <= i < b -> get requests i = Some request -> is_large_request request = false.

Lemma window_end_bound fuel requests start end_ bytes :
  start <= end_ -> bytes = window_bytes requests start end_ -> bytes <= WINDOW_BYTES -> end_ - start <= WINDOW_DOCUMENTS ->
  (forall i request, start <= i < end_ -> get requests i = Some request -> is_large_request request = false) ->
  window_ok requests (start, window_end fuel requests start end_ bytes).
Proof.
  revert end_ bytes. induction fuel as [|fuel IH]; intros end_ bytes Hs Hb Hw Hd Hl; cbn [window_end].
  { right. subst bytes. done. }
  assert (window_ok requests (start, end_)) as Hstop by (right; subst bytes; done).
  destruct (get requests end_) as [request|] eqn:E; [|exact Hstop].
  destruct (N.ltb_spec (end_ - start) WINDOW_DOCUMENTS) as [Hlt|]; [|exact Hstop].
  change WINDOW_DOCUMENTS with 1024 in *. change WINDOW_BYTES with 33554432 in *.
  assert (window_bytes requests start (end_ + 1) = bytes + rq_size request) as Hnext.
  { unfold window_bytes in *. replace (N.to_nat (end_ + 1 - start)) with (S (N.to_nat (end_ - start))) by lia.
    rewrite (take_S_r _ _ request), fmap_app; [cbn [fmap list_fmap]; rewrite sumN_snoc; lia|].
    rewrite lookup_drop. unfold get in E. rewrite <- E. f_equal. lia. }
  destruct (N.ltb_spec start end_) as [Hse|Hse]; cbn [andb].
  - destruct (is_large_request request) eqn:El; cbn [orb]; [exact Hstop|].
    unfold saturating_sub. destruct (N.ltb_spec (33554432 - bytes) (rq_size request)); [exact Hstop|].
    unfold saturating_add. rewrite N.min_l by lia. apply IH; [lia|by rewrite Hnext|lia|lia|].
    intros i r Hi Hr. destruct (decide (i = end_)) as [->|]; [congruence|]. apply (Hl i); [lia|done].
  - assert (end_ = start) as -> by lia. destruct (is_large_request request) eqn:El; [by left|].
    assert (bytes = 0) as -> by (subst bytes; unfold window_bytes; rewrite N.sub_diag; reflexivity).
    unfold is_large_request in El. apply N.leb_gt in El. change LARGE_DOCUMENT_BYTES with 16777216 in El.
    unfold saturating_add. rewrite N.add_0_l, N.min_l by lia. apply IH; [lia|by rewrite Hnext|lia|lia|].
    intros i r Hi Hr. assert (i = start) as -> by lia. rewrite E in Hr. injection Hr as <-.
    unfold is_large_request. apply N.leb_gt. change LARGE_DOCUMENT_BYTES with 16777216. lia.
Qed.
Lemma request_windows_ok requests : Forall (window_ok requests) (request_windows requests).
Proof.
  unfold request_windows. generalize 0. induction (length requests) as [|fuel IH] in |- * at 1; intros start; cbn [windows_from]; [constructor|].
  destruct (start <? len requests); [|constructor]. constructor; [|apply IH].
  apply window_end_bound; [lia|unfold window_bytes; rewrite N.sub_diag; reflexivity|done|lia|lia].
Qed.

(** ** Spools *)

(** A file of the document's length, written up to [n]. *)
Definition filled (doc : list N) (n : N) : list N := take (N.to_nat n) doc ++ replicate (N.to_nat (len doc - n)) 0.

Lemma write_filled doc n m :
  n <= m -> m <= len doc -> write_file (filled doc n) n (cut doc n m) = filled doc m.
Proof.
  intros Hn Hm. unfold write_file, filled. rewrite len_cut by done.
  assert (length (take (N.to_nat n) doc) = N.to_nat n) as Hl by (rewrite length_take; unfold len in *; lia).
  rewrite take_app_le, take_take, Nat.min_id by lia. rewrite len_app.
  replace (n - _) with 0 by (unfold len at 1 in Hm; unfold len; rewrite Hl; lia). cbn [N.to_nat replicate app].
  assert (drop (N.to_nat (n + (m - n))) (take (N.to_nat n) doc ++ replicate (N.to_nat (len doc - n)) 0) = replicate (N.to_nat (len doc - m)) 0) as ->.
  { rewrite drop_app_ge by lia. rewrite Hl, drop_replicate. f_equal. lia. }
  by rewrite (take_cut doc n m), <- app_assoc by done.
Qed.
Lemma spool_new_filled doc : sp_bytes (spool_new (len doc)) = filled doc 0.
Proof. unfold spool_new, filled. cbn. by rewrite N.sub_0_r. Qed.
Lemma filled_all doc : filled doc (len doc) = doc.
Proof. unfold filled. rewrite N.sub_diag, to_nat_len, firstn_all. apply app_nil_r. Qed.
Lemma spool_write_ok doc n m :
  n <= m -> m <= len doc -> len doc < U64 ->
  spool_write_at {| sp_bytes := filled doc n; sp_len := len doc |} n (cut doc n m) = Ok {| sp_bytes := filled doc m; sp_len := len doc |}.
Proof.
  intros Hn Hm Hl. unfold spool_write_at, checked_add. rewrite len_cut by done. replace (n + (m - n)) with m by lia.
  destruct (N.ltb_spec m U64); [|lia]. cbn [with_context mbind res_bind sp_len sp_bytes].
  destruct (N.leb_spec m (len doc)); [|lia]. cbn [ensure mbind res_bind]. by rewrite write_filled.
Qed.

Section serving.
Context {W : Type} (io : Io W) (decompress : list N -> N -> res (list N)) (sha256 : list N -> list N).
Context (cache : bool) (packs : list PackMeta) (blocks : list PackBlock).
Context (files decoded : list (list N)) (honest : Prop).
Context (Hworld : world_ok io decompress sha256 packs blocks files decoded honest).
Context (Htotal : len (concat decoded) < 2 ^ 63) (Hcount : len blocks < U32).

(** A document of the packs. *)
Definition located (slice : PackSlice) (size : N) (doc : list N) : Prop :=
  len doc = size /\ exists from, get_range (concat decoded) from (from + size) = Some doc /\ slice_ok blocks slice from size.

Lemma world_lens : decoded_lens blocks = len <$> decoded.
Proof. eapply stored_lens. exact (wo_stored _ _ _ _ _ _ _ _ Hworld). Qed.
Lemma world_positive : Forall (fun b => 0 < decoded_len b) blocks.
Proof. destruct (wo_blocks _ _ _ _ _ _ _ _ Hworld) as (H & _). eapply Forall_impl; [exact H|]. cbn. lia. Qed.
Lemma world_small : Forall (fun b => decoded_len b < U64) blocks.
Proof. destruct (wo_blocks _ _ _ _ _ _ _ _ Hworld) as (H & _). eapply Forall_impl; [exact H|]. cbn. change PACK_BLOCK_BYTES with 131072. lia. Qed.

Lemma located_small slice size doc : located slice size doc -> len doc < 2 ^ 63.
Proof. intros (Hs & from & Hr & _). apply get_range_Some in Hr as (_ & H & _). lia. Qed.

Lemma located_parts slice size doc :
  located slice size doc -> exists parts, document_blocks slice size blocks = Ok parts /\ parts_ok decoded doc parts.
Proof.
  intros (<- & from & Hr & Hs). eapply document_blocks_ok; [exact world_lens|exact world_positive|exact world_small|exact Hr|exact Hs].
Qed.

(** The parts come from consecutive blocks. *)
Lemma document_block_steps ids parts0 rem0 start0 off0 parts rem start off :
  foldM (document_block_step blocks) (parts0, rem0, start0, off0) ids = Ok (parts, rem, start, off) ->
  exists more, parts = parts0 ++ more /\ db_block_id <$> more = ids.
Proof.
  revert parts0 rem0 start0 off0. induction ids as [|id ids IH]; intros parts0 rem0 start0 off0; cbn [foldM].
  { intros [= <- <- <- <-]. exists []. by rewrite app_nil_r. }
  intros H. apply bind_ok in H as (s & Hs & H). unfold document_block_step in Hs. apply bind_ok in Hs as (b & _ & Hs).
  injection Hs as <-. apply IH in H as (more & -> & Hm). eexists. rewrite <- app_assoc. split; [done|]. cbn. by rewrite Hm.
Qed.

Lemma located_steps slice size doc :
  located slice size doc -> exists first end_ parts start off,
    block_span slice size blocks = Ok (first, end_) /\
    foldM (document_block_step blocks) ([], size, 0, ps_block_offset slice) (range first end_) = Ok (parts, 0, start, off) /\
    parts_ok decoded doc parts.
Proof.
  intros H. destruct (located_parts _ _ _ H) as (parts & Hp & Hok). unfold document_blocks in Hp.
  apply bind_ok in Hp as ([first end_] & Hspan & Hp). apply bind_ok in Hp as ([[[parts' rem] start] off] & Hf & Hp).
  apply bind_ok in Hp as ([] & He & [= ->]). apply ensure_ok, N.eqb_eq in He as ->. exists first, end_, parts, start, off. done.
Qed.

(** The closure of [fetch_large] follows the parts. *)
Definition large_at (doc : list N) (slice : PackSlice) (pre : list N) (s : LargeState) : Prop :=
  exists parts, foldM (document_block_step blocks) ([], len doc, 0, ps_block_offset slice) pre =
      Ok (parts, lg_remaining s, lg_output_offset s, lg_block_offset s) /\
    lg_output_offset s + lg_remaining s = len doc /\
    lg_spool s = {| sp_bytes := filled doc (lg_output_offset s); sp_len := len doc |}.

Lemma large_visit_ok doc slice ids pre id post d parts start off :
  foldM (document_block_step blocks) ([], len doc, 0, ps_block_offset slice) ids = Ok (parts, 0, start, off) ->
  parts_ok decoded doc parts -> len doc < 2 ^ 63 -> ids = pre ++ id :: post -> get decoded id = Some d ->
  triple (large_at doc slice pre) (large_visit id d) (fun _ => large_at doc slice (pre ++ [id])) (fun _ => ~ honest).
Proof.
  intros Hall [Htiles Hparts _] Hsmall Hids Hd s (parts0 & Hpre & Hsum & Hspool).
  destruct (get_is_Some blocks id) as [b Hb].
  { apply get_Some_lt in Hd. pose proof (Forall2_length _ _ _ (wo_stored _ _ _ _ _ _ _ _ Hworld)). unfold len in *. lia. }
  destruct (decoded_at blocks decoded world_lens id b Hb) as (d' & Hd' & Hl). rewrite Hd in Hd'. injection Hd' as <-.
  rewrite Hids, foldM_app, Hpre in Hall. cbn [mbind res_bind foldM] in Hall.
  assert (document_block_step blocks (parts0, lg_remaining s, lg_output_offset s, lg_block_offset s) id =
    Ok (parts0 ++ [{| db_block_id := id; db_start := lg_output_offset s; db_offset := lg_block_offset s;
          db_len := N.min (lg_remaining s) (wrapping_sub U64 (decoded_len b) (lg_block_offset s)) |}],
        lg_remaining s - N.min (lg_remaining s) (wrapping_sub U64 (decoded_len b) (lg_block_offset s)),
        lg_output_offset s + N.min (lg_remaining s) (wrapping_sub U64 (decoded_len b) (lg_block_offset s)), 0)) as Hstep
    by (unfold document_block_step; by rewrite Hb).
  set (n := N.min (lg_remaining s) (wrapping_sub U64 (decoded_len b) (lg_block_offset s))) in *.
  set (part := {| db_block_id := id; db_start := lg_output_offset s; db_offset := lg_block_offset s; db_len := n |}) in *.
  rewrite Hstep in Hall. cbn [mbind res_bind] in Hall.
  destruct (document_block_steps _ _ _ _ _ _ _ _ _ Hall) as (more & Eparts & _).
  assert (part ∈ parts) as Hin by (rewrite Eparts, !elem_of_app; set_solver).
  rewrite Forall_forall in Hparts. destruct (Hparts _ Hin) as (d' & bytes & Hd' & Hbytes & Hdoc). cbn in Hd', Hbytes, Hdoc.
  rewrite Hd in Hd'. injection Hd' as <-. pose proof Hbytes as (_ & Hfit & _)%get_range_Some. pose proof Hdoc as (_ & Hfit2 & Ecut)%get_range_Some.
  pose proof (decoded_small io decompress sha256 packs blocks files decoded honest Hworld id d Hd) as Hds.
  assert (n = N.min (lg_remaining s) (len d - lg_block_offset s)) as En.
  { unfold n. rewrite wrapping_sub_small by lia. by rewrite Hl. }
  unfold large_visit, checked_sub. destruct (N.leb_spec (lg_block_offset s) (len d)); [|lia]. cbn [with_context mbind res_bind].
  rewrite <- En, Hbytes. cbn [expect mbind res_bind].
  assert (bytes = cut doc (lg_output_offset s) (lg_output_offset s + n)) as -> by exact Ecut.
  rewrite Hspool, spool_write_ok by lia. cbn [mbind res_bind]. exists (parts0 ++ [part]). cbn. split_and!; [|lia|done].
  rewrite foldM_app, Hpre. cbn [mbind res_bind foldM]. rewrite Hstep. done.
Qed.

Lemma fetch_large_ok request doc :
  located (rq_slice request) (rq_size request) doc ->
  yields honest (fetch_large io decompress sha256 cache packs blocks request) (fun body => body = doc).
Proof.
  intros Hloc. pose proof (located_small _ _ _ Hloc) as Hsmall.
  destruct (located_steps _ _ _ Hloc) as (first & end_ & parts & start & off & Hspan & Hsteps & Hparts).
  destruct Hloc as (Hsize & _). unfold fetch_large.
  eapply yields_bind; [apply yields_lift_ok; exact Hspan|]. intros ? ->.
  destruct (document_block_steps _ _ _ _ _ _ _ _ _ Hsteps) as (more & Em & Hids).
  destruct (block_runs_ok blocks (wo_blocks _ _ _ _ _ _ _ _ Hworld) (range first end_)) as (runs & Hruns & Hrok & Hrids).
  { intros id Hid. rewrite <- Hids in Hid. apply list_elem_of_fmap in Hid as (p & -> & Hp).
    destruct Hparts as [_ Hall _]. rewrite Em in Hall. cbn in Hall. rewrite Forall_forall in Hall. destruct (Hall p Hp) as (d & _ & Hd & _).
    apply get_Some_lt in Hd. pose proof (Forall2_length _ _ _ (wo_stored _ _ _ _ _ _ _ _ Hworld)). unfold len in *. lia. }
  eapply yields_bind; [apply yields_lift_ok; exact Hruns|]. intros ? ->.
  eapply (yields_bind _ _ _ (fun state => large_at doc (rq_slice request) (range first end_) state)).
  - intros w _. rewrite <- Hsize in *.
    pose proof (visit_blocks_ok io decompress sha256 cache packs blocks files decoded honest Hworld large_visit (range first end_)
      (large_at doc (rq_slice request)) (fun _ => ~ honest)) as H.
    specialize (H (fun pre id post d E Hd => large_visit_ok doc (rq_slice request) _ pre id post d parts start off Hsteps Hparts Hsmall E Hd)).
    specialize (H (fun _ _ _ Hn => Hn) runs RANGE_BYTES Hrids Hrok).
    specialize (H (w, {| lg_spool := spool_new (len doc); lg_remaining := len doc; lg_block_offset := ps_block_offset (rq_slice request); lg_output_offset := 0 |})).
    cbn beta in H. destruct (visit_blocks _ _ _ _ _ _ _ _ _ _) as [[[]|e|why] [w' state]].
    + apply H. exists []. cbn. split_and!; [done|lia|]. unfold spool_new. f_equal. exact (spool_new_filled doc).
    + apply H. exists []. cbn. split_and!; [done|lia|]. unfold spool_new. f_equal. exact (spool_new_filled doc).
    + apply H. exists []. cbn. split_and!; [done|lia|]. unfold spool_new. f_equal. exact (spool_new_filled doc).
  - intros state (parts' & Hall & Hsum & Hspool). rewrite Hsize, Hsteps in Hall. injection Hall as <- E0 _ _.
    rewrite <- E0 in *. eapply yields_bind; [by apply yields_lift, sound_ensure|]. intros [] _. apply yields_ret.
    rewrite Hspool. cbn. replace (lg_output_offset state) with (len doc) by lia. apply filled_all.
Qed.

Abbreviation batch := (batch_ok decoded).

Definition good {A} (m : ST (W * BlockState) A) (Q : A -> Prop) : Prop :=
  triple (fun s => batch s.2) m (fun a s => batch s.2 /\ Q a) (fun s => batch s.2 /\ ~ honest).

Lemma good_bind {A B} (m : ST (W * BlockState) A) (f : A -> ST (W * BlockState) B) Q Q' :
  good m Q -> (forall a, Q a -> good (f a) Q') -> good (m ≫= f) Q'.
Proof. intros Hm Hf. eapply triple_bind; [exact Hm|]. intros a. cbn beta. apply triple_pure. apply Hf. Qed.
Lemma good_ret {A} (a : A) (Q : A -> Prop) : Q a -> good (mret a) Q.
Proof. intros H s Hs. done. Qed.
Lemma good_lift {A} (r : res A) a : r = Ok a -> good (lift r) (fun x => x = a).
Proof. intros -> s Hs. done. Qed.
Lemma good_weaken {A} (m : ST (W * BlockState) A) (Q Q' : A -> Prop) : good m Q -> (forall a, Q a -> Q' a) -> good m Q'.
Proof. intros H HQ. eapply triple_weaken; [exact H|done| |done]. cbn. intuition. Qed.
Lemma good_foldS {A B} (I : list A -> B -> Prop) (f : B -> A -> ST (W * BlockState) B) b l :
  I [] b -> (forall pre x post b, l = pre ++ x :: post -> I pre b -> good (f b x) (I (pre ++ [x]))) -> good (foldS f b l) (I l).
Proof.
  intros H0 H. eapply triple_weaken; [apply (triple_foldS (fun pre b s => batch s.2 /\ I pre b) f b l (fun s => batch s.2 /\ ~ honest))|done|done|done].
  intros pre x post b' Hl s [Hs Hb]. by apply (H pre x post b' Hl Hb).
Qed.

Lemma good_read parts doc a b :
  parts_ok decoded doc parts -> a <= b -> b <= len doc ->
  good (read_range io decompress sha256 cache packs blocks parts a b) (fun r => r = cut doc a b).
Proof. intros Hp Ha Hb. by eapply read_range_ok. Qed.

Lemma part_bounds parts doc p : parts_ok decoded doc parts -> p ∈ parts -> db_start p + db_len p <= len doc.
Proof.
  intros [_ Hall _] Hp. rewrite Forall_forall in Hall. destruct (Hall p Hp) as (d & b & _ & _ & Hd). by apply get_range_Some in Hd as (_ & ? & _).
Qed.
Lemma part_blocks parts doc p : parts_ok decoded doc parts -> p ∈ parts -> db_block_id p < len blocks.
Proof.
  intros [_ Hall _] Hp. rewrite Forall_forall in Hall. destruct (Hall p Hp) as (d & _ & Hd & _). apply get_Some_lt in Hd.
  pose proof (Forall2_length _ _ _ (wo_stored _ _ _ _ _ _ _ _ Hworld)). unfold len in *. lia.
Qed.

Lemma tiles_le ps s e : tiles s ps e -> s <= e.
Proof. revert s. induction ps as [|q ps IH]; intros s; cbn [tiles]; [lia|]. intros (_ & ? & ?%IH). lia. Qed.
Lemma tiles_fun ps s e e' : tiles s ps e -> tiles s ps e' -> e = e'.
Proof. revert s. induction ps as [|q ps IH]; intros s; cbn [tiles]; [congruence|]. intros (_ & _ & H1) (_ & _ & H2). by eapply IH. Qed.
Lemma tiles_prefix s pre p post e :
  tiles s (pre ++ p :: post) e -> tiles s pre (db_start p) /\ 0 < db_len p /\ db_start p + db_len p <= e.
Proof.
  revert s. induction pre as [|q pre IH]; intros s; cbn [app tiles].
  - intros (Hs & Hl & Ht). apply tiles_le in Ht. split_and!; [done|done|lia].
  - intros (Hs & Hl & Ht). apply IH in Ht as (Ht & Hle & He). done.
Qed.

Lemma inserted_blocks_spec parts out :
  ascending out -> (forall x, x ∈ out -> x < len blocks) -> (forall p, p ∈ parts -> db_block_id p < len blocks) ->
  let ids := fold_left (fun output part => set_insert (db_block_id part) output) parts out in
  ascending ids /\ forall x, x ∈ ids -> x < len blocks.
Proof.
  revert out. induction parts as [|p parts IH]; intros out Ha Hb Hp; cbn [fold_left]; [done|].
  apply IH; [apply sort_dedup_ascending| |intros q Hq; apply Hp; by right].
  intros x Hx. apply elem_of_sort_dedup, elem_of_cons in Hx as [->|Hx]; [apply Hp; left|by apply Hb].
Qed.

Lemma fetch_large_reusing_ok slice size doc :
  located slice size doc ->
  good (fetch_large_reusing_blocks io decompress sha256 cache packs blocks slice size) (fun body => body = doc).
Proof.
  intros Hloc. pose proof (located_small _ _ _ Hloc) as Hsmall. destruct (located_parts _ _ _ Hloc) as (parts & Hp & Hok).
  destruct Hloc as (<- & _). unfold fetch_large_reusing_blocks. eapply good_bind; [by apply good_lift|]. intros ? ->.
  destruct (inserted_blocks_spec parts []) as [Hasc Hlt]; [constructor|set_solver|intros; by eapply part_blocks|].
  eapply (good_bind _ _ (fun _ => True)).
  { eapply triple_weaken; [eapply load_blocks_to_file_ok; [exact Hworld|exact Hcount|exact Hasc|exact Hlt]|done| |done]. cbn. tauto. }
  intros [] _. eapply (good_bind _ _ (fun spool => exists n, tiles 0 parts n /\ spool = {| sp_bytes := filled doc n; sp_len := len doc |})).
  - apply (good_foldS (fun pre spool => exists n, tiles 0 pre n /\ spool = {| sp_bytes := filled doc n; sp_len := len doc |})).
    + exists 0. split; [done|]. unfold spool_new. f_equal. exact (spool_new_filled doc).
    + intros pre p post spool Hsplit (n & Hn & ->). pose proof (po_tiles _ _ _ Hok) as Htiles. rewrite Hsplit in Htiles.
      apply tiles_prefix in Htiles as (Hpre & Hpos & Hend). rewrite (tiles_fun _ _ _ _ Hn Hpre) in *. unfold reuse_step.
      eapply good_bind; [apply (good_lift _ (db_start p + db_len p)); unfold checked_add; by destruct (N.ltb_spec (db_start p + db_len p) U64); [|lia]|].
      intros ? ->. eapply good_bind; [apply (good_read parts doc); [done|lia|done]|]. intros ? ->.
      eapply good_weaken; [apply good_lift, spool_write_ok; lia|]. intros ? ->. exists (db_start p + db_len p). split; [|done].
      by apply tiles_snoc.
  - intros spool (n & Hn & ->). apply good_ret. cbn. rewrite (tiles_fun _ _ _ _ Hn (po_tiles _ _ _ Hok)). apply filled_all.
Qed.

(** ** Gathering the blocks of requests *)

Definition block_set (ids : list N) : Prop := ascending ids /\ forall x, x ∈ ids -> x < len blocks.

Lemma overlapping_block_set parts doc a b out :
  parts_ok decoded doc parts -> block_set out -> block_set (overlapping_blocks parts a b out).
Proof.
  intros Hp [Ha Hb]. split; [by apply (overlapping_blocks_spec parts a b out 0)|]. intros x Hx.
  apply (overlapping_blocks_spec parts a b out x Ha) in Hx as [Hx|(p & Hin & _ & ->)]; [by apply Hb|by eapply part_blocks].
Qed.

Lemma collect_request_blocks_ok slice size doc ranges out :
  located slice size doc -> block_set out ->
  exists out', collect_request_blocks slice size ranges blocks out = Ok out' /\ block_set out'.
Proof.
  intros Hloc Hout. destruct (located_parts _ _ _ Hloc) as (parts & Hp & Hok). unfold collect_request_blocks. rewrite Hp.
  cbn [mbind res_bind]. eexists. split; [done|]. revert out Hout. induction ranges as [|[a b] ranges IH]; intros out Hout; cbn [fold_left]; [done|].
  apply IH. by eapply overlapping_block_set.
Qed.

Definition request_doc (request : PackRequest) (doc : list N) : Prop := located (rq_slice request) (rq_size request) doc.

Lemma gather_ok requests docs :
  Forall2 request_doc requests docs ->
  exists ids parts, foldM (gather_request blocks) ([], []) requests = Ok (ids, parts) /\ block_set ids /\
    Forall2 (fun doc ps => parts_ok decoded doc ps) docs parts.
Proof.
  intros H. destruct (foldM_total (fun pre '(ids, parts) => block_set ids /\
    Forall2 (fun doc ps => parts_ok decoded doc ps) (take (length pre) docs) parts) (gather_request blocks) ([], []) requests)
    as ([ids parts] & Hf & Hset & Hparts).
  - split; [split; [constructor|set_solver]|constructor].
  - intros pre request post [ids parts] Hsplit [Hset Hparts].
    assert (requests !! length pre = Some request) as Hr by (rewrite Hsplit, lookup_app_r, Nat.sub_diag by lia; done).
    destruct (Forall2_lookup_l _ _ _ _ _ H Hr) as (doc & Hd & Hloc). destruct (located_parts _ _ _ Hloc) as (ps & Hp & Hok).
    unfold gather_request. rewrite Hp. cbn [mbind res_bind].
    assert (exists ids', (if 0 <? rq_size request then collect_request_blocks (rq_slice request) (rq_size request) [(0, rq_size request)] blocks ids
      else Ok ids) = Ok ids' /\ block_set ids') as (ids' & -> & Hset').
    { destruct (0 <? rq_size request); [by eapply collect_request_blocks_ok|eauto]. }
    cbn [mbind res_bind]. eexists. split; [done|]. split; [done|]. rewrite length_app, Nat.add_1_r, (take_S_r _ _ _ Hd).
    apply Forall2_app; [done|]. by constructor.
  - exists ids, parts. split; [done|]. split; [done|]. rewrite take_ge in Hparts; [done|]. by rewrite (Forall2_length _ _ _ H).
Qed.

(** ** A consumer *)

Section consumer.
Context {K : Type} (consume : N -> FetchedDocument -> ST K unit).
Context (J : list (N * FetchedDocument) -> K -> Prop) (F : K -> Prop).
Context (right : N -> FetchedDocument -> Prop).
Context (Hconsume : forall pre index document, right index document ->
  triple (J pre) (consume index document) (fun _ => J (pre ++ [(index, document)])) F).
Context (Hfail : forall pre k, J pre k -> ~ honest -> F k).

Definition serving (pre : list (N * FetchedDocument)) (s : (W * BlockState) * K) : Prop := batch s.1.2 /\ J pre s.2.
Definition stopped (s : (W * BlockState) * K) : Prop := batch s.1.2 /\ F s.2.

Lemma serve_batch {A} pre (m : ST (W * BlockState) A) Q :
  good m Q -> triple (serving pre) (on_fst m) (fun a s => serving pre s /\ Q a) stopped.
Proof.
  intros H [[w state] k] [Hb HJ]. specialize (H (w, state) Hb). unfold on_fst. cbn in *.
  destruct (m (w, state)) as [[a|e|why] [w' state']]; cbn; [by destruct H|destruct H; split; [done|]; by eapply Hfail|done].
Qed.
Lemma serve_world {A} pre (m : ST W A) (Q : A -> Prop) :
  yields honest m Q -> triple (serving pre) (on_fst (on_fst m)) (fun a s => serving pre s /\ Q a) stopped.
Proof.
  intros H. apply serve_batch. intros [w state] Hb. specialize (H w Logic.I). unfold on_fst. cbn in *. by destruct (m w) as [[a|e|why] w'].
Qed.
Lemma serve_consume pre index document :
  right index document ->
  triple (serving pre) (on_snd (consume index document)) (fun _ => serving (pre ++ [(index, document)])) stopped.
Proof.
  intros Hright [ws k] [Hb HJ]. pose proof (Hconsume pre index document Hright k HJ) as H. unfold on_snd. cbn in *.
  by destruct (consume index document k) as [[a|e|why] k'].
Qed.

(** A request for [doc], which the consumer may be given. *)
Definition servable (request : PackRequest) (doc : list N) : Prop := request_doc request doc /\ right (rq_index request) (Whole doc).

Lemma servable_located requests docs : Forall2 servable requests docs -> Forall2 request_doc requests docs.
Proof. intros H. eapply Forall2_impl; [exact H|]. by intros ? ? [? _]. Qed.

Definition served (request : PackRequest) (doc : list N) : N * FetchedDocument := (rq_index request, Whole doc).

Lemma consume_requests_ok pre requests docs parts :
  Forall2 servable requests docs -> Forall2 (fun doc ps => parts_ok decoded doc ps) docs parts ->
  triple (serving pre) (forS (consume_request io decompress sha256 cache packs blocks consume) (zip requests parts))
    (fun _ => serving (pre ++ zip_with served requests docs)) stopped.
Proof.
  intros Hr Hp. revert pre parts Hp. unfold forS. induction Hr as [|request doc requests docs Hd Hr IH]; intros pre parts Hp.
  { inversion Hp; subst. intros s Hs. cbn. by rewrite app_nil_r. }
  inversion Hp as [|? ps ? parts' Hok Hp']; subst. cbn [zip_with foldS]. pose proof Hd as ((Hsize & _) & Hright).
  eapply (triple_bind _ _ _ (fun _ => serving (pre ++ [served request doc]))).
  - unfold consume_request. eapply triple_bind; [apply serve_batch; eapply (good_read ps doc); [exact Hok|lia|lia]|].
    intros bytes. cbn beta. apply triple_pure. intros ->.
    replace (cut doc 0 (rq_size request)) with doc; [by apply serve_consume|].
    unfold cut. rewrite N.sub_0_r, <- Hsize, to_nat_len. change (N.to_nat 0) with 0%nat. by rewrite drop_0, firstn_all.
  - intros []. cbn beta. change (served request doc :: zip_with served requests docs) with ([served request doc] ++ zip_with served requests docs).
    rewrite app_assoc. by apply IH.
Qed.

Lemma small_window_ok pre requests docs :
  Forall2 servable requests docs ->
  triple (serving pre)
    ('(block_ids, parts) ← lift (foldM (gather_request blocks) ([], []) requests);
     _ ← on_fst (load_blocks io decompress sha256 cache packs blocks block_ids);
     forS (consume_request io decompress sha256 cache packs blocks consume) (zip requests parts))
    (fun _ => serving (pre ++ zip_with served requests docs)) stopped.
Proof.
  intros Hr. destruct (gather_ok requests docs (servable_located _ _ Hr)) as (ids & parts & Hg & [Hasc Hlt] & Hparts).
  eapply triple_bind; [apply (triple_lift_ok _ _ (ids, parts)); exact Hg|]. intros ?. apply triple_pure. intros ->.
  eapply triple_bind; [apply serve_batch with (Q := fun _ => True)|].
  - eapply triple_weaken; [by apply (load_blocks_ok io decompress sha256 cache packs blocks files decoded honest Hworld ids)|done| |done]. cbn. tauto.
  - intros []. cbn beta. apply triple_pure. intros _. by apply consume_requests_ok.
Qed.

Lemma fetch_window_ok pre requests docs a b rs ds :
  get_range requests a b = Some rs -> get_range docs a b = Some ds -> Forall2 servable rs ds ->
  triple (serving pre) (fetch_window io decompress sha256 cache packs blocks consume requests (a, b))
    (fun _ => serving (pre ++ zip_with served rs ds)) stopped.
Proof.
  intros Hrs Hds Hr. unfold fetch_window. cbn [fst snd].
  eapply triple_bind; [apply (triple_lift_ok _ _ rs); by rewrite Hrs|]. intros ?. apply triple_pure. intros ->.
  destruct rs as [|request [|request2 rs]]; [by apply small_window_ok| |by apply small_window_ok].
  destruct (is_large_request request); [|by apply small_window_ok].
  inversion Hr as [|? doc ? ds' Hd Hr']; subst. inversion Hr'; subst. cbn [zip_with].
  eapply triple_bind; [apply serve_world; eapply fetch_large_ok; exact (proj1 Hd)|]. intros body. cbn beta. apply triple_pure. intros ->. apply serve_consume, Hd.
Qed.

Lemma spans_prefix {A} (l : list A) a b s : get_range l a b = Some s -> take (N.to_nat b) l = take (N.to_nat a) l ++ s.
Proof.
  intros (Hab & _ & ->)%get_range_Some. rewrite <- (take_drop (N.to_nat a) (take (N.to_nat b) l)), take_take, skipn_firstn_comm.
  f_equal; f_equal; lia.
Qed.

Lemma fetch_documents_ok requests docs :
  Forall2 servable requests docs ->
  triple (serving []) (fetch_documents io decompress sha256 cache packs blocks consume requests)
    (fun _ => serving (zip_with served requests docs)) stopped.
Proof.
  intros Hr. pose proof (Forall2_length _ _ _ Hr) as Hlen. unfold fetch_documents.
  assert (forall windows a, spans a windows (len requests) ->
    triple (serving (zip_with served (take (N.to_nat a) requests) (take (N.to_nat a) docs)))
      (forS (fetch_window io decompress sha256 cache packs blocks consume requests) windows)
      (fun _ => serving (zip_with served requests docs)) stopped) as Hgen.
  { intros windows. induction windows as [|[a b] windows IH]; intros a0; cbn [spans].
    - intros ->. rewrite to_nat_len, firstn_all, Hlen, firstn_all. by intros s Hs.
    - intros (-> & Hab & Hsp). assert (b <= len requests) as Hb.
      { clear -Hsp. revert b Hsp. induction windows as [|[x y] windows IH]; intros b; cbn; [lia|]. intros (-> & ? & ?%IH). lia. }
      destruct (get_range_is_Some requests a0 b) as [rs Hrs]; [lia|lia|].
      destruct (get_range_is_Some docs a0 b) as [ds Hds]; [lia|unfold len in *; lia|].
      unfold forS. cbn [foldS]. eapply triple_bind; [eapply fetch_window_ok; [exact Hrs|exact Hds|]|].
      + pose proof Hrs as (_ & _ & ->)%get_range_Some. pose proof Hds as (_ & _ & ->)%get_range_Some. by apply Forall2_take, Forall2_drop.
      + intros []. cbn beta. rewrite <- zip_with_app by (rewrite !length_take; lia).
        rewrite <- !spans_prefix with (a := a0) (b := b) by done. by apply IH. }
  apply (Hgen _ 0). apply request_windows_spans.
Qed.
End consumer.
End serving.

(** ** Merged ranges *)

Definition read_le (a b : PlannedRead) : Prop :=
  match a, b with
  | ReadRegional, _ => True
  | ReadFullLines before1 after1, ReadFullLines before2 after2 => before1 <= before2 /\ after1 <= after2
  | ReadFullLines _ _, ReadRegional => False
  end.
Definition read_small (r : PlannedRead) : Prop :=
  match r with ReadRegional => True | ReadFullLines before_context after_context => before_context + 1 < U64 /\ after_context + 1 < U64 end.
Definition absorbed (p q : PlannedRange) : Prop :=
  pr_start q <= pr_start p /\ pr_end p <= pr_end q /\ read_le (pr_read p) (pr_read q).
Definition planned_ok (size : N) (p : PlannedRange) : Prop := pr_start p < pr_end p <= size /\ read_small (pr_read p).

Lemma read_le_refl a : read_le a a.
Proof. destruct a; cbn; [done|lia]. Qed.
Lemma read_le_trans a b c : read_le a b -> read_le b c -> read_le a c.
Proof. destruct a, b, c; cbn; tauto || lia. Qed.
Lemma join_reads_l a b : read_le a (join_reads a b).
Proof. destruct a, b; cbn; tauto || lia. Qed.
Lemma join_reads_r a b : read_le b (join_reads a b).
Proof. destruct a, b; cbn; tauto || lia. Qed.
Lemma join_reads_small a b : read_small a -> read_small b -> read_small (join_reads a b).
Proof. destruct a, b; cbn; tauto || lia. Qed.
Lemma absorbed_refl p : absorbed p p.
Proof. split_and!; [done|done|apply read_le_refl]. Qed.
Lemma absorbed_trans p q r : absorbed p q -> absorbed q r -> absorbed p r.
Proof. intros (H1 & H2 & H3) (H4 & H5 & H6). split_and!; [lia|lia|by eapply read_le_trans]. Qed.

(** Ranges in order, with more than [gap] between neighbours. *)
Definition spaced (gap : N) (ranges : list PlannedRange) : Prop := StronglySorted (fun a b => pr_end a + gap < pr_start b) ranges.

Lemma spaced_snoc gap l r :
  spaced gap l -> Forall (fun p => pr_start p < pr_end p) l -> (forall p, last l = Some p -> pr_end p + gap < pr_start r) -> spaced gap (l ++ [r]).
Proof.
  intros Hs Hv Hl. induction Hs as [|x l Hs IH Hx]; cbn [app]; [repeat constructor|]. apply Forall_cons in Hv as [Hvx Hv]. constructor.
  - apply IH; [done|]. intros p Hp. apply Hl. by destruct l.
  - apply Forall_app. split; [done|]. constructor; [|done]. destruct (last l) as [p|] eqn:E; [|apply last_None in E as ->; by apply Hl].
    assert (pr_end p + gap < pr_start r) by (apply Hl; by destruct l). apply last_Some in E as [l' ->].
    rewrite Forall_forall in Hx, Hv. specialize (Hx p ltac:(set_solver)). specialize (Hv p ltac:(set_solver)). lia.
Qed.

Lemma merge_planned_loop_ok gap size ranges merged :
  Forall (planned_ok size) ranges -> StronglySorted (fun a b => pr_start a <= pr_start b) ranges ->
  Forall (planned_ok size) (rev merged) -> spaced gap (rev merged) ->
  (forall p, head merged = Some p -> Forall (fun r => pr_start p <= pr_start r) ranges) ->
  let out := merge_planned_loop gap ranges merged in
  Forall (planned_ok size) out /\ spaced gap out /\ forall p, p ∈ rev merged ++ ranges -> exists q, q ∈ out /\ absorbed p q.
Proof.
  revert merged. induction ranges as [|r ranges IH]; intros merged Hv Hs Hmv Hm Hhead; cbn [merge_planned_loop].
  { split_and!; [done|done|]. rewrite app_nil_r. intros p Hp. exists p. split; [done|apply absorbed_refl]. }
  apply Forall_cons in Hv as [[Hr Hrs] Hv]. apply StronglySorted_inv in Hs as [Hs Hmin].
  destruct merged as [|p rest].
  { apply (IH [r]); [done|done|by constructor|by repeat constructor|by intros ? [= <-]]. }
  specialize (Hhead p eq_refl). apply Forall_cons in Hhead as [Hp Hhead]. cbn [rev] in Hmv, Hm |- *.
  pose proof Hmv as Hmv2. apply Forall_app in Hmv2 as [Hrest Hpv]. apply Forall_cons in Hpv as [[Hpv Hps] _].
  unfold saturating_sub. destruct (N.leb_spec (pr_start r - pr_end p) gap) as [Hgap|Hgap].
  - set (j := {| pr_start := pr_start p; pr_end := N.max (pr_end p) (pr_end r); pr_read := join_reads (pr_read p) (pr_read r) |}).
    destruct (IH (j :: rest)) as (H1 & H2 & H3); [done|done| | |by intros ? [= <-]|].
    + cbn [rev]. apply Forall_app. split; [done|]. constructor; [|done]. split; cbn; [lia|by apply join_reads_small].
    + cbn [rev]. unfold spaced in *. clear -Hm. induction (rev rest) as [|x l IH]; cbn [app] in *; [repeat constructor|].
      apply StronglySorted_inv in Hm as [Hm Hx]. constructor; [by apply IH|]. apply Forall_app in Hx as [Hx Hxp]. apply Forall_app. split; [done|].
      apply Forall_cons in Hxp as [Hxp _]. by constructor.
    + split_and!; [done|done|]. cbn [rev] in H3. intros q Hq. rewrite !elem_of_app, elem_of_cons, ?elem_of_cons, ?elem_of_nil in Hq.
      assert (forall z, absorbed z j -> exists q0, q0 ∈ merge_planned_loop gap ranges (j :: rest) /\ absorbed z q0) as Hj.
      { intros z Hz. destruct (H3 j) as (q0 & Hq0 & Ha); [set_solver|]. exists q0. split; [done|]. by eapply absorbed_trans. }
      destruct Hq as [[Hq|[->|[]]]|[->|Hq]]; [apply H3; set_solver|apply Hj|apply Hj|apply H3; set_solver].
      * split_and!; cbn; [lia|lia|apply join_reads_l].
      * split_and!; cbn; [lia|lia|apply join_reads_r].
  - destruct (IH (r :: p :: rest)) as (H1 & H2 & H3); [done|done| | |by intros ? [= <-]|].
    + cbn [rev]. apply Forall_app. split; [done|]. by constructor.
    + cbn [rev]. apply spaced_snoc; [done|eapply Forall_impl; [exact Hmv|]; by intros ? [[? _] _]|]. intros q. rewrite last_snoc. intros [= <-]. lia.
    + split_and!; [done|done|]. cbn [rev] in H3. rewrite <- (app_assoc _ [r]) in H3. exact H3.
Qed.

Lemma merge_planned_ok gap size ranges :
  Forall (planned_ok size) ranges ->
  let out := merge_planned_ranges ranges gap in
  Forall (planned_ok size) out /\ spaced gap out /\ forall p, p ∈ ranges -> exists q, q ∈ out /\ absorbed p q.
Proof.
  intros Hv. unfold merge_planned_ranges. destruct (merge_planned_loop_ok gap size (sort_by planned_leb ranges) []) as (H1 & H2 & H3).
  - rewrite Forall_forall in Hv |- *. intros r Hr%elem_of_sort_by. auto.
  - assert (StronglySorted (fun a b => planned_leb a b = true) (sort_by planned_leb ranges)) as H.
    { apply sort_by_sorted; unfold planned_leb; lia. }
    induction H as [|x l H IH Hx]; constructor; [done|]. eapply Forall_impl; [exact Hx|]. intros y. apply N.leb_le.
  - constructor.
  - constructor.
  - done.
  - split_and!; [done|done|]. intros p Hp. apply H3. cbn. by apply elem_of_sort_by.
Qed.

(** A property that joining two ranges keeps holds of every merged range. *)
Definition join_planned (p q : PlannedRange) : PlannedRange :=
  {| pr_start := pr_start p; pr_end := N.max (pr_end p) (pr_end q); pr_read := join_reads (pr_read p) (pr_read q) |}.
Definition join_closed (P : PlannedRange -> Prop) : Prop := forall p q, P p -> P q -> P (join_planned p q).

Lemma merge_planned_all P gap ranges : join_closed P -> Forall P ranges -> Forall P (merge_planned_ranges ranges gap).
Proof.
  intros Hjoin Hall. assert (Forall P (sort_by planned_leb ranges)) as Hs by by rewrite sort_by_perm. unfold merge_planned_ranges.
  assert (forall merged, Forall P merged -> Forall P (merge_planned_loop gap (sort_by planned_leb ranges) merged)) as H; [|by apply H].
  clear Hall. induction Hs as [|r l Hr Hl IH]; intros merged Hm; cbn [merge_planned_loop]; [by apply Forall_rev|].
  destruct Hm as [|p rest Hp Hrest]; [apply IH; by constructor|]. case_match; apply IH; constructor; [|done|done|by constructor].
  by apply Hjoin.
Qed.

(** ** Planning *)

Definition request_range_ok (size : N) (range : PackRange) : Prop :=
  match range with
  | PRegional start end_ span => start < end_ <= size /\ 0 < span < U64
  | PFullLines start end_ before_context after_context => start < end_ <= size /\ before_context + 1 < U64 /\ after_context + 1 < U64
  end.

(** What a plan must read for a requested range. *)
Definition demand (size : N) (range : PackRange) : PlannedRange :=
  match range with
  | PRegional start end_ span => {| pr_start := start - (span - 1); pr_end := N.min (end_ + (span - 1)) size; pr_read := ReadRegional |}
  | PFullLines start end_ before_context after_context =>
      {| pr_start := start; pr_end := end_; pr_read := ReadFullLines before_context after_context |}
  end.

Lemma plan_range_ok size range :
  size < 2 ^ 63 -> request_range_ok size range -> plan_range size range = Ok (demand size range) /\ planned_ok size (demand size range).
Proof.
  intros Hsize. unfold plan_range. destruct range as [start end_ span|start end_ before_context after_context]; cbn [range_bytes request_range_ok demand].
  - intros [[H1 H2] H3]. destruct (N.ltb_spec start end_), (N.leb_spec end_ size); try lia. cbn [andb ensure mbind res_bind].
    unfold checked_sub. destruct (N.leb_spec 1 span); [|lia]. cbn [with_context mbind res_bind]. unfold saturating_sub, saturating_add.
    split; [f_equal; f_equal; lia|]. split; cbn; [lia|done].
  - intros [[H1 H2] [H3 H4]]. destruct (N.ltb_spec start end_), (N.leb_spec end_ size); try lia. cbn [andb ensure mbind res_bind]. done.
Qed.

Lemma plan_ranges_ok size ranges :
  size < 2 ^ 63 -> Forall (request_range_ok size) ranges ->
  mapM_res (plan_range size) ranges = Ok (fmap (M := list) (demand size) ranges) /\ Forall (planned_ok size) (fmap (M := list) (demand size) ranges).
Proof.
  intros Hsize. induction 1 as [|r ranges Hr Hrs [IH1 IH2]]; [done|]. destruct (plan_range_ok size r Hsize Hr) as [H1 H2].
  cbn [mapM_res fmap list_fmap]. rewrite H1. cbn [mbind res_bind]. rewrite IH1. cbn [mbind res_bind]. split; [done|]. by constructor.
Qed.

Lemma covered_ok size gap ranges covered low :
  spaced gap ranges -> Forall (planned_ok size) ranges -> covered <= low -> low <= size -> size < 2 ^ 63 ->
  Forall (fun r => low <= pr_start r) ranges ->
  exists total, foldM add_covered covered ranges = Ok total /\ total <= size.
Proof.
  intros Hs. revert covered low. induction Hs as [|r ranges Hs IH Hr]; intros covered low Hv Hc Hlow Hsize Hall; cbn [foldM].
  { exists covered. split; [done|lia]. }
  apply Forall_cons in Hv as [[[Hlt Hle] _] Hv]. apply Forall_cons in Hall as [Hlr _].
  assert (add_covered covered r = Ok (covered + (pr_end r - pr_start r))) as ->.
  { unfold add_covered. rewrite wrapping_sub_small by lia. unfold checked_add. destruct (N.ltb_spec (covered + (pr_end r - pr_start r)) U64); [done|lia]. }
  cbn [mbind res_bind]. apply (IH _ (pr_end r)); [done|lia|lia|done|]. eapply Forall_impl; [exact Hr|]. cbn. lia.
Qed.

Lemma plan_pack_ranges_ok request :
  rr_size request < 2 ^ 63 -> Forall (request_range_ok (rr_size request)) (rr_ranges request) ->
  exists plan, plan_pack_ranges request = Ok plan /\
    forall ranges, plan = Some ranges -> Forall (planned_ok (rr_size request)) ranges /\ spaced REGION_GAP_BYTES ranges /\
      len ranges <= REGION_MAX_RANGES /\
      (forall range, range ∈ rr_ranges request -> exists q, q ∈ ranges /\ absorbed (demand (rr_size request) range) q) /\
      forall P, join_closed P -> Forall P (demand (rr_size request) <$> rr_ranges request) -> Forall P ranges.
Proof.
  intros Hsize Hr. destruct (plan_ranges_ok _ _ Hsize Hr) as [Hplan Hok]. unfold plan_pack_ranges. rewrite Hplan. cbn [mbind res_bind].
  destruct (merge_planned_ok REGION_GAP_BYTES (rr_size request) _ Hok) as (H1 & H2 & H3).
  destruct (covered_ok (rr_size request) REGION_GAP_BYTES _ 0 0 H2 H1) as (total & -> & _); [lia|lia|done|apply Forall_forall; lia|].
  cbn [mbind res_bind]. destruct (_ || _) eqn:E; eexists; (split; [done|]); [done|]. intros ranges [= <-].
  apply orb_false_iff in E as [E%N.ltb_ge _]. split_and!; [done|done|done| |intros P; apply merge_planned_all]. intros range Hin. apply H3. apply list_elem_of_fmap. eauto.
Qed.

(** ** Growing ranges is monotone *)

Lemma until_newline_mono l n m : 0 < n -> n <= m -> until_newline l n <= until_newline l m.
Proof.
  revert n m. induction l as [|x l IH]; intros n m Hn Hm; cbn [until_newline]; [done|].
  destruct (x =? NEWLINE); [|specialize (IH n m Hn Hm); lia]. destruct (N.eqb_spec n 1), (N.eqb_spec m 1); try lia.
  specialize (IH (n - 1) (m - 1)). lia.
Qed.
Lemma lines_before_le doc a n : lines_before doc a n <= a.
Proof. unfold lines_before. lia. Qed.
Lemma lines_after_bounds doc b n : b <= len doc -> b <= lines_after doc b n <= len doc.
Proof. intros. unfold lines_after. destruct (n =? 0); lia. Qed.

Lemma lines_before_mono doc a' a n m :
  a' <= a -> a <= len doc -> 0 < n -> n <= m -> lines_before doc a' m <= lines_before doc a n.
Proof.
  intros Ha Hl Hn Hm. rewrite (lines_before_step doc a' a n) by done. destruct (N.leb_spec n (count_newlines (cut doc a' a))) as [Hc|Hc].
  - pose proof (until_newline_found (rev (cut doc a' a)) n Hn) as Hf. rewrite count_newlines_rev, len_rev, len_cut in Hf by done.
    pose proof (lines_before_le doc a' m). lia.
  - unfold lines_before. pose proof (until_newline_mono (rev (take (N.to_nat a') doc)) (n - count_newlines (cut doc a' a)) m ltac:(lia) ltac:(lia)). lia.
Qed.
Lemma lines_after_mono doc b b' n m :
  b <= b' -> b' <= len doc -> n <= m + count_newlines (cut doc b b') -> lines_after doc b n <= lines_after doc b' m.
Proof.
  intros Hb Hl Hm. pose proof (lines_after_bounds doc b' m Hl). destruct (decide (n = 0)) as [->|Hn]; [unfold lines_after at 1; cbn; lia|].
  rewrite (lines_after_step doc b b' n) by lia. destruct (N.leb_spec n (count_newlines (cut doc b b'))) as [Hc|Hc].
  - pose proof (until_newline_found (cut doc b b') n ltac:(lia) Hc) as Hf. rewrite len_cut in Hf by done. lia.
  - unfold lines_after. destruct (N.eqb_spec (n - count_newlines (cut doc b b')) 0), (N.eqb_spec m 0); try lia.
    pose proof (until_newline_mono (drop (N.to_nat b') doc) (n - count_newlines (cut doc b b')) m ltac:(lia) ltac:(lia)). lia.
Qed.

(** The bounds a whole-lines range grows to. *)
Definition grown (doc : list N) (p : PlannedRange) : N * N :=
  match pr_read p with
  | ReadRegional => (pr_start p, pr_end p)
  | ReadFullLines before_context after_context =>
      (lines_before doc (pr_start p) (before_context + 1),
       lines_after doc (pr_end p) (after_context + if ends_line doc (pr_end p) then 0 else 1))
  end.

Lemma grown_bounds doc p : planned_ok (len doc) p -> (grown doc p).1 <= pr_start p /\ pr_end p <= (grown doc p).2 <= len doc.
Proof.
  intros [[H1 H2] _]. unfold grown. destruct (pr_read p) as [|before_context after_context]; cbn; [lia|].
  split; [apply lines_before_le|by apply lines_after_bounds].
Qed.

Lemma grown_absorbed doc p q :
  absorbed p q -> planned_ok (len doc) q -> pr_start p <= len doc -> (grown doc q).1 <= (grown doc p).1 /\ (grown doc p).2 <= (grown doc q).2.
Proof.
  intros (Hs & He & Hr) Hq Hp. pose proof (grown_bounds doc q Hq) as [Hg1 Hg2]. destruct Hq as [[Hq1 Hq2] _]. unfold grown in *.
  destruct (pr_read p) as [|b1 a1]; cbn [fst snd] in *.
  { destruct (pr_read q); cbn [fst snd] in *; lia. }
  destruct (pr_read q) as [|b2 a2]; cbn [read_le fst snd] in *; [done|]. split.
  - apply lines_before_mono; lia.
  - apply lines_after_mono; [done|done|]. destruct (ends_line doc (pr_end q)) eqn:Eq, (ends_line doc (pr_end p)) eqn:Ep; try lia.
    destruct (decide (pr_end p = pr_end q)) as [E|Hne]; [congruence|].
    assert (1 <= count_newlines (cut doc (pr_end p) (pr_end q))); [|lia].
    unfold ends_line in Eq. apply andb_prop in Eq as [_ Eq%bool_decide_eq_true].
    rewrite <- (cut_app doc (pr_end p) (pr_end q - 1) (pr_end q)), count_newlines_app, Eq by lia. change (count_newlines [NEWLINE]) with 1. lia.
Qed.

(** ** Properties *)

(** The windows of a fetch partition its requests in order, and each is a
    single request or holds only small documents of bounded total size; there
    are never more windows than requests. *)
Theorem request_windows_bounded requests :
  spans 0 (request_windows requests) (len requests) /\ Forall (window_ok requests) (request_windows requests) /\
  len (request_windows requests) <= len requests.
Proof.
  split_and!; [apply request_windows_spans|apply request_windows_ok|].
  pose proof (request_windows_spans requests) as H. revert H. generalize (request_windows requests) 0 (len requests).
  intros windows. assert (forall a b, spans a windows b -> a + len windows <= b) as Hgen.
  { induction windows as [|[x y] windows IH]; intros a b; cbn [spans]; [len_lia|].
    intros (-> & Hlt & H%IH). len_lia. }
  intros a b H%Hgen. lia.
Qed.

(** C15: fetching documents never panics, whatever the store and the cache
    return.  The consumer gets every request's document, in order and with the
    bytes it was packed from; a failure has given it only right documents, and
    there is none while the store is honest. *)
Theorem fetch_documents_exact {W} (io : Io W) decompress sha256 cache packs blocks files decoded honest requests docs w :
  world_ok io decompress sha256 packs blocks files decoded honest -> len (concat decoded) < 2 ^ 63 -> len blocks < U32 ->
  Forall2 (fun request doc => located blocks decoded (rq_slice request) (rq_size request) doc) requests docs ->
  match fetch_documents io decompress sha256 cache packs blocks keep requests ((w, empty_batch), []) with
  | (Ok _, (_, out)) => out = zip_with served requests docs
  | (Err _, (_, out)) => ~ honest /\ Forall (fun entry => entry ∈ zip_with served requests docs) out
  | (Panic _, _) => False
  end.
Proof.
  intros Hworld Htotal Hcount Hr. set (right := fun index document => (index, document) ∈ zip_with served requests docs).
  pose proof (fetch_documents_ok io decompress sha256 cache packs blocks files decoded honest Hworld Htotal Hcount keep
    (fun pre out => out = pre /\ Forall (fun entry => entry ∈ zip_with served requests docs) pre)
    (fun out => ~ honest /\ Forall (fun entry => entry ∈ zip_with served requests docs) out) right) as H.
  specialize (H ltac:(intros pre index document Hi out [-> Hp]; cbn; split; [done|]; apply Forall_app; split; [done|by constructor])
    ltac:(by intros pre out [-> Hp] Hn) requests docs).
  assert (Forall2 (servable blocks decoded right) requests docs) as Hs.
  { clear -Hr. unfold right, servable, request_doc. clear right. revert docs Hr. 
    induction requests as [|request requests IH]; intros docs Hr; inversion Hr as [|? doc ? docs' Hd Hds]; subst; cbn [zip_with]; [constructor|].
    constructor; [split; [exact Hd|left]|]. eapply Forall2_impl; [by apply IH|]. intros r d [? ?]. split; [done|by right]. }
  specialize (H Hs ((w, empty_batch), [])). destruct (fetch_documents _ _ _ _ _ _ _ _ _) as [[[]|e|why] [s out]].
  - by destruct H as [_ [H _]]; [split; [intros id x Hx|done]|].
  - by destruct H as [_ H]; [split; [intros id x Hx|done]|].
  - apply H. by split; [intros id x Hx|].
Qed.

(** ** Witness *)

Definition demo_requests : list PackRequest :=
  zip_with (fun index '(slice, doc) => {| rq_index := index; rq_slice := slice; rq_size := len doc |}) [7; 8; 9] (zip demo_packed.1 demo_contents).

Lemma demo_located i slice doc : get demo_packed.1 i = Some slice -> get demo_contents i = Some doc -> located demo_pack_blocks demo_decoded slice (len doc) doc.
Proof.
  intros Hs Hd. split; [done|]. pose proof (get_Some_lt _ _ _ Hd) as Hi. change (len demo_contents) with 3 in Hi.
  exists (sumN (len <$> take (N.to_nat i) demo_contents)).
  assert (i = 0 \/ i = 1 \/ i = 2) as [->|[->| ->]] by lia; injection Hd as <-; vm_compute in Hs; injection Hs as <-; split; by vm_compute.
Qed.
Lemma demo_requests_ok :
  Forall2 (fun request doc => located demo_pack_blocks demo_decoded (rq_slice request) (rq_size request) doc) demo_requests demo_contents.
Proof. constructor; [by apply (demo_located 0)|constructor; [by apply (demo_located 1)|constructor; [by apply (demo_located 2)|constructor]]]. Qed.

Lemma fetch_documents_exact_witness :
  match fetch_documents demo_io demo_decompress tiny_sha256 true demo_packs demo_pack_blocks keep demo_requests (([], empty_batch), []) with
  | (Ok _, (_, out)) => out = zip_with served demo_requests demo_contents
  | (Err _, (_, out)) => ~ True /\ Forall (fun entry => entry ∈ zip_with served demo_requests demo_contents) out
  | (Panic _, _) => False
  end /\
  (fetch_documents demo_io demo_decompress tiny_sha256 true demo_packs demo_pack_blocks keep demo_requests (([], empty_batch), [])).2.2 =
    [(7, Whole [1; 2; 3; 4; 5]); (8, Whole []); (9, Whole [6; 7])].
Proof.
  split; [|vm_compute; reflexivity].
  by apply (fetch_documents_exact demo_io demo_decompress tiny_sha256 true demo_packs demo_pack_blocks demo_files demo_decoded True
    demo_requests demo_contents [] demo_world eq_refl eq_refl demo_requests_ok).
Defined.
