(* ===== verification/PackRegions.v ===== *)
(** * Regions of documents (crates/index/src/pack.rs)

    What [fetch_regions] hands to its consumer: a whole document, or regions of
    it in order, apart from each other, each with its bytes, the number of its
    first line and where that line starts.  The regions of a document cover
    every requested range: with the overlap of the pattern's span, or grown to
    whole lines with their context. *)

From S2P Require Import Prelude BitPack Bytes Trigrams Format PackBuild PackRead PackBatch PackLines PackFetch.

Definition region_end (region : DocumentRegion) : N := dr_start region + len (dr_bytes region).

(** A region shows its part of the document, under the right line. *)
Definition region_ok (doc : list N) (region : DocumentRegion) : Prop :=
  dr_start region < region_end region <= len doc /\
  dr_bytes region = cut doc (dr_start region) (region_end region) /\
  dr_line region = 1 + count_newlines (take (N.to_nat (dr_start region)) doc) /\
  dr_line_offset region = line_start doc (dr_start region).

(** A region holds what a requested range asks for. *)
Definition region_covers (doc : list N) (range : PackRange) (region : DocumentRegion) : Prop :=
  match range with
  | PRegional start end_ span =>
      dr_start region <= start - (span - 1) /\ N.min (end_ + (span - 1)) (len doc) <= region_end region
  | PFullLines start end_ before_context after_context =>
      dr_program region = ProgramFull /\
      dr_start region <= lines_before doc start (before_context + 1) /\
      lines_after doc end_ (after_context + if ends_line doc end_ then 0 else 1) <= region_end region
  end.

Definition full_lines (range : PackRange) : Prop := match range with PFullLines _ _ _ _ => True | PRegional _ _ _ => False end.

(** A region of whole lines. *)
Definition of_lines (doc : list N) (region : DocumentRegion) : Prop :=
  dr_program region = ProgramFull /\ line_boundary doc (dr_start region) /\ (region_end region = len doc \/ line_boundary doc (region_end region)).

(** What the ranges ask for: the whole document, or regions in order, apart from
    each other, that hold every range and nothing apart from the ranges; whole
    lines, when the ranges ask for lines. *)
Record regions_answer (doc : list N) (ranges : list PackRange) (regions : list DocumentRegion) : Prop := {
  ra_ok : Forall (region_ok doc) regions;
  ra_apart : StronglySorted (fun a b => region_end a < dr_start b) regions;
  ra_covers : forall range, range ∈ ranges -> Exists (region_covers doc range) regions;
  ra_asked : forall region, region ∈ regions -> Exists (fun range => region_covers doc range region) ranges;
  ra_lines : Forall full_lines ranges -> Forall (of_lines doc) regions;
}.
Definition document_answer (doc : list N) (ranges : list PackRange) (fetched : FetchedDocument) : Prop :=
  match fetched with
  | Whole body => body = doc
  | Regions size regions => size = len doc /\ regions_answer doc ranges regions
  end.
Definition document_ok (request : PackRegionRequest) (doc : list N) : FetchedDocument -> Prop := document_answer doc (rr_ranges request).

(** ** From planned ranges to regions *)

Definition grown_range (doc : list N) (p : PlannedRange) : PlannedRange :=
  {| pr_start := (grown doc p).1; pr_end := (grown doc p).2; pr_read := pr_read p |}.
Definition region_of (doc : list N) (p : PlannedRange) : DocumentRegion := {|
  dr_start := pr_start p; dr_line := 1 + count_newlines (take (N.to_nat (pr_start p)) doc);
  dr_line_offset := line_start doc (pr_start p); dr_bytes := cut doc (pr_start p) (pr_end p);
  dr_program := match pr_read p with ReadRegional => ProgramRegional | ReadFullLines _ _ => ProgramFull end |}.

Lemma grown_range_ok doc p : planned_ok (len doc) p -> planned_ok (len doc) (grown_range doc p).
Proof. intros Hp. pose proof (grown_bounds doc p Hp). destruct Hp as [? ?]. split; cbn; [lia|done]. Qed.
Lemma grown_range_absorbed doc p q :
  absorbed p q -> planned_ok (len doc) q -> pr_start p <= len doc -> absorbed (grown_range doc p) (grown_range doc q).
Proof. intros H Hq Hp. destruct (grown_absorbed doc p q H Hq Hp). destruct H as (_ & _ & ?). by split_and!. Qed.

Lemma region_of_end doc p : planned_ok (len doc) p -> region_end (region_of doc p) = pr_end p.
Proof. intros [H _]. unfold region_end. cbn. rewrite len_cut by lia. lia. Qed.
Lemma region_of_ok doc p : planned_ok (len doc) p -> region_ok doc (region_of doc p).
Proof. intros Hp. unfold region_ok. rewrite region_of_end by done. destruct Hp as [H _]. cbn. split_and!; [lia|lia|done..]. Qed.

Lemma demand_covers doc range q :
  request_range_ok (len doc) range -> planned_ok (len doc) q -> absorbed (grown_range doc (demand (len doc) range)) q ->
  region_covers doc range (region_of doc q).
Proof.
  intros Hr Hq (Hs & He & Hl). unfold region_covers. rewrite region_of_end by done. destruct range; cbn in *; [lia|].
  split_and!; [by destruct (pr_read q)|lia|lia].
Qed.

Lemma regions_of_spaced doc ranges :
  Forall (planned_ok (len doc)) ranges -> spaced 0 ranges ->
  StronglySorted (fun a b => region_end a < dr_start b) (region_of doc <$> ranges).
Proof.
  intros Hv Hs. induction Hs as [|p ranges Hs IH Hp]; cbn [fmap list_fmap]; [constructor|]. apply Forall_cons in Hv as [Hpv Hv].
  constructor; [by apply IH|]. apply Forall_fmap. eapply Forall_impl; [exact Hp|]. intros q Hq. cbn.
  rewrite region_of_end by done. cbn in Hq |- *. lia.
Qed.

(** What holds of the ranges of a plan: each is asked for, and they are of lines
    when lines are asked for. *)
Definition asked (doc : list N) (ranges : list PackRange) (p : PlannedRange) : Prop :=
  exists range, range ∈ ranges /\ absorbed (demand (len doc) range) p.
Definition reads_lines (p : PlannedRange) : Prop := pr_read p <> ReadRegional.
Definition spans_lines (doc : list N) (p : PlannedRange) : Prop :=
  reads_lines p /\ line_boundary doc (pr_start p) /\ (pr_end p = len doc \/ line_boundary doc (pr_end p)).

Lemma asked_closed doc ranges : join_closed (asked doc ranges).
Proof.
  intros p q (range & Hr & Hs & He & Hl) _. exists range. split; [done|]. split_and!; cbn; [done|lia|]. eapply read_le_trans; [exact Hl|apply join_reads_l].
Qed.
Lemma reads_lines_closed : join_closed reads_lines.
Proof. intros [? ? []] [? ? []]; unfold reads_lines; done. Qed.
Lemma spans_lines_closed doc : join_closed (spans_lines doc).
Proof.
  intros p q (Hp & Hps & Hpe) (Hq & _ & Hqe). split_and!; [by apply reads_lines_closed|done|]. cbn.
  destruct (N.max_spec (pr_end p) (pr_end q)) as [[_ ->]|[_ ->]]; done.
Qed.
Lemma grown_spans_lines doc p : planned_ok (len doc) p -> reads_lines p -> spans_lines doc (grown_range doc p).
Proof.
  intros [[Hlt Hle] _] Hp. unfold spans_lines, grown_range, grown. split; [done|]. unfold reads_lines in Hp. destruct (pr_read p) as [|b a] eqn:E; [done|].
  cbn [pr_start pr_end fst snd]. destruct (grown_whole_lines doc (pr_start p) (pr_end p) b a) as [_ H1 _ H2 _]; [lia|lia|]. done.
Qed.
Lemma demands_lines size ranges : Forall full_lines ranges -> Forall reads_lines (demand size <$> ranges).
Proof. intros H. apply Forall_fmap. eapply Forall_impl; [exact H|]. intros [] Hr; cbn in *; done. Qed.
Lemma demands_asked doc ranges : Forall (asked doc ranges) (demand (len doc) <$> ranges).
Proof. apply Forall_fmap, Forall_forall. intros range Hr. exists range. split; [done|apply absorbed_refl]. Qed.

(** The regions of a plan answer the request. *)
Record plans_ranges (doc : list N) (asked_ranges : list PackRange) (ranges : list PlannedRange) : Prop := {
  pl_ok : Forall (planned_ok (len doc)) ranges;
  pl_demand : forall range, range ∈ asked_ranges -> exists q, q ∈ ranges /\ absorbed (demand (len doc) range) q;
  pl_asked : Forall (asked doc asked_ranges) ranges;
  pl_lines : Forall full_lines asked_ranges -> Forall reads_lines ranges;
}.

Lemma planned_document_ok request doc ranges :
  rr_size request = len doc -> Forall (request_range_ok (len doc)) (rr_ranges request) -> plans_ranges doc (rr_ranges request) ranges ->
  document_ok request doc (Regions (rr_size request) (region_of doc <$> merge_planned_ranges (grown_range doc <$> ranges) 0)).
Proof.
  intros Hsize Hr [Hv Hdemand Hasked Hlines]. destruct (merge_planned_ok 0 (len doc) (grown_range doc <$> ranges)) as (H1 & H2 & H3).
  { apply Forall_fmap. eapply Forall_impl; [exact Hv|]. apply grown_range_ok. }
  set (grown_asked := fun p => exists range, range ∈ rr_ranges request /\ absorbed (grown_range doc (demand (len doc) range)) p).
  assert (Forall grown_asked (merge_planned_ranges (grown_range doc <$> ranges) 0)) as Hgrown.
  { apply merge_planned_all.
    - intros p q (range & Hin & Hs & He & Hl) _. exists range. split; [done|]. split_and!; cbn in *; [done|lia|]. eapply read_le_trans; [exact Hl|apply join_reads_l].
    - apply Forall_fmap, Forall_forall. intros p Hp. rewrite Forall_forall in Hasked. rewrite Forall_forall in Hv. rewrite Forall_forall in Hr. destruct (Hasked p Hp) as (range & Hin & Ha). exists range. split; [done|].
      apply grown_range_absorbed; [done|by apply Hv|]. specialize (Hr range Hin). destruct range; cbn in *; lia. }
  rewrite Forall_forall in Hr. rewrite Forall_forall in Hv. rewrite Forall_forall in H1. rewrite Forall_forall in Hgrown. split; [done|]. split.
  - apply Forall_fmap, Forall_forall. intros p Hp. by apply region_of_ok, H1.
  - apply regions_of_spaced; [by apply Forall_forall|done].
  - intros range Hin. destruct (Hdemand range Hin) as (q & Hq & Ha).
    destruct (H3 (grown_range doc q)) as (q' & Hq' & Ha'); [by apply list_elem_of_fmap_2|].
    apply Exists_exists. exists (region_of doc q'). split; [by apply list_elem_of_fmap_2|]. apply demand_covers; [by apply Hr|by apply H1|].
    eapply absorbed_trans; [|exact Ha']. apply grown_range_absorbed; [done|by apply Hv|].
    specialize (Hr range Hin). destruct range; cbn in *; lia.
  - intros region (p & -> & Hp)%list_elem_of_fmap. destruct (Hgrown p Hp) as (range & Hin & Ha). apply Exists_exists. exists range. split; [done|].
    apply demand_covers; [by apply Hr|by apply H1|done].
  - intros Hfull. apply Forall_fmap. assert (Forall (spans_lines doc) (merge_planned_ranges (grown_range doc <$> ranges) 0)) as Hspans.
    { apply merge_planned_all; [apply spans_lines_closed|]. apply Forall_fmap, Forall_forall. intros p Hp. specialize (Hlines Hfull). rewrite Forall_forall in Hlines.
      by apply grown_spans_lines; [apply Hv|apply Hlines]. }
    rewrite Forall_forall in Hspans. apply Forall_forall. intros p Hp. destruct (Hspans p Hp) as (S1 & S2 & S3). unfold compose, of_lines. rewrite region_of_end by by apply H1.
    split_and!; [|done|done]. cbn. unfold reads_lines in S1. by destruct (pr_read p).
Qed.

Section regions.
Context {W : Type} (io : Io W) (decompress : list N -> N -> res (list N)) (sha256 : list N -> list N).
Context (cache : bool) (packs : list PackMeta) (blocks : list PackBlock).
Context (files decoded : list (list N)) (honest : Prop).
Context (Hworld : world_ok io decompress sha256 packs blocks files decoded honest).
Context (Htotal : len (concat decoded) < 2 ^ 63) (Hcount : len blocks < U32).

Abbreviation good := (good decoded honest).

(** A region request for a document of the packs. *)
Record region_request_ok (request : PackRegionRequest) (doc : list N) : Prop := {
  rg_located : located blocks decoded (rr_slice request) (rr_size request) doc;
  rg_newlines : newlines_ok doc (rr_newlines request);
  rg_ranges : Forall (request_range_ok (len doc)) (rr_ranges request);
}.

Section request.
Context (request : PackRegionRequest) (doc : list N) (Hrequest : region_request_ok request doc).
Context (parts : list DocumentBlock) (Hparts : parts_ok decoded doc parts).

Abbreviation reads := (read_range io decompress sha256 cache packs blocks parts).

Lemma request_size : rr_size request = len doc.
Proof. by destruct (rg_located _ _ Hrequest). Qed.
Lemma request_small : len doc < 2 ^ 63.
Proof. eapply located_small; [exact Htotal|exact Hcount|exact (rg_located _ _ Hrequest)]. Qed.

Lemma good_extend start end_ before_context after_context :
  start <= len doc -> end_ <= len doc -> before_context + 1 < U64 -> after_context + 1 < U64 ->
  good (extend_line_range reads (rr_newlines request) (len doc) start end_ before_context after_context)
    (fun bounds => bounds = (lines_before doc start (before_context + 1), lines_after doc end_ (after_context + if ends_line doc end_ then 0 else 1))).
Proof.
  intros Hs He Hb Ha. apply (extend_line_range_ok reads (rr_newlines request) doc (fun s => batch_ok decoded s.2)); [|exact (rg_newlines _ _ Hrequest)|exact request_small|done..].
  intros a b Hab Hbl. by eapply good_read.
Qed.
Lemma good_locate offset :
  offset <= len doc ->
  good (locate_line reads (rr_newlines request) parts offset)
    (fun at_ => at_ = (1 + count_newlines (take (N.to_nat offset) doc), line_start doc offset)).
Proof.
  intros Ho. apply (locate_line_ok reads (rr_newlines request) doc (fun s => batch_ok decoded s.2) (fun s => batch_ok decoded s.2 /\ ~ honest)
    ltac:(intros a b Hab Hbl; by eapply good_read) (rg_newlines _ _ Hrequest) request_small decoded); done.
Qed.

Lemma exact_range_ok exact p :
  planned_ok (len doc) p ->
  good (exact_range io decompress sha256 cache packs blocks request parts exact p) (fun exact' => exact' = exact ++ [grown_range doc p]).
Proof.
  intros [Hp Hread]. unfold exact_range, grown_range, grown. destruct (pr_read p) as [|before_context after_context] eqn:E; cbn [fst snd].
  { apply good_ret. destruct p; cbn in *; by subst. }
  rewrite request_size. destruct Hread. eapply good_bind; [apply good_extend; done || lia|]. intros ? ->. by apply good_ret.
Qed.

Lemma region_step_ok regions p :
  planned_ok (len doc) p ->
  good (region_step io decompress sha256 cache packs blocks request parts regions p) (fun regions' => regions' = regions ++ [region_of doc p]).
Proof.
  intros [Hp _]. unfold region_step. eapply good_bind; [apply good_locate; lia|]. intros ? ->.
  eapply good_bind; [eapply good_read; [exact Hworld|exact Hparts|lia|lia]|]. intros ? ->. by apply good_ret.
Qed.

Lemma good_map {A B} (f : list B -> A -> ST (W * BlockState) (list B)) (g : A -> B) l :
  (forall pre x, x ∈ l -> good (f pre x) (fun out => out = pre ++ [g x])) -> good (foldS f [] l) (fun out => out = g <$> l).
Proof.
  intros H. apply (good_foldS decoded honest (fun pre out => out = g <$> pre)); [done|]. intros pre x post ? -> ->.
  eapply good_weaken; [apply H; rewrite elem_of_app, elem_of_cons; tauto|]. intros ? ->. by rewrite fmap_app.
Qed.

Lemma fetch_ranges_ok ranges :
  plans_ranges doc (rr_ranges request) ranges ->
  good (fetch_planned io decompress sha256 cache packs blocks request (PlanRegions parts ranges)) (document_ok request doc).
Proof.
  intros Hplans. pose proof (pl_ok _ _ _ Hplans) as Hv. cbn [fetch_planned]. rewrite Forall_forall in Hv. eapply good_bind.
  { apply good_map. intros pre p Hp. by apply exact_range_ok, Hv. }
  intros ? ->. destruct (merge_planned_ok 0 (len doc) (grown_range doc <$> ranges)) as (H1 & _ & _).
  { apply Forall_fmap, Forall_forall. intros p Hp. by apply grown_range_ok, Hv. }
  rewrite Forall_forall in H1. eapply good_bind; [apply good_map; intros pre p Hp; by apply region_step_ok, H1|].
  intros ? ->. apply good_ret. apply planned_document_ok; [exact request_size|exact (rg_ranges _ _ Hrequest)|done].
Qed.

Lemma fetch_whole_ok :
  good (fetch_planned io decompress sha256 cache packs blocks request (PlanWhole parts)) (document_ok request doc).
Proof.
  cbn [fetch_planned]. destruct (_ <=? _).
  - eapply good_bind; [eapply fetch_large_reusing_ok; [exact Hworld|exact Htotal|exact Hcount|exact (rg_located _ _ Hrequest)]|].
    intros ? ->. by apply good_ret.
  - rewrite request_size. eapply good_bind; [eapply good_read; [exact Hworld|exact Hparts|lia|lia]|]. intros ? ->. apply good_ret.
    unfold document_ok, cut. rewrite N.sub_0_r, to_nat_len. change (N.to_nat 0) with 0%nat. by rewrite drop_0, firstn_all.
Qed.
End request.

(** ** Planning all requests *)

Definition plan_ok (request : PackRegionRequest) (doc : list N) (plan : PlannedRequest) : Prop :=
  good (fetch_planned io decompress sha256 cache packs blocks request plan) (document_ok request doc).

Lemma plan_request_ok ids plans request doc :
  region_request_ok request doc -> block_set blocks ids ->
  exists ids' plan, plan_request blocks (ids, plans) request = Ok (ids', plans ++ [plan]) /\ block_set blocks ids' /\ plan_ok request doc plan.
Proof.
  intros Hr Hids. pose proof (rg_located _ _ Hr) as Hloc. pose proof (request_size _ _ Hr) as Hsize.
  edestruct @located_parts as (parts & Hp & Hok); [exact Hworld|exact Htotal|exact Hcount|exact Hloc|]. unfold plan_request. rewrite Hp. cbn [mbind res_bind].
  destruct (plan_pack_ranges_ok request) as (plan & -> & Hplan).
  { rewrite Hsize. exact (request_small _ _ Hr). }
  { rewrite Hsize. exact (rg_ranges _ _ Hr). }
  cbn [mbind res_bind]. destruct plan as [ranges|].
  - edestruct @collect_request_blocks_ok as (ids' & -> & Hids'); [exact Hworld|exact Htotal|exact Hcount|exact Hloc|exact Hids|]. cbn [mbind res_bind].
    exists ids', (PlanRegions parts ranges). split_and!; [done|done|]. specialize (Hplan _ eq_refl) as (H1 & _ & _ & H2 & H3).
    rewrite Hsize in H1, H2, H3. apply fetch_ranges_ok; [done|done|]. split; [done|done| |].
    + apply H3; [apply asked_closed|apply demands_asked].
    + intros Hfull. apply H3; [apply reads_lines_closed|by apply demands_lines].
  - assert (exists ids', (if (rr_size request <? LARGE_DOCUMENT_BYTES) && (0 <? rr_size request)
      then collect_request_blocks (rr_slice request) (rr_size request) [(0, rr_size request)] blocks ids
      else Ok ids) = Ok ids' /\ block_set blocks ids') as (ids' & -> & Hids').
    { destruct (_ && _); [|by eauto]. eapply collect_request_blocks_ok; [exact Hworld|exact Htotal|exact Hcount|exact Hloc|exact Hids]. }
    cbn [mbind res_bind]. exists ids', (PlanWhole parts). split_and!; [done|done|]. by apply fetch_whole_ok.
Qed.

Lemma plan_requests_ok requests docs ids plans :
  Forall2 region_request_ok requests docs -> block_set blocks ids ->
  exists ids' more, foldM (plan_request blocks) (ids, plans) requests = Ok (ids', plans ++ more) /\ block_set blocks ids' /\
    Forall2 (fun '(request, doc) plan => plan_ok request doc plan) (zip requests docs) more.
Proof.
  intros Hr. revert ids plans. induction Hr as [|request doc requests docs Hd Hr IH]; intros ids plans Hids; cbn [foldM].
  { exists ids, []. rewrite app_nil_r. split_and!; [done|done|constructor]. }
  destruct (plan_request_ok ids plans request doc Hd Hids) as (ids1 & plan & -> & Hids1 & Hplan). cbn [mbind res_bind].
  destruct (IH ids1 (plans ++ [plan]) Hids1) as (ids' & more & -> & Hids' & Hmore). exists ids', (plan :: more).
  rewrite <- app_assoc. split_and!; [done|done|]. by constructor.
Qed.

(** ** Serving *)

Section consumer.
Context {K : Type} (consume : N -> FetchedDocument -> ST K unit).
Context (J : list (N * FetchedDocument) -> K -> Prop) (F : K -> Prop).
Context (right : N -> FetchedDocument -> Prop).
Context (Hconsume : forall pre index document, right index document ->
  triple (J pre) (consume index document) (fun _ => J (pre ++ [(index, document)])) F).
Context (Hfail : forall pre k, J pre k -> ~ honest -> F k).

(** What the consumer has received for the requests of [docs]. *)
Definition answers (requests : list PackRegionRequest) (docs : list (list N)) (out : list (N * FetchedDocument)) : Prop :=
  Forall2 (fun '(request, doc) '(index, fetched) => index = rr_index request /\ document_ok request doc fetched) (zip requests docs) out.

(** The consumer may be given what answers the request. *)
Definition acceptable (request : PackRegionRequest) (doc : list N) : Prop :=
  forall fetched, document_ok request doc fetched -> right (rr_index request) fetched.

Lemma consume_planned_ok pre request doc plan :
  plan_ok request doc plan -> acceptable request doc ->
  triple (serving decoded J pre) (consume_planned io decompress sha256 cache packs blocks consume (request, plan))
    (fun _ s => exists fetched, document_ok request doc fetched /\ serving decoded J (pre ++ [(rr_index request, fetched)]) s)
    (stopped decoded F).
Proof.
  intros Hplan Haccept. unfold consume_planned. eapply triple_bind; [eapply serve_batch; [exact Hfail|exact Hplan]|].
  intros fetched. cbn beta. apply triple_pure. intros Hdoc. eapply triple_weaken; [eapply serve_consume; [exact Hconsume|by apply Haccept]|done| |done].
  intros [] s Hs. by exists fetched.
Qed.

Lemma consume_plans_ok requests docs plans pre :
  Forall2 (fun '(request, doc) plan => plan_ok request doc plan) (zip requests docs) plans -> Forall2 acceptable requests docs ->
  triple (serving decoded J pre) (forS (consume_planned io decompress sha256 cache packs blocks consume) (zip requests plans))
    (fun _ s => exists out, answers requests docs out /\ serving decoded J (pre ++ out) s) (stopped decoded F).
Proof.
  unfold forS. revert docs plans pre. induction requests as [|request requests IH]; intros docs plans pre H Haccept; inversion Haccept as [|? doc ? docs' Hd Hds]; subst.
  { inversion H; subst. intros s Hs. exists []. rewrite app_nil_r. split; [constructor|exact Hs]. }
  cbn [zip_with] in H. inversion H as [|? plan ? plans' Hplan Hplans]; subst. cbn [zip_with foldS].
  eapply triple_bind; [by apply consume_planned_ok|]. intros []. cbn beta. intros s (fetched & Hdoc & Hs).
  specialize (IH docs' plans' _ Hplans Hds s Hs). destruct (foldS _ _ _ s) as [[r|e|why] s']; [|done|done].
  destruct IH as (out & Hout & Hs'). exists ((rr_index request, fetched) :: out). rewrite <- app_assoc in Hs'. split; [|exact Hs'].
  by constructor.
Qed.

Lemma fetch_regions_ok requests docs :
  Forall2 region_request_ok requests docs -> Forall2 acceptable requests docs ->
  triple (serving decoded J []) (fetch_regions io decompress sha256 cache packs blocks consume requests)
    (fun _ s => exists out, answers requests docs out /\ serving decoded J out s) (stopped decoded F).
Proof.
  intros Hr Haccept. destruct (plan_requests_ok requests docs [] [] Hr) as (ids & plans & Hf & [Hasc Hlt] & Hplans).
  { split; [constructor|]. by intros ? ?%elem_of_nil. }
  unfold fetch_regions. eapply triple_bind; [apply (triple_lift_ok _ _ (ids, plans)); exact Hf|]. intros ?. apply triple_pure. intros ->.
  eapply triple_bind; [eapply serve_batch with (Q := fun _ => True); [exact Hfail|]|].
  - eapply triple_weaken; [by eapply (load_blocks_ok io decompress sha256 cache packs blocks files decoded honest Hworld ids)|done| |done]. cbn. tauto.
  - intros []. cbn beta. apply triple_pure. intros _. by apply (consume_plans_ok requests docs plans []).
Qed.
End consumer.
End regions.

(** ** Properties *)

Definition answered (requests : list PackRegionRequest) (docs : list (list N)) (entry : N * FetchedDocument) : Prop :=
  exists request doc, (request, doc) ∈ zip requests docs /\ entry.1 = rr_index request /\ document_ok request doc entry.2.

(** C16: fetching regions never panics, whatever the store and the cache return.
    Every request is answered in order, with the whole document or with regions
    of it that are in order, apart from each other, exact, under their right
    line, and cover each requested range with its overlap or its lines of
    context; each region was asked for, and regions are whole lines when only
    lines are asked for; a failure has given the consumer only such answers, and there is
    none while the store is honest. *)
Theorem fetch_regions_exact {W} (io : Io W) decompress sha256 cache packs blocks files decoded honest requests docs w :
  world_ok io decompress sha256 packs blocks files decoded honest -> len (concat decoded) < 2 ^ 63 -> len blocks < U32 ->
  Forall2 (region_request_ok blocks decoded) requests docs ->
  match fetch_regions io decompress sha256 cache packs blocks keep requests ((w, empty_batch), []) with
  | (Ok _, (_, out)) => answers requests docs out
  | (Err _, (_, out)) => ~ honest /\ Forall (answered requests docs) out
  | (Panic _, _) => False
  end.
Proof.
  intros Hworld Htotal Hcount Hr.
  pose proof (fetch_regions_ok io decompress sha256 cache packs blocks files decoded honest Hworld Htotal Hcount keep
    (fun pre out => out = pre /\ Forall (answered requests docs) pre) (fun out => ~ honest /\ Forall (answered requests docs) out)
    (fun index document => answered requests docs (index, document))) as H.
  specialize (H ltac:(intros pre index document Hi out [-> Hp]; cbn; split; [done|]; apply Forall_app; split; [done|by constructor])
    ltac:(by intros pre out [-> Hp] Hn) requests docs Hr).
  assert (Forall2 (acceptable (fun index document => answered requests docs (index, document))) requests docs) as Ha.
  { apply Forall2_same_length_lookup. split; [by eapply Forall2_length|]. intros i request doc Hreq Hdoc fetched Hf.
    exists request, doc. split_and!; [|done|done]. apply list_elem_of_lookup. exists i. by rewrite lookup_zip_with, Hreq, Hdoc. }
  specialize (H Ha ((w, empty_batch), [])). destruct (fetch_regions _ _ _ _ _ _ _ _ _) as [[[]|e|why] [s out]].
  - destruct H as (out' & Hout & _ & [E _]); [split; [by intros id x Hx|done]|]. cbn in E. by subst.
  - by destruct H as [_ H]; [split; [intros id x Hx|done]|].
  - apply H. by split; [intros id x Hx|].
Qed.

(** ** Witness *)

Definition demo_region_requests : list PackRegionRequest := [
  {| rr_index := 5; rr_slice := {| ps_first_block := 0; ps_block_offset := 0 |}; rr_size := 5; rr_ranges := [PRegional 1 2 1]; rr_newlines := [0] |};
  {| rr_index := 6; rr_slice := {| ps_first_block := 1; ps_block_offset := 2 |}; rr_size := 2; rr_ranges := [PFullLines 0 1 0 0]; rr_newlines := [0] |}].

Lemma demo_region_requests_ok :
  Forall2 (region_request_ok demo_pack_blocks demo_decoded) demo_region_requests [[1; 2; 3; 4; 5]; [6; 7]].
Proof.
  assert (forall l, len l < 6 -> 0 < len l -> count_newlines l = 0 -> newlines_ok l [0]) as Hnl.
  { intros l Hl H0 Hc. split; [unfold div_ceil; change CANDIDATE_BLOCK_BYTES with 131072; rewrite N.div_small, N.mod_small by lia; by destruct (N.eqb_spec (len l) 0); [lia|]|].
    intros block Hb. change (len [0]) with 1 in Hb. assert (block = 0) as -> by lia. unfold cut. change CANDIDATE_BLOCK_BYTES with 131072.
    rewrite N.min_r, N.sub_0_r, to_nat_len by lia. change (N.to_nat (0 * 131072)) with 0%nat. by rewrite drop_0, firstn_all, Hc. }
  constructor; [|constructor; [|constructor]]; split; [by apply (demo_located 0)|by apply Hnl|by repeat constructor|by apply (demo_located 2)|by apply Hnl|by repeat constructor].
Qed.

Lemma fetch_regions_exact_witness :
  match fetch_regions demo_io demo_decompress tiny_sha256 true demo_packs demo_pack_blocks keep demo_region_requests (([], empty_batch), []) with
  | (Ok _, (_, out)) => answers demo_region_requests [[1; 2; 3; 4; 5]; [6; 7]] out
  | (Err _, (_, out)) => ~ True /\ Forall (answered demo_region_requests [[1; 2; 3; 4; 5]; [6; 7]]) out
  | (Panic _, _) => False
  end /\
  (fetch_regions demo_io demo_decompress tiny_sha256 true demo_packs demo_pack_blocks keep demo_region_requests (([], empty_batch), [])).2.2 =
    [(5, Regions 5 [{| dr_start := 1; dr_line := 1; dr_line_offset := 0; dr_bytes := [2]; dr_program := ProgramRegional |}]);
     (6, Regions 2 [{| dr_start := 0; dr_line := 1; dr_line_offset := 0; dr_bytes := [6; 7]; dr_program := ProgramFull |}])].
Proof.
  split; [|vm_compute; reflexivity].
  by apply (fetch_regions_exact demo_io demo_decompress tiny_sha256 true demo_packs demo_pack_blocks demo_files demo_decoded True
    demo_region_requests [[1; 2; 3; 4; 5]; [6; 7]] [] demo_world eq_refl eq_refl demo_region_requests_ok).
Defined.
