(* ===== verification/Grep.v ===== *)
(** * Lines of a match (crates/core/src/grep.rs)

    [grep_matches] walks the lines of a document once, with the matches as a
    queue, a ring of lines for the context before a match and a counter for the
    context after it.  It is compared with a reference that looks at each line
    on its own: a line is shown when it is one of the first [max_count] lines
    with a match, or close enough to one of them. *)

From S2P Require Import Prelude Bytes PackLines.

(** [seagrep_core::PatternMatch] *)
Record PatternMatch : Type := { pm_pattern : N; pm_start : N; pm_end : N }.

Record SubMatch : Type := { sm_start : N; sm_end : N }.
Inductive LineKind : Type := KMatch | KContext.
Record LineEvent : Type := { le_line : N; le_kind : LineKind; le_offset : N; le_text : list N; le_submatches : list SubMatch }.
Record MatchOptions : Type := { before_context : N; after_context : N; max_count : option N }.

#[export] Instance SubMatch_eq_dec : EqDecision SubMatch.
Proof. solve_decision. Defined.
#[export] Instance LineKind_eq_dec : EqDecision LineKind.
Proof. solve_decision. Defined.

(** [memchr(b'\n', bytes)] *)
Fixpoint memchr_newline (bytes : list N) : option N :=
  match bytes with
  | [] => None
  | byte :: bytes => if byte =? NEWLINE then Some 0 else (fun off => 1 + off) <$> memchr_newline bytes
  end.

(** The matches that start at most at [content_end], clamped to the line. *)
Fixpoint take_subs (pos content_end : N) (finder : list PatternMatch) (subs : list SubMatch) : list SubMatch * list PatternMatch :=
  match finder with
  | matched :: rest =>
      if pm_start matched <=? content_end then
        take_subs pos content_end rest (subs ++
          [{| sm_start := wrapping_sub U64 (pm_start matched) pos;
              sm_end := wrapping_sub U64 (N.max (N.min (pm_end matched) content_end) (pm_start matched)) pos |}])
      else (subs, finder)
  | [] => (subs, [])
  end.

(** The variables of the loop. *)
Record GrepState : Type := {
  gs_out : list LineEvent; gs_finder : list PatternMatch; gs_ring : list (N * N * N);
  gs_after : N; gs_matched : N; gs_done : bool;
}.

Definition line_event (bytes : list N) (line : N) (kind : LineKind) (s e : N) (subs : list SubMatch) : res LineEvent :=
  text ← expect (get_range bytes s e) "range out of bounds";
  Ok {| le_line := line; le_kind := kind; le_offset := s; le_text := text; le_submatches := subs |}.

(** [while let Some((l, s, e)) = ring.pop_front()] *)
Definition drain_ring (bytes : list N) (ring : list (N * N * N)) : res (list LineEvent) :=
  mapM_res (fun '(l, s, e) => line_event bytes l KContext s e []) ring.

(** What the loop does with one line. *)
Definition grep_line (bytes : list N) (options : MatchOptions) (line_no pos content_end span_end : N) (s : GrepState) : res GrepState :=
  let '(subs, finder) := take_subs pos content_end (gs_finder s) [] in
  if negb (bool_decide (subs = [])) && negb (gs_done s) then
    context ← drain_ring bytes (gs_ring s);
    event ← line_event bytes line_no KMatch pos span_end subs;
    let matched := gs_matched s + 1 in
    Ok {| gs_out := gs_out s ++ context ++ [event]; gs_finder := finder; gs_ring := []; gs_after := after_context options;
          gs_matched := matched; gs_done := gs_done s || bool_decide (max_count options = Some matched) |}
  else if 0 <? gs_after s then
    event ← line_event bytes line_no KContext pos span_end subs;
    Ok {| gs_out := gs_out s ++ [event]; gs_finder := finder; gs_ring := gs_ring s; gs_after := gs_after s - 1;
          gs_matched := gs_matched s; gs_done := gs_done s |}
  else if 0 <? before_context options then
    let ring := if len (gs_ring s) =? before_context options then tail (gs_ring s) else gs_ring s in
    Ok {| gs_out := gs_out s; gs_finder := finder; gs_ring := ring ++ [(line_no, pos, span_end)]; gs_after := gs_after s;
          gs_matched := gs_matched s; gs_done := gs_done s |}
  else
    Ok {| gs_out := gs_out s; gs_finder := finder; gs_ring := gs_ring s; gs_after := gs_after s;
          gs_matched := gs_matched s; gs_done := gs_done s |}.

(** [while pos < bytes.len()]: every pass moves [pos] forward, so a pass per
    byte is enough. *)
Fixpoint grep_loop (fuel : nat) (bytes : list N) (options : MatchOptions) (line_no pos : N) (s : GrepState) : res (list LineEvent) :=
  match fuel with
  | O => Panic "grep_matches: out of fuel"
  | S fuel =>
      if pos <? len bytes then
        let '(content_end, span_end) :=
          match memchr_newline (drop (N.to_nat pos) bytes) with
          | Some off => (pos + off, pos + off + 1)
          | None => (len bytes, len bytes)
          end in
        s ← grep_line bytes options (line_no + 1) pos content_end span_end s;
        if (gs_done s || bool_decide (gs_finder s = [])) && (gs_after s =? 0) then Ok (gs_out s)
        else grep_loop fuel bytes options (line_no + 1) span_end s
      else Ok (gs_out s)
  end.

Definition grep_matches (bytes : list N) (matches : list PatternMatch) (options : MatchOptions) : res (list LineEvent) :=
  if bool_decide (max_count options = Some 0) then Ok []
  else grep_loop (S (length bytes)) bytes options 0 0
    {| gs_out := []; gs_finder := matches; gs_ring := []; gs_after := 0; gs_matched := 0; gs_done := false |}.

(** [has_line_match], on the matches of the document. *)
Definition has_line_match (bytes : list N) (matches : list PatternMatch) : bool :=
  negb (bool_decide (bytes = [])) &&
  existsb (fun matched => (pm_start matched <? len bytes) ||
    match last bytes with Some byte => negb (byte =? NEWLINE) | None => false end) matches.

(** ** Reference *)

(** The lines of a document, each with its newline. *)
Fixpoint split_lines (bytes : list N) : list (list N) :=
  match bytes with
  | [] => []
  | byte :: rest =>
      if byte =? NEWLINE then [byte] :: split_lines rest
      else match split_lines rest with [] => [[byte]] | text :: texts => (byte :: text) :: texts end
  end.

Record Line : Type := { ln_no : N; ln_start : N; ln_text : list N }.
Definition ln_end (l : Line) : N := ln_start l + len (ln_text l).
(** The end of the line's content, before its newline. *)
Definition ln_content (l : Line) : N := if bool_decide (last (ln_text l) = Some NEWLINE) then ln_end l - 1 else ln_end l.

Fixpoint number_lines (no start : N) (texts : list (list N)) : list Line :=
  match texts with
  | [] => []
  | text :: texts => {| ln_no := no; ln_start := start; ln_text := text |} :: number_lines (no + 1) (start + len text) texts
  end.
Definition lines_of (bytes : list N) : list Line := number_lines 1 0 (split_lines bytes).

Section reference.
Context (matches : list PatternMatch) (options : MatchOptions).

(** The matches that start in the line (a match at its newline included), cut
    off at the end of its content. *)
Definition line_subs (l : Line) : list SubMatch :=
  (fun m => {| sm_start := pm_start m - ln_start l; sm_end := N.max (N.min (pm_end m) (ln_content l)) (pm_start m) - ln_start l |})
    <$> filter (fun m => ln_start l <= pm_start m <= ln_content l) matches.

Definition limit {A} (l : list A) : list A := match max_count options with Some n => take (N.to_nat n) l | None => l end.

(** The numbers of the lines that count as matches. *)
Definition counted (lines : list Line) : list N := limit (ln_no <$> filter (fun l => line_subs l <> []) lines).

Definition near (hits : list N) (no : N) : bool :=
  existsb (fun hit => (hit <=? no + before_context options) && (no <=? hit + after_context options)) hits.

Definition shown (hits : list N) (l : Line) : option LineEvent :=
  let event kind := Some {| le_line := ln_no l; le_kind := kind; le_offset := ln_start l; le_text := ln_text l; le_submatches := line_subs l |} in
  if bool_decide (ln_no l ∈ hits) then event KMatch
  else if near hits (ln_no l) then event KContext
  else None.

Definition reference_lines (lines : list Line) : list LineEvent := omap (shown (counted lines)) lines.
End reference.

(** ** Lines *)

Lemma memchr_split bytes :
  bytes <> [] ->
  match memchr_newline bytes with
  | Some off => off < len bytes /\ split_lines bytes = take (N.to_nat (off + 1)) bytes :: split_lines (drop (N.to_nat (off + 1)) bytes) /\
      last (take (N.to_nat (off + 1)) bytes) = Some NEWLINE
  | None => split_lines bytes = [bytes] /\ last bytes <> Some NEWLINE
  end.
Proof.
  induction bytes as [|x bytes IH]; [done|]. intros _. cbn [memchr_newline split_lines]. destruct (N.eqb_spec x NEWLINE) as [->|Hx].
  { rewrite len_cons. split_and!; [lia|done|done]. }
  destruct bytes as [|y bytes]; [split; [done|by intros [= ->]]|]. specialize (IH ltac:(done)).
  destruct (memchr_newline (y :: bytes)) as [off|]; cbn [fmap option_fmap option_map].
  - destruct IH as (Ho & -> & Hl). rewrite len_cons. replace (N.to_nat (1 + off + 1)) with (S (N.to_nat (off + 1))) by lia.
    split_and!; [lia|done|]. rewrite firstn_cons. destruct (take (N.to_nat (off + 1)) (y :: bytes)) eqn:E; [done|exact Hl].
  - destruct IH as [-> Hl]. split; [done|]. exact Hl.
Qed.

Lemma number_lines_no no start texts l : l ∈ number_lines no start texts -> no <= ln_no l.
Proof.
  revert no start. induction texts as [|text texts IH]; intros no start; cbn [number_lines]; [by intros ?%elem_of_nil|].
  intros [->|H]%elem_of_cons; [cbn; lia|]. apply IH in H. lia.
Qed.
Lemma number_lines_sorted no start texts : StronglySorted (fun a b => ln_no a < ln_no b) (number_lines no start texts).
Proof.
  revert no start. induction texts as [|text texts IH]; intros no start; cbn [number_lines]; [constructor|]. constructor; [apply IH|].
  apply Forall_forall. intros l H%number_lines_no. cbn. lia.
Qed.

(** The remaining lines of a document from [pos]. *)
Definition rest_lines (bytes : list N) (line_no pos : N) : list Line := number_lines (line_no + 1) pos (split_lines (drop (N.to_nat pos) bytes)).

Lemma rest_lines_end bytes line_no : rest_lines bytes line_no (len bytes) = [].
Proof. unfold rest_lines. by rewrite to_nat_len, drop_all. Qed.

(** The line at [pos] and the ones after it. *)
Lemma rest_lines_step bytes line_no pos :
  pos < len bytes ->
  let '(content_end, span_end) := match memchr_newline (drop (N.to_nat pos) bytes) with
    | Some off => (pos + off, pos + off + 1) | None => (len bytes, len bytes) end in
  exists l, rest_lines bytes line_no pos = l :: rest_lines bytes (line_no + 1) span_end /\
    ln_no l = line_no + 1 /\ ln_start l = pos /\ ln_end l = span_end /\ ln_content l = content_end /\
    pos <= content_end <= span_end /\ span_end <= content_end + 1 /\ pos < span_end <= len bytes /\
    (span_end = content_end -> span_end = len bytes) /\ get_range bytes pos span_end = Some (ln_text l).
Proof.
  intros Hpos. set (tail_ := drop (N.to_nat pos) bytes). assert (len tail_ = len bytes - pos) as Hlen by (unfold tail_; rewrite len_drop; lia).
  pose proof (memchr_split tail_ ltac:(intros E; rewrite E, len_nil in Hlen; lia)) as H. unfold rest_lines. fold tail_.
  destruct (memchr_newline tail_) as [off|].
  - destruct H as (Ho & -> & Hl). set (text := take (N.to_nat (off + 1)) tail_) in *.
    assert (len text = off + 1) as Ht by (unfold text, len in *; rewrite length_take; lia).
    exists {| ln_no := line_no + 1; ln_start := pos; ln_text := text |}. unfold ln_content, ln_end. cbn [ln_no ln_start ln_text].
    rewrite Ht, bool_decide_eq_true_2 by done. split_and!; try done; try lia.
    + cbn [number_lines]. rewrite Ht. unfold tail_. rewrite drop_drop.
      replace (pos + (off + 1)) with (pos + off + 1) by lia. do 4 f_equal. lia.
    + apply get_range_Some. split_and!; [lia|lia|]. unfold text, tail_. f_equal. lia.
  - destruct H as (-> & Hl). exists {| ln_no := line_no + 1; ln_start := pos; ln_text := tail_ |}. unfold ln_content, ln_end. cbn [ln_no ln_start ln_text].
    rewrite Hlen, bool_decide_eq_false_2 by done. split_and!; try done; try lia.
    + cbn [number_lines]. by rewrite to_nat_len, drop_all.
    + apply get_range_Some. split_and!; [lia|lia|]. unfold tail_. symmetry. apply take_ge. rewrite length_drop. unfold len. lia.
Qed.

(** ** Matches of a line *)

Lemma filter_ext_elem {A} (P Q : A -> Prop) `{!forall x, Decision (P x)} `{!forall x, Decision (Q x)} (l : list A) :
  (forall x, x ∈ l -> P x <-> Q x) -> filter P l = filter Q l.
Proof.
  induction l as [|x l IH]; intros Heq; [done|]. rewrite !filter_cons, IH by (intros; apply Heq; by right).
  specialize (Heq x ltac:(left)). do 2 case_decide; tauto.
Qed.
Lemma filter_filter {A} (P Q : A -> Prop) `{!forall x, Decision (P x)} `{!forall x, Decision (Q x)} (l : list A) :
  filter P (filter Q l) = filter (fun x => Q x /\ P x) l.
Proof. induction l as [|x l IH]; [done|]. rewrite !filter_cons. repeat case_decide; rewrite ?filter_cons; repeat case_decide; rewrite ?IH; tauto. Qed.

Lemma omap_none {A B} (f : A -> option B) (l : list A) : (forall x, x ∈ l -> f x = None) -> omap f l = [].
Proof. induction l as [|x l IH]; intros Hf; [done|]. cbn. rewrite Hf by left. apply IH. intros y Hy. apply Hf. by right. Qed.

Lemma sorted_filter {A} (R : A -> A -> Prop) (P : A -> Prop) `{!forall x, Decision (P x)} (l : list A) :
  StronglySorted R l -> StronglySorted R (filter P l).
Proof.
  induction 1 as [|x l Hs IH Hx]; [constructor|]. rewrite filter_cons. case_decide; [|done]. constructor; [done|].
  rewrite Forall_forall in Hx |- *. intros y [_ Hy]%list_elem_of_filter. by apply Hx.
Qed.

Definition starts_sorted (matches : list PatternMatch) : Prop := StronglySorted (fun a b => pm_start a <= pm_start b) matches.

Lemma take_subs_ok pos content_end finder subs :
  starts_sorted finder -> Forall (fun m => pos <= pm_start m) finder -> content_end < U64 ->
  take_subs pos content_end finder subs =
    (subs ++ ((fun m => {| sm_start := pm_start m - pos; sm_end := N.max (N.min (pm_end m) content_end) (pm_start m) - pos |})
        <$> filter (fun m => pm_start m <= content_end) finder),
     filter (fun m => content_end < pm_start m) finder).
Proof.
  intros Hs Hp Hc. revert subs. induction Hs as [|m finder Hs IH Hm]; intros subs; cbn [take_subs]; [by rewrite app_nil_r|].
  apply Forall_cons in Hp as [Hpm Hp]. rewrite !filter_cons. destruct (N.leb_spec (pm_start m) content_end) as [Hle|Hgt].
  - rewrite (IH Hp). rewrite decide_True, decide_False by lia. rewrite !wrapping_sub_small by lia. cbn [fmap list_fmap]. by rewrite <- app_assoc.
  - rewrite decide_False, decide_True by lia. rewrite (filter_none _ finder), (filter_all _ finder); [cbn; by rewrite app_nil_r|..];
      intros x Hx; rewrite Forall_forall in Hm; specialize (Hm x Hx); cbn in Hm; lia.
Qed.

(** ** The state after a prefix of the lines *)

Section loop.
Context (bytes : list N) (matches : list PatternMatch) (options : MatchOptions).
Context (Hmatches : starts_sorted matches) (Hbytes : len bytes < 2 ^ 63) (Hmax : max_count options <> Some 0).

Abbreviation subs := (line_subs matches).
Abbreviation hits pre := (counted matches options pre).

Definition context_event (l : Line) : LineEvent :=
  {| le_line := ln_no l; le_kind := KContext; le_offset := ln_start l; le_text := ln_text l; le_submatches := [] |}.
Definition triple_of (l : Line) : N * N * N := (ln_no l, ln_start l, ln_end l).

(** [from] is where the next line starts, [cover] the last line that is context
    after a match (or 0). *)
Record grep_ok (pre : list Line) (from cover : N) (s : GrepState) : Prop := {
  go_out : gs_out s = omap (shown matches options (hits pre)) pre;
  go_finder : gs_finder s = filter (fun m => from <= pm_start m) matches;
  go_ring : gs_ring s = triple_of <$> filter (fun l => N.max cover (len pre - before_context options) < ln_no l) pre;
  go_after : gs_after s = cover - len pre;
  go_matched : gs_matched s = len (hits pre);
  go_done : gs_done s = bool_decide (max_count options = Some (len (hits pre)));
  go_cover : forall hit, hit ∈ hits pre -> hit + after_context options <= cover;
  go_covered : cover = 0 /\ hits pre = [] \/ exists hit, hit ∈ hits pre /\ cover = hit + after_context options;
}.

(** The lines of a prefix: numbered from 1, with their text. *)
Record prefix_ok (pre : list Line) : Prop := {
  po_numbers : ln_no <$> pre = range 1 (len pre + 1);
  po_text : Forall (fun l => get_range bytes (ln_start l) (ln_end l) = Some (ln_text l)) pre;
}.

Lemma prefix_sorted pre : prefix_ok pre -> StronglySorted (fun a b => ln_no a < ln_no b) pre.
Proof.
  intros [H _]. pose proof (range_ascending 1 (len pre + 1)) as Ha. rewrite <- H in Ha. clear H.
  induction pre as [|l pre IH]; [constructor|]. rewrite fmap_cons in Ha. apply StronglySorted_inv in Ha as [Ha Hl]. constructor; [by apply IH|].
  rewrite Forall_fmap in Hl. exact Hl.
Qed.
Lemma prefix_bounds pre l : prefix_ok pre -> l ∈ pre -> 1 <= ln_no l <= len pre.
Proof.
  intros [H _] Hl. assert (ln_no l ∈ range 1 (len pre + 1)) as Hin by (rewrite <- H; by apply list_elem_of_fmap_2).
  apply elem_of_range in Hin. lia.
Qed.

Lemma prefix_number pre i l : prefix_ok pre -> pre !! i = Some l -> ln_no l = N.of_nat i + 1.
Proof.
  intros [H _] Hl. assert ((ln_no <$> pre) !! i = Some (ln_no l)) as E by (by rewrite list_lookup_fmap, Hl).
  rewrite H in E. unfold range in E. rewrite list_lookup_fmap in E. apply fmap_Some in E as (x & E & ->). apply lookup_seq in E. lia.
Qed.
(** The lines after number [m]. *)
Lemma filter_after pre m : prefix_ok pre -> filter (fun l => m < ln_no l) pre = drop (N.to_nat m) pre.
Proof.
  intros Hpre. rewrite <- (take_drop (N.to_nat m) pre) at 1. rewrite filter_app, filter_none, filter_all; [done| |].
  - intros l (i & Hl)%list_elem_of_lookup. rewrite lookup_drop in Hl. apply (prefix_number _ _ _ Hpre) in Hl. lia.
  - intros l (i & Hl)%list_elem_of_lookup. apply lookup_take_Some in Hl as [Hl Hi]. apply (prefix_number _ _ _ Hpre) in Hl. lia.
Qed.

Lemma counted_subset pre no : no ∈ hits pre -> exists l, l ∈ pre /\ ln_no l = no /\ subs l <> [].
Proof.
  unfold counted, limit. intros H. assert (no ∈ ln_no <$> filter (fun l => subs l <> []) pre) as Hin.
  { destruct (max_count options); [|done]. rewrite <- (take_drop (N.to_nat n) (ln_no <$> filter _ pre)). apply elem_of_app. by left. }
  apply list_elem_of_fmap in Hin as (l & -> & Hin). apply list_elem_of_filter in Hin as [Hs Hin]. eauto.
Qed.
Lemma counted_bounds pre no : prefix_ok pre -> no ∈ hits pre -> 1 <= no <= len pre.
Proof. intros Hpre (l & Hl & <- & _)%counted_subset. by apply prefix_bounds. Qed.

(** Until the limit is reached every line with a match counts. *)
Lemma counted_all pre l :
  bool_decide (max_count options = Some (len (hits pre))) = false -> l ∈ pre -> subs l <> [] -> ln_no l ∈ hits pre.
Proof.
  unfold counted, limit. intros Hd%bool_decide_eq_false Hl Hs.
  assert (ln_no l ∈ ln_no <$> filter (fun l => subs l <> []) pre) as Hin by (apply list_elem_of_fmap_2, list_elem_of_filter; done).
  destruct (max_count options) as [n|]; [|exact Hin]. rewrite take_ge; [exact Hin|].
  destruct (decide (length (ln_no <$> filter (fun l => subs l <> []) pre) <= N.to_nat n)%nat) as [|Hgt]; [done|].
  contradict Hd. f_equal. unfold len. rewrite length_take. lia.
Qed.
Lemma counted_snoc pre l :
  hits (pre ++ [l]) = if bool_decide (subs l = []) || bool_decide (max_count options = Some (len (hits pre))) then hits pre else hits pre ++ [ln_no l].
Proof.
  unfold counted, limit. rewrite filter_app, fmap_app, filter_cons, filter_nil. destruct (bool_decide_reflect (subs l = [])) as [E|E]; cbn [orb].
  { rewrite decide_False by tauto. cbn. by rewrite app_nil_r. }
  rewrite decide_True by done. cbn [fmap list_fmap]. destruct (max_count options) as [n|] eqn:En; [|done].
  set (all := ln_no <$> filter _ pre). destruct (bool_decide_reflect (Some n = Some (len (take (N.to_nat n) all)))) as [Hd|Hd].
  - injection Hd as Hd. unfold len in Hd. rewrite length_take in Hd. rewrite take_app_le by lia. done.
  - assert (length all < N.to_nat n)%nat.
    { destruct (decide (length all < N.to_nat n)%nat) as [|Hge]; [done|]. contradict Hd. f_equal. unfold len. rewrite length_take. lia. }
    rewrite !take_ge; [done|lia|rewrite length_app; cbn; lia].
Qed.


Lemma near_spec hits_ no :
  near options hits_ no = true <-> exists hit, hit ∈ hits_ /\ hit <= no + before_context options /\ no <= hit + after_context options.
Proof.
  unfold near. rewrite existsb_exists. split.
  - intros (hit & Hin%list_elem_of_In & H). exists hit. split; [done|lia].
  - intros (hit & Hin & H1 & H2). exists hit. split; [by apply list_elem_of_In|]. lia.
Qed.

Section step.
Context (pre : list Line) (from cover : N) (s : GrepState) (Hok : grep_ok pre from cover s) (Hpre : prefix_ok pre).

(** Which lines are near a match so far. *)
Lemma near_uncovered no : cover < no -> near options (hits pre) no = false.
Proof.
  intros Hc. apply not_true_iff_false. intros (hit & Hin & _ & H)%near_spec. pose proof (go_cover _ _ _ _ Hok hit Hin). lia.
Qed.
Lemma near_covered no : 0 < no -> no <= cover -> len pre <= no + before_context options -> near options (hits pre) no = true.
Proof.
  intros Hz Hc Hb. apply near_spec. destruct (go_covered _ _ _ _ Hok) as [[-> _]|(hit & Hhit & ->)]; [lia|].
  exists hit. pose proof (counted_bounds pre hit Hpre Hhit). split; [done|lia].
Qed.
Lemma near_snoc hit no : near options (hits pre ++ [hit]) no = near options (hits pre) no || near options [hit] no.
Proof. unfold near. apply existsb_app. Qed.
Lemma hidden l : l ∈ pre -> cover < ln_no l -> shown matches options (hits pre) l = None.
Proof.
  intros Hl Hc. unfold shown. rewrite bool_decide_eq_false_2, near_uncovered by
    (done || (intros Hin; pose proof (go_cover _ _ _ _ Hok _ Hin); lia)). done.
Qed.

Let line_no := len pre + 1.
Let late l := N.max cover (len pre - before_context options) < ln_no l.

(** A new match shows the lines of the ring, and no others. *)
Lemma shown_earlier l :
  l ∈ pre -> ~ late l -> shown matches options (hits pre ++ [line_no]) l = shown matches options (hits pre) l.
Proof.
  intros Hl Hlate. pose proof (prefix_bounds pre l Hpre Hl) as Hb. unfold late, line_no in *. unfold shown.
  rewrite (bool_decide_ext (ln_no l ∈ hits pre ++ [len pre + 1]) (ln_no l ∈ hits pre)) by (rewrite elem_of_app, elem_of_cons, elem_of_nil; intuition lia).
  case_bool_decide; [done|]. rewrite near_snoc. destruct (decide (len pre < ln_no l + before_context options)) as [Hn|Hn].
  - rewrite near_covered by lia. done.
  - replace (near options [len pre + 1] (ln_no l)) with false; [by rewrite orb_false_r|].
    symmetry. apply not_true_iff_false. intros (hit & Hin & H1 & _)%near_spec. apply list_elem_of_singleton in Hin. lia.
Qed.
Lemma shown_late l :
  l ∈ pre -> late l -> bool_decide (max_count options = Some (len (hits pre))) = false ->
  shown matches options (hits pre) l = None /\ shown matches options (hits pre ++ [line_no]) l = Some (context_event l).
Proof.
  intros Hl Hlate Hd. pose proof (prefix_bounds pre l Hpre Hl) as Hb. unfold late, line_no in *. split; [apply hidden; [done|lia]|].
  unfold shown. rewrite bool_decide_eq_false_2.
  2: { rewrite elem_of_app, elem_of_cons, elem_of_nil. intros [Hin|[?|[]]]; [|lia]. pose proof (go_cover _ _ _ _ Hok _ Hin). lia. }
  rewrite near_snoc. replace (near options [len pre + 1] (ln_no l)) with true.
  2: { symmetry. apply near_spec. exists (len pre + 1). split; [by apply list_elem_of_singleton|lia]. }
  rewrite orb_true_r. unfold context_event. do 2 f_equal.
  destruct (decide (subs l = [])) as [|Hs]; [done|]. pose proof (counted_all pre l Hd Hl Hs) as Hin. pose proof (go_cover _ _ _ _ Hok _ Hin). lia.
Qed.

Lemma omap_match :
  bool_decide (max_count options = Some (len (hits pre))) = false ->
  omap (shown matches options (hits pre ++ [line_no])) pre =
    omap (shown matches options (hits pre)) pre ++ (context_event <$> filter (fun l => late l) pre).
Proof.
  intros Hd. pose proof (prefix_sorted pre Hpre) as Hsorted. pose proof shown_earlier as Hearly. pose proof (fun l Hl Hlate => shown_late l Hl Hlate Hd) as Hlate.
  revert Hsorted Hearly Hlate. generalize (hits pre) as old, (hits pre ++ [line_no]) as new. unfold late. generalize (N.max cover (len pre - before_context options)) as m.
  clear. intros m old new. induction pre as [|l ls IH]; intros Hs He Hl; [done|]. apply StronglySorted_inv in Hs as [Hs Hall].
  specialize (IH Hs (fun x Hx => He x (list_elem_of_further _ _ _ Hx)) (fun x Hx => Hl x (list_elem_of_further _ _ _ Hx))).
  rewrite filter_cons. destruct (decide (m < ln_no l)) as [Hm|Hm].
  - destruct (Hl l ltac:(left) Hm) as [H1 H2]. cbn [omap list_omap fmap list_fmap]. rewrite H1, H2, IH.
    rewrite (omap_none (shown matches options old) ls); [done|]. intros x Hx. apply Hl; [by right|].
    rewrite Forall_forall in Hall. specialize (Hall x Hx). lia.
  - cbn [omap list_omap]. rewrite (He l ltac:(left) Hm). destruct (shown matches options old l); [|exact IH]. cbn [app]. by rewrite IH.
Qed.

(** ** One line *)

Context (l : Line) (Hno : ln_no l = line_no) (Hstart : ln_start l = from).
Context (Hcontent : from <= ln_content l) (Hend : ln_content l <= ln_end l <= len bytes).
Context (Htext : get_range bytes (ln_start l) (ln_end l) = Some (ln_text l)).

Lemma prefix_snoc : prefix_ok (pre ++ [l]).
Proof.
  destruct Hpre as [H1 H2]. split.
  - rewrite fmap_app, H1, len_app. cbn [fmap list_fmap]. rewrite Hno. unfold line_no. change (len [l]) with 1.
    by rewrite <- range_snoc by lia.
  - apply Forall_app. split; [done|]. by constructor.
Qed.

Lemma take_line_subs :
  take_subs from (ln_content l) (gs_finder s) [] = (subs l, filter (fun m => ln_content l + 1 <= pm_start m) matches).
Proof.
  rewrite (go_finder _ _ _ _ Hok), take_subs_ok; cbn [app].
  - rewrite !filter_filter. unfold line_subs. rewrite Hstart. f_equal. apply filter_ext_elem. intros m _. lia.
  - apply sorted_filter. exact Hmatches.
  - apply Forall_forall. intros m [Hm _]%list_elem_of_filter. exact Hm.
  - lia.
Qed.

Lemma drain_ring_ok : drain_ring bytes (gs_ring s) = Ok (context_event <$> filter (fun l => late l) pre).
Proof.
  rewrite (go_ring _ _ _ _ Hok). unfold drain_ring, late. destruct Hpre as [_ Ht].
  assert (Forall (fun l => get_range bytes (ln_start l) (ln_end l) = Some (ln_text l)) (filter (fun l => N.max cover (len pre - before_context options) < ln_no l) pre)) as H.
  { rewrite Forall_forall in Ht |- *. intros x [_ Hx]%list_elem_of_filter. by apply Ht. }
  induction H as [|x ls Hx H IH]; [done|]. rewrite fmap_cons. cbn [mapM_res triple_of]. rewrite IH.
  unfold line_event. rewrite Hx. done.
Qed.

Definition next_ok (r : res GrepState) : Prop := exists s' cover', r = Ok s' /\ grep_ok (pre ++ [l]) (ln_content l + 1) cover' s'.

Lemma len_snoc : len (pre ++ [l]) = len pre + 1.
Proof. by rewrite len_app. Qed.
Lemma late_none m : len pre + 1 <= m -> filter (fun l => m < ln_no l) (pre ++ [l]) = [].
Proof. intros Hm. apply filter_none. intros x Hx. pose proof (prefix_bounds _ _ prefix_snoc Hx) as Hb. rewrite len_snoc in Hb. lia. Qed.

Lemma match_step :
  subs l <> [] -> bool_decide (max_count options = Some (len (hits pre))) = false ->
  next_ok (grep_line bytes options line_no from (ln_content l) (ln_end l) s).
Proof.
  intros Hs Hd. unfold next_ok, grep_line. rewrite take_line_subs, (go_done _ _ _ _ Hok), Hd, bool_decide_eq_false_2 by done. cbn [negb andb].
  rewrite drain_ring_ok. cbn [mbind res_bind]. unfold line_event. rewrite <- Hstart, Htext. cbn [expect mbind res_bind].
  eexists _, (line_no + after_context options). split; [done|].
  assert (hits (pre ++ [l]) = hits pre ++ [line_no]) as Hhits by (by rewrite counted_snoc, Hd, bool_decide_eq_false_2, Hno by done).
  split; cbn; rewrite ?Hhits, ?len_snoc.
  - rewrite omap_app, omap_match, (go_out _ _ _ _ Hok), <- app_assoc by done. do 2 f_equal. cbn. unfold shown.
    rewrite bool_decide_eq_true_2; [by rewrite Hno|]. rewrite Hno, elem_of_app, elem_of_cons. tauto.
  - done.
  - rewrite late_none by (unfold line_no; lia). done.
  - unfold line_no. lia.
  - by rewrite (go_matched _ _ _ _ Hok), len_app.
  - by rewrite (go_matched _ _ _ _ Hok), len_app.
  - intros hit [Hin|Hin%list_elem_of_singleton]%elem_of_app; [|lia]. pose proof (counted_bounds _ _ Hpre Hin). unfold line_no. lia.
  - right. exists line_no. split; [|done]. rewrite elem_of_app, elem_of_cons. tauto.
Qed.

Section quiet.
Context (Hquiet : subs l = [] \/ bool_decide (max_count options = Some (len (hits pre))) = true).

Lemma quiet_hits : hits (pre ++ [l]) = hits pre.
Proof. rewrite counted_snoc. destruct Hquiet as [->| ->]; [by rewrite bool_decide_eq_true_2|by rewrite orb_true_r]. Qed.

Lemma quiet_line :
  grep_line bytes options line_no from (ln_content l) (ln_end l) s =
    let finder := filter (fun m => ln_content l + 1 <= pm_start m) matches in
    if 0 <? gs_after s then
      Ok {| gs_out := gs_out s ++ [{| le_line := line_no; le_kind := KContext; le_offset := from; le_text := ln_text l; le_submatches := subs l |}];
            gs_finder := finder; gs_ring := gs_ring s; gs_after := gs_after s - 1; gs_matched := gs_matched s; gs_done := gs_done s |}
    else Ok {| gs_out := gs_out s; gs_finder := finder;
      gs_ring := if 0 <? before_context options
        then (if len (gs_ring s) =? before_context options then tail (gs_ring s) else gs_ring s) ++ [(line_no, from, ln_end l)] else gs_ring s;
      gs_after := gs_after s; gs_matched := gs_matched s; gs_done := gs_done s |}.
Proof.
  unfold grep_line. rewrite take_line_subs, (go_done _ _ _ _ Hok).
  assert (negb (bool_decide (subs l = [])) && negb (bool_decide (max_count options = Some (len (hits pre)))) = false) as ->
    by (destruct Hquiet as [->| ->]; [by rewrite bool_decide_eq_true_2|apply andb_false_r]).
  destruct (0 <? gs_after s).
  - unfold line_event. rewrite <- Hstart, Htext. done.
  - by destruct (0 <? before_context options).
Qed.

(** The ring keeps the last lines that may still become context. *)
Lemma ring_step :
  cover <= len pre ->
  (if 0 <? before_context options
   then (if len (gs_ring s) =? before_context options then tail (gs_ring s) else gs_ring s) ++ [(line_no, from, ln_end l)] else gs_ring s) =
  triple_of <$> filter (fun x => N.max cover (len (pre ++ [l]) - before_context options) < ln_no x) (pre ++ [l]).
Proof.
  intros Hc. rewrite (go_ring _ _ _ _ Hok), len_snoc, (filter_after pre _ Hpre), (filter_after (pre ++ [l]) _ prefix_snoc).
  destruct (N.ltb_spec 0 (before_context options)) as [Hb|Hb].
  - rewrite drop_app_le by (unfold len in *; lia). rewrite fmap_app. assert (triple_of <$> [l] = [(line_no, from, ln_end l)]) as -> by (cbn; unfold triple_of; by rewrite Hno, Hstart). f_equal.
    set (m := N.max cover (len pre - before_context options)).
    assert (len (triple_of <$> drop (N.to_nat m) pre) = len pre - m) as -> by (unfold len; rewrite length_fmap, length_drop; unfold len in *; lia).
    destruct (N.eqb_spec (len pre - m) (before_context options)) as [E|E].
    + replace (N.to_nat (N.max cover (len pre + 1 - before_context options))) with (1 + N.to_nat m)%nat by lia.
      rewrite <- (skipn_skipn 1 (N.to_nat m) pre). by destruct (drop (N.to_nat m) pre).
    + do 2 f_equal. lia.
  - rewrite !drop_ge; [done|rewrite length_app; cbn; unfold len in *; lia|unfold len in *; lia].
Qed.

Lemma quiet_step : next_ok (grep_line bytes options line_no from (ln_content l) (ln_end l) s).
Proof.
  unfold next_ok. rewrite quiet_line, (go_after _ _ _ _ Hok). cbv zeta.
  assert (ln_no l ∉ hits pre) as Hnot by (intros Hin%(counted_bounds _ _ Hpre); unfold line_no in Hno; lia).
  destruct (N.ltb_spec 0 (cover - len pre)) as [Hc|Hc]; eexists _, cover; (split; [done|]); split; cbn; rewrite ?quiet_hits, ?len_snoc.
  - rewrite omap_app, (go_out _ _ _ _ Hok). f_equal. cbn. unfold shown.
    rewrite bool_decide_eq_false_2, near_covered by (done || (rewrite Hno; unfold line_no; lia)). by rewrite Hno, Hstart.
  - done.
  - rewrite late_none by lia. rewrite (go_ring _ _ _ _ Hok), filter_none; [done|]. intros x Hx. pose proof (prefix_bounds _ _ Hpre Hx). lia.
  - lia.
  - exact (go_matched _ _ _ _ Hok).
  - exact (go_done _ _ _ _ Hok).
  - exact (go_cover _ _ _ _ Hok).
  - exact (go_covered _ _ _ _ Hok).
  - rewrite omap_app, (go_out _ _ _ _ Hok). cbn. unfold shown.
    rewrite bool_decide_eq_false_2, near_uncovered by (done || (rewrite Hno; unfold line_no; lia)). by rewrite app_nil_r.
  - done.
  - rewrite ring_step by lia. by rewrite len_snoc.
  - lia.
  - exact (go_matched _ _ _ _ Hok).
  - exact (go_done _ _ _ _ Hok).
  - exact (go_cover _ _ _ _ Hok).
  - exact (go_covered _ _ _ _ Hok).
Qed.
End quiet.

Lemma line_step : next_ok (grep_line bytes options line_no from (ln_content l) (ln_end l) s).
Proof.
  destruct (bool_decide (max_count options = Some (len (hits pre)))) eqn:Hd; [apply quiet_step; by right|].
  destruct (decide (subs l = [])); [apply quiet_step; by left|by apply match_step].
Qed.
End step.

(** ** The loop *)

Lemma quiet_rest pre rest :
  Forall (fun l => subs l = [] \/ bool_decide (max_count options = Some (len (hits pre))) = true) rest -> hits (pre ++ rest) = hits pre.
Proof.
  revert pre. induction rest as [|l rest IH]; intros pre Hq; [by rewrite app_nil_r|]. apply Forall_cons in Hq as [Hl Hq].
  pose proof (quiet_hits pre l Hl) as E. rewrite cons_middle, app_assoc, IH; [exact E|]. by rewrite E.
Qed.

Lemma number_lines_start no start texts l : l ∈ number_lines no start texts -> start <= ln_start l.
Proof.
  revert no start. induction texts as [|text texts IH]; intros no start; cbn [number_lines]; [by intros ?%elem_of_nil|].
  intros [->|H]%elem_of_cons; [done|]. apply IH in H. lia.
Qed.

(** Once nothing can be shown any more the loop may stop. *)
Lemma stop_ok pre from cover s pos :
  grep_ok pre from cover s -> prefix_ok pre -> (pos < len bytes -> from = pos) -> pos <= len bytes ->
  gs_done s = true \/ gs_finder s = [] \/ len bytes <= pos -> cover <= len pre \/ len bytes <= pos ->
  reference_lines matches options (pre ++ rest_lines bytes (len pre) pos) = gs_out s.
Proof.
  intros Hok Hpre Hfrom Hpos Hstop Hcover. destruct (decide (pos < len bytes)) as [Hlt|Hge].
  2: { assert (pos = len bytes) as -> by lia. rewrite rest_lines_end, app_nil_r. symmetry. exact (go_out _ _ _ _ Hok). }
  specialize (Hfrom Hlt). subst from. unfold reference_lines.
  assert (hits (pre ++ rest_lines bytes (len pre) pos) = hits pre) as ->.
  { apply quiet_rest, Forall_forall. intros l Hl. apply number_lines_start in Hl. destruct Hstop as [Hd|[Hf|]]; [right| |lia].
    - by rewrite <- (go_done _ _ _ _ Hok).
    - left. unfold line_subs. rewrite filter_none; [done|]. intros m Hm Hin. rewrite (go_finder _ _ _ _ Hok) in Hf.
      assert (m ∈ filter (fun m => pos <= pm_start m) matches) as Hx by (apply list_elem_of_filter; split; [lia|done]).
      rewrite Hf in Hx. by apply elem_of_nil in Hx. }
  rewrite omap_app, (go_out _ _ _ _ Hok), (omap_none _ (rest_lines _ _ _)); [by rewrite app_nil_r|].
  intros l Hl%number_lines_no. unfold shown. rewrite bool_decide_eq_false_2, (near_uncovered _ _ _ _ Hok); [done|lia|].
  intros Hin%(counted_bounds _ _ Hpre). lia.
Qed.

Lemma grep_loop_ok fuel pre from cover s pos :
  grep_ok pre from cover s -> prefix_ok pre -> (pos < len bytes -> from = pos) -> pos <= len bytes -> len bytes - pos < N.of_nat fuel ->
  grep_loop fuel bytes options (len pre) pos s = Ok (reference_lines matches options (pre ++ rest_lines bytes (len pre) pos)).
Proof.
  revert pre from cover s pos. induction fuel as [|fuel IH]; intros pre from cover s pos Hok Hpre Hfrom Hpos Hfuel; [lia|]. cbn [grep_loop].
  destruct (N.ltb_spec pos (len bytes)) as [Hlt|Hge].
  2: { f_equal. symmetry. eapply stop_ok; [exact Hok|exact Hpre|exact Hfrom|exact Hpos|tauto|tauto]. }
  specialize (Hfrom Hlt). subst from. pose proof (rest_lines_step bytes (len pre) pos Hlt) as H.
  destruct (match memchr_newline _ with Some _ => _ | None => _ end) as [content_end span_end].
  destruct H as (l & -> & Hno & Hstart & <- & <- & Hc & He & Hs & Hlast & Htext).
  assert (get_range bytes (ln_start l) (ln_end l) = Some (ln_text l)) as Htext2 by (by rewrite Hstart).
  destruct (line_step pre pos cover s Hok Hpre l Hno Hstart ltac:(lia) ltac:(lia) Htext2) as (s' & cover' & -> & Hok'). cbn [mbind res_bind].
  assert (prefix_ok (pre ++ [l])) as Hpre' by exact (prefix_snoc pre pos 0 Hpre l Hno Hstart ltac:(lia) ltac:(lia) Htext2). rewrite cons_middle, app_assoc.
  replace (len pre + 1) with (len (pre ++ [l])) by (by rewrite len_app).
  assert (ln_end l < len bytes -> ln_content l + 1 = ln_end l) as Hfrom' by lia.
  destruct ((gs_done s' || bool_decide (gs_finder s' = [])) && (gs_after s' =? 0)) eqn:E; [|apply (IH _ _ _ _ _ Hok' Hpre' Hfrom'); lia].
  apply andb_prop in E as [E1 E2%N.eqb_eq]. f_equal. symmetry. eapply stop_ok; [exact Hok'|exact Hpre'|exact Hfrom'|lia| |].
  - apply orb_prop in E1 as [->|E1%bool_decide_eq_true]; [by left|by right; left].
  - rewrite (go_after _ _ _ _ Hok') in E2. lia.
Qed.

Lemma grep_matches_ok : grep_matches bytes matches options = Ok (reference_lines matches options (lines_of bytes)).
Proof.
  unfold grep_matches. rewrite bool_decide_eq_false_2 by done.
  assert (hits [] = []) as E by (unfold counted, limit; destruct (max_count options); [apply take_nil|done]).
  apply (grep_loop_ok _ [] 0 0 _ 0); [|split; [done|constructor]|done|lia|unfold len; lia].
  split; rewrite ?E; cbn; [done|by rewrite filter_all by lia|done..| | |by left].
  - symmetry. by apply bool_decide_eq_false_2.
  - by intros hit ?%elem_of_nil.
Qed.
End loop.

(** ** Whether any line matches *)

(** A place of the document that belongs to a line. *)
Definition in_lines (bytes : list N) (at_ : N) : Prop :=
  at_ < len bytes \/ at_ = len bytes /\ bytes <> [] /\ last bytes <> Some NEWLINE.

Lemma last_line (bytes : list N) pos : pos < len bytes -> last (drop (N.to_nat pos) bytes) = last bytes.
Proof.
  intros H. rewrite <- (take_drop (N.to_nat pos) bytes) at 2. rewrite last_app.
  destruct (last (drop (N.to_nat pos) bytes)) eqn:E; [done|]. apply last_None in E. pose proof (len_drop bytes pos) as Hl.
  rewrite E, len_nil in Hl. lia.
Qed.

Lemma line_of_place bytes line_no pos at_ fuel :
  pos <= at_ -> pos < len bytes -> in_lines bytes at_ -> len bytes - pos < N.of_nat fuel ->
  exists l, l ∈ rest_lines bytes line_no pos /\ ln_start l <= at_ <= ln_content l.
Proof.
  revert line_no pos. induction fuel as [|fuel IH]; intros line_no pos Ha Hp Hin Hf; [lia|].
  pose proof (rest_lines_step bytes line_no pos Hp) as H. pose proof (memchr_split (drop (N.to_nat pos) bytes)) as Hm.
  destruct (memchr_newline (drop (N.to_nat pos) bytes)) as [off|];
    destruct H as (l & -> & Hno & Hs & He & Hc & H1 & H2 & H3 & H4 & _).
  - destruct (decide (at_ <= pos + off)); [exists l; split; [left|lia]|].
    destruct (decide (pos + off + 1 < len bytes)) as [Hlt|Hge].
    + destruct (IH (line_no + 1) (pos + off + 1)) as (l' & Hl' & Hb); [lia|done|done|lia|]. exists l'. split; [by right|done].
    + destruct Hin as [|(-> & _ & Hlast)]; [lia|]. contradict Hlast. rewrite <- (last_line bytes pos Hp).
      destruct Hm as (_ & _ & Hl); [intros E; pose proof (len_drop bytes pos) as Hl; rewrite E, len_nil in Hl; lia|].
      rewrite take_ge in Hl; [done|]. rewrite length_drop. unfold len in *. lia.
  - exists l. split; [left|]. destruct Hin as [|(-> & _)]; lia.
Qed.

Lemma place_of_line bytes line_no pos at_ fuel l :
  pos <= len bytes -> l ∈ rest_lines bytes line_no pos -> ln_start l <= at_ <= ln_content l -> len bytes - pos < N.of_nat fuel -> in_lines bytes at_.
Proof.
  revert line_no pos. induction fuel as [|fuel IH]; intros line_no pos Hp Hl Ha Hf; [lia|].
  destruct (decide (pos < len bytes)) as [Hlt|Hge]; [|assert (pos = len bytes) as -> by lia; rewrite rest_lines_end in Hl; by apply elem_of_nil in Hl].
  pose proof (rest_lines_step bytes line_no pos Hlt) as H. pose proof (memchr_split (drop (N.to_nat pos) bytes)) as Hm.
  destruct (memchr_newline (drop (N.to_nat pos) bytes)) as [off|];
    destruct H as (l0 & E & Hno & Hs & He & Hc & H1 & H2 & H3 & H4 & _); rewrite E in Hl; apply elem_of_cons in Hl as [->|Hl].
  - left. lia.
  - by apply (IH (line_no + 1) (pos + off + 1)); [lia| | |lia].
  - unfold in_lines. destruct (decide (at_ < len bytes)); [by left|right]. split_and!; [lia|intros ->; rewrite len_nil in Hlt; lia|].
    rewrite <- (last_line bytes pos Hlt). apply Hm. intros E0. pose proof (len_drop bytes pos) as Hl. rewrite E0, len_nil in Hl. lia.
  - rewrite rest_lines_end in Hl. by apply elem_of_nil in Hl.
Qed.

Lemma has_line_match_ok bytes matches :
  Forall (fun m => pm_start m <= len bytes) matches ->
  has_line_match bytes matches = true <-> exists l, l ∈ lines_of bytes /\ line_subs matches l <> [].
Proof.
  intros Hm. rewrite Forall_forall in Hm.
  assert (forall at_, at_ <= len bytes -> in_lines bytes at_ <-> exists l, l ∈ lines_of bytes /\ ln_start l <= at_ <= ln_content l) as Hplace.
  { intros at_ Ha. split.
    - intros Hin. apply (line_of_place bytes 0 0 at_ (S (length bytes))); [lia| |done|unfold len; lia].
      destruct Hin as [|(_ & Hne & _)]; [lia|]. destruct bytes; [done|]. len_lia.
    - intros (l & Hl & Hb). by apply (place_of_line bytes 0 0 at_ (S (length bytes)) l); [lia| | |unfold len; lia]. }
  assert (has_line_match bytes matches = true <-> exists m, m ∈ matches /\ in_lines bytes (pm_start m)) as ->.
  { unfold has_line_match, in_lines. rewrite andb_true_iff, negb_true_iff, bool_decide_eq_false, existsb_exists. split.
    - intros (Hne & m & Hin%list_elem_of_In & H). exists m. split; [done|]. specialize (Hm m Hin). destruct (N.ltb_spec (pm_start m) (len bytes)); [by left|].
      right. split_and!; [lia|done|]. cbn [orb] in H. destruct (last bytes) as [b|]; [|done]. intros [= ->]. done.
    - intros (m & Hin & [Hlt|(E & Hne & Hlast)]).
      + split; [intros ->; rewrite len_nil in Hlt; lia|]. exists m. split; [by apply list_elem_of_In|]. by destruct (N.ltb_spec (pm_start m) (len bytes)); [|lia].
      + split; [done|]. exists m. split; [by apply list_elem_of_In|]. destruct (last bytes) as [b|] eqn:El; [|by apply last_None in El].
        destruct (N.eqb_spec b NEWLINE) as [->|]; [done|apply orb_true_r]. }
  split.
  - intros (m & Hin & H). apply Hplace in H as (l & Hl & Hb); [|by apply Hm]. exists l. split; [done|]. intros E. unfold line_subs in E. apply fmap_nil_inv in E.
    assert (m ∈ filter (fun m => ln_start l <= pm_start m <= ln_content l) matches) as Hx by (apply list_elem_of_filter; done). rewrite E in Hx. by apply elem_of_nil in Hx.
  - intros (l & Hl & Hs). destruct (filter (fun m => ln_start l <= pm_start m <= ln_content l) matches) as [|m ms] eqn:E.
    + contradict Hs. unfold line_subs. by rewrite E.
    + assert (m ∈ filter (fun m => ln_start l <= pm_start m <= ln_content l) matches) as Hx by (rewrite E; left).
      apply list_elem_of_filter in Hx as [Hb Hin]. exists m. split; [done|]. apply Hplace; [by apply Hm|eauto].
Qed.

(** ** Properties *)

(** C30: for matches in order, [grep_matches] ends and shows exactly the lines of
    the reference, with their numbers, offsets, texts and clamped matches: the
    first [max_count] lines with a match and the lines of context around them.
    [has_line_match] holds when some line has a match. *)
Theorem grep_matches_reference bytes matches options :
  starts_sorted matches -> len bytes < 2 ^ 63 -> Forall (fun m => pm_start m <= len bytes) matches ->
  grep_matches bytes matches options = Ok (reference_lines matches options (lines_of bytes)) /\
  (has_line_match bytes matches = true <-> exists l, l ∈ lines_of bytes /\ line_subs matches l <> []).
Proof.
  intros Hs Hb Hm. split; [|by apply has_line_match_ok]. destruct (decide (max_count options = Some 0)) as [E|E]; [|by apply grep_matches_ok].
  unfold grep_matches. rewrite bool_decide_eq_true_2 by done. f_equal. symmetry. apply omap_none. intros l _.
  unfold shown, near, counted, limit. rewrite E. change (N.to_nat 0) with 0%nat. rewrite take_0. done.
Qed.

(** ** Witness *)

(** Five lines with matches in the second and the last, which has no newline. *)
Definition demo_grep_bytes : list N := [65; 10; 66; 67; 10; 10; 68; 10; 69].
Definition demo_grep_matches : list PatternMatch := [
  {| pm_pattern := 0; pm_start := 2; pm_end := 3 |}; {| pm_pattern := 1; pm_start := 3; pm_end := 6 |}; {| pm_pattern := 0; pm_start := 8; pm_end := 9 |}].
Definition demo_grep_options : MatchOptions := {| before_context := 1; after_context := 0; max_count := None |}.

Lemma grep_matches_reference_witness :
  (grep_matches demo_grep_bytes demo_grep_matches demo_grep_options = Ok (reference_lines demo_grep_matches demo_grep_options (lines_of demo_grep_bytes)) /\
   (has_line_match demo_grep_bytes demo_grep_matches = true <-> exists l, l ∈ lines_of demo_grep_bytes /\ line_subs demo_grep_matches l <> [])) /\
  (fun e => (le_line e, le_kind e, le_submatches e)) <$> reference_lines demo_grep_matches demo_grep_options (lines_of demo_grep_bytes) =
    [(1, KContext, []); (2, KMatch, [{| sm_start := 0; sm_end := 1 |}; {| sm_start := 1; sm_end := 2 |}]); (4, KContext, []);
     (5, KMatch, [{| sm_start := 0; sm_end := 1 |}])].
Proof.
  split; [|vm_compute; reflexivity]. apply (grep_matches_reference demo_grep_bytes demo_grep_matches demo_grep_options).
  - repeat (constructor; cbn; try lia).
  - reflexivity.
  - apply Forall_forall. intros m Hm. change (len demo_grep_bytes) with 9. revert m Hm. apply Forall_forall. by repeat constructor.
Defined.
