(* ===== verification/SegmentList.v ===== *)
(** * The root of an index (crates/index/src/segment.rs)

    [segments.bin] names the source and the segments of an index.  Reading it
    keeps a failing store, a missing root, a root of a newer program and an
    unreadable root apart, since only some of them may be rebuilt over; the
    blobs it references are the ones garbage collection must spare; and the
    bounds of a segment tell whether a key prefix can occur in it. *)

From S2P Require Import Prelude BitPack Bytes Trigrams SparseGrams Format PackBuild.

Definition INDEX_FORMAT : N := 20.

(** Identifiers, hashes and keys are the bytes of their strings. *)
Record SegmentMeta : Type := {
  seg_id : list N; seg_doc_count : N; block_count : N; terms_fst_len : N; terms_fst_hash : list N; terms_tail_hash : list N;
  postings_len : N; postings_hash : list N; postings_data_len : N; postings_tail_hash : list N; docs_len : N; docs_hash : list N;
  min_key : list N; max_key : list N; dead_hash : list N; dead_len : N; failed_source_count : N; seg_packs : list PackMeta;
}.

Inductive SourceIdentity : Type :=
  | SLocal (prefix : list N)
  | SS3 (endpoint bucket prefix : list N).

#[export] Instance SourceIdentity_eq_dec : EqDecision SourceIdentity.
Proof. solve_decision. Defined.

Record SegmentList : Type := { sl_format : N; sl_source : SourceIdentity; sl_strategy : Strategy; sl_segments : list SegmentMeta }.
Record SegmentListPayload : Type := { lp_source : SourceIdentity; lp_strategy : Strategy; lp_segments : list SegmentMeta }.

Definition SLASH : N := 47.
Definition ends_with_slash (s : list N) : bool := bool_decide (last s = Some SLASH).
Definition is_empty (s : list N) : bool := bool_decide (s = []).
(** [str::starts_with] *)
Definition starts_with (s prefix : list N) : bool := bool_decide (take (length prefix) s = prefix).

(** [SourceIdentity::validate] *)
Definition validate_source (source : SourceIdentity) : res unit :=
  match source with
  | SLocal prefix =>
      ensure (negb (is_empty prefix) && ends_with_slash prefix) "local source identity must be a non-empty directory prefix"
  | SS3 endpoint bucket prefix =>
      ensure (negb (is_empty endpoint)) "S3 source endpoint is empty";;
      ensure (negb (is_empty bucket)) "S3 source bucket is empty";;
      ensure (is_empty prefix || ends_with_slash prefix) "S3 source prefix must be empty or end with /"
  end.

(** [SourceIdentity::can_search] *)
Definition can_search (source requested : SourceIdentity) : bool :=
  match source, requested with
  | SLocal prefix, SLocal requested => starts_with requested prefix
  | SS3 endpoint bucket prefix, SS3 requested_endpoint requested_bucket requested_prefix =>
      bool_decide (endpoint = requested_endpoint) && bool_decide (bucket = requested_bucket) && starts_with requested_prefix prefix
  | _, _ => false
  end.

Definition is_sha256 (value : list N) : bool :=
  (len value =? 64) && forallb (fun byte => ((48 <=? byte) && (byte <=? 57)) || ((97 <=? byte) && (byte <=? 102))) value.

(** One pass of the loop of [parse_segment_list]. *)
Definition check_segment (segment_ids : list (list N)) (segment : SegmentMeta) : res (list (list N)) :=
  ensure (is_sha256 (seg_id segment)) "segment ID is not a SHA-256 hash";;
  ensure (is_sha256 (terms_fst_hash segment) && is_sha256 (postings_hash segment) && is_sha256 (postings_tail_hash segment) &&
          is_sha256 (docs_hash segment)) "segment blob hash is not a SHA-256 hash";;
  ensure (postings_data_len segment <=? postings_len segment) "postings data region exceeds its blob";;
  ensure (is_empty (terms_tail_hash segment) || is_sha256 (terms_tail_hash segment)) "segment term tail hash is invalid";;
  ensure (negb (bool_decide (seg_id segment ∈ segment_ids))) "segment ID is duplicated";;
  ensure (bytes_leb (min_key segment) (max_key segment)) "segment key bounds are reversed";;
  ensure ((is_empty (dead_hash segment) && (dead_len segment =? 0)) || (is_sha256 (dead_hash segment) && (0 <? dead_len segment)))
    "segment dead-set metadata is invalid";;
  ensure (forallb (fun pack => is_sha256 (pm_hash pack) && (0 <? pm_len pack)) (seg_packs segment)) "segment pack metadata is invalid";;
  Ok (seg_id segment :: segment_ids).

(** The errors of [parse_segment_list]; [IndexFormatMismatch] is told apart. *)
Inductive ParseError : Type :=
  | FormatMismatch (found : N)
  | Malformed (msg : string).
Definition is_newer_format (error : ParseError) : bool :=
  match error with FormatMismatch found => INDEX_FORMAT <? found | Malformed _ => false end.

Inductive RootState : Type :=
  | Loaded (list : SegmentList)
  | Absent
  | Unreadable (error : ParseError) (bytes : list N).

Section root.
(** [postcard]: the leading format, and the payloads after it. *)
Context (take_format : list N -> option (N * list N)).
Context (decode_payload : list N -> option SegmentListPayload) (take_source : list N -> option (SourceIdentity * list N)).

Definition parse_payload (format : N) (rest : list N) : res SegmentList :=
  payload ← with_context (decode_payload rest) "segments.bin payload unreadable";
  validate_source (lp_source payload);;
  _ ← foldM check_segment [] (lp_segments payload);
  Ok {| sl_format := format; sl_source := lp_source payload; sl_strategy := lp_strategy payload; sl_segments := lp_segments payload |}.

Definition parse_segment_list (bytes : list N) : SegmentList + ParseError :=
  match take_format bytes with
  | None => inr (Malformed "segments.bin format unreadable")
  | Some (format, rest) =>
      if format =? INDEX_FORMAT then
        match parse_payload format rest with Ok list => inl list | Err msg | Panic msg => inr (Malformed msg) end
      else inr (FormatMismatch format)
  end.

Definition parse_root_source (bytes : list N) : option SourceIdentity :=
  '(format, rest) ← take_format bytes;
  if (12 <=? format) && (format <=? INDEX_FORMAT) then
    '(source, _) ← take_source rest;
    match validate_source source with Ok _ => Some source | _ => None end
  else None.

(** [load_segment_list], on what [get_versioned("segments.bin")] returned. *)
Definition load_segment_list (root : res (option (list N * list N))) : res (RootState * option (list N)) :=
  root ← root;
  match root with
  | None => Ok (Absent, None)
  | Some (bytes, version) =>
      match parse_segment_list bytes with
      | inl list => Ok (Loaded list, Some version)
      | inr error => if is_newer_format error then Err "built by a newer seagrep" else Ok (Unreadable error bytes, Some version)
      end
  end.

(** The source check of [update_index]: an index of another source is not
    overwritten unless a rebuild was asked for. *)
Definition check_root_source (source : SourceIdentity) (rebuild : bool) (root : RootState) : res unit :=
  match root with
  | Loaded list => ensure (rebuild || bool_decide (sl_source list = source)) "index was built for another source"
  | Unreadable _ bytes =>
      match parse_root_source bytes with
      | Some old_source => ensure (rebuild || bool_decide (old_source = source)) "index was built for another source"
      | None => Ok tt
      end
  | Absent => Ok tt
  end.
End root.

(** ** Blobs *)

Definition segment_blob (seg_id name : list N) : list N := [115; 101; 103; 109; 101; 110; 116; 115; 47] ++ seg_id ++ [SLASH] ++ name.
Definition TERMS_FST : list N := [116; 101; 114; 109; 115; 46; 102; 115; 116].
Definition POSTINGS_BIN : list N := [112; 111; 115; 116; 105; 110; 103; 115; 46; 98; 105; 110].
Definition DOCS_BIN : list N := [100; 111; 99; 115; 46; 98; 105; 110].
Definition SEGMENTS_BIN : list N := [115; 101; 103; 109; 101; 110; 116; 115; 46; 98; 105; 110].
Definition SEGMENTS_LOCK : list N := [115; 101; 103; 109; 101; 110; 116; 115; 46; 108; 111; 99; 107].
Definition PACKS : list N := [112; 97; 99; 107; 115; 47].
(** [dead-{hash}.bin] *)
Definition dead_bin (hash : list N) : list N := [100; 101; 97; 100; 45] ++ hash ++ [46; 98; 105; 110].

Definition meta_blobs (meta : SegmentMeta) : list (list N) :=
  [segment_blob (seg_id meta) TERMS_FST; segment_blob (seg_id meta) POSTINGS_BIN; segment_blob (seg_id meta) DOCS_BIN] ++
  (if is_empty (dead_hash meta) then [] else [segment_blob (seg_id meta) (dead_bin (dead_hash meta))]) ++
  (fmap (M := list) (fun pack => pack_blob (pm_hash pack)) (seg_packs meta)).

Definition garbage_step (kept : list (list N)) (deleted : list (list N)) (blob : list N) : list (list N) :=
  if bool_decide (blob ∈ kept) || bool_decide (blob ∈ deleted) then deleted else deleted ++ [blob].

(** [collect_garbage]: the blobs it deletes, in order (a failing delete is
    only reported). *)
Definition collect_garbage (before after : list SegmentMeta) : list (list N) :=
  let kept := concat (fmap (M := list) meta_blobs after) in
  fold_left (fun deleted meta => fold_left (garbage_step kept) (meta_blobs meta) deleted) before [].

(** The sweep of an unreadable index's blobs at the end of [update_index]. *)
Definition sweep_stale (inventory : list (list N)) (published : list SegmentMeta) : list (list N) :=
  let kept := concat (fmap (M := list) meta_blobs published) in
  filter (fun blob => blob <> SEGMENTS_BIN /\ blob <> SEGMENTS_LOCK /\ starts_with blob PACKS = false /\ blob ∉ kept) inventory.

(** ** Key prefixes *)

(** [while let Some(&last) = upper.last()], on the reversed bytes. *)
Fixpoint bump_last (reversed : list N) : list N :=
  match reversed with
  | [] => []
  | last :: rest => if last =? 255 then bump_last rest else (last + 1) :: rest
  end.

Definition prefix_overlaps (meta : SegmentMeta) (prefix : list N) : bool :=
  if bytes_ltb (max_key meta) prefix then false
  else
    let upper := rev (bump_last (rev prefix)) in
    is_empty upper || bytes_ltb (min_key meta) upper.

(** ** Tables of a segment *)

Definition pack_end (blocks : list PackBlock) (pack_id : N) : option N :=
  (fun block => wrapping_add U64 (pb_offset block) (compressed_len block)) <$> last (filter (fun block => pack block = pack_id) blocks).

Definition validate_segment_tables (meta : SegmentMeta) (tables : SegmentTables) : res unit :=
  ensure (len (documents tables) =? seg_doc_count meta) "segment document count does not match its metadata";;
  first ← with_context (head (sources tables)) "segment has no sources";
  last_ ← with_context (last (sources tables)) "segment has no sources";
  ensure (bool_decide (key first = min_key meta) && bool_decide (key last_ = max_key meta)) "segment key bounds do not match its source table";;
  let pack_count := match last (blocks tables) with Some block => pack block + 1 | None => 0 end in
  ensure (pack_count =? len (seg_packs meta)) "segment pack count does not match its metadata";;
  foldM (fun _ '(pack_id, pack) =>
    end_ ← with_context (pack_end (blocks tables) pack_id) "segment pack has no blocks";
    ensure (end_ =? pm_len pack) "segment pack length does not match its blocks") tt (enumerate (seg_packs meta)).

(** ** Well-formed roots *)

Definition source_ok (source : SourceIdentity) : Prop :=
  match source with
  | SLocal prefix => prefix <> [] /\ last prefix = Some SLASH
  | SS3 endpoint bucket prefix => endpoint <> [] /\ bucket <> [] /\ (prefix = [] \/ last prefix = Some SLASH)
  end.

Record segment_ok (s : SegmentMeta) : Prop := {
  so_id : is_sha256 (seg_id s) = true;
  so_hashes : Forall (fun hash => is_sha256 hash = true) [terms_fst_hash s; postings_hash s; postings_tail_hash s; docs_hash s];
  so_postings : postings_data_len s <= postings_len s;
  so_tail : terms_tail_hash s = [] \/ is_sha256 (terms_tail_hash s) = true;
  so_keys : bytes_leb (min_key s) (max_key s) = true;
  so_dead : dead_hash s = [] /\ dead_len s = 0 \/ is_sha256 (dead_hash s) = true /\ 0 < dead_len s;
  so_packs : Forall (fun pack => is_sha256 (pm_hash pack) = true /\ 0 < pm_len pack) (seg_packs s);
}.

Definition list_ok (source : SourceIdentity) (segments : list SegmentMeta) : Prop :=
  source_ok source /\ Forall segment_ok segments /\ NoDup (seg_id <$> segments).

Lemma ensure_iff b msg : ensure b msg = Ok tt <-> b = true.
Proof. by destruct b. Qed.
Lemma ensure_bind_iff {A} b msg (r : res A) x : mbind (fun _ : unit => r) (ensure b msg) = Ok x <-> b = true /\ r = Ok x.
Proof. destruct b; cbn; intuition congruence. Qed.

Lemma validate_source_iff source : validate_source source = Ok tt <-> source_ok source.
Proof.
  unfold validate_source, source_ok, ends_with_slash, is_empty. destruct source as [prefix|endpoint bucket prefix];
    rewrite ?ensure_bind_iff, ensure_iff, ?andb_true_iff, ?orb_true_iff, ?negb_true_iff, ?bool_decide_eq_false, ?bool_decide_eq_true; tauto.
Qed.

Lemma forallb_Forall {A} (P : A -> Prop) (f : A -> bool) l : (forall x, f x = true <-> P x) -> forallb f l = true <-> Forall P l.
Proof. intros H. induction l as [|x l IH]; cbn; [by split; [constructor|]|]. by rewrite andb_true_iff, IH, H, Forall_cons. Qed.

Lemma check_segment_iff ids s ids' : check_segment ids s = Ok ids' <-> segment_ok s /\ (seg_id s ∉ ids) /\ ids' = (seg_id s :: ids).
Proof.
  unfold check_segment, is_empty. rewrite !ensure_bind_iff, !andb_true_iff, !orb_true_iff, !andb_true_iff, negb_true_iff, bool_decide_eq_false,
    !bool_decide_eq_true, !N.leb_le, N.eqb_eq, N.ltb_lt.
  rewrite (forallb_Forall (fun pack => is_sha256 (pm_hash pack) = true /\ 0 < pm_len pack)) by (intros; by rewrite andb_true_iff, N.ltb_lt).
  split.
  - intros (H1 & [[[H2 H3] H4] H5] & H6 & H7 & H8 & H9 & H10 & H11 & [= <-]). split; [|done]. split; try done. by repeat constructor.
  - intros ([H1 H2 H3 H4 H5 H6 H7] & H8 & ->). rewrite !Forall_cons in H2. tauto.
Qed.

Lemma check_segments_iff ids segments :
  NoDup ids ->
  (exists ids', foldM check_segment ids segments = Ok ids') <-> Forall segment_ok segments /\ NoDup (ids ++ (seg_id <$> segments)).
Proof.
  revert ids. induction segments as [|s segments IH]; intros ids Hids; cbn [foldM fmap list_fmap].
  { rewrite app_nil_r. split; [done|]. intros _. by exists ids. }
  rewrite Forall_cons. destruct (check_segment ids s) as [ids1|e|w] eqn:E; cbn [mbind res_bind].
  - apply check_segment_iff in E as (Hs & Hid & ->). rewrite (IH (seg_id s :: ids)) by (by constructor).
    rewrite <- Permutation_middle. cbn [app]. tauto.
  - split; [by intros [? [=]]|]. intros ([Hs _] & Hnd). assert (check_segment ids s = Ok (seg_id s :: ids)) as H'; [|congruence].
    apply check_segment_iff. split_and!; [done| |done]. intros Hin. apply NoDup_app in Hnd as (_ & Hdis & _). apply (Hdis _ Hin). left.
  - split; [by intros [? [=]]|]. intros ([Hs _] & Hnd). assert (check_segment ids s = Ok (seg_id s :: ids)) as H'; [|congruence].
    apply check_segment_iff. split_and!; [done| |done]. intros Hin. apply NoDup_app in Hnd as (_ & Hdis & _). apply (Hdis _ Hin). left.
Qed.

(** ** Key prefixes *)

(** The smallest string above every string with the prefix, or none. *)
Fixpoint prefix_upper (prefix : list N) : list N :=
  match prefix with
  | [] => []
  | x :: prefix => match prefix_upper prefix with [] => if x =? 255 then [] else [x + 1] | upper => x :: upper end
  end.

Lemma bump_last_snoc l x : bump_last (l ++ [x]) = match bump_last l with [] => if x =? 255 then [] else [x + 1] | u => u ++ [x] end.
Proof. induction l as [|y l IH]; cbn [app bump_last]; [done|]. destruct (y =? 255); [exact IH|done]. Qed.
Lemma rev_bump_last prefix : rev (bump_last (rev prefix)) = prefix_upper prefix.
Proof.
  induction prefix as [|x prefix IH]; [done|]. cbn [rev prefix_upper]. rewrite bump_last_snoc, <- IH.
  destruct (bump_last (rev prefix)) as [|y l] eqn:E; [by destruct (x =? 255)|]. rewrite rev_app_distr. cbn [rev app].
  destruct (rev l ++ [y]) eqn:E2; [by apply app_nil in E2 as [_ ?]|done].
Qed.

Lemma bytes_ltb_cons x y a b : bytes_ltb (x :: a) (y :: b) = if x =? y then bytes_ltb a b else x <? y.
Proof.
  unfold bytes_ltb. cbn [bytes_leb]. destruct (N.eqb_spec x y) as [->|Hne].
  - f_equal. f_equal. apply bool_decide_ext. split; [by intros [= ->]|by intros ->].
  - rewrite bool_decide_eq_false_2 by congruence. apply andb_true_r.
Qed.
Lemma starts_with_cons y k x p : starts_with (y :: k) (x :: p) = (y =? x) && starts_with k p.
Proof.
  unfold starts_with. cbn [length take firstn]. destruct (N.eqb_spec y x) as [->|Hne]; cbn [andb].
  - apply bool_decide_ext. split; [by intros [= ->]|by intros ->].
  - apply bool_decide_eq_false_2. congruence.
Qed.

Lemma prefix_upper_spec prefix k :
  Forall (fun x => x < 256) k -> bytes_leb prefix k = true ->
  starts_with k prefix = is_empty (prefix_upper prefix) || bytes_ltb k (prefix_upper prefix).
Proof.
  revert k. induction prefix as [|x p IH]; intros k Hk Hle; [done|]. destruct k as [|y k]; [done|]. apply Forall_cons in Hk as [Hy Hk].
  rewrite starts_with_cons. cbn [bytes_leb prefix_upper] in *. destruct (N.eqb_spec x y) as [->|Hne].
  - rewrite N.eqb_refl, (IH k Hk Hle). destruct (prefix_upper p) as [|u us]; cbn [andb is_empty].
    + destruct (y =? 255); [done|]. rewrite bytes_ltb_cons. destruct (N.eqb_spec y (y + 1)); [lia|]. symmetry. apply orb_true_intro. right. lia.
    + rewrite bytes_ltb_cons, N.eqb_refl. done.
  - apply N.ltb_lt in Hle. destruct (N.eqb_spec y x); [lia|]. cbn [andb]. destruct (prefix_upper p) as [|u us].
    + destruct (N.eqb_spec x 255); [lia|]. rewrite bytes_ltb_cons. cbn [is_empty]. destruct (N.eqb_spec y (x + 1)).
      * symmetry. by destruct k.
      * symmetry. change (bool_decide ([x + 1] = [])) with false. apply orb_false_iff. split; [done|lia].
    + rewrite bytes_ltb_cons. destruct (N.eqb_spec y x); [lia|]. symmetry. apply orb_false_iff. split; [done|lia].
Qed.

(** ** Garbage *)

Lemma garbage_fold kept blobs deleted :
  NoDup deleted -> let out := fold_left (garbage_step kept) blobs deleted in
  NoDup out /\ forall blob, blob ∈ out <-> blob ∈ deleted \/ blob ∈ blobs /\ blob ∉ kept.
Proof.
  revert deleted. induction blobs as [|b blobs IH]; intros deleted Hd; cbn [fold_left].
  { split; [done|]. intros blob. rewrite elem_of_nil. tauto. }
  destruct (IH (garbage_step kept deleted b)) as [H1 H2].
  { unfold garbage_step. destruct (_ || _) eqn:E; [done|]. apply orb_false_iff in E as [_ E%bool_decide_eq_false].
    apply NoDup_app. split_and!; [done| |by apply NoDup_singleton]. by intros x Hx ->%list_elem_of_singleton. }
  split; [done|]. intros blob. rewrite H2, elem_of_cons. unfold garbage_step. destruct (_ || _) eqn:E.
  - apply orb_prop in E as [E%bool_decide_eq_true|E%bool_decide_eq_true]; [|naive_solver]. split; [tauto|]. intros [?|[[->|?] ?]]; tauto.
  - apply orb_false_iff in E as [E1%bool_decide_eq_false E2%bool_decide_eq_false]. rewrite elem_of_app, list_elem_of_singleton. naive_solver.
Qed.

Definition references (segments : list SegmentMeta) (blob : list N) : Prop := exists meta, meta ∈ segments /\ blob ∈ meta_blobs meta.

Lemma references_concat segments blob : blob ∈ concat (meta_blobs <$> segments) <-> references segments blob.
Proof.
  unfold references. induction segments as [|m segments IH]; cbn [fmap list_fmap concat]; [split; [by intros ?%elem_of_nil|by intros (m & ?%elem_of_nil & _)]|].
  rewrite elem_of_app, IH. split.
  - intros [H|(m' & Hm & H)]; [exists m; split; [left|done]|exists m'; split; [by right|done]].
  - intros (m' & [->|Hm]%elem_of_cons & H); [by left|right; eauto].
Qed.

Lemma collect_garbage_ok before after :
  NoDup (collect_garbage before after) /\
  forall blob, blob ∈ collect_garbage before after <-> references before blob /\ ~ references after blob.
Proof.
  unfold collect_garbage. set (kept := concat _).
  assert (forall deleted, NoDup deleted ->
    let out := fold_left (fun deleted meta => fold_left (garbage_step kept) (meta_blobs meta) deleted) before deleted in
    NoDup out /\ forall blob, blob ∈ out <-> blob ∈ deleted \/ references before blob /\ blob ∉ kept) as H.
  { induction before as [|m before IH]; intros deleted Hd; cbn [fold_left].
    - split; [done|]. intros blob. unfold references. split; [by left|]. intros [?|[(m & ?%elem_of_nil & _) _]]; done.
    - destruct (garbage_fold kept (meta_blobs m) deleted Hd) as [H1 H2]. destruct (IH _ H1) as [H3 H4]. split; [done|].
      intros blob. rewrite H4, H2. unfold references. split.
      + intros [[?|[? ?]]|[(m' & Hm & ?) ?]]; [by left|right; split; [exists m; split; [left|]|]; done|right; split; [exists m'; split; [by right|]|]; done].
      + intros [?|[(m' & [->|Hm]%elem_of_cons & ?) ?]]; [tauto|tauto|]. right. split; [eauto|done]. }
  destruct (H [] ltac:(constructor)) as [H1 H2]. split; [done|]. intros blob. rewrite H2, elem_of_nil. unfold kept.
  change (fmap (M := list) meta_blobs after) with (meta_blobs <$> after). rewrite references_concat. tauto.
Qed.

(** ** Properties *)

Section root.
Context (take_format : list N -> option (N * list N)).
Context (decode_payload : list N -> option SegmentListPayload) (take_source : list N -> option (SourceIdentity * list N)).

(** The root is one this program wrote, of these contents. *)
Definition current_root (bytes : list N) (list : SegmentList) : Prop :=
  exists rest payload, take_format bytes = Some (INDEX_FORMAT, rest) /\ decode_payload rest = Some payload /\
    list = {| sl_format := INDEX_FORMAT; sl_source := lp_source payload; sl_strategy := lp_strategy payload; sl_segments := lp_segments payload |} /\
    list_ok (lp_source payload) (lp_segments payload).

Lemma parse_segment_list_iff bytes list : parse_segment_list take_format decode_payload bytes = inl list <-> current_root bytes list.
Proof.
  unfold parse_segment_list, current_root. destruct (take_format bytes) as [[format rest]|]; [|naive_solver].
  destruct (N.eqb_spec format INDEX_FORMAT) as [->|Hne]; [|naive_solver]. unfold parse_payload.
  destruct (decode_payload rest) as [payload|] eqn:Ep; cbn [with_context mbind res_bind]; [|naive_solver].
  pose proof (validate_source_iff (lp_source payload)) as Hv. pose proof (check_segments_iff [] (lp_segments payload) ltac:(constructor)) as Hc.
  cbn [app] in Hc. unfold list_ok.
  destruct (validate_source (lp_source payload)) as [[]|e|w]; cbn [mbind res_bind]; [|naive_solver..].
  destruct (foldM check_segment [] (lp_segments payload)) as [ids|e|w]; cbn [mbind res_bind]; [|naive_solver..].
  split; [|naive_solver]. intros [= <-]. exists rest, payload. split_and!; [done..|by apply Hv|by apply Hc; eauto|by apply Hc; eauto].
Qed.

(** C39: loading the root tells its cases apart: it is loaded exactly when the
    store holds a well-formed root of this format, absent exactly when the
    store holds none, refused when the store fails or a newer program wrote
    it, and only otherwise unreadable, with its bytes. *)
Theorem load_segment_list_exact root :
  let loaded := load_segment_list take_format decode_payload root in
  (forall list version, loaded = Ok (Loaded list, version) <->
    exists bytes v, root = Ok (Some (bytes, v)) /\ version = Some v /\ current_root bytes list) /\
  (forall version, loaded = Ok (Absent, version) <-> root = Ok None /\ version = None) /\
  (forall error bytes version, loaded = Ok (Unreadable error bytes, version) ->
    (exists v, root = Ok (Some (bytes, v)) /\ version = Some v) /\ (forall list, ~ current_root bytes list) /\
    forall found rest, take_format bytes = Some (found, rest) -> found <= INDEX_FORMAT) /\
  ((exists e, loaded = Err e) <-> (exists e, root = Err e) \/
    exists bytes v found rest, root = Ok (Some (bytes, v)) /\ take_format bytes = Some (found, rest) /\ INDEX_FORMAT < found).
Proof.
  intros loaded. unfold loaded, load_segment_list. destruct root as [[[bytes v]|]|e|w]; cbn [mbind res_bind]; [|naive_solver..].
  pose proof (parse_segment_list_iff bytes) as Hp. destruct (parse_segment_list take_format decode_payload bytes) as [list|error] eqn:E.
  - split_and!; [|naive_solver|naive_solver|].
    + intros l version. split; [intros [= <- <-]; exists bytes, v; split_and!; [done|done|by apply Hp]|].
      intros (b & v' & [= <- <-] & -> & Hl%Hp). by injection Hl as <-.
    + split; [by intros [? [=]]|]. intros [[? [=]]|(b & v' & found & rest & [= <- <-] & Ht & Hlt)].
      unfold parse_segment_list in E. rewrite Ht in E. destruct (N.eqb_spec found INDEX_FORMAT); [lia|done].
  - assert (is_newer_format error = true <-> exists found rest, take_format bytes = Some (found, rest) /\ INDEX_FORMAT < found) as Hnewer.
    { unfold parse_segment_list in E. destruct (take_format bytes) as [[found rest]|]; [|injection E as <-; naive_solver].
      destruct (N.eqb_spec found INDEX_FORMAT) as [->|Hne]; [|injection E as <-; cbn; rewrite N.ltb_lt; naive_solver].
      destruct (parse_payload _ _ _); [done|..]; injection E as <-; (split; [done|]); intros (f & r & [= <- <-] & ?); lia. }
    assert (forall list, ~ current_root bytes list) as Hno by (intros list Hl%Hp; done).
    destruct (is_newer_format error) eqn:En.
    + pose proof (proj1 Hnewer eq_refl) as (found & rest & Hf & Hlt). split_and!; [|naive_solver|naive_solver|].
      * intros l version. split; [done|]. intros (b & v' & [= <- <-] & _ & Hl). by apply Hno in Hl.
      * split; [|eauto]. intros _. right. by exists bytes, v, found, rest.
    + split_and!; [|naive_solver| |].
      * intros l version. split; [done|]. intros (b & v' & [= <- <-] & _ & Hl). by apply Hno in Hl.
      * intros error' b version [= -> -> <-]. split_and!; [eauto|done|]. intros found rest Hf.
        destruct (N.ltb_spec INDEX_FORMAT found); [|done]. assert (false = true) as [=]. apply Hnewer. eauto.
      * split; [by intros [? [=]]|]. intros [[? [=]]|(b & v' & found & rest & [= <- <-] & Hf)]. assert (false = true) as [=]. apply Hnewer. eauto.
Qed.
End root.

(** The bounds of a segment admit a prefix exactly when some key between
    them has it. *)
Theorem prefix_overlaps_exact meta prefix :
  bytes_leb (min_key meta) (max_key meta) = true -> Forall (fun x => x < 256) prefix -> Forall (fun x => x < 256) (min_key meta) ->
  prefix_overlaps meta prefix = true <->
  exists key, Forall (fun x => x < 256) key /\ starts_with key prefix = true /\
    bytes_leb (min_key meta) key = true /\ bytes_leb key (max_key meta) = true.
Proof.
  intros Hbounds Hprefix Hmin. unfold prefix_overlaps. rewrite rev_bump_last.
  assert (forall a b, bytes_ltb a b = false <-> bytes_leb b a = true) as Hlt.
  { intros a b. rewrite <- not_true_iff_false, bytes_ltb_spec. destruct (bytes_leb_total a b) as [H|H]; split; intros Hx.
    - destruct (decide (a = b)) as [->|]; [done|]. tauto.
    - intros [_ Hne]. apply Hne. by apply bytes_leb_antisym.
    - done.
    - intros [H' Hne]. apply Hne. by apply bytes_leb_antisym. }
  assert (starts_with prefix prefix = true) as Hself by apply bool_decide_eq_true_2, firstn_all.
  assert (forall a, bytes_leb a a = true) as Hrefl by (intros a; by destruct (bytes_leb_total a a)).
  destruct (bytes_ltb (max_key meta) prefix) eqn:Emax.
  - split; [done|]. intros (key & Hk & Hs & _ & Hle). exfalso. apply bytes_ltb_spec in Emax as [Emax Hne].
    assert (bytes_leb prefix key = true) as Hpk.
    { unfold starts_with in Hs. apply bool_decide_eq_true in Hs. rewrite <- (take_drop (length prefix) key), Hs.
      generalize (drop (length prefix) key). clear. intros rest. induction prefix as [|x p IH]; cbn; [done|]. by rewrite N.eqb_refl. }
    apply Hne. apply bytes_leb_antisym; [done|]. by eapply bytes_leb_trans.
  - apply Hlt in Emax. assert (forall a b, bytes_leb a b = true -> is_empty (prefix_upper prefix) || bytes_ltb b (prefix_upper prefix) = true ->
      is_empty (prefix_upper prefix) || bytes_ltb a (prefix_upper prefix) = true) as Hdown.
    { intros a b Hab [->|Hb]%orb_prop; [done|]. apply orb_true_intro. right. apply bytes_ltb_spec in Hb as [Hb Hne]. apply bytes_ltb_spec.
      split; [by eapply bytes_leb_trans|]. intros ->. apply Hne. by apply bytes_leb_antisym. }
    destruct (bytes_leb_total (min_key meta) prefix) as [Hle|Hge].
    + split; [intros _; by exists prefix|]. intros _. apply (Hdown _ prefix Hle). by rewrite <- prefix_upper_spec.
    + split.
      * intros H. rewrite <- prefix_upper_spec in H by done. by exists (min_key meta).
      * intros (key & Hk & Hs & Hmk & _). apply (Hdown _ key Hmk). rewrite <- prefix_upper_spec; [done|done|]. by eapply bytes_leb_trans.
Qed.

(** C38: collecting garbage deletes, once each, exactly the blobs that the
    segments before an update reference and the published ones do not; the
    sweep of an unreadable index spares the root, the packs and every published
    blob. *)
Theorem garbage_spares_published before after inventory :
  (NoDup (collect_garbage before after) /\
   forall blob, blob ∈ collect_garbage before after <-> references before blob /\ ~ references after blob) /\
  forall blob, blob ∈ sweep_stale inventory after <->
    blob ∈ inventory /\ ~ references after blob /\ blob <> SEGMENTS_BIN /\ blob <> SEGMENTS_LOCK /\ starts_with blob PACKS = false.
Proof.
  split; [apply collect_garbage_ok|]. intros blob. unfold sweep_stale. rewrite list_elem_of_filter.
  change (fmap (M := list) meta_blobs after) with (meta_blobs <$> after). rewrite references_concat. tauto.
Qed.

(** ** Witness *)

Definition demo_meta : SegmentMeta := {|
  seg_id := replicate 64 97; seg_doc_count := 1; block_count := 1; terms_fst_len := 1; terms_fst_hash := replicate 64 98; terms_tail_hash := [];
  postings_len := 1; postings_hash := replicate 64 98; postings_data_len := 1; postings_tail_hash := replicate 64 98; docs_len := 1;
  docs_hash := replicate 64 98; min_key := [97; 98]; max_key := [98]; dead_hash := []; dead_len := 0; failed_source_count := 0; seg_packs := [] |}.

Lemma prefix_overlaps_exact_witness :
  (prefix_overlaps demo_meta [97; 99], prefix_overlaps demo_meta [98; 97], prefix_overlaps demo_meta [97; 97]) = (true, false, false) /\
  (prefix_overlaps demo_meta [97; 99] = true <->
   exists key, Forall (fun x => x < 256) key /\ starts_with key [97; 99] = true /\
     bytes_leb (min_key demo_meta) key = true /\ bytes_leb key (max_key demo_meta) = true).
Proof.
  split; [vm_compute; reflexivity|]. apply (prefix_overlaps_exact demo_meta [97; 99]); [reflexivity|by repeat constructor|by repeat constructor].
Defined.
