(* ===== verification/Cache.v ===== *)
(** * The segment cache (crates/index/src/segment/cache.rs)

    A read-through cache of small immutable blobs: a cached file is trusted only
    when its SHA-256 matches, anything else is fetched again, verified and
    written back.  The cache directory is a map from the segment and the name of
    a blob to bytes; another process may have left anything in it. *)

From S2P Require Import Prelude BitPack Bytes Format PackBuild SegmentList.

Abbreviation CacheDir := (gmap (list N * list N) (list N)).

Section cache.
(** [Sha256], [BlobStore::get], and whether a file can be written back. *)
Context (sha256 : list N -> list N) (fetch : list N -> res (option (list N))) (writable : list N * list N -> bool).

Definition sha256_hex (bytes : list N) : list N := hex (sha256 bytes).

Definition read_verified (cache_path : list N * list N) (expected_hash : list N) (cache : CacheDir) : option (list N) :=
  bytes ← cache !! cache_path;
  if bool_decide (sha256_hex bytes = expected_hash) then Some bytes else None.

Definition write_back (cache_path : list N * list N) (bytes : list N) (cache : CacheDir) : CacheDir :=
  if writable cache_path then <[cache_path := bytes]> cache else cache.

Definition cached_bytes (seg_id name expected_hash : list N) (fetch : res (list N)) : ST CacheDir (list N) :=
  let cache_path := (seg_id, name) in
  cached ← gets (read_verified cache_path expected_hash);
  match cached with
  | Some bytes => mret bytes
  | None =>
      bytes ← lift fetch;
      lift (ensure (bool_decide (sha256_hex bytes = expected_hash)) "segment blob failed its SHA-256 check");;
      modify (write_back cache_path bytes);;
      mret bytes
  end.

Definition cached_blob (seg_id name : list N) (expected_len : N) (expected_hash : list N) : ST CacheDir (list N) :=
  bytes ← cached_bytes seg_id name expected_hash
    (found ← fetch (segment_blob seg_id name); with_context found "segment blob missing from the store");
  lift (ensure (len bytes =? expected_len) "segment blob has the wrong length");;
  mret bytes.

(** Whatever the cache holds, a blob has its length and its hash; a store that
    never panics is all that reading it needs. *)
Lemma cached_blob_verified seg_id name expected_len expected_hash :
  (forall blob, no_panic (fetch blob)) ->
  triple (fun _ => True) (cached_blob seg_id name expected_len expected_hash)
    (fun bytes _ => sha256_hex bytes = expected_hash /\ len bytes = expected_len) (fun _ => True).
Proof.
  intros Hfetch. unfold cached_blob. eapply (triple_bind _ _ _ (fun bytes _ => sha256_hex bytes = expected_hash)).
  - unfold cached_bytes. eapply triple_bind; [apply triple_gets|]. intros [bytes|].
    + intros s [_ Hs]. cbn. unfold read_verified in Hs. destruct (s !! _); cbn in Hs; [|done]. case_bool_decide; congruence.
    + intros s _. specialize (Hfetch (segment_blob seg_id name)). unfold mbind, ST_bind, lift, modify.
      destruct (fetch _) as [[bytes|]|e|w]; cbn; [|done|done|by destruct (Hfetch w)].
      case_bool_decide; cbn; done.
  - intros bytes s Hs. unfold mbind, ST_bind, lift. destruct (N.eqb_spec (len bytes) expected_len); cbn; done.
Qed.

(** A blob the store has is found, whatever the cache holds. *)
Lemma cached_blob_found seg_id name blob cache :
  fetch (segment_blob seg_id name) = Ok (Some blob) ->
  (forall bytes, sha256_hex bytes = sha256_hex blob -> bytes = blob) ->
  fst (cached_blob seg_id name (len blob) (sha256_hex blob) cache) = Ok blob.
Proof.
  intros Hfetch Hinj. unfold cached_blob, cached_bytes. rewrite Hfetch. unfold mbind, ST_bind, gets, lift, modify. cbn.
  unfold read_verified. destruct (cache !! _) as [bytes|]; cbn.
  - case_bool_decide as E; cbn.
    + apply Hinj in E as ->. by rewrite N.eqb_refl.
    + rewrite bool_decide_eq_true_2 by done. cbn. by rewrite N.eqb_refl.
  - rewrite bool_decide_eq_true_2 by done. cbn. by rewrite N.eqb_refl.
Qed.
End cache.
