(* ===== verification/Update.v ===== *)
(** * Planning an update of an index (crates/index/src/segment.rs)

    [update_index] compares a listing of the source with the live entries of the
    existing segments: what to add, which entries die, and what becomes of each
    segment (dropped, kept, rewritten or marked with a new dead set).  This
    file models that plan, from the load of the segments to the writes of dead
    sets; the rewriting of a segment's postings is not part of it. *)

From S2P Require Import Prelude BitPack Bytes Trigrams SparseGrams Format PackBuild SegmentList Cache.

Definition SEGMENT_COUNT_TARGET : N := 8.
Definition REPACK_DEAD_FRACTION : N := 4.

(** An entry of the vectors [existing], [tables] and [dead_sets]. *)
Record LoadedSegment : Type := { ls_meta : SegmentMeta; ls_tables : SegmentTables; ls_dead : DeadSet }.

(** [(key, version, size)] *)
Abbreviation Listed := (list N * list N * N)%type.
Definition listed_key (entry : Listed) : list N := entry.1.1.

Definition no_dead : DeadSet := {| dead_sources := []; dead_documents := [] |}.

(** ** Loading the segments *)

Section load.
Context (sha256 : list N -> list N) (fetch : list N -> res (option (list N))) (writable : list N * list N -> bool).
Context (decode_tables : list N -> option SegmentTables) (decode_dead : list N -> option DeadSet).

Definition load_dead (meta : SegmentMeta) : ST CacheDir DeadSet :=
  if is_empty (dead_hash meta) then mret no_dead
  else
    bytes ← cached_blob sha256 fetch writable (seg_id meta) (dead_bin (dead_hash meta)) (dead_len meta) (dead_hash meta);
    dead ← lift (parse_dead decode_dead bytes);
    lift (ensure (match last (dead_documents dead) with Some document => document <? seg_doc_count meta | None => true end)
      "dead document ID is out of bounds");;
    mret dead.

Definition load_segment (loaded : list LoadedSegment) (meta : SegmentMeta) : ST CacheDir (list LoadedSegment) :=
  bytes ← cached_blob sha256 fetch writable (seg_id meta) DOCS_BIN (docs_len meta) (docs_hash meta);
  table ← lift (parse_tables decode_tables bytes);
  lift (ensure (len (documents table) =? seg_doc_count meta) "segment document count does not match its metadata");;
  dead ← load_dead meta;
  lift (validate_dead dead table);;
  mret (loaded ++ [{| ls_meta := meta; ls_tables := table; ls_dead := dead |}]).

Definition load_segments (existing : list SegmentMeta) : ST CacheDir (list LoadedSegment) := foldS load_segment [] existing.
End load.

(** ** The live entries *)

Definition live_source (seg_idx : N) (dead : DeadSet) (live : gmap (list N) (N * N * SourceEntry)) (source : N * SourceEntry)
    : gmap (list N) (N * N * SourceEntry) :=
  let source_id := source.1 mod U32 in
  if binary_search source_id (dead_sources dead) then live else <[key source.2 := (seg_idx, source_id, source.2)]> live.

Definition live_map (segments : list LoadedSegment) : gmap (list N) (N * N * SourceEntry) :=
  fold_left (fun live '(seg_idx, s) => fold_left (live_source seg_idx (ls_dead s)) (enumerate (sources (ls_tables s))) live)
    (enumerate segments) ∅.

(** The order of [(String, String, u64)]. *)
Definition listed_leb (a b : Listed) : bool :=
  let '(ka, va, sa) := a in
  let '(kb, vb, sb) := b in
  if bool_decide (ka = kb) then (if bool_decide (va = vb) then sa <=? sb else bytes_leb va vb) else bytes_leb ka kb.

Definition needs_add (live : gmap (list N) (N * N * SourceEntry)) (entry : Listed) : bool :=
  match live !! entry.1.1 with
  | None => true
  | Some (_, _, source) => negb (bool_decide (version source = entry.1.2)) || retry source
  end.

Definition to_add_of (live : gmap (list N) (N * N * SourceEntry)) (listing : list Listed) : list Listed :=
  sort_by listed_leb (filter (fun entry => needs_add live entry = true) listing).

Definition listed_of (listing : list Listed) : gmap (list N) (list N) :=
  fold_left (fun listed '(key, version, _) => <[key := version]> listed) listing ∅.

Definition is_stale (listed : gmap (list N) (list N)) (entry : list N * (N * N * SourceEntry)) : bool :=
  let '(key, (_, _, source)) := entry in
  match listed !! key with
  | Some listed_version => negb (bool_decide (version source = listed_version)) || retry source
  | None => true
  end.

(** The order of [(usize, u32)]. *)
Definition id_leb (a b : N * N) : bool := if a.1 =? b.1 then a.2 <=? b.2 else a.1 <? b.1.

Definition newly_dead_of (live : gmap (list N) (N * N * SourceEntry)) (listed : gmap (list N) (list N)) : list (N * N) :=
  sort_by id_leb (fmap (M := list) (fun '(_, (seg_idx, source_id, _)) => (seg_idx, source_id))
    (filter (fun entry => is_stale listed entry = true) (map_to_list live))).

Definition live_doc_count (live : gmap (list N) (N * N * SourceEntry)) : N :=
  sumN (fmap (M := list) (fun '(_, (_, _, source)) => doc_count source)
    (filter (fun '(_, (_, _, source)) => failed source = false) (map_to_list live))).

(** ** What becomes of a segment *)

Definition saturating_sum (sizes : list N) : N := fold_left (saturating_add U64) sizes 0.

Definition should_repack (meta : SegmentMeta) (tables : SegmentTables) (dead : DeadSet) : res bool :=
  if bool_decide (dead_documents dead = []) then Ok false
  else if seg_doc_count meta <=? saturating_mul U64 (len (dead_documents dead)) REPACK_DEAD_FRACTION then Ok true
  else
    let total_bytes := saturating_sum (decoded_size <$> documents tables) in
    dead_sizes ← mapM_res (fun document => decoded_size <$> expect (get (documents tables) document) "index out of bounds")
      (dead_documents dead);
    let dead_bytes := saturating_sum dead_sizes in
    Ok ((0 <? total_bytes) && (total_bytes <=? saturating_mul U64 dead_bytes REPACK_DEAD_FRACTION)).

(** [any], which stops at the first hit. *)
Fixpoint any_res {A} (f : A -> res bool) (l : list A) : res bool :=
  match l with
  | [] => Ok false
  | x :: l => b ← f x; if b : bool then Ok true else any_res f l
  end.

Definition needs_repack (purge_deleted : bool) (segments : list LoadedSegment) : res bool :=
  any_res (fun s =>
    if bool_decide (dead_sources (ls_dead s) = []) then Ok false
    else if purge_deleted then Ok true else should_repack (ls_meta s) (ls_tables s) (ls_dead s)) segments.

(** An entry of [dead_sets], [changed_dead] and [failed_dead]. *)
Record Pending : Type := { pd_dead : DeadSet; pd_changed : bool; pd_failed : N }.

Definition kill_source (tables : SegmentTables) (s : DeadSet * N) (killed : N * N) : res (DeadSet * N) :=
  let '(dead, failed_dead) := s in
  let source_id := killed.2 in
  source ← expect (get (sources tables) source_id) "index out of bounds";
  Ok ({| dead_sources := dead_sources dead ++ [source_id];
         dead_documents := dead_documents dead ++ range (first_doc source) (wrapping_add U32 (first_doc source) (doc_count source)) |},
      if failed source then wrapping_add U32 failed_dead 1 else failed_dead).

Definition kill_group (segments : list LoadedSegment) (pending : list Pending) (group : list (N * N)) : res (list Pending) :=
  '(seg_idx, _) ← expect (head group) "index out of bounds";
  p ← expect (get pending seg_idx) "index out of bounds";
  s ← expect (get segments seg_idx) "index out of bounds";
  '(dead, failed_dead) ← foldM (kill_source (ls_tables s)) (pd_dead p, pd_failed p) group;
  Ok (<[N.to_nat seg_idx := {|
    pd_dead := {| dead_sources := sort_dedup (dead_sources dead); dead_documents := sort_dedup (dead_documents dead) |};
    pd_changed := true; pd_failed := failed_dead |}]> pending).

Definition kill_all (segments : list LoadedSegment) (newly_dead : list (N * N)) : res (list Pending) :=
  foldM (kill_group segments) (fmap (M := list) (fun s => {| pd_dead := ls_dead s; pd_changed := false; pd_failed := 0 |}) segments)
    (chunk_by (fun a b => a.1 =? b.1) newly_dead).

(** What the loop over the segments does with one: it is dropped, kept with
    its dead set, handed to [merge_segments], or kept with a new dead set that
    was written. *)
Inductive Disposition : Type :=
  | Dropped
  | Kept (meta : SegmentMeta) (dead : DeadSet)
  | Rewritten (meta : SegmentMeta) (dead : DeadSet)
  | Marked (meta : SegmentMeta) (dead : DeadSet).

Definition with_failed (meta : SegmentMeta) (count : N) : SegmentMeta :=
  {| seg_id := seg_id meta; seg_doc_count := seg_doc_count meta; block_count := block_count meta; terms_fst_len := terms_fst_len meta;
     terms_fst_hash := terms_fst_hash meta; terms_tail_hash := terms_tail_hash meta; postings_len := postings_len meta;
     postings_hash := postings_hash meta; postings_data_len := postings_data_len meta; postings_tail_hash := postings_tail_hash meta;
     docs_len := docs_len meta; docs_hash := docs_hash meta; min_key := min_key meta; max_key := max_key meta;
     dead_hash := dead_hash meta; dead_len := dead_len meta; failed_source_count := count; seg_packs := seg_packs meta |}.
Definition with_dead (meta : SegmentMeta) (hash : list N) (length : N) : SegmentMeta :=
  {| seg_id := seg_id meta; seg_doc_count := seg_doc_count meta; block_count := block_count meta; terms_fst_len := terms_fst_len meta;
     terms_fst_hash := terms_fst_hash meta; terms_tail_hash := terms_tail_hash meta; postings_len := postings_len meta;
     postings_hash := postings_hash meta; postings_data_len := postings_data_len meta; postings_tail_hash := postings_tail_hash meta;
     docs_len := docs_len meta; docs_hash := docs_hash meta; min_key := min_key meta; max_key := max_key meta;
     dead_hash := hash; dead_len := length; failed_source_count := failed_source_count meta; seg_packs := seg_packs meta |}.

Section dispose.
(** [Sha256], [postcard::to_allocvec] of a dead set, and [BlobStore::put]; the
    state is the list of the blobs that were put. *)
Context (sha256 : list N -> list N) (encode_dead : DeadSet -> res (list N)) (put : list N -> list N -> res unit).

Definition write_dead (seg_id : list N) (dead : DeadSet) : ST (list (list N * list N)) (list N * N) :=
  bytes ← lift (encode_dead dead);
  let hash := sha256_hex sha256 bytes in
  let blob := segment_blob seg_id (dead_bin hash) in
  lift (put blob bytes);;
  modify (fun blobs => blobs ++ [(blob, bytes)]);;
  mret (hash, len bytes).

Definition dispose (purge_deleted : bool) (s : LoadedSegment) (p : Pending) : ST (list (list N * list N)) Disposition :=
  let dead := pd_dead p in
  let meta := with_failed (ls_meta s) (failed_source_count (ls_meta s) - pd_failed p) in
  if len (dead_sources dead) =? len (sources (ls_tables s)) then mret Dropped
  else if bool_decide (dead_sources dead = []) then mret (Kept meta dead)
  else
    repack ← lift (if purge_deleted then Ok true else should_repack meta (ls_tables s) dead);
    if repack : bool then mret (Rewritten meta dead)
    else
      lift (validate_dead dead (ls_tables s));;
      if pd_changed p then
        '(hash, length) ← write_dead (seg_id meta) dead;
        mret (Marked (with_dead meta hash length) dead)
      else mret (Kept meta dead).

Definition dispose_all (purge_deleted : bool) (segments : list LoadedSegment) (pending : list Pending)
    : ST (list (list N * list N)) (list Disposition) :=
  foldS (fun keep '(s, p) => d ← dispose purge_deleted s p; mret (keep ++ [d])) [] (zip segments pending).

(** ** The plan *)

Inductive UpdatePlan : Type :=
  | UpToDate (total_docs segments : N)
  | Changes (to_add : list Listed) (newly_dead : list (N * N)) (keep : list Disposition).

Definition check_listing (listing : list Listed) : res (gset (list N)) :=
  foldM (fun keys '(key, _, _) =>
    ensure (negb (bool_decide (key ∈ keys))) "duplicate listing key";;
    Ok ({[ key ]} ∪ keys)) ∅ listing.

Definition plan_update (purge_deleted forced root_missing : bool) (listing : list Listed) (segments : list LoadedSegment)
    : ST (list (list N * list N)) UpdatePlan :=
  let live := live_map segments in
  let to_add := to_add_of live listing in
  let newly_dead := newly_dead_of live (listed_of listing) in
  let needs_compaction := SEGMENT_COUNT_TARGET <? len segments in
  repack ← lift (needs_repack purge_deleted segments);
  if bool_decide (to_add = []) && bool_decide (newly_dead = []) && negb forced && negb needs_compaction && negb repack && negb root_missing
  then mret (UpToDate (live_doc_count live) (len segments))
  else
    pending ← lift (kill_all segments newly_dead);
    keep ← dispose_all purge_deleted segments pending;
    mret (Changes to_add newly_dead keep).
End dispose.

(** ** What a plan is about *)

(** A loaded segment: its tables are valid and its dead set is closed. *)
Record loaded_ok (s : LoadedSegment) : Prop := {
  lo_tables : well_formed (ls_tables s);
  lo_documents : len (documents (ls_tables s)) < U32;
  lo_sources : len (sources (ls_tables s)) < U32;
  lo_dead_sources : ascending (dead_sources (ls_dead s));
  lo_dead_documents : ascending (dead_documents (ls_dead s));
  lo_closed : dead_closed (ls_dead s) (ls_tables s);
}.

Definition live_sources (s : LoadedSegment) : list (N * SourceEntry) :=
  filter (fun source => source.1 ∉ dead_sources (ls_dead s)) (enumerate (sources (ls_tables s))).
Definition live_entries (segments : list LoadedSegment) : list SourceEntry := mbind (fun s => (live_sources s).*2) segments.

(** An entry that the listing still names with its version. *)
Definition current (listing : list Listed) (entry : SourceEntry) : bool :=
  existsb (fun '(k, v, _) => bool_decide (k = key entry) && bool_decide (v = version entry)) listing && negb (retry entry).

(** The segment a disposition leaves behind. *)
Definition survivor (s : LoadedSegment) (d : Disposition) : option LoadedSegment :=
  match d with
  | Dropped => None
  | Kept meta dead | Rewritten meta dead | Marked meta dead => Some {| ls_meta := meta; ls_tables := ls_tables s; ls_dead := dead |}
  end.
Definition survivors (segments : list LoadedSegment) (keep : list Disposition) : list LoadedSegment :=
  omap (fun '(s, d) => survivor s d) (zip segments keep).

(** ** The maps of the code *)

Lemma fold_insert {V} (l : list (list N * V)) :
  NoDup l.*1 -> fold_left (fun (m : gmap (list N) V) kv => <[kv.1 := kv.2]> m) l ∅ = list_to_map l.
Proof.
  intros Hnd. rewrite <- (fold_left_rev_right (fun kv (m : gmap (list N) V) => <[kv.1 := kv.2]> m) l).
  transitivity (list_to_map (rev l) : gmap (list N) V).
  { generalize (rev l). intros l'. induction l' as [|[k v] l' IH]; cbn; [done|by f_equal]. }
  apply list_to_map_proper; [by rewrite rev_reverse, reverse_Permutation|]. by rewrite rev_reverse, reverse_Permutation.
Qed.

Definition live_list (segments : list LoadedSegment) : list (list N * (N * N * SourceEntry)) :=
  mbind (fun '(seg_idx, s) => fmap (M := list) (fun '(j, e) => (key e, (seg_idx, j, e))) (live_sources s)) (enumerate segments).

Lemma fold_left_bind {A B C} (f : C -> B -> C) (g : A -> list B) l c :
  fold_left (fun c x => fold_left f (g x) c) l c = fold_left f (mbind g l) c.
Proof. revert c. induction l as [|x l IH]; intros c; [done|]. rewrite bind_cons, fold_left_app. cbn [fold_left]. apply IH. Qed.

Lemma live_sources_fold s i live :
  loaded_ok s ->
  fold_left (live_source i (ls_dead s)) (enumerate (sources (ls_tables s))) live =
  fold_left (fun m kv => <[kv.1 := kv.2]> m) (fmap (M := list) (fun '(j, e) => (key e, (i, j, e))) (live_sources s)) live.
Proof.
  intros Hs. unfold live_sources. assert (Forall (fun x => x.1 < U32) (enumerate (sources (ls_tables s)))) as Hb.
  { apply Forall_forall. intros [j e] ?%elem_of_enumerate%get_Some_lt. pose proof (lo_sources s Hs). cbn. lia. }
  revert live. induction Hb as [|[j e] l Hj _ IH]; intros live; [done|]. cbn [fold_left]. unfold live_source at 2. cbn [fst snd] in *.
  rewrite N.mod_small by done. unfold binary_search. rewrite filter_cons. cbn [fst]. case_bool_decide.
  - rewrite decide_False by tauto. apply IH.
  - rewrite decide_True by done. rewrite fmap_cons. cbn [fold_left fst snd]. apply IH.
Qed.

Lemma live_list_entries segments : fmap (M := list) (fun x => snd (snd x)) (live_list segments) = live_entries segments.
Proof.
  unfold live_list, live_entries. rewrite <- (enumerate_snd segments) at 2. generalize (enumerate segments). intros l.
  induction l as [|[i s] l IH]; [done|]. cbn [fmap list_fmap]. rewrite !bind_cons, fmap_app, IH. f_equal.
  rewrite <- list_fmap_compose. apply list_fmap_ext. by intros ? [j e].
Qed.
Lemma live_list_keys segments : (live_list segments).*1 = key <$> live_entries segments.
Proof.
  rewrite <- live_list_entries, <- list_fmap_compose. apply Forall_fmap_ext. apply Forall_forall. intros [k [[i j] e]] H.
  apply list_elem_of_bind in H as ([i' s] & H & _). apply list_elem_of_fmap in H as ([j' e'] & [= -> -> -> ->] & _). done.
Qed.

Lemma live_map_list segments :
  Forall loaded_ok segments -> NoDup (key <$> live_entries segments) -> live_map segments = list_to_map (live_list segments).
Proof.
  intros Hok Hnd. rewrite <- fold_insert by (by rewrite live_list_keys). unfold live_map, live_list. rewrite <- fold_left_bind.
  rewrite <- (enumerate_snd segments), Forall_fmap in Hok. generalize (∅ : gmap (list N) (N * N * SourceEntry)).
  induction Hok as [|[i s] l Hs _ IH]; intros m; [done|]. cbn [fold_left]. rewrite live_sources_fold by done. apply IH.
Qed.
Lemma live_map_perm segments :
  Forall loaded_ok segments -> NoDup (key <$> live_entries segments) -> map_to_list (live_map segments) ≡ₚ live_list segments.
Proof. intros Hok Hnd. rewrite live_map_list by done. apply map_to_list_to_map. by rewrite live_list_keys. Qed.

Lemma elem_of_live_list segments k i j e :
  (k, (i, j, e)) ∈ live_list segments <-> k = key e /\ exists s, get segments i = Some s /\ (j, e) ∈ live_sources s.
Proof.
  unfold live_list. rewrite list_elem_of_bind. split.
  - intros ([i' s] & H & Hs%elem_of_enumerate). apply list_elem_of_fmap in H as ([j' e'] & [= -> -> -> ->] & H). eauto.
  - intros (-> & s & Hs & H). exists (i, s). split; [|by apply elem_of_enumerate]. apply list_elem_of_fmap. by exists (j, e).
Qed.
Lemma elem_of_live_entries segments e :
  e ∈ live_entries segments <-> exists i s j, get segments i = Some s /\ (j, e) ∈ live_sources s.
Proof.
  rewrite <- live_list_entries, list_elem_of_fmap. split.
  - intros ([k [[i j] e']] & -> & H). apply elem_of_live_list in H as (-> & s & ? & ?). cbn. eauto.
  - intros (i & s & j & Hs & H). exists (key e, (i, j, e)). split; [done|]. apply elem_of_live_list. eauto.
Qed.

(** ** The listing against the live entries *)

Section diff.
Context (segments : list LoadedSegment) (listing : list Listed).
Context (Hok : Forall loaded_ok segments) (Hlive : NoDup (key <$> live_entries segments)) (Hlisting : NoDup (listed_key <$> listing)).

Lemma live_lookup k i j e :
  live_map segments !! k = Some (i, j, e) <-> k = key e /\ exists s, get segments i = Some s /\ (j, e) ∈ live_sources s.
Proof.
  rewrite <- elem_of_live_list, live_map_list by done. symmetry. apply elem_of_list_to_map. by rewrite live_list_keys.
Qed.

Lemma needs_add_iff entry :
  needs_add (live_map segments) entry = true <->
  ~ exists e, e ∈ live_entries segments /\ key e = listed_key entry /\ version e = entry.1.2 /\ retry e = false.
Proof.
  unfold needs_add. change entry.1.1 with (listed_key entry). destruct (live_map segments !! _) as [[[i j] e]|] eqn:E.
  - apply live_lookup in E as (Hk & s & Hs & Hj). assert (e ∈ live_entries segments) as He by (apply elem_of_live_entries; eauto).
    rewrite orb_true_iff, negb_true_iff, bool_decide_eq_false. split.
    + intros H (e' & He' & Hk' & Hv & Hr). replace e' with e in * by (eapply (nodup_fmap_inj key); eauto; congruence).
      destruct H; congruence.
    + intros H. destruct (decide (version e = entry.1.2)) as [Hv|]; [right|by left]. destruct (retry e) eqn:Hr; [done|].
      destruct H. by exists e.
  - split; [|done]. intros _ (e & He & Hk & _). apply elem_of_live_entries in He as (i & s & j & Hs & Hj).
    assert (live_map segments !! listed_key entry = Some (i, j, e)) by (apply live_lookup; eauto). congruence.
Qed.

Lemma listed_lookup k v : listed_of listing !! k = Some v <-> exists size, (k, v, size) ∈ listing.
Proof.
  assert (listed_of listing = list_to_map ((fun entry : Listed => entry.1) <$> listing)) as ->.
  { rewrite <- fold_insert by (by rewrite <- list_fmap_compose). unfold listed_of. generalize (∅ : gmap (list N) (list N)).
    clear Hlisting. induction listing as [|[[k' v'] sz] l IH]; intros m; [done|]. cbn [fold_left]. rewrite fmap_cons. apply IH. }
  rewrite <- elem_of_list_to_map by (by rewrite <- list_fmap_compose). rewrite list_elem_of_fmap. split.
  - intros ([[k' v'] sz] & [= -> ->] & H). eauto.
  - intros (sz & H). by exists (k, v, sz).
Qed.

Lemma current_iff e : current listing e = true <-> (exists size, (key e, version e, size) ∈ listing) /\ retry e = false.
Proof.
  unfold current. rewrite andb_true_iff, negb_true_iff, existsb_elem. apply and_iff_compat_r. split.
  - intros ([[k v] sz] & H & [->%bool_decide_eq_true ->%bool_decide_eq_true]%andb_true_iff). eauto.
  - intros (sz & H). eexists. split; [exact H|]. cbn. by rewrite !bool_decide_eq_true_2.
Qed.

Lemma is_stale_current i j e : is_stale (listed_of listing) (key e, (i, j, e)) = negb (current listing e).
Proof.
  apply eq_bool_prop_intro. rewrite !Is_true_true, negb_true_iff, <- not_true_iff_false, current_iff. unfold is_stale.
  destruct (listed_of listing !! key e) as [v|] eqn:E.
  - rewrite orb_true_iff, negb_true_iff, bool_decide_eq_false. apply listed_lookup in E as [sz E]. split.
    + intros [Hv|Hr] [[sz' H] Hr']; [|congruence]. apply Hv. assert (listed_of listing !! key e = Some v) by (apply listed_lookup; eauto).
      assert (listed_of listing !! key e = Some (version e)) by (apply listed_lookup; eauto). congruence.
    + intros H. destruct (decide (version e = v)) as [<-|]; [|by left]. right. destruct (retry e); [done|]. destruct H. eauto.
  - split; [|done]. intros _ [[sz H] _]. assert (listed_of listing !! key e = Some (version e)) by (apply listed_lookup; eauto). congruence.
Qed.

(** The entries of a segment that die, as the code names them. *)
Definition stale_ids (entry : N * LoadedSegment) : list (N * N) :=
  fmap (M := list) (fun source => (entry.1, source.1)) (filter (fun source => current listing source.2 = false) (live_sources entry.2)).

Lemma newly_dead_perm : newly_dead_of (live_map segments) (listed_of listing) ≡ₚ mbind stale_ids (enumerate segments).
Proof.
  unfold newly_dead_of. rewrite sort_by_perm, live_map_perm by done. unfold live_list. generalize (enumerate segments). intros l.
  induction l as [|[i s] l IH]; [done|]. rewrite !bind_cons, filter_app, fmap_app, IH. f_equiv. clear IH. unfold stale_ids. cbn [fst snd].
  generalize (live_sources s). intros sources_. induction sources_ as [|[j e] sources_ IH]; [done|].
  rewrite fmap_cons, !filter_cons, is_stale_current. cbn [snd]. destruct (current listing e); cbn [negb].
  - by rewrite !decide_False by congruence.
  - rewrite !decide_True by done. rewrite !fmap_cons. cbn [fst]. by f_equiv.
Qed.

Lemma newly_dead_segment i s :
  get segments i = Some s ->
  filter (fun id => id.1 = i) (newly_dead_of (live_map segments) (listed_of listing)) ≡ₚ stale_ids (i, s).
Proof.
  intros Hi. rewrite newly_dead_perm. rewrite (filter_family stale_ids _ i s); [done|apply enumerate_nodup| |by apply elem_of_enumerate].
  intros x y (j & -> & _)%list_elem_of_fmap. done.
Qed.
Lemma elem_of_newly_dead i j :
  (i, j) ∈ newly_dead_of (live_map segments) (listed_of listing) <->
  exists s e, get segments i = Some s /\ (j, e) ∈ live_sources s /\ current listing e = false.
Proof.
  rewrite newly_dead_perm, list_elem_of_bind. unfold stale_ids. split.
  - intros ([i' s] & ([j' e] & [= -> ->] & [Hc Hj]%list_elem_of_filter)%list_elem_of_fmap & Hs%elem_of_enumerate). eauto.
  - intros (s & e & Hs & Hj & Hc). exists (i, s). split; [|by apply elem_of_enumerate]. apply list_elem_of_fmap.
    exists (j, e). split; [done|]. by apply list_elem_of_filter.
Qed.

Lemma len_newly_dead :
  len (newly_dead_of (live_map segments) (listed_of listing)) = len (filter (fun e => current listing e = false) (live_entries segments)).
Proof.
  unfold len. rewrite newly_dead_perm. f_equal. unfold live_entries. rewrite <- (enumerate_snd segments) at 2.
  generalize (enumerate segments). intros l. induction l as [|[i s] l IH]; [done|].
  rewrite fmap_cons, !bind_cons, filter_app, !length_app, IH. f_equal. unfold stale_ids. rewrite length_fmap. cbn [snd].
  generalize (live_sources s). intros sources_. induction sources_ as [|[j e] sources_ IH']; [done|].
  rewrite fmap_cons, !filter_cons. cbn [snd]. destruct (decide _); cbn [length]; by rewrite IH'.
Qed.
End diff.

(** ** Killing entries *)

Definition doc_range (tables : SegmentTables) (j : N) : list N :=
  match get (sources tables) j with
  | Some e => range (first_doc e) (wrapping_add U32 (first_doc e) (doc_count e))
  | None => []
  end.
Definition is_failed (tables : SegmentTables) (j : N) : bool := match get (sources tables) j with Some e => failed e | None => false end.
Definition failed_count (tables : SegmentTables) (ids : list N) : N := len (filter (fun j => is_failed tables j = true) ids).

Lemma kill_sources_spec tables dead count group :
  (forall id, id ∈ group -> id.2 < len (sources tables)) ->
  foldM (kill_source tables) (dead, count mod U32) group =
  Ok ({| dead_sources := dead_sources dead ++ group.*2; dead_documents := dead_documents dead ++ mbind (doc_range tables) group.*2 |},
      (count + failed_count tables group.*2) mod U32).
Proof.
  revert dead count. induction group as [|[i j] group IH]; intros dead count Hb; cbn [foldM].
  { rewrite fmap_nil. change (mbind (doc_range tables) []) with (@nil N). rewrite !app_nil_r. unfold failed_count. rewrite filter_nil, len_nil, N.add_0_r. by destruct dead. }
  destruct (get_is_Some _ _ (Hb (i, j) ltac:(left))) as [e He]. cbn [snd] in He. unfold kill_source at 2. cbn [snd].
  rewrite He. cbn [expect mbind res_bind]. rewrite fmap_cons, bind_cons. cbn [snd]. assert (doc_range tables j = range (first_doc e) (wrapping_add U32 (first_doc e) (doc_count e))) as -> by (unfold doc_range; by rewrite He).
  assert ((if failed e then wrapping_add U32 (count mod U32) 1 else count mod U32) =
          (count + (if failed e then 1 else 0)) mod U32) as ->.
  { unfold wrapping_add. destruct (failed e); [by rewrite N.Div0.add_mod_idemp_l|by rewrite N.add_0_r]. }
  rewrite IH by (intros id Hid; apply Hb; by right). cbn [dead_sources dead_documents]. rewrite <- !app_assoc. cbn [app]. do 2 f_equal.
  unfold failed_count. rewrite filter_cons. assert (is_failed tables j = failed e) as -> by (unfold is_failed; by rewrite He). destruct (failed e).
  - rewrite decide_True by done. rewrite len_cons. f_equal. lia.
  - rewrite decide_False by done. f_equal. lia.
Qed.

(** What the killing of the ids in [killed] has made of a segment. *)
Record pending_ok (i : N) (s : LoadedSegment) (killed : list (N * N)) (p : Pending) : Prop := {
  pk_same : (forall id, id ∈ killed -> id.1 <> i) -> pd_dead p = ls_dead s;
  pk_changed : pd_changed p = true <-> exists id, id ∈ killed /\ id.1 = i;
  pk_ascending : ascending (dead_sources (pd_dead p)) /\ ascending (dead_documents (pd_dead p));
  pk_sources : forall j, j ∈ dead_sources (pd_dead p) <-> j ∈ dead_sources (ls_dead s) \/ (i, j) ∈ killed;
  pk_documents : forall d, d ∈ dead_documents (pd_dead p) <->
    d ∈ dead_documents (ls_dead s) \/ exists j, (i, j) ∈ killed /\ d ∈ doc_range (ls_tables s) j;
  pk_failed : pd_failed p = failed_count (ls_tables s) (filter (fun id => id.1 = i) killed).*2 mod U32;
}.

Lemma kill_group_spec segments pending i group s p :
  (exists id rest, group = id :: rest) -> Forall (fun id => id.1 = i) group ->
  get segments i = Some s -> get pending i = Some p -> (forall id, id ∈ group -> id.2 < len (sources (ls_tables s))) ->
  (exists c, pd_failed p = c mod U32) ->
  kill_group segments pending group = Ok (<[N.to_nat i := {|
    pd_dead := {| dead_sources := sort_dedup (dead_sources (pd_dead p) ++ group.*2);
                  dead_documents := sort_dedup (dead_documents (pd_dead p) ++ mbind (doc_range (ls_tables s)) group.*2) |};
    pd_changed := true; pd_failed := (pd_failed p + failed_count (ls_tables s) group.*2) mod U32 |}]> pending).
Proof.
  intros ([i' j] & rest & ->) Hi Hs Hp Hb [c Hc]. pose proof (Forall_inv Hi) as Hhead. cbn in Hhead. subst i'.
  unfold kill_group. cbn [head expect mbind res_bind]. rewrite Hp, Hs. cbn [expect mbind res_bind].
  assert (pd_failed p = pd_failed p mod U32) as Hm by (rewrite Hc; by rewrite N.Div0.mod_mod). rewrite Hm at 1.
  rewrite kill_sources_spec by done. reflexivity.
Qed.

Lemma pending_ok_kill i s killed group p :
  pending_ok i s killed p -> (exists id rest, group = id :: rest) -> Forall (fun id => id.1 = i) group ->
  pending_ok i s (killed ++ group) {|
    pd_dead := {| dead_sources := sort_dedup (dead_sources (pd_dead p) ++ group.*2);
                  dead_documents := sort_dedup (dead_documents (pd_dead p) ++ mbind (doc_range (ls_tables s)) group.*2) |};
    pd_changed := true; pd_failed := (pd_failed p + failed_count (ls_tables s) group.*2) mod U32 |}.
Proof.
  intros [Hsame Hch Hasc Hsrc Hdoc Hfail] (id & rest & Hg) Hi. rewrite Forall_forall in Hi.
  assert (forall j, j ∈ group.*2 <-> (i, j) ∈ group) as Hin.
  { intros j. rewrite list_elem_of_fmap. split.
    - intros ([i' j'] & -> & H). specialize (Hi _ H). cbn in *. by subst.
    - intros H. by exists (i, j). }
  assert (id ∈ killed ++ group) as Hid by (rewrite Hg; apply elem_of_app; right; left).
  split; cbn [pd_dead pd_changed pd_failed dead_sources dead_documents].
  - intros H. destruct (H id Hid). apply Hi. rewrite Hg. left.
  - split; [|done]. intros _. exists id. split; [done|]. apply Hi. rewrite Hg. left.
  - split; apply sort_dedup_ascending.
  - intros j. rewrite elem_of_sort_dedup, !elem_of_app, Hsrc, Hin. tauto.
  - intros d. rewrite elem_of_sort_dedup, elem_of_app, Hdoc, list_elem_of_bind. setoid_rewrite elem_of_app. setoid_rewrite Hin. naive_solver.
  - rewrite Hfail, filter_app, fmap_app. unfold failed_count. rewrite filter_app, len_app, (filter_all _ group Hi).
    by rewrite N.Div0.add_mod_idemp_l.
Qed.
Lemma pending_ok_other i s killed group p :
  pending_ok i s killed p -> (forall id, id ∈ group -> id.1 <> i) -> pending_ok i s (killed ++ group) p.
Proof.
  intros [Hsame Hch Hasc Hsrc Hdoc Hfail] Hi. split.
  - intros H. apply Hsame. intros id Hid. apply H, elem_of_app. by left.
  - rewrite Hch. setoid_rewrite elem_of_app. naive_solver.
  - done.
  - intros j. rewrite Hsrc, elem_of_app. split; [tauto|]. intros [?|[?|H]]; [tauto..|]. by apply Hi in H.
  - intros d. rewrite Hdoc. apply or_iff_compat_l. apply exist_proper. intros j. rewrite elem_of_app. split; [tauto|].
    intros [[?|H] ?]; [tauto|]. by apply Hi in H.
  - by rewrite Hfail, filter_app, (filter_none _ group), app_nil_r.
Qed.

Lemma kill_all_spec segments killed :
  Forall loaded_ok segments ->
  (forall i j, (i, j) ∈ killed -> exists s, get segments i = Some s /\ j < len (sources (ls_tables s))) ->
  exists pending, kill_all segments killed = Ok pending /\ length pending = length segments /\
    forall i s p, get segments i = Some s -> get pending i = Some p -> pending_ok i s killed p.
Proof.
  intros Hok Hb. unfold kill_all. set (groups := chunk_by _ killed).
  assert (concat groups = killed) as Hcat by apply concat_chunk_by.
  assert (Forall (fun g => exists x rest, g = x :: rest /\ Forall (fun y => y.1 = x.1) g) groups) as Hgroups.
  { apply (chunk_by_same fst). intros x y. apply N.eqb_eq. }
  rewrite <- Hcat. apply (foldM_total (fun pre pending => length pending = length segments /\
    forall i s p, get segments i = Some s -> get pending i = Some p -> pending_ok i s (concat pre) p)).
  - split; [by rewrite length_fmap|]. intros i s p Hs Hp. unfold get in *. rewrite list_lookup_fmap, Hs in Hp. injection Hp as <-.
    rewrite Forall_forall in Hok. pose proof (Hok s ltac:(by eapply list_elem_of_lookup_2)) as Hs'. cbn [concat].
    split; cbn [pd_dead pd_changed pd_failed]; [done| |by destruct Hs'|..].
    + split; [done|]. by intros (id & ?%elem_of_nil & _).
    + intros j. rewrite elem_of_nil. tauto.
    + intros d. setoid_rewrite elem_of_nil. naive_solver.
    + done.
  - intros pre g post pending Hg [Hlen Hp]. rewrite Forall_forall in Hgroups.
    destruct (Hgroups g) as ([i j] & rest & Hgi & Hall); [rewrite Hg; apply elem_of_app; right; left|]. cbn [fst] in Hall.
    assert (forall id, id ∈ g -> id ∈ killed) as Hsub.
    { intros id Hid. rewrite <- Hcat, Hg, concat_app. apply elem_of_app. right. cbn [concat]. apply elem_of_app. by left. }
    destruct (Hb i j) as (s & Hs & _); [apply Hsub; rewrite Hgi; left|].
    destruct (get_is_Some pending i) as [p Hpi]; [pose proof (get_Some_lt _ _ _ Hs); unfold len in *; lia|].
    rewrite concat_app. cbn [concat]. rewrite app_nil_r. eexists. split.
    { apply (kill_group_spec _ _ i g s p); [by eauto|done..| |rewrite (pk_failed _ _ _ _ (Hp _ _ _ Hs Hpi)); by eauto].
      intros [i' j'] Hid. rewrite Forall_forall in Hall. pose proof (Hall _ Hid) as Hi. cbn in Hi. subst i'.
      destruct (Hb i j' (Hsub _ Hid)) as (s' & Hs' & ?). cbn. congruence. }
    split; [by rewrite length_insert|]. intros i' s' p' Hs' Hp'. unfold get in Hp'. destruct (decide (i' = i)) as [->|Hne].
    + rewrite list_lookup_insert_eq in Hp' by (unfold get in Hpi; by eapply lookup_lt_Some). injection Hp' as <-.
      assert (s' = s) as -> by congruence. apply pending_ok_kill; [by apply Hp|by eauto|done].
    + rewrite list_lookup_insert_ne in Hp' by lia. apply pending_ok_other; [by apply Hp|].
      intros id Hid. rewrite Forall_forall in Hall. rewrite (Hall _ Hid). done.
Qed.

(** ** A segment after the killing *)

Definition settle (s : LoadedSegment) (p : Pending) : LoadedSegment :=
  {| ls_meta := ls_meta s; ls_tables := ls_tables s; ls_dead := pd_dead p |}.

Definition failed_entries (entries : list SourceEntry) : N := len (filter (fun e => failed e = true) entries).

Record settled (listing : list Listed) (s : LoadedSegment) (p : Pending) : Prop := {
  st_loaded : loaded_ok (settle s p);
  st_live : live_sources (settle s p) = filter (fun source => current listing source.2 = true) (live_sources s);
  st_failed : pd_failed p = failed_entries (filter (fun e => current listing e = false) (live_sources s).*2);
  st_same : pd_changed p = false -> pd_dead p = ls_dead s;
  st_changed : pd_changed p = true -> dead_sources (pd_dead p) <> [];
}.

Lemma elem_of_live_sources s j e :
  (j, e) ∈ live_sources s <-> (j ∉ dead_sources (ls_dead s)) /\ get (sources (ls_tables s)) j = Some e.
Proof. unfold live_sources. by rewrite list_elem_of_filter, elem_of_enumerate. Qed.

Lemma doc_range_spec s j e d :
  loaded_ok s -> get (sources (ls_tables s)) j = Some e ->
  d ∈ doc_range (ls_tables s) j <-> exists doc, get (documents (ls_tables s)) d = Some doc /\ source_id doc = j.
Proof.
  intros Hs He. destruct (source_range _ (lo_tables s Hs) (lo_documents s Hs) j e He) as [Hb Hr]. pose proof (lo_documents s Hs).
  unfold doc_range. rewrite He, wrapping_add_small by lia. by rewrite elem_of_range, Hr.
Qed.

Lemma settle_loaded i s killed p :
  loaded_ok s -> pending_ok i s killed p -> (forall j, (i, j) ∈ killed -> j < len (sources (ls_tables s))) -> loaded_ok (settle s p).
Proof.
  intros Hs Hp Hb. pose proof (pk_ascending _ _ _ _ Hp) as [Ha1 Ha2]. destruct (lo_closed s Hs) as (C1 & C2 & C3).
  assert (forall j d, (i, j) ∈ killed -> d ∈ doc_range (ls_tables s) j <->
    exists doc, get (documents (ls_tables s)) d = Some doc /\ source_id doc = j) as Hr.
  { intros j d Hj. destruct (get_is_Some _ _ (Hb j Hj)) as [e He]. by apply doc_range_spec with e. }
  split; cbn; [by destruct Hs..|done|done|]. split; [|split].
  - intros j. rewrite (pk_sources _ _ _ _ Hp). naive_solver.
  - intros d. rewrite (pk_documents _ _ _ _ Hp). intros [?|(j & Hj & Hd)]; [auto|].
    apply Hr in Hd as (doc & Hd & _); [|done]. by apply get_Some_lt in Hd.
  - intros d doc Hd. rewrite (pk_sources _ _ _ _ Hp), (pk_documents _ _ _ _ Hp), (C3 d doc Hd). apply or_iff_compat_l. split.
    + intros (j & Hj & Hin). apply Hr in Hin as (doc' & Hd' & <-); [|done]. congruence.
    + intros Hj. exists (source_id doc). split; [done|]. apply Hr; eauto.
Qed.

Section settle.
Context (segments : list LoadedSegment) (listing : list Listed).
Context (Hok : Forall loaded_ok segments) (Hlive : NoDup (key <$> live_entries segments)) (Hlisting : NoDup (listed_key <$> listing)).
Let killed := newly_dead_of (live_map segments) (listed_of listing).

Lemma killed_bound i j : (i, j) ∈ killed -> exists s, get segments i = Some s /\ j < len (sources (ls_tables s)).
Proof using All.
  intros H. apply elem_of_newly_dead in H as (s & e & Hs & [_ He]%elem_of_live_sources & _); [|done..]. exists s.
  by apply get_Some_lt in He.
Qed.

Lemma settle_live i s p :
  get segments i = Some s -> pending_ok i s killed p ->
  live_sources (settle s p) = filter (fun source => current listing source.2 = true) (live_sources s).
Proof using All.
  intros Hi Hp. unfold live_sources at 2. rewrite list_filter_filter. unfold live_sources. apply filter_ext_in. cbn [settle ls_dead ls_tables].
  intros [j e] He%elem_of_enumerate. cbn [fst snd]. rewrite (pk_sources _ _ _ _ Hp). unfold killed. rewrite elem_of_newly_dead by done.
  split.
  - intros H. split; [|tauto]. destruct (current listing e) eqn:Hc; [done|]. destruct H.
    destruct (decide (j ∈ dead_sources (ls_dead s))); [by left|right]. exists s, e. rewrite elem_of_live_sources. tauto.
  - intros [Hc Hj] [?|(s' & e' & Hs' & [_ He']%elem_of_live_sources & Hc')]; [done|]. congruence.
Qed.

Lemma settle_failed i s p :
  get segments i = Some s -> pending_ok i s killed p ->
  pd_failed p = failed_entries (filter (fun e => current listing e = false) (live_sources s).*2).
Proof using All.
  intros Hi Hp. rewrite (pk_failed _ _ _ _ Hp). unfold killed, failed_count, failed_entries.
  assert (loaded_ok s) as Hs by (rewrite Forall_forall in Hok; apply Hok; by eapply get_elem).
  assert (len (filter (fun j => is_failed (ls_tables s) j = true)
    (filter (fun id => id.1 = i) (newly_dead_of (live_map segments) (listed_of listing))).*2) =
    len (filter (fun e => failed e = true) (filter (fun e => current listing e = false) (live_sources s).*2))) as ->.
  { unfold len at 1. rewrite (newly_dead_segment segments listing Hok Hlive Hlisting i s Hi). unfold len. f_equal. unfold stale_ids. cbn [fst snd].
    assert (Forall (fun source => get (sources (ls_tables s)) source.1 = Some source.2) (live_sources s)) as Hall.
    { apply Forall_forall. intros [j e] [_ ?]%elem_of_live_sources. done. }
    induction Hall as [|[j e] l He _ IH]; [done|]. cbn [fst snd] in He. rewrite fmap_cons, !filter_cons. cbn [snd].
    destruct (current listing e); [by rewrite !decide_False by congruence|]. rewrite !decide_True by done.
    rewrite !fmap_cons, !filter_cons. cbn [fst snd]. assert (is_failed (ls_tables s) j = failed e) as -> by (unfold is_failed; by rewrite He).
    destruct (decide (failed e = true)); cbn [length]; by rewrite IH. }
  apply N.mod_small. eapply N.le_lt_trans; [|exact (lo_sources s Hs)]. unfold len, live_sources.
  match goal with |- N.of_nat ?a <= N.of_nat ?b => cut (a <= b)%nat; [lia|] end. do 2 (etrans; [apply length_filter|]). rewrite length_fmap. etrans; [apply length_filter|].
  pose proof (len_enumerate (sources (ls_tables s))). unfold len in *. lia.
Qed.

Lemma settled_all :
  exists pending, kill_all segments killed = Ok pending /\ length pending = length segments /\
    Forall (fun '(s, p) => settled listing s p) (zip segments pending).
Proof using All.
  destruct (kill_all_spec segments killed Hok killed_bound) as (pending & Hk & Hlen & Hp). exists pending. split_and!; [done..|].
  apply Forall_lookup. intros n [s p] (s' & p' & [= <- <-] & Hs & Hpn)%lookup_zip_with_Some.
  assert (get segments (N.of_nat n) = Some s) as Hs' by (unfold get; by rewrite Nat2N.id).
  assert (get pending (N.of_nat n) = Some p) as Hp' by (unfold get; by rewrite Nat2N.id).
  specialize (Hp _ _ _ Hs' Hp'). assert (loaded_ok s) as Hl by (rewrite Forall_forall in Hok; apply Hok; by eapply get_elem).
  split.
  - eapply settle_loaded; [done|exact Hp|]. intros j (s' & Hs2 & ?)%killed_bound. congruence.
  - by eapply settle_live.
  - by eapply settle_failed.
  - intros Hc. apply (pk_same _ _ _ _ Hp). intros id Hid Hi. assert (pd_changed p = true) by (apply (pk_changed _ _ _ _ Hp); eauto). congruence.
  - intros ([i j] & Hid & Hi)%(pk_changed _ _ _ _ Hp) Hnil. cbn in Hi. subst i.
    assert (j ∈ dead_sources (pd_dead p)) as Hj by (apply (pk_sources _ _ _ _ Hp); by right). rewrite Hnil in Hj. by apply elem_of_nil in Hj.
Qed.
End settle.

(** ** Dispositions *)

Lemma should_repack_ok meta tables dead :
  (forall d, d ∈ dead_documents dead -> d < len (documents tables)) -> exists b, should_repack meta tables dead = Ok b.
Proof.
  intros Hb. unfold should_repack. case_bool_decide; [by eexists|]. destruct (_ <=? _); [by eexists|].
  destruct (mapM_res_total (fun document => decoded_size <$> expect (get (documents tables) document) "index out of bounds") (fun _ _ => True)
    (dead_documents dead)) as (sizes & -> & _); [|cbn; by eexists].
  intros d Hd. destruct (get_is_Some _ _ (Hb d Hd)) as [doc ->]. cbn. by eexists.
Qed.
Lemma needs_repack_ok purge segments : Forall loaded_ok segments -> exists b, needs_repack purge segments = Ok b.
Proof.
  unfold needs_repack. induction 1 as [|s l Hs _ IH]; cbn [any_res]; [by eexists|].
  case_bool_decide; [exact IH|]. destruct purge; [by eexists|]. destruct (lo_closed s Hs) as (_ & Hd & _).
  destruct (should_repack_ok (ls_meta s) (ls_tables s) (ls_dead s) Hd) as [[] ->]; cbn; [by eexists|exact IH].
Qed.

Lemma all_dead s p : loaded_ok (settle s p) -> len (dead_sources (pd_dead p)) = len (sources (ls_tables s)) -> live_sources (settle s p) = [].
Proof.
  intros [_ _ _ Ha _ (Hb & _)] Hlen. apply filter_none. intros [j e] He%elem_of_enumerate Hj. cbn in *. apply Hj.
  apply (ascending_full _ _ Ha Hb Hlen). by apply get_Some_lt in He.
Qed.
Lemma some_live s p : loaded_ok (settle s p) -> len (dead_sources (pd_dead p)) <> len (sources (ls_tables s)) -> live_sources (settle s p) <> [].
Proof.
  intros [_ _ _ Ha _ (Hb & _)] Hlen Hnil. cbn in *. apply Hlen. pose proof (ascending_len_le _ _ Ha (proj2 (Forall_forall _ _) Hb)) as Hle.
  assert (len (sources (ls_tables s)) <= len (dead_sources (pd_dead p))); [|lia].
  cut (length (range 0 (len (sources (ls_tables s)))) <= length (dead_sources (pd_dead p)))%nat.
  { pose proof (len_range 0 (len (sources (ls_tables s)))) as Hr. unfold len in *. lia. }
  apply submseteq_length, NoDup_submseteq; [apply ascending_nodup, range_ascending|]. intros j [_ Hj]%elem_of_range.
  destruct (get_is_Some _ _ Hj) as [e He]. destruct (decide (j ∈ dead_sources (pd_dead p))) as [|Hn]; [done|].
  assert ((j, e) ∈ live_sources (settle s p)) as Hin by (by apply elem_of_live_sources). rewrite Hnil in Hin. by apply elem_of_nil in Hin.
Qed.

Section dispose_proofs.
Context (sha256 : list N -> list N) (encode_dead : DeadSet -> res (list N)) (put : list N -> list N -> res unit).
Context (Hencode : forall dead, no_panic (encode_dead dead)) (Hput : forall blob bytes, no_panic (put blob bytes)).

(** The store takes every blob, and every dead set can be encoded. *)
Definition writes : Prop := (forall dead, is_ok (encode_dead dead) = true) /\ (forall blob bytes, put blob bytes = Ok tt).

Definition disposition_ok (s : LoadedSegment) (p : Pending) (d : Disposition) (puts : list (list N * list N)) : Prop :=
  let counted := with_failed (ls_meta s) (failed_source_count (ls_meta s) - pd_failed p) in
  match d with
  | Dropped => live_sources (settle s p) = []
  | Kept meta dead => meta = counted /\ dead = pd_dead p /\ dead = ls_dead s /\ live_sources (settle s p) <> []
  | Rewritten meta dead => meta = counted /\ dead = pd_dead p /\ live_sources (settle s p) <> []
  | Marked meta dead => exists bytes, encode_dead dead = Ok bytes /\ meta = with_dead counted (sha256_hex sha256 bytes) (len bytes) /\
      dead = pd_dead p /\ live_sources (settle s p) <> [] /\
      (segment_blob (seg_id meta) (dead_bin (dead_hash meta)), bytes) ∈ puts
  end.

Lemma write_dead_spec seg_id dead (I : list (list N * list N) -> Prop) :
  (forall puts x, I puts -> I (puts ++ [x])) ->
  triple I (write_dead sha256 encode_dead put seg_id dead)
    (fun '(hash, length) puts => I puts /\ exists bytes, encode_dead dead = Ok bytes /\ hash = sha256_hex sha256 bytes /\ length = len bytes /\
      (segment_blob seg_id (dead_bin hash), bytes) ∈ puts) (fun _ => ~ writes).
Proof using Hencode Hput.
  intros HI puts Hp. unfold write_dead, mbind, ST_bind, lift, modify. destruct (encode_dead dead) as [bytes|e|w] eqn:E.
  - destruct (put _ bytes) as [[]|e|w] eqn:Ep; cbn; [|by intros [_ H]; rewrite H in Ep|by apply (Hput _ _ _ Ep)].
    split; [by apply HI|]. exists bytes. split_and!; [done..|]. apply elem_of_app. right. left.
  - intros [H _]. specialize (H dead). by rewrite E in H.
  - by apply (Hencode _ _ E).
Qed.

Lemma dispose_spec purge listing s p (I : list (list N * list N) -> Prop) :
  (forall puts x, I puts -> I (puts ++ [x])) -> settled listing s p ->
  triple I (dispose sha256 encode_dead put purge s p) (fun d puts => I puts /\ disposition_ok s p d puts) (fun _ => ~ writes).
Proof using Hencode Hput.
  intros HI [Hl Hlive Hfail Hsame Hch]. unfold dispose. set (meta := with_failed _ _).
  destruct (N.eqb_spec (len (dead_sources (pd_dead p))) (len (sources (ls_tables s)))) as [Heq|Hne].
  { intros puts Hp. cbn. split; [done|]. by apply all_dead. }
  pose proof (some_live s p Hl Hne) as Hsome. case_bool_decide as Hnil.
  { intros puts Hp. cbn. split_and!; [done..| |done]. apply Hsame. destruct (pd_changed p); [|done]. by destruct (Hch eq_refl). }
  destruct (lo_closed _ Hl) as (_ & Hd & _). cbn in Hd.
  assert (exists b, (if purge then Ok true else should_repack meta (ls_tables s) (pd_dead p)) = Ok b) as [b Hb].
  { destruct purge; [by eexists|]. by apply should_repack_ok. }
  eapply triple_bind; [by apply triple_lift_ok|]. intros b'. cbn beta. apply triple_pure. intros ->. destruct b.
  { intros puts Hp. done. }
  assert (validate_dead (pd_dead p) (ls_tables s) = Ok tt) as Hv by (apply validate_dead_iff; by destruct Hl).
  eapply triple_bind; [by apply triple_lift_ok|]. intros u. cbn beta. apply triple_pure. intros _. destruct (pd_changed p).
  - eapply triple_bind; [by apply write_dead_spec|]. intros [hash length] puts (Hp & bytes & He & -> & -> & Hin).
    cbn. split; [done|]. exists bytes. done.
  - intros puts Hp. cbn. split_and!; [done..|by apply Hsame|done].
Qed.

Lemma dispose_all_spec purge listing segments pending :
  Forall (fun '(s, p) => settled listing s p) (zip segments pending) ->
  triple (fun _ => True) (dispose_all sha256 encode_dead put purge segments pending)
    (fun keep puts => Forall2 (fun '(s, p) d => disposition_ok s p d puts) (zip segments pending) keep) (fun _ => ~ writes).
Proof using Hencode Hput.
  intros Hs. rewrite Forall_forall in Hs. unfold dispose_all.
  eapply triple_weaken; [apply (triple_foldS (fun pre keep puts => Forall2 (fun '(s, p) d => disposition_ok s p d puts) pre keep))| | |].
  - intros pre [s p] post keep Hl. eapply triple_bind; [eapply (dispose_spec _ listing); [|apply (Hs (s, p)); rewrite Hl; apply elem_of_app; right; left]|].
    + intros puts x H. eapply Forall2_impl; [exact H|]. intros [s' p'] d. destruct d; cbn; try tauto.
      intros (bytes & ? & ? & ? & ? & ?). exists bytes. split_and!; [done..|]. apply elem_of_app. by left.
    + intros d puts [H Hd]. cbn. apply Forall2_app; [done|]. by repeat constructor.
  - intros puts _. constructor.
  - intros keep puts H. exact H.
  - done.
Qed.
End dispose_proofs.

(** ** What the dispositions leave behind *)

(** A segment counts its live failed sources. *)
Definition failed_exact (s : LoadedSegment) : Prop := failed_source_count (ls_meta s) = failed_entries (live_sources s).*2.

(** The dead set of a kept segment is the one on the store. *)
Definition recorded (sha256 : list N -> list N) (encode_dead : DeadSet -> res (list N)) (puts : list (list N * list N))
    (s : LoadedSegment) (d : Disposition) : Prop :=
  match d with
  | Kept meta dead => dead = ls_dead s /\ dead_hash meta = dead_hash (ls_meta s) /\ dead_len meta = dead_len (ls_meta s)
  | Marked meta dead => exists bytes, encode_dead dead = Ok bytes /\ dead_hash meta = sha256_hex sha256 bytes /\ dead_len meta = len bytes /\
      (segment_blob (seg_id meta) (dead_bin (dead_hash meta)), bytes) ∈ puts
  | Dropped | Rewritten _ _ => True
  end.

Lemma filter_current listing (b : bool) (l : list (N * SourceEntry)) :
  (filter (fun source => current listing source.2 = b) l).*2 = filter (fun e => current listing e = b) l.*2.
Proof. induction l as [|[j e] l IH]; [done|]. rewrite fmap_cons, !filter_cons. cbn [snd]. destruct (decide _); [rewrite fmap_cons|]; by rewrite IH. Qed.

Lemma failed_entries_split listing l :
  failed_entries l =
  failed_entries (filter (fun e => current listing e = true) l) + failed_entries (filter (fun e => current listing e = false) l).
Proof.
  induction l as [|e l IH]; [done|]. unfold failed_entries in *. rewrite !filter_cons.
  destruct (current listing e); [rewrite (decide_True (P := true = true)), (decide_False (P := true = false)) by done
    |rewrite (decide_False (P := false = true)), (decide_True (P := false = false)) by done];
  rewrite !filter_cons; destruct (decide (failed e = true)); len_lia.
Qed.

Section after.
Context (sha256 : list N -> list N) (encode_dead : DeadSet -> res (list N)).
Context (listing : list Listed) (puts : list (list N * list N)).

Definition outcome (s : LoadedSegment) (d : Disposition) : Prop :=
  exists p, settled listing s p /\ disposition_ok sha256 encode_dead s p d puts.

Lemma outcome_all segments pending keep :
  length pending = length segments -> Forall (fun '(s, p) => settled listing s p) (zip segments pending) ->
  Forall2 (fun '(s, p) d => disposition_ok sha256 encode_dead s p d puts) (zip segments pending) keep -> Forall2 outcome segments keep.
Proof.
  revert pending keep. induction segments as [|s segments IH]; intros [|p pending] keep Hlen Hs Hd; try done; cbn in *.
  { inversion Hd. constructor. }
  inversion Hd as [|? d ? keep' Hd1 Hd2]; subst. apply Forall_cons in Hs as [Hs1 Hs]. constructor; [by exists p|].
  eapply IH; [|done..]. lia.
Qed.

Lemma outcome_live s d :
  outcome s d ->
  (match survivor s d with Some s' => (live_sources s').*2 | None => [] end) = filter (fun e => current listing e = true) (live_sources s).*2.
Proof.
  intros (p & [_ Hlive _ _ _] & Hd). rewrite <- filter_current, <- Hlive. destruct d as [|meta dead|meta dead|meta dead]; cbn in *.
  - by rewrite Hd.
  - by destruct Hd as (_ & -> & _).
  - by destruct Hd as (_ & -> & _).
  - by destruct Hd as (bytes & _ & _ & -> & _).
Qed.

Lemma outcome_survivor s d s' :
  outcome s d -> survivor s d = Some s' -> loaded_ok s' /\ live_sources s' <> [] /\ (failed_exact s -> failed_exact s').
Proof.
  intros (p & [Hl Hlive Hfail _ _] & Hd) Hs.
  assert (exists meta, failed_source_count meta = failed_source_count (ls_meta s) - pd_failed p /\
    s' = {| ls_meta := meta; ls_tables := ls_tables s; ls_dead := pd_dead p |} /\ live_sources (settle s p) <> []) as (meta & Hm & -> & Hne).
  { destruct d as [|meta dead|meta dead|meta dead]; [done|cbn in *; injection Hs as <-..].
    - destruct Hd as (-> & -> & _ & ?). eexists. split; [|split; [reflexivity|done]]. reflexivity.
    - destruct Hd as (-> & -> & ?). eexists. split; [|split; [reflexivity|done]]. reflexivity.
    - destruct Hd as (bytes & _ & -> & -> & ? & _). eexists. split; [|split; [reflexivity|done]]. reflexivity. }
  split; [by destruct Hl|]. split; [exact Hne|]. unfold failed_exact. cbn [ls_meta]. intros Hex. rewrite Hm, Hex, Hfail.
  change (live_sources {| ls_meta := meta; ls_tables := ls_tables s; ls_dead := pd_dead p |}) with (live_sources (settle s p)).
  rewrite Hlive, filter_current, (failed_entries_split listing (live_sources s).*2). lia.
Qed.

Lemma outcome_recorded s d : outcome s d -> recorded sha256 encode_dead puts s d.
Proof.
  intros (p & _ & Hd). destruct d as [|meta dead|meta dead|meta dead]; cbn in *; try done.
  - destruct Hd as (-> & -> & Hsame & _). done.
  - destruct Hd as (bytes & He & -> & -> & _ & Hin). by exists bytes.
Qed.

Lemma survivors_cons s d segments keep :
  survivors (s :: segments) (d :: keep) = match survivor s d with Some s' => s' :: survivors segments keep | None => survivors segments keep end.
Proof. unfold survivors. cbn. by destruct (survivor s d). Qed.

Lemma survivors_live segments keep :
  Forall2 outcome segments keep ->
  live_entries (survivors segments keep) = filter (fun e => current listing e = true) (live_entries segments).
Proof.
  induction 1 as [|s d segments keep Hd _ IH]; [done|]. rewrite survivors_cons. unfold live_entries in *. rewrite bind_cons, filter_app, <- IH.
  rewrite <- (outcome_live s d Hd). by destruct (survivor s d).
Qed.
Lemma survivors_all segments keep s' :
  Forall2 outcome segments keep -> s' ∈ survivors segments keep -> exists s d, s ∈ segments /\ outcome s d /\ survivor s d = Some s'.
Proof.
  induction 1 as [|s d segments keep Hd _ IH]; [by intros ?%elem_of_nil|]. rewrite survivors_cons. intros Hin.
  assert (survivor s d = Some s' \/ s' ∈ survivors segments keep) as [?|H].
  { destruct (survivor s d); [|by right]. apply elem_of_cons in Hin as [->|?]; [by left|by right]. }
  - exists s, d. split_and!; [left|done..].
  - destruct (IH H) as (s0 & d0 & ? & ? & ?). exists s0, d0. split_and!; [by right|done..].
Qed.
End after.

(** ** Keys *)

Lemma listed_leb_total a b : listed_leb a b = true \/ listed_leb b a = true.
Proof.
  destruct a as [[ka va] sa], b as [[kb vb] sb]. unfold listed_leb. destruct (decide (ka = kb)) as [->|Hk].
  - rewrite !bool_decide_eq_true_2 by done. destruct (decide (va = vb)) as [->|Hv].
    + rewrite !bool_decide_eq_true_2 by done. lia.
    + rewrite !bool_decide_eq_false_2 by congruence. apply bytes_leb_total.
  - rewrite !bool_decide_eq_false_2 by congruence. apply bytes_leb_total.
Qed.
Lemma listed_leb_key a b : listed_leb a b = true -> bytes_leb (listed_key a) (listed_key b) = true.
Proof.
  destruct a as [[ka va] sa], b as [[kb vb] sb]. unfold listed_leb, listed_key. cbn [fst]. case_bool_decide as Hk; [|done]. subst. intros _.
  by destruct (bytes_leb_total kb kb).
Qed.
Lemma listed_leb_trans a b c : listed_leb a b = true -> listed_leb b c = true -> listed_leb a c = true.
Proof.
  destruct a as [[ka va] sa], b as [[kb vb] sb], c as [[kc vc] sc]. unfold listed_leb.
  destruct (decide (ka = kb)) as [->|Hab]; [rewrite (bool_decide_eq_true_2 (kb = kb)) by done|rewrite (bool_decide_eq_false_2 (ka = kb)) by done].
  - destruct (decide (kb = kc)) as [->|Hbc]; [rewrite (bool_decide_eq_true_2 (kc = kc)) by done|by rewrite (bool_decide_eq_false_2 (kb = kc))].
    repeat case_bool_decide; subst; try done; try (intros; lia); try apply bytes_leb_trans; try congruence.
    intros H1 H2. by pose proof (bytes_leb_antisym _ _ H1 H2).
  - destruct (decide (kb = kc)) as [->|Hbc]; [rewrite (bool_decide_eq_false_2 (ka = kc)) by done; done|].
    rewrite (bool_decide_eq_false_2 (kb = kc)) by done. intros H1 H2. case_bool_decide; [|by eapply bytes_leb_trans].
    subst. by pose proof (bytes_leb_antisym _ _ H1 H2).
Qed.

Lemma to_add_ascending live listing : NoDup (listed_key <$> listing) -> keys_ascending (listed_key <$> to_add_of live listing).
Proof.
  intros Hnd. assert (NoDup (listed_key <$> to_add_of live listing)) as Hnd'.
  { unfold to_add_of. rewrite sort_by_perm. eapply sublist_NoDup; [exact Hnd|]. by apply fmap_sublist, sublist_filter. }
  pose proof (sort_by_sorted listed_leb listed_leb_total listed_leb_trans (filter (fun entry => needs_add live entry = true) listing)) as Hs.
  fold (to_add_of live listing) in Hs. induction Hs as [|entry l Hs IH Hall]; [constructor|]. rewrite fmap_cons in *.
  apply NoDup_cons in Hnd' as [Hn Hnd']. constructor; [by apply IH|]. apply Forall_fmap, Forall_forall. intros entry' Hin. cbn.
  apply bytes_ltb_spec. rewrite Forall_forall in Hall. split; [by apply listed_leb_key, Hall|]. intros Heq. apply Hn, list_elem_of_fmap. eauto.
Qed.

Section keys.
Context (segments : list LoadedSegment) (listing : list Listed).
Context (Hok : Forall loaded_ok segments) (Hlive : NoDup (key <$> live_entries segments)) (Hlisting : NoDup (listed_key <$> listing)).

(** The entries that stay and the ones to add are the listing. *)
Lemma keys_partition :
  (key <$> filter (fun e => current listing e = true) (live_entries segments)) ++ (listed_key <$> to_add_of (live_map segments) listing)
  ≡ₚ listed_key <$> listing.
Proof using All.
  assert (forall entry, entry ∈ to_add_of (live_map segments) listing <-> entry ∈ listing /\
    ~ exists e, e ∈ live_entries segments /\ key e = listed_key entry /\ version e = entry.1.2 /\ retry e = false) as Hadd.
  { intros entry. unfold to_add_of. rewrite elem_of_sort_by, list_elem_of_filter, needs_add_iff by done. tauto. }
  assert (forall e, current listing e = true -> exists entry, entry ∈ listing /\ listed_key entry = key e /\ version e = entry.1.2) as Hcur.
  { intros e [[sz Hin] _]%current_iff. by exists (key e, version e, sz). }
  apply NoDup_Permutation; [|done|].
  - apply NoDup_app. split_and!.
    + eapply sublist_NoDup; [exact Hlive|]. by apply fmap_sublist, sublist_filter.
    + intros k (e & -> & [Hc He]%list_elem_of_filter)%list_elem_of_fmap (entry & Hk & [Hin Hno]%Hadd)%list_elem_of_fmap.
      destruct (Hcur e Hc) as (entry' & Hin' & Hk' & Hv). apply current_iff in Hc as [_ Hr]. apply Hno. exists e.
      assert (entry' = entry) as <- by (eapply (nodup_fmap_inj listed_key); eauto; congruence). done.
    + apply ascending_keys_nodup, to_add_ascending, Hlisting.
  - intros k. rewrite elem_of_app, !list_elem_of_fmap. split.
    + intros [(e & -> & [Hc _]%list_elem_of_filter)|(entry & -> & [Hin _]%Hadd)]; [|by eauto].
      destruct (Hcur e Hc) as (entry & Hin & Hk & _). eauto.
    + intros (entry & -> & Hin). destruct (decide (entry ∈ to_add_of (live_map segments) listing)) as [|Hn]; [right; eauto|left].
      destruct (decide (Exists (fun e => key e = listed_key entry /\ version e = entry.1.2 /\ retry e = false) (live_entries segments))) as [H|H].
      * apply Exists_exists in H as (e & He & Hk & Hv & Hr). exists e. split; [done|]. apply list_elem_of_filter. split; [|done].
        apply current_iff. split; [|done]. exists entry.2. rewrite Hk, Hv. by destruct entry as [[k v] sz].
      * destruct Hn. apply Hadd. split; [done|]. intros (e & He & H'). apply H, Exists_exists. eauto.
Qed.

Lemma live_doc_count_live :
  live_doc_count (live_map segments) = sumN (doc_count <$> filter (fun e => failed e = false) (live_entries segments)).
Proof using All.
  unfold live_doc_count. rewrite <- live_list_entries.
  etrans; [apply sumN_perm; rewrite (live_map_perm segments) by done; reflexivity|]. f_equal.
  generalize (live_list segments). intros l. induction l as [|[k [[i j] e]] l IH]; [done|]. rewrite fmap_cons, !filter_cons. cbn [snd].
  destruct (decide _); by rewrite ?fmap_cons, IH.
Qed.
End keys.

(** ** The contract of a plan *)

(** A segment of the list after the update, and what it records. *)
Record update_exact (sha256 : list N -> list N) (encode_dead : DeadSet -> res (list N)) (segments : list LoadedSegment) (listing : list Listed)
    (puts : list (list N * list N)) (to_add : list Listed) (newly_dead : list (N * N)) (keep : list Disposition) : Prop := {
  ue_live : live_entries (survivors segments keep) = filter (fun e => current listing e = true) (live_entries segments);
  ue_keys : (key <$> live_entries (survivors segments keep)) ++ (listed_key <$> to_add) ≡ₚ listed_key <$> listing;
  ue_add : to_add ⊆ listing /\ keys_ascending (listed_key <$> to_add);
  ue_dead : len (live_entries (survivors segments keep)) + len newly_dead = len (live_entries segments);
  ue_segments : Forall (fun s => loaded_ok s /\ live_sources s <> []) (survivors segments keep);
  ue_failed : Forall failed_exact segments -> Forall failed_exact (survivors segments keep);
  ue_recorded : Forall2 (recorded sha256 encode_dead puts) segments keep;
}.

Definition plan_ok (sha256 : list N -> list N) (encode_dead : DeadSet -> res (list N)) (forced root_missing : bool)
    (segments : list LoadedSegment) (listing : list Listed) (plan : UpdatePlan) (puts : list (list N * list N)) : Prop :=
  match plan with
  | UpToDate total_docs count =>
      forced = false /\ root_missing = false /\ len segments <= SEGMENT_COUNT_TARGET /\ puts = [] /\
      (key <$> live_entries segments) ≡ₚ listed_key <$> listing /\ Forall (fun e => current listing e = true) (live_entries segments) /\
      total_docs = sumN (doc_count <$> filter (fun e => failed e = false) (live_entries segments)) /\ count = len segments
  | Changes to_add newly_dead keep => update_exact sha256 encode_dead segments listing puts to_add newly_dead keep
  end.

(** ** Properties *)

Section properties.
Context (sha256 : list N -> list N) (fetch : list N -> res (option (list N))) (writable : list N * list N -> bool).
Context (decode_tables : list N -> option SegmentTables) (decode_dead : list N -> option DeadSet).
Context (encode_dead : DeadSet -> res (list N)) (put : list N -> list N -> res unit).

Lemma load_dead_ok meta :
  (forall blob, no_panic (fetch blob)) ->
  triple (fun _ => True) (load_dead sha256 fetch writable decode_dead meta)
    (fun dead _ => ascending (dead_sources dead) /\ ascending (dead_documents dead)) (fun _ => True).
Proof.
  intros Hfetch. unfold load_dead. destruct (is_empty _); [intros s _; by repeat constructor|].
  eapply triple_bind; [by apply cached_blob_verified|]. intros bytes.
  eapply (triple_bind _ _ _ (fun dead _ => ascending (dead_sources dead) /\ ascending (dead_documents dead))).
  - intros s _. unfold lift, parse_dead. destruct (decode_dead bytes) as [dead|]; cbn; [|done].
    destruct (is_ascending (dead_sources dead)) eqn:E1; cbn; [|done]. destruct (is_ascending (dead_documents dead)) eqn:E2; cbn; [|done].
    by split; apply is_ascending_spec.
  - intros dead s Hd. unfold mbind, ST_bind, lift. destruct (match last _ with Some _ => _ | None => _ end); cbn; done.
Qed.

Lemma load_segment_ok loaded meta :
  (forall blob, no_panic (fetch blob)) -> seg_doc_count meta < U32 ->
  triple (fun _ => True) (load_segment sha256 fetch writable decode_tables decode_dead loaded meta)
    (fun loaded' _ => exists s, loaded' = loaded ++ [s] /\ ls_meta s = meta /\ (len (sources (ls_tables s)) < U32 -> loaded_ok s)) (fun _ => True).
Proof.
  intros Hfetch Hcount. unfold load_segment. eapply triple_bind; [by apply cached_blob_verified|]. intros bytes.
  eapply (triple_bind _ _ _ (fun table _ => validate table = Ok tt)).
  { intros s _. unfold lift, parse_tables. destruct (decode_tables bytes) as [table|]; cbn; [|done].
    pose proof (safe_no_panic _ _ (validate_safe table)) as [Hp _]. destruct (validate table) as [[]|e|w] eqn:E; cbn; [done|done|by apply (Hp w)]. }
  intros table. eapply (triple_bind _ _ _ (fun _ _ => well_formed table /\ len (documents table) < U32)).
  { intros s Hv. unfold lift. pose proof (safe_no_panic _ _ (validate_safe table)) as [_ Hok]. specialize (Hok _ Hv).
    destruct (N.eqb_spec (len (documents table)) (seg_doc_count meta)); cbn; [|done]. split; [done|lia]. }
  intros u. eapply (triple_bind _ _ _ (fun dead _ => (well_formed table /\ len (documents table) < U32) /\
    ascending (dead_sources dead) /\ ascending (dead_documents dead))).
  { intros s Ht. pose proof (load_dead_ok meta Hfetch s I) as H. destruct (load_dead _ _ _ _ _ s) as [[dead|e|w] s']; done. }
  intros dead. intros s ((Hwf & Hdocs) & Hs & Hd). destruct (validate_dead_iff dead table Hwf Hdocs Hs Hd) as [Hp Hiff].
  unfold mbind, ST_bind, lift. destruct (validate_dead dead table) as [[]|e|w] eqn:E; cbn; [|done|by apply (Hp w)].
  eexists. split_and!; [done..|]. intros Hsrc. split; cbn; try done. by apply Hiff.
Qed.

Lemma check_listing_ok listing keys : check_listing listing = Ok keys -> NoDup (listed_key <$> listing).
Proof.
  unfold check_listing. cut (forall seen : gset (list N), foldM (fun keys '(key, _, _) =>
    ensure (negb (bool_decide (key ∈ keys))) "duplicate listing key";; Ok ({[ key ]} ∪ keys)) seen listing = Ok keys ->
    NoDup (listed_key <$> listing) /\ forall k, k ∈ seen -> k ∉ listed_key <$> listing).
  { intros H Hok. by apply (H ∅). }
  induction listing as [|[[k v] sz] listing IH]; intros seen; cbn [foldM].
  { intros _. split; [constructor|]. by intros k _ ?%elem_of_nil. }
  case_bool_decide as Hk; cbn [negb ensure mbind res_bind]; [done|]. intros [Hnd Hdis]%IH. rewrite fmap_cons. split.
  - constructor; [|done]. apply Hdis. set_solver.
  - intros k' Hk' [->|Hin]%elem_of_cons; [done|]. apply (Hdis k'); [set_solver|done].
Qed.

Context (Hencode : forall dead, no_panic (encode_dead dead)) (Hput : forall blob bytes, no_panic (put blob bytes)).

Lemma plan_changes purge forced root_missing listing segments :
  Forall loaded_ok segments -> NoDup (key <$> live_entries segments) -> NoDup (listed_key <$> listing) ->
  let to_add := to_add_of (live_map segments) listing in
  let newly_dead := newly_dead_of (live_map segments) (listed_of listing) in
  triple (fun puts => puts = []) (pending ← lift (kill_all segments newly_dead);
    keep ← dispose_all sha256 encode_dead put purge segments pending; mret (Changes to_add newly_dead keep))
    (plan_ok sha256 encode_dead forced root_missing segments listing) (fun _ => ~ writes encode_dead put).
Proof using Hencode Hput.
  intros Hok Hlive Hlisting to_add newly_dead. destruct (settled_all segments listing Hok Hlive Hlisting) as (pending & Hk & Hlen & Hs).
  eapply triple_bind; [by apply triple_lift_ok|]. intros pending'. cbn beta. apply triple_pure. intros ->.
  eapply triple_bind; [eapply triple_weaken; [by apply (dispose_all_spec sha256 encode_dead put Hencode Hput purge listing)|done|intros ? ? H; exact H|done]|].
  intros keep puts Hkeep. cbn beta in Hkeep. cbn [mret ST_ret plan_ok].
  pose proof (outcome_all sha256 encode_dead listing puts segments pending keep Hlen Hs Hkeep) as Hout.
  pose proof (survivors_live sha256 encode_dead listing puts segments keep Hout) as Hsl. split.
  - exact Hsl.
  - rewrite Hsl. by apply keys_partition.
  - split; [|by apply to_add_ascending]. intros entry Hin. unfold to_add, to_add_of in Hin. rewrite elem_of_sort_by in Hin.
    by apply list_elem_of_filter in Hin as [_ ?].
  - rewrite Hsl. unfold newly_dead. rewrite len_newly_dead by done. generalize (live_entries segments). intros l.
    induction l as [|e l IH]; [done|]. rewrite !filter_cons. destruct (current listing e); cbn [decide decide_rel]; rewrite ?len_cons in *;
      repeat (destruct (decide _); try done); len_lia.
  - apply Forall_forall. intros s' (s & d & _ & Ho & Hd)%(survivors_all _ _ _ _ _ _ _ Hout).
    destruct (outcome_survivor _ _ _ _ _ _ _ Ho Hd) as (? & ? & _). done.
  - intros Hex. rewrite Forall_forall in Hex. apply Forall_forall. intros s' (s & d & Hin & Ho & Hd)%(survivors_all _ _ _ _ _ _ _ Hout).
    destruct (outcome_survivor _ _ _ _ _ _ _ Ho Hd) as (_ & _ & H). by apply H, Hex.
  - eapply Forall2_impl; [exact Hout|]. intros s d. apply outcome_recorded.
Qed.

Lemma plan_up_to_date forced root_missing listing segments repack :
  Forall loaded_ok segments -> NoDup (key <$> live_entries segments) -> NoDup (listed_key <$> listing) ->
  bool_decide (to_add_of (live_map segments) listing = []) && bool_decide (newly_dead_of (live_map segments) (listed_of listing) = []) &&
    negb forced && negb (SEGMENT_COUNT_TARGET <? len segments) && negb repack && negb root_missing = true ->
  plan_ok sha256 encode_dead forced root_missing segments listing (UpToDate (live_doc_count (live_map segments)) (len segments)) [].
Proof.
  intros Hok Hlive Hlisting H. rewrite !andb_true_iff, !bool_decide_eq_true, !negb_true_iff, N.ltb_ge in H.
  destruct H as [[[[[Hadd Hdead] ->] Hlen] _] ->].
  assert (Forall (fun e => current listing e = true) (live_entries segments)) as Hcur.
  { pose proof (len_newly_dead segments listing Hok Hlive Hlisting) as Hl. rewrite Hdead, len_nil in Hl. apply Forall_forall. intros e He.
    destruct (current listing e) eqn:Hc; [done|]. assert (e ∈ filter (fun e => current listing e = false) (live_entries segments)) as Hin
      by (by apply list_elem_of_filter).
    destruct (filter _ (live_entries segments)); [by apply elem_of_nil in Hin|]. rewrite len_cons in Hl. lia. }
  split_and!; try done.
  - rewrite <- (keys_partition segments listing Hok Hlive Hlisting), Hadd, app_nil_r, filter_all; [done|]. by apply Forall_forall.
  - by apply (live_doc_count_live segments listing).
Qed.

(** C17: every segment that loads is valid, whatever the cache holds, and its
    dead set is closed.  On valid segments with one live entry per key, an
    update plans without panics and fails only when a dead set cannot be
    written.  An index that is up to date has exactly the listed entries, with
    the listed versions; otherwise the entries that stay are the live ones the
    listing still names, together with the entries to add they are the listing,
    every segment left has live entries, a closed dead set that is the one on
    the store, and an exact count of failed sources. *)
Theorem update_plan_exact purge forced root_missing existing listing segments keys :
  (forall blob, no_panic (fetch blob)) -> Forall (fun meta => seg_doc_count meta < U32) existing ->
  triple (fun _ => True) (load_segments sha256 fetch writable decode_tables decode_dead existing)
    (fun loaded _ => ls_meta <$> loaded = existing /\ Forall (fun s => len (sources (ls_tables s)) < U32 -> loaded_ok s) loaded) (fun _ => True) /\
  (Forall loaded_ok segments -> NoDup (key <$> live_entries segments) -> check_listing listing = Ok keys ->
   triple (fun puts => puts = []) (plan_update sha256 encode_dead put purge forced root_missing listing segments)
     (plan_ok sha256 encode_dead forced root_missing segments listing) (fun _ => ~ writes encode_dead put)).
Proof using Hencode Hput.
  intros Hfetch Hcount. split.
  - rewrite Forall_forall in Hcount. unfold load_segments. eapply triple_weaken;
      [apply (triple_foldS (fun pre loaded _ => ls_meta <$> loaded = pre /\ Forall (fun s => len (sources (ls_tables s)) < U32 -> loaded_ok s) loaded)
        _ _ _ (fun _ => True))|done|intros ? ? H; exact H|done].
    intros pre meta post loaded Hl s [Hm Hall]. assert (seg_doc_count meta < U32) as Hb by (apply Hcount; rewrite Hl; apply elem_of_app; right; left).
    pose proof (load_segment_ok loaded meta Hfetch Hb s I) as H. destruct (load_segment _ _ _ _ _ _ _ s) as [[loaded'|e|w] s']; [|done|done].
    destruct H as (x & -> & Hx & Hok). rewrite fmap_app, Hm. cbn. rewrite Hx. split; [done|]. apply Forall_app. split; [done|]. by apply Forall_singleton.
  - intros Hok Hlive Hlisting%check_listing_ok. unfold plan_update. destruct (needs_repack_ok purge segments Hok) as [repack Hr].
    eapply triple_bind; [by apply triple_lift_ok|]. intros repack'. cbn beta. apply triple_pure. intros ->.
    destruct (_ && _) eqn:E; [|by apply plan_changes]. intros puts ->. by apply (plan_up_to_date _ _ _ _ repack).
Qed.
End properties.

(** ** Witness: an entry is replaced and a failed source is tried again *)

Definition demo_update_source (k v : list N) (first count : N) (gone : bool) : SourceEntry :=
  {| key := k; version := v; encoded_size := 10; encoding := Raw; first_doc := first; doc_count := count; failed := gone; retry := gone |}.
Definition demo_update_meta (id : N) (docs failed : N) : SegmentMeta :=
  {| seg_id := [id]; seg_doc_count := docs; block_count := 1; terms_fst_len := 0; terms_fst_hash := []; terms_tail_hash := [];
     postings_len := 0; postings_hash := []; postings_data_len := 0; postings_tail_hash := []; docs_len := 0; docs_hash := [];
     min_key := []; max_key := []; dead_hash := []; dead_len := 0; failed_source_count := failed; seg_packs := [] |}.
Definition demo_update_segments : list LoadedSegment := [
  {| ls_meta := demo_update_meta 1 3 1;
     ls_tables := {| sources := sources demo_tables ++ [demo_update_source [99] [118] 3 0 true]; documents := documents demo_tables; blocks := blocks demo_tables |};
     ls_dead := no_dead |};
  {| ls_meta := demo_update_meta 2 1 0;
     ls_tables := {| sources := [demo_update_source [100] [118] 0 1 false]; documents := [demo_doc [100] 0 None 5 0]; blocks := blocks demo_tables |};
     ls_dead := no_dead |}].
Definition demo_update_listing : list Listed := [([100], [119], 7); ([99], [118], 7); ([98], [118], 7); ([97], [118], 7)].
Definition demo_encode_dead (dead : DeadSet) : res (list N) := Ok (dead_sources dead ++ dead_documents dead).
Definition demo_put (blob bytes : list N) : res unit := Ok tt.

Lemma checked_loaded s :
  validate (ls_tables s) = Ok tt -> len (documents (ls_tables s)) < U32 -> len (sources (ls_tables s)) < U32 ->
  is_ascending (dead_sources (ls_dead s)) = true -> is_ascending (dead_documents (ls_dead s)) = true ->
  validate_dead (ls_dead s) (ls_tables s) = Ok tt -> loaded_ok s.
Proof.
  intros Hv Hd Hs H1%is_ascending_spec H2%is_ascending_spec Hdead. destruct (safe_no_panic _ _ (validate_safe (ls_tables s))) as [_ Hok].
  specialize (Hok _ Hv). split; try done. by apply (validate_dead_iff (ls_dead s) (ls_tables s)).
Qed.

(** The changed entry and the entry to try again are added and die; the first
    segment keeps the others and its dead set is written. *)
Lemma update_plan_exact_witness :
  exists keep puts,
    plan_update (fun bytes => bytes) demo_encode_dead demo_put false false false demo_update_listing demo_update_segments [] =
      (Ok (Changes [([99], [118], 7); ([100], [119], 7)] [(0, 2); (1, 0)] keep), puts) /\
    update_exact (fun bytes => bytes) demo_encode_dead demo_update_segments demo_update_listing puts
      [([99], [118], 7); ([100], [119], 7)] [(0, 2); (1, 0)] keep.
Proof.
  pose proof (update_plan_exact (fun bytes => bytes) (fun _ => Ok None) (fun _ => true) (fun _ => None) (fun _ => None) demo_encode_dead demo_put
    ltac:(intros dead w; discriminate) ltac:(intros blob bytes w; discriminate) false false false [] demo_update_listing demo_update_segments
    {[ [100]; [99]; [98]; [97] ]} ltac:(intros blob w; discriminate) ltac:(constructor)) as [_ H].
  assert (exists keep puts, plan_update (fun bytes => bytes) demo_encode_dead demo_put false false false demo_update_listing demo_update_segments [] =
    (Ok (Changes [([99], [118], 7); ([100], [119], 7)] [(0, 2); (1, 0)] keep), puts)) as (keep & puts & Hrun) by (do 2 eexists; vm_compute; reflexivity).
  exists keep, puts. split; [exact Hrun|].
  assert (plan_ok (fun bytes => bytes) demo_encode_dead false false demo_update_segments demo_update_listing
    (Changes [([99], [118], 7); ([100], [119], 7)] [(0, 2); (1, 0)] keep) puts) as Hplan; [|exact Hplan].
  assert (match plan_update (fun bytes => bytes) demo_encode_dead demo_put false false false demo_update_listing demo_update_segments [] with
    | (Ok plan, puts) => plan_ok (fun bytes => bytes) demo_encode_dead false false demo_update_segments demo_update_listing plan puts
    | (Err _, _) => ~ writes demo_encode_dead demo_put | (Panic _, _) => False end) as Hgoal; [|by rewrite Hrun in Hgoal].
  apply H; [|apply (bool_decide_unpack _); vm_compute; reflexivity| |reflexivity].
  - constructor; [|constructor; [|constructor]]; apply checked_loaded; vm_compute; reflexivity.
  - apply (inj Some). vm_compute. reflexivity.
Defined.
