(* ===== verification/Witness.v ===== *)
(** * Bounded witnesses of patterns (crates/core/src/pattern.rs)

    A pattern without a finite longest match may still have a finite witness:
    when no run of its automaton can go on forever before it first accepts, the
    longest run bounds the shortest accepted prefix (or suffix) of every match.
    The graph of the automaton is built breadth first, cut down to the states
    that can reach acceptance, and its longest path is found depth first; every
    vector is grown within a budget of scratch bytes.  The automaton is
    third-party code and so an argument; [None] of the source is an error of
    [res], told apart from the panics of indexing. *)

From S2P Require Import Prelude BitPack Bytes Trigrams Grep.

Inductive ProofDirection : Type := Forward | Reverse.

Definition PROOF_SCRATCH_BYTES : N := 16 * 1024 * 1024.
Definition RETAINED_PROOF_BYTES : N := 32 * 1024 * 1024.
(** [size_of] on a 64-bit target. *)
Definition STATE_ID_BYTES : N := 4.
Definition USIZE_BYTES : N := 8.
Definition BOOL_BYTES : N := 1.
Definition VEC_BYTES : N := 24.
Definition PROOF_MAP_BUCKET_BYTES : N := 16 + 2 * USIZE_BYTES.

(** A vector, queue or map with its capacity. *)
Record Sized (A : Type) : Type := { items : A; capacity : N }.
Arguments items {A} _.
Arguments capacity {A} _.
Arguments Build_Sized {A} items capacity.
Definition no_items {A} : Sized (list A) := {| items := []; capacity := 0 |}.
Definition push {A} (v : Sized (list A)) (x : A) : Sized (list A) := {| items := items v ++ [x]; capacity := capacity v |}.

Record ProofGraph : Type := {
  g_start : N; g_states : Sized (list N); g_accepting : Sized (list bool); g_edges : Sized (list (Sized (list N)));
}.

(** ** The budget *)

Definition plan_capacity (length capacity additional element_bytes scratch_bytes scratch_limit : N) : res N :=
  required ← with_context (checked_add U64 length additional) "none";
  if required <=? capacity then Ok capacity
  else
    remaining ← with_context (checked_sub scratch_limit scratch_bytes) "none";
    ensure (negb (element_bytes =? 0)) "none";;
    max_capacity ← with_context (checked_add U64 capacity (remaining / element_bytes)) "none";
    if max_capacity <? required then Err "none"
    else Ok (N.min (N.max (saturating_mul U64 capacity 2) required) max_capacity).

Definition add_capacity_bytes (scratch_bytes before after element_bytes scratch_limit : N) : res N :=
  growth ← with_context (checked_sub after before) "none";
  growth ← with_context (checked_mul U64 growth element_bytes) "none";
  next ← with_context (checked_add U64 scratch_bytes growth) "none";
  if scratch_limit <? next then Err "none" else Ok next.

Definition count_graph_bytes (states : Sized (list N)) (accepting : Sized (list bool)) (edges : Sized (list (Sized (list N)))) : res N :=
  bytes ← with_context (checked_mul U64 (capacity states) STATE_ID_BYTES) "none";
  more ← with_context (checked_mul U64 (capacity accepting) BOOL_BYTES) "none";
  bytes ← with_context (checked_add U64 bytes more) "none";
  more ← with_context (checked_mul U64 (capacity edges) VEC_BYTES) "none";
  bytes ← with_context (checked_add U64 bytes more) "none";
  foldM (fun bytes destinations =>
    more ← with_context (checked_mul U64 (capacity destinations) USIZE_BYTES) "none";
    with_context (checked_add U64 bytes more) "none") bytes (items edges).

Section reserve.
(** [try_reserve]: the capacity after growing one to at least a target, unless
    the allocator fails. *)
Context (grow : N -> N -> option N).

(** [reserve_vec], [reserve_bits], [reserve_queue] and [reserve_indices] differ
    in the container and the size of its elements only; what they reset before
    they return [None] is dropped by every caller. *)
Definition reserve {A} (length : A -> N) (values : Sized A) (additional element_bytes scratch_bytes scratch_limit : N) : res (Sized A * N) :=
  let before := capacity values in
  target ← plan_capacity (length (items values)) before additional element_bytes scratch_bytes scratch_limit;
  if target =? before then Ok (values, scratch_bytes)
  else
    _ ← with_context (checked_sub target (length (items values))) "none";
    after ← with_context (grow before target) "none";
    scratch_bytes ← add_capacity_bytes scratch_bytes before after element_bytes scratch_limit;
    Ok ({| items := items values; capacity := after |}, scratch_bytes).

Definition reserve_vec {A} (values : Sized (list A)) := reserve len values.
Definition reserve_indices (values : Sized (gmap N N)) (additional scratch_bytes scratch_limit : N) :=
  reserve (fun m => N.of_nat (size m)) values additional PROOF_MAP_BUCKET_BYTES scratch_bytes scratch_limit.

(** ** The longest path *)

Record Search : Type := { colors : list N; distances : list N; stack : list (N * N) }.

(** The longest of [distances[child] + 1]. *)
Definition child_distance (distances : list N) (children : list N) : res (option N) :=
  foldM (fun distance child =>
    d ← expect (get distances child) "index out of bounds";
    d ← with_context (checked_add U64 d 1) "none";
    Ok (Some (match distance with Some current => N.max current d | None => d end))) None children.

(** One pass of the loop; the top of the stack is the end of [stack]. *)
Definition path_step (graph : ProofGraph) (s : Search) (below : list (N * N)) (node edge_index : N) : res Search :=
  accepting ← expect (get (items (g_accepting graph)) node) "index out of bounds";
  if accepting : bool then Ok {| colors := <[N.to_nat node := 2]> (colors s); distances := distances s; stack := below |}
  else
    edges ← expect (get (items (g_edges graph)) node) "index out of bounds";
    match get (items edges) edge_index with
    | Some child =>
        let stack := below ++ [(node, edge_index + 1)] in
        color ← expect (get (colors s) child) "index out of bounds";
        if color =? 0 then Ok {| colors := <[N.to_nat child := 1]> (colors s); distances := distances s; stack := stack ++ [(child, 0)] |}
        else if color =? 1 then Err "none"
        else Ok {| colors := colors s; distances := distances s; stack := stack |}
    | None =>
        distance ← child_distance (distances s) (items edges);
        distance ← with_context distance "none";
        Ok {| colors := <[N.to_nat node := 2]> (colors s); distances := <[N.to_nat node := distance]> (distances s); stack := below |}
    end.

(** [while let Some((node, edge_index)) = stack.last_mut()] *)
Fixpoint path_loop (fuel : nat) (graph : ProofGraph) (s : Search) : res Search :=
  match fuel with
  | O => Panic "out of fuel"
  | S fuel =>
      match last (stack s) with
      | None => Ok s
      | Some (node, edge_index) => s ← path_step graph s (removelast (stack s)) node edge_index; path_loop fuel graph s
      end
  end.

(** Every pass advances an edge, enters a node or leaves one. *)
Definition path_fuel (graph : ProofGraph) : nat :=
  (1 + 2 * length (items (g_states graph)) + list_sum (fmap (M := list) (fun edges => length (items edges)) (items (g_edges graph))))%nat.

Definition find_longest_accepting_path (graph : ProofGraph) : res N :=
  scratch_bytes ← count_graph_bytes (g_states graph) (g_accepting graph) (g_edges graph);
  let nodes := length (items (g_states graph)) in
  '(_, scratch_bytes) ← reserve_vec (@no_items N) (N.of_nat nodes) 1 scratch_bytes PROOF_SCRATCH_BYTES;
  '(_, scratch_bytes) ← reserve_vec (@no_items N) (N.of_nat nodes) USIZE_BYTES scratch_bytes PROOF_SCRATCH_BYTES;
  '(_, scratch_bytes) ← reserve_vec (@no_items (N * N)) (N.of_nat nodes) (2 * USIZE_BYTES) scratch_bytes PROOF_SCRATCH_BYTES;
  _ ← expect (get (replicate nodes 0) (g_start graph)) "index out of bounds";
  s ← path_loop (path_fuel graph) graph
    {| colors := <[N.to_nat (g_start graph) := 1]> (replicate nodes 0); distances := replicate nodes 0; stack := [(g_start graph, 0)] |};
  expect (get (distances s) (g_start graph)) "index out of bounds".

(** ** The graph of an automaton *)

Section automaton.
(** [regex_automata::dfa]: the transitions, the states it tells apart, and one
    byte for every class of bytes it does not. *)
Context (next_state : N -> N -> N) (next_eoi_state : N -> N) (is_dead_state is_quit_state is_match_state : N -> bool).
Context (representatives : list N).

Definition is_accepting (state : N) : bool :=
  let state := next_eoi_state state in negb (is_dead_state state) && negb (is_quit_state state) && is_match_state state.

Record Builder : Type := {
  b_indices : Sized (gmap N N); b_queue : Sized (list N); b_states : Sized (list N); b_accepting : Sized (list bool);
  b_edges : Sized (list (Sized (list N))); b_scratch : N;
}.
Definition set_indices (b : Builder) (indices : gmap N N) : Builder :=
  {| b_indices := {| items := indices; capacity := capacity (b_indices b) |}; b_queue := b_queue b; b_states := b_states b;
     b_accepting := b_accepting b; b_edges := b_edges b; b_scratch := b_scratch b |}.

(** Room for one more state. *)
Definition reserve_state (scratch_limit : N) (b : Builder) : res Builder :=
  '(indices, scratch) ← reserve_indices (b_indices b) 1 (b_scratch b) scratch_limit;
  '(queue, scratch) ← reserve_vec (b_queue b) 1 USIZE_BYTES scratch scratch_limit;
  '(states, scratch) ← reserve_vec (b_states b) 1 STATE_ID_BYTES scratch scratch_limit;
  '(accepting, scratch) ← reserve_vec (b_accepting b) 1 BOOL_BYTES scratch scratch_limit;
  '(edges, scratch) ← reserve_vec (b_edges b) 1 VEC_BYTES scratch scratch_limit;
  Ok {| b_indices := indices; b_queue := queue; b_states := states; b_accepting := accepting; b_edges := edges; b_scratch := scratch |}.

Definition push_state (state : N) (b : Builder) : Builder * N :=
  let index := len (items (b_states b)) in
  ({| b_indices := {| items := <[state := index]> (items (b_indices b)); capacity := capacity (b_indices b) |};
      b_queue := push (b_queue b) index; b_states := push (b_states b) state; b_accepting := push (b_accepting b) false;
      b_edges := push (b_edges b) no_items; b_scratch := b_scratch b |}, index).

Definition next_index (scratch_limit next : N) (b : Builder) : res (Builder * N) :=
  match items (b_indices b) !! next with
  | Some index => Ok (b, index)
  | None => b ← reserve_state scratch_limit b; Ok (push_state next b)
  end.

(** [reserve_vec(&mut edges[index], 1, ..)?; edges[index].push(next_index)] *)
Definition push_edge (scratch_limit index target : N) (edges : Sized (list (Sized (list N)))) (scratch : N)
    : res (Sized (list (Sized (list N))) * N) :=
  destinations ← expect (get (items edges) index) "index out of bounds";
  '(destinations, scratch) ← reserve_vec destinations 1 USIZE_BYTES scratch scratch_limit;
  Ok ({| items := <[N.to_nat index := push destinations target]> (items edges); capacity := capacity edges |}, scratch).

Definition with_scratch (b : Builder) (scratch : N) : Builder :=
  {| b_indices := b_indices b; b_queue := b_queue b; b_states := b_states b; b_accepting := b_accepting b; b_edges := b_edges b; b_scratch := scratch |}.
Definition with_edges (b : Builder) (edges : Sized (list (Sized (list N)))) (scratch : N) : Builder :=
  {| b_indices := b_indices b; b_queue := b_queue b; b_states := b_states b; b_accepting := b_accepting b; b_edges := edges; b_scratch := scratch |}.

(** One byte class out of the state at [index]. *)
Definition visit_class (scratch_limit index : N) (s : Builder * Sized (list N)) (byte : N) : res (Builder * Sized (list N)) :=
  let '(b, destinations) := s in
  state ← expect (get (items (b_states b)) index) "index out of bounds";
  let next := next_state state byte in
  if is_quit_state next then Err "none"
  else if is_dead_state next || bool_decide (next ∈ items destinations) then Ok (b, destinations)
  else
    '(destinations, scratch) ← reserve_vec destinations 1 STATE_ID_BYTES (b_scratch b) scratch_limit;
    let destinations := push destinations next in
    '(b, target) ← next_index scratch_limit next (with_scratch b scratch);
    '(edges, scratch) ← push_edge scratch_limit index target (b_edges b) (b_scratch b);
    Ok (with_edges b edges scratch, destinations).

(** [while let Some(index) = queue.pop_front()] *)
Definition visit_state (scratch_limit : N) (b : Builder) (index : N) : res Builder :=
  state ← expect (get (items (b_states b)) index) "index out of bounds";
  if is_accepting state then
    _ ← expect (get (items (b_accepting b)) index) "index out of bounds";
    Ok {| b_indices := b_indices b; b_queue := b_queue b; b_states := b_states b;
          b_accepting := {| items := <[N.to_nat index := true]> (items (b_accepting b)); capacity := capacity (b_accepting b) |};
          b_edges := b_edges b; b_scratch := b_scratch b |}
  else
    '(b, destinations) ← foldM (visit_class scratch_limit index) (b, no_items) representatives;
    bytes ← with_context (checked_mul U64 (capacity destinations) STATE_ID_BYTES) "none";
    scratch ← with_context (checked_sub (b_scratch b) bytes) "none";
    Ok (with_scratch b scratch).

Definition pop_queue (b : Builder) (rest : list N) : Builder :=
  {| b_indices := b_indices b; b_queue := {| items := rest; capacity := capacity (b_queue b) |}; b_states := b_states b;
     b_accepting := b_accepting b; b_edges := b_edges b; b_scratch := b_scratch b |}.

Fixpoint visit_loop (fuel : nat) (scratch_limit : N) (b : Builder) : res Builder :=
  match fuel with
  | O => Panic "out of fuel"
  | S fuel =>
      match items (b_queue b) with
      | [] => Ok b
      | index :: rest => b ← visit_state scratch_limit (pop_queue b rest) index; visit_loop fuel scratch_limit b
      end
  end.

Definition empty_builder : Builder :=
  {| b_indices := {| items := ∅; capacity := 0 |}; b_queue := no_items; b_states := no_items; b_accepting := no_items; b_edges := no_items; b_scratch := 0 |}.

(** ** The states that reach acceptance *)

Definition reverse_edges (scratch_limit : N) (edges : list (Sized (list N))) (reverse : Sized (list (Sized (list N)))) (scratch : N)
    : res (Sized (list (Sized (list N))) * N) :=
  foldM (fun s '(source, destinations) =>
    foldM (fun '(reverse, scratch) destination => push_edge scratch_limit destination source reverse scratch) s (items destinations))
    (reverse, scratch) (enumerate edges).

(** One source of the state popped from the queue. *)
Definition mark_source (s : list bool * list N) (source : N) : res (list bool * list N) :=
  let '(coaccessible, queue) := s in
  marked ← expect (get coaccessible source) "index out of bounds";
  if marked : bool then Ok s else Ok (<[N.to_nat source := true]> coaccessible, queue ++ [source]).

Fixpoint mark_loop (fuel : nat) (reverse : list (Sized (list N))) (coaccessible : list bool) (queue : list N) : res (list bool) :=
  match fuel with
  | O => Panic "out of fuel"
  | S fuel =>
      match queue with
      | [] => Ok coaccessible
      | index :: rest =>
          sources ← expect (get reverse index) "index out of bounds";
          '(coaccessible, queue) ← foldM mark_source (coaccessible, rest) (items sources);
          mark_loop fuel reverse coaccessible queue
      end
  end.

(** [remap]: the index of a kept state among the kept ones. *)
Fixpoint remap_from (next_index : N) (coaccessible : list bool) : list N :=
  match coaccessible with
  | [] => []
  | true :: rest => next_index :: remap_from (next_index + 1) rest
  | false :: rest => u64_max :: remap_from next_index rest
  end.

(** [values.retain(|_| coaccessible[index++])] *)
Fixpoint retain {A} (coaccessible : list bool) (values : list A) : res (list A) :=
  match values with
  | [] => Ok []
  | x :: values =>
      match coaccessible with
      | [] => Panic "index out of bounds"
      | keep :: coaccessible => values ← retain coaccessible values; Ok (if keep : bool then x :: values else values)
      end
  end.

Definition retain_sized {A} (coaccessible : list bool) (values : Sized (list A)) : res (Sized (list A)) :=
  kept ← retain coaccessible (items values);
  Ok {| items := kept; capacity := capacity values |}.

Definition remap_edges (coaccessible : list bool) (remap : list N) (destinations : Sized (list N)) : res (Sized (list N)) :=
  keep ← mapM_res (fun destination => expect (get coaccessible destination) "index out of bounds") (items destinations);
  kept ← retain keep (items destinations);
  moved ← mapM_res (fun destination => expect (get remap destination) "index out of bounds") kept;
  Ok {| items := moved; capacity := capacity destinations |}.

(** ** The graph *)

Definition build_proof_graph_with_limit (fuel : nat) (start : option N) (scratch_limit : N) : res ProofGraph :=
  start ← with_context start "none";
  ensure (negb (is_dead_state start) && negb (is_quit_state start)) "none";;
  b ← reserve_state scratch_limit empty_builder;
  b ← visit_loop fuel scratch_limit (push_state start b).1;
  let states := b_states b in
  let accepting := b_accepting b in
  let edges := b_edges b in
  let nodes := length (items states) in
  scratch ← count_graph_bytes states accepting edges;
  '(reverse, scratch) ← reserve_vec (@no_items (Sized (list N))) (N.of_nat nodes) VEC_BYTES scratch scratch_limit;
  '(reverse, scratch) ← reverse_edges scratch_limit (items edges) {| items := replicate nodes no_items; capacity := capacity reverse |} scratch;
  '(coaccessible, scratch) ← reserve_vec (@no_items bool) (N.of_nat nodes) BOOL_BYTES scratch scratch_limit;
  '(queue, scratch) ← reserve_vec (@no_items N) (N.of_nat nodes) USIZE_BYTES scratch scratch_limit;
  (* [coaccessible[index] = true; queue.push_back(index)] for the accepting states *)
  let queue := fst <$> filter (fun state => state.2 = true) (enumerate (items accepting)) in
  marks ← mark_loop (S nodes) (items reverse) (items accepting) queue;
  first ← expect (get marks 0) "index out of bounds";
  ensure first "none";;
  scratch ← count_graph_bytes states accepting edges;
  bytes ← with_context (checked_mul U64 (capacity coaccessible) BOOL_BYTES) "none";
  scratch ← with_context (checked_add U64 scratch bytes) "none";
  ensure (scratch <=? scratch_limit) "none";;
  '(_, scratch) ← reserve_vec (@no_items N) (N.of_nat nodes) USIZE_BYTES scratch scratch_limit;
  let remap := remap_from 0 marks in
  moved ← mapM_res (remap_edges marks remap) (items edges);
  states ← retain_sized marks states;
  accepting ← retain_sized marks accepting;
  edges ← retain_sized marks {| items := moved; capacity := capacity edges |};
  start ← expect (get remap 0) "index out of bounds";
  Ok {| g_start := start; g_states := states; g_accepting := accepting; g_edges := edges |}.

(** The automaton of one direction ([start] is [None] when it cannot be built);
    [retained] is the memory of its sparse machine, when there is one. *)
Definition find_proof (is_proof_eligible : bool) (fuel : nat) (start : option N) (retained : option N) : res (N * N) :=
  ensure is_proof_eligible "none";;
  graph ← build_proof_graph_with_limit fuel start PROOF_SCRATCH_BYTES;
  bytes ← find_longest_accepting_path graph;
  ensure (negb (bytes =? 0) && (bytes <=? CANDIDATE_BLOCK_BYTES)) "none";;
  retained ← with_context retained "none";
  Ok (bytes, retained).
End automaton.
End reserve.

(** ** Finding a witness *)

(** [MatchWitness]; a proven witness carries its automaton. *)
Inductive MatchWitness : Type :=
  | WExact (bytes : N)
  | WProven (bytes : N) (direction : ProofDirection).

(** The choice of [analyze_pattern] between the two directions, within the
    memory that witnesses may keep. *)
Definition choose_witness (forward reverse : option (N * N)) (retained_bytes : N) : option MatchWitness * N :=
  let candidate :=
    match forward, reverse with
    | Some f, Some r => if r.1 <? f.1 then Some (r, Reverse) else Some (f, Forward)
    | Some f, None => Some (f, Forward)
    | None, Some r => Some (r, Reverse)
    | None, None => None
    end in
  match candidate with
  | None => (None, retained_bytes)
  | Some ((bytes, retained), direction) =>
      match checked_add U64 retained_bytes retained with
      | Some next => if RETAINED_PROOF_BYTES <? next then (None, retained_bytes) else (Some (WProven bytes direction), next)
      | None => (None, retained_bytes)
      end
  end.

Section witness.
Context (next_state : N -> N -> N) (next_eoi_state : N -> N) (is_dead_state is_quit_state is_match_state : N -> bool).
Context (start_state : option N).

(** The loop over the bytes of the region, with its [break] and its [return]. *)
Fixpoint witness_loop (state : N) (region : list N) (index : N) : option N :=
  match region with
  | [] => None
  | byte :: region =>
      let state := next_state state byte in
      if is_dead_state state || is_quit_state state then None
      else if is_accepting next_eoi_state is_dead_state is_quit_state is_match_state state then Some index
      else witness_loop state region (index + 1)
  end.

Definition find_witness (witness : MatchWitness) (haystack : list N) (matched : PatternMatch) : res (N * N) :=
  ensure ((pm_start matched <=? pm_end matched) && (pm_end matched <=? len haystack)) "verifier match is outside a region";;
  match witness with
  | WExact _ => Ok (pm_start matched, pm_end matched)
  | WProven bytes direction =>
      region ← expect (get_range haystack (pm_start matched) (pm_end matched)) "range out of bounds";
      let found :=
        match start_state with
        | None => None
        | Some state =>
            witness_loop state (take (N.to_nat bytes) (match direction with Forward => region | Reverse => rev region end)) 0
        end in
      match found, direction with
      | Some index, Forward => Ok (pm_start matched, pm_start matched + index + 1)
      | Some index, Reverse => Ok (pm_end matched - index - 1, pm_end matched)
      | None, _ => Err "finite witness did not accept"
      end
  end.
End witness.

(** ** The budget never panics and keeps the elements *)

Lemma plan_capacity_safe length capacity additional element scratch limit :
  safe (plan_capacity length capacity additional element scratch limit) (fun _ => True).
Proof.
  unfold plan_capacity. safe_next. intros required _. destruct (_ <=? _); [by apply safe_ok|].
  safe_next. intros remaining _. safe_next. intros [] _.
  safe_next. intros max_ _. destruct (_ <? _); [by left; eexists|by apply safe_ok].
Qed.
#[export] Hint Resolve plan_capacity_safe : safe.
Lemma add_capacity_safe scratch before after element limit : safe (add_capacity_bytes scratch before after element limit) (fun _ => True).
Proof.
  unfold add_capacity_bytes. do 3 (safe_next; intros ? _). destruct (_ <? _); [by left; eexists|by apply safe_ok].
Qed.
Lemma count_graph_bytes_safe states accepting edges : safe (count_graph_bytes states accepting edges) (fun _ => True).
Proof.
  unfold count_graph_bytes. do 5 (safe_next; intros ? _). apply (foldM_safe (fun _ _ => True)); [done|].
  intros pre x post s _ _. safe_next. intros ? _. eapply safe_weaken; [apply safe_context|done].
Qed.
#[export] Hint Resolve add_capacity_safe count_graph_bytes_safe : safe.

Lemma reserve_safe grow {A} (length : A -> N) (values : Sized A) additional element scratch limit :
  safe (reserve grow length values additional element scratch limit) (fun v => items v.1 = items values).
Proof.
  unfold reserve. safe_next. intros target _. destruct (_ =? _); [by apply safe_ok|].
  do 2 (safe_next; intros ? _). safe_next. intros ? _. by apply safe_ok.
Qed.
#[export] Hint Resolve reserve_safe : safe.

(** ** Paths of a graph *)

Definition succ_of (edges : list (Sized (list N))) (v : N) : list N := match get edges v with Some e => items e | None => [] end.

(** A path of a length to an accepting node, the only one on it. *)
Inductive path_to (accepting : list bool) (edges : list (Sized (list N))) : N -> N -> Prop :=
  | path_here v : get accepting v = Some true -> path_to accepting edges v 0
  | path_next v child k : get accepting v = Some false -> child ∈ succ_of edges v -> path_to accepting edges child k ->
      path_to accepting edges v (k + 1).

Record graph_ok (nodes : N) (accepting : list bool) (edges : list (Sized (list N))) : Prop := {
  go_accepting : len accepting = nodes;
  go_edges : len edges = nodes;
  go_targets : forall v child, child ∈ succ_of edges v -> child < nodes;
}.

Lemma push_edge_safe grow limit index target edges scratch :
  index < len (items edges) ->
  safe (push_edge grow limit index target edges scratch) (fun '(edges', _) =>
    len (items edges') = len (items edges) /\
    forall v child, child ∈ succ_of (items edges') v <-> child ∈ succ_of (items edges) v \/ v = index /\ child = target).
Proof.
  intros Hi. unfold push_edge. destruct (get_is_Some _ _ Hi) as [e He]. rewrite He. cbn [expect mbind res_bind].
  safe_next. intros [e' s'] Hitems. cbn [fst] in Hitems. apply safe_ok. cbn [items]. split; [by rewrite len_set|].
  intros v child. unfold succ_of. destruct (decide (v = index)) as [->|Hne].
  - rewrite get_set_eq, He by done. cbn [push items]. rewrite Hitems, elem_of_app, list_elem_of_singleton. tauto.
  - rewrite get_set_ne by done. tauto.
Qed.

(** ** Depth-first search *)

Section search.
Context (graph : ProofGraph).
Let nodes := len (items (g_states graph)).
Let accepting := items (g_accepting graph).
Let edges := items (g_edges graph).
Context (Hgraph : graph_ok nodes accepting edges).

(** A node that was left: its distance is that of its longest path. *)
Definition left_ok (s : Search) (v : N) : Prop :=
  (get accepting v = Some true -> get (distances s) v = Some 0) /\
  (get accepting v = Some false -> forall child, child ∈ succ_of edges v ->
    get (colors s) child = Some 2 /\ exists d d', get (distances s) v = Some d /\ get (distances s) child = Some d' /\ d' + 1 <= d).

(** The children of the nodes on the stack up to their next edge: left, or the
    node above. *)
Fixpoint seen (colors : list N) (stack : list (N * N)) : Prop :=
  match stack with
  | [] => True
  | (v, i) :: above =>
      (forall j child, j < i -> get (succ_of edges v) j = Some child -> get colors child = Some 2 \/ exists i', head above = Some (child, i')) /\
      seen colors above
  end.

Record search_ok (s : Search) : Prop := {
  sk_colors : len (colors s) = nodes;
  sk_distances : len (distances s) = nodes;
  sk_nodup : NoDup (stack s).*1;
  sk_stack : forall v, v ∈ (stack s).*1 <-> get (colors s) v = Some 1;
  sk_index : forall v i, (v, i) ∈ stack s -> i <= len (succ_of edges v) /\ (i = 0 \/ get accepting v = Some false);
  sk_fresh : forall v, get (colors s) v <> Some 2 -> v < nodes -> get (distances s) v = Some 0;
  sk_seen : seen (colors s) (stack s);
  sk_left : forall v, get (colors s) v = Some 2 -> left_ok s v;
}.

(** What the search still has to do. *)
Definition node_weight (c : N) (e : Sized (list N)) : nat := if decide (c = 0%N) then (2 + length (items e))%nat else O.
Definition entry_weight (entry : N * N) : nat := (1 + (length (succ_of edges entry.1) - N.to_nat entry.2))%nat.
Definition weight (s : Search) : nat :=
  (list_sum (zip_with node_weight (colors s) edges) + list_sum (fmap (M := list) entry_weight (stack s)))%nat.

Lemma seen_change colors colors' below v i tail :
  seen colors (below ++ [(v, i)]) -> (forall w, get colors w = Some 2 -> get colors' w = Some 2) ->
  (get colors' v = Some 2 \/ exists i' rest, tail = (v, i') :: rest) -> seen colors' tail -> seen colors' (below ++ tail).
Proof.
  intros Hseen Hkeep Hv Htail. induction below as [|[u k] below IH]; [done|]. cbn [app seen] in *. destruct Hseen as [Hu Hseen].
  split; [|by apply IH]. intros j child Hj Hc. destruct (Hu j child Hj Hc) as [H|[i' H]]; [left; by apply Hkeep|].
  destruct below as [|[u' k'] below]; cbn [app head] in *; [|right; by exists i'].
  injection H as <- <-. destruct Hv as [Hv|(i' & rest & ->)]; [by left|right; by exists i'].
Qed.

Lemma weight_set (cs : list N) (es : list (Sized (list N))) n c e c' :
  cs !! n = Some c -> es !! n = Some e ->
  (list_sum (zip_with node_weight (<[n := c']> cs) es) + node_weight c e = list_sum (zip_with node_weight cs es) + node_weight c' e)%nat.
Proof.
  revert cs es. induction n as [|n IH]; intros [|x cs] [|y es] Hc He; try done; cbn [lookup list_lookup] in Hc, He.
  - injection Hc as ->. injection He as ->.
    change (node_weight c' e + list_sum (zip_with node_weight cs es) + node_weight c e = node_weight c e + list_sum (zip_with node_weight cs es) + node_weight c' e)%nat. lia.
  - specialize (IH cs es Hc He).
    change (node_weight x y + list_sum (zip_with node_weight (<[n := c']> cs) es) + node_weight c e =
            node_weight x y + list_sum (zip_with node_weight cs es) + node_weight c' e)%nat. lia.
Qed.

Lemma entries_sum_snoc below entry :
  list_sum (entry_weight <$> below ++ [entry]) = (list_sum (entry_weight <$> below) + entry_weight entry)%nat.
Proof. rewrite fmap_app, list_sum_app. cbn. lia. Qed.
Lemma get_succ v i child : get (succ_of edges v) i = Some child -> i < len (succ_of edges v) /\ child < nodes.
Proof using Hgraph.
  intros H. split; [by apply get_Some_lt in H|]. apply (go_targets _ _ _ Hgraph v). by apply get_elem in H.
Qed.
Lemma get_edges v : v < nodes -> exists e, get edges v = Some e /\ succ_of edges v = items e.
Proof using Hgraph.
  intros Hv. destruct (get_is_Some edges v) as [e He]; [by rewrite (go_edges _ _ _ Hgraph)|]. exists e. unfold succ_of. by rewrite He.
Qed.

(** The node on top of the stack. *)
Lemma top_ok s below v i :
  search_ok s -> stack s = below ++ [(v, i)] ->
  v < nodes /\ get (colors s) v = Some 1 /\ (v ∉ below.*1) /\ get (distances s) v = Some 0 /\
  (forall w, w ∈ below.*1 <-> (w <> v /\ get (colors s) w = Some 1)).
Proof.
  intros Hs Hst. pose proof (sk_stack s Hs) as Hin. pose proof (sk_nodup s Hs) as Hnd. rewrite Hst, fmap_app in Hin, Hnd.
  apply NoDup_app in Hnd as (_ & Hdis & _). assert (get (colors s) v = Some 1) as Hc.
  { apply Hin, elem_of_app. right. left. }
  assert (v < nodes) as Hv by (apply get_Some_lt in Hc; by rewrite (sk_colors s Hs) in Hc).
  assert (v ∉ below.*1) as Hn by (intros H; apply (Hdis v H); left). split_and!; [done..| |].
  - apply (sk_fresh s Hs); [congruence|done].
  - intros w. specialize (Hin w). rewrite elem_of_app in Hin. cbn in Hin. rewrite list_elem_of_singleton in Hin. split.
    + intros H. split; [by intros ->|]. by apply Hin; left.
    + intros [Hne H]. apply Hin in H as [?|?]; done.
Qed.

(** Leaving the node on top, with its distance. *)
Lemma leave_ok s below v i d :
  search_ok s -> stack s = below ++ [(v, i)] ->
  (get accepting v = Some true -> d = 0) ->
  (get accepting v = Some false -> forall child, child ∈ succ_of edges v ->
    get (colors s) child = Some 2 /\ exists d', get (distances s) child = Some d' /\ d' + 1 <= d) ->
  let s' := {| colors := <[N.to_nat v := 2]> (colors s); distances := <[N.to_nat v := d]> (distances s); stack := below |} in
  search_ok s' /\ (weight s' < weight s)%nat.
Proof using Hgraph.
  intros Hs Hst Hacc Hch s'. destruct (top_ok s below v i Hs Hst) as (Hv & Hc & Hn & Hd & Hbelow). split.
  - assert (forall w, get (colors s) w = Some 2 -> get (colors s') w = Some 2) as Hkeep.
    { intros w Hw. cbn. rewrite get_set_ne by congruence. done. }
    assert (get (colors s') v = Some 2) as Hv2 by (cbn; apply get_set_eq; by rewrite (sk_colors s Hs)).
    subst s'. split; cbn [colors distances stack].
    + rewrite len_set. by apply sk_colors.
    + rewrite len_set. by apply sk_distances.
    + pose proof (sk_nodup s Hs) as H. rewrite Hst, fmap_app in H. by apply NoDup_app in H as [? _].
    + intros w. rewrite Hbelow. destruct (decide (w = v)) as [->|Hne]; [split; [tauto|]; cbn in Hv2; congruence|].
      rewrite get_set_ne by done. tauto.
    + intros u k Hu. apply (sk_index s Hs). rewrite Hst. apply elem_of_app. by left.
    + intros w Hw Hwn. destruct (decide (w = v)) as [->|Hne]; [done|]. rewrite get_set_ne in Hw |- * by done. by apply (sk_fresh s Hs).
    + rewrite <- (app_nil_r below). apply (seen_change (colors s) _ below v i); [|exact Hkeep|by left|done].
      rewrite <- Hst. by apply sk_seen.
    + intros w Hw. destruct (decide (w = v)) as [->|Hne].
      * unfold left_ok. cbn [colors distances]. rewrite get_set_eq by (by rewrite (sk_distances s Hs)). split; [intros Ha; by rewrite Hacc|].
        intros Ha child Hin. destruct (Hch Ha child Hin) as (H2 & d' & Hd' & Hle). split; [by apply Hkeep|]. exists d, d'.
        rewrite get_set_ne by congruence. done.
      * rewrite get_set_ne in Hw by done. destruct (sk_left s Hs w Hw) as [H1 H2]. unfold left_ok. cbn [colors distances].
        rewrite get_set_ne by done. split; [done|]. intros Ha child Hin. destruct (H2 Ha child Hin) as (H3 & d1 & d2 & ? & ? & ?).
        split; [by apply Hkeep|]. exists d1, d2. rewrite get_set_ne by congruence. done.
  - subst s'. unfold weight. cbn [colors stack]. rewrite Hst, entries_sum_snoc. destruct (get_edges v Hv) as (e & He & _).
    pose proof (weight_set (colors s) edges (N.to_nat v) 1 e 2 Hc He) as Hw. unfold node_weight at 2 4 in Hw. cbn [decide] in Hw.
    rewrite !decide_False in Hw by done. unfold entry_weight at 3. lia.
Qed.

(** Passing an edge to a node that was left. *)
Lemma pass_ok s below v i child :
  search_ok s -> stack s = below ++ [(v, i)] -> get accepting v = Some false -> get (succ_of edges v) i = Some child ->
  get (colors s) child = Some 2 ->
  let s' := {| colors := colors s; distances := distances s; stack := below ++ [(v, i + 1)] |} in
  search_ok s' /\ (weight s' < weight s)%nat.
Proof using Hgraph.
  intros Hs Hst Ha Hi Hchild s'. destruct (top_ok s below v i Hs Hst) as (Hv & Hc & Hn & Hd & Hbelow).
  destruct (get_succ v i child Hi) as [Hil _]. split.
  - pose proof (sk_seen s Hs) as Hseen. rewrite Hst in Hseen. subst s'. split; cbn [colors distances stack]; try by apply Hs.
    + rewrite fmap_app. pose proof (sk_nodup s Hs) as H. by rewrite Hst, fmap_app in H.
    + intros w. rewrite <- (sk_stack s Hs), Hst, !fmap_app. done.
    + intros u k [Hu|[= -> ->]%list_elem_of_singleton]%elem_of_app; [|split; [lia|by right]]. apply (sk_index s Hs). rewrite Hst. apply elem_of_app. by left.
    + apply (seen_change (colors s) (colors s) below v i); [done|done|right; by do 2 eexists|]. cbn [seen]. split; [|done].
      intros j c Hj Hcj. destruct (decide (j = i)) as [->|Hne]; [left; congruence|]. clear - Hseen Hcj Hj Hne.
      induction below as [|[u k] below IH]; cbn [app seen] in Hseen; destruct Hseen as [H Hseen]; [|by apply IH].
      destruct (H j c ltac:(lia) Hcj) as [?|[i' [=]]]. by left.
  - subst s'. unfold weight. cbn [colors stack]. rewrite Hst, !entries_sum_snoc. unfold entry_weight at 2 4. cbn [fst snd].
    pose proof (to_nat_len (succ_of edges v)). lia.
Qed.

(** Entering a new node. *)
Lemma enter_ok s below v i child :
  search_ok s -> stack s = below ++ [(v, i)] -> get accepting v = Some false -> get (succ_of edges v) i = Some child ->
  get (colors s) child = Some 0 ->
  let s' := {| colors := <[N.to_nat child := 1]> (colors s); distances := distances s; stack := below ++ [(v, i + 1); (child, 0)] |} in
  search_ok s' /\ (weight s' < weight s)%nat.
Proof using Hgraph.
  intros Hs Hst Ha Hi Hchild s'. destruct (top_ok s below v i Hs Hst) as (Hv & Hc & Hn & Hd & Hbelow).
  destruct (get_succ v i child Hi) as [Hil Hcn]. assert (child <> v) as Hne by congruence.
  assert (child ∉ (stack s).*1) as Hfresh by (rewrite (sk_stack s Hs); congruence).
  assert (forall w, get (colors s) w = Some 2 -> get (<[N.to_nat child := 1]> (colors s)) w = Some 2) as Hkeep.
  { intros w Hw. rewrite get_set_ne by congruence. done. }
  assert (get (<[N.to_nat child := 1]> (colors s)) child = Some 1) as Hc1 by (apply get_set_eq; by rewrite (sk_colors s Hs)). split.
  - pose proof (sk_seen s Hs) as Hseen. pose proof (sk_nodup s Hs) as Hnd. pose proof (sk_stack s Hs) as Hin. rewrite Hst in Hseen.
    rewrite Hst, fmap_app in Hnd, Hin, Hfresh. cbn [fmap list_fmap fst] in Hnd, Hin, Hfresh.
    subst s'. split; cbn [colors distances stack]; try by apply Hs.
    + rewrite len_set. by apply sk_colors.
    + rewrite fmap_app. cbn [fmap list_fmap fst]. change [v; child] with ([v] ++ [child]). rewrite app_assoc. apply NoDup_app. split_and!; [done| |by apply NoDup_singleton].
      intros w Hw ->%list_elem_of_singleton. done.
    + intros w. rewrite fmap_app. cbn [fmap list_fmap fst]. change [v; child] with ([v] ++ [child]). rewrite app_assoc, elem_of_app, (Hin w), list_elem_of_singleton.
      destruct (decide (w = child)) as [->|Hw]; [rewrite Hc1; tauto|]. rewrite get_set_ne by done. tauto.
    + intros u k [Hu|[[= -> ->]|[= -> ->]%list_elem_of_singleton]%elem_of_cons]%elem_of_app; [|split; [lia|by right]|split; [lia|by left]].
      apply (sk_index s Hs). rewrite Hst. apply elem_of_app. by left.
    + intros w Hw Hwn. destruct (decide (w = child)) as [->|Hnw]; [apply (sk_fresh s Hs); [congruence|done]|].
      rewrite get_set_ne in Hw by done. by apply (sk_fresh s Hs).
    + apply (seen_change (colors s) _ below v i); [done|exact Hkeep|right; by do 2 eexists|]. cbn [seen head]. split; [|split; [intros; lia|done]].
      intros j c Hj Hcj. destruct (decide (j = i)) as [->|Hji]; [right; exists 0; congruence|left]. apply Hkeep. clear - Hseen Hcj Hj Hji.
      induction below as [|[u k] below IH]; cbn [app seen] in Hseen; destruct Hseen as [H Hseen]; [|by apply IH].
      destruct (H j c ltac:(lia) Hcj) as [?|[i' [=]]]. done.
    + intros w Hw. destruct (decide (w = child)) as [->|Hnw]; [congruence|]. rewrite get_set_ne in Hw by done.
      destruct (sk_left s Hs w Hw) as [H1 H2]. split; [done|]. intros Hwa c Hwc. destruct (H2 Hwa c Hwc) as [H3 H4]. split; [by apply Hkeep|done].
  - subst s'. unfold weight. cbn [colors stack]. change (below ++ [(v, i + 1); (child, 0)]) with (below ++ [(v, i + 1)] ++ [(child, 0)]).
    rewrite Hst, app_assoc, !entries_sum_snoc. destruct (get_edges child Hcn) as (e & He & Hse).
    pose proof (weight_set (colors s) edges (N.to_nat child) 0 e 1 Hchild He) as Hw. unfold node_weight at 2 4 in Hw.
    rewrite decide_True, decide_False in Hw by done. unfold entry_weight at 2 3 5. cbn [fst snd]. rewrite Hse.
    pose proof (to_nat_len (succ_of edges v)). lia.
Qed.

Lemma child_distance_ok ds children :
  (forall c, c ∈ children -> c < len ds) ->
  safe (child_distance ds children) (fun best => match best with
    | None => children = []
    | Some d => forall c, c ∈ children -> exists d', get ds c = Some d' /\ d' + 1 <= d end).
Proof.
  intros Hb. unfold child_distance. eapply safe_weaken; [apply (foldM_safe (fun pre best => match best with
    | None => pre = [] | Some d => forall c, c ∈ pre -> exists d', get ds c = Some d' /\ d' + 1 <= d end)); [done|]|done].
  intros pre c post best Hl Hbest. destruct (get_is_Some ds c) as [d Hd]; [apply Hb; rewrite Hl; apply elem_of_app; right; left|].
  rewrite Hd. cbn [expect mbind res_bind]. safe_next. intros d1 [-> _]%checked_add_Some. apply safe_ok.
  intros c' [Hc'| ->%list_elem_of_singleton]%elem_of_app.
  - destruct best as [b|]; [|subst pre; by apply elem_of_nil in Hc']. destruct (Hbest c' Hc') as (d' & ? & ?). exists d'. split; [done|lia].
  - exists d. split; [done|]. destruct best; lia.
Qed.

Lemma all_seen_top colors_ below v i j child :
  seen colors_ (below ++ [(v, i)]) -> j < i -> get (succ_of edges v) j = Some child -> get colors_ child = Some 2.
Proof.
  intros Hseen Hj Hc. induction below as [|[u k] below IH]; cbn [app seen] in Hseen; destruct Hseen as [H Hseen]; [|by apply IH].
  destruct (H j child Hj Hc) as [?|[i' [=]]]. done.
Qed.

Lemma path_step_ok s below v i :
  search_ok s -> stack s = below ++ [(v, i)] ->
  (forall w c, get (colors s) w = Some c -> c <= 2) ->
  safe (path_step graph s below v i) (fun s' => search_ok s' /\ (weight s' < weight s)%nat /\
    (forall w c, get (colors s') w = Some c -> c <= 2) /\ (forall w, get (colors s') w = Some 0 -> get (colors s) w = Some 0)).
Proof using Hgraph.
  intros Hs Hst Hrange. destruct (top_ok s below v i Hs Hst) as (Hv & Hc & Hn & Hd & Hbelow). unfold path_step.
  assert (forall n w c, n <= 2 -> get (<[N.to_nat w := n]> (colors s)) c = Some 0 -> n <> 0 -> get (colors s) c = Some 0) as Hzero.
  { intros n w c Hn2 H Hn0. destruct (decide (w = c)) as [->|Hwc]; [|by rewrite get_set_ne in H].
    pose proof (get_Some_lt _ _ _ H) as Hlt. rewrite len_set in Hlt. rewrite get_set_eq in H by done. congruence. }
  assert (forall n w, n <= 2 -> forall w' c, get (<[N.to_nat w := n]> (colors s)) w' = Some c -> c <= 2) as Hr2.
  { intros n w Hn2 w' c H. destruct (decide (w = w')) as [->|Hw]; [|rewrite get_set_ne in H by done; by eapply Hrange].
    pose proof (get_Some_lt _ _ _ H) as Hlt. rewrite len_set in Hlt. rewrite get_set_eq in H by done. by injection H as <-. }
  destruct (get_is_Some accepting v) as [a Ha]; [by rewrite (go_accepting _ _ _ Hgraph)|]. fold accepting. rewrite Ha. cbn [expect mbind res_bind].
  destruct a.
  { destruct (leave_ok s below v i 0 Hs Hst ltac:(done) ltac:(congruence)) as [H1 H2].
    assert (<[N.to_nat v := 0]> (distances s) = distances s) as E by (by apply list_insert_id). rewrite E in H1, H2. apply safe_ok.
    split_and!; [done..|by apply Hr2|]. intros w Hw. by apply (Hzero 2 v). }
  destruct (get_edges v Hv) as (e & He & Hse). fold edges. rewrite He. cbn [expect mbind res_bind]. rewrite <- Hse.
  destruct (get (succ_of edges v) i) as [child|] eqn:Hi.
  - destruct (get_succ v i child Hi) as [Hil Hcn]. destruct (get_is_Some (colors s) child) as [c Hcc]; [by rewrite (sk_colors s Hs)|].
    rewrite Hcc. cbn [expect mbind res_bind]. destruct (N.eqb_spec c 0) as [->|Hc0]; [|destruct (N.eqb_spec c 1); [by left; eexists|]].
    + destruct (enter_ok s below v i child Hs Hst Ha Hi Hcc) as [H1 H2]. rewrite <- app_assoc. apply safe_ok.
      split_and!; [done..|by apply Hr2|]. intros w Hw. by apply (Hzero 1 child).
    + assert (c = 2) as -> by (pose proof (Hrange _ _ Hcc); lia).
      destruct (pass_ok s below v i child Hs Hst Ha Hi Hcc) as [H1 H2]. apply safe_ok. done.
  - assert (i = len (succ_of edges v)) as Hil.
    { destruct (sk_index s Hs v i) as [Hle _]; [rewrite Hst; apply elem_of_app; right; left|].
      destruct (decide (i = len (succ_of edges v))); [done|]. destruct (get_is_Some (succ_of edges v) i) as [? ?]; [lia|congruence]. }
    eapply safe_bind; [apply child_distance_ok|].
    { intros c Hcin. rewrite (sk_distances s Hs). by apply (go_targets _ _ _ Hgraph v). }
    intros best Hbest. destruct best as [d|]; cbn [with_context mbind res_bind]; [|by left; eexists]. apply safe_ok.
    destruct (leave_ok s below v i d Hs Hst) as [H1 H2]; [congruence| |split_and!; [done..|by apply Hr2|intros w Hw; by apply (Hzero 2 v)]].
    intros _ child Hin. split; [|by apply Hbest]. apply elem_get in Hin as [j Hj]. pose proof (sk_seen s Hs) as Hseen. rewrite Hst in Hseen.
    eapply all_seen_top; [exact Hseen| |exact Hj]. rewrite Hil. by apply get_Some_lt in Hj.
Qed.

Lemma path_loop_ok fuel s :
  search_ok s -> (forall w c, get (colors s) w = Some c -> c <= 2) -> (weight s < fuel)%nat ->
  safe (path_loop fuel graph s) (fun s' => search_ok s' /\ stack s' = [] /\
    (forall w c, get (colors s') w = Some c -> c <= 2) /\ (forall w, get (colors s') w = Some 0 -> get (colors s) w = Some 0)).
Proof using Hgraph.
  revert s. induction fuel as [|fuel IH]; intros s Hs Hr Hw; [lia|]. cbn [path_loop]. destruct (last (stack s)) as [[v i]|] eqn:E.
  - apply last_Some in E as [below Hst]. rewrite Hst, removelast_last.
    eapply safe_bind; [by apply path_step_ok|]. intros s1 (H1 & H2 & H3 & H4). eapply safe_weaken; [apply IH; [done|done|lia]|].
    intros s2 (H5 & H6 & H7 & H8). split_and!; [done..|]. intros w Hw0. by apply H4, H8.
  - apply last_None in E. apply safe_ok. done.
Qed.

Lemma finished_path s v k :
  search_ok s -> get (colors s) v = Some 2 -> path_to accepting edges v k -> exists d, get (distances s) v = Some d /\ k <= d.
Proof using Hgraph.
  intros Hs Hv Hp. induction Hp as [v Ha|v child k Ha Hin _ IH]; destruct (sk_left s Hs v Hv) as [H1 H2].
  - exists 0. split; [by apply H1|lia].
  - destruct (H2 Ha child Hin) as (Hc & d & d' & Hd & Hd' & Hle). destruct (IH Hc) as (d2 & Hd2 & Hk). exists d. split; [done|].
    replace d2 with d' in Hk by congruence. lia.
Qed.

(** The search ends without a panic, and its answer bounds every path. *)
Lemma initial_weight n :
  (list_sum (zip_with node_weight (replicate n 0%N) edges) <= 2 * n + list_sum (fmap (M := list) (fun e => length (items e)) edges))%nat.
Proof.
  clear Hgraph. revert n. generalize edges. intros all_. induction all_ as [|e es IH]; intros [|n]; cbn [replicate zip_with]; [done|cbn; lia|cbn; lia|].
  specialize (IH n). rewrite fmap_cons.
  change (node_weight 0%N e + list_sum (zip_with node_weight (replicate n 0%N) es) <=
    2 * S n + (length (items e) + list_sum (fmap (M := list) (fun e => length (items e)) es)))%nat.
  unfold node_weight at 1. rewrite decide_True by done. lia.
Qed.

Lemma longest_path_ok grow :
  g_start graph < nodes ->
  safe (find_longest_accepting_path grow graph) (fun d =>
    (forall k, path_to accepting edges (g_start graph) k -> k <= d) /\ (get accepting (g_start graph) = Some true -> d = 0)).
Proof using Hgraph.
  intros Hstart. unfold find_longest_accepting_path. safe_next. intros scratch _.
  do 3 (safe_next; intros [? ?] _). set (size_ := length (items (g_states graph))).
  assert (forall w c, get (replicate size_ 0) w = Some c -> c = 0) as Hzero.
  { intros w c H. unfold get in H. by apply lookup_replicate in H as [-> _]. }
  assert (len (replicate size_ 0) = nodes) as Hlen by (unfold len; by rewrite length_replicate).
  destruct (get_is_Some (replicate size_ 0) (g_start graph)) as [c0 Hc0]; [by rewrite Hlen|]. rewrite Hc0. cbn [expect mbind res_bind].
  set (first_ := {| colors := _; distances := _; stack := _ |}).
  assert (get (colors first_) (g_start graph) = Some 1) as Hs1 by (apply get_set_eq; by rewrite Hlen).
  assert (forall w, w <> g_start graph -> w < nodes -> get (colors first_) w = Some 0) as Hs2.
  { intros w Hne Hw. cbn. rewrite get_set_ne by done. destruct (get_is_Some (replicate size_ 0) w) as [c Hc]; [by rewrite Hlen|]. by rewrite Hc, (Hzero w c Hc). }
  assert (search_ok first_ /\ (weight first_ < path_fuel graph)%nat) as [Hok Hw].
  { split.
    - split.
      + cbn. by rewrite len_set.
      + cbn. done.
      + cbn. apply NoDup_singleton.
      + intros w. cbn [first_ stack fmap list_fmap fst]. rewrite list_elem_of_singleton. destruct (decide (w = g_start graph)) as [->|Hne]; [done|].
        split; [done|]. intros H. assert (w < nodes) by (apply get_Some_lt in H; cbn in H; by rewrite len_set, Hlen in H). rewrite Hs2 in H by done. done.
      + intros v i [= -> ->]%list_elem_of_singleton. split; [lia|by left].
      + intros w _ Hwn. cbn. destruct (get_is_Some (replicate size_ 0) w) as [c Hc]; [by rewrite Hlen|]. by rewrite Hc, (Hzero w c Hc).
      + cbn. split; [intros; lia|done].
      + intros w Hw2. destruct (decide (w = g_start graph)) as [->|Hne]; [congruence|].
        assert (w < nodes) by (apply get_Some_lt in Hw2; cbn in Hw2; by rewrite len_set, Hlen in Hw2). rewrite Hs2 in Hw2 by done. done.
    - unfold weight, path_fuel. cbn [first_ colors stack]. pose proof (initial_weight size_) as H. fold edges. fold size_.
      destruct (get_edges (g_start graph) Hstart) as (e & He & Hse). destruct (get_is_Some (replicate size_ 0) (g_start graph)) as [c Hc]; [by rewrite Hlen|].
      rewrite (Hzero _ _ Hc) in Hc. pose proof (weight_set (replicate size_ 0) edges (N.to_nat (g_start graph)) 0 e 1 Hc He) as Hset.
      unfold node_weight at 2 4 in Hset. rewrite decide_True, decide_False in Hset by done.
      cbn [fmap list_fmap]. unfold entry_weight. cbn [fst snd]. rewrite Hse. cbn [list_sum fold_right]. lia. }
  eapply safe_bind; [apply path_loop_ok; [exact Hok| |exact Hw]|].
  { intros w c Hc. destruct (decide (w = g_start graph)) as [->|Hne]; [replace c with 1 by congruence; lia|].
    assert (w < nodes) by (apply get_Some_lt in Hc; cbn in Hc; by rewrite len_set, Hlen in Hc). rewrite Hs2 in Hc by done. injection Hc as <-. lia. }
  intros done_ (Hs & Hst & Hr & Hz). assert (get (colors done_) (g_start graph) = Some 2) as H2.
  { destruct (get_is_Some (colors done_) (g_start graph)) as [c Hc]; [by rewrite (sk_colors done_ Hs)|]. pose proof (Hr _ _ Hc).
    assert (c <> 0) by (intros ->; apply Hz in Hc; congruence).
    assert (c <> 1) by (intros ->; apply (sk_stack done_ Hs) in Hc; rewrite Hst in Hc; by apply elem_of_nil in Hc). rewrite Hc. f_equal. lia. }
  destruct (get_is_Some (distances done_) (g_start graph)) as [d Hd]; [by rewrite (sk_distances done_ Hs)|]. rewrite Hd. apply safe_ok. split.
  2: { intros Ha. destruct (sk_left done_ Hs _ H2) as [H0 _]. specialize (H0 Ha). congruence. }
  intros k Hk. destruct (finished_path done_ (g_start graph) k Hs H2 Hk) as (d' & Hd' & Hle). congruence.
Qed.
End search.

(** ** Breadth-first search *)

(** What the search relies on of the automaton: a class of bytes has a
    representative, a dead state stays dead and does not accept, and there are
    finitely many states. *)
Class Automaton (next_state : N -> N -> N) (next_eoi_state : N -> N) (is_dead_state is_quit_state is_match_state : N -> bool)
    (representatives : list N) (start : N) (universe : list N) : Prop := {
  class_representative : forall byte, byte < 256 -> exists r, r ∈ representatives /\ forall q, next_state q r = next_state q byte;
  dead_stays : forall q byte, is_dead_state q = true -> is_dead_state (next_state q byte) = true;
  dead_rejects : forall q, is_dead_state q = true -> is_accepting next_eoi_state is_dead_state is_quit_state is_match_state q = false;
  start_known : start ∈ universe;
  next_known : forall q r, q ∈ universe -> r ∈ representatives -> next_state q r ∈ universe;
}.

Section build.
Context (grow : N -> N -> option N) (next_state : N -> N -> N) (next_eoi_state : N -> N) (is_dead_state is_quit_state is_match_state : N -> bool).
Context (representatives : list N) (start : N) (universe : list N).
Context `{!Automaton next_state next_eoi_state is_dead_state is_quit_state is_match_state representatives start universe}.
Let accepts := is_accepting next_eoi_state is_dead_state is_quit_state is_match_state.

Abbreviation states_of b := (items (b_states b)).
Abbreviation accepting_of b := (items (b_accepting b)).
Abbreviation edges_of b := (items (b_edges b)).

(** The step of the automaton out of a visited state is an edge, unless it dies. *)
Definition leads (b : Builder) (index next : N) : Prop :=
  is_quit_state next = false /\
  (is_dead_state next = true \/ exists j, get (states_of b) j = Some next /\ j ∈ succ_of (edges_of b) index).
Definition visited_ok (b : Builder) (index state : N) : Prop :=
  get (accepting_of b) index = Some (accepts state) /\
  (accepts state = false -> forall r, r ∈ representatives -> leads b index (next_state state r)).

(** The states popped from the queue, and the ones visited. *)
Record built (b : Builder) (popped visited : N) : Prop := {
  bu_queue : items (b_queue b) = range popped (len (states_of b));
  bu_popped : popped <= len (states_of b) /\ visited <= popped;
  bu_accepting : len (accepting_of b) = len (states_of b);
  bu_edges : len (edges_of b) = len (states_of b);
  bu_targets : forall v child, child ∈ succ_of (edges_of b) v -> child < len (states_of b);
  bu_indices : forall q i, items (b_indices b) !! q = Some i <-> get (states_of b) i = Some q;
  bu_start : get (states_of b) 0 = Some start;
  bu_universe : forall q, q ∈ states_of b -> q ∈ universe;
  bu_visited : forall i q, i < visited -> get (states_of b) i = Some q -> visited_ok b i q;
  bu_fresh : forall i, visited <= i -> i < len (states_of b) -> get (accepting_of b) i = Some false;
}.

Record extends (b b' : Builder) : Prop := {
  ex_states : forall i q, get (states_of b) i = Some q -> get (states_of b') i = Some q;
  ex_edges : forall v child, child ∈ succ_of (edges_of b) v -> child ∈ succ_of (edges_of b') v;
  ex_accepting : forall i a, get (accepting_of b) i = Some a -> get (accepting_of b') i = Some a;
}.
Lemma extends_trans b1 b2 b3 : extends b1 b2 -> extends b2 b3 -> extends b1 b3.
Proof. intros [A1 A2 A3] [B1 B2 B3]. split; eauto. Qed.
Lemma leads_extends b b' i q : extends b b' -> leads b i q -> leads b' i q.
Proof. intros [A1 A2 _] [Hq [Hd|(j & Hj & Hin)]]; (split; [done|]); [by left|right; exists j; eauto]. Qed.
Lemma visited_extends b b' i q : extends b b' -> visited_ok b i q -> visited_ok b' i q.
Proof. intros He [Ha Hl]. split; [by apply He|]. intros H r Hr. eapply leads_extends; [exact He|]. by apply Hl. Qed.

Definition same_items (b b' : Builder) : Prop :=
  items (b_indices b') = items (b_indices b) /\ items (b_queue b') = items (b_queue b) /\ states_of b' = states_of b /\
  accepting_of b' = accepting_of b /\ edges_of b' = edges_of b.
Lemma same_built b b' popped visited : same_items b b' -> built b popped visited -> built b' popped visited /\ extends b b'.
Proof.
  intros (E1 & E2 & E3 & E4 & E5) [H1 H2 H3 H4 H5 H6 H7 H8 H9 H10]. split.
  - split; rewrite ?E1, ?E2, ?E3, ?E4, ?E5; try done. intros i q Hi Hq. destruct (H9 i q Hi Hq) as [Ha Hl].
    unfold visited_ok, leads. rewrite E3, E4, E5. done.
  - split; rewrite ?E3, ?E4, ?E5; done.
Qed.

Lemma reserve_state_safe limit b : safe (reserve_state grow limit b) (same_items b).
Proof.
  unfold reserve_state. safe_next. intros [indices s1] H1.
  safe_next. intros [queue s2] H2. safe_next. intros [states s3] H3.
  safe_next. intros [acc s4] H4. safe_next. intros [edges s5] H5.
  apply safe_ok. cbn in *. by split_and!.
Qed.
#[local] Hint Resolve reserve_state_safe : safe.

Lemma succ_of_snoc (es : list (Sized (list N))) v : succ_of (es ++ [no_items]) v = succ_of es v.
Proof.
  unfold succ_of. destruct (decide (v < len es)) as [Hv|Hv]; [by rewrite get_app_l|].
  assert (get es v = None) as -> by (destruct (get es v) eqn:E; [apply get_Some_lt in E; lia|done]).
  destruct (get (es ++ [no_items]) v) as [e|] eqn:E; [|done]. apply get_snoc in E as [?|[_ ->]]; [apply get_Some_lt in H; lia|done].
Qed.
Lemma get_extend {A} (l : list A) x i y : get l i = Some y -> get (l ++ [x]) i = Some y.
Proof. intros H. rewrite get_app_l; [done|by apply get_Some_lt in H]. Qed.

Lemma push_state_ok b popped visited q :
  built b popped visited -> items (b_indices b) !! q = None -> q ∈ universe ->
  let '(b', index) := push_state q b in
  built b' popped visited /\ extends b b' /\ get (states_of b') index = Some q.
Proof.
  intros [H1 [H2 H2'] H3 H4 H5 H6 H7 H8 H9 H10] Hq Hu. unfold push_state. cbn [b_states push items].
  assert (extends b {| b_indices := {| items := <[q := len (states_of b)]> (items (b_indices b)); capacity := capacity (b_indices b) |};
      b_queue := push (b_queue b) (len (states_of b)); b_states := push (b_states b) q; b_accepting := push (b_accepting b) false;
      b_edges := push (b_edges b) no_items; b_scratch := b_scratch b |}) as Hext.
  { split; cbn [b_states b_accepting b_edges push items]; [intros; by apply get_extend| |intros; by apply get_extend].
    intros v child. by rewrite succ_of_snoc. }
  split; [|split; [exact Hext|by apply get_snoc; right]].
  split; cbn [b_states b_accepting b_edges b_queue b_indices push items]; rewrite ?len_app.
  - rewrite H1. change (len [q]) with 1. symmetry. by apply range_snoc.
  - change (len [q]) with 1. lia.
  - by rewrite H3.
  - change (len [q]) with 1. change (len [no_items]) with 1. by rewrite H4.
  - intros v child. rewrite succ_of_snoc. intros Hin. apply H5 in Hin. lia.
  - intros x i. rewrite get_snoc, <- H6. destruct (decide (x = q)) as [->|Hne].
    + rewrite lookup_insert_eq. split; [intros [= <-]; by right|intros [?|[-> _]]; [congruence|done]].
    + rewrite lookup_insert_ne by done. split; [by left|intros [?|[_ ?]]; [done|congruence]].
  - by apply get_extend.
  - intros x [?| ->%list_elem_of_singleton]%elem_of_app; [by apply H8|done].
  - intros i x Hi [Hx|[-> ->]]%get_snoc; [|lia]. eapply visited_extends; [exact Hext|]. by apply H9.
  - intros i Hi. change (len [q]) with 1. intros Hlt. rewrite get_snoc. destruct (decide (i < len (states_of b))); [left; by apply H10|right].
    split; [lia|done].
Qed.

Lemma next_index_safe limit b popped visited q :
  built b popped visited -> q ∈ universe ->
  safe (next_index grow limit q b) (fun '(b', index) => built b' popped visited /\ extends b b' /\ get (states_of b') index = Some q).
Proof.
  intros Hb Hq. unfold next_index. destruct (items (b_indices b) !! q) as [index|] eqn:E.
  - apply safe_ok. split_and!; [done|by split|]. by apply (bu_indices _ _ _ Hb).
  - safe_next. intros b1 Hsame. destruct (same_built _ _ _ _ Hsame Hb) as [Hb1 He1]. apply safe_ok.
    pose proof (push_state_ok b1 popped visited q Hb1) as H. destruct Hsame as (E1 & _). rewrite E1 in H. specialize (H E Hq).
    destruct (push_state q b1) as [b2 index]. destruct H as (H1 & H2 & H3). split_and!; [done|by eapply extends_trans|done].
Qed.

Lemma with_edges_ok b popped visited index target edges scratch :
  built b popped visited -> target < len (states_of b) -> visited <= index ->
  len (items edges) = len (edges_of b) ->
  (forall v child, child ∈ succ_of (items edges) v <-> child ∈ succ_of (edges_of b) v \/ v = index /\ child = target) ->
  built (with_edges b edges scratch) popped visited /\ extends b (with_edges b edges scratch) /\
  target ∈ succ_of (edges_of (with_edges b edges scratch)) index.
Proof.
  intros Hb Ht Hi Hlen Hedges. assert (extends b (with_edges b edges scratch)) as Hext.
  { split; cbn; try done. intros v child H. apply Hedges. by left. }
  split; [|split; [done|cbn; apply Hedges; by right]]. destruct Hb as [H1 H2 H3 H4 H5 H6 H7 H8 H9 H10].
  split; cbn [with_edges b_states b_accepting b_edges b_queue b_indices]; try done.
  - by rewrite Hlen.
  - intros v child [H|[_ ->]]%Hedges; [by eapply H5|done].
  - intros i q Hlt Hq. eapply visited_extends; [exact Hext|]. by apply H9.
Qed.

(** The byte classes in [pre] have been followed out of a state. *)
Record following (index state : N) (pre : list N) (b : Builder) (destinations : Sized (list N)) : Prop := {
  fw_built : built b (index + 1) index;
  fw_state : get (states_of b) index = Some state;
  fw_leads : forall r, r ∈ pre -> leads b index (next_state state r);
  fw_destinations : forall q, q ∈ items destinations -> exists j, get (states_of b) j = Some q /\ j ∈ succ_of (edges_of b) index;
}.

Lemma following_extends index state pre b destinations b' :
  following index state pre b destinations -> built b' (index + 1) index -> extends b b' -> following index state pre b' destinations.
Proof.
  intros [H1 H2 H3 H4] Hb He. split; [done|by apply He| |].
  - intros r Hr. eapply leads_extends; [exact He|]. by apply H3.
  - intros q Hq. destruct (H4 q Hq) as (j & Hj & Hin). exists j. split; by apply He.
Qed.

Lemma visit_class_safe limit index state pre b destinations r :
  following index state pre b destinations -> r ∈ representatives ->
  safe (visit_class grow next_state is_dead_state is_quit_state limit index (b, destinations) r)
    (fun '(b', destinations') => following index state (pre ++ [r]) b' destinations').
Proof using All.
  intros Hf Hr. destruct Hf as [Hb Hs Hl Hd] eqn:E. clear E. unfold visit_class. rewrite Hs. cbn [expect mbind res_bind].
  assert (next_state state r ∈ universe) as Hu by (apply next_known; [apply (bu_universe _ _ _ Hb); by eapply get_elem|done]).
  set (next := next_state state r) in *. destruct (is_quit_state next) eqn:Hq; [by left; eexists|].
  assert (forall b' d', following index state pre b' d' -> leads b' index next -> following index state (pre ++ [r]) b' d') as Hadd.
  { intros b' d' [F1 F2 F3 F4] Hlead. split; [done..| |done]. intros x [?| ->%list_elem_of_singleton]%elem_of_app; [by apply F3|done]. }
  destruct (is_dead_state next || bool_decide (next ∈ items destinations)) eqn:Hskip.
  { apply safe_ok. apply Hadd; [by split|]. split; [done|]. apply orb_prop in Hskip as [?|Hin%bool_decide_eq_true]; [by left|right; by apply Hd]. }
  safe_next. intros [d1 s1] Hitems. cbn [fst] in Hitems.
  destruct (same_built b (with_scratch b s1) _ _ ltac:(done) Hb) as [Hb1 He1].
  eapply safe_bind; [apply next_index_safe; [exact Hb1|done]|]. intros [b2 target] (Hb2 & He2 & Htarget).
  eapply safe_bind; [apply push_edge_safe|].
  { rewrite (bu_edges _ _ _ Hb2). destruct (bu_popped _ _ _ Hb2). lia. }
  intros [edges s3] (Hlen & Hedges). apply safe_ok.
  destruct (with_edges_ok b2 (index + 1) index index target edges s3 Hb2) as (Hb3 & He3 & Hin3); [by apply get_Some_lt in Htarget|lia|done|done|].
  assert (extends b (with_edges b2 edges s3)) as Hext by (eapply extends_trans; [exact He1|]; by eapply extends_trans).
  assert (exists j, get (states_of (with_edges b2 edges s3)) j = Some next /\ j ∈ succ_of (edges_of (with_edges b2 edges s3)) index) as Hnext by (by exists target).
  apply Hadd; [|by split; [|right]]. destruct (following_extends _ _ _ _ destinations _ Hf Hb3 Hext) as [F1 F2 F3 F4]. split; [done..|].
  cbn [push items]. rewrite Hitems. intros q [?| ->%list_elem_of_singleton]%elem_of_app; [by apply F4|done].
Qed.

Lemma with_scratch_ok b popped visited scratch : built b popped visited -> built (with_scratch b scratch) popped visited.
Proof. intros H. by apply (same_built b (with_scratch b scratch)). Qed.

Lemma pop_queue_ok b index rest :
  built b index index -> items (b_queue b) = index :: rest -> index < len (states_of b) /\ built (pop_queue b rest) (index + 1) index.
Proof.
  intros [H1 [H2 H2'] H3 H4 H5 H6 H7 H8 H9 H10] Hq. rewrite H1 in Hq. destruct (decide (index < len (states_of b))) as [Hlt|]; [|by rewrite range_nil in Hq by lia].
  rewrite range_cons in Hq by done. injection Hq as <-. split; [done|]. split; cbn [pop_queue b_queue b_states b_accepting b_edges b_indices items]; try done. lia.
Qed.

Lemma visit_state_safe limit b index :
  built b (index + 1) index -> index < len (states_of b) ->
  safe (visit_state grow next_state next_eoi_state is_dead_state is_quit_state is_match_state representatives limit b index)
    (fun b' => built b' (index + 1) (index + 1)).
Proof using All.
  intros Hb Hi. unfold visit_state. destruct (get_is_Some _ _ Hi) as [q Hq]. rewrite Hq. cbn [expect mbind res_bind]. fold accepts.
  destruct (accepts q) eqn:Ha.
  - destruct (get_is_Some (accepting_of b) index) as [a Hac]; [by rewrite (bu_accepting _ _ _ Hb)|]. rewrite Hac. cbn [expect mbind res_bind]. apply safe_ok.
    destruct Hb as [H1 [H2 H2'] H3 H4 H5 H6 H7 H8 H9 H10].
    split; cbn [b_queue b_states b_accepting b_edges b_indices items]; try done.
    + by rewrite len_set.
    + intros i x Hlt Hx. destruct (decide (i = index)) as [->|Hne].
      * replace x with q by congruence. split; cbn [b_accepting items]; [rewrite get_set_eq by (by rewrite H3); by rewrite Ha|congruence].
      * destruct (H9 i x ltac:(lia) Hx) as [Hax Hlx]. split; [cbn [b_accepting items]; by rewrite get_set_ne|exact Hlx].
    + intros i Hle Hlt. rewrite get_set_ne by lia. apply H10; [lia|done].
  - eapply safe_bind; [apply (foldM_safe (fun pre '(b', destinations) => following index q pre b' destinations))|].
    + split; [done|done|by intros r ?%elem_of_nil|by intros x ?%elem_of_nil].
    + intros pre r post [b1 d1] Hl Hf. apply (visit_class_safe limit index q pre b1 d1 r Hf). rewrite Hl. apply elem_of_app. right. left.
    + intros [b1 d1] [F1 F2 F3 F4]. safe_next. intros bytes _. safe_next. intros scratch _.
      apply safe_ok. apply with_scratch_ok. destruct F1 as [H1 [H2 H2'] H3 H4 H5 H6 H7 H8 H9 H10]. split; try done.
      * intros i x Hlt Hx. destruct (decide (i = index)) as [->|Hne]; [|apply H9; [lia|done]]. replace x with q by congruence.
        split; [rewrite Ha; apply H10; [lia|by apply get_Some_lt in Hx]|]. intros _ r Hr. by apply F3.
      * intros i Hle' Hlt. apply H10; [lia|done].
Qed.

Lemma built_small b popped visited : built b popped visited -> len (states_of b) <= len universe.
Proof.
  intros Hb. assert (NoDup (states_of b)) as Hnd.
  { apply NoDup_alt. intros i j x Hi Hj. pose proof (proj2 (bu_indices _ _ _ Hb x (N.of_nat i))) as H1.
    pose proof (proj2 (bu_indices _ _ _ Hb x (N.of_nat j))) as H2. unfold get in H1, H2. rewrite Nat2N.id in H1, H2.
    specialize (H1 Hi). specialize (H2 Hj). assert (N.of_nat i = N.of_nat j) by congruence. lia. }
  assert (states_of b ⊆+ universe) as Hsub by (apply NoDup_submseteq; [done|apply (bu_universe _ _ _ Hb)]).
  apply submseteq_length in Hsub. unfold len. lia.
Qed.

Lemma visit_loop_safe fuel limit b done_ :
  built b done_ done_ -> (N.to_nat (len universe - done_) < fuel)%nat ->
  safe (visit_loop grow next_state next_eoi_state is_dead_state is_quit_state is_match_state representatives fuel limit b)
    (fun b' => built b' (len (states_of b')) (len (states_of b'))).
Proof using All.
  revert b done_. induction fuel as [|fuel IH]; intros b done_ Hb Hf; [lia|]. cbn [visit_loop]. destruct (items (b_queue b)) as [|index rest] eqn:Hq.
  - apply safe_ok. pose proof (bu_queue _ _ _ Hb) as Hr. rewrite Hq in Hr. destruct (bu_popped _ _ _ Hb) as [Hp _].
    destruct (decide (done_ < len (states_of b))) as [Hlt|]; [by rewrite range_cons in Hr|]. by replace (len (states_of b)) with done_ by lia.
  - assert (index = done_) as ->.
    { pose proof (bu_queue _ _ _ Hb) as Hr. rewrite Hq in Hr. destruct (decide (done_ < len (states_of b))) as [Hlt|]; [|by rewrite range_nil in Hr by lia].
      rewrite range_cons in Hr by done. by injection Hr. }
    destruct (pop_queue_ok b done_ rest Hb Hq) as [Hlt Hpop]. pose proof (built_small _ _ _ Hb).
    eapply safe_bind; [by apply visit_state_safe|]. intros b1 Hb1. apply (IH b1 (done_ + 1)); [done|lia].
Qed.
End build.

(** ** The states that reach acceptance, and their graph *)

Section prune.
Context (grow : N -> N -> option N) (limit : N).
Context (nodes : N) (accepting : list bool) (edges : list (Sized (list N))) (Hgraph : graph_ok nodes accepting edges).

(** Every source of an edge is known to its target. *)
Definition reversed (pre : list (N * N)) (reverse : list (Sized (list N))) : Prop :=
  len reverse = nodes /\ (forall v source, source ∈ succ_of reverse v -> source < nodes) /\
  forall source target, (source, target) ∈ pre -> source ∈ succ_of reverse target.

Lemma reverse_edges_safe reverse0 scratch :
  reversed [] (items reverse0) ->
  safe (reverse_edges grow limit edges reverse0 scratch) (fun '(reverse, _) =>
    len (items reverse) = nodes /\ (forall v source, source ∈ succ_of (items reverse) v -> source < nodes) /\
    forall source target, target ∈ succ_of edges source -> source ∈ succ_of (items reverse) target).
Proof using Hgraph.
  intros H0. unfold reverse_edges.
  eapply safe_weaken; [apply (foldM_safe (fun pre '(reverse, _) => reversed (mbind (fun '(source, d) => pair source <$> items d) pre) (items reverse))); [done|]|].
  - intros pre [source d] post [reverse s] Hl Hrev. rewrite bind_app. cbn [mbind list_bind]. rewrite app_nil_r.
    assert (get edges source = Some d) as Hd by (apply elem_of_enumerate; rewrite Hl; apply elem_of_app; right; left).
    assert (source < nodes) as Hsource by (rewrite <- (go_edges _ _ _ Hgraph); by apply get_Some_lt in Hd).
    set (before := mbind _ pre) in *.
    eapply safe_weaken; [apply (foldM_safe (fun pre' '(reverse, _) => reversed (before ++ (pair source <$> pre')) (items reverse)))|].
    + by rewrite fmap_nil, app_nil_r.
    + intros pre' target post' [reverse' s'] Hl' (Hlen & Hb & Hin).
      assert (target < nodes) as Ht.
      { apply (go_targets _ _ _ Hgraph source). unfold succ_of. rewrite Hd, Hl'. apply elem_of_app. right. left. }
      eapply safe_weaken; [apply push_edge_safe|].
      { exact (eq_ind_r (fun n => target < n) Ht Hlen). } intros [reverse2 s2] (Hlen2 & Hiff). split; [by rewrite Hlen2|]. split.
      * intros v x [H|[_ ->]]%Hiff; [by eapply Hb|done].
      * intros a b. rewrite fmap_app, app_assoc, elem_of_app. cbn. rewrite list_elem_of_singleton, Hiff.
        intros [H|[= -> ->]]; [left; by apply Hin|by right].
    + intros [reverse' s'] H. exact H.
  - intros [reverse s] (Hlen & Hb & Hin). split_and!; [done..|]. intros source target Ht. apply Hin, list_elem_of_bind.
    unfold succ_of in Ht. destruct (get edges source) as [d|] eqn:Hd; [|by apply elem_of_nil in Ht]. exists (source, d).
    split; [|by apply elem_of_enumerate]. apply list_elem_of_fmap. eauto.
Qed.

End prune.

(** Marking backwards from the accepting states. *)
Definition unmarked (marks : list bool) : nat := length (filter (fun m => m = false) marks).

Lemma unmarked_set marks i : marks !! i = Some false -> S (unmarked (<[i := true]> marks)) = unmarked marks.
Proof.
  unfold unmarked. revert i. induction marks as [|m marks IH]; intros [|i] H; try done; cbn [lookup list_lookup] in H.
  - injection H as ->. cbn [insert list_insert]. rewrite !filter_cons. rewrite decide_False, decide_True by done. done.
  - change (<[S i := true]> (m :: marks)) with (m :: <[i := true]> marks). rewrite !filter_cons. specialize (IH i H).
    destruct (decide (m = false)); cbn [length]; lia.
Qed.

Section mark.
Context (nodes : N) (accepting : list bool).

Record marking (reverse : list (Sized (list N))) (marks : list bool) (queue : list N) : Prop := {
  mk_len : len marks = nodes;
  mk_queue : forall v, v ∈ queue -> get marks v = Some true;
  mk_accepting : forall v, get accepting v = Some true -> get marks v = Some true;
  mk_closed : forall v source, get marks v = Some true -> v ∉ queue -> source ∈ succ_of reverse v -> get marks source = Some true;
}.

Lemma mark_loop_safe reverse fuel marks queue :
  len reverse = nodes -> (forall v source, source ∈ succ_of reverse v -> source < nodes) ->
  marking reverse marks queue -> NoDup queue -> (unmarked marks + length queue < fuel)%nat ->
  safe (mark_loop fuel reverse marks queue) (fun marks' => marking reverse marks' []).
Proof.
  intros Hlen Hb. revert marks queue. induction fuel as [|fuel IH]; intros marks queue Hm Hnd Hf; [lia|]. cbn [mark_loop].
  destruct queue as [|index rest]; [by apply safe_ok|].
  destruct Hm as [M1 M2 M3 M4]. assert (get marks index = Some true) as Hi by (apply M2; left).
  destruct (get_is_Some reverse index) as [sources He]; [rewrite Hlen, <- M1; by apply get_Some_lt in Hi|]. rewrite He. cbn [expect mbind res_bind].
  assert (succ_of reverse index = items sources) as Hs by (unfold succ_of; by rewrite He). apply NoDup_cons in Hnd as [Hn Hnd].
  eapply safe_bind; [apply (foldM_safe (fun pre '(marks', queue') => len marks' = nodes /\ NoDup queue' /\ rest ⊆ queue' /\
    (forall v, v ∈ queue' -> get marks' v = Some true) /\ (forall v, get marks v = Some true -> get marks' v = Some true) /\
    (forall v, get marks' v = Some true -> get marks v = Some true \/ v ∈ queue') /\
    (forall v, v ∈ pre -> get marks' v = Some true) /\ (unmarked marks' + length queue' = unmarked marks + length rest)%nat))|].
  - split_and!; try done; [intros v Hv; apply M2; by right|by left|by intros v ?%elem_of_nil].
  - intros pre source post [marks' queue'] Hl (I1 & I2 & I3 & I4 & I5 & I6 & I7 & I8). unfold mark_source.
    assert (source < nodes) as Hsrc by (apply (Hb index); rewrite Hs, Hl; apply elem_of_app; right; left).
    destruct (get_is_Some marks' source) as [m Hm]; [by rewrite I1|]. rewrite Hm. cbn [expect mbind res_bind]. destruct m; apply safe_ok.
    + split_and!; try done. intros v [?| ->%list_elem_of_singleton]%elem_of_app; [by apply I7|done].
    + assert (get (<[N.to_nat source := true]> marks') source = Some true) as Hset by (apply get_set_eq; by rewrite I1).
      assert (forall v, get marks' v = Some true -> get (<[N.to_nat source := true]> marks') v = Some true) as Hmono.
      { intros v Hv. rewrite get_set_ne by congruence. done. }
      split_and!.
      * by rewrite len_set.
      * apply NoDup_app. split_and!; [done| |by apply NoDup_singleton]. intros v Hv ->%list_elem_of_singleton. apply I4 in Hv. congruence.
      * intros v Hv. apply elem_of_app. left. by apply I3.
      * intros v [?| ->%list_elem_of_singleton]%elem_of_app; [by apply Hmono, I4|done].
      * intros v Hv. by apply Hmono, I5.
      * intros v Hv. rewrite elem_of_app, list_elem_of_singleton. destruct (decide (v = source)) as [->|Hne]; [tauto|].
        rewrite get_set_ne in Hv by done. apply I6 in Hv. tauto.
      * intros v [?| ->%list_elem_of_singleton]%elem_of_app; [by apply Hmono, I7|done].
      * pose proof (unmarked_set marks' (N.to_nat source) Hm). rewrite length_app. cbn [length]. lia.
  - intros [marks' queue'] (I1 & I2 & I3 & I4 & I5 & I6 & I7 & I8). apply IH; [|done|cbn [length] in Hf; lia]. split; try done.
    + intros v Hv. by apply I5, M3.
    + intros v source Hv Hq Hin. destruct (decide (v = index)) as [->|Hne]; [apply I7; by rewrite <- Hs|].
      apply I6 in Hv as [Hv|]; [|done]. apply I5, (M4 v); [done| |done]. intros [->|Hr]%elem_of_cons; [done|]. by apply Hq, I3.
Qed.
End mark.

(** The place of a kept index among the kept ones. *)
Definition rank (marks : list bool) (i : N) : N := len (filter (fun m => m = true) (take (N.to_nat i) marks)).

Lemma rank_0 marks : rank marks 0 = 0.
Proof. done. Qed.
Lemma rank_cons m marks i : rank (m :: marks) (1 + i) = (if m : bool then 1 else 0) + rank marks i.
Proof.
  unfold rank. replace (N.to_nat (1 + i)) with (S (N.to_nat i)) by lia. cbn [take]. rewrite filter_cons.
  destruct m; [rewrite decide_True by done; by rewrite len_cons|by rewrite decide_False].
Qed.

Lemma remap_get k marks i : get marks i = Some true -> get (remap_from k marks) i = Some (k + rank marks i).
Proof.
  revert k i. induction marks as [|m marks IH]; intros k i Hi; [done|]. apply get_cons_cases in Hi as [[-> <-]|(i' & -> & Hi)].
  - cbn [remap_from]. rewrite get_cons_0, rank_0. f_equal. lia.
  - rewrite rank_cons. destruct m; cbn [remap_from]; rewrite get_cons_S, IH by done; f_equal; lia.
Qed.

Lemma retain_ok {A} marks (l : list A) :
  len l = len marks -> exists l', retain marks l = Ok l' /\ len l' = len (filter (fun m => m = true) marks) /\
    (forall i x, get l i = Some x -> get marks i = Some true -> get l' (rank marks i) = Some x) /\
    (forall j x, get l' j = Some x -> exists i, get l i = Some x /\ get marks i = Some true /\ j = rank marks i).
Proof.
  revert marks. induction l as [|x l IH]; intros [|m marks] Hlen; rewrite ?len_nil, ?len_cons in Hlen; try lia.
  { exists []. cbn. split_and!; [done|done|intros i x H%get_Some_lt; rewrite len_nil in H; lia|intros j x H%get_Some_lt; rewrite len_nil in H; lia]. }
  destruct (IH marks) as (l' & Hl & Hn & H1 & H2); [lia|]. cbn [retain]. rewrite Hl. cbn [mbind res_bind].
  eexists. split; [done|]. rewrite filter_cons. destruct m.
  - rewrite decide_True by done. rewrite !len_cons, Hn. split; [done|]. split.
    + intros i y Hy Hm. apply get_cons_cases in Hy as [[-> ->]|(i' & -> & Hy)]; [by rewrite rank_0, get_cons_0|].
      rewrite get_cons_S in Hm. rewrite rank_cons, get_cons_S. by apply H1.
    + intros j y Hj. apply get_cons_cases in Hj as [[-> ->]|(j' & -> & Hj)]; [exists 0; by rewrite !get_cons_0, rank_0|].
      destruct (H2 j' y Hj) as (i & Hi & Hm & ->). exists (1 + i). by rewrite !get_cons_S, rank_cons.
  - rewrite decide_False by done. split; [done|]. split.
    + intros i y Hy Hm. apply get_cons_cases in Hy as [[-> ->]|(i' & -> & Hy)]; [by rewrite get_cons_0 in Hm|].
      rewrite get_cons_S in Hm. rewrite rank_cons, N.add_0_l. by apply H1.
    + intros j y Hj. destruct (H2 j y Hj) as (i & Hi & Hm & ->). exists (1 + i). by rewrite !get_cons_S, rank_cons, N.add_0_l.
Qed.

Lemma rank_lt marks i : get marks i = Some true -> rank marks i < len (filter (fun m => m = true) marks).
Proof.
  intros Hi. unfold rank. unfold get in Hi. apply take_S_r in Hi as Ht. rewrite <- (take_drop (S (N.to_nat i)) marks) at 2.
  rewrite filter_app, Ht, filter_app, !len_app, filter_cons, decide_True by done. len_lia.
Qed.

Section moved.
Context (nodes : N) (accepting : list bool) (edges : list (Sized (list N))) (Hgraph : graph_ok nodes accepting edges).
Context (marks : list bool) (Hmarks : len marks = nodes).

Lemma remap_edges_ok e :
  (forall c, c ∈ items e -> c < nodes) ->
  exists e', remap_edges marks (remap_from 0 marks) e = Ok e' /\
    forall c', c' ∈ items e' <-> exists c, c ∈ items e /\ get marks c = Some true /\ c' = rank marks c.
Proof using Hmarks.
  intros Hb. unfold remap_edges. destruct (mapM_res_total (fun d => expect (get marks d) "index out of bounds") (fun d m => get marks d = Some m) (items e))
    as (keep & -> & Hkeep).
  { intros c Hc. destruct (get_is_Some marks c) as [m Hm]; [rewrite Hmarks; by apply Hb|]. rewrite Hm. by eexists. }
  cbn [mbind res_bind]. destruct (retain_ok keep (items e)) as (kept & -> & _ & H1 & H2); [unfold len; by rewrite (Forall2_length _ _ _ Hkeep)|].
  cbn [mbind res_bind]. assert (forall c, c ∈ kept <-> c ∈ items e /\ get marks c = Some true) as Hkept.
  { intros c. split.
    - intros (j & Hj)%elem_get. destruct (H2 j c Hj) as (i & Hi & Hm & _). split; [by eapply get_elem|].
      by destruct (Forall2_lookup_lr _ _ _ _ _ _ Hkeep Hi Hm).
    - intros [(i & Hi)%elem_get Hm]. destruct (Forall2_lookup_l _ _ _ _ _ Hkeep Hi) as (m & Hk & Hmm).
      assert (m = true) as -> by congruence. by eapply get_elem, H1. }
  destruct (mapM_res_total (fun d => expect (get (remap_from 0 marks) d) "index out of bounds") (fun d c' => c' = rank marks d) kept)
    as (moved & -> & Hmoved).
  { intros c [_ Hc]%Hkept. rewrite (remap_get 0 marks c Hc). by eexists. }
  cbn [mbind res_bind]. eexists. split; [done|]. cbn [items]. intros c'. split.
  - intros (j & Hj)%elem_get. destruct (Forall2_lookup_r _ _ _ _ _ Hmoved Hj) as (c & Hc & ->). exists c.
    apply get_elem, Hkept in Hc as [? ?]. done.
  - intros (c & Hc & Hm & ->). assert (c ∈ kept) as (i & Hi)%elem_get by (by apply Hkept).
    destruct (Forall2_lookup_l _ _ _ _ _ Hmoved Hi) as (c' & Hc' & ->). by eapply (get_elem _ i).
Qed.
End moved.

(** ** The first acceptance of a run *)

Section first.
Context (next_state : N -> N -> N) (next_eoi_state : N -> N) (is_dead_state is_quit_state is_match_state : N -> bool).
Context (representatives : list N) (start : N) (universe : list N).
Context `{Hauto : !Automaton next_state next_eoi_state is_dead_state is_quit_state is_match_state representatives start universe}.
Let accepts := is_accepting next_eoi_state is_dead_state is_quit_state is_match_state.
Let is_built := built next_state next_eoi_state is_dead_state is_quit_state is_match_state representatives start universe.

Definition run (state : N) (bytes : list N) : N := fold_left next_state bytes state.

(** The shortest accepted prefix of the bytes has the length [k], and the
    search for a witness finds it. *)
Record first_accept (state : N) (bytes : list N) (k : N) : Prop := {
  fa_len : k <= len bytes;
  fa_accepts : accepts (run state (take (N.to_nat k) bytes)) = true;
  fa_first : forall j, j < k -> accepts (run state (take (N.to_nat j) bytes)) = false;
  fa_loop : 0 < k -> forall n index, (N.to_nat k <= n)%nat ->
    witness_loop next_state next_eoi_state is_dead_state is_quit_state is_match_state state (take n bytes) index = Some (index + k - 1);
}.

Lemma dead_run q bytes : is_dead_state q = true -> accepts (run q bytes) = false.
Proof using Hauto.
  revert q. induction bytes as [|b bytes IH]; intros q Hq; [by apply dead_rejects|]. cbn. apply IH. by apply dead_stays.
Qed.

Lemma first_here q bytes : accepts q = true -> first_accept q bytes 0.
Proof. intros Hq. split; [lia|done|intros; lia|lia]. Qed.
Lemma first_next q b bytes k :
  accepts q = false -> is_dead_state (next_state q b) = false -> is_quit_state (next_state q b) = false ->
  first_accept (next_state q b) bytes k -> first_accept q (b :: bytes) (k + 1).
Proof.
  intros Hq Hd Hquit [F1 F2 F3 F4]. replace (N.to_nat (k + 1)) with (S (N.to_nat k)) in * by lia. split.
  - len_lia.
  - replace (N.to_nat (k + 1)) with (S (N.to_nat k)) by lia. exact F2.
  - intros j Hj. destruct (decide (j = 0)) as [->|Hj0]; [exact Hq|]. replace (N.to_nat j) with (S (N.to_nat (j - 1))) by lia. apply F3. lia.
  - intros _ n index Hn. destruct n as [|n]; [lia|]. cbn [take witness_loop]. rewrite Hd, Hquit. cbn [orb]. fold accepts.
    destruct (decide (k = 0)) as [->|Hk].
    + change (accepts (next_state q b) = true) in F2. rewrite F2. f_equal. lia.
    + specialize (F3 0 ltac:(lia)). change (accepts (next_state q b) = false) in F3. rewrite F3. rewrite F4 by lia. f_equal. lia.
Qed.

Lemma first_path b q i bytes :
  is_built b (len (items (b_states b))) (len (items (b_states b))) -> Forall (fun x => x < 256) bytes ->
  get (items (b_states b)) i = Some q -> accepts (run q bytes) = true ->
  exists k, path_to (items (b_accepting b)) (items (b_edges b)) i k /\ first_accept q bytes k.
Proof using Hauto.
  intros Hb. revert q i. induction bytes as [|x bytes IH]; intros q i Hbytes Hi Ha;
    destruct (bu_visited _ _ _ _ _ _ _ _ _ _ _ Hb i q ltac:(by apply get_Some_lt in Hi) Hi) as [Hacc Hlead]; fold accepts in Hacc, Hlead.
  { exists 0. split; [apply path_here; rewrite Hacc; by f_equal|by apply first_here]. }
  destruct (accepts q) eqn:Hq; [exists 0; split; [by apply path_here|by apply first_here]|].
  apply Forall_cons in Hbytes as [Hx Hbytes]. destruct (class_representative x Hx) as (r & Hr & Hstep).
  destruct (Hlead eq_refl r Hr) as [Hquit Hcase]. rewrite Hstep in Hquit, Hcase. cbn [run fold_left] in Ha.
  destruct (is_dead_state (next_state q x)) eqn:Hdead.
  { pose proof (dead_run _ bytes Hdead) as H. unfold run in H. congruence. }
  destruct Hcase as [?|(j & Hj & Hedge)]; [congruence|]. destruct (IH _ j Hbytes Hj Ha) as (k & Hp & Hf).
  exists (k + 1). split; [by apply path_next with j|by apply first_next].
Qed.
End first.

(** ** The graph keeps the paths to acceptance *)

Section finish.
Context (nodes : N) (states : Sized (list N)) (accepting : Sized (list bool)) (edges : Sized (list (Sized (list N)))).
Context (Hgraph : graph_ok nodes (items accepting) (items edges)) (Hstates : len (items states) = nodes).
Context (marks : list bool) (Hlen : len marks = nodes).
Context (Hmarked : forall v k, path_to (items accepting) (items edges) v k -> get marks v = Some true).

Definition finished (graph : ProofGraph) : Prop :=
  graph_ok (len (items (g_states graph))) (items (g_accepting graph)) (items (g_edges graph)) /\
  g_start graph < len (items (g_states graph)) /\
  forall k, path_to (items accepting) (items edges) 0 k -> path_to (items (g_accepting graph)) (items (g_edges graph)) (g_start graph) k.

Lemma moved_edges :
  exists moved, mapM_res (remap_edges marks (remap_from 0 marks)) (items edges) = Ok moved /\ len moved = nodes /\
    forall v c, c ∈ succ_of moved v <-> exists c0, c0 ∈ succ_of (items edges) v /\ get marks c0 = Some true /\ c = rank marks c0.
Proof using All.
  destruct (mapM_res_total (remap_edges marks (remap_from 0 marks)) (fun e e' =>
    forall c', c' ∈ items e' <-> exists c, c ∈ items e /\ get marks c = Some true /\ c' = rank marks c) (items edges)) as (moved & Hm & Hall).
  { intros e [v He]%elem_get. apply (remap_edges_ok nodes marks Hlen). intros c Hc. apply (go_targets _ _ _ Hgraph v). unfold succ_of. by rewrite He. }
  exists moved. split; [done|]. split; [unfold len; rewrite <- (Forall2_length _ _ _ Hall); apply (go_edges _ _ _ Hgraph)|].
  intros v c. unfold succ_of. destruct (get (items edges) v) as [e|] eqn:He.
  - destruct (Forall2_lookup_l _ _ _ _ _ Hall He) as (e' & He' & Hiff). unfold get. rewrite He'. apply Hiff.
  - destruct (get moved v) as [e'|] eqn:He'.
    + destruct (Forall2_lookup_r _ _ _ _ _ Hall He') as (e & He2 & _). unfold get in He. congruence.
    + setoid_rewrite elem_of_nil. naive_solver.
Qed.

Lemma graph_finish_safe first :
  get marks 0 = Some first -> first = true ->
  safe (moved ← mapM_res (remap_edges marks (remap_from 0 marks)) (items edges);
    states ← retain_sized marks states;
    accepting ← retain_sized marks accepting;
    edges ← retain_sized marks {| items := moved; capacity := capacity edges |};
    start ← expect (get (remap_from 0 marks) 0) "index out of bounds";
    Ok {| g_start := start; g_states := states; g_accepting := accepting; g_edges := edges |}) finished.
Proof using All.
  intros H0 ->. destruct moved_edges as (moved & -> & Hmoved & Hsucc). cbn [mbind res_bind]. unfold retain_sized. cbn [items capacity].
  destruct (retain_ok marks (items states)) as (states' & -> & Hs1 & _ & _); [by rewrite Hlen|]. cbn [mbind res_bind].
  destruct (retain_ok marks (items accepting)) as (acc' & -> & Ha1 & Ha2 & _); [by rewrite Hlen, (go_accepting _ _ _ Hgraph)|]. cbn [mbind res_bind].
  destruct (retain_ok marks moved) as (edges' & -> & He1 & He2 & He3); [by rewrite Hlen|]. cbn [mbind res_bind].
  rewrite (remap_get 0 marks 0 H0), rank_0. cbn [expect mbind res_bind]. apply safe_ok.
  assert (forall v, get marks v = Some true -> succ_of edges' (rank marks v) = succ_of moved v) as Hrank.
  { intros v Hv. unfold succ_of. destruct (get_is_Some moved v) as [e He]; [rewrite Hmoved, <- Hlen; by apply get_Some_lt in Hv|].
    by rewrite He, (He2 v e He Hv). }
  split; [|split]; cbn [g_states g_accepting g_edges g_start items].
  - split; [by rewrite Ha1, Hs1|by rewrite He1, Hs1|]. intros v c Hc. unfold succ_of in Hc. destruct (get edges' v) as [e|] eqn:He; [|by apply elem_of_nil in Hc].
    destruct (He3 v e He) as (v0 & Hv0 & Hm0 & ->). assert (c ∈ succ_of moved v0) as (c0 & _ & Hc0 & ->)%Hsucc by (unfold succ_of; by rewrite Hv0).
    rewrite Hs1. by apply rank_lt.
  - rewrite Hs1. pose proof (rank_lt marks 0 H0) as H. by rewrite rank_0 in H.
  - change (0 + 0) with 0. cut (forall u n, path_to (items accepting) (items edges) u n -> path_to acc' edges' (rank marks u) n).
    { intros H k Hp. rewrite <- (rank_0 marks). by apply H. }
    intros u n Hp. induction Hp as [v Ha|v c k Ha Hin Hp IH].
    + apply path_here, Ha2; [done|]. apply (Hmarked v 0). by apply path_here.
    + assert (get marks v = Some true) as Hv by (apply (Hmarked v (k + 1)); by apply path_next with c).
      apply path_next with (rank marks c); [by apply Ha2| |exact IH]. rewrite Hrank by done. apply Hsucc. exists c. split_and!; [done| |done].
      by apply (Hmarked c k).
Qed.
End finish.

Section graph.
Context (grow : N -> N -> option N) (next_state : N -> N -> N) (next_eoi_state : N -> N) (is_dead_state is_quit_state is_match_state : N -> bool).
Context (representatives : list N) (start : N) (universe : list N).
Context `{Hauto : !Automaton next_state next_eoi_state is_dead_state is_quit_state is_match_state representatives start universe}.
Let accepts := is_accepting next_eoi_state is_dead_state is_quit_state is_match_state.

Definition bounds_runs (graph : ProofGraph) : Prop :=
  graph_ok (len (items (g_states graph))) (items (g_accepting graph)) (items (g_edges graph)) /\
  g_start graph < len (items (g_states graph)) /\
  forall bytes, Forall (fun x => x < 256) bytes -> accepts (run next_state start bytes) = true ->
    exists k, path_to (items (g_accepting graph)) (items (g_edges graph)) (g_start graph) k /\
      first_accept next_state next_eoi_state is_dead_state is_quit_state is_match_state start bytes k.

Lemma first_state_built limit :
  safe (b ← reserve_state grow limit empty_builder; Ok (push_state start b).1)
    (fun b => built next_state next_eoi_state is_dead_state is_quit_state is_match_state representatives start universe b 0 0).
Proof using Hauto.
  eapply safe_bind; [apply reserve_state_safe|]. intros b (E1 & E2 & E3 & E4 & E5). apply safe_ok. unfold push_state. cbn [fst].
  cbn [empty_builder b_indices b_queue b_states b_accepting b_edges items no_items] in *.
  split; unfold push; cbn [b_indices b_queue b_states b_accepting b_edges items]; rewrite ?E1, ?E2, ?E3, ?E4, ?E5; cbn [app]; try done.
  - intros v c Hc. unfold succ_of in Hc. destruct (get [no_items] v) as [e|] eqn:He; [|by apply elem_of_nil in Hc].
    apply get_elem, list_elem_of_singleton in He as ->. by apply elem_of_nil in Hc.
  - intros q i. rewrite len_nil. destruct (decide (q = start)) as [->|Hne].
    + rewrite lookup_insert_eq. split; [intros [= <-]; done|]. intros H. apply get_Some_lt in H. change (len [start]) with 1 in H. f_equal. lia.
    + rewrite lookup_insert_ne, lookup_empty by done. split; [done|]. intros H. apply get_elem, list_elem_of_singleton in H. done.
  - intros q ->%list_elem_of_singleton. apply start_known.
  - intros i q Hi. lia.
  - intros i Hi Hlt. change (len [start]) with 1 in Hlt. by replace i with 0 by lia.
Qed.

Lemma marked_path nodes accepting edges reverse marks v k :
  marking nodes accepting reverse marks [] -> (forall source target, target ∈ succ_of edges source -> source ∈ succ_of reverse target) ->
  path_to accepting edges v k -> get marks v = Some true.
Proof.
  intros Hm Hrev. induction 1 as [v Ha|v c k Ha Hin _ IH]; [by apply (mk_accepting _ _ _ _ _ Hm)|].
  apply (mk_closed _ _ _ _ _ Hm c v IH); [apply not_elem_of_nil|by apply Hrev].
Qed.

Lemma first_marking accepting reverse :
  marking (len accepting) accepting reverse accepting (fst <$> filter (fun state => state.2 = true) (enumerate accepting)) /\
  NoDup (fst <$> filter (fun state => state.2 = true) (enumerate accepting)) /\
  (unmarked accepting + length (fst <$> filter (fun state => state.2 = true) (enumerate accepting)) = length accepting)%nat.
Proof.
  set (queue := fst <$> _). assert (forall v, v ∈ queue <-> get accepting v = Some true) as Hq.
  { intros v. unfold queue. rewrite list_elem_of_fmap. split.
    - intros ([i m] & -> & [Hm Hi%elem_of_enumerate]%list_elem_of_filter). cbn in *. by subst.
    - intros Hv. exists (v, true). split; [done|]. apply list_elem_of_filter. split; [done|]. by apply elem_of_enumerate. }
  split; [|split].
  - split; [done|by intros v ?%Hq|done|]. intros v source Hv Hn. by apply Hq in Hv.
  - eapply sublist_NoDup; [apply (enumerate_nodup accepting)|]. apply fmap_sublist, sublist_filter.
  - unfold queue, unmarked. rewrite length_fmap. rewrite <- (enumerate_snd accepting) at 1 3. generalize (enumerate accepting). intros l.
    induction l as [|[i m] l IH]; [done|]. cbn [fmap list_fmap]. rewrite !filter_cons. cbn [snd].
    destruct m; [rewrite decide_False, decide_True by done|rewrite decide_True, decide_False by done]; cbn [length]; fold (l.*2); lia.
Qed.

(** The graph bounds the runs of the automaton, whatever the allocator grants. *)
Lemma build_graph_safe fuel limit :
  (length universe < fuel)%nat ->
  safe (build_proof_graph_with_limit grow next_state next_eoi_state is_dead_state is_quit_state is_match_state representatives fuel (Some start) limit)
    bounds_runs.
Proof using Hauto.
  intros Hfuel. unfold build_proof_graph_with_limit. cbn [with_context mbind res_bind]. safe_next. intros [] _.
  destruct (reserve_state_safe grow limit empty_builder) as [[e Hr]|(b0 & Hr & _)]; rewrite Hr; cbn [mbind res_bind]; [by left; eexists|].
  pose proof (first_state_built limit) as H0. rewrite Hr in H0. destruct H0 as [[e [=]]|(b1 & [= <-] & Hb1)].
  eapply safe_bind; [apply (visit_loop_safe _ _ _ _ _ _ _ start universe _ _ _ 0 Hb1); unfold len; lia|]. intros b Hb.
  safe_next. intros s0 _. safe_next. intros [rev0 s1] _.
  set (nodes := length (items (b_states b))). assert (N.of_nat nodes = len (items (b_states b))) as Hnodes by done.
  assert (graph_ok (N.of_nat nodes) (items (b_accepting b)) (items (b_edges b))) as Hgraph.
  { split; [apply (bu_accepting _ _ _ _ _ _ _ _ _ _ _ Hb)|apply (bu_edges _ _ _ _ _ _ _ _ _ _ _ Hb)|apply (bu_targets _ _ _ _ _ _ _ _ _ _ _ Hb)]. }
  eapply safe_bind; [apply (reverse_edges_safe grow limit (N.of_nat nodes) (items (b_accepting b)) (items (b_edges b)) Hgraph)|].
  { cbn [items]. split; [unfold len; by rewrite length_replicate|]. split; [|by intros ? ? ?%elem_of_nil].
    intros v source Hin. unfold succ_of, get in Hin. destruct (replicate nodes no_items !! N.to_nat v) as [e|] eqn:E; [|by apply elem_of_nil in Hin].
    apply lookup_replicate in E as [-> _]. by apply elem_of_nil in Hin. }
  intros [reverse s2] (Hrlen & Hrb & Hrev). safe_next. intros [coaccessible s3] _.
  safe_next. intros [queue s4] _.
  destruct (first_marking (items (b_accepting b)) (items reverse)) as (Hm & Hnd & Hcount).
  eapply safe_bind; [apply (mark_loop_safe (N.of_nat nodes) (items (b_accepting b)) (items reverse))|]; [done|done| |done| |].
  { rewrite <- (go_accepting _ _ _ Hgraph). exact Hm. }
  { rewrite Hcount. pose proof (go_accepting _ _ _ Hgraph). unfold len in *. lia. }
  intros marks Hmarks. eapply safe_bind; [apply safe_expect|].
  { destruct (get_is_Some marks 0) as [m ->]; [|done]. rewrite (mk_len _ _ _ _ _ Hmarks), Hnodes. by apply (get_Some_lt _ _ start), (bu_start _ _ _ _ _ _ _ _ _ _ _ Hb). }
  intros first Hfirst. safe_next. intros [] ->.
  safe_next. intros s5 _. safe_next. intros bytes _.
  safe_next. intros s6 _. safe_next. intros [] _.
  safe_next. intros [remap_ s7] _.
  eapply safe_weaken; [apply (graph_finish_safe (N.of_nat nodes) (b_states b) (b_accepting b) (b_edges b) Hgraph Hnodes marks) with (first := true)|].
  { apply (mk_len _ _ _ _ _ Hmarks). }
  { intros v k. apply (marked_path _ _ _ _ _ _ _ Hmarks Hrev). }
  { done. }
  { done. }
  intros graph (Hg & Hs & Hp). split; [done|]. split; [done|]. intros w Hw Ha.
  destruct (first_path _ _ _ _ _ _ start universe b start 0 w Hb Hw (bu_start _ _ _ _ _ _ _ _ _ _ _ Hb) Ha) as (k & Hk & Hf).
  exists k. split; [by apply Hp|done].
Qed.
End graph.

(** ** Properties *)

(** C34: the analysis of an automaton ends without a panic, whatever the allocator
    grants and whatever the budget.  When it reports a number of bytes, that
    number is positive and at most a candidate block, and in every match the
    automaton accepts [find_witness] finds the shortest accepted prefix (or
    suffix, for the reverse automaton), within that number of bytes. *)
Theorem bounded_witness_found grow next_state next_eoi_state is_dead_state is_quit_state is_match_state representatives start universe
    eligible fuel retained direction :
  Automaton next_state next_eoi_state is_dead_state is_quit_state is_match_state representatives start universe ->
  (length universe < fuel)%nat ->
  let accepts := is_accepting next_eoi_state is_dead_state is_quit_state is_match_state in
  let proof := find_proof grow next_state next_eoi_state is_dead_state is_quit_state is_match_state representatives eligible fuel (Some start) retained in
  no_panic proof /\
  forall bytes memory, proof = Ok (bytes, memory) ->
    0 < bytes <= CANDIDATE_BLOCK_BYTES /\
    forall haystack matched region, get_range haystack (pm_start matched) (pm_end matched) = Some region -> Forall (fun x => x < 256) region ->
      let read := match direction with Forward => region | Reverse => rev region end in
      accepts (run next_state start read) = true ->
      exists k, 0 < k <= bytes /\ k <= len region /\
        find_witness next_state next_eoi_state is_dead_state is_quit_state is_match_state (Some start) (WProven bytes direction) haystack matched =
          Ok (match direction with Forward => (pm_start matched, pm_start matched + k) | Reverse => (pm_end matched - k, pm_end matched) end) /\
        accepts (run next_state start (take (N.to_nat k) read)) = true /\
        forall j, j < k -> accepts (run next_state start (take (N.to_nat j) read)) = false.
Proof.
  intros Hauto Hfuel accepts proof.
  assert (safe proof (fun p => 0 < p.1 <= CANDIDATE_BLOCK_BYTES /\ forall w, Forall (fun x => x < 256) w -> accepts (run next_state start w) = true ->
    exists k, 0 < k <= p.1 /\ first_accept next_state next_eoi_state is_dead_state is_quit_state is_match_state start w k)) as Hsafe.
  { unfold proof, find_proof. safe_next. intros [] _. eapply safe_bind; [by apply (build_graph_safe grow) with (universe := universe)|].
    intros graph (Hg & Hs & Hruns). eapply safe_bind; [by apply longest_path_ok|]. intros bytes [Hlong Hzero].
    safe_next. intros [] [Hpos%negb_true_iff%N.eqb_neq Hmax%N.leb_le]%andb_true_iff. safe_next.
    intros memory _. apply safe_ok. cbn [fst]. split; [lia|]. intros w Hw Ha. destruct (Hruns w Hw Ha) as (k & Hp & Hf). exists k. split; [|done]. split; [|by apply Hlong].
    destruct (decide (k = 0)) as [->|]; [|lia]. inversion Hp; [|lia]. by destruct Hpos; apply Hzero. }
  apply safe_no_panic in Hsafe as [Hnp Hsafe]. split; [exact Hnp|]. intros bytes memory Hrun. destruct (Hsafe _ Hrun) as [Hb Hall].
  cbn [fst] in Hb, Hall. split; [done|]. intros haystack matched region Hregion Hbytes read Ha. unfold get_range in Hregion.
  destruct (_ && _) eqn:Hrange; [|done]. assert (get_range haystack (pm_start matched) (pm_end matched) = Some region) as Hget by (unfold get_range; by rewrite Hrange).
  assert (Forall (fun x => x < 256) read) as Hread by (unfold read; destruct direction; [done|by apply Forall_rev]).
  destruct (Hall read Hread Ha) as (k & Hk & [F1 F2 F3 F4]). exists k. split; [done|].
  assert (len read = len region) as Hlen by (unfold read; destruct direction; [done|by rewrite len_rev]).
  split; [lia|]. split; [|done]. unfold find_witness. rewrite Hrange, Hget. cbn [ensure expect mbind res_bind]. fold read.
  rewrite F4 by lia. pose proof (get_range_len _ _ _ _ Hget). destruct direction; do 2 f_equal; lia.
Qed.

(** ** Witness: the pattern [ab+] *)

Definition demo_next (state byte : N) : N :=
  if (state =? 1) && (byte =? 97) then 2
  else if ((state =? 2) || (state =? 3)) && (byte =? 98) then 3 else 0.
Definition demo_dead (state : N) : bool := state =? 0.
Definition demo_quit (state : N) : bool := false.
Definition demo_match (state : N) : bool := state =? 3.
Definition demo_grow (capacity target : N) : option N := Some target.

Lemma demo_automaton : Automaton demo_next (fun state => state) demo_dead demo_quit demo_match [97; 98; 0] 1 [0; 1; 2; 3].
Proof.
  split.
  - intros byte _. destruct (decide (byte = 97)) as [->|H1]; [exists 97; split; [left|done]|].
    destruct (decide (byte = 98)) as [->|H2]; [exists 98; split; [right; left|done]|]. exists 0. split; [do 2 right; left|].
    intros q. unfold demo_next. rewrite (proj2 (N.eqb_neq byte 97) H1), (proj2 (N.eqb_neq byte 98) H2). by rewrite !andb_false_r.
  - intros q byte ->%N.eqb_eq. done.
  - intros q ->%N.eqb_eq. done.
  - right. left.
  - intros q r Hq Hr. assert (demo_next q r = 0 \/ demo_next q r = 2 \/ demo_next q r = 3) as H.
    { unfold demo_next. destruct (_ && _); [by right; left|]. destruct (_ && _); [by right; right|by left]. }
    destruct H as [-> |[-> | ->]]; [left|do 2 right; left|do 3 right; left].
Qed.

Lemma bounded_witness_found_witness :
  find_proof demo_grow demo_next (fun state => state) demo_dead demo_quit demo_match [97; 98; 0] true 5 (Some 1) (Some 100) = Ok (2, 100) /\
  exists k, 0 < k <= 2 /\
    find_witness demo_next (fun state => state) demo_dead demo_quit demo_match (Some 1) (WProven 2 Forward) [120; 97; 98; 98; 98]
      {| pm_pattern := 0; pm_start := 1; pm_end := 5 |} = Ok (1, 1 + k).
Proof.
  assert (find_proof demo_grow demo_next (fun state => state) demo_dead demo_quit demo_match [97; 98; 0] true 5 (Some 1) (Some 100) = Ok (2, 100)) as Hrun
    by (vm_compute; reflexivity).
  split; [exact Hrun|].
  destruct (bounded_witness_found demo_grow demo_next (fun state => state) demo_dead demo_quit demo_match [97; 98; 0] 1 [0; 1; 2; 3] true 5 (Some 100) Forward
    demo_automaton ltac:(cbn; lia)) as [_ H].
  destruct (H 2 100 Hrun) as [_ H2].
  destruct (H2 [120; 97; 98; 98; 98] {| pm_pattern := 0; pm_start := 1; pm_end := 5 |} [97; 98; 98; 98] ltac:(vm_compute; reflexivity)
    ltac:(repeat constructor) ltac:(vm_compute; reflexivity)) as (k & Hk & _ & Hfound & _).
  exists k. split; [exact Hk|exact Hfound].
Defined.
