(* ===== verification/Stream.v ===== *)
(** * Matching a body in a file (crates/index/src/search/verify.rs, search/plan.rs)

    A document that was loaded to a file is not read into memory: when every
    pattern has a bounded span, [has_stream_match] reads it chunk by chunk and
    carries the last bytes of a chunk over to the next one.  [get_stream_overlap]
    chooses how many.  The verdict is the one [has_line_match] gives on the whole
    body. *)

From S2P Require Import Prelude Bytes Candidate PackBatch PackLines Grep.

Definition FILE_MATCH_CHUNK : N := 1024 * 1024.
Definition FILE_MATCH_OVERLAP_MAX : N := 1024 * 1024.

(** The spans of the plans, unless one has none. *)
Definition get_stream_overlap (extents : list SearchExtent) : option N :=
  max_span ← foldr (fun extent rest => match extent with EBytes span => N.max span <$> rest | _ => None end) (Some 0) extents;
  overlap ← checked_sub max_span 1;
  if overlap <=? FILE_MATCH_OVERLAP_MAX then Some overlap else None.

(** [Read::read_exact] on the bytes a file still holds. *)
Definition read_exact (reader : list N) (n : N) : res (list N * list N) :=
  if n <=? len reader then Ok (take (N.to_nat n) reader, drop (N.to_nat n) reader) else Err "failed to fill whole buffer".

(** Overwriting a part of a buffer: the bounds check of the slice. *)
Definition write_at (buffer : list N) (at_ : N) (bytes : list N) : res (list N) :=
  if at_ + len bytes <=? len buffer
  then Ok (take (N.to_nat at_) buffer ++ bytes ++ drop (N.to_nat (at_ + len bytes)) buffer)
  else Panic "range out of bounds".

Section stream.
(** The matches of the whole-document program in some bytes. *)
Context (find_iter : list N -> list PatternMatch).

Record Stream : Type := { s_chunk : list N; s_carry : N; s_remaining : N; s_reader : list N }.

(** One pass of the loop; [None] is its early [return Ok(true)]. *)
Definition stream_pass (chunk_bytes overlap : N) (s : Stream) : res (option Stream) :=
  let read := N.min (s_remaining s) chunk_bytes in
  _ ← expect (get_range (s_chunk s) (s_carry s) (s_carry s + read)) "range out of bounds";
  '(bytes, reader) ← read_exact (s_reader s) read;
  chunk ← write_at (s_chunk s) (s_carry s) bytes;
  let end_ := s_carry s + read in
  window ← expect (get_range chunk 0 end_) "range out of bounds";
  if negb (bool_decide (find_iter window = [])) then Ok None
  else
    let carry := N.min end_ overlap in
    kept ← expect (get_range chunk (end_ - carry) end_) "range out of bounds";
    chunk ← write_at chunk 0 kept;
    Ok (Some {| s_chunk := chunk; s_carry := carry; s_remaining := s_remaining s - read; s_reader := reader |}).

(** [while remaining > 0]: every pass reads a byte. *)
Fixpoint stream_loop (fuel : nat) (chunk_bytes overlap : N) (s : Stream) : res bool :=
  match fuel with
  | O => Panic "out of fuel"
  | S fuel =>
      if s_remaining s =? 0 then Ok false
      else
        next ← stream_pass chunk_bytes overlap s;
        match next with
        | None => Ok true
        | Some s => stream_loop fuel chunk_bytes overlap s
        end
  end.

Definition has_stream_match (reader : list N) (length overlap : N) : res bool :=
  if length =? 0 then Ok false
  else
    ensure (overlap <=? FILE_MATCH_OVERLAP_MAX) "streaming regex overlap exceeds its limit";;
    let chunk_bytes := N.min length FILE_MATCH_CHUNK in
    stream_loop (S (N.to_nat length)) chunk_bytes overlap
      {| s_chunk := replicate (N.to_nat (chunk_bytes + overlap)) 0; s_carry := 0; s_remaining := length; s_reader := reader |}.
End stream.

(** What the regex engine says of patterns without look-around whose witnesses
    are strings [accepted] of at most some span: some bytes hold a match exactly
    when they hold a witness, wherever it lies. *)
Class BoundedProgram (find_iter : list N -> list PatternMatch) (accepted : list N -> Prop) : Prop := {
  bounded_find : forall bytes, find_iter bytes <> [] <-> exists a b, a <= b <= len bytes /\ accepted (cut bytes a b);
  bounded_start : forall bytes m, m ∈ find_iter bytes -> pm_start m < len bytes;
}.

(** ** Lemmas *)

Lemma write_at_ok buffer at_ bytes :
  at_ + len bytes <= len buffer ->
  exists buffer', write_at buffer at_ bytes = Ok buffer' /\ len buffer' = len buffer /\
    take (N.to_nat (at_ + len bytes)) buffer' = take (N.to_nat at_) buffer ++ bytes.
Proof.
  intros H. unfold write_at. rewrite (proj2 (N.leb_le _ _) H). eexists. split; [done|].
  assert (len (take (N.to_nat at_) buffer) = at_) as Hl by (unfold len in *; rewrite length_take; lia). split.
  - rewrite !len_app, Hl, len_drop. lia.
  - rewrite app_assoc, take_app_le; [|rewrite length_app; unfold len in *; lia]. apply take_ge. rewrite length_app. unfold len in *. lia.
Qed.

Lemma overlap_spans extents overlap :
  get_stream_overlap extents = Some overlap ->
  overlap <= FILE_MATCH_OVERLAP_MAX /\ forall e, e ∈ extents -> exists span, e = EBytes span /\ span <= overlap + 1.
Proof.
  unfold get_stream_overlap. intros (max_span & Hmax & (o & Ho & H)%bind_Some)%bind_Some.
  apply checked_sub_Some in Ho as [-> Hle]. destruct (N.leb_spec (max_span - 1) FILE_MATCH_OVERLAP_MAX); [|done]. injection H as <-.
  split; [done|]. replace (max_span - 1 + 1) with max_span by lia. clear -Hmax. revert max_span Hmax.
  induction extents as [|e extents IH]; intros max_span Hmax x Hx; [by apply elem_of_nil in Hx|]. cbn [foldr] in Hmax.
  destruct e as [span| |]; [|done..]. apply fmap_Some in Hmax as (m & Hm & ->).
  apply elem_of_cons in Hx as [->|Hx]; [exists span; split; [done|lia]|].
  destruct (IH m Hm x Hx) as (s & -> & Hs). exists s. split; [done|lia].
Qed.

Lemma verdict find_iter accepted `{!BoundedProgram find_iter accepted} bytes : has_line_match bytes (find_iter bytes) = negb (bool_decide (find_iter bytes = [])).
Proof.
  unfold has_line_match. destruct (find_iter bytes) as [|m ms] eqn:E; [by rewrite andb_comm|].
  assert (pm_start m < len bytes) as Hm by (apply (bounded_start bytes); rewrite E; left).
  rewrite (bool_decide_eq_false_2 (m :: ms = [])) by done. cbn [existsb negb]. rewrite (proj2 (N.ltb_lt _ _) Hm). cbn [orb].
  rewrite bool_decide_eq_false_2; [done|]. intros ->. rewrite len_nil in Hm. lia.
Qed.

Section stream_proofs.
Context (find_iter : list N -> list PatternMatch) (accepted : list N -> Prop).
Context `{!BoundedProgram find_iter accepted}.
Context (chunk_bytes overlap : N) (Hchunk : 0 < chunk_bytes).
Context (Hspan : forall l, accepted l -> 0 < len l <= overlap + 1).

Definition quiet (bytes : list N) : Prop := find_iter bytes = [].

Lemma quiet_no bytes a b : quiet bytes -> b <= len bytes -> ~ accepted (cut bytes a b).
Proof.
  intros Hq Hb Ha. destruct (decide (a <= b)) as [Hab|Hab].
  - apply (proj2 (bounded_find bytes)); [by exists a, b|done].
  - rewrite cut_nil in Ha by lia. apply Hspan in Ha. rewrite len_nil in Ha. lia.
Qed.
Lemma no_quiet bytes : (forall a b, a <= b <= len bytes -> ~ accepted (cut bytes a b)) -> quiet bytes.
Proof.
  intros H. destruct (decide (quiet bytes)) as [|Hf]; [done|]. apply bounded_find in Hf as (a & b & Hab & Hacc). by destruct (H a b Hab).
Qed.

(** A match that ends in the new bytes starts in the carried ones or later. *)
Lemma quiet_app (old carried new : list N) :
  quiet (old ++ carried) -> quiet (carried ++ new) -> len carried = N.min (len (old ++ carried)) overlap -> quiet (old ++ carried ++ new).
Proof.
  intros H1 H2 Hlen. apply no_quiet. intros a b Hab Hacc. pose proof (Hspan _ Hacc) as Hw. rewrite len_cut in Hw by lia.
  rewrite !len_app in *.
  destruct (decide (b <= len old + len carried)) as [Hb|Hb].
  - apply (quiet_no (old ++ carried) a b H1); [rewrite len_app; lia|]. by rewrite app_assoc, cut_app_l in Hacc by (rewrite len_app; lia).
  - apply (quiet_no (carried ++ new) (a - len old) (b - len old) H2); [rewrite len_app; lia|]. by rewrite cut_app_r in Hacc by lia.
Qed.

(** What was read so far holds no match, and its last bytes are carried. *)
Record stream_ok (past : list N) (s : Stream) : Prop := {
  so_size : len (s_chunk s) = chunk_bytes + overlap;
  so_carry : s_carry s = N.min (len past) overlap;
  so_carried : take (N.to_nat (s_carry s)) (s_chunk s) = cut past (len past - s_carry s) (len past);
  so_quiet : quiet past;
}.

Lemma stream_pass_ok past s :
  stream_ok past s -> 0 < s_remaining s ->
  let n := N.min (s_remaining s) chunk_bytes in
  let past' := past ++ take (N.to_nat n) (s_reader s) in
  match stream_pass find_iter chunk_bytes overlap s with
  | Ok None => n <= len (s_reader s) /\ ~ quiet past'
  | Ok (Some s') => n <= len (s_reader s) /\ stream_ok past' s' /\ s_remaining s' = s_remaining s - n /\ s_reader s' = drop (N.to_nat n) (s_reader s)
  | Err _ => len (s_reader s) < n
  | Panic _ => False
  end.
Proof.
  intros [H1 H2 H3 H4] Hpos n past'. unfold stream_pass. fold n. rewrite cut_get_range by lia. cbn [expect mbind res_bind].
  unfold read_exact. destruct (N.leb_spec n (len (s_reader s))) as [Hn|Hn]; cbn [mbind res_bind]; [|lia].
  set (bytes := take (N.to_nat n) (s_reader s)) in *. assert (len bytes = n) as Hb by (unfold bytes, len in *; rewrite length_take; lia).
  destruct (write_at_ok (s_chunk s) (s_carry s) bytes) as (chunk & -> & Hc & Ht); [lia|]. cbn [mbind res_bind]. cbv zeta.
  rewrite (cut_get_range chunk 0) by lia. cbn [expect mbind res_bind]. rewrite Hb, H3 in Ht.
  set (carried := cut past (len past - s_carry s) (len past)) in *.
  assert (past = cut past 0 (len past - s_carry s) ++ carried) as Hpast.
  { unfold carried. rewrite cut_app by lia. unfold cut. rewrite N.sub_0_r, to_nat_len, take_ge by (rewrite length_drop; lia). done. }
  assert (cut chunk 0 (s_carry s + n) = carried ++ bytes) as Hw by (unfold cut; rewrite N.sub_0_r; exact Ht).
  assert (len carried = s_carry s) as Hcl by (unfold carried; rewrite len_cut by lia; lia).
  rewrite Hw. destruct (bool_decide (find_iter (carried ++ bytes) = [])) eqn:Hq; cbn [negb].
  - apply bool_decide_eq_true in Hq. rewrite cut_get_range by lia. cbn [expect mbind res_bind].
    set (end_ := s_carry s + n). set (carry := N.min end_ overlap).
    destruct (write_at_ok chunk 0 (cut chunk (end_ - carry) end_)) as (chunk' & -> & Hc' & Ht'); [rewrite len_cut by lia; lia|].
    cbn [mbind res_bind]. split; [done|]. split; [|done].
    assert (len past' = len past + n) as Hp' by (unfold past'; rewrite len_app, Hb; lia).
    split; cbn [s_chunk s_carry]; [lia|lia| |].
    + rewrite len_cut in Ht' by lia. replace (0 + (end_ - (end_ - carry))) with carry in Ht' by lia.
      change (take (N.to_nat 0) chunk) with (@nil N) in Ht'. cbn [app] in Ht'. rewrite Ht', Hp'.
      assert (past' = cut past 0 (len past - s_carry s) ++ cut chunk 0 end_) as -> by (unfold end_; rewrite Hw, app_assoc, <- Hpast; done).
      rewrite cut_app_r by (rewrite len_cut by lia; lia). rewrite len_cut, cut_cut by lia. subst end_ carry. f_equal; lia.
    + unfold past'. rewrite Hpast, <- app_assoc. apply quiet_app; [by rewrite <- Hpast|done|]. rewrite <- Hpast, Hcl. exact H2.
  - apply bool_decide_eq_false in Hq. split; [done|]. unfold past'. rewrite Hpast, <- app_assoc. intros Hall. apply Hq, no_quiet.
    intros a b Hab Hacc. rewrite <- (cut_app_shift (cut past 0 (len past - s_carry s))) in Hacc.
    eapply quiet_no; [exact Hall| |exact Hacc]. rewrite (len_app (cut past 0 _)). lia.
Qed.

Lemma stream_loop_ok fuel past s :
  (N.to_nat (s_remaining s) < fuel)%nat -> stream_ok past s ->
  let rest := take (N.to_nat (s_remaining s)) (s_reader s) in
  match stream_loop find_iter fuel chunk_bytes overlap s with
  | Ok found => s_remaining s <= len (s_reader s) -> found = negb (bool_decide (quiet (past ++ rest)))
  | Err _ => len (s_reader s) < s_remaining s
  | Panic _ => False
  end.
Proof.
  revert past s. induction fuel as [|fuel IH]; intros past s Hfuel Hs; [lia|]. cbn [stream_loop].
  destruct (N.eqb_spec (s_remaining s) 0) as [->|Hpos].
  { intros _. cbn [N.to_nat]. rewrite firstn_O, app_nil_r, bool_decide_eq_true_2 by apply Hs. done. }
  pose proof (stream_pass_ok past s Hs ltac:(lia)) as Hpass. set (n := N.min (s_remaining s) chunk_bytes) in *. cbv zeta in Hpass.
  assert (0 < n <= s_remaining s) as Hnr by (unfold n; lia).
  assert (take (N.to_nat (s_remaining s)) (s_reader s) =
    take (N.to_nat n) (s_reader s) ++ take (N.to_nat (s_remaining s - n)) (drop (N.to_nat n) (s_reader s))) as Hsplit.
  { rewrite <- (take_drop (N.to_nat n) (take (N.to_nat (s_remaining s)) (s_reader s))), take_take, skipn_firstn_comm. f_equal; f_equal; lia. }
  destruct (stream_pass find_iter chunk_bytes overlap s) as [[s'|]|e|w] eqn:E; cbn [mbind res_bind]; [| |lia|done].
  - destruct Hpass as (Hn & Hs' & Hr & Hd). specialize (IH _ s' ltac:(lia) Hs'). cbv zeta in IH. rewrite Hr, Hd, len_drop in IH.
    destruct (stream_loop find_iter fuel chunk_bytes overlap s') as [found|e|w]; [|lia|done].
    intros Hle. rewrite IH by lia. rewrite Hsplit. by rewrite app_assoc.
  - destruct Hpass as [Hn Hloud]. intros Hle. rewrite bool_decide_eq_false_2; [done|]. intros Hq. apply Hloud, no_quiet.
    intros a b Hab Hacc. rewrite Hsplit, app_assoc in Hq. eapply (quiet_no _ a b Hq); [rewrite len_app; lia|].
    by rewrite cut_app_l by apply Hab.
Qed.
End stream_proofs.

(** ** Properties *)

(** C29: matching a file chunk by chunk never panics; it fails only when the file
    is shorter than it should be, and otherwise its verdict is the one
    [has_line_match] gives on the whole body in memory. *)
Theorem stream_match_exact find_iter accepted extents overlap reader length :
  BoundedProgram find_iter accepted ->
  get_stream_overlap extents = Some overlap ->
  (forall l, accepted l -> l <> [] /\ exists span, EBytes span ∈ extents /\ len l <= span) ->
  match has_stream_match find_iter reader length overlap with
  | Ok found => length <= len reader ->
      let body := take (N.to_nat length) reader in found = has_line_match body (find_iter body)
  | Err _ => len reader < length
  | Panic _ => False
  end.
Proof.
  intros Hprogram Hoverlap Hspans. apply overlap_spans in Hoverlap as [Hmax Hover].
  assert (forall l, accepted l -> 0 < len l <= overlap + 1) as Hspan.
  { intros l Hl. destruct (Hspans l Hl) as (Hne & span & Hin & Hle). destruct (Hover _ Hin) as (span' & [= <-] & Hle').
    destruct l; [done|]. rewrite len_cons in *. lia. }
  unfold has_stream_match. destruct (N.eqb_spec length 0) as [->|Hpos].
  { intros _. cbn [N.to_nat]. rewrite firstn_O. done. }
  rewrite (proj2 (N.leb_le _ _) Hmax). cbn [ensure mbind res_bind]. cbv zeta.
  set (chunk_bytes := N.min length FILE_MATCH_CHUNK). assert (0 < chunk_bytes) as Hchunk.
  { unfold chunk_bytes. change FILE_MATCH_CHUNK with 1048576. lia. }
  set (s := {| s_chunk := replicate (N.to_nat (chunk_bytes + overlap)) 0; s_carry := 0; s_remaining := length; s_reader := reader |}).
  assert (stream_ok find_iter chunk_bytes overlap [] s) as Hs.
  { split; cbn [s s_chunk s_carry]; [unfold len; rewrite length_replicate; lia|rewrite len_nil; lia|done|].
    eapply no_quiet; [done|]. intros a b Hab Hacc. apply Hspan in Hacc. rewrite len_nil in Hab. rewrite len_cut in Hacc by (rewrite len_nil; lia). lia. }
  pose proof (stream_loop_ok find_iter accepted chunk_bytes overlap Hchunk Hspan (S (N.to_nat length)) [] s ltac:(cbn; lia) Hs) as H.
  cbv zeta in H. cbn [s s_remaining s_reader app] in H. fold s in H. destruct (stream_loop _ _ _ _ _) as [found|e|w]; [|done|done].
  intros Hle. rewrite H by done. symmetry. by apply (verdict find_iter accepted).
Qed.

(** ** Witness: the pattern of one byte *)

Definition demo_find (bytes : list N) : list PatternMatch :=
  (fun p => {| pm_pattern := 0; pm_start := p.1; pm_end := p.1 + 1 |}) <$> filter (fun p => p.2 = 7) (enumerate bytes).

Lemma elem_demo_find bytes m : m ∈ demo_find bytes <-> exists i, m = {| pm_pattern := 0; pm_start := i; pm_end := i + 1 |} /\ get bytes i = Some 7.
Proof.
  unfold demo_find. rewrite list_elem_of_fmap. split.
  - intros ([i x] & -> & [Hx H%elem_of_enumerate]%list_elem_of_filter). cbn in *. subst. eauto.
  - intros (i & -> & H). exists (i, 7). split; [done|]. apply list_elem_of_filter. split; [done|]. by apply elem_of_enumerate.
Qed.

#[local] Instance demo_program : BoundedProgram demo_find (fun l => l = [7]).
Proof.
  split.
  - intros bytes. split.
    + destruct (demo_find bytes) as [|m ms] eqn:E; [done|]. intros _. assert (m ∈ demo_find bytes) as Hm by (rewrite E; left).
      apply elem_demo_find in Hm as (i & _ & Hi). pose proof (get_Some_lt _ _ _ Hi). exists i, (i + 1). split; [lia|].
      unfold cut, get in *. replace (N.to_nat (i + 1 - i)) with 1%nat by lia. by rewrite (drop_S _ _ _ Hi).
    + intros (a & b & Hab & Hcut) E. assert (get bytes a = Some 7) as Ha.
      { unfold get. assert (cut bytes a b !! 0%nat = Some 7) as H0 by (by rewrite Hcut). unfold cut in H0.
        apply lookup_take_Some in H0 as [H0 _]. rewrite lookup_drop in H0. by rewrite Nat.add_0_r in H0. }
      assert ({| pm_pattern := 0; pm_start := a; pm_end := a + 1 |} ∈ demo_find bytes) as Hm by (apply elem_demo_find; eauto).
      rewrite E in Hm. by apply elem_of_nil in Hm.
  - intros bytes m (i & -> & Hi)%elem_demo_find. by apply get_Some_lt in Hi.
Qed.

Lemma stream_match_exact_witness :
  get_stream_overlap [EBytes 1; EBytes 3] = Some 2 /\
  match has_stream_match demo_find [1; 7; 2] 3 2 with
  | Ok found => 3 <= len [1; 7; 2] -> let body := take (N.to_nat 3) [1; 7; 2] in found = has_line_match body (demo_find body)
  | Err _ => len [1; 7; 2] < 3
  | Panic _ => False
  end.
Proof.
  split; [reflexivity|]. apply (stream_match_exact demo_find (fun l => l = [7]) [EBytes 1; EBytes 3] 2 [1; 7; 2] 3 demo_program eq_refl).
  intros l ->. split; [done|]. exists 1. split; [left|reflexivity].
Defined.
