(* ===== verification/Verify.v ===== *)
(** * Matches of a document (crates/index/src/search/verify.rs, search/plan.rs)

    What a search finds in a document: [find_region_matches] in the regions that
    were fetched of it, [find_whole_matches] in its whole body.  Every match gets
    the number and the start of its line, counted on from the previous match; the
    matches are sorted, each place is reported once, and only the first lines
    count.  A whole body is the case of one region. *)

From S2P Require Import Prelude Bytes PackBatch PackLines PackFetch PackRegions Format Grep Witness.

(** ** Deduplication *)

(** [dedup_by]: an element goes when it is the same as the last one kept. *)
Fixpoint dedup_after {A} (same : A -> A -> bool) (kept : A) (l : list A) : list A :=
  match l with
  | [] => []
  | x :: l => if same x kept then dedup_after same kept l else x :: dedup_after same x l
  end.
Definition dedup_by {A} (same : A -> A -> bool) (l : list A) : list A :=
  match l with [] => [] | x :: l => x :: dedup_after same x l end.

(** ** Plans and programs *)

(** The automaton a proven witness carries, with its start state in either
    direction. *)
Record Machine : Type := {
  m_next_state : N -> N -> N; m_next_eoi_state : N -> N;
  m_is_dead : N -> bool; m_is_quit : N -> bool; m_is_match : N -> bool;
  m_start : ProofDirection -> option N;
}.

(** [PatternPlan]: the fields the verifier reads. *)
Record PatternPlan : Type := { pp_id : N; pp_witness : option (MatchWitness * Machine) }.

(** [SearchPrograms]: what [find_iter] yields on some bytes. *)
Record SearchPrograms : Type := {
  sp_whole : list N -> list PatternMatch;
  sp_lines : option (list N -> list PatternMatch);
  sp_regional : option (list N -> list PatternMatch);
}.

Definition get_region_program (programs : SearchPrograms) (region : RegionProgram) : res (list N -> list PatternMatch) :=
  match region with
  | ProgramRegional => with_context (sp_regional programs) "regional verifier is missing"
  | ProgramFull => with_context (sp_lines programs) "line verifier is missing"
  end.

Record RegionMatch : Type := {
  rm_pattern : N; rm_start : N; rm_end : N; rm_line : N; rm_line_offset : N; rm_canonical_span_known : bool;
}.

Definition place_key (m : RegionMatch) : list N := [rm_pattern m; rm_start m; rm_end m].
Definition line_key (m : RegionMatch) : list N := [rm_line m; rm_line_offset m; rm_start m; rm_end m; rm_pattern m].
Definition same_place (left right : RegionMatch) : bool :=
  (rm_pattern left =? rm_pattern right) && (rm_start left =? rm_start right) && (rm_end left =? rm_end right).

(** How many matches the loop keeps, with [lines] counted and the line of the
    match before. *)
Fixpoint keep_lines (limit lines : N) (previous : option (N * N)) (matches : list RegionMatch) : N :=
  match matches with
  | [] => 0
  | matched :: matches =>
      let current := (rm_line matched, rm_line_offset matched) in
      if bool_decide (previous = Some current) then 1 + keep_lines limit lines previous matches
      else if lines =? limit then 0
      else 1 + keep_lines limit (lines + 1) (Some current) matches
  end.

Definition sort_region_matches (matches : list RegionMatch) (max_count : option N) : list RegionMatch :=
  let matches := sort_by_key line_key (dedup_by same_place (sort_by_key place_key matches)) in
  match max_count with
  | None => matches
  | Some limit => take (N.to_nat (keep_lines limit 0 None matches)) matches
  end.

Definition region_match_is_line_valid (region : DocumentRegion) (relative_start decoded_size : N) : res bool :=
  let start := dr_start region + relative_start in
  if start <? decoded_size then Ok true
  else if start =? decoded_size then
    before ← expect (get_range (dr_bytes region) 0 relative_start) "range out of bounds";
    Ok (match last before with Some byte => negb (byte =? NEWLINE) | None => false end)
  else Ok false.

(** The witness of a match within its region. *)
Definition relative_of (plans : list PatternPlan) (region : DocumentRegion) (matched : PatternMatch) : res (N * N * bool) :=
  plan ← expect (get plans (pm_pattern matched)) "index out of bounds";
  match dr_program region with
  | ProgramRegional =>
      '(witness, m) ← expect (pp_witness plan) "regional pattern has a finite witness";
      relative ← find_witness (m_next_state m) (m_next_eoi_state m) (m_is_dead m) (m_is_quit m) (m_is_match m)
        (m_start m match witness with WProven _ direction => direction | WExact _ => Forward end) witness (dr_bytes region) matched;
      Ok (relative, match witness with WExact _ => true | WProven _ _ => false end)
  | ProgramFull => Ok (pm_start matched, pm_end matched, true)
  end.

(** The loop over the bytes between two matches. *)
Definition advance_line (base : N) (bytes : list N) (scanned upto : N) (place : N * N) : res (N * N) :=
  part ← expect (get_range bytes scanned upto) "range out of bounds";
  Ok (foldl (fun '(line, line_offset) '(index, byte) =>
    if byte =? NEWLINE then (line + 1, base + (scanned + index + 1)) else (line, line_offset)) place (enumerate part)).

(** The loop's variables: [scanned], [line], [line_offset] and [found]. *)
Record Scan : Type := { sc_scanned : N; sc_place : N * N; sc_found : list RegionMatch }.

Definition region_match_step (plans : list PatternPlan) (region : DocumentRegion) (decoded_size : N) (s : Scan) (matched : PatternMatch)
    : res Scan :=
  '(start, end_, canonical_span_known) ← relative_of plans region matched;
  place ← advance_line (dr_start region) (dr_bytes region) (sc_scanned s) start (sc_place s);
  valid ← region_match_is_line_valid region start decoded_size;
  Ok {| sc_scanned := start; sc_place := place;
        sc_found := if valid : bool then sc_found s ++
          [{| rm_pattern := pm_pattern matched; rm_start := dr_start region + start; rm_end := dr_start region + end_;
              rm_line := place.1; rm_line_offset := place.2; rm_canonical_span_known := canonical_span_known |}]
          else sc_found s |}.

Definition find_region_matches (regions : list DocumentRegion) (decoded_size : N) (plans : list PatternPlan) (programs : SearchPrograms)
    (max_count : option N) : res (list RegionMatch) :=
  if bool_decide (max_count = Some 0) then Ok []
  else
    found ← foldM (fun found region =>
      program ← get_region_program programs (dr_program region);
      s ← foldM (region_match_step plans region decoded_size)
        {| sc_scanned := 0; sc_place := (dr_line region, dr_line_offset region); sc_found := found |} (program (dr_bytes region));
      Ok (sc_found s)) [] regions;
    Ok (sort_region_matches found max_count).

(** The existence check needs the start of a witness only. *)
Definition witness_start (plans : list PatternPlan) (region : DocumentRegion) (matched : PatternMatch) : res N :=
  match dr_program region with
  | ProgramRegional =>
      plan ← expect (get plans (pm_pattern matched)) "index out of bounds";
      '(witness, m) ← expect (pp_witness plan) "regional pattern has a finite witness";
      relative ← find_witness (m_next_state m) (m_next_eoi_state m) (m_is_dead m) (m_is_quit m) (m_is_match m)
        (m_start m match witness with WProven _ direction => direction | WExact _ => Forward end) witness (dr_bytes region) matched;
      Ok relative.1
  | ProgramFull => Ok (pm_start matched)
  end.

(** It stops at the first valid match. *)
Fixpoint has_match_in (plans : list PatternPlan) (region : DocumentRegion) (decoded_size : N) (matches : list PatternMatch) : res bool :=
  match matches with
  | [] => Ok false
  | matched :: matches =>
      start ← witness_start plans region matched;
      valid ← region_match_is_line_valid region start decoded_size;
      if valid : bool then Ok true else has_match_in plans region decoded_size matches
  end.
Fixpoint has_region_match (regions : list DocumentRegion) (decoded_size : N) (plans : list PatternPlan) (programs : SearchPrograms) : res bool :=
  match regions with
  | [] => Ok false
  | region :: regions =>
      program ← get_region_program programs (dr_program region);
      found ← has_match_in plans region decoded_size (program (dr_bytes region));
      if found : bool then Ok true else has_region_match regions decoded_size plans programs
  end.

Definition whole_match_step (bytes : list N) (s : Scan) (matched : PatternMatch) : res Scan :=
  if (len bytes <? pm_start matched) ||
     (pm_start matched =? len bytes) && match last bytes with Some byte => byte =? NEWLINE | None => true end
  then Ok s
  else
    place ← advance_line 0 bytes (sc_scanned s) (pm_start matched) (sc_place s);
    Ok {| sc_scanned := pm_start matched; sc_place := place;
          sc_found := sc_found s ++
            [{| rm_pattern := pm_pattern matched; rm_start := pm_start matched; rm_end := pm_end matched;
                rm_line := place.1; rm_line_offset := place.2; rm_canonical_span_known := true |}] |}.

Definition find_whole_matches (bytes : list N) (programs : SearchPrograms) (max_count : option N) : res (list RegionMatch) :=
  if bool_decide (max_count = Some 0) then Ok []
  else
    s ← foldM (whole_match_step bytes) {| sc_scanned := 0; sc_place := (1, 0); sc_found := [] |} (sp_whole programs bytes);
    Ok (sort_region_matches (sc_found s) max_count).

(** ** The order of the matches *)

(** Of a sorted list [dedup_by] keeps one element for each key. *)
Lemma dedup_after_ok {A} (key : A -> list N) (same : A -> A -> bool) kept l :
  (forall x y, same x y = true <-> key x = key y) ->
  Forall (fun x => lex_leb (key kept) (key x) = true) l -> StronglySorted (fun a b => lex_leb (key a) (key b) = true) l ->
  NoDup (key <$> kept :: dedup_after same kept l) /\
  Forall (fun x => lex_lt (key kept) (key x)) (dedup_after same kept l) /\
  (forall x, x ∈ dedup_after same kept l -> x ∈ l) /\
  forall x, x ∈ l -> exists y, (y = kept \/ y ∈ dedup_after same kept l) /\ key y = key x.
Proof.
  intros Hsame Hk Hs. revert kept Hk. induction Hs as [|x l Hs IH Hx]; intros kept Hk; cbn [dedup_after].
  { split_and!; [apply NoDup_singleton|constructor|done|by intros ? ?%elem_of_nil]. }
  apply Forall_cons in Hk as [Hkx Hk]. destruct (same x kept) eqn:E.
  - apply Hsame in E. destruct (IH kept Hk) as (H1 & H2 & H3 & H4). split_and!; [done|done|intros y Hy; right; by apply H3|].
    intros y [->|Hy]%elem_of_cons; [exists kept; split; [by left|done]|by apply H4].
  - destruct (IH x Hx) as (H1 & H2 & H3 & H4).
    assert (lex_lt (key kept) (key x)) as Hlt by (split; [done|intros Heq; by rewrite (proj2 (Hsame x kept)) in E]).
    assert (Forall (fun y => lex_lt (key kept) (key y)) (x :: dedup_after same x l)) as Hall.
    { constructor; [done|]. eapply Forall_impl; [exact H2|]. intros y [Hy Hne]. split; [by eapply lex_trans; [apply Hlt|]|].
      intros Heq. destruct Hlt as [Hle Hn]. rewrite Heq in Hle, Hn. by apply Hn, lex_antisym. }
    split_and!.
    + rewrite fmap_cons. apply NoDup_cons. split; [|exact H1]. intros (y & Hy & Hin)%list_elem_of_fmap.
      rewrite Forall_forall in Hall. destruct (Hall y Hin). congruence.
    + exact Hall.
    + intros y [->|Hy]%elem_of_cons; [left|right; by apply H3].
    + intros y [->|Hy]%elem_of_cons; [exists x; split; [right; left|done]|].
      destruct (H4 y Hy) as (z & [->|Hz] & Hkey); [exists x|exists z]; (split; [right|done]); [left|by right].
Qed.
Lemma dedup_by_ok {A} (key : A -> list N) (same : A -> A -> bool) l :
  (forall x y, same x y = true <-> key x = key y) -> StronglySorted (fun a b => lex_leb (key a) (key b) = true) l ->
  NoDup (key <$> dedup_by same l) /\ (forall x, x ∈ dedup_by same l -> x ∈ l) /\
  forall x, x ∈ l -> exists y, y ∈ dedup_by same l /\ key y = key x.
Proof.
  intros Hsame Hs. destruct Hs as [|x l Hs Hx]; cbn [dedup_by]; [split_and!; [constructor|done|by intros ? ?%elem_of_nil]|].
  destruct (dedup_after_ok key same x l Hsame Hx Hs) as (H1 & _ & H3 & H4). split_and!; [done|..].
  - intros y [->|Hy]%elem_of_cons; [left|right; by apply H3].
  - intros y [->|Hy]%elem_of_cons; [exists x; split; [left|done]|].
    destruct (H4 y Hy) as (z & [->|Hz] & Hkey); [exists x|exists z]; (split; [|done]); [left|by right].
Qed.

(** ** The first lines *)

Definition rm_place (m : RegionMatch) : N * N := (rm_line m, rm_line_offset m).

(** The matches on the first [limit] lines with one. *)
Definition on_first_lines (limit : option N) (matches : list RegionMatch) : list RegionMatch :=
  match limit with
  | None => matches
  | Some n => filter (fun m => rm_place m ∈ take (N.to_nat n) (dedup (rm_place <$> matches))) matches
  end.

Section first_lines.
Context (R : N * N -> N * N -> Prop) (R_antisym : forall a b, R a b -> R b a -> a = b).

Lemma keep_lines_ok limit lines p l :
  lines <= limit -> StronglySorted R (p :: (rm_place <$> l)) ->
  take (N.to_nat (keep_lines limit lines (Some p) l)) l =
    filter (fun m => rm_place m ∈ take (S (N.to_nat (limit - lines))) (dedup (p :: (rm_place <$> l)))) l.
Proof.
  revert lines p. induction l as [|m l IH]; intros lines p Hle Hs; [done|]. cbn [keep_lines fmap list_fmap] in *.
  fold (rm_place m). change (list_fmap _ _ rm_place l) with (rm_place <$> l) in *.
  apply StronglySorted_inv in Hs as [Hs Hp]. apply Forall_cons in Hp as [Hpm Hp].
  change (dedup (p :: rm_place m :: (rm_place <$> l))) with
    (if decide (p = rm_place m) then dedup (rm_place m :: (rm_place <$> l)) else p :: dedup (rm_place m :: (rm_place <$> l))).
  destruct (dedup_head (rm_place m) (rm_place <$> l)) as [t Ht]. destruct (decide (p = rm_place m)) as [->|Hne].
  - rewrite bool_decide_eq_true_2 by done. replace (N.to_nat (1 + _)) with (S (N.to_nat (keep_lines limit lines (Some (rm_place m)) l))) by lia.
    rewrite filter_cons, decide_True by (rewrite Ht; cbn [take firstn]; left). rewrite firstn_cons. f_equal. by apply IH.
  - rewrite bool_decide_eq_false_2 by congruence.
    assert (forall m', m' ∈ m :: l -> rm_place m' <> p) as Hnew.
    { intros m' Hm' E. apply Hne. apply elem_of_cons in Hm' as [->|Hm']; [done|]. apply R_antisym; [done|].
      apply StronglySorted_inv in Hs as [_ Hs]. rewrite Forall_fmap, Forall_forall in Hs. rewrite <- E. by apply Hs. }
    destruct (N.eqb_spec lines limit) as [->|Hlt].
    + rewrite N.sub_diag. cbn [take firstn]. symmetry. apply filter_none. intros m' Hm' Hin%list_elem_of_singleton. by apply (Hnew m').
    + replace (N.to_nat (limit - lines)) with (S (N.to_nat (limit - (lines + 1)))) by lia.
      replace (N.to_nat (1 + _)) with (S (N.to_nat (keep_lines limit (lines + 1) (Some (rm_place m)) l))) by lia.
      rewrite firstn_cons, filter_cons, decide_True by (rewrite Ht; cbn [take firstn]; right; left). f_equal.
      rewrite (IH (lines + 1) (rm_place m)) by (try done; lia). apply filter_ext_in. intros m' Hm'.
      change (take (S (S ?n)) (p :: ?t)) with (p :: take (S n) t). rewrite elem_of_cons.
      pose proof (Hnew m' ltac:(by right)). naive_solver.
Qed.

Lemma keep_lines_first limit l :
  StronglySorted R (rm_place <$> l) -> take (N.to_nat (keep_lines limit 0 None l)) l = on_first_lines (Some limit) l.
Proof.
  intros Hs. destruct l as [|m l]; [done|]. cbn [keep_lines on_first_lines]. rewrite bool_decide_eq_false_2 by done. fold (rm_place m).
  destruct (N.eqb_spec 0 limit) as [<-|Hpos].
  { cbn [N.to_nat take firstn]. symmetry. apply filter_none. intros m' _. apply not_elem_of_nil. }
  destruct (dedup_head (rm_place m) (rm_place <$> l)) as [t Ht].
  replace (N.to_nat (1 + _)) with (S (N.to_nat (keep_lines limit (0 + 1) (Some (rm_place m)) l))) by lia.
  replace (N.to_nat limit) with (S (N.to_nat (limit - 1))) by lia. rewrite firstn_cons, fmap_cons, filter_cons.
  rewrite decide_True by (rewrite Ht; cbn [take firstn]; left). f_equal. apply keep_lines_ok; [lia|done].
Qed.
End first_lines.

Definition place_le (a b : N * N) : Prop := lex_leb [a.1; a.2] [b.1; b.2] = true.

(** What [sort_region_matches] returns: the places of the input, each once, in
    the order of the lines, as far as the first lines go. *)
Record sorted_matches (found all : list RegionMatch) : Prop := {
  sm_sorted : StronglySorted (fun a b => lex_lt (line_key a) (line_key b)) all;
  sm_once : NoDup (place_key <$> all);
  sm_from : forall m, m ∈ all -> m ∈ found;
  sm_all : forall m, m ∈ found -> exists m', m' ∈ all /\ place_key m' = place_key m;
}.

Lemma same_place_key x y : same_place x y = true <-> place_key x = place_key y.
Proof.
  unfold same_place, place_key. rewrite !andb_true_iff, !N.eqb_eq. split; [by intros [[-> ->] ->]|by intros [= -> -> ->]].
Qed.

Lemma sort_region_matches_ok found max_count :
  exists all, sorted_matches found all /\ sort_region_matches found max_count = on_first_lines max_count all.
Proof.
  unfold sort_region_matches. set (once := dedup_by same_place (sort_by_key place_key found)).
  destruct (dedup_by_ok place_key same_place (sort_by_key place_key found) same_place_key (sorted_by_key _ _)) as (Hnd & Hfrom & Hall).
  fold once in Hnd, Hfrom, Hall. set (all := sort_by_key line_key once).
  assert (all ≡ₚ once) as Hperm by apply sort_by_perm.
  assert (StronglySorted (fun a b => lex_lt (line_key a) (line_key b)) all) as Hsorted.
  { apply sorted_strict. clear -Hnd. induction once as [|m l IH]; [constructor|]. rewrite !fmap_cons in *.
    apply NoDup_cons in Hnd as [Hn Hnd]. apply NoDup_cons. split; [|by apply IH]. intros (y & E & Hy)%list_elem_of_fmap.
    apply Hn, list_elem_of_fmap. exists y. split; [|done]. unfold line_key in E. injection E as _ _ E1 E2 E3. unfold place_key. by rewrite E1, E2, E3. }
  exists all. split.
  - split; [done|by rewrite Hperm|intros m Hm; rewrite Hperm in Hm; apply Hfrom in Hm; by apply elem_of_sort_by in Hm|].
    intros m Hm. destruct (Hall m) as (m' & Hm' & Hk); [by apply elem_of_sort_by|]. exists m'. by rewrite Hperm.
  - destruct max_count as [limit|]; [|done]. apply (keep_lines_first place_le).
    + intros [a1 a2] [b1 b2] H1 H2. by injection (lex_antisym _ _ H1 H2) as -> ->.
    + clear -Hsorted. induction Hsorted as [|m l Hs IH Hm]; [constructor|]. rewrite fmap_cons. constructor; [done|].
      rewrite Forall_fmap. eapply Forall_impl; [exact Hm|]. intros m' [H _]. unfold line_key in H. cbn. unfold place_le, rm_place. cbn [fst snd].
      apply lex_cons in H as [H|[E H]]; [apply lex_cons; by left|]. apply lex_cons. right. split; [done|].
      apply lex_cons in H as [H|[E' H]]; apply lex_cons; [by left|by right].
Qed.

(** ** Lines on the way to a match *)

Section document.
Context (doc : list N).

Definition place_at (offset : N) : N * N := (1 + count_newlines (take (N.to_nat offset) doc), line_start doc offset).

(** A match is on a line: it starts in the document, or is empty at the end of
    an unfinished last line. *)
Definition on_line (offset : N) : bool :=
  (offset <? len doc) || (offset =? len doc) && match last doc with Some byte => negb (byte =? NEWLINE) | None => false end.

Definition located (pattern start end_ : N) (canonical : bool) : RegionMatch := {|
  rm_pattern := pattern; rm_start := start; rm_end := end_;
  rm_line := (place_at start).1; rm_line_offset := (place_at start).2; rm_canonical_span_known := canonical |}.

Lemma enumerate_get {A} (l : list A) i x : get l i = Some x -> get (enumerate l) i = Some (i, x).
Proof. unfold get, enumerate. rewrite list_lookup_imap. intros ->. cbn. by rewrite N2Nat.id. Qed.

Lemma get_cut a b i : a + i < b -> b <= len doc -> get (cut doc a b) i = get doc (a + i).
Proof.
  intros H Hb. unfold get, cut. rewrite lookup_take_lt by lia. rewrite lookup_drop. f_equal. lia.
Qed.

Lemma place_next offset byte :
  get doc offset = Some byte -> place_at (offset + 1) = if byte =? NEWLINE then ((place_at offset).1 + 1, offset + 1) else place_at offset.
Proof.
  intros H. pose proof (get_Some_lt _ _ _ H) as Hlt. assert (cut doc offset (offset + 1) = [byte]) as Hc.
  { unfold cut. replace (N.to_nat (offset + 1 - offset)) with 1%nat by lia. unfold get in H. by rewrite (drop_S _ _ _ H). }
  unfold place_at. rewrite (take_cut doc offset (offset + 1)), count_newlines_app, Hc by lia.
  unfold line_start. rewrite (lines_before_step doc offset (offset + 1) 1), Hc by lia. rewrite count_newlines_cons. cbn [rev app until_newline].
  change (count_newlines []) with 0. destruct (byte =? NEWLINE); cbn [fst].
  - change (1 <=? 1 + 0) with true. change (1 =? 1) with true. cbv iota. f_equal; lia.
  - change (1 <=? 0 + 0) with false. change (1 - (0 + 0)) with 1. cbv iota. f_equal. lia.
Qed.

Lemma advance_line_ok base bytes scanned upto :
  base + len bytes <= len doc -> bytes = cut doc base (base + len bytes) -> scanned <= upto <= len bytes ->
  advance_line base bytes scanned upto (place_at (base + scanned)) = Ok (place_at (base + upto)).
Proof.
  intros Hb Hbytes Hs. unfold advance_line. rewrite cut_get_range by lia. cbn [expect mbind res_bind]. f_equal.
  assert (forall k, k <= upto - scanned ->
    foldl (fun '(line, line_offset) '(index, byte) => if byte =? NEWLINE then (line + 1, base + (scanned + index + 1)) else (line, line_offset))
      (place_at (base + scanned)) (take (N.to_nat k) (enumerate (cut bytes scanned upto))) = place_at (base + scanned + k)) as H.
  { intros k. induction k as [|k IH] using N.peano_ind; intros Hk; [by rewrite N.add_0_r|].
    assert (get bytes (scanned + k) <> None) as Hne.
    { destruct (get_is_Some bytes (scanned + k)) as [byte ->]; [lia|done]. }
    destruct (get bytes (scanned + k)) as [byte|] eqn:Hg; [|done].
    assert (get (enumerate (cut bytes scanned upto)) k = Some (k, byte)) as He by (apply enumerate_get; unfold get, cut in *; rewrite lookup_take_lt by lia; rewrite lookup_drop, <- Hg; f_equal; lia).
    replace (N.to_nat (N.succ k)) with (S (N.to_nat k)) by lia. rewrite (take_S_r _ _ _ He), foldl_app, IH by lia. cbn [foldl].
    replace (base + scanned + N.succ k) with (base + scanned + k + 1) by lia.
    rewrite (place_next _ byte).
    - destruct (place_at (base + scanned + k)) as [line off]. cbn [fst]. destruct (byte =? NEWLINE); [f_equal; lia|done].
    - rewrite Hbytes, get_cut in Hg by lia. rewrite <- Hg. f_equal. lia. }
  specialize (H (upto - scanned) ltac:(lia)). rewrite take_ge in H.
  - rewrite H. f_equal. lia.
  - pose proof (len_enumerate (cut bytes scanned upto)) as Hl. rewrite len_cut in Hl by lia. unfold len in Hl. lia.
Qed.

Lemma line_valid_ok region relative :
  region_ok doc region -> relative <= len (dr_bytes region) ->
  region_match_is_line_valid region relative (len doc) = Ok (on_line (dr_start region + relative)).
Proof.
  intros (Hr & Hbytes & _) Hrel. unfold region_match_is_line_valid, on_line, region_end in *.
  destruct (N.ltb_spec (dr_start region + relative) (len doc)) as [|Hge]; [done|]. cbn [orb].
  destruct (N.eqb_spec (dr_start region + relative) (len doc)) as [E|]; [|done].
  rewrite cut_get_range by lia. cbn [expect mbind res_bind andb]. do 2 f_equal.
  assert (relative = len (dr_bytes region)) as -> by lia. unfold cut at 1. rewrite N.sub_0_r, to_nat_len, drop_0, take_ge by done.
  rewrite Hbytes, E. unfold cut. rewrite take_ge by (rewrite length_drop; unfold len; lia).
  rewrite <- (take_drop (N.to_nat (dr_start region)) doc) at 2. rewrite last_app.
  destruct (last (drop (N.to_nat (dr_start region)) doc)) eqn:El; [done|]. apply last_None in El. apply (f_equal len) in El.
  rewrite len_drop, len_nil in El. lia.
Qed.
End document.

(** ** Matches of a program *)

(** What the regex engine says of [find_iter]: the matches lie in the bytes, in
    order, without overlapping. *)
Record ordered_matches (bytes : list N) (matches : list PatternMatch) : Prop := {
  om_within : Forall (fun m => pm_start m <= pm_end m <= len bytes) matches;
  om_ordered : StronglySorted (fun a b => pm_end a <= pm_start b) matches;
}.

(** The programs were compiled from the plans: they report their patterns, and a
    pattern is matched regionally only when it has a witness. *)
Record programs_ok (plans : list PatternPlan) (programs : SearchPrograms) : Prop := {
  po_ordered : forall kind find bytes, get_region_program programs kind = Ok find -> ordered_matches bytes (find bytes);
  po_plans : forall kind find bytes m, get_region_program programs kind = Ok find -> m ∈ find bytes ->
    exists plan, get plans (pm_pattern m) = Some plan /\ (kind = ProgramRegional -> is_Some (pp_witness plan));
  po_whole : forall bytes, ordered_matches bytes (sp_whole programs bytes);
}.

Lemma witness_loop_bound next eoi dead quit matches state region index k :
  witness_loop next eoi dead quit matches state region index = Some k -> index <= k < index + len region.
Proof.
  revert state index. induction region as [|byte region IH]; intros state index; cbn [witness_loop]; [done|]. rewrite len_cons. cbv zeta.
  destruct (_ || _); [done|]. destruct (is_accepting _ _ _ _ _); [intros [= <-]; lia|]. intros H%IH. lia.
Qed.
Lemma find_witness_within next eoi dead quit matches start witness haystack m :
  pm_start m <= pm_end m <= len haystack ->
  match find_witness next eoi dead quit matches start witness haystack m with
  | Ok (a, b) => pm_start m <= a <= b /\ b <= pm_end m
  | Err _ => True
  | Panic _ => False
  end.
Proof.
  intros Hm. unfold find_witness. rewrite (proj2 (N.leb_le _ _) (proj1 Hm)), (proj2 (N.leb_le _ _) (proj2 Hm)).
  cbn [andb ensure mbind res_bind]. destruct witness as [bytes|bytes direction]; [lia|].
  rewrite cut_get_range by lia. cbn [expect mbind res_bind]. cbv zeta.
  destruct (match start with Some state => _ | None => None end) as [k|] eqn:E; [|by destruct direction].
  destruct start as [state|]; [|done]. apply witness_loop_bound in E.
  assert (len (take (N.to_nat bytes) (match direction with Forward => cut haystack (pm_start m) (pm_end m) | Reverse => rev (cut haystack (pm_start m) (pm_end m)) end))
    <= pm_end m - pm_start m) as Hl.
  { rewrite <- (len_cut haystack) by lia. destruct direction; unfold len; rewrite length_take, ?length_rev; lia. }
  destruct direction; lia.
Qed.

Section regions.
Context (doc : list N) (plans : list PatternPlan).

(** What a match of a region reports. *)
Definition reports (region : DocumentRegion) (matched : PatternMatch) (x : RegionMatch) : Prop :=
  exists start end_ canonical, relative_of plans region matched = Ok (start, end_, canonical) /\
    on_line doc (dr_start region + start) = true /\
    x = located doc (pm_pattern matched) (dr_start region + start) (dr_start region + end_) canonical.

Definition known (region : DocumentRegion) (matched : PatternMatch) : Prop :=
  exists plan, get plans (pm_pattern matched) = Some plan /\ (dr_program region = ProgramRegional -> is_Some (pp_witness plan)).
(** Its pattern's witness is not in the match. *)
Definition unwitnessed (region : DocumentRegion) (matched : PatternMatch) : Prop := exists e, relative_of plans region matched = Err e.

Lemma relative_ok region m :
  known region m -> pm_start m <= pm_end m <= len (dr_bytes region) ->
  match relative_of plans region m with
  | Ok (a, b, _) => pm_start m <= a <= b /\ b <= pm_end m
  | Err _ => True
  | Panic _ => False
  end.
Proof.
  intros (plan & Hplan & Hw) Hm. unfold relative_of. rewrite Hplan. cbn [expect mbind res_bind].
  destruct (dr_program region); [|lia]. destruct (Hw eq_refl) as [[witness machine] ->]. cbn [expect mbind res_bind].
  pose proof (find_witness_within (m_next_state machine) (m_next_eoi_state machine) (m_is_dead machine) (m_is_quit machine) (m_is_match machine)
    (m_start machine match witness with WProven _ direction => direction | WExact _ => Forward end) witness _ _ Hm) as H.
  by destruct (find_witness _ _ _ _ _ _ _ _ _) as [[a b]|e|w].
Qed.

Lemma witness_start_eq region m :
  known region m -> witness_start plans region m = (relative ← relative_of plans region m; Ok relative.1.1).
Proof.
  intros (plan & Hplan & Hw). unfold witness_start, relative_of. rewrite Hplan. cbn [expect mbind res_bind].
  destruct (dr_program region); [|done]. destruct (Hw eq_refl) as [[witness machine] ->]. cbn [expect mbind res_bind].
  by destruct (find_witness _ _ _ _ _ _ _ _ _).
Qed.

(** The state of the scan lies before the matches to come. *)
Definition scan_ok (region : DocumentRegion) (matches : list PatternMatch) (s : Scan) : Prop :=
  Forall (fun m => sc_scanned s <= pm_start m) matches /\ sc_place s = place_at doc (dr_start region + sc_scanned s).

Lemma match_step_ok region m s :
  region_ok doc region -> known region m -> pm_start m <= pm_end m <= len (dr_bytes region) -> scan_ok region [m] s ->
  match region_match_step plans region (len doc) s m with
  | Ok s' => sc_scanned s' <= pm_end m /\ sc_place s' = place_at doc (dr_start region + sc_scanned s') /\
      (forall x, x ∈ sc_found s' <-> x ∈ sc_found s \/ reports region m x)
  | Err _ => unwitnessed region m
  | Panic _ => False
  end.
Proof.
  intros Hregion Hknown Hm [[Hs _]%Forall_cons Hplace]. pose proof (relative_ok region m Hknown Hm) as Hr. unfold region_match_step.
  destruct (relative_of plans region m) as [[[a b] canonical]|e|w] eqn:E; [|by exists e|done]. cbn [mbind res_bind].
  pose proof Hregion as (Hb & Hbytes & _). unfold region_end in *.
  rewrite Hplace, (advance_line_ok doc) by (try done; lia). cbn [mbind res_bind]. rewrite line_valid_ok by (try done; lia). cbn [mbind res_bind].
  split; [cbn; lia|]. split; [done|]. cbn [sc_found]. intros x. unfold reports. rewrite E. destruct (on_line doc (dr_start region + a)) eqn:Hv.
  - rewrite elem_of_app, list_elem_of_singleton. split; (intros [?|Hx]; [by left|right]); [by exists a, b, canonical|].
    by destruct Hx as (? & ? & ? & [= <- <- <-] & _ & ->).
  - split; [by left|]. intros [?|(? & ? & ? & [= <- <- <-] & Hv' & _)]; [done|]. congruence.
Qed.

Lemma region_fold_ok region ms s :
  region_ok doc region -> ordered_matches (dr_bytes region) ms -> Forall (known region) ms -> scan_ok region ms s ->
  match foldM (region_match_step plans region (len doc)) s ms with
  | Ok s' => forall x, x ∈ sc_found s' <-> x ∈ sc_found s \/ exists m, m ∈ ms /\ reports region m x
  | Err _ => Exists (unwitnessed region) ms
  | Panic _ => False
  end.
Proof.
  intros Hregion [Hw Ho] Hk [Hs Hp]. revert s Hs Hp. induction ms as [|m ms IH]; intros s Hs Hp; cbn [foldM].
  { intros x. split; [by left|]. intros [?|(m & ?%elem_of_nil & _)]; done. }
  apply Forall_cons in Hw as [Hm Hw]. apply Forall_cons in Hk as [Hkm Hk]. apply Forall_cons in Hs as [Hsm Hs].
  apply StronglySorted_inv in Ho as [Ho Hmo].
  pose proof (match_step_ok region m s Hregion Hkm Hm ltac:(by split; [repeat constructor|])) as Hstep.
  destruct (region_match_step plans region (len doc) s m) as [s1|e|w]; cbn [mbind res_bind]; [|by left|done].
  destruct Hstep as (H1 & H2 & H3). specialize (IH Hw Ho Hk s1).
  destruct (foldM _ s1 ms) as [s2|e|w].
  - intros x. rewrite IH; [|eapply Forall_impl; [exact Hmo|]; cbn; lia|done]. rewrite H3. setoid_rewrite elem_of_cons. naive_solver.
  - right. apply IH; [|done]. eapply Forall_impl; [exact Hmo|]. cbn. lia.
  - apply IH; [|done]. eapply Forall_impl; [exact Hmo|]. cbn. lia.
Qed.
End regions.

(** ** Regions of a document *)

Section search.
Context (doc : list N) (plans : list PatternPlan) (programs : SearchPrograms).
Context (Hprograms : programs_ok plans programs).

(** Everything a search over some regions reports. *)
Definition reported (regions : list DocumentRegion) (x : RegionMatch) : Prop :=
  exists region find m, region ∈ regions /\ get_region_program programs (dr_program region) = Ok find /\
    m ∈ find (dr_bytes region) /\ reports doc plans region m x.

(** The errors: a program that was not compiled, a match without its witness. *)
Definition unverifiable (region : DocumentRegion) : Prop :=
  match get_region_program programs (dr_program region) with
  | Ok find => Exists (unwitnessed plans region) (find (dr_bytes region))
  | _ => True
  end.

Lemma reported_cons region regions x : reported (region :: regions) x <-> reported [region] x \/ reported regions x.
Proof. unfold reported. setoid_rewrite elem_of_cons. setoid_rewrite elem_of_nil. naive_solver. Qed.

Lemma program_matches region find :
  get_region_program programs (dr_program region) = Ok find ->
  ordered_matches (dr_bytes region) (find (dr_bytes region)) /\ Forall (known plans region) (find (dr_bytes region)).
Proof.
  intros Hf. split; [by eapply po_ordered|]. apply Forall_forall. intros m Hm.
  destruct (po_plans _ _ Hprograms _ _ _ _ Hf Hm) as (plan & Hp & Hw). by exists plan.
Qed.
Lemma program_no_panic kind w : get_region_program programs kind <> Panic w.
Proof. unfold get_region_program. destruct kind; [destruct (sp_regional programs)|destruct (sp_lines programs)]; done. Qed.

Lemma region_start_ok region found :
  region_ok doc region -> forall ms, ordered_matches (dr_bytes region) ms ->
  scan_ok doc region ms {| sc_scanned := 0; sc_place := (dr_line region, dr_line_offset region); sc_found := found |}.
Proof.
  intros (_ & _ & Hl & Ho) ms _. split; cbn [sc_scanned sc_place]; [apply Forall_forall; intros; lia|].
  unfold place_at. by rewrite N.add_0_r, Hl, Ho.
Qed.

Lemma regions_fold_ok regions found :
  Forall (region_ok doc) regions ->
  match foldM (fun found region =>
      program ← get_region_program programs (dr_program region);
      s ← foldM (region_match_step plans region (len doc))
        {| sc_scanned := 0; sc_place := (dr_line region, dr_line_offset region); sc_found := found |} (program (dr_bytes region));
      Ok (sc_found s)) found regions with
  | Ok all => forall x, x ∈ all <-> x ∈ found \/ reported regions x
  | Err _ => Exists unverifiable regions
  | Panic _ => False
  end.
Proof.
  intros Hr. revert found. induction Hr as [|region regions Hregion Hr IH]; intros found; cbn [foldM].
  { intros x. split; [by left|]. intros [Hx|(r & f & m & Hnil%elem_of_nil & _)]; done. }
  destruct (get_region_program programs (dr_program region)) as [find|e|w] eqn:E; cbn [mbind res_bind];
    [|left; unfold unverifiable; by rewrite E|by apply program_no_panic in E].
  destruct (program_matches region find E) as [Hord Hkn].
  pose proof (region_fold_ok doc plans region _ _ Hregion Hord Hkn (region_start_ok region found Hregion _ Hord)) as Hfold.
  destruct (foldM _ _ (find (dr_bytes region))) as [s|e|w]; cbn [mbind res_bind];
    [|left; unfold unverifiable; by rewrite E|done].
  specialize (IH (sc_found s)). destruct (foldM _ (sc_found s) regions) as [all|e|w]; [|by right|done].
  intros x. rewrite IH, Hfold, (reported_cons region regions x). cbn [sc_found].
  assert (reported [region] x <-> exists m, m ∈ find (dr_bytes region) /\ reports doc plans region m x) as ->; [|tauto].
  unfold reported. split.
  - intros (r & f & m & ->%list_elem_of_singleton & Hf & Hm & Hx). rewrite E in Hf. injection Hf as <-. eauto.
  - intros (m & Hm & Hx). exists region, find, m. split_and!; [left|done..].
Qed.

Lemma has_match_in_ok region ms :
  region_ok doc region -> ordered_matches (dr_bytes region) ms -> Forall (known plans region) ms ->
  match has_match_in plans region (len doc) ms with
  | Ok found => found = true <-> exists m x, m ∈ ms /\ reports doc plans region m x
  | Err _ => Exists (unwitnessed plans region) ms
  | Panic _ => False
  end.
Proof.
  intros Hregion [Hw _] Hk. induction Hk as [|m ms Hkm Hk IH]; cbn [has_match_in].
  { split; [done|]. intros (m & x & ?%elem_of_nil & _). done. }
  apply Forall_cons in Hw as [Hm Hw]. specialize (IH Hw). pose proof (relative_ok plans region m Hkm Hm) as Hr.
  rewrite (witness_start_eq plans) by done.
  destruct (relative_of plans region m) as [[[a b] canonical]|e|w] eqn:E; cbn [mbind res_bind fst]; [|left; by exists e|done].
  rewrite (line_valid_ok doc) by (try done; lia). cbn [mbind res_bind]. destruct (on_line doc (dr_start region + a)) eqn:Hv.
  - split; [|done]. intros _. eexists m, _. split; [left|]. by exists a, b, canonical.
  - destruct (has_match_in plans region (len doc) ms) as [found|e|w]; [|by right|done]. rewrite IH. setoid_rewrite elem_of_cons.
    split; [naive_solver|]. intros (m' & x & [->|Hm'] & Hx); [|eauto]. destruct Hx as (? & ? & ? & Hx & Hv' & _). rewrite E in Hx.
    injection Hx as <- <- <-. congruence.
Qed.

Lemma has_region_match_ok regions :
  Forall (region_ok doc) regions ->
  match has_region_match regions (len doc) plans programs with
  | Ok found => found = true <-> exists x, reported regions x
  | Err _ => Exists unverifiable regions
  | Panic _ => False
  end.
Proof.
  induction 1 as [|region regions Hregion Hr IH]; cbn [has_region_match].
  { split; [done|]. intros (x & r & f & m & Hnil%elem_of_nil & _). done. }
  destruct (get_region_program programs (dr_program region)) as [find|e|w] eqn:E; cbn [mbind res_bind];
    [|left; unfold unverifiable; by rewrite E|by apply program_no_panic in E].
  destruct (program_matches region find E) as [Hord Hkn]. pose proof (has_match_in_ok region _ Hregion Hord Hkn) as Hin.
  destruct (has_match_in _ _ _ _) as [found|e|w]; cbn [mbind res_bind]; [|left; unfold unverifiable; by rewrite E|done].
  assert (found = true <-> exists x, reported [region] x) as Hfound.
  { rewrite Hin. unfold reported. split.
    - intros (m & x & Hm & Hx). exists x, region, find, m. split_and!; [left|done..].
    - intros (x & r & f & m & ->%list_elem_of_singleton & Hf & Hm & Hx). rewrite E in Hf. injection Hf as <-. eauto. }
  destruct found.
  - split; [|done]. intros _. destruct (proj1 Hfound eq_refl) as [x Hx]. exists x. apply reported_cons. by left.
  - destruct (has_region_match regions _ _ _) as [rest|e|w]; [|by right|done]. rewrite IH. split; intros [x Hx]; exists x.
    + apply reported_cons. by right.
    + apply reported_cons in Hx as [Hx|Hx]; [|done]. destruct Hfound as [_ Hf]. discriminate Hf. by exists x.
Qed.
End search.

(** ** A whole body *)

Section whole.
Context (doc : list N).

Definition whole_reports (matched : PatternMatch) (x : RegionMatch) : Prop :=
  on_line doc (pm_start matched) = true /\ x = located doc (pm_pattern matched) (pm_start matched) (pm_end matched) true.

Lemma skipped_line offset :
  (len doc <? offset) || (offset =? len doc) && match last doc with Some byte => byte =? NEWLINE | None => true end = negb (on_line doc offset).
Proof.
  unfold on_line. destruct (N.ltb_spec (len doc) offset), (N.eqb_spec offset (len doc)), (N.ltb_spec offset (len doc)); try lia; try done.
  cbn. destruct (last doc); [by rewrite negb_involutive|done].
Qed.

Lemma whole_step_eq s m :
  whole_match_step doc s m =
    if on_line doc (pm_start m) then
      place ← advance_line 0 doc (sc_scanned s) (pm_start m) (sc_place s);
      Ok {| sc_scanned := pm_start m; sc_place := place;
            sc_found := sc_found s ++
              [{| rm_pattern := pm_pattern m; rm_start := pm_start m; rm_end := pm_end m;
                  rm_line := place.1; rm_line_offset := place.2; rm_canonical_span_known := true |}] |}
    else Ok s.
Proof. unfold whole_match_step. rewrite skipped_line. by destruct (on_line doc (pm_start m)). Qed.

Lemma whole_fold_ok ms s :
  ordered_matches doc ms -> Forall (fun m => sc_scanned s <= pm_start m) ms -> sc_place s = place_at doc (sc_scanned s) ->
  exists s', foldM (whole_match_step doc) s ms = Ok s' /\
    forall x, x ∈ sc_found s' <-> x ∈ sc_found s \/ exists m, m ∈ ms /\ whole_reports m x.
Proof.
  intros [Hw Ho] Hs Hp. revert s Hs Hp. induction ms as [|m ms IH]; intros s Hs Hp; cbn [foldM].
  { exists s. split; [done|]. intros x. split; [by left|]. intros [?|(m & ?%elem_of_nil & _)]; done. }
  apply Forall_cons in Hw as [Hm Hw]. apply Forall_cons in Hs as [Hsm Hs]. apply StronglySorted_inv in Ho as [Ho Hmo].
  rewrite whole_step_eq. destruct (on_line doc (pm_start m)) eqn:Hv; cbn [mbind res_bind].
  - assert (doc = cut doc 0 (0 + len doc)) as Hcut by (unfold cut; rewrite drop_0; symmetry; apply take_ge; unfold len; lia).
    pose proof (advance_line_ok doc 0 doc (sc_scanned s) (pm_start m) ltac:(lia) Hcut ltac:(lia)) as Ha. rewrite !N.add_0_l in Ha.
    rewrite Hp, Ha. cbn [mbind res_bind].
    destruct (IH Hw Ho {| sc_scanned := pm_start m; sc_place := place_at doc (pm_start m); sc_found := sc_found s ++
      [{| rm_pattern := pm_pattern m; rm_start := pm_start m; rm_end := pm_end m; rm_line := (place_at doc (pm_start m)).1;
          rm_line_offset := (place_at doc (pm_start m)).2; rm_canonical_span_known := true |}] |}) as (s' & -> & H); [|done|].
    { eapply Forall_impl; [exact Hmo|]. cbn. lia. }
    exists s'. split; [done|]. intros x. rewrite H. cbn [sc_found]. rewrite elem_of_app, list_elem_of_singleton.
    setoid_rewrite elem_of_cons. split.
    + intros [[Hx| ->]|(m' & Hm' & Hx)]; [by left|right; exists m; split; [by left|done]|right; eauto].
    + intros [Hx|(m' & [->|Hm'] & Hx)]; [by left; left|left; right; apply Hx|right; eauto].
  - destruct (IH Hw Ho s Hs Hp) as (s' & -> & H). exists s'. split; [done|]. intros x. rewrite H. setoid_rewrite elem_of_cons. split.
    + intros [Hx|(m' & Hm' & Hx)]; [by left|right; eauto].
    + intros [Hx|(m' & [->|Hm'] & Hx)]; [by left|destruct Hx; congruence|right; eauto].
Qed.
End whole.

(** The first lines of what [found] reports, in order and without repetition. *)
Definition listing (max_count : option N) (reports : RegionMatch -> Prop) (result : list RegionMatch) : Prop :=
  max_count = Some 0 /\ result = [] \/
  exists all, result = on_first_lines max_count all /\
    StronglySorted (fun a b => lex_lt (line_key a) (line_key b)) all /\ NoDup (place_key <$> all) /\
    (forall x, x ∈ all -> reports x) /\ (forall x, reports x -> exists x', x' ∈ all /\ place_key x' = place_key x).

Lemma listing_sorted max_count (reports : RegionMatch -> Prop) found :
  (forall x, x ∈ found <-> reports x) -> listing max_count reports (sort_region_matches found max_count).
Proof.
  intros H. right. destruct (sort_region_matches_ok found max_count) as (all & [H1 H2 H3 H4] & ->). exists all.
  split_and!; try done.
  - intros x Hx. by apply H, H3.
  - intros x Hx. by apply H4, H.
Qed.

Lemma regions_listing doc plans programs regions max_count :
  programs_ok plans programs -> Forall (region_ok doc) regions ->
  match find_region_matches regions (len doc) plans programs max_count with
  | Ok found => listing max_count (reported doc plans programs regions) found
  | Err _ => Exists (unverifiable plans programs) regions
  | Panic _ => False
  end.
Proof.
  intros Hprograms Hregions. unfold find_region_matches.
  destruct (bool_decide (max_count = Some 0)) eqn:E; [apply bool_decide_eq_true in E; by left|].
  pose proof (regions_fold_ok doc plans programs Hprograms regions [] Hregions) as H.
  destruct (foldM _ [] regions) as [all|e|w]; cbn [mbind res_bind]; [|done|done].
  apply listing_sorted. intros x. rewrite H. split; [|by right]. intros [?%elem_of_nil|]; done.
Qed.

(** ** Properties *)

(** C25: searching regions of a document never panics.  It lists exactly the
    matches their programs report, each at its witness, with the number and the
    start of the line it is on, sorted by line without repetition and cut after
    [max_count] lines; matches past the document or on no line are left out.
    The existence check agrees with the listing.  Either fails only when a
    program is missing or a match has no witness. *)
Theorem region_matches_exact doc plans programs regions max_count :
  programs_ok plans programs -> Forall (region_ok doc) regions ->
  match find_region_matches regions (len doc) plans programs max_count with
  | Ok found => listing max_count (reported doc plans programs regions) found
  | Err _ => Exists (unverifiable plans programs) regions
  | Panic _ => False
  end /\
  match has_region_match regions (len doc) plans programs with
  | Ok found => found = true <-> exists x, reported doc plans programs regions x
  | Err _ => Exists (unverifiable plans programs) regions
  | Panic _ => False
  end.
Proof.
  intros Hprograms Hregions. split; [by apply regions_listing|by apply has_region_match_ok].
Qed.

(** Searching a whole body always succeeds and lists exactly the matches of
    the whole program that are on a line, at their line, in the same order and
    under the same limit. *)
Theorem whole_matches_exact doc plans programs max_count :
  programs_ok plans programs ->
  exists found, find_whole_matches doc programs max_count = Ok found /\
    listing max_count (fun x => exists m, m ∈ sp_whole programs doc /\ whole_reports doc m x) found.
Proof.
  intros Hprograms. unfold find_whole_matches. destruct (bool_decide (max_count = Some 0)) eqn:E.
  { apply bool_decide_eq_true in E. exists []. split; [done|by left]. }
  destruct (whole_fold_ok doc (sp_whole programs doc) {| sc_scanned := 0; sc_place := (1, 0); sc_found := [] |}) as (s & -> & H).
  - by apply po_whole with plans.
  - apply Forall_forall. cbn. lia.
  - done.
  - cbn [mbind res_bind]. eexists. split; [done|]. apply listing_sorted. intros x. rewrite H. cbn [sc_found].
    split; [|by right]. intros [?%elem_of_nil|]; done.
Qed.

(** ** Witness: the byte [7] in a region of three lines *)

Definition demo_bytes_find (bytes : list N) : list PatternMatch :=
  (fun p => {| pm_pattern := 0; pm_start := p.1; pm_end := p.1 + 1 |}) <$> filter (fun p => p.2 = 7) (enumerate bytes).
Definition demo_search_plans : list PatternPlan :=
  [{| pp_id := 0; pp_witness := Some (WExact 1, {| m_next_state := fun _ _ => 0; m_next_eoi_state := id; m_is_dead := fun _ => true;
       m_is_quit := fun _ => false; m_is_match := fun _ => false; m_start := fun _ => None |}) |}].
Definition demo_search_programs : SearchPrograms :=
  {| sp_whole := demo_bytes_find; sp_lines := None; sp_regional := Some demo_bytes_find |}.
Definition demo_doc : list N := [1; 10; 7; 7; 10; 2; 7].
Definition demo_search_region : DocumentRegion :=
  {| dr_start := 1; dr_line := 1; dr_line_offset := 0; dr_bytes := [10; 7; 7; 10; 2; 7]; dr_program := ProgramRegional |}.

Lemma demo_find_ordered bytes : ordered_matches bytes (demo_bytes_find bytes).
Proof.
  unfold demo_bytes_find. split.
  - apply Forall_fmap, Forall_forall. intros [i x] [_ Hi%elem_of_enumerate%get_Some_lt]%list_elem_of_filter. cbn. lia.
  - assert (StronglySorted (fun a b : N * N => a.1 < b.1) (filter (fun p => p.2 = 7) (enumerate bytes))) as H.
    { apply sorted_filter. clear. induction bytes as [|x bytes IH] using rev_ind; [constructor|].
      unfold enumerate in *. rewrite imap_app. cbn [imap]. apply sorted_snoc; [intros; lia|done|]. intros [i y] Hi%last_Some.
      assert ((i, y) ∈ imap (fun i x => (N.of_nat i, x)) bytes) as Hin by (destruct Hi as [l' ->]; apply elem_of_app; right; left). clear Hi. rename Hin into Hi.
      apply (elem_of_enumerate bytes i y), get_Some_lt in Hi. unfold len in Hi. cbn. lia. }
    induction H as [|p l Hs IH Hp]; [constructor|]. rewrite fmap_cons. constructor; [done|]. apply Forall_fmap.
    eapply Forall_impl; [exact Hp|]. cbn. lia.
Qed.
Lemma demo_programs_ok : programs_ok demo_search_plans demo_search_programs.
Proof.
  split.
  - intros [] find bytes [= <-]. apply demo_find_ordered.
  - intros [] find bytes m [= <-] Hm. exists {| pp_id := 0; pp_witness := pp_witness (List.nth 0 demo_search_plans {| pp_id := 0; pp_witness := None |}) |}.
    unfold demo_bytes_find in Hm. apply list_elem_of_fmap in Hm as (p & -> & _). split; [done|]. intros _. by eexists.
  - apply demo_find_ordered.
Qed.

Lemma region_matches_exact_witness :
  match find_region_matches [demo_search_region] (len demo_doc) demo_search_plans demo_search_programs (Some 1) with
  | Ok found => listing (Some 1) (reported demo_doc demo_search_plans demo_search_programs [demo_search_region]) found
  | Err _ => Exists (unverifiable demo_search_plans demo_search_programs) [demo_search_region]
  | Panic _ => False
  end /\
  (fun m => (rm_line m, rm_start m)) <$> (match find_region_matches [demo_search_region] (len demo_doc) demo_search_plans demo_search_programs None
    with Ok found => found | _ => [] end) = [(2, 2); (2, 3); (3, 6)].
Proof.
  split; [|vm_compute; reflexivity].
  apply (region_matches_exact demo_doc demo_search_plans demo_search_programs [demo_search_region] (Some 1) demo_programs_ok).
  constructor; [|constructor]. unfold region_ok. split_and!; vm_compute; congruence.
Defined.

Lemma whole_matches_exact_witness :
  exists found, find_whole_matches demo_doc demo_search_programs None = Ok found /\
    listing None (fun x => exists m, m ∈ sp_whole demo_search_programs demo_doc /\ whole_reports demo_doc m x) found.
Proof. exact (whole_matches_exact demo_doc demo_search_plans demo_search_programs None demo_programs_ok). Defined.
