(* ===== verification/Windows.v ===== *)
(** * Windows around matches (crates/index/src/search/verify.rs)

    A long line is not shown whole: [build_windows] cuts one window of at most
    [max_bytes] out of every line with matches, around its lowest match.  The
    text comes from the whole body, or from a region fetched around the match;
    either way the window is the same. *)

From S2P Require Import Prelude BitPack Bytes PackBatch PackLines PackFetch PackRegions Grep Stream Verify.

Record WindowMatch : Type := {
  wm_start : N; wm_end : N; wm_visible : N * N; wm_left_clipped : bool; wm_right_clipped : bool; wm_canonical_span_known : bool;
}.
Record MatchWindow : Type := {
  mw_line : N; mw_line_offset : N; mw_window_offset : N; mw_text : list N; mw_matches : list WindowMatch;
  mw_left_clipped : bool; mw_right_clipped : bool;
}.

Definition window_clip_range (line_start line_end witness_start witness_end max_bytes : N) : res (N * N) :=
  ensure (0 <? max_bytes) "match window must be greater than 0";;
  witness_len ← with_context (checked_sub witness_end witness_start) "match window range overflows";
  if witness_len <=? max_bytes then
    let spare := max_bytes - witness_len in
    let left := spare / 2 in
    let right := spare - left in
    let start := N.max (witness_start - left) line_start in
    let end_ := N.min (saturating_add U64 witness_end right) line_end in
    used ← with_context (checked_sub end_ start) "match window range overflows";
    if used <? max_bytes then
      let extra := max_bytes - used in
      let start := if line_start <? start then start - N.min extra (start - line_start) else start in
      used ← with_context (checked_sub end_ start) "match window range overflows";
      if (used <? max_bytes) && (end_ <? line_end) then
        end_ ← with_context (checked_add U64 end_ (N.min (max_bytes - used) (line_end - end_))) "match window range overflows";
        Ok (start, end_)
      else Ok (start, end_)
    else Ok (start, end_)
  else
    end_ ← with_context (checked_add U64 witness_start max_bytes) "match window range overflows";
    Ok (witness_start, N.min end_ line_end).

(** [min_by_key(|witness| (witness.start, witness.end))]: the first of the
    least. *)
Fixpoint lowest_of (lowest : N * N) (witnesses : list (N * N)) : N * N :=
  match witnesses with
  | [] => lowest
  | w :: witnesses => lowest_of (if lex_leb [lowest.1; lowest.2] [w.1; w.2] then lowest else w) witnesses
  end.

Definition witness_of (m : RegionMatch) : N * N := (rm_start m, rm_end m).

Definition visible_match (window_offset window_end text_len : N) (m : RegionMatch) : WindowMatch := {|
  wm_start := rm_start m; wm_end := rm_end m;
  wm_visible := (N.min (rm_start m - window_offset) text_len, N.min (rm_end m - window_offset) text_len);
  wm_left_clipped := rm_start m <? window_offset; wm_right_clipped := window_end <? rm_end m;
  wm_canonical_span_known := rm_canonical_span_known m |}.

Definition is_visible (window_offset window_end : N) (m : RegionMatch) : bool :=
  if rm_start m =? rm_end m then (window_offset <=? rm_start m) && (rm_start m <=? window_end)
  else (rm_start m <? window_end) && (window_offset <? rm_end m).

Section windows.
(** [batch.fetch_regions(document, &[seed], RegionRead::Bytes)] *)
Context (fetch : N * N -> res FetchedDocument).

(** The bytes around the lowest match of a line, and where they start. *)
Definition window_source (whole : option (list N)) (lowest : N * N) (witnesses : list (N * N)) (decoded_size max_bytes : N)
    : res (list N * N) :=
  match whole with
  | Some bytes => Ok (bytes, 0)
  | None =>
      let seed_start := lowest.1 - max_bytes in
      let anchor_bytes := N.min (N.max (foldr (fun w => N.max (w.2 - w.1)) 0 witnesses) 1) max_bytes in
      end_ ← with_context (checked_add U64 lowest.1 anchor_bytes) "match window range overflows";
      end_ ← with_context (checked_add U64 end_ max_bytes) "match window range overflows";
      fetched ← fetch (seed_start, N.min end_ decoded_size);
      match fetched with
      | Whole body => Ok (body, 0)
      | Regions _ regions =>
          region ← with_context (head regions) "candidate region fetch returned no document";
          Ok (dr_bytes region, dr_start region)
      end
  end.

(** The window of one line; [first] is its first match. *)
Definition line_window (whole : option (list N)) (decoded_size max_bytes : N) (first : RegionMatch) (rest : list RegionMatch)
    : res MatchWindow :=
  let line_offset := rm_line_offset first in
  let lowest := lowest_of (witness_of first) (witness_of <$> rest) in
  '(source, source_offset) ← window_source whole lowest (witness_of <$> first :: rest) decoded_size max_bytes;
  source_end ← with_context (checked_add U64 source_offset (len source)) "match window range overflows";
  let line_relative := line_offset - source_offset in
  line_end ←
    match memchr_newline (drop (N.to_nat (N.min line_relative (len source))) source) with
    | Some relative => with_context (checked_add U64 source_offset (line_relative + relative + 1)) "match window range overflows"
    | None => Ok decoded_size
    end;
  '(start, end_) ← window_clip_range line_offset line_end lowest.1 lowest.2 max_bytes;
  let window_offset := N.max start source_offset in
  let window_end := N.min end_ source_end in
  text ← expect (get_range source (wrapping_sub U64 window_offset source_offset) (wrapping_sub U64 window_end source_offset)) "range out of bounds";
  Ok {| mw_line := rm_line first; mw_line_offset := line_offset; mw_window_offset := window_offset; mw_text := text;
        mw_matches := visible_match window_offset window_end (len text) <$> filter (fun m => is_visible window_offset window_end m = true) (first :: rest);
        mw_left_clipped := line_offset <? window_offset; mw_right_clipped := window_end <? line_end |}.

Definition build_windows (matches : list RegionMatch) (decoded_size max_bytes : N) (whole : option (list N)) : res (list MatchWindow) :=
  ensure (0 <? max_bytes) "match window must be greater than 0";;
  ensure (match whole with Some bytes => len bytes =? decoded_size | None => true end) "whole document length differs from decoded size";;
  mapM_res (fun line_matches =>
    match line_matches with
    | first :: rest => line_window whole decoded_size max_bytes first rest
    | [] => Panic "line group is non-empty"
    end) (chunk_by (fun a b => rm_line a =? rm_line b) matches).
End windows.

(** What a batch promises: a region that holds the range asked for, or the whole
    document. *)
Class HonestBatch (doc : list N) (fetch : N * N -> res FetchedDocument) : Prop := {
  fetch_covers : forall a b, a < b -> b <= len doc ->
    exists fetched, fetch (a, b) = Ok fetched /\
      match fetched with
      | Whole body => body = doc
      | Regions _ regions => exists region, head regions = Some region /\ region_ok doc region /\ dr_start region <= a /\ b <= region_end region
      end;
}.

(** ** The range of a window *)

(** As wide as the line and [max_bytes] allow, as centred as possible. *)
Definition clip_reference (line_start line_end witness_start witness_end max_bytes : N) : N * N :=
  if witness_end - witness_start <=? max_bytes then
    let start := N.max line_start (N.min (witness_start - (max_bytes - (witness_end - witness_start)) / 2) (line_end - max_bytes)) in
    (start, N.min line_end (start + max_bytes))
  else (witness_start, N.min line_end (witness_start + max_bytes)).

Lemma clip_start ls le ws left_ max_bytes :
  left_ <= max_bytes -> ls <= ws -> ws <= le ->
  N.max ls (N.min (ws - left_) (le - max_bytes)) =
    N.max ls (N.min (N.max (ws - left_) ls) (N.min (ws + max_bytes - left_) le - max_bytes)).
Proof. lia. Qed.

Lemma clip_exact ls le ws we max_bytes :
  0 < max_bytes -> ls <= ws -> ws <= we -> ws <= le -> le < U64 -> we < U64 ->
  window_clip_range ls le ws we max_bytes = Ok (clip_reference ls le ws we max_bytes).
Proof.
  intros Hmax H1 H2 H3 H4 H5. unfold window_clip_range, clip_reference, checked_sub, checked_add, saturating_add.
  rewrite (proj2 (N.ltb_lt _ _) Hmax). cbn [ensure mbind res_bind].
  rewrite (proj2 (N.leb_le ws we) H2). cbn [with_context mbind res_bind].
  destruct (N.leb_spec (we - ws) max_bytes) as [Hfit|Hbig].
  - set (left_ := (max_bytes - (we - ws)) / 2). assert (left_ <= max_bytes - (we - ws)) as Hleft by (apply N.Div0.div_le_upper_bound; lia).
    clearbody left_. cbv zeta. set (start := N.max (ws - left_) ls).
    assert (N.min (N.min (we + (max_bytes - (we - ws) - left_)) (U64 - 1)) le = N.min (ws + max_bytes - left_) le) as -> by lia.
    set (end_ := N.min (ws + max_bytes - left_) le).
    assert (start <= ws /\ ws <= end_ /\ end_ <= le /\ ls <= start) as (A1 & A2 & A3 & A4) by (unfold start, end_; lia).
    rewrite (proj2 (N.leb_le start end_)) by lia. cbn [with_context mbind res_bind].
    assert (N.max ls (N.min (ws - left_) (le - max_bytes)) = N.max ls (N.min start (end_ - max_bytes))) as -> by (apply clip_start; lia).
    assert (N.min (start + max_bytes) le = end_ \/ start = ls) as A5 by (unfold start, end_; lia).
    assert (end_ <= start + max_bytes) as A6 by (unfold start, end_; lia).
    assert (start + max_bytes <= end_ -> end_ = start + max_bytes) as A7 by lia.
    clearbody start end_. clear -A1 A2 A3 A4 A5 A6 A7 Hmax H1 H3 H4.
    destruct (N.ltb_spec (end_ - start) max_bytes) as [Hused|Hused]; [|f_equal; f_equal; lia].
    assert ((if ls <? start then start - N.min (max_bytes - (end_ - start)) (start - ls) else start) = N.max ls (N.min start (end_ - max_bytes))) as ->
      by (destruct (N.ltb_spec ls start); lia).
    set (start' := N.max ls (N.min start (end_ - max_bytes))). assert (ls <= start' <= start) as B1 by (unfold start'; lia).
    assert (end_ <= start' + max_bytes) as B2 by (unfold start'; lia).
    assert (N.min (start' + max_bytes) le = end_ \/ start' = ls) as B3 by (unfold start'; lia). clearbody start'.
    rewrite (proj2 (N.leb_le start' end_)) by lia. cbn [with_context mbind res_bind].
    destruct (N.ltb_spec (end_ - start') max_bytes) as [Hu|Hu]; cbn [andb]; [|f_equal; f_equal; lia].
    destruct (N.ltb_spec end_ le) as [Hend|Hend]; [|f_equal; f_equal; lia].
    unfold fits. destruct (N.ltb_spec (end_ + N.min (max_bytes - (end_ - start')) (le - end_)) U64); [|lia]. cbn [with_context mbind res_bind].
    f_equal; f_equal; lia.
  - unfold fits. destruct (N.ltb_spec (ws + max_bytes) U64); [|lia]. cbn [with_context mbind res_bind]. by rewrite N.min_comm.
Qed.

Lemma clip_bounds ls le ws we max_bytes :
  0 < max_bytes -> ls <= ws -> ws <= we -> ws <= le ->
  let '(s, e) := clip_reference ls le ws we max_bytes in
  ls <= s <= ws /\ s <= e <= le /\ e <= s + max_bytes /\ s + max_bytes <= ws + N.max max_bytes (we - ws) + max_bytes /\
  (we - ws <= max_bytes -> N.min we le <= e /\ e - s = N.min max_bytes (le - ls)) /\
  (max_bytes < we - ws -> s = ws /\ e = N.min le (ws + max_bytes)).
Proof.
  intros Hmax H1 H2 H3. unfold clip_reference. destruct (N.leb_spec (we - ws) max_bytes) as [Hfit|Hbig].
  - set (left_ := (max_bytes - (we - ws)) / 2). assert (left_ <= max_bytes - (we - ws)) as Hleft by (apply N.Div0.div_le_upper_bound; lia). clearbody left_. cbv zeta.
    split_and!; lia.
  - split_and!; lia.
Qed.

(** Far enough beyond the match, the end of the line does not matter. *)
Lemma clip_far ls le1 le2 ws we max_bytes :
  ls <= ws -> ws <= we -> ws + max_bytes <= le1 -> ws + max_bytes <= le2 ->
  clip_reference ls le1 ws we max_bytes = clip_reference ls le2 ws we max_bytes.
Proof.
  intros H1 H2 H3 H4. unfold clip_reference. destruct (N.leb_spec (we - ws) max_bytes) as [Hfit|Hbig]; [|f_equal; lia].
  set (left_ := (max_bytes - (we - ws)) / 2). assert (left_ <= max_bytes - (we - ws)) as Hleft by (apply N.Div0.div_le_upper_bound; lia). clearbody left_. cbv zeta.
  f_equal; lia.
Qed.

(** ** Lines in a source *)

Lemma memchr_until l :
  match memchr_newline l with
  | Some r => r < len l /\ until_newline l 1 = r /\ 1 <= count_newlines l
  | None => count_newlines l = 0
  end.
Proof.
  induction l as [|x l IH]; [done|]. cbn [memchr_newline until_newline]. rewrite count_newlines_cons, len_cons.
  destruct (x =? NEWLINE); [rewrite N.eqb_refl; lia|]. destruct (memchr_newline l); cbn [fmap option_fmap option_map]; lia.
Qed.

Lemma memchr_line doc o a b :
  o <= a -> a <= b -> b <= len doc -> count_newlines (cut doc o a) = 0 ->
  match memchr_newline (cut doc a b) with
  | Some r => a + r < b /\ lines_after doc o 1 = a + r + 1
  | None => b = len doc /\ lines_after doc o 1 = len doc \/ b < lines_after doc o 1
  end.
Proof.
  intros H1 H2 H3 H4. pose proof (memchr_until (cut doc a b)) as H. rewrite (lines_after_step doc o a) by lia. rewrite H4.
  destruct (N.leb_spec 1 0); [lia|]. rewrite N.sub_0_r, (lines_after_step doc a b) by lia. rewrite len_cut in H by lia.
  destruct (memchr_newline (cut doc a b)) as [r|].
  - destruct H as (Hr & Hu & Hc). rewrite (proj2 (N.leb_le _ _) Hc), Hu. split; [lia|done].
  - rewrite H. destruct (N.leb_spec 1 0); [lia|]. rewrite N.sub_0_r. unfold lines_after. change (1 =? 0) with false. cbv iota.
    destruct (decide (b = len doc)) as [->|]; [left|right]; lia.
Qed.

Lemma drop_of_cut {A} (doc : list A) a b n : drop (N.to_nat n) (cut doc a b) = cut doc (a + n) b.
Proof. unfold cut. rewrite skipn_firstn_comm, drop_drop. f_equal; [lia|]. f_equal. lia. Qed.

Lemma same_line doc s t :
  s <= t -> t <= len doc -> count_newlines (take (N.to_nat s) doc) = count_newlines (take (N.to_nat t) doc) -> line_start doc s = line_start doc t.
Proof.
  intros H1 H2 Hc. rewrite (take_cut doc s t H1), count_newlines_app in Hc. unfold line_start. rewrite (lines_before_step doc s t 1) by lia.
  destruct (N.leb_spec 1 (count_newlines (cut doc s t))); [lia|]. f_equal. lia.
Qed.

Lemma lowest_of_ok w ws :
  lowest_of w ws ∈ w :: ws /\ forall x, x ∈ w :: ws -> lex_leb [(lowest_of w ws).1; (lowest_of w ws).2] [x.1; x.2] = true.
Proof.
  revert w. induction ws as [|y ws IH]; intros w; cbn [lowest_of].
  { split; [left|]. intros x ->%list_elem_of_singleton. by destruct (lex_total [w.1; w.2] [w.1; w.2]). }
  destruct (lex_leb [w.1; w.2] [y.1; y.2]) eqn:E.
  - destruct (IH w) as [H1 H2]. split; [apply elem_of_cons in H1 as [->|H1]; [left|right; by right]|].
    intros x [->|[->|Hx]%elem_of_cons]%elem_of_cons; [apply H2; left|eapply lex_trans; [apply H2; left|done]|apply H2; by right].
  - destruct (IH y) as [H1 H2]. split; [by right|]. assert (lex_leb [y.1; y.2] [w.1; w.2] = true) as E' by (destruct (lex_total [w.1; w.2] [y.1; y.2]); congruence).
    intros x [->|Hx]%elem_of_cons; [eapply lex_trans; [apply H2; left|done]|by apply H2].
Qed.

Section lines.
Context (doc : list N).

(** A match as a search lists it. *)
Definition match_ok (m : RegionMatch) : Prop :=
  on_line doc (rm_start m) = true /\ rm_start m <= rm_end m <= len doc /\ (rm_line m, rm_line_offset m) = place_at doc (rm_start m).

Lemma on_line_bounds offset : on_line doc offset = true -> offset <= len doc /\ doc <> [].
Proof.
  unfold on_line. intros [H%N.ltb_lt|[H%N.eqb_eq Hl]%andb_true_iff]%orb_true_iff; (split; [lia|intros ->]); [rewrite len_nil in H; lia|done].
Qed.

(** The lowest match of a line: where it starts in its line, and that the line
    goes on to it. *)
Lemma lowest_line first rest :
  Forall match_ok (first :: rest) -> Forall (fun m => rm_line m = rm_line first) rest ->
  let lowest := lowest_of (witness_of first) (witness_of <$> rest) in
  let o := rm_line_offset first in
  o <= lowest.1 /\ lowest.1 <= lowest.2 <= len doc /\ count_newlines (cut doc o lowest.1) = 0 /\ lowest.1 <= lines_after doc o 1 <= len doc.
Proof.
  intros Hok Hline lowest o. destruct (lowest_of_ok (witness_of first) (witness_of <$> rest)) as [Hin Hleast]. fold lowest in Hin, Hleast.
  change (witness_of first :: (witness_of <$> rest)) with (witness_of <$> first :: rest) in Hin, Hleast.
  assert (lowest.1 <= rm_start first) as Hle.
  { pose proof (Hleast (witness_of first) ltac:(left)) as H. apply lex_cons in H. cbn in H. lia. }
  apply list_elem_of_fmap in Hin as (m & Em & Hm). rewrite Forall_forall in Hok. destruct (Hok m Hm) as (Hl & Hb & Hp).
  destruct (Hok first ltac:(left)) as (_ & Hb0 & Hp0). rewrite Em in *. cbn [witness_of fst snd] in *.
  assert (rm_line m = rm_line first) as El by (apply elem_of_cons in Hm as [->|Hm]; [done|rewrite Forall_forall in Hline; by apply Hline]).
  unfold place_at in Hp, Hp0. injection Hp as Hp1 Hp2. injection Hp0 as Hq1 Hq2.
  assert (o = line_start doc (rm_start m)) as Ho by (unfold o; rewrite Hq2; symmetry; apply same_line; lia).
  destruct (lines_before_spec doc (rm_start m) 1) as (H1 & _ & H3); [lia|lia|]. fold (line_start doc (rm_start m)) in H1, H3. rewrite <- Ho in H1, H3.
  split; [lia|]. split; [lia|]. assert (count_newlines (cut doc o (rm_start m)) = 0) as Hc by lia. split; [exact Hc|].
  rewrite (lines_after_step doc o (rm_start m)), Hc by lia. destruct (N.leb_spec 1 0); [lia|]. rewrite N.sub_0_r.
  destruct (lines_after_spec doc (rm_start m) 1) as (H5 & _); [lia|lia|]. exact H5.
Qed.
End lines.

Section window.
Context (doc : list N) (fetch : N * N -> res FetchedDocument) `{!HonestBatch doc fetch}.
Context (max_bytes : N) (Hmax : 0 < max_bytes) (Hbig : max_bytes <= 2 ^ 61) (Hdoc : len doc <= 2 ^ 61).

(** The window around the lowest match of a line, cut out of the document. *)
Definition window_reference (first : RegionMatch) (rest : list RegionMatch) : MatchWindow :=
  let line_offset := rm_line_offset first in
  let line_end := lines_after doc line_offset 1 in
  let lowest := lowest_of (witness_of first) (witness_of <$> rest) in
  let '(start, end_) := clip_reference line_offset line_end lowest.1 lowest.2 max_bytes in
  {| mw_line := rm_line first; mw_line_offset := line_offset; mw_window_offset := start; mw_text := cut doc start end_;
     mw_matches := visible_match start end_ (end_ - start) <$> filter (fun m => is_visible start end_ m = true) (first :: rest);
     mw_left_clipped := line_offset <? start; mw_right_clipped := end_ <? line_end |}.

Lemma window_source_ok whole lowest witnesses :
  whole = Some doc \/ whole = None -> doc <> [] -> lowest.1 <= len doc ->
  exists source offset, window_source fetch whole lowest witnesses (len doc) max_bytes = Ok (source, offset) /\
    offset + len source <= len doc /\ source = cut doc offset (offset + len source) /\
    offset <= lowest.1 - max_bytes /\ N.min (lowest.1 + max_bytes) (len doc) <= offset + len source.
Proof.
  intros Hwhole Hne Hlow. assert (doc = cut doc 0 (0 + len doc)) as Hcut by (unfold cut; rewrite drop_0; symmetry; apply take_ge; unfold len; lia).
  assert (0 < len doc) as Hpos by (destruct doc; [done|rewrite len_cons; lia]).
  destruct Hwhole as [-> | ->]; cbn [window_source]; [exists doc, 0; split_and!; [done|lia|done|lia|lia]|].
  set (anchor := N.min _ max_bytes). assert (1 <= anchor <= max_bytes) as Ha by (unfold anchor; lia). clearbody anchor.
  unfold checked_add, fits. change U64 with 18446744073709551616. change (2 ^ 61) with 2305843009213693952 in *.
  destruct (N.ltb_spec (lowest.1 + anchor) 18446744073709551616); [|lia]. cbn [with_context mbind res_bind].
  destruct (N.ltb_spec (lowest.1 + anchor + max_bytes) 18446744073709551616); [|lia]. cbn [with_context mbind res_bind].
  destruct (fetch_covers (lowest.1 - max_bytes) (N.min (lowest.1 + anchor + max_bytes) (len doc))) as (fetched & -> & Hf); [lia|lia|].
  cbn [mbind res_bind]. destruct fetched as [body|size regions].
  - subst body. exists doc, 0. split_and!; [done|lia|done|lia|lia].
  - destruct Hf as (region & Hhead & Hok & Hs & He). rewrite Hhead. cbn [with_context mbind res_bind].
    destruct Hok as (Hr & Hb & _). unfold region_end in *. exists (dr_bytes region), (dr_start region). split_and!; [done|lia|done|lia|lia].
Qed.

Lemma line_window_ok whole first rest :
  whole = Some doc \/ whole = None -> Forall (match_ok doc) (first :: rest) -> Forall (fun m => rm_line m = rm_line first) rest ->
  line_window fetch whole (len doc) max_bytes first rest = Ok (window_reference first rest).
Proof.
  intros Hwhole Hok Hline. pose proof (lowest_line doc first rest Hok Hline) as (H1 & H2 & H3 & H4).
  apply Forall_cons in Hok as [(Hon & _ & _) _]. apply (on_line_bounds doc) in Hon as [_ Hne].
  unfold line_window, window_reference. set (lowest := lowest_of _ _) in *. set (o := rm_line_offset first) in *. cbv zeta.
  destruct (window_source_ok whole lowest (witness_of <$> first :: rest) Hwhole Hne ltac:(lia)) as (source & off & -> & S1 & S2 & S3 & S4).
  cbn [mbind res_bind]. assert (len doc < U64) as Hu by (change (2 ^ 61) with 2305843009213693952 in Hdoc; change U64 with 18446744073709551616; lia).
  assert (checked_add U64 off (len source) = Some (off + len source)) as -> by (apply checked_add_Some; lia). cbn [with_context mbind res_bind].
  set (a := N.max o off). assert (N.min (o - off) (len source) = a - off) as -> by (unfold a; lia).
  assert (drop (N.to_nat (a - off)) source = cut doc a (off + len source)) as ->.
  { transitivity (drop (N.to_nat (a - off)) (cut doc off (off + len source))); [by rewrite <- S2|]. rewrite drop_of_cut. f_equal. unfold a. lia. }
  assert (count_newlines (cut doc o a) = 0) as Hquiet.
  { rewrite <- (cut_app doc o a lowest.1), count_newlines_app in H3 by (unfold a; lia). lia. }
  pose proof (memchr_line doc o a (off + len source) ltac:(unfold a; lia) ltac:(unfold a; lia) S1 Hquiet) as Hm.
  set (line_end := lines_after doc o 1) in *.
  assert (exists le, match memchr_newline (cut doc a (off + len source)) with
      | Some relative => with_context (checked_add U64 off (o - off + relative + 1)) "match window range overflows"
      | None => Ok (len doc)
      end = Ok le /\ lowest.1 <= le <= len doc /\
      (le = line_end \/ lowest.1 + max_bytes < line_end /\ lowest.1 + max_bytes < le)) as (le & -> & Hle & Hsame).
  { destruct (memchr_newline (cut doc a (off + len source))) as [r|].
    - destruct Hm as [Hr He]. exists line_end. unfold checked_add, fits. destruct (N.ltb_spec (off + (o - off + r + 1)) U64); [|unfold a in *; lia].
      cbn [with_context]. split; [f_equal; unfold a in *; lia|]. split; [lia|by left].
    - exists (len doc). split; [done|]. split; [lia|]. destruct Hm as [[_ Hm]|Hm]; [by left|]. lia. }
  cbn [mbind res_bind]. rewrite clip_exact by lia. cbn [mbind res_bind].
  assert (clip_reference o le lowest.1 lowest.2 max_bytes = clip_reference o line_end lowest.1 lowest.2 max_bytes) as ->
    by (destruct Hsame as [->|[? ?]]; [done|apply clip_far; lia]).
  pose proof (clip_bounds o line_end lowest.1 lowest.2 max_bytes Hmax H1 ltac:(lia) ltac:(lia)) as Hb.
  destruct (clip_reference o line_end lowest.1 lowest.2 max_bytes) as [s e]. destruct Hb as (B1 & B2 & B3 & _ & B5 & B6).
  assert (off <= s /\ e <= off + len source) as [Hso Hes] by lia.
  rewrite (N.max_l s off), (N.min_l e) by lia. rewrite !wrapping_sub_small by lia. rewrite cut_get_range by lia. cbn [expect mbind res_bind].
  assert (cut source (s - off) (e - off) = cut doc s e) as -> by (transitivity (cut (cut doc off (off + len source)) (s - off) (e - off)); [by rewrite <- S2|rewrite cut_cut by lia; f_equal; lia]).
  rewrite len_cut by lia. do 2 f_equal. destruct Hsame as [->|[? ?]]; [done|].
  destruct (N.ltb_spec e le), (N.ltb_spec e line_end); lia || done.
Qed.
End window.

(** ** What a search lists can be windowed *)

Lemma reported_match_ok doc plans programs regions x :
  programs_ok plans programs -> Forall (region_ok doc) regions -> reported doc plans programs regions x -> match_ok doc x.
Proof.
  intros Hp Hr (region & find & m & Hin & Hf & Hm & s & e & c & Hrel & Hon & ->). rewrite Forall_forall in Hr. pose proof (Hr region Hin) as (Hb & _).
  destruct (program_matches plans programs Hp region find Hf) as [[Hw _] Hk]. rewrite Forall_forall in Hw, Hk.
  pose proof (relative_ok plans region m (Hk m Hm) (Hw m Hm)) as H. rewrite Hrel in H. specialize (Hw m Hm). cbn in Hw.
  unfold match_ok, located, region_end in *. cbn. split_and!; [done|lia|lia|done].
Qed.

(** The groups [build_windows] makes: the runs of matches on one line. *)
Definition line_groups (matches : list RegionMatch) : list (list RegionMatch) := chunk_by (fun a b => rm_line a =? rm_line b) matches.

(** A window shows a part of one line, the lowest match of the line foremost. *)
Definition window_ok (doc : list N) (max_bytes : N) (group : list RegionMatch) (w : MatchWindow) : Prop :=
  exists lowest, lowest ∈ group /\ Forall (fun m => lex_leb [rm_start lowest; rm_end lowest] [rm_start m; rm_end m] = true) group /\
    let line_end := lines_after doc (mw_line_offset w) 1 in
    let window_end := mw_window_offset w + len (mw_text w) in
    mw_line w = rm_line lowest /\ mw_line_offset w = rm_line_offset lowest /\
    mw_text w = cut doc (mw_window_offset w) window_end /\
    mw_line_offset w <= mw_window_offset w <= rm_start lowest /\ window_end <= line_end /\ len (mw_text w) <= max_bytes /\
    (rm_end lowest - rm_start lowest <= max_bytes ->
      N.min (rm_end lowest) line_end <= window_end /\ len (mw_text w) = N.min max_bytes (line_end - mw_line_offset w)) /\
    mw_left_clipped w = (mw_line_offset w <? mw_window_offset w) /\ mw_right_clipped w = (window_end <? line_end).

Lemma window_reference_ok doc max_bytes first rest :
  0 < max_bytes -> Forall (match_ok doc) (first :: rest) -> Forall (fun m => rm_line m = rm_line first) rest ->
  window_ok doc max_bytes (first :: rest) (window_reference doc max_bytes first rest).
Proof.
  intros Hmax Hok Hline. pose proof (lowest_line doc first rest Hok Hline) as (H1 & H2 & H3 & H4).
  unfold window_reference. set (low := lowest_of _ _) in *. cbv zeta.
  pose proof (clip_bounds (rm_line_offset first) (lines_after doc (rm_line_offset first) 1) low.1 low.2 max_bytes Hmax H1 ltac:(lia) ltac:(lia)) as Hb.
  destruct (clip_reference _ _ _ _ _) as [s e]. destruct Hb as (B1 & B2 & B3 & _ & B5 & B6).
  destruct (lowest_of_ok (witness_of first) (witness_of <$> rest)) as [Hin Hleast]. fold low in Hin, Hleast.
  change (witness_of first :: (witness_of <$> rest)) with (witness_of <$> first :: rest) in Hin, Hleast.
  apply list_elem_of_fmap in Hin as (m & Em & Hm). rewrite Em in *. cbn [witness_of fst snd] in *.
  assert (rm_line m = rm_line first) as El by (apply elem_of_cons in Hm as [->|Hm]; [done|rewrite Forall_forall in Hline; by apply Hline]).
  assert (rm_line_offset m = rm_line_offset first) as Eo.
  { rewrite Forall_forall in Hok. destruct (Hok m Hm) as (_ & Hbm & Hp). destruct (Hok first ltac:(left)) as (_ & Hbf & Hp0).
    unfold place_at in Hp, Hp0. injection Hp as Hp1 Hp2. injection Hp0 as Hq1 Hq2. rewrite Hp2, Hq2.
    destruct (decide (rm_start m <= rm_start first)); [|symmetry]; apply same_line; lia. }
  exists m. split; [done|]. split.
  { apply Forall_forall. intros x Hx. apply (Hleast (witness_of x)). by apply list_elem_of_fmap_2. }
  cbn [mw_line mw_line_offset mw_window_offset mw_text mw_left_clipped mw_right_clipped]. rewrite len_cut by lia.
  replace (s + (e - s)) with e by lia. split_and!; (done || lia).
Qed.

Lemma mapM_res_groups {A B} (f : A -> res B) (g : A -> B) l : Forall (fun x => f x = Ok (g x)) l -> mapM_res f l = Ok (g <$> l).
Proof. induction 1 as [|x l Hx _ IH]; [done|]. cbn [mapM_res fmap list_fmap]. rewrite Hx. cbn. by rewrite IH. Qed.

Lemma line_group_ok matches group :
  group ∈ line_groups matches ->
  exists first rest, group = first :: rest /\ (forall m, m ∈ group -> m ∈ matches) /\ Forall (fun m => rm_line m = rm_line first) rest.
Proof.
  intros Hg. pose proof (chunk_by_same rm_line (fun a b => rm_line a =? rm_line b) matches) as H. fold (line_groups matches) in H.
  rewrite Forall_forall in H. destruct (H (fun x y => proj1 (N.eqb_eq _ _)) group Hg) as (first & rest & -> & Hall). exists first, rest.
  split; [done|]. split; [|by apply Forall_cons in Hall as [_ Hall]]. intros m Hm.
  rewrite <- (concat_chunk_by (fun a b => rm_line a =? rm_line b) matches). apply list_elem_of_In, in_concat. exists (first :: rest). by rewrite <- !list_elem_of_In.
Qed.

(** ** Properties *)

(** C26: the windows of a document are the same whether it was read whole or only
    in a region around each line's lowest match.  Every line with matches gets
    one window: a part of the line of at most [max_bytes] bytes around its
    lowest match, which it holds, and as wide as the line allows, when the match
    fits; its clip marks say whether the line goes on to either side. *)
Theorem windows_exact doc fetch matches max_bytes :
  HonestBatch doc fetch -> 0 < max_bytes -> max_bytes <= 2 ^ 61 -> len doc <= 2 ^ 61 -> Forall (match_ok doc) matches ->
  exists windows,
    build_windows fetch matches (len doc) max_bytes None = Ok windows /\
    build_windows fetch matches (len doc) max_bytes (Some doc) = Ok windows /\
    Forall2 (window_ok doc max_bytes) (line_groups matches) windows.
Proof.
  intros Hfetch Hmax Hbig Hdoc Hok.
  set (window := fun group => match group with first :: rest => window_reference doc max_bytes first rest | [] => window_reference doc max_bytes
    {| rm_pattern := 0; rm_start := 0; rm_end := 0; rm_line := 0; rm_line_offset := 0; rm_canonical_span_known := false |} [] end).
  assert (forall group, group ∈ line_groups matches -> exists first rest, group = first :: rest /\ Forall (match_ok doc) (first :: rest) /\
    Forall (fun m => rm_line m = rm_line first) rest) as Hgroups.
  { intros group Hg. destruct (line_group_ok matches group Hg) as (first & rest & -> & Hin & Hline). exists first, rest. split_and!; [done| |done].
    rewrite Forall_forall in Hok |- *. intros m Hm. by apply Hok, Hin. }
  assert (forall whole, whole = None \/ whole = Some doc -> build_windows fetch matches (len doc) max_bytes whole = Ok (window <$> line_groups matches)) as H.
  { intros whole Hwhole. unfold build_windows. rewrite (proj2 (N.ltb_lt _ _) Hmax). cbn [ensure mbind res_bind].
    assert (match whole with Some bytes => len bytes =? len doc | None => true end = true) as -> by (destruct Hwhole as [-> | ->]; [done|apply N.eqb_refl]).
    cbn [ensure mbind res_bind]. apply mapM_res_groups, Forall_forall. intros group Hg. destruct (Hgroups group Hg) as (first & rest & -> & Hall & Hline).
    apply line_window_ok; [done|done|done|done|tauto|done|done]. }
  exists (window <$> line_groups matches). split_and!; [apply H; by left|apply H; by right|].
  apply Forall2_fmap_r, Forall_Forall2_diag, Forall_forall. intros group Hg. destruct (Hgroups group Hg) as (first & rest & -> & Hall & Hline).
  by apply window_reference_ok.
Qed.

(** ** Witness: two matches on the second of three lines, one byte wide windows
    apart *)

Definition demo_window_doc : list N := [1; 10; 5; 7; 5; 7; 5; 10; 2].
Definition demo_window_matches : list RegionMatch :=
  [{| rm_pattern := 0; rm_start := 3; rm_end := 4; rm_line := 2; rm_line_offset := 2; rm_canonical_span_known := true |};
   {| rm_pattern := 0; rm_start := 5; rm_end := 6; rm_line := 2; rm_line_offset := 2; rm_canonical_span_known := true |}].
Definition demo_window_fetch (range : N * N) : res FetchedDocument :=
  Ok (Regions (len demo_window_doc) [{| dr_start := range.1; dr_line := 1 + count_newlines (take (N.to_nat range.1) demo_window_doc);
    dr_line_offset := line_start demo_window_doc range.1; dr_bytes := cut demo_window_doc range.1 range.2; dr_program := ProgramRegional |}]).

Lemma demo_honest : HonestBatch demo_window_doc demo_window_fetch.
Proof.
  split. intros a b Hab Hb. eexists. split; [reflexivity|]. eexists. split; [reflexivity|]. unfold region_ok, region_end. cbn [dr_start dr_bytes dr_line dr_line_offset fst snd].
  rewrite len_cut by done. replace (a + (b - a)) with b by lia. split_and!; (done || lia).
Qed.

Lemma windows_exact_witness :
  (exists windows,
    build_windows demo_window_fetch demo_window_matches (len demo_window_doc) 3 None = Ok windows /\
    build_windows demo_window_fetch demo_window_matches (len demo_window_doc) 3 (Some demo_window_doc) = Ok windows /\
    Forall2 (window_ok demo_window_doc 3) (line_groups demo_window_matches) windows) /\
  (match build_windows demo_window_fetch demo_window_matches (len demo_window_doc) 3 None with
   | Ok windows => (fun w => (mw_window_offset w, mw_text w, mw_left_clipped w, mw_right_clipped w)) <$> windows
   | _ => []
   end) = [(2, [5; 7; 5], false, true)].
Proof.
  split; [|vm_compute; reflexivity].
  apply (windows_exact demo_window_doc demo_window_fetch demo_window_matches 3 demo_honest); [reflexivity|vm_compute; congruence|vm_compute; congruence|].
  repeat constructor; vm_compute; congruence.
Defined.
