(* ===== verification/Results.v ===== *)
(** * What a document shows (crates/index/src/search/verify.rs)

    [verify_document] decides whether a fetched document matches and what is
    shown of it: that it matches, its lines with a match, their numbers of
    matches, windows around the matches, or full lines with their context.  A
    document may have come whole or in regions; the full lines of a document in
    regions are fetched around its matches and matched again. *)

From stdpp Require Import sorting.
From S2P Require Import Prelude Bytes PackRead PackBatch PackLines PackFetch PackRegions Format Grep Witness Verify Stream Windows.

(** [is_empty] *)
Definition is_nil {A} (l : list A) : bool := match l with [] => true | _ => false end.

(** [search::SearchDetail] *)
Inductive SearchDetail : Type :=
  | Documents | MatchingLines | MatchCount | MatchWindows (max_bytes : N) | FullLines.
#[export] Instance SearchDetail_eq_dec : EqDecision SearchDetail.
Proof. solve_decision. Defined.

Inductive OwnedMatchData : Type :=
  | DataDocuments
  | DataLines (events : list LineEvent)
  | DataWindows (windows : list MatchWindow).
Record VerifiedDocument : Type := { vd_data : OwnedMatchData; vd_bytes_searched : N; vd_extra_fetched_bytes : N }.

(** [seagrep_core::RegionRead] *)
Inductive RegionRead : Type := ReadBytes | ReadLines (before_context after_context : N).

(** [FetchedDocument::decoded_size], [FetchedDocument::fetched_size] *)
Definition decoded_size (fetched : FetchedDocument) : N :=
  match fetched with Whole body => len body | Regions size _ => size end.
Definition fetched_size (fetched : FetchedDocument) : N :=
  match fetched with Whole body => len body | Regions _ regions => sumN ((fun region => len (dr_bytes region)) <$> regions) end.

(** ** Events of lines *)

Definition counted_event (matched : RegionMatch) : LineEvent := {|
  le_line := rm_line matched; le_kind := KMatch; le_offset := rm_line_offset matched; le_text := []; le_submatches := [{| sm_start := 0; sm_end := 0 |}] |}.

(** One turn of the loop of [build_count_events]. *)
Definition count_step (count_matches : bool) (events : list LineEvent) (matched : RegionMatch) : list LineEvent :=
  match last events with
  | Some event =>
      if le_line event =? rm_line matched then
        if count_matches then
          removelast events ++ [{| le_line := le_line event; le_kind := le_kind event; le_offset := le_offset event; le_text := le_text event;
                                   le_submatches := le_submatches event ++ [{| sm_start := 0; sm_end := 0 |}] |}]
        else events
      else events ++ [counted_event matched]
  | None => events ++ [counted_event matched]
  end.
Definition build_count_events (matches : list RegionMatch) (count_matches : bool) : list LineEvent :=
  foldl (count_step count_matches) [] matches.

Definition kind_rank (kind : LineKind) : N := match kind with KMatch => 0 | KContext => 1 end.
Definition event_key (event : LineEvent) : list N := [le_line event; le_offset event; kind_rank (le_kind event)].
Definition sub_key (sub : SubMatch) : list N := [sm_start sub; sm_end sub].
Definition same_sub (left right : SubMatch) : bool := (sm_start left =? sm_start right) && (sm_end left =? sm_end right).

(** Two events of one line, the first one kept so far. *)
Definition merge_event (previous event : LineEvent) : LineEvent :=
  match le_kind previous, le_kind event with
  | KMatch, KMatch =>
      let submatches := dedup_by same_sub (sort_by_key sub_key (le_submatches previous ++ le_submatches event)) in
      if is_nil (le_text previous) && negb (is_nil (le_text event)) then
        {| le_line := le_line previous; le_kind := KMatch; le_offset := le_offset event; le_text := le_text event; le_submatches := submatches |}
      else {| le_line := le_line previous; le_kind := KMatch; le_offset := le_offset previous; le_text := le_text previous; le_submatches := submatches |}
  | KContext, KMatch => event
  | _, KContext => previous
  end.
Definition merge_step (merged : list LineEvent) (event : LineEvent) : list LineEvent :=
  match last merged with
  | Some previous => if le_line previous =? le_line event then removelast merged ++ [merge_event previous event] else merged ++ [event]
  | None => merged ++ [event]
  end.
Definition merge_line_events (events : list LineEvent) : list LineEvent := foldl merge_step [] (sort_by_key event_key events).

(** ** Full lines *)

Definition with_max_count (options : MatchOptions) (max : option N) : MatchOptions := {|
  before_context := before_context options; after_context := after_context options; max_count := max |}.
Definition is_match (event : LineEvent) : bool := match le_kind event with KMatch => true | KContext => false end.

(** An event of a region, at its place in the document. *)
Definition place_event (region : DocumentRegion) (event : LineEvent) : res LineEvent :=
  line ← expect (checked_add U64 (le_line event) (saturating_sub (dr_line region) 1)) "line numbers fit u64";
  offset ← expect (checked_add U64 (le_offset event) (dr_start region)) "document offsets fit u64";
  Ok {| le_line := line; le_kind := le_kind event; le_offset := offset; le_text := le_text event; le_submatches := le_submatches event |}.

(** The events of the regions, with [matched_lines] lines counted before. *)
Fixpoint region_events (programs : SearchPrograms) (options : MatchOptions) (matched_lines : N) (regions : list DocumentRegion) : res (list LineEvent) :=
  match regions with
  | [] => Ok []
  | region :: regions =>
      let max_count := (fun limit => saturating_sub limit matched_lines) <$> max_count options in
      if bool_decide (max_count = Some 0) then Ok []
      else
        program ← get_region_program programs (dr_program region);
        found ← grep_matches (dr_bytes region) (program (dr_bytes region)) (with_max_count options max_count);
        let matched_lines := matched_lines + len (filter (fun event => is_match event = true) found) in
        found ← mapM_res (place_event region) found;
        more ← region_events programs options matched_lines regions;
        Ok (found ++ more)
  end.

Definition collect_line_events (body : FetchedDocument) (programs : SearchPrograms) (options : MatchOptions) : res (list LineEvent) :=
  match body with
  | Whole bytes => grep_matches bytes (sp_whole programs bytes) options
  | Regions _ regions => merge_line_events <$> region_events programs options 0 regions
  end.

(** The bytes a match asks for: an empty one asks for a byte of its line. *)
Definition anchored (size : N) (matched : RegionMatch) : N * N :=
  if rm_start matched =? rm_end matched then
    let anchor := N.min (rm_start matched) (saturating_sub size 1) in (anchor, anchor + 1)
  else (rm_start matched, rm_end matched).

Section batch.
(** [batch.fetch_regions(document, ranges, read)] *)
Context (fetch_regions : list (N * N) -> RegionRead -> res FetchedDocument).

Definition fetch_full_lines (matches : list RegionMatch) (size : N) (programs : SearchPrograms) (options : MatchOptions) : res (list LineEvent * N) :=
  if is_nil matches then Ok ([], 0)
  else
    lines ← fetch_regions (anchored size <$> matches) (ReadLines (before_context options) (after_context options));
    events ← collect_line_events lines programs options;
    Ok (events, fetched_size lines).

(** [SearchContext] *)
Record SearchContext : Type := {
  cx_plans : list PatternPlan; cx_programs : SearchPrograms; cx_stream_overlap : option N; cx_options : MatchOptions; cx_detail : SearchDetail;
}.

Definition pattern_match_of (matched : RegionMatch) : PatternMatch := {| pm_pattern := rm_pattern matched; pm_start := rm_start matched; pm_end := rm_end matched |}.

(** [verify_document], for a body that is whole; [is_file] when it is in a file. *)
Definition verify_whole (is_file : bool) (bytes : list N) (context : SearchContext) : res (option VerifiedDocument) :=
  let verified data := Some {| vd_data := data; vd_bytes_searched := len bytes; vd_extra_fetched_bytes := 0 |} in
  let program := sp_whole (cx_programs context) in
  match cx_detail context with
  | Documents =>
      matched ← match cx_stream_overlap context, is_file with
        | Some overlap, true => has_stream_match program bytes (len bytes) overlap
        | _, _ => Ok (has_line_match bytes (program bytes))
        end;
      Ok (if matched : bool then verified DataDocuments else None)
  | detail =>
      let max := match detail with FullLines => None | _ => max_count (cx_options context) end in
      matches ← find_whole_matches bytes (cx_programs context) max;
      if is_nil matches then Ok None
      else
        data ← match detail with
          | Documents => Ok DataDocuments
          | MatchingLines => Ok (DataLines (build_count_events matches false))
          | MatchCount => Ok (DataLines (build_count_events matches true))
          | FullLines => DataLines <$> grep_matches bytes (pattern_match_of <$> matches) (cx_options context)
          | MatchWindows max_bytes =>
              DataWindows <$> build_windows (fun seed => fetch_regions [seed] ReadBytes) matches (len bytes) max_bytes (Some bytes)
          end;
        Ok (verified data)
  end.

(** [verify_document], for regions of a document. *)
Definition verify_regions (size : N) (regions : list DocumentRegion) (context : SearchContext) : res (option VerifiedDocument) :=
  let verified data extra := Some {| vd_data := data; vd_bytes_searched := size; vd_extra_fetched_bytes := extra |} in
  match cx_detail context with
  | Documents =>
      matched ← has_region_match regions size (cx_plans context) (cx_programs context);
      Ok (if matched : bool then verified DataDocuments 0 else None)
  | detail =>
      matches ← find_region_matches regions size (cx_plans context) (cx_programs context) (max_count (cx_options context));
      if is_nil matches then Ok None
      else
        match detail with
        | Documents => Ok (verified DataDocuments 0)
        | MatchingLines => Ok (verified (DataLines (build_count_events matches false)) 0)
        | MatchCount => Ok (verified (DataLines (build_count_events matches true)) 0)
        | FullLines =>
            '(events, fetched) ← fetch_full_lines matches size (cx_programs context) (cx_options context);
            Ok (if is_nil events then None else verified (DataLines events) fetched)
        | MatchWindows max_bytes =>
            windows ← build_windows (fun seed => fetch_regions [seed] ReadBytes) matches size max_bytes None;
            Ok (verified (DataWindows windows) (sumN ((fun window => len (mw_text window)) <$> windows)))
        end
  end.

Definition verify_document (is_file : bool) (body : FetchedDocument) (context : SearchContext) : res (option VerifiedDocument) :=
  match body with
  | Whole bytes => verify_whole is_file bytes context
  | Regions size regions => verify_regions size regions context
  end.
End batch.

(** ** The lines of a part of a document *)

Lemma split_lines_app l1 l2 : l1 = [] \/ last l1 = Some NEWLINE -> split_lines (l1 ++ l2) = split_lines l1 ++ split_lines l2.
Proof.
  induction l1 as [|x l1 IH]; intros H; [done|]. cbn [app split_lines]. destruct (N.eqb_spec x NEWLINE) as [->|Hx].
  - rewrite IH; [done|]. destruct l1; [by left|right]. destruct H as [?|H]; done.
  - destruct l1 as [|y l1]; [destruct H as [?|[= ?]]; done|]. rewrite IH by (right; by destruct H).
    destruct (split_lines (y :: l1)) as [|t ts] eqn:E; [|done]. cbn [split_lines] in E. destruct (y =? NEWLINE); [done|]. by destruct (split_lines l1).
Qed.
Lemma len_split_lines l : l = [] \/ last l = Some NEWLINE -> len (split_lines l) = count_newlines l.
Proof.
  induction l as [|x l IH]; intros H; [done|]. cbn [split_lines]. rewrite count_newlines_cons. destruct (N.eqb_spec x NEWLINE) as [->|Hx].
  - rewrite len_cons, IH; [lia|]. destruct l; [by left|right]. by destruct H.
  - destruct l as [|y l]; [destruct H as [?|[= ?]]; done|]. specialize (IH ltac:(right; by destruct H)).
    destruct (split_lines (y :: l)) as [|t ts]; rewrite !len_cons, <- IH; [|rewrite len_cons; lia].
    exfalso. rewrite len_nil in IH. destruct H as [?|H]; [done|]. change (last (y :: l) = Some NEWLINE) in H. apply last_Some in H as [l' E].
    rewrite E, count_newlines_app in IH. change (count_newlines [NEWLINE]) with 1 in IH. lia.
Qed.
Lemma concat_split_lines l : concat (split_lines l) = l.
Proof.
  induction l as [|x l IH]; [done|]. cbn [split_lines]. destruct (x =? NEWLINE); [cbn; by rewrite IH|].
  destruct (split_lines l); cbn in *; by rewrite <- IH.
Qed.
Lemma number_lines_app no start t1 t2 :
  number_lines no start (t1 ++ t2) = number_lines no start t1 ++ number_lines (no + len t1) (start + len (concat t1)) t2.
Proof.
  revert no start. induction t1 as [|t t1 IH]; intros no start; cbn [app number_lines concat]; [by rewrite len_nil, !N.add_0_r|].
  rewrite IH, len_cons, len_app. cbn [app]. do 3 f_equal; lia.
Qed.

Lemma number_lines_from no start texts l : l ∈ number_lines no start texts -> start <= ln_start l.
Proof.
  revert no start. induction texts as [|t texts IH]; intros no start; cbn [number_lines]; [by intros ?%elem_of_nil|].
  intros [->|H%IH]%elem_of_cons; [done|]. lia.
Qed.

(** A line of a part that starts at [d] after [k] newlines, in the document. *)
Definition shift_line (k d : N) (l : Line) : Line := {| ln_no := ln_no l + k; ln_start := ln_start l + d; ln_text := ln_text l |}.
Lemma number_lines_shift no start k d texts : number_lines (no + k) (start + d) texts = shift_line k d <$> number_lines no start texts.
Proof.
  revert no start. induction texts as [|t texts IH]; intros no start; [done|]. cbn [number_lines fmap list_fmap]. rewrite <- (IH (no + 1) (start + len t)).
  unfold shift_line. cbn. f_equal. f_equal; lia.
Qed.

Lemma boundary_last doc a : a <= len doc -> line_boundary doc a -> take (N.to_nat a) doc = [] \/ last (take (N.to_nat a) doc) = Some NEWLINE.
Proof.
  intros Ha [->|Hb]; [by left|]. destruct (decide (a = 0)) as [->|Hne]; [by left|]. right.
  rewrite (take_cut doc (a - 1) a), Hb by lia. apply last_snoc.
Qed.
Lemma cut_last doc a b : a < b -> b <= len doc -> line_boundary doc b -> last (cut doc a b) = Some NEWLINE.
Proof. intros Hab Hb [->|H]; [lia|]. rewrite <- (cut_app doc a (b - 1) b), H by lia. apply last_snoc. Qed.

(** The lines of a document around those of a part of whole lines. *)
Lemma lines_of_part doc a b :
  a < b -> b <= len doc -> line_boundary doc a -> b = len doc \/ line_boundary doc b ->
  lines_of doc = lines_of (take (N.to_nat a) doc) ++
    (shift_line (count_newlines (take (N.to_nat a) doc)) a <$> lines_of (cut doc a b)) ++
    number_lines (1 + len (split_lines (take (N.to_nat a) doc)) + len (split_lines (cut doc a b))) b (split_lines (drop (N.to_nat b) doc)).
Proof.
  intros Hab Hb Ha Hend. assert (len (take (N.to_nat a) doc) = a) as Hla by (unfold len in *; rewrite length_take; lia).
  assert (doc = take (N.to_nat a) doc ++ cut doc a b ++ drop (N.to_nat b) doc) as E.
  { rewrite app_assoc, <- take_cut by lia. symmetry. apply take_drop. }
  assert (split_lines doc = split_lines (take (N.to_nat a) doc) ++ split_lines (cut doc a b) ++ split_lines (drop (N.to_nat b) doc)) as Es.
  { rewrite E at 1. rewrite split_lines_app by (by apply boundary_last; [lia|]). f_equal. destruct Hend as [->|Hend].
    - rewrite to_nat_len, drop_all. change (split_lines []) with (@nil (list N)). by rewrite !app_nil_r.
    - apply split_lines_app. right. by apply cut_last. }
  unfold lines_of at 1. rewrite Es, !number_lines_app, !concat_split_lines, Hla, len_cut by lia. f_equal. f_equal.
  - unfold lines_of. rewrite <- number_lines_shift. rewrite len_split_lines by (by apply boundary_last; [lia|]). f_equal; lia.
  - f_equal. lia.
Qed.

(** What a line of a document is. *)
Record line_of (doc : list N) (l : Line) : Prop := {
  li_text : ln_text l = cut doc (ln_start l) (ln_end l);
  li_bounds : ln_start l < ln_end l <= len doc;
  li_no : ln_no l = 1 + count_newlines (take (N.to_nat (ln_start l)) doc);
  li_start : line_boundary doc (ln_start l);
  li_inner : count_newlines (cut doc (ln_start l) (ln_end l - 1)) = 0;
  li_end : ln_end l = len doc \/ line_boundary doc (ln_end l);
}.

Lemma memchr_newline_until bytes :
  match memchr_newline bytes with
  | Some off => off < len bytes /\ count_newlines (take (N.to_nat off) bytes) = 0 /\ cut bytes off (off + 1) = [NEWLINE]
  | None => count_newlines bytes = 0
  end.
Proof.
  induction bytes as [|x bytes IH]; [done|]. cbn [memchr_newline]. destruct (N.eqb_spec x NEWLINE) as [->|Hx].
  { rewrite len_cons. split_and!; [lia|done|done]. }
  destruct (memchr_newline bytes) as [off|]; cbn [fmap option_fmap option_map].
  - destruct IH as (H1 & H2 & H3). rewrite len_cons. replace (N.to_nat (1 + off)) with (S (N.to_nat off)) by lia. cbn [take firstn].
    rewrite count_newlines_cons, H2. destruct (N.eqb_spec x NEWLINE); [done|]. split_and!; [lia|done|].
    rewrite <- H3. unfold cut. replace (N.to_nat (1 + off)) with (S (N.to_nat off)) by lia. cbn [drop skipn]. f_equal. lia.
  - rewrite count_newlines_cons, IH. destruct (N.eqb_spec x NEWLINE); done.
Qed.

Lemma rest_line_of doc line_no pos fuel l :
  pos <= len doc -> line_no = count_newlines (take (N.to_nat pos) doc) -> line_boundary doc pos -> len doc - pos < N.of_nat fuel ->
  l ∈ rest_lines doc line_no pos -> line_of doc l.
Proof.
  revert line_no pos. induction fuel as [|fuel IH]; intros line_no pos Hp Hno Hb Hf Hl; [lia|].
  destruct (decide (pos = len doc)) as [->|Hne]; [rewrite rest_lines_end in Hl; by apply elem_of_nil in Hl|].
  pose proof (rest_lines_step doc line_no pos ltac:(lia)) as H. pose proof (memchr_newline_until (drop (N.to_nat pos) doc)) as Hm.
  assert (forall k, take k (drop (N.to_nat pos) doc) = cut doc pos (pos + N.of_nat k)) as Hcut by (intros k; unfold cut; f_equal; lia).
  rewrite len_drop in Hm. destruct (memchr_newline (drop (N.to_nat pos) doc)) as [off|];
    destruct H as (l0 & E & H1 & H2 & H3 & H4 & H5 & H6 & H7 & H8 & H9); rewrite E in Hl.
  - destruct Hm as (M1 & M2 & M3). rewrite Hcut in M2. replace (pos + N.of_nat (N.to_nat off)) with (pos + off) in M2 by lia.
    assert (cut doc (pos + off) (pos + off + 1) = [NEWLINE]) as Hnl.
    { rewrite <- M3. unfold cut. rewrite drop_drop. f_equal; [lia|]. f_equal. lia. }
    assert (count_newlines (cut doc pos (pos + off + 1)) = 1) as Hc.
    { rewrite <- (cut_app doc pos (pos + off)), count_newlines_app, M2, Hnl by lia. done. }
    assert (line_boundary doc (pos + off + 1)) as Hbound by (right; by replace (pos + off + 1 - 1) with (pos + off) by lia).
    apply elem_of_cons in Hl as [->|Hl].
    + split; rewrite ?H2, ?H3; [|lia|lia|done| |by right].
      * apply get_range_Some in H9 as (_ & _ & ->). done.
      * by replace (pos + off + 1 - 1) with (pos + off) by lia.
    + apply (IH (line_no + 1) (pos + off + 1)); [lia| |done|lia|done].
      rewrite (take_cut doc pos) by lia. rewrite count_newlines_app, Hc, Hno. done.
  - apply elem_of_cons in Hl as [->|Hl]; [|rewrite rest_lines_end in Hl; by apply elem_of_nil in Hl].
    assert (cut doc pos (len doc) = drop (N.to_nat pos) doc) as Hall by (unfold cut; apply take_ge; rewrite length_drop; unfold len; lia).
    split; rewrite ?H2, ?H3; [|lia|lia|done| |by left].
    + apply get_range_Some in H9 as (_ & _ & ->). done.
    + rewrite <- Hall, <- (cut_app doc pos (len doc - 1)), count_newlines_app in Hm by lia. lia.
Qed.

Lemma lines_of_ok doc l : l ∈ lines_of doc -> line_of doc l.
Proof. intros Hl. apply (rest_line_of doc 0 0 (S (length doc))); [lia|done|by left|unfold len; lia|]. unfold rest_lines. by rewrite drop_0. Qed.

(** ** Matching lines apart from the rest of the document *)

(** A program whose matches stay within lines, as [FallbackExtent::Lines] says:
    on a part of whole lines it finds what it finds there in the document. *)
Class LineProgram (find : list N -> list PatternMatch) : Prop := {
  lp_within bytes : Forall (fun m => pm_start m <= pm_end m <= len bytes) (find bytes);
  lp_ordered bytes : StronglySorted (fun a b => pm_start a < pm_start b) (find bytes);
  lp_local doc a b l : a < b -> b <= len doc -> line_boundary doc a -> b = len doc \/ line_boundary doc b ->
    l ∈ lines_of (cut doc a b) ->
    line_subs (find (cut doc a b)) l = line_subs (find doc) (shift_line (count_newlines (take (N.to_nat a) doc)) a l);
}.

Lemma omap_ext_in_list {A B} (f g : A -> option B) (l : list A) : (forall x, x ∈ l -> f x = g x) -> omap f l = omap g l.
Proof.
  induction l as [|x l IH]; intros H; [done|]. cbn [omap list_omap]. rewrite (H x) by left. rewrite IH; [done|]. intros y Hy. apply H. by right.
Qed.
Lemma sorted_same {A} (key : A -> N) l1 l2 :
  StronglySorted (fun a b => key a < key b) l1 -> StronglySorted (fun a b => key a < key b) l2 -> (forall x, x ∈ l1 <-> x ∈ l2) -> l1 = l2.
Proof.
  intros H1. revert l2. induction H1 as [|x l1 Hs IH Hx]; intros l2 H2 Heq.
  { destruct l2 as [|y l2]; [done|]. assert (y ∈ []) as H%elem_of_nil by (apply Heq; left). done. }
  destruct H2 as [|y l2 Hs2 Hy]; [assert (x ∈ []) as H%elem_of_nil by (apply Heq; left); done|].
  rewrite Forall_forall in Hx. rewrite Forall_forall in Hy.
  assert (x = y) as <-.
  { assert (x ∈ y :: l2) as [->|H1]%elem_of_cons by (apply Heq; left); [done|]. assert (y ∈ x :: l1) as [->|H2]%elem_of_cons by (apply Heq; left); [done|].
    specialize (Hx y H2). specialize (Hy x H1). lia. }
  f_equal. apply IH; [done|]. intros z. specialize (Heq z). rewrite !elem_of_cons in Heq. split; intros Hz.
  - assert (z = x \/ z ∈ l2) as [->|] by tauto; [|done]. specialize (Hx x Hz). lia.
  - assert (z = x \/ z ∈ l1) as [->|] by tauto; [|done]. specialize (Hy x Hz). lia.
Qed.

Lemma lines_sorted doc : StronglySorted (fun a b => ln_no a < ln_no b) (lines_of doc).
Proof. apply number_lines_sorted. Qed.

(** The lines of a part that count, and what is shown of them. *)
Definition shift_event (k d : N) (event : LineEvent) : LineEvent := {|
  le_line := le_line event + k; le_kind := le_kind event; le_offset := le_offset event + d; le_text := le_text event; le_submatches := le_submatches event |}.

Lemma limit_fmap {A B} (f : A -> B) options l : limit options (f <$> l) = f <$> limit options l.
Proof. unfold limit. destruct (max_count options); [|done]. symmetry. apply fmap_take. Qed.

Section shift.
Context (found whole : list PatternMatch) (options : MatchOptions) (k d : N) (ls : list Line).
Context (Hsubs : forall l, l ∈ ls -> line_subs found l = line_subs whole (shift_line k d l)).

Lemma counted_shift : counted whole options (shift_line k d <$> ls) = (fun no => no + k) <$> counted found options ls.
Proof.
  unfold counted. rewrite <- limit_fmap. f_equal. induction ls as [|l ls' IH]; [done|]. rewrite fmap_cons, !filter_cons, <- (Hsubs l) by left.
  case_decide; rewrite ?fmap_cons, IH by (intros; apply Hsubs; by right); done.
Qed.

Lemma shown_shift hits l : l ∈ ls ->
  shown whole options ((fun no => no + k) <$> hits) (shift_line k d l) = shift_event k d <$> shown found options hits l.
Proof.
  intros Hl. unfold shown. rewrite <- (Hsubs l Hl). cbn [shift_line ln_no ln_start ln_text].
  assert (bool_decide (ln_no l + k ∈ (fun no => no + k) <$> hits) = bool_decide (ln_no l ∈ hits)) as ->.
  { apply bool_decide_ext. rewrite list_elem_of_fmap. split; [|by exists (ln_no l)]. intros (y & E & Hy). by replace (ln_no l) with y by lia. }
  assert (near options ((fun no => no + k) <$> hits) (ln_no l + k) = near options hits (ln_no l)) as ->.
  { unfold near. clear. induction hits as [|hit hits IH]; [done|]. cbn [fmap list_fmap existsb]. rewrite <- IH. f_equal. f_equal; apply eq_true_iff_eq; rewrite !N.leb_le; lia. }
  by repeat case_match.
Qed.

Lemma reference_shift hits :
  omap (shown whole options ((fun no => no + k) <$> hits)) (shift_line k d <$> ls) = shift_event k d <$> omap (shown found options hits) ls.
Proof.
  pose proof (shown_shift hits) as Hs. clear Hsubs. induction ls as [|l ls' IH]; [done|]. rewrite fmap_cons. cbn [omap list_omap]. rewrite Hs by left.
  destruct (shown found options hits l); cbn [fmap option_fmap option_map]; [rewrite fmap_cons; f_equal|]; (apply IH; intros; apply Hs; by right).
Qed.
End shift.

Lemma shown_hits matches options hits lines :
  len (filter (fun event => is_match event = true) (omap (shown matches options hits) lines)) = len (filter (fun l => ln_no l ∈ hits) lines).
Proof.
  induction lines as [|l lines IH]; [done|]. cbn [omap list_omap]. rewrite (filter_cons _ l). unfold shown at 1. case_bool_decide as E.
  - rewrite filter_cons, decide_True, decide_True by done. rewrite !len_cons. by rewrite IH.
  - rewrite (decide_False (P := ln_no l ∈ hits)) by done. destruct (near options hits (ln_no l)); [|done]. rewrite filter_cons, decide_False by done. done.
Qed.

(** As many lines are shown as matches as there are that count. *)
Lemma shown_matches matches options lines :
  StronglySorted (fun a b => ln_no a < ln_no b) lines ->
  len (filter (fun event => is_match event = true) (reference_lines matches options lines)) = len (counted matches options lines).
Proof.
  intros Hs. unfold reference_lines. rewrite shown_hits. remember (counted matches options lines) as hits eqn:Hhits.
  rewrite <- (len_fmap ln_no (filter _ lines)). f_equal.
  assert (StronglySorted (fun a b : N => a < b) (ln_no <$> lines)) as Hn.
  { clear -Hs. induction Hs as [|l lines Hs IH Hl]; [constructor|]. rewrite fmap_cons. constructor; [done|]. by apply Forall_fmap. }
  assert (forall P `{!forall l : Line, Decision (P l)}, StronglySorted (fun a b : N => a < b) (ln_no <$> filter P lines)) as Hf.
  { intros P HP. pose proof (sorted_filter _ P _ Hs) as H. clear -H. induction H as [|l ls Hs IH Hl]; [constructor|]. rewrite fmap_cons. constructor; [done|]. by apply Forall_fmap. }
  assert (hits = ln_no <$> limit options (filter (fun l => line_subs matches l <> []) lines)) as Eh by (subst hits; apply limit_fmap).
  apply (sorted_same (fun n => n)).
  - apply Hf.
  - rewrite Hhits. unfold counted, limit. destruct (max_count options) as [n|]; [|apply Hf]. pose proof (Hf (fun l => line_subs matches l <> []) _) as H.
    rewrite <- (take_drop (N.to_nat n) (ln_no <$> _)) in H. by apply StronglySorted_app in H as (_ & ? & _).
  - intros n. rewrite list_elem_of_fmap. split; [by intros (l & -> & [? _]%list_elem_of_filter)|]. intros Hn'. pose proof Hn' as Hin. rewrite Eh in Hn'.
    apply list_elem_of_fmap in Hn' as (l & -> & Hl). exists l. split; [done|]. apply list_elem_of_filter. split; [done|].
    unfold limit in Hl. destruct (max_count options) as [m|]; [apply elem_of_take in Hl as (? & Hl%list_elem_of_lookup_2 & _)|]; by apply list_elem_of_filter in Hl as [_ ?].
Qed.

(** ** The regions of a fetch of lines *)

Section full.
Context (doc : list N) (find : list N -> list PatternMatch) `{!LineProgram find} (Hdoc : len doc < 2 ^ 62).

Definition in_region (region : DocumentRegion) (l : Line) : Prop := dr_start region <= ln_start l /\ ln_end l <= region_end region.
#[local] Instance in_region_dec region l : Decision (in_region region l).
Proof. unfold in_region. solve_decision. Defined.
Definition region_lines (region : DocumentRegion) : list Line := filter (in_region region) (lines_of doc).

Definition region_fine (region : DocumentRegion) : Prop := region_ok doc region /\ of_lines doc region.

Lemma region_lines_ok region : region_fine region -> region_lines region = shift_line (dr_line region - 1) (dr_start region) <$> lines_of (dr_bytes region).
Proof. clear Hdoc.
  intros [([H1 H2] & Hbytes & Hline & _) (_ & Hstart & Hend)]. unfold region_lines.
  pose proof (lines_of_part doc (dr_start region) (region_end region) H1 H2 Hstart Hend) as E.
  assert (forall l, l ∈ lines_of doc -> ln_start l < ln_end l) as Hne by (intros l Hl%lines_of_ok; apply Hl).
  rewrite E in Hne |- *. rewrite !filter_app. rewrite (filter_none _ (lines_of (take _ doc))), (filter_none _ (number_lines _ _ _)).
  - rewrite app_nil_r, Hline, <- Hbytes. rewrite filter_all; [cbn; do 2 f_equal; lia|]. intros l (l0 & -> & Hl0%lines_of_ok)%list_elem_of_fmap.
    pose proof (li_bounds _ _ Hl0) as [_ Hb]. unfold in_region, ln_end in *. cbn. unfold region_end in *. lia.
  - intros l Hl. pose proof (Hne l ltac:(set_solver)) as H. apply number_lines_from in Hl. unfold in_region. lia.
  - intros l Hl. apply lines_of_ok in Hl. pose proof (li_bounds _ _ Hl) as [Hb1 Hb2].
    assert (len (take (N.to_nat (dr_start region)) doc) = dr_start region) by (unfold len in *; rewrite length_take; lia). unfold in_region. lia.
Qed.

Lemma place_events_ok region events :
  dr_line region <= 2 ^ 62 -> dr_start region <= 2 ^ 62 -> (forall event, event ∈ events -> le_line event <= 2 ^ 62 /\ le_offset event <= 2 ^ 62) ->
  mapM_res (place_event region) events = Ok (shift_event (dr_line region - 1) (dr_start region) <$> events).
Proof. clear Hdoc.
  intros Hl Hs Hev. induction events as [|event events IH]; [done|]. cbn [mapM_res]. destruct (Hev event) as [He1 He2]; [left|].
  assert (place_event region event = Ok (shift_event (dr_line region - 1) (dr_start region) event)) as ->.
  { unfold place_event, saturating_sub, checked_add. change U64 with 18446744073709551616.
    destruct (N.ltb_spec (le_line event + (dr_line region - 1)) 18446744073709551616) as [_|]; [|lia]. cbn [expect mbind res_bind].
    by destruct (N.ltb_spec (le_offset event + dr_start region) 18446744073709551616) as [_|]; [|lia]. }
  cbn [mbind res_bind]. rewrite IH by (intros; apply Hev; by right). done.
Qed.

Lemma reference_bounded matches options bytes event :
  event ∈ reference_lines matches options (lines_of bytes) -> le_line event <= 1 + len bytes /\ le_offset event <= len bytes.
Proof. clear Hdoc.
  unfold reference_lines. intros (l & Hl%lines_of_ok & E)%list_elem_of_omap. pose proof (li_bounds _ _ Hl). pose proof (li_no _ _ Hl).
  pose proof (count_newlines_le (take (N.to_nat (ln_start l)) bytes)) as Hc. assert (len (take (N.to_nat (ln_start l)) bytes) <= len bytes) by (unfold len; rewrite length_take; lia).
  unfold shown in E. repeat case_match; simplify_eq; cbn; lia.
Qed.

(** What one region shows. *)
Lemma region_found_ok region options :
  region_fine region -> max_count options <> Some 0 ->
  exists found, grep_matches (dr_bytes region) (find (dr_bytes region)) options = Ok found /\
    mapM_res (place_event region) found = Ok (reference_lines (find doc) options (region_lines region)) /\
    len (filter (fun event => is_match event = true) found) = len (counted (find doc) options (region_lines region)).
Proof.
  intros Hfine Hmax. pose proof Hfine as [([H1 H2] & Hbytes & Hline & _) (_ & Hstart & Hend)].
  assert (len (dr_bytes region) <= len doc) as Hlen by (rewrite Hbytes, len_cut by lia; lia).
  pose proof (count_newlines_le (take (N.to_nat (dr_start region)) doc)) as Hc.
  assert (len (take (N.to_nat (dr_start region)) doc) = dr_start region) as Ht by (unfold len in *; rewrite length_take; lia).
  eexists. split; [apply grep_matches_ok; [|lia|done]|].
  { unfold starts_sorted. pose proof (lp_ordered (find := find) (dr_bytes region)) as Hs. clear -Hs. induction Hs as [|m ms Hs IH Hm]; constructor; [done|]. eapply Forall_impl; [exact Hm|]. cbn. lia. }
  assert (forall l, l ∈ lines_of (dr_bytes region) -> line_subs (find (dr_bytes region)) l = line_subs (find doc) (shift_line (dr_line region - 1) (dr_start region) l)) as Hsubs.
  { intros l Hl. rewrite Hline. replace (1 + count_newlines (take (N.to_nat (dr_start region)) doc) - 1) with (count_newlines (take (N.to_nat (dr_start region)) doc)) by lia.
    rewrite Hbytes in Hl |- *. by apply lp_local. }
  rewrite region_lines_ok by done. pose proof (counted_shift _ _ options _ _ _ Hsubs) as Ecount. split.
  - rewrite place_events_ok; [|lia|lia|intros event He%reference_bounded; lia]. unfold reference_lines. rewrite Ecount. f_equal. symmetry. by apply reference_shift.
  - rewrite shown_matches by apply lines_sorted. rewrite Ecount. by rewrite len_fmap.
Qed.

(** ** Lines in order *)

Lemma line_order l l' : line_of doc l -> line_of doc l' -> ln_end l <= ln_start l' -> ln_no l < ln_no l'.
Proof. clear Hdoc.
  intros Hl Hl' Hle. rewrite (li_no _ _ Hl), (li_no _ _ Hl'). pose proof (li_bounds _ _ Hl). pose proof (li_bounds _ _ Hl').
  destruct (li_end _ _ Hl) as [|Hb]; [lia|]. destruct Hb as [|Hb]; [lia|].
  rewrite (take_cut doc (ln_start l) (ln_start l')), count_newlines_app by lia.
  rewrite <- (cut_app doc (ln_start l) (ln_end l - 1) (ln_start l')), <- (cut_app doc (ln_end l - 1) (ln_end l) (ln_start l')), !count_newlines_app, Hb by lia.
  change (count_newlines [NEWLINE]) with 1. lia.
Qed.

Lemma in_region_unique a b l : line_of doc l -> region_end a < dr_start b -> in_region a l -> in_region b l -> False.
Proof. clear Hdoc. intros Hl Hab [_ H1] [H2 _]. pose proof (li_bounds _ _ Hl). lia. Qed.

Definition all_lines (regions : list DocumentRegion) : list Line := concat (region_lines <$> regions).
Lemma elem_of_all_lines regions l : l ∈ all_lines regions <-> l ∈ lines_of doc /\ exists region, region ∈ regions /\ in_region region l.
Proof. clear Hdoc.
  unfold all_lines. rewrite list_elem_of_In, in_concat. split.
  - intros (ls & (region & -> & Hr)%list_elem_of_In%list_elem_of_fmap & [H1 H2]%list_elem_of_In%list_elem_of_filter). split; [done|eauto].
  - intros (Hl & region & Hr & Hin). exists (region_lines region). split; apply list_elem_of_In; [by apply list_elem_of_fmap_2|]. by apply list_elem_of_filter.
Qed.

Lemma all_lines_sorted regions :
  StronglySorted (fun a b => region_end a < dr_start b) regions -> StronglySorted (fun a b => ln_no a < ln_no b) (all_lines regions).
Proof. clear Hdoc.
  induction 1 as [|region regions Hs IH Hr]; [constructor|]. unfold all_lines. cbn [fmap list_fmap concat]. fold (all_lines regions).
  apply StronglySorted_app. split_and!; [|apply sorted_filter, lines_sorted|done].
  intros l l' [Hin Hl]%list_elem_of_filter (Hl' & region' & Hr' & Hin')%elem_of_all_lines. rewrite Forall_forall in Hr. specialize (Hr region' Hr').
  apply line_order; [by apply lines_of_ok|by apply lines_of_ok|]. destruct Hin, Hin'. lia.
Qed.

(** ** Lines around a match *)

Lemma line_count l s : line_of doc l -> ln_start l <= s -> s < ln_end l -> count_newlines (take (N.to_nat s) doc) = ln_no l - 1.
Proof. clear Hdoc.
  intros Hl H1 H2. pose proof (li_bounds _ _ Hl). pose proof (li_inner _ _ Hl) as Hi.
  rewrite <- (cut_app doc _ s) in Hi by lia. rewrite count_newlines_app in Hi.
  rewrite (take_cut doc (ln_start l)), count_newlines_app, (li_no _ _ Hl) by lia. lia.
Qed.
Lemma no_boundary_inside l x : line_of doc l -> line_boundary doc x -> ln_start l < x -> x < ln_end l -> False.
Proof. clear Hdoc.
  intros Hl [->|Hx] H1 H2; [lia|]. pose proof (li_bounds _ _ Hl). pose proof (li_inner _ _ Hl) as Hi.
  rewrite <- (cut_app doc _ (x - 1)), <- (cut_app doc (x - 1) x), !count_newlines_app, Hx in Hi by lia.
  change (count_newlines [NEWLINE]) with 1 in Hi. lia.
Qed.
Lemma count_newlines_mono a b : a <= b -> count_newlines (take (N.to_nat a) doc) <= count_newlines (take (N.to_nat b) doc).
Proof. clear Hdoc. intros H. rewrite (take_cut doc a b), count_newlines_app by done. lia. Qed.

(** A fetched range brings the lines of context around its first line. *)
Lemma context_in_region region h l s e b a :
  line_of doc h -> line_of doc l -> ln_start h <= s -> s < ln_end h -> s < e -> e <= len doc ->
  region_covers doc (PFullLines s e b a) region ->
  ln_no h <= ln_no l + b -> ln_no l <= ln_no h + a -> in_region region l.
Proof. clear Hdoc.
  intros Hh Hl Hhs Hhe Hse He (_ & Hstart & Hend) Hb Ha. destruct (grown_whole_lines doc s e b a) as [[W1 W2] W3 W4 W5 [W6 W7]]; [lia|lia|].
  cbn [fst snd] in *. set (lo := lines_before doc s (b + 1)) in *. set (hi := lines_after doc e _) in *.
  pose proof (line_count h s Hh Hhs Hhe) as Hs. pose proof (li_bounds _ _ Hl) as Hbl. pose proof (li_no _ _ Hl) as Hno. pose proof (li_no _ _ Hh) as Hnoh.
  rewrite (take_cut doc lo s), count_newlines_app in Hs by lia. split.
  - destruct (decide (ln_start l < lo)) as [Hlt|]; [|lia]. exfalso.
    assert (ln_end l <= lo) as Hel by (destruct (decide (ln_end l <= lo)); [done|]; exfalso; apply (no_boundary_inside l lo Hl W3); lia).
    destruct (li_end _ _ Hl) as [|[|Hnl]]; [lia|lia|]. pose proof (count_newlines_mono (ln_end l) lo Hel) as Hm.
    rewrite (take_cut doc (ln_start l) (ln_end l)), count_newlines_app, <- (cut_app doc (ln_start l) (ln_end l - 1) (ln_end l)), count_newlines_app, Hnl in Hm by lia.
    change (count_newlines [NEWLINE]) with 1 in Hm. rewrite (take_cut doc lo s), count_newlines_app in W4 by lia. lia.
  - destruct (decide (hi < ln_end l)) as [Hlt|]; [|lia]. exfalso. destruct W5 as [|W5]; [lia|].
    assert (hi <= ln_start l) as Hel by (destruct (decide (hi <= ln_start l)); [done|]; exfalso; apply (no_boundary_inside l hi Hl W5); lia).
    pose proof (count_newlines_mono hi (ln_start l) Hel) as Hm. rewrite (take_cut doc e hi), count_newlines_app in Hm by lia.
    assert (count_newlines (cut doc e hi) = a + (if ends_line doc e then 0 else 1)) as Hc.
    { rewrite W6. destruct (decide (count_newlines (drop (N.to_nat e) doc) < a + (if ends_line doc e then 0 else 1))) as [H|]; [apply W7 in H; lia|lia]. }
    rewrite Hc in Hm. assert (ln_no h - 1 + (if ends_line doc e then 1 else 0) <= count_newlines (take (N.to_nat e) doc)); [|destruct (ends_line doc e); lia].
    rewrite <- (line_count h s Hh Hhs Hhe). destruct (ends_line doc e) eqn:E; [|pose proof (count_newlines_mono s e); lia].
    unfold ends_line in E. apply andb_prop in E as [_ E%bool_decide_eq_true]. rewrite (take_cut doc (e - 1) e), count_newlines_app, E by lia.
    pose proof (count_newlines_mono s (e - 1)). change (count_newlines [NEWLINE]) with 1. lia.
Qed.

(** ** The events of the regions *)

Lemma near_hits options hits no : near options hits no = true <-> exists hit, hit ∈ hits /\ hit <= no + before_context options /\ no <= hit + after_context options.
Proof. clear Hdoc.
  unfold near. rewrite existsb_exists. split.
  - intros (hit & H%list_elem_of_In & E). exists hit. split; [done|]. lia.
  - intros (hit & H & E). exists hit. split; [by apply list_elem_of_In|]. lia.
Qed.
Lemma shown_near matches options hits hits' l :
  (forall hit, hit ∈ hits' -> hit ∈ hits) ->
  (forall hit, hit ∈ hits -> hit <= ln_no l + before_context options -> ln_no l <= hit + after_context options -> hit ∈ hits') ->
  shown matches options hits l = shown matches options hits' l.
Proof. clear Hdoc.
  intros Hsub Hnear. unfold shown. assert (bool_decide (ln_no l ∈ hits) = bool_decide (ln_no l ∈ hits')) as ->.
  { apply bool_decide_ext. split; [intros H; apply (Hnear _ H); lia|apply Hsub]. }
  assert (near options hits (ln_no l) = near options hits' (ln_no l)) as ->; [|done].
  apply eq_true_iff_eq. rewrite !near_hits. split; intros (hit & H1 & H2 & H3); exists hit; auto.
Qed.

Definition left_over (matched : N) (options : MatchOptions) : MatchOptions := with_max_count options ((fun limit => saturating_sub limit matched) <$> max_count options).

Lemma counted_app matches options matched ls ls' :
  counted matches (left_over matched options) (ls ++ ls') =
    counted matches (left_over matched options) ls ++ counted matches (left_over (matched + len (counted matches (left_over matched options) ls)) options) ls'.
Proof. clear Hdoc.
  unfold counted, limit, left_over, with_max_count, saturating_sub. cbn [max_count]. rewrite filter_app, fmap_app. destruct (max_count options) as [n|]; [|done]. cbn [fmap option_fmap option_map].
  rewrite take_app. f_equal. f_equal. unfold len. rewrite length_take. lia.
Qed.
Lemma counted_lines matches options ls hit : hit ∈ counted matches options ls -> exists l, l ∈ ls /\ ln_no l = hit /\ line_subs matches l <> [].
Proof. clear Hdoc.
  unfold counted, limit. intros H. assert (hit ∈ ln_no <$> filter (fun l => line_subs matches l <> []) ls) as (l & -> & [Hs Hl]%list_elem_of_filter)%list_elem_of_fmap.
  { destruct (max_count options); [|done]. by apply elem_of_take in H as (? & H%list_elem_of_lookup_2 & _). }
  eauto.
Qed.

Lemma region_events_ok programs options regions :
  get_region_program programs ProgramFull = Ok find -> Forall region_fine regions -> StronglySorted (fun a b => region_end a < dr_start b) regions ->
  forall matched, let hits := counted (find doc) (left_over matched options) (all_lines regions) in
  (forall region h l, region ∈ regions -> h ∈ region_lines region -> ln_no h ∈ hits -> l ∈ lines_of doc ->
    ln_no h <= ln_no l + before_context options -> ln_no l <= ln_no h + after_context options -> in_region region l) ->
  region_events programs options matched regions = Ok (omap (shown (find doc) options hits) (all_lines regions)).
Proof.
  intros Hprog Hfine Hs. revert Hfine. induction Hs as [|region regions Hs IH Hr]; intros Hfine matched hits Hlocal; [done|]. cbn [region_events].
  apply Forall_cons in Hfine as [Hf Hfine]. change (with_max_count options ((fun limit => saturating_sub limit matched) <$> max_count options)) with (left_over matched options).
  case_bool_decide as Emax.
  { rewrite omap_none; [done|]. intros l _. unfold shown, near, hits, counted, limit, left_over, with_max_count. cbn [max_count]. rewrite Emax. done. }
  rewrite (proj1 (proj2 Hf)), Hprog. cbn [mbind res_bind].
  destruct (region_found_ok region (left_over matched options) Hf Emax) as (found & -> & Hplace & Hcount). cbn [mbind res_bind].
  rewrite Hplace. cbn [mbind res_bind]. rewrite Hcount. set (hits_r := counted (find doc) (left_over matched options) (region_lines region)) in *.
  set (hits' := counted (find doc) (left_over (matched + len hits_r) options) (all_lines regions)).
  assert (hits = hits_r ++ hits') as Ehits by apply counted_app.
  assert (forall hit, hit ∈ hits' -> exists r h, r ∈ regions /\ h ∈ region_lines r /\ ln_no h = hit) as Hin'.
  { intros hit (h & Hh & E & _)%counted_lines. apply elem_of_all_lines in Hh as (Hh & r & Hr' & Hin). exists r, h. split; [done|]. split; [by apply list_elem_of_filter|done]. }
  rewrite Forall_forall in Hr.
  rewrite (IH Hfine (matched + len hits_r)). 2:{ intros r h l Hr' Hh Hhit. apply (Hlocal r h l); [by right|done|]. rewrite Ehits. apply elem_of_app. by right. }
  fold hits'. cbn [mbind res_bind]. f_equal. change (all_lines (region :: regions)) with (region_lines region ++ all_lines regions). rewrite omap_app. f_equal.
  - unfold reference_lines. apply omap_ext_in_list. intros l [Hin Hl]%list_elem_of_filter. symmetry.
    change (shown (find doc) (left_over matched options) ?h l) with (shown (find doc) options h l). fold hits_r. apply shown_near.
    + intros hit Hh. rewrite Ehits. apply elem_of_app. by left.
    + intros hit Hh H1 H2. rewrite Ehits in Hh. apply elem_of_app in Hh as [?|Hh]; [done|]. destruct (Hin' _ Hh) as (r & h & Hr' & Hhr & <-). exfalso.
      apply (in_region_unique region r l); [by apply lines_of_ok|by apply Hr|done|]. apply (Hlocal r h l); [by right|done| |done|done|done].
      rewrite Ehits. apply elem_of_app. by right.
  - apply omap_ext_in_list. intros l (Hl & r & Hr' & Hin)%elem_of_all_lines. symmetry. apply shown_near.
    + intros hit Hh. rewrite Ehits. apply elem_of_app. by right.
    + intros hit Hh H1 H2. rewrite Ehits in Hh. apply elem_of_app in Hh as [Hh|?]; [|done]. pose proof Hh as (h & Hhr & <- & _)%counted_lines. exfalso.
      apply (in_region_unique region r l); [by apply lines_of_ok|by apply Hr| |done]. apply (Hlocal region h l); [by left|done| |done|done|done].
      rewrite Ehits. apply elem_of_app. by left.
Qed.
End full.

(** ** What a batch promises *)

(** The range that [fetch_regions] plans for a read. *)
Definition pack_range (read : RegionRead) (range : N * N) : PackRange :=
  match read with
  | ReadBytes => PRegional range.1 range.2 1
  | ReadLines before_context after_context => PFullLines range.1 range.2 before_context after_context
  end.

Definition read_small (read : RegionRead) : Prop :=
  match read with ReadBytes => True | ReadLines before_context after_context => before_context + 1 < U64 /\ after_context + 1 < U64 end.

(** A batch answers what it is asked of a document, as [PackRegions] shows of
    the reader of packs. *)
Class HonestDocument (doc : list N) (fetch_regions : list (N * N) -> RegionRead -> res FetchedDocument) : Prop := {
  hd_answers ranges read : read_small read -> Forall (fun range => range.1 < range.2 /\ range.2 <= len doc) ranges ->
    exists fetched, fetch_regions ranges read = Ok fetched /\ document_answer doc (pack_range read <$> ranges) fetched;
}.

(** Windows need no more of it than a region around their match. *)
#[export] Instance honest_batch doc fetch_regions `{!HonestDocument doc fetch_regions} : HonestBatch doc (fun seed => fetch_regions [seed] ReadBytes).
Proof.
  split. intros a b Hab Hb. destruct (hd_answers (doc := doc) (fetch_regions := fetch_regions) [(a, b)] ReadBytes) as (fetched & Hf & Hok); [done|by constructor|]. exists fetched. split; [done|].
  destruct fetched as [body|size regions]; [done|]. destruct Hok as (_ & [Hregion _ Hcovers Hasked _]). cbn [fmap list_fmap pack_range fst snd] in *.
  specialize (Hcovers (PRegional a b 1) ltac:(by left)). destruct regions as [|region regions]; [by apply Exists_nil in Hcovers|].
  exists region. specialize (Hasked region ltac:(by left)). apply Exists_cons in Hasked as [[H1 H2]|H]; [|by apply Exists_nil in H].
  apply Forall_cons in Hregion as [Hregion _]. split_and!; [done|done|lia|lia].
Qed.

(** ** Events that need no merging *)

Lemma sort_by_sorted_id {A} (leb : A -> A -> bool) l : StronglySorted (fun a b => leb a b = true) l -> sort_by leb l = l.
Proof.
  induction 1 as [|x l Hs IH Hx]; [done|]. change (sort_by leb (x :: l)) with (insert_sorted leb x (sort_by leb l)). rewrite IH.
  destruct Hx as [|y l Hy]; [done|]. cbn [insert_sorted]. by rewrite Hy.
Qed.
Lemma merge_in_order events : StronglySorted (fun a b => le_line a < le_line b) events -> merge_line_events events = events.
Proof.
  intros Hs. unfold merge_line_events, sort_by_key. rewrite sort_by_sorted_id.
  2:{ clear -Hs. induction Hs as [|e events Hs IH He]; constructor; [done|]. eapply Forall_impl; [exact He|]. intros e' Hlt. apply lex_cons. by left. }
  assert (forall merged, StronglySorted (fun a b => le_line a < le_line b) (merged ++ events) -> foldl merge_step merged events = merged ++ events) as H; [|by apply (H [])].
  clear Hs. induction events as [|event events IH]; intros merged Hm; [by rewrite app_nil_r|]. cbn [foldl].
  assert (merge_step merged event = merged ++ [event]) as ->; [|rewrite IH; rewrite <- app_assoc; done].
  unfold merge_step. destruct (last merged) as [previous|] eqn:E; [|done]. apply last_Some in E as [l ->].
  apply StronglySorted_app in Hm as (Hm & _ & _). specialize (Hm previous event ltac:(set_solver) ltac:(by left)). cbn in Hm.
  destruct (N.eqb_spec (le_line previous) (le_line event)); [lia|done].
Qed.
Lemma reference_sorted matches options hits lines :
  StronglySorted (fun a b => ln_no a < ln_no b) lines -> StronglySorted (fun a b => le_line a < le_line b) (omap (shown matches options hits) lines).
Proof.
  assert (forall l event, shown matches options hits l = Some event -> le_line event = ln_no l) as Hno.
  { intros l event. unfold shown. repeat case_match; intros [= <-]; done. }
  induction 1 as [|l lines Hs IH Hl]; [constructor|]. cbn [omap list_omap]. destruct (shown matches options hits l) as [event|] eqn:E; [|done].
  constructor; [done|]. apply Forall_forall. intros event' (l' & Hl' & E')%list_elem_of_omap. rewrite Forall_forall in Hl.
  rewrite (Hno _ _ E), (Hno _ _ E'). by apply Hl.
Qed.

(** ** The line of a place *)

Lemma line_holds doc l s : line_of doc l -> s < len doc -> ln_no l = 1 + count_newlines (take (N.to_nat s) doc) -> ln_start l <= s /\ s < ln_end l.
Proof.
  intros Hl Hs Hno. pose proof (li_no _ _ Hl) as Hno'. pose proof (li_bounds _ _ Hl) as Hb. split.
  - destruct (decide (s < ln_start l)) as [Hlt|]; [|lia]. exfalso. destruct (li_start _ _ Hl) as [|Hnl]; [lia|].
    rewrite (take_cut doc s (ln_start l)), <- (cut_app doc s (ln_start l - 1)), !count_newlines_app, Hnl in Hno' by lia.
    change (count_newlines [NEWLINE]) with 1 in Hno'. lia.
  - destruct (decide (ln_end l <= s)) as [Hle|]; [|lia]. exfalso. destruct (li_end _ _ Hl) as [|[|Hnl]]; [lia|lia|].
    rewrite (take_cut doc (ln_start l) s), <- (cut_app doc (ln_start l) (ln_end l) s), <- (cut_app doc (ln_start l) (ln_end l - 1) (ln_end l)), !count_newlines_app, Hnl in Hno by lia.
    change (count_newlines [NEWLINE]) with 1 in Hno. lia.
Qed.

Lemma anchored_ok doc m : match_ok doc m ->
  let '(s, e) := anchored (len doc) m in s < e /\ e <= len doc /\ rm_line m = 1 + count_newlines (take (N.to_nat s) doc).
Proof.
  intros (Hon & Hb & Hp). unfold place_at in Hp. injection Hp as Hline _. unfold anchored, saturating_sub.
  destruct (N.eqb_spec (rm_start m) (rm_end m)) as [E|]; [|split_and!; [lia|lia|done]].
  unfold on_line in Hon. apply orb_true_iff in Hon as [Hlt%N.ltb_lt|[Heq%N.eqb_eq Hlast]%andb_true_iff].
  - rewrite N.min_l by lia. split_and!; [lia|lia|done].
  - destruct (last doc) as [byte|] eqn:El; [|done]. apply last_Some in El as [pre Epre]. apply negb_true_iff, N.eqb_neq in Hlast.
    assert (len doc = len pre + 1) as Hlen by (rewrite Epre, len_app; done). rewrite N.min_r by lia. split_and!; [lia|lia|].
    rewrite Hline, Heq, Hlen, Epre. replace (len pre + 1 - 1) with (len pre) by lia.
    replace (N.to_nat (len pre + 1)) with (length (pre ++ [byte])) by (rewrite length_app; unfold len; cbn; lia). rewrite firstn_all.
    replace (N.to_nat (len pre)) with (length pre) by (unfold len; lia). rewrite take_app_length, count_newlines_app, count_newlines_cons.
    change (count_newlines []) with 0. destruct (N.eqb_spec byte NEWLINE); [done|]. lia.
Qed.

Lemma limit_subset {A} options (P Q : A -> Prop) `{!forall x, Decision (P x)} `{!forall x, Decision (Q x)} l :
  (forall x, x ∈ limit options (filter P l) -> Q x) -> limit options (filter P (filter Q l)) = limit options (filter P l).
Proof.
  intros Hsub. rewrite filter_filter. rewrite (filter_ext_elem (fun x => Q x /\ P x) (fun x => P x /\ Q x)), <- (filter_filter Q P) by tauto. unfold limit in *. destruct (max_count options) as [n|].
  2:{ apply filter_all. intros x Hx. by apply Hsub. }
  revert Hsub. generalize (filter P l). generalize (N.to_nat n). clear. intros k l. revert k. induction l as [|x l IH]; intros [|k] Hsub; [done..|].
  rewrite filter_cons. rewrite decide_True by (apply Hsub; cbn; left). cbn [take firstn]. f_equal. apply IH. intros y Hy. apply Hsub. cbn. by right.
Qed.

(** ** Full lines of a document in regions *)

Lemma omap_filter {A B} (f : A -> option B) (Q : A -> Prop) `{!forall x, Decision (Q x)} (l : list A) :
  (forall x, x ∈ l -> ~ Q x -> f x = None) -> omap f (filter Q l) = omap f l.
Proof.
  induction l as [|x l IH]; intros Hout; [done|]. rewrite filter_cons. cbn [omap list_omap]. rewrite <- IH by (intros y Hy; apply Hout; by right).
  case_decide; [done|]. rewrite Hout by (by left || done). done.
Qed.

Section lines.
Context (doc : list N) (find : list N -> list PatternMatch) `{!LineProgram find} (Hdoc : len doc < 2 ^ 62).

(** The lines with a match. *)
Definition hit (no : N) : Prop := exists l, l ∈ lines_of doc /\ ln_no l = no /\ line_subs (find doc) l <> [].

Lemma hit_counted options no : no ∈ counted (find doc) options (lines_of doc) -> hit no.
Proof. apply counted_lines. Qed.
Lemma line_number_inj l l' : l ∈ lines_of doc -> l' ∈ lines_of doc -> ln_no l = ln_no l' -> l = l'.
Proof.
  intros Hl Hl' E. pose proof (lines_sorted doc) as Hs. revert Hl Hl'. induction Hs as [|x ls Hs IH Hx]; [by intros ?%elem_of_nil|]. rewrite Forall_forall in Hx.
  intros [->|Hl]%elem_of_cons [->|Hl']%elem_of_cons; [done| | |by apply IH]; [specialize (Hx _ Hl')|specialize (Hx _ Hl)]; cbn in Hx; lia.
Qed.

Context (regions : list DocumentRegion) (Hfine : Forall (region_fine doc) regions).
Context (Hapart : StronglySorted (fun a b => region_end a < dr_start b) regions).

Definition within (l : Line) : Prop := Exists (fun region => in_region region l) regions.
#[local] Instance within_dec l : Decision (within l).
Proof. unfold within. apply Exists_dec. intros region. unfold in_region. solve_decision. Defined.

Lemma all_lines_within : all_lines doc regions = filter within (lines_of doc).
Proof.
  apply (sorted_same ln_no); [by apply all_lines_sorted|apply sorted_filter, lines_sorted|].
  intros l. rewrite elem_of_all_lines, list_elem_of_filter. unfold within. rewrite Exists_exists. tauto.
Qed.

Lemma region_of_line a b l : l ∈ lines_of doc -> a ∈ regions -> b ∈ regions -> in_region a l -> in_region b l -> a = b.
Proof.
  intros Hl%lines_of_ok. clear Hfine. induction Hapart as [|r rs Hs IH Hr]; [by intros ?%elem_of_nil|]. rewrite Forall_forall in Hr.
  intros [->|Ha]%elem_of_cons [->|Hb]%elem_of_cons; [done| | |by apply IH]; intros H1 H2; exfalso.
  - by apply (in_region_unique doc r b l), H2; [done|apply Hr|].
  - by apply (in_region_unique doc r a l), H1; [done|apply Hr|].
Qed.

(** Every line that counts has its context in a region. *)
Definition surrounded (options : MatchOptions) : Prop := forall h, h ∈ lines_of doc -> ln_no h ∈ counted (find doc) options (lines_of doc) ->
  exists region, region ∈ regions /\ forall l, l ∈ lines_of doc -> ln_no h <= ln_no l + before_context options -> ln_no l <= ln_no h + after_context options -> in_region region l.

Lemma full_lines_ok programs options :
  get_region_program programs ProgramFull = Ok find -> surrounded options ->
  region_events programs options 0 regions = Ok (reference_lines (find doc) options (lines_of doc)).
Proof.
  intros Hprog Hsur. assert (left_over 0 options = options) as Eleft.
  { unfold left_over, with_max_count, saturating_sub. destruct options as [b a [n|]]; cbn; [|done]. by rewrite N.sub_0_r. }
  assert (counted (find doc) options (all_lines doc regions) = counted (find doc) options (lines_of doc)) as Ecount.
  { rewrite all_lines_within. unfold counted. rewrite !limit_fmap. f_equal. apply limit_subset. intros l Hl.
    assert (l ∈ lines_of doc) as Hin.
    { unfold limit in Hl. destruct (max_count options); [apply elem_of_take in Hl as (? & Hl%list_elem_of_lookup_2 & _)|]; by apply list_elem_of_filter in Hl as [_ ?]. }
    destruct (Hsur l Hin) as (region & Hr & Hctx); [unfold counted; rewrite limit_fmap; by apply list_elem_of_fmap_2|].
    apply Exists_exists. exists region. split; [done|]. apply Hctx; [done|lia|lia]. }
  rewrite (region_events_ok doc find Hdoc programs options regions Hprog Hfine Hapart 0); rewrite Eleft, Ecount.
  - f_equal. rewrite all_lines_within. unfold reference_lines. set (hits := counted _ _ _).
    assert (forall l, l ∈ lines_of doc -> ~ within l -> shown (find doc) options hits l = None) as Hout.
    { intros l Hl Hw. assert (near options hits (ln_no l) = false) as Enear.
      { apply not_true_iff_false. intros (no & Hno & H1 & H2)%near_hits. pose proof Hno as (h & Hh & <- & _)%hit_counted.
        destruct (Hsur h Hh Hno) as (region & Hr & Hctx). apply Hw, Exists_exists. exists region. split; [done|]. by apply Hctx. }
      unfold shown. rewrite Enear. rewrite bool_decide_eq_false_2; [done|]. intros Hin. assert (near options hits (ln_no l) = true); [|congruence].
      apply near_hits. exists (ln_no l). split_and!; [done|lia|lia]. }
    by apply omap_filter.
  - intros region h l Hr Hh Hcount Hl H1 H2. apply list_elem_of_filter in Hh as [Hin Hh]. destruct (Hsur h Hh Hcount) as (region' & Hr' & Hctx).
    assert (region = region') as -> by (apply (region_of_line _ _ h); try done; apply Hctx; [done|lia|lia]). by apply Hctx.
Qed.
End lines.

(** [fetch_full_lines] shows the lines of the document that hold a match, with
    their context, when its matches are on these lines. *)
Lemma fetch_full_lines_ok doc find fetch_regions programs options matches :
  LineProgram find -> HonestDocument doc fetch_regions -> len doc < 2 ^ 62 -> before_context options + 1 < U64 -> after_context options + 1 < U64 ->
  max_count options <> Some 0 -> sp_whole programs = find -> sp_lines programs = Some find -> Forall (match_ok doc) matches ->
  (forall no, no ∈ counted (find doc) options (lines_of doc) -> exists m, m ∈ matches /\ rm_line m = no) ->
  exists fetched, fetch_full_lines fetch_regions matches (len doc) programs options = Ok (reference_lines (find doc) options (lines_of doc), fetched).
Proof.
  intros Hfind Hbatch Hdoc Hb Ha Hmax Hwhole Hlines Hok Hcover. unfold fetch_full_lines. destruct matches as [|m0 matches0] eqn:Em.
  { exists 0. cbn. do 2 f_equal. unfold reference_lines. destruct (counted (find doc) options (lines_of doc)) as [|no hits] eqn:E.
    - symmetry. apply omap_none. intros l _. unfold shown, near. cbn. done.
    - destruct (Hcover no) as (m & Hm%elem_of_nil & _); [by left|done]. }
  cbn [is_nil]. rewrite <- Em in *. clear Em m0 matches0.
  assert (Forall (fun range => range.1 < range.2 /\ range.2 <= len doc) (anchored (len doc) <$> matches)) as Hranges.
  { apply Forall_fmap. eapply Forall_impl; [exact Hok|]. intros m Hm%anchored_ok. cbn. destruct (anchored (len doc) m). tauto. }
  destruct (hd_answers (doc := doc) (fetch_regions := fetch_regions) _ (ReadLines (before_context options) (after_context options)) (conj Hb Ha) Hranges) as (fetched & -> & Hanswer). cbn [mbind res_bind].
  exists (fetched_size fetched). destruct fetched as [body|size regions].
  - cbn in Hanswer. subst body. cbn [collect_line_events]. rewrite Hwhole, grep_matches_ok; [done| |lia|done].
    unfold starts_sorted. pose proof (lp_ordered (find := find) doc) as Hs. clear -Hs. induction Hs as [|m ms Hs IH Hm]; constructor; [done|]. eapply Forall_impl; [exact Hm|]. cbn. lia.
  - destruct Hanswer as (_ & [Hregion Hapart Hcovers _ Hfull]). cbn [collect_line_events].
    assert (Forall (region_fine doc) regions) as Hfine.
    { assert (Forall full_lines (pack_range (ReadLines (before_context options) (after_context options)) <$> (anchored (len doc) <$> matches))) as Hf by (apply Forall_fmap, Forall_forall; done).
      specialize (Hfull Hf). rewrite Forall_forall in Hfull. rewrite Forall_forall in Hregion. apply Forall_forall. intros region Hr. split; auto. }
    rewrite (full_lines_ok doc find Hdoc regions Hfine Hapart programs options).
    + cbn [fmap res_fmap mbind res_bind]. do 2 f_equal. rewrite merge_in_order; [done|]. apply reference_sorted, lines_sorted.
    + unfold get_region_program. by rewrite Hlines.
    + intros h Hh Hcount. destruct (Hcover _ Hcount) as (m & Hm & Eline). rewrite Forall_forall in Hok. pose proof (anchored_ok doc m (Hok m Hm)) as Han.
      destruct (anchored (len doc) m) as [s e] eqn:Ea. destruct Han as (H1 & H2 & H3).
      destruct (line_holds doc h s) as [H4 H5]; [by apply lines_of_ok|lia|lia|].
      specialize (Hcovers (PFullLines s e (before_context options) (after_context options))). destruct (proj1 (Exists_exists _ _) (Hcovers ltac:(apply list_elem_of_fmap; exists (s, e); split; [done|]; rewrite <- Ea; by apply list_elem_of_fmap_2))) as (region & Hr & Hrc).
      exists region. split; [done|]. intros l Hl Hlb Hla. apply (context_in_region doc region h l s e (before_context options) (after_context options)); try done; by apply lines_of_ok.
Qed.

(** ** Full lines of a whole document *)

Lemma reference_ext m1 m2 options ls :
  (forall l, l ∈ ls -> line_subs m1 l = line_subs m2 l) -> reference_lines m1 options ls = reference_lines m2 options ls.
Proof.
  intros H. unfold reference_lines. assert (counted m1 options ls = counted m2 options ls) as ->.
  { unfold counted. f_equal. f_equal. apply filter_ext_elem. intros l Hl. by rewrite H. }
  apply omap_ext_in_list. intros l Hl. unfold shown. by rewrite H.
Qed.

Lemma counted_nil matches options ls : max_count options <> Some 0 -> counted matches options ls = [] -> forall l, l ∈ ls -> line_subs matches l = [].
Proof.
  unfold counted, limit. intros Hmax H l Hl. destruct (decide (line_subs matches l = [])) as [|Hne]; [done|]. exfalso.
  assert (ln_no l ∈ ln_no <$> filter (fun l => line_subs matches l <> []) ls) as Hin by (apply list_elem_of_fmap_2, list_elem_of_filter; done).
  destruct (ln_no <$> filter _ ls) as [|no hits] eqn:E; [by apply elem_of_nil in Hin|]. destruct (max_count options) as [n|]; [|done].
  destruct (N.to_nat n) eqn:En; [assert (n = 0) as -> by lia; done|done].
Qed.
Lemma reference_nil matches options ls :
  max_count options <> Some 0 -> reference_lines matches options ls = [] <-> forall l, l ∈ ls -> line_subs matches l = [].
Proof.
  intros Hmax. split.
  - intros H. apply (counted_nil _ options); [done|]. destruct (counted matches options ls) as [|no hits] eqn:E; [done|]. exfalso.
    destruct (counted_lines matches options ls no) as (l & Hl & <- & _); [rewrite E; left|].
    assert (shown matches options (counted matches options ls) l <> None) as Hs by (unfold shown; rewrite E, bool_decide_eq_true_2 by left; done).
    destruct (shown matches options (counted matches options ls) l) as [event|] eqn:Es; [|done]. unfold reference_lines in H.
    assert (event ∈ omap (shown matches options (counted matches options ls)) ls) as Hin by (apply list_elem_of_omap; eauto). rewrite H in Hin. by apply elem_of_nil in Hin.
  - intros H. apply omap_none. intros l Hl. assert (counted matches options ls = []) as ->; [|done]. unfold counted.
    rewrite filter_none by (intros x Hx Hne; by apply Hne, H). unfold limit. destruct (max_count options); [apply take_nil|done].
Qed.

Section whole.
Context (doc : list N) (find : list N -> list PatternMatch) `{!LineProgram find}.

Lemma on_line_in_lines offset : on_line doc offset = true <-> in_lines doc offset.
Proof.
  unfold on_line, in_lines. rewrite orb_true_iff, andb_true_iff, N.ltb_lt, N.eqb_eq. destruct (last doc) as [byte|] eqn:E.
  - rewrite negb_true_iff, N.eqb_neq. split; [intros [?|[? Hb]]; [by left|right]|intros [?|(? & _ & Hb)]; [by left|right]].
    + split_and!; [done|intros ->; done|]. by intros [= ->].
    + split; [done|]. by intros ->.
  - apply last_None in E as ->. split; [intros [?|[_ ?]]; [by left|done]|intros [?|(_ & ? & _)]; [by left|done]].
Qed.
Lemma on_line_line offset : on_line doc offset = true <-> exists l, l ∈ lines_of doc /\ ln_start l <= offset <= ln_content l.
Proof.
  rewrite on_line_in_lines. assert (rest_lines doc 0 0 = lines_of doc) as E by (unfold rest_lines; by rewrite drop_0). rewrite <- E. split.
  - intros Hin. apply (line_of_place doc 0 0 offset (S (length doc))); [lia| |done|unfold len; lia].
    destruct Hin as [|(_ & Hne & _)]; [lia|]. destruct doc; [done|]. len_lia.
  - intros (l & Hl & Hb). by apply (place_of_line doc 0 0 offset (S (length doc)) l); [lia| | |unfold len; lia].
Qed.

Lemma on_line_subs matches l : l ∈ lines_of doc -> line_subs (filter (fun m => on_line doc (pm_start m) = true) matches) l = line_subs matches l.
Proof.
  intros Hl. unfold line_subs. f_equal. rewrite filter_filter. apply filter_ext_elem. intros m _. split; [tauto|].
  intros H. split; [|done]. apply on_line_line. eauto.
Qed.

Lemma match_unique m m' : m ∈ find doc -> m' ∈ find doc -> pm_start m = pm_start m' -> m = m'.
Proof.
  intros Hm Hm' E. pose proof (lp_ordered (find := find) doc) as Hs. revert Hm Hm'. induction Hs as [|x ms Hs IH Hx]; [by intros ?%elem_of_nil|]. rewrite Forall_forall in Hx.
  intros [->|Hm]%elem_of_cons [->|Hm']%elem_of_cons; [done| | |by apply IH]; [specialize (Hx _ Hm')|specialize (Hx _ Hm)]; cbn in Hx; lia.
Qed.

(** Matches that are listed by line are in order. *)
Lemma located_order all :
  (forall x, x ∈ all -> exists m, m ∈ find doc /\ whole_reports doc m x) -> StronglySorted (fun a b => lex_lt (line_key a) (line_key b)) all ->
  StronglySorted (fun a b => pm_start a < pm_start b) (pattern_match_of <$> all).
Proof.
  intros Hin Hs. induction Hs as [|x all Hs IH Hx]; [constructor|]. rewrite fmap_cons. constructor; [apply IH; intros; apply Hin; by right|].
  apply Forall_fmap, Forall_forall. intros y Hy. rewrite Forall_forall in Hx. specialize (Hx y Hy). cbn. destruct (Hin x ltac:(by left)) as (m & Hm & _ & Ex).
  destruct (Hin y ltac:(by right)) as (m' & Hm' & _ & Ey). assert (rm_start x = pm_start m) as E1 by by rewrite Ex. assert (rm_start y = pm_start m') as E2 by by rewrite Ey.
  destruct (decide (rm_start x < rm_start y)) as [|Hge]; [done|]. exfalso.
  assert (pm_start m <= len doc) as Hle by (pose proof (lp_within (find := find) doc) as Hw; rewrite Forall_forall in Hw; specialize (Hw m Hm); lia).
  destruct (decide (pm_start m = pm_start m')) as [E|Hne]; [rewrite (match_unique m m' Hm Hm' E) in Ex; rewrite Ex, Ey in Hx; by destruct Hx as [_ []]|].
  destruct Hx as [Hx _]. unfold line_key in Hx. pose proof (count_newlines_mono doc (pm_start m') (pm_start m) ltac:(lia)) as Hmono.
  apply lex_cons in Hx as [Hx|[El Hx]]; [rewrite Ex, Ey in Hx; cbn in Hx; lia|]. rewrite Ex, Ey in El. cbn in El.
  assert (line_start doc (pm_start m') = line_start doc (pm_start m)) as Eo by (apply same_line; lia).
  apply lex_cons in Hx as [Hx|[_ Hx]]; [rewrite Ex, Ey in Hx; cbn in Hx; lia|]. apply lex_cons in Hx as [Hx|[Hx _]]; lia.
Qed.

Lemma whole_matches_ok programs :
  sp_whole programs = find -> ordered_matches doc (find doc) ->
  exists all, find_whole_matches doc programs None = Ok all /\ pattern_match_of <$> all = filter (fun m => on_line doc (pm_start m) = true) (find doc).
Proof.
  intros Hwhole Hord. unfold find_whole_matches. rewrite bool_decide_eq_false_2 by done. rewrite Hwhole.
  destruct (whole_fold_ok doc (find doc) {| sc_scanned := 0; sc_place := (1, 0); sc_found := [] |} Hord) as (s & -> & H); [apply Forall_forall; cbn; lia|done|].
  cbn [mbind res_bind]. destruct (sort_region_matches_ok (sc_found s) None) as (all & [H1 H2 H3 H4] & ->). exists all. split; [done|].
  assert (forall x, x ∈ sc_found s <-> exists m, m ∈ find doc /\ whole_reports doc m x) as Hfound.
  { intros x. rewrite H. split; [intros [?%elem_of_nil|?]; done|by right]. }
  apply (sorted_same pm_start).
  - apply located_order; [|done]. intros x Hx. by apply Hfound, H3.
  - apply sorted_filter, lp_ordered.
  - intros m. rewrite list_elem_of_filter, list_elem_of_fmap. split.
    + intros (x & -> & Hx). apply H3, Hfound in Hx as ([pattern start end_] & Hm & Hon & ->). done.
    + intros [Hon Hm]. destruct (H4 (located doc (pm_pattern m) (pm_start m) (pm_end m) true)) as (x & Hx & Ek); [apply Hfound; by exists m|].
      exists x. split; [|done]. unfold place_key in Ek. cbn in Ek. injection Ek as E1 E2 E3. destruct m. unfold pattern_match_of. cbn in *. by rewrite E1, E2, E3.
Qed.
End whole.

(** What [SearchDetail::FullLines] shows of a document. *)
Definition full_lines_of (find : list N -> list PatternMatch) (doc : list N) (options : MatchOptions) (extra : N) : option VerifiedDocument :=
  let events := reference_lines (find doc) options (lines_of doc) in
  if is_nil events then None else Some {| vd_data := DataLines events; vd_bytes_searched := len doc; vd_extra_fetched_bytes := extra |}.

Lemma verify_whole_full_ok doc find fetch_regions is_file context :
  LineProgram find -> len doc < 2 ^ 62 -> cx_detail context = FullLines -> sp_whole (cx_programs context) = find -> ordered_matches doc (find doc) ->
  max_count (cx_options context) <> Some 0 ->
  verify_whole fetch_regions is_file doc context = Ok (full_lines_of find doc (cx_options context) 0).
Proof.
  intros Hfind Hdoc Hdetail Hwhole Hord Hmax. unfold verify_whole. rewrite Hdetail. destruct (whole_matches_ok doc find (cx_programs context) Hwhole Hord) as (all & -> & Hall).
  cbn [mbind res_bind]. rewrite Hall.
  assert (reference_lines (filter (fun m => on_line doc (pm_start m) = true) (find doc)) (cx_options context) (lines_of doc) = reference_lines (find doc) (cx_options context) (lines_of doc)) as Eref
    by (apply reference_ext; intros; by apply on_line_subs).
  unfold full_lines_of. destruct all as [|x all].
  { cbn [is_nil]. assert (reference_lines (find doc) (cx_options context) (lines_of doc) = []) as ->; [|done]. rewrite <- Eref, <- Hall. apply reference_nil; done. }
  cbn [is_nil]. rewrite grep_matches_ok; [|unfold starts_sorted|lia|done].
  - rewrite Eref. cbn [fmap res_fmap mbind res_bind]. destruct (is_nil (reference_lines (find doc) _ _)) eqn:En; [|done]. exfalso.
    destruct (reference_lines (find doc) _ _) as [|] eqn:Er; [|done]. pose proof (proj1 (reference_nil _ _ _ Hmax) Eref) as Hnone.
    assert (pattern_match_of x ∈ filter (fun m => on_line doc (pm_start m) = true) (find doc)) as Hx by (rewrite <- Hall; left).
    pose proof Hx as [Hon _]%list_elem_of_filter. apply on_line_line in Hon as (l & Hl & Hb). specialize (Hnone l Hl). unfold line_subs in Hnone. apply fmap_nil_inv in Hnone.
    assert (pattern_match_of x ∈ filter (fun m => ln_start l <= pm_start m <= ln_content l) (filter (fun m => on_line doc (pm_start m) = true) (find doc))) as Hin by (apply list_elem_of_filter; done).
    rewrite Hnone in Hin. by apply elem_of_nil in Hin.
  - pose proof (sorted_filter _ (fun m => on_line doc (pm_start m) = true) _ (lp_ordered (find := find) doc)) as Hs. clear -Hs.
    induction Hs as [|m ms Hs IH Hm]; constructor; [done|]. eapply Forall_impl; [exact Hm|]. cbn. lia.
Qed.

(** ** Counts of lines *)

Definition zero_sub : SubMatch := {| sm_start := 0; sm_end := 0 |}.
(** The event of a line with [n] matches, the first of which is given. *)
Definition line_event_of (count_matches : bool) (first : RegionMatch) (n : nat) : LineEvent := {|
  le_line := rm_line first; le_kind := KMatch; le_offset := rm_line_offset first; le_text := [];
  le_submatches := replicate (if count_matches then n else 1%nat) zero_sub |}.
Definition group_event (count_matches : bool) (group : list RegionMatch) : option LineEvent :=
  match group with first :: _ => Some (line_event_of count_matches first (length group)) | [] => None end.

Fixpoint count_runs (c : bool) (first : RegionMatch) (n : nat) (matches : list RegionMatch) : list LineEvent :=
  match matches with
  | [] => [line_event_of c first n]
  | m :: matches => if rm_line first =? rm_line m then count_runs c first (S n) matches else line_event_of c first n :: count_runs c m 1 matches
  end.

Lemma count_fold c first n matches events :
  foldl (count_step c) (events ++ [line_event_of c first n]) matches = events ++ count_runs c first n matches.
Proof.
  revert first n events. induction matches as [|m matches IH]; intros first n events; [done|]. cbn [foldl count_runs].
  assert (count_step c (events ++ [line_event_of c first n]) m =
    if rm_line first =? rm_line m then events ++ [line_event_of c first (S n)] else (events ++ [line_event_of c first n]) ++ [line_event_of c m 1]) as ->.
  { unfold count_step. rewrite last_snoc. cbn [line_event_of le_line le_submatches le_kind le_offset le_text]. destruct (rm_line first =? rm_line m).
    - destruct c; [|done]. rewrite removelast_last. unfold line_event_of. do 3 f_equal. symmetry. apply replicate_S_end.
    - destruct c; done. }
  destruct (rm_line first =? rm_line m); [apply IH|]. rewrite IH, <- app_assoc. done.
Qed.
Lemma count_groups c first matches :
  exists group groups, line_groups (first :: matches) = (first :: group) :: groups /\
    forall first' n, rm_line first' = rm_line first -> count_runs c first' n matches = line_event_of c first' (n + length group) :: omap (group_event c) groups.
Proof.
  revert first. induction matches as [|m matches IH]; intros first.
  { exists [], []. split; [done|]. intros first' n _. cbn. by rewrite Nat.add_0_r. }
  destruct (IH m) as (group & groups & E & H). unfold line_groups in *. change (chunk_by ?f (first :: m :: matches)) with
    (match chunk_by f (m :: matches) with (y :: chunk) :: chunks => if f first y then (first :: y :: chunk) :: chunks else [first] :: (y :: chunk) :: chunks | chunks => [first] :: chunks end).
  rewrite E. cbn [count_runs]. destruct (N.eqb_spec (rm_line first) (rm_line m)) as [El|El].
  - exists (m :: group), groups. split; [done|]. intros first' n E'. rewrite (proj2 (N.eqb_eq _ _)) by congruence. rewrite H by congruence. cbn [length]. do 2 f_equal. lia.
  - exists [], ((m :: group) :: groups). split; [done|]. intros first' n E'. rewrite (proj2 (N.eqb_neq _ _)) by congruence. rewrite H by done. cbn [omap list_omap group_event length].
    by rewrite Nat.add_0_r.
Qed.

(** One event for each line, with as many matches as the line has. *)
Lemma count_events_ok matches c : build_count_events matches c = omap (group_event c) (line_groups matches).
Proof.
  unfold build_count_events. destruct matches as [|m matches]; [done|]. cbn [foldl].
  change (count_step c [] m) with ([] ++ [counted_event m]). assert (counted_event m = line_event_of c m 1) as -> by by destruct c. rewrite count_fold.
  destruct (count_groups c m matches) as (group & groups & -> & H). cbn [app]. rewrite (H m) by done. done.
Qed.

(** ** The lines that regions report *)

Section report.
Context (doc : list N) (find : list N -> list PatternMatch) `{!LineProgram find}.
Context (plans : list PatternPlan) (programs : SearchPrograms) (Hprograms : programs_ok plans programs).

Lemma reported_ok regions x : Forall (region_ok doc) regions -> reported doc plans programs regions x -> match_ok doc x.
Proof.
  intros Hregions (region & program & m & Hr & Hp & Hm & (a & b & canonical & Hrel & Hon & ->)). rewrite Forall_forall in Hregions. destruct (Hregions region Hr) as ([_ Hend] & _).
  destruct (program_matches plans programs Hprograms region program Hp) as [[Hw _] Hk]. rewrite Forall_forall in Hw. rewrite Forall_forall in Hk.
  pose proof (relative_ok plans region m (Hk m Hm) (Hw m Hm)) as Hb. rewrite Hrel in Hb. specialize (Hw m Hm). unfold region_end in Hend.
  split; [done|]. split; [cbn; lia|]. unfold located. cbn [rm_line rm_line_offset rm_start]. by destruct (place_at doc (dr_start region + a)).
Qed.

Lemma place_of_line_number x y : match_ok doc x -> match_ok doc y -> rm_line x = rm_line y -> rm_place x = rm_place y.
Proof.
  intros (_ & Hx & Px) (_ & Hy & Py) El. unfold rm_place. rewrite Px, Py. unfold place_at in *. injection Px as Ex _. injection Py as Ey _.
  f_equal; [lia|]. destruct (decide (rm_start x <= rm_start y)); [|symmetry]; apply same_line; lia.
Qed.

(** The first lines of a listing are the first lines with a match. *)
Lemma first_lines_cover options all :
  Forall (match_ok doc) all -> StronglySorted (fun a b => lex_lt (line_key a) (line_key b)) all ->
  (forall no, (exists x, x ∈ all /\ rm_line x = no) <-> hit doc find no) ->
  forall no, no ∈ counted (find doc) options (lines_of doc) -> exists m, m ∈ on_first_lines (max_count options) all /\ rm_line m = no.
Proof.
  intros Hok Hs Hlines no Hno. unfold on_first_lines. destruct (max_count options) as [n|] eqn:En.
  2:{ apply hit_counted, Hlines in Hno. exact Hno. }
  set (places := dedup (rm_place <$> all)). rewrite Forall_forall in Hok.
  assert (StronglySorted (fun a b : N * N => a.1 < b.1) places) as Hplaces.
  { apply (dedup_strict (fun a b : N * N => a.1 < b.1 \/ a = b)); [intros x y [?| ->] ?; done|intros x y z H1 [H2| <-]; lia|].
    clear Hlines places. induction Hs as [|x all Hs IH Hx]; [constructor|]. rewrite fmap_cons. constructor; [apply IH; intros; apply Hok; by right|].
    apply Forall_fmap, Forall_forall. intros y Hy. rewrite Forall_forall in Hx. destruct (Hx y Hy) as [Hl _]. unfold line_key in Hl. apply lex_cons in Hl as [Hl|[El _]]; [by left|right].
    apply place_of_line_number; [apply Hok; by left|apply Hok; by right|done]. }
  assert (fst <$> places = ln_no <$> filter (fun l => line_subs (find doc) l <> []) (lines_of doc)) as E.
  { apply (sorted_same (fun n => n)).
    - clear -Hplaces. induction Hplaces as [|p ps Hs IH Hp]; [constructor|]. rewrite fmap_cons. constructor; [done|by apply Forall_fmap].
    - pose proof (sorted_filter _ (fun l => line_subs (find doc) l <> []) _ (lines_sorted doc)) as H. clear -H. induction H as [|l ls Hs IH Hl]; [constructor|]. rewrite fmap_cons. constructor; [done|by apply Forall_fmap].
    - intros k. transitivity (hit doc find k); [rewrite <- Hlines|]; rewrite list_elem_of_fmap.
      + split.
        * intros (p & -> & Hp). unfold places in Hp. apply elem_of_dedup, list_elem_of_fmap in Hp as (x & -> & Hx). by exists x.
        * intros (x & Hx & <-). exists (rm_place x). split; [done|]. unfold places. apply elem_of_dedup. by apply list_elem_of_fmap_2.
      + unfold hit. setoid_rewrite list_elem_of_filter. naive_solver. }
  unfold counted, limit in Hno. rewrite En, <- E, <- fmap_take in Hno. apply list_elem_of_fmap in Hno as (p & -> & Hp).
  assert (p ∈ rm_place <$> all) as (m & -> & Hm)%list_elem_of_fmap by (apply elem_of_dedup; by apply elem_of_take in Hp as (? & Hp%list_elem_of_lookup_2 & _)).
  exists m. split; [|done]. by apply list_elem_of_filter.
Qed.

Lemma verify_regions_full_ok fetch_regions regions context :
  HonestDocument doc fetch_regions -> len doc < 2 ^ 62 -> cx_detail context = FullLines -> cx_plans context = plans -> cx_programs context = programs ->
  sp_whole programs = find -> sp_lines programs = Some find -> max_count (cx_options context) <> Some 0 ->
  before_context (cx_options context) + 1 < U64 -> after_context (cx_options context) + 1 < U64 ->
  Forall (region_ok doc) regions -> (forall no, (exists x, reported doc plans programs regions x /\ rm_line x = no) <-> hit doc find no) ->
  (forall region, region ∈ regions -> ~ unverifiable plans programs region) ->
  exists extra, verify_regions fetch_regions (len doc) regions context = Ok (full_lines_of find doc (cx_options context) extra).
Proof.
  intros Hbatch Hdoc Hdetail Hplans Hprogs Hwhole Hlines Hmax Hb Ha Hregions Hhits Hver. unfold verify_regions. rewrite Hdetail, Hplans, Hprogs.
  unfold find_region_matches. rewrite bool_decide_eq_false_2 by done.
  pose proof (regions_fold_ok doc plans programs Hprograms regions [] Hregions) as Hfold.
  destruct (foldM _ [] regions) as [found|e|w]; [|apply Exists_exists in Hfold as (region & Hr & Hu); by apply Hver in Hu|done]. cbn [mbind res_bind].
  destruct (sort_region_matches_ok found (max_count (cx_options context))) as (all & [H1 H2 H3 H4] & ->).
  assert (forall x, x ∈ found <-> reported doc plans programs regions x) as Hfound.
  { intros x. rewrite Hfold. split; [intros [?%elem_of_nil|?]; done|by right]. }
  assert (Forall (match_ok doc) all) as Hok by (apply Forall_forall; intros x Hx; apply (reported_ok regions); [done|by apply Hfound, H3]).
  assert (forall no, (exists x, x ∈ all /\ rm_line x = no) <-> hit doc find no) as Hall.
  { intros no. rewrite <- Hhits. split; [intros (x & Hx & E); exists x; split; [by apply Hfound, H3|done]|]. intros (x & Hx & <-).
    destruct (H4 x) as (y & Hy & Ek); [by apply Hfound|]. exists y. split; [done|]. rewrite Forall_forall in Hok. destruct (Hok y Hy) as (_ & _ & Py).
    pose proof (reported_ok regions x Hregions Hx) as (_ & _ & Px). unfold place_key in Ek. injection Ek as _ Es _. rewrite Es in Py. congruence. }
  pose proof (first_lines_cover (cx_options context) all Hok H1 Hall) as Hcover. set (matches := on_first_lines _ all) in *.
  assert (Forall (match_ok doc) matches) as Hmatches.
  { unfold matches, on_first_lines. destruct (max_count _); [|done]. rewrite Forall_forall in Hok. apply Forall_forall. intros m [_ Hm]%list_elem_of_filter. by apply Hok. }
  destruct (fetch_full_lines_ok doc find fetch_regions programs (cx_options context) matches) as (fetched & Hfull); try done.
  destruct matches as [|m ms] eqn:Em; cbn [is_nil].
  { exists 0. unfold full_lines_of. assert (reference_lines (find doc) (cx_options context) (lines_of doc) = []) as ->; [|done].
    cbn in Hfull. by injection Hfull as <- _. }
  rewrite Hfull. cbn [mbind res_bind]. by exists fetched.
Qed.
End report.

(** ** Properties *)

(** C27: Full lines are the same whether a document came whole or in regions.  For
    a program whose matches stay within lines, and a batch that answers what it
    is asked, verifying the document never panics; it shows exactly the first
    [max_count] lines with a match and the lines of context around them, with
    their numbers, offsets, texts and matches, or that there is none: from the
    whole body, in memory or in a file, and from any regions that report a match
    on just the lines that have one, by lines that are fetched around these
    matches, however the fetches are merged. *)
Theorem full_lines_exact doc find fetch_regions is_file context regions :
  LineProgram find -> HonestDocument doc fetch_regions -> len doc < 2 ^ 62 ->
  cx_detail context = FullLines -> sp_whole (cx_programs context) = find -> sp_lines (cx_programs context) = Some find ->
  programs_ok (cx_plans context) (cx_programs context) -> max_count (cx_options context) <> Some 0 ->
  before_context (cx_options context) + 1 < U64 -> after_context (cx_options context) + 1 < U64 ->
  Forall (region_ok doc) regions ->
  (forall no, (exists x, reported doc (cx_plans context) (cx_programs context) regions x /\ rm_line x = no) <-> hit doc find no) ->
  (forall region, region ∈ regions -> ~ unverifiable (cx_plans context) (cx_programs context) region) ->
  verify_document fetch_regions is_file (Whole doc) context = Ok (full_lines_of find doc (cx_options context) 0) /\
  exists extra, verify_document fetch_regions is_file (Regions (len doc) regions) context = Ok (full_lines_of find doc (cx_options context) extra).
Proof.
  intros Hfind Hbatch Hdoc Hdetail Hwhole Hlines Hprograms Hmax Hb Ha Hregions Hhits Hver. split.
  - cbn [verify_document]. apply verify_whole_full_ok; try done. rewrite <- Hwhole. by apply po_whole with (cx_plans context).
  - cbn [verify_document]. by eapply verify_regions_full_ok.
Qed.

(** What is shown of the matches that a search lists. *)
Definition counted_lines_of (count_matches : bool) (doc : list N) (found : list RegionMatch) : option VerifiedDocument :=
  if is_nil found then None
  else Some {| vd_data := DataLines (omap (group_event count_matches) (line_groups found)); vd_bytes_searched := len doc; vd_extra_fetched_bytes := 0 |}.

(** C28: Lines with a match, and matches on lines, are counted from a whole body
    or from regions of it without a panic: there is nothing when nothing is
    listed, and otherwise one event for each line of the listing, under the
    number and the start of the line, with one match or as many as the line
    has.  Only a missing program or a match without its witness is an error. *)
Theorem line_counts_exact doc fetch_regions is_file context regions (count_matches : bool) :
  programs_ok (cx_plans context) (cx_programs context) -> Forall (region_ok doc) regions ->
  cx_detail context = (if count_matches then MatchCount else MatchingLines) ->
  (exists found, verify_document fetch_regions is_file (Whole doc) context = Ok (counted_lines_of count_matches doc found) /\
    listing (max_count (cx_options context)) (fun x => exists m, m ∈ sp_whole (cx_programs context) doc /\ whole_reports doc m x) found) /\
  match verify_document fetch_regions is_file (Regions (len doc) regions) context with
  | Ok verified => exists found, verified = counted_lines_of count_matches doc found /\
      listing (max_count (cx_options context)) (reported doc (cx_plans context) (cx_programs context) regions) found
  | Err _ => Exists (unverifiable (cx_plans context) (cx_programs context)) regions
  | Panic _ => False
  end.
Proof.
  intros Hprograms Hregions Hdetail. split; cbn [verify_document].
  - destruct (whole_matches_exact doc (cx_plans context) (cx_programs context) (max_count (cx_options context)) Hprograms) as (found & Hfound & Hlisting).
    exists found. split; [|done]. unfold verify_whole, counted_lines_of. rewrite Hdetail.
    destruct count_matches; rewrite Hfound; cbn [mbind res_bind]; destruct (is_nil found) eqn:E; try done; cbn [mbind res_bind]; by rewrite count_events_ok.
  - pose proof (regions_listing doc (cx_plans context) (cx_programs context) regions (max_count (cx_options context)) Hprograms Hregions) as H. unfold verify_regions, counted_lines_of. rewrite Hdetail.
    destruct count_matches; destruct (find_region_matches _ _ _ _ _) as [found|e|w]; cbn [mbind res_bind]; try done;
      destruct (is_nil found) eqn:En; exists found; rewrite En; (split; [|done]); try done; by rewrite count_events_ok.
Qed.

(** ** Witnesses: the byte [7], whose lines come back as one region *)

Lemma elem_of_demo_find bytes m : m ∈ demo_bytes_find bytes <-> m = {| pm_pattern := 0; pm_start := pm_start m; pm_end := pm_start m + 1 |} /\ get bytes (pm_start m) = Some 7.
Proof.
  unfold demo_bytes_find. rewrite list_elem_of_fmap. setoid_rewrite list_elem_of_filter. split.
  - intros ([i x] & -> & Hx & Hi%elem_of_enumerate). cbn in *. by subst x.
  - intros [-> Hg]. exists (pm_start m, 7). split; [done|]. split; [done|]. by apply elem_of_enumerate.
Qed.
Lemma demo_find_sorted bytes : StronglySorted (fun a b => pm_start a < pm_start b) (demo_bytes_find bytes).
Proof.
  pose proof (om_ordered _ _ (demo_find_ordered bytes)) as Hs. assert (forall m, m ∈ demo_bytes_find bytes -> pm_start m < pm_end m) as Hpos.
  { intros m [Em _]%elem_of_demo_find. rewrite Em. cbn. lia. }
  induction Hs as [|m ms Hs IH Hm]; constructor; [apply IH; intros; apply Hpos; by right|]. specialize (Hpos m ltac:(left)). eapply Forall_impl; [exact Hm|]. cbn. lia.
Qed.

#[export] Instance demo_line_program : LineProgram demo_bytes_find.
Proof.
  split; [intros bytes; apply demo_find_ordered|apply demo_find_sorted|]. intros doc a b l Hab Hb _ Hend Hl. apply lines_of_ok in Hl.
  pose proof (li_bounds _ _ Hl) as [H1 H2]. rewrite len_cut in H2 by lia. assert (ln_content l <= ln_end l) as Hcontent by (unfold ln_content; case_bool_decide; lia).
  set (k := count_newlines (take (N.to_nat a) doc)).
  assert (ln_content (shift_line k a l) = ln_content l + a) as Ec.
  { unfold ln_content, ln_end in *. cbn [shift_line ln_text ln_start]. case_bool_decide; [|lia]. lia. }
  set (move := fun m => {| pm_pattern := pm_pattern m; pm_start := pm_start m + a; pm_end := pm_end m + a |}).
  assert (filter (fun m => ln_start (shift_line k a l) <= pm_start m <= ln_content (shift_line k a l)) (demo_bytes_find doc) =
    move <$> filter (fun m => ln_start l <= pm_start m <= ln_content l) (demo_bytes_find (cut doc a b))) as E.
  { apply (sorted_same pm_start); [apply sorted_filter, demo_find_sorted| |].
    - pose proof (sorted_filter _ (fun m => ln_start l <= pm_start m <= ln_content l) _ (demo_find_sorted (cut doc a b))) as Hs.
      clear -Hs. induction Hs as [|m ms Hs IH Hm]; [constructor|]. rewrite fmap_cons. constructor; [done|]. apply Forall_fmap. eapply Forall_impl; [exact Hm|]. cbn. lia.
    - intros m. rewrite Ec. cbn [shift_line ln_start]. rewrite list_elem_of_filter, elem_of_demo_find, list_elem_of_fmap. setoid_rewrite list_elem_of_filter. setoid_rewrite elem_of_demo_find. split.
      + intros (Hin & Em & Hg). exists {| pm_pattern := 0; pm_start := pm_start m - a; pm_end := pm_start m - a + 1 |}. unfold move. cbn. split; [rewrite Em; cbn; f_equal; lia|].
        split; [lia|]. split; [done|]. destruct (decide (a + (pm_start m - a) < b)) as [Hlt|Hge]; [rewrite get_cut by lia; rewrite <- Hg; f_equal; lia|].
        exfalso. assert (ln_content l = ln_end l /\ ln_end l = b - a) as [Ece Eb] by lia. unfold ln_content in Ece. case_bool_decide as Elast; [lia|].
        destruct Hend as [->|Hend]; [apply get_Some_lt in Hg; lia|]. apply Elast.
        rewrite (li_text _ _ Hl), Eb. rewrite cut_cut by lia. replace (a + (b - a)) with b by lia. by apply cut_last; [lia| |].
      + intros (m' & -> & Hin & Em & Hg). unfold move. cbn. split; [lia|]. split; [rewrite Em; cbn; f_equal; lia|].
        assert (pm_start m' < len (cut doc a b)) by (by eapply get_Some_lt). rewrite len_cut in * by lia. rewrite get_cut in Hg by lia. rewrite <- Hg. f_equal. lia. }
  unfold line_subs. rewrite E, <- list_fmap_compose. apply list_fmap_ext. intros i m _. unfold move, compose. cbn [pm_start pm_end shift_line ln_start]. rewrite Ec. f_equal; lia.
Qed.

Definition demo_lines_programs : SearchPrograms := {| sp_whole := demo_bytes_find; sp_lines := Some demo_bytes_find; sp_regional := Some demo_bytes_find |}.
Definition demo_whole_region : DocumentRegion := {| dr_start := 0; dr_line := 1; dr_line_offset := 0; dr_bytes := demo_doc; dr_program := ProgramFull |}.
Definition demo_lines_fetch (ranges : list (N * N)) (read : RegionRead) : res FetchedDocument := 
  Ok (Regions 7 (if is_nil ranges then [] else [demo_whole_region])).
Definition demo_full_context (detail : SearchDetail) : SearchContext := {|
  cx_plans := demo_search_plans; cx_programs := demo_lines_programs; cx_stream_overlap := None;
  cx_options := {| before_context := 1; after_context := 0; max_count := Some 1 |}; cx_detail := detail |}.

Lemma demo_lines_programs_ok : programs_ok demo_search_plans demo_lines_programs.
Proof.
  split.
  - intros [] find bytes [= <-]; apply demo_find_ordered.
  - intros kind find bytes m Hp Hm. assert (find = demo_bytes_find) as -> by (destruct kind; cbn in Hp; congruence). apply elem_of_demo_find in Hm as [-> _].
    exists {| pp_id := 0; pp_witness := pp_witness (List.nth 0 demo_search_plans {| pp_id := 0; pp_witness := None |}) |}. split; [done|]. intros _. by eexists.
  - apply demo_find_ordered.
Qed.
#[export] Instance demo_honest_lines : HonestDocument demo_doc demo_lines_fetch.
Proof.
  split. intros ranges read _ Hranges. eexists. split; [done|]. split; [done|].
  assert (region_ok demo_doc demo_whole_region /\ of_lines demo_doc demo_whole_region) as [Hok Hlines].
  { split; [unfold region_ok; split_and!; vm_compute; congruence|]. split_and!; [done|by left|by left]. }
  assert (forall range, range ∈ pack_range read <$> ranges -> region_covers demo_doc range demo_whole_region) as Hcovers.
  { intros range ([a b] & -> & Hr)%list_elem_of_fmap. rewrite Forall_forall in Hranges. specialize (Hranges _ Hr). cbn [fst snd] in Hranges. change (len demo_doc) with 7 in *.
    unfold region_covers, pack_range. change (region_end demo_whole_region) with 7. destruct read as [|before_context after_context]; cbn [fst snd dr_start dr_program demo_whole_region]; [change (len demo_doc) with 7; lia|].
    split_and!; [done|lia|]. apply (lines_after_bounds demo_doc b). change (len demo_doc) with 7. lia. }
  destruct ranges as [|r ranges]; cbn [is_nil].
  { split; [constructor|constructor|by intros range ?%elem_of_nil|by intros region ?%elem_of_nil|constructor]. }
  split; [by constructor|by repeat constructor| | |intros _; by constructor].
  - intros range Hr. left. by apply Hcovers.
  - intros region ->%list_elem_of_singleton. apply Exists_exists. exists (pack_range read r). split; [left|]. apply Hcovers. left.
Qed.

Lemma demo_hits no : (exists x, reported demo_doc demo_search_plans demo_lines_programs [demo_search_region] x /\ rm_line x = no) <-> hit demo_doc demo_bytes_find no.
Proof.
  assert (demo_bytes_find (dr_bytes demo_search_region) = [{| pm_pattern := 0; pm_start := 1; pm_end := 2 |}; {| pm_pattern := 0; pm_start := 2; pm_end := 3 |}; {| pm_pattern := 0; pm_start := 5; pm_end := 6 |}]) as Efind by by vm_compute.
  transitivity (no = 2 \/ no = 3).
  - split.
    + intros (x & (region & program & m & ->%list_elem_of_singleton & [= <-] & Hm & (a & b & c & Hrel & _ & ->)) & <-). rewrite Efind in Hm.
      apply elem_of_cons in Hm as [->|[->|[->|[]%elem_of_nil]%elem_of_cons]%elem_of_cons]; vm_compute in Hrel; injection Hrel as <- <- _; vm_compute; tauto.
    + intros [-> | ->].
      * exists (located demo_doc 0 2 3 true). split; [|by vm_compute]. exists demo_search_region, demo_bytes_find, {| pm_pattern := 0; pm_start := 1; pm_end := 2 |}.
        split; [by left|]. split; [done|]. split; [rewrite Efind; by left|]. exists 1, 2, true. split_and!; by vm_compute.
      * exists (located demo_doc 0 6 7 true). split; [|by vm_compute]. exists demo_search_region, demo_bytes_find, {| pm_pattern := 0; pm_start := 5; pm_end := 6 |}.
        split; [by left|]. split; [done|]. split; [rewrite Efind; right; right; by left|]. exists 5, 6, true. split_and!; by vm_compute.
  - unfold hit. assert (exists l1 l2 l3, lines_of demo_doc = [l1; l2; l3] /\ line_subs (demo_bytes_find demo_doc) l1 = [] /\
      line_subs (demo_bytes_find demo_doc) l2 <> [] /\ line_subs (demo_bytes_find demo_doc) l3 <> [] /\ ln_no l2 = 2 /\ ln_no l3 = 3) as (l1 & l2 & l3 & -> & E1 & E2 & E3 & N2 & N3).
    { do 3 eexists. split; [vm_compute; reflexivity|]. split_and!; by vm_compute. }
    split.
    + intros [-> | ->]; [exists l2|exists l3]; (split; [|done]); [right; by left|right; right; by left].
    + intros (l & Hl & <- & Hne). apply elem_of_cons in Hl as [->|[->|[->|[]%elem_of_nil]%elem_of_cons]%elem_of_cons]; [done|by left|by right].
Qed.

Lemma full_lines_exact_witness :
  (verify_document demo_lines_fetch true (Whole demo_doc) (demo_full_context FullLines) = Ok (full_lines_of demo_bytes_find demo_doc (cx_options (demo_full_context FullLines)) 0) /\
   exists extra, verify_document demo_lines_fetch true (Regions 7 [demo_search_region]) (demo_full_context FullLines) =
     Ok (full_lines_of demo_bytes_find demo_doc (cx_options (demo_full_context FullLines)) extra)) /\
  (fun event => (le_line event, is_match event)) <$> reference_lines (demo_bytes_find demo_doc) (cx_options (demo_full_context FullLines)) (lines_of demo_doc) = [(1, false); (2, true)].
Proof.
  split; [|vm_compute; reflexivity].
  apply (full_lines_exact demo_doc demo_bytes_find demo_lines_fetch true (demo_full_context FullLines) [demo_search_region] _ _); try reflexivity.
  - apply demo_lines_programs_ok.
  - discriminate.
  - constructor; [|constructor]. unfold region_ok. split_and!; vm_compute; congruence.
  - apply demo_hits.
  - intros region ->%list_elem_of_singleton. intros H. vm_compute in H. apply Exists_exists in H as (m & Hm & e & He).
    apply elem_of_cons in Hm as [->|[->|[->|[]%elem_of_nil]%elem_of_cons]%elem_of_cons]; vm_compute in He; discriminate.
Defined.

Lemma line_counts_exact_witness :
  (exists found, verify_document demo_lines_fetch true (Whole demo_doc) (demo_full_context MatchCount) = Ok (counted_lines_of true demo_doc found) /\
    listing (Some 1) (fun x => exists m, m ∈ demo_bytes_find demo_doc /\ whole_reports demo_doc m x) found) /\
  match verify_document demo_lines_fetch true (Regions 7 [demo_search_region]) (demo_full_context MatchCount) with
  | Ok verified => exists found, verified = counted_lines_of true demo_doc found /\ listing (Some 1) (reported demo_doc demo_search_plans demo_lines_programs [demo_search_region]) found
  | Err _ => Exists (unverifiable demo_search_plans demo_lines_programs) [demo_search_region]
  | Panic _ => False
  end.
Proof.
  apply (line_counts_exact demo_doc demo_lines_fetch true (demo_full_context MatchCount) [demo_search_region] true); [apply demo_lines_programs_ok| |reflexivity].
  constructor; [|constructor]. unfold region_ok. split_and!; vm_compute; congruence.
Defined.
