(* ===== verification/FileGrams.v ===== *)
(** * Grams of a body in a file (crates/index/src/build/runs.rs)

    A large body is not read into memory to be indexed.
    [visit_file_trigram_blocks] reads it one candidate block at a time, two bytes
    ahead, and visits the trigrams of each block; on the way it counts the
    newlines of every block and the longest line.  The postings are the ones
    [pack_trigram_block_grams] gives for the body in memory. *)

From S2P Require Import Prelude BitPack Bytes Trigrams PackBatch PackLines Stream.

(** [track_max_line]: the carry and the maximum so far. *)
Fixpoint track_bytes (data : list N) (carry max_ : N) : N * N :=
  match data with
  | [] => (carry, max_)
  | byte :: data => if byte =? NEWLINE then track_bytes data 0 (N.max max_ carry) else track_bytes data (carry + 1) max_
  end.
Definition track_max_line (data : list N) (state : N * N) : N * N :=
  let '(carry, max_) := track_bytes data state.1 state.2 in (carry, N.max max_ carry).

Section visit.
Context (radsort : list N -> list N).
(** The closure and what it changes. *)
Context {S : Type} (visit : S -> N -> list N -> res S).

Record Visit : Type := {
  v_reader : list N; v_buf : list N; v_have : N; v_lines : N * N; v_newlines : list N; v_pos : N; v_block : N; v_state : S;
}.

(** [file.read_exact(&mut buf[have..slice_len])], when something is missing. *)
Definition fill_window (v : Visit) (slice_len : N) : res (list N * list N * (N * N)) :=
  if v_have v <? slice_len then
    _ ← expect (get_range (v_buf v) (v_have v) slice_len) "range out of bounds";
    '(bytes, reader) ← read_exact (v_reader v) (slice_len - v_have v);
    buf ← write_at (v_buf v) (v_have v) bytes;
    Ok (reader, buf, track_max_line bytes (v_lines v))
  else Ok (v_reader v, v_buf v, v_lines v).

Definition visit_window (length : N) (v : Visit) : res Visit :=
  let slice_len := N.min (length - v_pos v) (CANDIDATE_BLOCK_BYTES + 2) in
  '(reader, buf, lines) ← fill_window v slice_len;
  window ← expect (get_range buf 0 slice_len) "range out of bounds";
  let grams := pack_trigram_grams radsort window in
  block_bytes ← expect (get_range buf 0 (N.min slice_len CANDIDATE_BLOCK_BYTES)) "range out of bounds";
  newlines ← to_u32 (count_newlines block_bytes);
  state ← (if bool_decide (grams = []) then Ok (v_state v) else visit (v_state v) (v_block v) grams);
  let carry := slice_len - CANDIDATE_BLOCK_BYTES in
  kept ← expect (get_range buf (slice_len - carry) slice_len) "range out of bounds";
  buf ← write_at buf 0 kept;
  block ← with_context (checked_add U32 (v_block v) 1) "document exceeds the candidate block id space";
  Ok {| v_reader := reader; v_buf := buf; v_have := carry; v_lines := lines; v_newlines := v_newlines v ++ [newlines];
        v_pos := v_pos v + CANDIDATE_BLOCK_BYTES; v_block := block; v_state := state |}.

(** [while pos < len]: every pass moves [pos] on. *)
Fixpoint visit_windows (fuel : nat) (length : N) (v : Visit) : res Visit :=
  match fuel with
  | O => Panic "out of fuel"
  | Datatypes.S fuel => if v_pos v <? length then v ← visit_window length v; visit_windows fuel length v else Ok v
  end.

(** The file is what it holds from [start] on. *)
Definition visit_file_trigram_blocks (file : list N) (start length : N) (s : S) : res (S * (N * list N)) :=
  v ← visit_windows (Datatypes.S (N.to_nat length)) length
    {| v_reader := drop (N.to_nat start) file; v_buf := replicate (N.to_nat (CANDIDATE_BLOCK_BYTES + 2)) 0; v_have := 0; v_lines := (0, 0);
       v_newlines := []; v_pos := 0; v_block := 0; v_state := s |};
  Ok (v_state v, ((v_lines v).2, v_newlines v)).
End visit.
Arguments Visit S : clear implicits.

(** ** The longest line *)

(** [m] is the length of the longest stretch of bytes without a newline. *)
Definition longest_line (doc : list N) (m : N) : Prop :=
  (exists a, a + m <= len doc /\ count_newlines (cut doc a (a + m)) = 0) /\
  forall a b, a <= b <= len doc -> count_newlines (cut doc a b) = 0 -> b - a <= m.

(** After some bytes: the bytes since the last newline, and the longest stretch
    before that or up to here. *)
Record tracked (past : list N) (state : N * N) : Prop := {
  tr_carry : state.1 <= len past /\ count_newlines (cut past (len past - state.1) (len past)) = 0;
  tr_carry_max : forall a, a <= len past -> count_newlines (cut past a (len past)) = 0 -> len past - a <= state.1;
  tr_max : exists a, a + state.2 <= len past /\ count_newlines (cut past a (a + state.2)) = 0;
  tr_bound : forall a b, a <= b <= len past -> count_newlines (cut past a b) = 0 -> b - a <= N.max state.1 state.2;
}.

Lemma cut_snoc_in {A} (past : list A) byte a b : b <= len past -> cut (past ++ [byte]) a b = cut past a b.
Proof. apply cut_app_l. Qed.
Lemma cut_snoc_end {A} (past : list A) byte a : a <= len past -> cut (past ++ [byte]) a (len past + 1) = cut past a (len past) ++ [byte].
Proof.
  intros Ha. rewrite <- (cut_app _ a (len past)) by lia. rewrite cut_snoc_in by lia. f_equal.
  rewrite cut_app_r by lia. replace (len past - len past) with 0 by lia. replace (len past + 1 - len past) with 1 by lia. done.
Qed.
Lemma count_newlines_1 byte : count_newlines [byte] = if byte =? NEWLINE then 1 else 0.
Proof. rewrite count_newlines_cons. change (count_newlines []) with 0. destruct (byte =? NEWLINE); lia. Qed.

Lemma tracked_step past byte carry max_ :
  tracked past (carry, max_) ->
  tracked (past ++ [byte]) (if byte =? NEWLINE then (0, N.max max_ carry) else (carry + 1, max_)).
Proof.
  intros [[H1 H1c] H2 (a0 & H3 & H3c) H4]. cbn [fst snd] in *.
  assert (len (past ++ [byte]) = len past + 1) as Hl by (rewrite len_app; change (len [byte]) with 1; lia).
  assert (forall a, a <= len past -> count_newlines (cut (past ++ [byte]) a (len past + 1)) =
    count_newlines (cut past a (len past)) + if byte =? NEWLINE then 1 else 0) as Hend.
  { intros a Ha. by rewrite cut_snoc_end, count_newlines_app, count_newlines_1. }
  destruct (byte =? NEWLINE) eqn:E; (split; cbn [fst snd]; rewrite ?Hl).
  - split; [lia|]. by rewrite cut_nil by lia.
  - intros a Ha Hc. destruct (decide (a <= len past)) as [Hin|]; [|lia]. rewrite Hend in Hc by done. lia.
  - destruct (N.max_spec max_ carry) as [[_ ->]|[_ ->]].
    + exists (len past - carry). replace (len past - carry + carry) with (len past) by lia. split; [lia|]. rewrite cut_snoc_in by lia. exact H1c.
    + exists a0. split; [lia|]. by rewrite cut_snoc_in by lia.
  - intros a b Hab Hc. destruct (decide (b <= len past)) as [Hb|Hb].
    + rewrite cut_snoc_in in Hc by lia. specialize (H4 a b ltac:(lia) Hc). lia.
    + replace b with (len past + 1) in * by lia. destruct (decide (a <= len past)); [|lia]. rewrite Hend in Hc by lia. lia.
  - split; [lia|]. replace (len past + 1 - (carry + 1)) with (len past - carry) by lia. rewrite Hend by lia. lia.
  - intros a Ha Hc. destruct (decide (a <= len past)) as [Hin|]; [|lia]. rewrite Hend in Hc by done.
    specialize (H2 a Hin ltac:(lia)). lia.
  - exists a0. split; [lia|]. by rewrite cut_snoc_in by lia.
  - intros a b Hab Hc. destruct (decide (b <= len past)) as [Hb|Hb].
    + rewrite cut_snoc_in in Hc by lia. specialize (H4 a b ltac:(lia) Hc). lia.
    + replace b with (len past + 1) in * by lia. destruct (decide (a <= len past)) as [Hin|]; [|lia]. rewrite Hend in Hc by lia.
      specialize (H2 a Hin ltac:(lia)). lia.
Qed.

Lemma tracked_bytes past data carry max_ : tracked past (carry, max_) -> tracked (past ++ data) (track_bytes data carry max_).
Proof.
  revert past carry max_. induction data as [|byte data IH]; intros past carry max_ H; cbn [track_bytes]; [by rewrite app_nil_r|].
  pose proof (tracked_step past byte carry max_ H) as Hs. replace (past ++ byte :: data) with ((past ++ [byte]) ++ data) by (by rewrite <- app_assoc).
  destruct (byte =? NEWLINE); by apply IH.
Qed.

(** A finished chunk also counts its unfinished line. *)
Lemma tracked_max past state : tracked past state -> tracked past (state.1, N.max state.2 state.1).
Proof.
  destruct state as [carry max_]. intros [[H1 H1c] H2 (a0 & H3 & H3c) H4]. cbn [fst snd] in *. split; cbn [fst snd]; [done|done| |].
  - destruct (N.max_spec max_ carry) as [[_ ->]|[_ ->]]; [|by exists a0].
    exists (len past - carry). replace (len past - carry + carry) with (len past) by lia. by split; [lia|].
  - intros a b Hab Hc. specialize (H4 a b Hab Hc). lia.
Qed.
Lemma track_max_line_ok past data state : tracked past state -> tracked (past ++ data) (track_max_line data state).
Proof.
  intros H. unfold track_max_line. destruct state as [carry max_]. cbn [fst snd].
  pose proof (tracked_max _ _ (tracked_bytes past data carry max_ H)) as Ht. by destruct (track_bytes data carry max_).
Qed.
Lemma track_max_line_full data state : (track_max_line data state).1 <= (track_max_line data state).2.
Proof. unfold track_max_line. destruct (track_bytes _ _ _). cbn. lia. Qed.
Lemma tracked_longest doc state : tracked doc state -> state.1 <= state.2 -> longest_line doc state.2.
Proof.
  intros [_ _ H3 H4] Hle. split; [done|]. intros a b Hab Hc. specialize (H4 a b Hab Hc). lia.
Qed.
Lemma tracked_nil : tracked [] (0, 0).
Proof.
  split; cbn [fst snd]; rewrite ?len_nil; [done|lia|by exists 0|lia].
Qed.

(** ** The windows of a body *)

Section windows.
Context (radsort : list N -> list N) (doc : list N).

(** The bytes a block's trigrams start in, and two more. *)
Definition block_window (block : N) : list N :=
  cut doc (block * CANDIDATE_BLOCK_BYTES) (N.min (block * CANDIDATE_BLOCK_BYTES + (CANDIDATE_BLOCK_BYTES + 2)) (len doc)).
Definition block_visit (block : N) : N * list N := (block, pack_trigram_grams radsort (block_window block)).
(** What is visited: the blocks with trigrams, each with its trigrams. *)
Definition file_visits (blocks : N) : list (N * list N) := filter (fun v => v.2 <> []) (block_visit <$> range 0 blocks).
Definition block_newline_counts (blocks : N) : list N :=
  (fun block => count_newlines (cut doc (block * CANDIDATE_BLOCK_BYTES) (N.min ((block + 1) * CANDIDATE_BLOCK_BYTES) (len doc)))) <$> range 0 blocks.

Lemma file_visits_snoc k :
  file_visits (k + 1) = file_visits k ++ (if bool_decide ((block_visit k).2 = []) then [] else [block_visit k]).
Proof.
  unfold file_visits. rewrite range_snoc, fmap_app, filter_app by lia. f_equal. cbn [fmap list_fmap]. rewrite filter_cons.
  case_bool_decide as E; [by rewrite decide_False by tauto|by rewrite decide_True].
Qed.

Lemma pack_short data : len data < 3 -> pack_trigram_grams radsort data = [].
Proof.
  intros H. unfold pack_trigram_grams. assert (windows3 data = []) as ->.
  { destruct data as [|a [|b [|c data]]]; try done. unfold len in H. cbn in H. lia. }
  assert ((BITMAP_THRESHOLD <? len data - 2) = false) as -> by (apply N.ltb_ge; change BITMAP_THRESHOLD with 524288; lia). done.
Qed.

Definition visit_pairs (v : N * list N) : list (N * N) := (fun gram => (v.1, gram)) <$> v.2.

Lemma visits_of_blocks (ks : list N) :
  mbind visit_pairs (filter (fun v => v.2 <> []) (block_visit <$> ks)) = mbind (fun k => visit_pairs (block_visit k)) ks.
Proof.
  induction ks as [|k ks IH]; [done|]. rewrite fmap_cons, filter_cons, bind_cons, <- IH. case_decide as E; [done|].
  assert ((block_visit k).2 = []) as E' by (clear IH; destruct (block_visit k).2; [done|by destruct E]). unfold visit_pairs at 2. by rewrite E'.
Qed.

Lemma block_grams_tail fuel k :
  div_ceil (len doc) CANDIDATE_BLOCK_BYTES <= U32 -> (N.to_nat (len doc - k * CANDIDATE_BLOCK_BYTES) <= fuel)%nat ->
  block_grams_loop radsort fuel doc k (k * CANDIDATE_BLOCK_BYTES) =
    mbind (fun k => visit_pairs (block_visit k)) (range k (div_ceil (len doc) CANDIDATE_BLOCK_BYTES)).
Proof.
  intros Hblocks. revert k. change CANDIDATE_BLOCK_BYTES with 131072 in *. set (total := div_ceil (len doc) 131072) in *.
  assert (len doc <= 131072 * total) as Htop by (apply div_ceil_le; done).
  assert (forall j, j * 131072 < len doc <-> j < total) as Hin.
  { intros j. split; intros Hj; [lia|]. pose proof (div_ceil_lt (len doc) 131072 ltac:(done)) as H. fold total in H.
    destruct (decide (len doc = 0)) as [E|]; [unfold total in Hj; rewrite E, div_ceil_0 in Hj by done; lia|]. specialize (H ltac:(lia)). lia. }
  induction fuel as [|fuel IH]; intros k Hfuel.
  { assert (~ k < total) by (rewrite <- Hin; lia). by rewrite range_nil by lia. }
  cbn [block_grams_loop]. change CANDIDATE_BLOCK_BYTES with 131072.
  destruct (N.ltb_spec (k * 131072 + 2) (len doc)) as [Hlt|Hge].
  - assert (k < total) as Hk by (apply Hin; lia). rewrite range_cons, bind_cons by done. f_equal.
    + unfold visit_pairs, block_visit, block_window. change CANDIDATE_BLOCK_BYTES with 131072. cbn [fst snd]. rewrite <- N.add_assoc. done.
    + destruct (decide (k + 1 < U32)) as [Hsmall|Hend].
      * rewrite wrapping_add_small by done. replace (k * 131072 + 131072) with ((k + 1) * 131072) by lia. apply IH. lia.
      * assert (k + 1 = total) as <- by lia. rewrite (range_nil (k + 1)) by lia. cbn [mbind list_bind].
        destruct fuel; [done|]. cbn [block_grams_loop]. destruct (N.ltb_spec (k * 131072 + 131072 + 2) (len doc)); [lia|done].
  - destruct (decide (k < total)) as [Hk|Hk]; [|by rewrite range_nil by lia].
    assert (total = k + 1) as E by (destruct (decide (k + 1 < total)) as [H1|]; [apply Hin in H1; lia|lia]).
    rewrite E, range_cons, range_nil by lia. cbn [mbind list_bind]. unfold visit_pairs, block_visit. cbn [fst snd]. rewrite pack_short; [done|].
    unfold block_window. change CANDIDATE_BLOCK_BYTES with 131072. rewrite len_cut by lia. lia.
Qed.

(** The visits are the block grams of the body. *)
Lemma file_visits_pairs :
  div_ceil (len doc) CANDIDATE_BLOCK_BYTES <= U32 ->
  mbind visit_pairs (file_visits (div_ceil (len doc) CANDIDATE_BLOCK_BYTES)) = pack_trigram_block_grams radsort doc.
Proof.
  intros Hblocks. unfold file_visits. rewrite visits_of_blocks. rewrite <- (block_grams_tail (length doc)) by (try done; unfold len; lia).
  unfold pack_trigram_block_grams. destruct (N.ltb_spec (len doc) 3) as [Hs|Hs]; [|done]. destruct (length doc) as [|n] eqn:E; [done|].
  cbn [block_grams_loop]. destruct (N.ltb_spec (0 * CANDIDATE_BLOCK_BYTES + 2) (len doc)); [lia|done].
Qed.
End windows.

(** ** The loop *)

Lemma foldM_stop {S A} (f : S -> A -> res S) s l1 l2 r :
  foldM f s l1 = r -> (forall a, r <> Ok a) -> exists r', foldM f s (l1 ++ l2) = r' /\ (forall e, r = Err e -> r' = Err e) /\ (forall w, r = Panic w -> r' = Panic w).
Proof.
  intros H Hr. eexists. split; [reflexivity|]. rewrite foldM_app, H. split; intros ? ->; done.
Qed.

Lemma fresh_buffer n : len (replicate (N.to_nat n) 0) = n.
Proof. unfold len. rewrite length_replicate. lia. Qed.

Section loop.
Context (radsort : list N -> list N) {S : Type} (visit : S -> N -> list N -> res S) (s0 : S).
Context (contents : list N) (length : N).

Abbreviation B := CANDIDATE_BLOCK_BYTES.
Definition body : list N := take (N.to_nat length) contents.
Definition run_visits (k : N) : res S := foldM (fun s v => visit s v.1 v.2) s0 (file_visits radsort body k).
(** How far the file was read before the window of block [k]. *)
Definition reached (k : N) : N := if k =? 0 then 0 else N.min length (k * B + 2).

Record visit_ok (k : N) (v : Visit S) : Prop := {
  vo_block : v_block v = k; vo_pos : v_pos v = k * B;
  vo_reached : reached k <= len contents; vo_reader : v_reader v = drop (N.to_nat (reached k)) contents;
  vo_buf : len (v_buf v) = B + 2; vo_have : v_have v = reached k - k * B;
  vo_carried : take (N.to_nat (v_have v)) (v_buf v) = cut contents (k * B) (k * B + v_have v);
  vo_lines : tracked (take (N.to_nat (reached k)) contents) (v_lines v) /\ (v_lines v).1 <= (v_lines v).2;
  vo_newlines : v_newlines v = block_newline_counts body k;
  vo_state : run_visits k = Ok (v_state v);
  vo_small : k < U32;
}.

Lemma cut_body a b : b <= len body -> cut body a b = cut contents a b.
Proof.
  intros Hb. unfold body in *. rewrite <- (take_drop (N.to_nat length) contents) at 2. by rewrite cut_app_l.
Qed.
Lemma len_body : len body = N.min length (len contents).
Proof. unfold body, len. rewrite length_take. lia. Qed.

Lemma reached_window k : k * B < length -> reached k = k * B + (reached k - k * B) /\ reached k - k * B <= N.min (length - k * B) (B + 2).
Proof. unfold reached. change B with 131072. destruct (N.eqb_spec k 0) as [->|]; lia. Qed.
Lemma reached_next k : k * B < length -> reached (k + 1) = k * B + N.min (length - k * B) (B + 2).
Proof. unfold reached. change B with 131072. destruct (N.eqb_spec (k + 1) 0); lia. Qed.

Lemma fill_window_ok k v :
  visit_ok k v -> k * B < length ->
  let slice_len := N.min (length - k * B) (B + 2) in
  match fill_window v slice_len with
  | Ok (reader, buf, lines) =>
      reached (k + 1) <= len contents /\ reader = drop (N.to_nat (reached (k + 1))) contents /\ len buf = B + 2 /\
      take (N.to_nat slice_len) buf = cut contents (k * B) (k * B + slice_len) /\
      tracked (take (N.to_nat (reached (k + 1))) contents) lines /\ lines.1 <= lines.2
  | Err _ => len contents < length
  | Panic _ => False
  end.
Proof.
  intros [H1 H2 H3 H4 H5 H6 H7 [H8 H8'] H9 H10 _] Hk slice_len. destruct (reached_window k Hk) as [Hr Hs]. rewrite <- H6 in Hr, Hs. fold slice_len in Hs.
  pose proof (reached_next k Hk) as Hn. fold slice_len in Hn. assert (slice_len <= B + 2 /\ slice_len <= length - k * B) as [Hs1 Hs2] by (unfold slice_len; lia).
  unfold fill_window. destruct (N.ltb_spec (v_have v) slice_len) as [Hlt|Hge].
  - rewrite cut_get_range by lia. cbn [expect mbind res_bind]. unfold read_exact. rewrite H4, len_drop.
    destruct (N.leb_spec (slice_len - v_have v) (len contents - reached k)) as [Hn2|]; cbn [mbind res_bind]; [|lia].
    assert (take (N.to_nat (slice_len - v_have v)) (drop (N.to_nat (reached k)) contents) = cut contents (reached k) (reached (k + 1))) as -> by (unfold cut; f_equal; lia).
    destruct (write_at_ok (v_buf v) (v_have v) (cut contents (reached k) (reached (k + 1)))) as (buf & -> & Hb & Ht); [rewrite len_cut by lia; lia|].
    cbn [mbind res_bind]. split; [lia|]. split; [rewrite drop_drop; f_equal; lia|]. split; [lia|]. split.
    + rewrite H7, len_cut in Ht by lia. replace (v_have v + (reached (k + 1) - reached k)) with slice_len in Ht by lia. rewrite Ht, Hr at 1.
      rewrite cut_app by lia. f_equal. lia.
    + split; [|apply track_max_line_full]. rewrite (take_cut contents (reached k)) by lia. by apply track_max_line_ok.
  - assert (slice_len = v_have v) as E by lia. rewrite Hn, E, <- Hr. split_and!; try done. rewrite H7. f_equal. lia.
Qed.

Lemma run_visits_next k :
  run_visits (k + 1) = (s ← run_visits k; if bool_decide ((block_visit radsort body k).2 = []) then Ok s else visit s k (block_visit radsort body k).2).
Proof.
  unfold run_visits. rewrite file_visits_snoc, foldM_app. destruct (foldM _ s0 _) as [s|e|w]; cbn [mbind res_bind]; [|done..].
  case_bool_decide; [done|]. cbn [foldM]. unfold block_visit at 1 2. cbn [fst snd]. by destruct (visit s k _).
Qed.

Lemma visit_window_ok k v :
  visit_ok k v -> k * B < length ->
  match visit_window radsort visit length v with
  | Ok v' => visit_ok (k + 1) v'
  | Err _ => len contents < length \/ U32 <= k + 1 \/ exists e, run_visits (k + 1) = Err e
  | Panic _ => exists w, run_visits (k + 1) = Panic w
  end.
Proof.
  intros Hv Hk. pose proof (fill_window_ok k v Hv Hk) as Hfill. destruct Hv as [H1 H2 H3 H4 H5 H6 H7 H8 H9 H10 _].
  unfold visit_window. rewrite H2. set (slice_len := N.min (length - k * B) (B + 2)) in *. cbv zeta in Hfill |- *.
  assert (slice_len <= B + 2 /\ slice_len <= length - k * B) as [Hs1 Hs2] by (unfold slice_len; lia).
  destruct (fill_window v slice_len) as [[[reader buf] lines]|e|w]; cbn [mbind res_bind]; [|by left|done].
  destruct Hfill as (F1 & F2 & F3 & F4 & F5). pose proof (reached_next k Hk) as Hn. fold slice_len in Hn.
  assert (forall a b, a <= b -> b <= slice_len -> get_range buf a b = Some (cut contents (k * B + a) (k * B + b))) as Hcut.
  { intros a b Ha Hb. rewrite cut_get_range by lia. f_equal. rewrite <- (take_drop (N.to_nat slice_len) buf), F4.
    rewrite cut_app_l by (rewrite len_cut by lia; lia). by rewrite cut_cut by lia. }
  rewrite (Hcut 0 slice_len) by lia. cbn [expect mbind res_bind]. rewrite (Hcut 0 (N.min slice_len B)) by lia. cbn [expect mbind res_bind]. rewrite N.add_0_r.
  pose proof len_body as Hbody.
  assert (count_newlines (cut contents (k * B) (k * B + N.min slice_len B)) =
    count_newlines (cut body (k * B) (N.min ((k + 1) * B) (len body)))) as Hcount.
  { rewrite (cut_body _ (N.min ((k + 1) * B) (len body))) by lia. do 2 f_equal. change B with 131072 in *. lia. }
  assert (cut contents (k * B) (k * B + slice_len) = block_window body k) as Hwin.
  { unfold block_window. rewrite cut_body by lia. f_equal. change B with 131072 in *. lia. }
  assert (to_u32 (count_newlines (cut contents (k * B) (k * B + N.min slice_len B))) =
    Ok (count_newlines (cut contents (k * B) (k * B + N.min slice_len B)))) as ->.
  { apply to_u32_ok. split; [done|]. pose proof (count_newlines_le (cut contents (k * B) (k * B + N.min slice_len B))) as Hle.
    rewrite len_cut in Hle by lia. change B with 131072 in *. change U32 with 4294967296. lia. }
  cbn [mbind res_bind]. rewrite Hwin. 
  pose proof (run_visits_next k) as Hrun. rewrite H10 in Hrun. cbn [mbind res_bind] in Hrun. rewrite H1.
  change (pack_trigram_grams radsort (block_window body k)) with (block_visit radsort body k).2. rewrite <- Hrun.
  destruct (run_visits (k + 1)) as [state|e|w] eqn:Estate; cbn [mbind res_bind]; [|right; right; by exists e|by exists w].
  set (carry := slice_len - B). rewrite (Hcut (slice_len - carry) slice_len) by lia. cbn [expect mbind res_bind].
  destruct (write_at_ok buf 0 (cut contents (k * B + (slice_len - carry)) (k * B + slice_len))) as (buf2 & -> & G1 & G2); [rewrite len_cut by lia; lia|].
  cbn [mbind res_bind]. unfold checked_add, fits. destruct (N.ltb_spec (k + 1) U32); cbn [with_context mbind res_bind]; [|by right; left].
  change (take (N.to_nat 0) buf) with (@nil N) in G2. cbn [app] in G2. rewrite len_cut in G2 by lia.
  assert (carry <= slice_len /\ carry = reached (k + 1) - (k + 1) * B) as [Hc1 Hc2] by (unfold carry; change B with 131072 in *; lia).
  replace (0 + (k * B + slice_len - (k * B + (slice_len - carry)))) with carry in G2 by lia.
  split; cbn [v_block v_pos v_reader v_buf v_have v_lines v_newlines v_state]; try done; try lia.
  - rewrite G2. destruct (decide (carry = 0)) as [E|E]; [rewrite !cut_nil by lia; done|]. f_equal; unfold carry in *; change B with 131072 in *; lia.
  - rewrite H9. unfold block_newline_counts. rewrite range_snoc, fmap_app by lia. cbn [fmap list_fmap]. by rewrite Hcount.
Qed.

Lemma run_visits_stop k m e : k <= m -> run_visits k = Err e -> run_visits m = Err e.
Proof.
  intros Hkm Hk. replace m with (k + (m - k)) by lia. generalize (m - k). intros d. induction d as [|d IH] using N.peano_ind; [by rewrite N.add_0_r|].
  replace (k + N.succ d) with (k + d + 1) by lia. rewrite run_visits_next, IH. done.
Qed.
Lemma run_visits_panic k m w : k <= m -> run_visits k = Panic w -> run_visits m = Panic w.
Proof.
  intros Hkm Hk. replace m with (k + (m - k)) by lia. generalize (m - k). intros d. induction d as [|d IH] using N.peano_ind; [by rewrite N.add_0_r|].
  replace (k + N.succ d) with (k + d + 1) by lia. rewrite run_visits_next, IH. done.
Qed.

Abbreviation total := (div_ceil length B).

Lemma in_total k : k * B < length <-> k < total.
Proof.
  pose proof (div_ceil_le length B ltac:(done)) as H1. pose proof (div_ceil_lt length B ltac:(done)) as H2. change B with 131072 in *.
  destruct (decide (length = 0)) as [->|]; [rewrite div_ceil_0 by done; lia|]. specialize (H2 ltac:(lia)). lia.
Qed.

Lemma visit_windows_ok fuel k v :
  visit_ok k v -> k <= total -> (N.to_nat (length - k * B) < fuel)%nat ->
  match visit_windows radsort visit fuel length v with
  | Ok v' => visit_ok total v'
  | Err _ => len contents < length \/ U32 <= total \/ exists e, run_visits total = Err e
  | Panic _ => exists w, run_visits total = Panic w
  end.
Proof.
  revert k v. induction fuel as [|fuel IH]; intros k v Hv Hk Hfuel; [lia|]. cbn [visit_windows]. rewrite (vo_pos _ _ Hv).
  destruct (N.ltb_spec (k * B) length) as [Hlt|Hge].
  - pose proof (visit_window_ok k v Hv Hlt) as H. apply in_total in Hlt as Hkt.
    destruct (visit_window radsort visit length v) as [v'|e|w]; cbn [mbind res_bind].
    + apply (IH (k + 1)); [done|lia|]. change B with 131072 in *. lia.
    + destruct H as [H|[H|[e' H]]]; [by left|right; left; lia|right; right]. exists e'. apply (run_visits_stop (k + 1)); [lia|done].
    + destruct H as [w' H]. exists w'. apply (run_visits_panic (k + 1)); [lia|done].
  - assert (k = total) as <-; [|done]. destruct (decide (k < total)) as [Hlt|]; [apply in_total in Hlt|]; lia.
Qed.

Lemma start_ok buf :
  len buf = B + 2 ->
  visit_ok 0 {| v_reader := contents; v_buf := buf; v_have := 0; v_lines := (0, 0); v_newlines := []; v_pos := 0; v_block := 0; v_state := s0 |}.
Proof.
  intros Hbuf. split; cbn [v_block v_pos v_reader v_buf v_have v_lines v_newlines v_state]; try done.
  - unfold reached. cbn. lia.
  - split; [apply tracked_nil|done].
Qed.
End loop.

Lemma block_newline_counts_ok doc : newlines_ok doc (block_newline_counts doc (div_ceil (len doc) CANDIDATE_BLOCK_BYTES)).
Proof.
  unfold newlines_ok, block_newline_counts. rewrite len_fmap, len_range, N.sub_0_r. split; [done|]. intros block Hb.
  unfold get, range. rewrite !list_lookup_fmap, lookup_seq_lt by lia. cbn. do 2 f_equal. f_equal; [lia|]. f_equal. lia.
Qed.

(** ** Properties *)

(** Reading a body from a file visits exactly the candidate blocks that have
    trigrams, in order, each with its trigrams: the pairs are those of
    [pack_trigram_block_grams] on the bytes in memory.  The newline counts are
    those of the blocks and the line length that of the longest line.  It fails
    only on a short file, on too many blocks or when the visitor does, and never
    panics by itself. *)
Theorem file_grams_exact radsort {S} (visit : S -> N -> list N -> res S) file start length s :
  let body := take (N.to_nat length) (drop (N.to_nat start) file) in
  let visits := file_visits radsort body (div_ceil length CANDIDATE_BLOCK_BYTES) in
  let run := foldM (fun s v => visit s v.1 v.2) s visits in
  match visit_file_trigram_blocks radsort visit file start length s with
  | Ok (s', (max_line, newlines)) =>
      len body = length /\ run = Ok s' /\ mbind visit_pairs visits = pack_trigram_block_grams radsort body /\
      longest_line body max_line /\ newlines_ok body newlines
  | Err _ => len (drop (N.to_nat start) file) < length \/ U32 <= div_ceil length CANDIDATE_BLOCK_BYTES \/ exists e, run = Err e
  | Panic _ => exists w, run = Panic w
  end.
Proof.
  intros body_ visits run_. unfold visit_file_trigram_blocks. set (contents := drop (N.to_nat start) file) in *.
  pose proof (visit_windows_ok radsort visit s contents length (Datatypes.S (N.to_nat length)) 0 _ (start_ok radsort visit s contents length _ (fresh_buffer _))
    ltac:(lia) ltac:(lia)) as H.
  destruct (visit_windows _ _ _ _ _) as [v|e|w]; cbn [mbind res_bind]; [|exact H|exact H].
  destruct H as [_ _ H3 _ _ _ _ [H8 H8'] H9 H10 Hsmall].
  assert (reached length (div_ceil length CANDIDATE_BLOCK_BYTES) = length) as Hr.
  { pose proof (div_ceil_le length CANDIDATE_BLOCK_BYTES ltac:(done)) as Hd. unfold reached. change CANDIDATE_BLOCK_BYTES with 131072 in *.
    destruct (N.eqb_spec (div_ceil length 131072) 0) as [E|]; lia. }
  rewrite Hr in H3, H8. assert (len body_ = length) as Hlen by (unfold body_, len in *; rewrite length_take; lia).
  split_and!; [done|exact H10| | |].
  - unfold visits. rewrite <- Hlen at 1. apply file_visits_pairs. rewrite Hlen. lia.
  - by apply (tracked_longest _ _ H8).
  - rewrite H9. unfold body. fold body_. rewrite <- Hlen at 1. apply block_newline_counts_ok.
Qed.
