(* ===== verification/Runs.v ===== *)
(** * Posting runs (crates/index/src/build/runs.rs)

    While an index is built, postings spill to sorted runs: files of records, a
    key and a posting id each, in big-endian bytes.  [merge_run_group] merges the
    runs of a group into one with a heap of their first records,
    [collapse_posting_runs] repeats that until few enough are left to be open at
    once, and [merge_posting_runs] writes the term dictionary and the postings
    from the last merge.  Temporary files are lists of bytes that can always be
    written; the heap of the standard library is a sorted list. *)

From stdpp Require Import sorting.
From S2P Require Import Prelude BitPack Bytes Postings DeltaBlocks Trigrams Eval Stream.

(** ** Records *)

Definition key_bytes (strategy : Strategy) : N := match strategy with Trigram => 3 | Sparse => 8 end.
Definition DOC_ID_BYTES : N := 4.
Definition record_bytes (strategy : Strategy) : N := key_bytes strategy + DOC_ID_BYTES.

Definition id_be_bytes (id : N) : list N := rev (le_bytes 4 id).

Definition write_posting_record (writer : list N) (strategy : Strategy) (key id : N) : list N :=
  writer ++ drop (N.to_nat (8 - key_bytes strategy)) (to_be_bytes key) ++ id_be_bytes id.

Definition read_exact_or_eof (reader : list N) (n : N) : res (option (list N) * list N) :=
  match reader with
  | [] => Ok (None, [])
  | _ =>
      if n <=? len reader then Ok (Some (take (N.to_nat n) reader), drop (N.to_nat n) reader)
      else Err "truncated temporary posting run"
  end.

Definition read_record (strategy : Strategy) (reader : list N) : res (option (N * N) * list N) :=
  '(record, reader) ← read_exact_or_eof reader (record_bytes strategy);
  match record with
  | None => Ok (None, reader)
  | Some record =>
      let key := take (N.to_nat (len record - DOC_ID_BYTES)) record in
      let id := drop (N.to_nat (len record - DOC_ID_BYTES)) record in
      Ok (Some (from_be (replicate (N.to_nat (8 - len key)) 0 ++ key), from_be id), reader)
  end.

(** ** Spilling entries *)

(** [TrigramEntrySink] *)
Record TrigramEntrySink : Type := { se_entries : list N; se_runs : list (list N) }.
Definition SINK_CAP : N := 4 * 1024 * 1024 / 8.

Definition spill (sink : TrigramEntrySink) : TrigramEntrySink :=
  match se_entries sink with
  | [] => sink
  | entries =>
      {| se_entries := [];
         se_runs := se_runs sink ++ [fold_left (fun file entry =>
           write_posting_record file Trigram (N.shiftr entry 32) (entry mod U32)) (sort_dedup entries) []] |}
  end.

Definition sink_push (sink : TrigramEntrySink) (gram id : N) : TrigramEntrySink :=
  let sink := {| se_entries := se_entries sink ++ [N.lor (N.shiftl gram 32) id]; se_runs := se_runs sink |} in
  if SINK_CAP <=? len (se_entries sink) then spill sink else sink.

Definition sink_finish (sink : TrigramEntrySink) : list (list N) := se_runs (spill sink).

(** ** Merging *)

(** The heap: [Reverse((key, id, run_idx))] pops the least first. *)
Definition entry_key (e : N * N * N) : list N := [e.1.1; e.1.2; e.2].
Definition heap_push (e : N * N * N) (heap : list (N * N * N)) : list (N * N * N) :=
  insert_sorted (fun a b => lex_leb (entry_key a) (entry_key b)) e heap.

Section merge.
Context (strategy : Strategy).

(** The first record of every run. *)
Fixpoint fill_heap (run_idx : N) (readers : list (list N)) : res (list (list N) * list (N * N * N)) :=
  match readers with
  | [] => Ok ([], [])
  | reader :: readers =>
      '(record, reader) ← read_record strategy reader;
      '(readers, heap) ← fill_heap (run_idx + 1) readers;
      Ok (reader :: readers, match record with Some (key, id) => heap_push (key, id, run_idx) heap | None => heap end)
  end.

(** [while let Some(..) = heap.pop()], around what the caller does with a
    record; every pass takes a record off its run. *)
Fixpoint merge_loop {S} (step : S -> N -> N -> res S) (fuel : nat) (readers : list (list N)) (heap : list (N * N * N)) (s : S) : res S :=
  match fuel with
  | O => Panic "out of fuel"
  | Datatypes.S fuel =>
      match heap with
      | [] => Ok s
      | (key, id, run_idx) :: heap =>
          s ← step s key id;
          reader ← expect (get readers run_idx) "index out of bounds";
          '(record, reader) ← read_record strategy reader;
          merge_loop step fuel (<[N.to_nat run_idx := reader]> readers)
            (match record with Some (key, id) => heap_push (key, id, run_idx) heap | None => heap end) s
      end
  end.

Definition merge_fuel (readers : list (list N)) : nat := (1 + list_sum (fmap (M := list) length readers))%nat.

Definition merge_runs {S} (step : S -> N -> N -> res S) (files : list (list N)) (s : S) : res S :=
  '(readers, heap) ← fill_heap 0 files;
  merge_loop step (merge_fuel files) readers heap s.

(** One record of a group: written unless it repeats the previous one. *)
Definition group_step (s : list N * option (N * N)) (key id : N) : res (list N * option (N * N)) :=
  let '(writer, previous) := s in
  if bool_decide (previous = Some (key, id)) then Ok s
  else Ok (write_posting_record writer strategy key id, Some (key, id)).

Definition merge_run_group (paths : list (list N)) : res (list N) :=
  '(writer, _) ← merge_runs group_step paths ([], None);
  Ok writer.

Definition MAX_OPEN_POSTING_RUNS : N := 64.

Definition collapse_group (group : list (list N)) : res (list N) :=
  match group with
  | [run] => Ok run
  | _ => merge_run_group group
  end.

(** Every round leaves a 64th of the runs. *)
Fixpoint collapse_loop (fuel : nat) (runs : list (list N)) : res (list (list N)) :=
  match fuel with
  | O => Panic "out of fuel"
  | S fuel =>
      if MAX_OPEN_POSTING_RUNS <? len runs then
        runs ← mapM_res collapse_group (chunks (N.to_nat MAX_OPEN_POSTING_RUNS) runs);
        collapse_loop fuel runs
      else Ok runs
  end.
Definition collapse_posting_runs (runs : list (list N)) : res (list (list N)) := collapse_loop (S (length runs)) runs.
End merge.

(** ** The last merge *)

Section build.
(** [TermBuilder::insert]: the dictionary of either strategy. *)
Context {B : Type} (insert : B -> list N -> N -> option N -> res B).

(** The dictionary, the postings written so far and their length. *)
Record Output : Type := { o_builder : B; o_postings : list N; o_offset : N }.

Definition insert_posting_file (o : Output) (strategy : Strategy) (key : N) (ids : list N) (doc_count : N) : res Output :=
  let ids := sort_dedup ids in
  let gram := drop (N.to_nat (8 - key_bytes strategy)) (to_be_bytes key) in
  match ids with
  | [] => Ok o
  | [id] =>
      value ← pack_posting id 1;
      builder ← insert (o_builder o) gram value None;
      Ok {| o_builder := builder; o_postings := o_postings o; o_offset := o_offset o |}
  | _ =>
      let block := match strategy with Sparse => encode_delta_blocks ids | Trigram => encode_posting_block ids doc_count end in
      let length_ := match strategy with Sparse => Some (len block) | Trigram => None end in
      value ← pack_posting (o_offset o) (len ids);
      builder ← insert (o_builder o) gram value length_;
      Ok {| o_builder := builder; o_postings := o_postings o ++ block; o_offset := o_offset o + len block |}
  end.

(** The loop's variables: the output, the current key and its ids. *)
Definition posting_step (strategy : Strategy) (doc_count : N) (s : Output * option N * list N) (key id : N) : res (Output * option N * list N) :=
  let '(o, current, ids) := s in
  '(o, ids) ←
    (if bool_decide (current = Some key) then Ok (o, ids)
     else match current with
          | Some current => o ← insert_posting_file o strategy current ids doc_count; Ok (o, [])
          | None => Ok (o, ids)
          end);
  Ok (o, Some key, if bool_decide (last ids = Some id) then ids else ids ++ [id]).

(** What follows the collapse of the runs. *)
Definition merge_paths (paths : list (list N)) (strategy : Strategy) (doc_count : N) (builder : B) : res Output :=
  '(o, current, ids) ← merge_runs strategy (posting_step strategy doc_count) paths
    ({| o_builder := builder; o_postings := []; o_offset := 0 |}, None, []);
  match current with
  | Some current => insert_posting_file o strategy current ids doc_count
  | None => Ok o
  end.

Definition merge_posting_runs (runs : list (list N)) (strategy : Strategy) (doc_count : N) (builder : B) : res Output :=
  paths ← collapse_posting_runs strategy runs;
  merge_paths paths strategy doc_count builder.
End build.
Arguments Output B : clear implicits.

(** ** Records can be read back *)

Definition record_of (strategy : Strategy) (r : N * N) : list N := write_posting_record [] strategy r.1 r.2.
Definition record_ok (strategy : Strategy) (r : N * N) : Prop := r.1 < 256 ^ key_bytes strategy /\ r.2 < U32.
Definition file_of (strategy : Strategy) (records : list (N * N)) : list N := concat (record_of strategy <$> records).

Lemma from_be_rev l : from_be (rev l) = from_le l.
Proof. unfold from_be. by rewrite rev_involutive. Qed.

Lemma from_le_zeros l n : from_le (l ++ replicate n 0) = from_le l.
Proof.
  induction l as [|b l IH]; cbn [app from_le]; [|by rewrite IH]. induction n as [|n IH]; cbn [replicate from_le]; [done|]. rewrite IH. lia.
Qed.
Lemma le_bytes_take n m x : take n (le_bytes (n + m) x) = le_bytes n x.
Proof. revert x. induction n as [|n IH]; intros x; cbn; [by rewrite take_0|]. by rewrite IH. Qed.

(** The low bytes of a key, in big-endian order. *)
Lemma key_suffix strategy key :
  drop (N.to_nat (8 - key_bytes strategy)) (to_be_bytes key) = rev (le_bytes (N.to_nat (key_bytes strategy)) key).
Proof.
  unfold to_be_bytes, to_le_bytes. rewrite rev_reverse, rev_reverse.
  transitivity (reverse (take (N.to_nat (key_bytes strategy)) (le_bytes 8 key))).
  - destruct strategy; cbn [key_bytes]; unfold reverse; cbn [le_bytes rev_append]; reflexivity.
  - f_equal. by destruct strategy; [apply (le_bytes_take 3 5)|apply (le_bytes_take 8 0)].
Qed.

Lemma len_record strategy r : len (record_of strategy r) = record_bytes strategy.
Proof.
  unfold record_of, write_posting_record, id_be_bytes, record_bytes. cbn [app]. rewrite key_suffix, len_app, !len_rev.
  unfold len. rewrite !le_bytes_length. unfold DOC_ID_BYTES. lia.
Qed.

Lemma read_record_of strategy r rest :
  record_ok strategy r -> read_record strategy (record_of strategy r ++ rest) = Ok (Some r, rest).
Proof.
  intros [Hk Hi]. pose proof (len_record strategy r) as Hl. unfold read_record, read_exact_or_eof.
  destruct (record_of strategy r ++ rest) as [|x l] eqn:E.
  { apply (f_equal len) in E. rewrite len_app, Hl, len_nil in E. unfold record_bytes, DOC_ID_BYTES in E. lia. }
  rewrite <- E. clear x l E. rewrite len_app, Hl. destruct (N.leb_spec (record_bytes strategy) (record_bytes strategy + len rest)); [|lia].
  cbn [mbind res_bind]. rewrite take_app_length', drop_app_length' by (unfold len in Hl; lia). rewrite Hl.
  replace (record_bytes strategy - DOC_ID_BYTES) with (key_bytes strategy) by (unfold record_bytes; lia).
  unfold record_of, write_posting_record, id_be_bytes. cbn [app]. rewrite key_suffix.
  assert (length (rev (le_bytes (N.to_nat (key_bytes strategy)) r.1)) = N.to_nat (key_bytes strategy)) as Hkl by (by rewrite length_rev, le_bytes_length).
  rewrite take_app_length', drop_app_length' by lia. do 3 f_equal. destruct r as [key id]. cbn [fst snd] in *. f_equal.
  - assert (forall n, replicate n 0 = rev (replicate n 0)) as Hrep by (intros n; rewrite rev_reverse; symmetry; apply reverse_replicate).
    rewrite Hrep, <- rev_app_distr, from_be_rev, from_le_zeros. apply from_le_bytes. by rewrite N2Nat.id.
  - rewrite from_be_rev. by apply from_le_bytes.
Qed.

Lemma read_file_cons strategy r records :
  record_ok strategy r -> read_record strategy (file_of strategy (r :: records)) = Ok (Some r, file_of strategy records).
Proof. intros Hr. unfold file_of. cbn [fmap list_fmap concat]. by apply read_record_of. Qed.
Lemma read_file_nil strategy : read_record strategy (file_of strategy []) = Ok (None, []).
Proof. done. Qed.

(** ** The order of a merge *)

Definition pair_key (r : N * N) : list N := [r.1; r.2].
Abbreviation record_le := (fun a b : N * N => lex_leb (pair_key a) (pair_key b) = true).
Definition sort_records (l : list (N * N)) : list (N * N) := sort_by_key pair_key l.

#[local] Instance record_le_antisym : AntiSymm (=) record_le.
Proof. intros [a1 a2] [b1 b2] H1 H2. by injection (lex_antisym _ _ H1 H2) as -> ->. Qed.

Lemma sort_records_perm l l' : l ≡ₚ l' -> sort_records l = sort_records l'.
Proof.
  intros Hp. apply (StronglySorted_unique record_le).
  - apply sorted_by_key.
  - apply sorted_by_key.
  - unfold sort_records, sort_by_key. by rewrite !sort_by_perm.
Qed.

Lemma sort_records_least x l : (forall y, y ∈ l -> record_le x y) -> sort_records (x :: l) = x :: sort_records l.
Proof.
  intros Hx. unfold sort_records, sort_by_key. cbn [sort_by foldr]. change (foldr _ [] l) with (sort_by (fun a b => lex_leb (pair_key a) (pair_key b)) l).
  destruct (sort_by _ l) as [|y t] eqn:E; [done|]. cbn [insert_sorted].
  assert (y ∈ l) as Hy by (apply (elem_of_sort_by (fun a b => lex_leb (pair_key a) (pair_key b))); rewrite E; left). by rewrite (Hx y Hy).
Qed.

Section merge_proofs.
Context (strategy : Strategy).

(** The records left in the runs, and the heap of their first ones. *)
Record heap_ok (rs : list (list (N * N))) (heap : list (N * N * N)) : Prop := {
  ho_sorted : StronglySorted (fun a b => lex_leb (entry_key a) (entry_key b) = true) heap;
  ho_first : forall e, e ∈ heap -> exists l, get rs e.2 = Some l /\ Forall (record_le e.1) l;
  ho_every : forall i l, get rs i = Some l -> l <> [] -> exists e, e ∈ heap /\ e.2 = i;
  ho_runs : Forall (fun l => StronglySorted record_le l /\ Forall (record_ok strategy) l) rs;
}.

Lemma heap_push_perm e heap : heap_push e heap ≡ₚ e :: heap.
Proof. apply insert_sorted_perm. Qed.
Lemma heap_push_sorted e heap :
  StronglySorted (fun a b => lex_leb (entry_key a) (entry_key b) = true) heap ->
  StronglySorted (fun a b => lex_leb (entry_key a) (entry_key b) = true) (heap_push e heap).
Proof. apply insert_sorted_sorted; [intros; apply lex_total|intros x y z; apply lex_trans]. Qed.

Lemma entry_le a b : lex_leb (entry_key a) (entry_key b) = true -> record_le a.1 b.1.
Proof.
  unfold entry_key, pair_key. intros [H|[E H]]%lex_cons; apply lex_cons; [by left|right]. split; [done|].
  apply lex_cons in H as [H|[E' H]]; apply lex_cons; [by left|by right].
Qed.

(** The top of the heap is the least of all. *)
Lemma heap_top rs e heap :
  heap_ok rs (e :: heap) -> forall r, r ∈ (fst <$> heap) ++ concat rs -> record_le e.1 r.
Proof.
  intros [Hs Hf He _] r. apply StronglySorted_inv in Hs as [_ Hs]. rewrite Forall_forall in Hs.
  assert (forall e', e' ∈ e :: heap -> record_le e.1 e'.1) as Hmin.
  { intros e' [->|He']%elem_of_cons; [by destruct (lex_total (pair_key e.1) (pair_key e.1))|by apply entry_le, Hs]. }
  intros [H|H]%elem_of_app.
  - apply list_elem_of_fmap in H as (e' & -> & He'). apply Hmin. by right.
  - apply list_elem_of_In, in_concat in H as (l & Hl & Hr). apply list_elem_of_In in Hl. apply list_elem_of_In in Hr. apply elem_get in Hl as [i Hi].
    destruct (He i l Hi) as (e' & He' & <-); [by intros ->; apply elem_of_nil in Hr|]. destruct (Hf e' He') as (l' & Hl' & Hall).
    rewrite Hi in Hl'. injection Hl' as <-. rewrite Forall_forall in Hall. eapply lex_trans; [by apply Hmin|by apply Hall].
Qed.

Lemma concat_insert (rs : list (list (N * N))) i r l : get rs i = Some (r :: l) -> concat rs ≡ₚ r :: concat (<[N.to_nat i := l]> rs).
Proof.
  unfold get. intros H. pose proof (lookup_lt_Some _ _ _ H) as Hlt. rewrite insert_take_drop by done.
  rewrite <- (take_drop_middle rs (N.to_nat i) (r :: l) H) at 1. rewrite !concat_app. cbn [concat app]. by rewrite <- Permutation_middle.
Qed.

Lemma heap_pop rs key id i heap :
  heap_ok rs ((key, id, i) :: heap) ->
  exists l, get rs i = Some l /\
    let heap' := match l with r :: _ => heap_push (r, i) heap | [] => heap end in
    heap_ok (<[N.to_nat i := tail l]> rs) heap' /\ (fst <$> heap') ++ concat (<[N.to_nat i := tail l]> rs) ≡ₚ (fst <$> heap) ++ concat rs.
Proof.
  intros [Hs Hf He Hr]. destruct (Hf _ ltac:(left)) as (l & Hl & Hall). cbn [snd fst] in Hl, Hall. exists l. split; [done|].
  apply StronglySorted_inv in Hs as [Hs _]. pose proof (get_Some_lt _ _ _ Hl) as Hlt.
  assert (forall e, e ∈ heap -> exists l', get (<[N.to_nat i := tail l]> rs) e.2 = Some l' /\ Forall (record_le e.1) l') as Hkeep.
  { intros e Hin. destruct (Hf e ltac:(by right)) as (l' & Hl' & Hall'). destruct (decide (e.2 = i)) as [E|E].
    - rewrite E in *. rewrite Hl in Hl'. injection Hl' as <-. exists (tail l). rewrite get_set_eq by done. split; [done|]. by destruct l; [|apply Forall_cons in Hall' as [_ ?]].
    - exists l'. by rewrite get_set_ne by congruence. }
  assert (Forall (fun l => StronglySorted record_le l /\ Forall (record_ok strategy) l) (<[N.to_nat i := tail l]> rs)) as Hruns.
  { apply Forall_insert; [done|]. rewrite Forall_forall in Hr. destruct (Hr l (get_elem _ _ _ Hl)) as [H1 H2].
    destruct l; [done|]. apply StronglySorted_inv in H1 as [? _]. by apply Forall_cons in H2 as [_ ?]. }
  destruct l as [|r l]; cbn [tail] in *.
  - split; [|by rewrite list_insert_id]. split; [done|done| |done]. intros j l' Hj Hne. destruct (decide (j = i)) as [->|E].
    { rewrite get_set_eq in Hj by done. by injection Hj as <-. }
    rewrite get_set_ne in Hj by congruence. destruct (He j l' Hj Hne) as (e & [->|Hin]%elem_of_cons & Ej); [by destruct E|]. eauto.
  - split.
    + split; [by apply heap_push_sorted| | |done].
      * intros e. rewrite heap_push_perm. intros [->|Hin]%elem_of_cons; [|by apply Hkeep]. cbn [snd fst]. exists l. rewrite get_set_eq by done. split; [done|].
        rewrite Forall_forall in Hr. destruct (Hr _ (get_elem _ _ _ Hl)) as [H1 _]. by apply StronglySorted_inv in H1 as [_ ?].
      * intros j l' Hj Hne. setoid_rewrite heap_push_perm. destruct (decide (j = i)) as [->|E]; [exists (r, i); split; [left|done]|].
        rewrite get_set_ne in Hj by congruence. destruct (He j l' Hj Hne) as (e & [->|Hin]%elem_of_cons & Ej); [by destruct E|].
        exists e. split; [by right|done].
    + rewrite heap_push_perm. cbn [fmap list_fmap fst app]. rewrite (concat_insert rs i r l Hl). change (list_fmap _ _ fst heap) with (fst <$> heap).
      by rewrite <- Permutation_middle.
Qed.

Lemma run_merge_ok {S} (step : S -> N -> N -> res S) fuel rs heap s :
  heap_ok rs heap -> (length heap + length (concat rs) < fuel)%nat ->
  merge_loop strategy step fuel (file_of strategy <$> rs) heap s =
    foldM (fun s r => step s r.1 r.2) s (sort_records ((fst <$> heap) ++ concat rs)).
Proof.
  revert rs heap s. induction fuel as [|fuel IH]; intros rs heap s Hok Hfuel; [lia|]. cbn [merge_loop]. destruct heap as [|[[key id] i] heap].
  - assert (concat rs = []) as ->; [|done]. apply concat_nil_Forall, Forall_forall. intros l Hl. apply elem_get in Hl as [i Hi].
    destruct l as [|r l]; [done|]. destruct (ho_every _ _ Hok i _ Hi) as (e & He%elem_of_nil & _); done.
  - change ((fst <$> (key, id, i) :: heap) ++ concat rs) with ((key, id) :: (fst <$> heap) ++ concat rs).
    rewrite (sort_records_least (key, id)) by (apply (heap_top rs (key, id, i) heap Hok)). cbn [foldM fst snd].
    destruct (step s key id) as [s'|e|w]; cbn [mbind res_bind]; [|done..].
    destruct (heap_pop _ _ _ _ _ Hok) as (l & Hl & Hok' & Hperm). cbv zeta in Hok', Hperm.
    assert (get (file_of strategy <$> rs) i = Some (file_of strategy l)) as -> by (unfold get in *; by rewrite list_lookup_fmap, Hl).
    cbn [expect mbind res_bind]. rewrite <- (sort_records_perm _ _ Hperm).
    pose proof (Permutation_length Hperm) as Hn. rewrite !length_app, !length_fmap in Hn. cbn [length] in Hfuel.
    assert (read_record strategy (file_of strategy l) = Ok (head l, file_of strategy (tail l))) as ->.
    { destruct l as [|r l]; [done|]. apply read_file_cons. pose proof (ho_runs _ _ Hok) as Hr. rewrite Forall_forall in Hr.
      destruct (Hr _ (get_elem _ _ _ Hl)) as [_ Hall]. by apply Forall_cons in Hall as [? _]. }
    cbn [mbind res_bind]. rewrite <- list_fmap_insert. rewrite <- IH; [|done|]. 2: { rewrite Hn. lia. }
    destruct l as [|[k d] l]; done.
Qed.
End merge_proofs.

Section merged.
Context (strategy : Strategy).

Definition run_ok (l : list (N * N)) : Prop := StronglySorted record_le l /\ Forall (record_ok strategy) l.

Fixpoint heads (k : N) (rs : list (list (N * N))) : list (N * N * N) :=
  match rs with
  | [] => []
  | l :: rs => match l with r :: _ => (r, k) :: heads (k + 1) rs | [] => heads (k + 1) rs end
  end.

Lemma elem_of_heads k rs e : e ∈ heads k rs <-> exists j l, get rs j = Some (e.1 :: l) /\ e.2 = k + j.
Proof.
  revert k. induction rs as [|l rs IH]; intros k; cbn [heads].
  { split; [by intros ?%elem_of_nil|]. intros (j & l & H & _). unfold get in H. by rewrite lookup_nil in H. }
  assert (e ∈ heads (k + 1) rs <-> exists j l', get rs j = Some (e.1 :: l') /\ e.2 = k + (1 + j)) as IH'.
  { rewrite IH. split; intros (j & l' & H & E); exists j, l'; (split; [done|lia]). }
  destruct l as [|r l]; [|rewrite elem_of_cons]; rewrite IH'; split.
  - intros (j & l' & H & E). exists (1 + j), l'. by rewrite get_cons_S.
  - intros (j & l' & [[-> H]|(j' & -> & H)]%get_cons_cases & E); [done|]. eauto.
  - intros [->|(j & l' & H & E)]; [exists 0, l; split; [apply get_cons_0|cbn; lia]|exists (1 + j), l'; by rewrite get_cons_S].
  - intros (j & l' & [[-> H]|(j' & -> & H)]%get_cons_cases & E); [left|right; eauto]. injection H as H _. destruct e as [e i]. cbn in *. subst. f_equal. lia.
Qed.

Lemma heads_perm k rs : (fst <$> heads k rs) ++ concat (tail <$> rs) ≡ₚ concat rs.
Proof.
  revert k. induction rs as [|l rs IH]; intros k; [done|]. cbn [heads fmap list_fmap concat]. change (list_fmap _ _ tail rs) with (tail <$> rs).
  destruct l as [|r l]; cbn [tail app fmap list_fmap fst]; [apply IH|]. change (list_fmap _ _ fst (heads (k + 1) rs)) with (fst <$> heads (k + 1) rs).
  constructor. rewrite <- (IH (k + 1)). by rewrite Permutation_app_swap_app.
Qed.

Lemma fill_heap_ok k rs :
  Forall run_ok rs ->
  exists heap, fill_heap strategy k (file_of strategy <$> rs) = Ok (file_of strategy <$> (tail <$> rs), heap) /\ heap ≡ₚ heads k rs /\
    StronglySorted (fun a b => lex_leb (entry_key a) (entry_key b) = true) heap.
Proof.
  intros Hrs. revert k. induction Hrs as [|l rs [_ Hl] Hrs IH]; intros k; cbn [fmap list_fmap fill_heap heads].
  { exists []. split_and!; [done|done|constructor]. }
  destruct (IH (k + 1)) as (heap & Hf & Hp & Hs). change (list_fmap _ _ (file_of strategy) rs) with (file_of strategy <$> rs).
  assert (read_record strategy (file_of strategy l) = Ok (head l, file_of strategy (tail l))) as ->.
  { destruct l as [|r l]; [done|]. apply read_file_cons. by apply Forall_cons in Hl as [? _]. }
  cbn [mbind res_bind]. rewrite Hf. cbn [mbind res_bind]. eexists. split; [done|]. destruct l as [|[key id] l]; cbn [head]; [done|].
  split; [rewrite heap_push_perm; by constructor|by apply heap_push_sorted].
Qed.

Lemma file_bytes l : (length l <= length (file_of strategy l))%nat.
Proof.
  induction l as [|r l IH]; [done|]. unfold file_of in *. cbn [fmap list_fmap concat length]. rewrite length_app.
  pose proof (len_record strategy r) as Hl. unfold len, record_bytes, DOC_ID_BYTES in Hl. lia.
Qed.
Lemma records_fuel rs : (length (concat rs) < merge_fuel (file_of strategy <$> rs))%nat.
Proof.
  unfold merge_fuel. induction rs as [|l rs IH]; [cbn; lia|]. cbn [fmap list_fmap concat list_sum foldr]. rewrite length_app.
  pose proof (file_bytes l). change (list_fmap _ _ length (list_fmap _ _ (file_of strategy) rs)) with (fmap (M := list) length (file_of strategy <$> rs)).
  unfold list_sum in *. lia.
Qed.

(** Merging does the caller's step for every record, in order. *)
Lemma merge_runs_ok {S} (step : S -> N -> N -> res S) rs s :
  Forall run_ok rs ->
  merge_runs strategy step (file_of strategy <$> rs) s = foldM (fun s r => step s r.1 r.2) s (sort_records (concat rs)).
Proof.
  intros Hrs. unfold merge_runs. destruct (fill_heap_ok 0 rs Hrs) as (heap & -> & Hp & Hs). cbn [mbind res_bind].
  assert ((fst <$> heap) ++ concat (tail <$> rs) ≡ₚ concat rs) as Hall by (rewrite Hp; apply heads_perm).
  rewrite run_merge_ok.
  - f_equal. by apply sort_records_perm.
  - split; [done| | |].
    + intros e. rewrite Hp, elem_of_heads. intros (j & l & Hj & E). rewrite N.add_0_l in E. subst j. exists l. split.
      * unfold get in *. by rewrite list_lookup_fmap, Hj.
      * rewrite Forall_forall in Hrs. destruct (Hrs _ (get_elem _ _ _ Hj)) as [H _]. by apply StronglySorted_inv in H as [_ ?].
    + intros i l Hi Hne. setoid_rewrite Hp. unfold get in Hi. rewrite list_lookup_fmap in Hi. apply fmap_Some in Hi as (l' & Hi & ->).
      destruct l' as [|r l']; [done|]. exists (r, i). split; [|done]. apply elem_of_heads. by exists i, l'.
    + apply Forall_fmap. eapply Forall_impl; [exact Hrs|]. intros l [H1 H2]. destruct l as [|r l]; [done|].
      split; [by apply StronglySorted_inv in H1 as [? _]|by apply Forall_cons in H2 as [_ ?]].
  - pose proof (records_fuel rs). apply Permutation_length in Hall. rewrite length_app, length_fmap in Hall. lia.
Qed.

(** ** Merging a group *)

Definition merge_records (rs : list (list (N * N))) : list (N * N) := dedup (sort_records (concat rs)).

Lemma group_fold seq writer p :
  foldM (fun s r => group_step strategy s r.1 r.2) (writer, Some p) seq =
    Ok (writer ++ file_of strategy (tail (dedup (p :: seq))), Some (List.last seq p)).
Proof.
  revert writer p. induction seq as [|r seq IH]; intros writer p; [cbn; by rewrite app_nil_r|]. cbn [foldM group_step].
  change (dedup (p :: r :: seq)) with (if decide (p = r) then dedup (r :: seq) else p :: dedup (r :: seq)). destruct r as [key id]. cbn [fst snd].
  assert (List.last ((key, id) :: seq) p = List.last seq (key, id)) as -> by (clear; revert p; destruct seq as [|x seq]; [done|]; intros p; cbn; revert x; induction seq; [done|]; intros; cbn; auto).
  destruct (decide (p = (key, id))) as [->|Hne].
  - rewrite bool_decide_eq_true_2 by done. cbn [mbind res_bind]. apply IH.
  - rewrite bool_decide_eq_false_2 by congruence. cbn [mbind res_bind]. rewrite IH. cbn [tail]. do 2 f_equal.
    destruct (dedup_head (key, id) seq) as [t ->]. cbn [tail]. unfold file_of. cbn [fmap list_fmap concat].
    unfold record_of, write_posting_record. cbn [app fst snd]. by rewrite <- !app_assoc.
Qed.

Lemma merge_run_group_ok rs : Forall run_ok rs -> merge_run_group strategy (file_of strategy <$> rs) = Ok (file_of strategy (merge_records rs)).
Proof.
  intros Hrs. unfold merge_run_group. rewrite merge_runs_ok by done. unfold merge_records.
  destruct (sort_records (concat rs)) as [|[key id] seq]; [done|]. cbn [foldM group_step fst snd]. rewrite bool_decide_eq_false_2 by done.
  cbn [mbind res_bind]. rewrite group_fold. cbn [mbind res_bind]. f_equal. destruct (dedup_head (key, id) seq) as [t ->]. done.
Qed.
End merged.

(** ** Rounds of merging *)

Lemma merge_records_ascending rs : StronglySorted (fun a b => lex_lt (pair_key a) (pair_key b)) (merge_records rs).
Proof.
  unfold merge_records. apply (dedup_strict record_le); [| |apply sorted_by_key].
  - intros [a1 a2] [b1 b2] H Hne. split; [done|]. intros [= -> ->]. done.
  - intros x y z [H1 Hne] H2. split; [by eapply lex_trans|]. intros E. apply Hne, lex_antisym; [done|]. by rewrite E.
Qed.
Lemma elem_of_merge_records rs r : r ∈ merge_records rs <-> r ∈ concat rs.
Proof. unfold merge_records, sort_records, sort_by_key. by rewrite elem_of_dedup, elem_of_sort_by. Qed.
Lemma merge_records_ok strategy rs : Forall (run_ok strategy) rs -> run_ok strategy (merge_records rs).
Proof.
  intros Hrs. split.
  - pose proof (merge_records_ascending rs) as H. induction H as [|x l Hl IH Hx]; constructor; [done|]. eapply Forall_impl; [exact Hx|]. by intros y [? _].
  - apply Forall_forall. intros r. rewrite elem_of_merge_records. intros H. apply list_elem_of_In, in_concat in H as (l & Hl & Hr).
    apply list_elem_of_In in Hl. apply list_elem_of_In in Hr. rewrite Forall_forall in Hrs. destruct (Hrs l Hl) as [_ Hall]. rewrite Forall_forall in Hall. by apply Hall.
Qed.

Definition collapse_records (group : list (list (N * N))) : list (N * N) := match group with [run] => run | _ => merge_records group end.

Lemma chunks_fuel_fmap {A B} (f : A -> B) fuel k (l : list A) :
  chunks_fuel fuel k (f <$> l) = (fun c : list A => f <$> c) <$> chunks_fuel fuel k l.
Proof.
  revert l. induction fuel as [|fuel IH]; intros l; [done|]. destruct l as [|x l]; [done|].
  rewrite fmap_cons. cbn [chunks_fuel]. rewrite <- (fmap_cons f), <- fmap_take, <- fmap_drop, IH. done.
Qed.
Lemma chunks_fmap {A B} (f : A -> B) k (l : list A) : chunks k (f <$> l) = (fun c : list A => f <$> c) <$> chunks k l.
Proof. unfold chunks. by rewrite length_fmap, chunks_fuel_fmap. Qed.

Lemma chunks_fuel_length {A} fuel k (l : list A) : (length (chunks_fuel fuel k l) <= fuel)%nat.
Proof. revert l. induction fuel as [|fuel IH]; intros [|x l]; cbn; [lia..|]. specialize (IH (drop k (x :: l))). lia. Qed.
Lemma chunks_shrink {A} k (l : list A) : (1 < k)%nat -> (k < length l)%nat -> (length (chunks k l) < length l)%nat.
Proof.
  intros Hk Hl. rewrite chunks_unfold by (try lia; intros ->; cbn in Hl; lia). cbn [length]. pose proof (chunks_fuel_length (length (drop k l)) k (drop k l)) as H.
  fold (chunks k (drop k l)) in H. rewrite length_drop in H. lia.
Qed.

Section collapse.
Context (strategy : Strategy).

Lemma collapse_group_ok group :
  Forall (run_ok strategy) group ->
  collapse_group strategy (file_of strategy <$> group) = Ok (file_of strategy (collapse_records group)) /\
  run_ok strategy (collapse_records group) /\ forall r, r ∈ collapse_records group <-> r ∈ concat group.
Proof.
  intros Hg. assert (merge_run_group strategy (file_of strategy <$> group) = Ok (file_of strategy (merge_records group)) /\
    run_ok strategy (merge_records group) /\ forall r, r ∈ merge_records group <-> r ∈ concat group) as Hmerge.
  { split; [by apply merge_run_group_ok|]. split; [by apply merge_records_ok|apply elem_of_merge_records]. }
  destruct group as [|run [|run2 group]]; [exact Hmerge| |exact Hmerge]. apply Forall_cons in Hg as [Hr _].
  cbn [collapse_group collapse_records fmap list_fmap concat]. split; [done|]. split; [done|]. intros r. by rewrite app_nil_r.
Qed.

Lemma collapse_groups_ok groups :
  Forall (Forall (run_ok strategy)) groups ->
  mapM_res (collapse_group strategy) ((fun group : list (list (N * N)) => file_of strategy <$> group) <$> groups) = Ok (file_of strategy <$> (collapse_records <$> groups)) /\
  Forall (run_ok strategy) (collapse_records <$> groups) /\
  forall r, r ∈ concat (collapse_records <$> groups) <-> r ∈ concat (concat groups).
Proof.
  induction 1 as [|group groups Hg Hgs IH]; [split; [done|split; [constructor|done]]|]. destruct IH as (E & H1 & H2).
  destruct (collapse_group_ok group Hg) as (Eg & G1 & G2). cbn [fmap list_fmap mapM_res]. rewrite Eg. cbn [mbind res_bind].
  change (list_fmap _ _ _ groups) with ((fun group : list (list (N * N)) => file_of strategy <$> group) <$> groups). rewrite E. cbn [mbind res_bind].
  split; [done|]. split; [by constructor|]. intros r. cbn [concat]. rewrite concat_app, !elem_of_app, G2. by rewrite <- H2.
Qed.

Lemma collapse_loop_ok fuel rs :
  (length rs < fuel)%nat -> Forall (run_ok strategy) rs ->
  exists rs', collapse_loop strategy fuel (file_of strategy <$> rs) = Ok (file_of strategy <$> rs') /\ len rs' <= MAX_OPEN_POSTING_RUNS /\
    Forall (run_ok strategy) rs' /\ forall r, r ∈ concat rs' <-> r ∈ concat rs.
Proof.
  revert rs. induction fuel as [|fuel IH]; intros rs Hfuel Hrs; [lia|]. cbn [collapse_loop]. rewrite len_fmap.
  destruct (N.ltb_spec MAX_OPEN_POSTING_RUNS (len rs)) as [Hlt|Hle]; [|by exists rs].
  unfold MAX_OPEN_POSTING_RUNS in Hlt. change (N.to_nat MAX_OPEN_POSTING_RUNS) with 64%nat. rewrite chunks_fmap.
  assert (Forall (Forall (run_ok strategy)) (chunks 64 rs)) as Hgroups.
  { apply Forall_forall. intros g Hg. rewrite Forall_forall in Hrs |- *. intros l Hl. apply Hrs. rewrite <- (concat_chunks 64 rs) by lia.
    apply list_elem_of_In, in_concat. exists g. by rewrite <- !list_elem_of_In. }
  destruct (collapse_groups_ok (chunks 64 rs) Hgroups) as (-> & H1 & H2). cbn [mbind res_bind].
  destruct (IH (collapse_records <$> chunks 64 rs)) as (rs' & E & Hlen & Hok & Hall); [|done|].
  { rewrite length_fmap. pose proof (chunks_shrink 64 rs ltac:(lia) ltac:(unfold len in Hlt; lia)). lia. }
  exists rs'. split; [done|]. split; [done|]. split; [done|]. intros r. rewrite Hall, H2, concat_chunks by lia. done.
Qed.
End collapse.

(** ** Grouping by key *)

Definition push_id (ids : list N) (id : N) : list N := if bool_decide (last ids = Some id) then ids else ids ++ [id].

(** The ids of the current key, and the keys still to come. *)
Fixpoint groups_from (key : N) (ids : list N) (seq : list (N * N)) : list (N * list N) :=
  match seq with
  | [] => [(key, ids)]
  | (k, id) :: seq => if k =? key then groups_from key (push_id ids id) seq else (key, ids) :: groups_from k [id] seq
  end.
Definition key_groups (seq : list (N * N)) : list (N * list N) :=
  match seq with [] => [] | (key, id) :: seq => groups_from key [id] seq end.

(** The keys with their ids: both ascending, as many ids as records differ. *)
Record groups_ok (has : N -> N -> Prop) (groups : list (N * list N)) : Prop := {
  gr_keys : ascending groups.*1;
  gr_ids : Forall (fun g => ascending g.2 /\ g.2 <> []) groups;
  gr_has : forall key id, has key id <-> exists ids, (key, ids) ∈ groups /\ id ∈ ids;
}.

Lemma ascending_singleton x : ascending [x].
Proof. constructor; constructor. Qed.

Lemma push_id_ok ids id x :
  ascending ids -> last ids = Some x -> x <= id ->
  ascending (push_id ids id) /\ last (push_id ids id) = Some id /\ forall i, i ∈ push_id ids id <-> i ∈ ids \/ i = id.
Proof.
  intros Ha Hl Hle. unfold push_id. case_bool_decide as E.
  - split_and!; [done|done|]. intros i. split; [by left|]. intros [?| ->]; [done|]. apply last_Some in E as [l ->]. apply elem_of_app. right. left.
  - split_and!.
    + apply ascending_snoc; [done|]. intros y Hy. rewrite Hl in Hy. injection Hy as <-. assert (x <> id) by congruence. lia.
    + by rewrite last_snoc.
    + intros i. by rewrite elem_of_app, list_elem_of_singleton.
Qed.

Lemma groups_from_ok key ids x seq :
  ascending ids -> last ids = Some x -> StronglySorted record_le ((key, x) :: seq) ->
  groups_ok (fun k id => k = key /\ id ∈ ids \/ (k, id) ∈ seq) (groups_from key ids seq) /\ Forall (fun g => key <= g.1) (groups_from key ids seq).
Proof.
  revert key ids x. induction seq as [|[k id] seq IH]; intros key ids x Ha Hl Hs; cbn [groups_from].
  { split; [|by constructor]. split; [by apply ascending_singleton|apply Forall_singleton; split; [done|by intros E; cbn in E; rewrite E in Hl]|].
    intros k id. split; [intros [[-> H]|?%elem_of_nil]; [|done]; exists ids; split; [left|done]|].
    intros (ids' & E%list_elem_of_singleton & H). injection E as -> ->. by left. }
  apply StronglySorted_inv in Hs as [Hs Hx]. apply Forall_cons in Hx as [Hxk Hx]. apply lex_cons in Hxk.
  destruct (N.eqb_spec k key) as [->|Hne].
  - assert (x <= id) as Hle by (destruct Hxk as [H|[_ [H|[H _]]%lex_cons]]; cbn in H; lia).
    destruct (push_id_ok ids id x Ha Hl Hle) as (P1 & P2 & P3). destruct (IH key (push_id ids id) id P1 P2 Hs) as [[H1 H2 H3] H4].
    split; [|done]. split; [done|done|]. intros k' id'. rewrite <- H3, elem_of_cons, P3. split; [|intuition congruence].
    intros [[-> H]|[[= -> ->]|H]]; auto.
  - assert (key < k) as Hlt by (destruct Hxk as [H|[H _]]; [exact H|cbn in H; lia]).
    destruct (IH k [id] id (ascending_singleton _) eq_refl Hs) as [[H1 H2 H3] H4]. split.
    + split.
      * cbn [fmap list_fmap fst]. constructor; [exact H1|]. rewrite Forall_fmap. eapply Forall_impl; [exact H4|]. intros g Hg. cbn in *. lia.
      * constructor; [split; [done|by intros E; cbn in E; rewrite E in Hl]|done].
      * intros k' id'. setoid_rewrite elem_of_cons. split.
        -- intros [[-> H]|[[= -> ->]|H]]; [exists ids; split; [by left|done]| |].
           ++ destruct (proj1 (H3 k id)) as (ids' & Hg & Hid); [left; split; [done|left]|]. exists ids'. split; [by right|done].
           ++ destruct (proj1 (H3 k' id')) as (ids' & Hg & Hid); [by right|]. exists ids'. split; [by right|done].
        -- intros (ids' & [[= -> ->]|Hg] & Hid); [by left|]. right.
           destruct (proj2 (H3 k' id')) as [[-> Hin%list_elem_of_singleton]|H]; [eauto|left; by subst|by right].
    + constructor; [done|]. eapply Forall_impl; [exact H4|]. intros g Hg. cbn in *. lia.
Qed.

Lemma key_groups_ok seq : StronglySorted record_le seq -> groups_ok (fun k id => (k, id) ∈ seq) (key_groups seq).
Proof.
  intros Hs. destruct seq as [|[key id] seq]; cbn [key_groups].
  { split; [constructor|constructor|]. intros k id. split; [by intros ?%elem_of_nil|by intros (ids & ?%elem_of_nil & _)]. }
  destruct (groups_from_ok key [id] id seq (ascending_singleton _) eq_refl Hs) as [[H1 H2 H3] _]. split; [done|done|].
  intros k i. rewrite <- H3, elem_of_cons, list_elem_of_singleton. split; [intros [[= -> ->]|]; tauto|]. intros [[-> ->]|]; tauto.
Qed.

(** ** The last merge *)

Lemma sort_dedup_id ids : ascending ids -> sort_dedup ids = ids.
Proof. intros H. apply ascending_ext; [apply sort_dedup_ascending|done|]. intros x. apply elem_of_sort_dedup. Qed.

Lemma take_drop_mid {A} (a b c : list A) n m : n = length a -> m = length b -> take m (drop n (a ++ b ++ c)) = b.
Proof. intros -> ->. by rewrite drop_app_length, take_app_length. Qed.

Section output.
Context {B : Type} (insert : B -> list N -> N -> option N -> res B) (strategy : Strategy) (doc_count : N).
Implicit Types (o : Output B) (g : N * list N) (e : list N * N * option N).

(** The block of a list of ids that has one. *)
Definition block_of (ids : list N) : list N :=
  match ids with
  | [_] => []
  | _ => match strategy with Sparse => encode_delta_blocks ids | Trigram => encode_posting_block ids doc_count end
  end.
Definition blocks_of (groups : list (N * list N)) : list N := concat (block_of <$> groups.*2).

(** What an entry of the dictionary says of a key and its ids: the key's bytes,
    and where the ids are, the single one in the entry itself. *)
Definition entry_ok (postings : list N) (g : N * list N) (e : list N * N * option N) : Prop :=
  e.1.1 = rev (le_bytes (N.to_nat (key_bytes strategy)) g.1) /\
  exists offset, unpack_posting e.1.2 = (offset, len g.2) /\
    match g.2 with
    | [id] => offset = id /\ e.2 = None
    | ids =>
        let n := default (posting_block_len (len ids) doc_count) e.2 in
        offset + n <= len postings /\
        let bytes := take (N.to_nat n) (drop (N.to_nat offset) postings) in
        match strategy with
        | Trigram => e.2 = None /\ decode_posting_block bytes (len ids) doc_count = Ok ids
        | Sparse => is_Some e.2 /\ decode_delta_blocks bytes (len ids) doc_count = Ok ids
        end
    end.

Definition group_valid (g : N * list N) : Prop := valid_ids doc_count g.2 /\ g.2 <> [].

(** The dictionary may refuse an entry; the format has limits. *)
Definition refused : Prop := exists b gram value n, forall b', insert b gram value n <> Ok b'.
Definition too_large (groups : list (N * list N)) : Prop :=
  2 ^ 40 <= len (blocks_of groups) \/ exists g, g ∈ groups /\ 2 ^ 24 <= len g.2.

Lemma entry_ok_app postings rest g e : entry_ok postings g e -> entry_ok (postings ++ rest) g e.
Proof.
  intros (Hk & offset & Hu & H). split; [done|]. exists offset. split; [done|]. destruct (g.2) as [|a [|b ids]] eqn:E; [|done|];
    cbv zeta in *; destruct H as (Hb & H); split.
  all: try (rewrite len_app; lia).
  all: rewrite drop_app_le by (unfold len in Hb; lia); rewrite take_app_le; [done|rewrite length_drop; unfold len in *; lia].
Qed.

Lemma pack_posting_cases offset count :
  (exists value, pack_posting offset count = Ok value /\ unpack_posting value = (offset, count) /\ value < U64) \/
  ((forall v, pack_posting offset count <> Ok v) /\ (2 ^ 40 <= offset \/ 2 ^ 24 <= count)).
Proof.
  unfold pack_posting. change (N.shiftl 1 OFFSET_BITS) with (2 ^ 40). change (N.shiftl 1 COUNT_BITS) with (2 ^ 24).
  destruct (N.ltb_spec offset (2 ^ 40)) as [Ho|Ho]; [|right; split; [done|by left]].
  destruct (N.ltb_spec count (2 ^ 24)) as [Hc|Hc]; [|right; split; [done|by right]].
  left. eexists. split; [done|]. by apply unpack_pack_posting.
Qed.

Lemma insert_posting_file_ok o g :
  doc_count < U32 -> group_valid g -> o_offset o = len (o_postings o) ->
  match insert_posting_file insert o strategy g.1 g.2 doc_count with
  | Ok o' => exists e, insert (o_builder o) e.1.1 e.1.2 e.2 = Ok (o_builder o') /\ e.1.2 < U64 /\ entry_ok (o_postings o') g e /\
      o_postings o' = o_postings o ++ block_of g.2 /\ o_offset o' = len (o_postings o')
  | _ => refused \/ 2 ^ 40 <= o_offset o \/ 2 ^ 24 <= len g.2
  end.
Proof.
  intros Hdc [[Ha Hb] Hne] Ho. unfold insert_posting_file. rewrite sort_dedup_id, key_suffix by done.
  destruct g as [key ids]. cbn [fst snd] in *. destruct ids as [|id ids]; [done|]. destruct ids as [|id2 ids].
  - apply Forall_cons in Hb as [Hb _]. destruct (pack_posting_cases id 1) as [(value & -> & Hu & Hlt)|[_ [H|H]]]; [|lia..].
    cbn [mbind res_bind]. destruct (insert _ _ _ _) as [b|?|?] eqn:E; cbn [mbind res_bind].
    2-3: left; do 4 eexists; by rewrite E.
    eexists (_, value, None). cbn [fst snd o_postings o_builder o_offset block_of]. split_and!; [exact E|exact Hlt| |by rewrite app_nil_r|done].
    split; [done|]. exists id. by split.
  - pose proof (conj Ha Hb : valid_ids doc_count (id :: id2 :: ids)) as Hv.
    destruct (pack_posting_cases (o_offset o) (len (id :: id2 :: ids))) as [(value & -> & Hu & Hlt)|[Hno H]].
    2: { destruct (pack_posting _ _) as [v| |]; [by destruct (Hno v)|..]; cbn [mbind res_bind]; by right. }
    cbn [mbind res_bind]. destruct (insert _ _ _ _) as [b|?|?] eqn:E; cbn [mbind res_bind].
    2-3: left; do 4 eexists; by rewrite E.
    eexists (_, value, _). cbn [fst snd o_postings o_builder o_offset block_of]. split_and!; [exact E|exact Hlt| |done|rewrite len_app; lia].
    split; [done|]. exists (o_offset o). split; [done|]. cbn [fst snd]. destruct strategy; cbn [default].
    + destruct (encoded_block_decodes _ _ Hv Hdc) as [Hl Hd]. rewrite <- Hl. split; [rewrite len_app; lia|]. split; [done|].
      rewrite drop_app_length', take_ge by (unfold len in *; lia). done.
    + split; [rewrite len_app; unfold Datatypes.id; lia|]. split; [done|]. unfold Datatypes.id. rewrite drop_app_length', take_ge by (unfold len in *; lia).
      by apply encoded_deltas_decode.
Qed.

Lemma insert_groups_ok groups o :
  doc_count < U32 -> Forall group_valid groups -> o_offset o = len (o_postings o) ->
  match foldM (fun o g => insert_posting_file insert o strategy g.1 g.2 doc_count) o groups with
  | Ok o' => exists entries, foldM (fun b e => insert b e.1.1 e.1.2 e.2) (o_builder o) entries = Ok (o_builder o') /\
      Forall (fun e => e.1.2 < U64) entries /\
      Forall2 (entry_ok (o_postings o')) groups entries /\ o_postings o' = o_postings o ++ blocks_of groups /\ o_offset o' = len (o_postings o')
  | _ => refused \/ 2 ^ 40 <= o_offset o + len (blocks_of groups) \/ exists g, g ∈ groups /\ 2 ^ 24 <= len g.2
  end.
Proof.
  intros Hdc Hg. revert o. induction Hg as [|g groups Hg Hgs IH]; intros o Ho; cbn [foldM].
  { exists []. cbn [foldM]. split_and!; [done|constructor|constructor|by rewrite app_nil_r|done]. }
  pose proof (insert_posting_file_ok o g Hdc Hg Ho) as H1. unfold blocks_of. cbn [fmap list_fmap concat]. fold (blocks_of groups).
  destruct (insert_posting_file _ _ _ _ _ _) as [o1|?|?]; cbn [mbind res_bind].
  2-3: destruct H1 as [H|[H|H]]; [by left|right; left; lia|right; right; exists g; split; [left|done]].
  destruct H1 as (e & Hi & Hlt & He & Hp & Hl). specialize (IH o1 Hl). destruct (foldM _ o1 groups) as [o2|?|?].
  2-3: rewrite len_app; destruct IH as [H|[H|(g' & Hin & H)]];
    [by left|right; left; rewrite Hl, Hp, len_app in H; lia|right; right; exists g'; split; [by right|done]].
  destruct IH as (entries & Hf & Hlts & Hes & Hp2 & Hl2). exists (e :: entries). cbn [foldM]. rewrite Hi. cbn [mbind res_bind].
  split_and!; [done|by constructor|constructor; [|done]|rewrite Hp2, Hp; by rewrite <- app_assoc|done]. rewrite Hp2. by apply entry_ok_app.
Qed.

Lemma posting_fold seq o key ids :
  ('(o, current, ids) ← foldM (fun s r => posting_step insert strategy doc_count s r.1 r.2) (o, Some key, ids) seq;
   match current with Some current => insert_posting_file insert o strategy current ids doc_count | None => Ok o end) =
  foldM (fun o g => insert_posting_file insert o strategy g.1 g.2 doc_count) o (groups_from key ids seq).
Proof.
  revert o key ids. induction seq as [|[k id] seq IH]; intros o key ids; cbn [foldM groups_from posting_step fst snd].
  { cbn [mbind res_bind]. by destruct (insert_posting_file _ _ _ _ _ _). }
  destruct (N.eqb_spec k key) as [->|Hne].
  - rewrite bool_decide_eq_true_2 by done. cbn [mbind res_bind]. apply IH.
  - rewrite bool_decide_eq_false_2 by congruence. cbn [foldM fst snd].
    destruct (insert_posting_file _ _ _ _ _ _) as [o1|?|?]; cbn [mbind res_bind]; [|done..]. apply IH.
Qed.

Lemma merge_paths_groups builder rs :
  doc_count < U32 -> Forall (run_ok strategy) rs -> (forall r, r ∈ concat rs -> r.2 < doc_count) ->
  exists groups, groups_ok (fun key id => (key, id) ∈ concat rs) groups /\ Forall group_valid groups /\
    merge_paths insert (file_of strategy <$> rs) strategy doc_count builder =
    foldM (fun o g => insert_posting_file insert o strategy g.1 g.2 doc_count) {| o_builder := builder; o_postings := []; o_offset := 0 |} groups.
Proof.
  intros Hdc Hrs Hids. unfold merge_paths. rewrite merge_runs_ok by done. set (seq := sort_records (concat rs)).
  assert (forall r, r ∈ seq <-> r ∈ concat rs) as Hseq by (intros r; apply elem_of_sort_by).
  assert (groups_ok (fun key id => (key, id) ∈ concat rs) (key_groups seq)) as Hgr.
  { destruct (key_groups_ok seq (sorted_by_key _ _)) as [H1 H2 H3]. split; [done|done|]. intros key id. by rewrite <- Hseq, H3. }
  exists (key_groups seq). split; [done|]. split.
  { destruct Hgr as [_ H2 H3]. rewrite Forall_forall in H2 |- *. intros [key ids] Hin. destruct (H2 _ Hin) as [Ha Hne].
    split; [|done]. split; [done|]. apply Forall_forall. intros id Hid. apply (Hids (key, id)), H3. by exists ids. }
  clearbody seq. destruct seq as [|[key id] seq]; cbn [foldM key_groups]; [done|].
  cbn [posting_step fst snd]. rewrite bool_decide_eq_false_2 by done. cbn [mbind res_bind]. rewrite bool_decide_eq_false_2 by done.
  cbn [app]. apply posting_fold.
Qed.

Lemma collapse_runs_ok rs : Forall (run_ok strategy) rs ->
  exists rs', collapse_posting_runs strategy (file_of strategy <$> rs) = Ok (file_of strategy <$> rs') /\ Forall (run_ok strategy) rs' /\ forall r, r ∈ concat rs' <-> r ∈ concat rs.
Proof.
  intros Hrs. unfold collapse_posting_runs. rewrite length_fmap. destruct (collapse_loop_ok strategy (S (length rs)) rs ltac:(lia) Hrs) as (rs' & -> & _ & Hrs' & Hall).
  by exists rs'.
Qed.
End output.

(** ** Property *)

(** C18: merging posting runs indexes exactly their records.  Given any number of
    sorted runs, the last merge inserts one entry per key, in ascending order of
    the keys; its entry says how many distinct ids the runs have for the key and
    leads to them: the single id itself, or a block of the postings that decodes
    to those ids.  Merging fails only when the dictionary refuses an entry, or
    when an offset or a count exceeds what an entry can hold. *)
Theorem merge_posting_runs_exact {B} (insert : B -> list N -> N -> option N -> res B) strategy doc_count builder rs :
  doc_count < U32 -> Forall (run_ok strategy) rs -> (forall r, r ∈ concat rs -> r.2 < doc_count) ->
  exists groups, groups_ok (fun key id => (key, id) ∈ concat rs) groups /\
    match merge_posting_runs insert (file_of strategy <$> rs) strategy doc_count builder with
    | Ok o => exists entries,
        foldM (fun b e => insert b e.1.1 e.1.2 e.2) builder entries = Ok (o_builder o) /\
        Forall2 (entry_ok strategy doc_count (o_postings o)) groups entries /\
        o_postings o = blocks_of strategy doc_count groups /\ o_offset o = len (o_postings o)
    | _ => refused insert \/ too_large strategy doc_count groups
    end.
Proof.
  intros Hdc Hrs Hids. unfold merge_posting_runs. destruct (collapse_runs_ok strategy rs Hrs) as (rs' & -> & Hrs' & Hall). cbn [mbind res_bind].
  destruct (merge_paths_groups insert strategy doc_count builder rs') as (groups & [H1 H2 H3] & Hv & ->); [done|done|intros r Hr; apply Hids; by apply Hall|].
  exists groups. split; [split; [done|done|intros key id; by rewrite <- Hall]|].
  pose proof (insert_groups_ok insert strategy doc_count groups {| o_builder := builder; o_postings := []; o_offset := 0 |} Hdc Hv eq_refl) as Hend.
  destruct (foldM _ _ groups) as [o|?|?]; [destruct Hend as (entries & H & _ & H'); by exists entries|..]; unfold too_large; cbn in Hend; tauto.
Qed.

Lemma merge_posting_runs_exact_witness :
  let insert (b : list (list N * N * option N)) (gram : list N) (value : N) (n : option N) := Ok (b ++ [(gram, value, n)]) in
  exists groups, groups_ok (fun key id => (key, id) ∈ [(1, 2); (1, 4); (7, 3); (1, 0); (1, 4)]) groups /\
    match merge_posting_runs insert (file_of Trigram <$> [[(1, 2); (1, 4); (7, 3)]; [(1, 0); (1, 4)]]) Trigram 10 [] with
    | Ok o => exists entries,
        foldM (fun b e => insert b e.1.1 e.1.2 e.2) [] entries = Ok (o_builder o) /\
        Forall2 (entry_ok Trigram 10 (o_postings o)) groups entries /\
        o_postings o = blocks_of Trigram 10 groups /\ o_offset o = len (o_postings o)
    | _ => refused insert \/ too_large Trigram 10 groups
    end.
Proof.
  intros insert. apply (merge_posting_runs_exact insert Trigram 10 [] [[(1, 2); (1, 4); (7, 3)]; [(1, 0); (1, 4)]]).
  - done.
  - repeat constructor.
  - apply Forall_forall. repeat constructor.
Defined.
