(* ===== verification/RunWriter.v ===== *)
(** * Writing posting runs (crates/index/src/build/runs.rs)

    [write_posting_runs] turns the grams of decoded documents into sorted runs
    of [(gram, id)] records.  A trigram index posts candidate blocks: the blocks
    of a document start at its base.  A sparse index posts documents: a
    [SparseRunWriter] gathers the hashes of a document's grams, skipping those it
    has just seen, and writes a run whenever they fill its budget.  Whichever way
    a document reaches the writer, in memory, in a file or in the spool, its
    records are those of its bytes. *)

From S2P Require Import Prelude BitPack Bytes Trigrams SparseGrams PackBuild PackBatch PackLines Stream FileGrams Runs.

(** [IndexedGrams]; a file is what it holds. *)
Inductive IndexedGrams : Type :=
  | GTrigram (grams : list N)
  | GTrigramBitmap (bitmap : list N)
  | GTrigramBlocks (pairs : list (N * N))
  | GTrigramBlocksFile (file : list N) (length_ : N)
  | GSparse (text : list N)
  | GSparseFile (file : list N)
  | GSparsePath (file : list N)
  | GTrigramSpool (offset length_ : N)
  | GSparseSpool (offset length_ : N).

Record GrammedDoc : Type := { gd_doc_id : N; gd_base : N; gd_grams : IndexedGrams }.

(** What a deferred document reports: its id, its longest line and the newlines
    of its blocks. *)
Definition max_line : Type := N * N * list N.

(** ** Trigrams *)

Section trigram.
Context (radsort : list N -> list N).

Definition block_id (base block : N) : res N :=
  with_context (checked_add U32 base block) "segment exceeds the candidate block id space".

Definition push_pair (base : N) (sink : TrigramEntrySink) (pair : N * N) : res TrigramEntrySink :=
  id ← block_id base pair.1; Ok (sink_push sink pair.2 id).
Definition push_window (base : N) (sink : TrigramEntrySink) (block : N) (grams : list N) : res TrigramEntrySink :=
  id ← block_id base block; Ok (fold_left (fun sink gram => sink_push sink gram id) grams sink).

Definition visit_body (doc : GrammedDoc) (file : list N) (start length_ : N) (s : TrigramEntrySink * list max_line)
    : res (TrigramEntrySink * list max_line) :=
  '(sink, (longest, newlines)) ← visit_file_trigram_blocks radsort (push_window (gd_base doc)) file start length_ s.1;
  Ok (sink, s.2 ++ [(gd_doc_id doc, longest, newlines)]).

Definition block_runs_step (spool : option (list N)) (s : TrigramEntrySink * list max_line) (doc : GrammedDoc)
    : res (TrigramEntrySink * list max_line) :=
  match gd_grams doc with
  | GTrigramBlocks pairs => sink ← foldM (push_pair (gd_base doc)) s.1 pairs; Ok (sink, s.2)
  | GTrigramBlocksFile file length_ => visit_body doc file 0 length_ s
  | GTrigramSpool offset length_ =>
      file ← with_context spool "spooled grams have no content spool";
      visit_body doc file offset length_ s
  | _ => Err "non-block gram variant in a trigram block build"
  end.

Definition write_trigram_block_runs (grammed : list GrammedDoc) (spool : option (list N)) : res (list (list N) * list max_line) :=
  '(sink, max_lines) ← foldM (block_runs_step spool) ({| se_entries := []; se_runs := [] |}, []) grammed;
  Ok (sink_finish sink, max_lines).
End trigram.

(** ** Sparse grams *)

(** [SparseFileReader] *)
Record SparseFileReader : Type := { sr_file : list N; sr_base : N; sr_len : N; sr_chunk_start : N; sr_chunk : list N }.
Definition SPARSE_FILE_CHUNK : N := 1024 * 1024.
Definition SPARSE_TRIGRAM_BITMAP_MIN : N := 512 * 1024.

Definition open_range (file : list N) (start length_ : N) : res SparseFileReader :=
  end_ ← with_context (checked_add U64 start length_) "sparse gram file range overflows";
  ensure (end_ <=? len file) "sparse gram file range is out of bounds";;
  Ok {| sr_file := file; sr_base := start; sr_len := length_; sr_chunk_start := 0; sr_chunk := [] |}.
Definition open_file (file : list N) : res SparseFileReader := open_range file 0 (len file).

Definition file_offset (r : SparseFileReader) (index : N) : res N :=
  with_context (checked_add U64 (sr_base r) index) "sparse gram file offset overflows".

(** [read_exact_at] *)
Definition read_exact_at (file : list N) (count offset : N) : res (list N) :=
  with_context (get_range file offset (offset + count)) "failed to fill whole buffer".

Definition load_chunk (r : SparseFileReader) (index : N) : res SparseFileReader :=
  ensure (index <? sr_len r) "sparse gram byte is out of bounds";;
  let start := index / SPARSE_FILE_CHUNK * SPARSE_FILE_CHUNK in
  offset ← file_offset r start;
  chunk ← read_exact_at (sr_file r) (N.min (sr_len r - start) SPARSE_FILE_CHUNK) offset;
  Ok {| sr_file := sr_file r; sr_base := sr_base r; sr_len := sr_len r; sr_chunk_start := start; sr_chunk := chunk |}.

Definition read_byte (r : SparseFileReader) (index : N) : res (N * SparseFileReader) :=
  let chunk_end := sr_chunk_start r + len (sr_chunk r) in
  r ← (if (index <? sr_chunk_start r) || (chunk_end <=? index) then load_chunk r index else Ok r);
  byte ← expect (get (sr_chunk r) (index - sr_chunk_start r)) "index out of bounds";
  Ok (byte, r).

Definition read_bytes (r : SparseFileReader) (a b : N) : res (list N) :=
  ensure (b <=? sr_len r) "sparse gram range is out of bounds";;
  chunk_end ← with_context (checked_add U64 (sr_chunk_start r) (len (sr_chunk r))) "sparse file chunk range overflows";
  if (sr_chunk_start r <=? a) && (b <=? chunk_end) then
    expect (get_range (sr_chunk r) (a - sr_chunk_start r) (b - sr_chunk_start r)) "range out of bounds"
  else
    offset ← file_offset r a;
    read_exact_at (sr_file r) (b - a) offset.

(** [[0u64; (1 << bits) / 64]] *)
Definition empty_words (bits : N) : list N := replicate (N.to_nat (2 ^ bits / 64)) 0.

(** [mark_short_gram]: whether the bit was set, and the bitmap with it. *)
Definition mark_short_gram (bitmap : list N) (gram : N) : res (bool * list N) :=
  word ← expect (get bitmap (gram / 64)) "index out of bounds";
  let bit := shl64 1 (gram mod 64) in
  Ok (negb (N.land word bit =? 0), mark_gram bitmap gram).

(** The last two hashes, and which of them goes next. *)
Record Recent : Type := { rc_first : option N; rc_second : option N; rc_index : N }.
Definition no_recent : Recent := {| rc_first := None; rc_second := None; rc_index := 0 |}.
Definition is_recent (rc : Recent) (hash : N) : bool :=
  bool_decide (rc_first rc = Some hash) || bool_decide (rc_second rc = Some hash).
Definition remember (rc : Recent) (hash : N) : Recent :=
  let next := (rc_index rc + 1) mod 2 in
  if rc_index rc =? 0 then {| rc_first := Some hash; rc_second := rc_second rc; rc_index := next |}
  else {| rc_first := rc_first rc; rc_second := Some hash; rc_index := next |}.

(** [SparseRunWriter] *)
Record SparseRunWriter : Type := { sw_id : N; sw_entries : gset N; sw_run_bytes : N; sw_runs : list (list N) }.

Section sparse.
Context (rapidhash_v3 : list N -> N).

Definition new_run_writer (idx run_bytes : N) : res SparseRunWriter :=
  ensure (0 <? run_bytes) "sparse posting run size must be positive";;
  id ← to_u32 idx;
  Ok {| sw_id := id; sw_entries := ∅; sw_run_bytes := run_bytes; sw_runs := [] |}.

Definition write_sparse_run (entries : gset N) (id : N) : list N :=
  fold_left (fun file hash => write_posting_record file Sparse hash id) (sort_N (elements entries)) [].

Definition flush_run (w : SparseRunWriter) : SparseRunWriter :=
  if decide (sw_entries w = ∅) then w
  else {| sw_id := sw_id w; sw_entries := ∅; sw_run_bytes := sw_run_bytes w; sw_runs := sw_runs w ++ [write_sparse_run (sw_entries w) (sw_id w)] |}.

Definition add_hash (w : SparseRunWriter) (hash : N) : SparseRunWriter :=
  let fresh := negb (bool_decide (hash ∈ sw_entries w)) in
  let w := {| sw_id := sw_id w; sw_entries := {[hash]} ∪ sw_entries w; sw_run_bytes := sw_run_bytes w; sw_runs := sw_runs w |} in
  if fresh && (sw_run_bytes w <=? N.of_nat (size (sw_entries w)) * 8) then flush_run w else w.

(** A hash that is not one of the last two. *)
Definition add_recent (s : SparseRunWriter * Recent) (hash : N) : SparseRunWriter * Recent :=
  if is_recent s.2 hash then s else (add_hash s.1 hash, remember s.2 hash).

Definition add_text (w : SparseRunWriter) (text : list N) : res SparseRunWriter :=
  grams ← iterate_sparse_grams rapidhash_v3 text;
  Ok (fold_left (fun s gram => add_recent s (hash_ngram rapidhash_v3 gram)) grams (w, no_recent)).1.

(** [pairs], [trigrams] *)
Record Seen : Type := { sn_pairs : list N; sn_trigrams : option (list N) }.

Definition mark_seen (seen : Seen) (bytes : list N) : res (bool * Seen) :=
  match bytes with
  | [a; b] =>
      '(hit, pairs) ← mark_short_gram (sn_pairs seen) (N.lor (N.shiftl a 8) b);
      Ok (hit, {| sn_pairs := pairs; sn_trigrams := sn_trigrams seen |})
  | [a; b; c] =>
      match sn_trigrams seen with
      | Some trigrams =>
          '(hit, trigrams) ← mark_short_gram trigrams (N.lor (N.lor (N.shiftl a 16) (N.shiftl b 8)) c);
          Ok (hit, {| sn_pairs := sn_pairs seen; sn_trigrams := Some trigrams |})
      | None => Ok (false, seen)
      end
  | _ => Ok (false, seen)
  end.

Definition add_range_step (r : SparseFileReader) (s : SparseRunWriter * Recent * Seen) (range : N * N) : res (SparseRunWriter * Recent * Seen) :=
  bytes ← read_bytes r range.1 range.2;
  '(seen, bitmaps) ← mark_seen s.2 bytes;
  Ok (if seen : bool then (s.1, bitmaps) else (add_recent s.1 (hash_ngram rapidhash_v3 bytes), bitmaps)).

(** Which chunk is loaded does not change what is read ([read_byte_ok],
    [read_bytes_ok]): the ranges and their bytes are read from the reader as it
    was opened. *)
Definition add_reader (w : SparseRunWriter) (r : SparseFileReader) : res SparseRunWriter :=
  ranges ← iterate_sparse_gram_ranges rapidhash_v3 (sr_len r) (fun index => '(byte, _) ← read_byte r index; Ok byte);
  let seen := {| sn_pairs := empty_words 16;
                 sn_trigrams := if SPARSE_TRIGRAM_BITMAP_MIN <=? sr_len r then Some (empty_words 24) else None |} in
  '(w, _, _) ← foldM (add_range_step r) (w, no_recent, seen) ranges;
  Ok w.

Definition finish_runs (w : SparseRunWriter) : list (list N) := sw_runs (flush_run w).

Definition add_grams (spool : option (list N)) (w : SparseRunWriter) (grams : IndexedGrams) : res SparseRunWriter :=
  match grams with
  | GSparse text => add_text w text
  | GSparseFile file => r ← open_file file; add_reader w r
  | GSparsePath file => r ← open_file file; add_reader w r
  | GSparseSpool offset length_ =>
      file ← with_context spool "spooled grams have no content spool";
      r ← open_range file offset length_; add_reader w r
  | _ => Err "mixed gram strategies in build chunk"
  end.

Definition sparse_doc_runs (run_bytes : N) (spool : option (list N)) (doc : GrammedDoc) : res (list (list N)) :=
  w ← new_run_writer (gd_doc_id doc) run_bytes;
  w ← add_grams spool w (gd_grams doc);
  Ok (finish_runs w).
End sparse.

(** [write_posting_runs]; [workers] is the size of the thread pool. *)
Definition write_posting_runs (radsort : list N -> list N) (rapidhash_v3 : list N -> N) (workers : N) (grammed : list GrammedDoc)
    (strategy : Strategy) (sparse_run_bytes : N) (spool : option (list N)) : res (list (list N) * list max_line) :=
  match strategy with
  | Trigram => write_trigram_block_runs radsort grammed spool
  | Sparse =>
      let worker_run_bytes := N.min (N.max (sparse_run_bytes / N.max workers 1) (2 ^ 20)) sparse_run_bytes in
      runs ← mapM_res (sparse_doc_runs rapidhash_v3 worker_run_bytes spool) grammed;
      Ok (concat runs, [])
  end.

(** ** The sink holds what was pushed *)

Definition entry_of (r : N * N) : N := N.lor (N.shiftl r.1 32) r.2.
Definition record_of_entry (entry : N) : N * N := (N.shiftr entry 32, entry mod U32).

Lemma entry_value r : r.2 < U32 -> entry_of r = r.1 * U32 + r.2.
Proof. intros H. unfold entry_of. rewrite N.lor_comm, lor_add_shift by exact H. change (2 ^ 32) with U32. lia. Qed.
Lemma record_of_entry_of r : r.2 < U32 -> record_of_entry (entry_of r) = r.
Proof.
  intros H. unfold record_of_entry. rewrite entry_value by done. rewrite N.shiftr_div_pow2. change (2 ^ 32) with U32.
  rewrite N.div_add_l, N.div_small, N.add_0_r by (done || lia). rewrite N.add_comm, N.Div0.mod_add, N.mod_small by done. by destruct r.
Qed.

Lemma entries_sorted entries : ascending entries -> StronglySorted (fun a b => lex_leb (pair_key a) (pair_key b) = true) (record_of_entry <$> entries).
Proof.
  induction 1 as [|e l Hl IH He]; [constructor|]. cbn [fmap list_fmap]. constructor; [exact IH|].
  apply Forall_fmap. eapply Forall_impl; [exact He|]. intros e' Hlt. unfold record_of_entry, compose, pair_key. cbn [fst snd].
  rewrite !N.shiftr_div_pow2. change (2 ^ 32) with U32. apply lex_cons.
  assert (e / U32 <= e' / U32) as Hq by (apply N.Div0.div_le_mono; lia). destruct (decide (e / U32 = e' / U32)) as [E|]; [right|left; lia].
  split; [exact E|]. apply lex_cons. left. pose proof (N.div_mod e U32 ltac:(done)). pose proof (N.div_mod e' U32 ltac:(done)). lia.
Qed.

Lemma fold_records strategy (records : list (N * N)) file :
  fold_left (fun file r => write_posting_record file strategy r.1 r.2) records file = file ++ file_of strategy records.
Proof.
  revert file. induction records as [|r records IH]; intros file; cbn [fold_left]; [by rewrite app_nil_r|]. rewrite IH.
  unfold file_of, record_of, write_posting_record. cbn [fmap list_fmap concat app]. by rewrite <- !app_assoc.
Qed.

Lemma fold_left_fmap {A B C} (f : C -> B -> C) (g : A -> B) l s : fold_left f (g <$> l) s = fold_left (fun s a => f s (g a)) l s.
Proof. revert s. induction l as [|x l IH]; intros s; cbn; [done|apply IH]. Qed.

(** Runs that hold some records, each once or more, and no others. *)
Definition runs_hold (strategy : Strategy) (runs : list (list N)) (has : N * N -> Prop) : Prop :=
  exists rs, runs = file_of strategy <$> rs /\ Forall (run_ok strategy) rs /\ forall r, r ∈ concat rs <-> has r.

Definition sink_ok (sink : TrigramEntrySink) (pushed : list (N * N)) : Prop :=
  exists rs pending, se_runs sink = file_of Trigram <$> rs /\ Forall (run_ok Trigram) rs /\
    se_entries sink = entry_of <$> pending /\ Forall (record_ok Trigram) pending /\ forall r, r ∈ concat rs \/ r ∈ pending <-> r ∈ pushed.

Lemma sink_nil : sink_ok {| se_entries := []; se_runs := [] |} [].
Proof. exists [], []. split_and!; try done. intros r. cbn. set_solver. Qed.

Lemma spill_ok sink pushed : sink_ok sink pushed -> sink_ok (spill sink) pushed /\ se_entries (spill sink) = [].
Proof.
  intros (rs & pending & Hr & Hrs & He & Hp & Hall). unfold spill. destruct (se_entries sink) as [|e entries] eqn:Ee; [split; [|done]; by exists rs, pending; rewrite Ee|].
  split; [|done]. set (run := record_of_entry <$> sort_dedup (e :: entries)).
  assert (forall r, r ∈ run <-> r ∈ pending) as Hrun.
  { intros r. unfold run. rewrite list_elem_of_fmap, He. rewrite Forall_forall in Hp. split.
    - intros (x & -> & Hx). rewrite elem_of_sort_dedup, list_elem_of_fmap in Hx. destruct Hx as (p & -> & Hin).
      by rewrite record_of_entry_of by (by apply Hp).
    - intros Hin. exists (entry_of r). split; [by rewrite record_of_entry_of by (by apply Hp)|].
      apply elem_of_sort_dedup, list_elem_of_fmap. by exists r. }
  exists (rs ++ [run]), []. cbn [se_runs se_entries]. split_and!.
  - rewrite fmap_app, Hr. cbn [fmap list_fmap]. f_equal. f_equal. unfold run.
    by rewrite <- (app_nil_l (file_of _ _)), <- fold_records, fold_left_fmap.
  - apply Forall_app. split; [done|]. constructor; [|constructor]. split; [apply entries_sorted, sort_dedup_ascending|].
    apply Forall_forall. intros r Hin%Hrun. rewrite Forall_forall in Hp. by apply Hp.
  - done.
  - constructor.
  - intros r. rewrite <- Hall, concat_app, elem_of_app. cbn [concat]. rewrite app_nil_r, Hrun. set_solver.
Qed.

Lemma sink_push_ok sink pushed r :
  sink_ok sink pushed -> record_ok Trigram r -> sink_ok (sink_push sink r.1 r.2) (pushed ++ [r]).
Proof.
  intros (rs & pending & Hr & Hrs & He & Hp & Hall) Hok. unfold sink_push.
  assert (sink_ok {| se_entries := se_entries sink ++ [N.lor (N.shiftl r.1 32) r.2]; se_runs := se_runs sink |} (pushed ++ [r])) as Hs.
  { exists rs, (pending ++ [r]). cbn [se_runs se_entries]. split_and!; [done|done| | |].
    - by rewrite fmap_app, He.
    - apply Forall_app. split; [done|by constructor].
    - intros x. rewrite !elem_of_app, <- Hall. tauto. }
  destruct (_ <=? _); [by apply spill_ok|exact Hs].
Qed.

Lemma sink_finish_ok sink pushed : sink_ok sink pushed -> runs_hold Trigram (sink_finish sink) (fun r => r ∈ pushed).
Proof.
  intros [(rs & pending & Hr & Hrs & He & Hp & Hall) Hn]%spill_ok. exists rs. split; [exact Hr|]. split; [exact Hrs|].
  intros r. rewrite <- Hall. rewrite Hn in He. destruct pending; [|done]. set_solver.
Qed.

(** ** Trigram runs *)

Lemma foldM_mbind {S A B} (f : S -> B -> res S) (g : A -> list B) s l :
  foldM f s (mbind g l) = foldM (fun s x => foldM f s (g x)) s l.
Proof.
  revert s. induction l as [|x l IH]; intros s; [done|]. rewrite bind_cons, foldM_app. cbn [foldM].
  destruct (foldM f s (g x)) as [s'|?|?]; cbn [mbind res_bind]; [apply IH|done..].
Qed.
Lemma foldM_ext_in {S A} (f g : S -> A -> res S) s l : (forall s x, x ∈ l -> f s x = g s x) -> foldM f s l = foldM g s l.
Proof.
  revert s. induction l as [|x l IH]; intros s H; [done|]. cbn [foldM]. rewrite H by left. destruct (g s x); cbn [mbind res_bind]; [|done..].
  apply IH. intros. apply H. by right.
Qed.

Section trigram_proofs.
Context (radsort : list N -> list N) `{!SortsN radsort}.

(** The records of a document: its block grams, from its base on. *)
Definition doc_records (base : N) (content : list N) : list (N * N) :=
  (fun p => (p.2, base + p.1)) <$> pack_trigram_block_grams radsort content.

Lemma block_gram_bounds content p :
  Forall is_byte content -> len content <= U32 * CANDIDATE_BLOCK_BYTES -> p ∈ pack_trigram_block_grams radsort content ->
  p.1 < div_ceil (len content) CANDIDATE_BLOCK_BYTES /\ p.2 < 256 ^ 3.
Proof.
  intros Hb Hl Hp. destruct p as [block gram]. apply elem_of_block_grams in Hp as (i & a & b & c & -> & -> & Ha & Hb' & Hc); [|done..].
  cbn [fst snd]. pose proof (get_Some_lt _ _ _ Ha). rewrite Forall_forall in Hb. split.
  - pose proof (div_ceil_le (len content) CANDIDATE_BLOCK_BYTES ltac:(done)). apply N.Div0.div_lt_upper_bound. lia.
  - apply pack_window_bound; apply Hb; by eapply get_elem.
Qed.

Lemma push_pairs_ok base pairs sink pushed :
  sink_ok sink pushed -> (forall p, p ∈ pairs -> base + p.1 < U32 /\ p.2 < 256 ^ 3) ->
  exists sink', foldM (push_pair base) sink pairs = Ok sink' /\ sink_ok sink' (pushed ++ ((fun p => (p.2, base + p.1)) <$> pairs)).
Proof.
  revert sink pushed. induction pairs as [|p pairs IH]; intros sink pushed Hs Hp; [exists sink; cbn; by rewrite app_nil_r|].
  destruct (Hp p ltac:(left)) as [Hid Hg]. cbn [foldM].
  assert (push_pair base sink p = Ok (sink_push sink p.2 (base + p.1))) as ->.
  { unfold push_pair, block_id. by rewrite (proj2 (checked_add_Some U32 base p.1 (base + p.1)) (conj eq_refl Hid)). }
  cbn [mbind res_bind].
  destruct (IH (sink_push sink p.2 (base + p.1)) (pushed ++ [(p.2, base + p.1)])) as (sink' & -> & Hs').
  - by apply (sink_push_ok sink pushed (p.2, base + p.1)).
  - intros q Hq. apply Hp. by right.
  - exists sink'. split; [done|]. cbn [fmap list_fmap]. by rewrite <- app_assoc in Hs'.
Qed.

Lemma push_window_pairs base sink block grams :
  grams <> [] -> push_window base sink block grams = foldM (push_pair base) sink (visit_pairs (block, grams)).
Proof.
  intros Hne. unfold push_window, visit_pairs, push_pair. cbn [fst snd]. destruct (block_id base block) as [id|e|w] eqn:E.
  - cbn [mbind res_bind]. clear Hne. revert sink. induction grams as [|g grams IH]; intros sink; [done|]. cbn [fold_left fmap list_fmap foldM fst snd].
    rewrite E. cbn [mbind res_bind]. apply IH.
  - destruct grams as [|g grams]; [done|]. cbn [fmap list_fmap foldM fst]. by rewrite E.
  - destruct grams as [|g grams]; [done|]. cbn [fmap list_fmap foldM fst]. by rewrite E.
Qed.

Lemma push_visits base sink content blocks :
  foldM (fun s v => push_window base s v.1 v.2) sink (file_visits radsort content blocks) =
    foldM (push_pair base) sink (mbind visit_pairs (file_visits radsort content blocks)).
Proof.
  rewrite foldM_mbind. apply foldM_ext_in. intros s v [Hne _]%list_elem_of_filter. destruct v. by apply push_window_pairs.
Qed.

(** Grams of a body, wherever they come from. *)
Definition block_grams_of (spool : option (list N)) (grams : IndexedGrams) (content : list N) : Prop :=
  match grams with
  | GTrigramBlocks pairs => pairs = pack_trigram_block_grams radsort content
  | GTrigramBlocksFile file length_ => take (N.to_nat length_) file = content /\ len content = length_
  | GTrigramSpool offset length_ =>
      exists file, spool = Some file /\ take (N.to_nat length_) (drop (N.to_nat offset) file) = content /\ len content = length_
  | _ => False
  end.
Definition deferred (grams : IndexedGrams) : bool := match grams with GTrigramBlocks _ => false | _ => true end.
Definition body_fits (base : N) (content : list N) : Prop :=
  Forall is_byte content /\ base + div_ceil (len content) CANDIDATE_BLOCK_BYTES < U32.
Definition reported (doc : GrammedDoc) (content : list N) (line : max_line) : Prop :=
  line.1.1 = gd_doc_id doc /\ longest_line content line.1.2 /\ newlines_ok content line.2.

Lemma body_fits_len base content : body_fits base content -> len content <= U32 * CANDIDATE_BLOCK_BYTES.
Proof. intros [_ H]. pose proof (div_ceil_le (len content) CANDIDATE_BLOCK_BYTES ltac:(done)). nia. Qed.
Lemma body_fits_pairs base content p :
  body_fits base content -> p ∈ pack_trigram_block_grams radsort content -> base + p.1 < U32 /\ p.2 < 256 ^ 3.
Proof.
  intros Hf Hp. pose proof (body_fits_len _ _ Hf). destruct Hf as [Hb Hd]. destruct (block_gram_bounds content p Hb ltac:(done) Hp). split; [lia|done].
Qed.

Lemma visit_body_ok doc file start content s pushed :
  take (length content) (drop (N.to_nat start) file) = content ->
  body_fits (gd_base doc) content -> sink_ok s.1 pushed ->
  exists sink line, visit_body radsort doc file start (len content) s = Ok (sink, s.2 ++ [line]) /\
    reported doc content line /\ sink_ok sink (pushed ++ doc_records (gd_base doc) content).
Proof.
  intros Hbody Hf Hs. unfold visit_body.
  pose proof (file_grams_exact radsort (push_window (gd_base doc)) file start (len content) s.1) as H. cbv zeta in H. rewrite !to_nat_len, !Hbody, push_visits in H.
  pose proof (body_fits_len _ _ Hf) as Hlen. assert (div_ceil (len content) CANDIDATE_BLOCK_BYTES < U32) as Hblocks by (destruct Hf; lia).
  rewrite file_visits_pairs in H by lia.
  destruct (push_pairs_ok (gd_base doc) (pack_trigram_block_grams radsort content) s.1 pushed Hs) as (sink & Hrun & Hsink); [by intros p; apply body_fits_pairs|].
  rewrite Hrun in H. destruct (visit_file_trigram_blocks _ _ _ _ _ _) as [[sink' [m newlines]]|e|w]; cbn [mbind res_bind].
  - destruct H as (_ & [= <-] & _ & Hm & Hn). exists sink, (gd_doc_id doc, m, newlines). split; [done|]. split; [|exact Hsink]. done.
  - destruct H as [Hshort|[Hbig|[e' He']]]; [|lia|done]. exfalso.
    assert (length content <= length (drop (N.to_nat start) file))%nat by (rewrite <- Hbody, length_take; lia). unfold len in Hshort. lia.
  - by destruct H.
Qed.

Definition body_of (spool : option (list N)) (doc : GrammedDoc) (content : list N) : Prop :=
  block_grams_of spool (gd_grams doc) content /\ body_fits (gd_base doc) content.
Definition all_records (grammed : list GrammedDoc) (contents : list (list N)) : list (N * N) :=
  concat (zip_with (fun doc content => doc_records (gd_base doc) content) grammed contents).
(** The documents that report their lines, in order. *)
Definition reports (grammed : list GrammedDoc) (contents : list (list N)) (lines : list max_line) : Prop :=
  Forall2 (fun doc line => reported doc.1 doc.2 line) (filter (fun doc => deferred (gd_grams doc.1) = true) (zip grammed contents)) lines.

Lemma block_runs_step_ok spool doc content s pushed :
  body_of spool doc content -> sink_ok s.1 pushed ->
  exists sink lines, block_runs_step radsort spool s doc = Ok (sink, s.2 ++ lines) /\
    reports [doc] [content] lines /\ sink_ok sink (pushed ++ doc_records (gd_base doc) content).
Proof.
  intros [Hg Hf] Hs. unfold block_runs_step, reports. cbn [zip zip_with]. destruct (gd_grams doc) as [| |pairs|file n| | | |offset n|] eqn:E; try done; cbn [block_grams_of] in Hg.
  - subst pairs. destruct (push_pairs_ok (gd_base doc) (pack_trigram_block_grams radsort content) s.1 pushed Hs) as (sink & -> & Hsink); [by intros p; apply body_fits_pairs|].
    exists sink, []. rewrite app_nil_r. split; [done|]. split; [|exact Hsink]. rewrite filter_cons_False; [constructor|]. cbn [fst]. by rewrite E.
  - destruct Hg as [Hb <-]. rewrite to_nat_len in Hb.
    destruct (visit_body_ok doc file 0 content s pushed Hb Hf Hs) as (sink & line & -> & Hline & Hsink). exists sink, [line].
    split; [done|]. split; [|exact Hsink]. rewrite filter_cons_True by (cbn [fst]; by rewrite E). constructor; [exact Hline|exact (List.Forall2_nil _)].
  - destruct Hg as (file & -> & Hb & <-). rewrite to_nat_len in Hb. cbn [with_context mbind res_bind].
    destruct (visit_body_ok doc file offset content s pushed Hb Hf Hs) as (sink & line & -> & Hline & Hsink). exists sink, [line].
    split; [done|]. split; [|exact Hsink]. rewrite filter_cons_True by (cbn [fst]; by rewrite E). constructor; [exact Hline|exact (List.Forall2_nil _)].
Qed.

Lemma reports_app grammed contents lines doc content lines' :
  reports [doc] [content] lines -> reports grammed contents lines' -> reports (doc :: grammed) (content :: contents) (lines ++ lines').
Proof.
  unfold reports. cbn [zip zip_with]. intros H1 H2. change (?x :: zip_with pair grammed contents) with ([x] ++ zip_with pair grammed contents).
  rewrite filter_app. by apply Forall2_app.
Qed.

Lemma trigram_block_runs_ok spool grammed contents s pushed :
  Forall2 (body_of spool) grammed contents -> sink_ok s.1 pushed ->
  exists sink lines, foldM (block_runs_step radsort spool) s grammed = Ok (sink, s.2 ++ lines) /\
    reports grammed contents lines /\ sink_ok sink (pushed ++ all_records grammed contents).
Proof.
  intros H. revert s pushed. induction H as [|doc content grammed contents Hd _ IH]; intros s pushed Hs.
  { exists s.1, []. rewrite !app_nil_r. split; [by destruct s|]. split; [constructor|exact Hs]. }
  destruct (block_runs_step_ok spool doc content s pushed Hd Hs) as (sink & lines & E & Hl & Hsink). cbn [foldM]. rewrite E. cbn [mbind res_bind].
  destruct (IH (sink, s.2 ++ lines) _ Hsink) as (sink' & lines' & -> & Hl' & Hsink'). exists sink', (lines ++ lines'). cbn [fst snd].
  rewrite <- app_assoc. split; [done|]. split; [by apply reports_app|]. unfold all_records in *. cbn [zip_with concat]. by rewrite app_assoc.
Qed.

(** The runs of a batch of documents hold the records of their bytes. *)
Lemma trigram_runs_ok spool grammed contents :
  Forall2 (body_of spool) grammed contents ->
  exists runs lines, write_trigram_block_runs radsort grammed spool = Ok (runs, lines) /\
    runs_hold Trigram runs (fun r => r ∈ all_records grammed contents) /\ reports grammed contents lines.
Proof.
  intros H. destruct (trigram_block_runs_ok spool grammed contents ({| se_entries := []; se_runs := [] |}, []) [] H sink_nil) as (sink & lines & E & Hl & Hs).
  exists (sink_finish sink), lines. unfold write_trigram_block_runs. rewrite E. split; [done|]. split; [by apply sink_finish_ok|exact Hl].
Qed.
End trigram_proofs.

(** ** Sparse runs *)

Section sparse_proofs.
Context (rapidhash_v3 : list N -> N).
Abbreviation hash := (hash_ngram rapidhash_v3).

Lemma hash_bound gram : hash gram < U64.
Proof.
  unfold hash_ngram. change (2 ^ 40 - 1) with (N.ones 40). rewrite N.land_ones. apply (N.lt_le_trans _ (2 ^ 40)); [apply N.mod_lt; lia|done].
Qed.

(** The writer holds the hashes it was given. *)
Record writer_ok (id : N) (w : SparseRunWriter) (added : list N) : Prop := {
  wo_id : sw_id w = id;
  wo_runs : exists rs, sw_runs w = file_of Sparse <$> rs /\ Forall (run_ok Sparse) rs /\
    forall h i, (h, i) ∈ concat rs \/ (i = id /\ h ∈ sw_entries w) <-> i = id /\ h ∈ added;
  wo_small : forall h, h ∈ sw_entries w -> h < U64;
}.

Lemma sparse_run_file entries id : write_sparse_run entries id = file_of Sparse ((fun h => (h, id)) <$> sort_N (elements entries)).
Proof.
  unfold write_sparse_run. rewrite <- (app_nil_l (file_of _ _)), <- fold_records. by rewrite fold_left_fmap.
Qed.
Lemma sparse_run_sorted hashes id :
  StronglySorted (fun a b => (a <=? b) = true) hashes ->
  StronglySorted (fun a b => lex_leb (pair_key a) (pair_key b) = true) ((fun h => (h, id)) <$> hashes).
Proof.
  induction 1 as [|h l Hl IH Hh]; [constructor|]. cbn [fmap list_fmap]. constructor; [exact IH|]. apply Forall_fmap.
  eapply Forall_impl; [exact Hh|]. intros h' Hle%N.leb_le. unfold compose, pair_key. cbn [fst snd]. apply lex_cons.
  destruct (decide (h = h')) as [->|]; [right|left; lia]. split; [done|]. apply lex_cons. by right.
Qed.

Lemma flush_run_ok id w added : id < U32 -> writer_ok id w added -> writer_ok id (flush_run w) added /\ sw_entries (flush_run w) = ∅.
Proof.
  intros Hid [Hi (rs & Hr & Hrs & Hall) Hsmall]. unfold flush_run. destruct (decide (sw_entries w = ∅)) as [E|E]; [split; [|done]; split; [done|by exists rs|done]|].
  split; [|done]. split; cbn [sw_id sw_entries sw_runs]; [done| |set_solver]. set (run := (fun h => (h, id)) <$> sort_N (elements (sw_entries w))).
  assert (forall h i, (h, i) ∈ run <-> i = id /\ h ∈ sw_entries w) as Hrun.
  { intros h i. unfold run. rewrite list_elem_of_fmap. setoid_rewrite elem_of_sort_by. setoid_rewrite elem_of_elements. naive_solver. }
  exists (rs ++ [run]). split_and!.
  - rewrite fmap_app, Hr, sparse_run_file, Hi. done.
  - apply Forall_app. split; [done|]. constructor; [|constructor]. split; [apply sparse_run_sorted, sort_by_sorted; lia|].
    apply Forall_forall. intros [h i] [-> Hh]%Hrun. split; [|exact Hid]. cbn. by apply Hsmall.
  - intros h i. rewrite <- Hall, concat_app, elem_of_app. cbn [concat]. rewrite app_nil_r, Hrun. set_solver.
Qed.

Lemma add_hash_ok id w added h : id < U32 -> h < U64 -> writer_ok id w added -> writer_ok id (add_hash w h) (added ++ [h]).
Proof.
  intros Hid Hh [Hi (rs & Hr & Hrs & Hall) Hsmall]. unfold add_hash.
  set (w' := {| sw_id := sw_id w; sw_entries := {[h]} ∪ sw_entries w; sw_run_bytes := sw_run_bytes w; sw_runs := sw_runs w |}).
  assert (writer_ok id w' (added ++ [h])) as Hw.
  { split; [done| |intros x [->%elem_of_singleton|?]%elem_of_union; [done|by apply Hsmall]].
    exists rs. split; [done|]. split; [done|]. intros x i. change (sw_entries w') with ({[h]} ∪ sw_entries w).
    rewrite elem_of_union, elem_of_singleton, elem_of_app, list_elem_of_singleton.
    specialize (Hall x i). tauto. }
  destruct (_ && _); [by apply flush_run_ok|exact Hw].
Qed.

Lemma finish_runs_ok id w added : id < U32 -> writer_ok id w added -> runs_hold Sparse (finish_runs w) (fun r => r.2 = id /\ r.1 ∈ added).
Proof.
  intros Hid [[_ (rs & Hr & Hrs & Hall) _] He]%flush_run_ok; [|done]. exists rs. split; [done|]. split; [done|].
  intros [h i]. cbn [fst snd]. rewrite <- Hall, He. set_solver.
Qed.

(** Skipping a recent hash loses nothing. *)
Definition recent_ok (rc : Recent) (added : list N) : Prop := forall h, is_recent rc h = true -> h ∈ added.
Lemma remember_ok rc added h : recent_ok rc added -> recent_ok (remember rc h) (added ++ [h]).
Proof.
  intros H x. pose proof (H x) as Hx. unfold is_recent, remember in *. rewrite elem_of_app, list_elem_of_singleton.
  destruct (_ =? _); cbn [rc_first rc_second]; rewrite orb_true_iff, !bool_decide_eq_true in *; naive_solver.
Qed.

Definition adding (id : N) (s : SparseRunWriter * Recent) (added : list N) : Prop := writer_ok id s.1 added /\ recent_ok s.2 added.
Lemma add_recent_ok id s added h :
  id < U32 -> h < U64 -> adding id s added ->
  exists added', adding id (add_recent s h) added' /\ forall x, x ∈ added' <-> x ∈ added \/ x = h.
Proof.
  intros Hid Hh [Hw Hr]. unfold add_recent. destruct (is_recent s.2 h) eqn:E.
  - exists added. split; [done|]. intros x. apply Hr in E. naive_solver.
  - exists (added ++ [h]). split; [split; [by apply add_hash_ok|by apply remember_ok]|]. intros x. by rewrite elem_of_app, list_elem_of_singleton.
Qed.

Lemma new_run_writer_ok id run_bytes : adding id ({| sw_id := id; sw_entries := ∅; sw_run_bytes := run_bytes; sw_runs := [] |}, no_recent) [].
Proof.
  split; [split; [done| |set_solver]|done]. exists []. split; [done|]. split; [constructor|]. intros h i. cbn. set_solver.
Qed.

Lemma add_text_ok id run_bytes text grams :
  id < U32 -> iterate_sparse_grams rapidhash_v3 text = Ok grams ->
  exists w added, add_text rapidhash_v3 {| sw_id := id; sw_entries := ∅; sw_run_bytes := run_bytes; sw_runs := [] |} text = Ok w /\
    writer_ok id w added /\ forall h, h ∈ added <-> h ∈ hash <$> grams.
Proof.
  intros Hid E. unfold add_text. rewrite E. cbn [mbind res_bind].
  cut (forall s added, adding id s added -> exists added', adding id (fold_left (fun s gram => add_recent s (hash gram)) grams s) added' /\
    forall h, h ∈ added' <-> h ∈ added \/ h ∈ hash <$> grams).
  { intros H. destruct (H _ _ (new_run_writer_ok id run_bytes)) as (added & [Hw _] & Ha). eexists _, added. split; [done|]. split; [exact Hw|].
    intros h. rewrite Ha. set_solver. }
  clear E. induction grams as [|g grams IH]; intros s added Hs; cbn [fold_left]; [exists added; split; [done|set_solver]|].
  destruct (add_recent_ok id s added (hash g) Hid (hash_bound g) Hs) as (added1 & Hs1 & H1).
  destruct (IH _ _ Hs1) as (added2 & Hs2 & H2). exists added2. split; [done|]. intros h. rewrite H2, H1. cbn [fmap list_fmap]. rewrite elem_of_cons. tauto.
Qed.

(** *** Reading a body from a file *)

Record reader_ok (r : SparseFileReader) (content : list N) : Prop := {
  ro_body : get_range (sr_file r) (sr_base r) (sr_base r + len content) = Some content;
  ro_len : sr_len r = len content;
  ro_end : sr_base r + len content < U64;
  ro_chunk : sr_chunk_start r + len (sr_chunk r) <= len content /\ sr_chunk r = cut content (sr_chunk_start r) (sr_chunk_start r + len (sr_chunk r));
}.

Lemma get_in_cut {A} (l : list A) a b i : a + i < b -> b <= len l -> get (cut l a b) i = get l (a + i).
Proof.
  intros Hi Hb. unfold get, cut. rewrite lookup_take. case_decide; [|lia]. rewrite lookup_drop. f_equal. lia.
Qed.

(** Whatever chunk is loaded, the bytes are those of the body. *)
Lemma read_at_ok r content a b :
  reader_ok r content -> a <= b -> b <= len content ->
  file_offset r a = Ok (sr_base r + a) /\ read_exact_at (sr_file r) (b - a) (sr_base r + a) = Ok (cut content a b).
Proof.
  intros [Hbody Hlen Hend _] Ha Hb. unfold file_offset, read_exact_at.
  assert (checked_add U64 (sr_base r) a = Some (sr_base r + a)) as -> by (apply checked_add_Some; lia).
  split; [done|]. replace (sr_base r + a + (b - a)) with (sr_base r + b) by lia.
  rewrite <- (get_range_sub _ _ _ _ a b Hbody Ha Hb), cut_get_range by done. done.
Qed.

Lemma read_byte_ok r content i :
  reader_ok r content -> i < len content -> exists byte r', read_byte r i = Ok (byte, r') /\ get content i = Some byte /\ reader_ok r' content.
Proof.
  intros Hr Hi. assert (exists r', (if (i <? sr_chunk_start r) || (sr_chunk_start r + len (sr_chunk r) <=? i) then load_chunk r i else Ok r) = Ok r' /\
    reader_ok r' content /\ sr_chunk_start r' <= i < sr_chunk_start r' + len (sr_chunk r')) as (r' & E & Hr' & Hin).
  { destruct ((i <? _) || _) eqn:E; [|exists r; split; [done|]; split; [done|]; apply orb_false_iff in E as [?%N.ltb_ge ?%N.leb_gt]; lia].
    unfold load_chunk. rewrite (ro_len _ _ Hr). destruct (N.ltb_spec i (len content)); [|lia]. cbn [ensure mbind res_bind].
    set (start := i / SPARSE_FILE_CHUNK * SPARSE_FILE_CHUNK). assert (start <= i < start + SPARSE_FILE_CHUNK) as Hs.
    { unfold start, SPARSE_FILE_CHUNK. pose proof (N.div_mod i (1024 * 1024) ltac:(done)). pose proof (N.mod_lt i (1024 * 1024) ltac:(done)). lia. }
    set (count := N.min (len content - start) SPARSE_FILE_CHUNK). destruct (read_at_ok r content start (start + count) Hr) as [-> Hrd]; [lia|unfold count; lia|].
    replace (start + count - start) with count in Hrd by lia. cbn [mbind res_bind]. rewrite Hrd. cbn [mbind res_bind].
    assert (len (cut content start (start + count)) = count) as Hc by (rewrite len_cut by (unfold count; lia); lia).
    eexists. split; [done|]. split; [|cbn [sr_chunk_start sr_chunk]; rewrite Hc; unfold count; lia].
    destruct Hr as [H1 H2 H3 _]. split; cbn [sr_file sr_base sr_len sr_chunk_start sr_chunk]; [done|done|done|]. rewrite Hc. split; [unfold count; lia|done]. }
  unfold read_byte. rewrite E. cbn [mbind res_bind]. destruct (get_is_Some content i Hi) as [byte Hbyte].
  destruct (ro_chunk _ _ Hr') as [Hle Hch]. assert (get (sr_chunk r') (i - sr_chunk_start r') = Some byte) as ->.
  { rewrite Hch, get_in_cut by lia. rewrite <- Hbyte. f_equal. lia. }
  cbn [expect mbind res_bind]. by exists byte, r'.
Qed.

Lemma read_bytes_ok r content a b : reader_ok r content -> a <= b -> b <= len content -> read_bytes r a b = Ok (cut content a b).
Proof.
  intros Hr Ha Hb. unfold read_bytes. rewrite (ro_len _ _ Hr). destruct (N.leb_spec b (len content)); [|lia]. cbn [ensure mbind res_bind].
  destruct (ro_chunk _ _ Hr) as [Hle Hch]. pose proof (ro_end _ _ Hr).
  assert (checked_add U64 (sr_chunk_start r) (len (sr_chunk r)) = Some (sr_chunk_start r + len (sr_chunk r))) as -> by (apply checked_add_Some; lia). cbn [with_context mbind res_bind].
  destruct ((sr_chunk_start r <=? a) && (b <=? _)) eqn:E.
  - apply andb_true_iff in E as [E1%N.leb_le E2%N.leb_le]. rewrite cut_get_range by lia. cbn [expect]. f_equal. rewrite Hch.
    rewrite cut_cut by lia. f_equal; lia.
  - destruct (read_at_ok r content a b Hr Ha Hb) as [-> H']. exact H'.
Qed.

(** *** The bitmaps of short grams *)

Definition bitmap_ok (bitmap : list N) (bits : N) (marked : N -> Prop) : Prop :=
  len bitmap = 2 ^ bits / 64 /\ forall g, g < 2 ^ bits -> in_bitmap bitmap g = true -> marked g.

Lemma mark_short_ok bitmap bits g marked :
  6 <= bits -> bitmap_ok bitmap bits marked -> g < 2 ^ bits ->
  exists hit bitmap', mark_short_gram bitmap g = Ok (hit, bitmap') /\ (hit = true -> marked g) /\ bitmap_ok bitmap' bits (fun x => marked x \/ x = g).
Proof.
  intros Hbits [Hl Hm] Hg. assert (g / 64 < len bitmap) as Hi.
  { assert (2 ^ bits = 2 ^ (bits - 6) * 64) as E by (change 64 with (2 ^ 6); rewrite <- N.pow_add_r; f_equal; lia).
    rewrite Hl. rewrite E in *. rewrite N.div_mul by done. apply N.Div0.div_lt_upper_bound. lia. }
  destruct (get_is_Some bitmap _ Hi) as [word Hw]. unfold mark_short_gram. rewrite Hw. cbn [expect mbind res_bind].
  eexists _, _. split; [done|]. split.
  - intros Hhit%negb_true_iff%N.eqb_neq. apply Hm; [done|]. unfold in_bitmap. rewrite Hw. destruct (N.testbit word (g mod 64)) eqn:E; [done|]. destruct Hhit.
    apply N.bits_inj_0. intros j. rewrite N.land_spec, shl64_bit by (apply N.mod_lt; lia). destruct (N.eqb_spec j (g mod 64)) as [->|]; [by rewrite E|apply andb_false_r].
  - split; [unfold len, mark_gram in *; by rewrite length_alter|]. intros x Hx. rewrite mark_gram_bits by done.
    intros [H|H%N.eqb_eq]%orb_true_iff; [left; by apply Hm|by right].
Qed.

Lemma empty_bitmap bits marked : bitmap_ok (empty_words bits) bits marked.
Proof.
  unfold empty_words. split; [unfold len; rewrite length_replicate; lia|]. intros g _. unfold in_bitmap, get. destruct (_ !! _) as [word|] eqn:E; [|done].
  apply lookup_replicate in E as [-> _]. by rewrite N.bits_0.
Qed.

Record seen_ok (seen : Seen) (added : list N) : Prop := {
  so_pairs : bitmap_ok (sn_pairs seen) 16 (fun g => forall a b, is_byte a -> is_byte b -> g = a * 256 + b -> hash [a; b] ∈ added);
  so_trigrams : match sn_trigrams seen with
    | Some bitmap => bitmap_ok bitmap 24 (fun g => forall a b c, is_byte a -> is_byte b -> is_byte c -> g = a * 65536 + b * 256 + c -> hash [a; b; c] ∈ added)
    | None => True
    end;
}.

Lemma bitmap_weaken bitmap bits (P Q : N -> Prop) : bitmap_ok bitmap bits P -> (forall g, P g -> Q g) -> bitmap_ok bitmap bits Q.
Proof. intros [Hl Hm] H. split; [done|]. intros g Hg Hb. by apply H, Hm. Qed.

Lemma seen_weaken seen added added' : seen_ok seen added -> (forall h, h ∈ added -> h ∈ added') -> seen_ok seen added'.
Proof.
  intros [Hp Ht] H. split; [eapply bitmap_weaken; [exact Hp|]; naive_solver|].
  destruct (sn_trigrams seen); [|done]. eapply bitmap_weaken; [exact Ht|]. naive_solver.
Qed.

(** The key of a pair or of three bytes in its bitmap. *)
Lemma pair_index a b : is_byte a -> is_byte b -> N.lor (N.shiftl a 8) b = a * 256 + b.
Proof. intros Ha Hb. rewrite N.lor_comm, lor_add_shift by exact Hb. change (2 ^ 8) with 256. lia. Qed.

Lemma mark_seen_ok seen added bytes :
  seen_ok seen added -> Forall is_byte bytes ->
  exists hit seen', mark_seen seen bytes = Ok (hit, seen') /\ (hit = true -> hash bytes ∈ added) /\
    forall added', (forall h, h ∈ added -> h ∈ added') -> hash bytes ∈ added' -> seen_ok seen' added'.
Proof.
  intros Hs Hb. assert (forall added', (forall h, h ∈ added -> h ∈ added') -> seen_ok seen added') as Hmono by (intros; by eapply seen_weaken).
  assert (exists hit seen', Ok (false, seen) = Ok (hit, seen') /\ (hit = true -> hash bytes ∈ added) /\
    forall added', (forall h, h ∈ added -> h ∈ added') -> hash bytes ∈ added' -> seen_ok seen' added') as Hother by (exists false, seen; split; [done|]; split; [done|]; auto).
  destruct bytes as [|a [|b [|c [|d bytes]]]]; try exact Hother; cbn [mark_seen]; rewrite !Forall_cons in Hb.
  - destruct Hb as (Ha & Hb & _). rewrite pair_index by done.
    destruct (mark_short_ok _ 16 (a * 256 + b) _ ltac:(done) (so_pairs _ _ Hs)) as (hit & pairs & -> & Hhit & Hp); [unfold is_byte in *; lia|]. cbn [mbind res_bind].
    eexists _, _. split; [done|]. split; [intros H; by apply Hhit|]. intros added' Hsub Hin. split; cbn [sn_pairs sn_trigrams]; [|by apply (so_trigrams _ _ (Hmono _ Hsub))].
    eapply bitmap_weaken; [exact Hp|]. cbn. intros g [H| ->] x y Hx Hy E; [by apply Hsub, H|]. unfold is_byte in *. by assert (a = x) as <- by lia; assert (b = y) as <- by lia.
  - destruct (sn_trigrams seen) as [bitmap|] eqn:Et; [|exact Hother]. destruct Hb as (Ha & Hb & Hc & _).
    change (N.lor (N.lor (N.shiftl a 16) (N.shiftl b 8)) c) with (pack_window (a, b, c)). rewrite pack_window_value by done.
    pose proof (so_trigrams _ _ Hs) as Ht. rewrite Et in Ht.
    destruct (mark_short_ok _ 24 (a * 65536 + b * 256 + c) _ ltac:(done) Ht) as (hit & bitmap' & -> & Hhit & Hp); [unfold is_byte in *; lia|]. cbn [mbind res_bind].
    eexists _, _. split; [done|]. split; [intros H; by apply Hhit|]. intros added' Hsub Hin. split; cbn [sn_pairs sn_trigrams]; [by apply (so_pairs _ _ (Hmono _ Hsub))|].
    eapply bitmap_weaken; [exact Hp|]. cbn. intros g [H| ->] x y z Hx Hy Hz E; [by apply Hsub, H|]. unfold is_byte in *.
    by assert (a = x) as <- by lia; assert (b = y) as <- by lia; assert (c = z) as <- by lia.
Qed.

Lemma add_range_ok id r content s added a e :
  id < U32 -> reader_ok r content -> Forall is_byte content -> a <= e -> e <= len content -> adding id s.1 added -> seen_ok s.2 added ->
  exists s' added', add_range_step rapidhash_v3 r s (a, e) = Ok s' /\ adding id s'.1 added' /\ seen_ok s'.2 added' /\
    forall h, h ∈ added' <-> h ∈ added \/ h = hash (cut content a e).
Proof.
  intros Hid Hr Hb Ha He Hs Hseen. unfold add_range_step. cbn [fst snd]. rewrite (read_bytes_ok r content) by done. cbn [mbind res_bind].
  assert (Forall is_byte (cut content a e)) as Hcut by (apply Forall_take, Forall_drop, Hb).
  destruct (mark_seen_ok s.2 added _ Hseen Hcut) as (hit & seen' & -> & Hhit & Hnext). cbn [mbind res_bind]. destruct hit.
  - eexists _, added. split; [done|]. split; [done|]. split; [by apply Hnext; auto|]. intros h. specialize (Hhit eq_refl). naive_solver.
  - destruct (add_recent_ok id s.1 added (hash (cut content a e)) Hid (hash_bound _) Hs) as (added' & Hs' & Ha'). eexists _, added'. split; [done|].
    split; [exact Hs'|]. split; [|done]. apply Hnext; intros; apply Ha'; auto.
Qed.

Lemma add_ranges_ok id r content ranges s added :
  id < U32 -> reader_ok r content -> Forall is_byte content -> (forall g, g ∈ ranges -> g.1 <= g.2 <= len content) ->
  adding id s.1 added -> seen_ok s.2 added ->
  exists s' added', foldM (add_range_step rapidhash_v3 r) s ranges = Ok s' /\ adding id s'.1 added' /\
    forall h, h ∈ added' <-> h ∈ added \/ h ∈ (fun g => hash (cut content g.1 g.2)) <$> ranges.
Proof.
  intros Hid Hr Hb. revert s added. induction ranges as [|[a e] ranges IH]; intros s added Hin Hs Hseen.
  { exists s, added. split; [done|]. split; [done|]. set_solver. }
  destruct (Hin (a, e) ltac:(left)) as [Ha He]. cbn [fst snd] in *. destruct (add_range_ok id r content s added a e Hid Hr Hb Ha He Hs Hseen) as (s1 & added1 & E & Hs1 & Hseen1 & H1).
  cbn [foldM]. rewrite E. cbn [mbind res_bind]. destruct (IH s1 added1) as (s2 & added2 & -> & Hs2 & H2); [intros; apply Hin; by right|done|done|].
  exists s2, added2. split; [done|]. split; [done|]. intros h. rewrite H2, H1. cbn [fmap list_fmap fst snd]. rewrite elem_of_cons. tauto.
Qed.

(** The hashes of the grams of a body. *)
Definition gram_ranges (content : list N) : list (N * N) := all_ranges (weight_at rapidhash_v3 content) (len content - 1) 0.
Definition gram_hashes (content : list N) : list N := (fun g => hash (cut content g.1 g.2)) <$> gram_ranges content.

Lemma gram_ranges_in content g : g ∈ gram_ranges content -> g.1 <= g.2 <= len content.
Proof. destruct g as [a e]. intros [Ha H]%elem_of_all_ranges. cbn. destruct H as [->|(l & -> & ? & _)]; lia. Qed.

Lemma add_reader_ok id run_bytes r content :
  id < U32 -> reader_ok r content -> Forall is_byte content ->
  exists w added, add_reader rapidhash_v3 {| sw_id := id; sw_entries := ∅; sw_run_bytes := run_bytes; sw_runs := [] |} r = Ok w /\
    writer_ok id w added /\ forall h, h ∈ added <-> h ∈ gram_hashes content.
Proof.
  intros Hid Hr Hb. unfold add_reader. rewrite (ro_len _ _ Hr), (iterate_ranges_eq rapidhash_v3 (len content) _ (byte_at content)).
  2: { intros i Hi. destruct (read_byte_ok r content i Hr Hi) as (byte & r' & -> & Hbyte & _). cbn [mbind res_bind]. unfold byte_at. by rewrite Hbyte. }
  cbn [mbind res_bind]. change (all_ranges _ _ _) with (gram_ranges content).
  destruct (add_ranges_ok id r content (gram_ranges content)
    ({| sw_id := id; sw_entries := ∅; sw_run_bytes := run_bytes; sw_runs := [] |}, no_recent,
     {| sn_pairs := empty_words 16;
        sn_trigrams := if SPARSE_TRIGRAM_BITMAP_MIN <=? len content then Some (empty_words 24) else None |})
    [] Hid Hr Hb (gram_ranges_in content)) as ([[w rc] seen] & added & E & [Hw _] & Ha).
  - apply new_run_writer_ok.
  - split; cbn [snd sn_pairs sn_trigrams]; [apply (empty_bitmap 16)|]. destruct (_ <=? len content); [apply (empty_bitmap 24)|exact I].
  - rewrite E. cbn [mbind res_bind]. exists w, added. split; [done|]. split; [exact Hw|]. intros h. rewrite Ha. set_solver.
Qed.

(** Sparse grams of a body, wherever they come from. *)
Definition sparse_grams_of (spool : option (list N)) (grams : IndexedGrams) (content : list N) : Prop :=
  match grams with
  | GSparse text => text = content
  | GSparseFile file | GSparsePath file => file = content
  | GSparseSpool offset length_ =>
      exists file, spool = Some file /\ get_range file offset (offset + length_) = Some content /\ len content = length_ /\ offset + length_ < U64
  | _ => False
  end.

Lemma open_range_ok file start content :
  get_range file start (start + len content) = Some content -> start + len content < U64 ->
  exists r, open_range file start (len content) = Ok r /\ reader_ok r content.
Proof.
  intros Hc Hb. unfold open_range. assert (checked_add U64 start (len content) = Some (start + len content)) as -> by (by apply checked_add_Some).
  cbn [with_context mbind res_bind]. pose proof Hc as (_ & Hle & _)%get_range_Some. destruct (N.leb_spec (start + len content) (len file)); [|lia].
  eexists. split; [done|]. split; [done|done|done|]. cbn [sr_chunk_start sr_chunk]. rewrite len_nil. split; [lia|]. by rewrite cut_nil by lia.
Qed.

Lemma sparse_doc_ok run_bytes spool doc content :
  0 < run_bytes -> gd_doc_id doc < U32 -> Forall is_byte content -> len content < U64 -> sparse_grams_of spool (gd_grams doc) content ->
  exists runs, sparse_doc_runs rapidhash_v3 run_bytes spool doc = Ok runs /\
    runs_hold Sparse runs (fun r => r.2 = gd_doc_id doc /\ r.1 ∈ gram_hashes content).
Proof.
  intros Hrb Hid Hb Hlen Hg. unfold sparse_doc_runs, new_run_writer. destruct (N.ltb_spec 0 run_bytes); [|lia]. cbn [ensure mbind res_bind].
  rewrite (proj2 (to_u32_ok (gd_doc_id doc) _) (conj eq_refl Hid)). cbn [mbind res_bind].
  assert (forall file start, get_range file start (start + len content) = Some content -> start + len content < U64 ->
    exists w added, (r ← open_range file start (len content);
      add_reader rapidhash_v3 {| sw_id := gd_doc_id doc; sw_entries := ∅; sw_run_bytes := run_bytes; sw_runs := [] |} r) = Ok w /\
      writer_ok (gd_doc_id doc) w added /\ forall h, h ∈ added <-> h ∈ gram_hashes content) as Hfile.
  { intros file start Hf Hend. destruct (open_range_ok file start content Hf Hend) as (r & -> & Hr). cbn [mbind res_bind]. by apply add_reader_ok. }
  cut (exists w added, add_grams rapidhash_v3 spool {| sw_id := gd_doc_id doc; sw_entries := ∅; sw_run_bytes := run_bytes; sw_runs := [] |} (gd_grams doc) = Ok w /\
    writer_ok (gd_doc_id doc) w added /\ forall h, h ∈ added <-> h ∈ gram_hashes content).
  { intros (w & added & -> & Hw & Ha). cbn [mbind res_bind]. eexists. split; [done|]. destruct (finish_runs_ok _ _ _ Hid Hw) as (rs & E & Hrs & Hall).
    exists rs. split; [done|]. split; [done|]. intros r. by rewrite Hall, Ha. }
  destruct (gd_grams doc) as [| | | |text|file|file| |offset n]; try done; cbn [sparse_grams_of add_grams] in *.
  - subst text. destruct (iterate_sparse_grams_ok rapidhash_v3 content) as (grams & E & Hgrams).
    destruct (add_text_ok (gd_doc_id doc) run_bytes content grams Hid E) as (w & added & -> & Hw & Ha). exists w, added. split; [done|]. split; [exact Hw|].
    intros h. unfold gram_hashes. rewrite Ha, !list_elem_of_fmap. split.
    + intros (g & -> & (a & e & Hin & Hg)%Hgrams). exists (a, e). split; [|exact Hin]. cbn. f_equal. apply get_range_Some in Hg as (H1 & H2 & ->). done.
    + intros ([a e] & -> & Hin). exists (cut content a e). split; [done|]. apply Hgrams. exists a, e. split; [exact Hin|].
      destruct (gram_ranges_in content (a, e) Hin). by apply cut_get_range.
  - subst file. apply Hfile; [by apply get_range_all|done].
  - subst file. apply Hfile; [by apply get_range_all|done].
  - destruct Hg as (file & -> & Hf & <- & Hend). by apply Hfile.
Qed.
End sparse_proofs.

(** ** Both strategies *)

Lemma runs_hold_concat strategy (runss : list (list (list N))) (hass : list (N * N -> Prop)) :
  Forall2 (runs_hold strategy) runss hass -> runs_hold strategy (concat runss) (fun r => exists has, has ∈ hass /\ has r).
Proof.
  induction 1 as [|runs has runss hass (rs & -> & Hrs & Hall) _ (rs' & E' & Hrs' & Hall')]; [exists []; split; [done|]; split; [constructor|]; set_solver|].
  cbn [concat]. rewrite E'. exists (rs ++ rs'). split; [by rewrite fmap_app|]. split; [by apply Forall_app|]. intros r.
  rewrite concat_app, elem_of_app, Hall, Hall'. setoid_rewrite elem_of_cons. naive_solver.
Qed.
Lemma runs_hold_ext strategy runs (P Q : N * N -> Prop) : runs_hold strategy runs P -> (forall r, P r <-> Q r) -> runs_hold strategy runs Q.
Proof. intros (rs & -> & Hrs & Hall) H. exists rs. split; [done|]. split; [done|]. intros r. by rewrite Hall. Qed.

Section posting_runs.
Context (radsort : list N -> list N) `{!SortsN radsort} (rapidhash_v3 : list N -> N).

(** A record of a document's bytes. *)
Definition posting_of (strategy : Strategy) (doc : GrammedDoc * list N) (r : N * N) : Prop :=
  match strategy with
  | Trigram => exists block gram, (block, gram) ∈ pack_trigram_block_grams radsort doc.2 /\ r = (gram, gd_base doc.1 + block)
  | Sparse => exists grams gram, grams_index rapidhash_v3 radsort doc.2 Sparse = Ok grams /\ gram ∈ grams /\
      r = (hash_ngram rapidhash_v3 gram, gd_doc_id doc.1)
  end.
Definition body_source (strategy : Strategy) (spool : option (list N)) (doc : GrammedDoc) (content : list N) : Prop :=
  match strategy with
  | Trigram => body_of radsort spool doc content
  | Sparse => Forall is_byte content /\ len content < U64 /\ gd_doc_id doc < U32 /\ sparse_grams_of spool (gd_grams doc) content
  end.

Lemma all_records_spec grammed contents r :
  r ∈ all_records radsort grammed contents <-> exists doc, doc ∈ zip grammed contents /\ posting_of Trigram doc r.
Proof.
  unfold all_records. revert contents. induction grammed as [|d grammed IH]; intros [|c contents]; cbn [zip_with concat]; [set_solver..|].
  rewrite elem_of_app, IH. setoid_rewrite elem_of_cons. unfold doc_records. rewrite list_elem_of_fmap. cbn [posting_of]. split.
  - intros [([block gram] & -> & Hp)|(doc & Hin & Hd)]; [|by exists doc; auto]. exists (d, c). split; [by left|]. by exists block, gram.
  - intros (doc & [->|Hin] & block & gram & Hp & ->); [left; by exists (block, gram)|]. right. exists doc. split; [done|]. by exists block, gram.
Qed.

Lemma gram_hashes_spec content h :
  h ∈ gram_hashes rapidhash_v3 content <->
  exists grams gram, grams_index rapidhash_v3 radsort content Sparse = Ok grams /\ gram ∈ grams /\ h = hash_ngram rapidhash_v3 gram.
Proof.
  destruct (elem_of_sparse_all rapidhash_v3 content) as (grams & E & Hg). cbn [grams_index]. rewrite E. unfold gram_hashes. rewrite list_elem_of_fmap. split.
  - intros ([a e] & -> & Hin). exists grams, (cut content a e). split; [done|]. split; [|done]. apply Hg. exists a, e. split; [exact Hin|].
    destruct (gram_ranges_in rapidhash_v3 content (a, e) Hin). by apply cut_get_range.
  - intros (grams' & gram & [= <-] & (a & e & Hin & Hr)%Hg & ->). exists (a, e). split; [|exact Hin]. cbn. f_equal. by apply get_range_Some in Hr as (_ & _ & ->).
Qed.

Lemma sparse_runs_ok run_bytes spool grammed contents :
  0 < run_bytes -> Forall2 (body_source Sparse spool) grammed contents ->
  exists runs, mapM_res (sparse_doc_runs rapidhash_v3 run_bytes spool) grammed = Ok runs /\
    runs_hold Sparse (concat runs) (fun r => exists doc, doc ∈ zip grammed contents /\ posting_of Sparse doc r).
Proof.
  intros Hrb H. induction H as [|doc content grammed contents (Hb & Hl & Hid & Hg) _ (runss & E & Hall)].
  { exists []. split; [done|]. exists []. split; [done|]. split; [constructor|]. set_solver. }
  destruct (sparse_doc_ok rapidhash_v3 run_bytes spool doc content Hrb Hid Hb Hl Hg) as (runs & E1 & H1). cbn [mapM_res]. rewrite E1. cbn [mbind res_bind]. rewrite E.
  exists (runs :: runss). split; [done|]. destruct H1 as (rs & -> & Hrs & H1), Hall as (rs' & E' & Hrs' & Hall). cbn [concat]. rewrite E'.
  exists (rs ++ rs'). split; [by rewrite fmap_app|]. split; [by apply Forall_app|]. intros r. rewrite concat_app, elem_of_app, H1, Hall, gram_hashes_spec.
  cbn [zip zip_with]. setoid_rewrite elem_of_cons. split.
  - intros [[Hr (grams & gram & Hgr & Hin & Hh)]|(d & Hd & Hp)]; [|by exists d; auto]. exists (doc, content). split; [by left|]. exists grams, gram. destruct r; cbn in *; subst. done.
  - intros (d & [->|Hd] & grams & gram & Hgr & Hin & ->); [left; split; [done|]; by exists grams, gram|]. right. exists d. split; [done|]. by exists grams, gram.
Qed.
End posting_runs.

(** ** Property *)

(** The runs written for a batch of documents hold exactly the postings of
    their bytes, sorted within each run: the blocks of every trigram from the
    document's base on, or the hash of every sparse gram with the document.  It
    does not matter whether a body is in memory, in a file of its own or in the
    spool, nor when the sink or the writers spill.  Trigram documents that are
    read from a file also report their longest line and the newlines of their
    blocks. *)
Theorem posting_runs_exact radsort `{!SortsN radsort} rapidhash_v3 workers grammed contents strategy run_bytes spool :
  0 < run_bytes -> Forall2 (body_source radsort strategy spool) grammed contents ->
  exists runs lines, write_posting_runs radsort rapidhash_v3 workers grammed strategy run_bytes spool = Ok (runs, lines) /\
    runs_hold strategy runs (fun r => exists doc, doc ∈ zip grammed contents /\ posting_of radsort rapidhash_v3 strategy doc r) /\
    match strategy with Trigram => reports grammed contents lines | Sparse => lines = [] end.
Proof.
  intros Hrb H. destruct strategy; cbn [write_posting_runs body_source] in *.
  - destruct (trigram_runs_ok radsort spool grammed contents H) as (runs & lines & E & Hr & Hl). exists runs, lines. split; [exact E|]. split; [|exact Hl].
    apply (runs_hold_ext _ _ _ _ Hr). intros r. apply (all_records_spec radsort rapidhash_v3 grammed contents r).
  - destruct (sparse_runs_ok radsort rapidhash_v3 (N.min (N.max (run_bytes / N.max workers 1) (2 ^ 20)) run_bytes) spool grammed contents ltac:(lia) H)
      as (runs & -> & Hr). cbn [mbind res_bind]. by exists (concat runs), [].
Qed.

Lemma posting_runs_exact_witness :
  let doc := {| gd_doc_id := 0; gd_base := 7; gd_grams := GTrigramSpool 1 3 |} in
  exists runs lines, write_posting_runs sort_N sum_hash 4 [doc] Trigram (16 * 1024 * 1024) (Some [10; 97; 98; 99]) = Ok (runs, lines) /\
    runs_hold Trigram runs (fun r => exists d, d ∈ zip [doc] [[97; 98; 99]] /\ posting_of sort_N sum_hash Trigram d r) /\
    reports [doc] [[97; 98; 99]] lines.
Proof.
  intros doc. apply (posting_runs_exact sort_N sum_hash 4 [doc] [[97; 98; 99]] Trigram (16 * 1024 * 1024) (Some [10; 97; 98; 99])); [done|].
  constructor; [|constructor]. split; [by exists [10; 97; 98; 99]|]. split; [by repeat constructor|done].
Defined.
