(* ===== verification/Build.v ===== *)
(** * Building an index (crates/index/src/build.rs)

    The sources of a corpus are fetched in chunks, with the next chunk on its
    way while one is ingested.  Ingesting decodes every source into a sink that
    keeps its documents, appends the documents in the order of their keys to the
    packs and the tables, and writes the posting runs of their grams.  A source
    that vanished or does not decode is in the tables as failed. *)

From S2P Require Import Prelude BitPack Bytes Trigrams SparseGrams QueryPlan Eval Format Detect Decode Candidate PackBuild PackBatch PackLines Stream FileGrams Runs RunWriter.

(** [seagrep_core::SourceObject] *)
Record SourceObject : Type := { so_key : list N; so_version : list N; so_encoded_size : N }.

Definition BUILD_FETCH_CHUNK : N := 1280.
Definition BUILD_FETCH_BYTES : N := 64 * 1024 * 1024.
Definition SPARSE_RUN_BYTES : N := 16 * 1024 * 1024.

(** ** Chunks *)

(** [chunk_encoded_bytes] *)
Definition chunk_encoded_bytes (sources : list SourceObject) (chunk : N * N) : res N :=
  owned ← expect (get_range sources chunk.1 chunk.2) "range out of bounds";
  Ok (fold_left (fun total source => saturating_add U64 total (so_encoded_size source)) owned 0).

(** The inner loop of [build_chunks]: [rest] starts at [end], [count] is
    [end - start]. *)
Fixpoint chunk_len (rest : list SourceObject) (count bytes : N) : N :=
  match rest with
  | source :: rest =>
      if count <? BUILD_FETCH_CHUNK then
        let size := so_encoded_size source in
        if (0 <? count) && (BUILD_FETCH_BYTES - bytes <? size) then count
        else chunk_len rest (count + 1) (saturating_add U64 bytes size)
      else count
  | [] => count
  end.

Fixpoint chunks_from (fuel : nat) (sources : list SourceObject) (start : N) : list (N * N) :=
  match fuel with
  | O => []
  | S fuel =>
      if len sources <=? start then []
      else
        let end_ := start + chunk_len (drop (N.to_nat start) sources) 0 0 in
        (start, end_) :: chunks_from fuel sources end_
  end.
(** [build_chunks]; no chunk is empty, so there are at most as many as sources. *)
Definition build_chunks (sources : list SourceObject) : list (N * N) := chunks_from (length sources) sources 0.

Section drive.
Context {T S : Type} (prefetchable : N * N -> res bool) (fetch : N * N -> res T) (process : S -> N * N -> T -> res S).

(** [catch_unwind] around the fetch of the spawned thread. *)
Definition catch_unwind (r : res T) : res T :=
  match r with Panic _ => Err "prefetch thread panicked" | _ => r end.

(** The loop of [drive_prefetched]: [pending] is what the spawned fetch returns. *)
Fixpoint drive_loop (pending : option (res T)) (chunks : list (N * N)) (s : S) : res S :=
  match chunks with
  | [] => Ok s
  | chunk :: rest =>
      fetched ← match pending with Some handle => handle | None => fetch chunk end;
      pending ← match rest with
        | next :: _ =>
            this_fits ← prefetchable chunk;
            next_fits ← (if this_fits : bool then prefetchable next else Ok false);
            Ok (if next_fits : bool then Some (catch_unwind (fetch next)) else None)
        | [] => Ok None
        end;
      s ← process s chunk fetched;
      drive_loop pending rest s
  end.
Definition drive_prefetched (chunks : list (N * N)) (s : S) : res S := drive_loop None chunks s.
End drive.

(** ** The sink of decoded documents *)

Inductive IndexOutput : Type :=
  | OutBytes (chunks : list (list N))
  | OutFile (grams : option IndexedGrams) (length_ : N) (content : list N).
Inductive BuiltContent : Type :=
  | CoBytes (bytes : list N)
  | CoFile (file : list N)
  | CoSpool (offset : N).
Record BuiltDocument : Type := {
  bd_meta : LogicalDocumentMeta; bd_grams : IndexedGrams; bd_decoded_size : N; bd_content : BuiltContent;
  bd_max_line_len : option N; bd_block_newlines : option (list N);
}.

(** [DocumentCapExceeded], by its text; no other error of the build has it. *)
Definition DOCUMENT_CAP_EXCEEDED : string := "segment document cap exceeded".
Definition is_cap_exceeded (e : string) : bool := String.eqb e DOCUMENT_CAP_EXCEEDED.

(** [IndexDecodeSink]; the spool is what was written to it. *)
Record IndexDecodeSink : Type := {
  ks_strategy : Strategy; ks_document_limit : option N; ks_current_meta : option LogicalDocumentMeta;
  ks_current_output : IndexOutput; ks_documents : list BuiltDocument; ks_spool : option (list N); ks_spool_len : N;
}.
Definition new_sink (strategy : Strategy) (document_limit : option N) (spool_content : bool) : IndexDecodeSink :=
  {| ks_strategy := strategy; ks_document_limit := document_limit; ks_current_meta := None; ks_current_output := OutBytes [];
     ks_documents := []; ks_spool := if spool_content then Some [] else None; ks_spool_len := 0 |}.
Definition set_current (meta : option LogicalDocumentMeta) (output : IndexOutput) (k : IndexDecodeSink) : IndexDecodeSink :=
  {| ks_strategy := ks_strategy k; ks_document_limit := ks_document_limit k; ks_current_meta := meta; ks_current_output := output;
     ks_documents := ks_documents k; ks_spool := ks_spool k; ks_spool_len := ks_spool_len k |}.

Definition store_content (k : IndexDecodeSink) (content : BuiltContent) (length_ : N) : res (IndexDecodeSink * BuiltContent) :=
  match ks_spool k with
  | None => Ok (k, content)
  | Some spool =>
      let offset := ks_spool_len k in
      written ← match content with
        | CoBytes bytes => Ok bytes
        | CoFile file => Ok (take (N.to_nat length_) file)
        | CoSpool _ => Err "document content was spooled twice"
        end;
      ensure (len written =? length_) "decoded document content length changed";;
      spool_len ← with_context (checked_add U64 (ks_spool_len k) length_) "decoded content spool length overflows";
      Ok ({| ks_strategy := ks_strategy k; ks_document_limit := ks_document_limit k; ks_current_meta := ks_current_meta k;
             ks_current_output := ks_current_output k; ks_documents := ks_documents k; ks_spool := Some (spool ++ written);
             ks_spool_len := spool_len |}, CoSpool offset)
  end.

Definition index_begin (k : IndexDecodeSink) (document : LogicalDocumentMeta) : res IndexDecodeSink :=
  ensure (bool_decide (ks_current_meta k = None)) "decoder began a document before finishing the previous document";;
  ensure (match ks_document_limit k with Some limit => len (ks_documents k) <? limit | None => true end) DOCUMENT_CAP_EXCEEDED;;
  Ok (set_current (Some document) (ks_current_output k) k).

Definition index_write_bytes (k : IndexDecodeSink) (bytes : list N) : res IndexDecodeSink :=
  ensure (negb (bool_decide (ks_current_meta k = None))) "decoder wrote bytes before beginning a document";;
  match ks_current_output k with
  | OutBytes chunks => Ok (set_current (ks_current_meta k) (OutBytes (chunks ++ [bytes])) k)
  | _ => Err "decoder mixed file and byte output for one document"
  end.

Definition index_write_file (k : IndexDecodeSink) (file : list N) (length_ : N) : res IndexDecodeSink :=
  ensure (negb (bool_decide (ks_current_meta k = None))) "decoder wrote a file before beginning a document";;
  chunks ← match ks_current_output k with OutBytes chunks => Ok chunks | _ => Err "decoder wrote more than one file for one document" end;
  ensure (bool_decide (chunks = [])) "decoder mixed file and byte output";;
  let grams :=
    if decide (is_Some (ks_spool k)) then None
    else Some (match ks_strategy k with
      | Trigram => GTrigramBlocksFile file length_
      | Sparse =>
          if decide (is_Some (ks_current_meta k ≫= dm_member_path)) then GSparsePath file else GSparseFile file
      end) in
  Ok (set_current (ks_current_meta k) (OutFile grams length_ file) k).

Section index.
Context (x : Crates) (compress : list N -> res (list N)) (sha256 : list N -> list N) (radsort : list N -> list N).
Context (rapidhash_v3 : list N -> N) (workers : N).

(** The newlines of every block: [u32::try_from(..).expect(..)]. *)
Definition count_block_newlines (bytes : list N) : res (list N) :=
  mapM_res (fun block => let count := count_newlines block in
      if count <? U32 then Ok count else Panic "candidate block newline count fits u32")
    (chunks (N.to_nat CANDIDATE_BLOCK_BYTES) bytes).

(** What [finish] makes of the output of a document: its grams, size, content,
    longest line and newlines. *)
Definition finish_output (k : IndexDecodeSink) (output : IndexOutput)
    : res (option IndexedGrams * N * BuiltContent * option N * option (list N)) :=
  match output with
  | OutFile grams length_ content => Ok (grams, length_, CoFile content, None, None)
  | OutBytes chunks =>
      bytes ← match chunks with
        | [] => Ok []
        | [chunk] => Ok chunk
        | _ =>
            _ ← foldM (fun length_ chunk => with_context (checked_add U64 length_ (len chunk)) "decoded document length overflows") 0 chunks;
            Ok (concat chunks)
        end;
      let eager := bool_decide (ks_spool k = None) in
      let grams := if eager then Some (match ks_strategy k with Trigram => GTrigramBlocks (pack_trigram_block_grams radsort bytes) | Sparse => GSparse bytes end)
        else None in
      let lines := eager && bool_decide (ks_strategy k = Trigram) in
      newlines ← (if lines then newlines ← count_block_newlines bytes; Ok (Some newlines) else Ok None);
      Ok (grams, len bytes, CoBytes bytes, if lines then Some (track_max_line bytes (0, 0)).2 else None, newlines)
  end.

Definition index_finish (k : IndexDecodeSink) : res IndexDecodeSink :=
  document ← with_context (ks_current_meta k) "decoder finished without beginning a document";
  let output := ks_current_output k in
  let k := set_current None (OutBytes []) k in
  '(grams, decoded_size, content, max_line_len, block_newlines) ← finish_output k output;
  '(k, content) ← store_content k content decoded_size;
  grams ← match grams, content, ks_strategy k with
    | Some grams, _, _ => Ok grams
    | None, CoSpool offset, Trigram => Ok (GTrigramSpool offset decoded_size)
    | None, CoSpool offset, Sparse => Ok (GSparseSpool offset decoded_size)
    | None, _, _ => Err "deferred grams have no content spool"
    end;
  Ok {| ks_strategy := ks_strategy k; ks_document_limit := ks_document_limit k; ks_current_meta := ks_current_meta k;
        ks_current_output := ks_current_output k;
        ks_documents := ks_documents k ++ [{| bd_meta := document; bd_grams := grams; bd_decoded_size := decoded_size; bd_content := content;
                                             bd_max_line_len := max_line_len; bd_block_newlines := block_newlines |}];
        ks_spool := ks_spool k; ks_spool_len := ks_spool_len k |}.

#[local] Instance index_sink : DecodeSink IndexDecodeSink := {|
  sink_begin := index_begin; sink_write_bytes := index_write_bytes; sink_write_file := index_write_file; Decode.sink_finish := index_finish;
|}.

(** ** Sources *)

Inductive SourceBuild : Type :=
  | SDecoded (encoding : SourceEncoding) (documents : list BuiltDocument) (spool : option (list N)) (expanded_bytes : N)
  | SFailed.

Definition build_source (source : SourceObject) (body : DocumentBody) (strategy : Strategy) (document_limit : option N) (spool_content : bool)
    : res SourceBuild :=
  let '(r, sink) := decode_source_body x (so_key source) DECODE_LIMITS body (new_sink strategy document_limit spool_content) in
  match r with
  | Ok summary => Ok (SDecoded (sm_encoding summary) (ks_documents sink) (ks_spool sink) (sm_expanded_bytes summary))
  | Err e => if is_cap_exceeded e then Err e else Ok SFailed
  | Panic w => Panic w
  end.

Definition build_raw_source (source : SourceObject) (body : option DocumentBody) (strategy : Strategy) (document_limit : option N)
    : res (option SourceBuild) :=
  match body with
  | None => Ok None
  | Some body =>
      raw ← is_raw_source x (so_key source) (body_bytes body);
      if raw : bool then outcome ← build_source source body strategy document_limit false; Ok (Some outcome) else Ok None
  end.

(** [BuiltContent::append]; the reader stops after [len] bytes. *)
Definition content_append (content : BuiltContent) (builder : PackBuilder) (length_ : N) (spool : option (list N)) : res (PackBuilder * PackSlice) :=
  match content with
  | CoBytes bytes => append compress sha256 builder bytes length_
  | CoFile file => append compress sha256 builder file length_
  | CoSpool offset =>
      spool ← with_context spool "spooled document has no content file";
      append compress sha256 builder (take (N.to_nat length_) (drop (N.to_nat offset) spool)) length_
  end.

(** ** Ingesting a chunk *)

(** What [ChunkIngest] changes. *)
Record Ingest : Type := {
  ig_tables : SegmentTables; ig_pack_builder : PackBuilder; ig_failed : N; ig_runs : list (list N); ig_next_block_base : N;
}.

Context (sources_ : list SourceObject) (strategy : Strategy) (document_cap : option N).

Definition set_documents (documents_ : list DocEntry) (tables : SegmentTables) : SegmentTables :=
  {| sources := sources tables; documents := documents_; blocks := blocks tables |}.

(** The lines a deferred producer reports for a document. *)
Definition set_lines (max_line : N) (newlines : list N) (entry : DocEntry) : DocEntry :=
  {| display_key := display_key entry; source_id := source_id entry; member_path := member_path entry; decoded_size := decoded_size entry;
     first_block := first_block entry; block_offset := block_offset entry; max_line_len := N.min max_line (U32 - 1); block_newlines := newlines |}.
Definition patch_line (documents_ : list DocEntry) (line : max_line) : res (list DocEntry) :=
  let '(doc_id, longest, newlines) := line in
  entry ← with_context (get documents_ doc_id) "deferred max-line for an unknown document";
  Ok (<[N.to_nat doc_id := set_lines longest newlines entry]> documents_).

Definition write_runs (st : Ingest) (grammed : list GrammedDoc) (spool : option (list N)) : res Ingest :=
  '(runs, max_lines) ← write_posting_runs radsort rapidhash_v3 workers grammed strategy SPARSE_RUN_BYTES spool;
  documents_ ← foldM patch_line (documents (ig_tables st)) max_lines;
  Ok {| ig_tables := set_documents documents_ (ig_tables st); ig_pack_builder := ig_pack_builder st; ig_failed := ig_failed st;
        ig_runs := ig_runs st ++ runs; ig_next_block_base := ig_next_block_base st |}.

(** The bodies of a chunk, by position. *)
Definition place_body (chunk_start : N) (bodies : list (option DocumentBody)) (fetched : N * DocumentBody) : res (list (option DocumentBody)) :=
  position ← with_context (checked_sub fetched.1 chunk_start ≫= fun position => if position <? len bodies then Some position else None)
    "fetch_many returned out-of-range document";
  slot ← expect (get bodies position) "index out of bounds";
  ensure (bool_decide (slot = None)) "fetch_many returned document twice";;
  Ok (<[N.to_nat position := Some fetched.2]> bodies).

(** One document of a source: into the pack, the batch and the table. *)
Definition ingest_document (source_id_ : N) (spool : option (list N)) (s : Ingest * list GrammedDoc) (document : BuiltDocument)
    : res (Ingest * list GrammedDoc) :=
  let '(st, grammed) := s in
  let doc_id := len (documents (ig_tables st)) in
  '(builder, slice) ← content_append (bd_content document) (ig_pack_builder st) (bd_decoded_size document) spool;
  base ← (if ig_next_block_base st <? U32 then Ok (ig_next_block_base st) else Err "segment exceeds the candidate block id space");
  let entry := {|
    display_key := dm_display_key (bd_meta document); source_id := source_id_; member_path := dm_member_path (bd_meta document);
    decoded_size := bd_decoded_size document; first_block := ps_first_block slice; block_offset := ps_block_offset slice;
    max_line_len := N.min (default 0 (bd_max_line_len document)) (U32 - 1); block_newlines := default [] (bd_block_newlines document) |} in
  Ok ({| ig_tables := set_documents (documents (ig_tables st) ++ [entry]) (ig_tables st); ig_pack_builder := builder; ig_failed := ig_failed st;
         ig_runs := ig_runs st; ig_next_block_base := ig_next_block_base st + div_ceil (bd_decoded_size document) CANDIDATE_BLOCK_BYTES |},
      grammed ++ [{| gd_doc_id := doc_id; gd_base := base; gd_grams := bd_grams document |}]).

(** [document.meta.display_key], the order of the documents of a source. *)
Definition display_key_bytes (document : BuiltDocument) : list N := dm_display_key (bd_meta document).

(** The check that the posting ids of a trigram segment fit. *)
Definition check_block_count (next_block_base : N) (documents_ : list BuiltDocument) : res unit :=
  match strategy with
  | Sparse => Ok tt
  | Trigram =>
      next_block_count ← foldM (fun total document => with_context
          (checked_add U64 total (div_ceil (bd_decoded_size document) CANDIDATE_BLOCK_BYTES)) "segment candidate block count overflows")
        next_block_base documents_;
      ensure (next_block_count <=? MAX_POSTING_COUNT) DOCUMENT_CAP_EXCEEDED
  end.

(** The outcome of a source: a raw one is built already, one that expands is
    built now, into a spool. *)
Definition source_outcome (st : Ingest) (source : SourceObject) (raw : option SourceBuild) (body : option DocumentBody) : res (option SourceBuild) :=
  match raw, body with
  | Some outcome, _ => Ok (Some outcome)
  | None, Some body =>
      let document_limit := (fun cap => cap - len (documents (ig_tables st))) <$> document_cap in
      ensure (negb (bool_decide (document_limit = Some 0))) DOCUMENT_CAP_EXCEEDED;;
      outcome ← build_source source body strategy document_limit true; Ok (Some outcome)
  | None, None => Ok None
  end.

(** A source that was fetched and is built: its documents and its entry. *)
Definition ingest_outcome (s : Ingest * list GrammedDoc) (source : SourceObject) (outcome : option SourceBuild) : res (Ingest * list GrammedDoc * option (list N)) :=
  let '(st, grammed) := s in
  source_id_ ← to_u32 (len (sources (ig_tables st)));
  first_doc_ ← to_u32 (len (documents (ig_tables st)));
  let '(encoding_, retry_, failed_, documents_, spool) :=
    match outcome with
    | Some (SDecoded encoding_ documents_ spool _) => (encoding_, false, false, documents_, spool)
    | Some SFailed => (Raw, false, true, [], None)
    | None => (Raw, true, true, [], None)
    end in
  let st := {| ig_tables := ig_tables st; ig_pack_builder := ig_pack_builder st; ig_failed := ig_failed st + (if failed_ then 1 else 0);
               ig_runs := ig_runs st; ig_next_block_base := ig_next_block_base st |} in
  let documents_ := sort_by_key display_key_bytes documents_ in
  next_document_count ← with_context (checked_add U64 (len (documents (ig_tables st))) (len documents_)) "segment document count overflows";
  ensure (match document_cap with Some cap => next_document_count <=? cap | None => true end) DOCUMENT_CAP_EXCEEDED;;
  check_block_count (ig_next_block_base st) documents_;;
  '(st, grammed) ← foldM (ingest_document source_id_ spool) (st, grammed) documents_;
  count ← to_u32 (len (documents (ig_tables st)));
  let entry := {| key := so_key source; version := so_version source; encoded_size := so_encoded_size source; encoding := encoding_;
                  first_doc := first_doc_; doc_count := wrapping_sub U32 count first_doc_; failed := failed_; retry := retry_ |} in
  let tables := {| sources := sources (ig_tables st) ++ [entry]; documents := documents (ig_tables st); blocks := blocks (ig_tables st) |} in
  Ok ({| ig_tables := tables; ig_pack_builder := ig_pack_builder st; ig_failed := ig_failed st; ig_runs := ig_runs st;
         ig_next_block_base := ig_next_block_base st |}, grammed, spool).

(** One turn of the loop over a chunk.  Before a source that expands the batch is
    written out, and the batch of its documents after it. *)
Definition ingest_source (s : Ingest * list GrammedDoc) (item : SourceObject * option DocumentBody * option SourceBuild) : res (Ingest * list GrammedDoc) :=
  let '(st, grammed) := s in
  let '(source, body, raw) := item in
  let expanding := match body, raw with Some _, None => true | _, _ => false end in
  '(st, grammed) ← (if expanding && negb (bool_decide (grammed = [])) then st ← write_runs st grammed None; Ok (st, []) else Ok (st, grammed));
  outcome ← source_outcome st source raw body;
  '(st, grammed, spool) ← ingest_outcome (st, grammed) source outcome;
  if expanding && negb (bool_decide (grammed = [])) then st ← write_runs st grammed spool; Ok (st, []) else Ok (st, grammed).

Definition ingest (st : Ingest) (chunk : N * N) (fetched : list (N * DocumentBody)) : res Ingest :=
  bodies ← foldM (place_body chunk.1) (replicate (N.to_nat (chunk.2 - chunk.1)) None) fetched;
  owned ← expect (get_range sources_ chunk.1 (chunk.1 + len bodies)) "index out of bounds";
  raw ← mapM_res (fun item => build_raw_source item.1 item.2 strategy document_cap) (zip owned bodies);
  '(st, grammed) ← foldM ingest_source (st, []) (zip (zip owned bodies) raw);
  if bool_decide (grammed = []) then Ok st else write_runs st grammed None.

Record BuiltIndexFiles : Type := { bi_runs : list (list N); bi_tables : SegmentTables; bi_packs : list PackFile }.

Definition build_index_files (fetch_bodies : N * N -> res (list (N * DocumentBody))) : res BuiltIndexFiles :=
  ensure (match document_cap with Some cap => 0 <? cap | None => true end) "segment document cap must be positive";;
  pack_builder ← production;
  let prefetchable := fun chunk => bytes ← chunk_encoded_bytes sources_ chunk; Ok (bytes <=? BUILD_FETCH_BYTES) in
  st ← drive_prefetched prefetchable fetch_bodies ingest (build_chunks sources_)
    {| ig_tables := {| sources := []; documents := []; blocks := [] |}; ig_pack_builder := pack_builder; ig_failed := 0; ig_runs := [];
       ig_next_block_base := 0 |};
  packed ← finish compress sha256 (ig_pack_builder st);
  let tables := {| sources := sources (ig_tables st); documents := documents (ig_tables st); blocks := built_blocks packed |} in
  validate tables;;
  Ok {| bi_runs := ig_runs st; bi_tables := tables; bi_packs := built_packs packed |}.
End index.

(** ** Chunks *)

(** The bytes of some sources. *)
Definition encoded_total (l : list SourceObject) : N := sumN (so_encoded_size <$> l).

Lemma chunk_len_spec rest count bytes :
  Forall (fun source => so_encoded_size source < U64) rest -> bytes < U64 -> count <= BUILD_FETCH_CHUNK -> (count = 0 -> bytes = 0) ->
  let n := chunk_len rest count bytes in
  count <= n <= BUILD_FETCH_CHUNK /\ n <= count + len rest /\ (count = 0 -> rest <> [] -> 0 < n) /\
  bytes + encoded_total (take (N.to_nat (n - count)) rest) <=
    N.max BUILD_FETCH_BYTES (N.max bytes (if count =? 0 then default 0 (so_encoded_size <$> head rest) else 0)) /\
  (forall source, get rest (n - count) = Some source ->
    n = BUILD_FETCH_CHUNK \/ BUILD_FETCH_BYTES < bytes + encoded_total (take (N.to_nat (n - count)) rest) + so_encoded_size source).
Proof.
  unfold encoded_total. revert count bytes. change BUILD_FETCH_CHUNK with 1280. change BUILD_FETCH_BYTES with 67108864.
  induction rest as [|source rest IH]; intros count bytes Hs Hb Hc H0; cbn [chunk_len].
  { cbv zeta. rewrite N.sub_diag, len_nil. change (N.to_nat 0) with 0%nat. cbn [take fmap list_fmap]. change (sumN []) with 0. split_and!; try lia; [done|by intros ? ?%get_Some_lt]. }
  apply Forall_cons in Hs as [Hsize Hs]. change BUILD_FETCH_CHUNK with 1280. change BUILD_FETCH_BYTES with 67108864. destruct (N.ltb_spec count 1280) as [Hlt|Hge].
  2: { cbv zeta. assert (count = 1280) as -> by lia. rewrite N.sub_diag. change (N.to_nat 0) with 0%nat. cbn [take fmap list_fmap]. change (sumN []) with 0. rewrite len_cons. split_and!; try lia. }
  destruct ((0 <? count) && (67108864 - bytes <? so_encoded_size source)) eqn:Hcut.
  - apply andb_true_iff in Hcut as [Hpos%N.ltb_lt Hbig%N.ltb_lt]. cbv zeta. rewrite N.sub_diag. change (N.to_nat 0) with 0%nat. cbn [take fmap list_fmap]. change (sumN []) with 0. rewrite len_cons.
    split_and!; try lia. intros ? [= <-]. right. lia.
  - assert (saturating_add U64 bytes (so_encoded_size source) = bytes + so_encoded_size source) as E.
    { unfold saturating_add. apply andb_false_iff in Hcut as [Hz%N.ltb_ge|Hfit%N.ltb_ge]; [rewrite H0 by lia|]; lia. }
    rewrite E. destruct (IH (count + 1) (bytes + so_encoded_size source) Hs) as (H1 & H2 & H3 & H4 & H5); [|lia|lia|].
    { apply andb_false_iff in Hcut as [Hz%N.ltb_ge|Hfit%N.ltb_ge]; [rewrite H0 by lia|]; lia. }
    set (n := chunk_len rest (count + 1) (bytes + so_encoded_size source)) in *. cbv zeta. rewrite len_cons.
    assert (n - count = 1 + (n - (count + 1))) as En by lia. rewrite En.
    assert (N.to_nat (1 + (n - (count + 1))) = S (N.to_nat (n - (count + 1)))) as -> by lia. cbn [take]. rewrite fmap_cons, sumN_cons.
    destruct (N.eqb_spec (count + 1) 0); [lia|]. cbn [head fmap option_fmap option_map default from_option id].
    split_and!; try lia.
    + apply andb_false_iff in Hcut as [Hz%N.ltb_ge|Hfit%N.ltb_ge]; [assert (count = 0) as -> by lia; rewrite H0 in * by lia; cbn; lia|].
      destruct (N.eqb_spec count 0); lia.
    + intros s Hget. rewrite get_cons_S in Hget. destruct (H5 s Hget) as [?|?]; [by left|right; lia].
Qed.

(** What a chunk is: within both caps, unless its first source alone is over
    budget, and as long as they allow. *)
Record chunk_ok (sources : list SourceObject) (chunk : N * N) : Prop := {
  ch_range : chunk.1 < chunk.2 <= len sources;
  ch_count : chunk.2 - chunk.1 <= BUILD_FETCH_CHUNK;
  ch_bytes : forall first, get sources chunk.1 = Some first ->
    encoded_total (cut sources chunk.1 chunk.2) <= N.max BUILD_FETCH_BYTES (so_encoded_size first);
  ch_greedy : forall next, get sources chunk.2 = Some next ->
    chunk.2 - chunk.1 = BUILD_FETCH_CHUNK \/ BUILD_FETCH_BYTES < encoded_total (cut sources chunk.1 chunk.2) + so_encoded_size next;
}.
(** Ranges one after the other, from [a] to [b]. *)
Fixpoint chained (a : N) (chunks : list (N * N)) (b : N) : Prop :=
  match chunks with
  | [] => a = b
  | chunk :: chunks => chunk.1 = a /\ chained chunk.2 chunks b
  end.

Lemma chunks_from_ok fuel sources start :
  Forall (fun source => so_encoded_size source < U64) sources -> start <= len sources -> len sources <= start + N.of_nat fuel ->
  Forall (chunk_ok sources) (chunks_from fuel sources start) /\ chained start (chunks_from fuel sources start) (len sources).
Proof.
  intros Hs. revert start. induction fuel as [|fuel IH]; intros start Hle Hf; cbn [chunks_from]; [split; [constructor|cbn; lia]|].
  destruct (N.leb_spec (len sources) start) as [Hge|Hlt]; [split; [constructor|cbn; lia]|].
  assert (drop (N.to_nat start) sources <> []) as Hne.
  { intros E%(f_equal length). rewrite length_drop in E. unfold len in *. cbn in E. lia. }
  destruct (chunk_len_spec (drop (N.to_nat start) sources) 0 0) as (H1 & H2 & H3 & H4 & H5); [by apply Forall_drop|done|done|done|].
  set (n := chunk_len _ 0 0) in *. specialize (H3 eq_refl Hne). rewrite N.sub_0_r, N.add_0_l in *. rewrite len_drop in H2. cbv zeta.
  assert (forall i, get (drop (N.to_nat start) sources) i = get sources (start + i)) as Hget.
  { intros i. unfold get. rewrite lookup_drop. f_equal. lia. }
  assert (cut sources start (start + n) = take (N.to_nat n) (drop (N.to_nat start) sources)) as Hcut.
  { unfold cut. f_equal. lia. }
  destruct (IH (start + n)) as [Hall Hch]; [lia|lia|]. split; [|by cbn]. constructor; [|exact Hall]. split; cbn [fst snd].
  - lia.
  - rewrite N.add_comm, N.add_sub. apply H1.
  - intros first Hfirst. rewrite Hcut. etrans; [exact H4|]. assert (head (drop (N.to_nat start) sources) = Some first) as ->; [|cbn; lia].
    rewrite <- Hfirst, <- (N.add_0_r start), <- Hget. destruct (drop (N.to_nat (start + 0)) sources) eqn:E; rewrite N.add_0_r in E; by rewrite E.
  - intros next Hnext. rewrite <- Hget in Hnext. rewrite Hcut, N.add_comm, N.add_sub. by apply H5.
Qed.

(** ** Driving the chunks *)

Section drive_proofs.
Context {T S : Type} (prefetchable : N * N -> res bool) (fetch : N * N -> res T) (process : S -> N * N -> T -> res S).
(** One chunk at a time. *)
Definition sequential (s : S) (chunk : N * N) : res S := fetched ← fetch chunk; process s chunk fetched.
(** The same, but for a panic that a spawned fetch turned into an error. *)
Definition same_or_caught (r r' : res S) : Prop :=
  match r' with
  | Panic w => r = Panic w \/ r = Err "prefetch thread panicked"
  | _ => r = r'
  end.

Lemma same_safe r r' (P : S -> Prop) : same_or_caught r r' -> safe r' P -> safe r P.
Proof. intros H [[e ->]|(s & -> & Hs)]; cbn in H; rewrite H; [left; by eexists|by apply safe_ok]. Qed.

Lemma drive_loop_ok pending chunks s :
  Forall (fun chunk => is_ok (prefetchable chunk) = true) chunks ->
  match pending, chunks with
  | Some handle, chunk :: _ => handle = catch_unwind (fetch chunk)
  | _, _ => True
  end ->
  same_or_caught (drive_loop prefetchable fetch process pending chunks s) (foldM sequential s chunks).
Proof.
  revert pending s. induction chunks as [|chunk chunks IH]; intros pending s Hpre Hp; [done|]. cbn [drive_loop foldM].
  apply Forall_cons in Hpre as [H1 Hpre]. unfold sequential at 2.
  assert (exists pending', match chunks with
      | next :: _ =>
          this_fits ← prefetchable chunk;
          next_fits ← (if this_fits : bool then prefetchable next else Ok false);
          Ok (if next_fits : bool then Some (catch_unwind (fetch next)) else None)
      | [] => Ok None
      end = Ok pending' /\ match pending', chunks with Some handle, next :: _ => handle = catch_unwind (fetch next) | _, _ => True end) as (pending' & E & Hp').
  { destruct chunks as [|next chunks]; [by exists None|]. pose proof (Forall_inv Hpre) as H2. cbv beta in H2.
    destruct (prefetchable chunk) as [[]|?|?]; [|by exists None|done..]. cbn [mbind res_bind]. destruct (prefetchable next) as [[]|?|?]; [|by exists None|done..].
    cbn [mbind res_bind]. by eexists. }
  destruct (match pending with Some handle => handle | None => fetch chunk end) as [fetched|e|w] eqn:Ef.
  - assert (fetch chunk = Ok fetched) as ->.
    { destruct pending as [handle|]; [|done]. subst handle. by destruct (fetch chunk). }
    cbn [mbind res_bind]. rewrite E. cbn [mbind res_bind]. destruct (process s chunk fetched) as [s'|?|?]; cbn [mbind res_bind same_or_caught]; [by apply IH|done|by left].
  - cbn [mbind res_bind]. destruct pending as [handle|]; [|by rewrite Ef]. subst handle. destruct (fetch chunk); [done|by injection Ef as ->|]. injection Ef as <-. by right.
  - cbn [mbind res_bind]. destruct pending as [handle|]; [|rewrite Ef; by left]. subst handle. by destruct (fetch chunk).
Qed.
End drive_proofs.

Lemma to_u32_safe a : safe (to_u32 a) (fun b => b = a /\ a < U32).
Proof. destruct (to_u32 a) eqn:E; [apply safe_ok; by apply to_u32_ok|left; by eexists|]. unfold to_u32 in E. by destruct (_ <? _). Qed.

Lemma mapM_res_safe {A B} (f : A -> res B) (P : A -> B -> Prop) l :
  (forall a, a ∈ l -> safe (f a) (P a)) -> safe (mapM_res f l) (Forall2 P l).
Proof.
  induction l as [|a l IH]; intros H; cbn [mapM_res]; [by apply safe_ok|]. eapply safe_bind; [apply H; left|]. intros b Hb.
  eapply safe_bind; [apply IH; intros; apply H; by right|]. intros bs Hbs. apply safe_ok. by constructor.
Qed.

(** ** What the sink keeps *)

Definition body_of_doc (d : Document) : list N := body_bytes d.2.
Lemma decoded_bytes_snoc docs d : decoded_bytes (docs ++ [d]) = decoded_bytes docs + len (body_of_doc d).
Proof. unfold decoded_bytes. rewrite fmap_app. apply sumN_snoc. Qed.
Lemma decoded_bytes_concat docs : decoded_bytes docs = len (concat (body_of_doc <$> docs)).
Proof. induction docs as [|d docs IH]; [done|]. unfold decoded_bytes in *. cbn [fmap list_fmap concat]. by rewrite sumN_cons, len_app, IH. Qed.

Section sink_proofs.
Context (radsort : list N -> list N) (strategy : Strategy).

Lemma count_block_newlines_ok bytes : exists newlines, count_block_newlines bytes = Ok newlines /\ newlines_ok bytes newlines.
Proof.
  assert (count_block_newlines bytes = Ok (count_newlines <$> chunks (N.to_nat CANDIDATE_BLOCK_BYTES) bytes)) as E.
  { unfold count_block_newlines. apply mapM_res_ok, Forall2_fmap_r, Forall_Forall2_diag, Forall_forall. intros block [i Hi]%list_elem_of_lookup.
    apply lookup_chunks in Hi as ->; [|unfold CANDIDATE_BLOCK_BYTES; lia]. cbv zeta. set (block := take _ _).
    assert (count_newlines block < U32); [|by destruct (N.ltb_spec (count_newlines block) U32); [|lia]].
    unfold count_newlines, len. pose proof (length_filter (fun byte => byte = NEWLINE) block). subst block. rewrite length_take in H.
    change CANDIDATE_BLOCK_BYTES with 131072 in *. lia. }
  eexists. split; [exact E|]. split.
  - rewrite len_fmap. by apply len_chunks.
  - intros block Hb. rewrite len_fmap in Hb. destruct (get_is_Some (chunks (N.to_nat CANDIDATE_BLOCK_BYTES) bytes) block Hb) as [c Hc]. unfold get in *.
    rewrite list_lookup_fmap, Hc. cbn. do 2 f_equal. rewrite len_chunks in Hb by done. apply lookup_chunks in Hc as ->; [|unfold CANDIDATE_BLOCK_BYTES; lia].
    unfold cut. rewrite <- (N2Nat.inj_mul block). change CANDIDATE_BLOCK_BYTES with 131072 in *. set (l := drop _ bytes).
    destruct (N.le_gt_cases ((block + 1) * 131072) (len bytes)) as [Hle|Hgt].
    + f_equal. lia.
    + rewrite !take_ge; [done|..]; subst l; rewrite length_drop; unfold len in *; lia.
Qed.

Lemma track_max_line_longest bytes : longest_line bytes (track_max_line bytes (0, 0)).2.
Proof. apply tracked_longest; [apply (track_max_line_ok [] bytes (0, 0)), tracked_nil|apply track_max_line_full]. Qed.

(** A content, and the grams of a document, with the spool they may be in. *)
Definition content_holds (spool : option (list N)) (content : BuiltContent) (bytes : list N) : Prop :=
  match content with
  | CoBytes b | CoFile b => b = bytes
  | CoSpool offset => exists file, spool = Some file /\ get_range file offset (offset + len bytes) = Some bytes
  end.
Definition grams_hold (spool : option (list N)) (grams : IndexedGrams) (bytes : list N) : Prop :=
  match strategy with Trigram => block_grams_of radsort spool grams bytes | Sparse => sparse_grams_of spool grams bytes end.
(** The lines are known at once when a trigram document is in memory. *)
Definition lines_hold (max_line : option N) (newlines : option (list N)) (grams : IndexedGrams) (bytes : list N) : Prop :=
  match strategy with
  | Trigram =>
      if deferred grams then max_line = None /\ newlines = None
      else exists m nl, max_line = Some m /\ newlines = Some nl /\ longest_line bytes m /\ newlines_ok bytes nl
  | Sparse => max_line = None /\ newlines = None
  end.

Record built_doc_ok (spool : option (list N)) (d : Document) (b : BuiltDocument) : Prop := {
  bk_meta : bd_meta b = d.1;
  bk_size : bd_decoded_size b = len (body_of_doc d);
  bk_content : content_holds spool (bd_content b) (body_of_doc d);
  bk_grams : grams_hold spool (bd_grams b) (body_of_doc d);
  bk_lines : lines_hold (bd_max_line_len b) (bd_block_newlines b) (bd_grams b) (body_of_doc d);
}.

(** The sink between documents. *)
Record sink_holds (limit : option N) (spooled : bool) (docs : list Document) (k : IndexDecodeSink) : Prop := {
  sh_strategy : ks_strategy k = strategy;
  sh_limit : ks_document_limit k = limit;
  sh_meta : ks_current_meta k = None;
  sh_output : ks_current_output k = OutBytes [];
  sh_docs : Forall2 (built_doc_ok (ks_spool k)) docs (ks_documents k);
  sh_spool : if spooled then ks_spool k = Some (concat (body_of_doc <$> docs)) /\ ks_spool_len k = decoded_bytes docs else ks_spool k = None;
}.

Lemma built_doc_extend file more d b : len (file ++ more) < U64 -> built_doc_ok (Some file) d b -> built_doc_ok (Some (file ++ more)) d b.
Proof.
  intros Hl [H1 H2 H3 H4 H5]. split; [done|done| | |done].
  - destruct (bd_content b); cbn in *; [done|done|]. destruct H3 as (f & [= <-] & Hr). eexists. split; [done|]. by apply get_range_app_l.
  - unfold grams_hold in *. destruct strategy; cbn [block_grams_of sparse_grams_of] in *; destruct (bd_grams b); try done; cbn in *.
    + destruct H4 as (f & [= <-] & Ht & Hlen). exists (file ++ more). split; [done|]. split; [|done]. rewrite <- Ht at 1.
      assert (length (take (N.to_nat length_) (drop (N.to_nat offset) file)) = N.to_nat length_) as Hn by (rewrite Ht, <- Hlen; unfold len; lia).
      rewrite length_take, length_drop in Hn. destruct (decide (N.to_nat offset <= length file)%nat).
      * rewrite drop_app_le by done. rewrite take_app_le; [done|]. rewrite length_drop. lia.
      * assert (N.to_nat length_ = 0%nat) as -> by lia. done.
    + destruct H4 as (f & [= <-] & Hr & Hlen & Hlt). eexists. split; [done|]. split; [by apply get_range_app_l|done].
Qed.

(** The output of a document before it is finished. *)
Definition output_holds (k : IndexDecodeSink) (output : IndexOutput) (bytes : list N) : Prop :=
  match output with
  | OutBytes chunks => (length chunks <= 1)%nat /\ concat chunks = bytes
  | OutFile grams length_ content => content = bytes /\ length_ = len bytes /\
      match ks_spool k with
      | Some _ => grams = None
      | None => exists g, grams = Some g /\ deferred g = true /\ grams_hold None g bytes
      end
  end.

Lemma finish_output_ok k output bytes :
  ks_strategy k = strategy -> output_holds k output bytes ->
  exists grams content max_line newlines,
    finish_output radsort k output = Ok (grams, len bytes, content, max_line, newlines) /\ (content = CoBytes bytes \/ content = CoFile bytes) /\
    match ks_spool k with
    | Some _ => grams = None /\ max_line = None /\ newlines = None
    | None => exists g, grams = Some g /\ grams_hold None g bytes /\ lines_hold max_line newlines g bytes
    end.
Proof.
  intros Hk Ho. unfold finish_output. rewrite Hk. destruct output as [chunks|grams length_ content]; cbn [output_holds] in Ho.
  2: { destruct Ho as (-> & -> & Hg). exists grams, (CoFile bytes), None, None. split; [done|]. split; [by right|].
       destruct (ks_spool k); [by subst|]. destruct Hg as (g & -> & Hd & Hg). exists g. split; [done|]. split; [done|]. unfold lines_hold. by rewrite Hd; destruct strategy. }
  destruct Ho as [Hc <-]. assert (match chunks with
      | [] => Ok []
      | [chunk] => Ok chunk
      | _ => _ ← foldM (fun length_ chunk => with_context (checked_add U64 length_ (len chunk)) "decoded document length overflows") 0 chunks; Ok (concat chunks)
      end = Ok (concat chunks)) as ->.
  { destruct chunks as [|c [|]]; cbn [concat]; [done|by rewrite app_nil_r|cbn in Hc; lia]. }
  cbn [mbind res_bind]. set (bytes := concat chunks). destruct (ks_spool k) as [spool|]; cbn [bool_decide].
  - rewrite bool_decide_false by done. cbn [andb mbind res_bind]. do 4 eexists. split; [done|]. split; [by left|done].
  - rewrite bool_decide_true by done. cbn [andb]. destruct (count_block_newlines_ok bytes) as (nl & E & Hnl). pose proof (track_max_line_longest bytes) as Hm.
    unfold grams_hold, lines_hold. destruct strategy.
    + rewrite bool_decide_true by done. rewrite E. cbn [mbind res_bind]. do 4 eexists. split; [done|]. split; [by left|]. eexists. split; [done|]. split; [done|].
      cbn [deferred]. by do 2 eexists.
    + rewrite bool_decide_false by done. cbn [mbind res_bind]. do 4 eexists. split; [done|]. split; [by left|]. eexists. split; [done|]. done.
Qed.

Lemma index_finish_ok limit spooled docs k d output :
  sink_holds limit spooled docs k -> output_holds k output (body_of_doc d) -> decoded_bytes (docs ++ [d]) < U64 ->
  exists k', index_finish radsort (set_current (Some d.1) output k) = Ok k' /\ sink_holds limit spooled (docs ++ [d]) k'.
Proof.
  intros [H1 H2 H3 H4 H5 H6] Ho Hb. unfold index_finish. cbn [set_current ks_current_meta ks_current_output with_context mbind res_bind].
  set (k1 := set_current None (OutBytes []) (set_current (Some d.1) output k)).
  destruct (finish_output_ok k1 output (body_of_doc d)) as (grams & content & ml & nl & -> & Hc & Hs); [done|exact Ho|]. cbn [mbind res_bind].
  rewrite decoded_bytes_snoc in Hb. unfold store_content. change (ks_spool k1) with (ks_spool k) in *. destruct spooled.
  - destruct H6 as [Hsp Hlen]. rewrite Hsp in *. destruct Hs as (-> & -> & ->).
    assert (match content with CoBytes bytes => Ok bytes | CoFile file => Ok (take (N.to_nat (len (body_of_doc d))) file) | CoSpool _ => Err "document content was spooled twice" end
      = Ok (body_of_doc d)) as ->.
    { destruct Hc as [->| ->]; [done|]. by rewrite to_nat_len, firstn_all. }
    cbn [mbind res_bind]. rewrite N.eqb_refl. cbn [ensure mbind res_bind]. change (ks_spool_len k1) with (ks_spool_len k). rewrite Hlen.
    assert (checked_add U64 (decoded_bytes docs) (len (body_of_doc d)) = Some (decoded_bytes docs + len (body_of_doc d))) as -> by (apply checked_add_Some; lia).
    cbn [with_context mbind res_bind]. change (ks_strategy k1) with (ks_strategy k). cbn [ks_strategy]. rewrite H1.
    set (file := concat (body_of_doc <$> docs)) in *. assert (len file = decoded_bytes docs) as Hf by (by rewrite decoded_bytes_concat).
    assert (get_range (file ++ body_of_doc d) (decoded_bytes docs) (decoded_bytes docs + len (body_of_doc d)) = Some (body_of_doc d)) as Hr
      by (apply get_range_suffix; rewrite Hf; done).
    assert (take (N.to_nat (len (body_of_doc d))) (drop (N.to_nat (decoded_bytes docs)) (file ++ body_of_doc d)) = body_of_doc d) as Ht.
    { rewrite <- Hf, !to_nat_len, drop_app_length. apply firstn_all. }
    assert (exists g, match strategy with
        | Trigram => Ok (GTrigramSpool (decoded_bytes docs) (len (body_of_doc d)))
        | Sparse => Ok (GSparseSpool (decoded_bytes docs) (len (body_of_doc d))) end = Ok g /\
      grams_hold (Some (file ++ body_of_doc d)) g (body_of_doc d) /\ deferred g = true) as (g & Eg & Hg & Hd).
    { unfold grams_hold. destruct strategy; (eexists; split; [done|]; split; [|done]); cbn; (exists (file ++ body_of_doc d)); [done|]. split_and!; done || lia. }
    rewrite Eg. cbn [mbind res_bind]. eexists. split; [done|]. split; cbn; [done..| |].
    + apply Forall2_app.
      * eapply Forall2_impl; [exact H5|]. intros. apply built_doc_extend; [rewrite len_app, Hf; lia|done].
      * constructor; [|constructor]. split; cbn; [done|done|by eexists|done|]. unfold lines_hold. rewrite Hd. by destruct strategy.
    + rewrite fmap_app, concat_app. cbn. rewrite app_nil_r. by rewrite decoded_bytes_snoc.
  - rewrite H6 in *. cbn [mbind res_bind]. destruct Hs as (g & -> & Hg & Hl). eexists. split; [done|]. split; cbn; [done|done|done|done| |done].
    rewrite H6. apply Forall2_app; [exact H5|]. constructor; [|constructor]. split; [done|done|by destruct Hc as [->| ->]|done|done].
Qed.

Lemma sink_document_ok limit spooled docs k d :
  sink_holds limit spooled docs k -> decoded_bytes (docs ++ [d]) < U64 ->
  let r := sink_document (DecodeSink0 := index_sink radsort) k d in
  (r = Err DOCUMENT_CAP_EXCEEDED /\ exists cap, limit = Some cap /\ cap <= len docs) \/ (exists k', r = Ok k' /\ sink_holds limit spooled (docs ++ [d]) k').
Proof.
  intros Hk Hb r. subst r. unfold sink_document. cbn [sink_begin index_sink]. pose proof Hk as [H1 H2 H3 H4 H5 H6]. unfold index_begin. rewrite H2, H3.
  rewrite bool_decide_true by done. cbn [ensure mbind res_bind]. assert (len (ks_documents k) = len docs) as Hl by (apply Forall2_length in H5; unfold len; by rewrite H5).
  destruct (match limit with Some cap => len (ks_documents k) <? cap | None => true end) eqn:Ecap; cbn [ensure mbind res_bind].
  2: { left. split; [done|]. destruct limit as [cap|]; [|done]. exists cap. split; [done|]. lia. }
  right. rewrite H4. cbn [sink_write_bytes sink_write_file Decode.sink_finish index_sink].
  assert (exists output, match d.2 with
      | BodyBytes [] | BodyFile [] => Ok (set_current (Some d.1) (OutBytes []) k)
      | BodyBytes bytes => index_write_bytes (set_current (Some d.1) (OutBytes []) k) bytes
      | BodyFile bytes => index_write_file (set_current (Some d.1) (OutBytes []) k) bytes (len bytes)
      end = Ok (set_current (Some d.1) output k) /\ output_holds k output (body_of_doc d)) as (output & E & Ho).
  { unfold body_of_doc. destruct d as [m [[|b bytes]|[|b bytes]]]; cbn [fst snd body_bytes].
    - exists (OutBytes []). split; [done|]. split; [cbn; lia|done].
    - exists (OutBytes [b :: bytes]). split; [unfold index_write_bytes; cbn [set_current ks_current_meta ks_current_output]; by rewrite bool_decide_false by done|]. cbn. rewrite app_nil_r. split; [lia|done].
    - exists (OutBytes []). split; [done|]. split; [cbn; lia|done].
    - unfold index_write_file. cbn [set_current ks_current_meta ks_current_output ks_spool ks_strategy]. rewrite bool_decide_false by done.
      cbn [negb ensure mbind res_bind]. rewrite bool_decide_true by done. cbn [ensure mbind res_bind]. eexists. split; [done|]. cbn [output_holds]. split; [done|]. split; [done|].
      destruct (ks_spool k) as [spool|]; [by rewrite decide_True by done|]. rewrite decide_False by (intros []; done). eexists. split; [done|]. rewrite H1. unfold grams_hold.
      destruct strategy; [split; [done|]; split; [by rewrite to_nat_len, firstn_all|done]|]. case_decide; done. }
  rewrite E. cbn [mbind res_bind]. by apply index_finish_ok.
Qed.
End sink_proofs.

(** ** What a source becomes *)

(** The documents of a source in the order of their keys. *)
Definition document_key (d : Document) : list N := dm_display_key d.1.

Record Outcome : Type := { oc_source : SourceObject; oc_encoding : SourceEncoding; oc_documents : list Document; oc_failed : bool; oc_retry : bool }.
(** The outcome of a source with the body that was fetched for it: the documents
    it decodes to, or a failure, to be retried when it had vanished. *)
Definition reference_outcome (x : Crates) (source : SourceObject) (body : option DocumentBody) : Outcome :=
  match body with
  | None => {| oc_source := source; oc_encoding := Raw; oc_documents := []; oc_failed := true; oc_retry := true |}
  | Some body =>
      match source_documents x (so_key source) DECODE_LIMITS body with
      | (Ok summary, docs) =>
          {| oc_source := source; oc_encoding := sm_encoding summary; oc_documents := sort_by_key document_key docs; oc_failed := false; oc_retry := false |}
      | _ => {| oc_source := source; oc_encoding := Raw; oc_documents := []; oc_failed := true; oc_retry := false |}
      end
  end.

Lemma Forall2_sort_by_key {A B} (R : A -> B -> Prop) (ka : A -> list N) (kb : B -> list N) l k :
  (forall a b, R a b -> ka a = kb b) -> Forall2 R l k -> Forall2 R (sort_by_key ka l) (sort_by_key kb k).
Proof.
  intros Hk. unfold sort_by_key, sort_by. induction 1 as [|a b l k Hab _ IH]; cbn [foldr]; [constructor|]. revert IH.
  generalize (foldr (insert_sorted (fun a b => lex_leb (ka a) (ka b))) [] l), (foldr (insert_sorted (fun a b => lex_leb (kb a) (kb b))) [] k).
  induction 1 as [|a' b' l' k' Hab' Hl IH]; cbn [insert_sorted]; [by constructor|]. rewrite (Hk a b Hab), (Hk a' b' Hab').
  destruct (lex_leb _ _); repeat constructor; done.
Qed.

Section source_proofs.
Context (x : Crates) `{!CratesOk x} (radsort : list N -> list N) (strategy : Strategy).

(** What building a source returns. *)
Definition build_holds (spooled : bool) (source : SourceObject) (body : DocumentBody) (outcome : SourceBuild) : Prop :=
  match outcome, source_documents x (so_key source) DECODE_LIMITS body with
  | SDecoded encoding_ documents_ spool _, (Ok summary, docs) =>
      encoding_ = sm_encoding summary /\ Forall2 (built_doc_ok radsort strategy spool) docs documents_ /\ (spooled = false -> spool = None)
  | SFailed, (Err _, _) => True
  | _, _ => False
  end.

Lemma sink_documents_ok limit spooled docs :
  decoded_bytes docs < U64 ->
  let r := foldM (sink_document (DecodeSink0 := index_sink radsort)) (new_sink strategy limit spooled) docs in
  r = Err DOCUMENT_CAP_EXCEEDED \/ exists k, r = Ok k /\ sink_holds radsort strategy limit spooled docs k.
Proof.
  intros Hb. cut (forall done_ docs k, decoded_bytes (done_ ++ docs) < U64 -> sink_holds radsort strategy limit spooled done_ k ->
    let r := foldM (sink_document (DecodeSink0 := index_sink radsort)) k docs in
    r = Err DOCUMENT_CAP_EXCEEDED \/ exists k', r = Ok k' /\ sink_holds radsort strategy limit spooled (done_ ++ docs) k').
  { intros H. apply (H [] docs); [done|]. split; cbn; try done. by destruct spooled. }
  clear. intros done_ docs. revert done_. induction docs as [|d docs IH]; intros done_ k Hb Hk; cbn [foldM].
  { right. exists k. by rewrite app_nil_r. }
  assert (decoded_bytes (done_ ++ [d]) < U64) as Hd.
  { rewrite decoded_bytes_concat in Hb |- *. rewrite fmap_app, concat_app, len_app in Hb |- *. cbn [fmap list_fmap concat] in Hb |- *. rewrite len_app in Hb. rewrite app_nil_r. lia. }
  destruct (sink_document_ok radsort strategy limit spooled done_ k d Hk Hd) as [[-> _]|(k' & -> & Hk')]; [by left|]. cbn [mbind res_bind].
  assert (done_ ++ d :: docs = (done_ ++ [d]) ++ docs) as E by (by rewrite <- app_assoc). rewrite E in *. by apply IH.
Qed.

Lemma build_source_ok source body limit spooled :
  safe (build_source x radsort source body strategy limit spooled) (build_holds spooled source body).
Proof.
  unfold build_source, build_holds. pose proof (source_documents_ok x (so_key source) DECODE_LIMITS body ltac:(done)) as Hok.
  pose proof (decode_source_run x (so_key source) DECODE_LIMITS body (K := IndexDecodeSink) (DecodeSink0 := index_sink radsort) (new_sink strategy limit spooled)) as Hrun.
  destruct (source_documents x (so_key source) DECODE_LIMITS body) as [r docs]. destruct Hok as [[_ _ Hsize] Hr].
  assert (decoded_bytes docs < U64) as Hb by (cbn in Hsize; lia).
  destruct (sink_documents_ok limit spooled docs Hb) as [E|(k & E & Hk)]; rewrite E in Hrun.
  - destruct Hrun as [k' ->]. left. by eexists.
  - rewrite Hrun. destruct r as [summary|e|w]; [|destruct (is_cap_exceeded e); [left; by eexists|by apply safe_ok]|done].
    apply safe_ok. split; [done|]. split; [apply Hk|]. intros ->. apply Hk.
Qed.

Lemma sorted_documents spool docs documents_ :
  Forall2 (built_doc_ok radsort strategy spool) docs documents_ ->
  Forall2 (built_doc_ok radsort strategy spool) (sort_by_key document_key docs) (sort_by_key display_key_bytes documents_).
Proof. apply Forall2_sort_by_key. intros d b [H _ _ _ _]. unfold document_key, display_key_bytes. by rewrite H. Qed.
End source_proofs.

(** ** The tables, packs and runs of some documents *)

(** The documents of the outcomes, with the sources they are from. *)
Definition located (outcomes : list Outcome) : list (N * Document) :=
  enumerate outcomes ≫= (fun '(i, o) => (fun d => (i, d)) <$> oc_documents o).
Definition loc_bytes (p : N * Document) : list N := body_of_doc p.2.
Definition contents_of (locs : list (N * Document)) : list (list N) := loc_bytes <$> locs.

(** The entry of a document, without its lines. *)
Definition bare_entry (p : N * Document) (slice : PackSlice) : DocEntry :=
  {| display_key := dm_display_key p.2.1; source_id := p.1; member_path := dm_member_path p.2.1; decoded_size := len (loc_bytes p);
     first_block := ps_first_block slice; block_offset := ps_block_offset slice; max_line_len := 0; block_newlines := [] |}.

Definition content_blocks (content : list N) : N := div_ceil (len content) CANDIDATE_BLOCK_BYTES.
(** The blocks of the documents before the [i]-th. *)
Definition blocks_before (contents : list (list N)) (i : N) : N := sumN (take (N.to_nat i) (content_blocks <$> contents)).

Lemma blocks_before_app contents more i : i <= len contents -> blocks_before (contents ++ more) i = blocks_before contents i.
Proof. intros H. unfold blocks_before. rewrite fmap_app, take_app_le; [done|]. rewrite length_fmap. unfold len in H. lia. Qed.
Lemma blocks_before_all contents : blocks_before contents (len contents) = sumN (content_blocks <$> contents).
Proof. unfold blocks_before. rewrite take_ge; [done|]. rewrite length_fmap. unfold len. lia. Qed.
Lemma blocks_before_next contents i data : get contents i = Some data -> blocks_before contents i + content_blocks data = blocks_before contents (i + 1).
Proof.
  intros H. unfold blocks_before, get in *. replace (N.to_nat (i + 1)) with (S (N.to_nat i)) by lia.
  rewrite (take_S_r _ _ (content_blocks data)); [|by rewrite list_lookup_fmap, H]. by rewrite sumN_snoc.
Qed.
Lemma blocks_before_total contents i : blocks_before contents i <= sumN (content_blocks <$> contents).
Proof. apply sumN_take_le. Qed.

Section ingest_proofs.
Context (x : Crates) (compress : list N -> res (list N)) (decompress : list N -> N -> res (list N)) (sha256 : list N -> list N).
Context `{!Codec compress decompress sha256} (radsort : list N -> list N) `{!SortsN radsort} (rapidhash_v3 : list N -> N) (workers : N).
Context (strategy : Strategy).

(** A posting of a document with some bytes, base and id. *)
Definition posting_at (data : list N) (base doc : N) (r : N * N) : Prop :=
  match strategy with
  | Trigram => exists block gram, (block, gram) ∈ pack_trigram_block_grams radsort data /\ r = (gram, base + block)
  | Sparse => exists grams gram, grams_index rapidhash_v3 radsort data Sparse = Ok grams /\ gram ∈ grams /\ r = (hash_ngram rapidhash_v3 gram, doc)
  end.
(** A posting of one of the documents from [a] to [b]. *)
Definition posting_in (contents : list (list N)) (a b : N) (r : N * N) : Prop :=
  exists i data, a <= i < b /\ get contents i = Some data /\ posting_at data (blocks_before contents i) i r.
Definition entry_lines (data : list N) (entry : DocEntry) : Prop :=
  match strategy with
  | Trigram => exists m, longest_line data m /\ max_line_len entry = N.min m (U32 - 1) /\ newlines_ok data (block_newlines entry)
  | Sparse => max_line_len entry = 0 /\ block_newlines entry = []
  end.

(** A batch of documents from [from] on. *)
Record batch_holds (spool : option (list N)) (contents : list (list N)) (from : N) (grammed : list GrammedDoc) : Prop := {
  bh_len : from + len grammed = len contents;
  bh_docs : forall j doc data, get grammed j = Some doc -> get contents (from + j) = Some data ->
    gd_doc_id doc = from + j /\ gd_base doc = blocks_before contents (from + j) /\ grams_hold radsort strategy spool (gd_grams doc) data;
}.

Record packs_hold (locs : list (N * Document)) (st : Ingest) (slices : list PackSlice) (decoded : list (list N)) : Prop := {
  pk_docs : set_lines 0 [] <$> documents (ig_tables st) = zip_with bare_entry locs slices;
  pk_placed : placed_all PACK_BLOCK_BYTES (contents_of locs) slices;
  pk_filling : filling decompress sha256 (ig_pack_builder st) decoded;
  pk_stream : stream (ig_pack_builder st) decoded = concat (contents_of locs);
  pk_sizes : block_bytes (ig_pack_builder st) = PACK_BLOCK_BYTES /\ pack_bytes (ig_pack_builder st) = PACK_TARGET_BYTES;
}.

(** The state when the documents [locs] are in the tables, the last of them still
    in the batch. *)
Record tables_hold (spool : option (list N)) (locs : list (N * Document)) (grammed : list GrammedDoc) (from : N) (st : Ingest) : Prop := {
  th_packs : exists slices decoded, packs_hold locs st slices decoded;
  th_base : ig_next_block_base st = sumN (content_blocks <$> contents_of locs);
  th_bytes : Forall (fun data => Forall is_byte data /\ len data < U64) (contents_of locs);
  th_batch : batch_holds spool (contents_of locs) from grammed;
  th_runs : runs_hold strategy (ig_runs st) (posting_in (contents_of locs) 0 from);
  th_lines : forall i data entry, get (contents_of locs) i = Some data -> get (documents (ig_tables st)) i = Some entry ->
    entry_lines data entry \/ strategy = Trigram /\ exists j doc, i = from + j /\ get grammed j = Some doc /\ deferred (gd_grams doc) = true;
}.

Lemma len_contents_of locs : len (contents_of locs) = len locs.
Proof. apply len_fmap. Qed.
Lemma packs_hold_len locs st slices decoded : packs_hold locs st slices decoded -> len (documents (ig_tables st)) = len locs /\ len slices = len locs.
Proof.
  intros [H [Hl _] _ _ _]. rewrite len_contents_of in Hl. split; [|done]. apply (f_equal len) in H. rewrite len_fmap in H. rewrite H. unfold len in *.
  rewrite length_zip_with. lia.
Qed.

Lemma content_append_ok content builder spool bytes :
  content_holds spool content bytes -> content_append compress sha256 content builder (len bytes) spool = append compress sha256 builder bytes (len bytes).
Proof.
  destruct content as [b|b|offset]; cbn [content_holds content_append]; [by intros ->..|]. intros (file & -> & (_ & _ & H)%get_range_Some).
  cbn [with_context mbind res_bind]. f_equal. rewrite H at 2. f_equal. lia.
Qed.

Lemma get_snoc_cases {A} (l : list A) a i y : get (l ++ [a]) i = Some y -> get l i = Some y \/ i = len l /\ y = a.
Proof. intros H. by apply get_snoc. Qed.

(** What only the loop over the sources changes. *)
Definition kept (st st' : Ingest) : Prop :=
  sources (ig_tables st') = sources (ig_tables st) /\ blocks (ig_tables st') = blocks (ig_tables st) /\ ig_failed st' = ig_failed st.

(** A document joins the batch. *)
Lemma batch_snoc spool contents from grammed doc data :
  batch_holds spool contents from grammed -> gd_doc_id doc = len contents -> gd_base doc = sumN (content_blocks <$> contents) ->
  grams_hold radsort strategy spool (gd_grams doc) data -> batch_holds spool (contents ++ [data]) from (grammed ++ [doc]).
Proof.
  intros [Hl Hd] Hid Hb Hg. split; [rewrite !len_app; change (len [doc]) with 1; change (len [data]) with 1; lia|].
  intros j d c Hj Hc. apply get_snoc_cases in Hj as [Hj|[-> ->]].
  - pose proof (get_Some_lt _ _ _ Hj) as Hlt. rewrite get_app_l in Hc by lia. rewrite blocks_before_app by lia. by apply Hd.
  - rewrite Hl in Hc |- *. rewrite get_middle in Hc. injection Hc as <-. rewrite blocks_before_app, blocks_before_all by lia. done.
Qed.

Lemma posting_in_app contents more a b r : b <= len contents -> posting_in (contents ++ more) a b r <-> posting_in contents a b r.
Proof.
  intros Hb. unfold posting_in. split; intros (i & data & Hi & Hg & H); exists i, data; (split; [done|]).
  - rewrite get_app_l in Hg by lia. rewrite blocks_before_app in H by lia. done.
  - rewrite get_app_l by lia. rewrite blocks_before_app by lia. done.
Qed.

Lemma lines_of_entry spool d b entry :
  built_doc_ok radsort strategy spool d b ->
  max_line_len entry = N.min (default 0 (bd_max_line_len b)) (U32 - 1) -> block_newlines entry = default [] (bd_block_newlines b) ->
  entry_lines (body_of_doc d) entry \/ strategy = Trigram /\ deferred (bd_grams b) = true.
Proof.
  intros [_ _ _ _ Hl] Hm Hn. unfold lines_hold, entry_lines in *. destruct strategy.
  - destruct (deferred (bd_grams b)); [by right|]. left. destruct Hl as (m & nl & Em & En & Hlong & Hnl). rewrite Em, En in *. by exists m; rewrite Hm, Hn.
  - destruct Hl as [Em En]. rewrite Em, En in *. left. by rewrite Hm, Hn.
Qed.

Lemma ingest_document_ok spool locs grammed from st source_id_ d b :
  tables_hold spool locs grammed from st -> built_doc_ok radsort strategy spool d b -> Forall is_byte (body_of_doc d) -> len (body_of_doc d) < U64 ->
  safe (ingest_document compress sha256 source_id_ spool (st, grammed) b) (fun '(st', grammed') =>
    tables_hold spool (locs ++ [(source_id_, d)]) grammed' from st' /\ kept st st').
Proof.
  intros [(slices & decoded & Hp) Hbase Hbytes Hbatch Hruns Hlines] Hb His Hlen. pose proof Hb as [Hm Hsz Hc Hg Hl].
  destruct (packs_hold_len _ _ _ _ Hp) as [Hld Hls]. destruct Hp as [Hdocs Hpl Hf Hst [Hbb Hpb]]. unfold ingest_document. rewrite Hsz.
  rewrite (content_append_ok _ _ _ _ Hc). eapply safe_bind; [by apply append_safe|]. intros [builder slice] (decoded' & Hf' & Hst' & Hbb' & Hpb' & Hslice).
  destruct (N.ltb_spec (ig_next_block_base st) U32); [|left; by eexists]. cbn [mbind res_bind]. apply safe_ok. split; [|done].
  assert (contents_of (locs ++ [(source_id_, d)]) = contents_of locs ++ [body_of_doc d]) as Econt by (unfold contents_of; by rewrite fmap_app).
  pose proof (len_contents_of locs) as Hlc.
  split; cbn [ig_tables ig_pack_builder ig_next_block_base ig_runs set_documents documents]; rewrite ?Econt.
  - exists (slices ++ [slice]), decoded'. split; cbn [ig_tables ig_pack_builder set_documents documents]; rewrite ?Econt.
    + rewrite fmap_app, Hdocs. rewrite zip_with_app by (unfold len in Hls; lia). f_equal. cbn. unfold bare_entry, set_lines. cbn. by rewrite Hm.
    + apply placed_all_snoc; [done|]. by rewrite <- Hbb, <- Hst.
    + exact Hf'.
    + rewrite Hst', Hst, concat_app. cbn. by rewrite app_nil_r.
    + by rewrite Hbb', Hpb'.
  - rewrite fmap_app. cbn. rewrite sumN_snoc, Hbase. done.
  - apply Forall_app. split; [done|]. by constructor.
  - apply batch_snoc; cbn [gd_doc_id gd_base gd_grams]; [done|by rewrite Hlc|done|done].
  - apply (runs_hold_ext _ _ _ _ Hruns). intros r. symmetry. apply posting_in_app. destruct Hbatch as [Hl' _]. lia.
  - destruct Hbatch as [Hl' _]. intros i data entry Hi He. apply get_snoc_cases in Hi as [Hi|[-> ->]].
    + pose proof (get_Some_lt _ _ _ Hi). rewrite get_app_l in He by lia. destruct (Hlines i data entry Hi He) as [?|(Ht & j & doc & -> & Hj & Hd)]; [by left|].
      right. split; [done|]. exists j, doc. split; [done|]. split; [|done]. rewrite get_app_l; [done|]. by eapply get_Some_lt.
    + rewrite Hlc, <- Hld, get_middle in He. injection He as <-.
      match goal with |- entry_lines _ ?e \/ _ => destruct (lines_of_entry spool d b e Hb eq_refl eq_refl) as [?|[? ?]] end; [by left|].
      right. split; [done|]. exists (len grammed). eexists. split; [lia|]. split; [apply get_middle|done].
Qed.

Lemma ingest_documents_ok spool locs grammed from st source_id_ ds bs :
  tables_hold spool locs grammed from st -> Forall2 (built_doc_ok radsort strategy spool) ds bs ->
  Forall (fun d => Forall is_byte (body_of_doc d) /\ len (body_of_doc d) < U64) ds ->
  safe (foldM (ingest_document compress sha256 source_id_ spool) (st, grammed) bs) (fun '(st', grammed') =>
    tables_hold spool (locs ++ (pair source_id_ <$> ds)) grammed' from st' /\ kept st st').
Proof.
  intros Ht Hds. revert locs grammed st Ht. induction Hds as [|d b ds bs Hb _ IH]; intros locs grammed st Ht Hall; cbn [foldM].
  { apply safe_ok. by rewrite app_nil_r. }
  apply Forall_cons in Hall as [[His Hlen] Hall]. eapply safe_bind; [by apply ingest_document_ok|]. intros [st' grammed'] (Ht' & E1 & E2 & E3).
  eapply safe_weaken; [by apply IH|]. intros [st2 grammed2] (H & F1 & F2 & F3). rewrite <- app_assoc in H. split; [exact H|]. unfold kept. by rewrite F1, F2, F3.
Qed.

(** ** Writing a batch *)

Definition space_holds (contents : list (list N)) : Prop :=
  len contents < U32 /\ (strategy = Trigram -> sumN (content_blocks <$> contents) <= MAX_POSTING_COUNT).

Lemma batch_get spool contents from grammed j doc :
  batch_holds spool contents from grammed -> get grammed j = Some doc ->
  exists data, get contents (from + j) = Some data /\ get (drop (N.to_nat from) contents) j = Some data.
Proof.
  intros [Hl _] Hj. pose proof (get_Some_lt _ _ _ Hj). destruct (get_is_Some contents (from + j)) as [data Hd]; [lia|]. exists data. split; [done|].
  unfold get in *. rewrite lookup_drop, <- Hd. f_equal. lia.
Qed.

Lemma batch_bodies spool contents from grammed :
  batch_holds spool contents from grammed -> Forall (fun data => Forall is_byte data /\ len data < U64) contents -> space_holds contents ->
  Forall2 (body_source radsort strategy spool) grammed (drop (N.to_nat from) contents).
Proof.
  intros Hb Hbytes [Hlen Hspace]. apply Forall2_same_length_lookup_2.
  { destruct Hb as [Hl _]. rewrite length_drop. unfold len in *. lia. }
  intros j doc data Hj Hd. assert (get grammed (N.of_nat j) = Some doc) as Hj' by (unfold get; by rewrite Nat2N.id).
  destruct (batch_get _ _ _ _ _ _ Hb Hj') as (data' & Hg & Hg'). unfold get in Hg'. rewrite Nat2N.id, Hd in Hg'. injection Hg' as <-.
  destruct Hb as [Hl Hdocs]. destruct (Hdocs _ _ _ Hj' Hg) as (Hid & Hbase & Hgr). pose proof (get_Some_lt _ _ _ Hg).
  rewrite Forall_forall in Hbytes. destruct (Hbytes data) as [His Hsz]; [by eapply get_elem|]. unfold body_source, grams_hold in *. destruct strategy.
  - split; [done|]. split; [done|]. rewrite Hbase. change (div_ceil (len data) CANDIDATE_BLOCK_BYTES) with (content_blocks data). rewrite blocks_before_next by done.
    pose proof (blocks_before_total contents (from + N.of_nat j + 1)). specialize (Hspace eq_refl). unfold MAX_POSTING_COUNT in Hspace.
    change (N.shiftl 1 COUNT_BITS - 1) with 16777215 in Hspace. lia.
  - split_and!; [done|done|lia|done].
Qed.

Lemma batch_postings spool contents from grammed r :
  batch_holds spool contents from grammed ->
  (exists doc, doc ∈ zip grammed (drop (N.to_nat from) contents) /\ posting_of radsort rapidhash_v3 strategy doc r) <->
  posting_in contents from (len contents) r.
Proof.
  intros Hb. unfold posting_in. split.
  - intros ([doc data] & [j Hj]%list_elem_of_lookup & Hr). apply lookup_zip_with_Some in Hj as (doc' & data' & [= <- <-] & Hj & Hd).
    assert (get grammed (N.of_nat j) = Some doc) as Hj' by (unfold get; by rewrite Nat2N.id).
    destruct (batch_get _ _ _ _ _ _ Hb Hj') as (data' & Hg & Hg'). unfold get in Hg'. rewrite Nat2N.id, Hd in Hg'. injection Hg' as <-.
    pose proof (get_Some_lt _ _ _ Hg). destruct Hb as [Hl Hdocs]. destruct (Hdocs _ _ _ Hj' Hg) as (Hid & Hbase & _).
    exists (from + N.of_nat j), data. split; [lia|]. split; [done|]. unfold posting_of in Hr. cbn [fst snd] in Hr. rewrite Hid, Hbase in Hr. exact Hr.
  - intros (i & data & Hi & Hg & Hr). destruct Hb as [Hl Hdocs]. destruct (get_is_Some grammed (i - from)) as [doc Hj]; [lia|].
    assert (from + (i - from) = i) as Ei by lia. destruct (Hdocs (i - from) doc data Hj) as (Hid & Hbase & _); [by rewrite Ei|]. rewrite Ei in *.
    exists (doc, data). split.
    + apply list_elem_of_lookup. exists (N.to_nat (i - from)). apply lookup_zip_with_Some. exists doc, data. split; [done|]. split; [exact Hj|].
      rewrite lookup_drop. unfold get in Hg. rewrite <- Hg. f_equal. lia.
    + unfold posting_of. cbn [fst snd]. rewrite Hid, Hbase. exact Hr.
Qed.

Lemma runs_hold_app runs runs' P Q :
  runs_hold strategy runs P -> runs_hold strategy runs' Q -> runs_hold strategy (runs ++ runs') (fun r => P r \/ Q r).
Proof.
  intros (rs & -> & Hrs & H) (rs' & -> & Hrs' & H'). exists (rs ++ rs'). split; [by rewrite fmap_app|]. split; [by apply Forall_app|].
  intros r. by rewrite concat_app, elem_of_app, H, H'.
Qed.

Lemma set_lines_bare m nl entry : set_lines 0 [] (set_lines m nl entry) = set_lines 0 [] entry.
Proof. done. Qed.

(** Patching the lines of the documents that report them. *)
Lemma patch_lines_ok ps lines docs :
  Forall2 (fun p line => reported p.1 p.2 line) ps lines -> Forall (fun p => gd_doc_id p.1 < len docs) ps ->
  exists docs', foldM patch_line docs lines = Ok docs' /\ set_lines 0 [] <$> docs' = set_lines 0 [] <$> docs /\
    forall i entry, get docs' i = Some entry ->
      (exists p, p ∈ ps /\ gd_doc_id p.1 = i /\ exists m, longest_line p.2 m /\ max_line_len entry = N.min m (U32 - 1) /\ newlines_ok p.2 (block_newlines entry)) \/
      (get docs i = Some entry /\ forall p, p ∈ ps -> gd_doc_id p.1 <> i).
Proof.
  intros H. revert docs. induction H as [|p [[id m] nl] ps lines (Hid & Hm & Hnl) _ IH]; intros docs Hlt.
  { exists docs. split; [done|]. split; [done|]. intros i entry He. right. split; [done|]. by intros ? ?%elem_of_nil. }
  cbn in Hid, Hm, Hnl. subst id. apply Forall_cons in Hlt as [Hp Hps]. destruct (get_is_Some docs (gd_doc_id p.1) Hp) as [old Hold].
  cbn [foldM patch_line]. rewrite Hold. cbn [with_context mbind res_bind].
  destruct (IH (<[N.to_nat (gd_doc_id p.1) := set_lines m nl old]> docs)) as (docs' & E & Hbare & Hcases); [by rewrite len_set|]. exists docs'. split; [exact E|]. split.
  - rewrite Hbare, list_fmap_insert, set_lines_bare. apply list_insert_id. rewrite list_lookup_fmap. unfold get in Hold. by rewrite Hold.
  - intros i entry He. destruct (Hcases i entry He) as [(q & Hq & Hrest)|[Hget Hne]]; [left; exists q; split; [by right|done]|].
    destruct (decide (gd_doc_id p.1 = i)) as [<-|Hneq].
    + rewrite get_set_eq in Hget by done. injection Hget as <-. left. exists p. split; [left|]. split; [done|]. by exists m.
    + right. rewrite get_set_ne in Hget by done. split; [done|]. intros q [->|Hq]%elem_of_cons; [done|]. by apply Hne.
Qed.

Lemma batch_nil spool contents : batch_holds spool contents (len contents) [].
Proof. split; [rewrite len_nil; lia|]. intros j doc data H%get_Some_lt. rewrite len_nil in H. lia. Qed.

Lemma posting_in_split contents a b r : a <= b -> posting_in contents 0 a r \/ posting_in contents a b r <-> posting_in contents 0 b r.
Proof.
  intros Hab. unfold posting_in. split.
  - intros [(i & data & Hi & H)|(i & data & Hi & H)]; exists i, data; (split; [lia|exact H]).
  - intros (i & data & Hi & H). destruct (decide (i < a)); [left|right]; exists i, data; (split; [lia|exact H]).
Qed.

(** The runs of a batch, and what its documents report. *)
Lemma batch_runs spool contents from grammed :
  batch_holds spool contents from grammed -> Forall (fun data => Forall is_byte data /\ len data < U64) contents -> space_holds contents ->
  exists runs lines, write_posting_runs radsort rapidhash_v3 workers grammed strategy SPARSE_RUN_BYTES spool = Ok (runs, lines) /\
    runs_hold strategy runs (posting_in contents from (len contents)) /\
    match strategy with Trigram => reports grammed (drop (N.to_nat from) contents) lines | Sparse => lines = [] end.
Proof.
  intros Hb Hbytes Hspace. pose proof (batch_bodies _ _ _ _ Hb Hbytes Hspace) as Hbody. pose proof (batch_postings spool contents from grammed) as Hpost.
  unfold write_posting_runs, body_source in *. destruct strategy eqn:Es.
  - destruct (trigram_runs_ok radsort spool grammed _ Hbody) as (runs & lines & E & Hr & Hl). exists runs, lines. split; [exact E|]. split; [|exact Hl].
    apply (runs_hold_ext _ _ _ _ Hr). intros r. rewrite (all_records_spec radsort rapidhash_v3 grammed _ r). by rewrite <- Hpost by done.
  - destruct (sparse_runs_ok radsort rapidhash_v3 (N.min (N.max (SPARSE_RUN_BYTES / N.max workers 1) (2 ^ 20)) SPARSE_RUN_BYTES) spool grammed (drop (N.to_nat from) contents))
      as (runs & -> & Hr); [unfold SPARSE_RUN_BYTES; lia|exact Hbody|]. cbn [mbind res_bind]. exists (concat runs), []. split; [done|]. split; [|done].
    apply (runs_hold_ext _ _ _ _ Hr). intros r. by rewrite <- Hpost by done.
Qed.

Lemma write_runs_ok spool locs grammed from st :
  tables_hold spool locs grammed from st -> space_holds (contents_of locs) ->
  exists st', write_runs radsort rapidhash_v3 workers strategy st grammed spool = Ok st' /\ tables_hold None locs [] (len locs) st' /\
    kept st st'.
Proof.
  intros [(slices & decoded & Hp) Hbase Hbytes Hbatch Hruns Hlines] Hspace. destruct (packs_hold_len _ _ _ _ Hp) as [Hld _].
  destruct (batch_runs _ _ _ _ Hbatch Hbytes Hspace) as (runs & lines & E & Hr & Hrep). unfold write_runs. rewrite E. cbn [mbind res_bind].
  set (contents := contents_of locs) in *. pose proof (len_contents_of locs) as Hlc. change (contents_of locs) with contents in Hlc. pose proof Hbatch as [Hl Hdocs].
  assert (exists docs', foldM patch_line (documents (ig_tables st)) lines = Ok docs' /\ set_lines 0 [] <$> docs' = set_lines 0 [] <$> documents (ig_tables st) /\
    forall i data entry, get contents i = Some data -> get docs' i = Some entry -> entry_lines data entry) as (docs' & -> & Hbare & Hall).
  { unfold entry_lines in *. destruct strategy eqn:Es.
    2: { subst lines. exists (documents (ig_tables st)). split; [done|]. split; [done|]. intros i data entry Hi He. destruct (Hlines i data entry Hi He) as [?|[? _]]; done. }
    set (ps := filter (fun doc => deferred (gd_grams doc.1) = true) (zip grammed (drop (N.to_nat from) contents))) in *.
    assert (forall p, p ∈ ps <-> exists j doc data, p = (doc, data) /\ get grammed j = Some doc /\ get contents (from + j) = Some data /\ gd_doc_id doc = from + j /\ deferred (gd_grams doc) = true) as Hps.
    { intros p. subst ps. rewrite list_elem_of_filter, list_elem_of_lookup. setoid_rewrite lookup_zip_with_Some. split.
      - intros (Hd & j & doc & data & -> & Hj & Hdata). assert (get grammed (N.of_nat j) = Some doc) as Hj' by (unfold get; by rewrite Nat2N.id).
        destruct (batch_get _ _ _ _ _ _ Hbatch Hj') as (data' & Hg & Hg'). unfold get in Hg'. rewrite Nat2N.id, Hdata in Hg'. injection Hg' as <-.
        exists (N.of_nat j), doc, data. split_and!; [done|done|done|by apply (Hdocs _ _ _ Hj' Hg)|done].
      - intros (j & doc & data & -> & Hj & Hg & _ & Hd). split; [done|]. destruct (batch_get _ _ _ _ _ _ Hbatch Hj) as (data' & Hg' & Hdrop). rewrite Hg in Hg'. injection Hg' as <-.
        exists (N.to_nat j), doc, data. done. }
    destruct (patch_lines_ok ps lines (documents (ig_tables st))) as (docs' & -> & Hbare & Hcases); [exact Hrep| |].
    { apply Forall_forall. intros p (j & doc & data & -> & Hj & Hg & Hid & _)%Hps. cbn [fst]. rewrite Hid, Hld, <- Hlc. by eapply get_Some_lt. }
    exists docs'. split; [done|]. split; [done|]. intros i data entry Hi He. destruct (Hcases i entry He) as [(p & Hin & <- & Hok)|[Hget Hne]].
    - apply Hps in Hin as (j & doc & data' & -> & Hj & Hg & Hid & _). cbn [fst snd] in *. rewrite Hid, Hg in Hi. injection Hi as ->. exact Hok.
    - destruct (Hlines i data entry Hi Hget) as [?|(_ & j & doc & -> & Hj & Hd)]; [done|]. destruct (Hne (doc, data)).
      + apply Hps. exists j, doc, data. split_and!; [done|done|done|by apply (Hdocs _ _ _ Hj Hi)|done].
      + by apply (Hdocs _ _ _ Hj Hi). }
  cbn [mbind res_bind]. eexists. split; [done|]. split; [|done].
  split; cbn [ig_tables ig_pack_builder ig_next_block_base ig_runs set_documents documents]; change (contents_of locs) with contents; [|done|done| | |].
  - exists slices, decoded. destruct Hp as [H1 H2 H3 H4 H5]. split; cbn [ig_tables ig_pack_builder set_documents documents]; try done. by rewrite Hbare.
  - rewrite <- Hlc. apply batch_nil.
  - rewrite <- Hlc. eapply runs_hold_ext; [by apply runs_hold_app|]. intros r. apply posting_in_split. lia.
  - intros i data entry Hi He. left. by eapply Hall.
Qed.

(** ** Ingesting sources *)

Context (document_cap : option N).

Definition source_holds (o : Outcome) (e : SourceEntry) : Prop :=
  key e = so_key (oc_source o) /\ version e = so_version (oc_source o) /\ encoded_size e = so_encoded_size (oc_source o) /\
  encoding e = oc_encoding o /\ doc_count e = len (oc_documents o) /\ failed e = oc_failed o /\ retry e = oc_retry o.
Definition failed_outcomes (outs : list Outcome) : N := len (filter (fun o => oc_failed o = true) outs).

(** The state between sources. *)
Record ingest_holds (spool : option (list N)) (outs : list Outcome) (grammed : list GrammedDoc) (from : N) (st : Ingest) : Prop := {
  ih_tables : tables_hold spool (located outs) grammed from st;
  ih_sources : Forall2 source_holds outs (sources (ig_tables st));
  ih_blocks : blocks (ig_tables st) = [];
  ih_space : space_holds (contents_of (located outs));
  ih_cap : match document_cap with Some cap => len (located outs) <= cap | None => True end;
  ih_failed : ig_failed st = failed_outcomes outs;
}.

Lemma located_snoc outs o : located (outs ++ [o]) = located outs ++ (pair (len outs) <$> oc_documents o).
Proof.
  unfold located, enumerate. rewrite imap_app, bind_app. f_equal. cbn. rewrite app_nil_r, Nat.add_0_r. done.
Qed.

(** What the loop makes of a source, for what it becomes. *)
Definition outcome_holds (spool : option (list N)) (outcome : option SourceBuild) (o : Outcome) : Prop :=
  match outcome with
  | Some (SDecoded encoding_ bs spool' _) =>
      spool' = spool /\ oc_encoding o = encoding_ /\ oc_failed o = false /\ oc_retry o = false /\
      Forall2 (built_doc_ok radsort strategy spool) (oc_documents o) (sort_by_key display_key_bytes bs)
  | Some SFailed => spool = None /\ oc_encoding o = Raw /\ oc_documents o = [] /\ oc_failed o = true /\ oc_retry o = false
  | None => spool = None /\ oc_encoding o = Raw /\ oc_documents o = [] /\ oc_failed o = true /\ oc_retry o = true
  end.

Lemma fold_blocks_ok spool ds bs base total :
  Forall2 (built_doc_ok radsort strategy spool) ds bs ->
  foldM (fun total document => with_context (checked_add U64 total (div_ceil (bd_decoded_size document) CANDIDATE_BLOCK_BYTES))
    "segment candidate block count overflows") base bs = Ok total ->
  total = base + sumN (content_blocks <$> (body_of_doc <$> ds)).
Proof.
  intros H. revert base. induction H as [|d b ds bs [_ Hsz _ _ _] _ IH]; intros base; cbn [foldM]; [intros [= <-]; cbn; lia|].
  destruct (checked_add _ _ _) as [t|] eqn:E; [|done]. cbn [with_context mbind res_bind]. intros Ht%IH. apply checked_add_Some in E as [-> _].
  rewrite Ht, Hsz. cbn [fmap list_fmap]. rewrite sumN_cons. unfold content_blocks. lia.
Qed.

Lemma check_block_count_ok spool ds bs base :
  Forall2 (built_doc_ok radsort strategy spool) ds bs ->
  safe (check_block_count strategy base bs) (fun _ => strategy = Trigram -> base + sumN (content_blocks <$> (body_of_doc <$> ds)) <= MAX_POSTING_COUNT).
Proof.
  intros H. unfold check_block_count. pose proof (fold_blocks_ok spool ds bs base) as Hfold. destruct strategy eqn:Es; [|by apply safe_ok].
  eapply (safe_bind _ _ (fun total => total = base + sumN (content_blocks <$> (body_of_doc <$> ds)))).
  - destruct (foldM_safe (fun _ _ => True) (fun total document => with_context (checked_add U64 total (div_ceil (bd_decoded_size document) CANDIDATE_BLOCK_BYTES))
      "segment candidate block count overflows") base bs) as [[e E]|(total & E & _)]; [done|intros; eapply safe_weaken; [apply safe_context|done]| |].
    + rewrite E. left. by eexists.
    + rewrite E. apply safe_ok. by apply Hfold.
  - intros total ->. eapply safe_weaken; [apply safe_ensure|]. intros [] Hle%N.leb_le _. exact Hle.
Qed.

Lemma ingest_outcome_ok spool outs grammed from st source outcome o :
  ingest_holds spool outs grammed from st -> oc_source o = source -> outcome_holds spool outcome o ->
  Forall (fun d => Forall is_byte (body_of_doc d) /\ len (body_of_doc d) < U64) (oc_documents o) ->
  safe (ingest_outcome compress sha256 strategy document_cap (st, grammed) source outcome) (fun '(st', grammed', spool') =>
    spool' = spool /\ ingest_holds spool (outs ++ [o]) grammed' from st').
Proof.
  intros [Ht Hs Hblk Hsp Hcap Hfail] <- Ho Hb. unfold ingest_outcome. eapply safe_bind; [apply to_u32_safe|]. intros ? [-> _]. eapply safe_bind; [apply to_u32_safe|]. intros ? [-> _].
  pose proof Ht as [(slices & decoded & Hp) Hbase _ _ _ _]. destruct (packs_hold_len _ _ _ _ Hp) as [Hld _].
  assert (len (sources (ig_tables st)) = len outs) as Hls by (apply Forall2_length in Hs; unfold len; by rewrite Hs).
  set (parts := match outcome with Some (SDecoded e bs s _) => (e, false, false, bs, s) | Some SFailed => (Raw, false, true, [], None) | None => (Raw, true, true, [], None) end).
  assert (exists bs, parts = (oc_encoding o, oc_retry o, oc_failed o, bs, spool) /\
    Forall2 (built_doc_ok radsort strategy spool) (oc_documents o) (sort_by_key display_key_bytes bs)) as (bs & -> & Hds).
  { subst parts. unfold outcome_holds in Ho. destruct outcome as [[e bs s n|]|].
    - destruct Ho as (-> & <- & -> & -> & H). by exists bs.
    - destruct Ho as (-> & -> & Hd & -> & ->). exists []. split; [done|]. rewrite Hd. constructor.
    - destruct Ho as (-> & -> & Hd & -> & ->). exists []. split; [done|]. rewrite Hd. constructor. }
  clear Ho. cbv beta iota zeta. set (documents_ := sort_by_key display_key_bytes bs) in *.
  assert (len documents_ = len (oc_documents o)) as Hlen by (apply Forall2_length in Hds; unfold len; by rewrite Hds).
  set (st1 := {| ig_tables := ig_tables st; ig_failed := _ |}).
  eapply safe_bind; [apply safe_context|]. intros next [-> _]%checked_add_Some. eapply safe_bind; [apply safe_ensure|]. intros [] Hnext.
  eapply safe_bind; [by apply (check_block_count_ok spool (oc_documents o))|]. intros [] Hblocks. change (ig_next_block_base st1) with (ig_next_block_base st) in Hblocks.
  assert (tables_hold spool (located outs) grammed from st1) as Ht1.
  { destruct Ht as [(s1 & d1 & [? ? ? ? ?]) ? ? ? ? ?]. split; try done. exists s1, d1. by split. }
  eapply safe_bind; [by apply (ingest_documents_ok _ _ _ _ _ (len (sources (ig_tables st))) _ _ Ht1 Hds)|].
  intros [st2 grammed2] (Ht2 & Es2 & Eb2 & Ef2). rewrite Hls, <- located_snoc in Ht2. eapply safe_bind; [apply to_u32_safe|]. intros count [-> Hcount]. apply safe_ok. split; [done|].
  pose proof Ht2 as [(slices2 & decoded2 & Hp2) _ _ _ _ _]. destruct (packs_hold_len _ _ _ _ Hp2) as [Hld2 _]. rewrite Hld2 in Hcount |- *.
  assert (len (located (outs ++ [o])) = len (located outs) + len (oc_documents o)) as Hlo by (by rewrite located_snoc, len_app, len_fmap).
  split; cbn [ig_tables sources blocks ig_failed].
  - destruct Ht2 as [(s1 & d1 & [? ? ? ? ?]) ? ? ? ? ?]. split; try done. exists s1, d1. by split.
  - rewrite Es2. apply Forall2_app; [exact Hs|]. constructor; [|constructor]. split_and!; cbn; try done.
    rewrite Hld, Hlo. rewrite wrapping_sub_small by lia. lia.
  - by rewrite Eb2.
  - split; [by rewrite len_contents_of|]. intros Htri. specialize (Hblocks Htri). rewrite Hbase in Hblocks. rewrite located_snoc. unfold contents_of in *.
    rewrite !fmap_app, sumN_app. rewrite <- !list_fmap_compose in *. unfold loc_bytes, compose in *. cbn [snd] in *. exact Hblocks.
  - destruct document_cap as [cap|]; [|done]. apply N.leb_le in Hnext. change (documents (ig_tables st1)) with (documents (ig_tables st)) in Hnext. rewrite Hld, Hlen in Hnext. lia.
  - rewrite Ef2. cbn [st1 ig_failed]. rewrite Hfail. unfold failed_outcomes. rewrite filter_app, len_app. f_equal. destruct (oc_failed o) eqn:E.
    + by rewrite filter_cons_True.
    + rewrite filter_cons_False by (by rewrite E). done.
Qed.

Lemma ingest_holds_nil spool spool' outs from st : ingest_holds spool outs [] from st -> ingest_holds spool' outs [] (len (located outs)) st.
Proof.
  intros [[H1 H2 H3 [Hl Hd] H5 H6] Hs Hb Hsp Hc Hf]. rewrite len_nil, N.add_0_r, len_contents_of in Hl. subst from.
  split; [|done..]. split; [done|done|done|rewrite <- len_contents_of; apply batch_nil|done|done].
Qed.

(** Writing out the batch, unless there is none. *)
Lemma flush_ok spool outs grammed from st :
  ingest_holds spool outs grammed from st ->
  exists st', (if negb (bool_decide (grammed = [])) then st ← write_runs radsort rapidhash_v3 workers strategy st grammed spool; Ok (st, []) else Ok (st, grammed))
    = Ok (st', []) /\ ingest_holds None outs [] (len (located outs)) st'.
Proof.
  intros H. case_bool_decide as Hg; cbn [negb]; [subst grammed; exists st; split; [done|]; by eapply ingest_holds_nil|].
  destruct H as [Ht Hs Hb Hsp Hc Hf]. destruct (write_runs_ok _ _ _ _ _ Ht Hsp) as (st' & -> & Ht' & E1 & E2 & E3). cbn [mbind res_bind].
  exists st'. split; [done|]. split; [done|by rewrite E1|by rewrite E2|done|done|by rewrite E3].
Qed.

(** The bytes of a source, if it was fetched. *)
Definition decodes_to_bytes (source : SourceObject) (body : option DocumentBody) : Prop :=
  match body with Some body => Forall (fun d => Forall is_byte (body_of_doc d)) (source_documents x (so_key source) DECODE_LIMITS body).2 | None => True end.

Context `{!CratesOk x}.

Lemma reference_bytes source body :
  decodes_to_bytes source body ->
  Forall (fun d => Forall is_byte (body_of_doc d) /\ len (body_of_doc d) < U64) (oc_documents (reference_outcome x source body)).
Proof.
  unfold reference_outcome, decodes_to_bytes. destruct body as [body|]; [|intros _; constructor].
  pose proof (source_documents_ok x (so_key source) DECODE_LIMITS body ltac:(done)) as Hok.
  destruct (source_documents x (so_key source) DECODE_LIMITS body) as [[summary|e|w] docs]; [|intros _; constructor..]. cbn [oc_documents snd]. destruct Hok as [[_ _ Hsize] _].
  rewrite !Forall_forall. intros H d Hd. apply elem_of_sort_by in Hd. split; [by apply H|]. cbn in Hsize. rewrite decoded_bytes_concat in Hsize.
  apply list_elem_of_split in Hd as (l1 & l2 & ->). rewrite fmap_app, concat_app in Hsize. cbn in Hsize. rewrite !len_app in Hsize. lia.
Qed.

Lemma outcome_of_build spooled source body b :
  build_holds x radsort strategy spooled source body b ->
  exists spool, (spooled = false -> spool = None) /\ outcome_holds spool (Some b) (reference_outcome x source (Some body)) /\
    match b with SDecoded _ _ s _ => s = spool | SFailed => True end.
Proof.
  unfold build_holds, outcome_holds, reference_outcome. destruct b as [e bs s n|]; destruct (source_documents _ _ _ _) as [[summary|e'|w] docs]; try done.
  - intros (-> & H & Hs). exists s. split; [done|]. split; [|done]. split_and!; try done. by apply sorted_documents.
  - intros _. by exists None.
Qed.

Definition raw_holds (source : SourceObject) (body : option DocumentBody) (raw : option SourceBuild) : Prop :=
  match body, raw with
  | Some body, Some outcome => build_holds x radsort strategy false source body outcome
  | None, Some _ => False
  | _, None => True
  end.

Lemma build_raw_ok source body limit :
  safe (build_raw_source x radsort source body strategy limit) (raw_holds source body).
Proof.
  unfold build_raw_source, raw_holds. destruct body as [body|]; [|by apply safe_ok].
  unfold is_raw_source. destruct (detect_for_key_total x (so_key source) (body_bytes body)) as [codec ->]. cbn [mbind res_bind]. case_bool_decide; [|by apply safe_ok].
  eapply (safe_bind _ _ (build_holds x radsort strategy false source body)); [by apply build_source_ok|]. intros outcome Ho. by apply safe_ok.
Qed.

(** A source joins the outcomes. *)
Lemma ingest_source_ok outs grammed from st source body raw :
  ingest_holds None outs grammed from st -> raw_holds source body raw -> decodes_to_bytes source body ->
  safe (ingest_source x compress sha256 radsort rapidhash_v3 workers strategy document_cap (st, grammed) (source, body, raw)) (fun '(st', grammed') =>
    exists from', ingest_holds None (outs ++ [reference_outcome x source body]) grammed' from' st').
Proof.
  intros Hst Hraw Hbytes. pose proof (reference_bytes source body Hbytes) as Hb. set (o := reference_outcome x source body) in *.
  assert (oc_source o = source) as Hsrc by (subst o; unfold reference_outcome; destruct body as [body|]; [destruct (source_documents _ _ _ _) as [[] ?]|]; done).
  assert (forall spool st grammed from outcome, ingest_holds spool outs grammed from st -> outcome_holds spool outcome o ->
    safe (ingest_outcome compress sha256 strategy document_cap (st, grammed) source outcome) (fun '(st', grammed', spool') =>
      spool' = spool /\ ingest_holds spool (outs ++ [o]) grammed' from st')) as Hstep by (intros; by apply ingest_outcome_ok).
  unfold ingest_source. destruct raw as [b|].
  - destruct body as [body|]; [|done]. cbn [andb mbind res_bind source_outcome].
    destruct (outcome_of_build false source body b Hraw) as (spool & Hs & Ho & _). rewrite Hs in Ho by done. fold o in Ho.
    eapply safe_bind; [by eapply Hstep|]. intros [[st' grammed'] spool'] [-> H]. apply safe_ok. by exists from.
  - destruct body as [body|].
    2: { cbn [andb mbind res_bind source_outcome]. eapply safe_bind; [by apply (Hstep None)|]. intros [[st' grammed'] spool'] [-> H]. apply safe_ok. by exists from. }
    cbn [andb]. destruct (flush_ok _ _ _ _ _ Hst) as (st1 & -> & H1). cbn [mbind res_bind source_outcome].
    eapply (safe_bind _ _ (fun outcome => exists spool, outcome_holds spool outcome o)).
    { eapply safe_bind; [apply safe_ensure|]. intros [] _. eapply (safe_bind _ _ (build_holds x radsort strategy true source body)); [by apply build_source_ok|].
      intros b Hbuild. apply safe_ok. destruct (outcome_of_build true source body b Hbuild) as (spool & _ & Ho & _). by exists spool. }
    intros outcome [spool Ho]. eapply safe_bind; [eapply Hstep; [by eapply ingest_holds_nil|exact Ho]|].
    intros [[st2 grammed2] spool'] [-> H2]. destruct (flush_ok _ _ _ _ _ H2) as (st3 & -> & H3). apply safe_ok. by eexists.
Qed.

(** ** Ingesting chunks *)

Context (sources_ : list SourceObject).

(** The body that was fetched for a source, if one was. *)
Definition fetched_body (fetched : list (N * DocumentBody)) (i : N) : option DocumentBody := (list_to_map fetched : gmap N DocumentBody) !! i.
(** The outcomes of the sources of a chunk. *)
Definition chunk_outcomes (chunk : N * N) (fetched : list (N * DocumentBody)) : list Outcome :=
  imap (fun i source => reference_outcome x source (fetched_body fetched (chunk.1 + N.of_nat i))) (cut sources_ chunk.1 chunk.2).

Lemma range_lookup a b j : (j < N.to_nat (b - a))%nat -> range a b !! j = Some (a + N.of_nat j).
Proof. intros Hj. unfold range. rewrite list_lookup_fmap, lookup_seq_lt by done. cbn. f_equal. Qed.

Lemma place_bodies_ok chunk fetched :
  chunk.1 <= chunk.2 ->
  safe (foldM (place_body chunk.1) (replicate (N.to_nat (chunk.2 - chunk.1)) None) fetched) (fun bodies =>
    bodies = (fun i => fetched_body fetched i) <$> range chunk.1 chunk.2).
Proof.
  intros Hle. eapply safe_weaken; [apply (foldM_safe (fun pre bodies => length bodies = N.to_nat (chunk.2 - chunk.1) /\ NoDup pre.*1 /\
      forall i, chunk.1 <= i < chunk.2 -> get bodies (i - chunk.1) = Some (fetched_body pre i)))|].
  - split; [by rewrite length_replicate|]. split; [constructor|]. intros i Hi. unfold get. by rewrite lookup_replicate_2 by lia.
  - intros pre [idx body] post bodies _ (Hl & Hnd & Hb). unfold place_body. cbn [fst snd]. eapply safe_bind; [apply safe_context|]. intros position Hpos.
    apply bind_Some in Hpos as (p & (-> & Hp1)%checked_sub_Some & Hp). destruct (N.ltb_spec (idx - chunk.1) (len bodies)) as [Hlt|]; [|done]. injection Hp as <-.
    assert (chunk.1 <= idx < chunk.2) as Hidx by (unfold len in Hlt; lia). rewrite (Hb idx Hidx). cbn [expect mbind res_bind].
    eapply safe_bind; [apply safe_ensure|]. intros [] Hnone%bool_decide_eq_true. apply safe_ok. split; [by rewrite length_insert|].
    assert (idx ∉ pre.*1) as Hnin by (by apply not_elem_of_list_to_map). split.
    + rewrite fmap_app. apply NoDup_app. split; [done|]. split; [|cbn; apply NoDup_singleton]. intros y Hy ->%list_elem_of_singleton. done.
    + intros i Hi. unfold fetched_body in *. rewrite list_to_map_app. cbn [list_to_map foldr fst snd uncurry]. destruct (decide (i = idx)) as [->|Hne].
      * rewrite get_set_eq by done. f_equal. rewrite lookup_union, Hnone, lookup_insert_eq. done.
      * rewrite get_set_ne by lia. rewrite Hb by done. f_equal. rewrite lookup_union, lookup_insert_ne, lookup_empty by done. by destruct (_ !! i).
  - intros bodies (Hl & _ & Hb). apply list_eq. intros j. rewrite list_lookup_fmap. destruct (decide (j < N.to_nat (chunk.2 - chunk.1))%nat) as [Hj|Hj].
    + specialize (Hb (chunk.1 + N.of_nat j) ltac:(lia)). unfold get in Hb. replace (N.to_nat (chunk.1 + N.of_nat j - chunk.1)) with j in Hb by lia.
      rewrite Hb, range_lookup by done. done.
    + rewrite !lookup_ge_None_2; [done| |lia]. pose proof (len_range chunk.1 chunk.2). unfold len in *. lia.
Qed.

Lemma items_outcomes chunk fetched (raw : list (option SourceBuild)) :
  chunk.1 <= chunk.2 <= len sources_ ->
  Forall2 (fun item r => raw_holds item.1 item.2 r) (zip (cut sources_ chunk.1 chunk.2) ((fun i => fetched_body fetched i) <$> range chunk.1 chunk.2)) raw ->
  (fun item : SourceObject * option DocumentBody * option SourceBuild => reference_outcome x item.1.1 item.1.2) <$>
    zip (zip (cut sources_ chunk.1 chunk.2) ((fun i => fetched_body fetched i) <$> range chunk.1 chunk.2)) raw = chunk_outcomes chunk fetched.
Proof.
  intros [Hle Hend] Hraw%Forall2_length. pose proof (len_range chunk.1 chunk.2) as Hlr. unfold len in Hlr.
  assert (length (cut sources_ chunk.1 chunk.2) = N.to_nat (chunk.2 - chunk.1)) as Hlc by (unfold cut; rewrite length_take, length_drop; unfold len in Hend; lia).
  rewrite length_zip_with, length_fmap in Hraw. apply list_eq. intros j. rewrite list_lookup_fmap. unfold chunk_outcomes. rewrite list_lookup_imap.
  destruct (cut sources_ chunk.1 chunk.2 !! j) as [source|] eqn:Es.
  - pose proof (lookup_lt_Some _ _ _ Es). destruct (lookup_lt_is_Some_2 raw j) as [r Hr]; [lia|].
    assert (zip (zip (cut sources_ chunk.1 chunk.2) ((fun i => fetched_body fetched i) <$> range chunk.1 chunk.2)) raw !! j =
      Some (source, fetched_body fetched (chunk.1 + N.of_nat j), r)) as ->; [|done].
    apply lookup_zip_with_Some. do 2 eexists. split; [done|]. split; [|exact Hr]. apply lookup_zip_with_Some. do 2 eexists. split; [done|]. split; [exact Es|].
    rewrite list_lookup_fmap, range_lookup by lia. done.
  - rewrite lookup_ge_None_2; [done|]. apply lookup_ge_None in Es. rewrite !length_zip_with, length_fmap. lia.
Qed.

Lemma ingest_ok outs st chunk fetched :
  ingest_holds None outs [] (len (located outs)) st -> chunk.1 <= chunk.2 <= len sources_ ->
  (forall i source, chunk.1 <= i < chunk.2 -> get sources_ i = Some source -> decodes_to_bytes source (fetched_body fetched i)) ->
  safe (ingest x compress sha256 radsort rapidhash_v3 workers sources_ strategy document_cap st chunk fetched) (fun st' =>
    ingest_holds None (outs ++ chunk_outcomes chunk fetched) [] (len (located (outs ++ chunk_outcomes chunk fetched))) st').
Proof.
  intros Hst [Hle Hend] Hbytes. unfold ingest. eapply safe_bind; [by apply place_bodies_ok|]. intros bodies ->. rewrite len_fmap, len_range.
  replace (chunk.1 + (chunk.2 - chunk.1)) with chunk.2 by lia. rewrite cut_get_range by done. cbn [expect mbind res_bind].
  set (owned := cut sources_ chunk.1 chunk.2). set (bodies := (fun i => fetched_body fetched i) <$> range chunk.1 chunk.2).
  eapply (safe_bind _ _ (Forall2 (fun item raw => raw_holds item.1 item.2 raw) (zip owned bodies))); [apply mapM_res_safe; intros item _; apply build_raw_ok|].
  intros raw Hraw. set (items := zip (zip owned bodies) raw). set (item_outcome := fun item : SourceObject * option DocumentBody * option SourceBuild => reference_outcome x item.1.1 item.1.2).
  assert (item_outcome <$> items = chunk_outcomes chunk fetched) as Eout by (subst items item_outcome; by apply items_outcomes).
  assert (forall item, item ∈ items -> raw_holds item.1.1 item.1.2 item.2 /\ decodes_to_bytes item.1.1 item.1.2) as Hitems.
  { intros [[source body] r] [j Hj]%list_elem_of_lookup. apply lookup_zip_with_Some in Hj as (sb & r' & [= <- <-] & Hsb & Hr). cbn [fst snd]. split.
    - eapply Forall2_lookup_lr in Hraw; [|exact Hsb|exact Hr]. exact Hraw.
    - apply lookup_zip_with_Some in Hsb as (s' & b' & [= <- <-] & Hs & Hb). subst bodies. rewrite list_lookup_fmap in Hb. apply fmap_Some in Hb as (i & Hi & ->).
      pose proof (lookup_lt_Some _ _ _ Hi) as Hlt. pose proof (len_range chunk.1 chunk.2) as Hlr. rewrite range_lookup in Hi by (unfold len in Hlr; lia). injection Hi as <-.
      apply Hbytes; [unfold len in Hlr; lia|]. subst owned. apply lookup_take_Some in Hs as [Hs _]. rewrite lookup_drop in Hs. unfold get. rewrite <- Hs. f_equal. lia. }
  eapply (safe_bind _ _ (fun s => exists from, ingest_holds None (outs ++ (item_outcome <$> items)) s.2 from s.1)).
  - apply (foldM_safe (fun pre s => exists from, ingest_holds None (outs ++ (item_outcome <$> pre)) s.2 from s.1)).
    + exists (len (located outs)). cbn [fmap list_fmap]. by rewrite app_nil_r.
    + intros pre [[source body] r] post [st' grammed] Hsplit [from H]. destruct (Hitems (source, body, r)) as [Hr Hb]; [rewrite Hsplit; apply elem_of_app; right; left|].
      eapply safe_weaken; [by eapply ingest_source_ok|]. intros [st2 grammed2] [from' H2]. exists from'. rewrite fmap_app. cbn [fmap list_fmap fst snd]. by rewrite app_assoc.
  - intros [st' grammed] [from H]. cbn [fst snd] in H. rewrite Eout in H. destruct (flush_ok _ _ _ _ _ H) as (st2 & E & H2).
    case_bool_decide as Hg; cbn [negb] in E; [injection E as ->; apply safe_ok; exact H2|].
    destruct (write_runs _ _ _ _ _ _ _) as [st3|?|?]; [|done..]. injection E as ->. by apply safe_ok.
Qed.

(** ** Building *)

(** The outcomes of all sources, from what is fetched chunk by chunk. *)
Definition reference_outcomes (fetch_bodies : N * N -> res (list (N * DocumentBody))) : res (list Outcome) :=
  outs ← mapM_res (fun chunk => fetched ← fetch_bodies chunk; Ok (chunk_outcomes chunk fetched)) (build_chunks sources_);
  Ok (concat outs).

(** What a built index holds for its outcomes: every document in the tables and
    the packs, its lines, and its postings in the runs. *)
Record built_holds (outs : list Outcome) (built : BuiltIndexFiles) : Prop := {
  bt_valid : well_formed (bi_tables built);
  bt_outcomes : oc_source <$> outs = sources_;
  bt_sources : Forall2 source_holds outs (sources (bi_tables built));
  bt_packs : exists slices decoded, set_lines 0 [] <$> documents (bi_tables built) = zip_with bare_entry (located outs) slices /\
    built_ok decompress sha256 PACK_TARGET_BYTES (contents_of (located outs)) decoded slices
      {| built_packs := bi_packs built; built_blocks := blocks (bi_tables built) |};
  bt_lines : Forall2 entry_lines (contents_of (located outs)) (documents (bi_tables built));
  bt_runs : runs_hold strategy (bi_runs built) (posting_in (contents_of (located outs)) 0 (len (located outs)));
  bt_bytes : Forall (fun data => Forall is_byte data /\ len data < U64) (contents_of (located outs));
  bt_space : space_holds (contents_of (located outs));
  bt_cap : match document_cap with Some cap => len (located outs) <= cap | None => True end;
}.

Lemma located_nil : located [] = [].
Proof. done. Qed.

Lemma chunk_outcomes_sources chunk fetched : oc_source <$> chunk_outcomes chunk fetched = cut sources_ chunk.1 chunk.2.
Proof.
  unfold chunk_outcomes. rewrite fmap_imap. apply list_eq. intros j. rewrite list_lookup_imap. destruct (_ !! j) as [source|]; [|done]. cbn. f_equal.
  unfold reference_outcome. destruct (fetched_body _ _); [destruct (source_documents _ _ _ _) as [[] ?]|]; done.
Qed.
Lemma chained_cuts {A} (l : list A) a chunks b :
  chained a chunks b -> Forall (fun chunk : N * N => chunk.1 <= chunk.2) chunks -> b <= len l -> concat ((fun chunk => cut l chunk.1 chunk.2) <$> chunks) = cut l a b /\ a <= b.
Proof.
  revert a. induction chunks as [|chunk chunks IH]; intros a; cbn [chained fmap list_fmap concat]; [intros ->; split; [by rewrite cut_nil by lia|lia]|].
  intros [<- Hch] [Hle Hall]%Forall_cons Hb. destruct (IH chunk.2 Hch Hall Hb) as [-> H]. split; [|lia]. by rewrite cut_app by lia.
Qed.

Lemma prefetchable_total chunk :
  chunk_ok sources_ chunk -> is_ok (bytes ← chunk_encoded_bytes sources_ chunk; Ok (bytes <=? BUILD_FETCH_BYTES)) = true.
Proof. intros [[H1 H2] _ _ _]. unfold chunk_encoded_bytes. by rewrite cut_get_range by lia. Qed.

(** What the fetched bodies decode to is bytes. *)
Definition corpus_bytes (fetch_bodies : N * N -> res (list (N * DocumentBody))) : Prop :=
  forall chunk fetched i source, fetch_bodies chunk = Ok fetched -> get sources_ i = Some source -> decodes_to_bytes source (fetched_body fetched i).

Lemma ingest_chunks_ok fetch_bodies st chunks :
  (forall chunk, no_panic (fetch_bodies chunk)) -> corpus_bytes fetch_bodies -> Forall (chunk_ok sources_) chunks ->
  ingest_holds None [] [] 0 st ->
  safe (foldM (sequential fetch_bodies (ingest x compress sha256 radsort rapidhash_v3 workers sources_ strategy document_cap)) st chunks) (fun st' =>
    exists outss, mapM_res (fun chunk => fetched ← fetch_bodies chunk; Ok (chunk_outcomes chunk fetched)) chunks = Ok outss /\
      ingest_holds None (concat outss) [] (len (located (concat outss))) st').
Proof.
  intros Hnp Hbytes Hchunks Hst. apply (foldM_safe (fun pre st' => exists outss, mapM_res (fun chunk => fetched ← fetch_bodies chunk; Ok (chunk_outcomes chunk fetched)) pre = Ok outss /\
      ingest_holds None (concat outss) [] (len (located (concat outss))) st')); [by exists []|].
  intros pre chunk post st' -> (outss & E & H). unfold sequential. rewrite Forall_forall in Hchunks.
  destruct (Hchunks chunk) as [[H1 H2] _ _ _]; [apply elem_of_app; right; left|]. pose proof (Hnp chunk) as Hn.
  destruct (fetch_bodies chunk) as [fetched|e|w] eqn:Ef; [|left; by eexists|by destruct (Hn w)]. cbn [mbind res_bind].
  eapply safe_weaken; [apply ingest_ok; [exact H|lia|]|].
  - intros i source Hi Hs. by eapply Hbytes.
  - intros st2 H'. exists (outss ++ [chunk_outcomes chunk fetched]). rewrite concat_app. cbn [concat]. rewrite app_nil_r. split; [|exact H'].
    apply mapM_res_ok in E. apply mapM_res_ok, Forall2_app; [exact E|]. constructor; [|constructor]. by rewrite Ef.
Qed.

Lemma reference_sources fetch_bodies outss :
  Forall (fun source => so_encoded_size source < U64) sources_ ->
  mapM_res (fun chunk => fetched ← fetch_bodies chunk; Ok (chunk_outcomes chunk fetched)) (build_chunks sources_) = Ok outss -> oc_source <$> concat outss = sources_.
Proof.
  intros Hs H%mapM_res_ok. destruct (chunks_from_ok (length sources_) sources_ 0 Hs) as [Hok Hch]; [lia|unfold len; lia|]. fold (build_chunks sources_) in *.
  assert (oc_source <$> concat outss = concat ((fun chunk => cut sources_ chunk.1 chunk.2) <$> build_chunks sources_)) as ->.
  { clear Hok Hch. induction H as [|chunk outs chunks outss E _ IH]; [done|]. cbn [concat fmap list_fmap]. rewrite fmap_app, IH. f_equal.
    destruct (fetch_bodies chunk) as [fetched|?|?]; [|done..]. injection E as <-. apply chunk_outcomes_sources. }
  destruct (chained_cuts sources_ 0 _ _ Hch) as [-> _]; [eapply Forall_impl; [exact Hok|]; intros ? [? _ _ _]; lia|lia|].
  unfold cut. rewrite N.sub_0_r, to_nat_len. apply firstn_all.
Qed.

Lemma build_index_ok fetch_bodies :
  Forall (fun source => so_encoded_size source < U64) sources_ -> (forall chunk, no_panic (fetch_bodies chunk)) -> corpus_bytes fetch_bodies ->
  safe (build_index_files x compress sha256 radsort rapidhash_v3 workers sources_ strategy document_cap fetch_bodies) (fun built =>
    exists outs, reference_outcomes fetch_bodies = Ok outs /\ built_holds outs built).
Proof.
  intros Hs Hnp Hbytes. unfold build_index_files. eapply safe_bind; [apply safe_ensure|]. intros [] _.
  eapply safe_bind; [by apply (new_builder_safe decompress sha256)|]. intros b (Hb & Hst & Hbb & Hpb).
  destruct (chunks_from_ok (length sources_) sources_ 0 Hs) as [Hok _]; [lia|unfold len; lia|]. fold (build_chunks sources_) in *.
  set (st0 := {| ig_tables := _; ig_pack_builder := b |}).
  assert (ingest_holds None [] [] 0 st0) as H0.
  { split; [|constructor|done|by split|destruct document_cap; [apply N.le_0_l|done]|done]. split; [|done|constructor| | |].
    - exists [], []. split; [done| |exact Hb|exact Hst|done]. split; [done|]. intros i doc slice Hi%get_Some_lt. change (i < 0) in Hi. lia.
    - apply batch_nil.
    - exists []. split; [done|]. split; [constructor|]. intros r. split; [by intros ?%elem_of_nil|]. intros (i & data & Hi & _). lia.
    - intros i data entry Hi%get_Some_lt. change (i < 0) in Hi. lia. }
  match goal with |- safe (mbind _ (drive_prefetched ?p ?f ?g _ _)) _ => pose proof (drive_loop_ok p f g None (build_chunks sources_) st0) as Hdrive end.
  pose proof (ingest_chunks_ok fetch_bodies st0 _ Hnp Hbytes Hok H0) as Hseq.
  eapply safe_bind; [eapply same_safe; [apply Hdrive; [eapply Forall_impl; [exact Hok|]; apply prefetchable_total|done]|exact Hseq]|].
  intros st (outss & Eout & [[(slices & decoded & Hp) Hbase Hby Hbatch Hruns Hlines] Hsrc Hblk Hsp Hcap Hfail]).
  destruct (packs_hold_len _ _ _ _ Hp) as [Hld _]. destruct Hp as [Hdocs Hpl Hfill Hstream [Hbb2 Hpb2]].
  eapply safe_bind; [apply (finish_built_safe compress decompress sha256 _ decoded (contents_of (located (concat outss))) slices Hfill Hstream); by rewrite Hbb2|]. intros packed [decoded' Hbuilt]. rewrite Hpb2 in Hbuilt.
  eapply safe_bind; [apply validate_safe|]. intros [] Hvalid. apply safe_ok. exists (concat outss). split; [unfold reference_outcomes; by rewrite Eout|].
  split; cbn [bi_tables bi_runs bi_packs sources documents blocks]; [exact Hvalid|by eapply reference_sources|exact Hsrc| | | |exact Hby|exact Hsp|exact Hcap].
  - exists slices, decoded'. split; [exact Hdocs|]. by destruct packed.
  - apply Forall2_same_length_lookup_2.
    + pose proof (len_contents_of (located (concat outss))). unfold len in *. lia.
    + intros j data entry Hd He. destruct (Hlines (N.of_nat j) data entry) as [H|(_ & j' & doc & _ & Hget & _)]; [unfold get; by rewrite Nat2N.id..|exact H|].
      apply get_Some_lt in Hget. rewrite len_nil in Hget. lia.
  - exact Hruns.
Qed.
End ingest_proofs.

(** ** A built segment can be searched *)

Section searchable.
Context (radsort : list N -> list N) (rapidhash_v3 : list N -> N).

Lemma bare_sizes locs slices docs :
  set_lines 0 [] <$> docs = zip_with bare_entry locs slices -> len slices = len locs -> decoded_size <$> docs = len <$> contents_of locs.
Proof.
  intros H Hl. assert (decoded_size <$> docs = decoded_size <$> (set_lines 0 [] <$> docs)) as -> by (by rewrite <- list_fmap_compose).
  rewrite H. unfold contents_of. clear H docs. revert slices Hl. induction locs as [|p locs IH]; intros [|s slices] Hl; rewrite ?len_cons, ?len_nil in Hl; try lia; [done|].
  cbn [zip_with fmap list_fmap]. f_equal. apply IH. lia.
Qed.

Lemma sizes_bases docs (contents : list (list N)) i : decoded_size <$> docs = len <$> contents -> base_of docs i = blocks_before contents i.
Proof.
  intros H. unfold base_of, blocks_before. do 2 f_equal. unfold Candidate.block_count, content_blocks.
  rewrite (list_fmap_compose decoded_size (fun n => div_ceil n CANDIDATE_BLOCK_BYTES) docs : (fun d => div_ceil (decoded_size d) CANDIDATE_BLOCK_BYTES) <$> docs = _), H.
  by rewrite <- list_fmap_compose.
Qed.

(** The posting lists of the records of some runs. *)
Definition lists_records (records : list (N * N)) (postings : list N -> list N) : Prop :=
  forall g id, id ∈ postings g <-> exists gram, g = gram_bytes gram /\ (gram, id) ∈ records.

Lemma built_describes contents docs blocks_ sources_ records postings :
  decoded_size <$> docs = len <$> contents -> (forall r, r ∈ records <-> posting_in radsort rapidhash_v3 Trigram contents 0 (len contents) r) ->
  lists_records records postings -> postings_describe radsort {| sources := sources_; documents := docs; blocks := blocks_ |} contents postings.
Proof.
  intros Hsz Hr Hp g id. rewrite (Hp g id). cbn [documents]. setoid_rewrite Hr. unfold posting_in. split.
  - intros (gram & -> & i & data & _ & Hd & block & gram' & Hin & [= -> ->]). exists i, data, block, gram'. by rewrite (sizes_bases _ _ _ Hsz).
  - intros (i & data & block & gram & Hd & Hin & -> & ->). exists gram. split; [done|]. exists i, data. split; [split; [lia|by eapply get_Some_lt]|]. split; [done|].
    exists block, gram. by rewrite (sizes_bases _ _ _ Hsz).
Qed.

(** Posting lists read from the records of a sparse index, which have hashes. *)
Definition lists_hashes (records : list (N * N)) (postings : list N -> list N) : Prop :=
  forall g id, id ∈ postings g <-> (hash_ngram rapidhash_v3 g, id) ∈ records.

Lemma built_describes_sparse contents records postings :
  (forall r, r ∈ records <-> posting_in radsort rapidhash_v3 Sparse contents 0 (len contents) r) ->
  lists_hashes records postings -> sparse_describe radsort contents rapidhash_v3 postings.
Proof.
  intros Hr Hp g id. rewrite (Hp g id), Hr. unfold posting_in, posting_at. split.
  - intros (i & data & _ & Hd & grams & gram & Hg & Hin & [= Hh ->]). by exists data, grams, gram.
  - intros (data & grams & gram & Hd & Hg & Hin & Hh). exists id, data. split; [split; [lia|by eapply get_Some_lt]|]. split; [done|].
    exists grams, gram. by rewrite Hh.
Qed.
End searchable.

(** ** Properties *)

(** C40: the chunks of a build tile the sources in order, none is empty, and each
    is within the document and byte budgets unless its first source alone is over
    the byte budget; a chunk ends only where a budget is used up. *)
Theorem build_chunks_exact sources_ :
  Forall (fun source => so_encoded_size source < U64) sources_ ->
  chained 0 (build_chunks sources_) (len sources_) /\ Forall (chunk_ok sources_) (build_chunks sources_).
Proof. intros Hs. destruct (chunks_from_ok (length sources_) sources_ 0 Hs) as [H1 H2]; [lia|unfold len; lia|]. done. Qed.

(** Driving the chunks with one fetch ahead is the same as fetching and
    processing them one at a time: the same state, or the same error, of a fetch
    where its chunk is reached; but a panic of a fetch ahead is an error. *)
Theorem drive_prefetched_sequential {T S} (prefetchable : N * N -> res bool) (fetch : N * N -> res T) (process : S -> N * N -> T -> res S) chunks s :
  Forall (fun chunk => is_ok (prefetchable chunk) = true) chunks ->
  match foldM (fun s chunk => fetched ← fetch chunk; process s chunk fetched) s chunks with
  | Panic w => drive_prefetched prefetchable fetch process chunks s = Panic w \/
      drive_prefetched prefetchable fetch process chunks s = Err "prefetch thread panicked"
  | r => drive_prefetched prefetchable fetch process chunks s = r
  end.
Proof.
  intros H. pose proof (drive_loop_ok prefetchable fetch process None chunks s H I) as E. unfold drive_prefetched.
  change (fun s chunk => fetched ← fetch chunk; process s chunk fetched) with (sequential fetch process). by destruct (foldM _ s chunks).
Qed.

(** C2: building an index never panics, and what it builds is an index of its
    corpus.  Every source is in the tables once, in order, with what it becomes:
    the documents it decodes to, sorted by their keys, or a failure, to be
    retried when it had vanished.  The tables are well formed; every document is
    in the packs and can be read back; its entry has its longest line and the
    newlines of its blocks; the runs hold exactly the postings of all documents,
    from the base of each document on; and the document cap and the space of
    posting ids are kept. *)
Theorem build_index_exact x `{!CratesOk x} compress decompress sha256 `{!Codec compress decompress sha256} radsort `{!SortsN radsort} rapidhash_v3 workers
    sources_ strategy document_cap fetch_bodies :
  Forall (fun source => so_encoded_size source < U64) sources_ -> (forall chunk, no_panic (fetch_bodies chunk)) -> corpus_bytes x sources_ fetch_bodies ->
  safe (build_index_files x compress sha256 radsort rapidhash_v3 workers sources_ strategy document_cap fetch_bodies) (fun built =>
    exists outs, reference_outcomes x sources_ fetch_bodies = Ok outs /\
      built_holds decompress sha256 radsort rapidhash_v3 strategy document_cap sources_ outs built).
Proof. intros. by apply (build_index_ok x compress decompress sha256). Qed.

(** C3: a built trigram index is what a search needs: with the posting lists of
    its runs, the tables and the documents fulfil the hypotheses under which no
    match is missed. *)
Theorem built_index_searchable x `{!CratesOk x} compress decompress sha256 `{!Codec compress decompress sha256} radsort `{!SortsN radsort} rapidhash_v3 workers
    sources_ document_cap fetch_bodies :
  Forall (fun source => so_encoded_size source < U64) sources_ -> (forall chunk, no_panic (fetch_bodies chunk)) -> corpus_bytes x sources_ fetch_bodies ->
  safe (build_index_files x compress sha256 radsort rapidhash_v3 workers sources_ Trigram document_cap fetch_bodies) (fun built =>
    exists outs rs, reference_outcomes x sources_ fetch_bodies = Ok outs /\ bi_runs built = file_of Trigram <$> rs /\ Forall (run_ok Trigram) rs /\
      len (documents (bi_tables built)) < U32 /\ contents_ok (bi_tables built) (contents_of (located outs)) /\
      forall postings, lists_records (concat rs) postings -> postings_describe radsort (bi_tables built) (contents_of (located outs)) postings).
Proof.
  intros Hs Hnp Hb. eapply safe_weaken; [by apply (build_index_ok x compress decompress sha256 radsort rapidhash_v3 workers Trigram document_cap sources_ fetch_bodies)|].
  intros built (outs & E & [_ _ _ (slices & decoded & Hbare & Hbuilt) _ (rs & Ers & Hrs & Hr) Hbytes [Hlen Hspace] _]). destruct Hbuilt as [_ _ _ _ _ [Hls _]].
  rewrite len_contents_of in Hls, Hlen. pose proof (bare_sizes _ _ _ Hbare Hls) as Hsz. exists outs, rs. split; [done|]. split; [done|]. split; [done|].
  assert (len (documents (bi_tables built)) = len (contents_of (located outs))) as Hld by (apply (f_equal length) in Hsz; rewrite !length_fmap in Hsz; unfold len; by rewrite Hsz).
  rewrite Hld, len_contents_of. split; [done|]. split.
  - intros i d Hd. destruct (get_is_Some (contents_of (located outs)) i) as [data Hdata]; [rewrite <- Hld; by eapply get_Some_lt|].
    exists data. split; [done|].
    assert (decoded_size d = len data) as Hdd.
    { pose proof (f_equal (fun l => l !! N.to_nat i) Hsz) as Hx. cbn beta in Hx. unfold get in Hd, Hdata. rewrite !list_lookup_fmap, Hd, Hdata in Hx. by injection Hx. }
    rewrite Forall_forall in Hbytes. destruct (Hbytes data) as [His _]; [by eapply get_elem|]. split; [done|]. split; [done|].
    pose proof (blocks_before_next _ _ _ Hdata) as Hn. pose proof (blocks_before_total (contents_of (located outs)) (i + 1)) as Ht. specialize (Hspace eq_refl).
    unfold MAX_POSTING_COUNT in Hspace. change (N.shiftl 1 COUNT_BITS - 1) with 16777215 in Hspace. unfold content_blocks in Hn at 1.
    pose proof (div_ceil_le (len data) CANDIDATE_BLOCK_BYTES ltac:(done)). change (2 ^ 32) with 4294967296. nia.
  - intros postings Hp. destruct built as [runs [srcs docs blks] pks]. cbn [bi_tables documents] in *. eapply (built_describes radsort rapidhash_v3); [exact Hsz| |exact Hp].
    intros r. rewrite len_contents_of. apply Hr.
Qed.

(** The same for a sparse index: the posting lists of its runs, which are lists
    of documents under hashes of grams, describe the documents. *)
Theorem built_sparse_index_searchable x `{!CratesOk x} compress decompress sha256 `{!Codec compress decompress sha256} radsort `{!SortsN radsort} rapidhash_v3 workers
    sources_ document_cap fetch_bodies :
  Forall (fun source => so_encoded_size source < U64) sources_ -> (forall chunk, no_panic (fetch_bodies chunk)) -> corpus_bytes x sources_ fetch_bodies ->
  safe (build_index_files x compress sha256 radsort rapidhash_v3 workers sources_ Sparse document_cap fetch_bodies) (fun built =>
    exists outs rs, reference_outcomes x sources_ fetch_bodies = Ok outs /\ bi_runs built = file_of Sparse <$> rs /\ Forall (run_ok Sparse) rs /\
      len (documents (bi_tables built)) < U32 /\ len (contents_of (located outs)) = len (documents (bi_tables built)) /\
      forall postings, lists_hashes rapidhash_v3 (concat rs) postings -> sparse_describe radsort (contents_of (located outs)) rapidhash_v3 postings).
Proof.
  intros Hs Hnp Hb. eapply safe_weaken; [by apply (build_index_ok x compress decompress sha256 radsort rapidhash_v3 workers Sparse document_cap sources_ fetch_bodies)|].
  intros built (outs & E & [_ _ _ (slices & decoded & Hbare & Hbuilt) _ (rs & Ers & Hrs & Hr) _ [Hlen _] _]). destruct Hbuilt as [_ _ _ _ _ [Hls _]].
  rewrite len_contents_of in Hls, Hlen. pose proof (bare_sizes _ _ _ Hbare Hls) as Hsz. exists outs, rs. split; [done|]. split; [done|]. split; [done|].
  assert (len (documents (bi_tables built)) = len (contents_of (located outs))) as Hld by (apply (f_equal length) in Hsz; rewrite !length_fmap in Hsz; unfold len; by rewrite Hsz).
  rewrite Hld, len_contents_of. split; [done|]. split; [done|]. intros postings Hp. eapply built_describes_sparse; [|exact Hp].
  intros r. rewrite len_contents_of. apply Hr.
Qed.

(** ** Witnesses: a text, a source that vanished and an archive *)

Definition demo_sources : list SourceObject :=
  [{| so_key := ascii "a.txt"; so_version := ascii "1"; so_encoded_size := 6 |}; {| so_key := ascii "b.txt"; so_version := ascii "1"; so_encoded_size := 9 |};
   {| so_key := ascii "z.zip"; so_version := ascii "2"; so_encoded_size := 6 |}].
Definition demo_fetch (chunk : N * N) : res (list (N * DocumentBody)) := Ok [(2, BodyBytes demo_archive); (0, BodyBytes (ascii "abc" ++ [10] ++ ascii "de"))].
Definition demo_build (strategy : Strategy) : res BuiltIndexFiles :=
  build_index_files demo_crates demo_compress demo_sha256 sort_N sum_hash 4 demo_sources strategy (Some 10) demo_fetch.

Lemma demo_bytes : corpus_bytes demo_crates demo_sources demo_fetch.
Proof.
  intros chunk fetched i source [= <-] Hi. pose proof (get_Some_lt _ _ _ Hi) as Hlt. change (len demo_sources) with 3 in Hlt.
  assert (i = 0 \/ i = 1 \/ i = 2) as [->|[->| ->]] by lia; injection Hi as <-; [|exact I|]; unfold decodes_to_bytes; vm_compute fetched_body; cbv iota beta.
  - match goal with |- Forall _ ?l => let l' := eval vm_compute in l in change l with l' end. repeat constructor.
  - match goal with |- Forall _ ?l => let l' := eval vm_compute in l in change l with l' end. repeat constructor.
Qed.

Lemma build_chunks_exact_witness :
  chained 0 (build_chunks demo_sources) 3 /\ build_chunks demo_sources = [(0, 3)].
Proof. split; [|vm_compute; reflexivity]. apply (build_chunks_exact demo_sources). repeat constructor. Defined.

Lemma drive_prefetched_sequential_witness :
  drive_prefetched (fun _ => Ok true) (fun chunk : N * N => if chunk.1 =? 2 then Panic "lost" else Ok chunk.2) (fun s chunk fetched => Ok (s ++ [fetched]))
    [(0, 2); (2, 3)] [] = Err "prefetch thread panicked".
Proof.
  pose proof (drive_prefetched_sequential (fun _ => Ok true) (fun chunk : N * N => if chunk.1 =? 2 then Panic "lost" else Ok chunk.2)
    (fun s chunk fetched => Ok (s ++ [fetched])) [(0, 2); (2, 3)] []) as H. vm_compute in H |- *. destruct H as [H|H]; [by repeat constructor|discriminate H|exact H].
Defined.

Lemma build_index_exact_witness :
  exists built outs, demo_build Sparse = Ok built /\ reference_outcomes demo_crates demo_sources demo_fetch = Ok outs /\
    built_holds demo_decompress demo_sha256 sort_N sum_hash Sparse (Some 10) demo_sources outs built.
Proof.
  destruct (build_index_exact demo_crates demo_compress demo_decompress demo_sha256 sort_N sum_hash 4 demo_sources Sparse (Some 10) demo_fetch) as [[e E]|(built & E & outs & Eo & H)].
  - repeat constructor.
  - intros chunk w H. discriminate H.
  - exact demo_bytes.
  - vm_compute in E. discriminate E.
  - exists built, outs. split; [exact E|]. split; [exact Eo|exact H].
Defined.

Lemma built_index_searchable_witness :
  exists built outs rs, demo_build Trigram = Ok built /\ bi_runs built = file_of Trigram <$> rs /\ contents_of (located outs) = [ascii "abc" ++ [10] ++ ascii "de"; ascii "one"; ascii "two"] /\
    contents_ok (bi_tables built) (contents_of (located outs)).
Proof.
  destruct (built_index_searchable demo_crates demo_compress demo_decompress demo_sha256 sort_N sum_hash 4 demo_sources (Some 10) demo_fetch)
    as [[e E]|(built & E & outs & rs & Eo & Ers & _ & _ & H & _)].
  - repeat constructor.
  - intros chunk w H. discriminate H.
  - exact demo_bytes.
  - vm_compute in E. discriminate E.
  - exists built, outs, rs. split; [exact E|]. split; [exact Ers|]. split; [|exact H]. vm_compute in Eo. injection Eo as <-. vm_compute. reflexivity.
Defined.
