(* ===== verification/Compact.v ===== *)
(** * Compacting segments (crates/index/src/segment/compact.rs)

    When there are too many segments, two neighbours that are small enough are
    merged: their live sources in the order of their keys, the documents of each
    re-packed, and their posting lists rewritten as runs with the ids of the new
    documents.  The merged segment has exactly the postings of its documents, as
    a segment that is built has. *)

From stdpp Require Import sorting.
From S2P Require Import Prelude BitPack Bytes Postings DeltaBlocks Trigrams SparseGrams QueryPlan Eval Format Detect Decode Candidate PackBuild PackRead PackBatch PackLines PackFetch SegmentList Update Runs RunWriter Build.

Definition SEGMENT_DOC_CAP : N := 4000000.
Definition MERGE_POSTINGS_CAP : N := 256 * 1024 * 1024.
Definition MERGE_TERMS_CAP : N := 64 * 1024 * 1024.
Definition MERGE_DOCS_CAP : N := 64 * 1024 * 1024.

(** ** Choosing the segments to merge *)

(** [entry.0.doc_count as usize - entry.1.documents.len()] *)
Definition live_documents (entry : SegmentMeta * DeadSet) : N := wrapping_sub U64 (seg_doc_count entry.1) (len (dead_documents entry.2)).

Definition sum_fits (cap a b : N) : bool := saturating_add U64 a b <=? cap.
Definition can_merge (a b : SegmentMeta * DeadSet) : bool :=
  sum_fits MERGE_POSTINGS_CAP (postings_len a.1) (postings_len b.1) && sum_fits MERGE_TERMS_CAP (terms_fst_len a.1) (terms_fst_len b.1) &&
  sum_fits MERGE_DOCS_CAP (docs_len a.1) (docs_len b.1) && sum_fits SEGMENT_DOC_CAP (live_documents a) (live_documents b) &&
  sum_fits MAX_POSTING_COUNT (SegmentList.block_count a.1) (SegmentList.block_count b.1).
Definition live_pair (pair : (SegmentMeta * DeadSet) * (SegmentMeta * DeadSet)) : N := saturating_add U64 (live_documents pair.1) (live_documents pair.2).

(** [Iterator::min_by_key]: the first of the least. *)
Fixpoint min_by_key {A} (key : A -> N) (l : list A) : option A :=
  match l with
  | [] => None
  | x :: l => match min_by_key key l with Some y => if key y <? key x then Some y else Some x | None => Some x end
  end.

(** The first of the two segments that [maybe_compact] merges. *)
Definition pick_victim (segments : list (SegmentMeta * DeadSet)) : option N :=
  if len segments <=? SEGMENT_COUNT_TARGET then None
  else
    let candidates := filter (fun entry => can_merge entry.2.1 entry.2.2 = true) (enumerate (pairs segments)) in
    fst <$> min_by_key (fun entry => live_pair entry.2) candidates.

(** [maybe_compact]; [merge] is [merge_segments] on the store. *)
Definition maybe_compact (merge : list (SegmentMeta * DeadSet) -> res SegmentMeta) (segments : list (SegmentMeta * DeadSet))
    : res (bool * list (SegmentMeta * DeadSet)) :=
  match pick_victim segments with
  | None => Ok (false, segments)
  | Some victim =>
      first ← expect (get segments victim) "index out of bounds";
      second ← expect (get segments (victim + 1)) "index out of bounds";
      merged ← merge [first; second];
      Ok (true, take (N.to_nat victim) segments ++ [(merged, {| dead_sources := []; dead_documents := [] |})] ++ drop (N.to_nat (victim + 2)) segments)
  end.


(** ** The run of a segment *)

Section run.
Context (strategy : Strategy).

Definition remap_posting_id (id : N) (remap : list (option N)) (old_bases new_bases : list N) : res (option N) :=
  let old_document := match strategy with Sparse => id | Trigram => get_block_document id old_bases end in
  new_document ← with_context (get remap old_document) "posting ID is outside its segment";
  match new_document with
  | None => Ok None
  | Some new_document =>
      match strategy with
      | Sparse => Ok (Some new_document)
      | Trigram =>
          new_base ← with_context (get new_bases new_document) "remapped document ID is out of bounds";
          old_base ← expect (get old_bases old_document) "index out of bounds";
          Ok (Some (wrapping_sub U32 (wrapping_add U32 new_base id) old_base))
      end
  end.

(** [filter_map] over the decoded ids. *)
Definition remap_ids (ids : list N) (remap : list (option N)) (old_bases new_bases : list N) : res (list N) :=
  foldM (fun out id => new_id ← remap_posting_id id remap old_bases new_bases; Ok (match new_id with Some id => out ++ [id] | None => out end)) [] ids.

(** [write_live_entry]: the writer is what was written. *)
Definition write_live_entry (id_space postings_len_ : N) (postings : list N) (remap : list (option N)) (old_bases new_bases : list N)
    (writer : list N) (entry : list N * N * option N) : res (list N) :=
  let '(gram, packed, length_) := entry in
  let '(offset, count) := unpack_posting packed in
  ensure (0 <? count) "term map contains an empty posting list";;
  ensure (len gram =? key_bytes strategy) "term map gram width does not match the index strategy";;
  let key := from_be (replicate (N.to_nat (8 - len gram)) 0 ++ gram) in
  if count =? 1 then
    id ← (if offset <? U32 then Ok offset else Err "singleton posting id overflows u32");
    new_id ← remap_posting_id id remap old_bases new_bases;
    Ok (match new_id with Some new_id => write_posting_record writer strategy key new_id | None => writer end)
  else
    ensure (count <=? id_space) "term map posting count exceeds its segment id space";;
    length_ ← match strategy with
      | Sparse => with_context length_ "sparse entries must carry a posting length"
      | Trigram => ensure (bool_decide (length_ = None)) "trigram lengths derive from counts";; Ok (posting_block_len count id_space)
      end;
    end_ ← with_context (checked_add U64 offset length_) "term map posting length overflows";
    ensure (end_ <=? postings_len_) "term map posting extends beyond postings.bin";;
    block ← with_context (get_range postings offset end_) "truncated postings.bin during merge";
    decoded ← match strategy with Sparse => decode_delta_blocks block count id_space | Trigram => decode_posting_block block count id_space end;
    ids ← remap_ids decoded remap old_bases new_bases;
    Ok (fold_left (fun writer id => write_posting_record writer strategy key id) (sort_dedup ids) writer).

(** [write_compaction_run]: the entries of the dictionary in the order of its
    [visit], and the postings file. *)
Definition write_compaction_run (meta : SegmentMeta) (entries : list (list N * N * option N)) (postings : list N) (old_tables : SegmentTables)
    (new_bases : list N) (remap : list (option N)) : res (list N) :=
  old_bases ← match strategy with
    | Trigram =>
        bases ← build_block_bases old_tables;
        ensure (default 0 (last bases) =? SegmentList.block_count meta) "compaction source block count differs from its document table";;
        Ok bases
    | Sparse => Ok []
    end;
  id_space ← to_u32 (SegmentList.block_count meta);
  foldM (write_live_entry id_space (postings_data_len meta) postings remap old_bases new_bases) [] entries.

(** ** What the run holds *)

Lemma file_of_app l k : file_of strategy (l ++ k) = file_of strategy l ++ file_of strategy k.
Proof. unfold file_of. by rewrite fmap_app, concat_app. Qed.

Lemma remap_ids_ok ids remap old_bases new_bases (rm : N -> option N) :
  (forall id, id ∈ ids -> remap_posting_id id remap old_bases new_bases = Ok (rm id)) -> remap_ids ids remap old_bases new_bases = Ok (omap rm ids).
Proof.
  intros H. unfold remap_ids. cut (forall out, foldM (fun out id => new_id ← remap_posting_id id remap old_bases new_bases;
      Ok (match new_id with Some id => out ++ [id] | None => out end)) out ids = Ok (out ++ omap rm ids)); [intros Hc; apply Hc|].
  induction ids as [|id ids IH]; intros out; cbn [foldM omap list_omap]; [by rewrite app_nil_r|]. rewrite H by left. cbn [mbind res_bind].
  rewrite IH by (intros; apply H; by right). destruct (rm id); [by rewrite <- app_assoc|done].
Qed.

(** The records of a group of the dictionary after the remapping. *)
Definition live_group (rm : N -> option N) (g : N * list N) : list (N * N) := pair g.1 <$> sort_dedup (omap rm g.2).

Lemma key_of_entry key : key < 256 ^ key_bytes strategy ->
  from_be (replicate (N.to_nat (8 - key_bytes strategy)) 0 ++ rev (le_bytes (N.to_nat (key_bytes strategy)) key)) = key.
Proof.
  intros Hk. assert (replicate (N.to_nat (8 - key_bytes strategy)) 0 = rev (replicate (N.to_nat (8 - key_bytes strategy)) 0)) as ->.
  { generalize (N.to_nat (8 - key_bytes strategy)). intros n. induction n as [|n IH]; [done|]. cbn [replicate rev]. rewrite <- IH. apply replicate_cons_app. }
  rewrite <- rev_app_distr, from_be_rev, from_le_zeros. apply from_le_bytes. by rewrite N2Nat.id.
Qed.

Lemma entry_cases id_space data g e :
  Runs.entry_ok strategy id_space data g e ->
  e.1.1 = rev (le_bytes (N.to_nat (key_bytes strategy)) g.1) /\ exists offset, unpack_posting e.1.2 = (offset, len g.2) /\
    ((exists id, g.2 = [id] /\ offset = id /\ e.2 = None) \/
     len g.2 <> 1 /\ let n := default (posting_block_len (len g.2) id_space) e.2 in
       offset + n <= len data /\
       match strategy with
       | Trigram => e.2 = None /\ decode_posting_block (take (N.to_nat n) (drop (N.to_nat offset) data)) (len g.2) id_space = Ok g.2
       | Sparse => is_Some e.2 /\ decode_delta_blocks (take (N.to_nat n) (drop (N.to_nat offset) data)) (len g.2) id_space = Ok g.2
       end).
Proof.
  intros (Hk & offset & Hu & H). split; [done|]. exists offset. split; [done|]. destruct (g.2) as [|a [|b ids]].
  - right. split; [done|exact H].
  - left. exists a. destruct H. done.
  - right. split; [rewrite !len_cons; lia|exact H].
Qed.

Lemma write_live_entry_ok id_space data tail remap old_bases new_bases (rm : N -> option N) g e writer :
  Runs.entry_ok strategy id_space data g e -> g.1 < 256 ^ key_bytes strategy ->
  (forall id, id ∈ g.2 -> remap_posting_id id remap old_bases new_bases = Ok (rm id)) ->
  safe (write_live_entry id_space (len data) (data ++ tail) remap old_bases new_bases writer e) (fun writer' => writer' = writer ++ file_of strategy (live_group rm g)).
Proof.
  intros (Hgram & offset & Hu & He)%entry_cases Hk Hrm. destruct e as [[gram packed] length_], g as [key ids]. cbn [fst snd] in *. subst gram. unfold write_live_entry.
  rewrite Hu. eapply safe_bind; [apply safe_ensure|]. intros [] Hpos%N.ltb_lt. eapply safe_bind; [apply safe_ensure|]. intros [] Hlen%N.eqb_eq.
  assert (len (rev (le_bytes (N.to_nat (key_bytes strategy)) key)) = key_bytes strategy) as Hw by (unfold len; rewrite length_rev, le_bytes_length; lia).
  rewrite Hw, key_of_entry by done. cbv zeta. destruct He as [(id & -> & -> & ->)|(Hne & Hfit & Hdec)].
  - change (len [id] =? 1) with true. cbn [negb].
    destruct (N.ltb_spec id U32); [|left; by eexists]. cbn [mbind res_bind]. rewrite Hrm by left. cbn [mbind res_bind]. apply safe_ok.
    unfold live_group. cbn [fst snd omap list_omap]. destruct (rm id) as [id'|].
    + change (sort_dedup [id']) with [id']. unfold file_of, record_of, write_posting_record. cbn [fmap list_fmap concat app]. by rewrite app_nil_r.
    + change (sort_dedup []) with (@nil N). cbn. by rewrite app_nil_r.
  - destruct (N.eqb_spec (len ids) 1) as [|_]; [done|]. cbv zeta in Hfit, Hdec. eapply safe_bind; [apply safe_ensure|]. intros [] Hcount. set (n := default (posting_block_len (len ids) id_space) length_) in *.
    eapply (safe_bind _ _ (fun x => x = n)).
    { destruct strategy; [destruct Hdec as [-> _]; by apply safe_ok|]. destruct Hdec as [[l ->] _]. by apply safe_ok. }
    intros ? ->. eapply safe_bind; [apply safe_context|]. intros end_ [-> _]%checked_add_Some. eapply safe_bind; [apply safe_ensure|]. intros [] _.
    assert (get_range (data ++ tail) offset (offset + n) = Some (take (N.to_nat n) (drop (N.to_nat offset) data))) as ->.
    { apply get_range_app_l. apply get_range_Some. split_and!; [lia|lia|]. do 2 f_equal. lia. }
    cbn [with_context mbind res_bind].
    assert (match strategy with
        | Sparse => decode_delta_blocks (take (N.to_nat n) (drop (N.to_nat offset) data)) (len ids) id_space
        | Trigram => decode_posting_block (take (N.to_nat n) (drop (N.to_nat offset) data)) (len ids) id_space end = Ok ids) as -> by (by destruct strategy; destruct Hdec).
    cbn [mbind res_bind]. rewrite (remap_ids_ok ids _ _ _ rm Hrm). cbn [mbind res_bind]. apply safe_ok.
    unfold live_group. cbn [fst snd]. rewrite <- (fold_records strategy (pair key <$> sort_dedup (omap rm ids)) writer), fold_left_fmap. done.
Qed.
End run.

Lemma list_elem_of_concat_fmap {A B} (f : A -> list B) l y : y ∈ concat (f <$> l) <-> exists x, x ∈ l /\ y ∈ f x.
Proof. rewrite list_elem_of_In, in_concat. setoid_rewrite <- list_elem_of_In. split; [intros (k & (x & -> & Hx)%list_elem_of_fmap & Hy); by exists x|intros (x & Hx & Hy); exists (f x); split; [by apply list_elem_of_fmap_2|done]]. Qed.

(** ** The postings of a segment *)

Section postings.
Context (radsort : list N -> list N) `{!SortsN radsort} (rapidhash_v3 : list N -> N) (strategy : Strategy).

Lemma posting_key data base doc r :
  posting_at radsort rapidhash_v3 strategy data base doc r -> Forall is_byte data -> (Trigram = strategy -> len data <= U32 * CANDIDATE_BLOCK_BYTES) -> r.1 < 256 ^ key_bytes strategy.
Proof.
  intros Hr Hb Hl. unfold posting_at in Hr. destruct strategy.
  - destruct Hr as (block & gram & Hin & ->). by destruct (block_gram_bounds radsort data (block, gram) Hb (Hl eq_refl) Hin).
  - destruct Hr as (grams & gram & _ & _ & ->). cbn [fst]. apply (hash_bound rapidhash_v3).
Qed.

(** Where a posting goes when its document moves. *)
Definition moved (contents : list (list N)) (remap : list (option N)) (new_base : N -> N) (r : N * N) : Prop :=
  exists i data i', get contents i = Some data /\ get remap i = Some (Some i') /\ posting_at radsort rapidhash_v3 strategy data (new_base i') i' r.

Section segment.
Context (old : SegmentTables) (contents : list (list N)) (remap : list (option N)) (old_bases new_bases : list N) (new_base : N -> N).
Context (Hsizes : decoded_size <$> documents old = len <$> contents) (Hcount : len contents < U32) (Hremap : len remap = len contents).
Context (Hbytes : Forall (fun data => Forall is_byte data /\ len data < U64) contents) (Hids : forall i i', get remap i = Some (Some i') -> i' < U32).
Context (Hspace : strategy = Trigram -> sumN (content_blocks <$> contents) <= MAX_POSTING_COUNT).
Context (Hold : strategy = Trigram -> bases_ok (documents old) old_bases).
Context (Hnew : strategy = Trigram -> forall i data i', get contents i = Some data -> get remap i = Some (Some i') ->
  get new_bases i' = Some (new_base i') /\ new_base i' + content_blocks data < U32).

(** The id of a posting at a new base. *)
Definition shifted (id base base' doc' : N) : N := match strategy with Trigram => base' + (id - base) | Sparse => doc' end.

Lemma posting_shift data base doc base' doc' key id :
  posting_at radsort rapidhash_v3 strategy data base doc (key, id) -> posting_at radsort rapidhash_v3 strategy data base' doc' (key, shifted id base base' doc').
Proof.
  unfold posting_at, shifted. destruct strategy.
  - intros (block & gram & Hin & [= -> ->]). exists block, gram. split; [done|]. f_equal. lia.
  - intros (grams & gram & E & Hin & [= -> ->]). by exists grams, gram.
Qed.
Lemma posting_unshift data base doc base' doc' key id' :
  posting_at radsort rapidhash_v3 strategy data base' doc' (key, id') ->
  exists id, posting_at radsort rapidhash_v3 strategy data base doc (key, id) /\ shifted id base base' doc' = id'.
Proof.
  unfold posting_at, shifted. destruct strategy.
  - intros (block & gram & Hin & [= -> ->]). exists (base + block). split; [by exists block, gram|]. lia.
  - intros (grams & gram & E & Hin & [= -> ->]). exists doc. split; [|done]. by exists grams, gram.
Qed.

Lemma content_len data : Trigram = strategy -> data ∈ contents -> len data <= U32 * CANDIDATE_BLOCK_BYTES.
Proof.
  intros Hs Hin. apply list_elem_of_lookup in Hin as [j Hj]. assert (get contents (N.of_nat j) = Some data) as Hg by (unfold get; by rewrite Nat2N.id).
  pose proof (blocks_before_next _ _ _ Hg) as Hn. pose proof (blocks_before_total contents (N.of_nat j + 1)) as Ht. specialize (Hspace (eq_sym Hs)).
  unfold MAX_POSTING_COUNT in Hspace. change (N.shiftl 1 COUNT_BITS - 1) with 16777215 in Hspace. unfold content_blocks in Hn at 1.
  pose proof (div_ceil_le (len data) CANDIDATE_BLOCK_BYTES ltac:(done)). change U32 with 4294967296. nia.
Qed.

Lemma remap_posting_ok i data key id :
  get contents i = Some data -> posting_at radsort rapidhash_v3 strategy data (blocks_before contents i) i (key, id) ->
  exists o, get remap i = Some o /\ remap_posting_id strategy id remap old_bases new_bases =
    Ok ((fun i' => shifted id (blocks_before contents i) (new_base i') i') <$> o).
Proof.
  intros Hd Hp. pose proof (get_Some_lt _ _ _ Hd) as Hi. destruct (get_is_Some remap i) as [o Ho]; [lia|]. exists o. split; [done|].
  assert (len (documents old) = len contents) as Hlen by (apply (f_equal length) in Hsizes; rewrite !length_fmap in Hsizes; unfold len; by rewrite Hsizes).
  pose proof content_len as Hcl. unfold remap_posting_id, shifted, posting_at in *. destruct strategy eqn:Es.
  2: { destruct Hp as (grams & gram & _ & _ & [= _ ->]). rewrite Ho. cbn [with_context mbind res_bind]. by destruct o. }
  destruct Hp as (block & gram & Hin & [= _ ->]). specialize (Hold eq_refl). specialize (Hnew eq_refl). specialize (Hspace eq_refl).
  assert (data ∈ contents) as Helem by (by eapply get_elem). rewrite Forall_forall in Hbytes. destruct (Hbytes data Helem) as [His _].
  destruct (block_gram_bounds radsort data (block, gram) His (Hcl data eq_refl Helem) Hin) as [Hblk _]. cbn [fst] in Hblk.
  change (div_ceil (len data) CANDIDATE_BLOCK_BYTES) with (content_blocks data) in Hblk. pose proof (blocks_before_next _ _ _ Hd) as Hnext.
  assert (get_block_document (blocks_before contents i + block) old_bases = i) as ->.
  { apply (get_block_document_unique (documents old) old_bases Hold); [lia|lia|]. rewrite !(sizes_bases _ _ _ Hsizes). lia. }
  rewrite Ho. cbn [with_context mbind res_bind]. destruct o as [i'|]; [|done]. destruct (Hnew i data i' Hd Ho) as [-> Hroom].
  cbn [with_context mbind res_bind]. rewrite (bo_get _ _ Hold i) by lia. rewrite (sizes_bases _ _ _ Hsizes). cbn [expect mbind res_bind fmap option_fmap option_map].
  do 2 f_equal. pose proof (blocks_before_total contents (i + 1)) as Ht. unfold MAX_POSTING_COUNT in Hspace. change (N.shiftl 1 COUNT_BITS - 1) with 16777215 in Hspace.
  unfold wrapping_add, wrapping_sub. change U32 with 4294967296 in *. lia.
Qed.

(** Where the ids of the groups go. *)
Definition target (id : N) : option N := match remap_posting_id strategy id remap old_bases new_bases with Ok o => o | _ => None end.

Context (groups : list (N * list N)) (Hgroups : groups_ok (fun key id => posting_in radsort rapidhash_v3 strategy contents 0 (len contents) (key, id)) groups).

Lemma group_posting key ids id :
  (key, ids) ∈ groups -> id ∈ ids ->
  exists i data o, get contents i = Some data /\ posting_at radsort rapidhash_v3 strategy data (blocks_before contents i) i (key, id) /\ get remap i = Some o /\
    remap_posting_id strategy id remap old_bases new_bases = Ok (target id) /\
    target id = (fun i' => shifted id (blocks_before contents i) (new_base i') i') <$> o.
Proof.
  intros Hg Hid. assert (posting_in radsort rapidhash_v3 strategy contents 0 (len contents) (key, id)) as (i & data & _ & Hd & Hp) by (apply (gr_has _ _ Hgroups); by exists ids).
  destruct (remap_posting_ok i data key id Hd Hp) as (o & Ho & E). exists i, data, o. unfold target. by rewrite E.
Qed.

Lemma live_groups_spec r :
  r ∈ concat (live_group target <$> groups) <-> moved contents remap new_base r.
Proof.
  rewrite list_elem_of_concat_fmap. unfold live_group. split.
  - intros ([key ids] & Hg & (id' & -> & Hid')%list_elem_of_fmap). cbn [fst snd] in *. apply elem_of_sort_dedup, list_elem_of_omap in Hid' as (id & Hid & Ht).
    destruct (group_posting key ids id Hg Hid) as (i & data & o & Hd & Hp & Ho & _ & E). rewrite E in Ht. destruct o as [i'|]; [|done]. injection Ht as <-.
    exists i, data, i'. split; [done|]. split; [done|]. by eapply posting_shift.
  - intros (i & data & i' & Hd & Ho & Hp). destruct r as [key id']. destruct (posting_unshift data (blocks_before contents i) i _ _ _ _ Hp) as (id & Hp' & Es).
    assert (posting_in radsort rapidhash_v3 strategy contents 0 (len contents) (key, id)) as Hin.
    { exists i, data. split; [|done]. split; [lia|by eapply get_Some_lt]. }
    apply (gr_has _ _ Hgroups) in Hin as (ids & Hg & Hid). exists (key, ids). split; [done|]. cbn [fst snd]. apply list_elem_of_fmap_2.
    apply elem_of_sort_dedup, list_elem_of_omap. exists id. split; [done|]. destruct (remap_posting_ok i data key id Hd Hp') as (o & Ho' & E).
    unfold target. rewrite E. rewrite Ho in Ho'. injection Ho' as <-. cbn. by rewrite Es.
Qed.

Lemma live_groups_sorted : run_ok strategy (concat (live_group target <$> groups)).
Proof.
  split.
  - pose proof (gr_keys _ _ Hgroups) as Hk. clear Hgroups. induction groups as [|[key ids] gs IH]; [constructor|]. cbn [fmap list_fmap concat] in *.
    inversion Hk as [|? ? Hk' Hlt]; subst. apply StronglySorted_app. split; [|split; [|by apply IH]].
    + intros x y (id & -> & _)%list_elem_of_fmap ([key2 ids2] & Hin & (id2 & -> & _)%list_elem_of_fmap)%list_elem_of_concat_fmap. cbn [fst].
      rewrite Forall_forall in Hlt. apply lex_cons. left. apply Hlt. apply list_elem_of_fmap. by exists (key2, ids2).
    + unfold live_group. cbn [fst snd]. pose proof (sort_dedup_ascending (omap target ids)) as Ha. induction Ha as [|a l Ha IHa Hl]; [constructor|].
      cbn [fmap list_fmap]. constructor; [exact IHa|]. apply Forall_fmap. eapply Forall_impl; [exact Hl|]. intros b Hb. apply lex_cons. right. split; [done|]. apply lex_cons. by left.
  - apply Forall_forall. intros r (i & data & i' & Hd & Ho & Hp)%live_groups_spec. assert (data ∈ contents) as Helem by (by eapply get_elem).
    rewrite Forall_forall in Hbytes. destruct (Hbytes data Helem) as [His Hsz]. pose proof content_len as Hcl. unfold posting_at in Hp. destruct strategy eqn:Es.
    + destruct Hp as (block & gram & Hin & ->). specialize (Hcl data eq_refl Helem). destruct (block_gram_bounds radsort data (block, gram) His Hcl Hin) as [Hb Hg].
      cbn [fst snd] in *. split; [exact Hg|]. destruct (Hnew eq_refl i data i' Hd Ho) as [_ Hroom]. unfold content_blocks in Hroom. cbn [snd]. lia.
    + destruct Hp as (grams & gram & _ & _ & ->). split; [apply (hash_bound rapidhash_v3)|]. by eapply Hids.
Qed.

Lemma write_entries_ok id_space data tail entries writer :
  Forall2 (Runs.entry_ok strategy id_space data) groups entries ->
  safe (foldM (write_live_entry strategy id_space (len data) (data ++ tail) remap old_bases new_bases) writer entries)
    (fun file => file = writer ++ file_of strategy (concat (live_group target <$> groups))).
Proof.
  intros H. assert (forall key ids id, (key, ids) ∈ groups -> id ∈ ids -> remap_posting_id strategy id remap old_bases new_bases = Ok (target id)) as Hrm.
  { intros key ids id Hg Hid. by destruct (group_posting key ids id Hg Hid) as (i & dt & o & _ & _ & _ & E & _). }
  assert (Forall (fun g => g.1 < 256 ^ key_bytes strategy) groups) as Hk.
  { apply Forall_forall. intros [key ids] Hg. pose proof (gr_ids _ _ Hgroups) as Hids'. rewrite Forall_forall in Hids'. destruct (Hids' _ Hg) as [_ Hne]. cbn [fst snd] in *.
    destruct ids as [|id ids]; [done|]. destruct (group_posting key (id :: ids) id Hg) as (i & dt & o & Hd & Hp & _); [left|].
    assert (dt ∈ contents) as Helem by (by eapply get_elem). rewrite Forall_forall in Hbytes. destruct (Hbytes dt Helem) as [His Hsz].
    apply (posting_key _ _ _ _ Hp His). intros Hs. by apply content_len. }
  clear Hgroups. revert writer. induction H as [|g e gs es He Hes IH]; intros writer; cbn [foldM].
  { apply safe_ok. cbn. by rewrite app_nil_r. }
  apply Forall_cons in Hk as [Hk1 Hk]. eapply safe_bind; [eapply (write_live_entry_ok strategy id_space data tail); [exact He|exact Hk1|]|].
  - intros id Hid. destruct g as [key ids]. eapply Hrm; [left|exact Hid].
  - intros writer' ->. eapply safe_weaken; [apply IH; [intros; eapply Hrm; [by right|done]|exact Hk]|]. intros file ->. cbn [fmap list_fmap concat].
    by rewrite file_of_app, app_assoc.
Qed.
End segment.

(** A dictionary and its postings file hold the postings of some contents. *)
Record holds_postings (contents : list (list N)) (meta : SegmentMeta) (entries : list (list N * N * option N)) (postings : list N) : Prop := {
  hp_file : exists data tail, postings = data ++ tail /\ len data = postings_data_len meta /\
    exists groups, groups_ok (fun key id => posting_in radsort rapidhash_v3 strategy contents 0 (len contents) (key, id)) groups /\
      Forall2 (Runs.entry_ok strategy (SegmentList.block_count meta) data) groups entries;
}.

Lemma compaction_run_ok old contents remap new_bases new_base meta entries postings :
  decoded_size <$> documents old = len <$> contents -> space_holds strategy contents -> len remap = len contents ->
  Forall (fun data => Forall is_byte data /\ len data < U64) contents -> (forall i i', get remap i = Some (Some i') -> i' < U32) ->
  (strategy = Trigram -> forall i data i', get contents i = Some data -> get remap i = Some (Some i') ->
    get new_bases i' = Some (new_base i') /\ new_base i' + content_blocks data < U32) ->
  holds_postings contents meta entries postings ->
  safe (write_compaction_run strategy meta entries postings old new_bases remap) (fun file =>
    exists run, file = file_of strategy run /\ run_ok strategy run /\ forall r, r ∈ run <-> moved contents remap new_base r).
Proof.
  intros Hsizes [Hcount Hspace] Hremap Hbytes Hids Hnew [(data & tail & -> & Hdata & groups & Hgroups & Hentries)]. unfold write_compaction_run.
  eapply (safe_bind _ _ (fun old_bases => strategy = Trigram -> bases_ok (documents old) old_bases)).
  { destruct strategy; [|by apply safe_ok]. unfold build_block_bases. eapply (safe_bind _ _ (fun bases => bases_ok (documents old) bases)).
    - eapply safe_bind; [apply add_base_safe|]. intros [next bases] [_ Hb]. by apply safe_ok.
    - intros bases Hb. eapply safe_bind; [apply safe_ensure|]. intros [] _. by apply safe_ok. }
  intros old_bases Hold. eapply safe_bind; [apply to_u32_safe|]. intros ? [-> _]. rewrite <- Hdata.
  eapply safe_weaken; [by eapply (write_entries_ok old contents remap old_bases new_bases new_base)|].
  intros file ->. eexists. split; [done|]. split; [by eapply live_groups_sorted|]. intros r. by apply (live_groups_spec old contents remap old_bases new_bases new_base).
Qed.
End postings.

(** ** The pair that is merged *)

Definition no_dead : DeadSet := {| dead_sources := []; dead_documents := [] |}.
(** The live documents of a segment, whose dead documents are some of its own. *)
Definition live_count (entry : SegmentMeta * DeadSet) : N := seg_doc_count entry.1 - len (dead_documents entry.2).
Definition counted (entry : SegmentMeta * DeadSet) : Prop := len (dead_documents entry.2) <= seg_doc_count entry.1 < U32.

(** Two segments that may be merged: their sums are within the caps. *)
Record mergeable (a b : SegmentMeta * DeadSet) : Prop := {
  mg_postings : postings_len a.1 + postings_len b.1 <= MERGE_POSTINGS_CAP;
  mg_terms : terms_fst_len a.1 + terms_fst_len b.1 <= MERGE_TERMS_CAP;
  mg_docs : docs_len a.1 + docs_len b.1 <= MERGE_DOCS_CAP;
  mg_live : live_count a + live_count b <= SEGMENT_DOC_CAP;
  mg_blocks : SegmentList.block_count a.1 + SegmentList.block_count b.1 <= MAX_POSTING_COUNT;
}.

Lemma live_documents_count entry : counted entry -> live_documents entry = live_count entry.
Proof. unfold counted, live_documents, live_count, wrapping_sub. change U64 with (2 ^ 64). change U32 with (2 ^ 32). lia. Qed.

Lemma sum_fits_iff cap a b : cap < 2 ^ 63 -> sum_fits cap a b = true <-> a + b <= cap.
Proof. intros Hc. unfold sum_fits, saturating_add. rewrite N.leb_le. change U64 with (2 ^ 64). lia. Qed.

Lemma can_merge_iff a b : counted a -> counted b -> can_merge a b = true <-> mergeable a b.
Proof.
  intros Ha Hb. unfold can_merge. rewrite !andb_true_iff, !sum_fits_iff by done. rewrite !live_documents_count by done.
  split; [intros [[[[? ?] ?] ?] ?]; split; assumption|intros [? ? ? ? ?]; tauto].
Qed.

Lemma live_pair_count a b : counted a -> counted b -> live_pair (a, b) = live_count a + live_count b.
Proof.
  intros Ha Hb. unfold live_pair, saturating_add. cbn [fst snd]. rewrite !live_documents_count by done. unfold counted, live_count in *.
  change U64 with (2 ^ 64). change U32 with (2 ^ 32) in *. lia.
Qed.

Lemma min_by_key_spec {A} (key : A -> N) l :
  match min_by_key key l with
  | None => l = []
  | Some x => exists pre post, l = pre ++ x :: post /\ Forall (fun y => key x < key y) pre /\ Forall (fun y => key x <= key y) post
  end.
Proof.
  induction l as [|x l IH]; cbn [min_by_key]; [done|]. destruct (min_by_key key l) as [y|]; [|subst l; exists [], []; split; [done|split; constructor]].
  destruct IH as (pre & post & -> & Hpre & Hpost). destruct (N.ltb_spec (key y) (key x)).
  - exists (x :: pre), post. split; [done|]. split; [by constructor|done].
  - exists [], (pre ++ y :: post). split; [done|]. split; [constructor|]. apply Forall_app. split; [|constructor; [done|]]; eapply Forall_impl; [exact Hpre|cbn; lia|exact Hpost|cbn; lia].
Qed.

Lemma get_pairs {A} (l : list A) i a b : get (pairs l) i = Some (a, b) <-> get l i = Some a /\ get l (i + 1) = Some b.
Proof.
  unfold get. replace (N.to_nat (i + 1)) with (S (N.to_nat i)) by lia. generalize (N.to_nat i). clear i. intros i. revert l.
  induction i as [|i IH]; intros [|x [|y l]].
  - by split; [|intros [? ?]].
  - by split; [|intros [? ?]].
  - cbn. split; [by intros [= -> ->]|by intros [[= ->] [= ->]]].
  - by split; [|intros [? ?]].
  - cbn. by split; [|intros [? ?]].
  - rewrite pairs_cons. cbn [lookup list_lookup]. apply IH.
Qed.

(** The segments at [i] and [i + 1] may be merged. *)
Definition candidate (segments : list (SegmentMeta * DeadSet)) (i : N) (a b : SegmentMeta * DeadSet) : Prop :=
  get segments i = Some a /\ get segments (i + 1) = Some b /\ mergeable a b.

Lemma candidate_in segments i a b :
  Forall counted segments -> (i, (a, b)) ∈ filter (fun entry => can_merge entry.2.1 entry.2.2 = true) (enumerate (pairs segments)) <-> candidate segments i a b.
Proof.
  intros Hc. rewrite Forall_forall in Hc. rewrite list_elem_of_filter, elem_of_enumerate, get_pairs. cbn [fst snd]. unfold candidate. split.
  - intros (Hm & Ha & Hb). split; [done|]. split; [done|]. by apply can_merge_iff; [eapply Hc, get_elem..|].
  - intros (Ha & Hb & Hm). split; [|done]. by apply can_merge_iff; [eapply Hc, get_elem..|].
Qed.

Lemma pick_victim_ok segments :
  Forall counted segments ->
  match pick_victim segments with
  | None => len segments <= SEGMENT_COUNT_TARGET \/ forall i a b, ~ candidate segments i a b
  | Some v => SEGMENT_COUNT_TARGET < len segments /\ exists a b, candidate segments v a b /\
      forall i c d, candidate segments i c d -> live_count a + live_count b <= live_count c + live_count d /\ (i < v -> live_count a + live_count b < live_count c + live_count d)
  end.
Proof.
  intros Hc. unfold pick_victim. destruct (N.leb_spec (len segments) SEGMENT_COUNT_TARGET) as [Hle|Hgt]; [by left|]. cbv zeta.
  set (candidates := filter _ _). pose proof (min_by_key_spec (fun entry => live_pair entry.2) candidates) as Hm.
  assert (forall i c d, (i, (c, d)) ∈ candidates <-> candidate segments i c d) as Hin by (intros; by apply candidate_in).
  destruct (min_by_key _ candidates) as [[v [a b]]|]; cbn [fst fmap option_fmap option_map].
  2: { right. intros i a b Hab%Hin. rewrite Hm in Hab. by apply elem_of_nil in Hab. }
  split; [done|]. destruct Hm as (pre & post & E & Hpre & Hpost).
  assert (candidate segments v a b) as Hab by (apply Hin; rewrite E; apply elem_of_app; right; left).
  assert (forall i c d, candidate segments i c d -> live_pair (c, d) = live_count c + live_count d) as Hlive.
  { intros i c d (H1 & H2 & _). rewrite Forall_forall in Hc. by apply live_pair_count; eapply Hc, get_elem. }
  assert (StronglySorted N.lt candidates.*1) as Hsorted.
  { subst candidates. clear. unfold enumerate. generalize (pairs segments). intros l.
    assert (forall k, StronglySorted N.lt (filter (fun entry : N * (_ * _) => can_merge entry.2.1 entry.2.2 = true) (imap (fun i x => (N.of_nat (k + i), x)) l)).*1) as H.
    2: { exact (H 0%nat). }
    induction l as [|x l IH]; intros k; [constructor|]. rewrite imap_cons.
    assert (imap ((fun (i : nat) y => (N.of_nat (k + i), y)) ∘ S) l = imap (fun i y => (N.of_nat (S k + i), y)) l) as -> by (apply imap_ext; intros; cbn; do 2 f_equal; lia).
    specialize (IH (S k)). rewrite filter_cons. case_decide; [|done]. cbn [fmap list_fmap fst]. constructor; [done|].
    apply Forall_fmap, Forall_forall. intros [j y] [_ Hj]%list_elem_of_filter. apply elem_of_lookup_imap in Hj as (i & y' & [= -> ->] & _). cbn. lia. }
  exists a, b. split; [done|]. intros i c d Hcd. rewrite <- (Hlive v a b Hab), <- (Hlive i c d Hcd). apply Hin in Hcd. rewrite E in Hcd, Hsorted.
  rewrite fmap_app in Hsorted. cbn [fmap list_fmap fst] in Hsorted. rewrite Forall_forall in Hpre, Hpost.
  apply elem_of_app in Hcd as [Hp|[[= -> -> ->]|Hp]%elem_of_cons].
  - specialize (Hpre _ Hp). cbn [snd] in Hpre. lia.
  - lia.
  - specialize (Hpost _ Hp). cbn [snd] in Hpost. split; [done|]. apply StronglySorted_app in Hsorted as (_ & _ & Hs). inversion Hs as [|? ? _ Hlt]; subst.
    rewrite Forall_forall in Hlt. specialize (Hlt i). assert (i ∈ post.*1) as Hi by (apply list_elem_of_fmap; by exists (i, (c, d))). specialize (Hlt Hi). lia.
Qed.

Lemma get_split_pair {A} (l : list A) v a b :
  get l v = Some a -> get l (v + 1) = Some b -> l = take (N.to_nat v) l ++ [a; b] ++ drop (N.to_nat (v + 2)) l.
Proof.
  unfold get. replace (N.to_nat (v + 1)) with (S (N.to_nat v)) by lia. replace (N.to_nat (v + 2)) with (S (S (N.to_nat v))) by lia. intros Ha Hb.
  rewrite <- (take_drop_middle l (N.to_nat v) a Ha) at 1. f_equal. cbn. f_equal. by rewrite (drop_S l b).
Qed.

(** ** Properties *)

(** Compaction merges neighbours only when there are too many segments, and
    then the pair whose sums are within all caps and whose live documents are the
    fewest, the first such pair; the two become the merged segment without dead
    documents, the others stay in place.  When it merges nothing there is no such
    pair, and a failing merge changes nothing. *)
Theorem maybe_compact_exact merge segments :
  Forall counted segments ->
  match pick_victim segments with
  | None => maybe_compact merge segments = Ok (false, segments) /\ (len segments <= SEGMENT_COUNT_TARGET \/ forall i a b, ~ candidate segments i a b)
  | Some v => SEGMENT_COUNT_TARGET < len segments /\ exists pre a b post, segments = pre ++ [a; b] ++ post /\ len pre = v /\ mergeable a b /\
      (forall i c d, candidate segments i c d -> live_count a + live_count b <= live_count c + live_count d /\ (i < v -> live_count a + live_count b < live_count c + live_count d)) /\
      maybe_compact merge segments = (merged ← merge [a; b]; Ok (true, pre ++ [(merged, no_dead)] ++ post))
  end.
Proof.
  intros Hc. pose proof (pick_victim_ok segments Hc) as H. unfold maybe_compact. destruct (pick_victim segments) as [v|]; [|by split].
  destruct H as (Hlen & a & b & (Ha & Hb & Hm) & Hleast). split; [done|]. exists (take (N.to_nat v) segments), a, b, (drop (N.to_nat (v + 2)) segments).
  rewrite Ha, Hb. split; [by apply get_split_pair|]. split; [|done]. apply get_Some_lt in Ha. unfold len in *. rewrite length_take. lia.
Qed.

(** C5: the run that compaction writes for a segment has exactly the postings of
    the live documents: a document that has an id in the merged segment keeps all
    its postings, from its new base on, and a dead one loses them; the records are
    sorted, strictly, and in range.  The remapping does not panic. *)
Theorem compaction_run_exact radsort `{!SortsN radsort} rapidhash_v3 strategy old contents remap new_bases new_base meta entries postings :
  decoded_size <$> documents old = len <$> contents -> space_holds strategy contents -> len remap = len contents ->
  Forall (fun data => Forall is_byte data /\ len data < U64) contents -> (forall i i', get remap i = Some (Some i') -> i' < U32) ->
  (strategy = Trigram -> forall i data i', get contents i = Some data -> get remap i = Some (Some i') ->
    get new_bases i' = Some (new_base i') /\ new_base i' + content_blocks data < U32) ->
  holds_postings radsort rapidhash_v3 strategy contents meta entries postings ->
  safe (write_compaction_run strategy meta entries postings old new_bases remap) (fun file =>
    exists run, file = file_of strategy run /\ run_ok strategy run /\ forall r, r ∈ run <-> moved radsort rapidhash_v3 strategy contents remap new_base r).
Proof. intros. by eapply compaction_run_ok. Qed.

(** ** Witnesses: the postings of "abc" and "zabc", the first of them dead *)

Definition demo_entry (size : N) : DocEntry := {|
  display_key := []; source_id := 0; member_path := None; decoded_size := size; first_block := 0; block_offset := 0; max_line_len := size; block_newlines := [0] |}.
Definition demo_old : SegmentTables := {| sources := []; documents := [demo_entry 3; demo_entry 4]; blocks := [] |}.
Definition demo_texts : list (list N) := [ascii "abc"; ascii "zabc"].
Definition ABC : N := 97 * 65536 + 98 * 256 + 99.
Definition ZAB : N := 122 * 65536 + 97 * 256 + 98.
Definition demo_groups : list (N * list N) := [(ABC, [0; 1]); (ZAB, [1])].
Definition demo_block : list N := encode_posting_block [0; 1] 2.
Definition demo_segment : SegmentMeta := {|
  seg_id := replicate 64 97; seg_doc_count := 2; SegmentList.block_count := 2; terms_fst_len := 1; terms_fst_hash := replicate 64 98; terms_tail_hash := [];
  postings_len := 10; postings_hash := replicate 64 98; postings_data_len := len demo_block; postings_tail_hash := replicate 64 98; docs_len := 1;
  docs_hash := replicate 64 98; min_key := [97]; max_key := [98]; dead_hash := []; dead_len := 0; failed_source_count := 0; seg_packs := [] |}.
Definition demo_packed_value (offset count : N) : N := match pack_posting offset count with Ok v => v | _ => 0 end.
Definition demo_entries : list (list N * N * option N) := [(ascii "abc", demo_packed_value 0 2, None); (ascii "zab", demo_packed_value 1 1, None)].

Lemma demo_groups_ok : groups_ok (fun key id => posting_in sort_N sum_hash Trigram demo_texts 0 2 (key, id)) demo_groups.
Proof.
  split.
  - repeat constructor.
  - repeat constructor; done.
  - intros key id. split.
    + intros (i & data & [_ Hi] & Hd & block & gram & Hin & [= -> ->]). assert (i = 0 \/ i = 1) as [->| ->] by lia; injection Hd as <-; vm_compute in Hin.
      * apply list_elem_of_singleton in Hin as [= -> ->]. exists [0; 1]. split; [left|vm_compute; left].
      * apply elem_of_cons in Hin as [[= -> ->]|[= -> ->]%list_elem_of_singleton].
        -- exists [0; 1]. split; [left|vm_compute; right; left].
        -- exists [1]. split; [right; left|vm_compute; left].
    + assert (posting_in sort_N sum_hash Trigram demo_texts 0 2 (ABC, 0)) as H0 by (exists 0, (ascii "abc"); split; [done|]; split; [done|]; exists 0, ABC; split; [vm_compute; left|done]).
      assert (forall g, g ∈ [ABC; ZAB] -> posting_in sort_N sum_hash Trigram demo_texts 0 2 (g, 1)) as H1.
      { intros g Hg. exists 1, (ascii "zabc"). split; [done|]. split; [done|]. exists 0, g. split; [|done].
        apply elem_of_cons in Hg as [->| ->%list_elem_of_singleton]; vm_compute; [left|right; left]. }
      intros (ids & [[= -> ->]|[= -> ->]%list_elem_of_singleton]%elem_of_cons & Hid).
      * apply elem_of_cons in Hid as [->| ->%list_elem_of_singleton]; [exact H0|apply H1; left].
      * apply list_elem_of_singleton in Hid as ->. apply H1. right; left.
Qed.

Lemma demo_holds : holds_postings sort_N sum_hash Trigram demo_texts demo_segment demo_entries (demo_block ++ [7]).
Proof.
  split. exists demo_block, [7]. split; [done|]. split; [done|]. exists demo_groups. split; [exact demo_groups_ok|]. repeat constructor.
  - exists 0. split; [by vm_compute|]. vm_compute. done.
  - exists 1. split; [by vm_compute|]. done.
Qed.

Lemma compaction_run_exact_witness :
  write_compaction_run Trigram demo_segment demo_entries (demo_block ++ [7]) demo_old [0] [None; Some 0] = Ok (file_of Trigram [(ABC, 0); (ZAB, 0)]) /\
  exists run, file_of Trigram [(ABC, 0); (ZAB, 0)] = file_of Trigram run /\ forall r, r ∈ run <-> moved sort_N sum_hash Trigram demo_texts [None; Some 0] (fun _ => 0) r.
Proof.
  split; [vm_compute; reflexivity|].
  destruct (compaction_run_exact sort_N sum_hash Trigram demo_old demo_texts [None; Some 0] [0] (fun _ => 0) demo_segment demo_entries (demo_block ++ [7])) as [[e E]|(file & E & run & Ef & _ & H)].
  - reflexivity.
  - by split.
  - reflexivity.
  - repeat constructor; try done.
  - intros i i' Hi. pose proof (get_Some_lt _ _ _ Hi) as Hlt. change (i < 2) in Hlt. assert (i = 0 \/ i = 1) as [->| ->] by lia; [done|by injection Hi as <-].
  - intros _ i data i' Hd Hi. pose proof (get_Some_lt _ _ _ Hi) as Hlt. change (i < 2) in Hlt. assert (i = 0 \/ i = 1) as [->| ->] by lia; [done|]. injection Hi as <-. injection Hd as <-. by split.
  - exact demo_holds.
  - vm_compute in E. discriminate E.
  - exists run. vm_compute in E. injection E as <-. split; [exact Ef|exact H].
Defined.

(** Nine segments, of which the second and third have the fewest documents. *)
Definition demo_sized (count terms : N) : SegmentMeta * DeadSet := ({|
  seg_id := replicate 64 97; seg_doc_count := count; SegmentList.block_count := count; terms_fst_len := terms; terms_fst_hash := []; terms_tail_hash := [];
  postings_len := 1; postings_hash := []; postings_data_len := 1; postings_tail_hash := []; docs_len := 1;
  docs_hash := []; min_key := []; max_key := []; dead_hash := []; dead_len := 0; failed_source_count := 0; seg_packs := [] |}, {| dead_sources := []; dead_documents := [0] |}).
Definition demo_segments : list (SegmentMeta * DeadSet) :=
  [demo_sized 9 1; demo_sized 5 1; demo_sized 4 1; demo_sized 9 1; demo_sized 1 MERGE_TERMS_CAP; demo_sized 1 1; demo_sized 9 1; demo_sized 4 1; demo_sized 5 1].

Lemma maybe_compact_exact_witness :
  maybe_compact (fun _ => Ok demo_segment) demo_segments =
    Ok (true, take 1 demo_segments ++ [(demo_segment, no_dead)] ++ drop 3 demo_segments) /\ pick_victim demo_segments = Some 1 /\
  exists pre a b post, demo_segments = pre ++ [a; b] ++ post /\ len pre = 1 /\ mergeable a b.
Proof.
  split; [vm_compute; reflexivity|]. split; [vm_compute; reflexivity|].
  pose proof (maybe_compact_exact (fun _ => Ok demo_segment) demo_segments) as H. rewrite (eq_refl : pick_victim demo_segments = Some 1) in H.
  destruct H as (_ & pre & a & b & post & E & Hl & Hm & _); [|by exists pre, a, b, post]. repeat constructor; done.
Defined.
