(* ===== verification/Publish.v ===== *)
(** * Publishing segments (crates/index/src/segment.rs, build/runs.rs)

    What is built becomes a segment: [merge_posting_runs] merges the runs into
    the dictionary and the postings file, which stream to the store while they
    are written; [merge_and_put_segment] checks the tables, puts the packs and
    the files of the segment and records their hashes; and
    [write_bounded_segments] halves a listing until every part fits the document
    cap.  The store is a map of blobs; whether an operation on it succeeds is an
    argument, as are the random bytes of a segment's id. *)

From S2P Require Import Prelude BitPack Bytes Postings DeltaBlocks PostingsTable Trigrams SparseGrams QueryPlan Eval SparseTable Terms Format Detect Decode PackBuild PackRead PackBatch PackLines PackFetch SegmentList Cache Update Runs RunWriter Build Compact.

(** ** Merging runs into the blobs of a segment *)

Definition TRIGRAM_SHARD_RUN_BYTES : N := 7 * 1024 * 1024.
Definition uses_sharded_terms (strategy : Strategy) (run_bytes : N) : bool := bool_decide (strategy = Trigram) && (TRIGRAM_SHARD_RUN_BYTES <=? run_bytes).

Record MergedBlob : Type := { mb_len : N; mb_hash : list N }.
Record PostingsTail : Type := { pt_data_len : N; pt_tail_hash : list N }.
Definition MergedRuns : Type := MergedBlob * MergedBlob * list N * PostingsTail.

Section files.
Context {B M : Type} (F : Fst B M) (sha256 : list N -> list N).

(** [HashWriter::finish] over a [SinkWriter]: what was written and its hash. *)
Definition merged_blob (bytes : list N) : MergedBlob := {| mb_len := len bytes; mb_hash := sha256_hex sha256 bytes |}.

(** [merge_posting_runs] up to the ends of its sinks: the bytes of both. *)
Definition merge_run_files (runs : list (list N)) (strategy : Strategy) (doc_count : N) : res (list N * list N * MergedRuns) :=
  paths ← collapse_posting_runs strategy runs;
  run_bytes ← foldM (fun total path => with_context (checked_add U64 total (len path)) "posting run bytes overflow u64") 0 paths;
  builder ← new_terms F strategy (uses_sharded_terms strategy run_bytes);
  o ← merge_paths (insert_term F sha256) paths strategy doc_count builder;
  '(terms, tail_hash) ← finish_terms F sha256 (o_builder o);
  let '(postings, postings_data_len, postings_tail_hash) := PostingsTable.finish sha256 (write_all sha256 (new_writer []) (o_postings o)) in
  ensure (o_offset o =? postings_data_len) "postings writer tracked and streamed lengths differ";;
  Ok (terms, postings, (merged_blob terms, merged_blob postings, default [] tail_hash, {| pt_data_len := postings_data_len; pt_tail_hash := postings_tail_hash |})).
End files.

(** ** The store *)

Record World : Type := { blobs : gmap (list N) (list N); draws : N }.
Definition put_raw (blob bytes : list N) (w : World) : World := {| blobs := <[blob := bytes]> (blobs w); draws := draws w |}.
Definition delete_raw (blob : list N) (w : World) : World := {| blobs := delete blob (blobs w); draws := draws w |}.
Definition draw_raw (w : World) : World := {| blobs := blobs w; draws := draws w + 1 |}.

(** The posting id space of a segment. *)
Definition segment_block_count (strategy : Strategy) (tables : SegmentTables) : N :=
  match strategy with
  | Sparse => len (documents tables)
  | Trigram => fold_left (wrapping_add U64) ((fun doc => div_ceil (decoded_size doc) CANDIDATE_BLOCK_BYTES) <$> documents tables) 0
  end.

(** The loop over the packs in [merge_and_put_segment]. *)
Definition check_pack (blocks : list PackBlock) (entry : N * PackFile) : res unit :=
  end_ ← with_context (pack_end blocks entry.1) "pack file has no blocks";
  ensure (end_ =? pf_len entry.2) "pack file length differs from block table".

Record CorpusOps : Type := { cp_sources : list SourceObject; cp_fetch : N * N -> res (list (N * DocumentBody)) }.

Section publish.
Context {B M : Type} (F : Fst B M) (sha256 : list N -> list N) (strategy : Strategy).
(** [postcard::to_allocvec] of the tables; [getrandom::fill], a draw at a time;
    and whether [put] (also of a file, and the end of a stream), [put_streaming]
    and [delete] succeed. *)
Context (encode_tables : SegmentTables -> res (list N)) (random : N -> res (list N)).
Context (put_result : list N -> list N -> res unit) (open_result delete_result : list N -> res unit).

Definition put_blob (blob bytes : list N) : ST World unit := lift (put_result blob bytes);; modify (put_raw blob bytes).
(** [store.delete(..).ok()] *)
Definition delete_ok (blob : list N) : ST World unit := fun w => (Ok tt, match delete_result blob with Ok _ => delete_raw blob w | _ => w end).

Definition random_seg_id : ST World (list N) :=
  n ← gets draws;
  modify draw_raw;;
  bytes ← lift (random n);
  mret (hex bytes).

(** The closure [publish] of [merge_and_put_segment].  A sink puts its blob when
    it is finished. *)
Definition publish (seg_id : list N) (runs : list (list N)) (block_count : N) (docs_bytes : list N) : ST World MergedRuns :=
  lift (open_result (segment_blob seg_id TERMS_FST));;
  lift (open_result (segment_blob seg_id POSTINGS_BIN));;
  doc_count ← lift (if block_count <? U32 then Ok block_count else Err "segment exceeds the candidate block id space");
  '(terms, postings, merged) ← lift (merge_run_files F sha256 runs strategy doc_count);
  put_blob (segment_blob seg_id TERMS_FST) terms;;
  put_blob (segment_blob seg_id POSTINGS_BIN) postings;;
  put_blob (segment_blob seg_id DOCS_BIN) docs_bytes;;
  mret merged.

Definition or_delete {A} (seg_id : list N) (m : ST World A) : ST World A := fun w =>
  match m w with
  | (Err e, w) => (Err e, (forS (fun name => delete_ok (segment_blob seg_id name)) [TERMS_FST; POSTINGS_BIN; DOCS_BIN] w).2)
  | r => r
  end.

(** The end of [merge_and_put_segment]. *)
Definition segment_meta (tables : SegmentTables) (packs : list PackFile) (seg_id docs_bytes : list N) (block_count : N) (merged : MergedRuns) : ST World SegmentMeta :=
  let '(fst_, postings, terms_tail_hash, postings_tail) := merged in
  doc_count ← lift (to_u32 (len (documents tables)));
  first ← lift (expect (head (sources tables)) "index out of bounds");
  last_ ← lift (expect (last (sources tables)) "index out of bounds");
  failed ← lift (to_u32 (len (filter (fun source => failed source = true) (sources tables))));
  mret {| seg_id := seg_id; seg_doc_count := doc_count; block_count := block_count; terms_fst_len := mb_len fst_; terms_fst_hash := mb_hash fst_;
    terms_tail_hash := terms_tail_hash; postings_len := mb_len postings; postings_hash := mb_hash postings; postings_data_len := pt_data_len postings_tail;
    postings_tail_hash := pt_tail_hash postings_tail; docs_len := len docs_bytes; docs_hash := sha256_hex sha256 docs_bytes;
    min_key := key first; max_key := key last_; dead_hash := []; dead_len := 0; failed_source_count := failed; seg_packs := meta <$> packs |}.

Definition merge_and_put_segment (runs : list (list N)) (tables : SegmentTables) (packs : list PackFile) : ST World SegmentMeta :=
  lift (ensure (negb (bool_decide (sources tables = []))) "refusing to write a segment without sources");;
  lift (validate tables);;
  let pack_count := match last (blocks tables) with Some block => pack block + 1 | None => 0 end in
  lift (ensure (pack_count =? len packs) "pack file count differs from block table");;
  lift (foldM (fun _ entry => check_pack (blocks tables) entry) tt (enumerate packs));;
  docs_bytes ← lift (encode_tables tables);
  let block_count := segment_block_count strategy tables in
  lift (ensure (block_count <=? MAX_POSTING_COUNT) "segment posting id space exceeds the 2^24 format limit");;
  seg_id ← random_seg_id;
  forS (fun pack => put_blob (pack_blob (pf_hash pack)) (pf_bytes pack)) packs;;
  merged ← or_delete seg_id (publish seg_id runs block_count docs_bytes);
  segment_meta tables packs seg_id docs_bytes block_count merged.

(** ** Writing bounded segments *)

Context (x : Crates) (compress : list N -> res (list N)) (radsort : list N -> list N) (rapidhash_v3 : list N -> N) (workers : N).
Context (make_corpus : list Listed -> res CorpusOps) (doc_cap : N).

Definition patch_source (out : list SourceEntry) (entry : SourceEntry * Listed) : res (list SourceEntry) :=
  let '(source, (key_, version_, size)) := entry in
  ensure (bool_decide (key source = key_)) "corpus source key differs from its listing";;
  Ok (out ++ [{| key := key source; version := version_; encoded_size := size; Format.encoding := Format.encoding source; first_doc := first_doc source;
                 doc_count := doc_count source; failed := failed source; retry := retry source |}]).

Definition build_segment_files (corpus : CorpusOps) (docs : list Listed) : res BuiltIndexFiles :=
  built ← build_index_files x compress sha256 radsort rapidhash_v3 workers (cp_sources corpus) strategy (Some doc_cap) (cp_fetch corpus);
  ensure (len (sources (bi_tables built)) =? len docs) "corpus source count differs from its listing";;
  patched ← foldM patch_source [] (zip (sources (bi_tables built)) docs);
  Ok {| bi_runs := bi_runs built; bi_packs := bi_packs built;
        bi_tables := {| sources := patched; documents := documents (bi_tables built); blocks := blocks (bi_tables built) |} |}.

(** Every recursive call has at most half of the listing. *)
Fixpoint write_bounded_segments (fuel : nat) (docs : list Listed) : ST World (list SegmentMeta) :=
  match fuel with
  | O => lift (Panic "stack exhausted")
  | S fuel =>
      lift (ensure (0 <? doc_cap) "segment document cap must be greater than 0");;
      lift (ensure (negb (bool_decide (docs = []))) "refusing to build an empty segment shard");;
      corpus ← lift (make_corpus docs);
      match build_segment_files corpus docs with
      | Ok built => meta ← merge_and_put_segment (bi_runs built) (bi_tables built) (bi_packs built); mret [meta]
      | Err error =>
          if is_cap_exceeded error then
            lift (ensure (1 <? len docs) "source expands beyond the segment cap");;
            let split := (length docs / 2)%nat in
            segments ← write_bounded_segments fuel (take split docs);
            more ← write_bounded_segments fuel (drop split docs);
            mret (segments ++ more)
          else lift (Err error)
      | Panic why => lift (Panic why)
      end
  end.
End publish.

(** ** Merging never panics *)

Section merge_proofs.
Context {B M : Type} (F : Fst B M) `{!FstOk F} (sha256 : list N -> list N) (sha256_len : forall data, length (sha256 data) = 32%nat).

Lemma close_until_safe t shard : safe (close_until F t shard) (fun _ => True).
Proof.
  apply (foldM_safe (fun _ _ => True)); [done|]. intros _ _ _ t' _ _. unfold close_shard. eapply (safe_bind _ _ (fun _ => True)); [|intros w _; by apply safe_ok].
  destruct (tb_builder t') as [[b w]|].
  - eapply safe_bind; [apply fst_written|]. intros bytes _. eapply safe_weaken; [apply count_write_safe|done].
  - safe_next. intros w _. eapply safe_weaken; [apply count_write_safe|done].
Qed.

Lemma insert_term_safe t gram value length_ : safe (insert_term F sha256 t gram value length_) (fun _ => True).
Proof.
  destruct t as [b|w|t]; cbn [insert_term]; (eapply safe_bind; [apply safe_ensure|]; intros [] _).
  - eapply safe_bind; [apply fst_entries_insert|]. intros b' _. by apply safe_ok.
  - eapply safe_bind; [apply insert_safe|]. intros w' _. by apply safe_ok.
  - eapply (safe_bind _ _ (fun _ => True)); [|intros t' _; by apply safe_ok]. unfold insert_trigram. eapply safe_bind; [apply safe_ensure|]. intros [] Hl%N.eqb_eq.
    destruct (get_is_Some gram 0) as [shard ->]; [lia|]. cbn [expect mbind res_bind]. eapply safe_bind; [apply safe_ensure|]. intros [] _.
    eapply safe_bind; [apply close_until_safe|]. intros t1 _. eapply (safe_bind _ _ (fun _ => True)).
    { destruct (tb_builder t1); [by apply safe_ok|]. safe_next. intros w _. by apply safe_ok. }
    intros [b w] _. eapply safe_bind; [apply fst_entries_insert|]. intros b' _. by apply safe_ok.
Qed.

Lemma finish_terms_safe t : safe (finish_terms F sha256 t) (fun _ => True).
Proof.
  destruct t as [b|w|t]; cbn [finish_terms].
  - eapply safe_bind; [apply fst_written|]. intros bytes _. by apply safe_ok.
  - destruct (SparseTable.finish sha256 w). by apply safe_ok.
  - eapply (safe_bind _ _ (fun _ => True)); [|intros bytes _; by apply safe_ok]. unfold finish_trigram. eapply safe_bind; [apply close_until_safe|]. intros t1 _.
    eapply safe_bind; [apply safe_ensure|]. intros [] _. safe_next. intros w _. eapply safe_weaken; [apply write_offsets_ok|done].
Qed.

Lemma insert_groups_safe strategy doc_count o groups :
  safe (foldM (fun o (g : N * list N) => insert_posting_file (insert_term F sha256) o strategy g.1 g.2 doc_count) o groups) (fun _ => True).
Proof.
  apply (foldM_safe (fun _ _ => True)); [done|]. intros _ [key ids] _ o' _ _. unfold insert_posting_file. cbn [fst snd].
  assert (forall v n gram o'', safe (builder ← insert_term F sha256 (o_builder o') gram v n; Ok (o'' builder : Output (TermBuilder (B := B)))) (fun _ => True)) as H.
  { intros v n gram o''. eapply safe_bind; [apply insert_term_safe|]. intros b _. by apply safe_ok. }
  destruct (sort_dedup ids) as [|id [|id2 rest]]; [by apply safe_ok|..]; (eapply safe_bind; [apply pack_posting_safe|]; intros v _; apply H).
Qed.

Lemma run_bytes_safe (paths : list (list N)) :
  safe (foldM (fun total (path : list N) => with_context (checked_add U64 total (len path)) "posting run bytes overflow u64") 0 paths) (fun _ => True).
Proof. apply (foldM_safe (fun _ _ => True)); [done|]. intros. unfold with_context. destruct (checked_add _ _ _); [by apply safe_ok|left; by eexists]. Qed.

(** ** The files of a segment *)

Context (strategy : Strategy) (radsort : list N -> list N) `{!SortsN radsort} (rapidhash_v3 : list N -> N).

Definition id_space (contents : list (list N)) : N :=
  match strategy with Sparse => len contents | Trigram => sumN (content_blocks <$> contents) end.

Lemma posting_in_lt contents r :
  Forall (fun data => Forall is_byte data /\ len data < U64) contents -> space_holds strategy contents ->
  posting_in radsort rapidhash_v3 strategy contents 0 (len contents) r -> r.2 < id_space contents /\ (strategy = Sparse -> r.1 < 2 ^ 40).
Proof.
  intros Hbytes [Hcount Hspace] (i & data & [_ Hi] & Hd & Hp). unfold id_space, posting_at in *. destruct strategy eqn:Es.
  - split; [|done]. destruct Hp as (block & gram & Hin & ->). cbn [snd]. assert (data ∈ contents) as Helem by (by eapply get_elem).
    rewrite Forall_forall in Hbytes. destruct (Hbytes data Helem) as [His _].
    destruct (block_gram_bounds radsort data (block, gram) His) as [Hb _]; [by apply (content_len rapidhash_v3 Trigram contents ((fun _ => None) <$> contents)); [|rewrite len_fmap|..]|done|].
    change (div_ceil (len data) CANDIDATE_BLOCK_BYTES) with (content_blocks data) in Hb. cbn [fst] in Hb.
    pose proof (blocks_before_next _ _ _ Hd). pose proof (blocks_before_total contents (i + 1)). lia.
  - destruct Hp as (grams & gram & _ & _ & ->). cbn [fst snd]. split; [lia|]. intros _. unfold hash_ngram. change (2 ^ 40 - 1) with (N.ones 40). rewrite N.land_ones.
    apply N.mod_lt. lia.
Qed.

(** The groups of keys with their ids: few enough for a dictionary. *)
Lemma groups_bounds contents groups :
  Forall (fun data => Forall is_byte data /\ len data < U64) contents -> space_holds strategy contents ->
  groups_ok (fun key id => posting_in radsort rapidhash_v3 strategy contents 0 (len contents) (key, id)) groups ->
  (forall key id, posting_in radsort rapidhash_v3 strategy contents 0 (len contents) (key, id) -> key < 256 ^ key_bytes strategy) ->
  Forall (fun g => g.1 < 256 ^ key_bytes strategy) groups /\ len groups < 2 ^ 56.
Proof.
  intros Hbytes Hspace [Hkeys Hids Hhas] Hrec. rewrite Forall_forall in Hids.
  assert (forall g, g ∈ groups -> exists id, posting_in radsort rapidhash_v3 strategy contents 0 (len contents) (g.1, id)) as Hk.
  { intros [key ids] Hg. destruct (Hids _ Hg) as [_ Hne]. cbn [fst snd] in *. destruct ids as [|id ids]; [done|]. exists id. apply Hhas. exists (id :: ids). split; [done|left]. }
  split.
  - apply Forall_forall. intros g Hg. destruct (Hk g Hg) as [id Hp]. by eapply Hrec.
  - rewrite <- (len_fmap fst). apply N.le_lt_trans with (2 ^ 40); [|lia]. apply ascending_len_le; [done|].
    apply Forall_forall. intros key (g & -> & Hg)%list_elem_of_fmap. destruct (Hk g Hg) as [id Hp]. pose proof (Hrec _ _ Hp) as Hlt.
    destruct (posting_in_lt contents _ Hbytes Hspace Hp) as [_ H40]. destruct strategy; [change (256 ^ key_bytes Trigram) with 16777216 in Hlt; lia|]. by apply H40.
Qed.

(** An entry of the dictionary of a group fits. *)
Lemma entry_term_fits doc_count data g e :
  Runs.entry_ok strategy doc_count data g e -> e.1.2 < U64 -> g.1 < 256 ^ key_bytes strategy -> len data < U64 -> term_fits strategy e.
Proof.
  intros (Hkey & offset & Hu & Hids) Hvalue Hk Hdata. unfold term_fits. rewrite Hkey. destruct strategy eqn:Es.
  - split; [unfold len; by rewrite length_rev, le_bytes_length|]. apply Forall_rev, le_bytes_bytes.
  - exists g.1. split; [done|]. destruct e as [[gram value] length_]. cbn [fst snd entry_fits] in *. split; [exact Hk|]. split; [done|].
    intros n ->. destruct (g.2) as [|a [|b ids]]; [|by destruct Hids|]; destruct Hids as [Hb _]; change (default _ (Some n)) with n in Hb; lia.
Qed.

(** What the merged files of some contents are: a dictionary that opens, and a
    postings file with its verified tail. *)
Definition files_hold (contents : list (list N)) (doc_count : N) (terms postings : list N) (merged : MergedRuns) : Prop :=
  let '(terms_blob, postings_blob, _, tail) := merged in
  terms_blob = merged_blob sha256 terms /\ postings_blob = merged_blob sha256 postings /\
  exists m entries data table groups, open_terms F terms strategy = Ok m /\ map_holds F rapidhash_v3 strategy entries m /\
    postings = data ++ table /\ tail = {| pt_data_len := len data; pt_tail_hash := hex (sha256 table) |} /\
    groups_ok (fun key id => posting_in radsort rapidhash_v3 strategy contents 0 (len contents) (key, id)) groups /\
    Forall2 (Runs.entry_ok strategy doc_count data) groups entries.

Lemma finish_data_len w : (PostingsTable.finish sha256 w).1.2 = PostingsTable.data_len w.
Proof. unfold PostingsTable.finish. by destruct (0 <? block_fill w). Qed.

Lemma write_postings (data : list N) (n : N) postings data_len tail_hash :
  PostingsTable.finish sha256 (write_all sha256 (new_writer []) data) = (postings, data_len, tail_hash) -> n = data_len -> n = len data ->
  len data < U64 /\ exists table, postings = data ++ table /\ data_len = len data /\ tail_hash = hex (sha256 table).
Proof.
  intros Hfin -> Hn. assert (len data < U64) as Hlen.
  { pose proof (finish_data_len (write_all sha256 (new_writer []) data)) as E. rewrite Hfin in E. cbn [fst snd] in E. rewrite <- Hn, E.
    unfold write_all, write. cbn [PostingsTable.data_len]. unfold wrapping_add. apply N.mod_lt. lia. }
  split; [done|]. pose proof (write_ok sha256 (new_writer []) [] [] data (len data) (new_writer_ok sha256 []) ltac:(lia) Hlen) as Hok.
  rewrite to_nat_len, take_ge in Hok by lia. cbn [app] in Hok. pose proof (finish_ok sha256 _ [] data Hok) as E. unfold write_all in Hfin. rewrite E in Hfin.
  cbv zeta in Hfin. injection Hfin as <- <- <-. eexists. by split.
Qed.

Lemma insert_all_holds is_sharded es t t0 :
  new_terms F strategy is_sharded = Ok t0 -> foldM (fun b (e : TermEntry) => insert_term F sha256 b e.1.1 e.1.2 e.2) t0 es = Ok t ->
  Forall (term_fits strategy) es -> len es < 2 ^ 56 -> builder_holds F sha256 strategy es t.
Proof.
  intros Hnew Hall Hfit Hlen. assert (builder_holds F sha256 strategy [] t0) as H0 by (by apply (safe_no_panic _ _ (new_terms_ok F sha256 strategy is_sharded))).
  refine (proj2 (safe_no_panic _ _ (foldM_safe (fun pre t => builder_holds F sha256 strategy pre t) _ t0 es H0 _)) t Hall).
  intros pre e post s -> Hs. rewrite len_app, len_cons in Hlen. apply Forall_app in Hfit as [_ Hfit]. apply insert_term_ok; [done|done| |lia]. by inversion Hfit.
Qed.

Lemma merge_run_files_ok contents runs doc_count :
  Forall (fun data => Forall is_byte data /\ len data < U64) contents -> space_holds strategy contents -> id_space contents = doc_count -> doc_count < U32 ->
  runs_hold strategy runs (posting_in radsort rapidhash_v3 strategy contents 0 (len contents)) ->
  safe (merge_run_files F sha256 runs strategy doc_count) (fun '(terms, postings, merged) => files_hold contents doc_count terms postings merged).
Proof.
  intros Hbytes Hspace Hcount Hdc (rs & -> & Hrs & Hhas). unfold merge_run_files. destruct (collapse_runs_ok strategy rs Hrs) as (rs' & -> & Hrs' & Hall). cbn [mbind res_bind].
  eapply safe_bind; [apply run_bytes_safe|]. intros run_bytes _. set (is_sharded := uses_sharded_terms strategy run_bytes). clearbody is_sharded.
  destruct (new_terms F strategy is_sharded) as [t0|e|e] eqn:Hnew; [|left; by exists e|by apply (safe_no_panic _ _ (new_terms_ok F sha256 strategy is_sharded)) in Hnew].
  cbn [mbind res_bind]. destruct (merge_paths_groups (insert_term F sha256) strategy doc_count t0 rs') as (groups & Hgroups & Hvalid & ->); [done|done| |].
  { intros r Hr. apply Hall, Hhas in Hr. rewrite <- Hcount. by apply (posting_in_lt contents r Hbytes Hspace). }
  assert (groups_ok (fun key id => posting_in radsort rapidhash_v3 strategy contents 0 (len contents) (key, id)) groups) as Hg.
  { destruct Hgroups as [H1 H2 H3]. split; [done|done|]. intros key id. by rewrite <- Hhas, <- Hall. }
  destruct (groups_bounds contents groups Hbytes Hspace Hg) as [Hkeys Hlen].
  { intros key id Hp. apply Hhas, Hall in Hp. apply list_elem_of_In, in_concat in Hp as (l & Hl & Hin). rewrite <- list_elem_of_In in Hl. rewrite <- list_elem_of_In in Hin.
    rewrite Forall_forall in Hrs'. destruct (Hrs' l Hl) as [_ Hok]. rewrite Forall_forall in Hok. apply (Hok _ Hin). }
  pose proof (insert_groups_safe strategy doc_count {| o_builder := t0; o_postings := []; o_offset := 0 |} groups) as Hsafe.
  pose proof (insert_groups_ok (insert_term F sha256) strategy doc_count groups {| o_builder := t0; o_postings := []; o_offset := 0 |} Hdc Hvalid eq_refl) as Hins.
  destruct Hsafe as [[e ->]|(o & Ho & _)]; [left; by exists e|]. rewrite Ho in Hins |- *. cbn [mbind res_bind o_builder] in *.
  destruct Hins as (entries & Hfold & Hvalues & Hentries & _ & Hoffset).
  destruct (finish_terms F sha256 (o_builder o)) as [[terms tail_hash]|e|e] eqn:Hterms; [|left; by exists e|by apply (safe_no_panic _ _ (finish_terms_safe (o_builder o))) in Hterms].
  cbn [mbind res_bind]. destruct (PostingsTable.finish _ _) as [[postings data_len] postings_tail_hash] eqn:Hfin.
  eapply safe_bind; [apply safe_ensure|]. intros [] Heq%N.eqb_eq. apply safe_ok.
  destruct (write_postings _ _ _ _ _ Hfin Heq Hoffset) as (Hdata & table & -> & -> & ->).
  assert (Forall (term_fits strategy) entries) as Hfit.
  { apply Forall_forall. intros e [i Hi]%list_elem_of_lookup_1. destruct (Forall2_lookup_r _ _ _ _ _ Hentries Hi) as (g & Hgi & He). rewrite Forall_forall in Hvalues. rewrite Forall_forall in Hkeys.
    eapply entry_term_fits; [exact He|apply Hvalues|apply Hkeys|done]; by eapply list_elem_of_lookup_2. }
  assert (len entries = len groups) as Hel by (unfold len; by rewrite (Forall2_length _ _ _ Hentries)). rewrite <- Hel in Hlen.
  destruct (proj2 (safe_no_panic _ _ (finish_terms_ok F sha256 rapidhash_v3 sha256_len strategy entries (o_builder o) (insert_all_holds _ _ _ _ Hnew Hfold Hfit Hlen) Hlen)) _ Hterms) as (m & Hopen & Hm).
  split; [done|]. split; [done|]. by exists m, entries, (o_postings o), table, groups.
Qed.
End merge_proofs.

(** ** The blobs that a segment touches *)

Definition SEGMENT_FILES : list (list N) := [TERMS_FST; POSTINGS_BIN; DOCS_BIN].

Section store.
Context (sha256 : list N -> list N).

(** A pack is named by its hash. *)
Definition packs_named (w : World) : Prop := forall h bytes, blobs w !! pack_blob h = Some bytes -> sha256_hex sha256 bytes = h.

(** Only packs and the files of some segments change; packs are only added. *)
Record frame (ids : list N -> Prop) (w w' : World) : Prop := {
  fr_draws : draws w <= draws w';
  fr_named : packs_named w -> packs_named w';
  fr_packs : forall h, is_Some (blobs w !! pack_blob h) -> is_Some (blobs w' !! pack_blob h);
  fr_rest : forall blob, (forall h, blob <> pack_blob h) -> (forall id name, ids id -> name ∈ SEGMENT_FILES -> blob <> segment_blob id name) ->
    blobs w' !! blob = blobs w !! blob;
}.

Lemma segment_not_pack id name h : segment_blob id name <> pack_blob h.
Proof. by intros [=]. Qed.
Lemma pack_blob_inj h h' : pack_blob h = pack_blob h' -> h = h'.
Proof. unfold pack_blob. intros H. apply (app_inv_head [112; 97; 99; 107; 115; 47]), app_inv_tail in H. exact H. Qed.
Lemma segment_blob_inj id id' name name' : length id = length id' -> segment_blob id name = segment_blob id' name' -> id = id' /\ name = name'.
Proof.
  unfold segment_blob. intros Hl H. apply (app_inv_head [115; 101; 103; 109; 101; 110; 116; 115; 47]) in H. apply app_inj_1 in H as [-> H]; [|done]. split; [done|].
  by apply (app_inv_head [SLASH]) in H.
Qed.

Lemma frame_refl ids w : frame ids w w.
Proof. split; [lia|done|done|done]. Qed.
Lemma frame_trans (ids ids' ids'' : list N -> Prop) w w' w'' :
  frame ids w w' -> frame ids' w' w'' -> (forall id, ids id -> ids'' id) -> (forall id, ids' id -> ids'' id) -> frame ids'' w w''.
Proof.
  intros [A1 A2 A3 A4] [B1 B2 B3 B4] H1 H2. split; [lia|by auto|by auto|]. intros blob Hp Hs. rewrite B4, A4; [done|done| |done|]; intros id name Hid; apply Hs; auto.
Qed.

Lemma frame_put_segment id name bytes w : name ∈ SEGMENT_FILES -> frame (eq id) w (put_raw (segment_blob id name) bytes w).
Proof.
  intros Hn. split; cbn [put_raw draws blobs]; [lia| | |].
  - intros H h b. unfold put_raw. cbn [blobs]. rewrite lookup_insert_ne by apply segment_not_pack. apply H.
  - intros h. by rewrite lookup_insert_ne by apply segment_not_pack.
  - intros blob _ Hs. apply lookup_insert_ne. intros <-. by eapply (Hs id name).
Qed.
Lemma frame_delete_segment id name w : name ∈ SEGMENT_FILES -> frame (eq id) w (delete_raw (segment_blob id name) w).
Proof.
  intros Hn. split; cbn [delete_raw draws blobs]; [lia| | |].
  - intros H h b. unfold delete_raw. cbn [blobs]. rewrite lookup_delete_ne by apply segment_not_pack. apply H.
  - intros h. by rewrite lookup_delete_ne by apply segment_not_pack.
  - intros blob _ Hs. apply lookup_delete_ne. intros <-. by eapply (Hs id name).
Qed.
Lemma frame_put_pack ids h bytes w : sha256_hex sha256 bytes = h -> frame ids w (put_raw (pack_blob h) bytes w).
Proof.
  intros Hh. split; cbn [put_raw draws blobs]; [lia| | |].
  - intros H h' b. unfold put_raw. cbn [blobs]. destruct (decide (h = h')) as [<-|Hne]; [rewrite lookup_insert_eq; by intros [= <-]|].
    rewrite lookup_insert_ne by (by intros ?%pack_blob_inj). apply H.
  - intros h' Hs. destruct (decide (h = h')) as [<-|Hne]; [by rewrite lookup_insert_eq|]. by rewrite lookup_insert_ne by (by intros ?%pack_blob_inj).
  - intros blob Hp _. apply lookup_insert_ne. intros <-. by eapply Hp.
Qed.
Lemma frame_draw ids w : frame ids w (draw_raw w).
Proof. split; cbn; [lia|done|done|done]. Qed.
End store.

(** ** Publishing a segment *)

Section publish_proofs.
Context {B M : Type} (F : Fst B M) `{!FstOk F} (sha256 : list N -> list N) (sha256_len : forall data, length (sha256 data) = 32%nat).
Context (strategy : Strategy) (radsort : list N -> list N) `{!SortsN radsort} (rapidhash_v3 : list N -> N).
Context (encode_tables : SegmentTables -> res (list N)) (decode_tables : list N -> option SegmentTables) (random : N -> res (list N)).
Context (put_result : list N -> list N -> res unit) (open_result delete_result : list N -> res unit).

(** What the outside promises: [postcard] reads back what it writes, a draw has
    32 bytes and gives an id that no other draw gives, and nothing panics. *)
Record outside_ok : Prop := {
  out_encode : forall t, safe (encode_tables t) (fun bytes => decode_tables bytes = Some t);
  out_random : forall n, safe (random n) (fun bytes => length bytes = 32%nat);
  out_fresh : forall i j a b, random i = Ok a -> random j = Ok b -> hex a = hex b -> i = j;
  out_put : forall blob bytes, no_panic (put_result blob bytes);
  out_open : forall blob, no_panic (open_result blob);
}.
Context (Hout : outside_ok).
Abbreviation stored := (put_blob put_result).
Abbreviation kept := (frame sha256).

Lemma put_cases blob bytes w : stored blob bytes w = (Ok tt, put_raw blob bytes w) \/ exists e, stored blob bytes w = (Err e, w).
Proof.
  unfold put_blob. unfold mbind, ST_bind, lift, modify. destruct (put_result blob bytes) as [[]|e|e] eqn:E; [by left|right; by exists e|]. by apply (out_put Hout) in E.
Qed.

(** An operation that keeps the blobs of other segments. *)
Definition confined {A} (ids : list N -> Prop) (m : ST World A) (Q : A -> World -> World -> Prop) : Prop :=
  forall w, match m w with (Ok a, w') => kept ids w w' /\ Q a w w' | (Err _, w') => kept ids w w' | (Panic _, _) => False end.

Lemma confined_lift {A C} ids (r : res A) (f : A -> ST World C) (P : A -> Prop) Q :
  safe r P -> (forall a, P a -> confined ids (f a) Q) -> confined ids (lift r ≫= f) Q.
Proof. intros [[e ->]|(a & -> & Ha)] H w; [cbn; apply frame_refl|]. exact (H a Ha w). Qed.
(** The files of a segment. *)
Definition published_files (id docs_bytes : list N) (contents : list (list N)) (doc_count : N) (merged : MergedRuns) (w : World) : Prop :=
  exists terms postings, blobs w !! segment_blob id TERMS_FST = Some terms /\ blobs w !! segment_blob id POSTINGS_BIN = Some postings /\
    blobs w !! segment_blob id DOCS_BIN = Some docs_bytes /\ files_hold F sha256 strategy radsort rapidhash_v3 contents doc_count terms postings merged.

Lemma files_distinct id name name' : name <> name' -> segment_blob id name <> segment_blob id name'.
Proof. intros Hne H. apply segment_blob_inj in H as [_ ?]; done. Qed.

Lemma publish_ok id runs docs_bytes contents doc_count :
  Forall (fun data => Forall is_byte data /\ len data < U64) contents -> space_holds strategy contents -> id_space strategy contents = doc_count -> doc_count < U32 ->
  runs_hold strategy runs (posting_in radsort rapidhash_v3 strategy contents 0 (len contents)) ->
  confined (eq id) (publish F sha256 strategy put_result open_result id runs doc_count docs_bytes) (fun merged _ w => published_files id docs_bytes contents doc_count merged w).
Proof.
  intros Hbytes Hspace Hcount Hdc Hruns. unfold publish.
  apply (confined_lift _ _ _ (fun _ => True)); [apply no_panic_safe, (out_open Hout)|]. intros _ _.
  apply (confined_lift _ _ _ (fun _ => True)); [apply no_panic_safe, (out_open Hout)|]. intros _ _.
  apply (confined_lift _ _ _ (fun n => n = doc_count)); [destruct (N.ltb_spec doc_count U32); [by apply safe_ok|lia]|]. intros ? ->.
  eapply confined_lift; [by apply (merge_run_files_ok F sha256 sha256_len strategy radsort rapidhash_v3 contents runs doc_count)|]. intros [[terms postings] merged] Hfiles w.
  unfold mbind, ST_bind. destruct (put_cases (segment_blob id TERMS_FST) terms w) as [->|[e ->]]; [|apply frame_refl]. set (w1 := put_raw _ _ w).
  assert (kept (eq id) w w1) as F1 by (apply frame_put_segment; left).
  destruct (put_cases (segment_blob id POSTINGS_BIN) postings w1) as [->|[e ->]]; [|done]. set (w2 := put_raw _ _ w1).
  assert (kept (eq id) w w2) as F2 by (eapply frame_trans; [exact F1|apply frame_put_segment; right; left|done|done]).
  destruct (put_cases (segment_blob id DOCS_BIN) docs_bytes w2) as [->|[e ->]]; [|done].
  split; [eapply frame_trans; [exact F2|apply frame_put_segment; right; right; left|done|done]|]. exists terms, postings.
  subst w1 w2. cbn [put_raw blobs]. split; [|split; [|split; [apply lookup_insert_eq|exact Hfiles]]].
  - rewrite !lookup_insert_ne by (by apply files_distinct). apply lookup_insert_eq.
  - rewrite lookup_insert_ne by (by apply files_distinct). apply lookup_insert_eq.
Qed.

Definition drawn (w w' : World) (id : list N) : Prop := exists n bytes, draws w <= n < draws w' /\ random n = Ok bytes /\ id = hex bytes.
Definition deletes_succeed : Prop := forall blob, is_ok (delete_result blob) = true.
(** Nothing of a failed segment is left. *)
Definition clean (w w' : World) : Prop := deletes_succeed -> forall id name, drawn w w' id -> name ∈ SEGMENT_FILES ->
  blobs w' !! segment_blob id name = None \/ blobs w' !! segment_blob id name = blobs w !! segment_blob id name.

Lemma hex_length bytes : length (hex bytes) = (2 * length bytes)%nat.
Proof. unfold hex. induction bytes as [|b bytes IH]; [done|]. rewrite bind_cons, length_app, IH. cbn. lia. Qed.
Lemma drawn_length w w' id : drawn w w' id -> length id = 64%nat.
Proof. intros (n & bytes & _ & Hr & ->). rewrite hex_length. by rewrite (proj2 (safe_no_panic _ _ (out_random Hout n)) _ Hr). Qed.

Lemma delete_names_kept id names w : names ⊆ SEGMENT_FILES ->
  let w' := (forS (fun name => delete_ok delete_result (segment_blob id name)) names w).2 in
  kept (eq id) w w' /\ (deletes_succeed -> forall name, name ∈ names \/ blobs w !! segment_blob id name = None -> blobs w' !! segment_blob id name = None).
Proof.
  revert w. induction names as [|name names IH]; intros w Hn; [split; [apply frame_refl|]; by intros _ name [?%elem_of_nil|]|].
  unfold forS. cbn [foldS]. set (w1 := match delete_result (segment_blob id name) with Ok _ => delete_raw (segment_blob id name) w | _ => w end).
  change ((delete_ok delete_result (segment_blob id name) ≫= fun b => foldS (fun _ name => delete_ok delete_result (segment_blob id name)) b names) w) with (forS (fun name => delete_ok delete_result (segment_blob id name)) names w1).
  assert (kept (eq id) w w1) as F1 by (subst w1; destruct (delete_result _); [apply frame_delete_segment; apply Hn; left|apply frame_refl..]).
  destruct (IH w1) as [F2 Hd]; [intros y Hy; apply Hn; by right|]. cbv zeta in Hd. split; [by eapply frame_trans|].
  intros Hok y Hy. apply Hd; [done|]. specialize (Hok (segment_blob id name)). subst w1. destruct (delete_result (segment_blob id name)) as [[]|?|?]; [|done..].
  cbn [delete_raw blobs]. destruct (decide (y = name)) as [->|Hne]; [right; apply lookup_delete_eq|]. rewrite lookup_delete_ne by (by apply files_distinct).
  destruct Hy as [[?|Hy]%elem_of_cons|Hy]; [done|by left|by right].
Qed.

Lemma or_delete_ok {A} id (m : ST World A) Q w :
  confined (eq id) m Q -> match or_delete delete_result id m w with
  | (Ok a, w') => kept (eq id) w w' /\ Q a w w'
  | (Err _, w') => kept (eq id) w w' /\ (deletes_succeed -> forall name, name ∈ SEGMENT_FILES -> blobs w' !! segment_blob id name = None)
  | (Panic _, _) => False
  end.
Proof.
  intros Hm. specialize (Hm w). unfold or_delete. destruct (m w) as [[a|e|e] w1]; [done| |done].
  destruct (delete_names_kept id SEGMENT_FILES w1 ltac:(done)) as [F2 Hd]. split; [by eapply frame_trans|]. intros Hok name Hin. apply Hd; [done|by left].
Qed.

(** Nothing but packs is put, or the files of the drawn segment are deleted. *)
Lemma failed_before w0 w : kept (fun _ => False) w0 w -> kept (drawn w0 w) w0 w /\ clean w0 w.
Proof.
  intros Hf. split; [eapply frame_trans; [exact Hf|apply frame_refl|done|done]|]. intros _ id name _ _. right. apply (fr_rest _ _ _ _ Hf); [apply segment_not_pack|done].
Qed.
Lemma failed_after w0 w1 w id :
  kept (fun _ => False) w0 w1 -> kept (eq id) w1 w -> drawn w0 w1 id -> (deletes_succeed -> forall name, name ∈ SEGMENT_FILES -> blobs w !! segment_blob id name = None) ->
  kept (drawn w0 w) w0 w /\ clean w0 w.
Proof.
  intros F1 F2 Hid Hdel. assert (drawn w0 w id) as Hid' by (destruct Hid as (n & b & Hn & Hr & E); exists n, b; split; [pose proof (fr_draws _ _ _ _ F2); lia|done]).
  split; [eapply frame_trans; [exact F1|exact F2|done|by intros ? <-]|]. intros Hok id' name Hd Hn. destruct (decide (id' = id)) as [->|Hne]; [left; by apply Hdel|]. right.
  rewrite (fr_rest _ _ _ _ F2), (fr_rest _ _ _ _ F1); [done|apply segment_not_pack|done|apply segment_not_pack|].
  intros ? name' <- _ E. apply segment_blob_inj in E as [E _]; [done|]. by rewrite (drawn_length _ _ _ Hd), (drawn_length _ _ _ Hid).
Qed.

(** What [merge_and_put_segment] is given: tables, packs and runs of contents. *)
Record segment_input (contents : list (list N)) (runs : list (list N)) (tables : SegmentTables) (packs : list PackFile) : Prop := {
  si_sizes : decoded_size <$> documents tables = len <$> contents;
  si_bytes : Forall (fun data => Forall is_byte data /\ len data < U64) contents;
  si_space : space_holds strategy contents;
  si_runs : runs_hold strategy runs (posting_in radsort rapidhash_v3 strategy contents 0 (len contents));
  si_packs : Forall (pack_file_ok sha256) packs;
  si_sources : len (sources tables) < U32;
}.

(** A segment in the store: every file that the metadata names is there, has the
    recorded length and hash, and holds what it is for. *)
Record published (contents : list (list N)) (packs : list PackFile) (meta : SegmentMeta) (tables : SegmentTables) (w : World) : Prop := {
  pu_valid : well_formed tables;
  pu_meta : validate_segment_tables meta tables = Ok tt;
  pu_docs : exists docs_bytes, blobs w !! segment_blob (seg_id meta) DOCS_BIN = Some docs_bytes /\ decode_tables docs_bytes = Some tables /\
    docs_len meta = len docs_bytes /\ docs_hash meta = sha256_hex sha256 docs_bytes;
  pu_index : exists terms postings m entries, blobs w !! segment_blob (seg_id meta) TERMS_FST = Some terms /\
    blobs w !! segment_blob (seg_id meta) POSTINGS_BIN = Some postings /\
    terms_fst_len meta = len terms /\ terms_fst_hash meta = sha256_hex sha256 terms /\
    postings_len meta = len postings /\ postings_hash meta = sha256_hex sha256 postings /\
    open_terms F terms strategy = Ok m /\ map_holds F rapidhash_v3 strategy entries m /\
    holds_postings radsort rapidhash_v3 strategy contents meta entries postings /\
    exists tail, postings = take (N.to_nat (postings_data_len meta)) postings ++ tail /\ postings_tail_hash meta = hex (sha256 tail);
  pu_pack_files : seg_packs meta = PackBuild.meta <$> packs;
  pu_packs : Forall (fun pack => is_Some (blobs w !! pack_blob (pm_hash pack))) (seg_packs meta);
  pu_no_dead : dead_hash meta = [];
  pu_failed : failed_source_count meta = len (filter (fun source => failed source = true) (sources tables));
  pu_space : SegmentList.block_count meta = id_space strategy contents;
}.

Lemma wrapping_sum l acc : acc + sumN l < U64 -> fold_left (wrapping_add U64) l acc = acc + sumN l.
Proof.
  revert acc. induction l as [|n l IH]; intros acc H; cbn [fold_left]; [cbn; lia|]. rewrite sumN_cons in *. rewrite wrapping_add_small by lia. rewrite IH by lia. lia.
Qed.
Lemma segment_block_count_ok contents tables :
  decoded_size <$> documents tables = len <$> contents -> space_holds strategy contents -> segment_block_count strategy tables = id_space strategy contents.
Proof.
  intros Hsz [Hlen Hspace]. unfold segment_block_count, id_space. destruct strategy.
  - assert ((fun doc => div_ceil (decoded_size doc) CANDIDATE_BLOCK_BYTES) <$> documents tables = content_blocks <$> contents) as ->.
    { rewrite (list_fmap_compose decoded_size (fun n => div_ceil n CANDIDATE_BLOCK_BYTES)), Hsz, <- list_fmap_compose. done. }
    specialize (Hspace eq_refl). apply (wrapping_sum _ 0). change MAX_POSTING_COUNT with 16777215 in Hspace. change U64 with 18446744073709551616. lia.
  - apply (f_equal length) in Hsz. rewrite !length_fmap in Hsz. unfold len. by rewrite Hsz.
Qed.

Lemma foldM_units {A} (f g : A -> res unit) l : (forall x, f x = Ok tt -> g x = Ok tt) -> foldM (fun _ x => f x) tt l = Ok tt -> foldM (fun _ x => g x) tt l = Ok tt.
Proof.
  intros H. induction l as [|y l IH]; [done|]. cbn [foldM]. intros Hf. destruct (f y) as [[]|?|?] eqn:E; [|done..]. rewrite (H _ E). by apply IH.
Qed.
Lemma check_packs_validate blocks_ packs :
  foldM (fun _ entry => check_pack blocks_ entry) tt (enumerate packs) = Ok tt ->
  foldM (fun _ '(pack_id, pack) =>
    end_ ← with_context (pack_end blocks_ pack_id) "segment pack has no blocks";
    ensure (end_ =? pm_len pack) "segment pack length does not match its blocks") tt (enumerate (meta <$> packs)) = Ok tt.
Proof.
  assert (enumerate (meta <$> packs) = (fun p => (p.1, meta p.2)) <$> enumerate packs) as ->.
  { unfold enumerate. rewrite fmap_imap. apply list_eq. intros k. rewrite !list_lookup_imap, list_lookup_fmap. by destruct (packs !! k). }
  rewrite foldM_fmap. cbn [fst snd]. apply foldM_units. intros [i pack]. unfold check_pack. cbn [fst snd meta pm_len].
  destruct (pack_end blocks_ i) as [e|]; [|done]. cbn [with_context mbind res_bind]. by destruct (e =? pf_len pack).
Qed.

Lemma triple_step {A C} w0 (r : res A) (f : A -> ST World C) (P : A -> Prop) Q (R : World -> Prop) :
  safe r P -> R w0 -> (forall a, P a -> triple (eq w0) (f a) Q R) -> triple (eq w0) (lift r ≫= f) Q R.
Proof. intros [[e ->]|(a & -> & Ha)] HR H w <-; [done|]. exact (H a Ha w0 eq_refl). Qed.
Lemma triple_stay {A C} (P : World -> Prop) (r : res A) a (f : A -> ST World C) Q R : r = Ok a -> triple P (f a) Q R -> triple P (lift r ≫= f) Q R.
Proof. intros -> H w Hw. exact (H w Hw). Qed.

Lemma random_seg_id_ok w0 : triple (eq w0) (random_seg_id random) (fun id w => w = draw_raw w0 /\ drawn w0 (draw_raw w0) id) (fun w => w = draw_raw w0).
Proof.
  intros w <-. unfold random_seg_id, mbind, ST_bind, gets, modify, lift. destruct (out_random Hout (draws w0)) as [[e ->]|(bytes & E & _)]; [done|]. rewrite E.
  split; [done|]. exists (draws w0), bytes. split; [cbn; lia|done].
Qed.
Lemma triple_pure' {A} w1 (P : Prop) (m : ST World A) Q R : (P -> triple (eq w1) m Q R) -> triple (fun w => w = w1 /\ P) m Q R.
Proof. intros H w [-> HP]. by apply H. Qed.

Lemma check_packs_safe blocks_ packs :
  let r := foldM (fun _ entry => check_pack blocks_ entry) tt (enumerate packs) in safe r (fun _ => r = Ok tt).
Proof.
  intros r. assert (safe r (fun _ => True)) as Hs.
  { apply (foldM_safe (fun _ _ => True)); [done|]. intros _ [i pack] _ [] _ _. unfold check_pack. eapply safe_bind; [apply safe_context|]. intros e _. eapply safe_weaken; [apply safe_ensure|done]. }
  destruct Hs as [[e ->]|([] & -> & _)]; [left; by exists e|by apply safe_ok].
Qed.

Lemma put_packs_ok packs w0 :
  Forall (pack_file_ok sha256) packs ->
  triple (eq w0) (forS (fun pack => stored (pack_blob (pf_hash pack)) (pf_bytes pack)) packs)
    (fun _ w => kept (fun _ => False) w0 w /\ draws w = draws w0 /\ Forall (fun pack => is_Some (blobs w !! pack_blob (pf_hash pack))) packs) (kept (fun _ => False) w0).
Proof.
  intros Hp. eapply triple_weaken; [apply (triple_forS (fun pre w => kept (fun _ => False) w0 w /\ draws w = draws w0 /\ Forall (fun pack => is_Some (blobs w !! pack_blob (pf_hash pack))) pre)
    _ packs (kept (fun _ => False) w0))|intros w <-; split; [apply frame_refl|by split]|done|done].
  intros pre pack post -> w (Hf & Hd & Hall). apply Forall_app in Hp as [_ [[_ Hhash] _]%Forall_cons].
  destruct (put_cases (pack_blob (pf_hash pack)) (pf_bytes pack) w) as [->|[e ->]]; [|done].
  assert (kept (fun _ => False) w (put_raw (pack_blob (pf_hash pack)) (pf_bytes pack) w)) as F2 by (by apply frame_put_pack).
  split; [by eapply frame_trans|]. split; [done|]. apply Forall_app. split.
  - eapply Forall_impl; [exact Hall|]. intros pack' Hs. by apply (fr_packs _ _ _ _ F2).
  - constructor; [|done]. cbn [put_raw blobs]. by rewrite lookup_insert_eq.
Qed.

(** The metadata of files that were published. *)
Lemma segment_meta_ok contents tables packs id docs_bytes merged w :
  decoded_size <$> documents tables = len <$> contents -> space_holds strategy contents -> len (sources tables) < U32 -> well_formed tables -> sources tables <> [] ->
  decode_tables docs_bytes = Some tables -> match last (blocks tables) with Some block => pack block + 1 | None => 0 end = len packs ->
  foldM (fun _ entry => check_pack (blocks tables) entry) tt (enumerate packs) = Ok tt ->
  published_files id docs_bytes contents (id_space strategy contents) merged w -> Forall (fun pack => is_Some (blobs w !! pack_blob (pf_hash pack))) packs ->
  exists meta_, segment_meta sha256 tables packs id docs_bytes (id_space strategy contents) merged w = (Ok meta_, w) /\ seg_id meta_ = id /\ published contents packs meta_ tables w.
Proof.
  intros Hsizes [Hlen Hspace] Hsources Hvalid Hne Hdecode Hcount Hends (terms & postings & Ht & Hp & Hd & Hfiles) Hpacks.
  destruct merged as [[[terms_blob postings_blob] tail_hash] tail]. destruct Hfiles as (-> & -> & m & entries & data & table & groups & Hopen & Hm & -> & -> & Hgroups & Hentries).
  assert (len (documents tables) = len contents) as Hld by (apply (f_equal length) in Hsizes; rewrite !length_fmap in Hsizes; unfold len; by rewrite Hsizes).
  destruct (head (sources tables)) as [first|] eqn:Hfirst; [|by destruct (sources tables)]. destruct (last (sources tables)) as [last_|] eqn:Hlast; [|by apply last_None in Hlast].
  assert (len (filter (fun source => failed source = true) (sources tables)) < U32) as Hfailed.
  { eapply N.le_lt_trans; [|exact Hsources]. pose proof (length_filter (fun source => failed source = true) (sources tables)). unfold len. lia. }
  unfold segment_meta, mbind, ST_bind, lift. rewrite Hld, Hfirst, Hlast. unfold to_u32. destruct (N.ltb_spec (len contents) U32); [|lia].
  destruct (N.ltb_spec (len (filter (fun source => failed source = true) (sources tables))) U32); [|lia]. cbn [expect]. eexists. split; [done|]. split; [done|].
  split; cbn [seg_id seg_doc_count SegmentList.block_count terms_fst_len terms_fst_hash postings_len postings_hash postings_data_len postings_tail_hash docs_len docs_hash
    dead_hash failed_source_count seg_packs mb_len mb_hash merged_blob pt_data_len pt_tail_hash]; [done| | | |done| |done|done|done].
  - unfold validate_segment_tables. cbn [seg_doc_count min_key max_key seg_packs]. rewrite Hld, N.eqb_refl, Hfirst, Hlast.
    cbn [ensure with_context mbind res_bind min_key max_key]. rewrite !bool_decide_eq_true_2 by done. cbn [andb ensure mbind res_bind]. rewrite Hcount, len_fmap, N.eqb_refl. cbn [ensure mbind res_bind]. by apply check_packs_validate.
  - by exists docs_bytes.
  - exists terms, (data ++ table), m, entries. do 8 (split; [done|]). split.
    + split. exists data, table. split; [done|]. split; [done|]. by exists groups.
    + exists table. rewrite to_nat_len, take_app_length. done.
  - by apply Forall_fmap.
Qed.

Lemma merge_and_put_ok contents runs tables packs w0 :
  segment_input contents runs tables packs ->
  triple (eq w0) (merge_and_put_segment F sha256 strategy encode_tables random put_result open_result delete_result runs tables packs)
    (fun meta w => kept (drawn w0 w) w0 w /\ drawn w0 w (seg_id meta) /\ published contents packs meta tables w) (fun w => kept (drawn w0 w) w0 w /\ clean w0 w).
Proof.
  intros [Hsizes Hbytes Hspace Hruns Hpacks Hsources]. unfold merge_and_put_segment.
  assert (kept (drawn w0 w0) w0 w0 /\ clean w0 w0) as Hnone by (apply failed_before, frame_refl).
  eapply triple_step; [apply safe_ensure|done|]. intros [] Hne%negb_true_iff%bool_decide_eq_false.
  eapply triple_step; [apply validate_safe|done|]. intros [] Hvalid.
  eapply triple_step; [apply safe_ensure|done|]. intros [] Hcount%N.eqb_eq.
  eapply triple_step; [apply check_packs_safe|done|]. intros [] Hends.
  eapply triple_step; [apply (out_encode Hout)|done|]. intros docs_bytes Hdecode. rewrite (segment_block_count_ok contents tables Hsizes Hspace).
  eapply triple_step; [apply safe_ensure|done|]. intros [] Hmax%N.leb_le.
  assert (id_space strategy contents < U32) as Hids by (change MAX_POSTING_COUNT with 16777215 in Hmax; change U32 with 4294967296; lia).
  eapply triple_bind.
  { eapply triple_weaken; [apply random_seg_id_ok|done|intros id w H; exact H|]. intros w ->. apply failed_before, frame_draw. }
  intros id. apply triple_pure'. intros Hid. eapply triple_bind.
  { eapply triple_weaken; [by apply put_packs_ok|by intros w <-|intros a w H; exact H|]. intros w Hw. apply failed_before. eapply frame_trans; [apply (frame_draw _ (fun _ => False))|exact Hw|done|done]. }
  intros [] w1 (F1 & Hd1 & Hp1). pose proof (or_delete_ok id _ _ w1 (publish_ok id runs docs_bytes contents _ Hbytes Hspace eq_refl Hids Hruns)) as Hpub.
  assert (kept (fun _ => False) w0 w1) as F01 by (eapply frame_trans; [apply (frame_draw _ (fun _ => False))|exact F1|done|done]).
  assert (drawn w0 w1 id) as Hid1 by (destruct Hid as (n & b & Hn & H); exists n, b; split; [rewrite Hd1; exact Hn|exact H]).
  unfold mbind at 1, ST_bind at 1. destruct (or_delete _ _ _ w1) as [[merged|e|e] w2]; [|destruct Hpub as [F2 Hdel]; by eapply failed_after|done].
  destruct Hpub as [F2 Hfiles]. destruct (segment_meta_ok contents tables packs id docs_bytes merged w2 Hsizes Hspace Hsources Hvalid Hne Hdecode Hcount Hends Hfiles) as (meta_ & E & Hidm & Hpub).
  { apply Forall_forall. intros pack Hin. rewrite Forall_forall in Hp1. by apply (fr_packs _ _ _ _ F2), Hp1. }
  rewrite E, Hidm. split; [|split; [|exact Hpub]].
  - eapply frame_trans; [exact F01|exact F2|done|]. intros ? <-. destruct Hid1 as (n & b & Hn & H). exists n, b. split; [pose proof (fr_draws _ _ _ _ F2); lia|exact H].
  - destruct Hid1 as (n & b & Hn & H). exists n, b. split; [pose proof (fr_draws _ _ _ _ F2); lia|exact H].
Qed.

Lemma drawn_apart w0 w1 w2 id : drawn w0 w1 id -> drawn w1 w2 id -> False.
Proof. intros (n & a & Hn & Ha & ->) (n' & b & Hn' & Hb & E). pose proof (out_fresh Hout _ _ _ _ Ha Hb E). lia. Qed.

(** Later segments do not touch a published one. *)
Lemma published_kept contents packs meta tables w0 w1 w2 :
  published contents packs meta tables w1 -> drawn w0 w1 (seg_id meta) -> kept (drawn w1 w2) w1 w2 -> published contents packs meta tables w2.
Proof.
  intros [H1 H2 H3 H4 H5 H6 H7 H8 H9] Hid Hk.
  assert (forall name, blobs w2 !! segment_blob (seg_id meta) name = blobs w1 !! segment_blob (seg_id meta) name) as Hsame.
  { intros name. apply (fr_rest _ _ _ _ Hk); [apply segment_not_pack|]. intros id name' Hd _ E. apply segment_blob_inj in E as [<- _]; [exact (drawn_apart _ _ _ _ Hid Hd)|].
    by rewrite (drawn_length _ _ _ Hid), (drawn_length _ _ _ Hd). }
  split; [done|done| | |done| |done|done|done].
  - rewrite Hsame. exact H3.
  - rewrite !Hsame. exact H4.
  - eapply Forall_impl; [exact H6|]. intros pack Hp. by apply (fr_packs _ _ _ _ Hk).
Qed.

(** ** Writing bounded segments *)

Context (x : Crates) `{!CratesOk x} (compress : list N -> res (list N)) (decompress : list N -> N -> res (list N)) `{!Codec compress decompress sha256} (workers : N).
Context (make_corpus : list Listed -> res CorpusOps) (doc_cap : N).
Context (Hcorpus : forall docs, safe (make_corpus docs) (fun c => Forall (fun source => so_encoded_size source < U64) (cp_sources c) /\
  (forall chunk, no_panic (cp_fetch c chunk)) /\ corpus_bytes x (cp_sources c) (cp_fetch c))).

(** The entry of a listed source, and what became of the source. *)
Definition listed_source (o : Outcome) (d : Listed) (e : SourceEntry) : Prop :=
  so_key (oc_source o) = d.1.1 /\ key e = d.1.1 /\ version e = d.1.2 /\ encoded_size e = d.2 /\
  Format.encoding e = oc_encoding o /\ doc_count e = len (oc_documents o) /\ failed e = oc_failed o /\ retry e = oc_retry o.

Definition patched (ed : SourceEntry * Listed) : SourceEntry :=
  {| key := key ed.1; version := ed.2.1.2; encoded_size := ed.2.2; Format.encoding := Format.encoding ed.1; first_doc := first_doc ed.1;
     doc_count := doc_count ed.1; failed := failed ed.1; retry := retry ed.1 |}.

Lemma patch_fold out l : safe (foldM patch_source out l) (fun out' => out' = out ++ (patched <$> l) /\ Forall (fun ed => key ed.1 = ed.2.1.1) l).
Proof.
  revert out. induction l as [|[e [[k v] n]] l IH]; intros out; cbn [foldM]; [apply safe_ok; split; [by rewrite app_nil_r|constructor]|].
  unfold patch_source at 1. eapply (safe_bind _ _ (fun out' => out' = out ++ [patched (e, (k, v, n))] /\ key e = k)).
  { eapply safe_bind; [apply safe_ensure|]. intros [] Hk%bool_decide_eq_true. by apply safe_ok. }
  intros out' [-> Hk]. eapply safe_weaken; [apply IH|]. intros r [-> Hall]. split; [by rewrite <- app_assoc|by constructor].
Qed.

Lemma patched_listed outs entries docs :
  Forall2 source_holds outs entries -> length entries = length docs -> Forall (fun ed => key ed.1 = ed.2.1.1) (zip entries docs) ->
  Forall2 (fun od e => listed_source od.1 od.2 e) (zip outs docs) (patched <$> zip entries docs).
Proof.
  intros H. revert docs. induction H as [|o e outs entries (H1 & H2 & H3 & H4) _ IH]; intros [|d docs] Hl Hk; [constructor|done..|].
  cbn [zip zip_with fmap list_fmap] in *. apply Forall_cons in Hk as [Hk1 Hk]. constructor; [|apply IH; [by injection Hl|done]].
  unfold listed_source. cbn [fst snd patched key version encoded_size Format.encoding doc_count failed retry] in *. destruct H4 as (H4 & H5 & H6 & H7). split_and!; try done. congruence.
Qed.

Lemma build_segment_files_ok docs corpus :
  make_corpus docs = Ok corpus -> len docs < U32 ->
  safe (build_segment_files sha256 strategy x compress radsort rapidhash_v3 workers doc_cap corpus docs) (fun built =>
    exists outs slices decoded, reference_outcomes x (cp_sources corpus) (cp_fetch corpus) = Ok outs /\ length outs = length docs /\
      segment_input (contents_of (located outs)) (bi_runs built) (bi_tables built) (bi_packs built) /\
      Forall2 (fun od e => listed_source od.1 od.2 e) (zip outs docs) (sources (bi_tables built)) /\ len (located outs) <= doc_cap /\
      built_ok decompress sha256 PACK_TARGET_BYTES (contents_of (located outs)) decoded slices {| built_packs := bi_packs built; built_blocks := blocks (bi_tables built) |}).
Proof.
  intros Hc Hdocs. destruct (proj2 (safe_no_panic _ _ (Hcorpus docs)) _ Hc) as (Hs & Hnp & Hb). unfold build_segment_files.
  eapply safe_bind; [by apply (build_index_ok x compress decompress sha256 radsort rapidhash_v3 workers strategy (Some doc_cap))|].
  intros built (outs & Houts & [_ _ Hsrc (slices & decoded & Hbare & Hbuilt) _ Hruns Hbytes Hspace Hcap]).
  eapply safe_bind; [apply safe_ensure|]. intros [] Hl%N.eqb_eq. eapply safe_bind; [apply patch_fold|]. intros entries [-> Hkeys]. apply safe_ok. cbn [app bi_runs bi_tables bi_packs sources blocks].
  assert (length (sources (bi_tables built)) = length docs) as Hl' by (unfold len in Hl; lia).
  assert (len slices = len (located outs)) as Hls by (destruct Hbuilt as [_ _ _ _ _ [Hls _]]; by rewrite len_contents_of in Hls).
  exists outs, slices, decoded. split; [done|]. split; [by rewrite (Forall2_length _ _ _ Hsrc)|]. split; [|split; [by apply patched_listed|by split]].
  split; cbn [bi_runs bi_tables bi_packs documents sources]; [by apply (bare_sizes _ slices)|done|done| | |].
  - by rewrite len_contents_of.
  - by destruct Hbuilt.
  - rewrite len_fmap. unfold len in *. rewrite length_zip_with, Hl', Nat.min_id. done.
Qed.

(** A published segment of a part of the listing. *)
Definition segment_of (w : World) (meta : SegmentMeta) (part : list Listed) : Prop :=
  exists corpus outs packs slices decoded tables, make_corpus part = Ok corpus /\ reference_outcomes x (cp_sources corpus) (cp_fetch corpus) = Ok outs /\
    length outs = length part /\ Forall2 (fun od e => listed_source od.1 od.2 e) (zip outs part) (sources tables) /\ len (located outs) <= doc_cap /\
    built_ok decompress sha256 PACK_TARGET_BYTES (contents_of (located outs)) decoded slices {| built_packs := packs; built_blocks := blocks tables |} /\
    published (contents_of (located outs)) packs meta tables w.

(** The segments of a listing: consecutive parts, each with an id of its own. *)
Definition segments_of (w0 w : World) (metas : list SegmentMeta) (docs : list Listed) : Prop :=
  kept (drawn w0 w) w0 w /\ NoDup (seg_id <$> metas) /\
  exists parts, docs = concat parts /\ Forall2 (fun meta part => part <> [] /\ drawn w0 w (seg_id meta) /\ segment_of w meta part) metas parts.

Lemma drawn_mono w0 w1 w2 id : drawn w0 w1 id -> draws w1 <= draws w2 -> drawn w0 w2 id.
Proof. intros (n & b & Hn & H) Hle. exists n, b. split; [lia|exact H]. Qed.
Lemma drawn_later w0 w1 w2 id : drawn w1 w2 id -> draws w0 <= draws w1 -> drawn w0 w2 id.
Proof. intros (n & b & Hn & H) Hle. exists n, b. split; [lia|exact H]. Qed.
Lemma kept_both w0 w1 w2 : kept (drawn w0 w1) w0 w1 -> kept (drawn w1 w2) w1 w2 -> kept (drawn w0 w2) w0 w2.
Proof.
  intros F1 F2. pose proof (fr_draws _ _ _ _ F1). pose proof (fr_draws _ _ _ _ F2). eapply frame_trans; [exact F1|exact F2| |]; intros id Hd; [by eapply drawn_mono|by eapply drawn_later].
Qed.

Lemma segments_of_app w0 w1 w2 metas1 metas2 docs1 docs2 :
  segments_of w0 w1 metas1 docs1 -> segments_of w1 w2 metas2 docs2 -> segments_of w0 w2 (metas1 ++ metas2) (docs1 ++ docs2).
Proof.
  intros (F1 & N1 & parts1 & -> & A1) (F2 & N2 & parts2 & -> & A2). split; [by eapply kept_both|]. pose proof (fr_draws _ _ _ _ F1) as D1. pose proof (fr_draws _ _ _ _ F2) as D2. split.
  - rewrite fmap_app. apply NoDup_app. split; [done|]. split; [|done]. intros id (m1 & -> & [i Hi]%list_elem_of_lookup_1)%list_elem_of_fmap (m2 & E & [j Hj]%list_elem_of_lookup_1)%list_elem_of_fmap.
    destruct (Forall2_lookup_l _ _ _ _ _ A1 Hi) as (? & _ & _ & Hd1 & _), (Forall2_lookup_l _ _ _ _ _ A2 Hj) as (? & _ & _ & Hd2 & _). rewrite <- E in Hd2. exact (drawn_apart _ _ _ _ Hd1 Hd2).
  - exists (parts1 ++ parts2). split; [by rewrite concat_app|]. apply Forall2_app; [eapply Forall2_impl; [exact A1|]|eapply Forall2_impl; [exact A2|]]; cbn beta.
    + intros meta part (Hne & Hd & corpus & outs & packs & slices & decoded & tables & H1 & H2 & H3 & H4 & H5 & H6 & H7). split; [done|]. split; [by eapply drawn_mono|].
      exists corpus, outs, packs, slices, decoded, tables. do 6 (split; [done|]). by eapply published_kept.
    + intros meta part (Hne & Hd & Hs). split; [done|]. split; [by eapply drawn_later|done].
Qed.

Lemma write_bounded_ok fuel docs w0 :
  (length docs < fuel)%nat -> len docs < U32 ->
  triple (eq w0) (write_bounded_segments F sha256 strategy encode_tables random put_result open_result delete_result x compress radsort rapidhash_v3 workers make_corpus doc_cap fuel docs)
    (fun metas w => segments_of w0 w metas docs) (fun w => kept (drawn w0 w) w0 w).
Proof.
  revert docs w0. induction fuel as [|fuel IH]; intros docs w0 Hfuel Hlen; [lia|]. cbn [write_bounded_segments].
  assert (kept (drawn w0 w0) w0 w0) as Hrefl by apply frame_refl.
  eapply triple_step; [apply safe_ensure|done|]. intros [] Hcap. eapply triple_step; [apply safe_ensure|done|]. intros [] Hne%negb_true_iff%bool_decide_eq_false.
  eapply (triple_step _ _ _ (fun corpus => make_corpus docs = Ok corpus)); [|done|].
  { destruct (make_corpus docs) as [c|e|e] eqn:E; [by apply safe_ok|left; by exists e|]. by apply (safe_no_panic _ _ (Hcorpus docs)) in E. }
  intros corpus Hc. pose proof (build_segment_files_ok docs corpus Hc Hlen) as Hbuild. destruct (build_segment_files _ _ _ _ _ _ _ _ _) as [built|e|e].
  3: { by destruct Hbuild as [[? [=]]|(? & [=] & _)]. }
  - destruct Hbuild as [[? [=]]|(b & [= <-] & outs & slices & decoded & H1 & H2 & H3 & H4 & H5 & H6)]. eapply triple_bind.
    { eapply triple_weaken; [by apply (merge_and_put_ok _ _ _ _ w0 H3)|done|intros a w H; exact H|intros w [H _]; exact H]. }
    intros meta_ w (Hk & Hd & Hp). split; [done|]. split; [by repeat constructor; intros ?%elem_of_nil|]. exists [docs]. split; [cbn; by rewrite app_nil_r|]. constructor; [|constructor].
    split; [done|]. split; [done|]. by exists corpus, outs, (bi_packs built), slices, decoded, (bi_tables built).
  - destruct (is_cap_exceeded e); [|intros w <-; done]. eapply triple_step; [apply safe_ensure|done|]. intros [] Hmany%N.ltb_lt.
    assert (1 < length docs)%nat as Hmany' by (unfold len in Hmany; lia). set (half := (length docs / 2)%nat).
    assert (0 < half < length docs)%nat as Hhalf by (subst half; pose proof (Nat.div_lt (length docs) 2); pose proof (Nat.div_le_lower_bound (length docs) 2 1); lia).
    eapply triple_bind; [apply IH; [rewrite length_take; lia|unfold len in *; rewrite length_take; lia]|]. intros metas1 w1 H1. pose proof (IH (drop half docs) w1) as H2.
    specialize (H2 ltac:(rewrite length_drop; lia) ltac:(unfold len in *; rewrite length_drop; lia) w1 eq_refl). unfold mbind, ST_bind.
    destruct (write_bounded_segments _ _ _ _ _ _ _ _ _ _ _ _ _ _ _ _ (drop half docs) w1) as [[metas2|e2|e2] w2]; [|apply (kept_both w0 w1 w2); [by destruct H1|done]|done].
    rewrite <- (take_drop half docs). by eapply segments_of_app.
Qed.
End publish_proofs.

(** ** Properties *)

(** C7: publishing a segment never panics, and a segment that is published is
    complete.  Given tables, packs and runs of some contents, when the metadata
    is returned the store has every file that it names, with the recorded
    lengths and hashes: [docs.bin] decodes to the tables, which are well formed
    and validate against the metadata; the dictionary opens to a map whose
    entries lead into the postings file to exactly the postings of the contents;
    the verified tail follows the postings; and every pack is there under its
    hash.  Nothing else in the store changes, and when publishing fails the files
    of the segment are gone if they can be deleted. *)
Theorem merge_and_put_segment_exact {B M} (F : Fst B M) `{!FstOk F} compress decompress sha256 `{!Codec compress decompress sha256} strategy radsort `{!SortsN radsort}
    rapidhash_v3 encode_tables decode_tables random put_result open_result delete_result contents runs tables packs w0 :
  outside_ok encode_tables decode_tables random put_result open_result -> segment_input sha256 strategy radsort rapidhash_v3 contents runs tables packs ->
  match merge_and_put_segment F sha256 strategy encode_tables random put_result open_result delete_result runs tables packs w0 with
  | (Ok meta, w) => frame sha256 (drawn random w0 w) w0 w /\ drawn random w0 w (seg_id meta) /\
      published F sha256 strategy radsort rapidhash_v3 decode_tables contents packs meta tables w
  | (Err _, w) => frame sha256 (drawn random w0 w) w0 w /\ clean random delete_result w0 w
  | (Panic _, _) => False
  end.
Proof.
  intros Hout Hin. assert (forall data, length (sha256 data) = 32%nat) as Hlen by (intros data; pose proof (digest_len data); unfold len in *; lia).
  by apply (merge_and_put_ok F sha256 Hlen strategy radsort rapidhash_v3 encode_tables decode_tables random put_result open_result delete_result Hout contents runs tables packs w0 Hin).
Qed.

(** C6: a listing of any size becomes segments within the document cap.  Writing
    it terminates without a panic; when it succeeds, the segments are published
    one after the other for consecutive parts of the listing that make it up,
    each with an id of its own, at most as many documents as the cap, an entry
    for every listed source with the listed version and size and what became of
    the source, the documents in its packs and exactly their postings; and the
    store keeps everything else. *)
Theorem write_bounded_segments_exact {B M} (F : Fst B M) `{!FstOk F} compress decompress sha256 `{!Codec compress decompress sha256} strategy radsort `{!SortsN radsort}
    rapidhash_v3 encode_tables decode_tables random put_result open_result delete_result x `{!CratesOk x} workers make_corpus doc_cap docs w0 :
  outside_ok encode_tables decode_tables random put_result open_result ->
  (forall docs, safe (make_corpus docs) (fun c => Forall (fun source => so_encoded_size source < U64) (cp_sources c) /\
    (forall chunk, no_panic (cp_fetch c chunk)) /\ corpus_bytes x (cp_sources c) (cp_fetch c))) -> len docs < U32 ->
  match write_bounded_segments F sha256 strategy encode_tables random put_result open_result delete_result x compress radsort rapidhash_v3 workers make_corpus doc_cap
      (S (length docs)) docs w0 with
  | (Ok metas, w) => segments_of F sha256 strategy radsort rapidhash_v3 decode_tables random x decompress make_corpus doc_cap w0 w metas docs
  | (Err _, w) => frame sha256 (drawn random w0 w) w0 w
  | (Panic _, _) => False
  end.
Proof.
  intros Hout Hcorpus Hlen. assert (forall data, length (sha256 data) = 32%nat) as Hsha by (intros data; pose proof (digest_len data); unfold len in *; lia).
  by apply (write_bounded_ok F sha256 Hsha strategy radsort rapidhash_v3 encode_tables decode_tables random put_result open_result delete_result Hout x compress decompress workers
    make_corpus doc_cap Hcorpus (S (length docs)) docs w0); [lia|..].
Qed.

(** ** Witnesses: three sources that do not fit in one segment of two documents *)

#[export] Instance SourceEncoding_eq_dec : EqDecision SourceEncoding.
Proof. solve_decision. Defined.
#[export] Instance SourceEntry_eq_dec : EqDecision SourceEntry.
Proof. solve_decision. Defined.
#[export] Instance DocEntry_eq_dec : EqDecision DocEntry.
Proof. solve_decision. Defined.
#[export] Instance PackBlock_eq_dec : EqDecision PackBlock.
Proof. solve_decision. Defined.
#[export] Instance SegmentTables_eq_dec : EqDecision SegmentTables.
Proof. solve_decision. Defined.

Definition demo_listing : list Listed := [(ascii "a.txt", ascii "1", 6); (ascii "b.txt", ascii "1", 9); (ascii "z.zip", ascii "2", 6)].
Definition listed_object (d : Listed) : SourceObject := {| so_key := d.1.1; so_version := d.1.2; so_encoded_size := d.2 |}.
Definition demo_bodies (d : Listed) : option DocumentBody :=
  if bool_decide (d = (ascii "a.txt", ascii "1", 6)) then Some (BodyBytes (ascii "abc" ++ [10] ++ ascii "de"))
  else if bool_decide (d = (ascii "z.zip", ascii "2", 6)) then Some (BodyBytes demo_archive) else None.
Definition demo_corpus (docs : list Listed) : CorpusOps := {| cp_sources := listed_object <$> docs;
  cp_fetch := fun _ => Ok (omap (fun entry => pair entry.1 <$> demo_bodies entry.2) (enumerate docs)) |}.
(** Only the parts of the listing have a corpus. *)
Definition demo_make_corpus (docs : list Listed) : res CorpusOps :=
  if bool_decide (docs ∈ [demo_listing; take 1 demo_listing; drop 1 demo_listing]) then Ok (demo_corpus docs) else Err "no such corpus".

Definition demo_built (docs : list Listed) : BuiltIndexFiles :=
  match build_segment_files demo_sha256 Trigram demo_crates demo_compress sort_N sum_hash 4 2 (demo_corpus docs) docs with
  | Ok built => built
  | _ => {| bi_runs := []; bi_tables := {| sources := []; documents := []; blocks := [] |}; bi_packs := [] |}
  end.
Definition demo_tables_at (n : N) : SegmentTables := bi_tables (demo_built (if n =? 1 then take 1 demo_listing else drop 1 demo_listing)).
Definition demo_encode (t : SegmentTables) : res (list N) :=
  if bool_decide (t = demo_tables_at 1) then Ok [1] else if bool_decide (t = demo_tables_at 2) then Ok [2] else Err "other tables".
Definition demo_decode (bytes : list N) : option SegmentTables := demo_tables_at <$> head bytes.
Definition demo_random (n : N) : res (list N) := Ok (replicate 31 0 ++ [n]).
Definition demo_store : World := {| blobs := ∅; draws := 0 |}.

Lemma demo_outside : outside_ok demo_encode demo_decode demo_random (fun _ _ => Ok tt) (fun _ => Ok tt).
Proof.
  split; [..|done|done].
  - intros t. unfold demo_encode. case_bool_decide as H1; [apply safe_ok; by rewrite H1|]. case_bool_decide as H2; [apply safe_ok; by rewrite H2|left; by eexists].
  - intros n. by apply safe_ok.
  - intros i j a b [= <-] [= <-] H. cbn [hex replicate app] in H. unfold hex in H. cbn [mbind list_bind app] in H. repeat (injection H as _ _ H || idtac).
    assert (hex_digit (i / 16) = hex_digit (j / 16) /\ hex_digit (i mod 16) = hex_digit (j mod 16)) as [E1 E2] by (by injection H).
    unfold hex_digit in *. clear H. destruct (N.ltb_spec (i / 16) 10), (N.ltb_spec (j / 16) 10), (N.ltb_spec (i mod 16) 10), (N.ltb_spec (j mod 16) 10); lia.
Qed.

Lemma demo_corpora docs : safe (demo_make_corpus docs) (fun c => Forall (fun source => so_encoded_size source < U64) (cp_sources c) /\
  (forall chunk, no_panic (cp_fetch c chunk)) /\ corpus_bytes demo_crates (cp_sources c) (cp_fetch c)).
Proof.
  unfold demo_make_corpus. case_bool_decide as H; [|left; by eexists]. apply safe_ok. split; [|split; [done|]].
  - rewrite !elem_of_cons, elem_of_nil in H. destruct H as [->|[->|[->|[]]]]; repeat constructor.
  - intros chunk fetched i source [= <-] Hi. unfold decodes_to_bytes. pose proof (get_Some_lt _ _ _ Hi) as Hlt. cbn [cp_sources demo_corpus] in Hi, Hlt. rewrite len_fmap in Hlt.
    rewrite !elem_of_cons, elem_of_nil in H. destruct H as [->|[->|[->|[]]]].
    + change (len demo_listing) with 3 in Hlt. assert (i = 0 \/ i = 1 \/ i = 2) as [->|[->| ->]] by lia; injection Hi as <-; vm_compute; repeat constructor.
    + change (len (take 1 demo_listing)) with 1 in Hlt. assert (i = 0) as -> by lia; injection Hi as <-; vm_compute; repeat constructor.
    + change (len (drop 1 demo_listing)) with 2 in Hlt. assert (i = 0 \/ i = 1) as [->| ->] by lia; injection Hi as <-; vm_compute; repeat constructor.
Qed.

Definition demo_write : res (list SegmentMeta) * World :=
  write_bounded_segments demo_fst demo_sha256 Trigram demo_encode demo_random (fun _ _ => Ok tt) (fun _ => Ok tt) (fun _ => Ok tt) demo_crates demo_compress sort_N sum_hash 4
    demo_make_corpus 2 4 demo_listing demo_store.

Lemma write_bounded_segments_exact_witness :
  exists metas w, demo_write = (Ok metas, w) /\ len metas = 2 /\
    segments_of demo_fst demo_sha256 Trigram sort_N sum_hash demo_decode demo_random demo_crates demo_decompress demo_make_corpus 2 demo_store w metas demo_listing.
Proof.
  pose proof (write_bounded_segments_exact demo_fst demo_compress demo_decompress demo_sha256 Trigram sort_N sum_hash demo_encode demo_decode demo_random (fun _ _ => Ok tt) (fun _ => Ok tt)
    (fun _ => Ok tt) demo_crates 4 demo_make_corpus 2 demo_listing demo_store demo_outside demo_corpora ltac:(reflexivity)) as H.
  change (S (length demo_listing)) with 4%nat in H. fold demo_write in H.
  assert ((exists n, len <$> match demo_write.1 with Ok metas => Some metas | _ => None end = Some n /\ n = 2)) as (n & Hn & ->) by (eexists; split; vm_compute; reflexivity).
  destruct demo_write as [[metas|e|e] w]; [|discriminate Hn|discriminate Hn]. exists metas, w. split; [reflexivity|]. split; [by injection Hn|exact H].
Defined.

Lemma demo_input : exists contents, segment_input demo_sha256 Trigram sort_N sum_hash contents
  (bi_runs (demo_built (take 1 demo_listing))) (bi_tables (demo_built (take 1 demo_listing))) (bi_packs (demo_built (take 1 demo_listing))).
Proof.
  assert (demo_make_corpus (take 1 demo_listing) = Ok (demo_corpus (take 1 demo_listing))) as Hc by (vm_compute; reflexivity).
  pose proof (build_segment_files_ok demo_sha256 Trigram sort_N sum_hash demo_crates demo_compress demo_decompress 4 demo_make_corpus 2 demo_corpora
    (take 1 demo_listing) (demo_corpus (take 1 demo_listing)) Hc ltac:(done)) as H.
  unfold demo_built. destruct (build_segment_files _ _ _ _ _ _ _ _ _ _) as [built|e|e] eqn:E; [|vm_compute in E; discriminate E|vm_compute in E; discriminate E].
  destruct H as [[? [=]]|(b & [= <-] & outs & slices & decoded & _ & _ & H & _)]. by exists (contents_of (located outs)).
Qed.

Lemma merge_and_put_segment_exact_witness :
  exists contents meta w, merge_and_put_segment demo_fst demo_sha256 Trigram demo_encode demo_random (fun _ _ => Ok tt) (fun _ => Ok tt) (fun _ => Ok tt)
      (bi_runs (demo_built (take 1 demo_listing))) (bi_tables (demo_built (take 1 demo_listing))) (bi_packs (demo_built (take 1 demo_listing))) demo_store = (Ok meta, w) /\
    drawn demo_random demo_store w (seg_id meta) /\
    published demo_fst demo_sha256 Trigram sort_N sum_hash demo_decode contents (bi_packs (demo_built (take 1 demo_listing))) meta (bi_tables (demo_built (take 1 demo_listing))) w.
Proof.
  destruct demo_input as [contents Hin]. exists contents.
  pose proof (merge_and_put_segment_exact demo_fst demo_compress demo_decompress demo_sha256 Trigram sort_N sum_hash demo_encode demo_decode demo_random (fun _ _ => Ok tt) (fun _ => Ok tt)
    (fun _ => Ok tt) contents _ _ _ demo_store demo_outside Hin) as H.
  assert (is_ok (merge_and_put_segment demo_fst demo_sha256 Trigram demo_encode demo_random (fun _ _ => Ok tt) (fun _ => Ok tt) (fun _ => Ok tt)
      (bi_runs (demo_built (take 1 demo_listing))) (bi_tables (demo_built (take 1 demo_listing))) (bi_packs (demo_built (take 1 demo_listing))) demo_store).1 = true) as Hok by (vm_compute; reflexivity).
  destruct (merge_and_put_segment _ _ _ _ _ _ _ _ _ _ _ demo_store) as [[meta|e|e] w]; [|discriminate Hok|discriminate Hok]. exists meta, w. split; [reflexivity|]. exact (proj2 H).
Defined.
