(* ===== verification/Protocol.v ===== *)
(** * Concurrent index runs (crates/index/src/segment.rs: update_index; core/store.rs: put_if)

    Several runs may update one index at a time.  A run reads the root, puts the
    files of its segments, replaces the root by compare-and-swap and then deletes
    what the root it published no longer references.  The runs are a step
    relation over the store they share: between any two steps of a run, any
    other run may take steps, stop, or fail.

    The swap compares the content of the root, as the version of a local store
    does.  The contents of blobs are left out: what counts is that they are
    there.  A root that does not parse, and the sweep of the blobs that it leaves
    behind, are left out too. *)

From stdpp Require Import relations.
From S2P Require Import Prelude BitPack Bytes Trigrams SparseGrams Format PackBuild SegmentList Cache Update Publish.

(** What a run has read, the ids that it drew and the blobs that it put; or what
    it is yet to delete. *)
Inductive Phase : Type :=
  | Working (expected : option (list SegmentMeta)) (owned written : gset (list N))
  | Collecting (pending : list (list N))
  | Stopped.

(** The root, the names of the other blobs, the ids that were ever drawn. *)
Record Shared : Type := { sh_root : option (list SegmentMeta); sh_blobs : gset (list N); sh_born : gset (list N); sh_runs : gmap N Phase }.

(** The files of a segment that are its own; packs may be shared. *)
Definition own_files (meta : SegmentMeta) : list (list N) :=
  (segment_blob (seg_id meta) <$> SEGMENT_FILES) ++ (if is_empty (dead_hash meta) then [] else [segment_blob (seg_id meta) (dead_bin (dead_hash meta))]).
Definition pack_files (meta : SegmentMeta) : list (list N) := (fun pack => pack_blob (pm_hash pack)) <$> seg_packs meta.

Section protocol.
(** The number of dead sources of the dead set with a hash; 0 without one. *)
Context (dead_size : list N -> N).

(** An entry that a run keeps or marks: a marked one has a larger dead set. *)
Definition carried (old new : SegmentMeta) : Prop :=
  seg_id new = seg_id old /\ seg_packs new = seg_packs old /\ (dead_hash new = dead_hash old \/ dead_size (dead_hash old) < dead_size (dead_hash new)).

(** The blobs that a run puts: packs, files of its own segments, dead sets of
    the segments it has read ([put_file], [publish], [write_dead]). *)
Definition may_put (expected : option (list SegmentMeta)) (owned : gset (list N)) (blob : list N) : Prop :=
  (exists hash, blob = pack_blob hash) \/ (exists id name, id ∈ owned /\ blob = segment_blob id name) \/
  (exists m hash, m ∈ default [] expected /\ blob = segment_blob (seg_id m) (dead_bin hash) /\ dead_size (dead_hash m) < dead_size hash).

(** The entries of the root that a run publishes: those it has read, kept or
    marked, and new ones. *)
Definition publishable (expected : option (list SegmentMeta)) (owned written : gset (list N)) (after : list SegmentMeta) : Prop :=
  forall m, m ∈ after ->
    (exists old, old ∈ default [] expected /\ carried old m /\ (dead_hash m = dead_hash old \/ segment_blob (seg_id m) (dead_bin (dead_hash m)) ∈ written)) \/
    (seg_id m ∈ owned /\ forall blob, blob ∈ meta_blobs m -> blob ∈ written).

(** [replaced]: what was read, marked or built.  An entry that is published is
    the last version of its segment. *)
Definition replaceable (expected : option (list SegmentMeta)) (owned : gset (list N)) (replaced after : list SegmentMeta) : Prop :=
  forall m, m ∈ replaced ->
    ((exists old, old ∈ default [] expected /\ carried old m) \/ seg_id m ∈ owned) /\
    forall new, new ∈ after -> seg_id new = seg_id m -> dead_hash m = dead_hash new \/ dead_size (dead_hash m) < dead_size (dead_hash new).

Definition set_run (s : Shared) (i : N) (phase : Phase) : gmap N Phase := <[i := phase]> (sh_runs s).

Inductive step (may_load : Shared -> Prop) (s : Shared) : Shared -> Prop :=
  (** [load_segment_list], where a run may begin *)
  | step_load i : may_load s -> sh_runs s !! i = None ->
      step may_load s {| sh_root := sh_root s; sh_blobs := sh_blobs s; sh_born := sh_born s; sh_runs := set_run s i (Working (sh_root s) ∅ ∅) |}
  (** [random_seg_id] *)
  | step_draw i expected owned written id : sh_runs s !! i = Some (Working expected owned written) -> length id = 64%nat -> id ∉ sh_born s ->
      step may_load s {| sh_root := sh_root s; sh_blobs := sh_blobs s; sh_born := {[id]} ∪ sh_born s; sh_runs := set_run s i (Working expected ({[id]} ∪ owned) written) |}
  | step_put i expected owned written blob : sh_runs s !! i = Some (Working expected owned written) -> may_put expected owned blob ->
      step may_load s {| sh_root := sh_root s; sh_blobs := {[blob]} ∪ sh_blobs s; sh_born := sh_born s; sh_runs := set_run s i (Working expected owned ({[blob]} ∪ written)) |}
  (** The files of a segment that failed. *)
  | step_discard i expected owned written id name : sh_runs s !! i = Some (Working expected owned written) -> id ∈ owned ->
      step may_load s {| sh_root := sh_root s; sh_blobs := sh_blobs s ∖ {[segment_blob id name]}; sh_born := sh_born s;
                sh_runs := set_run s i (Working expected owned (written ∖ {[segment_blob id name]})) |}
  (** [put_if] succeeds. *)
  | step_publish i expected owned written replaced after : sh_runs s !! i = Some (Working expected owned written) -> sh_root s = expected ->
      publishable expected owned written after -> replaceable expected owned replaced after ->
      step may_load s {| sh_root := Some after; sh_blobs := sh_blobs s; sh_born := sh_born s; sh_runs := set_run s i (Collecting (collect_garbage replaced after)) |}
  (** [store.delete]; a failing one is only reported. *)
  | step_delete i blob pending : sh_runs s !! i = Some (Collecting (blob :: pending)) ->
      step may_load s {| sh_root := sh_root s; sh_blobs := sh_blobs s ∖ {[blob]}; sh_born := sh_born s; sh_runs := set_run s i (Collecting pending) |}
  | step_keep i blob pending : sh_runs s !! i = Some (Collecting (blob :: pending)) ->
      step may_load s {| sh_root := sh_root s; sh_blobs := sh_blobs s; sh_born := sh_born s; sh_runs := set_run s i (Collecting pending) |}
  (** The run ends: done, in error ([put_if] fails), or killed. *)
  | step_stop i phase : sh_runs s !! i = Some phase ->
      step may_load s {| sh_root := sh_root s; sh_blobs := sh_blobs s; sh_born := sh_born s; sh_runs := set_run s i Stopped |}.

(** Runs that overlap in any way, and runs one after the other. *)
Definition any_time (s : Shared) : Prop := True.
Definition when_idle (s : Shared) : Prop := forall i phase, sh_runs s !! i = Some phase -> phase = Stopped.
End protocol.

(** ** What holds between the steps *)

Lemma meta_blobs_split (m : SegmentMeta) blob : blob ∈ meta_blobs m <-> blob ∈ own_files m \/ blob ∈ pack_files m.
Proof. unfold meta_blobs, own_files, pack_files. cbn [fmap list_fmap SEGMENT_FILES]. rewrite !elem_of_app. tauto. Qed.

Lemma own_files_spec (m : SegmentMeta) blob : blob ∈ own_files m <-> exists name, blob = segment_blob (seg_id m) name /\ (name ∈ SEGMENT_FILES \/ dead_hash m <> [] /\ name = dead_bin (dead_hash m)).
Proof.
  unfold own_files, is_empty. rewrite elem_of_app, list_elem_of_fmap. split.
  - intros [(name & -> & Hn)|H]; [exists name; tauto|]. case_bool_decide; [by apply elem_of_nil in H|]. apply list_elem_of_singleton in H as ->. exists (dead_bin (dead_hash m)). tauto.
  - intros (name & -> & [Hn|[Hd ->]]); [left; by exists name|right]. rewrite bool_decide_eq_false_2 by done. by apply list_elem_of_singleton.
Qed.
Lemma pack_files_spec (m : SegmentMeta) blob : blob ∈ pack_files m -> exists hash, blob = pack_blob hash.
Proof. intros (pack & -> & _)%list_elem_of_fmap. by eexists. Qed.
Lemma dead_bin_inj h h' : dead_bin h = dead_bin h' -> h = h'.
Proof. unfold dead_bin. intros H. by apply (app_inv_head [100; 101; 97; 100; 45]), app_inv_tail in H. Qed.
Lemma dead_bin_not_file h : dead_bin h ∉ SEGMENT_FILES.
Proof. unfold SEGMENT_FILES. rewrite !elem_of_cons, elem_of_nil. by intros [[=]|[[=]|[[=]|[]]]]. Qed.

Section invariant.
Context (dead_size : list N -> N).
Implicit Types (s : Shared) (m : SegmentMeta).

(** A file that no entry of the root has, now or later. *)
Definition superseded (root : list SegmentMeta) (id name : list N) : Prop :=
  (forall m, m ∈ root -> seg_id m <> id) \/
  (exists hash, name = dead_bin hash /\ forall m, m ∈ root -> seg_id m = id -> dead_size hash < dead_size (dead_hash m)).

(** A blob that a run has put. *)
Definition put_holds (s : Shared) (expected : list SegmentMeta) (owned : gset (list N)) (blob : list N) : Prop :=
  (exists hash, blob = pack_blob hash) \/
  (exists id name, id ∈ owned /\ blob = segment_blob id name /\ blob ∈ sh_blobs s) \/
  (exists m hash, m ∈ expected /\ blob = segment_blob (seg_id m) (dead_bin hash) /\ dead_size (dead_hash m) < dead_size hash /\
    (blob ∈ sh_blobs s \/ superseded (default [] (sh_root s)) (seg_id m) (dead_bin hash))).

(** An id that belongs to no other run and to no root. *)
Definition apart (s : Shared) (i : N) (id : list N) : Prop :=
  (forall m, m ∈ default [] (sh_root s) -> seg_id m <> id) /\
  forall j expected owned written, sh_runs s !! j = Some (Working expected owned written) -> (j <> i -> id ∉ owned) /\ forall m, m ∈ default [] expected -> seg_id m <> id.

Record run_holds (s : Shared) (i : N) (expected : list SegmentMeta) (owned written : gset (list N)) : Prop := {
  rh_owned : forall id, id ∈ owned -> id ∈ sh_born s /\ apart s i id;
  rh_expected : forall m, m ∈ expected -> seg_id m ∈ sh_born s;
  rh_written : forall blob, blob ∈ written -> put_holds s expected owned blob;
}.

Definition pending_holds (s : Shared) (blob : list N) : Prop :=
  (exists hash, blob = pack_blob hash) \/
  exists id name, blob = segment_blob id name /\ id ∈ sh_born s /\ superseded (default [] (sh_root s)) id name /\
    forall j expected owned written, sh_runs s !! j = Some (Working expected owned written) -> id ∉ owned.

Record holds (s : Shared) : Prop := {
  h_ids : forall id, id ∈ sh_born s -> length id = 64%nat;
  h_root : forall m, m ∈ default [] (sh_root s) -> seg_id m ∈ sh_born s /\ forall blob, blob ∈ own_files m -> blob ∈ sh_blobs s;
  h_runs : forall i expected owned written, sh_runs s !! i = Some (Working expected owned written) -> run_holds s i (default [] expected) owned written;
  h_pending : forall i pending, sh_runs s !! i = Some (Collecting pending) -> forall blob, blob ∈ pending -> pending_holds s blob;
}.

(** A run that stops, or goes on deleting, leaves what holds. *)
Lemma apart_runs s i id runs :
  (forall j e o w, runs !! j = Some (Working e o w) -> sh_runs s !! j = Some (Working e o w)) -> apart s i id ->
  apart {| sh_root := sh_root s; sh_blobs := sh_blobs s; sh_born := sh_born s; sh_runs := runs |} i id.
Proof. intros Hr [H1 H2]. split; [done|]. intros j e o w Hj. by eapply H2, Hr. Qed.

Lemma holds_fewer s runs :
  holds s -> (forall j e o w, runs !! j = Some (Working e o w) -> sh_runs s !! j = Some (Working e o w)) ->
  (forall j pending, runs !! j = Some (Collecting pending) -> exists pending', sh_runs s !! j = Some (Collecting pending') /\ pending ⊆ pending') ->
  holds {| sh_root := sh_root s; sh_blobs := sh_blobs s; sh_born := sh_born s; sh_runs := runs |}.
Proof.
  intros [H1 H2 H3 H4] Hw Hc. split; cbn [sh_born sh_root sh_blobs sh_runs]; [done|done| |].
  - intros i e o w Hi. destruct (H3 _ _ _ _ (Hw _ _ _ _ Hi)) as [R1 R2 R3]. split; [|done|done]. intros id Hid. destruct (R1 id Hid). split; [done|]. by apply apart_runs.
  - intros i pending Hi blob Hb. destruct (Hc _ _ Hi) as (pending' & Hp & Hsub). destruct (H4 _ _ Hp blob (Hsub _ Hb)) as [?|(id & name & E & Hid & Hs & Ho)]; [by left|].
    right. exists id, name. split; [done|]. split; [done|]. split; [done|]. intros j e o w Hj. by eapply Ho, Hw.
Qed.

Lemma run_holds_same s s' i e o w :
  sh_root s' = sh_root s -> sh_born s ⊆ sh_born s' -> (forall id, id ∈ o -> apart s i id -> apart s' i id) ->
  (forall blob, blob ∈ w -> put_holds s e o blob -> put_holds s' e o blob) -> run_holds s i e o w -> run_holds s' i e o w.
Proof.
  intros Hr Hb Ha Hp [R1 R2 R3]. split; [|auto|auto]. intros id Hid. destruct (R1 id Hid). auto.
Qed.

Lemma load_holds s i : holds s -> sh_runs s !! i = None ->
  holds {| sh_root := sh_root s; sh_blobs := sh_blobs s; sh_born := sh_born s; sh_runs := set_run s i (Working (sh_root s) ∅ ∅) |}.
Proof.
  intros [H1 H2 H3 H4] Hi. split; cbn [sh_born sh_root sh_blobs sh_runs]; [done|done| |]; unfold set_run.
  - intros j e o w [[<- [= <- <- <-]]|[Hne Hj]]%lookup_insert_Some.
    + split; [set_solver|by intros m [? _]%H2|set_solver].
    + eapply (run_holds_same s); [done|done| |done|by apply H3]. intros id _ [A1 A2]. split; [done|]. cbn [sh_runs]. intros k e' o' w' [[<- [= <- <- <-]]|[_ Hk]]%lookup_insert_Some; [split; [set_solver|done]|by eapply A2].
  - intros j pending [[_ [=]]|[_ Hj]]%lookup_insert_Some blob Hb. destruct (H4 _ _ Hj blob Hb) as [?|(id & name & E & Hid & Hs & Ho)]; [by left|].
    right. exists id, name. split; [done|]. split; [done|]. split; [done|]. cbn [sh_runs]. intros k e o w [[_ [= _ <- _]]|[_ Hk]]%lookup_insert_Some; [set_solver|by eapply Ho].
Qed.

Lemma draw_holds s i e o w id : holds s -> sh_runs s !! i = Some (Working e o w) -> length id = 64%nat -> id ∉ sh_born s ->
  holds {| sh_root := sh_root s; sh_blobs := sh_blobs s; sh_born := {[id]} ∪ sh_born s; sh_runs := set_run s i (Working e ({[id]} ∪ o) w) |}.
Proof.
  intros [H1 H2 H3 H4] Hi Hl Hfresh. unfold set_run.
  assert (forall k e' o' w', <[i := Working e ({[id]} ∪ o) w]> (sh_runs s) !! k = Some (Working e' o' w') -> exists o0, sh_runs s !! k = Some (Working e' o0 w') /\ (o' = o0 \/ k = i /\ o' = {[id]} ∪ o0)) as Hold.
  { intros k e' o' w' [[<- [= <- <- <-]]|[_ Hk]]%lookup_insert_Some; [exists o; tauto|exists o'; tauto]. }
  split; cbn [sh_born sh_root sh_blobs sh_runs].
  - intros id'. rewrite elem_of_union, elem_of_singleton. intros [->|?]; auto.
  - intros m Hm. destruct (H2 m Hm). split; [set_solver|done].
  - intros j e' o' w' Hj. destruct (Hold _ _ _ _ Hj) as (o0 & Hj0 & Ho). destruct (H3 _ _ _ _ Hj0) as [R1 R2 R3]. split.
    + intros id' Hid. split; [cbn; destruct Ho as [->|[-> ->]]; [|apply elem_of_union in Hid as [?|Hid]; [set_solver|]]; destruct (R1 id'); set_solver|].
      destruct (decide (id' = id)) as [->|Hne].
      * assert (j = i) as -> by (destruct Ho as [->|[-> _]]; [by destruct (R1 id Hid)|done]). split; [intros m Hm E; apply Hfresh; rewrite <- E; by apply H2|].
        intros k e2 o2 w2 Hk. destruct (Hold _ _ _ _ Hk) as (o3 & Hk0 & Ho2). destruct (H3 _ _ _ _ Hk0) as [Q1 Q2 _]. split.
        -- intros Hki Hin. destruct Ho2 as [->|[? _]]; [|done]. by destruct (Q1 id Hin).
        -- intros m Hm E. apply Hfresh. rewrite <- E. by apply Q2.
      * assert (id' ∈ o0) as Hid0 by (destruct Ho as [->|[_ ->]]; set_solver). destruct (R1 id' Hid0) as [_ [A1 A2]]. split; [done|].
        intros k e2 o2 w2 Hk. destruct (Hold _ _ _ _ Hk) as (o3 & Hk0 & Ho2). destruct (A2 _ _ _ _ Hk0) as [B1 B2]. split; [|done]. intros Hkj Hin. apply (B1 Hkj). destruct Ho2 as [->|[_ ->]]; set_solver.
    + intros m Hm. cbn. specialize (R2 m Hm). set_solver.
    + intros blob Hb. destruct (R3 blob Hb) as [?|[(id' & name & Hin & E & Hbl)|?]]; [by left| |by right; right]. right. left. exists id', name. split; [destruct Ho as [->|[_ ->]]; set_solver|done].
  - intros j pending [[_ [=]]|[_ Hj]]%lookup_insert_Some blob Hb. destruct (H4 _ _ Hj blob Hb) as [?|(id' & name & E & Hid & Hs & Ho)]; [by left|].
    right. exists id', name. split; [done|]. split; [cbn; set_solver|]. split; [done|]. intros k e' o' w' Hk. destruct (Hold _ _ _ _ Hk) as (o0 & Hk0 & Ho2). specialize (Ho _ _ _ _ Hk0).
    destruct Ho2 as [->|[_ ->]]; [done|]. intros [->%elem_of_singleton|?]%elem_of_union; done.
Qed.

(** More blobs, and one more of them written by a run. *)
Lemma put_blob_holds s i e o w blob : holds s -> sh_runs s !! i = Some (Working e o w) -> may_put dead_size e o blob ->
  holds {| sh_root := sh_root s; sh_blobs := {[blob]} ∪ sh_blobs s; sh_born := sh_born s; sh_runs := set_run s i (Working e o ({[blob]} ∪ w)) |}.
Proof.
  intros [H1 H2 H3 H4] Hi Hput. unfold set_run. set (s' := {| sh_root := _ |}).
  assert (forall k e' o' w', sh_runs s' !! k = Some (Working e' o' w') -> exists w0, sh_runs s !! k = Some (Working e' o' w0) /\ (w' = w0 \/ k = i /\ w' = {[blob]} ∪ w0)) as Hold.
  { subst s'. cbn [sh_runs]. intros k e' o' w' [[<- [= <- <- <-]]|[_ Hk]]%lookup_insert_Some; [exists w; tauto|exists w'; tauto]. }
  assert (forall id j, apart s j id -> apart s' j id) as Hap.
  { intros id j [A1 A2]. split; [done|]. intros k e' o' w' Hk. destruct (Hold _ _ _ _ Hk) as (w0 & Hk0 & _). by eapply A2. }
  assert (forall e' o' b, put_holds s e' o' b -> put_holds s' e' o' b) as Hmore.
  { intros e' o' b [?|[(id & name & Hin & E & Hbl)|(m & h & Hm & E & Hd & Hbl)]]; [by left|right; left; exists id, name; set_solver|].
    right. right. exists m, h. split; [done|]. split; [done|]. split; [done|]. destruct Hbl as [?|?]; [left; set_solver|by right]. }
  split; [done| | |].
  - intros m Hm. destruct (H2 m Hm) as [? Hf]. split; [done|]. intros b Hb. cbn. specialize (Hf b Hb). set_solver.
  - intros j e' o' w' Hj. destruct (Hold _ _ _ _ Hj) as (w0 & Hj0 & Hw). destruct (H3 _ _ _ _ Hj0) as [R1 R2 R3]. split; [|done|].
    + intros id Hid. destruct (R1 id Hid). split; [done|]. by apply Hap.
    + intros b Hb. destruct Hw as [->|[-> ->]]; [by apply Hmore, R3|]. apply elem_of_union in Hb as [->%elem_of_singleton|Hb]; [|by apply Hmore, R3].
      rewrite Hi in Hj0. injection Hj0 as <- <- <-. destruct Hput as [?|[(id & name & Hin & E)|(m & h & Hm & E & Hd)]]; [by left|right; left; exists id, name; cbn; set_solver|].
      right. right. exists m, h. cbn. set_solver.
  - intros j pending Hj b Hb. subst s'. cbn [sh_runs] in Hj. apply lookup_insert_Some in Hj as [[_ [=]]|[_ Hj]]. destruct (H4 _ _ Hj b Hb) as [?|(id & name & E & Hid & Hs & Ho)]; [by left|].
    right. exists id, name. split; [done|]. split; [done|]. split; [done|]. intros k e' o' w' Hk. destruct (Hold _ _ _ _ Hk) as (w0 & Hk0 & _). by eapply Ho.
Qed.

(** A blob that no entry of the root has can go. *)
Lemma remove_holds s blob :
  holds s -> (forall m, m ∈ default [] (sh_root s) -> blob ∉ own_files m) ->
  (forall i e o w, sh_runs s !! i = Some (Working e o w) -> blob ∈ w -> put_holds {| sh_root := sh_root s; sh_blobs := sh_blobs s ∖ {[blob]}; sh_born := sh_born s; sh_runs := sh_runs s |} (default [] e) o blob) ->
  holds {| sh_root := sh_root s; sh_blobs := sh_blobs s ∖ {[blob]}; sh_born := sh_born s; sh_runs := sh_runs s |}.
Proof.
  intros [H1 H2 H3 H4] Hroot Hw. split; [done| | |done].
  - intros m Hm. destruct (H2 m Hm) as [? Hf]. split; [done|]. intros b Hb. cbn. apply elem_of_difference. split; [by apply Hf|]. intros ->%elem_of_singleton. by apply (Hroot m).
  - intros i e o w Hi. destruct (H3 _ _ _ _ Hi) as [R1 R2 R3]. split; [done|done|]. intros b Hb. destruct (decide (b = blob)) as [->|Hne]; [by eapply Hw|].
    destruct (R3 b Hb) as [?|[(id & name & Hin & E & Hbl)|(m & h & Hm & E & Hd & Hbl)]]; [by left|right; left; exists id, name; cbn; set_solver|].
    right. right. exists m, h. split; [done|]. split; [done|]. split; [done|]. destruct Hbl as [?|?]; [left; cbn; set_solver|by right].
Qed.

Lemma superseded_not_own s id name : holds s -> length id = 64%nat -> superseded (default [] (sh_root s)) id name ->
  forall m, m ∈ default [] (sh_root s) -> segment_blob id name ∉ own_files m.
Proof.
  intros [H1 H2 _ _] Hl Hs m Hm (name' & E & Hn)%own_files_spec. destruct (H2 m Hm) as [Hb _]. apply segment_blob_inj in E as [-> ->]; [|by rewrite Hl, H1].
  destruct Hs as [Hs|(h & -> & Hs)]; [by apply (Hs m)|]. destruct Hn as [Hn|[_ E]]; [by apply dead_bin_not_file in Hn|]. apply dead_bin_inj in E as ->. specialize (Hs m Hm eq_refl). lia.
Qed.

Lemma delete_holds s i blob pending : holds s -> sh_runs s !! i = Some (Collecting (blob :: pending)) ->
  holds {| sh_root := sh_root s; sh_blobs := sh_blobs s ∖ {[blob]}; sh_born := sh_born s; sh_runs := set_run s i (Collecting pending) |}.
Proof.
  intros Hs Hi. unfold set_run.
  refine (holds_fewer {| sh_root := sh_root s; sh_blobs := sh_blobs s ∖ {[blob]}; sh_born := sh_born s; sh_runs := sh_runs s |} (<[i := Collecting pending]> (sh_runs s)) _ _ _); cbn [sh_runs].
  2: { by intros j e o w [[_ [=]]|[_ Hj]]%lookup_insert_Some. }
  2: { intros j p [[<- [= <-]]|[_ Hj]]%lookup_insert_Some; [exists (blob :: pending); split; [done|set_solver]|by exists p]. }
  destruct (h_pending s Hs i _ Hi blob ltac:(left)) as [(h & ->)|(id & name & -> & Hid & Hsup & Ho)].
  - apply remove_holds; [done| |].
    + intros m _ (name & E & _)%own_files_spec. symmetry in E. by apply segment_not_pack in E.
    + intros j e o w Hj Hw. left. by exists h.
  - pose proof (h_ids s Hs id Hid) as Hl. apply remove_holds; [done|by apply superseded_not_own|].
    intros j e o w Hj Hw. destruct (rh_written _ _ _ _ _ (h_runs s Hs _ _ _ _ Hj) _ Hw) as [[h E]|[(id' & name' & Hin & E & _)|(m & h & Hm & E & Hd & _)]]; [by apply segment_not_pack in E| |].
    + exfalso. destruct (rh_owned _ _ _ _ _ (h_runs s Hs _ _ _ _ Hj) _ Hin) as [Hb _]. apply segment_blob_inj in E as [-> _]; [|by rewrite Hl, (h_ids s Hs)]. by eapply Ho.
    + pose proof (rh_expected _ _ _ _ _ (h_runs s Hs _ _ _ _ Hj) m Hm) as Hb. apply segment_blob_inj in E as [-> ->]; [|by rewrite Hl, (h_ids s Hs)].
      right. right. exists m, h. split; [done|]. split; [done|]. split; [done|]. by right.
Qed.

Lemma discard_holds s i e o w id name : holds s -> sh_runs s !! i = Some (Working e o w) -> id ∈ o ->
  holds {| sh_root := sh_root s; sh_blobs := sh_blobs s ∖ {[segment_blob id name]}; sh_born := sh_born s; sh_runs := set_run s i (Working e o (w ∖ {[segment_blob id name]})) |}.
Proof.
  intros Hs Hi Hid. set (blob := segment_blob id name). unfold set_run. destruct (rh_owned _ _ _ _ _ (h_runs s Hs _ _ _ _ Hi) id Hid) as [Hb [A1 A2]].
  set (s1 := {| sh_root := sh_root s; sh_blobs := sh_blobs s; sh_born := sh_born s; sh_runs := <[i := Working e o (w ∖ {[blob]})]> (sh_runs s) |}).
  assert (holds s1) as Hs1.
  { destruct Hs as [H1 H2 H3 H4].
    assert (forall k e' o' w', sh_runs s1 !! k = Some (Working e' o' w') -> exists w0, sh_runs s !! k = Some (Working e' o' w0) /\ w' ⊆ w0) as Hold.
    { subst s1. cbn [sh_runs]. intros k e' o' w' [[<- [= <- <- <-]]|[_ Hk]]%lookup_insert_Some; [exists w; set_solver|by exists w']. }
    split; [done|done| |].
    - intros j e' o' w' Hj. destruct (Hold _ _ _ _ Hj) as (w0 & Hj0 & Hsub). destruct (H3 _ _ _ _ Hj0) as [R1 R2 R3]. split; [|done|intros b Hin; by apply (R3 b), Hsub].
      intros id' Hid'. destruct (R1 id' Hid') as [? [B1 B2]]. split; [done|]. split; [done|]. intros k e2 o2 w2 Hk. destruct (Hold _ _ _ _ Hk) as (w3 & Hk0 & _). by eapply B2.
    - intros j pending Hj b Hin. subst s1. cbn [sh_runs] in Hj. apply lookup_insert_Some in Hj as [[_ [=]]|[_ Hj]]. destruct (H4 _ _ Hj b Hin) as [?|(id' & n & E & Hid' & Hsup & Ho)]; [by left|].
      right. exists id', n. split; [done|]. split; [done|]. split; [done|]. intros k e' o' w' Hk. destruct (Hold _ _ _ _ Hk) as (w0 & Hk0 & _). by eapply Ho. }
  apply (remove_holds s1 blob Hs1).
  - apply (superseded_not_own s1); [done|by apply (h_ids s Hs)|by left].
  - intros j e' o' w' Hj Hin. subst s1. cbn [sh_runs] in Hj. apply lookup_insert_Some in Hj as [[<- [= <- <- <-]]|[Hne Hj]]; [set_solver|]. exfalso.
    destruct (rh_written _ _ _ _ _ (h_runs s Hs _ _ _ _ Hj) _ Hin) as [[h E]|[(id' & name' & Hin' & E & _)|(m & h & Hm & E & Hd & _)]]; [by apply segment_not_pack in E| |].
    + destruct (rh_owned _ _ _ _ _ (h_runs s Hs _ _ _ _ Hj) _ Hin') as [Hb' _]. apply segment_blob_inj in E as [-> _]; [|by rewrite !(h_ids s Hs)]. destruct (A2 _ _ _ _ Hj) as [B1 _]. by apply B1.
    + pose proof (rh_expected _ _ _ _ _ (h_runs s Hs _ _ _ _ Hj) m Hm) as Hb'. apply segment_blob_inj in E as [E _]; [|by rewrite !(h_ids s Hs)]. destruct (A2 _ _ _ _ Hj) as [_ B2]. by apply (B2 m Hm).
Qed.

(** ** Publishing *)

Section publish.
Context (s : Shared) (i : N) (expected : option (list SegmentMeta)) (owned written : gset (list N)) (replaced after : list SegmentMeta).
Context (Hs : holds s) (Hi : sh_runs s !! i = Some (Working expected owned written)) (Hroot : sh_root s = expected).
Context (Hafter : publishable dead_size expected owned written after) (Hreplaced : replaceable dead_size expected owned replaced after).
Abbreviation root := (default [] (sh_root s)).

Lemma owned_new id : id ∈ owned -> id ∈ sh_born s /\ (forall m, m ∈ root -> seg_id m <> id).
Proof. intros Hid. destruct (rh_owned _ _ _ _ _ (h_runs s Hs _ _ _ _ Hi) id Hid) as [? [? _]]. done. Qed.

Lemma superseded_after id name : id ∉ owned -> superseded root id name -> superseded after id name.
Proof.
  intros Hid [Hs0|(h & -> & Hs0)].
  - left. intros m Hm E. destruct (Hafter m Hm) as [(old & Hold & (Eid & _) & _)|[Ho _]]; [|by rewrite E in Ho]. apply (Hs0 old); [by rewrite Hroot|congruence].
  - right. exists h. split; [done|]. intros m Hm E. destruct (Hafter m Hm) as [(old & Hold & (Eid & _ & Hd) & _)|[Ho _]]; [|by rewrite E in Ho].
    specialize (Hs0 old ltac:(by rewrite Hroot) ltac:(congruence)). destruct Hd as [->|?]; lia.
Qed.

Lemma published_files_there m : m ∈ after -> seg_id m ∈ sh_born s /\ forall blob, blob ∈ own_files m -> blob ∈ sh_blobs s.
Proof.
  intros Hm. pose proof (h_runs s Hs _ _ _ _ Hi) as [R1 R2 R3]. destruct (Hafter m Hm) as [(old & Hold & (Eid & _ & Hd) & Hw)|[Ho Hw]].
  - destruct (h_root s Hs old ltac:(by rewrite Hroot)) as [Hb Hf]. rewrite Eid. split; [done|]. intros blob (name & -> & Hn)%own_files_spec. rewrite Eid.
    destruct (decide (dead_hash m = dead_hash old)) as [E|Hne]; [apply Hf, own_files_spec; exists name; by rewrite <- E|].
    destruct Hn as [Hn|[_ ->]]; [apply Hf, own_files_spec; exists name; tauto|]. destruct Hw as [?|Hw]; [done|]. destruct Hd as [?|Hd]; [done|]. rewrite Eid in Hw.
    destruct (R3 _ Hw) as [[h E]|[(id & name & Hin & E & Hbl)|(m' & h & Hm' & E & _ & [?|Hsup])]]; [by apply segment_not_pack in E|done|done|].
    pose proof (R2 m' Hm') as Hb'. apply segment_blob_inj in E as [E1 E2]; [|by rewrite !(h_ids s Hs)]. apply dead_bin_inj in E2 as <-. destruct Hsup as [Hsup|(h & E2 & Hsup)].
    + destruct (Hsup old ltac:(by rewrite Hroot) E1).
    + apply dead_bin_inj in E2 as <-. specialize (Hsup old ltac:(by rewrite Hroot) E1). lia.
  - destruct (owned_new _ Ho) as [Hb _]. split; [done|]. intros blob Hblob. pose proof Hblob as (name & -> & _)%own_files_spec.
    destruct (R3 _ (Hw _ ltac:(apply meta_blobs_split; by left))) as [[h E]|[(id & name' & Hin & E & Hbl)|(m' & h & Hm' & E & _)]]; [by apply segment_not_pack in E|done|].
    exfalso. pose proof (R2 m' Hm') as Hb'. apply segment_blob_inj in E as [E _]; [|by rewrite !(h_ids s Hs)]. destruct (R1 _ Ho) as [_ [_ A2]]. destruct (A2 _ _ _ _ Hi) as [_ A3]. by apply (A3 m').
Qed.

Lemma garbage_pending blob : blob ∈ collect_garbage replaced after -> (exists hash, blob = pack_blob hash) \/
  exists id name, blob = segment_blob id name /\ id ∈ sh_born s /\ superseded after id name /\ (id ∈ owned \/ exists m, m ∈ root /\ seg_id m = id).
Proof.
  intros Hb. apply collect_garbage_ok in Hb as [(m & Hm & Hb) Hno]. apply meta_blobs_split in Hb as [Hb|Hb]; [|left; by eapply pack_files_spec].
  right. apply own_files_spec in Hb as (name & -> & Hn). destruct (Hreplaced m Hm) as [Hfrom Hlast]. exists (seg_id m), name. split; [done|].
  assert (seg_id m ∈ sh_born s /\ (seg_id m ∈ owned \/ exists m', m' ∈ root /\ seg_id m' = seg_id m)) as [Hborn Howner].
  { destruct Hfrom as [(old & Hold & (Eid & _))|Ho]; [|split; [by apply owned_new|by left]]. rewrite Eid. split; [apply (h_root s Hs); by rewrite Hroot|right; exists old; split; [by rewrite Hroot|done]]. }
  split; [done|]. split; [|done]. destruct (decide (Exists (fun m' => seg_id m' = seg_id m) after)) as [Hex|Hex].
  2: { left. intros m' Hm' E. apply Hex, Exists_exists. by exists m'. }
  apply Exists_exists in Hex as (m' & Hm' & E). destruct Hn as [Hn|[Hne ->]].
  - exfalso. apply Hno. exists m'. split; [done|]. apply meta_blobs_split. left. apply own_files_spec. exists name. rewrite E. tauto.
  - right. exists (dead_hash m). split; [done|]. intros new Hnew E2. destruct (Hlast new Hnew E2) as [Ed|?]; [|done]. exfalso. apply Hno. exists new. split; [done|].
    apply meta_blobs_split. left. apply own_files_spec. exists (dead_bin (dead_hash m)). rewrite E2, <- Ed. tauto.
Qed.

Lemma publish_holds :
  holds {| sh_root := Some after; sh_blobs := sh_blobs s; sh_born := sh_born s; sh_runs := set_run s i (Collecting (collect_garbage replaced after)) |}.
Proof.
  unfold set_run. set (s' := {| sh_root := _ |}).
  assert (forall k e o w, sh_runs s' !! k = Some (Working e o w) -> k <> i /\ sh_runs s !! k = Some (Working e o w)) as Hold.
  { subst s'. cbn [sh_runs]. by intros k e o w [[_ [=]]|[? Hk]]%lookup_insert_Some. }
  split; [apply (h_ids s Hs)|apply published_files_there| |].
  - intros j e o w Hj. destruct (Hold _ _ _ _ Hj) as [Hji Hj0]. destruct (h_runs s Hs _ _ _ _ Hj0) as [R1 R2 R3]. split; [|done|].
    + intros id Hid. destruct (R1 id Hid) as [? [A1 A2]]. split; [done|]. split.
      * intros m Hm E. destruct (Hafter m Hm) as [(old & Hin & (Eid & _) & _)|[Ho _]]; [apply (A1 old); [by rewrite Hroot|congruence]|]. rewrite E in Ho. destruct (A2 _ _ _ _ Hi) as [B1 _]. by apply B1.
      * intros k e' o' w' Hk. destruct (Hold _ _ _ _ Hk) as [_ Hk0]. by eapply A2.
    + intros blob Hb. destruct (R3 blob Hb) as [?|[?|(m & h & Hm & E & Hd & [?|Hsup])]]; [by left|by right; left|right; right; exists m, h; tauto|].
      right. right. exists m, h. split; [done|]. split; [done|]. split; [done|]. right. apply superseded_after; [|done]. intros Ho.
      destruct (rh_owned _ _ _ _ _ (h_runs s Hs _ _ _ _ Hi) _ Ho) as [_ [_ A2]]. destruct (A2 _ _ _ _ Hj0) as [_ B2]. by apply (B2 m Hm).
  - subst s'. cbn [sh_runs] in Hold |- *. intros j pending [[<- [= <-]]|[Hne Hj]]%lookup_insert_Some blob Hb.
    + destruct (garbage_pending blob Hb) as [?|(id & name & E & Hborn & Hsup & Howner)]; [by left|]. right. exists id, name. split; [done|]. split; [done|]. split; [done|].
      intros k e o w Hk Hin. destruct (Hold _ _ _ _ Hk) as [Hki Hk0]. destruct (rh_owned _ _ _ _ _ (h_runs s Hs _ _ _ _ Hk0) id Hin) as [_ [A1 A2]].
      destruct Howner as [Ho|(m & Hm & Em)]; [|by apply (A1 m)]. destruct (A2 _ _ _ _ Hi) as [B1 _]. by apply B1.
    + destruct (h_pending s Hs _ _ Hj blob Hb) as [?|(id & name & E & Hborn & Hsup & Ho)]; [by left|]. right. exists id, name. split; [done|]. split; [done|]. split.
      * apply superseded_after; [by eapply Ho|done].
      * intros k e o w Hk. destruct (Hold _ _ _ _ Hk) as [_ Hk0]. by eapply Ho.
Qed.
End publish.

Lemma step_holds may_load s s' : step dead_size may_load s s' -> holds s -> holds s'.
Proof.
  intros Hstep Hs. destruct Hstep.
  - by apply load_holds.
  - by apply draw_holds.
  - by apply put_blob_holds.
  - by apply discard_holds.
  - by eapply publish_holds.
  - by eapply delete_holds.
  - apply holds_fewer; [done| |]; unfold set_run.
    + by intros j e o w [[_ [=]]|[_ Hj]]%lookup_insert_Some.
    + intros j p [[<- [= <-]]|[_ Hj]]%lookup_insert_Some; [exists (blob :: pending); split; [done|set_solver]|by exists p].
  - apply holds_fewer; [done| |]; unfold set_run.
    + by intros j e o w [[_ [=]]|[_ Hj]]%lookup_insert_Some.
    + intros j p [[_ [=]]|[_ Hj]]%lookup_insert_Some. by exists p.
Qed.

(** ** Runs one after the other *)

Record serial_holds (s : Shared) : Prop := {
  sr_one : forall i j p q, sh_runs s !! i = Some p -> sh_runs s !! j = Some q -> p <> Stopped -> q <> Stopped -> i = j;
  sr_packs : forall m blob, m ∈ default [] (sh_root s) -> blob ∈ pack_files m -> blob ∈ sh_blobs s;
  sr_working : forall i e o w, sh_runs s !! i = Some (Working e o w) -> e = sh_root s /\ forall hash, pack_blob hash ∈ w -> pack_blob hash ∈ sh_blobs s;
  sr_pending : forall i pending, sh_runs s !! i = Some (Collecting pending) -> forall m blob, m ∈ default [] (sh_root s) -> blob ∈ pack_files m -> blob ∉ pending;
}.

(** A step of the active run. *)
Lemma serial_step s i phase root blobs_ born phase' :
  serial_holds s -> sh_runs s !! i = Some phase -> phase <> Stopped ->
  (forall m blob, m ∈ default [] root -> blob ∈ pack_files m -> blob ∈ blobs_) ->
  (forall e o w, phase' = Working e o w -> e = root /\ forall hash, pack_blob hash ∈ w -> pack_blob hash ∈ blobs_) ->
  (forall pending, phase' = Collecting pending -> forall m blob, m ∈ default [] root -> blob ∈ pack_files m -> blob ∉ pending) ->
  serial_holds {| sh_root := root; sh_blobs := blobs_; sh_born := born; sh_runs := set_run s i phase' |}.
Proof.
  intros [H1 _ _ _] Hi Hp Hpacks Hw Hc. unfold set_run.
  assert (forall j q, <[i := phase']> (sh_runs s) !! j = Some q -> q <> Stopped -> j = i /\ q = phase') as Hactive.
  { intros j q [[<- <-]|[Hne Hj]]%lookup_insert_Some Hq; [done|]. destruct Hne. by eapply H1. }
  split; cbn [sh_runs sh_root sh_blobs]; [|done| |].
  - intros j k p q Hj Hk Hpj Hqk. destruct (Hactive _ _ Hj Hpj) as [-> _], (Hactive _ _ Hk Hqk) as [-> _]. done.
  - intros j e o w Hj. destruct (Hactive _ _ Hj ltac:(done)) as [_ E]. by eapply Hw.
  - intros j pending Hj. destruct (Hactive _ _ Hj ltac:(done)) as [_ E]. by eapply Hc.
Qed.

Lemma step_serial s s' : step dead_size when_idle s s' -> serial_holds s -> serial_holds s'.
Proof.
  intros Hstep Hs. pose proof (sr_packs s Hs) as Hpacks. destruct Hstep as [i Hidle Hi|i e o w id Hi _ _|i e o w blob Hi _|i e o w id name Hi _|i e o w replaced after Hi Hroot Hafter _|i blob pending Hi|i blob pending Hi|i phase Hi].
  - unfold set_run. assert (forall j q, <[i := Working (sh_root s) ∅ ∅]> (sh_runs s) !! j = Some q -> q <> Stopped -> j = i /\ q = Working (sh_root s) ∅ ∅) as Hactive.
    { intros j q [[<- <-]|[_ Hj]]%lookup_insert_Some Hq; [done|]. by apply Hidle in Hj. }
    split; cbn [sh_runs sh_root sh_blobs]; [|done| |].
    + intros j k p q Hj Hk Hpj Hqk. destruct (Hactive _ _ Hj Hpj) as [-> _], (Hactive _ _ Hk Hqk) as [-> _]. done.
    + intros j e o w Hj. destruct (Hactive _ _ Hj ltac:(done)) as [_ [= -> -> ->]]. set_solver.
    + intros j pending Hj. by destruct (Hactive _ _ Hj ltac:(done)) as [_ [=]].
  - destruct (sr_working s Hs _ _ _ _ Hi) as [-> Hw]. by eapply serial_step; [..|intros ??? [= <- <- <-]|].
  - destruct (sr_working s Hs _ _ _ _ Hi) as [-> Hw]. eapply serial_step; [done|done|done| |intros ??? [= <- <- <-]; split; [done|]|done]; [set_solver|]. intros h. rewrite !elem_of_union. naive_solver.
  - destruct (sr_working s Hs _ _ _ _ Hi) as [-> Hw]. eapply serial_step; [done|done|done| |intros ??? [= <- <- <-]; split; [done|]|done].
    + intros m b Hm Hb. apply elem_of_difference. split; [by eapply Hpacks|]. apply pack_files_spec in Hb as [h ->]. intros E%elem_of_singleton. symmetry in E. by apply segment_not_pack in E.
    + intros h [Hh _]%elem_of_difference. apply elem_of_difference. split; [by apply Hw|]. intros E%elem_of_singleton. symmetry in E. by apply segment_not_pack in E.
  - destruct (sr_working s Hs _ _ _ _ Hi) as [-> Hw]. eapply serial_step; [done|done|done| |done|].
    + intros m b Hm Hb. destruct (Hafter m Hm) as [(old & Hold & (_ & Ep & _) & _)|[_ Hnew]]; [apply (Hpacks old b Hold); unfold pack_files in *; by rewrite <- Ep|].
      pose proof Hb as [h ->]%pack_files_spec. apply Hw, Hnew, meta_blobs_split. by right.
    + intros pending [= <-] m b Hm Hb [_ Hno]%collect_garbage_ok. apply Hno. exists m. split; [done|]. apply meta_blobs_split. by right.
  - pose proof (sr_pending s Hs _ _ Hi) as Hp. eapply serial_step; [done|done|done| |done|].
    + intros m b Hm Hb. apply elem_of_difference. split; [by eapply Hpacks|]. intros ->%elem_of_singleton. apply (Hp m blob Hm Hb). left.
    + intros p [= <-] m b Hm Hb Hin. apply (Hp m b Hm Hb). by right.
  - pose proof (sr_pending s Hs _ _ Hi) as Hp. eapply serial_step; [done|done|done|done|done|]. intros p [= <-] m b Hm Hb Hin. apply (Hp m b Hm Hb). by right.
  - destruct phase as [e o w|p|]; [by eapply serial_step|by eapply serial_step|]. destruct Hs as [H1 H2 H3 H4]. unfold set_run. rewrite insert_id by done. by split.
Qed.
End invariant.

(** ** Properties *)

(** An index that no run is working on, with every blob that its root names. *)
Record quiescent (s : Shared) : Prop := {
  q_runs : sh_runs s = ∅;
  q_ids : forall id, id ∈ sh_born s -> length id = 64%nat;
  q_root : forall m, m ∈ default [] (sh_root s) -> seg_id m ∈ sh_born s /\ forall blob, blob ∈ meta_blobs m -> blob ∈ sh_blobs s;
}.

(** C8: Concurrent index runs never leave a root that lacks a file of one of its
    segments.  From an index where nothing runs, whatever runs start, draw ids,
    put and discard files, swap the root, delete what it no longer references,
    fail or are killed, and however their steps interleave: the dictionary, the
    postings, the tables and the dead set of every segment of the root are in the
    store.  When the runs do not overlap, so are its packs. *)
Theorem index_runs_safe dead_size s0 s :
  quiescent s0 ->
  (rtc (step dead_size any_time) s0 s -> forall m, m ∈ default [] (sh_root s) -> forall blob, blob ∈ own_files m -> blob ∈ sh_blobs s) /\
  (rtc (step dead_size when_idle) s0 s -> forall m, m ∈ default [] (sh_root s) -> forall blob, blob ∈ meta_blobs m -> blob ∈ sh_blobs s).
Proof.
  intros [Hruns Hids Hroot].
  assert (holds dead_size s0) as H0.
  { split; [done| |by rewrite Hruns; intros i e o w ?%lookup_empty_Some|by rewrite Hruns; intros i p ?%lookup_empty_Some].
    intros m Hm. destruct (Hroot m Hm) as [? Hf]. split; [done|]. intros blob Hb. apply Hf. rewrite meta_blobs_split. by left. }
  assert (serial_holds s0) as S0.
  { split; rewrite ?Hruns; [by intros i j p q ?%lookup_empty_Some| |by intros i e o w ?%lookup_empty_Some|by intros i p ?%lookup_empty_Some].
    intros m blob Hm Hb. destruct (Hroot m Hm) as [_ Hf]. apply Hf. rewrite meta_blobs_split. by right. }
  assert (forall may_load, rtc (step dead_size may_load) s0 s -> holds dead_size s) as Hall.
  { intros may_load Hsteps. clear -Hsteps H0. induction Hsteps as [|s1 s2 s3 Hstep _ IH]; [done|]. apply IH. by eapply step_holds. }
  split; intros Hsteps m Hm blob Hb; [by apply (h_root dead_size s (Hall _ Hsteps) m Hm)|].
  apply meta_blobs_split in Hb as [Hb|Hb]; [by apply (h_root dead_size s (Hall _ Hsteps) m Hm)|].
  assert (serial_holds s) as Hser.
  { revert S0 H0. clear -Hsteps. intros S0 H0. induction Hsteps as [|s1 s2 s3 Hstep _ IH]; [done|].
    apply IH; [by eapply step_serial|by eapply step_holds]. }
  by eapply (sr_packs s Hser).
Qed.

(** ** Overlapping runs can lose a pack *)

Definition demo_segment_at (id : N) : SegmentMeta := {|
  seg_id := replicate 64 id; seg_doc_count := 1; SegmentList.block_count := 1; terms_fst_len := 1; terms_fst_hash := []; terms_tail_hash := [];
  postings_len := 1; postings_hash := []; postings_data_len := 1; postings_tail_hash := []; docs_len := 1; docs_hash := []; min_key := []; max_key := [];
  dead_hash := []; dead_len := 0; failed_source_count := 0; seg_packs := [{| pm_hash := [7]; pm_len := 9 |}] |}.
Definition race_start : Shared := {| sh_root := Some [demo_segment_at 97]; sh_blobs := list_to_set (meta_blobs (demo_segment_at 97)); sh_born := {[replicate 64 97]}; sh_runs := ∅ |}.
Lemma quiescent_race_start : quiescent race_start.
Proof.
  split; [done| |].
  - intros id Hid. unfold race_start in Hid. cbn [sh_born] in Hid. by apply elem_of_singleton in Hid as ->.
  - intros m ->%list_elem_of_singleton. split; [set_solver|]. intros blob Hb. by apply elem_of_list_to_set.
Qed.

(** The packs and the files of a segment, put one after the other. *)
Lemma put_steps dead_size may_load i expected owned blobs root born :
  (forall blob, blob ∈ blobs -> may_put dead_size expected owned blob) -> forall runs present written,
  rtc (step dead_size may_load) {| sh_root := root; sh_blobs := present; sh_born := born; sh_runs := <[i := Working expected owned written]> runs |}
    {| sh_root := root; sh_blobs := list_to_set blobs ∪ present; sh_born := born; sh_runs := <[i := Working expected owned (list_to_set blobs ∪ written)]> runs |}.
Proof.
  intros Hput runs. induction blobs as [|blob blobs IH]; intros present written.
  - rewrite list_to_set_nil. rewrite !(union_empty_l_L (C := gset (list N))). apply rtc_refl.
  - eapply rtc_l.
    + eapply (step_put dead_size may_load _ i _ _ _ blob); [apply lookup_insert_eq|apply Hput; by left].
    + unfold set_run. cbn [sh_root sh_blobs sh_born sh_runs]. rewrite insert_insert_eq.
      replace (list_to_set (blob :: blobs) ∪ present) with (list_to_set blobs ∪ ({[blob]} ∪ present) : gset (list N)) by set_solver.
      replace (list_to_set (blob :: blobs) ∪ written) with (list_to_set blobs ∪ ({[blob]} ∪ written) : gset (list N)) by set_solver.
      apply IH. intros b Hb. apply Hput. by right.
Qed.

Lemma race_garbage : collect_garbage [demo_segment_at 97] [] = (segment_blob (replicate 64 97) <$> SEGMENT_FILES) ++ [pack_blob [7]].
Proof. by vm_compute. Qed.

(** The first run has dropped the only segment; the second one builds another
    segment with the same pack and publishes it; the first run then deletes. *)
Lemma race_execution : exists s, rtc (step (fun _ => 0) any_time) race_start s /\ sh_root s = Some [demo_segment_at 98] /\ pack_blob [7] ∉ sh_blobs s.
Proof.
  eexists. split.
  - eapply rtc_l; [apply (step_load _ _ _ 1); [done|reflexivity]|].
    eapply rtc_l; [eapply (step_publish _ _ _ 1 _ _ _ [demo_segment_at 97] []); [apply lookup_insert_eq|reflexivity| |]|].
    { by intros m ?%elem_of_nil. }
    { intros m ->%list_elem_of_singleton. split; [left; exists (demo_segment_at 97); split; [by left|]; split; [done|]; split; [done|by left]|by intros new ?%elem_of_nil]. }
    eapply rtc_l; [apply (step_load _ _ _ 2); [done|reflexivity]|].
    eapply rtc_l; [eapply (step_draw _ _ _ 2 _ _ _ (replicate 64 98)); [apply lookup_insert_eq|done|cbn; set_solver]|].
    etransitivity; [unfold set_run; cbn [sh_root sh_blobs sh_born sh_runs]; apply (put_steps _ _ _ _ _ (meta_blobs (demo_segment_at 98)))|].
    { intros blob Hb. apply meta_blobs_split in Hb as [(name & -> & _)%own_files_spec|Hb]; [|left; by apply pack_files_spec in Hb].
      right. left. exists (replicate 64 98), name. split; [set_solver|done]. }
    eapply rtc_l; [eapply (step_publish _ _ _ 2 _ _ _ [] [demo_segment_at 98]); [apply lookup_insert_eq|reflexivity| |by intros m ?%elem_of_nil]|].
    { intros m ->%list_elem_of_singleton. right. split; [set_solver|]. intros blob Hb. apply elem_of_union_l. by apply elem_of_list_to_set. }
    rewrite race_garbage.
    do 4 (eapply rtc_l; [eapply (step_delete _ _ _ 1); reflexivity|]).
    apply rtc_refl.
  - cbn [sh_root sh_blobs]. split; [done|]. set_solver.
Qed.

(** A pack of a segment that one run drops is deleted although another run, that
    has the same pack, has published it again: the deletion comes after the swap
    of the root of the first run, and the second run may do all of its work in
    between. *)
Lemma overlapping_runs_lose_pack : exists s, rtc (step (fun _ => 0) any_time) race_start s /\
  exists m blob, m ∈ default [] (sh_root s) /\ blob ∈ pack_files m /\ blob ∉ sh_blobs s.
Proof.
  destruct race_execution as (s & Hsteps & Hroot & Hpack). exists s. split; [done|]. rewrite Hroot.
  exists (demo_segment_at 98), (pack_blob [7]). split; [by left|]. split; [by left|done].
Qed.

Lemma index_runs_safe_witness : exists s, rtc (step (fun _ => 0) any_time) race_start s /\ sh_root s = Some [demo_segment_at 98] /\
  forall m, m ∈ default [] (sh_root s) -> forall blob, blob ∈ own_files m -> blob ∈ sh_blobs s.
Proof.
  destruct race_execution as (s & Hsteps & Hroot & _). exists s. split; [done|]. split; [done|].
  apply (index_runs_safe (fun _ => 0) race_start s quiescent_race_start). exact Hsteps.
Defined.
