(* ===== verification/Merge.v ===== *)
(** * Merging segments (crates/index/src/segment/compact.rs: merge_segments)

    The live sources of the segments are put in the order of their keys; the
    live documents are fetched from the packs of their segments, window by
    window, and packed again; and every posting list is rewritten with the new
    ids.  The merged segment has exactly the live documents, their bytes in its
    packs, and their postings in its runs. *)

From S2P Require Import Prelude BitPack Bytes Trigrams SparseGrams Eval Format Detect Candidate PackBuild PackRead PackBatch PackLines PackFetch SegmentList Runs RunWriter Build Compact.

(** A segment: its metadata and dead set, and what reading its files gives:
    [docs.bin]; the entries of [terms.fst] in the order of [visit] and the bytes
    of [postings.bin]. *)
Record Victim : Type := {
  vc_meta : SegmentMeta; vc_dead : DeadSet; vc_docs : res (list N); vc_index : res (list (list N * N * option N) * list N);
}.

(** [MergedSource]: a live source with its live documents, each with its id in
    the segment. *)
Record MergedSource : Type := { ms_source : SourceEntry; ms_documents : list (DocEntry * N); ms_segment : N }.

(** A document of the merged segment, until it is packed, with where it comes from. *)
Definition MergedDocument : Type := option DocEntry * N * N.

Definition set_range (first count : N) (s : SourceEntry) : SourceEntry := {|
  key := key s; version := version s; encoded_size := encoded_size s; encoding := encoding s;
  first_doc := first; doc_count := count; failed := failed s; retry := retry s |}.
Definition set_source (source : N) (d : DocEntry) : DocEntry := {|
  display_key := display_key d; source_id := source; member_path := member_path d; decoded_size := decoded_size d;
  first_block := first_block d; block_offset := block_offset d; max_line_len := max_line_len d; block_newlines := block_newlines d |}.
Definition set_slice (slice : PackSlice) (d : DocEntry) : DocEntry := {|
  display_key := display_key d; source_id := source_id d; member_path := member_path d; decoded_size := decoded_size d;
  first_block := ps_first_block slice; block_offset := ps_block_offset slice; max_line_len := max_line_len d; block_newlines := block_newlines d |}.

(** ** The live sources *)

Definition keep_document (dead : DeadSet) (start : N) (entry : N * DocEntry) : option (DocEntry * N) :=
  let old_id := start + entry.1 in
  if old_id <? U32 then if binary_search old_id (dead_documents dead) then None else Some (entry.2, old_id) else None.

Definition keep_source (loaded : SegmentTables) (dead : DeadSet) (seg_idx : N) (out : list MergedSource) (entry : N * SourceEntry)
    : res (list MergedSource) :=
  let '(source_id, source) := entry in
  if binary_search (source_id mod U32) (dead_sources dead) then Ok out
  else
    let start := first_doc source in
    documents ← expect (get_range (documents loaded) start (start + doc_count source)) "range out of bounds";
    Ok (out ++ [{| ms_source := source; ms_documents := omap (keep_document dead start) (enumerate documents); ms_segment := seg_idx |}]).

Record Loading : Type := { ld_remaps : list (list (option N)); ld_entries : list MergedSource; ld_tables : list SegmentTables }.

Definition load_victim (decode_tables : list N -> option SegmentTables) (s : Loading) (entry : N * Victim) : res Loading :=
  let '(seg_idx, victim) := entry in
  bytes ← vc_docs victim;
  loaded ← parse_tables decode_tables bytes;
  validate_segment_tables (vc_meta victim) loaded;;
  entries ← foldM (keep_source loaded (vc_dead victim) seg_idx) (ld_entries s) (enumerate (sources loaded));
  Ok {| ld_remaps := ld_remaps s ++ [replicate (length (documents loaded)) None]; ld_entries := entries; ld_tables := ld_tables s ++ [loaded] |}.

(** Giving a source and its documents their places. *)
Definition place_source (s : list SourceEntry * list MergedDocument) (entry : MergedSource) : res (list SourceEntry * list MergedDocument) :=
  let '(sources_, merged) := s in
  source_id ← to_u32 (len sources_);
  first ← to_u32 (len merged);
  count ← to_u32 (len (ms_documents entry));
  Ok (sources_ ++ [set_range first count (ms_source entry)],
      merged ++ ((fun '(document, old_id) => (Some (set_source source_id document), old_id, ms_segment entry)) <$> ms_documents entry)).

Definition merge_request (entry : N * MergedDocument) : res PackRequest :=
  document ← expect entry.2.1.1 "document exists";
  Ok {| rq_index := entry.1; rq_slice := {| ps_first_block := first_block document; ps_block_offset := block_offset document |}; rq_size := decoded_size document |}.

(** ** Fetching and packing a window *)

(** The closure of [fetch_documents]; the state is [fetched]. *)
Definition place_fetched (window_start index : N) (document : FetchedDocument) : ST (list (option (list N))) unit := fun fetched =>
  match document with
  | Whole body =>
      match checked_sub index window_start with
      | Some slot =>
          match get fetched slot with
          | Some old => (match old with None => Ok tt | Some _ => Err "compaction document was fetched twice" end, <[N.to_nat slot := Some body]> fetched)
          | None => (Err "compaction document is outside its fetch window", fetched)
          end
      | None => (Err "compaction document is outside its fetch window", fetched)
      end
  | Regions _ _ => (Ok tt, fetched)
  end.

Record MergeState : Type := {
  mg_merged : list MergedDocument; mg_builder : PackBuilder; mg_remaps : list (list (option N)); mg_documents : list DocEntry;
}.

Section merge.
Context {W : Type} (io : Io W) (compress : list N -> res (list N)) (decompress : list N -> N -> res (list N)) (sha256 : list N -> list N).
Context (decode_tables : list N -> option SegmentTables) (strategy : Strategy).

Definition select_request (merged : list MergedDocument) (seg_idx : N) (out : list PackRequest) (request : PackRequest) : res (list PackRequest) :=
  document ← expect (get merged (rq_index request)) "index out of bounds";
  Ok (if document.2 =? seg_idx then out ++ [request] else out).

(** The documents of one segment in a window. *)
Definition fetch_segment (merged : list MergedDocument) (window_start : N) (requests : list PackRequest) (entry : N * (Victim * SegmentTables))
    : ST (W * list (option (list N))) unit :=
  let '(seg_idx, (victim, loaded)) := entry in
  selected ← lift (foldM (select_request merged seg_idx) [] requests);
  match selected with
  | [] => mret tt
  | _ => fun s =>
      let '(r, ((w, _), fetched)) := fetch_documents io decompress sha256 false (seg_packs (vc_meta victim)) (blocks loaded)
        (place_fetched window_start) selected ((s.1, empty_batch), s.2) in
      (r, (w, fetched))
  end.

(** One document of a window is packed; its body is taken from [fetched]. *)
Definition pack_document (fetched : list (option (list N))) (window_start : N) (st : MergeState) (index : N) : res MergeState :=
  slot ← expect (get fetched (index - window_start)) "index out of bounds";
  body ← with_context slot "compaction did not fetch every live document";
  '(document, old_id, seg_idx) ← expect (get (mg_merged st) index) "index out of bounds";
  document ← with_context document "compaction document was reused";
  '(builder, slice) ← append compress sha256 (mg_builder st) body (decoded_size document);
  new_id ← to_u32 (len (mg_documents st));
  remap ← expect (get (mg_remaps st) seg_idx) "index out of bounds";
  _ ← expect (get remap old_id) "index out of bounds";
  Ok {| mg_merged := <[N.to_nat index := (None, old_id, seg_idx)]> (mg_merged st); mg_builder := builder;
        mg_remaps := <[N.to_nat seg_idx := <[N.to_nat old_id := Some new_id]> remap]> (mg_remaps st);
        mg_documents := mg_documents st ++ [set_slice slice document] |}.

Definition merge_window (victims : list (Victim * SegmentTables)) (requests : list PackRequest) (st : MergeState) (window : N * N) : ST W MergeState :=
  selected ← lift (expect (get_range requests window.1 window.2) "range out of bounds");
  fetched ← (fun w =>
    let '(r, (w, fetched)) := forS (fetch_segment (mg_merged st) window.1 selected) (enumerate victims) (w, replicate (N.to_nat (window.2 - window.1)) None) in
    (_ ← r; Ok fetched, w));
  lift (foldM (pack_document fetched window.1) st (range window.1 window.2)).

(** ** The merged segment *)

Record Merged : Type := { md_runs : list (list N); md_tables : SegmentTables; md_packs : list PackFile }.

Definition merge_run (new_bases : list N) (entry : (Victim * SegmentTables) * list (option N)) : res (list N) :=
  let '((victim, old_tables), remap) := entry in
  '(entries, postings) ← vc_index victim;
  write_compaction_run strategy (vc_meta victim) entries postings old_tables new_bases remap.

(** [merge_segments], up to the merge of the runs and the writing of the blobs
    by [merge_and_put_segment]. *)
Definition merge_segments (victims : list Victim) : ST W Merged :=
  loading ← lift (foldM (load_victim decode_tables) {| ld_remaps := []; ld_entries := []; ld_tables := [] |} (enumerate victims));
  '(sources_, merged) ← lift (foldM place_source ([], []) (sort_by_key (fun entry => key (ms_source entry)) (ld_entries loading)));
  requests ← lift (mapM_res merge_request (enumerate merged));
  builder ← lift production;
  st ← foldS (merge_window (zip victims (ld_tables loading)) requests)
    {| mg_merged := merged; mg_builder := builder; mg_remaps := ld_remaps loading; mg_documents := [] |} (request_windows requests);
  packed ← lift (PackBuild.finish compress sha256 (mg_builder st));
  let tables := {| sources := sources_; documents := mg_documents st; blocks := built_blocks packed |} in
  _ ← lift (validate tables);
  new_bases ← lift (match strategy with Trigram => build_block_bases tables | Sparse => Ok [] end);
  runs ← lift (mapM_res (merge_run new_bases) (zip (zip victims (ld_tables loading)) (mg_remaps st)));
  mret {| md_runs := runs; md_tables := tables; md_packs := built_packs packed |}.
End merge.

(** ** The live documents *)

(** What stays of a source and of a document: all but its place. *)
Definition same_source (old new : SourceEntry) : Prop := exists first count, new = set_range first count old.
Definition same_document (old new : DocEntry) : Prop := exists source slice, new = set_slice slice (set_source source old).

Definition located_documents (m : MergedSource) : list ((N * N) * DocEntry) := (fun e => ((ms_segment m, e.2), e.1)) <$> ms_documents m.
Definition all_documents (entries : list MergedSource) : list ((N * N) * DocEntry) := entries ≫= located_documents.

(** A live document of a segment, by segment and id, and a live source. *)
Definition live_at (vs : list (Victim * SegmentTables)) (place : N * N) (d : DocEntry) : Prop :=
  exists v t, get vs place.1 = Some (v, t) /\ get (documents t) place.2 = Some d /\
    (source_id d ∉ dead_sources (vc_dead v)) /\ place.2 ∉ dead_documents (vc_dead v).
Definition live_source_at (vs : list (Victim * SegmentTables)) (s : SourceEntry) : Prop :=
  exists seg v t i, get vs seg = Some (v, t) /\ get (sources t) i = Some s /\ i ∉ dead_sources (vc_dead v).

Lemma elem_of_all_documents entries p d :
  (p, d) ∈ all_documents entries <-> exists m, m ∈ entries /\ p.1 = ms_segment m /\ (d, p.2) ∈ ms_documents m.
Proof.
  unfold all_documents, located_documents. rewrite list_elem_of_bind. split.
  - intros (m & ([d' old] & [= -> ->] & Hd)%list_elem_of_fmap & Hm). by exists m.
  - intros (m & Hm & Hp & Hd). exists m. split; [|done]. apply list_elem_of_fmap. exists (d, p.2). destruct p. cbn in *. by subst.
Qed.

(** *** One segment *)

Section load.
Context (loaded : SegmentTables) (dead : DeadSet) (seg : N).
Context (Hwf : well_formed loaded) (Hdocs : len (documents loaded) < U32) (Hsources : len (sources loaded) < U32).

Definition live_entry (entry : N * SourceEntry) : option MergedSource :=
  if binary_search entry.1 (dead_sources dead) then None
  else Some {| ms_source := entry.2; ms_segment := seg;
    ms_documents := omap (keep_document dead (first_doc entry.2)) (enumerate (cut (documents loaded) (first_doc entry.2) (first_doc entry.2 + doc_count entry.2))) |}.

Lemma live_sources_ok l out :
  (forall i s, (i, s) ∈ l -> get (sources loaded) i = Some s) ->
  foldM (keep_source loaded dead seg) out l = Ok (out ++ omap live_entry l).
Proof.
  revert out. induction l as [|[i s] l IH]; intros out Hl; cbn [foldM omap list_omap]; [by rewrite app_nil_r|].
  assert (get (sources loaded) i = Some s) as Hs by (apply Hl; left). pose proof (get_Some_lt _ _ _ Hs).
  unfold keep_source at 2, live_entry at 1. cbn [fst snd]. rewrite N.mod_small by lia.
  destruct (binary_search i (dead_sources dead)); cbn [mbind res_bind]; [apply IH; intros; apply Hl; by right|].
  destruct (source_range loaded Hwf Hdocs i s Hs) as [Hb _]. rewrite cut_get_range by lia. cbn [expect mbind res_bind].
  rewrite IH by (intros; apply Hl; by right). by rewrite <- app_assoc.
Qed.

Lemma kept_document s i d old :
  get (sources loaded) i = Some s ->
  (d, old) ∈ omap (keep_document dead (first_doc s)) (enumerate (cut (documents loaded) (first_doc s) (first_doc s + doc_count s))) <->
  get (documents loaded) old = Some d /\ source_id d = i /\ old ∉ dead_documents dead.
Proof.
  intros Hs. destruct (source_range loaded Hwf Hdocs i s Hs) as [Hb Hr]. rewrite list_elem_of_omap. unfold keep_document.
  assert (get_range (documents loaded) (first_doc s) (first_doc s + doc_count s) = Some (cut (documents loaded) (first_doc s) (first_doc s + doc_count s))) as Hcut by (apply cut_get_range; lia). split.
  - intros ([j x] & Hj%elem_of_enumerate & E). cbn [fst snd] in E. destruct (first_doc s + j <? U32); [|done].
    unfold binary_search in E. case_bool_decide as Hd; [done|]. injection E as -> <-.
    apply (get_range_get _ _ _ _ _ _ Hcut) in Hj as [Hj Hg]. split; [done|]. split; [|done].
    destruct (proj1 (Hr (first_doc s + j)) ltac:(lia)) as (d' & Hd' & <-). by rewrite Hg in Hd'; injection Hd' as ->.
  - intros (Hg & Hi & Hd). assert (first_doc s <= old < first_doc s + doc_count s) as Ho by (apply Hr; by exists d).
    exists (old - first_doc s, d). split.
    + apply elem_of_enumerate, (get_range_get _ _ _ _ _ _ Hcut). split; [lia|]. rewrite <- Hg. f_equal. lia.
    + cbn [fst snd]. replace (first_doc s + (old - first_doc s)) with old by lia. apply get_Some_lt in Hg. destruct (N.ltb_spec old U32); [|lia].
      unfold binary_search. by rewrite bool_decide_eq_false_2.
Qed.

Lemma kept_nodup start (l : list DocEntry) : NoDup (omap (keep_document dead start) (enumerate l)).*2.
Proof.
  assert (forall k, Forall (fun old => start + N.of_nat k <= old) (omap (keep_document dead start) (imap (fun i x => (N.of_nat (k + i), x)) l)).*2 /\
    NoDup (omap (keep_document dead start) (imap (fun i x => (N.of_nat (k + i), x)) l)).*2) as H; [|exact (proj2 (H 0%nat))].
  induction l as [|x l IH]; intros k; [split; constructor|]. rewrite imap_cons. cbn [omap list_omap].
  assert (imap ((fun (i : nat) y => (N.of_nat (k + i), y)) ∘ S) l = imap (fun i y => (N.of_nat (S k + i), y)) l) as -> by (apply imap_ext; intros; cbn; do 2 f_equal; lia).
  destruct (IH (S k)) as [H1 H2]. assert (Forall (fun old => start + N.of_nat k < old) (omap (keep_document dead start) (imap (fun i y => (N.of_nat (S k + i), y)) l)).*2) as H3
    by (eapply Forall_impl; [exact H1|cbn; lia]).
  assert (Forall (fun old => start + N.of_nat k <= old) (omap (keep_document dead start) (imap (fun i y => (N.of_nat (S k + i), y)) l)).*2) as H4
    by (eapply Forall_impl; [exact H1|cbn; lia]).
  destruct (keep_document dead start (N.of_nat (k + 0), x)) as [[d old]|] eqn:E; [|by split].
  assert (old = start + N.of_nat k) as ->.
  { unfold keep_document in E. cbn [fst snd] in E. destruct (_ <? U32); [|done]. destruct (binary_search _ _); [done|]. injection E as _ <-. lia. }
  cbn [fmap list_fmap snd]. split; [constructor; [lia|done]|]. constructor; [|done]. intros Hin. rewrite Forall_forall in H3. specialize (H3 _ Hin). lia.
Qed.
End load.

Lemma NoDup_bind_key {A B K} (f : A -> list B) (ka : A -> K) (kb : B -> K) l :
  NoDup (ka <$> l) -> (forall x, x ∈ l -> NoDup (f x)) -> (forall x y, x ∈ l -> y ∈ f x -> kb y = ka x) -> NoDup (l ≫= f).
Proof.
  induction l as [|x l IH]; intros Hl Hf Hk; cbn [mbind list_bind]; [constructor|]. cbn [fmap list_fmap] in Hl. apply NoDup_cons in Hl as [Hx Hl].
  apply NoDup_app. split; [apply Hf; left|]. split.
  - intros y Hy (z & Hyz & Hz)%list_elem_of_bind. apply Hx. rewrite <- (Hk x y) by (done || left). rewrite (Hk z y) by (done || by right). by apply list_elem_of_fmap_2.
  - apply IH; [done|intros; apply Hf; by right|intros; apply Hk; [by right|done]].
Qed.

Definition places_of (m : MergedSource) : list (N * N) := pair (ms_segment m) <$> (ms_documents m).*2.
Lemma all_places entries : (all_documents entries).*1 = entries ≫= places_of.
Proof.
  unfold all_documents. induction entries as [|m entries IH]; [done|]. cbn [mbind list_bind]. rewrite fmap_app, IH. f_equal.
  unfold located_documents, places_of. by rewrite <- !list_fmap_compose.
Qed.

Section segment.
Context (loaded : SegmentTables) (dead : DeadSet) (seg : N).
Context (Hwf : well_formed loaded) (Hdocs : len (documents loaded) < U32) (Hsources : len (sources loaded) < U32).

Abbreviation live_entries := (omap (live_entry loaded dead seg) (enumerate (sources loaded))).

Lemma elem_of_kept_entries m :
  m ∈ live_entries <-> exists i s, get (sources loaded) i = Some s /\ (i ∉ dead_sources dead) /\ live_entry loaded dead seg (i, s) = Some m.
Proof.
  rewrite list_elem_of_omap. split.
  - intros ([i s] & Hi%elem_of_enumerate & E). exists i, s. split; [done|]. split; [|done]. unfold live_entry, binary_search in E. by case_bool_decide.
  - intros (i & s & Hi & _ & E). exists (i, s). split; [by apply elem_of_enumerate|done].
Qed.

Lemma live_entries_documents p d :
  (p, d) ∈ all_documents live_entries <-> p.1 = seg /\ get (documents loaded) p.2 = Some d /\ (source_id d ∉ dead_sources dead) /\ p.2 ∉ dead_documents dead.
Proof.
  rewrite elem_of_all_documents. setoid_rewrite elem_of_kept_entries. split.
  - intros (m & (i & s & Hi & Hd & E) & Hp & Hin). unfold live_entry, binary_search in E. case_bool_decide; [done|]. injection E as <-. cbn [ms_segment ms_documents fst snd] in *.
    apply (kept_document loaded dead Hwf Hdocs Hsources s i) in Hin as (Hg & <- & Ho); done.
  - intros (Hp & Hg & Hs & Hd). destruct (wf_owner _ Hwf p.2 d Hg) as (s & Hi & _). destruct (live_entry loaded dead seg (source_id d, s)) as [m|] eqn:E.
    2: { unfold live_entry, binary_search in E. cbn [fst] in E. by case_bool_decide. }
    exists m. split; [by exists (source_id d), s|]. unfold live_entry in E. cbn [fst snd] in E. destruct (binary_search _ _); [done|]. injection E as <-. cbn [ms_segment ms_documents].
    split; [done|]. by apply (kept_document loaded dead Hwf Hdocs Hsources s (source_id d)).
Qed.

Lemma live_entries_keys : sublist (key <$> (ms_source <$> live_entries)) (key <$> sources loaded).
Proof.
  rewrite <- (enumerate_snd (sources loaded)) at 2. induction (enumerate (sources loaded)) as [|[i s] l IH]; [constructor|]. cbn [omap list_omap fmap list_fmap snd].
  unfold live_entry at 1. cbn [fst snd]. destruct (binary_search i (dead_sources dead)); [by apply sublist_cons|]. cbn [fmap list_fmap ms_source]. by apply sublist_skip.
Qed.

Lemma live_entries_nodup : NoDup (all_documents live_entries).*1.
Proof.
  rewrite all_places. apply (NoDup_bind_key _ (fun m => Some (key (ms_source m))) (fun p => d ← get (documents loaded) p.2; s ← get (sources loaded) (source_id d); Some (key s))).
  - assert (NoDup (key <$> (ms_source <$> live_entries))) as H by (eapply sublist_NoDup; [apply ascending_keys_nodup; apply (wf_sources _ Hwf)|apply live_entries_keys]).
    rewrite <- list_fmap_compose in H. apply (NoDup_fmap_2 Some) in H. by rewrite <- list_fmap_compose in H.
  - intros m (i & s & Hi & Hd & E)%elem_of_kept_entries. unfold live_entry in E. cbn [fst snd] in E. destruct (binary_search _ _); [done|]. injection E as <-.
    unfold places_of. cbn [ms_segment ms_documents]. apply NoDup_fmap_2; [by intros ? ? [=]|eapply kept_nodup; eassumption].
  - intros m p (i & s & Hi & Hd & E)%elem_of_kept_entries Hp. unfold live_entry in E. cbn [fst snd] in E. destruct (binary_search _ _); [done|]. injection E as <-.
    unfold places_of in Hp. cbn [ms_segment ms_documents ms_source] in *. apply list_elem_of_fmap in Hp as (old & -> & ([d old'] & -> & Hin)%list_elem_of_fmap).
    cbn [snd]. apply (kept_document loaded dead Hwf Hdocs Hsources s i) in Hin as (-> & <- & _); [|done]. cbn. by rewrite Hi.
Qed.

Lemma live_entries_sources s : s ∈ ms_source <$> live_entries <-> exists i, get (sources loaded) i = Some s /\ i ∉ dead_sources dead.
Proof.
  rewrite list_elem_of_fmap. setoid_rewrite elem_of_kept_entries. split.
  - intros (m & -> & i & s0 & Hi & Hd & E). exists i. unfold live_entry in E. cbn [fst snd] in E. destruct (binary_search _ _); [done|]. by injection E as <-.
  - intros (i & Hi & Hd). eexists. split; [|exists i, s; split; [done|]; split; [done|]; unfold live_entry, binary_search; cbn [fst snd]; by rewrite bool_decide_eq_false_2]. done.
Qed.
End segment.

Lemma validate_segment_safe meta tables : safe (validate_segment_tables meta tables) (fun _ => True).
Proof.
  unfold validate_segment_tables. safe_next. intros [] _. safe_next. intros first _. safe_next. intros last_ _. safe_next. intros [] _. cbv zeta. safe_next. intros [] _.
  apply (foldM_safe (fun _ _ => True)); [done|]. intros pre [id pk] post [] _ _. safe_next. intros end_ _. eapply safe_weaken; [apply safe_ensure|done].
Qed.

(** ** Segments that can be merged *)

Section merging.
Context {W : Type} (io : Io W) (compress : list N -> res (list N)) (decompress : list N -> N -> res (list N)) (sha256 : list N -> list N).
Context `{!Codec compress decompress sha256} (decode_tables : list N -> option SegmentTables) (strategy : Strategy).
Context (radsort : list N -> list N) `{!SortsN radsort} (rapidhash_v3 : list N -> N).

(** A segment with some contents: its documents have their sizes, its packs hold
    them one after the other, and its dictionary has their postings. *)
Record holds_contents (v : Victim) (t : SegmentTables) (contents : list (list N)) : Prop := {
  hc_sizes : decoded_size <$> documents t = len <$> contents;
  hc_bytes : Forall (fun data => Forall is_byte data /\ len data < U64) contents;
  hc_space : space_holds strategy contents;
  hc_sources : len (sources t) < U32;
  hc_packs : exists files decoded honest, world_ok io decompress sha256 (seg_packs (vc_meta v)) (blocks t) files decoded honest /\
    concat decoded = concat contents /\ len (concat decoded) < 2 ^ 63 /\ len (blocks t) < U32;
  hc_index : forall entries postings, vc_index v = Ok (entries, postings) -> holds_postings radsort rapidhash_v3 strategy contents (vc_meta v) entries postings;
}.
Definition victim_ok (v : Victim) (contents : list (list N)) : Prop :=
  no_panic (vc_docs v) /\ no_panic (vc_index v) /\
  forall bytes t, vc_docs v = Ok bytes -> decode_tables bytes = Some t -> holds_contents v t contents.

Lemma holds_len v t contents : holds_contents v t contents -> len (documents t) = len contents /\ len (documents t) < U32.
Proof. intros [H _ [Hl _] _ _ _]. apply (f_equal length) in H. rewrite !length_fmap in H. unfold len in *. by rewrite H. Qed.

(** ** Loading *)

Record loading_holds (vs : list (Victim * SegmentTables)) (s : Loading) : Prop := {
  lh_tables : ld_tables s = vs.*2;
  lh_remaps : ld_remaps s = (fun vt => replicate (length (documents vt.2)) None) <$> vs;
  lh_documents : forall p d, (p, d) ∈ all_documents (ld_entries s) <-> live_at vs p d;
  lh_places : NoDup (all_documents (ld_entries s)).*1;
  lh_sources : forall s0, s0 ∈ ms_source <$> ld_entries s <-> live_source_at vs s0;
}.

(** The tables of a segment are those of its [docs.bin]. *)
Definition reads (v : Victim) (t : SegmentTables) : Prop := exists bytes, vc_docs v = Ok bytes /\ decode_tables bytes = Some t.
Definition victims_hold (vs : list (Victim * SegmentTables)) (contentss : list (list (list N))) : Prop :=
  Forall2 (fun vt contents => reads vt.1 vt.2 /\ well_formed vt.2 /\ holds_contents vt.1 vt.2 contents) vs contentss.

Lemma live_at_snoc vs v t p d :
  live_at (vs ++ [(v, t)]) p d <-> live_at vs p d \/
    p.1 = len vs /\ get (documents t) p.2 = Some d /\ (source_id d ∉ dead_sources (vc_dead v)) /\ p.2 ∉ dead_documents (vc_dead v).
Proof.
  unfold live_at. split.
  - intros (v' & t' & Hg & H). apply get_snoc_cases in Hg as [Hg|[Hg [= -> ->]]]; [left; by exists v', t'|by right].
  - intros [(v' & t' & Hg & H)|[Hp H]].
    + exists v', t'. split; [|exact H]. rewrite get_app_l; [exact Hg|by eapply get_Some_lt].
    + exists v, t. split; [|exact H]. rewrite Hp. apply get_middle.
Qed.
Lemma live_source_at_snoc vs v t s :
  live_source_at (vs ++ [(v, t)]) s <-> live_source_at vs s \/ exists i, get (sources t) i = Some s /\ i ∉ dead_sources (vc_dead v).
Proof.
  unfold live_source_at. split.
  - intros (seg & v' & t' & i & Hg & H). apply get_snoc_cases in Hg as [Hg|[Hg [= -> ->]]]; [left; by exists seg, v', t', i|right; by exists i].
  - intros [(seg & v' & t' & i & Hg & H)|[i H]].
    + exists seg, v', t', i. split; [|exact H]. rewrite get_app_l; [exact Hg|by eapply get_Some_lt].
    + exists (len vs), v, t, i. split; [apply get_middle|exact H].
Qed.

Lemma load_victim_ok vs s v contents :
  loading_holds vs s -> victim_ok v contents ->
  safe (load_victim decode_tables s (len vs, v)) (fun s' => exists t, reads v t /\ well_formed t /\ holds_contents v t contents /\ loading_holds (vs ++ [(v, t)]) s').
Proof.
  intros [Ht Hr Hd Hn Hs] (Hnp & _ & Hv). unfold load_victim. pose proof Hnp as Hdocs. unfold reads. destruct (vc_docs v) as [bytes|e|w]; [|left; by eexists|by destruct (Hdocs w)].
  cbn [mbind res_bind]. unfold parse_tables. destruct (decode_tables bytes) as [t|] eqn:Ed; cbn [with_context mbind res_bind]; [|left; by eexists].
  eapply (safe_bind _ _ (fun t' => t' = t /\ well_formed t)); [eapply safe_bind; [apply validate_safe|]; intros [] Hwf; by apply safe_ok|]. intros ? [-> Hwf].
  eapply safe_bind; [apply validate_segment_safe|]. intros [] _. pose proof (Hv bytes t eq_refl Ed) as Hc. destruct (holds_len _ _ _ Hc) as [_ Hlen].
  pose proof (hc_sources _ _ _ Hc) as Hsrc. rewrite (live_sources_ok t (vc_dead v) (len vs) Hwf Hlen Hsrc) by (intros i s0; apply elem_of_enumerate).
  cbn [mbind res_bind]. apply safe_ok. exists t. split; [by exists bytes|]. split; [done|]. split; [done|].
  assert (forall a b, all_documents (a ++ b) = all_documents a ++ all_documents b) as Happ by (intros; unfold all_documents; apply bind_app).
  split; cbn [ld_tables ld_remaps ld_entries].
  - by rewrite Ht, fmap_app.
  - by rewrite Hr, fmap_app.
  - intros p d. rewrite Happ, elem_of_app, Hd, live_at_snoc, live_entries_documents by done. done.
  - rewrite Happ, fmap_app. apply NoDup_app. split; [done|]. split; [|by apply live_entries_nodup].
    intros p ([p1 d1] & -> & H1)%list_elem_of_fmap ([p2 d2] & E & H2)%list_elem_of_fmap. cbn [fst] in *. subst p2.
    apply Hd in H1 as (v1 & t1 & Hg & _). apply live_entries_documents in H2 as [Hp _]; [|done..]. apply get_Some_lt in Hg. lia.
  - intros s0. rewrite fmap_app, elem_of_app, Hs, live_source_at_snoc, live_entries_sources by done. done.
Qed.

Lemma load_victims_ok victims contentss :
  Forall2 victim_ok victims contentss ->
  safe (foldM (load_victim decode_tables) {| ld_remaps := []; ld_entries := []; ld_tables := [] |} (enumerate victims)) (fun s =>
    exists vs, vs.*1 = victims /\ victims_hold vs contentss /\ loading_holds vs s).
Proof.
  intros H. eapply safe_weaken.
  - apply (foldM_safe (fun pre s => exists vs, vs.*1 = pre.*2 /\ victims_hold vs (take (length pre) contentss) /\ loading_holds vs s)).
    + exists []. split; [done|]. split; [constructor|]. split; cbn; try done; [|constructor|].
      * intros p d. split; [by intros ?%elem_of_nil|]. intros (v & t & Hg & _). by apply get_Some_lt, N.nlt_0_r in Hg.
      * intros s0. split; [by intros ?%elem_of_nil|]. intros (seg & v & t & i & Hg & _). by apply get_Some_lt, N.nlt_0_r in Hg.
    + intros pre [i v] post s Hsplit (vs & Evs & Hvs & Hs). apply enumerate_split in Hsplit as [Hi Hvic].
      assert (len vs = i) as <-. { apply (f_equal length) in Evs. rewrite !length_fmap in Evs. rewrite Hi. unfold len. by rewrite Evs. }
      pose proof (f_equal (fun l => l !! length pre) Hvic) as Hget. cbn beta in Hget. rewrite lookup_app_r, length_fmap, Nat.sub_diag in Hget by by rewrite length_fmap. cbn in Hget.
      destruct (Forall2_lookup_l _ _ _ _ _ H Hget) as (contents & Hc & Hv).
      eapply safe_weaken; [by apply load_victim_ok|]. intros s' (t & Hrd & Hwf & Hc' & Hs'). exists (vs ++ [(v, t)]). split; [by rewrite !fmap_app, Evs|]. split; [|done].
      rewrite length_app, Nat.add_1_r, (take_S_r _ _ contents) by done. apply Forall2_app; [done|]. constructor; [by split|constructor].
  - intros s (vs & Evs & Hvs & Hs). exists vs. rewrite enumerate_snd in Evs. split; [done|]. split; [|done].
    rewrite take_ge in Hvs; [done|]. apply Forall2_length in H. unfold enumerate. rewrite length_imap. lia.
Qed.

(** ** Placing *)

Definition place_document (p : N * N) (d : DocEntry) : MergedDocument := (Some d, p.2, p.1).

Lemma place_sources_ok es :
  safe (foldM place_source ([], []) es) (fun s => Forall2 same_source (ms_source <$> es) s.1 /\
    exists docs, s.2 = zip_with place_document (all_documents es).*1 docs /\ Forall2 (fun pd d => exists i, d = set_source i pd.2) (all_documents es) docs).
Proof.
  apply (foldM_safe (fun es s => Forall2 same_source (ms_source <$> es) s.1 /\
    exists docs, s.2 = zip_with place_document (all_documents es).*1 docs /\ Forall2 (fun pd d => exists i, d = set_source i pd.2) (all_documents es) docs)).
  { split; [constructor|]. exists []. split; [done|constructor]. }
  intros pre m post [sources_ merged] _ [Hs (docs & Em & Hdocs)]. cbn [fst snd] in *. unfold place_source.
  eapply safe_bind; [apply to_u32_safe|]. intros i _. eapply safe_bind; [apply to_u32_safe|]. intros first _. eapply safe_bind; [apply to_u32_safe|]. intros count _.
  apply safe_ok. cbn [fst snd]. split.
  - rewrite fmap_app. apply Forall2_app; [done|]. constructor; [by exists first, count|constructor].
  - exists (docs ++ (set_source i ∘ fst <$> ms_documents m)). assert (all_documents (pre ++ [m]) = all_documents pre ++ located_documents m) as ->.
    { unfold all_documents. rewrite bind_app. cbn. by rewrite app_nil_r. }
    split.
    + rewrite fmap_app, zip_with_app by (rewrite length_fmap; by eapply Forall2_length). rewrite <- Em. f_equal. unfold located_documents. clear.
      induction (ms_documents m) as [|[d old] l IH]; [done|]. cbn [fmap list_fmap zip_with fst snd]. f_equal. exact IH.
    + apply Forall2_app; [done|]. unfold located_documents. clear. induction (ms_documents m) as [|[d old] l IH]; [constructor|]. cbn [fmap list_fmap]. constructor; [by exists i|exact IH].
Qed.

Lemma merge_requests_ok places docs :
  length places = length docs ->
  mapM_res merge_request (enumerate (zip_with place_document places docs)) = Ok (imap (fun i d =>
    {| rq_index := N.of_nat i; rq_slice := {| ps_first_block := first_block d; ps_block_offset := block_offset d |}; rq_size := decoded_size d |}) docs).
Proof.
  intros Hl. apply mapM_res_ok, Forall2_same_length_lookup_2.
  { unfold enumerate. rewrite !length_imap, length_zip_with. lia. }
  intros i [j m] rq Hm Hr. unfold enumerate in Hm. rewrite list_lookup_imap in Hm. rewrite list_lookup_imap in Hr. apply fmap_Some in Hm as (m' & Hm & [= -> ->]).
  apply lookup_zip_with_Some in Hm as (p & d & -> & Hp & Hd). rewrite Hd in Hr. injection Hr as <-. done.
Qed.

(** ** Fetching and packing *)

Section windows.
Context (vs : list (Victim * SegmentTables)) (places : list (N * N)) (docs : list DocEntry) (contents : list (list N)).
Context (Hdocs : length docs = length places) (Hcontents : length contents = length places) (Hnodup : NoDup places).

Definition slice_of (d : DocEntry) : PackSlice := {| ps_first_block := first_block d; ps_block_offset := block_offset d |}.
Definition request_of (k : N) (d : DocEntry) : PackRequest := {| rq_index := k; rq_slice := slice_of d; rq_size := decoded_size d |}.
Definition requests_of : list PackRequest := imap (fun i d => request_of (N.of_nat i) d) docs.

Context (Hworlds : forall seg v t, get vs seg = Some (v, t) -> exists files decoded honest,
  world_ok io decompress sha256 (seg_packs (vc_meta v)) (blocks t) files decoded honest /\ len (concat decoded) < 2 ^ 63 /\ len (blocks t) < U32 /\
  forall k old d c, get places k = Some (seg, old) -> get docs k = Some d -> get contents k = Some c -> PackFetch.located (blocks t) decoded (slice_of d) (decoded_size d) c).
Context (Hsize : forall k d c, get docs k = Some d -> get contents k = Some c -> decoded_size d = len c).
Context (Hplaces : forall k seg old, get places k = Some (seg, old) -> exists v t, get vs seg = Some (v, t) /\ old < len (documents t)).

Lemma get_request k rq : get requests_of k = Some rq <-> exists d, get docs k = Some d /\ rq = request_of k d.
Proof.
  unfold requests_of, get. rewrite list_lookup_imap. rewrite N2Nat.id. destruct (docs !! N.to_nat k) as [d|]; cbn; [|split; [done|by intros (d & ? & _)]].
  split; [intros [= <-]; by exists d|by intros (d' & [= <-] & ->)].
Qed.

(** What a window has fetched so far. *)
Definition fetched_sound (a b : N) (fetched : list (option (list N))) : Prop :=
  len fetched = b - a /\ forall i c, get fetched i = Some (Some c) -> get contents (a + i) = Some c.

Lemma place_fetched_ok a b index c :
  get contents index = Some c -> triple (fetched_sound a b) (place_fetched a index (Whole c)) (fun _ => fetched_sound a b) (fun _ => True).
Proof.
  intros Hc fetched [Hl Hs]. unfold place_fetched, checked_sub. destruct (N.leb_spec a index); [|done].
  destruct (get fetched (index - a)) as [old|] eqn:E; [|done]. destruct old; [done|]. split; [by rewrite len_set|]. intros i x Hi.
  destruct (decide (i = index - a)) as [->|Hne].
  - rewrite get_set_eq in Hi by (by eapply get_Some_lt). injection Hi as <-. replace (a + (index - a)) with index by lia. done.
  - rewrite get_set_ne in Hi by done. by apply Hs.
Qed.

(** The requests of a window that belong to a segment, with their documents. *)
Definition wanted (seg : N) (rq : PackRequest) (c : list N) : Prop :=
  exists k old d, get places k = Some (seg, old) /\ get docs k = Some d /\ get contents k = Some c /\ rq = request_of k d.

Lemma select_requests_ok merged seg rs :
  (forall rq, rq ∈ rs -> exists k p d, rq = request_of k d /\ get merged k = Some (place_document p d) /\ get places k = Some p /\ get docs k = Some d) ->
  exists selected cs, foldM (select_request merged seg) [] rs = Ok selected /\ Forall2 (wanted seg) selected cs.
Proof.
  intros Hrs. cut (forall out cs0, Forall2 (wanted seg) out cs0 -> exists selected cs, foldM (select_request merged seg) out rs = Ok selected /\ Forall2 (wanted seg) selected cs);
    [intros H; by apply (H [] [])|].
  induction rs as [|rq rs IH]; intros out cs0 Hout; cbn [foldM]; [by exists out, cs0|].
  destruct (Hrs rq) as (k & p & d & -> & Hm & Hp & Hd); [left|]. unfold select_request at 2. cbn [rq_index request_of]. rewrite Hm. cbn [expect mbind res_bind].
  apply IH with (cs0 := if (place_document p d).2 =? seg then cs0 ++ [default [] (get contents k)] else cs0); [intros; apply Hrs; by right|].
  destruct (N.eqb_spec (place_document p d).2 seg) as [<-|_]; [|done]. apply Forall2_app; [done|]. constructor; [|constructor].
  destruct (get_is_Some contents k) as [c Hc]; [apply get_Some_lt in Hp; unfold len in *; lia|]. exists k, p.2, d. rewrite Hc. split; [|done]. rewrite Hp. by destruct p.
Qed.

Lemma fetch_segment_ok merged a b rs seg v t :
  get vs seg = Some (v, t) ->
  (forall rq, rq ∈ rs -> exists k p d, rq = request_of k d /\ get merged k = Some (place_document p d) /\ get places k = Some p /\ get docs k = Some d) ->
  triple (fun s => fetched_sound a b s.2) (fetch_segment io decompress sha256 merged a rs (seg, (v, t))) (fun _ s => fetched_sound a b s.2) (fun _ => True).
Proof.
  intros Hseg Hrs. destruct (select_requests_ok merged seg rs Hrs) as (selected & cs & E & Hsel). unfold fetch_segment.
  eapply (triple_bind _ _ _ (fun sel s => fetched_sound a b s.2 /\ sel = selected)).
  { intros s Hs. unfold lift. rewrite E. done. }
  intros sel. apply triple_pure. intros ->. destruct selected as [|rq0 selected]; [by intros s Hs|]. set (sel := rq0 :: selected) in *.
  destruct (Hworlds seg v t Hseg) as (files & decoded & honest & Hworld & Htotal & Hcount & Hloc).
  pose proof (fetch_documents_ok io decompress sha256 false (seg_packs (vc_meta v)) (blocks t) files decoded honest Hworld Htotal Hcount (place_fetched a)
    (fun _ => fetched_sound a b) (fun _ => True) (fun index document => exists c, document = Whole c /\ get contents index = Some c)
    ltac:(intros pre index document (c & -> & Hc); by apply place_fetched_ok) ltac:(done) sel cs) as H.
  intros [w fetched] Hs. cbn [fst snd] in *. specialize (H ltac:(eapply Forall2_impl; [exact Hsel|]; intros rq c (k & old & d & Hp & Hd & Hc & ->);
    split; [by eapply Hloc|by exists c]) ((w, empty_batch), fetched)).
  destruct (fetch_documents _ _ _ _ _ _ _ _ _) as [[[]|e|why] [[w' bt] fetched']]; cbn.
  - by destruct H as [_ H]; [split; [intros id x Hx|]|].
  - done.
  - apply H. by split; [intros id x Hx|].
Qed.

(** The state when the first [a] documents are packed. *)
Record merge_at (a : N) (st : MergeState) : Prop := {
  ma_bound : a <= U32;
  ma_merged : forall k, a <= k -> get (mg_merged st) k = get (zip_with place_document places docs) k;
  ma_packs : exists slices decoded, mg_documents st = zip_with set_slice slices (take (N.to_nat a) docs) /\ len slices = a /\
    placed_all PACK_BLOCK_BYTES (take (N.to_nat a) contents) slices /\ filling decompress sha256 (mg_builder st) decoded /\
    stream (mg_builder st) decoded = concat (take (N.to_nat a) contents);
  ma_sizes : block_bytes (mg_builder st) = PACK_BLOCK_BYTES /\ pack_bytes (mg_builder st) = PACK_TARGET_BYTES;
  ma_remaps : len (mg_remaps st) = len vs /\ forall seg v t r, get vs seg = Some (v, t) -> get (mg_remaps st) seg = Some r ->
    len r = len (documents t) /\ forall old i, get r old = Some (Some i) <-> i < a /\ get places i = Some (seg, old);
}.

Lemma get_take_next {A} (l : list A) k x : get l k = Some x -> take (N.to_nat (k + 1)) l = take (N.to_nat k) l ++ [x].
Proof. intros H. replace (N.to_nat (k + 1)) with (S (N.to_nat k)) by lia. by apply take_S_r. Qed.

Lemma get_zip_with {A B C} (f : A -> B -> C) l1 l2 k x y : get l1 k = Some x -> get l2 k = Some y -> get (zip_with f l1 l2) k = Some (f x y).
Proof. unfold get. intros. apply lookup_zip_with_Some. by exists x, y. Qed.

Lemma remaps_next k seg old v t r st :
  merge_at k st -> get places k = Some (seg, old) -> get vs seg = Some (v, t) -> get (mg_remaps st) seg = Some r -> old < len (documents t) ->
  forall seg' v' t' r', get vs seg' = Some (v', t') -> get (<[N.to_nat seg := <[N.to_nat old := Some k]> r]> (mg_remaps st)) seg' = Some r' ->
    len r' = len (documents t') /\ forall old' i, get r' old' = Some (Some i) <-> i < k + 1 /\ get places i = Some (seg', old').
Proof.
  intros [_ _ _ _ [Hl Hr]] Hp Hseg Hrm Hold seg' v' t' r' Hseg' Hr'. destruct (Hr seg v t r Hseg Hrm) as [Hlr Hiff].
  assert (forall i seg2 old2, get places i = Some (seg2, old2) -> i < k + 1 <-> i < k \/ i = k /\ (seg2, old2) = (seg, old)) as Hcase.
  { intros i seg2 old2 Hi. split; [|lia]. intros Hlt. destruct (decide (i = k)) as [->|]; [right; split; [done|congruence]|left; lia]. }
  assert (forall i, get places i = Some (seg, old) -> i = k) as Huniq.
  { intros i Hi. unfold get in Hi, Hp. pose proof (NoDup_lookup _ _ _ _ Hnodup Hi Hp). lia. }
  destruct (decide (seg' = seg)) as [->|Hne].
  - rewrite Hseg in Hseg'. injection Hseg' as <- <-. rewrite get_set_eq in Hr' by (by eapply get_Some_lt). injection Hr' as <-. rewrite len_set. split; [done|].
    intros old' i. destruct (decide (old' = old)) as [->|Hno].
    + rewrite get_set_eq by lia. split; [intros [= <-]; split; [lia|done]|]. intros [_ Hi]. by rewrite (Huniq i Hi).
    + rewrite get_set_ne by done. rewrite Hiff. split; intros [Hlt Hi]; (split; [|done]); [lia|].
      apply (Hcase i seg old' Hi) in Hlt as [|[-> E]]; [done|]. congruence.
  - rewrite get_set_ne in Hr' by done. destruct (Hr seg' v' t' r' Hseg' Hr') as [H1 H2]. split; [done|]. intros old' i. rewrite H2. split; intros [Hlt Hi]; (split; [|done]); [lia|].
    apply (Hcase i seg' old' Hi) in Hlt as [|[-> E]]; [done|]. congruence.
Qed.

Lemma pack_document_ok fetched a b k st :
  fetched_sound a b fetched -> a <= k < b -> k < len places -> merge_at k st ->
  safe (pack_document compress sha256 fetched a st k) (merge_at (k + 1)).
Proof.
  intros [Hfl Hfs] Hk Hkp Hst. destruct (get_is_Some fetched (k - a)) as [slot Hslot]; [lia|]. destruct (get_is_Some places k Hkp) as [[seg old] Hp].
  destruct (get_is_Some docs k) as [d Hd]; [unfold len in *; lia|]. destruct (Hplaces _ _ _ Hp) as (v & t & Hseg & Hold).
  pose proof Hst as [Hb Hm (slices & decoded & Edocs & Hls & Hpl & Hf & Hstream) [Hbb Hpb] [Hlr Hr]].
  destruct (get_is_Some (mg_remaps st) seg) as [r Hrm]; [rewrite Hlr; by eapply get_Some_lt|]. destruct (Hr seg v t r Hseg Hrm) as [Hlen _].
  unfold pack_document. rewrite Hslot. cbn [expect mbind res_bind]. destruct slot as [c|]; [|left; by eexists]. cbn [with_context mbind res_bind].
  specialize (Hfs _ _ Hslot). replace (a + (k - a)) with k in Hfs by lia. rewrite Hm by lia. rewrite (get_zip_with _ _ _ _ _ _ Hp Hd). cbn [place_document expect mbind res_bind with_context fst snd].
  rewrite (Hsize k d c Hd Hfs). eapply safe_bind; [by apply append_safe|]. intros [builder slice] (decoded' & Hf' & Hst' & Hbb' & Hpb' & Hslice).
  eapply safe_bind; [apply to_u32_safe|]. intros new_id [-> Hnew]. rewrite Hrm. cbn [expect mbind res_bind].
  destruct (get_is_Some r old) as [x Hx]; [lia|]. rewrite Hx. cbn [expect mbind res_bind]. apply safe_ok.
  assert (len (mg_documents st) = k) as Hlm by (rewrite Edocs; unfold len in *; rewrite length_zip_with, length_take; lia). rewrite Hlm in *.
  split; cbn [mg_merged mg_builder mg_remaps mg_documents].
  - lia.
  - intros j Hj. rewrite get_set_ne by lia. apply Hm. lia.
  - exists (slices ++ [slice]), decoded'. rewrite (get_take_next docs k d Hd), (get_take_next contents k c Hfs). split_and!.
    + rewrite Edocs, zip_with_app; [done|]. unfold len in *. rewrite length_take. lia.
    + rewrite len_app, Hls. done.
    + apply placed_all_snoc; [done|]. by rewrite <- Hbb, <- Hstream.
    + done.
    + rewrite Hst', Hstream, concat_app. cbn. by rewrite app_nil_r.
  - by rewrite Hbb', Hpb'.
  - split; [by rewrite len_set|]. by apply (remaps_next k seg old v t r st).
Qed.

Lemma merge_window_ok st a b :
  a <= b <= len places -> merge_at a st ->
  triple (fun _ => True) (merge_window io compress decompress sha256 vs requests_of st (a, b)) (fun st' _ => merge_at b st') (fun _ => True).
Proof.
  intros [Hab Hb] Hst. assert (len requests_of = len places) as Hlr by (unfold requests_of, len; rewrite length_imap; lia).
  unfold merge_window. cbn [fst snd]. destruct (get_range_is_Some requests_of a b) as [rs Hrs]; [lia|lia|].
  eapply (triple_bind _ _ _ (fun sel _ => sel = rs)); [intros w _; by rewrite Hrs|]. intros sel. apply triple_pre. intros w ->. cbv beta.
  assert (forall rq, rq ∈ rs -> exists k p d, rq = request_of k d /\ get (mg_merged st) k = Some (place_document p d) /\ get places k = Some p /\ get docs k = Some d) as Hrq.
  { intros rq [j Hj]%list_elem_of_lookup. assert (get rs (N.of_nat j) = Some rq) as Hg by (unfold get; by rewrite Nat2N.id).
    apply (get_range_get _ _ _ _ _ _ Hrs) in Hg as [Hlt Hg]. apply get_request in Hg as (d & Hd & ->). destruct (get_is_Some places (a + N.of_nat j)) as [p Hp]; [lia|].
    exists (a + N.of_nat j), p, d. split; [done|]. split; [|done]. rewrite (ma_merged _ _ Hst) by lia. by apply get_zip_with. }
  eapply (triple_bind _ _ _ (fun fetched _ => fetched_sound a b fetched)).
  - intros w' _.
    pose proof (triple_forS (fun _ (s : W * list (option (list N))) => fetched_sound a b s.2) (fetch_segment io decompress sha256 (mg_merged st) a rs) (enumerate vs) (fun _ => True)) as H.
    specialize (H ltac:(intros pre [seg [v t]] post Hsplit; apply fetch_segment_ok; [|done]; apply elem_of_enumerate; rewrite Hsplit; apply elem_of_app; right; left)).
    specialize (H (w', replicate (N.to_nat (b - a)) None)). cbn [snd] in H.
    destruct (forS _ _ _) as [[[]|e|why] [w'' fetched]]; cbn.
    + apply H. split; [unfold len; rewrite length_replicate; lia|]. intros i c Hi. unfold get in Hi. apply lookup_replicate in Hi as [? _]. done.
    + done.
    + apply H. split; [unfold len; rewrite length_replicate; lia|]. intros i c Hi. unfold get in Hi. apply lookup_replicate in Hi as [? _]. done.
  - intros fetched. apply triple_pre. intros w' Hf.
    assert (safe (foldM (pack_document compress sha256 fetched a) st (range a b)) (merge_at b)) as Hsafe.
    { eapply safe_weaken; [apply (foldM_safe (fun pre st' => merge_at (a + len pre) st'))|].
      - rewrite len_nil, N.add_0_r. exact Hst.
      - intros pre k post st' Hsplit Hst'. assert (k = a + len pre /\ k < b) as [-> Hlt].
        { pose proof (f_equal (fun l => l !! length pre) Hsplit) as E. cbn beta in E. rewrite list_lookup_middle in E by done.
          pose proof (len_range a b) as Hl. pose proof (lookup_lt_Some _ _ _ E). unfold len in *. rewrite range_lookup in E by lia. injection E as <-. lia. }
        rewrite len_app. change (len [a + len pre]) with 1. rewrite N.add_assoc. eapply pack_document_ok; [exact Hf|lia|lia|exact Hst'].
      - intros st'. rewrite len_range. replace (a + (b - a)) with b by lia. done. }
    intros w'' _. unfold lift. destruct Hsafe as [[e ->]|(st' & -> & H)]; done.
Qed.

Lemma merge_windows_ok st :
  merge_at 0 st ->
  triple (fun _ => True) (foldS (merge_window io compress decompress sha256 vs requests_of) st (request_windows requests_of))
    (fun st' _ => merge_at (len places) st') (fun _ => True).
Proof.
  assert (len requests_of = len places) as Hlr by (unfold requests_of, len; rewrite length_imap; lia).
  assert (forall windows a st, spans a windows (len places) -> a <= len places -> merge_at a st ->
    triple (fun _ => True) (foldS (merge_window io compress decompress sha256 vs requests_of) st windows) (fun st' _ => merge_at (len places) st') (fun _ => True)) as Hgen.
  { intros windows. induction windows as [|[a b] windows IH]; intros a0 st0; cbn [spans foldS]; [by intros -> _ Hst w _|].
    intros (-> & Hab & Hsp) _ Hst. assert (b <= len places) as Hb.
    { clear -Hsp. revert b Hsp. induction windows as [|[x y] windows IH]; intros b; cbn; [lia|]. intros (-> & ? & ?%IH). lia. }
    eapply triple_bind; [apply merge_window_ok; [lia|done]|]. intros st'. apply triple_pre. intros w Hst'. eapply triple_weaken; [by apply (IH b)|done..]. }
  intros Hst. apply (Hgen _ 0); [|lia|done]. rewrite <- Hlr. apply request_windows_spans.
Qed.
End windows.

(** ** The merged segment *)

(** The bytes of a document of a segment. *)
Definition content_of (contentss : list (list (list N))) (p : N * N) : list N := default [] (l ← get contentss p.1; get l p.2).

Lemma get_fmap {A B} (f : A -> B) (l : list A) i : get (f <$> l) i = f <$> get l i.
Proof. unfold get. by rewrite list_lookup_fmap. Qed.

Lemma concat_get (contents : list (list N)) i data :
  get contents i = Some data -> get_range (concat contents) (sumN (take (N.to_nat i) (len <$> contents))) (sumN (take (N.to_nat i) (len <$> contents)) + len data) = Some data.
Proof.
  intros H. unfold get in H. pose proof (lookup_lt_Some _ _ _ H). rewrite <- (take_drop_middle _ _ _ H) at 1. rewrite <- fmap_take, sum_lens, concat_app. cbn [concat].
  apply get_range_Some. split; [lia|]. rewrite !len_app. split; [lia|]. rewrite to_nat_len, drop_app_length. replace (N.to_nat (_ + len data - _)) with (length data) by (unfold len; lia). by rewrite take_app_length.
Qed.

(** A document of a segment is in its packs. *)
Lemma segment_located v t c decoded i d :
  well_formed t -> holds_contents v t c -> concat decoded = concat c -> get (documents t) i = Some d ->
  exists data, get c i = Some data /\ decoded_size d = len data /\ PackFetch.located (blocks t) decoded (slice_of d) (decoded_size d) data.
Proof.
  intros Hwf Hc Ed Hd. pose proof (hc_sizes _ _ _ Hc) as Hs. pose proof (f_equal (fun l => get l i) Hs) as Hi. cbn beta in Hi. rewrite !get_fmap, Hd in Hi.
  destruct (get c i) as [data|] eqn:Hdata; [|done]. injection Hi as Hsz. exists data. split; [done|]. split; [done|]. split; [done|].
  exists (sumN (take (N.to_nat i) (len <$> c))). rewrite Ed, Hsz. split; [by apply concat_get|]. pose proof (wf_coordinates _ Hwf i d Hd) as H. unfold slice_ok. rewrite <- Hsz.
  destruct (decoded_size d =? 0); [done|]. destruct H as (H1 & H2 & _). split; [exact H1|]. by rewrite <- Hs.
Qed.

(** What the merge of some segments is: their live documents, each once, with
    their metadata; their live sources; the bytes of the documents in the packs;
    and exactly their postings in the runs. *)
Record merge_holds (vs : list (Victim * SegmentTables)) (contentss : list (list (list N))) (places : list (N * N)) (m : Merged) : Prop := {
  mh_valid : well_formed (md_tables m);
  mh_nodup : NoDup places;
  mh_places : forall p, p ∈ places <-> exists d, live_at vs p d;
  mh_documents : Forall2 (fun p new => exists old, live_at vs p old /\ same_document old new) places (documents (md_tables m));
  mh_sources : exists olds, Forall2 same_source olds (sources (md_tables m)) /\ forall s, s ∈ olds <-> live_source_at vs s;
  mh_packs : exists decoded, built_ok decompress sha256 PACK_TARGET_BYTES (content_of contentss <$> places) decoded (slice_of <$> documents (md_tables m))
    {| built_packs := md_packs m; built_blocks := blocks (md_tables m) |};
  mh_sizes : decoded_size <$> documents (md_tables m) = len <$> (content_of contentss <$> places);
  mh_runs : runs_hold strategy (md_runs m) (posting_in radsort rapidhash_v3 strategy (content_of contentss <$> places) 0 (len places));
}.

Section merged.
Context (vs : list (Victim * SegmentTables)) (contentss : list (list (list N))) (Hvs : victims_hold vs contentss).
Context (pds : list ((N * N) * DocEntry)) (Hpds : forall p d, (p, d) ∈ pds <-> live_at vs p d) (Hnodup : NoDup pds.*1).
Context (docs : list DocEntry) (Hdocs : Forall2 (fun pd d => exists i, d = set_source i pd.2) pds docs).

Abbreviation places := (pds.*1).
Abbreviation contents := (content_of contentss <$> places).

Lemma victim_at seg v t : get vs seg = Some (v, t) -> exists c, get contentss seg = Some c /\ well_formed t /\ holds_contents v t c.
Proof. intros H. unfold get in H. destruct (Forall2_lookup_l _ _ _ _ _ Hvs H) as (c & Hc & _ & H1 & H2). by exists c. Qed.

(** A document of the merged segment and the one it was. *)
Lemma merged_document k d :
  get docs k = Some d -> exists p d0 i v t c data, get places k = Some p /\ d = set_source i d0 /\ live_at vs p d0 /\
    get vs p.1 = Some (v, t) /\ get (documents t) p.2 = Some d0 /\ get contentss p.1 = Some c /\ well_formed t /\ holds_contents v t c /\
    get c p.2 = Some data /\ get contents k = Some data /\ decoded_size d = len data.
Proof.
  intros Hd. unfold get in Hd. destruct (Forall2_lookup_r _ _ _ _ _ Hdocs Hd) as ([p d0] & Hpd & i & ->). cbn [snd] in *.
  assert (live_at vs p d0) as Hlive by (apply Hpds; by eapply list_elem_of_lookup_2). pose proof Hlive as (v & t & Hseg & Hold & _).
  destruct (victim_at _ _ _ Hseg) as (c & Hc & Hwf & Hholds). pose proof (hc_packs _ _ _ Hholds) as (files & decoded & honest & _ & Ed & _).
  destruct (segment_located v t c decoded p.2 d0 Hwf Hholds Ed Hold) as (data & Hdata & Hsz & _).
  assert (get places k = Some p) as Hp by (unfold get; by rewrite list_lookup_fmap, Hpd).
  assert (get contents k = Some data) as Hk by (rewrite get_fmap, Hp; cbn; unfold content_of; rewrite Hc; cbn; by rewrite Hdata).
  by exists p, d0, i, v, t, c, data.
Qed.

Lemma merged_place k p : get places k = Some p -> exists d, get docs k = Some d.
Proof. intros Hp%get_Some_lt. apply get_is_Some. apply Forall2_length in Hdocs. rewrite len_fmap in Hp. unfold len in *. lia. Qed.

Lemma merged_worlds seg v t :
  get vs seg = Some (v, t) -> exists files decoded honest,
  world_ok io decompress sha256 (seg_packs (vc_meta v)) (blocks t) files decoded honest /\ len (concat decoded) < 2 ^ 63 /\ len (blocks t) < U32 /\
  forall k old d c, get places k = Some (seg, old) -> get docs k = Some d -> get contents k = Some c -> PackFetch.located (blocks t) decoded (slice_of d) (decoded_size d) c.
Proof.
  intros Hseg. destruct (victim_at _ _ _ Hseg) as (c & Hc & Hwf & Hholds). pose proof (hc_packs _ _ _ Hholds) as (files & decoded & honest & Hw & Ed & Ht & Hb).
  exists files, decoded, honest. split; [done|]. split; [done|]. split; [done|]. intros k old d data Hp Hd Hdata.
  destruct (merged_document k d Hd) as (p & d0 & i & v' & t' & c' & data' & Hp' & -> & _ & Hseg' & Hold & Hc' & _ & _ & Hdata' & Hk & _).
  rewrite Hp in Hp'. injection Hp' as <-. cbn [fst snd] in *. rewrite Hseg in Hseg'. injection Hseg' as <- <-. rewrite Hc in Hc'. injection Hc' as <-.
  rewrite Hdata in Hk. injection Hk as <-. destruct (segment_located v t c decoded old d0 Hwf Hholds Ed Hold) as (data' & Hd' & _ & Hl). rewrite Hdata' in Hd'. injection Hd' as <-. exact Hl.
Qed.

Lemma merged_sizes : decoded_size <$> docs = len <$> contents.
Proof.
  apply list_eq. intros j. rewrite !list_lookup_fmap. destruct (docs !! j) as [d|] eqn:Hd.
  - destruct (merged_document (N.of_nat j) d) as (p & d0 & i & v & t & c & data & Hp & _ & _ & _ & _ & _ & _ & _ & _ & Hk & Hsz); [unfold get; by rewrite Nat2N.id|].
    unfold get in Hk. rewrite Nat2N.id, !list_lookup_fmap in Hk. rewrite Hk. cbn. by rewrite Hsz.
  - apply lookup_ge_None in Hd. rewrite lookup_ge_None_2; [done|]. apply Forall2_length in Hdocs. lia.
Qed.

(** The postings that the remapped segments have are those of the merged one. *)
Lemma moved_postings remaps r :
  len remaps = len vs ->
  (forall seg v t rm, get vs seg = Some (v, t) -> get remaps seg = Some rm -> forall old i, get rm old = Some (Some i) <-> i < len places /\ get places i = Some (seg, old)) ->
  (exists seg c rm, get contentss seg = Some c /\ get remaps seg = Some rm /\ moved radsort rapidhash_v3 strategy c rm (blocks_before contents) r) <->
  posting_in radsort rapidhash_v3 strategy contents 0 (len places) r.
Proof.
  intros Hl Hr. unfold moved, posting_in. split.
  - intros (seg & c & rm & Hc & Hrm & old & data & i & Hdata & Hi & Hp). destruct (get_is_Some vs seg) as [[v t] Hseg]; [apply get_Some_lt in Hrm; lia|].
    apply (Hr seg v t rm Hseg Hrm) in Hi as [Hlt Hi]. exists i, data. split; [lia|]. split; [|exact Hp].
    rewrite get_fmap, Hi. cbn. unfold content_of. cbn [fst snd]. rewrite Hc. cbn. by rewrite Hdata.
  - intros (i & data & [_ Hlt] & Hdata & Hp). destruct (get_is_Some places i Hlt) as [[seg old] Hi]. destruct (merged_place i _ Hi) as [d Hd].
    destruct (merged_document i d Hd) as (p & d0 & j & v & t & c & data' & Hp' & _ & _ & Hseg & _ & Hc & _ & _ & Hcd & Hk & _). rewrite Hi in Hp'. injection Hp' as <-. cbn [fst snd] in *.
    rewrite Hdata in Hk. injection Hk as <-. destruct (get_is_Some remaps seg) as [rm Hrm]; [rewrite Hl; by eapply get_Some_lt|].
    exists seg, c, rm. split; [done|]. split; [done|]. exists old, data, i. split; [done|]. split; [by apply (Hr seg v t rm Hseg Hrm)|exact Hp].
Qed.

Lemma merge_run_ok new_bases seg v t rm tables :
  get vs seg = Some (v, t) -> (forall old i, get rm old = Some (Some i) <-> i < len places /\ get places i = Some (seg, old)) -> len rm = len (documents t) -> len places <= U32 ->
  decoded_size <$> documents tables = len <$> contents -> (strategy = Trigram -> bases_ok (documents tables) new_bases) -> no_panic (vc_index v) ->
  safe (merge_run strategy new_bases ((v, t), rm)) (fun file => exists run c, get contentss seg = Some c /\ file = file_of strategy run /\ run_ok strategy run /\
    forall r, r ∈ run <-> moved radsort rapidhash_v3 strategy c rm (blocks_before contents) r).
Proof.
  intros Hseg Hrm Hlen Hu32 Hsz Hbases Hnp. destruct (victim_at _ _ _ Hseg) as (c & Hc & Hwf & Hholds). destruct (holds_len _ _ _ Hholds) as [Hlc _]. unfold merge_run.
  pose proof (hc_index _ _ _ Hholds) as Hindex. destruct (vc_index v) as [[entries postings]|e|w]; [|left; by eexists|by destruct (Hnp w)]. cbn [mbind res_bind].
  eapply safe_weaken; [eapply (compaction_run_ok radsort rapidhash_v3 strategy t c rm new_bases (blocks_before contents)); [apply Hholds|apply Hholds|lia|apply Hholds| | |by apply Hindex]|].
  - intros old i [Hi _]%Hrm. lia.
  - intros Hs old data i Hdata Hi. apply Hrm in Hi as [Hlt Hi]. specialize (Hbases Hs). assert (len (documents tables) = len places) as Hld.
    { apply (f_equal length) in Hsz. rewrite !length_fmap in Hsz. unfold len. rewrite Hsz. by rewrite length_fmap. }
    assert (get contents i = Some data) as Hcd by (rewrite get_fmap, Hi; cbn; unfold content_of; cbn [fst snd]; rewrite Hc; cbn; by rewrite Hdata).
    rewrite (bo_get _ _ Hbases i) by lia. rewrite (sizes_bases _ _ _ Hsz). split; [done|]. rewrite (blocks_before_next _ _ _ Hcd).
    pose proof (bo_fits _ _ Hbases) as Hf. rewrite (sizes_bases _ _ _ Hsz), Hld in Hf. pose proof (blocks_before_total contents (i + 1)) as Ht.
    rewrite <- blocks_before_all in Ht. rewrite len_fmap in Ht. lia.
  - intros file (run & E & Hrun & Hr). by exists run, c.
Qed.
End merged.

Lemma Forall2_runs {A} (P : A -> N * N -> Prop) l files :
  Forall2 (fun x file => exists run, file = file_of strategy run /\ run_ok strategy run /\ forall r, r ∈ run <-> P x r) l files ->
  runs_hold strategy files (fun r => exists x, x ∈ l /\ P x r).
Proof.
  induction 1 as [|x file l files (run & -> & Hrun & Hr) _ (rs & -> & Hrs & H)].
  - exists []. split; [done|]. split; [constructor|]. intros r. cbn. split; [by intros ?%elem_of_nil|by intros (x & ?%elem_of_nil & _)].
  - exists (run :: rs). split; [done|]. split; [by constructor|]. intros r. cbn [concat]. rewrite elem_of_app, H, Hr. split.
    + intros [Hx|(y & Hy & Hx)]; [exists x; split; [left|done]|exists y; split; [by right|done]].
    + intros (y & [->|Hy]%elem_of_cons & Hx); [by left|right; by exists y].
Qed.

Lemma zip_fst_snd {A B} (l : list (A * B)) : zip l.*1 l.*2 = l.
Proof. induction l as [|[a b] l IH]; [done|]. cbn. by rewrite IH. Qed.

Lemma zip_slices slices docs : length slices = length docs -> slice_of <$> zip_with set_slice slices docs = slices.
Proof. revert docs. induction slices as [|[b o] slices IH]; intros [|d docs] H; try done. cbn [zip_with fmap list_fmap]. f_equal. apply IH. by injection H. Qed.
Lemma zip_sizes slices docs : length slices = length docs -> decoded_size <$> zip_with set_slice slices docs = decoded_size <$> docs.
Proof. revert docs. induction slices as [|b slices IH]; intros [|d docs] H; try done. cbn [zip_with fmap list_fmap]. f_equal. apply IH. by injection H. Qed.

Lemma safe_all {A X} (r : res A) (H : X -> Prop) (P : X -> A -> Prop) x0 : H x0 -> (forall x, H x -> safe r (P x)) -> safe r (fun a => forall x, H x -> P x a).
Proof.
  intros H0 Hs. destruct (Hs x0 H0) as [[e ->]|(a & -> & _)]; [left; by eexists|]. apply safe_ok. intros x Hx. destruct (Hs x Hx) as [[e E]|(a' & [= <-] & Ha)]; done.
Qed.

(** The runs of the segments, from the state after the last window. *)
Lemma merge_live_runs_ok vs contentss pds docs st tables new_bases :
  victims_hold vs contentss -> (forall p d, (p, d) ∈ pds <-> live_at vs p d) -> Forall2 (fun pd d => exists i, d = set_source i pd.2) pds docs ->
  Forall (fun vt => no_panic (vc_index vt.1)) vs -> merge_at vs pds.*1 docs (content_of contentss <$> pds.*1) (len pds.*1) st ->
  decoded_size <$> documents tables = len <$> (content_of contentss <$> pds.*1) -> (strategy = Trigram -> bases_ok (documents tables) new_bases) ->
  safe (mapM_res (merge_run strategy new_bases) (zip vs (mg_remaps st))) (fun runs =>
    runs_hold strategy runs (posting_in radsort rapidhash_v3 strategy (content_of contentss <$> pds.*1) 0 (len pds.*1))).
Proof.
  intros Hvs Hpds Hdocs Hnp [Hu32 _ _ _ [Hlr Hr]] Hsz Hbases. set (contents := content_of contentss <$> pds.*1) in *.
  pose (P := fun seg r => exists c rm, get contentss seg = Some c /\ get (mg_remaps st) seg = Some rm /\ moved radsort rapidhash_v3 strategy c rm (blocks_before contents) r).
  pose (H := fun (e : (Victim * SegmentTables) * list (option N)) seg => get vs seg = Some e.1 /\ get (mg_remaps st) seg = Some e.2).
  eapply (safe_weaken _ (Forall2 (fun e file => forall seg, H e seg -> exists run, file = file_of strategy run /\ run_ok strategy run /\ forall r, r ∈ run <-> P seg r) (zip vs (mg_remaps st)))).
  - apply mapM_res_safe. intros [[v t] rm] [j Hj]%list_elem_of_lookup. apply lookup_zip_with_Some in Hj as (vt' & rm' & [= <- <-] & H1 & H2).
    apply (safe_all _ _ _ (N.of_nat j)); [split; unfold get; by rewrite Nat2N.id|]. intros seg [Hseg Hrm]. cbn [fst snd] in *. destruct (Hr seg v t rm Hseg Hrm) as [Hlen Hiff].
    rewrite Forall_forall in Hnp. pose proof (Hnp (v, t) (get_elem _ _ _ Hseg)) as Hn.
    eapply safe_weaken; [by eapply (merge_run_ok vs contentss Hvs pds new_bases seg v t rm tables)|].
    intros file (run & c & Hc & E & Hrun & Hin). exists run. split; [done|]. split; [done|]. intros r. rewrite Hin. split; [intros; by exists c, rm|].
    intros (c' & rm' & Hc' & Hrm' & Hm). by simplify_eq.
  - intros runs Hruns. assert (forall seg v t rm, get vs seg = Some (v, t) -> get (mg_remaps st) seg = Some rm ->
      forall old i, get rm old = Some (Some i) <-> i < len pds.*1 /\ get pds.*1 i = Some (seg, old)) as Hiff by (intros seg v t rm Hs Hm; by destruct (Hr seg v t rm Hs Hm)).
    assert (Forall2 (fun seg file => exists run, file = file_of strategy run /\ run_ok strategy run /\ forall r, r ∈ run <-> P seg r) (range 0 (len vs)) runs) as Hsegs.
    { pose proof (len_range 0 (len vs)) as Hlen. pose proof (Forall2_length _ _ _ Hruns) as Hl. rewrite length_zip_with in Hl.
      apply Forall2_same_length_lookup_2; [unfold len in *; lia|]. intros j seg file Hseg Hf. pose proof (lookup_lt_Some _ _ _ Hseg).
      rewrite range_lookup in Hseg by (unfold len in *; lia). injection Hseg as <-. destruct (Forall2_lookup_r _ _ _ _ _ Hruns Hf) as (e & He & Hrun). apply Hrun.
      apply lookup_zip_with_Some in He as (vt & rm & -> & H1 & H2). split; unfold get; cbn [fst snd]; by rewrite N.add_0_l, Nat2N.id. }
    apply Forall2_runs in Hsegs. apply (runs_hold_ext _ _ _ _ Hsegs). intros r. etrans; [|exact (moved_postings vs contentss Hvs pds Hpds docs Hdocs (mg_remaps st) r Hlr Hiff)]. split.
    + intros (seg & _ & c & rm & Hx). by exists seg, c, rm.
    + intros (seg & c & rm & Hc & Hrm & Hm). exists seg. split; [apply elem_of_range; apply get_Some_lt in Hrm; lia|by exists c, rm].
Qed.

Lemma triple_safe {A B} (r : res A) (f : A -> ST W B) (P : A -> Prop) (Q : B -> W -> Prop) :
  safe r P -> (forall a, P a -> triple (fun _ => True) (f a) Q (fun _ => True)) -> triple (fun _ => True) (lift r ≫= f) Q (fun _ => True).
Proof. intros [[e ->]|(a & -> & Ha)] H w _; [done|]. by apply (H a Ha w). Qed.
Lemma triple_holds {S A} (P : A -> Prop) (m : ST S A) {B} (f : A -> ST S B) (Q : B -> S -> Prop) :
  triple (fun _ => True) m (fun a _ => P a) (fun _ => True) -> (forall a, P a -> triple (fun _ => True) (f a) Q (fun _ => True)) ->
  triple (fun _ => True) (m ≫= f) Q (fun _ => True).
Proof. intros Hm H. eapply triple_bind; [exact Hm|]. intros a s Ha. by apply (H a Ha s). Qed.

Lemma merge_at_start vs pds docs contents builder remaps :
  filling decompress sha256 builder [] -> stream builder [] = [] -> block_bytes builder = PACK_BLOCK_BYTES -> pack_bytes builder = PACK_TARGET_BYTES ->
  remaps = (fun vt : Victim * SegmentTables => replicate (length (documents vt.2)) None) <$> vs ->
  merge_at vs pds docs contents 0 {| mg_merged := zip_with place_document pds docs; mg_builder := builder; mg_remaps := remaps; mg_documents := [] |}.
Proof.
  intros Hf Hs Hb Hp ->. split; cbn [mg_merged mg_builder mg_remaps mg_documents]; [lia|done| |done|].
  - exists [], []. change (N.to_nat 0) with 0%nat. split; [done|]. split; [done|]. split; [split; [done|]|done]. intros i doc slice Hi. by apply get_Some_lt, N.nlt_0_r in Hi.
  - split; [apply len_fmap|]. intros seg v t r Hseg Hr. rewrite get_fmap, Hseg in Hr. injection Hr as <-. cbn [snd]. split; [unfold len; by rewrite length_replicate|].
    intros old i. split; [|lia]. intros Ho. unfold get in Ho. by apply lookup_replicate in Ho as [? _].
Qed.

Lemma documents_kept vs pds docs slices :
  (forall p d, (p, d) ∈ pds -> live_at vs p d) -> Forall2 (fun pd d => exists i, d = set_source i pd.2) pds docs -> length slices = length docs ->
  Forall2 (fun p new => exists old, live_at vs p old /\ same_document old new) pds.*1 (zip_with set_slice slices docs).
Proof.
  intros Hp H. revert slices. induction H as [|[p d] new pds docs (i & ->) _ IH]; intros [|slice slices] Hl; try done. cbn [fmap list_fmap zip_with fst snd].
  constructor; [exists d; split; [apply Hp; left|by exists i, slice]|]. apply IH; [intros; apply Hp; by right|by injection Hl].
Qed.

Lemma merge_segments_ok victims contentss :
  Forall2 victim_ok victims contentss ->
  triple (fun _ => True) (merge_segments io compress decompress sha256 decode_tables strategy victims)
    (fun m _ => exists vs places, vs.*1 = victims /\ victims_hold vs contentss /\ merge_holds vs contentss places m) (fun _ => True).
Proof.
  intros Hvic. unfold merge_segments. eapply triple_safe; [by apply load_victims_ok|]. intros loading (vs & Evs & Hvs & [Htabs Hremaps Hdocs0 Hnd0 Hsrc0]).
  set (es := sort_by_key _ _). assert (es ≡ₚ ld_entries loading) as Hperm by apply sort_by_perm.
  assert (all_documents es ≡ₚ all_documents (ld_entries loading)) as Hpermd by (by apply bind_Permutation).
  assert (forall p d, (p, d) ∈ all_documents es <-> live_at vs p d) as Hpds by (intros; by rewrite Hpermd).
  assert (NoDup (all_documents es).*1) as Hnd by (by rewrite Hpermd).
  eapply triple_safe; [apply place_sources_ok|]. intros [sources_ merged] [Hsources (docs & Em & Hdocs)]. cbn [fst snd] in *. subst merged.
  pose proof (Forall2_length _ _ _ Hdocs) as Hld. assert (length (all_documents es).*1 = length docs) as Hlen by (by rewrite length_fmap).
  eapply (triple_safe _ _ (fun rs => rs = requests_of docs)); [rewrite merge_requests_ok by done; by apply safe_ok|]. intros ? ->.
  eapply triple_safe; [by apply (new_builder_safe decompress sha256)|]. intros builder (Hf & Hst & Hbb & Hpb).
  assert (zip victims (ld_tables loading) = vs) as Ez by (rewrite <- Evs, Htabs; apply zip_fst_snd). rewrite Ez.
  pose proof (merged_sizes vs contentss Hvs _ Hpds docs Hdocs) as Hsizes. set (pds := all_documents es) in *. set (contents := content_of contentss <$> pds.*1) in *.
  eapply (triple_holds (merge_at vs pds.*1 docs contents (len pds.*1))).
  { apply merge_windows_ok; [by rewrite Hlen|unfold contents; by rewrite length_fmap|exact Hnd|by apply merged_worlds| | |by apply merge_at_start].
    - intros k d c Hd Hc. pose proof (f_equal (fun l => get l k) Hsizes) as E. cbn beta in E. rewrite !(get_fmap decoded_size), Hd, (get_fmap len), Hc in E. by injection E.
    - intros k seg old Hp. destruct (merged_place pds docs Hdocs k _ Hp) as [d Hd].
      destruct (merged_document vs contentss Hvs pds Hpds docs Hdocs k d Hd) as (p & d0 & i & v & t & c & data & Hp' & _ & _ & Hseg & Hold & _). rewrite Hp in Hp'. injection Hp' as <-.
      exists v, t. split; [exact Hseg|by eapply get_Some_lt]. }
  intros st Hat. pose proof Hat as [_ _ (slices & decoded & Edocs & Hls & Hpl & Hfill & Hstream) [Hbb' Hpb'] _].
  rewrite to_nat_len in *. rewrite Hlen, firstn_all in Edocs. rewrite take_ge in Hpl, Hstream by (unfold contents; by rewrite !length_fmap).
  assert (length slices = length docs) as Hsl by (unfold len in Hls; rewrite <- Hlen; lia).
  eapply triple_safe; [by apply (finish_built_safe compress decompress sha256 (mg_builder st) decoded contents slices Hfill Hstream); rewrite Hbb'|]. intros packed [decoded' Hbuilt]. rewrite Hpb' in Hbuilt.
  cbv zeta. set (tables := {| sources := sources_; documents := mg_documents st; blocks := built_blocks packed |}).
  eapply triple_safe; [apply validate_safe|]. intros [] Hvalid.
  assert (decoded_size <$> documents tables = len <$> contents) as Hsz by (unfold tables; cbn [documents]; by rewrite Edocs, zip_sizes).
  eapply (triple_safe _ _ (fun bases => strategy = Trigram -> bases_ok (documents tables) bases)).
  { destruct strategy; [|by apply safe_ok]. unfold build_block_bases. eapply safe_bind; [apply add_base_safe|]. intros [next bases] [_ Hb]. by apply safe_ok. }
  intros new_bases Hbases. eapply triple_safe; [apply (merge_live_runs_ok vs contentss pds docs st tables new_bases); try done|].
  { apply Forall_forall. intros vt Hvt. assert (vt.1 ∈ victims) as Hin by (rewrite <- Evs; by apply list_elem_of_fmap_2).
    apply list_elem_of_lookup in Hin as [j Hj]. destruct (Forall2_lookup_l _ _ _ _ _ Hvic Hj) as (c & _ & _ & Hn & _). exact Hn. }
  intros runs Hruns w _. exists vs, pds.*1. split; [done|]. split; [done|]. split; cbn [md_tables md_runs md_packs].
  - exact Hvalid.
  - exact Hnd.
  - intros p. rewrite list_elem_of_fmap. setoid_rewrite <- Hpds. split; [intros ([p' d] & -> & H); by exists d|intros [d H]; by exists (p, d)].
  - unfold tables. cbn [documents]. rewrite Edocs. apply documents_kept; [by intros p d ?%Hpds|exact Hdocs|exact Hsl].
  - exists (ms_source <$> es). split; [exact Hsources|]. intros s. rewrite <- Hsrc0. by rewrite Hperm.
  - exists decoded'. unfold tables. cbn [documents blocks]. rewrite Edocs, zip_slices by done. by destruct packed.
  - exact Hsz.
  - exact Hruns.
Qed.
End merging.

(** ** Property *)

(** C4: merging segments never panics, and what it gives is a segment of their
    live documents.  Every live document of every segment is in it once, with its
    metadata and a place, and no dead one is; its sources are the live sources;
    its tables are well formed; its packs hold the bytes of the documents, each at
    its slice; and its runs hold exactly the postings of these bytes at their new
    ids. *)
Theorem merge_segments_exact {W} (io : Io W) compress decompress sha256 `{!Codec compress decompress sha256} decode_tables strategy
    radsort `{!SortsN radsort} rapidhash_v3 victims contentss w :
  Forall2 (victim_ok io decompress sha256 decode_tables strategy radsort rapidhash_v3) victims contentss ->
  match (merge_segments io compress decompress sha256 decode_tables strategy victims w).1 with
  | Ok m => exists vs places, vs.*1 = victims /\ victims_hold io decompress sha256 decode_tables strategy radsort rapidhash_v3 vs contentss /\
      merge_holds decompress sha256 strategy radsort rapidhash_v3 vs contentss places m
  | Err _ => True
  | Panic _ => False
  end.
Proof.
  intros H. pose proof (merge_segments_ok io compress decompress sha256 decode_tables strategy radsort rapidhash_v3 victims contentss H w I) as Hm.
  by destruct (merge_segments _ _ _ _ _ _ _ w) as [[m|e|why] w'].
Qed.

(** ** Witness: two segments with the same three documents, in the first of them
    the document with bytes that has postings is dead *)

#[export] Instance tiny_codec : Codec demo_compress demo_decompress tiny_sha256.
Proof.
  destruct demo_codec as [H1 H2 _]. split; [exact H1|exact H2|]. intros b. unfold tiny_sha256, len. rewrite length_take. cbn [length]. rewrite length_app, length_replicate. lia.
Qed.

Definition demo_source (name : string) (id : N) : SourceEntry := {|
  key := ascii name; version := ascii "1"; encoded_size := 5; encoding := Raw; first_doc := id; doc_count := 1; failed := false; retry := false |}.
Definition demo_document (name : string) (id size first offset : N) : DocEntry := {|
  display_key := ascii name; source_id := id; member_path := None; decoded_size := size; first_block := first; block_offset := offset; max_line_len := size; block_newlines := [0] |}.
Definition demo_docs_bin (a b c : string) : SegmentTables := {|
  sources := [demo_source a 0; demo_source b 1; demo_source c 2]; documents := [demo_document a 0 5 0 0; demo_document b 1 0 0 0; demo_document c 2 2 1 2]; blocks := demo_pack_blocks |}.
Definition demo_decode_tables (bytes : list N) : option SegmentTables :=
  match bytes with [0] => Some (demo_docs_bin "a" "b" "c") | [1] => Some (demo_docs_bin "aa" "bb" "cc") | _ => None end.
Definition demo_victim_meta (first last_ : string) : SegmentMeta := {|
  seg_id := []; seg_doc_count := 3; SegmentList.block_count := 2; terms_fst_len := 1; terms_fst_hash := []; terms_tail_hash := [];
  postings_len := 0; postings_hash := []; postings_data_len := 0; postings_tail_hash := []; docs_len := 1; docs_hash := [];
  min_key := ascii first; max_key := ascii last_; dead_hash := []; dead_len := 0; failed_source_count := 0; seg_packs := demo_packs |}.
Definition demo_terms : list (list N * N * option N) := (fun gram => (gram, demo_packed_value 0 1, None)) <$> [[1; 2; 3]; [2; 3; 4]; [3; 4; 5]].
Definition demo_victims : list Victim := [
  {| vc_meta := demo_victim_meta "a" "c"; vc_dead := {| dead_sources := [0]; dead_documents := [0] |}; vc_docs := Ok [0]; vc_index := Ok (demo_terms, []) |};
  {| vc_meta := demo_victim_meta "aa" "cc"; vc_dead := no_dead; vc_docs := Ok [1]; vc_index := Ok (demo_terms, []) |}].
Definition demo_term_groups : list (N * list N) := [(66051, [0]); (131844, [0]); (197637, [0])].

Lemma demo_term_groups_ok : groups_ok (fun key id => posting_in sort_N sum_hash Trigram demo_contents 0 3 (key, id)) demo_term_groups.
Proof.
  split; [by repeat constructor|by repeat constructor|]. intros key id. split.
  - intros (i & data & [_ Hi] & Hd & block & gram & Hin & [= -> ->]). assert (i = 0 \/ i = 1 \/ i = 2) as [->|[->| ->]] by lia; injection Hd as <-; vm_compute in Hin.
    + apply elem_of_cons in Hin as [[= -> ->]|[[= -> ->]|[= -> ->]%list_elem_of_singleton]%elem_of_cons]; (exists [0]; split; [|vm_compute; left]); [left|right; left|right; right; left].
    + by apply elem_of_nil in Hin.
    + by apply elem_of_nil in Hin.
  - intros (ids & Hg & Hid). exists 0, [1; 2; 3; 4; 5]. split; [done|]. split; [done|]. exists 0, key.
    assert (ids = [0]) as -> by (repeat (apply elem_of_cons in Hg as [[= -> ->]|Hg]; [done|]); by apply elem_of_nil in Hg). apply list_elem_of_singleton in Hid as ->. split; [|done].
    vm_compute. repeat (apply elem_of_cons in Hg as [[= ->]|Hg]; [repeat (left || right)|]). by apply elem_of_nil in Hg.
Qed.

Lemma demo_holds_contents dead docs a b c :
  holds_contents demo_io demo_decompress tiny_sha256 Trigram sort_N sum_hash
    {| vc_meta := demo_victim_meta a c; vc_dead := dead; vc_docs := docs; vc_index := Ok (demo_terms, []) |} (demo_docs_bin a b c) demo_contents.
Proof.
  split; [done|by repeat constructor|by split|done| |].
  - exists demo_files, demo_decoded, True. by split; [exact demo_world|].
  - intros entries postings [= <- <-]. split. exists [], []. split; [done|]. split; [done|]. exists demo_term_groups. split; [exact demo_term_groups_ok|].
    repeat constructor; (exists 0; split; [by vm_compute|done]).
Qed.

Lemma merge_segments_exact_witness :
  exists m vs places, (merge_segments demo_io demo_compress demo_decompress tiny_sha256 demo_decode_tables Trigram demo_victims []).1 = Ok m /\
    display_key <$> documents (md_tables m) = ascii <$> ["aa"; "b"; "bb"; "c"; "cc"]%string /\
    md_runs m = [[]; file_of Trigram [(66051, 0); (131844, 0); (197637, 0)]] /\
    vs.*1 = demo_victims /\ merge_holds demo_decompress tiny_sha256 Trigram sort_N sum_hash vs [demo_contents; demo_contents] places m.
Proof.
  pose proof (merge_segments_exact demo_io demo_compress demo_decompress tiny_sha256 demo_decode_tables Trigram sort_N sum_hash demo_victims [demo_contents; demo_contents] []) as H.
  destruct (merge_segments demo_io demo_compress demo_decompress tiny_sha256 demo_decode_tables Trigram demo_victims []).1 as [m|e|why] eqn:E; [|vm_compute in E; discriminate E..].
  destruct H as (vs & places & Hvs & _ & Hm).
  - constructor; [|constructor; [|constructor]]; (split; [done|]; split; [done|]; intros bytes t [= <-] [= <-]; apply demo_holds_contents).
  - exists m, vs, places. split; [done|]. vm_compute in E. injection E as <-. split; [vm_compute; reflexivity|]. split; [vm_compute; reflexivity|]. by split.
Defined.
