(* ===== verification/PostingRead.v ===== *)
(** * Reading posting blocks of a segment (crates/index/src/segment.rs)

    A query needs a few slices of a segment's [postings.bin].
    [read_posting_blocks] finds the verification blocks the slices lie in, takes
    those it can from the cache of the index, fetches the others in one call,
    checks every block against the verification table of the segment, cuts the
    slices out and decodes them.  The table itself, the tail of the blob, comes
    from the cache or the store and is trusted only with the hash the root
    records.  The store, the cache files and what a sweep of the cache removes
    are the world of the reader; the table, once read, and the bytes written
    since the last sweep are kept next to it. *)

From S2P Require Import Prelude BitPack Bytes Postings DeltaBlocks PostingsTable Trigrams PackBuild PackRead Eval Candidate SegmentList.

(** [BTreeMap::iter] *)
Definition btree_iter {A} (m : gmap N A) : list (N * A) := sort_by (fun a b => a.1 <=? b.1) (map_to_list m).

(** [format!("{index:08x}")] *)
Fixpoint strip_zeros (k : nat) (digits : list N) : list N :=
  match k, digits with
  | S k, 48 :: digits => strip_zeros k digits
  | _, _ => digits
  end.
Definition format_08x (index : N) : list N := strip_zeros 8 (hex (to_be_bytes index)).

(** "postings.tail", "postings-block-" *)
Definition POSTINGS_TAIL : list N := [112; 111; 115; 116; 105; 110; 103; 115; 46; 116; 97; 105; 108].
Definition POSTINGS_BLOCK : list N := [112; 111; 115; 116; 105; 110; 103; 115; 45; 98; 108; 111; 99; 107; 45].
Definition cache_path (seg_id name : list N) : list N := seg_id ++ [SLASH] ++ name.
Definition postings_block_path (seg_id : list N) (index : N) : list N := cache_path seg_id (POSTINGS_BLOCK ++ format_08x index).

Definition posting_ranges (needed : gmap N (N * N)) (doc_count postings_data_len : N) : res (list (N * N)) :=
  mapM_res (fun '(offset, (count, length_)) =>
    ensure (0 <? count) "term map contains an empty posting list";;
    ensure (count <=? doc_count) "term map posting count exceeds its segment document count";;
    ensure (0 <? length_) "term map posting length is zero";;
    end_ ← with_context (checked_add U64 offset length_) "term map posting length overflows";
    ensure (end_ <=? postings_data_len) "term map posting extends beyond the postings data region";;
    Ok (offset, length_)) (btree_iter needed).

(** What a reader keeps: the table of the segment and [range_written]. *)
Record Memo : Type := { memo_table : option PostingsTableIndex; range_written : N }.

Section posting_read.
Context {W : Type} (io : Io W) (sha256 : list N -> list N).
(** [evict_range_cache]; [self.range_cache_max]. *)
Context (evict_range_cache : N -> W -> W) (range_cache_max : N) (strategy : Strategy).
Abbreviation Reader := (W * Memo)%type.

Definition range_cache : bool := 0 <? range_cache_max.

Definition sweep_if_due (s : Reader) : Reader :=
  let '(w, memo) := s in
  if range_cache_max =? 0 then s
  else if range_cache_max / 4 <=? range_written memo then
    (evict_range_cache range_cache_max w, {| memo_table := memo_table memo; range_written := 0 |})
  else s.
Definition note_range_written (bytes : N) (s : Reader) : Reader :=
  let '(w, memo) := s in
  sweep_if_due (w, {| memo_table := memo_table memo; range_written := wrapping_add U64 (range_written memo) bytes |}).

Definition cached_bytes (path expected_hash : list N) (fetch : ST W (list N)) : ST W (list N) :=
  hit ← read_verified io sha256 path expected_hash;
  match hit with
  | Some bytes => mret bytes
  | None =>
      bytes ← fetch;
      lift (ensure (bool_decide (hex (sha256 bytes) = expected_hash)) "segment blob failed its SHA-256 check");;
      modify (io_write_back io path bytes);;
      mret bytes
  end.

Definition fetch_tail (seg_id : list N) (data_len tail_len : N) : ST W (list N) :=
  ranges ← io_get_ranges io (segment_blob seg_id POSTINGS_BIN) [(data_len, tail_len)];
  lift (ensure (len ranges =? 1) "postings tail fetch returned no range");;
  lift (expect (get ranges 0) "removal index should be < len").

Definition postings_table (meta : SegmentMeta) : ST Reader PostingsTableIndex :=
  memo ← gets (fun s : Reader => memo_table s.2);
  match memo with
  | Some table => mret table
  | None =>
      let block_count := div_ceil (postings_data_len meta) VERIFY_BLOCK_BYTES in
      let tail_len := block_count * 32 + FOOTER_BYTES in
      lift (ensure (bool_decide (checked_add U64 (postings_data_len meta) tail_len = Some (postings_len meta)))
        "postings verification table does not fit its blob");;
      tail ← on_fst (cached_bytes (cache_path (seg_id meta) POSTINGS_TAIL) (postings_tail_hash meta)
        (fetch_tail (seg_id meta) (postings_data_len meta) tail_len));
      table ← lift (PostingsTable.parse (postings_len meta) tail);
      lift (ensure (index_data_len table =? postings_data_len meta) "postings table data length does not match segment metadata");;
      modify (fun s => (s.1, {| memo_table := Some table; range_written := range_written s.2 |}));;
      mret table
  end.

(** One verification block looked up in the cache. *)
Definition find_payload (meta : SegmentMeta) (table : PostingsTableIndex) (s : gmap N (list N) * list N) (index : N)
    : ST Reader (gmap N (list N) * list N) :=
  let '(payloads, missing) := s in
  hit ← (if range_cache then
      hash ← lift (block_hash table index);
      on_fst (read_verified io sha256 (postings_block_path (seg_id meta) index) (hex hash))
    else mret None);
  mret (match hit with
        | Some bytes => (<[index := bytes]> payloads, missing)
        | None => (payloads, missing ++ [index])
        end).

(** One fetched block. *)
Definition store_payload (meta : SegmentMeta) (table : PostingsTableIndex) (payloads : gmap N (list N)) (fetched : N * list N)
    : ST Reader (gmap N (list N)) :=
  let '(index, bytes) := fetched in
  lift (verify sha256 table index bytes);;
  (if range_cache then
    modify (fun s : Reader => (io_write_back io (postings_block_path (seg_id meta) index) bytes s.1, s.2));;
    modify (note_range_written (len bytes))
  else mret tt);;
  mret (<[index := bytes]> payloads).

Definition fetch_missing (meta : SegmentMeta) (table : PostingsTableIndex) (payloads : gmap N (list N)) (missing : list N)
    : ST Reader (gmap N (list N)) :=
  match missing with
  | [] => mret payloads
  | _ =>
      fetched ← on_fst (io_get_ranges io (segment_blob (seg_id meta) POSTINGS_BIN) (block_range table <$> missing));
      lift (ensure (len fetched =? len missing) "get_ranges returned a wrong number of blocks");;
      foldS (store_payload meta table) payloads (zip missing fetched)
  end.

(** The part of a range that one of its blocks holds. *)
Definition block_piece (table : PostingsTableIndex) (payloads : gmap N (list N)) (range_offset range_len index : N) : res (list N) :=
  let '(block_offset, block_len) := block_range table index in
  let from := N.max range_offset block_offset in
  let to := N.min (wrapping_add U64 range_offset range_len) (wrapping_add U64 block_offset block_len) in
  payload ← with_context (payloads !! index) "missing verified postings block";
  expect (get_range payload (wrapping_sub U64 from block_offset) (wrapping_sub U64 to block_offset)) "range out of bounds".

(** The slice comes from one block or is assembled from several. *)
Definition cut_range (table : PostingsTableIndex) (payloads : gmap N (list N)) (range_offset range_len : N) : res (list N) :=
  '(first, last) ← blocks_covering table range_offset range_len;
  pieces ← mapM_res (block_piece table payloads range_offset range_len) (range first last);
  Ok (concat pieces).

Definition decode_ids (bytes : list N) (count id_space : N) : res (list N) :=
  match strategy with
  | Sparse => decode_delta_blocks bytes count id_space
  | Trigram => decode_posting_block bytes count id_space
  end.

Definition read_posting_blocks (meta : SegmentMeta) (needed : gmap N (N * N)) (id_space : N) : ST Reader (gmap N (list N)) :=
  if decide (needed = ∅) then mret ∅
  else
    table ← postings_table meta;
    ranges ← lift (posting_ranges needed id_space (index_data_len table));
    covering ← lift (mapM_res (fun '(offset, length_) =>
      '(first, last) ← blocks_covering table offset length_; Ok (range first last)) ranges);
    '(payloads, missing) ← foldS (find_payload meta table) (∅, []) (sort_dedup (concat covering));
    payloads ← fetch_missing meta table payloads missing;
    decoded ← lift (mapM_res (fun '((offset, (count, _)), (range_offset, range_len)) =>
      bytes ← cut_range table payloads range_offset range_len;
      ids ← decode_ids bytes count id_space;
      Ok (offset, ids)) (zip (btree_iter needed) ranges));
    mret (list_to_map decoded).
End posting_read.

Lemma elem_of_btree_iter {A} (m : gmap N A) k x : (k, x) ∈ btree_iter m <-> m !! k = Some x.
Proof. unfold btree_iter. rewrite elem_of_sort_by. apply elem_of_map_to_list. Qed.
Lemma btree_keys_nodup {A} (m : gmap N A) : NoDup (btree_iter m).*1.
Proof. unfold btree_iter. rewrite sort_by_perm. apply NoDup_fst_map_to_list. Qed.

(** ** What is read *)

Section proofs.
Context {W : Type} (io : Io W) (sha256 : list N -> list N) (evict_range_cache : N -> W -> W) (range_cache_max : N) (strategy : Strategy).
Context (meta : SegmentMeta) (data : list N) (needed : gmap N (N * N)) (id_space : N) (honest : Prop).

(** The postings of the segment: the data and the table the writer appends.  A
    digest identifies the tail and the slices of the data, collisions aside. *)
Record stored_postings : Prop := {
  sp_bytes : Forall is_byte data;
  sp_fit : len data + len (tail_of sha256 data) < U64;
  sp_sha : forall bytes, length (sha256 bytes) = 32%nat;
  sp_data_len : postings_data_len meta = len data;
  sp_len : postings_len meta = len data + len (tail_of sha256 data);
  sp_tail : postings_tail_hash meta = hex (sha256 (tail_of sha256 data));
  sp_tail_digest : forall bytes, sha256 bytes = sha256 (tail_of sha256 data) -> bytes = tail_of sha256 data;
  sp_digest : forall bytes a b, sha256 bytes = sha256 (cut data a b) -> bytes = cut data a b;
}.
(** The store never panics; when it is honest it returns the slices asked for. *)
Record postings_store_ok : Prop := {
  ps_no_panic : forall name ranges w, no_panic (io_get_ranges io name ranges w).1;
  ps_honest : honest -> forall ranges w, Forall (fun r => r.1 + r.2 <= len data + len (tail_of sha256 data)) ranges ->
    exists w', io_get_ranges io (segment_blob (seg_id meta) POSTINGS_BIN) ranges w =
      (Ok ((fun r => cut (data ++ tail_of sha256 data) r.1 (r.1 + r.2)) <$> ranges), w');
}.
Context (Hsp : stored_postings) (Hps : postings_store_ok).

(** What the dictionary says of a list that can be read: its ids. *)
Definition reads (offset count length_ : N) (ids : list N) : Prop :=
  0 < count <= id_space /\ 0 < length_ /\ offset + length_ <= len data /\
  decode_ids strategy (cut data offset (offset + length_)) count id_space = Ok ids.
Definition needed_ok : Prop := forall offset count length_, needed !! offset = Some (count, length_) -> exists ids, reads offset count length_ ids.

Abbreviation good := (honest /\ needed_ok).
Abbreviation table := {| index_data_len := len data; index_hashes := table_of sha256 data |}.
Definition memo_ok (memo : Memo) : Prop := memo_table memo = None \/ memo_table memo = Some table.
Definition keeps {A} (m : ST (W * Memo) A) (Q : A -> Prop) : Prop :=
  triple (fun s => memo_ok s.2) m (fun a s => memo_ok s.2 /\ Q a) (fun s => memo_ok s.2 /\ ~ good).

Lemma keeps_bind {A B} (m : ST (W * Memo) A) (f : A -> ST (W * Memo) B) (Q : A -> Prop) (Q' : B -> Prop) :
  keeps m Q -> (forall a, Q a -> keeps (f a) Q') -> keeps (m ≫= f) Q'.
Proof. intros Hm Hf. eapply triple_bind; [exact Hm|]. intros a s [Hs Ha]. by apply (Hf a Ha). Qed.
Lemma keeps_ret {A} (a : A) (Q : A -> Prop) : Q a -> keeps (mret a) Q.
Proof. by intros Ha s Hs. Qed.
Lemma keeps_lift {A} (r : res A) (Q : A -> Prop) : sound good r Q -> keeps (lift r) Q.
Proof. intros [(e & -> & H)|(a & -> & Ha)] s Hs; cbn; done. Qed.
Lemma keeps_fst {A} (m : ST W A) (Q : A -> Prop) : yields good m Q -> keeps (on_fst m) Q.
Proof. intros H [w memo] Hs. specialize (H w I). unfold on_fst. cbn in *. by destruct (m w) as [[a|e|why] w']. Qed.
Lemma keeps_modify (f : W * Memo -> W * Memo) : (forall s, memo_table (f s).2 = memo_table s.2) -> keeps (modify f) (fun _ => True).
Proof. intros H s Hs. cbn. unfold memo_ok in *. by rewrite H. Qed.
Lemma keeps_weaken {A} (m : ST (W * Memo) A) (Q Q' : A -> Prop) : keeps m Q -> (forall a, Q a -> Q' a) -> keeps m Q'.
Proof. intros H HQ. eapply triple_weaken; [exact H|done| |done]. intros a s [? ?]. auto. Qed.

(** A read of the store: as many slices as ranges when it is honest. *)
Lemma get_ranges_ok ranges :
  (good -> Forall (fun r => r.1 + r.2 <= len data + len (tail_of sha256 data)) ranges) ->
  yields good (io_get_ranges io (segment_blob (seg_id meta) POSTINGS_BIN) ranges)
    (fun parts => good -> parts = (fun r => cut (data ++ tail_of sha256 data) r.1 (r.1 + r.2)) <$> ranges).
Proof.
  intros Hr w _. pose proof (ps_no_panic Hps (segment_blob (seg_id meta) POSTINGS_BIN) ranges w) as Hnp.
  destruct (io_get_ranges _ _ _ _) as [[parts|e|why] w'] eqn:E; cbn [fst] in Hnp; [| |by apply (Hnp why)].
  - intros Hg. destruct (ps_honest Hps (proj1 Hg) ranges w (Hr Hg)) as [w2 E2]. rewrite E in E2. by injection E2 as -> _.
  - intros Hg. destruct (ps_honest Hps (proj1 Hg) ranges w (Hr Hg)) as [w2 E2]. by rewrite E in E2.
Qed.

Lemma table_range_ok i : i < len (table_of sha256 data) ->
  let r := block_range table i in
  r.1 = i * VERIFY_BLOCK_BYTES /\ r.2 = N.min VERIFY_BLOCK_BYTES (len data - i * VERIFY_BLOCK_BYTES) /\ i * VERIFY_BLOCK_BYTES < len data /\
  get (table_of sha256 data) i = Some (sha256 (cut data r.1 (r.1 + r.2))).
Proof.
  intros Hi. destruct (get_is_Some _ _ Hi) as [hash Hh]. pose proof (sp_fit Hsp) as Hfit.
  pose proof (block_slice sha256 data i hash ltac:(lia) Hh) as Hs. cbv zeta in Hs. cbv zeta.
  rewrite table_of_len in Hi. assert (i * VERIFY_BLOCK_BYTES < len data) as Hoff.
  { destruct (decide (len data = 0)) as [E|E]; [rewrite E, div_ceil_0 in Hi by done; lia|].
    pose proof (div_ceil_lt (len data) VERIFY_BLOCK_BYTES ltac:(done) ltac:(lia)). unfold VERIFY_BLOCK_BYTES in *. nia. }
  unfold block_range in *. cbn [index_data_len fst snd] in *. rewrite wrapping_sub_small in * by lia.
  split; [done|]. split; [done|]. split; [done|]. destruct Hs as (block & Hb & _ & ->). rewrite Hh. do 2 f_equal.
  rewrite cut_get_range in Hb; [by injection Hb|lia|lia].
Qed.

(** ** The table *)

Lemma cached_bytes_ok path blob (fetch : ST W (list N)) :
  (forall bytes, sha256 bytes = sha256 blob -> bytes = blob) -> yields good fetch (fun bytes => good -> bytes = blob) ->
  yields good (cached_bytes io sha256 path (hex (sha256 blob)) fetch) (fun bytes => bytes = blob).
Proof.
  intros Hinj Hfetch. unfold cached_bytes. eapply yields_bind.
  - unfold read_verified, infallible. apply (yields_bind _ _ _ (fun _ => True)).
    { intros w _. by destruct (io_read_file io path w) as [r w']. }
    intros r _. apply (yields_ret _ _ (fun hit => forall bytes, hit = Some bytes -> bytes = blob)).
    intros bytes. destruct r as [b|]; [|done]. case_bool_decide as E; [|done]. intros [= <-]. by apply Hinj, hex_inj.
  - intros [bytes|] Hhit; [by apply yields_ret, Hhit|]. eapply yields_bind; [exact Hfetch|]. intros bytes Hb.
    eapply yields_bind; [apply yields_lift, sound_ensure; intros Hg; apply bool_decide_eq_true; by rewrite Hb|].
    intros _ E%bool_decide_eq_true. eapply yields_bind; [apply yields_modify|]. intros _ _. apply yields_ret. by apply Hinj, hex_inj.
Qed.

Lemma table_tail_len : div_ceil (postings_data_len meta) VERIFY_BLOCK_BYTES * 32 + FOOTER_BYTES = len (tail_of sha256 data).
Proof. rewrite (sp_data_len Hsp), posting_tail_len by apply (sp_sha Hsp). rewrite table_of_len. unfold FOOTER_BYTES. lia. Qed.

Lemma fetch_tail_ok :
  yields good (fetch_tail io (seg_id meta) (len data) (len (tail_of sha256 data))) (fun bytes => good -> bytes = tail_of sha256 data).
Proof.
  unfold fetch_tail. eapply yields_bind; [apply get_ranges_ok; intros _; apply Forall_singleton; cbn [fst snd]; lia|].
  intros parts Hparts. eapply yields_bind; [apply yields_lift, sound_ensure; intros Hg; by rewrite Hparts|].
  intros _ H%N.eqb_eq. destruct parts as [|part [|]]; [done| |rewrite !len_cons in H; lia]. cbn [get].
  apply yields_lift, sound_expect. exists part. split; [done|]. intros Hg. specialize (Hparts Hg). cbn in Hparts. injection Hparts as ->.
  replace (len data) with (len data + 0) at 1 by lia. rewrite cut_app_shift. unfold cut. rewrite N.sub_0_r, to_nat_len.
  change (N.to_nat 0) with 0%nat. by rewrite drop_0, take_ge.
Qed.

Lemma postings_table_ok : keeps (postings_table io sha256 meta) (fun t => t = table).
Proof.
  unfold postings_table. apply (triple_bind _ _ _ (fun t s => memo_ok s.2 /\ t = memo_table s.2)).
  { by intros s Hs. }
  intros [t|]. { intros s [[E|E] Hm]; rewrite E in Hm; [done|]. injection Hm as ->. split; [by right|done]. }
  apply (triple_weaken (fun s => memo_ok s.2) _ _ (fun t s => memo_ok s.2 /\ t = table) _ (fun s => memo_ok s.2 /\ ~ good)); [|by intros ? [? _]|done..].
  rewrite table_tail_len, (sp_len Hsp), (sp_data_len Hsp), (sp_tail Hsp). pose proof (sp_fit Hsp) as Hfit.
  eapply keeps_bind; [apply keeps_lift, sound_ensure; intros _; apply bool_decide_eq_true, checked_add_Some; done|]. intros _ _.
  eapply keeps_bind; [apply keeps_fst, cached_bytes_ok; [apply (sp_tail_digest Hsp)|apply fetch_tail_ok]|]. intros tail ->.
  eapply (keeps_bind _ _ (fun t => t = table)).
  { apply keeps_lift. right. exists table. split; [|done]. apply (parse_tail sha256 (sp_sha Hsp) data []); [apply N.le_0_l|exact Hfit]. }
  intros t ->. eapply keeps_bind; [apply keeps_lift, sound_ensure; intros _; apply N.eqb_refl|]. intros _ _.
  intros s Hs. cbn. split; [by right|done].
Qed.

(** ** The blocks *)

Definition payload_of (i : N) : list N := let r := block_range table i in cut data r.1 (r.1 + r.2).
Definition payloads_ok (payloads : gmap N (list N)) : Prop := forall i bytes, payloads !! i = Some bytes -> bytes = payload_of i.

Lemma payload_digest i bytes : sha256 bytes = sha256 (payload_of i) -> bytes = payload_of i.
Proof. apply (sp_digest Hsp). Qed.

Definition found (ids : list N) (s : gmap N (list N) * list N) : Prop :=
  payloads_ok s.1 /\ (forall i, i ∈ s.2 -> i ∈ ids) /\ forall i, i ∈ ids -> is_Some (s.1 !! i) \/ i ∈ s.2.

Lemma find_payload_ok pre s i :
  i < len (table_of sha256 data) -> found pre s -> keeps (find_payload io sha256 range_cache_max meta table s i) (found (pre ++ [i])).
Proof.
  intros Hi (Hp & Hsub & Hall). destruct s as [payloads missing]. unfold find_payload. cbn [fst snd] in *.
  destruct (table_range_ok i Hi) as (_ & _ & _ & Hhash).
  apply (keeps_bind _ _ (fun hit => forall bytes, hit = Some bytes -> bytes = payload_of i)).
  { destruct (range_cache range_cache_max); [|by apply keeps_ret]. apply (keeps_bind _ _ (fun h => h = sha256 (payload_of i))).
    - apply keeps_lift, sound_expect. cbn [index_hashes]. eauto.
    - intros h ->. apply keeps_fst. unfold read_verified, infallible. apply (yields_bind _ _ _ (fun _ => True)).
      { intros w _. by destruct (io_read_file io _ w) as [r w']. }
      intros r _. apply yields_ret. intros bytes. destruct r as [b|]; [|done]. case_bool_decide as E; [|done].
      intros [= <-]. by apply payload_digest, hex_inj. }
  intros hit Hhit. apply keeps_ret. destruct hit as [bytes|]; cbn [fst snd]; (split; [|split]); cbn [fst snd].
  - intros j b. rewrite lookup_insert_Some. intros [[<- <-]|[_ Hj]]; [by apply Hhit|by apply Hp].
  - intros j Hj. apply elem_of_app. left. by apply Hsub.
  - intros j [Hj| ->%list_elem_of_singleton]%elem_of_app; [|left; rewrite lookup_insert_eq; eauto].
    destruct (Hall j Hj) as [H|H]; [|by right]. left. destruct (decide (i = j)) as [->|]; [rewrite lookup_insert_eq; eauto|by rewrite lookup_insert_ne].
  - exact Hp.
  - intros j [Hj| ->%list_elem_of_singleton]%elem_of_app; apply elem_of_app; [left; by apply Hsub|right; left].
  - intros j [Hj| ->%list_elem_of_singleton]%elem_of_app; [|right; apply elem_of_app; right; left].
    destruct (Hall j Hj); [by left|right; apply elem_of_app; by left].
Qed.

Lemma find_payloads_ok ids :
  (forall i, i ∈ ids -> i < len (table_of sha256 data)) ->
  keeps (foldS (find_payload io sha256 range_cache_max meta table) (∅, []) ids) (found ids).
Proof.
  intros Hids. eapply (triple_weaken (fun s => memo_ok s.2 /\ found [] (∅, []))).
  - apply (triple_foldS (fun pre (b : gmap N (list N) * list N) (s : W * Memo) => memo_ok s.2 /\ found pre b)). intros pre i post b E.
    apply triple_pure. intros Hf. apply find_payload_ok; [apply Hids; rewrite E; set_solver|exact Hf].
  - intros s Hs. split; [done|]. split; [intros i b H; cbn [fst] in H; by rewrite lookup_empty in H|]. split; by intros i ?%elem_of_nil.
  - done.
  - done.
Qed.

Lemma len_payload i : i < len (table_of sha256 data) -> len (payload_of i) = (block_range table i).2.
Proof.
  intros Hi. destruct (table_range_ok i Hi) as (H1 & H2 & H3 & _). unfold payload_of. cbv zeta. rewrite H1, H2, len_cut by lia. lia.
Qed.

Lemma verify_ok i bytes :
  i < len (table_of sha256 data) -> (good -> bytes = payload_of i) -> sound good (verify sha256 table i bytes) (fun _ => bytes = payload_of i).
Proof.
  intros Hi Hb. pose proof (len_payload i Hi) as Hl. destruct (table_range_ok i Hi) as (_ & _ & _ & Hh). unfold verify.
  destruct (block_range table i) as [offset n] eqn:E. cbn [snd] in Hl.
  destruct (N.eqb_spec (len bytes) n) as [_|Hne]; [|left; eexists; split; [done|]; intros Hg; by rewrite (Hb Hg) in Hne].
  cbn [index_hashes]. rewrite Hh. cbn [expect mbind res_bind]. fold (payload_of i).
  assert (cut data (offset, n).1 ((offset, n).1 + (offset, n).2) = payload_of i) as -> by (unfold payload_of; by rewrite E).
  case_bool_decide as Es; cbn [ensure]; [right; exists tt; split; [done|]; by apply payload_digest|].
  left. eexists. split; [done|]. intros Hg. by rewrite (Hb Hg) in Es.
Qed.

Lemma store_payload_ok payloads i bytes :
  i < len (table_of sha256 data) -> (good -> bytes = payload_of i) -> payloads_ok payloads ->
  keeps (store_payload io sha256 evict_range_cache range_cache_max meta table payloads (i, bytes))
    (fun p => p = <[i := bytes]> payloads /\ payloads_ok p).
Proof.
  intros Hi Hb Hp. unfold store_payload. eapply keeps_bind; [by apply keeps_lift, verify_ok|]. intros u E. cbv beta in E. clear u.
  apply (keeps_bind _ _ (fun _ => True)).
  - destruct (range_cache range_cache_max); [|by apply keeps_ret]. eapply keeps_bind; [by apply keeps_modify|]. intros _ _.
    apply keeps_modify. intros [w memo]. unfold note_range_written, sweep_if_due. destruct (range_cache_max =? 0); [done|].
    by destruct (_ <=? _).
  - intros _ _. apply keeps_ret. split; [done|]. intros j b. rewrite lookup_insert_Some. intros [[Hij Hbb]|[_ Hj]]; [congruence|by apply Hp].
Qed.

Lemma fetch_missing_ok ids payloads missing :
  (forall i, i ∈ ids -> i < len (table_of sha256 data)) -> found ids (payloads, missing) ->
  keeps (fetch_missing io sha256 evict_range_cache range_cache_max meta table payloads missing)
    (fun p => forall i, i ∈ ids -> p !! i = Some (payload_of i)).
Proof.
  intros Hids (Hp & Hsub & Hall). cbn [fst snd] in *.
  assert (forall p : gmap N (list N), payloads_ok p -> (forall i, i ∈ ids -> is_Some (p !! i)) -> forall i, i ∈ ids -> p !! i = Some (payload_of i)) as Hend.
  { intros p Hok Hdom i Hi. destruct (Hdom i Hi) as [b Hb]. rewrite Hb. f_equal. by apply Hok. }
  destruct missing as [|m missing]; cbn [fetch_missing].
  { apply keeps_ret, Hend; [done|]. intros i Hi. by destruct (Hall i Hi) as [|?%elem_of_nil]. }
  set (ms := m :: missing) in *. assert (forall i, i ∈ ms -> i < len (table_of sha256 data)) as Hms by auto.
  eapply keeps_bind; [apply keeps_fst, get_ranges_ok; intros _; apply Forall_fmap, Forall_forall; intros i Hi;
    destruct (table_range_ok i (Hms i Hi)) as (H1 & H2 & H3 & _); unfold compose; cbv beta zeta in *; rewrite H1, H2; lia|].
  intros fetched Hfetched. eapply keeps_bind; [apply keeps_lift, sound_ensure; intros Hg; rewrite Hfetched, !len_fmap by done; apply N.eqb_refl|].
  intros _ Hlen%N.eqb_eq. apply (keeps_weaken _ (fun p : gmap N (list N) => payloads_ok p /\ forall i, is_Some (payloads !! i) \/ i ∈ ms -> is_Some (p !! i))); [|intros p [Hok Hdom]; apply Hend; [exact Hok|]; intros i Hi; apply Hdom, Hall, Hi].
  assert ((zip ms fetched).*1 = ms) as Hfst by (apply fst_zip; unfold len in Hlen; lia).
  apply (triple_weaken (fun s => memo_ok s.2 /\ payloads_ok payloads /\ forall i, is_Some (payloads !! i) \/ i ∈ (@nil (N * list N)).*1 -> is_Some (payloads !! i))
    _ _ (fun p s => memo_ok s.2 /\ payloads_ok p /\ forall i, is_Some (payloads !! i) \/ i ∈ (zip ms fetched).*1 -> is_Some (p !! i)) _
    (fun s => memo_ok s.2 /\ ~ good)); [| |by rewrite Hfst|done].
  2: { intros s Hs. split; [done|]. split; [done|]. by intros i [?|?%elem_of_nil]. }
  apply (triple_foldS (fun pre (p : gmap N (list N)) (s : W * Memo) => memo_ok s.2 /\ payloads_ok p /\
    forall i, is_Some (payloads !! i) \/ i ∈ pre.*1 -> is_Some (p !! i))).
  intros pre [i bytes] post p Hsplit. apply triple_pure. intros [Hok Hdom].
  assert ((i, bytes) ∈ zip ms fetched) as Hin by (rewrite Hsplit; set_solver).
  eapply keeps_weaken; [apply store_payload_ok; [apply Hms; rewrite <- Hfst; apply list_elem_of_fmap; by exists (i, bytes)| |exact Hok]|].
  - intros Hg. rewrite (Hfetched Hg) in Hin. rewrite <- list_fmap_compose in Hin. apply elem_of_zip_fmap in Hin as [Hi ->].
    destruct (table_range_ok i (Hms i Hi)) as (H1 & H2 & H3 & _). unfold payload_of, compose. cbv zeta. apply cut_app_l. rewrite H1, H2. lia.
  - intros p' [-> Hok']. split; [done|]. intros j. rewrite fmap_app, elem_of_app. cbn [fmap list_fmap fst]. rewrite list_elem_of_singleton.
    intros H. destruct (decide (i = j)) as [->|]; [rewrite lookup_insert_eq; eauto|]. rewrite lookup_insert_ne by done. apply Hdom. naive_solver.
Qed.

(** ** The slices *)

Lemma range_pieces_cut lo hi first last :
  last = div_ceil hi VERIFY_BLOCK_BYTES -> first <= last -> lo < (first + 1) * VERIFY_BLOCK_BYTES ->
  concat ((fun i => cut data (N.max lo (i * VERIFY_BLOCK_BYTES)) (N.min hi ((i + 1) * VERIFY_BLOCK_BYTES))) <$> range first last) =
    cut data (N.max lo (first * VERIFY_BLOCK_BYTES)) hi.
Proof.
  intros Hlast. remember (N.to_nat (last - first)) as n eqn:En. revert first En. induction n as [|n IH]; intros first En Hle Hlo.
  { rewrite range_nil by lia. symmetry. apply cut_nil. pose proof (div_ceil_le hi VERIFY_BLOCK_BYTES ltac:(done)). unfold VERIFY_BLOCK_BYTES in *. nia. }
  rewrite range_cons by lia. cbn [fmap list_fmap concat]. change (list_fmap _ _ ?f (range ?a ?b)) with (f <$> range a b).
  rewrite IH by (unfold VERIFY_BLOCK_BYTES in *; lia). pose proof (div_ceil_lt hi VERIFY_BLOCK_BYTES ltac:(done)) as Hlt.
  assert (first * VERIFY_BLOCK_BYTES < hi) as Hf. { unfold VERIFY_BLOCK_BYTES in *. destruct (decide (hi = 0)) as [->|]; [rewrite div_ceil_0 in Hlast by done; lia|nia]. }
  rewrite (N.max_r lo ((first + 1) * _)) by lia. destruct (N.min_spec hi ((first + 1) * VERIFY_BLOCK_BYTES)) as [[H ->]|[H ->]].
  - rewrite (cut_nil data ((first + 1) * _)) by lia. apply app_nil_r.
  - apply cut_app; unfold VERIFY_BLOCK_BYTES in *; lia.
Qed.

Lemma covering_ok offset length_ :
  0 < length_ -> offset + length_ <= len data ->
  blocks_covering table offset length_ = Ok (offset / VERIFY_BLOCK_BYTES, div_ceil (offset + length_) VERIFY_BLOCK_BYTES) /\
  forall i, i ∈ range (offset / VERIFY_BLOCK_BYTES) (div_ceil (offset + length_) VERIFY_BLOCK_BYTES) -> i < len (table_of sha256 data).
Proof.
  intros Hl Hend. pose proof (sp_fit Hsp) as Hfit. assert (blocks_covering table offset length_ =
    Ok (offset / VERIFY_BLOCK_BYTES, div_ceil (offset + length_) VERIFY_BLOCK_BYTES)) as E.
  { unfold blocks_covering. assert (checked_add U64 offset length_ = Some (offset + length_)) as -> by (apply checked_add_Some; split; [done|lia]). cbn [with_context mbind res_bind index_data_len].
    rewrite (proj2 (N.leb_le _ _) Hend), (proj2 (N.ltb_lt _ _) Hl). done. }
  split; [exact E|]. intros i Hi%elem_of_range. apply blocks_covering_spec in E as (_ & H & _); [|apply table_of_len|cbn; lia]. cbn [index_hashes] in H. lia.
Qed.

Lemma cut_range_ok payloads offset length_ :
  0 < length_ -> offset + length_ <= len data ->
  (forall i, i ∈ range (offset / VERIFY_BLOCK_BYTES) (div_ceil (offset + length_) VERIFY_BLOCK_BYTES) -> payloads !! i = Some (payload_of i)) ->
  cut_range table payloads offset length_ = Ok (cut data offset (offset + length_)).
Proof.
  intros Hl Hend Hp. pose proof (sp_fit Hsp) as Hfit. destruct (covering_ok offset length_ Hl Hend) as [E Hcov]. unfold cut_range. rewrite E.
  cbn [mbind res_bind]. set (first := offset / _) in *. set (last := div_ceil _ _) in *.
  assert (forall i, i ∈ range first last -> block_piece table payloads offset length_ i =
    Ok (cut data (N.max offset (i * VERIFY_BLOCK_BYTES)) (N.min (offset + length_) ((i + 1) * VERIFY_BLOCK_BYTES)))) as Hpiece.
  { intros i Hi. destruct (table_range_ok i (Hcov i Hi)) as (H1 & H2 & H3 & _). specialize (Hp i Hi). unfold block_piece.
    unfold payload_of in Hp. cbv zeta in *. destruct (block_range table i) as [at_ n]. cbn [fst snd] in *. rewrite Hp. cbn [with_context mbind res_bind].
    apply blocks_covering_spec in E as (_ & _ & _ & Hb); [|apply table_of_len|cbn; lia].
    unfold wrapping_add. rewrite !N.mod_small by lia. apply elem_of_range in Hi.
    assert (offset < (i + 1) * VERIFY_BLOCK_BYTES) as Hlo by (subst first; unfold VERIFY_BLOCK_BYTES in *; lia).
    assert (i * VERIFY_BLOCK_BYTES < offset + length_) as Hhi.
    { subst last. pose proof (div_ceil_lt (offset + length_) VERIFY_BLOCK_BYTES ltac:(done) ltac:(lia)). unfold VERIFY_BLOCK_BYTES in *. nia. }
    rewrite !wrapping_sub_small by (unfold VERIFY_BLOCK_BYTES in *; lia).
    assert (len (cut data at_ (at_ + n)) = n) as Hlc by (rewrite len_cut by (unfold VERIFY_BLOCK_BYTES in *; lia); lia).
    rewrite cut_get_range by (unfold VERIFY_BLOCK_BYTES in *; lia). cbn [expect]. f_equal. rewrite cut_cut by (unfold VERIFY_BLOCK_BYTES in *; lia).
    f_equal; unfold VERIFY_BLOCK_BYTES in *; lia. }
  destruct (mapM_res_total (block_piece table payloads offset length_) (fun i piece => piece =
    cut data (N.max offset (i * VERIFY_BLOCK_BYTES)) (N.min (offset + length_) ((i + 1) * VERIFY_BLOCK_BYTES))) (range first last)) as (pieces & -> & Hpieces).
  { intros i Hi. eexists. split; [by apply Hpiece|done]. }
  cbn [mbind res_bind]. f_equal. assert (pieces = (fun i => cut data (N.max offset (i * VERIFY_BLOCK_BYTES))
    (N.min (offset + length_) ((i + 1) * VERIFY_BLOCK_BYTES))) <$> range first last) as ->.
  { clear -Hpieces. induction Hpieces as [|i piece l pieces -> _ IH]; [done|]. cbn. by f_equal. }
  rewrite range_pieces_cut; [|done| |]; subst first last; unfold VERIFY_BLOCK_BYTES in *; [f_equal; lia| |lia].
  pose proof (div_ceil_le (offset + length_) (64 * 1024) ltac:(done)). nia.
Qed.

(** ** The lists *)

Definition entry_range (entry : N * (N * N)) : N * N := (entry.1, entry.2.2).
Definition in_bounds (entry : N * (N * N)) : Prop :=
  0 < entry.2.1 <= id_space /\ 0 < entry.2.2 /\ entry.1 + entry.2.2 <= len data.

Lemma posting_ranges_ok :
  sound good (posting_ranges needed id_space (len data))
    (fun ranges => ranges = entry_range <$> btree_iter needed /\ Forall in_bounds (btree_iter needed)).
Proof.
  pose proof (sp_fit Hsp) as Hfit. unfold posting_ranges.
  destruct (sound_mapM good (fun '(offset, (count, length_)) =>
    ensure (0 <? count) "term map contains an empty posting list";;
    ensure (count <=? id_space) "term map posting count exceeds its segment document count";;
    ensure (0 <? length_) "term map posting length is zero";;
    end_ ← with_context (checked_add U64 offset length_) "term map posting length overflows";
    ensure (end_ <=? len data) "term map posting extends beyond the postings data region";;
    Ok (offset, length_)) (fun entry r => r = entry_range entry /\ in_bounds entry) (btree_iter needed)) as [H|(ranges & -> & H)].
  - intros [offset [count length_]] Hin%elem_of_btree_iter.
    assert (good -> in_bounds (offset, (count, length_))) as Hb by (intros [_ Hok]; by destruct (Hok _ _ _ Hin) as (ids & ? & ? & ? & _)).
    unfold in_bounds in *. cbn [fst snd] in *. unfold checked_add.
    destruct (N.ltb_spec 0 count), (N.leb_spec count id_space), (N.ltb_spec 0 length_), (N.ltb_spec (offset + length_) U64);
      cbn [ensure mbind res_bind with_context]; try (left; eexists; split; [done|]; intros Hg; specialize (Hb Hg); lia).
    destruct (N.leb_spec (offset + length_) (len data)); cbn [ensure mbind res_bind];
      [right; eexists; split; [done|]; split; [done|lia]|left; eexists; split; [done|]; intros Hg; specialize (Hb Hg); lia].
  - by left.
  - right. exists ranges. split; [done|]. clear -H.
    induction H as [|e r l ranges [-> He] _ [-> IH]]; [done|]. by split; [|constructor].
Qed.

Lemma decode_sound bytes count : Forall is_byte bytes -> id_space < U32 ->
  (good -> exists ids, decode_ids strategy bytes count id_space = Ok ids) ->
  sound good (decode_ids strategy bytes count id_space) (fun ids => decode_ids strategy bytes count id_space = Ok ids).
Proof.
  intros Hb Hid Hok. assert (no_panic (decode_ids strategy bytes count id_space)) as Hnp.
  { unfold decode_ids. destruct strategy; [by apply decode_posting_block_safe|by apply decode_delta_blocks_safe]. }
  destruct (decode_ids _ _ _ _) as [ids|e|why] eqn:E; [right; by exists ids| |by destruct (Hnp why)].
  left. exists e. split; [done|]. intros Hg. by destruct (Hok Hg).
Qed.

Lemma read_list_ok payloads entry :
  id_space < U32 -> entry ∈ btree_iter needed -> in_bounds entry ->
  (forall i, i ∈ range (entry.1 / VERIFY_BLOCK_BYTES) (div_ceil (entry.1 + entry.2.2) VERIFY_BLOCK_BYTES) -> payloads !! i = Some (payload_of i)) ->
  sound good (bytes ← cut_range table payloads entry.1 entry.2.2; ids ← decode_ids strategy bytes entry.2.1 id_space; Ok (entry.1, ids))
    (fun d => d.1 = entry.1 /\ reads entry.1 entry.2.1 entry.2.2 d.2).
Proof.
  intros Hid Hin (Hc & Hl & Hend) Hp. rewrite (cut_range_ok payloads) by done. cbn [mbind res_bind]. destruct entry as [offset [count length_]].
  cbn [fst snd] in *. apply elem_of_btree_iter in Hin.
  destruct (decode_sound (cut data offset (offset + length_)) count) as [(e & -> & H)|(ids & E & _)].
  - apply Forall_take, Forall_drop, (sp_bytes Hsp).
  - done.
  - intros [_ Hok]. destruct (Hok _ _ _ Hin) as (ids & _ & _ & _ & E). by exists ids.
  - left. by exists e.
  - rewrite E. right. exists (offset, ids). split; [done|]. split; [done|]. done.
Qed.

Lemma coverings_ok :
  Forall in_bounds (btree_iter needed) ->
  exists covering, mapM_res (fun '(offset, length_) => '(first, last) ← blocks_covering table offset length_; Ok (range first last))
      (entry_range <$> btree_iter needed) = Ok covering /\
    (forall i, i ∈ concat covering -> i < len (table_of sha256 data)) /\
    forall entry i, entry ∈ btree_iter needed ->
      i ∈ range (entry.1 / VERIFY_BLOCK_BYTES) (div_ceil (entry.1 + entry.2.2) VERIFY_BLOCK_BYTES) -> i ∈ concat covering.
Proof.
  induction 1 as [|entry entries (_ & Hl & Hend) _ (covering & IHe & IHlt & IHall)].
  { exists []. split; [done|]. split; by intros ? ?%elem_of_nil || (intros ? ? ?%elem_of_nil). }
  destruct (covering_ok entry.1 entry.2.2 Hl Hend) as [E Hlt]. cbn [fmap list_fmap mapM_res entry_range]. rewrite E. cbn [mbind res_bind].
  change (list_fmap _ _ entry_range entries) with (entry_range <$> entries). rewrite IHe. cbn [mbind res_bind]. eexists. split; [done|]. cbn [concat]. split.
  - intros i [H|H]%elem_of_app; [by apply Hlt|by apply IHlt].
  - intros entry' i [->|H]%elem_of_cons Hi; apply elem_of_app; [by left|right; by eapply IHall].
Qed.

Definition blocks_of_needed (blocks : gmap N (list N)) : Prop := forall offset,
  match needed !! offset with
  | Some (count, length_) => exists ids, reads offset count length_ ids /\ blocks !! offset = Some ids
  | None => blocks !! offset = None
  end.

Lemma decoded_blocks decoded :
  Forall2 (fun entry d => d.1 = entry.1 /\ reads entry.1 entry.2.1 entry.2.2 d.2) (btree_iter needed) decoded ->
  blocks_of_needed (list_to_map decoded).
Proof.
  intros H. assert (decoded.*1 = (btree_iter needed).*1) as Hkeys.
  { clear -H. induction H as [|e d l l' [E _] _ IH]; [done|]. cbn. by f_equal. }
  intros offset. destruct (needed !! offset) as [[count length_]|] eqn:E.
  - apply elem_of_btree_iter in E as Hin. apply list_elem_of_lookup in Hin as [k Hk]. destruct (Forall2_lookup_l _ _ _ _ _ H Hk) as ([o ids] & Hd & Ho & Hr).
    cbn in Ho, Hr. subst o. exists ids. split; [exact Hr|]. apply elem_of_list_to_map_1; [rewrite Hkeys; apply btree_keys_nodup|].
    by eapply list_elem_of_lookup_2.
  - apply not_elem_of_list_to_map_1. rewrite Hkeys. intros ([o x] & -> & Hin)%list_elem_of_fmap. apply elem_of_btree_iter in Hin. cbn in E. congruence.
Qed.

Lemma read_posting_blocks_ok :
  id_space < U32 ->
  keeps (read_posting_blocks io sha256 evict_range_cache range_cache_max strategy meta needed id_space) blocks_of_needed.
Proof.
  intros Hid. unfold read_posting_blocks. destruct (decide (needed = ∅)) as [Hn|_].
  { apply keeps_ret. intros offset. by rewrite Hn, !lookup_empty. }
  eapply keeps_bind; [apply postings_table_ok|]. intros t ->. cbn [index_data_len].
  eapply keeps_bind; [apply keeps_lift, posting_ranges_ok|]. intros ranges [-> Hb].
  destruct (coverings_ok Hb) as (covering & Hcov & Hlt & Hall). rewrite Hcov.
  apply (keeps_bind _ _ (fun c => c = covering)); [apply keeps_lift; right; by exists covering|]. intros c ->.
  eapply keeps_bind; [apply find_payloads_ok; intros i Hi; by apply Hlt, (elem_of_sort_dedup i)|]. intros [payloads missing] Hf.
  eapply keeps_bind; [apply (fetch_missing_ok (sort_dedup (concat covering)) payloads missing); [intros i Hi; by apply Hlt, (elem_of_sort_dedup i)|exact Hf]|]. intros payloads' Hp.
  eapply keeps_bind; [|intros decoded Hd; apply keeps_ret, decoded_blocks; exact Hd].
  apply keeps_lift. rewrite zip_fmap_r_self. rewrite mapM_res_fmap. apply sound_mapM. intros entry Hin. rewrite Forall_forall in Hb.
  destruct entry as [offset [count length_]]. apply read_list_ok; [done|done|by apply Hb|].
  intros i Hi. apply Hp, elem_of_sort_dedup. by eapply Hall.
Qed.
End proofs.

Lemma reads_ascending strategy data id_space offset count length_ ids :
  Forall is_byte data -> id_space < U32 -> reads strategy data id_space offset count length_ ids -> ascending ids.
Proof.
  intros Hb Hid (_ & _ & _ & Hd). unfold decode_ids in Hd.
  assert (Forall is_byte (cut data offset (offset + length_))) as Hc by apply Forall_take, Forall_drop, Hb.
  destruct strategy; [by apply decode_posting_block_safe in Hd as [[? _] _]|by apply decode_delta_blocks_safe in Hd as [[? _] _]].
Qed.

(** ** Property *)

(** C21: reading posting blocks is exact.  Whatever the cache files and the store
    return, a read never panics; what it returns has exactly the lists asked
    for, each the ids that the segment's postings hold at that place, and it
    fails only when the store is not honest or a list that was asked for is not
    there.  The table kept for the next read is the one of the segment. *)
Theorem posting_blocks_exact {W} (io : Io W) sha256 evict_range_cache range_cache_max strategy meta data needed id_space honest w memo :
  stored_postings sha256 meta data -> postings_store_ok io sha256 meta data honest -> id_space < U32 -> memo_ok sha256 data memo ->
  match read_posting_blocks io sha256 evict_range_cache range_cache_max strategy meta needed id_space (w, memo) with
  | (Ok blocks, (_, memo')) => blocks_of_needed strategy data needed id_space blocks /\ memo_ok sha256 data memo'
  | (Err _, (_, memo')) => ~ (honest /\ needed_ok strategy data needed id_space) /\ memo_ok sha256 data memo'
  | (Panic _, _) => False
  end.
Proof.
  intros Hsp Hps Hid Hmemo.
  pose proof (read_posting_blocks_ok io sha256 evict_range_cache range_cache_max strategy meta data needed id_space honest Hsp Hps Hid (w, memo) Hmemo) as H.
  destruct (read_posting_blocks _ _ _ _ _ _ _ _ _) as [[blocks|e|why] [w' memo']]; [|by destruct H|done]. by destruct H.
Qed.

(** ** What the search asks of a segment *)

(** C22: the posting reader implements what the search asks of a segment.
    When the lists the dictionary names are those the segment's postings hold,
    an honest store makes [read_posting_blocks] fetch each of them, ascending,
    whatever the cache files hold. *)
Theorem posting_reader_implements {W} (io : Io W) sha256 evict_range_cache range_cache_max strategy meta data id_space lookup_ content w memo :
  stored_postings sha256 meta data -> postings_store_ok io sha256 meta data True -> id_space < U32 -> memo_ok sha256 data memo ->
  (forall offset count length_, from_dictionary id_space lookup_ offset count length_ ->
    reads strategy data id_space offset count length_ (content offset)) ->
  fetch_ok id_space lookup_ content
    (fun needed => (read_posting_blocks io sha256 evict_range_cache range_cache_max strategy meta needed id_space (w, memo)).1).
Proof.
  intros Hsp Hps Hid Hmemo Hlists needed Hneeded.
  pose proof (read_posting_blocks_ok io sha256 evict_range_cache range_cache_max strategy meta data needed id_space True Hsp Hps Hid (w, memo) Hmemo) as H.
  destruct (read_posting_blocks _ _ _ _ _ _ _ _ _) as [[blocks|e|why] [w' memo']]; cbn [fst]; [| |done].
  - destruct H as [_ H]. exists blocks. split; [done|]. split.
    + intros offset ids Hb. specialize (H offset). destruct (needed !! offset) as [[count length_]|]; [|congruence].
      destruct H as (ids' & Hr & E). rewrite Hb in E. injection E as <-. eapply reads_ascending; [apply (sp_bytes _ _ _ Hsp)|exact Hid|exact Hr].
    + intros offset [[count length_] E]. specialize (H offset). rewrite E in H. destruct H as (ids & Hr & ->). f_equal.
      destruct (Hlists _ _ _ (Hneeded _ _ _ E)) as (_ & _ & _ & Hd). destruct Hr as (_ & _ & _ & Hr). congruence.
  - destruct H as [_ []]. split; [done|]. intros offset count length_ E. eexists. by apply Hlists, Hneeded.
Qed.

(** A digest without collisions. *)
Definition code_sha256 (bytes : list N) : list N := N.pos (encode bytes) :: replicate 31 0.
Lemma code_sha256_inj a b : code_sha256 a = code_sha256 b -> a = b.
Proof. intros [= H]. by apply (inj encode). Qed.

Definition demo_postings : list N := Eval vm_compute in encode_posting_block [2; 5; 6] 10.
Definition demo_meta : SegmentMeta := {|
  seg_id := [49]; seg_doc_count := 10; SegmentList.block_count := 10; terms_fst_len := 0; terms_fst_hash := []; terms_tail_hash := [];
  postings_len := len demo_postings + len (tail_of code_sha256 demo_postings); postings_hash := [];
  postings_data_len := len demo_postings; postings_tail_hash := hex (code_sha256 (tail_of code_sha256 demo_postings));
  docs_len := 0; docs_hash := []; min_key := []; max_key := []; dead_hash := []; dead_len := 0; failed_source_count := 0; seg_packs := [];
|}.
(** A store with the blob, no cache files. *)
Definition demo_io : Io unit := {|
  io_get_ranges := fun _ ranges w =>
    (Ok ((fun r => cut (demo_postings ++ tail_of code_sha256 demo_postings) r.1 (r.1 + r.2)) <$> ranges), w);
  io_read_file := fun _ w => (None, w);
  io_write_back := fun _ _ w => w;
|}.

Lemma demo_stored : stored_postings code_sha256 demo_meta demo_postings.
Proof.
  split; try done.
  - repeat constructor.
  - intros bytes. by apply code_sha256_inj.
  - intros bytes a b. by apply code_sha256_inj.
Qed.
Lemma demo_store_ok : postings_store_ok demo_io code_sha256 demo_meta demo_postings True.
Proof. split; [done|]. intros _ ranges w _. by exists w. Qed.

Lemma posting_blocks_exact_witness :
  match read_posting_blocks demo_io code_sha256 (fun _ w => w) 0 Trigram demo_meta {[0 := (3, 2)]} 10 (tt, {| memo_table := None; range_written := 0 |}) with
  | (Ok blocks, (_, memo')) => blocks_of_needed Trigram demo_postings {[0 := (3, 2)]} 10 blocks /\ memo_ok code_sha256 demo_postings memo'
  | (Err _, (_, memo')) => ~ (True /\ needed_ok Trigram demo_postings {[0 := (3, 2)]} 10) /\ memo_ok code_sha256 demo_postings memo'
  | (Panic _, _) => False
  end.
Proof.
  apply (posting_blocks_exact demo_io code_sha256 (fun _ w => w) 0 Trigram demo_meta demo_postings {[0 := (3, 2)]} 10 True).
  - exact demo_stored.
  - exact demo_store_ok.
  - done.
  - by left.
Defined.

Definition listed_lookup (g : list N) : res (option TermValue) :=
  if bool_decide (g = [97; 98; 99]) then value ← pack_posting 0 3; Ok (Some {| packed := value; tv_len := None |}) else Ok None.

Lemma posting_reader_implements_witness :
  fetch_ok 10 listed_lookup (fun _ => [2; 5; 6])
    (fun needed => (read_posting_blocks demo_io code_sha256 (fun _ w => w) 0 Trigram demo_meta needed 10 (tt, {| memo_table := None; range_written := 0 |})).1).
Proof.
  apply (posting_reader_implements demo_io code_sha256 (fun _ w => w) 0 Trigram demo_meta demo_postings 10 listed_lookup (fun _ => [2; 5; 6]) tt).
  - exact demo_stored.
  - exact demo_store_ok.
  - done.
  - by left.
  - intros offset count length_ (g & value & Hg & Hu & _ & _ & ->). unfold listed_lookup in Hg. case_bool_decide; [|done].
    vm_compute in Hg. injection Hg as <-. vm_compute in Hu. injection Hu as <- <-. vm_compute. repeat split; congruence.
Defined.
