(* ===== verification/SegmentSearch.v ===== *)
(** * Searching the segments of an index (crates/index/src/segment.rs)

    [read_candidate_batches] goes through the segments whose keys may have the
    prefix, evaluates the plans against each, and hands the addresses of the
    live candidate documents to a visitor, in batches bounded by a number of
    documents and by the bytes of the blocks they lie in; the visitor may stop
    the search.  What a segment offers, its tables, its dictionary and its
    posting blocks, is a record of operations: [PostingRead] has the posting
    blocks, [Eval] the queries and [Candidate] the documents of a selection.  A
    trigram segment has postings of blocks, a sparse one of documents; the search
    is proved for both.  For a sparse dictionary that stays in the store, the
    code looks up all grams of the plans first ([read_term_values]); here that is
    the lookup of the segment. *)

From S2P Require Import Prelude BitPack Bytes Postings Trigrams SparseGrams QueryPlan Eval Format Candidate PackBuild PackRead PackBatch PackFetch SegmentList PostingRead.

(** [seagrep_core::IndexAddress], [seagrep_core::DocAddress] *)
Record IndexAddress : Type := { ia_segment : N; ia_document : N; ia_ranges : option (list CandidateRange) }.
Record DocAddress : Type := {
  da_display_key : list N; da_source_key : list N; da_source_version : list N; da_encoded_size : N; da_encoding : SourceEncoding;
  da_member_path : option (list N); da_index : option IndexAddress;
}.

(** A segment as the search sees it: [segment_tables], the dictionary and
    [read_posting_blocks]. *)
Record SegmentOps : Type := {
  so_meta : SegmentMeta; so_dead : DeadSet; so_tables : res SegmentTables;
  so_lookup : list N -> res (option TermValue); so_fetch : gmap N (N * N) -> res (gmap N (list N));
}.

(** [prefix.split_once("!/")]: the part before it, the whole without one. *)
Fixpoint before_member (prefix : list N) : list N :=
  match prefix with
  | [] => []
  | c :: rest =>
      match c, rest with
      | 33, 47 :: _ => []
      | _, _ => c :: before_member rest
      end
  end.

Definition segment_block_bases (meta : SegmentMeta) (tables : SegmentTables) : res (list N) :=
  bases ← build_block_bases tables;
  ensure (default 0 (last bases) =? SegmentList.block_count meta) "segment candidate block count differs from its document table";;
  Ok bases.

Section search.
Context (strategy : Strategy) (plans : list CandidatePlan) (limits : CandidateBatchLimits).

(** ** The candidates of a segment *)

(** [single_selection] and [documents] *)
Definition take_selection (doc_count : N) (bases : option (list N)) (s : option Selection * gmap N (option (list CandidateRange)))
    (plan : N) (selection : Selection) : res (option Selection * gmap N (option (list CandidateRange))) :=
  if len plans =? 1 then Ok (Some selection, s.2)
  else
    p ← expect (get plans plan) "index out of bounds";
    documents ← add_candidate_selection s.2 selection (plan_extent p) strategy doc_count bases;
    Ok (s.1, documents).

(** The closure for [expand]: postings of a sparse segment are documents. *)
Definition expand_for (tables : SegmentTables) (bases : option (list N)) (plan id : N) : N * N :=
  match strategy with Trigram => expand_plan tables (default [] bases) plans plan id | Sparse => (id, id) end.

Definition segment_candidates (segment : SegmentOps) (tables : SegmentTables) (bases : option (list N))
    : res (list (N * option (list CandidateRange))) :=
  let doc_count := seg_doc_count (so_meta segment) in
  id_space ← to_u32 (SegmentList.block_count (so_meta segment));
  '(single, documents) ← visit_candidate_selections id_space strategy (so_lookup segment) (expand_for tables bases)
    (so_fetch segment) (take_selection doc_count bases) plans (None, ∅);
  match single with
  | Some selection =>
      plan ← expect (get plans 0) "index out of bounds";
      candidate_documents selection (plan_extent plan) strategy doc_count bases
  | None => Ok (btree_iter documents)
  end.

(** ** Batches *)

(** [batch], [batch_bytes], [batch_blocks] *)
Record Batch : Type := { bt_docs : list DocAddress; bt_bytes : N; bt_blocks : list N }.
Definition new_batch : Batch := {| bt_docs := []; bt_bytes := 0; bt_blocks := [] |}.

Definition bounds_decoded : bool := negb (limit_decoded_bytes limits =? u64_max).

Definition sum_bytes (tables : SegmentTables) (message : string) (ids : list N) : res N :=
  foldM (fun total id =>
    block ← expect (get (blocks tables) id) "index out of bounds";
    with_context (checked_add U64 total (decoded_len block)) message) 0 ids.

Definition document_span (tables : SegmentTables) (document : DocEntry) : res (N * N) :=
  if bounds_decoded then
    block_span {| ps_first_block := first_block document; ps_block_offset := block_offset document |} (decoded_size document) (blocks tables)
  else Ok (0, 0).

Definition address_of (segment_id : N) (source : SourceEntry) (document : DocEntry) (id : N) (ranges : option (list CandidateRange)) : DocAddress := {|
  da_display_key := display_key document; da_source_key := key source; da_source_version := version source;
  da_encoded_size := encoded_size source; da_encoding := encoding source; da_member_path := member_path document;
  da_index := Some {| ia_segment := segment_id; ia_document := id; ia_ranges := ranges |};
|}.

(** One block of a document that joins the batch. *)
Definition add_block (tables : SegmentTables) (s : N * list N) (block_id : N) : res (N * list N) :=
  let '(bytes, seen) := s in
  if bool_decide (block_id ∈ seen) then Ok s
  else
    block ← expect (get (blocks tables) block_id) "index out of bounds";
    bytes ← with_context (checked_add U64 bytes (decoded_len block)) "candidate batch physical bytes overflow";
    Ok (bytes, set_insert block_id seen).

Section visit.
Context {S : Type} (visit : S -> list DocAddress -> res (S * bool)).

(** The visitor's state alone when it has stopped the search. *)
Abbreviation Flow T := (S + S * T)%type.

Definition flush (s : S) (docs : list DocAddress) : res (Flow Batch) :=
  '(s, go) ← visit s docs;
  Ok (if go : bool then inr (s, new_batch) else inl s).

Definition batch_step (segment_id : N) (tables : SegmentTables) (s : S) (b : Batch) (candidate : N * option (list CandidateRange))
    : res (Flow Batch) :=
  let '(id, ranges) := candidate in
  document ← expect (get (documents tables) id) "index out of bounds";
  '(first, end_) ← document_span tables document;
  let pack_blocks := range first end_ in
  document_bytes ← sum_bytes tables "candidate document physical bytes overflow" pack_blocks;
  added_bytes ← sum_bytes tables "candidate batch physical bytes overflow" (filter (fun id => id ∉ bt_blocks b) pack_blocks);
  let isolated := bounds_decoded && ((LARGE_DOCUMENT_BYTES <=? decoded_size document) || (limit_decoded_bytes limits <? document_bytes)) in
  let filled := negb (bool_decide (bt_docs b = [])) in
  let exceeds := filled && ((limit_documents limits <=? len (bt_docs b)) || (wrapping_sub U64 (limit_decoded_bytes limits) (bt_bytes b) <? added_bytes)) in
  flow ← (if (isolated || exceeds) && filled then flush s (bt_docs b) else Ok (inr (s, b)));
  match flow with
  | inl s => Ok (inl s)
  | inr (s, b) =>
      source ← expect (get (sources tables) (source_id document)) "index out of bounds";
      let docs := bt_docs b ++ [address_of segment_id source document id ranges] in
      '(bytes, seen) ← foldM (add_block tables) (bt_bytes b, bt_blocks b) pack_blocks;
      if isolated then flush s docs else Ok (inr (s, {| bt_docs := docs; bt_bytes := bytes; bt_blocks := seen |}))
  end.

Fixpoint batch_loop (segment_id : N) (tables : SegmentTables) (candidates : list (N * option (list CandidateRange))) (s : S) (b : Batch)
    : res (Flow Batch) :=
  match candidates with
  | [] => Ok (inr (s, b))
  | candidate :: candidates =>
      flow ← batch_step segment_id tables s b candidate;
      match flow with
      | inl s => Ok (inl s)
      | inr (s, b) => batch_loop segment_id tables candidates s b
      end
  end.

Definition is_live (dead : DeadSet) (candidate : N * option (list CandidateRange)) : bool := negb (binary_search candidate.1 (dead_documents dead)).

(** One segment; [inl] when the search is over. *)
Definition read_segment (segment_id : N) (segment : SegmentOps) (s : S) : res (S + S) :=
  tables ← so_tables segment;
  bases ← (match strategy with
    | Trigram => bases ← segment_block_bases (so_meta segment) tables; Ok (Some bases)
    | Sparse => Ok None
    end);
  candidates ← segment_candidates segment tables bases;
  flow ← batch_loop segment_id tables (List.filter (is_live (so_dead segment)) candidates) s new_batch;
  match flow with
  | inl s => Ok (inl s)
  | inr (s, b) =>
      if bool_decide (bt_docs b = []) then Ok (inr s)
      else '(s, go) ← visit s (bt_docs b); Ok (if go : bool then inr s else inl s)
  end.

Fixpoint read_segments (prefix : option (list N)) (segment_id : N) (segments : list SegmentOps) (s : S) : res S :=
  match segments with
  | [] => Ok s
  | segment :: segments =>
      if match prefix with Some prefix => negb (prefix_overlaps (so_meta segment) prefix) | None => false end then
        read_segments prefix (segment_id + 1) segments s
      else
        flow ← read_segment segment_id segment s;
        match flow with
        | inl s => Ok s
        | inr s => read_segments prefix (segment_id + 1) segments s
        end
  end.

Definition read_candidate_batches (key_prefix : option (list N)) (segments : list SegmentOps) (s : S) : res S :=
  validate_candidate_plans plans limits;;
  read_segments (before_member <$> key_prefix) 0 segments s.
End visit.
End search.

(** [read_candidate_docs] *)
Definition read_candidate_docs (strategy : Strategy) (q : Query) (key_prefix : option (list N)) (segments : list SegmentOps) : res (list DocAddress) :=
  let plan := {| plan_query := q; plan_extent := ELines |} in
  documents ← read_candidate_batches strategy [plan] {| limit_documents := 16384; limit_decoded_bytes := u64_max |}
    (fun documents batch => Ok (documents ++ batch, true)) key_prefix segments [];
  Ok (sort_by (fun a b => bytes_leb (da_display_key a) (da_display_key b)) documents).

(** ** What the visitor is given *)

(** The batches one after the other, until the visitor stops. *)
Fixpoint run {S} (visit : S -> list DocAddress -> res (S * bool)) (batches : list (list DocAddress)) (s : S) : res (S + S) :=
  match batches with
  | [] => Ok (inr s)
  | batch :: batches => '(s, go) ← visit s batch; if go : bool then run visit batches s else Ok (inl s)
  end.
Definition and_then {S T} (r : res (S + S)) (f : S -> res (S + T)) : res (S + T) :=
  flow ← r; match flow with inl s => Ok (inl s) | inr s => f s end.

Lemma run_app {S} (visit : S -> list DocAddress -> res (S * bool)) bs1 bs2 s :
  run visit (bs1 ++ bs2) s = and_then (run visit bs1 s) (run visit bs2).
Proof.
  revert s. induction bs1 as [|b bs1 IH]; intros s; [done|]. cbn [app run]. destruct (visit s b) as [[s' go]|?|?]; [|done..].
  cbn [mbind res_bind]. destruct go; [apply IH|done].
Qed.
Lemma and_then_assoc {S T} (r : res (S + S)) (f : S -> res (S + S)) (g : S -> res (S + T)) :
  and_then (and_then r f) g = and_then r (fun s => and_then (f s) g).
Proof. by destruct r as [[s|s]|?|?]. Qed.

(** The bytes of some blocks. *)
Definition blocks_bytes (tables : SegmentTables) (ids : list N) : N :=
  foldr (fun id total => default 0 (decoded_len <$> get (blocks tables) id) + total) 0 ids.

Lemma blocks_bytes_perm tables l1 l2 : l1 ≡ₚ l2 -> blocks_bytes tables l1 = blocks_bytes tables l2.
Proof. unfold blocks_bytes. induction 1; cbn [foldr]; lia. Qed.
Lemma blocks_bytes_cons tables id b ids : get (blocks tables) id = Some b -> blocks_bytes tables (id :: ids) = decoded_len b + blocks_bytes tables ids.
Proof. intros E. unfold blocks_bytes. cbn [foldr]. by rewrite E. Qed.
Lemma blocks_bytes_app tables l1 l2 : blocks_bytes tables (l1 ++ l2) = blocks_bytes tables l1 + blocks_bytes tables l2.
Proof. unfold blocks_bytes. induction l1 as [|x l1 IH]; cbn [app foldr]; lia. Qed.

(** Tables whose documents lie in their blocks and have their sources. *)
Record tables_fit (tables : SegmentTables) : Prop := {
  tf_span : forall i d, get (documents tables) i = Some d -> exists first end_,
    block_span {| ps_first_block := first_block d; ps_block_offset := block_offset d |} (decoded_size d) (blocks tables) = Ok (first, end_) /\
    end_ <= len (blocks tables);
  tf_source : forall i d, get (documents tables) i = Some d -> is_Some (get (sources tables) (source_id d));
  tf_count : len (blocks tables) < U32;
  tf_sizes : Forall (fun b => decoded_len b < U32) (blocks tables);
}.

Section sums.
Context (tables : SegmentTables) (Hfit : tables_fit tables).

Lemma block_size_small id : default 0 (decoded_len <$> get (blocks tables) id) < U32.
Proof.
  pose proof (tf_sizes _ Hfit) as Hs. rewrite Forall_forall in Hs. destruct (get (blocks tables) id) as [b|] eqn:E; cbn; [|lia].
  apply Hs. by eapply get_elem.
Qed.
Lemma blocks_bytes_small ids : NoDup ids -> (forall id, id ∈ ids -> id < len (blocks tables)) -> blocks_bytes tables ids < U64.
Proof.
  intros Hnd Hids. assert (blocks_bytes tables ids <= len ids * (U32 - 1)) as Hle.
  { clear Hnd Hids. induction ids as [|id ids IH]; [cbn; lia|]. rewrite len_cons. unfold blocks_bytes in *. cbn [foldr]. pose proof (block_size_small id). lia. }
  assert (len ids <= len (blocks tables)) as Hlen.
  { assert (ids ⊆+ range 0 (len (blocks tables))) as Hsub by (apply NoDup_submseteq; [done|]; intros id Hid; apply elem_of_range; split; [lia|auto]).
    apply submseteq_length in Hsub. pose proof (len_range 0 (len (blocks tables))) as Hr. unfold len in *. lia. }
  pose proof (tf_count _ Hfit). nia.
Qed.

Lemma sum_bytes_ok message ids : NoDup ids -> (forall id, id ∈ ids -> id < len (blocks tables)) -> sum_bytes tables message ids = Ok (blocks_bytes tables ids).
Proof.
  intros Hnd Hids. pose proof (blocks_bytes_small ids Hnd Hids) as Hb. clear Hnd. unfold sum_bytes.
  cut (forall total, total + blocks_bytes tables ids < U64 -> foldM (fun total id =>
    block ← expect (get (blocks tables) id) "index out of bounds";
    with_context (checked_add U64 total (decoded_len block)) message) total ids = Ok (total + blocks_bytes tables ids)).
  { intros H. by rewrite H by lia. }
  clear Hb. induction ids as [|id ids IH]; intros total Hb; [cbn; f_equal; lia|]. cbn [foldM].
  destruct (get_is_Some (blocks tables) id (Hids id ltac:(left))) as [b E]. rewrite E. cbn [expect mbind res_bind].
  rewrite (blocks_bytes_cons _ _ _ _ E) in *.
  assert (checked_add U64 total (decoded_len b) = Some (total + decoded_len b)) as -> by (apply checked_add_Some; split; [done|lia]).
  cbn [with_context mbind res_bind]. rewrite IH; [f_equal; lia|intros; apply Hids; by right|lia].
Qed.

(** The blocks of a batch: each once. *)
Definition seen_ok (seen : list N) : Prop := NoDup seen /\ forall id, id ∈ seen -> id < len (blocks tables).

Lemma set_insert_new id seen : NoDup seen -> id ∉ seen -> set_insert id seen ≡ₚ id :: seen.
Proof.
  intros Hnd Hid. apply NoDup_Permutation; [apply ascending_nodup, sort_dedup_ascending|by constructor|].
  intros x. unfold set_insert. by rewrite elem_of_sort_dedup.
Qed.

Lemma add_blocks_ok ids seen :
  seen_ok seen -> NoDup ids -> (forall id, id ∈ ids -> id < len (blocks tables)) ->
  exists seen', foldM (add_block tables) (blocks_bytes tables seen, seen) ids = Ok (blocks_bytes tables seen', seen') /\ seen_ok seen' /\
    (forall id, id ∈ seen' <-> id ∈ seen \/ id ∈ ids) /\
    blocks_bytes tables seen' = blocks_bytes tables seen + blocks_bytes tables (filter (fun id => id ∉ seen) ids).
Proof.
  revert seen. induction ids as [|id ids IH]; intros seen Hok Hnd Hids.
  { exists seen. split; [done|]. split; [done|]. split; [set_solver|]. cbn. lia. }
  apply NoDup_cons in Hnd as [Hid Hnd]. cbn [foldM add_block]. case_bool_decide as Hin.
  - cbn [mbind res_bind]. destruct (IH seen Hok Hnd) as (seen' & -> & H1 & H2 & H3); [intros; apply Hids; by right|].
    exists seen'. split; [done|]. split; [done|]. split; [intros x; rewrite H2, elem_of_cons; naive_solver|]. by rewrite H3, filter_cons_False by naive_solver.
  - destruct (get_is_Some (blocks tables) id (Hids id ltac:(left))) as [b E]. rewrite E. cbn [expect mbind res_bind].
    pose proof (set_insert_new id seen (proj1 Hok) Hin) as Hp. assert (blocks_bytes tables (set_insert id seen) = blocks_bytes tables seen + decoded_len b) as Hb.
    { rewrite (blocks_bytes_perm _ _ _ Hp), (blocks_bytes_cons _ _ _ _ E). lia. }
    assert (seen_ok (set_insert id seen)) as Hok'.
    { split; [rewrite Hp; constructor; [done|apply Hok]|]. intros x. rewrite Hp. intros [->|Hx]%elem_of_cons; [apply Hids; left|by apply Hok]. }
    assert (checked_add U64 (blocks_bytes tables seen) (decoded_len b) = Some (blocks_bytes tables (set_insert id seen))) as ->.
    { apply checked_add_Some. split; [lia|]. rewrite <- Hb. by apply blocks_bytes_small; apply Hok'. }
    cbn [with_context mbind res_bind]. destruct (IH (set_insert id seen) Hok' Hnd) as (seen' & -> & H1 & H2 & H3); [intros; apply Hids; by right|].
    exists seen'. split; [done|]. split; [done|]. split; [intros x; rewrite H2, Hp, !elem_of_cons; naive_solver|].
    rewrite H3, Hb, filter_cons_True, (blocks_bytes_cons _ _ _ _ E) by done.
    rewrite (filter_ext_in (fun x => x ∉ set_insert id seen) (fun x => x ∉ seen)); [lia|].
    intros x Hx. rewrite Hp, elem_of_cons. split; [naive_solver|]. intros ? [->|]; done.
Qed.
End sums.

(** ** Batches are bounded *)

Section batching.
Context (limits : CandidateBatchLimits) (segment_id : N) (tables : SegmentTables) (Hfit : tables_fit tables).
Context (Hdocs : 0 < limit_documents limits) (Hbytes : limit_decoded_bytes limits < U64).

(** The blocks a candidate's document lies in, when the search bounds them. *)
Definition doc_blocks (c : N * option (list CandidateRange)) : list N :=
  match get (documents tables) c.1 with
  | Some d => match document_span limits tables d with Ok (first, end_) => range first end_ | _ => [] end
  | None => []
  end.
Definition addressed (c : N * option (list CandidateRange)) (address : DocAddress) : Prop :=
  exists d source, get (documents tables) c.1 = Some d /\ get (sources tables) (source_id d) = Some source /\
    address = address_of segment_id source d c.1 c.2.
(** A document that has a batch of its own. *)
Definition alone (c : N * option (list CandidateRange)) : Prop :=
  exists d, get (documents tables) c.1 = Some d /\ bounds_decoded limits = true /\
    (LARGE_DOCUMENT_BYTES <= decoded_size d \/ limit_decoded_bytes limits < blocks_bytes tables (doc_blocks c)).
Definition batch_fits (group : list (N * option (list CandidateRange))) : Prop :=
  group <> [] /\
  ((len group <= limit_documents limits /\
    (bounds_decoded limits = true -> blocks_bytes tables (sort_dedup (concat (doc_blocks <$> group))) <= limit_decoded_bytes limits)) \/
   exists c, group = [c] /\ alone c).

(** The current batch. *)
Record filling (group : list (N * option (list CandidateRange))) (b : Batch) : Prop := {
  fi_docs : Forall2 addressed group (bt_docs b);
  fi_seen : seen_ok tables (bt_blocks b);
  fi_blocks : forall id, id ∈ bt_blocks b <-> id ∈ concat (doc_blocks <$> group);
  fi_bytes : bt_bytes b = blocks_bytes tables (bt_blocks b);
  fi_len : len group <= limit_documents limits;
  fi_limit : bounds_decoded limits = true -> bt_bytes b <= limit_decoded_bytes limits;
}.

Lemma filling_nil : filling [] new_batch.
Proof.
  split; [apply Forall2_nil_2| |done|done|apply N.le_0_l|intros _; apply N.le_0_l]. split; [apply NoDup_nil_2|by intros ? ?%elem_of_nil].
Qed.

Lemma filling_fits group b : filling group b -> group <> [] -> batch_fits group.
Proof.
  intros [_ [Hnd _] Hb Hs Hl Hlim] Hne. split; [exact Hne|]. left. split; [exact Hl|]. intros Hbd.
  rewrite (blocks_bytes_perm _ _ (bt_blocks b)); [rewrite <- Hs; by apply Hlim|].
  apply NoDup_Permutation; [apply ascending_nodup, sort_dedup_ascending|done|]. intros x. by rewrite elem_of_sort_dedup, Hb.
Qed.

Lemma doc_span_ok c d :
  get (documents tables) c.1 = Some d -> exists first end_, document_span limits tables d = Ok (first, end_) /\
    doc_blocks c = range first end_ /\ (forall id, id ∈ range first end_ -> id < len (blocks tables)) /\
    (bounds_decoded limits = false -> range first end_ = []).
Proof.
  intros Hd. unfold doc_blocks. rewrite Hd. unfold document_span. destruct (bounds_decoded limits).
  - destruct (tf_span _ Hfit _ _ Hd) as (first & end_ & -> & He). exists first, end_. split; [done|]. split; [done|]. split; [|done].
    intros id ?%elem_of_range. lia.
  - exists 0, 0. split; [done|]. split; [done|]. split; [|done]. intros id ?%elem_of_range. lia.
Qed.

Lemma flush_run {S} (visit : S -> list DocAddress -> res (S * bool)) s docs :
  flush visit s docs = and_then (run visit [docs] s) (fun s => Ok (inr (s, new_batch))).
Proof. unfold flush, and_then. cbn [run]. destruct (visit s docs) as [[s' []]|?|?]; done. Qed.

(** Documents enter a batch they fit in, or go alone. *)
Lemma add_document_ok group b c d (iso : bool) :
  filling group b -> get (documents tables) c.1 = Some d ->
  iso = bounds_decoded limits && ((LARGE_DOCUMENT_BYTES <=? decoded_size d) || (limit_decoded_bytes limits <? blocks_bytes tables (doc_blocks c))) ->
  (group <> [] -> iso = false /\ len group < limit_documents limits /\
    bt_bytes b + blocks_bytes tables (filter (fun id => id ∉ bt_blocks b) (doc_blocks c)) <= limit_decoded_bytes limits) ->
  exists groups batches group' b', concat groups ++ group' = group ++ [c] /\
    Forall2 (Forall2 addressed) groups batches /\ Forall batch_fits groups /\ filling group' b' /\
    forall S (visit : S -> list DocAddress -> res (S * bool)) s,
      (source ← expect (get (sources tables) (source_id d)) "index out of bounds";
       let docs := bt_docs b ++ [address_of segment_id source d c.1 c.2] in
       '(bytes, seen) ← foldM (add_block tables) (bt_bytes b, bt_blocks b) (doc_blocks c);
       if iso then flush visit s docs else Ok (inr (s, {| bt_docs := docs; bt_bytes := bytes; bt_blocks := seen |}))) =
      and_then (run visit batches s) (fun s => Ok (inr (s, b'))).
Proof.
  intros [F1 F2 F3 F4 F5 F6] Hd Hiso Hroom. destruct (tf_source _ Hfit _ _ Hd) as [source Hs]. rewrite Hs. cbn [expect mbind res_bind].
  destruct (doc_span_ok c d Hd) as (first & end_ & _ & Hdb & Hlt & Hnone).
  destruct (add_blocks_ok tables Hfit (doc_blocks c) (bt_blocks b) F2) as (seen' & Hadd & G1 & G2 & G3); [rewrite Hdb; apply range_nodup|by rewrite Hdb|].
  rewrite F4, Hadd. cbn [mbind res_bind]. assert (Forall2 addressed (group ++ [c]) (bt_docs b ++ [address_of segment_id source d c.1 c.2])) as Haddr.
  { apply Forall2_app; [done|]. constructor; [|constructor]. by exists d, source. }
  destruct iso.
  - assert (group = []) as -> by (destruct group; [done|by destruct (Hroom ltac:(done))]).
    exists [[c]], [bt_docs b ++ [address_of segment_id source d c.1 c.2]], [], new_batch. split; [done|]. split; [by constructor|]. split; [|split; [apply filling_nil|]].
    + constructor; [|constructor]. split; [done|]. right. exists c. split; [done|]. exists d. split; [done|].
      symmetry in Hiso. apply andb_true_iff in Hiso as [H1 H2]. split; [done|]. apply orb_true_iff in H2 as [?%N.leb_le|?%N.ltb_lt]; [by left|by right].
    + intros S visit s. apply flush_run.
  - exists [], [], (group ++ [c]), {| bt_docs := bt_docs b ++ [address_of segment_id source d c.1 c.2]; bt_bytes := blocks_bytes tables seen'; bt_blocks := seen' |}.
    split; [done|]. split; [constructor|]. split; [constructor|]. split; [|done]. split; cbn [bt_docs bt_bytes bt_blocks]; [done|done| |done| |].
    + intros id. rewrite fmap_app, concat_app, elem_of_app, G2, F3. cbn. by rewrite app_nil_r.
    + rewrite len_app. change (len [c]) with 1. destruct group as [|g group]; [rewrite len_nil; lia|]. destruct (Hroom ltac:(done)) as (_ & ? & _). lia.
    + intros Hbd. rewrite G3. destruct group as [|g group].
      * destruct (bt_blocks b) as [|x seen]; [|exfalso; cbn in F3; specialize (F3 x); set_solver]. cbn [blocks_bytes foldr].
        rewrite filter_all by (intros ? _; apply not_elem_of_nil).
        rewrite Hbd in Hiso. symmetry in Hiso. cbn [andb] in Hiso. apply orb_false_iff in Hiso as [_ ?%N.ltb_ge]. lia.
      * destruct (Hroom ltac:(done)) as (_ & _ & ?). lia.
Qed.

(** What a step does to any visitor. *)
Definition steps (pre : list (N * option (list CandidateRange))) (f : forall S, (S -> list DocAddress -> res (S * bool)) -> S -> res (S + S * Batch))
    (added : list (N * option (list CandidateRange))) : Prop :=
  exists groups batches group' b', concat groups ++ group' = pre ++ added /\
    Forall2 (Forall2 addressed) groups batches /\ Forall batch_fits groups /\ filling group' b' /\
    forall S (visit : S -> list DocAddress -> res (S * bool)) s, f S visit s = and_then (run visit batches s) (fun s => Ok (inr (s, b'))).

Lemma batch_step_ok group b c :
  filling group b -> c.1 < len (documents tables) ->
  steps group (fun S visit s => batch_step limits visit segment_id tables s b c) [c].
Proof.
  intros Hb Hc. destruct (get_is_Some _ _ Hc) as [d Hd]. destruct (doc_span_ok c d Hd) as (first & end_ & Hspan & Hdb & Hlt & Hnone).
  pose proof (fun ids Hnd Hin => sum_bytes_ok tables Hfit "candidate document physical bytes overflow" ids Hnd Hin) as Hsum.
  pose proof (fun ids Hnd Hin => sum_bytes_ok tables Hfit "candidate batch physical bytes overflow" ids Hnd Hin) as Hsum2.
  unfold steps, batch_step. destruct c as [id ranges]. cbn [fst snd] in *. rewrite Hd. cbn [expect mbind res_bind]. rewrite Hspan. cbn [mbind res_bind].
  rewrite <- Hdb in *. rewrite Hsum, Hsum2; [|by apply NoDup_filter; rewrite Hdb; apply range_nodup|by intros x [_ ?]%list_elem_of_filter; apply Hlt|
    by rewrite Hdb; apply range_nodup|done]. cbn [mbind res_bind].
  set (iso := bounds_decoded limits && _). set (filled := negb (bool_decide (bt_docs b = []))).
  assert (filled = true <-> group <> []) as Hfilled.
  { subst filled. pose proof (fi_docs _ _ Hb) as Hd2. destruct Hd2; [by rewrite bool_decide_eq_true_2 by done|by rewrite bool_decide_eq_false_2 by done]. }
  set (exceeds := filled && _). destruct ((iso || exceeds) && filled) eqn:Eflush.
  - apply andb_true_iff in Eflush as [_ Ef]. apply Hfilled in Ef.
    destruct (add_document_ok [] new_batch (id, ranges) d iso filling_nil Hd eq_refl ltac:(done)) as (groups & batches & group' & b' & E1 & E2 & E3 & E4 & E5).
    exists (group :: groups), (bt_docs b :: batches), group', b'. split; [cbn [concat]; by rewrite <- app_assoc, E1|].
    split; [constructor; [apply (fi_docs _ _ Hb)|exact E2]|]. split; [constructor; [by eapply filling_fits|exact E3]|]. split; [exact E4|].
    intros S visit s. rewrite flush_run. change (bt_docs b :: batches) with ([bt_docs b] ++ batches). rewrite run_app, and_then_assoc. unfold and_then at 1 2.
    destruct (run visit [bt_docs b] s) as [[s'|s']|?|?]; cbn [mbind res_bind]; [done| |done..]. apply E5.
  - cbn [mbind res_bind]. apply (add_document_ok group b (id, ranges) d iso Hb Hd eq_refl). intros Hne. apply Hfilled in Hne as Hf.
    rewrite Hf, andb_true_r in Eflush. apply orb_false_iff in Eflush as [Hiso Hex]. split; [exact Hiso|]. subst exceeds. rewrite Hf in Hex. cbn [andb] in Hex.
    apply orb_false_iff in Hex as [Hcount%N.leb_gt Hadd%N.ltb_ge].
    pose proof (Forall2_length _ _ _ (fi_docs _ _ Hb)) as Hlen. split; [unfold len in *; by rewrite Hlen|]. destruct (bounds_decoded limits) eqn:Ebd.
    + pose proof (fi_limit _ _ Hb Ebd) as Hl. rewrite wrapping_sub_small in Hadd by lia. lia.
    + rewrite (Hnone eq_refl), filter_nil. change (blocks_bytes tables []) with 0. unfold bounds_decoded in Ebd. apply negb_false_iff, N.eqb_eq in Ebd.
      rewrite (fi_bytes _ _ Hb). pose proof (blocks_bytes_small tables Hfit (bt_blocks b) (proj1 (fi_seen _ _ Hb)) (proj2 (fi_seen _ _ Hb))).
      rewrite Ebd. lia.
Qed.

Lemma batch_loop_ok group b cs :
  filling group b -> (forall c, c ∈ cs -> c.1 < len (documents tables)) ->
  steps group (fun S visit s => batch_loop limits visit segment_id tables cs s b) cs.
Proof.
  revert group b. induction cs as [|c cs IH]; intros group b Hb Hcs.
  { exists [], [], group, b. split; [cbn; by rewrite app_nil_r|]. split; [constructor|]. split; [constructor|]. split; [done|]. done. }
  destruct (batch_step_ok group b c Hb) as (groups & batches & group' & b' & E1 & E2 & E3 & E4 & E5); [apply Hcs; left|].
  destruct (IH group' b' E4) as (groups2 & batches2 & group2 & b2 & G1 & G2 & G3 & G4 & G5); [intros; apply Hcs; by right|].
  exists (groups ++ groups2), (batches ++ batches2), group2, b2. split; [|split; [by apply Forall2_app|split; [by apply Forall_app|split; [exact G4|]]]].
  - rewrite concat_app, <- app_assoc, G1. change (c :: cs) with ([c] ++ cs). by rewrite !app_assoc, E1.
  - intros S visit s. cbn [batch_loop]. rewrite E5, run_app, and_then_assoc. unfold and_then at 1 2.
    destruct (run visit batches s) as [[s'|s']|?|?]; cbn [mbind res_bind]; [done| |done..]. apply G5.
Qed.
End batching.

(** ** Selections stay inside the id space *)

(** The ids a resolved query can start from: its own and those of its lists. *)
Section start_ids.
Context (known : N -> Prop) (blocks : gmap N (list N)).
Fixpoint starts_from (r : Resolved) : Prop :=
  match r with
  | RDoc id => known id
  | RGram offset _ _ => forall ids id, blocks !! offset = Some ids -> id ∈ ids -> known id
  | RAnd rs | ROr rs => foldr (fun r acc => starts_from r /\ acc) True rs
  | _ => True
  end.
Lemma starts_from_children rs : foldr (fun r acc => starts_from r /\ acc) True rs <-> Forall starts_from rs.
Proof. induction rs as [|r rs IH]; cbn; [done|]. by rewrite IH, Forall_cons. Qed.

Lemma starts_from_any r : (forall id, known id) -> starts_from r.
Proof.
  intros H. induction r as [| |id|o c l|rs IH|rs IH] using resolved_ind'; cbn [starts_from]; [done|done|apply H|intros; apply H| |];
    by apply starts_from_children.
Qed.
End start_ids.

Section bounded.
Context (blocks : gmap N (list N)) (expand : N -> N * N) (known : N -> Prop) (n : N).
Context (Hexpand : forall id x, known id -> (expand id).1 <= x <= (expand id).2 -> x < n).

Definition below (s : Selection) : Prop := match s with SAll => True | SIds ids => forall id, id ∈ ids -> id < n end.

Lemma expand_below ids x : (forall id, id ∈ ids -> known id) -> x ∈ expand_ids ids (Some expand) -> x < n.
Proof.
  intros Hids. cbn [expand_ids]. rewrite elem_of_sort_dedup, list_elem_of_bind. intros (id & Hx & Hid). apply (Hexpand id); [by apply Hids|].
  destruct (expand id) as [lo hi]. apply elem_of_range in Hx. cbn. lia.
Qed.
Lemma intersect_subset a b x : x ∈ intersect a b -> x ∈ a.
Proof.
  revert b. induction a as [|y a IH]; intros b; [by destruct b|]. induction b as [|z b IHb]; cbn [intersect]; [by intros ?%elem_of_nil|].
  destruct (y ?= z); [|intros H; right; by apply (IH (z :: b))|apply IHb].
  intros [->|H]%elem_of_cons; [left|right; by apply (IH b)].
Qed.
Lemma intersect_all_subset acc sets x : x ∈ intersect_all acc sets -> x ∈ acc.
Proof.
  revert acc. induction sets as [|set sets IH]; intros acc; cbn [intersect_all]; [done|]. intros H. apply (intersect_subset acc set).
  destruct (intersect acc set); [by apply elem_of_nil in H|by apply IH].
Qed.
Lemma and_sets_below sets : (forall set, set ∈ sets -> forall id, id ∈ set -> id < n) -> below (and_sets sets).
Proof.
  intros H. unfold and_sets. pose proof (fun set => elem_of_sort_by (fun a b : list N => (length a <=? length b)%nat) set sets) as Hin.
  destruct (sort_by _ sets) as [|acc rest]; [done|]. cbn. intros id Hid%intersect_all_subset. apply (H acc); [apply Hin; left|done].
Qed.

Lemma eval_and_below rs sets s :
  Forall (fun r => forall s, eval blocks (Some expand) r = Ok s -> below s) rs -> (forall set, set ∈ sets -> forall id, id ∈ set -> id < n) ->
  (fix and_children (children : list Resolved) (sets : list (list N)) : res Selection :=
      match children with
      | [] => Ok (and_sets sets)
      | child :: children =>
          s ← eval blocks (Some expand) child;
          match s with
          | SAll => and_children children sets
          | SIds [] => Ok (SIds [])
          | SIds ids => and_children children (sets ++ [ids])
          end
      end) rs sets = Ok s -> below s.
Proof.
  intros Hrs. revert sets. induction Hrs as [|r rs Hr _ IH]; intros sets Hsets H; [injection H as <-; by apply and_sets_below|].
  destruct (eval blocks (Some expand) r) as [sr|?|?] eqn:Er; [|done..]. specialize (Hr sr eq_refl). cbn [mbind res_bind] in H.
  destruct sr as [|[|id ids]]; [by apply (IH sets)|injection H as <-; by intros ? ?%elem_of_nil|].
  apply (IH (sets ++ [id :: ids])); [|exact H]. intros set [Hin| ->%list_elem_of_singleton]%elem_of_app; [by apply Hsets|exact Hr].
Qed.
Lemma eval_or_below rs lists s :
  Forall (fun r => forall s, eval blocks (Some expand) r = Ok s -> below s) rs -> (forall l, l ∈ lists -> forall id, id ∈ l -> id < n) ->
  (fix or_children (children : list Resolved) (lists : list (list N)) : res Selection :=
      match children with
      | [] => Ok (SIds (union_many lists))
      | child :: children =>
          s ← eval blocks (Some expand) child;
          match s with
          | SAll => Ok SAll
          | SIds ids => or_children children (lists ++ [ids])
          end
      end) rs lists = Ok s -> below s.
Proof.
  intros Hrs. revert lists. induction Hrs as [|r rs Hr _ IH]; intros lists Hlists H.
  - injection H as <-. cbn. intros id. unfold union_many. rewrite elem_of_sort_dedup. intros (l & Hin & Hid)%list_elem_of_In%in_concat.
    apply (Hlists l); by apply list_elem_of_In.
  - destruct (eval blocks (Some expand) r) as [sr|?|?] eqn:Er; [|done..]. specialize (Hr sr eq_refl). cbn [mbind res_bind] in H.
    destruct sr as [|ids]; [by injection H as <-|]. apply (IH (lists ++ [ids])); [|exact H].
    intros l [Hin| ->%list_elem_of_singleton]%elem_of_app; [by apply Hlists|exact Hr].
Qed.

Lemma children_below rs : Forall (fun r => starts_from known blocks r -> forall s, eval blocks (Some expand) r = Ok s -> below s) rs -> Forall (starts_from known blocks) rs ->
  Forall (fun r => forall s, eval blocks (Some expand) r = Ok s -> below s) rs.
Proof. rewrite !Forall_forall. eauto. Qed.

Lemma eval_below r : starts_from known blocks r -> forall s, eval blocks (Some expand) r = Ok s -> below s.
Proof.
  induction r as [| |id|o c l|rs IH|rs IH] using resolved_ind'; intros Hr s; cbn [eval starts_from] in *.
  - by intros [= <-].
  - intros [= <-]. by intros ? ?%elem_of_nil.
  - intros Hs. assert (s = SIds (expand_ids [id] (Some expand))) as -> by congruence. intros x. apply expand_below. by intros ? ->%list_elem_of_singleton.
  - intros (ids & Hids & Hs)%bind_ok. assert (s = SIds (expand_ids ids (Some expand))) as -> by congruence. intros x. apply expand_below.
    intros id. apply Hr. by destruct (blocks !! o); [injection Hids as <-|].
  - apply eval_and_below; [by apply children_below, starts_from_children|by intros ? ?%elem_of_nil].
  - apply eval_or_below; [by apply children_below, starts_from_children|by intros ? ?%elem_of_nil].
Qed.
End bounded.

(** Visiting does the visitor's step for every selection. *)
Section visiting.
Context (id_space : N) (strategy : Strategy) (lookup_ : list N -> res (option TermValue)).
Context (expand : N -> N -> N * N) (fetch_blocks : gmap N (N * N) -> res (gmap N (list N))) (known : N -> Prop) (n : N).
Context (Hexpand : forall k id x, known id -> (expand k id).1 <= x <= (expand k id).2 -> x < n).

(** The ids of the lists that are fetched are known. *)
Definition fetches_known : Prop := forall bound blocks,
  (forall r, r ∈ bound -> grams_known id_space lookup_ r) -> fetch_blocks (fold_left (fun needed query => blocks_needed query needed) bound ∅) = Ok blocks ->
  Forall (starts_from known blocks) bound.
Context (Hknown : fetches_known).

Abbreviation collect := (fun (acc : list (N * Selection)) index selection => Ok (acc ++ [(index, selection)])).

Lemma visit_fold {S} (f : S -> N -> Selection -> res S) blocks (bound : list (N * Resolved)) acc out s :
  Forall (starts_from known blocks) bound.*2 ->
  foldM (fun acc '(index, query) => selection ← eval blocks (Some (expand index)) query; collect acc index selection) acc bound = Ok out ->
  exists rest, out = acc ++ rest /\
    foldM (fun s '(index, query) => selection ← eval blocks (Some (expand index)) query; f s index selection) s bound =
      foldM (fun s '(k, selection) => f s k selection) s rest /\ Forall (fun entry => below n entry.2) rest.
Proof.
  intros Hb. revert acc s. induction bound as [|[index query] bound IH]; intros acc s H; cbn [foldM] in *.
  { injection H as ->. exists []. split; [by rewrite app_nil_r|done]. }
  apply Forall_cons in Hb as [Hq Hb]. specialize (IH Hb). cbn [snd] in Hq.
  destruct (eval blocks (Some (expand index)) query) as [sel|?|?] eqn:E; [|done..]. cbn [mbind res_bind] in *.
  pose proof (eval_below blocks (expand index) known n (Hexpand index) query Hq sel E) as Hbelow.
  destruct (f s index sel) as [s2|e|w] eqn:Ef; cbn [mbind res_bind].
  - destruct (IH _ s2 H) as (rest & -> & -> & Hrest). exists ((index, sel) :: rest). rewrite <- app_assoc. split; [done|]. cbn [foldM]. rewrite Ef. by split; [|constructor].
  - destruct (IH _ s H) as (rest & -> & _ & Hrest). exists ((index, sel) :: rest). rewrite <- app_assoc. split; [done|]. cbn [foldM]. rewrite Ef. by split; [|constructor].
  - destruct (IH _ s H) as (rest & -> & _ & Hrest). exists ((index, sel) :: rest). rewrite <- app_assoc. split; [done|]. cbn [foldM]. rewrite Ef. by split; [|constructor].
Qed.

Lemma bound_known queries bound blocks :
  bind_queries id_space strategy lookup_ queries = Ok bound ->
  fetch_blocks (fold_left (fun needed query => blocks_needed query needed) bound ∅) = Ok blocks -> Forall (starts_from known blocks) (enumerate bound).*2.
Proof.
  intros Hb%mapM_res_ok Hf. rewrite enumerate_snd. apply Hknown; [|exact Hf]. intros r Hr. apply list_elem_of_lookup in Hr as [k Hk].
  destruct (Forall2_lookup_r _ _ _ _ _ Hb Hk) as (q & _ & Hres). by eapply resolve_known.
Qed.

Lemma visit_as_fold {S} (f : S -> N -> Selection -> res S) plans out s :
  visit_candidate_selections id_space strategy lookup_ expand fetch_blocks collect plans [] = Ok out ->
  visit_candidate_selections id_space strategy lookup_ expand fetch_blocks f plans s = foldM (fun s '(k, selection) => f s k selection) s out /\
  Forall (fun entry => below n entry.2) out.
Proof.
  unfold visit_candidate_selections. destruct plans as [|plan [|plan2 plans]].
  - intros H. res_inv. rewrite H0. cbn [mbind res_bind]. rewrite H1. cbn [mbind res_bind].
    destruct (visit_fold f _ _ [] out s (bound_known _ _ _ H0 H1) H) as (rest & -> & -> & Hr). done.
  - intros H. res_inv. rewrite H0. cbn [mbind res_bind]. rewrite H1. cbn [mbind res_bind]. rewrite H2. cbn [mbind res_bind app foldM].
    split; [by destruct (f s 0 _)|]. constructor; [|constructor]. eapply eval_below; [apply Hexpand| |exact H2].
    assert (Forall (starts_from known a0) [a]) as Hall.
    { apply Hknown; [|exact H1]. intros r ->%list_elem_of_singleton. by eapply resolve_known. }
    by apply Forall_inv in Hall.
  - intros H. res_inv. rewrite H0. cbn [mbind res_bind]. rewrite H1. cbn [mbind res_bind].
    destruct (visit_fold f _ _ [] out s (bound_known _ _ _ H0 H1) H) as (rest & -> & -> & Hr). done.
Qed.
End visiting.

(** ** The candidates of a segment cover the matches *)

(** Posting lists that describe the documents: blocks of a trigram segment,
    documents of a sparse one. *)
Definition described (rapidhash_v3 : list N -> N) (radsort : list N -> list N) (strategy : Strategy) (tables : SegmentTables) (contents : list (list N))
    (postings : list N -> list N) : Prop :=
  match strategy with
  | Trigram => postings_describe radsort tables contents postings /\ contents_ok tables contents
  | Sparse => sparse_describe radsort contents rapidhash_v3 postings /\ len contents = len (documents tables)
  end.

(** A segment whose dictionary and posting blocks describe its documents.  Its
    deleted documents, which the search looks up with [binary_search], are sorted
    ([parse_dead] refuses a list that is not). *)
Record indexed (rapidhash_v3 : list N -> N) (radsort : list N -> list N) (strategy : Strategy) (segment : SegmentOps) (tables : SegmentTables)
    (contents : list (list N)) (postings : list N -> list N) (content : N -> list N) : Prop := {
  ix_tables : so_tables segment = Ok tables;
  ix_fit : tables_fit tables;
  ix_ids : match strategy with
    | Trigram => exists bases, segment_block_bases (so_meta segment) tables = Ok bases
    | Sparse => SegmentList.block_count (so_meta segment) = len (documents tables)
    end;
  ix_dead : ascending (dead_documents (so_dead segment));
  ix_count : seg_doc_count (so_meta segment) = len (documents tables);
  ix_docs : len (documents tables) < U32;
  ix_space : SegmentList.block_count (so_meta segment) < U32;
  ix_entries : forall g, entry_ok (SegmentList.block_count (so_meta segment)) (so_lookup segment) postings content g;
  ix_fetch : fetch_ok (SegmentList.block_count (so_meta segment)) (so_lookup segment) content (so_fetch segment);
  ix_postings : described rapidhash_v3 radsort strategy tables contents postings;
}.

(** The lists of a sparse segment only have ids of the space. *)
Lemma fetches_known_ok strategy id_space lookup_ postings content fetch n :
  (forall g, entry_ok id_space lookup_ postings content g) -> fetch_ok id_space lookup_ content fetch ->
  (strategy = Sparse -> id_space = n /\ forall g id, id ∈ postings g -> id < n) ->
  fetches_known id_space lookup_ fetch (fun id => strategy = Sparse -> id < n).
Proof.
  intros Hentries Hfetch Hn bound blocks Hbound Hblocks. apply Forall_forall. intros r Hr.
  destruct strategy; [by apply starts_from_any|]. destruct (Hn eq_refl) as [-> Hids]. clear Hn.
  destruct (Hfetch (fold_left (fun needed query => blocks_needed query needed) bound ∅)) as (blocks' & Hb & _ & Hneeded).
  { by apply needed_known; [|by intros ? ? ?; rewrite lookup_empty]. }
  rewrite Hblocks in Hb. injection Hb as <-. specialize (Hbound r Hr).
  assert (forall offset, mentions r offset -> blocks !! offset = Some (content offset)) as Hm.
  { intros offset Hm. apply Hneeded, needed_all. right. eauto. }
  clear Hr Hneeded Hblocks. induction r as [| |id|o c l|rs IH|rs IH] using resolved_ind'; cbn [starts_from grams_known mentions] in *; [done|done|by intros _| | |].
  - destruct Hbound as (g & value & Hg & Hu & Hc & _). rewrite (Hm o eq_refl). intros ids id [= <-] Hid _. apply (Hids g).
    specialize (Hentries g). unfold entry_ok in Hentries. rewrite Hg, Hu in Hentries. destruct Hentries as (_ & _ & H). by rewrite <- (H Hc).
  - apply starts_from_children, Forall_forall. intros r Hr. rewrite Forall_forall in IH. rewrite grams_known_children in Hbound. apply IH; [done|by apply Hbound|].
    intros offset Ho. apply Hm, mentions_children. eauto.
  - apply starts_from_children, Forall_forall. intros r Hr. rewrite Forall_forall in IH. rewrite grams_known_children in Hbound. apply IH; [done|by apply Hbound|].
    intros offset Ho. apply Hm, mentions_children. eauto.
Qed.

Section candidates.
Context (strategy : Strategy) (tables : SegmentTables) (bases : option (list N)) (plans : list CandidatePlan).
Abbreviation docs := (documents tables).
Abbreviation total := (base_of docs (len docs)).

(** Only a trigram search loads the block bases. *)
Definition bases_loaded : Prop := match strategy with Trigram => exists b, bases = Some b /\ bases_ok docs b | Sparse => bases = None end.
Context (Hbases : bases_loaded) (Hsmall : len docs < U32).

(** The ids a selection may have. *)
Definition id_limit : N := match strategy with Trigram => total | Sparse => len docs end.

Lemma expand_plan_below b k id x : bases_ok docs b -> (expand_plan tables b plans k id).1 <= x <= (expand_plan tables b plans k id).2 -> x < total.
Proof.
  clear Hbases. intros Hbases. unfold expand_plan. destruct (get plans k) as [plan|]; [|cbn; lia]. destruct (expand_candidate_block id b tables (plan_extent plan)) as [[lo hi]|?|?] eqn:E; [|cbn; lia..].
  cbn [fst snd]. cut (hi < total); [lia|]. unfold expand_candidate_block in E. res_inv.
  assert (wrapping_sub U32 a0 1 < total) as Hend.
  { unfold get_block_document in *. pose proof (bo_len _ _ Hbases) as Hl. set (pp := partition_point (fun base => base <=? id) b) in *.
    assert (pp <= len b) as Hpp by apply partition_point_le. apply get_Some_lt in H as Hlt. destruct (decide (pp = 0)) as [E0|E0].
    { rewrite E0 in Hlt. unfold wrapping_sub in Hlt. cbn in Hlt. lia. }
    rewrite wrapping_sub_small in * by lia. replace (pp - 1 + 1) with pp in * by lia. pose proof (get_Some_lt _ _ _ H0).
    rewrite (bo_get _ _ Hbases) in H0 by lia. injection H0 as <-.
    assert (get b pp = Some (base_of docs pp)) as Hpp2 by (apply (bo_get _ _ Hbases); lia).
    apply partition_point_at in Hpp2. apply N.leb_gt in Hpp2. pose proof (base_of_mono docs pp (len docs) ltac:(lia)). pose proof (bo_fits _ _ Hbases).
    rewrite wrapping_sub_small by lia. lia. }
  destruct (decide (plan_extent plan = EDocument)); [injection E as _ <-; exact Hend|]. res_inv. lia.
Qed.

Lemma expand_for_below k id x :
  (strategy = Sparse -> id < len docs) -> (expand_for strategy plans tables bases k id).1 <= x <= (expand_for strategy plans tables bases k id).2 -> x < id_limit.
Proof.
  unfold expand_for, id_limit. unfold bases_loaded in Hbases. destruct strategy.
  - destruct Hbases as (b & -> & Hb). intros _. by apply expand_plan_below.
  - cbn. intros H. specialize (H eq_refl). lia.
Qed.

Definition in_document (doc x : N) : Prop := doc < len docs /\ (strategy = Trigram -> x < base_of docs (doc + 1) - base_of docs doc).
Definition covering (candidates : list (N * option (list CandidateRange))) (e : SearchExtent) (s : Selection) : Prop :=
  forall doc x, in_document doc x -> wanted docs strategy e s doc x -> exists ranges, (doc, ranges) ∈ candidates /\ covers_block e ranges x.
Definition candidates_for (e : SearchExtent) (s : Selection) (candidates : list (N * option (list CandidateRange))) : Prop :=
  ascending candidates.*1 /\ (forall c, c ∈ candidates -> c.1 < len docs) /\ covering candidates e s /\
  (forall doc ranges, (doc, Some ranges) ∈ candidates -> Forall (fun r => start r < end_ r) ranges).

(** Whole documents, as a sparse search has them. *)
Lemma whole_candidates_for e s ids :
  ascending ids -> (forall id, id ∈ ids -> id < len docs) -> (forall doc x, doc < len docs -> wanted docs strategy e s doc x -> doc ∈ ids) ->
  candidates_for e s (fmap (M := list) whole_document ids).
Proof.
  intros Hasc Hids Hw. split; [by rewrite fmap_fst_whole|]. split; [intros [doc ranges] [? _]%elem_of_whole; by apply Hids|]. split.
  - intros doc x [Hd _] Hx. exists None. split; [|done]. apply elem_of_whole. split; [by eapply Hw|done].
  - by intros doc ranges [_ ?]%elem_of_whole.
Qed.

Lemma selection_candidates_ok e s :
  selection_ok s -> below id_limit s ->
  exists candidates, candidate_documents s e strategy (len docs) bases = Ok candidates /\ candidates_for e s candidates.
Proof.
  intros Hok Hb. unfold id_limit, bases_loaded in *. destruct strategy eqn:Es.
  - destruct Hbases as (b & -> & Hbo). destruct (candidate_documents_ok docs b Hbo Hsmall Trigram e s) as (cs & E & [H1 H2 H3 H4]); [destruct s; [done|by split]|].
    exists cs. split; [exact E|]. split; [exact H1|]. split; [intros [doc ranges] Hin; by apply (H2 doc ranges)|]. split.
    + intros doc x [Hd Hx] Hw. rewrite Es in Hw. apply (H4 doc x Hd (Hx Es)) in Hw as (ranges & Hin & e' & Ht). exists ranges. split; [exact Hin|].
      destruct ranges as [rs|]; [|done]. destruct Ht as (r & Hr & Hh & _). exists r. split; [done|]. split; [done|].
      destruct (H3 _ _ Hin) as [Hall _]. rewrite Forall_forall in Hall. destruct (Hall r Hr) as [_ ->]. apply broader_refl.
    + intros doc ranges Hin. destruct (H3 _ _ Hin) as [Hall _]. eapply Forall_impl; [exact Hall|]. by intros r [? _].
  - unfold candidate_documents. destruct s as [|ids].
    + eexists. split; [done|]. apply whole_candidates_for; [apply range_ascending|intros id Hid%elem_of_range; lia|]. intros doc x Hd _. apply elem_of_range. lia.
    + rewrite decide_True, (sparse_documents_ok docs) by done. eexists. split; [done|]. apply whole_candidates_for; [done|done|].
      intros doc x _. rewrite Es. cbn [wanted]. by rewrite decide_True.
Qed.

(** The documents accumulated from several plans. *)
Record accumulated (pre : list (N * Selection)) (m : gmap N (option (list CandidateRange))) : Prop := {
  ad_ok : map_ok m;
  ad_docs : forall doc, is_Some (m !! doc) -> doc < len docs;
  ad_covers : forall k s plan doc x, (k, s) ∈ pre -> get plans k = Some plan -> in_document doc x ->
    wanted docs strategy (plan_extent plan) s doc x -> map_covers m (plan_extent plan) doc x;
}.

Lemma add_candidates_docs candidates (m : gmap N (option (list CandidateRange))) doc :
  is_Some (fold_left add_candidate candidates m !! doc) -> is_Some (m !! doc) \/ exists ranges, (doc, ranges) ∈ candidates.
Proof.
  revert m. induction candidates as [|[d ranges] cs IH]; intros m; cbn [fold_left]; [by left|].
  intros [H|(r & Hr)]%IH; [|right; exists r; by right]. unfold add_candidate in H.
  assert (is_Some (m !! doc) \/ d = doc) as [?| ->]; [|by left|right; exists ranges; left].
  destruct (decide (d = doc)) as [|Hne]; [by right|left].
  destruct ranges as [rs|]; [destruct (default (Some []) (m !! d))|]; by rewrite lookup_insert_ne in H.
Qed.

Lemma take_selection_ok pre m k s plan :
  accumulated pre m -> len plans <> 1 -> get plans k = Some plan -> selection_ok s -> below id_limit s ->
  exists m', take_selection strategy plans (len docs) bases (None, m) k s = Ok (None, m') /\ accumulated (pre ++ [(k, s)]) m'.
Proof.
  intros [Hok Hdocs Hcov] Hlen Hplan Hs Hb. unfold take_selection. rewrite (proj2 (N.eqb_neq _ _) Hlen), Hplan. cbn [expect mbind res_bind fst snd].
  destruct (selection_candidates_ok (plan_extent plan) s Hs Hb) as (cs & E & _ & Hlt & Hc & Hv). clear Hb. unfold add_candidate_selection. rewrite E. cbn [mbind res_bind].
  eexists. split; [done|]. destruct (add_candidates_ok cs m Hok Hv) as [A1 A2 _]. split; [exact A1| |].
  - intros doc [?|(ranges & Hin)]%add_candidates_docs; [by apply Hdocs|by apply (Hlt (doc, ranges))].
  - intros k' s' plan' doc x [Hin|[= -> ->]%list_elem_of_singleton]%elem_of_app Hplan' Hd Hw; apply A2.
    + left. by eapply Hcov.
    + right. rewrite Hplan in Hplan'. injection Hplan' as <-. by apply Hc.
Qed.

Lemma btree_iter_ascending {A} (m : gmap N A) : ascending (btree_iter m).*1.
Proof.
  assert (StronglySorted N.le (btree_iter m).*1) as Hs.
  { unfold btree_iter. generalize (map_to_list m). intros l.
    pose proof (sort_by_sorted (fun a b : N * A => a.1 <=? b.1) ltac:(intros; rewrite !N.leb_le; lia) ltac:(intros; rewrite !N.leb_le in *; lia) l) as H.
    induction H as [|x l' _ IH Hx]; [constructor|]. cbn. constructor; [exact IH|]. rewrite Forall_fmap. eapply Forall_impl; [exact Hx|]. intros y ?%N.leb_le. done. }
  pose proof (btree_keys_nodup m) as Hnd. induction Hs as [|x l Hl IH Hx]; [constructor|]. apply NoDup_cons in Hnd as [Hin Hnd]. constructor; [by apply IH|].
  rewrite Forall_forall in Hx |- *. intros y Hy. specialize (Hx y Hy). assert (x <> y) by (intros ->; done). lia.
Qed.

Lemma segment_candidates_ok segment postings content :
  let space := SegmentList.block_count (so_meta segment) in
  plans <> [] -> seg_doc_count (so_meta segment) = len docs -> space < U32 ->
  (forall g, entry_ok space (so_lookup segment) postings content g) -> fetch_ok space (so_lookup segment) content (so_fetch segment) ->
  (strategy = Sparse -> space = len docs /\ forall g id, id ∈ postings g -> id < len docs) ->
  exists candidates, segment_candidates strategy plans segment tables bases = Ok candidates /\ ascending candidates.*1 /\
    (forall c, c ∈ candidates -> c.1 < len docs) /\
    forall k plan, get plans k = Some plan -> exists s,
      keeps_near postings (expand_for strategy plans tables bases) k (plan_query plan) s /\ covering candidates (plan_extent plan) s.
Proof.
  intros space Hne Hcount Hspace Hentries Hfetch Hids.
  destruct (visit_ok space strategy (so_lookup segment) postings content (expand_for strategy plans tables bases)
    (so_fetch segment) Hentries Hfetch plans) as (out & Hout & Hlen & Hall).
  destruct (visit_as_fold _ _ _ _ _ _ id_limit expand_for_below (fetches_known_ok _ _ _ _ _ _ _ Hentries Hfetch Hids)
    (take_selection strategy plans (len docs) bases) plans out (None, ∅) Hout) as [Hfold Hbelow].
  unfold segment_candidates. cbv zeta. rewrite Hcount. fold space. unfold to_u32. rewrite (proj2 (N.ltb_lt _ _) Hspace). cbn [mbind res_bind]. rewrite Hfold.
  rewrite Forall_forall in Hbelow. destruct (decide (len plans = 1)) as [H1|H1].
  - destruct plans as [|plan [|]]; [done| |rewrite !len_cons in H1; lia]. destruct (Hall 0 plan eq_refl) as (s & Hs & Hk).
    destruct out as [|[k' s'] [|]]; [done| |unfold len in Hlen; cbn in Hlen; lia]. injection Hs as -> ->.
    cbn [foldM]. unfold take_selection. change (len [plan] =? 1) with true. cbn [mbind res_bind]. change (get [plan] 0) with (Some plan). cbn [expect mbind res_bind].
    destruct (selection_candidates_ok (plan_extent plan) s (proj1 Hk) (Hbelow (0, s) ltac:(left))) as (cs & -> & A1 & A2 & A3 & _).
    exists cs. split; [done|]. split; [done|]. split; [done|]. intros k plan' Hget. apply get_cons_cases in Hget as [[-> ->]|(j & _ & Hj)].
    + exists s. done.
    + apply get_Some_lt in Hj. rewrite len_nil in Hj. lia.
  - edestruct (foldM_total (fun (pre : list (N * Selection)) (st : option Selection * gmap N (option (list CandidateRange))) =>
      st.1 = None /\ accumulated pre st.2)) as (st & Hst & Hnone & [Hok Hdocs Hcov]).
    3: { rewrite Hst. destruct st as [single m]. cbn in Hnone. subst single. cbn [mbind res_bind]. exists (btree_iter m).
         split; [done|]. split; [apply btree_iter_ascending|]. split; [intros [doc ranges] Hin%elem_of_btree_iter; apply Hdocs; eauto|].
         intros k plan Hget. destruct (Hall k plan Hget) as (s & Hs & Hk). exists s. split; [exact Hk|]. intros doc x Hd Hw.
         destruct (Hcov k s plan doc x (get_elem _ _ _ Hs) Hget Hd Hw) as (ranges & Hm & Hc). exists ranges. split; [by apply elem_of_btree_iter|done]. }
    { split; [done|]. split; cbn; [intros doc ranges; by rewrite lookup_empty|intros doc [? H]; by rewrite lookup_empty in H|by intros ? ? ? ? ? ?%elem_of_nil]. }
    intros pre [k s] post st Hsplit [Hn Hacc]. destruct st as [single m]. cbn [fst snd] in Hn, Hacc. subst single.
    assert (get out (len pre) = Some (k, s)) as Hget by (rewrite Hsplit; apply get_middle). pose proof (get_Some_lt _ _ _ Hget) as Hlt. rewrite Hlen in Hlt.
    destruct (get_is_Some _ _ Hlt) as [plan Hplan]. destruct (Hall _ _ Hplan) as (s' & Hs' & Hk). rewrite Hget in Hs'. injection Hs' as -> ->.
    destruct (take_selection_ok pre m (len pre) s' plan Hacc H1 Hplan (proj1 Hk) (Hbelow _ (get_elem _ _ _ Hget))) as (m' & -> & Hacc').
    eexists. split; [done|]. by split.
Qed.
End candidates.

(** ** The whole search *)

(** The documents of a segment, with what describes them. *)
Record Corpus : Type := { co_tables : SegmentTables; co_contents : list (list N); co_postings : list N -> list N; co_content : N -> list N }.

(** A text the extent of a plan spans.  A sparse segment has postings for whole
    documents, so any text in one is. *)
Definition within_reach (strategy : Strategy) (e : SearchExtent) (d : DocEntry) (before text : list N) : Prop :=
  match strategy with
  | Trigram => text <> [] /\ forall p q, len before <= p < len before + len text -> len before <= q < len before + len text -> extent_reaches e d p q
  | Sparse => True
  end.
(** A query of a plan satisfied by the grams the index has of a text. *)
Definition text_satisfies (rapidhash_v3 : list N -> N) (radsort : list N -> list N) (strategy : Strategy) (text : list N) (q : Query) : Prop :=
  exists grams, grams_index rapidhash_v3 radsort text strategy = Ok grams /\ satisfied (fun g => bool_decide (g ∈ grams)) q = true.

(** The batches of a segment: every live document that may match, once, with
    ranges that cover the matches. *)
Definition segment_batches (rapidhash_v3 : list N -> N) (radsort : list N -> list N) (strategy : Strategy) (plans : list CandidatePlan)
    (limits : CandidateBatchLimits) (j : N) (segment : SegmentOps) (corpus : Corpus) (batches : list (list DocAddress)) : Prop :=
  exists groups, Forall2 (Forall2 (addressed j (co_tables corpus))) groups batches /\
    Forall (batch_fits limits (co_tables corpus)) groups /\ ascending (concat groups).*1 /\
    (forall c, c ∈ concat groups -> c.1 ∉ dead_documents (so_dead segment)) /\
    forall k plan i d data before text after,
      get plans k = Some plan -> get (documents (co_tables corpus)) i = Some d -> get (co_contents corpus) i = Some data ->
      i ∉ dead_documents (so_dead segment) -> data = before ++ text ++ after ->
      within_reach strategy (plan_extent plan) d before text -> text_satisfies rapidhash_v3 radsort strategy text (plan_query plan) ->
      exists ranges, (i, ranges) ∈ concat groups /\
        forall x, len before <= x < len before + len text -> covers_block (plan_extent plan) ranges (x / CANDIDATE_BLOCK_BYTES).
Definition admitted (prefix : option (list N)) (segment : SegmentOps) : bool :=
  match prefix with Some prefix => prefix_overlaps (so_meta segment) prefix | None => true end.

(** The blocks of a text that satisfies a plan are selected. *)
Section text.
Context (rapidhash_v3 : list N -> N) (radsort : list N -> list N) `{!SortsN radsort} (strategy : Strategy) (tables : SegmentTables) (bases : option (list N)).
Context (contents : list (list N)) (postings : list N -> list N) (plans : list CandidatePlan).
Context (Hbases : bases_loaded strategy tables bases) (Hdocs : len (documents tables) < U32).
Context (Hpost : described rapidhash_v3 radsort strategy tables contents postings).

Lemma sparse_gram_posted before text after grams g i :
  strategy = Sparse -> get contents i = Some (before ++ text ++ after) -> grams_index rapidhash_v3 radsort text Sparse = Ok grams -> g ∈ grams -> i ∈ postings g.
Proof.
  intros Es Hdata Hgrams Hg. unfold described in Hpost. rewrite Es in Hpost. apply (proj1 Hpost).
  destruct (elem_of_sparse_all rapidhash_v3 text) as (grams' & E & Hin). cbn [grams_index] in Hgrams. rewrite Hgrams in E. injection E as <-.
  destruct (elem_of_sparse_all rapidhash_v3 (before ++ text ++ after)) as (all & Eall & Hall).
  exists (before ++ text ++ after), all, g. split; [done|]. split; [done|]. split; [|done]. apply Hall. by apply SparseGrams.indexed_infix, Hin.
Qed.

Lemma text_wanted k plan s i d before text after :
  get plans k = Some plan -> keeps_near postings (expand_for strategy plans tables bases) k (plan_query plan) s ->
  get (documents tables) i = Some d -> get contents i = Some (before ++ text ++ after) ->
  within_reach strategy (plan_extent plan) d before text -> text_satisfies rapidhash_v3 radsort strategy text (plan_query plan) ->
  forall x, (strategy = Trigram -> len before <= x < len before + len text) ->
    in_document strategy tables i (x / CANDIDATE_BLOCK_BYTES) /\ wanted (documents tables) strategy (plan_extent plan) s i (x / CANDIDATE_BLOCK_BYTES).
Proof.
  intros Hplan [_ Hkeep] Hd Hdata Hreach (grams & Hgrams & Hsat) x Hx. pose proof (get_Some_lt _ _ _ Hd) as Hi.
  pose proof (fun grams g Es => sparse_gram_posted before text after grams g i Es Hdata) as Hposted.
  unfold in_document. destruct strategy eqn:Es.
  - specialize (Hx eq_refl). destruct Hbases as (b & -> & Hbo), Hpost as [Htri Hcontents], Hreach as [_ Hreach]. injection Hgrams as <-.
    destruct (Hcontents i d Hd) as (data & Hdata' & _ & Hsize & Hbig). rewrite Hdata in Hdata'. injection Hdata' as <-. rewrite !len_app in Hsize, Hbig.
    pose proof (block_in_document tables Hdocs i d x Hd ltac:(lia)) as Hb. change CANDIDATE_BLOCK_BYTES with 131072 in *. specialize (Hb ltac:(lia)).
    split; [split; [done|lia]|]. destruct s as [|ids]; [done|]. unfold wanted. rewrite decide_False by done.
    assert (base_of (documents tables) i + x / 131072 ∈ ids) as Hsel.
    { apply Hkeep. eapply satisfied_mono; [|exact Hsat]. intros g Hg%bool_decide_eq_true.
      by eapply (gram_near radsort tables b contents plans postings Htri Hcontents Hbo Hdocs k plan i d _ text before after). }
    case_decide; [|done]. eexists. split; [exact Hsel|]. lia.
  - split; [done|]. destruct s as [|ids]; [done|]. unfold wanted. rewrite decide_True by done. apply Hkeep. eapply satisfied_mono; [|exact Hsat].
    intros g Hg%bool_decide_eq_true. apply bool_decide_eq_true, elem_of_expand. exists i. split; [|cbn; lia]. by eapply Hposted.
Qed.
End text.

Section whole.
Context (rapidhash_v3 : list N -> N) (radsort : list N -> list N) `{!SortsN radsort} (strategy : Strategy) (plans : list CandidatePlan) (limits : CandidateBatchLimits).
Context (Hplans : validate_candidate_plans plans limits = Ok tt) (Hbytes : limit_decoded_bytes limits < U64).

Lemma plans_valid : plans <> [] /\ 0 < limit_documents limits.
Proof.
  pose proof Hplans as H. unfold validate_candidate_plans in H. split; [by intros E; rewrite E in H|].
  apply bind_ok in H as (? & _ & H). apply bind_ok in H as (? & H%ensure_ok & _). by apply N.ltb_lt in H.
Qed.

Definition indexes (segment : SegmentOps) (corpus : Corpus) : Prop :=
  indexed rapidhash_v3 radsort strategy segment (co_tables corpus) (co_contents corpus) (co_postings corpus) (co_content corpus).

(** The candidates of a segment, with the block bases its strategy asks for. *)
Lemma read_candidates_ok segment corpus :
  indexes segment corpus -> exists bases candidates,
    bases_loaded strategy (co_tables corpus) bases /\
    (match strategy with Trigram => bases ← segment_block_bases (so_meta segment) (co_tables corpus); Ok (Some bases) | Sparse => Ok None end) = Ok bases /\
    segment_candidates strategy plans segment (co_tables corpus) bases = Ok candidates /\ ascending candidates.*1 /\
    (forall c, c ∈ candidates -> c.1 < len (documents (co_tables corpus))) /\
    forall k plan, get plans k = Some plan -> exists s,
      keeps_near (co_postings corpus) (expand_for strategy plans (co_tables corpus) bases) k (plan_query plan) s /\
      covering strategy (co_tables corpus) candidates (plan_extent plan) s.
Proof.
  destruct corpus as [tables contents postings content]. cbn. intros [Ht Hfit Hids _ Hcount Hdocs Hspace Hentries Hfetch Hpost].
  cbn [co_tables co_contents co_postings co_content] in *.
  assert (exists bases, bases_loaded strategy tables bases /\
    (match strategy with Trigram => bases ← segment_block_bases (so_meta segment) tables; Ok (Some bases) | Sparse => Ok None end) = Ok bases) as (bases & Hbo & Hb).
  { unfold bases_loaded. destruct strategy; [|by exists None]. destruct Hids as [b Hb]. exists (Some b). rewrite Hb. split; [|done]. exists b. split; [done|].
    unfold segment_block_bases in Hb. apply bind_ok in Hb as (b' & Hb & H). apply bind_ok in H as (? & _ & [= ->]). by apply build_block_bases_ok. }
  destruct (segment_candidates_ok strategy tables bases plans Hbo Hdocs segment postings content (proj1 plans_valid) Hcount Hspace Hentries Hfetch) as (cs & Hcs).
  { intros Es. rewrite Es in Hids, Hpost. split; [exact Hids|]. intros g id (data & grams & gram & Hget & _)%(proj1 Hpost).
    rewrite <- (proj2 Hpost). by eapply get_Some_lt. }
  exists bases, cs. by split; [|split].
Qed.

Lemma read_segment_ok j segment corpus :
  indexes segment corpus ->
  exists batches, segment_batches rapidhash_v3 radsort strategy plans limits j segment corpus batches /\
    forall S (visit : S -> list DocAddress -> res (S * bool)) s, read_segment strategy plans limits visit j segment s = run visit batches s.
Proof.
  intros Hix. destruct (read_candidates_ok segment corpus Hix) as (bases & cs & Hbo & Hbases & Hcs & Hasc & Hlt & Hcov).
  destruct corpus as [tables contents postings content], Hix as [Ht Hfit _ _ _ Hdocs _ _ _ Hpost]. cbn [co_tables co_contents co_postings co_content] in *.
  pose proof (proj2 plans_valid) as Hlim.
  set (live := List.filter (is_live (so_dead segment)) cs).
  destruct (batch_loop_ok limits j tables Hfit Hlim Hbytes [] new_batch live (filling_nil limits j tables)) as (groups & batches & group' & b' & E1 & E2 & E3 & E4 & E5).
  { intros c [Hc _]%elem_of_coq_filter. by apply Hlt. }
  assert (exists last_groups last_batches, concat (groups ++ last_groups) = live /\ Forall2 (Forall2 (addressed j tables)) last_groups last_batches /\
    Forall (batch_fits limits tables) last_groups /\ last_batches = (match bt_docs b' with [] => [] | _ => [bt_docs b'] end)) as (lg & lb & L1 & L2 & L3 & L4).
  { pose proof (fi_docs _ _ _ _ _ E4) as Hd. destruct (bt_docs b') as [|a docs] eqn:Eb.
    - inversion Hd; subst. exists [], []. rewrite !app_nil_r in *. split; [exact E1|]. by split; [|split].
    - assert (group' <> []) as Hg by (intros ->; inversion Hd). exists [group'], [a :: docs]. rewrite concat_app. cbn [concat]. rewrite app_nil_r. split; [exact E1|]. split; [by repeat constructor|].
      split; [constructor; [by eapply filling_fits|done]|done]. }
  exists (batches ++ lb). split.
  - exists (groups ++ lg). cbn [co_tables co_contents co_postings]. rewrite L1. split; [by apply Forall2_app|]. split; [by apply Forall_app|].
    split; [by apply filter_ascending_fst|]. split.
    { intros c [_ Hc]%elem_of_coq_filter. unfold is_live, binary_search in Hc. by apply negb_true_iff, bool_decide_eq_false in Hc. }
    intros k plan i d data before text after Hplan Hd Hdata Hlive -> Hreach Hsat. destruct (Hcov k plan Hplan) as (s & Hkeep & Hc).
    assert (forall x, (strategy = Trigram -> len before <= x < len before + len text) ->
      exists ranges, (i, ranges) ∈ live /\ covers_block (plan_extent plan) ranges (x / CANDIDATE_BLOCK_BYTES)) as Heach.
    { intros x Hx. destruct (text_wanted rapidhash_v3 radsort strategy tables bases contents postings plans Hbo Hdocs Hpost
        k plan s i d before text after Hplan Hkeep Hd Hdata Hreach Hsat x Hx) as [Hin Hw].
      destruct (Hc _ _ Hin Hw) as (ranges & Hr & Hcb). exists ranges. split; [|done]. apply elem_of_coq_filter. split; [done|].
      unfold is_live, binary_search. by rewrite bool_decide_eq_false_2. }
    destruct (Heach (len before)) as (ranges & Hr & _).
    { intros Es. rewrite Es in Hreach. destruct Hreach as [Hne _]. destruct text; [done|rewrite len_cons; lia]. }
    exists ranges. split; [exact Hr|]. intros x Hx. destruct (Heach x (fun _ => Hx)) as (ranges' & Hr' & Hcb).
    assert ((i, ranges') = (i, ranges)) as [= ->]; [|done].
    eapply (nodup_fmap_inj fst live); [by apply ascending_nodup, filter_ascending_fst|exact Hr'|exact Hr|done].
  - intros S visit s. unfold read_segment. rewrite Ht. cbn [mbind res_bind]. rewrite Hbases. cbn [mbind res_bind]. rewrite Hcs. cbn [mbind res_bind].
    fold live. rewrite E5, run_app, L4. unfold and_then. destruct (run visit batches s) as [[s'|s']|?|?]; cbn [mbind res_bind]; [done| |done..].
    destruct (bt_docs b') as [|a docs]; [by rewrite bool_decide_eq_true_2|]. rewrite bool_decide_eq_false_2 by done. cbn [run].
    by destruct (visit s' (a :: docs)) as [[s2 []]|?|?].
Qed.

(** The batches of each segment, in order. *)
Definition searched (prefix : option (list N)) (start_id : N) (segments : list SegmentOps) (corpora : list Corpus) (per_segment : list (list (list DocAddress))) : Prop :=
  len per_segment = len segments /\
  forall j segment corpus batches, get segments j = Some segment -> get corpora j = Some corpus -> get per_segment j = Some batches ->
    if admitted prefix segment then segment_batches rapidhash_v3 radsort strategy plans limits (start_id + j) segment corpus batches else batches = [].

Lemma read_segments_ok prefix start_id segments corpora :
  Forall2 indexes segments corpora ->
  exists per_segment, searched prefix start_id segments corpora per_segment /\
    forall S (visit : S -> list DocAddress -> res (S * bool)) s,
      read_segments strategy plans limits visit prefix start_id segments s =
        (flow ← run visit (concat per_segment) s; Ok (match flow with inl s => s | inr s => s end)).
Proof.
  intros H. revert start_id. induction H as [|segment corpus segments corpora Hseg _ IH]; intros start_id.
  { exists []. split; [split; [done|]; intros j ? ? ? Hj; apply get_Some_lt in Hj; rewrite len_nil in Hj; lia|done]. }
  destruct (IH (start_id + 1)) as (rest & [Hlen Hall] & Hrun). clear IH. destruct (read_segment_ok start_id segment corpus Hseg) as (bs & Hbs & Hread).
  exists ((if admitted prefix segment then bs else []) :: rest). split.
  - split; [by rewrite !len_cons, Hlen|]. intros j seg corp batches [[-> ->]|(j' & -> & Hj)]%get_cons_cases.
    + rewrite !get_cons_0. intros [= <-] [= <-]. rewrite N.add_0_r. by destruct (admitted prefix segment).
    + rewrite !get_cons_S. intros Hc Hb. specialize (Hall j' seg corp batches Hj Hc Hb). by replace (start_id + (1 + j')) with (start_id + 1 + j') by lia.
  - intros S visit s. cbn [read_segments concat]. unfold admitted. destruct (match prefix with Some p => negb (prefix_overlaps (so_meta segment) p) | None => false end) eqn:Ep.
    + assert (admitted prefix segment = false) as Ea by (unfold admitted; destruct prefix; [by apply negb_true_iff|done]). unfold admitted in Ea. rewrite Ea. apply Hrun.
    + assert (admitted prefix segment = true) as Ea by (unfold admitted; destruct prefix; [by apply negb_false_iff|done]). unfold admitted in Ea. rewrite Ea, Hread, run_app.
      unfold and_then. destruct (run visit bs s) as [[s'|s']|?|?]; cbn [mbind res_bind]; [done|apply Hrun|done..].
Qed.
End whole.

(** ** Property *)

(** C1: a search finds every document that may match, in a trigram index and in
    a sparse one.  What the visitor gets, whoever it is, are the same batches up
    to where it stops: for every segment that the prefix admits, its live
    candidates in order, each once, among them every live document with a text
    whose grams satisfy the query of a plan (in a trigram index a text the extent
    of the plan spans), with ranges that cover the text; for the other segments
    nothing.  A batch never has more documents than the limit, and never more
    block bytes, unless its only document is alone for its size.  The search does
    not fail, unless the visitor does. *)
Theorem search_exact rapidhash_v3 radsort `{!SortsN radsort} strategy plans limits key_prefix segments corpora :
  validate_candidate_plans plans limits = Ok tt -> limit_decoded_bytes limits < U64 ->
  Forall2 (indexes rapidhash_v3 radsort strategy) segments corpora ->
  exists per_segment, searched rapidhash_v3 radsort strategy plans limits (before_member <$> key_prefix) 0 segments corpora per_segment /\
    forall S (visit : S -> list DocAddress -> res (S * bool)) s,
      read_candidate_batches strategy plans limits visit key_prefix segments s =
        (flow ← run visit (concat per_segment) s; Ok (match flow with inl s => s | inr s => s end)).
Proof.
  intros Hplans Hbytes Hsegs.
  destruct (read_segments_ok rapidhash_v3 radsort strategy plans limits Hplans Hbytes (before_member <$> key_prefix) 0 segments corpora Hsegs) as (per & Hper & Hrun).
  exists per. split; [exact Hper|]. intros S visit s. unfold read_candidate_batches. rewrite Hplans. apply Hrun.
Qed.

(** ** Witness: segments with the one document "abc", a trigram one and a sparse one *)

Definition abc_source : SourceEntry :=
  {| key := [100]; version := []; encoded_size := 3; encoding := Raw; first_doc := 0; doc_count := 1; failed := false; retry := false |}.
Definition abc_block : PackBlock := {| pack := 0; pb_offset := 0; compressed_len := 3; decoded_len := 3; pb_hash := [] |}.
Definition abc_tables : SegmentTables := {| sources := [abc_source]; documents := [demo_doc 3]; blocks := [abc_block] |}.
Definition abc_segment (lookup_ : list N -> res (option TermValue)) : SegmentOps := {|
  so_meta := {| seg_id := [49]; seg_doc_count := 1; SegmentList.block_count := 1; terms_fst_len := 0; terms_fst_hash := []; terms_tail_hash := [];
    postings_len := 0; postings_hash := []; postings_data_len := 0; postings_tail_hash := []; docs_len := 0; docs_hash := []; min_key := [100]; max_key := [100];
    dead_hash := []; dead_len := 0; failed_source_count := 0; seg_packs := [] |};
  so_dead := {| dead_sources := []; dead_documents := [] |}; so_tables := Ok abc_tables; so_lookup := lookup_; so_fetch := empty_fetch;
|}.
Definition abc_corpus (postings : list N -> list N) : Corpus := {| co_tables := abc_tables; co_contents := [[97; 98; 99]]; co_postings := postings; co_content := fun _ => [] |}.
Definition abc_limits : CandidateBatchLimits := {| limit_documents := 10; limit_decoded_bytes := 100 |}.

(** The hashes a sparse index has of the document, and the plan of "abc". *)
Definition abc_hashes : list N := [24273; 24521; 174654].
Definition sparse_postings (g : list N) : list N := if bool_decide (hash_ngram sum_hash g ∈ abc_hashes) then [0] else [].
Definition sparse_lookup (g : list N) : res (option TermValue) :=
  if bool_decide (hash_ngram sum_hash g ∈ abc_hashes) then v ← pack_posting 0 1; Ok (Some {| packed := v; tv_len := Some 0 |}) else Ok None.
Definition sparse_plan : CandidatePlan := {| plan_query := QAnd [QGram [97; 98; 99]; QGram [98; 99]]; plan_extent := ELines |}.

Lemma only_document {A} (x : A) (P : N -> A -> Prop) : P 0 x -> forall i y, get [x] i = Some y -> P i y.
Proof. intros H i y [[-> ->]|(j & _ & Hj)]%get_cons_cases; [done|]. apply get_Some_lt in Hj. rewrite len_nil in Hj. lia. Qed.

Lemma abc_fits : tables_fit abc_tables.
Proof.
  split; [| |done|by repeat constructor].
  - apply (only_document (demo_doc 3) (fun i d => exists first end_, _)). by exists 0, 1.
  - apply (only_document (demo_doc 3) (fun i d => is_Some _)). by exists abc_source.
Qed.
Lemma abc_fetches lookup_ : fetch_ok 1 lookup_ (fun _ => []) empty_fetch.
Proof.
  intros needed _. exists ((fun _ => []) <$> needed). split; [done|]. split.
  - intros offset ids H. apply lookup_fmap_Some in H as (? & <- & _). constructor.
  - intros offset [v Hv]. by rewrite lookup_fmap, Hv.
Qed.

Lemma abc_indexed : indexes sum_hash sort_N Trigram (abc_segment abc_lookup) (abc_corpus abc_postings).
Proof.
  split; try done; [exact abc_fits|exists [0; 1]; vm_compute; reflexivity|constructor| |apply abc_fetches|split; [exact abc_postings_describe|]].
  - intros gram. unfold entry_ok, abc_segment, so_lookup, abc_corpus, co_postings, abc_lookup, abc_postings. case_bool_decide; [|done].
    vm_compute. repeat split; intros; reflexivity || congruence.
  - refine (only_document (demo_doc 3) (fun i d => exists data, get [[97; 98; 99]] i = Some data /\ Forall is_byte data /\ len data = decoded_size d /\
      len data <= 2 ^ 32 * CANDIDATE_BLOCK_BYTES) _).
    exists [97; 98; 99]. split; [done|]. repeat split; [repeat constructor|vm_compute; discriminate].
Qed.

Lemma abc_sparse_describe : sparse_describe sort_N [[97; 98; 99]] sum_hash sparse_postings.
Proof.
  assert (grams_index sum_hash sort_N [97; 98; 99] Sparse = Ok [[97; 98]; [97; 98; 99]; [98; 99]]) as Hg by (vm_compute; reflexivity).
  assert (abc_hashes ≡ₚ hash_ngram sum_hash <$> [[97; 98]; [97; 98; 99]; [98; 99]]) as Hh by (vm_compute; constructor; apply perm_swap).
  assert (forall g, hash_ngram sum_hash g ∈ abc_hashes <-> exists gram, gram ∈ [[97; 98]; [97; 98; 99]; [98; 99]] /\ hash_ngram sum_hash g = hash_ngram sum_hash gram) as Hmem.
  { intros g. rewrite Hh, list_elem_of_fmap. naive_solver. }
  intros g id. unfold sparse_postings. case_bool_decide as E; rewrite Hmem in E.
  - rewrite list_elem_of_singleton. split.
    + intros ->. destruct E as (gram & Hin & Heq). by exists [97; 98; 99], [[97; 98]; [97; 98; 99]; [98; 99]], gram.
    + intros (data & grams & gram & Hd & _). revert id data Hd. by apply only_document.
  - split; [by intros ?%elem_of_nil|]. intros (data & grams & gram & Hd & Hgr & Hin & Heq). destruct E. exists gram. split; [|done].
    rewrite (only_document [97; 98; 99] (fun _ data => data = [97; 98; 99]) eq_refl id data Hd), Hg in Hgr. by injection Hgr as <-.
Qed.

Lemma abc_sparse_indexed : indexes sum_hash sort_N Sparse (abc_segment sparse_lookup) (abc_corpus sparse_postings).
Proof.
  split; try done; [exact abc_fits|constructor| |apply abc_fetches|by split; [exact abc_sparse_describe|]].
  intros gram. unfold entry_ok, abc_segment, so_lookup, abc_corpus, co_postings, sparse_lookup, sparse_postings. case_bool_decide; [|done].
  vm_compute. repeat split; intros; reflexivity || congruence.
Qed.

(** A trigram search reports the block of the match, a sparse one the document. *)
Lemma search_exact_witness :
  read_candidate_batches Trigram [abc_plan] abc_limits (fun seen batch => Ok (seen ++ batch, true)) None [abc_segment abc_lookup] [] =
    Ok [address_of 0 abc_source (demo_doc 3) 0 (Some [{| start := 0; end_ := 1; extent := EBytes 3 |}])] /\
  read_candidate_batches Sparse [sparse_plan] abc_limits (fun seen batch => Ok (seen ++ batch, true)) None [abc_segment sparse_lookup] [] =
    Ok [address_of 0 abc_source (demo_doc 3) 0 None] /\
  (exists per_segment, searched sum_hash sort_N Trigram [abc_plan] abc_limits None 0 [abc_segment abc_lookup] [abc_corpus abc_postings] per_segment /\
    forall S (visit : S -> list DocAddress -> res (S * bool)) s,
      read_candidate_batches Trigram [abc_plan] abc_limits visit None [abc_segment abc_lookup] s =
        (flow ← run visit (concat per_segment) s; Ok (match flow with inl s => s | inr s => s end))) /\
  exists per_segment, searched sum_hash sort_N Sparse [sparse_plan] abc_limits None 0 [abc_segment sparse_lookup] [abc_corpus sparse_postings] per_segment /\
    forall S (visit : S -> list DocAddress -> res (S * bool)) s,
      read_candidate_batches Sparse [sparse_plan] abc_limits visit None [abc_segment sparse_lookup] s =
        (flow ← run visit (concat per_segment) s; Ok (match flow with inl s => s | inr s => s end)).
Proof.
  split; [vm_compute; reflexivity|]. split; [vm_compute; reflexivity|]. split.
  - apply (search_exact sum_hash sort_N Trigram [abc_plan] abc_limits None [abc_segment abc_lookup] [abc_corpus abc_postings]); [reflexivity|reflexivity|].
    constructor; [exact abc_indexed|constructor].
  - apply (search_exact sum_hash sort_N Sparse [sparse_plan] abc_limits None [abc_segment sparse_lookup] [abc_corpus sparse_postings]); [reflexivity|reflexivity|].
    constructor; [exact abc_sparse_indexed|constructor].
Defined.
